(* ===== verification/_CoqProject ===== *)
-Q . S2P
Prelude.v
Bytes.v
Primitives.v
Address.v
Account.v
Stack.v
Types.v
Codec.v
Transaction.v
Utxo.v
Merkle.v
Genesis.v
Words.v
Target.v
Work.v
Tables.v
Storage.v
Consensus.v
Chain.v
Script.v
Wallet.v
Authorization.v
StorageSpec.v
Store.v
StorageTyped.v
Mempool.v
MempoolInv.v
MempoolSpec.v
MempoolSelect.v
MempoolTheorems.v
Vm.v
VmAdapter.v
Vault.v
Scy20.v
Mining.v
ChainReplay.v
Node.v
Recovery.v
NodeQuery.v
Passbook.v
Bridge.v
Transfer.v
Contracts.v
Limiter.v
Gateway.v
Indexer.v
Sync.v
Stratum.v
StratumServer.v
StratumService.v
