(* ===== verification/Prelude.v ===== *)
(** * Scytale: a verification development of the ledger core

    Scytale is a proof-of-work ledger: a node keeps a tree of blocks, the set
    of unspent outputs at its tip, a pool of transactions and a database, mines
    or receives blocks, and runs scripts and WebAssembly validators on the
    inputs of transactions. Wallets, miners, other nodes and an index talk to
    it. This development translates the code from the byte encodings to the node
    and its interfaces, and proves what each part promises to the next.

    ** Reading the model

    A Rust call is an [outcome]: [Ok], [Err], [Panic] (a failed [expect], index
    or slice) or [Diverge] (a loop that ran out of fuel). A method that takes
    [&mut] is an [stM] computation, which gives the state it leaves behind with
    its result, so what a failing call has already changed is visible. [let?]
    is [?] on an outcome, [let!] the same on a computation. An unsigned integer
    is an [N] whose width shows in its operations ([wrap64], [checked_add],
    [saturating_add], ..) and in the [.._wf] predicates; an [i64] or [i32] is a
    [Z]. A hash is 32 bytes, a byte string [list byte], a hash map [gmap], a
    vector a list. An iteration over a hash map uses the enumeration of the
    model; results are stated up to it.

    Code that is not in the repository is a class of parameters, with what the
    ledger relies on in a second class of laws where it relies on anything:
    [Blake3], [Ed25519] (Primitives.v), [Bincode] (Transaction.v), [Wasmi] and
    [Payload] (Vm.v), [Redb] and [RedbLaws] (Storage.v), [Uint256] and
    [Uint256Laws] (Stratum.v), [Json] and [HexDecode] (StratumServer.v),
    [Bech32] (Address.v), [SidecarJson], [Ed25519Verify] and [KeyCipher]
    (Account.v), [SyncWire] (Sync.v), [Sqlite] (Indexer.v), [Ed25519Sign],
    [Bip39] and [WalletJson] (Wallet.v), [Json] (Bridge.v), [BincodeTag]
    (Transfer.v), [HexCrate] (Contracts.v). What the scheduler decides is
    [Schedule] (Mining.v); the clock and the time are arguments. Every class
    has an instance, used by the witnesses.

    ** The parts

    - Prelude.v, Bytes.v: outcomes, computations, machine integers, endianness.
    - Primitives.v, Types.v, Codec.v, Transaction.v, Utxo.v, Merkle.v,
      Genesis.v, Authorization.v, VmAdapter.v: scytale-primitives and
      scytale-core, one file for each source file, but for [utxo.rs], which is
      Utxo.v and Merkle.v, and the data types, which are in Types.v.
    - Words.v, Target.v, Work.v, Consensus.v, Chain.v: scytale-consensus.
      [process_block_with_verifier] is a computation on the pair of the tree and
      the set; [BlockTransactionVerifier] is the class of its verifier and
      [VerifierReturns] what the tree needs of it. ChainReplay.v proves what a
      stored block has passed.
    - Stack.v, Script.v: scytale-script. Vm.v: scytale-vm and scytale-sdk.
      Vault.v, Scy20.v: the two contracts.
    - Mempool.v: scytale-mempool, its theorems in MempoolInv.v, MempoolSpec.v,
      MempoolSelect.v and MempoolTheorems.v.
    - Mining.v: the block templates and the nonce search of scytale-mining.
    - Tables.v, Storage.v: scytale-storage. A write of [engine.rs] is a
      computation on the contents of the tables, committed when it succeeds.
      StorageSpec.v states what the tables hold against the ledger,
      StorageTyped.v that every row decodes.
    - Store.v: the interface [BlockStore] between the node and its storage,
      with [BlockStoreLaws]; the engine is an instance.
    - Node.v, Recovery.v, NodeQuery.v: [apps/scytale-node/src/node.rs]: blocks
      and transactions from outside, mined blocks, start and recovery, queries
      and snapshots. The node holds its locks for a whole operation, which is
      one step on [Shared]; [node_life] is the relation of the states reached.
    - Stratum.v, StratumServer.v, StratumService.v: scytale-stratum and
      [stratum_service.rs]: shares, sessions, the server, jobs and candidates.
      A request is one step; [served] and [serving] are the states reached.
    - Address.v, Account.v: [address.rs] of scytale-core, and scytale-account
      with the alias requests of [http_gateway.rs]: the store with every step
      of the replacement of its file, the PIN vault.
    - Sync.v: [network/sync.rs], the limits and frames of [network/p2p.rs] and
      the task of [main.rs] that handles the messages of peers. [Daemon] is the
      node with its synchronisation state, [Effect] what the task sends.
    - Indexer.v: scytale-indexer, [indexer/mod.rs] and what [node.rs] tells
      them. Passbook.v: [passbook.rs], the ledger as an account sees it.
    - Bridge.v: scytale-bridge and the two ends of the local socket
      ([handle_client], [send_node_request]). Gateway.v: [process_request] of
      [ipc.rs] and the handlers of [http_gateway.rs], on the state
      [NodeProcess]; Limiter.v: the rate limiter before the routes that write.
    - Wallet.v, Transfer.v, Contracts.v: [wallet.rs], [main.rs] and
      [contract.rs] of scytale-cli. The other side of a command is a function
      on a state; the node is an instance of it, by [node_side] and [socket].

    ** What is proved

    - The ledger. Whatever blocks arrive in whatever order, the set of unspent
      outputs is the replay of the canonical chain (Chain.chain_state_is_ledger),
      its value never exceeds the issue (chain_supply_bounded), the tip has the
      most work (canonical_work_rule), a call always returns
      (process_block_returns), and a block that is refused changes nothing it
      should not. [apply_block] refines a step relation (Utxo.apply_block_spec);
      authoritative validation is characterized (Consensus), as are the verifier
      of the node (Node.node_verifier_spec) and contract inputs (VmAdapter).
    - The node. Every operation keeps the invariant that tree, set, pool and
      store agree (Node.node_invariant); a restart restores tip and set
      (Recovery.restart_restores); queries read the canonical chain, and a
      snapshot is carried over (NodeQuery).
    - Storage. Commit, reorganization and rollback are refined by the operations
      of the ledger (StorageSpec), and no read meets a row it cannot decode
      (StorageTyped.engine_rows_typed).
    - Encodings. Codecs round trip and are canonical (Codec), Merkle proofs are
      sound up to a collision (Merkle), targets and retargeting stay in bounds
      (Target), work is division (Work).
    - Scripts, contracts, pool. The interpreter terminates within its budget and
      refines a reference semantics of structured scripts (Script); the vault
      pays only as its rule says (Vault); the pool keeps its indices, and
      admission, block events and selection are characterized (Mempool..).
    - Mining and Stratum. A mined block is accepted (Mining), so is a pool block
      where the code allows it (StratumService); a share is credited once.
    - Other nodes. A node that hears of a longer chain fetches it from a peer
      that answers, and ends on its tip (Sync.download_completes); the two ways
      this stalls are theorems too.
    - What users are shown. The index agrees with the ledger while the chain
      grows (Indexer.index_is_ledger) and catches up (catchup_completes); what
      a statement proves is stated exactly (Passbook.statement_check_sound); a
      number is bound by the owner of its key alone, and a store that failed at
      any step opens again (Account).
    - Commands. A session over the socket is its requests one after the other
      (Bridge.session_spec); a transfer is exactly what the node takes, or is
      refused for what the wallet does not look at (Transfer.transfer_spec); a
      dry run is the check of the node when module and datum are those of the
      output (Contracts.dry_run_agrees, Gateway.call_on_node); wallets are
      restored and sealed (Wallet); at most fifty-nine writes of a client pass in
      a second, and none is refused before thirty (Limiter.limiter_spec).
    - Where the code does not do what it means to, the behaviour itself is the
      theorem: retarget_stalls, invalid_body_poisons_header, scy20_tokens_frozen,
      pool_extranonce_refused, unwind_leaves_phantom, fork_download_stalls,
      orphan_counted, encrypted_cannot_embed, mining_payout and others.
    - Where a document says otherwise than the code, the theorem states the rule
      of the code and its comment says so: coinbase outputs may be spent at once
      (Utxo.maturity_ignored), of two branches of equal work the first seen stays
      (canonical_work_rule), data outputs may carry value, and a pending
      transaction is never replaced (MempoolTheorems.mempool_admission_spec).

    ** Fuel

    A loop that is not structural takes fuel, and is proved to return before it
    runs out: the walks along parent links of the tree have one unit for each
    height below their start (process_block_returns); the walks of recovery and
    of the queries on disk need more than the persisted height, the locator no
    more than the length of the chain; the Merkle loop has the number of leaves,
    the branch loop of a Stratum job one more; the walks over the dependency
    maps of the pool one more than the edges, or the identifiers, they can
    reach, and eviction one more than the keys of its index; hexadecimal loops
    16 digits; the script interpreter the bytes of the script; a session of the
    socket the bytes that come, since a message takes one at least; decimal text
    20 digits. The trace of an output (Passbook, Gateway) takes its fuel as an
    argument, because the code has no bound.

    ** What is not modelled

    - The network below messages: [p2p.rs] drives libp2p, and the registry of
      peers only lists its connections.
    - Of the node: its threads, the states of the process from start to
      shutdown, the listeners of HTTP and of the socket, the router and the
      static files, which are axum and tokio; locks are held for a whole
      operation.
    - Of Stratum: sockets and the line codec.
    - Of the bridge: [BridgeMessage] and [NetworkEvent], which no operation
      modelled here uses, and faults of the socket.
    - Of the command line: what is printed, the identity store, which keeps
      records no ledger operation reads, [contract build], which runs cargo, and
      the commands that only show an answer.
    - The desktop studio and the explorer, which are user interfaces. *)

From Stdlib Require Export NArith ZArith Lia Init.Byte.
From Stdlib Require Strings.Byte.
From stdpp Require Export base gmap sets strings sorting numbers list_relations list.

#[global] Set Default Goal Selector "!".

Declare Scope scy_scope.
Delimit Scope scy_scope with scy.

(** ** Outcomes of Rust code

    A call returns [Ok a] or [Err e], or it does not return: [Panic] is an
    [expect]/[unwrap]/index failure, [Diverge] a loop that does not end. *)

Inductive outcome (E A : Type) : Type :=
| Ok (a : A)
| Err (e : E)
| Panic
| Diverge.
Arguments Ok {E A} a.
Arguments Err {E A} e.
Arguments Panic {E A}.
Arguments Diverge {E A}.

Definition obind {E A B} (m : outcome E A) (k : A → outcome E B) : outcome E B :=
  match m with
  | Ok a => k a
  | Err e => Err e
  | Panic => Panic
  | Diverge => Diverge
  end.

Definition map_err {E F A} (f : E → F) (m : outcome E A) : outcome F A :=
  match m with
  | Ok a => Ok a
  | Err e => Err (f e)
  | Panic => Panic
  | Diverge => Diverge
  end.

Definition ok_or {E A} (o : option A) (e : E) : outcome E A :=
  match o with Some a => Ok a | None => Err e end.

(** [o.unwrap()] / [o.expect(..)]. *)
Definition expect {E A} (o : option A) : outcome E A :=
  match o with Some a => Ok a | None => Panic end.

(** [m.ok()], [if let Ok(..) = m], [let _ = m]: an error is not looked into. *)
Definition ok {E F A} (m : outcome E A) : outcome F (option A) :=
  match m with Ok a => Ok (Some a) | Err _ => Ok None | Panic => Panic | Diverge => Diverge end.

(** [m.is_ok()]. *)
Definition is_ok {E A} (m : outcome E A) : bool :=
  match m with Ok _ => true | _ => false end.

Notation "'let?' x := m 'in' k" := (obind m (fun x => k))
  (at level 10, x pattern, m at level 100, k at level 200) : scy_scope.

(** ** Methods that take [&mut self] and can fail

    The final state is returned whatever the outcome, so that a mutation made
    before an early return stays visible. *)

Definition stM (S E A : Type) : Type := S → S * outcome E A.

Definition sret {S E A} (a : A) : stM S E A := fun s => (s, Ok a).
Definition slift {S E A} (m : outcome E A) : stM S E A := fun s => (s, m).
Definition sget {S E} : stM S E S := fun s => (s, Ok s).
Definition smodify {S E} (f : S → S) : stM S E unit := fun s => (f s, Ok tt).

Definition sbind {S E A B} (m : stM S E A) (k : A → stM S E B) : stM S E B :=
  fun s =>
    match m s with
    | (s', Ok a) => k a s'
    | (s', Err e) => (s', Err e)
    | (s', Panic) => (s', Panic)
    | (s', Diverge) => (s', Diverge)
    end.

Notation "'let!' x := m 'in' k" := (sbind m (fun x => k))
  (at level 10, x pattern, m at level 100, k at level 200) : scy_scope.

(** [for x in l { .. }] with the loop state threaded and [?] inside. *)
Fixpoint ofold {E A B} (f : B → A → outcome E B) (l : list A) (b : B) : outcome E B :=
  match l with
  | [] => Ok b
  | x :: l => obind (f b x) (fun b' => ofold f l b')
  end.

Fixpoint omap_list {E A B} (f : A → outcome E B) (l : list A) : outcome E (list B) :=
  match l with
  | [] => Ok []
  | x :: l => obind (f x) (fun y => obind (omap_list f l) (fun ys => Ok (y :: ys)))
  end.

(** ** Rewriting and inversion *)

Lemma obind_Ok {E A B} (m : outcome E A) (k : A → outcome E B) b :
  obind m k = Ok b ↔ ∃ a, m = Ok a ∧ k a = Ok b.
Proof. destruct m; naive_solver. Qed.

Lemma pair_snd {A B} (p : A * B) b : p.2 = b → p = (p.1, b).
Proof. destruct p; simpl; congruence. Qed.

Lemma Ok_pair_inj {E A B} (a c : A) (b d : B) : @Ok E _ (a, b) = Ok (c, d) → a = c ∧ b = d.
Proof. naive_solver. Qed.

Lemma ok_or_Ok {E A} (o : option A) (e : E) a : ok_or o e = Ok a ↔ o = Some a.
Proof. destruct o; naive_solver. Qed.

Lemma expect_Ok {E A} (o : option A) a : @expect E A o = Ok a ↔ o = Some a.
Proof. destruct o; naive_solver. Qed.

Lemma map_err_Ok {E F A} (f : E → F) (m : outcome E A) a :
  map_err f m = Ok a ↔ m = Ok a.
Proof. destruct m; naive_solver. Qed.

Lemma ofold_app {E A B} (f : B → A → outcome E B) l1 l2 b :
  ofold f (l1 ++ l2) b = obind (ofold f l1 b) (ofold f l2).
Proof.
  revert b; induction l1 as [|x l1 IH]; intros b; simpl; [done|].
  destruct (f b x); simpl; auto.
Qed.

Lemma omap_list_Ok {E A B} (f : A → outcome E B) l ys :
  omap_list f l = Ok ys ↔ Forall2 (λ x y, f x = Ok y) l ys.
Proof.
  revert ys; induction l as [|x l IH]; intros ys; simpl.
  - split; [intros [= <-]; constructor|by inversion 1].
  - rewrite obind_Ok. split.
    + intros (y & Hy & (zs & Hz & [= <-])%obind_Ok). constructor; [done|by apply IH].
    + inversion 1 as [|? y ? zs Hy Hz]; subst. exists y; split; [done|].
      apply obind_Ok. exists zs. by rewrite (proj2 (IH zs)).
Qed.

Lemma sbind_Ok {S E A B} (m : stM S E A) (k : A → stM S E B) s s' b :
  sbind m k s = (s', Ok b) ↔ ∃ s1 a, m s = (s1, Ok a) ∧ k a s1 = (s', Ok b).
Proof. unfold sbind. destruct (m s) as [s1 []]; naive_solver. Qed.

Lemma sbind_sget {S E B} (k : S → stM S E B) s : sbind sget k s = k s s.
Proof. done. Qed.
Lemma sbind_lift_Ok {S E A B} (a : A) (k : A → stM S E B) s : sbind (slift (Ok a)) k s = k a s.
Proof. done. Qed.
Lemma sbind_lift_Err {S E A B} (e : E) (k : A → stM S E B) s : sbind (slift (Err e)) k s = (s, Err e).
Proof. done. Qed.
Lemma sbind_smodify {S E B} (f : S → S) (k : unit → stM S E B) s : sbind (smodify f) k s = k tt (f s).
Proof. done. Qed.

Lemma sbind_ext {S E A B} (m1 m2 : stM S E A) (k : A → stM S E B) s :
  m1 s = m2 s → sbind m1 k s = sbind m2 k s.
Proof. unfold sbind. by intros ->. Qed.

Lemma sbind_assoc {S E A B C} (m : stM S E A) (k1 : A → stM S E B) (k2 : B → stM S E C) s :
  sbind (sbind m k1) k2 s = sbind m (λ a, sbind (k1 a) k2) s.
Proof. unfold sbind. by destruct (m s) as [s' []]. Qed.

Lemma sbind_cont {S E A B} (m : stM S E A) (k1 k2 : A → stM S E B) s :
  (∀ a s', k1 a s' = k2 a s') → sbind m k1 s = sbind m k2 s.
Proof. intros HK. unfold sbind. by destruct (m s) as [s' []]. Qed.

Lemma sbind_run {S E A B} (m : stM S E A) (k : A → stM S E B) s s' a :
  m s = (s', Ok a) → sbind m k s = k a s'.
Proof. unfold sbind. by intros ->. Qed.

Lemma sbind_run_err {S E A B} (m : stM S E A) (k : A → stM S E B) s s' e :
  m s = (s', Err e) → sbind m k s = (s', Err e).
Proof. unfold sbind. by intros ->. Qed.

Lemma sbind_lift_cong {S E A C} (m : outcome E A) (f g : A → stM S E C) s :
  (∀ a, m = Ok a → f a s = g a s) → sbind (slift m) f s = sbind (slift m) g s.
Proof. intros H. unfold sbind, slift. destruct m; [by apply H|done..]. Qed.

Lemma Ok_inj {E A} (a b : A) : @Ok E A a = Ok b → a = b.
Proof. by intros [= ->]. Qed.

(** Decomposes every hypothesis that says a monadic computation returned
    [Ok], down to its last bind, and drops the branches that cannot. *)
Ltac dinv1 :=
  match goal with
  | H : obind _ _ = Ok _ |- _ => apply obind_Ok in H as (? & ? & ?)
  | H : sbind _ _ _ = (_, Ok _) |- _ => apply sbind_Ok in H as (? & ? & ? & ?)
  | H : slift _ _ = (_, Ok _) |- _ => unfold slift in H; injection H as ? ?
  | H : sret _ _ = (_, Ok _) |- _ => unfold sret in H; injection H as ? ?
  | H : ok_or _ _ = Ok _ |- _ => apply ok_or_Ok in H
  | H : expect _ = Ok _ |- _ => apply expect_Ok in H
  | H : map_err _ _ = Ok _ |- _ => apply map_err_Ok in H
  | H : Ok _ = Ok _ |- _ => injection H as H
  | H : Err _ = Ok _ |- _ => discriminate H
  | H : Panic = Ok _ |- _ => discriminate H
  | H : Diverge = Ok _ |- _ => discriminate H
  | H : (_, Err _) = (_, Ok _) |- _ => discriminate H
  | H : (_, Ok _) = (_, Ok _) |- _ => injection H as ? ?
  end.
Ltac dinv := repeat (dinv1; subst); simplify_eq.

Ltac dinv_if :=
  repeat first
    [ dinv1; subst
    | match goal with
      | H : (if ?b then _ else _) = Ok _ |- _ =>
          let E := fresh "E" in destruct b eqn:E; try discriminate H
      | H : (if ?b then _ else _) _ = (_, Ok _) |- _ =>
          let E := fresh "E" in destruct b eqn:E; try discriminate H
      end ]; simplify_eq.

(** ** Machine integers

    Unsigned integers are [N]; the width shows in the operations. *)

Local Open Scope N_scope.

Notation "'MOD32'" := 4294967296%N.
Notation "'MOD64'" := 18446744073709551616%N.
Notation "'MOD128'" := 340282366920938463463374607431768211456%N.
Notation "'U32_MAX'" := 4294967295%N.
Notation "'U64_MAX'" := 18446744073709551615%N.

Definition wrap32 (n : N) : N := n mod MOD32.
Definition wrap64 (n : N) : N := n mod MOD64.
Definition wrap128 (n : N) : N := n mod MOD128.

Definition checked_add (a b : N) : option N :=
  if a + b <=? U64_MAX then Some (a + b) else None.
Definition checked_sub (a b : N) : option N :=
  if b <=? a then Some (a - b) else None.
Definition checked_mul (a b : N) : option N :=
  if a * b <=? U64_MAX then Some (a * b) else None.
Definition saturating_add (a b : N) : N := N.min (a + b) U64_MAX.
Definition saturating_mul (a b : N) : N := N.min (a * b) U64_MAX.
Definition saturating_sub (a b : N) : N := a - b.

Lemma checked_add_Some a b c : checked_add a b = Some c ↔ c = a + b ∧ a + b ≤ U64_MAX.
Proof. unfold checked_add. destruct (N.leb_spec (a + b) U64_MAX); naive_solver lia. Qed.

Lemma checked_sub_Some a b c : checked_sub a b = Some c ↔ c = a - b ∧ b ≤ a.
Proof. unfold checked_sub. destruct (N.leb_spec b a); naive_solver lia. Qed.

Lemma checked_mul_Some a b c : checked_mul a b = Some c ↔ c = a * b ∧ a * b ≤ U64_MAX.
Proof. unfold checked_mul. destruct (N.leb_spec (a * b) U64_MAX); naive_solver lia. Qed.

Lemma wrap64_small n : n < MOD64 → wrap64 n = n.
Proof. apply N.mod_small. Qed.

Lemma wrap32_small n : n < MOD32 → wrap32 n = n.
Proof. apply N.mod_small. Qed.

Create HintDb scy discriminated.
#[export] Hint Resolve wrap64_small wrap32_small : scy.

Lemma div_le_self a b : a / b ≤ a.
Proof.
  destruct (decide (b = 0)) as [->|Hb]; [by destruct a|].
  apply N.Div0.div_le_upper_bound. nia.
Qed.

(** ** Bits *)

Lemma testbit_high b n m : b < 2 ^ n → n ≤ m → N.testbit b m = false.
Proof. intros Hb Hm. rewrite <- (N.mod_small b (2 ^ n)) by done. by apply N.mod_pow2_bits_high. Qed.

Lemma lor_shiftl_add a b n : b < 2 ^ n → N.lor (N.shiftl a n) b = a * 2 ^ n + b.
Proof.
  intros Hb. assert (HL : N.land (N.shiftl a n) b = 0).
  { apply N.bits_inj. intros m. rewrite N.land_spec, N.bits_0. destruct (N.lt_ge_cases m n).
    - by rewrite N.shiftl_spec_low.
    - by rewrite (testbit_high b n m), andb_false_r. }
  rewrite <- N.lxor_lor, <- N.add_nocarry_lxor, N.shiftl_mul_pow2 by done. done.
Qed.

(** ** Finite case analysis by computation *)

Lemma forall_lt_N (P : N → bool) (n : nat) :
  forallb (λ i, P (N.of_nat i)) (seq 0 n) = true →
  ∀ d, d < N.of_nat n → P d = true.
Proof.
  intros H d Hd. rewrite forallb_forall in H.
  rewrite <- (N2Nat.id d). apply H, in_seq. lia.
Qed.

(** ** Computations that return *)

(** The call comes back, with [Ok] or with [Err]. *)
Definition returns {E A} (m : outcome E A) : Prop := m ≠ Panic ∧ m ≠ Diverge.

Lemma returns_obind {E A B} (m : outcome E A) (k : A → outcome E B) :
  returns m → (∀ a, m = Ok a → returns (k a)) → returns (obind m k).
Proof. unfold returns. intros [??] Hk. destruct m; naive_solver. Qed.

Lemma returns_sbind {S E A B} (m : stM S E A) (k : A → stM S E B) s :
  returns (m s).2 → (∀ a s', m s = (s', Ok a) → returns (k a s').2) → returns (sbind m k s).2.
Proof. unfold sbind, returns. destruct (m s) as [s' []]; naive_solver. Qed.

(** A stateful computation that always returns, and one that leaves a part [f]
    of the state as it was, whatever it returns. *)
Definition total {S E A} (m : stM S E A) : Prop := ∀ s, returns (m s).2.
Definition keeps {S E A X} (f : S → X) (m : stM S E A) : Prop := ∀ s, f (m s).1 = f s.

Lemma total_sbind {S E A B} (m : stM S E A) (k : A → stM S E B) :
  total m → (∀ a, total (k a)) → total (sbind m k).
Proof. intros Hm Hk s. apply returns_sbind; [apply Hm|]. intros a s' _. apply Hk. Qed.
Lemma total_slift {S E A} (m : outcome E A) : returns m → total (S := S) (slift m).
Proof. by intros Hm s. Qed.
Lemma total_sret {S E A} (a : A) : total (S := S) (E := E) (sret a).
Proof. by intros s. Qed.
Lemma total_sget {S E} : total (sget (S := S) (E := E)).
Proof. by intros s. Qed.
Lemma total_smodify {S E} (g : S → S) : total (E := E) (smodify g).
Proof. by intros s. Qed.

Lemma keeps_sbind {S E A B X} (f : S → X) (m : stM S E A) (k : A → stM S E B) :
  keeps f m → (∀ a, keeps f (k a)) → keeps f (sbind m k).
Proof.
  intros Hm Hk s. specialize (Hm s). unfold sbind. destruct (m s) as [s' []]; cbn [fst] in *; [|done..].
  by rewrite Hk.
Qed.
Lemma keeps_slift {S E A X} (f : S → X) (m : outcome E A) : keeps f (slift m).
Proof. by intros s. Qed.
Lemma keeps_sret {S E A X} (f : S → X) (a : A) : keeps (E := E) f (sret a).
Proof. by intros s. Qed.
Lemma keeps_sget {S E X} (f : S → X) : keeps f (sget (S := S) (E := E)).
Proof. by intros s. Qed.
Lemma keeps_smodify {S E X} (f : S → X) (g : S → S) : (∀ s, f (g s) = f s) → keeps (E := E) f (smodify g).
Proof. intros Hg s. apply Hg. Qed.
#[export] Hint Resolve total_sret total_sget total_smodify keeps_slift keeps_sret keeps_sget : scy.

Lemma returns_map_err {E F A} (f : E → F) (m : outcome E A) : returns m → returns (map_err f m).
Proof. unfold returns. destruct m; naive_solver. Qed.

Lemma returns_Ok {E A} (a : A) : returns (@Ok E A a).
Proof. done. Qed.
Lemma returns_Err {E A} (e : E) : returns (@Err E A e).
Proof. done. Qed.
#[export] Hint Resolve returns_Ok returns_Err : scy.

Lemma returns_ok_or {E A} (o : option A) (e : E) : returns (ok_or o e).
Proof. by destruct o. Qed.
#[export] Hint Resolve returns_ok_or : scy.

Lemma returns_ofold {E A B} (f : B → A → outcome E B) l b :
  (∀ b a, a ∈ l → returns (f b a)) → returns (ofold f l b).
Proof.
  revert b; induction l as [|x l IH]; intros b H; simpl; [done|].
  apply returns_obind; [apply H; set_solver|]. intros. apply IH. set_solver.
Qed.
