(* ===== verification/Bytes.v ===== *)
(** * Byte strings

    Little- and big-endian integer encodings ([to_le_bytes], [from_le_bytes],
    [to_be_bytes], [from_be_bytes] of the Rust integers), the derived
    lexicographic order of byte arrays, and the lemmas relating that order to
    the numbers the arrays encode. *)

From S2P Require Import Prelude.
Local Open Scope N_scope.

#[global] Instance byte_eq_dec : EqDecision byte := Strings.Byte.byte_eq_dec.
#[global] Instance byte_countable : Countable byte :=
  inj_countable Byte.to_N Byte.of_N Strings.Byte.of_to_N.

(** [v as u8]. *)
Definition byte_of (v : N) : byte := default x00 (Byte.of_N (v mod 256)).

Fixpoint le_bytes (n : nat) (v : N) : list byte :=
  match n with
  | O => []
  | S n => byte_of v :: le_bytes n (v / 256)
  end.

Fixpoint le_val (l : list byte) : N :=
  match l with
  | [] => 0
  | b :: l => Byte.to_N b + 256 * le_val l
  end.

Definition be_bytes (n : nat) (v : N) : list byte := rev (le_bytes n v).
Definition be_val (l : list byte) : N := fold_left (fun acc b => acc * 256 + Byte.to_N b) l 0.

Lemma to_N_lt b : Byte.to_N b < 256.
Proof. pose proof (Strings.Byte.to_N_bounded b). lia. Qed.

Lemma to_N_byte_of v : Byte.to_N (byte_of v) = v mod 256.
Proof.
  unfold byte_of. destruct (Byte.of_N (v mod 256)) as [b|] eqn:E; simpl.
  - by apply Strings.Byte.to_of_N.
  - apply Strings.Byte.of_N_None_iff in E. pose proof (N.mod_lt v 256). lia.
Qed.

Lemma byte_of_to_N b : byte_of (Byte.to_N b) = b.
Proof.
  unfold byte_of. rewrite N.mod_small by apply to_N_lt.
  by rewrite Strings.Byte.of_to_N.
Qed.

Lemma to_N_inj b c : Byte.to_N b = Byte.to_N c → b = c.
Proof. intros E. by rewrite <- (byte_of_to_N b), E, byte_of_to_N. Qed.

Lemma length_le_bytes n v : length (le_bytes n v) = n.
Proof. revert v; induction n; simpl; auto. Qed.

Lemma length_be_bytes n v : length (be_bytes n v) = n.
Proof. unfold be_bytes. by rewrite length_rev, length_le_bytes. Qed.

Lemma le_val_bound l : le_val l < 256 ^ N.of_nat (length l).
Proof.
  induction l as [|b l IH]; [done|]. cbn [le_val length].
  rewrite Nat2N.inj_succ, N.pow_succ_r'. pose proof (to_N_lt b). nia.
Qed.

Lemma le_val_le_bytes n v : le_val (le_bytes n v) = v mod 256 ^ N.of_nat n.
Proof.
  revert v; induction n as [|n IH]; intros v; cbn [le_val le_bytes].
  - by rewrite N.mod_1_r.
  - rewrite IH, to_N_byte_of, Nat2N.inj_succ, N.pow_succ_r'.
    rewrite N.Div0.mod_mul_r by (try apply N.pow_nonzero; done). lia.
Qed.

Lemma le_val_le_bytes_small n v : v < 256 ^ N.of_nat n → le_val (le_bytes n v) = v.
Proof. intros. by rewrite le_val_le_bytes, N.mod_small. Qed.

Lemma le_bytes_le_val l : le_bytes (length l) (le_val l) = l.
Proof.
  induction l as [|b l IH]; [done|]. cbn [length le_bytes le_val].
  pose proof (to_N_lt b) as Hb. f_equal.
  - rewrite <- (byte_of_to_N b) at 2. unfold byte_of. do 2 f_equal.
    rewrite (N.mul_comm 256), N.Div0.mod_add. lia.
  - replace ((Byte.to_N b + 256 * le_val l) / 256) with (le_val l); [done|].
    rewrite (N.mul_comm 256), N.div_add by done. rewrite N.div_small by done. lia.
Qed.

Lemma le_bytes_le_val' n l : length l = n → le_bytes n (le_val l) = l.
Proof. intros <-. apply le_bytes_le_val. Qed.

Lemma be_val_app l1 l2 :
  be_val (l1 ++ l2) = be_val l1 * 256 ^ N.of_nat (length l2) + be_val l2.
Proof.
  unfold be_val. rewrite fold_left_app. generalize (fold_left (λ acc b, acc * 256 + Byte.to_N b) l1 0).
  induction l2 as [|b l2 IH] using rev_ind; intros a; simpl; [lia|].
  rewrite !fold_left_app. simpl. rewrite IH, length_app. simpl.
  rewrite Nat2N.inj_add. simpl. rewrite N.pow_add_r. change (256 ^ 1) with 256. lia.
Qed.

Lemma be_val_cons b l : be_val (b :: l) = Byte.to_N b * 256 ^ N.of_nat (length l) + be_val l.
Proof. change (b :: l) with ([b] ++ l). rewrite be_val_app. unfold be_val at 1. simpl. lia. Qed.

Lemma be_val_rev l : be_val (rev l) = le_val l.
Proof.
  induction l as [|b l IH]; [done|]. cbn [rev le_val]. rewrite be_val_app, IH.
  unfold be_val. simpl. change (256 ^ N.of_nat 1) with 256. lia.
Qed.

Lemma be_val_bound l : be_val l < 256 ^ N.of_nat (length l).
Proof. rewrite <- (rev_involutive l), be_val_rev, length_rev. apply le_val_bound. Qed.

Lemma be_val_be_bytes n v : be_val (be_bytes n v) = v mod 256 ^ N.of_nat n.
Proof. unfold be_bytes. by rewrite be_val_rev, le_val_le_bytes. Qed.

Lemma be_bytes_be_val n l : length l = n → be_bytes n (be_val l) = l.
Proof.
  intros <-. unfold be_bytes. rewrite <- (rev_involutive l) at 2 3.
  rewrite be_val_rev, <- (length_rev l), le_bytes_le_val. done.
Qed.

Lemma be_val_inj l1 l2 : length l1 = length l2 → be_val l1 = be_val l2 → l1 = l2.
Proof.
  intros Hl Hv. rewrite <- (be_bytes_be_val _ l1 eq_refl), <- (be_bytes_be_val _ l2 eq_refl).
  by rewrite Hl, Hv.
Qed.

Lemma be_val_zeros n : be_val (replicate n x00) = 0.
Proof. induction n as [|n IH]; [done|]. cbn [replicate]. rewrite be_val_cons, IH. done. Qed.

(** ** The derived [Ord] of byte arrays *)

Fixpoint bytes_cmp (a b : list byte) : comparison :=
  match a, b with
  | [], [] => Eq
  | [], _ :: _ => Lt
  | _ :: _, [] => Gt
  | x :: a, y :: b =>
      match Byte.to_N x ?= Byte.to_N y with Eq => bytes_cmp a b | c => c end
  end.

(** [a <= b] on arrays. *)
Definition bytes_leb (a b : list byte) : bool :=
  match bytes_cmp a b with Gt => false | _ => true end.
Definition bytes_ltb (a b : list byte) : bool :=
  match bytes_cmp a b with Lt => true | _ => false end.

(** Lexicographic order on arrays of one length is the order of the
    big-endian numbers they encode. *)
Lemma bytes_cmp_be_val a b :
  length a = length b → bytes_cmp a b = (be_val a ?= be_val b).
Proof.
  revert b; induction a as [|x a IH]; intros [|y b] Hl; simplify_eq/=; [done|].
  rewrite !be_val_cons, Hl. pose proof (be_val_bound a) as Ha. rewrite Hl in Ha.
  pose proof (be_val_bound b) as Hb. set (p := 256 ^ N.of_nat (length b)) in *.
  destruct (N.compare_spec (Byte.to_N x) (Byte.to_N y)) as [E|E|E].
  - rewrite E, IH by done. generalize (Byte.to_N y * p) as k. intros k.
    destruct (N.compare_spec (be_val a) (be_val b)),
      (N.compare_spec (k + be_val a) (k + be_val b)); done || lia.
  - symmetry. apply N.compare_lt_iff. nia.
  - symmetry. apply N.compare_gt_iff. nia.
Qed.

Lemma bytes_leb_be_val a b :
  length a = length b → bytes_leb a b = (be_val a <=? be_val b).
Proof. intros. unfold bytes_leb. by rewrite bytes_cmp_be_val. Qed.

Lemma bytes_ltb_be_val a b :
  length a = length b → bytes_ltb a b = (be_val a <? be_val b).
Proof. intros. unfold bytes_ltb, N.ltb. by rewrite bytes_cmp_be_val. Qed.

Arguments byte_of : simpl never.
Arguments le_bytes : simpl never.
Arguments le_val : simpl never.
Arguments be_bytes : simpl never.
Arguments be_val : simpl never.
