(* ===== verification/Primitives.v ===== *)
(** * scytale-primitives

    [crates/scytale-primitives/src/lib.rs]: 32-byte hashes, [OutPoint],
    [TxOut] and the hexadecimal helpers, with the cryptographic functions of
    the crates [blake3] and [ed25519_dalek] as parameters ([Blake3],
    [Ed25519]). A Rust [str] is the list of its UTF-8 bytes. *)

From S2P Require Import Prelude Bytes.
Local Open Scope N_scope.
Local Open Scope scy_scope.

(** ** Constants and errors *)

Definition QUANTA_PER_SCY : N := 100000000.

Inductive PrimitiveError :=
| InvalidHashLength (n : N)
| Serialization_odd_hex_length
| Serialization_invalid_hex_character.

(** ** Hash256 *)

Record Hash := mkHash {
  hash_bytes : list byte;
  hash_len : (length hash_bytes =? 32)%nat = true
}.

Lemma hash_length h : length (hash_bytes h) = 32%nat.
Proof. apply Nat.eqb_eq, hash_len. Qed.

Lemma hash_eq h1 h2 : hash_bytes h1 = hash_bytes h2 → h1 = h2.
Proof.
  destruct h1 as [l1 H1], h2 as [l2 H2]; simpl. intros ->. f_equal.
  apply (proof_irrel H1 H2).
Qed.

Definition hash_of_list (l : list byte) : option Hash :=
  match decide ((length l =? 32)%nat = true) with
  | left H => Some (mkHash l H)
  | right _ => None
  end.

Lemma hash_of_list_bytes h : hash_of_list (hash_bytes h) = Some h.
Proof.
  unfold hash_of_list. case_decide as H.
  - f_equal. by apply hash_eq.
  - destruct H. apply hash_len.
Qed.

Lemma hash_of_list_Some l h : hash_of_list l = Some h ↔ hash_bytes h = l.
Proof.
  split; [|intros <-; apply hash_of_list_bytes].
  unfold hash_of_list. case_decide; [|done]. by intros [= <-].
Qed.

Lemma hash_of_list_is_Some l : length l = 32%nat → is_Some (hash_of_list l).
Proof.
  intros Hl. unfold hash_of_list. case_decide as H; [done|].
  destruct H. by apply Nat.eqb_eq.
Qed.

#[global] Instance hash_eq_dec : EqDecision Hash.
Proof.
  refine (λ h1 h2, match decide (hash_bytes h1 = hash_bytes h2) with
                   | left E => left (hash_eq h1 h2 E)
                   | right N => right (λ E, N (f_equal hash_bytes E))
                   end).
Defined.
#[global] Instance hash_countable : Countable Hash :=
  inj_countable hash_bytes hash_of_list hash_of_list_bytes.

Definition ZERO : Hash := mkHash (replicate 32 x00) eq_refl.

(** [Hash::is_zero]. *)
Definition is_zero (h : Hash) : bool := forallb (λ b, bool_decide (b = x00)) (hash_bytes h).

(** [Hash::from_slice]. *)
Definition from_slice (slice : list byte) : outcome PrimitiveError Hash :=
  match hash_of_list slice with
  | Some h => Ok h
  | None => Err (InvalidHashLength (N.of_nat (length slice)))
  end.

(** The derived [Ord] of [Hash]. *)
Definition hash_cmp (a b : Hash) : comparison := bytes_cmp (hash_bytes a) (hash_bytes b).

Lemma forallb_zero_replicate l :
  forallb (λ b, bool_decide (b = x00)) l = true → l = replicate (length l) x00.
Proof.
  induction l as [|b l IH]; [done|]. cbn [forallb length replicate].
  intros [->%bool_decide_eq_true ?]%andb_true_iff. by rewrite <- IH.
Qed.

Lemma is_zero_spec h : is_zero h = true ↔ h = ZERO.
Proof.
  unfold is_zero. split; [|by intros ->].
  intros H%forallb_zero_replicate. apply hash_eq. by rewrite H, hash_length.
Qed.

(** ** Cryptographic parameters *)

(** [blake3::hash]; a [blake3::Hasher] fed by successive [update]s hashes the
    concatenation of what it was fed. *)
Class Blake3 := blake3 : list byte → Hash.

(** [ed25519_dalek]: [VerifyingKey::from_bytes] and [verify_strict]. *)
Class Ed25519 := {
  VerifyingKey : Type;
  vk_from_bytes : list byte → option VerifyingKey;
  verify_strict : VerifyingKey → list byte → list byte → bool
}.

(** ** OutPoint and TxOut *)

Record OutPoint := mkOutPoint { op_txid : Hash; op_index : N }.
#[global] Instance outpoint_eq_dec : EqDecision OutPoint.
Proof. solve_decision. Defined.
#[global] Instance outpoint_countable : Countable OutPoint :=
  inj_countable' (λ o, (op_txid o, op_index o)) (λ p, mkOutPoint p.1 p.2)
    (λ o, match o with mkOutPoint _ _ => eq_refl end).

(** [OutPoint::null], [OutPoint::is_null], [OutPoint::to_fixed_bytes]. *)
Definition OutPoint_null : OutPoint := mkOutPoint ZERO U32_MAX.
Definition is_null (o : OutPoint) : bool := is_zero (op_txid o) && (op_index o =? U32_MAX).
Definition to_fixed_bytes (o : OutPoint) : list byte :=
  hash_bytes (op_txid o) ++ le_bytes 4 (op_index o).

Record TxOut := mkTxOut { value : N; locking_condition : list byte }.
#[global] Instance txout_eq_dec : EqDecision TxOut.
Proof. solve_decision. Defined.

(** ** Hexadecimal *)

(** [format!("{:02x}", b)]. *)
Definition hex_char (d : N) : byte := byte_of (if d <? 10 then 48 + d else 87 + d).
Definition hex_byte (b : byte) : list byte :=
  [hex_char (Byte.to_N b / 16); hex_char (Byte.to_N b mod 16)].

(** [to_hex], and the [Display] implementation of [Hash]. *)
Definition to_hex (bytes : list byte) : list byte := bytes ≫= hex_byte.
Definition hash_display (h : Hash) : list byte := to_hex (hash_bytes h).

(** [s.strip_prefix("0x").unwrap_or(s)]. *)
Definition strip_0x (s : list byte) : list byte :=
  match s with
  | x30 :: x78 :: rest => rest
  | _ => s
  end.

Definition hex_digit (c : byte) : option N :=
  let n := Byte.to_N c in
  if (48 <=? n) && (n <=? 57) then Some (n - 48)
  else if (97 <=? n) && (n <=? 102) then Some (n - 97 + 10)
  else if (65 <=? n) && (n <=? 70) then Some (n - 65 + 10)
  else None.

Fixpoint from_hex_chunks (s : list byte) : outcome PrimitiveError (list byte) :=
  match s with
  | hi :: lo :: rest =>
      let? h := ok_or (hex_digit hi) Serialization_invalid_hex_character in
      let? l := ok_or (hex_digit lo) Serialization_invalid_hex_character in
      let? out := from_hex_chunks rest in
      Ok (byte_of (N.lor (N.shiftl h 4) l) :: out)
  | _ => Ok []
  end.

(** [from_hex]. *)
Definition from_hex (s : list byte) : outcome PrimitiveError (list byte) :=
  let clean := strip_0x s in
  if Nat.even (length clean) then from_hex_chunks clean
  else Err Serialization_odd_hex_length.

(** [u8::from_str_radix(s, 16)] on a two-byte string: a leading [+] is a
    sign. *)
Definition u8_from_str_radix16 (c1 c2 : byte) : option N :=
  if bool_decide (c1 = x2b) then hex_digit c2
  else h ← hex_digit c1; l ← hex_digit c2; Some (16 * h + l).

(** [s.is_char_boundary(i)] for the byte found at [i]. *)
Definition is_continuation (b : byte) : bool :=
  (128 <=? Byte.to_N b) && (Byte.to_N b <=? 191).
Definition char_boundary (rest : list byte) : bool :=
  match rest with [] => true | b :: _ => negb (is_continuation b) end.

Fixpoint hash_from_str_loop (n : nat) (s : list byte) : outcome PrimitiveError (list byte) :=
  match n, s with
  | S n, c1 :: c2 :: rest =>
      if char_boundary s && char_boundary rest then
        let? b := ok_or (u8_from_str_radix16 c1 c2) Serialization_invalid_hex_character in
        let? bs := hash_from_str_loop n rest in
        Ok (byte_of b :: bs)
      else Panic
  | _, _ => Ok []
  end.

(** [Hash::from_str]. *)
Definition hash_from_str (s : list byte) : outcome PrimitiveError Hash :=
  let clean := strip_0x s in
  if (length clean =? 64)%nat then
    let? bytes := hash_from_str_loop 32 clean in
    expect (hash_of_list bytes)
  else Err (InvalidHashLength (N.of_nat (length clean) / 2)).

(** ** Hexadecimal round trips *)

Lemma hex_digit_char d : d < 16 → hex_digit (hex_char d) = Some d.
Proof.
  intros Hd.
  pose proof (forall_lt_N (λ d, bool_decide (hex_digit (hex_char d) = Some d)) 16 eq_refl d Hd) as H.
  by apply bool_decide_eq_true in H.
Qed.

Lemma nibbles_byte b :
  byte_of (N.lor (N.shiftl (Byte.to_N b / 16) 4) (Byte.to_N b mod 16)) = b.
Proof. by destruct b. Qed.

Lemma nibbles_radix b : byte_of (16 * (Byte.to_N b / 16) + Byte.to_N b mod 16) = b.
Proof. by destruct b. Qed.

Lemma nibble_bounds b : Byte.to_N b / 16 < 16 ∧ Byte.to_N b mod 16 < 16.
Proof.
  pose proof (to_N_lt b). split; [apply N.Div0.div_lt_upper_bound; lia|by apply N.mod_lt].
Qed.

Lemma from_hex_chunks_to_hex bs : from_hex_chunks (to_hex bs) = Ok bs.
Proof.
  induction bs as [|b bs IH]; [done|].
  change (to_hex (b :: bs)) with (hex_byte b ++ to_hex bs).
  destruct (nibble_bounds b). cbn [hex_byte app from_hex_chunks].
  rewrite !hex_digit_char, IH by done. simpl. by rewrite nibbles_byte.
Qed.

Lemma length_to_hex bs : length (to_hex bs) = (2 * length bs)%nat.
Proof.
  induction bs as [|b bs IH]; [done|].
  change (to_hex (b :: bs)) with (hex_byte b ++ to_hex bs).
  rewrite length_app, IH. simpl. lia.
Qed.

Lemma strip_0x_to_hex bs : strip_0x (to_hex bs) = to_hex bs.
Proof.
  destruct bs as [|b bs]; [done|].
  change (to_hex (b :: bs)) with (hex_byte b ++ to_hex bs). by destruct b.
Qed.

Lemma to_hex_ascii bs : Forall (λ c, Byte.to_N c < 128) (to_hex bs).
Proof.
  induction bs as [|b bs IH]; [constructor|].
  change (to_hex (b :: bs)) with (hex_byte b ++ to_hex bs).
  apply Forall_app. split; [|done]. destruct b; repeat constructor.
Qed.

Lemma char_boundary_ascii rest :
  Forall (λ c, Byte.to_N c < 128) rest → char_boundary rest = true.
Proof.
  destruct rest as [|c rest]; [done|]. intros [H _]%Forall_cons. simpl.
  unfold is_continuation. destruct (N.leb_spec 128 (Byte.to_N c)); [lia|done].
Qed.

Lemma from_hex_returns t : returns (from_hex t).
Proof.
  unfold from_hex. destruct (Nat.even _); [|done]. generalize (strip_0x t). clear t.
  fix IH 1. intros [|a [|b l]]; [split; discriminate|split; discriminate|]. cbn [from_hex_chunks]. specialize (IH l).
  destruct (hex_digit a), (hex_digit b); cbn [ok_or obind]; [|done..]. by apply returns_obind.
Qed.

Lemma hash_from_str_loop_to_hex bs :
  hash_from_str_loop (length bs) (to_hex bs) = Ok bs.
Proof.
  induction bs as [|b bs IH]; [done|].
  change (to_hex (b :: bs)) with (hex_byte b ++ to_hex bs).
  destruct (nibble_bounds b) as [Hh Hl]. cbn [hex_byte app length hash_from_str_loop].
  rewrite !char_boundary_ascii by
    (repeat first [apply to_hex_ascii | constructor; [destruct b; reflexivity|]]).
  simpl. unfold u8_from_str_radix16. rewrite !hex_digit_char by done.
  replace (bool_decide (hex_char (Byte.to_N b / 16) = x2b)) with false by (by destruct b).
  cbn [mbind option_bind ok_or obind]. rewrite IH. cbn [obind]. by rewrite nibbles_radix.
Qed.

(** Printing bytes in hexadecimal and parsing them back is the identity, with
    and without the [0x] prefix, for byte strings ([to_hex]/[from_hex]) and for
    hashes ([Display]/[FromStr]). *)
Theorem hex_roundtrip (bs : list byte) (h : Hash) :
  from_hex (to_hex bs) = Ok bs ∧
  from_hex (x30 :: x78 :: to_hex bs) = Ok bs ∧
  hash_from_str (hash_display h) = Ok h ∧
  hash_from_str (x30 :: x78 :: hash_display h) = Ok h.
Proof.
  assert (Heven : Nat.even (length (to_hex bs)) = true).
  { rewrite length_to_hex. apply Nat.even_spec. by exists (length bs). }
  assert (Hh : hash_from_str (x30 :: x78 :: hash_display h) = Ok h).
  { unfold hash_from_str, hash_display. cbn [strip_0x].
    rewrite length_to_hex, hash_length. simpl (2 * 32 =? 64)%nat.
    change (hash_from_str_loop 32) with (hash_from_str_loop 32%nat).
    rewrite <- (hash_length h), hash_from_str_loop_to_hex. cbn [obind].
    by rewrite hash_of_list_bytes. }
  unfold from_hex at 1 2. cbn [strip_0x]. rewrite strip_0x_to_hex, Heven.
  repeat split; try apply from_hex_chunks_to_hex; [|done].
  revert Hh. unfold hash_from_str, hash_display. cbn [strip_0x].
  by rewrite strip_0x_to_hex.
Qed.

(** [from_hex] never panics, while [Hash::from_str] slices its argument at
    byte offsets: on a 64-byte string whose first two-byte window ends inside a
    multi-byte character it panics instead of returning an error. It also
    accepts a sign where a hexadecimal digit is expected, which [from_hex]
    rejects. *)
Theorem hash_from_str_panic (tail : list byte) (Hlen : length tail = 61%nat) :
  from_hex (x61 :: xc3 :: xa9 :: tail) = Err Serialization_invalid_hex_character ∧
  hash_from_str (x61 :: xc3 :: xa9 :: tail) = Panic ∧
  from_hex (concat (replicate 32 [x2b; x31])) = Err Serialization_invalid_hex_character ∧
  hash_from_str (concat (replicate 32 [x2b; x31])) = from_slice (replicate 32 x01).
Proof.
  unfold from_hex, hash_from_str. cbn [strip_0x length]. rewrite Hlen. by repeat split.
Qed.

Lemma hash_from_str_panic_witness :
  length (replicate 61 x61) = 61%nat ∧
  hash_from_str (x61 :: xc3 :: xa9 :: replicate 61 x61) = Panic.
Proof. split; [done|]. apply (hash_from_str_panic (replicate 61 x61)). reflexivity. Defined.

(** ** Concrete parameters, for the witnesses *)

(** A polynomial digest and a signature scheme in which the signature is the key
    followed by the message. *)
Definition toy_blake3 : Blake3 := λ bytes,
  default ZERO (hash_of_list (be_bytes 32
    (foldl (λ acc b, N.land (acc * 8191 + Byte.to_N b + 1) 0xffffff) 7 bytes))).

Definition toy_ed25519 : Ed25519 := {|
  VerifyingKey := list byte;
  vk_from_bytes := Some;
  verify_strict := λ vk message signature, bool_decide (signature = take 32 vk ++ take 32 message)
|}.
