(* ===== verification/Address.v ===== *)
(** * Addresses

    [crates/scytale-core/src/address.rs]: a 32-byte hash with the human readable
    part of its Bech32 form, printed as Bech32 and parsed from Bech32 or from
    hexadecimal text. A string is the list of its UTF-8 bytes; slicing it
    inside a character panics. The [bech32] crate is the class [Bech32]. *)

From S2P Require Import Prelude Bytes Primitives.
Local Open Scope N_scope.
Local Open Scope scy_scope.

Inductive AddressError :=
| InvalidHrp (got : list byte)
| AddressInvalidLength (len : N)
| Bech32Decode
| AddressHexDecode (e : PrimitiveError)
| UnrecognizedFormat.

Record Address := mkAddress { hrp : list byte; address_hash : Hash }.
#[global] Instance address_eq_dec : EqDecision Address.
Proof. solve_decision. Defined.

(** The text [scy]. *)
Definition DEFAULT_HRP : list byte := [x73; x63; x79].

(** ** Text *)

Definition ascii_lower (b : byte) : byte :=
  if (65 <=? Byte.to_N b) && (Byte.to_N b <=? 90) then byte_of (Byte.to_N b + 32) else b.
Definition to_ascii_lowercase (s : list byte) : list byte := ascii_lower <$> s.
Definition eq_ignore_ascii_case (a b : list byte) : bool := bool_decide (to_ascii_lowercase a = to_ascii_lowercase b).

(** The number of bytes of the white space character a string starts with, 0
    when it starts with another. *)
Definition white_space (s : list byte) : nat :=
  match s with
  | x09 :: _ | x0a :: _ | x0b :: _ | x0c :: _ | x0d :: _ | x20 :: _ => 1
  | xc2 :: x85 :: _ | xc2 :: xa0 :: _ => 2
  | xe1 :: x9a :: x80 :: _ | xe2 :: x81 :: x9f :: _ | xe3 :: x80 :: x80 :: _ => 3
  | xe2 :: x80 :: b :: _ =>
      if (128 <=? Byte.to_N b) && (Byte.to_N b <=? 138) || bool_decide (b ∈ [xa8; xa9; xaf]) then 3%nat else 0%nat
  | _ => 0
  end.
(** The same for the character a string ends with, from its bytes in reverse. *)
Definition white_space_end (s : list byte) : nat :=
  match s with
  | b1 :: s =>
      if (white_space [b1] =? 1)%nat then 1%nat
      else
        match s with
        | b2 :: s =>
            if (white_space [b2; b1] =? 2)%nat then 2%nat
            else match s with
                 | b3 :: _ => if (white_space [b3; b2; b1] =? 3)%nat then 3%nat else 0%nat
                 | [] => 0%nat
                 end
        | [] => 0%nat
        end
  | [] => 0%nat
  end.
Fixpoint trim_loop (fuel : nat) (space : list byte → nat) (s : list byte) : list byte :=
  match fuel with
  | O => s
  | S fuel => match space s with O => s | n => trim_loop fuel space (drop n s) end
  end.
(** [str::trim]. *)
Definition trim (s : list byte) : list byte :=
  let s := trim_loop (length s) white_space s in
  reverse (trim_loop (length s) white_space_end (reverse s)).

(** ** The Bech32 crate *)

Class Bech32 := {
  hrp_parse : list byte → bool;
  bech32_encode : list byte → list byte → option (list byte);
  bech32_decode : list byte → option (list byte * list byte)
}.
(** Printable characters, of which Bech32 text consists. *)
Definition graphic (b : byte) : Prop := 33 ≤ Byte.to_N b ≤ 126.
(** What is encoded under [scy] is printable, starts with [scy1] and decodes to
    what was encoded, whatever else the crate does. *)
Class Bech32Laws {BE : Bech32} := {
  scy_parses : hrp_parse DEFAULT_HRP = true;
  scy_encodes data : length data = 32%nat →
    ∃ s, bech32_encode DEFAULT_HRP data = Some (DEFAULT_HRP ++ x31 :: s) ∧ s ≠ [] ∧ Forall graphic s ∧
      bech32_decode (DEFAULT_HRP ++ x31 :: s) = Some (DEFAULT_HRP, data)
}.

Section address.
Context {BE : Bech32}.

Definition with_hrp (h : list byte) (hash : Hash) : Address := mkAddress (to_ascii_lowercase h) hash.
Definition Address_new (hash : Hash) : Address := with_hrp DEFAULT_HRP hash.

Definition to_bech32 (a : Address) : outcome AddressError (list byte) :=
  if negb (hrp_parse (hrp a)) then Err Bech32Decode
  else ok_or (bech32_encode (hrp a) (hash_bytes (address_hash a))) Bech32Decode.

(** The text [scy1<invalid>]. *)
Definition INVALID_TEXT : list byte := DEFAULT_HRP ++ [x31; x3c; x69; x6e; x76; x61; x6c; x69; x64; x3e].
Definition address_display (a : Address) : list byte :=
  match to_bech32 a with Ok s => s | _ => INVALID_TEXT end.

(** [Address::parse]; the slice [trimmed[..4]] panics inside a character. *)
Definition address_parse (input : list byte) : outcome AddressError Address :=
  let trimmed := trim input in
  let? is_bech32 :=
    if (4 <? length trimmed)%nat
    then if char_boundary (drop 4 trimmed) then Ok (eq_ignore_ascii_case (take 4 trimmed) (DEFAULT_HRP ++ [x31])) else Panic
    else Ok false in
  if (is_bech32 : bool) then
    let? (got, data) := ok_or (bech32_decode trimmed) Bech32Decode in
    if negb (eq_ignore_ascii_case got DEFAULT_HRP) then Err (InvalidHrp got)
    else match hash_of_list data with
         | Some hash => Ok (mkAddress DEFAULT_HRP hash)
         | None => Err (AddressInvalidLength (N.of_nat (length data)))
         end
  else
    let hex_clean := strip_0x trimmed in
    if (length hex_clean =? 64)%nat then
      let? bytes := map_err AddressHexDecode (from_hex hex_clean) in
      match hash_of_list bytes with
      | Some hash => Ok (Address_new hash)
      | None => Err UnrecognizedFormat
      end
    else Err UnrecognizedFormat.
End address.

(** ** Trimming *)

Lemma graphic_space b s : graphic b → white_space (b :: s) = 0%nat.
Proof. intros [H1 H2]. destruct b; cbn in H1, H2; lia || reflexivity. Qed.
Lemma graphic_space_end b s : graphic b → white_space_end (b :: s) = 0%nat.
Proof.
  intros H. unfold white_space_end. rewrite (graphic_space b []) by done. cbn [Nat.eqb].
  assert (H2 : ∀ b2, (white_space [b2; b] =? 2)%nat = false).
  { intros b2. destruct H as [H1 H2]. destruct b; cbn in H1, H2; try lia; by destruct b2. }
  assert (H3 : ∀ b3 b2, (white_space [b3; b2; b] =? 3)%nat = false).
  { intros b3 b2. destruct b3; try reflexivity; destruct b2; try reflexivity; destruct H as [H1' H2']; destruct b; cbn in H1', H2'; lia || reflexivity. }
  destruct s as [|b2 [|b3 s]]; [done|by rewrite H2|by rewrite H2, H3].
Qed.

Lemma trim_loop_stop fuel space s : space s = 0%nat → trim_loop fuel space s = s.
Proof. intros H. destruct fuel; [done|]. cbn [trim_loop]. by rewrite H. Qed.

(** Text between white space characters that starts and ends with a printable
    one. *)
Lemma trim_graphic b s c : graphic b → graphic c → trim (b :: s ++ [c]) = b :: s ++ [c].
Proof.
  intros Hb Hc. unfold trim. rewrite (trim_loop_stop _ _ _ (graphic_space b _ Hb)).
  rewrite app_comm_cons, reverse_snoc, (trim_loop_stop _ _ _ (graphic_space_end c _ Hc)).
  by rewrite <- reverse_snoc, reverse_involutive.
Qed.
Lemma trim_all_graphic s : (2 ≤ length s)%nat → Forall graphic s → trim s = s.
Proof.
  intros Hl HF. destruct s as [|b s]; [cbn in Hl; lia|]. destruct s as [|c s _] using rev_ind; [cbn in Hl; lia|].
  apply Forall_cons in HF as [Hb HF]. apply Forall_app in HF as [_ [Hc _]%Forall_cons]. by apply trim_graphic.
Qed.

Lemma spaces_loop fuel n s : (n ≤ fuel)%nat → white_space s = 0%nat →
  trim_loop fuel white_space (replicate n x20 ++ s) = s.
Proof.
  revert n. induction fuel as [|fuel IH]; intros n Hn Hs.
  { assert (n = O) as -> by lia. done. }
  destruct n as [|n]; [by apply trim_loop_stop|]. cbn [replicate app trim_loop]. apply IH; [lia|done].
Qed.
Lemma spaces_loop_end fuel n s : (n ≤ fuel)%nat → white_space_end s = 0%nat →
  trim_loop fuel white_space_end (replicate n x20 ++ s) = s.
Proof.
  revert n. induction fuel as [|fuel IH]; intros n Hn Hs.
  { assert (n = O) as -> by lia. done. }
  destruct n as [|n]; [by apply trim_loop_stop|]. cbn [replicate app trim_loop]. apply IH; [lia|done].
Qed.

(** Spaces around printable text are dropped. *)
Lemma trim_spaces n m s : (2 ≤ length s)%nat → Forall graphic s → trim (replicate n x20 ++ s ++ replicate m x20) = s.
Proof.
  intros Hl HF. unfold trim.
  destruct s as [|b s]; [cbn in Hl; lia|]. destruct s as [|c s _] using rev_ind; [cbn in Hl; lia|].
  apply Forall_cons in HF as [Hb HF]. apply Forall_app in HF as [_ [Hc _]%Forall_cons].
  rewrite spaces_loop; [|rewrite length_app, length_replicate; lia|by apply graphic_space].
  rewrite reverse_app, reverse_replicate, spaces_loop_end, reverse_involutive; [done| |].
  - rewrite length_app, length_replicate. lia.
  - rewrite app_comm_cons, reverse_snoc. by apply graphic_space_end.
Qed.

Lemma hex_graphic bs : Forall graphic (to_hex bs).
Proof.
  induction bs as [|b bs IH]; [constructor|]. change (to_hex (b :: bs)) with (hex_byte b ++ to_hex bs).
  apply Forall_app. split; [|done]. unfold graphic. destruct b; repeat constructor; discriminate.
Qed.
Lemma graphic_boundary s : Forall graphic s → char_boundary s = true.
Proof. intros HF. apply char_boundary_ascii. eapply Forall_impl; [exact HF|]. intros b [_ H]. lia. Qed.

(** ** Properties *)

Section properties.
Context {BE : Bech32} {BL : Bech32Laws}.

Lemma new_hrp h : Address_new h = mkAddress DEFAULT_HRP h.
Proof. reflexivity. Qed.

Lemma parse_hex_text s h : s = hash_display h ∨ s = x30 :: x78 :: hash_display h →
  ∀ n m, address_parse (replicate n x20 ++ s ++ replicate m x20) = Ok (Address_new h).
Proof.
  intros Hs n m. assert (Hlen : length (hash_display h) = 64%nat) by (unfold hash_display; by rewrite length_to_hex, hash_length).
  assert (HG : Forall graphic s).
  { destruct Hs as [-> | ->]; [apply hex_graphic|]. do 2 (constructor; [split; discriminate|]). apply hex_graphic. }
  assert (Hcl : strip_0x s = hash_display h) by (destruct Hs as [-> | ->]; [apply strip_0x_to_hex|done]).
  assert (Hls : (64 ≤ length s)%nat) by (destruct Hs as [-> | ->]; cbn [length]; lia).
  unfold address_parse. rewrite trim_spaces by (done || lia).
  rewrite (proj2 (Nat.ltb_lt _ _)), (graphic_boundary (drop 4 s)) by (by apply Forall_drop || lia).
  assert (Hno : eq_ignore_ascii_case (take 4 s) (DEFAULT_HRP ++ [x31]) = false).
  { apply bool_decide_eq_false. intros E. apply (f_equal head) in E. unfold hash_display in *.
    destruct Hs as [-> | ->]; [|done]. destruct h as [[|b l] Hh]; [done|]. cbn [hash_bytes] in E. clear -E. destruct b; discriminate. }
  rewrite Hno. cbn [obind]. rewrite Hcl, Hlen. cbn [Nat.eqb]. 
  rewrite (proj1 (hex_roundtrip (hash_bytes h) h) : from_hex (hash_display h) = _). cbn [map_err obind]. by rewrite hash_of_list_bytes.
Qed.

(** What an address prints is parsed back to it, from its Bech32 form and from
    the hexadecimal forms of its hash, with spaces around them or without. *)
Theorem address_roundtrip (h : Hash) (n m : nat) :
  ∃ s, to_bech32 (Address_new h) = Ok s ∧ address_display (Address_new h) = s ∧
    address_parse (replicate n x20 ++ s ++ replicate m x20) = Ok (Address_new h) ∧
    address_parse (replicate n x20 ++ hash_display h ++ replicate m x20) = Ok (Address_new h) ∧
    address_parse (replicate n x20 ++ (x30 :: x78 :: hash_display h) ++ replicate m x20) = Ok (Address_new h).
Proof.
  destruct (scy_encodes (hash_bytes h) (hash_length h)) as (s & HE & Hne & HG & HD).
  assert (HB : to_bech32 (Address_new h) = Ok (DEFAULT_HRP ++ x31 :: s)).
  { unfold to_bech32. rewrite new_hrp. cbn [hrp address_hash]. by rewrite scy_parses, HE. }
  exists (DEFAULT_HRP ++ x31 :: s). split; [exact HB|]. split; [unfold address_display; by rewrite HB|].
  split; [|split; eapply parse_hex_text; [by left|by right]].
  assert (HG' : Forall graphic (DEFAULT_HRP ++ x31 :: s)) by (do 4 (constructor; [split; discriminate|]); done).
  unfold address_parse. rewrite trim_spaces by (done || (cbn; lia)).
  destruct s as [|b s]; [done|]. rewrite (proj2 (Nat.ltb_lt _ _)) by (cbn; lia).
  rewrite graphic_boundary by by apply Forall_drop. cbn [DEFAULT_HRP app take firstn].
  change (eq_ignore_ascii_case [x73; x63; x79; x31] [x73; x63; x79; x31]) with true. cbn [obind]. cbn [DEFAULT_HRP app] in HD. rewrite HD. cbn [ok_or obind].
  change (eq_ignore_ascii_case [x73; x63; x79] [x73; x63; x79]) with true. cbn [negb].
  by rewrite hash_of_list_bytes.
Qed.

(** Text whose fourth byte ends inside a character makes [Address::parse]
    panic: a three byte character and then a two byte one. *)
Theorem address_parse_panics (tail : list byte) :
  graphic (default x00 (last tail)) → address_parse (xe2 :: x82 :: xac :: xc3 :: xa9 :: tail) = Panic.
Proof.
  intros Hl. destruct tail as [|c tail _] using rev_ind; [destruct Hl as [H _]; cbn in H; lia|].
  rewrite last_snoc in Hl. cbn [default] in Hl. unfold address_parse.
  assert (Ht : trim (xe2 :: x82 :: xac :: xc3 :: xa9 :: tail ++ [c]) = xe2 :: x82 :: xac :: xc3 :: xa9 :: tail ++ [c]).
  { unfold trim. rewrite (trim_loop_stop _ white_space) by reflexivity.
    change (xe2 :: x82 :: xac :: xc3 :: xa9 :: tail ++ [c]) with ((xe2 :: x82 :: xac :: xc3 :: xa9 :: tail) ++ [c]).
    rewrite reverse_snoc, (trim_loop_stop _ _ _ (graphic_space_end c _ Hl)). by rewrite <- reverse_snoc, reverse_involutive. }
  rewrite Ht. rewrite (proj2 (Nat.ltb_lt _ _)) by (cbn; lia). done.
Qed.
End properties.

(** ** Witnesses *)

(** A toy Bech32: the hexadecimal text of the data after the human readable part
    and a one, without a checksum. *)
Definition toy_bech32 : Bech32 := {|
  hrp_parse h := negb (bool_decide (h = []));
  bech32_encode h data := Some (h ++ x31 :: to_hex data);
  bech32_decode s :=
    match s with
    | x73 :: x63 :: x79 :: x31 :: s => match from_hex s with Ok data => Some (DEFAULT_HRP, data) | _ => None end
    | _ => None
    end
|}.
Lemma toy_bech32_laws : Bech32Laws (BE := toy_bech32).
Proof.
  split; [done|]. intros data Hl. exists (to_hex data). split; [done|]. split; [|split].
  - intros E%(f_equal length). rewrite length_to_hex, Hl in E. done.
  - apply hex_graphic.
  - cbn. by rewrite (proj1 (hex_roundtrip data ZERO)).
Qed.

Lemma address_parse_panics_witness :
  graphic x61 ∧ address_parse (BE := toy_bech32) [xe2; x82; xac; xc3; xa9; x61] = Panic.
Proof. split; [split; discriminate|]. apply (address_parse_panics (BE := toy_bech32) [x61]). split; discriminate. Defined.
