(* ===== verification/Account.v ===== *)
(** * Account numbers

    [crates/scytale-account] and the two requests of [http_gateway.rs] that use
    it: short numbers that stand for an address. The store of the bindings keeps
    two indexes and a file it replaces as a whole; a request to bind is signed
    with the key of the address. The model has every step of the replacement of
    the file, any of which can fail. The vault seals the key identifier under a
    PIN. JSON, signatures, the key derivation and the cipher are classes. *)

From S2P Require Import Prelude Bytes Primitives Address.
Local Open Scope N_scope.
Local Open Scope scy_scope.

(** ** Account numbers *)

(** The text [SCY-]. *)
Definition ACCOUNT_PREFIX : list byte := [x53; x43; x59; x2d].
Definition ACCOUNT_SPACE : N := 1000000.

Definition AccountNumber := list byte.
Inductive AccountNumberError := InvalidFormat.

Definition is_ascii_digit (b : byte) : bool := (48 <=? Byte.to_N b) && (Byte.to_N b <=? 57).
Definition strip_prefix (prefix s : list byte) : option (list byte) :=
  if bool_decide (take (length prefix) s = prefix) then Some (drop (length prefix) s) else None.
(** [AccountNumber::new]. *)
Definition AccountNumber_new (value : list byte) : outcome AccountNumberError AccountNumber :=
  let? digits := ok_or (strip_prefix ACCOUNT_PREFIX value) InvalidFormat in
  if negb (length digits =? 6)%nat || negb (forallb is_ascii_digit digits) then Err InvalidFormat else Ok value.

(** [format!("{:06}", n)] for a number of at most six digits. *)
Fixpoint decimal (width : nat) (n : N) : list byte :=
  match width with
  | O => []
  | S width => decimal width (n / 10) ++ [byte_of (48 + n mod 10)]
  end.

Section candidate.
Context {B3 : Blake3}.
Definition derive_candidate (key_id passbook_id : list byte) (attempt : N) : AccountNumber :=
  let input := key_id ++ passbook_id ++ le_bytes 4 attempt in
  let raw := le_val (take 4 (hash_bytes (blake3 input))) in
  ACCOUNT_PREFIX ++ decimal 6 (raw mod ACCOUNT_SPACE).
End candidate.

(** The bytes a wallet signs; they start with the text
    [SCYTALE-ACCOUNT-BIND-V1] and a zero. *)
Definition BIND_TAG : list byte :=
  [x53; x43; x59; x54; x41; x4c; x45; x2d; x41; x43; x43; x4f; x55; x4e; x54; x2d; x42; x49; x4e; x44; x2d; x56; x31; x00].
Definition bind_message (public_key : Hash) (passbook_id : list byte) (candidate : AccountNumber) : list byte :=
  BIND_TAG ++ hash_bytes public_key ++ le_bytes 4 (wrap32 (N.of_nat (length passbook_id))) ++ passbook_id ++ candidate.

(** ** The store *)

Record SidecarData := mkSidecarData {
  data_by_account : gmap AccountNumber (list byte);
  data_by_passbook : gmap (list byte) AccountNumber
}.
Definition SidecarData_default : SidecarData := mkSidecarData ∅ ∅.

Inductive IoStep := CreateDir | OpenTemporary | WriteAll | SyncFile | Rename | SyncDir | Metadata | SetPermissions | ReadFile.
Inductive StoreError :=
| StoreIo (step : IoStep)
| StoreSerialization
| AccountConflict
| PassbookConflict
| EmptyPassbookId
| InconsistentIndexes.

(** [serde_json] on the data. *)
Class SidecarJson := {
  to_json : SidecarData → option (list byte);
  from_json : list byte → option SidecarData
}.
Class SidecarJsonLaws {SJ : SidecarJson} := {
  from_to_json d bytes : to_json d = Some bytes → from_json bytes = Some d
}.

(** Readable and writable by the owner alone: octal 600. *)
Definition PRIVATE : N := 0x180.

(** Files with their modes: that of the store, and the temporary one next to
    it. *)
Record Files := mkFiles { target : option (list byte * N); temporary : option (list byte * N) }.

(** The steps that fail, and how much of the data a write that fails leaves. *)
Record Faults := mkFaults { fails : IoStep → bool; remove_fails : bool; partial : nat }.

Section store.
Context {SJ : SidecarJson}.
Definition fsM := stM Files StoreError.

Definition io (f : Faults) (step : IoStep) (effect : Files → Files) : fsM unit :=
  if fails f step then slift (Err (StoreIo step)) else smodify effect.

(** The closure of [flush]: the data goes to a new temporary file that takes the
    place of the old one. *)
Definition replace_file (f : Faults) (payload : list byte) : fsM unit :=
  let! files := sget in
  let! _ := if bool_decide (is_Some (temporary files)) then slift (Err (StoreIo OpenTemporary))
            else io f OpenTemporary (λ fs, mkFiles (target fs) (Some ([], PRIVATE))) in
  let! _ := if fails f WriteAll
            then let! _ := smodify (λ fs, mkFiles (target fs) (Some (take (partial f) payload, PRIVATE))) in slift (Err (StoreIo WriteAll))
            else smodify (λ fs, mkFiles (target fs) (Some (payload, PRIVATE))) in
  let! _ := io f SyncFile Datatypes.id in
  let! _ := io f Rename (λ fs, mkFiles (temporary fs) None) in
  io f SyncDir Datatypes.id.

(** An error of [m] after [after], whose own is not looked into. *)
Definition on_failure {A} (m : fsM A) (after : Files → Files) : fsM A := λ fs,
  match m fs with
  | (fs, Ok a) => (fs, Ok a)
  | (fs, r) => (after fs, r)
  end.
Definition set_mode (mode : N) (file : option (list byte * N)) : option (list byte * N) := (λ cm, (cm.1, mode)) <$> file.

(** [path] tells whether the store has a file. *)
Definition flush (f : Faults) (path : bool) (data : SidecarData) : fsM unit :=
  if path then
    let! _ := io f CreateDir Datatypes.id in
    let! payload := slift (ok_or (to_json data) StoreSerialization) in
    let! _ := on_failure (replace_file f payload)
                (λ fs, if remove_fails f then fs else mkFiles (target fs) None) in
    let! _ := io f Metadata Datatypes.id in
    io f SetPermissions (λ fs, mkFiles (set_mode PRIVATE (target fs)) (temporary fs))
  else sret tt.

Definition validate_indexes (data : SidecarData) : outcome StoreError unit :=
  if existsb (λ ap, negb (bool_decide (data_by_passbook data !! ap.2 = Some ap.1))) (map_to_list (data_by_account data)) ||
     existsb (λ pa, negb (bool_decide (data_by_account data !! pa.2 = Some pa.1))) (map_to_list (data_by_passbook data))
  then Err InconsistentIndexes else Ok tt.

Record AliasStore := mkAliasStore { has_path : bool; store_data : SidecarData }.
Definition in_memory : AliasStore := mkAliasStore false SidecarData_default.
Definition open_store (f : Faults) (fs : Files) : outcome StoreError AliasStore :=
  match target fs with
  | Some (bytes, _) =>
      if fails f ReadFile then Err (StoreIo ReadFile)
      else
        let? data := ok_or (from_json bytes) StoreSerialization in
        let? _ := validate_indexes data in
        Ok (mkAliasStore true data)
  | None => Ok (mkAliasStore true SidecarData_default)
  end.

Definition by_account (account : AccountNumber) (s : AliasStore) : option (list byte) := data_by_account (store_data s) !! account.
Definition by_passbook (passbook_id : list byte) (s : AliasStore) : option AccountNumber := data_by_passbook (store_data s) !! passbook_id.

(** A step on the store and its files. *)
Definition bind (f : Faults) (account : AccountNumber) (passbook_id : list byte) : stM (AliasStore * Files) StoreError unit := λ '(s, fs),
  if bool_decide (trim passbook_id = []) then (s, fs, Err EmptyPassbookId)
  else
    match by_account account s with
    | Some existing => (s, fs, if bool_decide (existing = passbook_id) then Ok tt else Err AccountConflict)
    | None =>
        if bool_decide (is_Some (by_passbook passbook_id s)) then (s, fs, Err PassbookConflict)
        else
          let next := mkSidecarData (<[account := passbook_id]> (data_by_account (store_data s)))
                        (<[passbook_id := account]> (data_by_passbook (store_data s))) in
          match flush f (has_path s) next fs with
          | (fs, Ok _) => (mkAliasStore (has_path s) next, fs, Ok tt)
          | (fs, Err e) => (s, fs, Err e)
          | (fs, Panic) => (s, fs, Panic)
          | (fs, Diverge) => (s, fs, Diverge)
          end
    end.
End store.

(** ** The requests of the gateway *)

Inductive StatusCode := BAD_REQUEST | UNAUTHORIZED | CONFLICT | INTERNAL_SERVER_ERROR | CREATED | NOT_FOUND.
Inductive AliasFailure :=
| InvalidAccountFormat
| PassbookIdEmpty
| InvalidPublicKey
| PublicKeyLength
| PassbookIdAddress
| KeyMismatch
| SignatureLength
| InvalidVerifyingKey
| InvalidSignature
| AlreadyRegistered
| BindFailed (e : StoreError)
| AccountNotFound.

(** [VerifyingKey::verify]. *)
Class Ed25519Verify {ED : Ed25519} := verify : VerifyingKey → list byte → list byte → bool.

Record AliasBindRequest := mkAliasBindRequest {
  passbook_id : list byte;
  req_candidate : list byte;
  req_signature : list byte;
  req_public_key : list byte
}.
Record AliasResponse := mkAliasResponse { account_number : list byte; resp_passbook_id : list byte }.

Section gateway.
Context {SJ : SidecarJson} {B3 : Blake3} {ED : Ed25519} {EV : Ed25519Verify} {BE : Bech32}.

Definition store_status (e : StoreError) : StatusCode :=
  match e with
  | AccountConflict | PassbookConflict => CONFLICT
  | StoreIo _ | StoreSerialization | InconsistentIndexes => INTERNAL_SERVER_ERROR
  | EmptyPassbookId => BAD_REQUEST
  end.

(** The checks of [bind_alias] before the store: the account and the key. *)
Definition check_bind (payload : AliasBindRequest) : outcome (StatusCode * AliasFailure) AccountNumber :=
  let? account := map_err (λ _, (BAD_REQUEST, InvalidAccountFormat)) (AccountNumber_new (req_candidate payload)) in
  if bool_decide (trim (passbook_id payload) = []) then Err (BAD_REQUEST, PassbookIdEmpty)
  else
    let? bytes := map_err (λ _, (BAD_REQUEST, InvalidPublicKey)) (from_hex (req_public_key payload)) in
    let? public_key := ok_or (hash_of_list bytes) (BAD_REQUEST, PublicKeyLength) in
    let? address := map_err (λ _, (BAD_REQUEST, PassbookIdAddress)) (address_parse (passbook_id payload)) in
    if negb (bool_decide (blake3 (hash_bytes public_key) = address_hash address)) then Err (UNAUTHORIZED, KeyMismatch)
    else if negb (length (req_signature payload) =? 64)%nat then Err (BAD_REQUEST, SignatureLength)
    else
      let? vk := ok_or (vk_from_bytes (hash_bytes public_key)) (UNAUTHORIZED, InvalidVerifyingKey) in
      if verify vk (bind_message public_key (passbook_id payload) account) (req_signature payload) then Ok account
      else Err (UNAUTHORIZED, InvalidSignature).

Definition bind_alias (f : Faults) (payload : AliasBindRequest) : stM (AliasStore * Files) (StatusCode * AliasFailure) AliasResponse :=
  let! account := slift (check_bind payload) in
  let! sf := sget in
  if match by_account account sf.1 with Some existing => negb (bool_decide (existing = passbook_id payload)) | None => false end
  then slift (Err (CONFLICT, AlreadyRegistered))
  else
    let! _ := λ sf, let '(sf, r) := bind f account (passbook_id payload) sf in
                    (sf, map_err (λ e, (store_status e, BindFailed e)) r) in
    sret (mkAliasResponse account (passbook_id payload)).

Definition resolve_alias (account : list byte) (s : AliasStore) : outcome (StatusCode * AliasFailure) AliasResponse :=
  let? account := map_err (λ _, (BAD_REQUEST, InvalidAccountFormat)) (AccountNumber_new account) in
  let? passbook_id := ok_or (by_account account s) (NOT_FOUND, AccountNotFound) in
  Ok (mkAliasResponse account passbook_id).
End gateway.

(** ** The vault of the key identifier *)

Inductive VaultError := InvalidPin | TracerDetected | KeyDerivation | Encryption | Authentication.
#[global] Instance vault_error_eq_dec : EqDecision VaultError.
Proof. solve_decision. Defined.

Record EncryptedKeyEnvelope := mkEncryptedKeyEnvelope {
  version : N;
  salt : list byte;
  nonce : list byte;
  ciphertext : list byte
}.
#[global] Instance envelope_eq_dec : EqDecision EncryptedKeyEnvelope.
Proof. solve_decision. Defined.

(** Argon2id with the parameters of the vault, and ChaCha20-Poly1305. *)
Class KeyCipher := {
  hash_password : list byte → list byte → option (list byte);
  encrypt : list byte → list byte → list byte → option (list byte);
  decrypt : list byte → list byte → list byte → option (list byte)
}.
Class KeyCipherLaws {KC : KeyCipher} := {
  decrypts key n plain sealed : encrypt key n plain = Some sealed → decrypt key n sealed = Some plain
}.

Definition PinCode_new (pin : list byte) : outcome VaultError (list byte) :=
  if negb (length pin =? 6)%nat || negb (forallb is_ascii_digit pin) then Err InvalidPin else Ok pin.

(** [str::lines]. *)
Fixpoint lines_loop (line s : list byte) : list (list byte) :=
  match s with
  | [] => if bool_decide (line = []) then [] else [reverse line]
  | x0a :: s => reverse (match line with x0d :: line => line | _ => line end) :: lines_loop [] s
  | b :: s => lines_loop (b :: line) s
  end.
(** [split_whitespace().next()]. *)
Fixpoint word (s : list byte) : list byte :=
  match s with
  | [] => []
  | b :: rest => match white_space s with O => b :: word rest | _ => [] end
  end.
Definition first_word (s : list byte) : option (list byte) :=
  match word (trim s) with [] => None | w => Some w end.
(** [parse::<u32>]. *)
Fixpoint parse_digits (acc : N) (s : list byte) : option N :=
  match s with
  | [] => Some acc
  | b :: s => if is_ascii_digit b then
                let acc := acc * 10 + (Byte.to_N b - 48) in
                if acc <? MOD32 then parse_digits acc s else None
              else None
  end.
Definition parse_u32 (s : list byte) : option N :=
  match s with
  | [] => None
  | [x2b] => None
  | x2b :: s => parse_digits 0 s
  | s => parse_digits 0 s
  end.

(** The text [TracerPid:]. *)
Definition TRACER_PID : list byte := [x54; x72; x61; x63; x65; x72; x50; x69; x64; x3a].
(** On the text of [/proc/self/status], when that can be read. *)
Definition is_being_traced (status : option (list byte)) : bool :=
  match status with
  | Some status =>
      existsb (λ line,
        match value ← strip_prefix TRACER_PID line; value ← first_word value; parse_u32 value with
        | Some pid => negb (pid =? 0)
        | None => false
        end) (lines_loop [] status)
  | None => false
  end.

Section vault.
Context {KC : KeyCipher}.

Definition derive_key (pin salt : list byte) : outcome VaultError (list byte) := ok_or (hash_password pin salt) KeyDerivation.

(** [random_salt] and [random_nonce] are what [getrandom] gives. *)
Definition encrypt_key (status : option (list byte)) (random_salt random_nonce : option (list byte)) (key_id pin : list byte) :
    outcome VaultError EncryptedKeyEnvelope :=
  if is_being_traced status then Err TracerDetected
  else
    let? pin := PinCode_new pin in
    let? salt := ok_or random_salt Encryption in
    let? nonce := ok_or random_nonce Encryption in
    let? derived := derive_key pin salt in
    let? ciphertext := ok_or (encrypt derived nonce key_id) Encryption in
    Ok (mkEncryptedKeyEnvelope 1 salt nonce ciphertext).

Definition decrypt_key (status : option (list byte)) (envelope : EncryptedKeyEnvelope) (pin : list byte) : outcome VaultError (list byte) :=
  if is_being_traced status then Err TracerDetected
  else if negb (version envelope =? 1) then Err Authentication
  else
    let? pin := PinCode_new pin in
    let? derived := derive_key pin (salt envelope) in
    ok_or (decrypt derived (nonce envelope) (ciphertext envelope)) Authentication.
End vault.

(** ** Account numbers and messages *)

Lemma length_decimal w n : length (decimal w n) = w.
Proof. revert n. induction w as [|w IH]; intros n; [done|]. cbn [decimal]. rewrite length_app, IH. cbn. lia. Qed.
Lemma decimal_digits w n : forallb is_ascii_digit (decimal w n) = true.
Proof.
  revert n. induction w as [|w IH]; intros n; [done|]. cbn [decimal]. rewrite forallb_app, IH. cbn [forallb andb]. rewrite andb_true_r.
  assert (Hd : n mod 10 < 10) by (apply N.mod_lt; lia). unfold is_ascii_digit. generalize dependent (n mod 10). intros d Hd.
  assert (E : Byte.to_N (byte_of (48 + d)) = 48 + d).
  { do 10 (destruct d as [|d] using N.peano_ind; [reflexivity|clear IHd; try lia]); lia. }
  rewrite E. apply andb_true_iff. split; apply N.leb_le; lia.
Qed.
Lemma AccountNumber_new_Ok value : (∃ a, AccountNumber_new value = Ok a) ↔
  ∃ digits, value = ACCOUNT_PREFIX ++ digits ∧ length digits = 6%nat ∧ forallb is_ascii_digit digits = true.
Proof.
  unfold AccountNumber_new, strip_prefix. split.
  - intros [a H]. case_bool_decide as E; [|done]. cbn [ok_or obind] in H.
    destruct (Nat.eqb_spec (length (drop (length ACCOUNT_PREFIX) value)) 6) as [Hl|]; [|done].
    destruct (forallb _ _) eqn:HF; [|done]. exists (drop (length ACCOUNT_PREFIX) value).
    split; [|done]. rewrite <- E at 1. by rewrite take_drop.
  - intros (digits & -> & Hl & HF). rewrite bool_decide_eq_true_2 by by rewrite take_app_length.
    cbn [ok_or obind]. rewrite drop_app_length, Hl, HF. by eexists.
Qed.
Lemma AccountNumber_same value a : AccountNumber_new value = Ok a → a = value.
Proof.
  unfold AccountNumber_new. destruct (strip_prefix _ _) as [d|]; [|done]. cbn [ok_or obind]. destruct (_ || _); [done|]. by intros [= <-].
Qed.
Lemma derived_valid {B3 : Blake3} key_id passbook_id attempt :
  AccountNumber_new (derive_candidate key_id passbook_id attempt) = Ok (derive_candidate key_id passbook_id attempt).
Proof.
  destruct (proj2 (AccountNumber_new_Ok (derive_candidate key_id passbook_id attempt))) as [a Ha].
  - unfold derive_candidate. eexists. split; [done|]. split; [apply length_decimal|apply decimal_digits].
  - by rewrite Ha, (AccountNumber_same _ _ Ha).
Qed.

(** The message names the key, the passbook and the account, and nothing can be
    moved between the three. *)
Lemma bind_message_inj pk pk' id id' a a' :
  N.of_nat (length id) < MOD32 → N.of_nat (length id') < MOD32 →
  bind_message pk id a = bind_message pk' id' a' → pk = pk' ∧ id = id' ∧ a = a'.
Proof.
  intros Hl Hl' E. unfold bind_message in E. apply app_inv_head in E.
  apply app_inj_1 in E as [Epk E]; [|by rewrite !hash_length]. apply hash_eq in Epk as ->.
  apply app_inj_1 in E as [El E]; [|by rewrite !length_le_bytes].
  apply (f_equal le_val) in El. rewrite !wrap32_small, !le_val_le_bytes_small in El by done. apply Nat2N.inj in El.
  by apply app_inj_1 in E as [-> ->].
Qed.

(** ** The two indexes *)

(** The indexes are inverse to each other. *)
Definition consistent (d : SidecarData) : Prop :=
  ∀ a id, data_by_account d !! a = Some id ↔ data_by_passbook d !! id = Some a.

Lemma validate_indexes_spec {SJ : SidecarJson} d :
  (validate_indexes d = Ok tt ∧ consistent d) ∨ (validate_indexes d = Err InconsistentIndexes ∧ ¬ consistent d).
Proof.
  unfold validate_indexes, consistent.
  destruct (existsb _ (map_to_list (data_by_account d))) eqn:E1; cbn [orb].
  { right. split; [done|]. intros HC. apply existsb_exists in E1 as ([a id] & Hin & Hn). cbn [fst snd] in Hn.
    apply list_elem_of_In, elem_of_map_to_list, HC in Hin. by rewrite bool_decide_eq_true_2 in Hn. }
  destruct (existsb _ (map_to_list (data_by_passbook d))) eqn:E2.
  { right. split; [done|]. intros HC. apply existsb_exists in E2 as ([id a] & Hin & Hn). cbn [fst snd] in Hn.
    apply list_elem_of_In, elem_of_map_to_list, HC in Hin. by rewrite bool_decide_eq_true_2 in Hn. }
  left. split; [done|]. intros a id.
  assert (HX : ∀ {A} (f : A → bool) l x, existsb f l = false → x ∈ l → f x = false).
  { intros A f l x Hf Hx. destruct (f x) eqn:Ex; [|done]. assert (existsb f l = true); [|congruence].
    apply existsb_exists. exists x. split; [by apply list_elem_of_In|done]. }
  split; intros H.
  - apply elem_of_map_to_list in H. apply (HX _ _ _ _ E1) in H. cbn [fst snd] in H. by apply negb_false_iff, bool_decide_eq_true in H.
  - apply elem_of_map_to_list in H. apply (HX _ _ _ _ E2) in H. cbn [fst snd] in H. by apply negb_false_iff, bool_decide_eq_true in H.
Qed.

Lemma consistent_insert d a id :
  consistent d → data_by_account d !! a = None → data_by_passbook d !! id = None →
  consistent (mkSidecarData (<[a := id]> (data_by_account d)) (<[id := a]> (data_by_passbook d))).
Proof.
  intros HC Ha Hid a' id'. cbn [data_by_account data_by_passbook]. rewrite !lookup_insert_Some, (HC a' id'). split.
  - intros [[-> ->]|[Hne H]]; [by left|]. right. split; [|done]. intros ->. congruence.
  - intros [[-> ->]|[Hne H]]; [by left|]. right. split; [|done]. intros ->. apply HC in H. congruence.
Qed.

(** ** Binding *)

Section store_properties.
Context {SJ : SidecarJson}.

Definition no_faults : Faults := mkFaults (λ _, false) false 0.

(** The steps after the rename. *)
Definition after_rename (step : IoStep) : bool :=
  match step with SyncDir | Metadata | SetPermissions => true | _ => false end.

(** The file is replaced as a whole: a flush that fails leaves the old file, or
    it fails after the rename and leaves the new one; it never panics. *)
Lemma flush_cases f data fs :
  (∃ payload, to_json data = Some payload ∧ flush f true data fs = (mkFiles (Some (payload, PRIVATE)) None, Ok tt)) ∨
  (∃ e fs', (e = StoreSerialization ∨ ∃ step, e = StoreIo step) ∧ flush f true data fs = (fs', Err e) ∧ target fs' = target fs) ∨
  (∃ step payload, after_rename step = true ∧ fails f step = true ∧ to_json data = Some payload ∧
    flush f true data fs = (mkFiles (Some (payload, PRIVATE)) None, Err (StoreIo step))).
Proof.
  destruct f as [fl rm part], fs as [old tmp].
  unfold flush, replace_file, on_failure, io, sbind, slift, sget, smodify, sret. cbn [fails remove_fails partial target temporary ok_or Datatypes.id].
  destruct (fl CreateDir); [right; left; eexists _, _; split; [by right; eexists|done]|].
  destruct (to_json data) as [payload|]; cbn [ok_or]; [|right; left; eexists _, _; split; [by left|done]].
  assert (HT : ∀ b : bool, target (if b then mkFiles old tmp else mkFiles old None) = old) by by intros [].
  case_bool_decide as ET; [right; left; eexists _, _; split; [by right; eexists|]; split; [done|by destruct rm]|].
  destruct (fl OpenTemporary); [right; left; eexists _, _; split; [by right; eexists|]; split; [done|by destruct rm]|].
  destruct (fl WriteAll); [right; left; eexists _, _; split; [by right; eexists|]; split; [done|by destruct rm]|].
  destruct (fl SyncFile); [right; left; eexists _, _; split; [by right; eexists|]; split; [done|by destruct rm]|].
  destruct (fl Rename); [right; left; eexists _, _; split; [by right; eexists|]; split; [done|by destruct rm]|].
  destruct (fl SyncDir) eqn:F1; [right; right; exists SyncDir, payload; by destruct rm|].
  destruct (fl Metadata) eqn:F2; [right; right; by exists Metadata, payload|].
  destruct (fl SetPermissions) eqn:F3; [right; right; by exists SetPermissions, payload|].
  left. by exists payload.
Qed.

(** What [bind] does, by its answer. *)
Lemma bind_cases f a id s fs :
  let '(s', fs', r) := bind f a id (s, fs) in
  match r with
  | Ok _ =>
      trim id ≠ [] ∧ has_path s' = has_path s ∧
      (by_account a s = Some id ∧ s' = s ∧ fs' = fs ∨
       by_account a s = None ∧ by_passbook id s = None ∧
       store_data s' = mkSidecarData (<[a := id]> (data_by_account (store_data s))) (<[id := a]> (data_by_passbook (store_data s))) ∧
       (has_path s = true → ∃ payload, to_json (store_data s') = Some payload ∧ fs' = mkFiles (Some (payload, PRIVATE)) None) ∧
       (has_path s = false → fs' = fs))
  | Err e =>
      s' = s ∧
      match e with
      | EmptyPassbookId => trim id = [] ∧ fs' = fs
      | AccountConflict => trim id ≠ [] ∧ fs' = fs ∧ ∃ other, by_account a s = Some other ∧ other ≠ id
      | PassbookConflict => trim id ≠ [] ∧ fs' = fs ∧ by_account a s = None ∧ ∃ other, by_passbook id s = Some other
      | _ =>
          has_path s = true ∧ by_account a s = None ∧ by_passbook id s = None ∧
          (target fs' = target fs ∨
           ∃ step payload, e = StoreIo step ∧ after_rename step = true ∧ fs' = mkFiles (Some (payload, PRIVATE)) None ∧
             to_json (mkSidecarData (<[a := id]> (data_by_account (store_data s))) (<[id := a]> (data_by_passbook (store_data s)))) = Some payload)
      end
  | _ => False
  end.
Proof.
  unfold bind. case_bool_decide as Ht; [done|].
  destruct (by_account a s) as [other|] eqn:Ea.
  { case_bool_decide as Eo; [subst; split; [done|]; split; [done|]; by left|]. split; [done|]. split; [done|]. split; [done|]. by exists other. }
  destruct (by_passbook id s) as [other|] eqn:Eb.
  { rewrite bool_decide_eq_true_2 by done. split; [done|]. do 3 (split; [done|]). by exists other. }
  rewrite bool_decide_eq_false_2 by by intros [? ?].
  set (next := mkSidecarData _ _). destruct (has_path s) eqn:Ep.
  2:{ cbn. split; [done|]. split; [done|]. right. do 3 (split; [done|]). by split. }
  destruct (flush_cases f next fs) as [(payload & HJ & ->)|[(e & fs' & He & -> & Et)|(step & payload & Hr & Hf & HJ & ->)]].
  - cbn [has_path store_data]. split; [done|]. split; [done|]. right. do 3 (split; [done|]). split; [|done]. by exists payload.
  - split; [done|]. destruct He as [->|[step ->]]; (do 3 (split; [done|])); by left.
  - split; [done|]. do 3 (split; [done|]). right. by exists step, payload.
Qed.

(** A sequence of binds, each with the steps that fail. *)
Fixpoint binds (l : list (Faults * AccountNumber * list byte)) (sf : AliasStore * Files) : AliasStore * Files :=
  match l with
  | [] => sf
  | (f, a, id) :: l => binds l (bind f a id sf).1
  end.

Lemma bind_keeps f a id s fs :
  consistent (store_data s) →
  let s' := (bind f a id (s, fs)).1.1 in
  consistent (store_data s') ∧ has_path s' = has_path s ∧
  ∀ a' id', by_account a' s = Some id' → by_account a' s' = Some id'.
Proof.
  intros HC. pose proof (bind_cases f a id s fs) as H. destruct (bind f a id (s, fs)) as [[s' fs'] [[]|e| |]]; cbn [fst]; [|by destruct H as [-> _]|done..].
  destruct H as (Ht & Hp & [(Ha & -> & _)|(Ha & Hb & Hd & _)]); [done|]. split; [|split; [done|]].
  - rewrite Hd. by apply consistent_insert.
  - intros a' id' H. unfold by_account. rewrite Hd. cbn [data_by_account]. rewrite lookup_insert_ne; [exact H|]. intros ->. congruence.
Qed.
Lemma binds_keep l s fs :
  consistent (store_data s) →
  let s' := (binds l (s, fs)).1 in
  consistent (store_data s') ∧ has_path s' = has_path s ∧
  ∀ a' id', by_account a' s = Some id' → by_account a' s' = Some id'.
Proof.
  revert s fs. induction l as [|[[f a] id] l IH]; intros s fs HC; [done|]. cbn [binds].
  destruct (bind_keeps f a id s fs HC) as (HC1 & Hp1 & Hk1). destruct (bind f a id (s, fs)) as [[s1 fs1] r]. cbn [fst] in *.
  destruct (IH s1 fs1 HC1) as (HC2 & Hp2 & Hk2). split; [done|]. split; [congruence|]. eauto.
Qed.

(** Bindings are first come first served. Whatever binds follow, and whatever
    steps of them fail, a number that stands for a passbook goes on standing for
    it and for no other, the passbook has no other number, and the two indexes
    stay inverse to each other. *)
Theorem bindings_kept (l : list (Faults * AccountNumber * list byte)) (s : AliasStore) (fs : Files) :
  consistent (store_data s) →
  let s' := (binds l (s, fs)).1 in
  consistent (store_data s') ∧ has_path s' = has_path s ∧
  (∀ a id, by_account a s = Some id → by_account a s' = Some id ∧ by_passbook id s' = Some a) ∧
  (∀ a a' id, by_account a s' = Some id → by_account a' s' = Some id → a = a').
Proof.
  intros HC s'. destruct (binds_keep l s fs HC) as (HC' & Hp & Hk). split; [done|]. split; [done|]. split.
  - intros a id H. apply Hk in H. split; [done|]. by apply HC'.
  - intros a a' id H1 H2. apply HC' in H1. apply HC' in H2. congruence.
Qed.

Lemma open_store_file {SL : SidecarJsonLaws} f data payload mode tmp :
  fails f ReadFile = false → to_json data = Some payload → consistent data →
  open_store f (mkFiles (Some (payload, mode)) tmp) = Ok (mkAliasStore true data).
Proof.
  intros Hf HJ HC. unfold open_store. cbn [target]. rewrite Hf, (from_to_json _ _ HJ). cbn [ok_or obind].
  by destruct (validate_indexes_spec data) as [[-> _]|[_ Hn]].
Qed.
Lemma open_store_consistent f fs s : open_store f fs = Ok s → consistent (store_data s) ∧ has_path s = true.
Proof.
  unfold open_store. destruct (target fs) as [[bytes mode]|].
  - destruct (fails f ReadFile); [done|]. destruct (from_json bytes) as [data|]; [|done]. cbn [ok_or obind].
    destruct (validate_indexes_spec data) as [[-> HC]|[-> _]]; [|done]. by intros [= <-].
  - intros [= <-]. split; [|done]. intros a id. cbn. by rewrite !lookup_empty.
Qed.
Lemma open_store_target f fs fs' : target fs = target fs' → open_store f fs = open_store f fs'.
Proof. intros E. unfold open_store. by rewrite E. Qed.

(** C32: Whatever step of a bind fails, the store opens again afterwards: with
    what is in memory, or, when a step after the rename failed, with the binding
    that was answered with the failure. *)
Theorem store_reopens {SL : SidecarJsonLaws} (f : Faults) (a : AccountNumber) (id : list byte) (s : AliasStore) (fs : Files) :
  open_store no_faults fs = Ok s →
  let '(s', fs', r) := bind f a id (s, fs) in
  open_store no_faults fs' = Ok s' ∨
  ∃ step s'', r = Err (StoreIo step) ∧ after_rename step = true ∧ s' = s ∧ by_account a s' = None ∧
    open_store no_faults fs' = Ok s'' ∧ by_account a s'' = Some id ∧
    ∀ a' id', by_account a' s = Some id' → by_account a' s'' = Some id'.
Proof.
  intros HO. destruct (open_store_consistent _ _ _ HO) as [HC Hp]. pose proof (bind_cases f a id s fs) as H.
  destruct (bind f a id (s, fs)) as [[s' fs'] [[]|e| |]]; [| |done..].
  - destruct H as (Ht & Hp' & [(Ha & -> & ->)|(Ha & Hb & Hd & Hf & _)]); [by left|]. left.
    destruct (Hf Hp) as (payload & HJ & ->). destruct s' as [p d]. cbn [store_data has_path] in *.
    assert (p = true) as -> by congruence. apply (open_store_file (SL := SL)); [done|done|]. subst d. by apply consistent_insert.
  - destruct H as [-> H].
    assert (HR : has_path s = true ∧ by_account a s = None ∧ by_passbook id s = None ∧
          (target fs' = target fs ∨
           ∃ step payload, e = StoreIo step ∧ after_rename step = true ∧ fs' = mkFiles (Some (payload, PRIVATE)) None ∧
             to_json (mkSidecarData (<[a := id]> (data_by_account (store_data s))) (<[id := a]> (data_by_passbook (store_data s)))) = Some payload)
          ∨ fs' = fs).
    { destruct e; try (by left); right; naive_solver. }
    destruct HR as [(_ & Ha & Hb & [Et|(step & payload & -> & Hr & -> & HJ)])| ->]; [left; by rewrite (open_store_target _ _ _ Et)| |by left].
    right. eexists step, _. split; [done|]. split; [done|]. split; [done|]. split; [done|].
    split; [apply (open_store_file (SL := SL)); [done|done|by apply consistent_insert]|].
    split; [apply lookup_insert_eq|]. intros a' id' H'. unfold by_account. cbn [store_data data_by_account].
    rewrite lookup_insert_ne; [exact H'|]. intros ->. congruence.
Qed.
End store_properties.

(** ** The gateway *)

Section gateway_properties.
Context {SJ : SidecarJson} {B3 : Blake3} {ED : Ed25519} {EV : Ed25519Verify} {BE : Bech32}.

Lemma check_bind_Ok payload a :
  check_bind payload = Ok a →
  a = req_candidate payload ∧ trim (passbook_id payload) ≠ [] ∧ length (req_signature payload) = 64%nat ∧
  ∃ pk addr vk, from_hex (req_public_key payload) = Ok (hash_bytes pk) ∧ address_parse (passbook_id payload) = Ok addr ∧
    blake3 (hash_bytes pk) = address_hash addr ∧ vk_from_bytes (hash_bytes pk) = Some vk ∧
    verify vk (bind_message pk (passbook_id payload) a) (req_signature payload) = true.
Proof.
  unfold check_bind. intros H. apply obind_Ok in H as (a' & Ha%map_err_Ok%AccountNumber_same & H).
  case_bool_decide as Ht; [done|].
  apply obind_Ok in H as (bytes & Hb%map_err_Ok & H). apply obind_Ok in H as (pk & Hpk%ok_or_Ok & H).
  apply obind_Ok in H as (addr & Haddr%map_err_Ok & H).
  case_bool_decide as Eh; [|done]. cbn [negb] in H.
  destruct (Nat.eqb_spec (length (req_signature payload)) 64) as [Hl|]; [|done]. cbn [negb] in H.
  apply obind_Ok in H as (vk & Hvk%ok_or_Ok & H). destruct (verify _ _ _) eqn:Hv; [|done]. injection H as <-.
  split; [done|]. split; [done|]. split; [done|]. exists pk, addr, vk.
  assert (bytes = hash_bytes pk) as -> by (symmetry; by apply hash_of_list_Some). done.
Qed.

Lemma AccountNumber_new_returns value : returns (AccountNumber_new value).
Proof. unfold AccountNumber_new. destruct (strip_prefix _ _); [|by split]. cbn [ok_or obind]. by destruct (_ || _). Qed.
Lemma address_parse_diverge input : address_parse input ≠ Diverge.
Proof.
  unfold address_parse. destruct (4 <? _)%nat; [destruct (char_boundary _); [|done]|]; cbn [obind].
  all: try (destruct (eq_ignore_ascii_case _ _); [destruct (bech32_decode _) as [[got data]|]; [|done]; cbn [ok_or obind];
       destruct (negb _); [done|]; by destruct (hash_of_list _)|]).
  all: destruct (_ =? 64)%nat; [|done].
  all: destruct (from_hex_returns (strip_0x (trim input))) as [H1 H2]; destruct (from_hex _); [cbn|done..]; by destruct (hash_of_list _).
Qed.
Lemma check_bind_stops payload :
  check_bind payload ≠ Diverge ∧ (check_bind payload = Panic → address_parse (passbook_id payload) = Panic).
Proof.
  unfold check_bind. destruct (AccountNumber_new_returns (req_candidate payload)) as [H1 H2]. destruct (AccountNumber_new _); [|done..].
  cbn [map_err obind]. destruct (bool_decide _); [done|].
  destruct (from_hex_returns (req_public_key payload)) as [H3 H4]. destruct (from_hex _) as [bytes| | |]; [|done..]. cbn [map_err obind].
  destruct (hash_of_list bytes) as [pk|]; [|done]. cbn [ok_or obind].
  pose proof (address_parse_diverge (passbook_id payload)) as H5. destruct (address_parse _) as [addr| | |]; [|done..]. cbn [map_err obind].
  destruct (negb _); [done|]. destruct (negb _); [done|]. destruct (vk_from_bytes _); [|done]. cbn [ok_or obind]. by destruct (verify _ _ _).
Qed.

Lemma bind_alias_accepted f payload a s fs :
  check_bind payload = Ok a →
  bind_alias f payload (s, fs) =
    (let '(sf, r) := bind f a (passbook_id payload) (s, fs) in
     if match by_account a s with Some existing => negb (bool_decide (existing = passbook_id payload)) | None => false end
     then (s, fs, Err (CONFLICT, AlreadyRegistered))
     else (sf, obind (map_err (λ e, (store_status e, BindFailed e)) r) (λ _, Ok (mkAliasResponse a (passbook_id payload))))).
Proof.
  intros EC. unfold bind_alias. rewrite EC, sbind_lift_Ok, sbind_sget. cbn [fst].
  destruct (match by_account a s with Some _ => _ | None => _ end); [by destruct (bind _ _ _ _)|].
  unfold sbind. destruct (bind f a _ _) as [sf [[]|e| |]]; done.
Qed.

(** C31: A binding is added only with a signature of the key whose hash the
    passbook's address is, over this very key, passbook and number: a signature
    for another binding is a signature of other bytes. Any other request leaves
    the store as it was, and only an address that cannot be parsed without a
    panic makes the request panic. *)
Theorem bind_authentic (f : Faults) (payload : AliasBindRequest) (s : AliasStore) (fs : Files) :
  let a := req_candidate payload in let id := passbook_id payload in
  let '(s', fs', r) := bind_alias f payload (s, fs) in
  match r with
  | Ok resp =>
      resp = mkAliasResponse a id ∧ AccountNumber_new a = Ok a ∧ resolve_alias a s' = Ok resp ∧
      (by_account a s = None ∨ by_account a s = Some id) ∧
      ∃ pk addr vk, address_parse id = Ok addr ∧ address_hash addr = blake3 (hash_bytes pk) ∧
        vk_from_bytes (hash_bytes pk) = Some vk ∧ verify vk (bind_message pk id a) (req_signature payload) = true ∧
        ∀ pk' id' a', N.of_nat (length id) < MOD32 → N.of_nat (length id') < MOD32 →
          bind_message pk' id' a' = bind_message pk id a → pk' = pk ∧ id' = id ∧ a' = a
  | Err _ => s' = s
  | Panic => s' = s ∧ fs' = fs ∧ address_parse id = Panic
  | Diverge => False
  end.
Proof.
  cbn zeta. destruct (check_bind_stops payload) as [HD HP].
  destruct (check_bind payload) as [a|e| |] eqn:EC.
  2: unfold bind_alias; by rewrite EC, sbind_lift_Err.
  2: unfold bind_alias, sbind, slift; rewrite EC; auto.
  2: done.
  rewrite (bind_alias_accepted _ _ _ _ _ EC).
  assert (EN : ∃ a', AccountNumber_new (req_candidate payload) = Ok a').
  { unfold check_bind in EC. apply obind_Ok in EC as (a' & EN%map_err_Ok & _). by exists a'. }
  destruct EN as [a' EN]. pose proof (AccountNumber_same _ _ EN) as ->.
  destruct (check_bind_Ok _ _ EC) as (-> & Ht & Hl & pk & addr & vk & Hpk & Haddr & Eh & Hvk & Hv).
  pose proof (bind_cases f (req_candidate payload) (passbook_id payload) s fs) as HB.
  destruct (bind f _ _ _) as [[s' fs'] [[]|e| |]]; [| |done..].
  2: destruct HB as [-> _]; by destruct (match by_account _ _ with Some _ => _ | None => _ end).
  destruct HB as (_ & _ & HB).
  assert (HS : by_account (req_candidate payload) s' = Some (passbook_id payload) ∧
    (by_account (req_candidate payload) s = None ∨ by_account (req_candidate payload) s = Some (passbook_id payload))).
  { destruct HB as [(Ha & -> & _)|(Ha & _ & Hd & _)]; [by split; [|right]|]. split; [|by left]. unfold by_account. rewrite Hd. apply lookup_insert_eq. }
  destruct HS as [HS Ho]. destruct (match by_account _ s with Some _ => _ | None => _ end) eqn:Em.
  { destruct Ho as [Ho|Ho]; rewrite Ho in Em; [done|]. by rewrite bool_decide_eq_true_2 in Em. }
  split; [done|]. split; [done|]. split; [|split; [done|]].
  { unfold resolve_alias. rewrite EN. cbn [map_err obind]. by rewrite HS. }
  exists pk, addr, vk. do 4 (split; [done|]). intros pk' id' a' Hl1 Hl2 E. by apply bind_message_inj.
Qed.

(** Requests to bind, one after the other. *)
Fixpoint bind_requests (l : list AliasBindRequest) (sf : AliasStore * Files) : AliasStore * Files :=
  match l with
  | [] => sf
  | payload :: l => bind_requests l (bind_alias no_faults payload sf).1
  end.

(** The hexadecimal form of an address after some spaces. *)
Definition spelled (h : Hash) (spaces : nat) : list byte := replicate spaces x20 ++ hash_display h.

Lemma spelled_inj h i j : spelled h i = spelled h j → i = j.
Proof. intros E%(f_equal length). unfold spelled in E. rewrite !length_app, !length_replicate in E. lia. Qed.
Lemma spelled_parse h i : address_parse (spelled h i) = Ok (Address_new h).
Proof. unfold spelled. rewrite <- (app_nil_r (hash_display h)). apply (parse_hex_text (hash_display h) h (or_introl eq_refl) i 0). Qed.
Lemma spelled_trim h i : trim (spelled h i) ≠ [].
Proof.
  assert (Hl : length (hash_display h) = 64%nat) by (unfold hash_display; by rewrite length_to_hex, hash_length).
  pose proof (trim_spaces i 0 (hash_display h) ltac:(lia) (hex_graphic _)) as H. cbn [replicate] in H. rewrite app_nil_r in H.
  unfold spelled. rewrite H. by destruct (hash_display h).
Qed.

Section one_key.
Variables (pk : Hash) (vk : VerifyingKey) (sign : list byte → list byte).
Hypothesis Hvk : vk_from_bytes (hash_bytes pk) = Some vk.
Hypothesis Hsign : ∀ message, verify vk message (sign message) = true ∧ length (sign message) = 64%nat.

(** A request of the owner of the key, for a number and a spelling of the
    address. *)
Definition request (spaces : nat) (a : AccountNumber) : AliasBindRequest :=
  let id := spelled (blake3 (hash_bytes pk)) spaces in
  mkAliasBindRequest id a (sign (bind_message pk id a)) (hash_display pk).

Lemma request_checks i a : AccountNumber_new a = Ok a → check_bind (request i a) = Ok a.
Proof.
  intros Ha. unfold check_bind. cbn [request req_candidate passbook_id req_public_key req_signature]. rewrite Ha. cbn [map_err obind].
  rewrite bool_decide_eq_false_2 by apply spelled_trim.
  rewrite (proj1 (hex_roundtrip (hash_bytes pk) pk) : from_hex (hash_display pk) = _). cbn [map_err obind].
  rewrite hash_of_list_bytes. cbn [ok_or obind]. rewrite spelled_parse. cbn [map_err obind]. rewrite new_hrp. cbn [address_hash].
  rewrite bool_decide_eq_true_2 by done. cbn [negb]. destruct (Hsign (bind_message pk (spelled (blake3 (hash_bytes pk)) i) a)) as [Hv ->].
  cbn [Nat.eqb negb]. rewrite Hvk. cbn [ok_or obind]. by rewrite Hv.
Qed.

Lemma request_accepted i a s fs :
  AccountNumber_new a = Ok a → has_path s = false → by_account a s = None → by_passbook (spelled (blake3 (hash_bytes pk)) i) s = None →
  (bind_alias no_faults (request i a) (s, fs)).1 =
    (mkAliasStore false (mkSidecarData (<[a := spelled (blake3 (hash_bytes pk)) i]> (data_by_account (store_data s)))
                          (<[spelled (blake3 (hash_bytes pk)) i := a]> (data_by_passbook (store_data s)))), fs).
Proof.
  intros Hn Hp Ha Hb. rewrite (bind_alias_accepted _ _ _ _ _ (request_checks i a Hn)), Ha. cbn [request passbook_id].
  unfold bind. rewrite bool_decide_eq_false_2 by apply spelled_trim. rewrite Ha, Hb. rewrite bool_decide_eq_false_2 by by intros [? ?].
  by rewrite Hp.
Qed.

Lemma requests_accepted numbers : ∀ k s fs,
  Forall (λ a, AccountNumber_new a = Ok a) numbers → NoDup numbers → has_path s = false →
  (∀ a, a ∈ numbers → by_account a s = None) → (∀ i, (k ≤ i)%nat → by_passbook (spelled (blake3 (hash_bytes pk)) i) s = None) →
  let s' := (bind_requests (imap (λ i, request (k + i)) numbers) (s, fs)).1 in
  (∀ a id, a ∉ numbers → by_account a s = Some id → by_account a s' = Some id) ∧
  ∀ i a, numbers !! i = Some a → by_account a s' = Some (spelled (blake3 (hash_bytes pk)) (k + i)).
Proof.
  induction numbers as [|a numbers IH]; intros k s fs HF HN Hp Ha Hb; [by split|].
  apply Forall_cons in HF as [Hn HF]. apply NoDup_cons in HN as [Hni HN].
  cbn [imap bind_requests]. rewrite Nat.add_0_r.
  rewrite request_accepted; [|done|done|apply Ha; by left|by apply Hb].
  set (s1 := mkAliasStore _ _).
  rewrite (imap_ext _ (λ i, request (S k + i))) by (intros i x _; cbn [compose]; f_equal; lia).
  destruct (IH (S k) s1 fs HF HN eq_refl) as [H1 H2].
  - intros a' Hin. unfold by_account, s1. cbn [store_data data_by_account]. rewrite lookup_insert_ne by (intros ->; done). apply Ha. by right.
  - intros i Hi. unfold by_passbook, s1. cbn [store_data data_by_passbook]. rewrite lookup_insert_ne; [apply Hb; lia|].
    intros E%spelled_inj. lia.
  - split.
    + intros a' id Hnot H. apply not_elem_of_cons in Hnot as [Hne Hnot]. apply H1; [done|]. unfold by_account, s1. cbn [store_data data_by_account].
      by rewrite lookup_insert_ne.
    + intros [|i] a' Hi; cbn in Hi.
      * injection Hi as <-. rewrite Nat.add_0_r. apply H1; [done|]. apply lookup_insert_eq.
      * rewrite (H2 i a' Hi). do 2 f_equal. lia.
Qed.

(** The owner of one key can take any free numbers, all of them: the passbook
    is compared as text, and an address has as many spellings as there are numbers
    of spaces before it. *)
Theorem one_key_many_numbers (numbers : list AccountNumber) (s : AliasStore) (fs : Files) :
  Forall (λ a, AccountNumber_new a = Ok a) numbers → NoDup numbers → has_path s = false →
  (∀ a, a ∈ numbers → by_account a s = None) → (∀ i, by_passbook (spelled (blake3 (hash_bytes pk)) i) s = None) →
  let s' := (bind_requests (imap request numbers) (s, fs)).1 in
  ∀ i a, numbers !! i = Some a → ∃ id,
    resolve_alias a s' = Ok (mkAliasResponse a id) ∧ address_parse id = Ok (Address_new (blake3 (hash_bytes pk))).
Proof.
  intros HF HN Hp Ha Hb s' i a Hi. exists (spelled (blake3 (hash_bytes pk)) i). split; [|apply spelled_parse].
  assert (Hn : AccountNumber_new a = Ok a) by exact (Forall_lookup_1 _ _ _ _ HF Hi).
  destruct (requests_accepted numbers 0 s fs HF HN Hp Ha (λ i _, Hb i)) as [_ H].
  unfold resolve_alias. rewrite Hn. cbn [map_err obind].
  assert (H' : by_account a s' = Some (spelled (blake3 (hash_bytes pk)) i)) by exact (H i a Hi). by rewrite H'.
Qed.
End one_key.
End gateway_properties.

(** ** The vault *)

Section vault_properties.
Context {KC : KeyCipher} {KL : KeyCipherLaws}.

(** A key identifier sealed with a PIN of six digits comes out under that
    PIN, and only an untraced process with a PIN of six digits seals at all. An
    envelope of another version is refused before the PIN is looked at. *)
Theorem vault_roundtrip (status status' random_salt random_nonce : option (list byte)) (key_id pin : list byte) :
  match encrypt_key status random_salt random_nonce key_id pin with
  | Ok envelope =>
      is_being_traced status = false ∧ length pin = 6%nat ∧ forallb is_ascii_digit pin = true ∧
      random_salt = Some (salt envelope) ∧ random_nonce = Some (nonce envelope) ∧
      decrypt_key status' envelope pin = (if is_being_traced status' then Err TracerDetected else Ok key_id) ∧
      ∀ v pin', v ≠ version envelope → is_being_traced status' = false →
        decrypt_key status' (mkEncryptedKeyEnvelope v (salt envelope) (nonce envelope) (ciphertext envelope)) pin' = Err Authentication
  | Err e =>
      e = TracerDetected ∧ is_being_traced status = true ∨
      e = InvalidPin ∧ (length pin ≠ 6%nat ∨ forallb is_ascii_digit pin = false) ∨
      e = KeyDerivation ∧ (∃ salt, random_salt = Some salt ∧ hash_password pin salt = None) ∨
      e = Encryption
  | _ => False
  end.
Proof.
  unfold encrypt_key. destruct (is_being_traced status) eqn:Es; [by left|]. unfold PinCode_new.
  destruct (Nat.eqb_spec (length pin) 6) as [Hl|Hl]; cbn [negb orb]; [|right; left; by split; [|left]].
  destruct (forallb is_ascii_digit pin) eqn:Hd; cbn [negb]; [|right; left; by split; [|right]].
  cbn [obind]. destruct random_salt as [s|]; cbn [ok_or obind]; [|by do 3 right]. destruct random_nonce as [n|]; cbn [ok_or obind]; [|by do 3 right].
  unfold derive_key. destruct (hash_password pin s) as [key|] eqn:Ek; cbn [ok_or obind]; [|right; right; left; split; [done|by exists s]].
  destruct (encrypt key n key_id) as [c|] eqn:Ec; cbn [ok_or obind]; [|by do 3 right].
  do 5 (split; [done|]). cbn [salt nonce ciphertext version]. split.
  - unfold decrypt_key. destruct (is_being_traced status'); [done|]. cbn [version]. cbn [N.eqb Pos.eqb negb].
    unfold PinCode_new, derive_key. rewrite Hl, Hd. cbn [Nat.eqb negb orb obind salt nonce ciphertext]. rewrite Ek. cbn [ok_or obind].
    by rewrite (decrypts _ _ _ _ Ec).
  - intros v pin' Hv Ht. unfold decrypt_key. rewrite Ht. cbn [version]. by destruct (N.eqb_spec v 1).
Qed.
End vault_properties.

(** ** Witnesses *)

(** A toy file format: a list of bindings, each with the lengths of its parts. *)
Fixpoint toy_read (fuel : nat) (s : list byte) : option (list (AccountNumber * list byte)) :=
  match fuel, s with
  | _, [] => Some []
  | S fuel, la :: li :: s =>
      let a := take (N.to_nat (Byte.to_N la)) s in
      let s := drop (N.to_nat (Byte.to_N la)) s in
      l ← toy_read fuel (drop (N.to_nat (Byte.to_N li)) s); Some ((a, take (N.to_nat (Byte.to_N li)) s) :: l)
  | _, _ => None
  end.
Definition toy_write (l : list (AccountNumber * list byte)) : list byte :=
  concat ((λ ai, byte_of (N.of_nat (length ai.1)) :: byte_of (N.of_nat (length ai.2)) :: ai.1 ++ ai.2) <$> l).
Definition toy_data (l : list (AccountNumber * list byte)) : SidecarData :=
  mkSidecarData (list_to_map l) (list_to_map ((λ ai, (ai.2, ai.1)) <$> l)).
#[local] Instance sidecar_eq_dec : EqDecision SidecarData.
Proof. solve_decision. Defined.
#[local] Instance toy_sidecar_json : SidecarJson := {|
  from_json bytes := toy_data <$> toy_read (length bytes) bytes;
  to_json d :=
    let bytes := toy_write (map_to_list (data_by_account d)) in
    if bool_decide (toy_data <$> toy_read (length bytes) bytes = Some d) then Some bytes else None
|}.
#[local] Instance toy_sidecar_json_laws : SidecarJsonLaws.
Proof. split. intros d bytes. cbn [to_json toy_sidecar_json]. case_bool_decide as E; [|done]. by intros [= <-]. Qed.

(** The number [SCY-00000n]. *)
Definition toy_number (n : N) : AccountNumber := ACCOUNT_PREFIX ++ decimal 6 n.
Definition toy_store : AliasStore := mkAliasStore true (toy_data [(toy_number 1, [x61]); (toy_number 2, [x62])]).
Definition toy_files : Files := mkFiles (Some (default [] (to_json (store_data toy_store)), PRIVATE)) None.
Lemma toy_opens : open_store no_faults toy_files = Ok toy_store.
Proof.
  assert (H : match open_store no_faults toy_files with Ok s => bool_decide (store_data s = store_data toy_store) && has_path s | _ => false end = true)
    by (vm_compute; reflexivity).
  destruct (open_store no_faults toy_files) as [[p d]| | |]; [|discriminate..]. cbn [store_data has_path] in H.
  apply andb_true_iff in H as [H%bool_decide_eq_true ->]. rewrite H. reflexivity.
Qed.
Lemma toy_consistent : consistent (store_data toy_store).
Proof. exact (proj1 (open_store_consistent _ _ _ toy_opens)). Qed.

Lemma bindings_kept_witness :
  consistent (store_data toy_store) ∧
  let s' := (binds [(no_faults, toy_number 1, [x63]); (no_faults, toy_number 3, [x63])] (toy_store, toy_files)).1 in
  consistent (store_data s') ∧ has_path s' = has_path toy_store ∧
  (∀ a id, by_account a toy_store = Some id → by_account a s' = Some id ∧ by_passbook id s' = Some a) ∧
  (∀ a a' id, by_account a s' = Some id → by_account a' s' = Some id → a = a').
Proof.
  split; [exact toy_consistent|].
  exact (bindings_kept [(no_faults, toy_number 1, [x63]); (no_faults, toy_number 3, [x63])] toy_store toy_files toy_consistent).
Defined.

(** The disk fails at the last sync: the number 3 is on it and not in memory. *)
Definition sync_fails : Faults := mkFaults (λ step, match step with SyncDir => true | _ => false end) false 0.
Lemma store_reopens_witness :
  open_store no_faults toy_files = Ok toy_store ∧
  (let '(s', fs', r) := bind sync_fails (toy_number 3) [x63] (toy_store, toy_files) in
   open_store no_faults fs' = Ok s' ∨
   ∃ step s'', r = Err (StoreIo step) ∧ after_rename step = true ∧ s' = toy_store ∧ by_account (toy_number 3) s' = None ∧
     open_store no_faults fs' = Ok s'' ∧ by_account (toy_number 3) s'' = Some [x63] ∧
     ∀ a' id', by_account a' toy_store = Some id' → by_account a' s'' = Some id').
Proof.
  split; [exact toy_opens|].
  exact (store_reopens sync_fails (toy_number 3) [x63] toy_store toy_files toy_opens).
Defined.
Lemma disk_ahead_of_memory :
  match bind sync_fails (toy_number 3) [x63] (toy_store, toy_files) with
  | (s', fs', Err (StoreIo SyncDir)) =>
      bool_decide (by_account (toy_number 3) s' = None) &&
      match open_store no_faults fs' with Ok s'' => bool_decide (by_account (toy_number 3) s'' = Some [x63]) | _ => false end
  | _ => false
  end = true.
Proof. vm_compute. reflexivity. Qed.

(** A toy signature: of the first bytes of the message. *)
#[local] Existing Instance toy_blake3.
#[local] Existing Instance toy_ed25519.
#[local] Existing Instance toy_bech32.
#[local] Instance toy_verify : Ed25519Verify := λ _ message signature, bool_decide (signature = take 64 (message ++ replicate 64 x00)).
Definition toy_sign (message : list byte) : list byte := take 64 (message ++ replicate 64 x00).
Lemma toy_signs message : verify (ED := toy_ed25519) ([] : list byte) message (toy_sign message) = true ∧ length (toy_sign message) = 64%nat.
Proof.
  split; [by apply bool_decide_eq_true_2|]. unfold toy_sign. rewrite length_take, length_app, length_replicate. lia.
Qed.
Lemma toy_numbers_valid : Forall (λ a, AccountNumber_new a = Ok a) (toy_number <$> [1; 2; 3]).
Proof. repeat constructor. Qed.
Lemma one_key_many_numbers_witness :
  NoDup (toy_number <$> [1; 2; 3]) ∧
  ∀ i a, (toy_number <$> [1; 2; 3]) !! i = Some a → ∃ id,
    resolve_alias a (bind_requests (imap (request ZERO toy_sign) (toy_number <$> [1; 2; 3])) (in_memory, mkFiles None None)).1 = Ok (mkAliasResponse a id) ∧
    address_parse id = Ok (Address_new (blake3 (hash_bytes ZERO))).
Proof.
  assert (HN : NoDup (toy_number <$> [1; 2; 3])) by (apply (bool_decide_eq_true_1 (NoDup (A := list byte) (toy_number <$> [1; 2; 3]))); vm_compute; reflexivity).
  split; [exact HN|].
  apply (one_key_many_numbers (ED := toy_ed25519) (EV := toy_verify) ZERO (hash_bytes ZERO) toy_sign eq_refl (λ m, toy_signs m) (toy_number <$> [1; 2; 3]) in_memory (mkFiles None None)).
  - exact toy_numbers_valid.
  - exact HN.
  - reflexivity.
  - intros a _. apply lookup_empty.
  - intros i. apply lookup_empty.
Defined.

(** A toy cipher that carries the key next to the text. *)
Definition toy_cipher : KeyCipher := {|
  hash_password pin salt := Some (pin ++ salt);
  encrypt key nonce plain := Some (key ++ plain);
  decrypt key nonce sealed := strip_prefix key sealed
|}.
#[local] Instance toy_cipher_laws : KeyCipherLaws (KC := toy_cipher).
Proof.
  split. intros key n plain sealed [= <-]. cbn. unfold strip_prefix.
  case_bool_decide as Ek; [by rewrite drop_app_length|]. destruct Ek. by rewrite take_app_length.
Qed.
Lemma vault_roundtrip_witness :
  match encrypt_key (KC := toy_cipher) None (Some [x01]) (Some [x02]) [x61; x62] [x31; x32; x33; x34; x35; x36] with
  | Ok envelope => decrypt_key (KC := toy_cipher) None envelope [x31; x32; x33; x34; x35; x36] = Ok [x61; x62]
  | _ => False
  end.
Proof.
  pose proof (vault_roundtrip (KC := toy_cipher) (KL := toy_cipher_laws) None None (Some [x01]) (Some [x02]) [x61; x62] [x31; x32; x33; x34; x35; x36]) as H.
  destruct (encrypt_key (KC := toy_cipher) None _ _ _ _) eqn:E; [|discriminate E..].
  destruct H as (_ & _ & _ & _ & _ & H & _). exact H.
Defined.
(** A traced process, as the kernel tells it. *)
Example traced :
  is_being_traced (Some ([x4e; x61; x6d; x65; x3a; x0a] ++ TRACER_PID ++ [x09; x34; x32; x0a])) = true ∧
  is_being_traced (Some (TRACER_PID ++ [x09; x30; x0a])) = false.
Proof. split; reflexivity. Qed.
