(* ===== verification/Stack.v ===== *)
(** * The script machine: opcodes and the value stack

    [crates/scytale-script/src/error.rs], [opcode.rs], [stack.rs] and
    [context.rs]. A stack is a list with its top first, where the code keeps a
    [Vec] with its top last. A 64-bit signed integer is a [Z]. *)

From S2P Require Import Prelude Bytes Primitives.
Local Open Scope N_scope.
Local Open Scope scy_scope.

Inductive ScriptError :=
| StackUnderflow
| StackOverflow (max : N)
| ItemTooLarge (size max : N)
| InvalidInteger (size : N)
| ScriptArithmeticOverflow
| EqualVerifyFailed
| CheckSigVerifyFailed
| ScriptLockTimeNotMet (lock_height current_height : N)
| OpReturnEncountered
| BudgetExceeded (max : N)
| UnbalancedConditionals
| InvalidOpCode (op : byte)
| ScriptTruncated (expected found : N)
| ScriptFailed.

(** ** Opcodes *)

Inductive OpCode :=
| Op0 | OpPushData1
| Op1 | Op2 | Op3 | Op4 | Op5 | Op6 | Op7 | Op8
| Op9 | Op10 | Op11 | Op12 | Op13 | Op14 | Op15 | Op16
| OpIf | OpElse | OpEndIf | OpReturn
| OpDup | OpDrop | OpSwap | OpRot | Op2Dup
| OpEqual | OpEqualVerify
| OpAdd | OpSub | OpLessThan | OpGreaterThan
| OpBlake3 | OpCheckSig | OpCheckSigVerify | OpCheckLockTimeVerify.
#[global] Instance opcode_eq_dec : EqDecision OpCode.
Proof. solve_decision. Defined.

Definition as_byte (op : OpCode) : byte :=
  match op with
  | Op0 => x00 | OpPushData1 => x4c
  | Op1 => x51 | Op2 => x52 | Op3 => x53 | Op4 => x54
  | Op5 => x55 | Op6 => x56 | Op7 => x57 | Op8 => x58
  | Op9 => x59 | Op10 => x5a | Op11 => x5b | Op12 => x5c
  | Op13 => x5d | Op14 => x5e | Op15 => x5f | Op16 => x60
  | OpIf => x63 | OpElse => x67 | OpEndIf => x68 | OpReturn => x6a
  | OpDup => x73 | OpDrop => x75 | OpSwap => x76 | OpRot => x77 | Op2Dup => x78
  | OpEqual => x87 | OpEqualVerify => x88
  | OpAdd => x93 | OpSub => x94 | OpLessThan => x9b | OpGreaterThan => x9c
  | OpBlake3 => xa0 | OpCheckSig => xac | OpCheckSigVerify => xad
  | OpCheckLockTimeVerify => xb1
  end.

Definition from_byte (b : byte) : option OpCode :=
  match b with
  | x00 => Some Op0 | x4c => Some OpPushData1
  | x51 => Some Op1 | x52 => Some Op2 | x53 => Some Op3 | x54 => Some Op4
  | x55 => Some Op5 | x56 => Some Op6 | x57 => Some Op7 | x58 => Some Op8
  | x59 => Some Op9 | x5a => Some Op10 | x5b => Some Op11 | x5c => Some Op12
  | x5d => Some Op13 | x5e => Some Op14 | x5f => Some Op15 | x60 => Some Op16
  | x63 => Some OpIf | x67 => Some OpElse | x68 => Some OpEndIf | x6a => Some OpReturn
  | x73 => Some OpDup | x75 => Some OpDrop | x76 => Some OpSwap | x77 => Some OpRot
  | x78 => Some Op2Dup
  | x87 => Some OpEqual | x88 => Some OpEqualVerify
  | x93 => Some OpAdd | x94 => Some OpSub | x9b => Some OpLessThan | x9c => Some OpGreaterThan
  | xa0 => Some OpBlake3 | xac => Some OpCheckSig | xad => Some OpCheckSigVerify
  | xb1 => Some OpCheckLockTimeVerify
  | _ => None
  end.

Definition is_pushbytes (b : byte) : bool := (1 <=? Byte.to_N b) && (Byte.to_N b <=? 75).

(** [ScriptContext]. *)
Record ScriptContext := mkScriptContext { sighash : Hash; current_block_height : N }.

(** ** Signed 64-bit integers *)

Definition I64_MIN : Z := -9223372036854775808.
Definition I64_MAX : Z := 9223372036854775807.
Definition i64_ok (z : Z) : Prop := (I64_MIN ≤ z ≤ I64_MAX)%Z.
Definition i64_in (z : Z) : bool := ((I64_MIN <=? z) && (z <=? I64_MAX))%Z.
Definition i64_checked (z : Z) : option Z := if i64_in z then Some z else None.

(** [i64::to_le_bytes] and [i64::from_le_bytes]: two's complement. *)
Definition i64_to_le_bytes (z : Z) : list byte := le_bytes 8 (Z.to_N (z mod 2 ^ 64)).
Definition i64_from_le_bytes (l : list byte) : Z :=
  let v := Z.of_N (le_val l) in if (v <? 2 ^ 63)%Z then v else (v - 2 ^ 64)%Z.

(** ** The stack *)

Definition MAX_STACK_DEPTH : N := 1024.
Definition MAX_ITEM_SIZE : N := 520.

Definition ScriptStack : Type := list (list byte).
Definition stackM : Type → Type := stM ScriptStack ScriptError.

Definition stack_new : ScriptStack := [].
Definition stack_len (s : ScriptStack) : N := N.of_nat (length s).
Definition stack_is_empty (s : ScriptStack) : bool := bool_decide (s = []).
Definition as_slice (s : ScriptStack) : list (list byte) := reverse s.

Definition push (item : list byte) : stackM unit := λ s,
  if MAX_STACK_DEPTH <=? stack_len s then (s, Err (StackOverflow MAX_STACK_DEPTH))
  else if MAX_ITEM_SIZE <? N.of_nat (length item)
  then (s, Err (ItemTooLarge (N.of_nat (length item)) MAX_ITEM_SIZE))
  else (item :: s, Ok tt).

Definition pop : stackM (list byte) := λ s,
  match s with
  | [] => (s, Err StackUnderflow)
  | item :: s => (s, Ok item)
  end.

Definition peek : stackM (list byte) := λ s, (s, ok_or (head s) StackUnderflow).

Definition push_int (val : Z) : stackM unit := push (i64_to_le_bytes val).

Definition pop_int : stackM Z :=
  let! item := pop in
  if bool_decide (item = []) then sret 0%Z
  else if (8 <? length item)%nat then slift (Err (InvalidInteger (N.of_nat (length item))))
  else sret (i64_from_le_bytes (item ++ replicate (8 - length item) x00)).

Definition push_bool (val : bool) : stackM unit := if val then push [x01] else push [].

(** The truth value of an item. *)
Definition truthy (item : list byte) : bool :=
  negb (bool_decide (item = []) || forallb (λ b, bool_decide (b = x00)) item).
Definition pop_bool : stackM bool :=
  let! item := pop in
  if bool_decide (item = []) || forallb (λ b, bool_decide (b = x00)) item
  then sret false else sret true.

Definition op_dup : stackM unit := let! top := peek in push top.
Definition op_drop : stackM unit := let! _ := pop in sret tt.
Definition op_swap : stackM unit :=
  let! top := pop in
  let! second := pop in
  let! _ := push top in
  push second.
Definition op_rot : stackM unit :=
  let! x3 := pop in
  let! x2 := pop in
  let! x1 := pop in
  let! _ := push x2 in
  let! _ := push x3 in
  push x1.
Definition op_2dup : stackM unit :=
  let! s := sget in
  match s with
  | x2 :: x1 :: _ => let! _ := push x1 in push x2
  | _ => slift (Err StackUnderflow)
  end.

(** ** Lemmas *)

Lemma from_byte_as_byte op : from_byte (as_byte op) = Some op.
Proof. by destruct op. Qed.

Lemma as_byte_from_byte b op : from_byte b = Some op → as_byte op = b.
Proof. destruct b; simpl; intros H; simplify_eq; done. Qed.

Lemma push_ok item s :
  stack_len s < MAX_STACK_DEPTH → N.of_nat (length item) ≤ MAX_ITEM_SIZE →
  push item s = (item :: s, Ok tt).
Proof.
  intros HS HI. unfold push. destruct (N.leb_spec MAX_STACK_DEPTH (stack_len s)); [lia|].
  by destruct (N.ltb_spec MAX_ITEM_SIZE (N.of_nat (length item))); [lia|].
Qed.

Lemma push_Ok item s s' :
  push item s = (s', Ok tt) ↔
  stack_len s < MAX_STACK_DEPTH ∧ N.of_nat (length item) ≤ MAX_ITEM_SIZE ∧ s' = item :: s.
Proof.
  split.
  - unfold push. destruct (N.leb_spec MAX_STACK_DEPTH (stack_len s)); [done|].
    destruct (N.ltb_spec MAX_ITEM_SIZE (N.of_nat (length item))); naive_solver lia.
  - intros (? & ? & ->). by apply push_ok.
Qed.

Lemma i64_to_le_length z : length (i64_to_le_bytes z) = 8%nat.
Proof. apply length_le_bytes. Qed.

Lemma i64_roundtrip z : i64_ok z → i64_from_le_bytes (i64_to_le_bytes z) = z.
Proof.
  unfold i64_ok, I64_MIN, I64_MAX, i64_from_le_bytes, i64_to_le_bytes. intros Hz.
  assert (HM : (0 ≤ z mod 2 ^ 64 < 2 ^ 64)%Z) by (apply Z.mod_pos_bound; lia).
  assert (HB : Z.to_N (z mod 2 ^ 64) < 256 ^ N.of_nat 8).
  { change (256 ^ N.of_nat 8) with (Z.to_N (2 ^ 64)). apply Z2N.inj_lt; lia. }
  rewrite le_val_le_bytes_small by exact HB. rewrite Z2N.id by lia. cbv zeta.
  destruct (Z.lt_ge_cases z 0) as [Hn|Hp].
  - replace (z mod 2 ^ 64)%Z with (z + 2 ^ 64)%Z.
    + destruct (Z.ltb_spec (z + 2 ^ 64) (2 ^ 63)); lia.
    + apply (Zmod_unique z (2 ^ 64) (-1)); lia.
  - rewrite Z.mod_small by lia. destruct (Z.ltb_spec z (2 ^ 63)); lia.
Qed.

Lemma i64_from_le_ok l : length l = 8%nat → i64_ok (i64_from_le_bytes l).
Proof.
  intros Hl. pose proof (le_val_bound l) as HB. rewrite Hl in HB.
  change (256 ^ N.of_nat 8) with MOD64 in HB.
  unfold i64_ok, I64_MIN, I64_MAX, i64_from_le_bytes. cbv zeta.
  destruct (Z.ltb_spec (Z.of_N (le_val l)) (2 ^ 63)); lia.
Qed.

(** The integer an item stands for. *)
Definition item_int (item : list byte) : option Z :=
  if (8 <? length item)%nat then None
  else Some (i64_from_le_bytes (item ++ replicate (8 - length item) x00)).

Lemma item_int_ok item z : item_int item = Some z → i64_ok z.
Proof.
  unfold item_int. destruct (Nat.ltb_spec 8 (length item)); [done|]. intros [= <-].
  apply i64_from_le_ok. rewrite length_app, length_replicate. lia.
Qed.

Lemma item_int_int z : i64_ok z → item_int (i64_to_le_bytes z) = Some z.
Proof.
  intros Hz. unfold item_int. rewrite i64_to_le_length. simpl (8 <? 8)%nat. cbn [replicate Nat.sub].
  by rewrite app_nil_r, i64_roundtrip.
Qed.

Lemma pop_int_cons item s :
  pop_int (item :: s) = (s, ok_or (item_int item) (InvalidInteger (N.of_nat (length item)))).
Proof.
  unfold pop_int, item_int, sbind. simpl. case_bool_decide as E; [by subst|].
  by destruct (8 <? length item)%nat.
Qed.
Lemma pop_int_nil : pop_int [] = ([], Err StackUnderflow).
Proof. done. Qed.

Lemma pop_bool_cons item s : pop_bool (item :: s) = (s, Ok (truthy item)).
Proof. unfold pop_bool, truthy, sbind. simpl. by destruct (_ || _). Qed.

Lemma truthy_bool (b : bool) : truthy (if b then [x01] else []) = b.
Proof. by destruct b. Qed.
