(* ===== verification/Types.v ===== *)
(** * scytale-core: data and errors

    The structures of [crates/scytale-core/src/transaction.rs], [block.rs] and
    [utxo.rs], the error enums of [error.rs], and the width invariant of each
    structure ([.._wf]: every integer field fits its Rust type). An error
    variant that carries only the rendered text of another error carries that
    error. *)

From S2P Require Import Prelude Bytes Primitives Stack.
Local Open Scope N_scope.

(** ** Transactions *)

Record TxIn := mkTxIn {
  previous_output : OutPoint;
  authorization : list byte;
  sequence : N
}.
#[global] Instance txin_eq_dec : EqDecision TxIn.
Proof. solve_decision. Defined.

Record Transaction := mkTransaction {
  tx_version : N;
  inputs : list TxIn;
  outputs : list TxOut;
  lock_time : N
}.
#[global] Instance transaction_eq_dec : EqDecision Transaction.
Proof. solve_decision. Defined.

(** ** Blocks *)

Record BlockHeader := mkBlockHeader {
  version : N;
  previous_block_hash : Hash;
  transaction_commitment : Hash;
  utxo_root : Hash;
  timestamp : N;
  difficulty_target : N;
  nonce : N
}.
#[global] Instance blockheader_eq_dec : EqDecision BlockHeader.
Proof. solve_decision. Defined.

Record Block := mkBlock { header : BlockHeader; transactions : list Transaction }.
#[global] Instance block_eq_dec : EqDecision Block.
Proof. solve_decision. Defined.

(** ** Unspent outputs *)

Record UtxoEntry := mkUtxoEntry {
  output : TxOut;
  block_height : N;
  is_coinbase_output : bool
}.
#[global] Instance utxoentry_eq_dec : EqDecision UtxoEntry.
Proof. solve_decision. Defined.

(** ** Errors *)

Inductive SerializationError :=
| UnexpectedEof (needed available : N)
| LengthExceedsLimit (length max : N)
| TrailingBytes (n : N)
| UnsupportedVersion (v : N)
| InvalidEncoding
| Io.

Inductive TransactionError :=
| InvalidVersion (v : N)
| EmptyInputs
| EmptyOutputs
| ZeroOutputValue
| OutputValueOverflow
| DuplicateInput (o : OutPoint)
| InputValueDeficit (total_in total_out : N)
| TxArithmeticOverflow
| SerializationFailure (e : SerializationError).

Inductive UtxoError :=
| DuplicateOutPoint (o : OutPoint)
| MissingUtxo (o : OutPoint)
| AlreadySpent (o : OutPoint)
| ValueDeficit (total_in total_out : N)
| UtxoArithmeticOverflow
| TxError (e : TransactionError)
| InvalidCoinbasePlacement.

(** The message of [MalformedProof] is the script error it renders. *)
Inductive AuthorizationError :=
| EmptyAuthorization
| MalformedProof (e : ScriptError)
| SignatureMismatch
| KeyConditionMismatch
| InvalidInputIndex (index total_inputs : N)
| PreimageSerializationFailure (e : SerializationError)
| MismatchedUtxoCount (input_count utxo_count : N).

Inductive BlockError :=
| EmptyTransactionVector
| MissingCoinbase
| DuplicateCoinbase (idx : N)
| BlockTransactionError (e : TransactionError)
| BlockSerializationError (e : SerializationError)
| InvalidUtxoRoot (expected actual : Hash).

(** ** Width invariants *)

Definition outpoint_wf (o : OutPoint) : Prop := op_index o < MOD32.
Definition txin_wf (i : TxIn) : Prop := outpoint_wf (previous_output i) ∧ sequence i < MOD32.
Definition txout_wf (o : TxOut) : Prop := value o < MOD64.
Definition transaction_wf (t : Transaction) : Prop :=
  tx_version t < MOD32 ∧ Forall txin_wf (inputs t) ∧ Forall txout_wf (outputs t) ∧
  lock_time t < MOD64.
Definition blockheader_wf (h : BlockHeader) : Prop :=
  version h < MOD32 ∧ timestamp h < MOD64 ∧ difficulty_target h < MOD32 ∧ nonce h < MOD64.
Definition block_wf (b : Block) : Prop :=
  blockheader_wf (header b) ∧ Forall transaction_wf (transactions b).
Definition utxoentry_wf (e : UtxoEntry) : Prop :=
  txout_wf (output e) ∧ block_height e < MOD64.
