(* ===== verification/Codec.v ===== *)
(** * Canonical serialization

    [crates/scytale-core/src/codec.rs]: the two traits as classes, one
    instance per implementation, and the laws every codec of the crate
    satisfies ([CodecLaws]): decoding inverts encoding on values whose lengths
    respect the limits, and a decodable byte string is the encoding of the value
    it decodes to. *)

From S2P Require Import Prelude Bytes Primitives Types.
Local Open Scope N_scope.
Local Open Scope scy_scope.

(** ** Traits *)

Definition MAX_VECTOR_LENGTH : N := 16777216.

(** A writer is a growing [Vec<u8>]: [serialize_canonical] returns what it
    appends. A reader is the unread input. *)
Class CanonicalSerialize (A : Type) :=
  serialize_canonical : A → outcome SerializationError (list byte).
Class CanonicalDeserialize (A : Type) :=
  deserialize_canonical : list byte → outcome SerializationError (A * list byte).

Definition to_canonical_bytes {A} `{CanonicalSerialize A} (x : A) :
    outcome SerializationError (list byte) :=
  let? buf := serialize_canonical x in Ok buf.

Definition from_canonical_bytes {A} `{CanonicalDeserialize A} (bytes : list byte) :
    outcome SerializationError A :=
  let? (obj, rest) := deserialize_canonical bytes in
  if (0 <? length rest)%nat then Err (TrailingBytes (N.of_nat (length rest))) else Ok obj.

(** [reader.read_exact(&mut [0u8; n])]; the error is the one
    [From<io::Error>] builds. *)
Definition read_exact (n : nat) (reader : list byte) :
    outcome SerializationError (list byte * list byte) :=
  if (n <=? length reader)%nat then Ok (take n reader, drop n reader)
  else Err (UnexpectedEof 1 0).

(** ** Primitive implementations *)

Definition write_u8 (v : N) : outcome SerializationError (list byte) := Ok (le_bytes 1 v).
Definition read_u8 (r : list byte) : outcome SerializationError (N * list byte) :=
  let? (buf, r) := read_exact 1 r in Ok (le_val buf, r).
Definition write_u16 (v : N) : outcome SerializationError (list byte) := Ok (le_bytes 2 v).
Definition read_u16 (r : list byte) : outcome SerializationError (N * list byte) :=
  let? (buf, r) := read_exact 2 r in Ok (le_val buf, r).
Definition write_u32 (v : N) : outcome SerializationError (list byte) := Ok (le_bytes 4 v).
Definition read_u32 (r : list byte) : outcome SerializationError (N * list byte) :=
  let? (buf, r) := read_exact 4 r in Ok (le_val buf, r).
Definition write_u64 (v : N) : outcome SerializationError (list byte) := Ok (le_bytes 8 v).
Definition read_u64 (r : list byte) : outcome SerializationError (N * list byte) :=
  let? (buf, r) := read_exact 8 r in Ok (le_val buf, r).

#[export] Instance ser_bool : CanonicalSerialize bool := λ b,
  Ok [if b then x01 else x00].
#[export] Instance deser_bool : CanonicalDeserialize bool := λ r,
  let? (buf, r) := read_exact 1 r in
  match buf with
  | [x00] => Ok (false, r)
  | [x01] => Ok (true, r)
  | _ => Err InvalidEncoding
  end.

#[export] Instance ser_hash : CanonicalSerialize Hash := λ h, Ok (hash_bytes h).
#[export] Instance deser_hash : CanonicalDeserialize Hash := λ r,
  let? (buf, r) := read_exact 32 r in
  let? h := expect (hash_of_list buf) in
  Ok (h, r).

#[export] Instance ser_bytes : CanonicalSerialize (list byte) := λ v,
  if MAX_VECTOR_LENGTH <? N.of_nat (length v)
  then Err (LengthExceedsLimit (N.of_nat (length v)) MAX_VECTOR_LENGTH)
  else
    let? len := write_u32 (wrap32 (N.of_nat (length v))) in
    Ok (len ++ v).
#[export] Instance deser_bytes : CanonicalDeserialize (list byte) := λ r,
  let? (len, r) := read_u32 r in
  if MAX_VECTOR_LENGTH <? len then Err (LengthExceedsLimit len MAX_VECTOR_LENGTH)
  else read_exact (N.to_nat len) r.

(** ** Protocol structures *)

#[export] Instance ser_outpoint : CanonicalSerialize OutPoint := λ o,
  let? a := serialize_canonical (op_txid o) in
  let? b := write_u32 (op_index o) in
  Ok (a ++ b).
#[export] Instance deser_outpoint : CanonicalDeserialize OutPoint := λ r,
  let? (txid, r) := deserialize_canonical r in
  let? (index, r) := read_u32 r in
  Ok (mkOutPoint txid index, r).

#[export] Instance ser_txin : CanonicalSerialize TxIn := λ i,
  let? a := serialize_canonical (previous_output i) in
  let? b := serialize_canonical (authorization i) in
  let? c := write_u32 (sequence i) in
  Ok (a ++ b ++ c).
#[export] Instance deser_txin : CanonicalDeserialize TxIn := λ r,
  let? (previous_output, r) := deserialize_canonical r in
  let? (authorization, r) := deserialize_canonical r in
  let? (sequence, r) := read_u32 r in
  Ok (mkTxIn previous_output authorization sequence, r).

#[export] Instance ser_txout : CanonicalSerialize TxOut := λ o,
  let? a := write_u64 (value o) in
  let? b := serialize_canonical (locking_condition o) in
  Ok (a ++ b).
#[export] Instance deser_txout : CanonicalDeserialize TxOut := λ r,
  let? (value, r) := read_u64 r in
  let? (locking_condition, r) := deserialize_canonical r in
  Ok (mkTxOut value locking_condition, r).

(** [for x in &self.xs { x.serialize_canonical(writer)?; }] *)
Fixpoint serialize_each {A} `{CanonicalSerialize A} (l : list A) :
    outcome SerializationError (list byte) :=
  match l with
  | [] => Ok []
  | x :: l =>
      let? a := serialize_canonical x in
      let? b := serialize_each l in
      Ok (a ++ b)
  end.

(** [for _ in 0..count { xs.push(A::deserialize_canonical(reader)?); }] *)
Fixpoint deserialize_each {A} `{CanonicalDeserialize A} (count : nat) (r : list byte) :
    outcome SerializationError (list A * list byte) :=
  match count with
  | O => Ok ([], r)
  | S count =>
      let? (x, r) := deserialize_canonical r in
      let? (xs, r) := deserialize_each count r in
      Ok (x :: xs, r)
  end.

Definition serialize_counted {A} `{CanonicalSerialize A} (l : list A) :
    outcome SerializationError (list byte) :=
  let? n := write_u32 (wrap32 (N.of_nat (length l))) in
  let? xs := serialize_each l in
  Ok (n ++ xs).
Definition deserialize_counted {A} `{CanonicalDeserialize A} (r : list byte) :
    outcome SerializationError (list A * list byte) :=
  let? (count, r) := read_u32 r in
  if MAX_VECTOR_LENGTH <? count then Err (LengthExceedsLimit count MAX_VECTOR_LENGTH)
  else deserialize_each (N.to_nat count) r.

#[export] Instance ser_transaction : CanonicalSerialize Transaction := λ t,
  let? a := write_u32 (tx_version t) in
  let? b := serialize_counted (inputs t) in
  let? c := serialize_counted (outputs t) in
  let? d := write_u64 (lock_time t) in
  Ok (a ++ b ++ c ++ d).
#[export] Instance deser_transaction : CanonicalDeserialize Transaction := λ r,
  let? (version, r) := read_u32 r in
  let? (inputs, r) := deserialize_counted r in
  let? (outputs, r) := deserialize_counted r in
  let? (lock_time, r) := read_u64 r in
  Ok (mkTransaction version inputs outputs lock_time, r).

#[export] Instance ser_blockheader : CanonicalSerialize BlockHeader := λ h,
  let? a := write_u32 (version h) in
  let? b := serialize_canonical (previous_block_hash h) in
  let? c := serialize_canonical (transaction_commitment h) in
  let? d := serialize_canonical (utxo_root h) in
  let? e := write_u64 (timestamp h) in
  let? f := write_u32 (difficulty_target h) in
  let? g := write_u64 (nonce h) in
  Ok (a ++ b ++ c ++ d ++ e ++ f ++ g).
#[export] Instance deser_blockheader : CanonicalDeserialize BlockHeader := λ r,
  let? (version, r) := read_u32 r in
  let? (previous_block_hash, r) := deserialize_canonical r in
  let? (transaction_commitment, r) := deserialize_canonical r in
  let? (utxo_root, r) := deserialize_canonical r in
  let? (timestamp, r) := read_u64 r in
  let? (difficulty_target, r) := read_u32 r in
  let? (nonce, r) := read_u64 r in
  Ok (mkBlockHeader version previous_block_hash transaction_commitment utxo_root
        timestamp difficulty_target nonce, r).

#[export] Instance ser_block : CanonicalSerialize Block := λ b,
  let? a := serialize_canonical (header b) in
  let? c := serialize_counted (transactions b) in
  Ok (a ++ c).
#[export] Instance deser_block : CanonicalDeserialize Block := λ r,
  let? (header, r) := deserialize_canonical r in
  let? (transactions, r) := deserialize_counted r in
  Ok (mkBlock header transactions, r).

#[export] Instance ser_utxoentry : CanonicalSerialize UtxoEntry := λ e,
  let? a := serialize_canonical (output e) in
  let? b := write_u64 (block_height e) in
  let? c := serialize_canonical (is_coinbase_output e) in
  Ok (a ++ b ++ c).
#[export] Instance deser_utxoentry : CanonicalDeserialize UtxoEntry := λ r,
  let? (output, r) := deserialize_canonical r in
  let? (block_height, r) := read_u64 r in
  let? (is_coinbase, r) := deserialize_canonical r in
  Ok (mkUtxoEntry output block_height is_coinbase, r).

Arguments serialize_canonical : simpl never.
Arguments deserialize_canonical : simpl never.
Arguments write_u32 : simpl never.
Arguments write_u64 : simpl never.
Arguments serialize_counted : simpl never.

(** ** Laws *)

Definition lawful {A} (w : A → outcome SerializationError (list byte))
    (r : list byte → outcome SerializationError (A * list byte)) (wf : A → Prop) : Prop :=
  (∀ x bs rest, wf x → w x = Ok bs → r (bs ++ rest) = Ok (x, rest)) ∧
  (∀ s x rest, r s = Ok (x, rest) → wf x ∧ ∃ bs, w x = Ok bs ∧ s = bs ++ rest).

Class CodecLaws (A : Type) `{CanonicalSerialize A, CanonicalDeserialize A} (wf : A → Prop) :=
  codec_lawful : lawful (@serialize_canonical A _) (@deserialize_canonical A _) wf.

Create HintDb codec discriminated.

Lemma read_exact_app n l rest : length l = n → read_exact n (l ++ rest) = Ok (l, rest).
Proof.
  intros Hl. unfold read_exact. rewrite length_app.
  destruct (Nat.leb_spec n (length l + length rest)); [|lia].
  by rewrite take_app_length', drop_app_length'.
Qed.

Lemma read_exact_Ok n r a rest : read_exact n r = Ok (a, rest) → length a = n ∧ r = a ++ rest.
Proof.
  unfold read_exact. destruct (Nat.leb_spec n (length r)); [|done]. intros [= <- <-].
  split; [|by rewrite take_drop]. rewrite length_take. lia.
Qed.

Lemma lawful_int n :
  lawful (λ v, Ok (le_bytes n v))
    (λ r, let? (buf, r) := read_exact n r in Ok (le_val buf, r))
    (λ v, v < 256 ^ N.of_nat n).
Proof.
  split.
  - intros x bs rest Hx [= <-]. rewrite read_exact_app by apply length_le_bytes.
    simpl. by rewrite le_val_le_bytes_small.
  - intros s x rest ([buf r] & [Hl ->]%read_exact_Ok & [= <- <-])%obind_Ok.
    split; [rewrite <- Hl; apply le_val_bound|]. eexists; split; [done|].
    by rewrite le_bytes_le_val'.
Qed.

Lemma lawful_u8 : lawful write_u8 read_u8 (λ v, v < 256).
Proof. apply (lawful_int 1). Qed.
Lemma lawful_u16 : lawful write_u16 read_u16 (λ v, v < 65536).
Proof. apply (lawful_int 2). Qed.
Lemma lawful_u32 : lawful write_u32 read_u32 (λ v, v < MOD32).
Proof. apply (lawful_int 4). Qed.
Lemma lawful_u64 : lawful write_u64 read_u64 (λ v, v < MOD64).
Proof. apply (lawful_int 8). Qed.

#[export] Instance bool_laws : CodecLaws bool (λ _, True).
Proof.
  split.
  - intros [] bs rest _ [= <-]; reflexivity.
  - intros s x rest ([buf r] & [Hl ->]%read_exact_Ok & Hb)%obind_Ok.
    destruct buf as [|b [|]]; [done| |done].
    split; [done|]. destruct b; try discriminate; injection Hb as <- <-; by eexists.
Qed.

#[export] Instance hash_laws : CodecLaws Hash (λ _, True).
Proof.
  split.
  - intros h bs rest _ [= <-]. unfold deserialize_canonical, deser_hash.
    rewrite read_exact_app by apply hash_length. simpl. by rewrite hash_of_list_bytes.
  - intros s x rest ([buf r] & [Hl ->]%read_exact_Ok & (h & Hh & [= -> ->])%obind_Ok)%obind_Ok.
    apply expect_Ok, hash_of_list_Some in Hh as <-. split; [done|]. by eexists.
Qed.

#[export] Hint Resolve lawful_u8 lawful_u16 lawful_u32 lawful_u64 : codec.
#[export] Hint Extern 1 (lawful _ (@deserialize_canonical _ _) _) => eapply codec_lawful : codec.

Lemma lawful_enc {A} w r (wf : A → Prop) x bs rest :
  lawful w r wf → wf x → w x = Ok bs → r (bs ++ rest) = Ok (x, rest).
Proof. intros [H _]. apply H. Qed.
Lemma lawful_dec {A} w r (wf : A → Prop) s x rest :
  lawful w r wf → r s = Ok (x, rest) → wf x ∧ ∃ bs, w x = Ok bs ∧ s = bs ++ rest.
Proof. intros [_ H]. apply H. Qed.

(** Runs the reader of a structure over the output of its writer, field by
    field. *)
Ltac run_reader :=
  rewrite <- ?app_assoc;
  repeat (erewrite lawful_enc; [ | | | eassumption ];
          [ | solve [eauto with codec] | cbv beta; tauto ]; cbn [obind]).

(** Recovers, from a successful read, the output of the writer of each field. *)
Ltac run_writer :=
  repeat match goal with
    | H : obind _ _ = Ok _ |- _ => apply obind_Ok in H as ([? ?] & ? & ?)
    end;
  repeat match goal with
    | H : Ok _ = Ok _ |- _ => injection H as H; subst
    | H : _ = Ok _ |- _ =>
        eapply lawful_dec in H as (? & ? & ? & ->); [|solve [eauto with codec]]
    end.

Lemma lawful_bytes : lawful ser_bytes deser_bytes (λ _, True).
Proof.
  unfold ser_bytes, deser_bytes, MAX_VECTOR_LENGTH. split.
  - intros v bs rest _ H. destruct (N.ltb_spec 16777216 (N.of_nat (length v))); [done|].
    dinv. rewrite <- app_assoc.
    erewrite lawful_enc; [cbn [obind]|by eauto with codec| |done]; [|by apply N.mod_lt].
    rewrite wrap32_small by lia. destruct (N.ltb_spec 16777216 (N.of_nat (length v))); [lia|].
    apply read_exact_app. lia.
  - intros s v rest ([len r] & Hlen & H)%obind_Ok.
    eapply lawful_dec in Hlen as (Hwf & a & Ha & ->); [|by eauto with codec].
    destruct (N.ltb_spec 16777216 len); [done|]. apply read_exact_Ok in H as [Hl ->].
    split; [done|]. rewrite Hl, N2Nat.id, wrap32_small by done.
    destruct (N.ltb_spec 16777216 len); [lia|].
    rewrite Ha. eexists; split; [done|]. by rewrite <- app_assoc.
Qed.
#[export] Instance bytes_laws : CodecLaws (list byte) (λ _, True) := lawful_bytes.

(** Both directions for a structure whose reader mirrors its writer. *)
Ltac solve_lawful :=
  split;
  [ intros x bs rest ? ?; dinv; run_reader; by destruct x
  | intros s x rest ?; run_writer; split; [cbn -[N.of_nat length] in *; tauto|];
    cbn -[app]; repeat match goal with H : _ = Ok _ |- _ => rewrite H; clear H; cbn [obind] end;
    eexists; split; [done|by rewrite <- !app_assoc] ].

Lemma lawful_outpoint : lawful ser_outpoint deser_outpoint outpoint_wf.
Proof. unfold ser_outpoint, deser_outpoint, outpoint_wf. solve_lawful. Qed.
#[export] Instance outpoint_laws : CodecLaws OutPoint outpoint_wf := lawful_outpoint.

Lemma lawful_txin : lawful ser_txin deser_txin txin_wf.
Proof. unfold ser_txin, deser_txin, txin_wf. solve_lawful. Qed.
#[export] Instance txin_laws : CodecLaws TxIn txin_wf := lawful_txin.

Lemma lawful_txout : lawful ser_txout deser_txout txout_wf.
Proof. unfold ser_txout, deser_txout, txout_wf. solve_lawful. Qed.
#[export] Instance txout_laws : CodecLaws TxOut txout_wf := lawful_txout.

Lemma lawful_blockheader : lawful ser_blockheader deser_blockheader blockheader_wf.
Proof. unfold ser_blockheader, deser_blockheader, blockheader_wf. solve_lawful. Qed.
#[export] Instance blockheader_laws : CodecLaws BlockHeader blockheader_wf := lawful_blockheader.

Lemma lawful_utxoentry : lawful ser_utxoentry deser_utxoentry utxoentry_wf.
Proof. unfold ser_utxoentry, deser_utxoentry, utxoentry_wf. solve_lawful. Qed.
#[export] Instance utxoentry_laws : CodecLaws UtxoEntry utxoentry_wf := lawful_utxoentry.

Section counted.
Context {A : Type} `{HL : CodecLaws A wf}.

Lemma deserialize_each_enc (l : list A) bs rest :
  Forall wf l → serialize_each l = Ok bs →
  deserialize_each (length l) (bs ++ rest) = Ok (l, rest).
Proof.
  revert bs; induction l as [|x l IH]; intros bs Hwf Hs; simpl in *.
  - by injection Hs as <-.
  - apply Forall_cons_1 in Hwf as [Hx Hl]. dinv. rewrite <- app_assoc.
    erewrite (lawful_enc _ _ _ _ _ _ codec_lawful) by done. simpl. by erewrite IH.
Qed.

Lemma deserialize_each_dec n s (l : list A) rest :
  deserialize_each n s = Ok (l, rest) →
  length l = n ∧ Forall wf l ∧ ∃ bs, serialize_each l = Ok bs ∧ s = bs ++ rest.
Proof.
  revert s l; induction n as [|n IH]; intros s l; simpl.
  - intros [= <- <-]. repeat split; [constructor|by exists []].
  - intros ([x r] & Hx & ([xs r'] & Hxs & [= <- <-])%obind_Ok)%obind_Ok.
    eapply (lawful_dec _ _ _ _ _ _ codec_lawful) in Hx as (Hwf & a & Ha & ->).
    apply IH in Hxs as (Hlen & Hl & b & Hb & ->). cbn [length serialize_each].
    rewrite Ha, Hb, Hlen. repeat split; [by constructor|].
    eexists; split; [done|]. by rewrite <- app_assoc.
Qed.

Lemma lawful_counted :
  lawful (serialize_counted (A := A)) deserialize_counted
    (λ l, Forall wf l ∧ N.of_nat (length l) ≤ MAX_VECTOR_LENGTH).
Proof.
  unfold serialize_counted, deserialize_counted, MAX_VECTOR_LENGTH. split.
  - intros l bs rest [Hwf Hlen] Hs. dinv. rewrite <- app_assoc.
    erewrite lawful_enc; [cbn [obind]|by eauto with codec| |done]; [|by apply N.mod_lt].
    rewrite wrap32_small by lia. destruct (N.ltb_spec 16777216 (N.of_nat (length l))); [lia|].
    rewrite Nat2N.id. by apply deserialize_each_enc.
  - intros s l rest ([n r] & Hn & Hr)%obind_Ok.
    eapply lawful_dec in Hn as (Hb & a & Ha & ->); [|by eauto with codec].
    destruct (N.ltb_spec 16777216 n); [done|].
    apply deserialize_each_dec in Hr as (Hlen & Hwf & b & Hs & ->).
    split; [split; [done|lia]|]. rewrite Hlen, N2Nat.id, wrap32_small, Ha, Hs by done.
    eexists; split; [done|]. by rewrite <- app_assoc.
Qed.
End counted.
#[export] Hint Extern 1 (lawful _ deserialize_counted _) => eapply lawful_counted : codec.
#[export] Hint Extern 1 (lawful serialize_counted _ _) => eapply lawful_counted : codec.

(** Lengths the readers accept. *)
Definition transaction_limits (t : Transaction) : Prop :=
  N.of_nat (length (inputs t)) ≤ MAX_VECTOR_LENGTH ∧
  N.of_nat (length (outputs t)) ≤ MAX_VECTOR_LENGTH.
Definition transaction_codec_wf (t : Transaction) : Prop :=
  transaction_wf t ∧ transaction_limits t.
Definition block_codec_wf (b : Block) : Prop :=
  blockheader_wf (header b) ∧ Forall transaction_codec_wf (transactions b) ∧
  N.of_nat (length (transactions b)) ≤ MAX_VECTOR_LENGTH.

Lemma lawful_transaction : lawful ser_transaction deser_transaction transaction_codec_wf.
Proof.
  unfold ser_transaction, deser_transaction, transaction_codec_wf, transaction_wf, transaction_limits.
  solve_lawful.
Qed.
#[export] Instance transaction_laws : CodecLaws Transaction transaction_codec_wf := lawful_transaction.

Lemma lawful_block : lawful ser_block deser_block block_codec_wf.
Proof. unfold ser_block, deser_block, block_codec_wf. solve_lawful. Qed.
#[export] Instance block_laws : CodecLaws Block block_codec_wf := lawful_block.

(** ** Readers return on every input *)

Definition safe_reader {A} (r : list byte → outcome SerializationError (A * list byte)) : Prop :=
  ∀ s, returns (r s).

Lemma safe_read_exact n : safe_reader (read_exact n).
Proof. intros s. unfold read_exact. by destruct (n <=? length s)%nat. Qed.

(** Peels binds off a reader; leaves are discharged by the [codec] hints. *)
Ltac solve_safe :=
  repeat first
    [ progress intros
    | match goal with
      | |- returns (let (_, _) := ?p in _) => destruct p
      | |- returns (if ?b then _ else _) => destruct b
      | |- returns (obind _ _) => apply returns_obind
      end
    | solve [eauto with scy codec] ].

#[export] Hint Extern 1 (returns (read_exact _ _)) => apply safe_read_exact : codec.

Lemma safe_u32 : safe_reader read_u32.
Proof. unfold safe_reader, read_u32. solve_safe. Qed.
Lemma safe_u64 : safe_reader read_u64.
Proof. unfold safe_reader, read_u64. solve_safe. Qed.
#[export] Hint Extern 1 (returns (read_u32 _)) => apply safe_u32 : codec.
#[export] Hint Extern 1 (returns (read_u64 _)) => apply safe_u64 : codec.

Lemma safe_hash : safe_reader deser_hash.
Proof.
  intros s. unfold deser_hash. apply returns_obind; [auto with codec|].
  intros [buf r] [Hl _]%read_exact_Ok. destruct (hash_of_list_is_Some buf Hl) as [h ->]. done.
Qed.
#[export] Hint Extern 1 (returns (@deserialize_canonical Hash _ _)) => apply safe_hash : codec.

Lemma safe_bool : safe_reader deser_bool.
Proof.
  intros s. unfold deser_bool. apply returns_obind; [auto with codec|].
  intros [buf r] [Hl _]%read_exact_Ok. destruct buf as [|b [|]]; [done| |done].
  by destruct b.
Qed.
#[export] Hint Extern 1 (returns (@deserialize_canonical bool _ _)) => apply safe_bool : codec.

Lemma safe_bytes : safe_reader deser_bytes.
Proof. unfold safe_reader, deser_bytes. solve_safe. Qed.
#[export] Hint Extern 1 (returns (@deserialize_canonical (list byte) _ _)) => apply safe_bytes : codec.

Lemma safe_outpoint : safe_reader deser_outpoint.
Proof. unfold safe_reader, deser_outpoint. solve_safe. Qed.
#[export] Hint Extern 1 (returns (@deserialize_canonical OutPoint _ _)) => apply safe_outpoint : codec.

Lemma safe_txin : safe_reader deser_txin.
Proof. unfold safe_reader, deser_txin. solve_safe. Qed.
#[export] Hint Extern 1 (returns (@deserialize_canonical TxIn _ _)) => apply safe_txin : codec.

Lemma safe_txout : safe_reader deser_txout.
Proof. unfold safe_reader, deser_txout. solve_safe. Qed.
#[export] Hint Extern 1 (returns (@deserialize_canonical TxOut _ _)) => apply safe_txout : codec.

Lemma safe_each {A} `{CanonicalDeserialize A} n :
  safe_reader (@deserialize_canonical A _) → safe_reader (deserialize_each (A := A) n).
Proof.
  intros HA. unfold safe_reader in *. induction n; simpl; solve_safe.
Qed.

Lemma safe_counted {A} `{CanonicalDeserialize A} :
  safe_reader (@deserialize_canonical A _) → safe_reader (deserialize_counted (A := A)).
Proof.
  intros HA s. unfold deserialize_counted. solve_safe. by apply safe_each.
Qed.
#[export] Hint Extern 1 (returns (deserialize_counted _)) => apply safe_counted; intros ? : codec.

Lemma safe_transaction : safe_reader deser_transaction.
Proof. unfold safe_reader, deser_transaction. solve_safe. Qed.
#[export] Hint Extern 1 (returns (@deserialize_canonical Transaction _ _)) => apply safe_transaction : codec.

Lemma safe_blockheader : safe_reader deser_blockheader.
Proof. unfold safe_reader, deser_blockheader. solve_safe. Qed.
#[export] Hint Extern 1 (returns (@deserialize_canonical BlockHeader _ _)) => apply safe_blockheader : codec.

(** ** Headers *)

(** The 120 bytes of a header. *)
Definition header_bytes (h : BlockHeader) : list byte :=
  le_bytes 4 (version h) ++ hash_bytes (previous_block_hash h) ++
  hash_bytes (transaction_commitment h) ++ hash_bytes (utxo_root h) ++
  le_bytes 8 (timestamp h) ++ le_bytes 4 (difficulty_target h) ++ le_bytes 8 (nonce h).

Lemma header_to_canonical_bytes h : to_canonical_bytes h = Ok (header_bytes h).
Proof. reflexivity. Qed.

Lemma length_header_bytes h : length (header_bytes h) = 120%nat.
Proof. unfold header_bytes. by rewrite !length_app, !hash_length, !length_le_bytes. Qed.

Lemma header_bytes_inj h1 h2 :
  blockheader_wf h1 → blockheader_wf h2 → header_bytes h1 = header_bytes h2 → h1 = h2.
Proof.
  intros W1 W2 E.
  pose proof (lawful_enc _ _ _ h1 _ [] codec_lawful W1 eq_refl) as E1.
  pose proof (lawful_enc _ _ _ h2 _ [] codec_lawful W2 eq_refl) as E2.
  unfold header_bytes in E. rewrite E in E1. congruence.
Qed.

(** ** Encodability *)

Definition vec_fits (l : list byte) : Prop := N.of_nat (length l) ≤ MAX_VECTOR_LENGTH.
Definition transaction_encodable (t : Transaction) : Prop :=
  Forall (λ i, vec_fits (authorization i)) (inputs t) ∧
  Forall (λ o, vec_fits (locking_condition o)) (outputs t).

Lemma ser_bytes_Ok l : (∃ bs, ser_bytes l = Ok bs) ↔ vec_fits l.
Proof.
  unfold ser_bytes, vec_fits. destruct (N.ltb_spec MAX_VECTOR_LENGTH (N.of_nat (length l))).
  - split; [intros [? [=]]|lia].
  - split; [done|]. intros _. by eexists.
Qed.

Lemma serialize_each_Ok {A} `{CanonicalSerialize A} (P : A → Prop) l :
  (∀ x, (∃ bs, serialize_canonical x = Ok bs) ↔ P x) →
  (∃ bs, serialize_each l = Ok bs) ↔ Forall P l.
Proof.
  intros HP. induction l as [|x l IH]; simpl.
  - split; [constructor|by eexists].
  - rewrite Forall_cons, <- IH, <- HP. split.
    + intros [bs (a & Ha & (b & Hb & _)%obind_Ok)%obind_Ok]. eauto.
    + intros [[a ->] [b Hb]]. simpl. rewrite Hb. by eexists.
Qed.

Lemma ser_txin_Ok i :
  (∃ bs, serialize_canonical i = Ok bs) ↔ vec_fits (authorization i).
Proof.
  rewrite <- ser_bytes_Ok. split.
  - intros [bs H]. unfold serialize_canonical, ser_txin in H. dinv. eauto.
  - intros [b Hb]. eexists. unfold serialize_canonical, ser_txin. simpl.
    unfold serialize_canonical. by rewrite Hb.
Qed.

Lemma ser_txout_Ok o :
  (∃ bs, serialize_canonical o = Ok bs) ↔ vec_fits (locking_condition o).
Proof.
  rewrite <- ser_bytes_Ok. split.
  - intros [bs H]. unfold serialize_canonical, ser_txout in H. dinv. eauto.
  - intros [b Hb]. eexists. unfold serialize_canonical, ser_txout. simpl.
    unfold serialize_canonical. by rewrite Hb.
Qed.

Lemma transaction_encodable_spec t :
  (∃ bs, to_canonical_bytes t = Ok bs) ↔ transaction_encodable t.
Proof.
  unfold transaction_encodable.
  rewrite <- (serialize_each_Ok _ (inputs t) ser_txin_Ok).
  rewrite <- (serialize_each_Ok _ (outputs t) ser_txout_Ok).
  unfold to_canonical_bytes, serialize_canonical at 1, ser_transaction, serialize_counted. split.
  - intros [bs H]. dinv. eauto.
  - intros [[a Ha] [b Hb]]. rewrite Ha, Hb. by eexists.
Qed.

(** ** Properties *)

Section laws.
Context {A : Type} `{HL : CodecLaws A wf}.

Lemma from_to_canonical x bs :
  wf x → to_canonical_bytes x = Ok bs → from_canonical_bytes bs = Ok x.
Proof.
  unfold to_canonical_bytes, from_canonical_bytes. intros Hx Hs. dinv.
  rewrite <- (app_nil_r bs).
  by erewrite (lawful_enc _ _ _ _ _ [] codec_lawful) by done.
Qed.

Lemma to_from_canonical bs x :
  from_canonical_bytes bs = Ok x → wf x ∧ to_canonical_bytes x = Ok bs.
Proof.
  unfold to_canonical_bytes, from_canonical_bytes.
  intros ([obj rest] & Hd & Hr)%obind_Ok.
  eapply (lawful_dec _ _ _ _ _ _ codec_lawful) in Hd as (Hwf & b & Hb & ->).
  destruct rest; [|done]. injection Hr as <-. rewrite Hb, app_nil_r. done.
Qed.

Lemma to_canonical_inj x y bs :
  wf x → wf y → to_canonical_bytes x = Ok bs → to_canonical_bytes y = Ok bs → x = y.
Proof. intros Hx Hy Ex%from_to_canonical Ey%from_to_canonical; [congruence|done..]. Qed.
End laws.

Lemma block_encodable_spec b :
  (∃ bs, to_canonical_bytes b = Ok bs) ↔ Forall transaction_encodable (transactions b).
Proof.
  rewrite <- (serialize_each_Ok _ (transactions b)).
  2:{ intros t. rewrite <- transaction_encodable_spec. unfold to_canonical_bytes.
      split; intros [a Ha]; [rewrite Ha|dinv]; eauto. }
  unfold to_canonical_bytes, serialize_canonical at 1, ser_block, serialize_counted. split.
  - intros [bs H]. dinv. eauto.
  - intros [a Ha]. eexists. rewrite Ha. done.
Qed.

(** C23: A block encodes exactly when every byte vector in it respects the length
    limit, and decoding inverts encoding when its integers fit their types and
    its vectors of transactions, inputs and outputs respect the limit. *)
Theorem block_codec_roundtrip (b : Block) (Hwf : block_codec_wf b) :
  ((∃ bs, to_canonical_bytes b = Ok bs) ↔ Forall transaction_encodable (transactions b)) ∧
  ∀ bs, to_canonical_bytes b = Ok bs → from_canonical_bytes bs = Ok b.
Proof.
  split; [apply block_encodable_spec|]. intros bs Hbs. by apply from_to_canonical.
Qed.

(** Decoding a block returns on every byte string, and a byte string that
    decodes is the canonical encoding of the block: no other byte string decodes
    to it, and nothing may trail it. *)
Theorem block_codec_canonical (bs : list byte) :
  returns (from_canonical_bytes (A := Block) bs) ∧
  ∀ b, from_canonical_bytes bs = Ok b → block_codec_wf b ∧ to_canonical_bytes b = Ok bs.
Proof.
  split; [|intros b; apply to_from_canonical].
  unfold from_canonical_bytes, deserialize_canonical at 1, deser_block. solve_safe.
Qed.

(** A fixed-size reader: it consumes exactly [n] bytes when they are there. *)
Definition reads {A} (n : nat) (r : list byte → outcome SerializationError (A * list byte)) : Prop :=
  ∀ s, (n ≤ length s)%nat → ∃ x s', r s = Ok (x, s') ∧ length s' = (length s - n)%nat.

Lemma reads_exact n s :
  (n ≤ length s)%nat →
  ∃ a s', read_exact n s = Ok (a, s') ∧ length a = n ∧ length s' = (length s - n)%nat.
Proof.
  intros Hn. unfold read_exact. destruct (Nat.leb_spec n (length s)); [|lia].
  eexists _, _; split; [done|]. rewrite length_take, length_drop. lia.
Qed.

Lemma reads_int n : reads n (λ r, let? (buf, r) := read_exact n r in Ok (le_val buf, r)).
Proof. intros s Hs. destruct (reads_exact n s Hs) as (a & r & -> & _ & Hr). simpl. eauto. Qed.

Lemma reads_hash : reads 32 deser_hash.
Proof.
  intros s Hs. unfold deser_hash. destruct (reads_exact 32 s Hs) as (a & r & -> & Ha & Hr).
  simpl. destruct (hash_of_list_is_Some a Ha) as [h ->]. simpl. eauto.
Qed.

Lemma reads_header : reads 120 deser_blockheader.
Proof.
  intros s Hs. unfold deser_blockheader, deserialize_canonical.
  destruct (reads_int 4 s) as (a & s1 & E1 & L1); [lia|].
  destruct (reads_hash s1) as (b & s2 & E2 & L2); [lia|].
  destruct (reads_hash s2) as (c & s3 & E3 & L3); [lia|].
  destruct (reads_hash s3) as (d & s4 & E4 & L4); [lia|].
  destruct (reads_int 8 s4) as (e & s5 & E5 & L5); [lia|].
  destruct (reads_int 4 s5) as (f & s6 & E6 & L6); [lia|].
  destruct (reads_int 8 s6) as (g & s7 & E7 & L7); [lia|].
  unfold read_u32, read_u64.
  rewrite E1; cbn [obind]; rewrite E2; cbn [obind]; rewrite E3; cbn [obind]; rewrite E4;
    cbn [obind]; rewrite E5; cbn [obind]; rewrite E6; cbn [obind]; rewrite E7; cbn [obind].
  eexists _, _; split; [done|lia].
Qed.

(** A header always encodes, to exactly 120 bytes, and a byte string decodes to
    a header exactly when it has 120 bytes. *)
Theorem header_codec_size (bs : list byte) :
  (∀ h, to_canonical_bytes h = Ok (header_bytes h) ∧ length (header_bytes h) = 120%nat) ∧
  ((∃ h, from_canonical_bytes (A := BlockHeader) bs = Ok h) ↔ length bs = 120%nat).
Proof.
  split; [intros h; split; [done|apply length_header_bytes]|]. split.
  - intros [h [_ E]%to_from_canonical]. injection E as <-. apply length_header_bytes.
  - intros Hl. destruct (reads_header bs) as (h & s' & E & L); [lia|]. exists h.
    unfold from_canonical_bytes, deserialize_canonical. rewrite E. simpl.
    destruct s'; [done|simpl in L; lia].
Qed.

Definition sample_tx : Transaction :=
  mkTransaction 1 [mkTxIn (mkOutPoint ZERO 7) [x01; x02] U32_MAX]
    [mkTxOut 500 [x51]; mkTxOut U64_MAX []] 9.
Definition sample_block : Block :=
  mkBlock (mkBlockHeader 1 ZERO ZERO ZERO 1700000000 0x1d00ffff 42) [sample_tx; sample_tx].

Lemma block_codec_roundtrip_witness :
  block_codec_wf sample_block ∧
  ∃ bs, to_canonical_bytes sample_block = Ok bs ∧ from_canonical_bytes bs = Ok sample_block.
Proof.
  assert (W : block_codec_wf sample_block).
  { unfold block_codec_wf, transaction_codec_wf, transaction_wf, transaction_limits, txin_wf,
      outpoint_wf, txout_wf, blockheader_wf, MAX_VECTOR_LENGTH, sample_block, sample_tx.
    repeat first [split | constructor | progress simpl]; lia. }
  split; [exact W|]. eexists. split; [reflexivity|].
  apply (block_codec_roundtrip sample_block W). reflexivity.
Defined.
