(* ===== verification/Transaction.v ===== *)
(** * Transactions

    [crates/scytale-core/src/transaction.rs] and the stateless validation of
    [block.rs]: identifiers and signing digests, fee arithmetic, structural
    checks. [bincode] is a parameter ([Bincode]). *)

From S2P Require Import Prelude Bytes Primitives Types Codec.
Local Open Scope N_scope.
Local Open Scope scy_scope.

Definition TRANSACTION_VERSION_1 : N := 1.
Definition DUST_THRESHOLD : N := 500.

(** ** Inputs *)

Definition TxIn_new (previous_output : OutPoint) (authorization : list byte) : TxIn :=
  mkTxIn previous_output authorization U32_MAX.
Definition TxIn_coinbase : TxIn := mkTxIn OutPoint_null [] U32_MAX.
Definition with_sequence (i : TxIn) (sequence : N) : TxIn :=
  mkTxIn (previous_output i) (authorization i) sequence.

(** ** Construction *)

Definition Transaction_new_simple (version : N) (inputs : list TxIn) (outputs : list TxOut) :
    Transaction := mkTransaction version inputs outputs 0.

Definition is_coinbase (tx : Transaction) : bool :=
  match inputs tx with
  | [i] => is_null (previous_output i)
  | _ => false
  end.

Definition new_coinbase (height : N) (outputs : list TxOut) : Transaction :=
  mkTransaction TRANSACTION_VERSION_1 [TxIn_new OutPoint_null (le_bytes 8 height)] outputs 0.

(** The first byte of the script is [OP_RETURN]. *)
Definition is_op_return (script : list byte) : bool := bool_decide (head script = Some x6a).

(** ** Identifiers and digests *)

Section digests.
Context {B3 : Blake3}.

(** [Transaction::txid]; the [expect] panics when the encoding fails. *)
Definition txid {E} (tx : Transaction) : outcome E Hash :=
  match to_canonical_bytes tx with
  | Ok bytes => Ok (blake3 bytes)
  | _ => Panic
  end.

Definition outpoint_bytes (o : OutPoint) : list byte :=
  hash_bytes (op_txid o) ++ le_bytes 4 (op_index o).
Definition txout_bytes (o : TxOut) : list byte :=
  le_bytes 8 (value o) ++ locking_condition o.

(** [Transaction::compute_hash]; [le_bytes 4] truncates as [as u32] does. *)
Definition compute_hash_preimage (tx : Transaction) : list byte :=
  String.list_byte_of_string "SCYTALE_TX_BODY_V1" ++
  le_bytes 4 (tx_version tx) ++ le_bytes 8 (lock_time tx) ++
  le_bytes 4 (N.of_nat (length (inputs tx))) ++
  (inputs tx ≫= λ i, outpoint_bytes (previous_output i)) ++
  le_bytes 4 (N.of_nat (length (outputs tx))) ++
  (outputs tx ≫= txout_bytes).
Definition compute_hash (tx : Transaction) : Hash := blake3 (compute_hash_preimage tx).

(** [Transaction::compute_sighash]. *)
Definition sighash_preimage (tx : Transaction) (input_index : N) (prev_locking_script : list byte) :
    list byte :=
  String.list_byte_of_string "SCYTALE_SIGHASH_V1" ++
  (inputs tx ≫= λ i, outpoint_bytes (previous_output i)) ++
  (outputs tx ≫= txout_bytes) ++
  le_bytes 4 input_index ++ prev_locking_script.
Definition compute_sighash (tx : Transaction) (input_index : N) (prev_locking_script : list byte) :
    Hash := blake3 (sighash_preimage tx input_index prev_locking_script).

(** [Transaction::serialized_size]. *)
Definition serialized_size (tx : Transaction) : N :=
  match to_canonical_bytes tx with
  | Ok b => N.of_nat (length b)
  | _ => 0
  end.

(** [Transaction::signature_preimage_digest]. *)
Definition signature_preimage (tx : Transaction) (input_index : N) :
    outcome AuthorizationError (list byte) :=
  if N.of_nat (length (inputs tx)) <=? input_index
  then Err (InvalidInputIndex input_index (N.of_nat (length (inputs tx))))
  else
    let? outs := map_err PreimageSerializationFailure (serialize_each (outputs tx)) in
    Ok (le_bytes 4 (tx_version tx) ++
        le_bytes 4 (N.of_nat (length (inputs tx))) ++
        (inputs tx ≫= λ i, to_fixed_bytes (previous_output i)) ++
        le_bytes 4 input_index ++
        le_bytes 4 (N.of_nat (length (outputs tx))) ++ outs ++
        le_bytes 8 (lock_time tx)).
Definition signature_preimage_digest (tx : Transaction) (input_index : N) :
    outcome AuthorizationError Hash :=
  let? bytes := signature_preimage tx input_index in Ok (blake3 bytes).
End digests.

(** ** Values *)

Definition total_output_quanta (tx : Transaction) : outcome TransactionError N :=
  ofold (λ total output, ok_or (checked_add total (value output)) OutputValueOverflow)
    (outputs tx) 0.

Definition calculate_fee (total_input_quanta total_output_quanta : N) :
    outcome TransactionError N :=
  if total_input_quanta <? total_output_quanta
  then Err (InputValueDeficit total_input_quanta total_output_quanta)
  else ok_or (checked_sub total_input_quanta total_output_quanta) TxArithmeticOverflow.

(** ** Stateless validation *)

Fixpoint check_dust (outs : list TxOut) : outcome TransactionError unit :=
  match outs with
  | [] => Ok tt
  | o :: outs =>
      if negb (is_op_return (locking_condition o)) && (value o <? DUST_THRESHOLD)
      then Err ZeroOutputValue
      else check_dust outs
  end.

Fixpoint check_duplicates (seen : gset OutPoint) (ins : list TxIn) :
    outcome TransactionError unit :=
  match ins with
  | [] => Ok tt
  | i :: ins =>
      if bool_decide (previous_output i ∈ seen)
      then Err (DuplicateInput (previous_output i))
      else check_duplicates ({[previous_output i]} ∪ seen) ins
  end.

Definition validate_stateless (tx : Transaction) : outcome TransactionError unit :=
  if negb (tx_version tx =? TRANSACTION_VERSION_1) then Err (InvalidVersion (tx_version tx))
  else if bool_decide (inputs tx = []) then Err EmptyInputs
  else if bool_decide (outputs tx = []) then Err EmptyOutputs
  else
    let? _ := check_dust (outputs tx) in
    let? _ := total_output_quanta tx in
    check_duplicates ∅ (inputs tx).

(** [Block::validate_structure]. *)
Fixpoint validate_non_coinbase (idx : N) (txs : list Transaction) : outcome BlockError unit :=
  match txs with
  | [] => Ok tt
  | tx :: txs =>
      if is_coinbase tx then Err (DuplicateCoinbase idx)
      else
        let? _ := map_err BlockTransactionError (validate_stateless tx) in
        validate_non_coinbase (idx + 1) txs
  end.

Definition validate_structure (b : Block) : outcome BlockError unit :=
  match transactions b with
  | [] => Err EmptyTransactionVector
  | coinbase :: txs =>
      if negb (is_coinbase coinbase) then Err MissingCoinbase
      else validate_non_coinbase 1 txs
  end.

(** ** Extended UTXO locks and witnesses *)

Inductive OutputLock :=
| PublicKey (pk : Hash)
| Script (script_hash : Hash) (datum : list byte).
#[global] Instance outputlock_eq_dec : EqDecision OutputLock.
Proof. solve_decision. Defined.

Record EutxoWitness := mkEutxoWitness {
  w_signature : option (list byte);
  w_redeemer : option (list byte);
  w_script_source : option (list byte)
}.

(** [bincode::serialize] and [bincode::deserialize] at the types the crate uses
    them at. *)
Class Bincode := {
  bincode_ser_lock : OutputLock → option (list byte);
  bincode_de_lock : list byte → option OutputLock;
  bincode_ser_witness : EutxoWitness → option (list byte);
  bincode_de_witness : list byte → option EutxoWitness
}.

Definition LOCK_MAGIC_PREFIX : list byte := [x53; x43; x59; x01].
Definition WITNESS_MAGIC_PREFIX : list byte := [x53; x43; x59; x02].

Record TxOutput := mkTxOutput { txo_value : N; txo_lock : OutputLock }.
Record TxInput := mkTxInput {
  prev_tx_hash : Hash;
  output_index : N;
  signature : option (list byte);
  redeemer : option (list byte);
  script_source : option (list byte)
}.

Section eutxo.
Context `{Bincode}.

Definition to_locking_condition (l : OutputLock) : list byte :=
  LOCK_MAGIC_PREFIX ++ default [] (bincode_ser_lock l).

Definition from_locking_condition (bytes : list byte) : option OutputLock :=
  if (4 <=? length bytes)%nat && bool_decide (take 4 bytes = LOCK_MAGIC_PREFIX)
  then bincode_de_lock (drop 4 bytes)
  else bincode_de_lock bytes.

Definition to_tx_out (o : TxOutput) : TxOut :=
  mkTxOut (txo_value o) (to_locking_condition (txo_lock o)).
Definition from_tx_out (o : TxOut) : option TxOutput :=
  lock ← from_locking_condition (locking_condition o);
  Some (mkTxOutput (value o) lock).

Definition to_authorization (i : TxInput) : list byte :=
  WITNESS_MAGIC_PREFIX ++
  default [] (bincode_ser_witness (mkEutxoWitness (signature i) (redeemer i) (script_source i))).

Definition from_tx_in (i : TxIn) : option TxInput :=
  let bytes := authorization i in
  w ← (if (4 <=? length bytes)%nat && bool_decide (take 4 bytes = WITNESS_MAGIC_PREFIX)
       then bincode_de_witness (drop 4 bytes)
       else bincode_de_witness bytes);
  Some (mkTxInput (op_txid (previous_output i)) (op_index (previous_output i))
          (w_signature w) (w_redeemer w) (w_script_source w)).

Definition to_tx_in (i : TxInput) : TxIn :=
  TxIn_new (mkOutPoint (prev_tx_hash i) (output_index i)) (to_authorization i).

Definition from_eutxo (version : N) (inputs : list TxInput) (outputs : list TxOutput)
    (lock_time : N) : Transaction :=
  mkTransaction version (to_tx_in <$> inputs) (to_tx_out <$> outputs) lock_time.
End eutxo.

(** ** Lemmas *)

(** Total value of a list of outputs, unbounded. *)
Definition outputs_value (outs : list TxOut) : N := foldr (λ o s, value o + s) 0 outs.

Lemma outputs_value_app outs1 outs2 :
  outputs_value (outs1 ++ outs2) = outputs_value outs1 + outputs_value outs2.
Proof.
  induction outs1 as [|o outs1 IH]; [done|]. unfold outputs_value in *. cbn [app foldr]. rewrite IH. lia.
Qed.

Lemma ofold_checked_add {A E} (f : A → N) (e : E) (l : list A) (t : N) :
  t ≤ U64_MAX →
  ofold (λ total x, ok_or (checked_add total (f x)) e) l t =
  if t + foldr (λ x s, f x + s) 0 l <=? U64_MAX then Ok (t + foldr (λ x s, f x + s) 0 l) else Err e.
Proof.
  revert t; induction l as [|x l IH]; intros t Ht; cbn [ofold foldr].
  - rewrite N.add_0_r. destruct (N.leb_spec t U64_MAX); [done|lia].
  - unfold checked_add. destruct (N.leb_spec (t + f x) U64_MAX); cbn [ok_or obind].
    + rewrite IH by done. by rewrite N.add_assoc.
    + destruct (N.leb_spec (t + (f x + foldr (λ x s, f x + s) 0 l)) U64_MAX); [lia|done].
Qed.

Lemma total_output_quanta_spec tx :
  total_output_quanta tx =
  if outputs_value (outputs tx) <=? U64_MAX then Ok (outputs_value (outputs tx))
  else Err OutputValueOverflow.
Proof. unfold total_output_quanta. by rewrite ofold_checked_add. Qed.

Lemma total_output_quanta_Ok tx t :
  total_output_quanta tx = Ok t ↔ t = outputs_value (outputs tx) ∧ t ≤ U64_MAX.
Proof.
  rewrite total_output_quanta_spec.
  destruct (N.leb_spec (outputs_value (outputs tx)) U64_MAX); naive_solver lia.
Qed.

Definition dust_ok (o : TxOut) : Prop :=
  is_op_return (locking_condition o) = true ∨ DUST_THRESHOLD ≤ value o.

Lemma check_dust_Ok outs : check_dust outs = Ok tt ↔ Forall dust_ok outs.
Proof.
  induction outs as [|o outs IH]; simpl; [by split|].
  rewrite Forall_cons, <- IH. unfold dust_ok.
  destruct (is_op_return (locking_condition o)); simpl; [naive_solver|].
  destruct (N.ltb_spec (value o) DUST_THRESHOLD); naive_solver lia.
Qed.

Lemma check_duplicates_Ok seen ins :
  check_duplicates seen ins = Ok tt ↔
  NoDup (previous_output <$> ins) ∧ ∀ o, o ∈ previous_output <$> ins → o ∉ seen.
Proof.
  revert seen; induction ins as [|i ins IH]; intros seen; simpl.
  - split; [|done]. intros _. split; [constructor|]. set_solver.
  - rewrite NoDup_cons. case_bool_decide.
    + split; [done|]. intros [_ Hs]. destruct (Hs (previous_output i)); set_solver.
    + rewrite IH. set_solver.
Qed.

(** The checks of [validate_stateless], as a proposition. *)
Definition stateless_valid (tx : Transaction) : Prop :=
  tx_version tx = TRANSACTION_VERSION_1 ∧ inputs tx ≠ [] ∧ outputs tx ≠ [] ∧
  Forall dust_ok (outputs tx) ∧ outputs_value (outputs tx) ≤ U64_MAX ∧
  NoDup (previous_output <$> inputs tx).

Lemma validate_stateless_Ok tx : validate_stateless tx = Ok tt ↔ stateless_valid tx.
Proof.
  unfold validate_stateless, stateless_valid. rewrite total_output_quanta_spec.
  destruct (N.eqb_spec (tx_version tx) TRANSACTION_VERSION_1); simpl; [|naive_solver].
  do 2 (case_bool_decide; [naive_solver|]).
  rewrite <- check_dust_Ok.
  destruct (check_dust (outputs tx)) as [[]|?| |]; cbn [obind]; [|naive_solver..].
  destruct (N.leb_spec (outputs_value (outputs tx)) U64_MAX); cbn [obind]; [|naive_solver lia].
  rewrite check_duplicates_Ok. set_solver.
Qed.

Lemma check_dust_returns outs : returns (check_dust outs).
Proof. induction outs as [|o outs IH]; simpl; [done|]. by destruct (_ && _). Qed.

Lemma check_duplicates_returns seen ins : returns (check_duplicates seen ins).
Proof. revert seen; induction ins; intros seen; simpl; [done|]. by case_bool_decide. Qed.

Lemma total_output_quanta_returns tx : returns (total_output_quanta tx).
Proof. rewrite total_output_quanta_spec. by destruct (_ <=? _). Qed.

Lemma validate_stateless_returns tx : returns (validate_stateless tx).
Proof.
  unfold validate_stateless. destruct (negb _); [done|]. do 2 (case_bool_decide; [done|]).
  repeat (apply returns_obind; [|intros _ _]); auto using check_dust_returns, total_output_quanta_returns, check_duplicates_returns.
Qed.

(** Framing of concatenated fixed-size items. *)
Lemma bind_fixed_inj {A} (f : A → list byte) (n : nat) (l1 l2 : list A) r1 r2 :
  (∀ x, length (f x) = n) → length l1 = length l2 →
  (l1 ≫= f) ++ r1 = (l2 ≫= f) ++ r2 → Forall2 (λ x y, f x = f y) l1 l2 ∧ r1 = r2.
Proof.
  intros Hn. revert l2; induction l1 as [|x l1 IH]; intros [|y l2] Hl H; simplify_eq/=.
  - by split.
  - rewrite <- !app_assoc in H. apply app_inj_1 in H as [Hf H]; [|by rewrite !Hn].
    apply IH in H as [? ?]; [|done]. by split; [constructor|].
Qed.

Lemma length_outpoint_bytes o : length (outpoint_bytes o) = 36%nat.
Proof. unfold outpoint_bytes. by rewrite length_app, hash_length, length_le_bytes. Qed.

Lemma le_bytes_inj n a b :
  a < 256 ^ N.of_nat n → b < 256 ^ N.of_nat n → le_bytes n a = le_bytes n b → a = b.
Proof.
  intros Ha Hb E%(f_equal le_val). by rewrite !le_val_le_bytes_small in E.
Qed.

Lemma outpoint_bytes_inj o1 o2 :
  outpoint_wf o1 → outpoint_wf o2 → outpoint_bytes o1 = outpoint_bytes o2 → o1 = o2.
Proof.
  unfold outpoint_wf, outpoint_bytes. intros H1 H2 E.
  apply app_inj_1 in E as [Eh Ei]; [|by rewrite !hash_length].
  apply le_bytes_inj in Ei; [|done..]. apply hash_eq in Eh.
  destruct o1, o2; simpl in *; congruence.
Qed.

Lemma outpoints_bytes_fmap (ins : list TxIn) :
  (ins ≫= λ i, outpoint_bytes (previous_output i)) =
  ((previous_output <$> ins) ≫= outpoint_bytes).
Proof. by rewrite list_fmap_bind. Qed.

Lemma txout_bytes_merge v1 l1 v2 l2 :
  txout_bytes (mkTxOut v1 (l1 ++ le_bytes 8 v2 ++ l2)) =
  txout_bytes (mkTxOut v1 l1) ++ txout_bytes (mkTxOut v2 l2).
Proof. unfold txout_bytes. cbn [value locking_condition]. by rewrite <- !app_assoc. Qed.

Lemma sighash_preimage_merge ins ins' pre v1 l1 v2 l2 post ver ver' lt lt' idx lock :
  previous_output <$> ins = previous_output <$> ins' →
  sighash_preimage
    (mkTransaction ver ins (pre ++ [mkTxOut v1 l1; mkTxOut v2 l2] ++ post) lt) idx lock =
  sighash_preimage
    (mkTransaction ver' ins' (pre ++ [mkTxOut v1 (l1 ++ le_bytes 8 v2 ++ l2)] ++ post) lt') idx lock.
Proof.
  intros E. unfold sighash_preimage. cbn [inputs outputs]. do 2 f_equal.
  - by rewrite !outpoints_bytes_fmap, E.
  - rewrite !bind_app, !bind_cons, txout_bytes_merge. by rewrite <- !app_assoc.
Qed.

(** Outputs of equal shape: same number, same script lengths. *)
Definition same_shape (o1 o2 : TxOut) : Prop :=
  length (locking_condition o1) = length (locking_condition o2).

Lemma outputs_bytes_inj outs1 outs2 r1 r2 :
  Forall txout_wf outs1 → Forall txout_wf outs2 → Forall2 same_shape outs1 outs2 →
  (outs1 ≫= txout_bytes) ++ r1 = (outs2 ≫= txout_bytes) ++ r2 → outs1 = outs2 ∧ r1 = r2.
Proof.
  intros W1 W2 HS. revert W1 W2.
  induction HS as [|o1 o2 outs1 outs2 Ho HS IH]; [done|].
  intros [W1 W1']%Forall_cons [W2 W2']%Forall_cons E. rewrite !bind_cons in E.
  rewrite <- !app_assoc in E. apply app_inj_1 in E as [Eo E].
  2:{ unfold txout_bytes. rewrite !length_app, !length_le_bytes, Ho. done. }
  apply IH in E as [-> ->]; [|done..]. split; [|done]. f_equal.
  unfold txout_bytes in Eo. apply app_inj_1 in Eo as [Ev El]; [|by rewrite !length_le_bytes].
  apply le_bytes_inj in Ev; [|done..]. destruct o1, o2; simpl in *; congruence.
Qed.

Lemma prefix_items_inj (ins1 ins2 : list TxIn) r1 r2 :
  Forall txin_wf ins1 → Forall txin_wf ins2 → length ins1 = length ins2 →
  (ins1 ≫= λ i, outpoint_bytes (previous_output i)) ++ r1 =
  (ins2 ≫= λ i, outpoint_bytes (previous_output i)) ++ r2 →
  previous_output <$> ins1 = previous_output <$> ins2 ∧ r1 = r2.
Proof.
  intros W1 W2 Hl E. apply (bind_fixed_inj _ 36) in E as [HF ->];
    [|intros; apply length_outpoint_bytes|done]. split; [|done].
  clear r2 Hl. revert W1 W2. induction HF as [|x y l1 l2 Hxy HF IH]; [done|].
  intros [[W1 _] W1']%Forall_cons [[W2 _] W2']%Forall_cons. simpl.
  f_equal; [by apply outpoint_bytes_inj|by apply IH].
Qed.

Lemma le_field_inj n a b r1 r2 :
  a < 256 ^ N.of_nat n → b < 256 ^ N.of_nat n →
  le_bytes n a ++ r1 = le_bytes n b ++ r2 → a = b ∧ r1 = r2.
Proof.
  intros Ha Hb E. apply app_inj_1 in E as [E ->]; [|by rewrite !length_le_bytes].
  by apply le_bytes_inj in E.
Qed.

Lemma to_fixed_outpoint (ins : list TxIn) :
  (ins ≫= λ i, to_fixed_bytes (previous_output i)) =
  (ins ≫= λ i, outpoint_bytes (previous_output i)).
Proof. done. Qed.

Lemma signature_preimage_Ok tx idx p :
  signature_preimage tx idx = Ok p →
  ∃ outs, idx < N.of_nat (length (inputs tx)) ∧ serialize_each (outputs tx) = Ok outs ∧
    p = le_bytes 4 (tx_version tx) ++ le_bytes 4 (N.of_nat (length (inputs tx))) ++
        (inputs tx ≫= λ i, to_fixed_bytes (previous_output i)) ++ le_bytes 4 idx ++
        le_bytes 4 (N.of_nat (length (outputs tx))) ++ outs ++ le_bytes 8 (lock_time tx).
Proof.
  unfold signature_preimage. destruct (N.leb_spec (N.of_nat (length (inputs tx))) idx); [done|].
  intros H'. dinv. naive_solver.
Qed.

(** ** Properties *)

Section properties.
Context {B3 : Blake3}.

(** [validate_stateless] returns on every transaction, and accepts exactly
    the transactions with version 1, at least one input and one output, no
    output below the dust threshold other than [OP_RETURN] ones, a total
    output value that fits 64 bits, and pairwise distinct inputs. *)
Theorem validate_stateless_spec (tx : Transaction) :
  returns (validate_stateless tx) ∧ (validate_stateless tx = Ok tt ↔ stateless_valid tx).
Proof. split; [apply validate_stateless_returns|apply validate_stateless_Ok]. Qed.

(** [txid] panics exactly on the transactions the codec cannot encode (a
    script or an authorization above the length limit), and two well-formed
    transactions with one identifier are equal unless their encodings are two
    byte strings that collide under BLAKE3. *)
Theorem txid_binding (t1 t2 : Transaction) (h : Hash)
    (W1 : transaction_codec_wf t1) (W2 : transaction_codec_wf t2)
    (E1 : txid (E := TransactionError) t1 = Ok h)
    (E2 : txid (E := TransactionError) t2 = Ok h) :
  t1 = t2 ∨
  ∃ b1 b2, to_canonical_bytes t1 = Ok b1 ∧ to_canonical_bytes t2 = Ok b2 ∧
           b1 ≠ b2 ∧ blake3 b1 = blake3 b2.
Proof.
  unfold txid in *.
  destruct (to_canonical_bytes t1) as [b1|?| |] eqn:S1; simplify_eq.
  destruct (to_canonical_bytes t2) as [b2|?| |] eqn:S2; simplify_eq.
  destruct (decide (b1 = b2)) as [->|Hne]; [left|right; naive_solver].
  by apply (to_canonical_inj t1 t2 b2).
Qed.

(** The signing digest used for authorization binds the spent outpoints, the
    outputs, the input index and the spent script only among transactions of
    one shape: with equal input counts, output counts and script lengths,
    equal digests mean equal contents, up to a BLAKE3 collision. *)
Theorem sighash_binds_shape (t1 t2 : Transaction) (i1 i2 : N) (lock1 lock2 : list byte)
    (W1 : transaction_wf t1) (W2 : transaction_wf t2) (I1 : i1 < MOD32) (I2 : i2 < MOD32)
    (Hin : length (inputs t1) = length (inputs t2))
    (Hout : Forall2 same_shape (outputs t1) (outputs t2))
    (E : compute_sighash t1 i1 lock1 = compute_sighash t2 i2 lock2) :
  (previous_output <$> inputs t1 = previous_output <$> inputs t2 ∧
   outputs t1 = outputs t2 ∧ i1 = i2 ∧ lock1 = lock2) ∨
  (sighash_preimage t1 i1 lock1 ≠ sighash_preimage t2 i2 lock2 ∧
   blake3 (sighash_preimage t1 i1 lock1) = blake3 (sighash_preimage t2 i2 lock2)).
Proof.
  destruct (decide (sighash_preimage t1 i1 lock1 = sighash_preimage t2 i2 lock2)) as [H|H];
    [left|right; done].
  destruct W1 as (_ & WI1 & WO1 & _), W2 as (_ & WI2 & WO2 & _).
  unfold sighash_preimage in H. apply app_inv_head in H.
  apply prefix_items_inj in H as [-> H]; [|done..].
  apply outputs_bytes_inj in H as [-> H]; [|done..].
  apply app_inj_1 in H as [Hi ->]; [|by rewrite !length_le_bytes].
  by apply le_bytes_inj in Hi.
Qed.

(** The preimage of [signature_preimage_digest] determines the version, the
    spent outpoints, the input index, the outputs and the lock time. *)
Theorem signature_preimage_binds (t1 t2 : Transaction) (i1 i2 : N) (p : list byte)
    (W1 : transaction_codec_wf t1) (W2 : transaction_codec_wf t2)
    (E1 : signature_preimage t1 i1 = Ok p) (E2 : signature_preimage t2 i2 = Ok p) :
  tx_version t1 = tx_version t2 ∧
  previous_output <$> inputs t1 = previous_output <$> inputs t2 ∧
  i1 = i2 ∧ outputs t1 = outputs t2 ∧ lock_time t1 = lock_time t2.
Proof.
  apply signature_preimage_Ok in E1 as (outs1 & Hi1 & S1 & ->).
  apply signature_preimage_Ok in E2 as (outs2 & Hi2 & S2 & E).
  destruct W1 as [(Wv1 & WI1 & WO1 & WL1) [LI1 LO1]], W2 as [(Wv2 & WI2 & WO2 & WL2) [LI2 LO2]].
  unfold MAX_VECTOR_LENGTH in *.
  apply le_field_inj in E as [-> E]; [|lia..].
  apply le_field_inj in E as [Hlen%Nat2N.inj E]; [|lia..].
  rewrite !to_fixed_outpoint in E. apply prefix_items_inj in E as [-> E]; [|done..].
  apply le_field_inj in E as [-> E]; [|lia..].
  apply le_field_inj in E as [Hlen'%Nat2N.inj E]; [|lia..].
  pose proof (deserialize_each_enc _ _ (le_bytes 8 (lock_time t1)) WO1 S1) as D1.
  rewrite E, Hlen', (deserialize_each_enc _ _ _ WO2 S2) in D1.
  apply Ok_pair_inj in D1 as [-> HL]. by apply le_bytes_inj in HL.
Qed.
End properties.

(** ** Witnesses *)

Definition toy_transfer : Transaction :=
  Transaction_new_simple 1 [TxIn_new (mkOutPoint ZERO 3) [x01; x02]]
    [mkTxOut 700 [x51]; mkTxOut 0 [x6a; x01]].

Lemma toy_transfer_wf : transaction_codec_wf toy_transfer.
Proof.
  unfold transaction_codec_wf, transaction_wf, transaction_limits, txin_wf, outpoint_wf, txout_wf,
    MAX_VECTOR_LENGTH, toy_transfer.
  repeat first [split | constructor | progress simpl]; lia.
Qed.

Lemma txid_binding_witness :
  ∃ h, txid (B3 := toy_blake3) (E := TransactionError) toy_transfer = Ok h ∧
    (toy_transfer = toy_transfer ∨
     ∃ b1 b2, to_canonical_bytes toy_transfer = Ok b1 ∧ to_canonical_bytes toy_transfer = Ok b2 ∧
              b1 ≠ b2 ∧ blake3 (Blake3 := toy_blake3) b1 = blake3 (Blake3 := toy_blake3) b2).
Proof.
  eexists. split; [reflexivity|].
  apply (txid_binding (B3 := toy_blake3) toy_transfer toy_transfer _ toy_transfer_wf toy_transfer_wf
           eq_refl eq_refl).
Defined.

Lemma sighash_binds_shape_witness :
  length (inputs toy_transfer) = 1%nat ∧
  ((previous_output <$> inputs toy_transfer = previous_output <$> inputs toy_transfer ∧
    outputs toy_transfer = outputs toy_transfer ∧ 0 = 0 ∧ [x51] = [x51]) ∨
   (sighash_preimage toy_transfer 0 [x51] ≠ sighash_preimage toy_transfer 0 [x51] ∧
    blake3 (Blake3 := toy_blake3) (sighash_preimage toy_transfer 0 [x51]) =
    blake3 (Blake3 := toy_blake3) (sighash_preimage toy_transfer 0 [x51]))).
Proof.
  split; [reflexivity|].
  apply (sighash_binds_shape (B3 := toy_blake3) toy_transfer toy_transfer 0 0 [x51] [x51]).
  - apply toy_transfer_wf.
  - apply toy_transfer_wf.
  - reflexivity.
  - reflexivity.
  - reflexivity.
  - repeat constructor.
  - reflexivity.
Defined.

Lemma signature_preimage_binds_witness :
  ∃ p, signature_preimage toy_transfer 0 = Ok p ∧
    tx_version toy_transfer = tx_version toy_transfer ∧
    previous_output <$> inputs toy_transfer = previous_output <$> inputs toy_transfer ∧
    0 = 0 ∧ outputs toy_transfer = outputs toy_transfer ∧
    lock_time toy_transfer = lock_time toy_transfer.
Proof.
  eexists. split; [reflexivity|].
  apply (signature_preimage_binds toy_transfer toy_transfer 0 0 _
           toy_transfer_wf toy_transfer_wf eq_refl eq_refl).
Defined.
