(* ===== verification/Utxo.v ===== *)
(** * The set of unspent outputs

    [UtxoSet] of [crates/scytale-core/src/utxo.rs]: the finite map of unspent
    outputs and its transitions. The methods that take [&mut self] are [stM]
    computations, so that what a failing call leaves behind is visible. *)

From S2P Require Import Prelude Bytes Primitives Types Codec Transaction.
Local Open Scope N_scope.
Local Open Scope scy_scope.

(** ** The map *)

Definition UtxoEntry_new (output : TxOut) (block_height : N) (is_coinbase : bool) : UtxoEntry :=
  mkUtxoEntry output block_height is_coinbase.

Notation UtxoSet := (gmap OutPoint UtxoEntry).
Definition UtxoSet_new : UtxoSet := ∅.
Definition utxo_len (s : UtxoSet) : N := N.of_nat (size s).
Definition utxo_is_empty (s : UtxoSet) : bool := utxo_len s =? 0.
Definition utxo_contains (s : UtxoSet) (o : OutPoint) : bool := bool_decide (is_Some (s !! o)).
Definition utxo_get (s : UtxoSet) (o : OutPoint) : option UtxoEntry := s !! o.

Definition utxo_insert (o : OutPoint) (e : UtxoEntry) : stM UtxoSet UtxoError unit := λ s,
  if utxo_contains s o then (s, Err (DuplicateOutPoint o)) else (<[o := e]> s, Ok tt).

Definition utxo_remove (o : OutPoint) : stM UtxoSet UtxoError (option UtxoEntry) := λ s,
  (delete o s, Ok (s !! o)).

(** [total_quanta], over the values in the order the [HashMap] iterates. *)
Definition total_quanta_in (values : list UtxoEntry) : outcome UtxoError N :=
  ofold (λ total entry, ok_or (checked_add total (value (output entry))) UtxoArithmeticOverflow)
    values 0.
Definition total_quanta (s : UtxoSet) : outcome UtxoError N :=
  total_quanta_in (map_to_list s).*2.

(** ** Transactions *)

(** Step 2 of [apply_transaction]: the total value of the inputs. *)
Definition total_input (s : UtxoSet) (ins : list TxIn) : outcome UtxoError N :=
  ofold (λ total_in input,
    let? entry := ok_or (s !! previous_output input) (MissingUtxo (previous_output input)) in
    ok_or (checked_add total_in (value (output entry))) UtxoArithmeticOverflow) ins 0.

Definition remove_inputs (ins : list TxIn) (s : UtxoSet) : UtxoSet :=
  foldl (λ s i, delete (previous_output i) s) s ins.

(** The loop that adds the outputs, shared by [apply_transaction] and
    [apply_coinbase]. *)
Fixpoint insert_outputs (id : Hash) (height : N) (coinbase : bool) (index : N) (outs : list TxOut) :
    stM UtxoSet UtxoError unit :=
  match outs with
  | [] => sret tt
  | o :: outs =>
      if is_op_return (locking_condition o) then insert_outputs id height coinbase (index + 1) outs
      else
        let! _ := utxo_insert (mkOutPoint id (wrap32 index)) (UtxoEntry_new o height coinbase) in
        insert_outputs id height coinbase (index + 1) outs
  end.

Section transitions.
Context {B3 : Blake3}.

Definition apply_transaction (tx : Transaction) (block_height : N) : stM UtxoSet UtxoError N :=
  let! _ := slift (map_err TxError (validate_stateless tx)) in
  let! s := sget in
  let! total_in := slift (total_input s (inputs tx)) in
  let! total_out := slift (map_err TxError (total_output_quanta tx)) in
  if total_in <? total_out then slift (Err (ValueDeficit total_in total_out))
  else
    let! fee := slift (ok_or (checked_sub total_in total_out) UtxoArithmeticOverflow) in
    let! _ := smodify (remove_inputs (inputs tx)) in
    let! id := slift (txid tx) in
    let! _ := insert_outputs id block_height false 0 (outputs tx) in
    sret fee.

Definition coinbase_output_ok (o : TxOut) : bool :=
  negb ((value o =? 0) && negb (is_op_return (locking_condition o))).

Definition apply_coinbase (tx : Transaction) (block_height : N) : stM UtxoSet UtxoError unit :=
  if bool_decide (outputs tx = []) then slift (Err (TxError EmptyOutputs))
  else if negb (forallb coinbase_output_ok (outputs tx)) then
    slift (Err (TxError ZeroOutputValue))
  else
    let! _ := slift (map_err TxError (total_output_quanta tx)) in
    let! id := slift (txid tx) in
    insert_outputs id block_height true 0 (outputs tx).

Fixpoint apply_rest (txs : list Transaction) (block_height total_fees : N) :
    stM UtxoSet UtxoError N :=
  match txs with
  | [] => sret total_fees
  | tx :: txs =>
      if is_coinbase tx then slift (Err InvalidCoinbasePlacement)
      else
        let! fee := apply_transaction tx block_height in
        let! total_fees := slift (ok_or (checked_add total_fees fee) UtxoArithmeticOverflow) in
        apply_rest txs block_height total_fees
  end.

(** A method body that works on a clone of [self] and stores it back at the
    end. *)
Definition on_clone {S E A} (m : stM S E A) : stM S E A := λ s,
  match m s with
  | (s', Ok a) => (s', Ok a)
  | (_, r) => (s, r)
  end.

Definition apply_block (txs : list Transaction) (block_height : N) : stM UtxoSet UtxoError N :=
  match txs with
  | [] => slift (Err (TxError EmptyOutputs))
  | coinbase :: rest =>
      on_clone
        (if negb (is_coinbase coinbase) then slift (Err InvalidCoinbasePlacement)
         else
           let! _ := apply_coinbase coinbase block_height in
           apply_rest rest block_height 0)
  end.

Definition apply_block_transactions (coinbase : Transaction) (txs : list Transaction)
    (block_height : N) : stM UtxoSet UtxoError N :=
  apply_block (coinbase :: txs) block_height.
End transitions.

(** ** Abstract view *)

(** The total value of a set, unbounded. *)
Definition set_value (s : UtxoSet) : N := map_fold (λ _ e acc, value (output e) + acc) 0 s.

(** The value an input spends, 0 when it is missing. *)
Definition spent_value (s : UtxoSet) (o : OutPoint) : N :=
  from_option (λ e, value (output e)) 0 (s !! o).
Definition inputs_value (s : UtxoSet) (ins : list TxIn) : N :=
  foldr (λ i acc, spent_value s (previous_output i) + acc) 0 ins.

(** The entries a transaction creates: one for each output that is not
    [OP_RETURN], under the transaction's identifier and the output's index. *)
Fixpoint created (id : Hash) (height : N) (coinbase : bool) (index : N) (outs : list TxOut) :
    list (OutPoint * UtxoEntry) :=
  match outs with
  | [] => []
  | o :: outs =>
      if is_op_return (locking_condition o) then created id height coinbase (index + 1) outs
      else (mkOutPoint id (wrap32 index), mkUtxoEntry o height coinbase)
             :: created id height coinbase (index + 1) outs
  end.

Definition fresh_for (s : UtxoSet) (l : list (OutPoint * UtxoEntry)) : Prop :=
  NoDup l.*1 ∧ Forall (λ o, s !! o = None) l.*1.

Definition burnt (outs : list TxOut) : N :=
  foldr (λ o acc, (if is_op_return (locking_condition o) then value o else 0) + acc) 0 outs.

Definition all_unspent (s : UtxoSet) (ins : list TxIn) : Prop :=
  Forall (λ i, is_Some (s !! previous_output i)) ins.

(** ** Lemmas *)

Lemma set_value_insert s o e : s !! o = None → set_value (<[o := e]> s) = value (output e) + set_value s.
Proof. intros. apply (map_fold_insert_L (λ _ e acc, value (output e) + acc)); [intros; lia|done]. Qed.

Lemma set_value_delete s o : set_value s = spent_value s o + set_value (delete o s).
Proof.
  unfold spent_value. destruct (s !! o) as [e|] eqn:E; simpl.
  - unfold set_value. apply (map_fold_delete_L (λ _ e acc, value (output e) + acc)); [intros; lia|done].
  - by rewrite delete_id.
Qed.

Lemma set_value_foldr s :
  set_value s = foldr (λ e acc, value (output e) + acc) 0 (map_to_list s).*2.
Proof.
  unfold set_value. rewrite map_fold_foldr. induction (map_to_list s) as [|[o e] l IH]; simpl; [done|].
  by rewrite IH.
Qed.

Lemma values_foldr_perm (l1 l2 : list UtxoEntry) :
  l1 ≡ₚ l2 → foldr (λ e acc, value (output e) + acc) 0 l1 = foldr (λ e acc, value (output e) + acc) 0 l2.
Proof. induction 1; simpl; lia. Qed.

Lemma total_quanta_in_spec s values :
  values ≡ₚ (map_to_list s).*2 →
  total_quanta_in values =
    if set_value s <=? U64_MAX then Ok (set_value s) else Err UtxoArithmeticOverflow.
Proof.
  intros Hp. unfold total_quanta_in. rewrite (ofold_checked_add (λ e, value (output e))) by done.
  by rewrite N.add_0_l, (values_foldr_perm _ _ Hp), <- set_value_foldr.
Qed.

Lemma lookup_remove_inputs s ins o :
  remove_inputs ins s !! o = if bool_decide (o ∈ previous_output <$> ins) then None else s !! o.
Proof.
  unfold remove_inputs. revert s; induction ins as [|i ins IH]; intros s.
  - case_bool_decide; set_solver.
  - rewrite fmap_cons. simpl. rewrite IH, lookup_delete.
    repeat case_bool_decide; try case_decide; set_solver.
Qed.

Lemma spent_value_delete s o o' : o ≠ o' → spent_value (delete o s) o' = spent_value s o'.
Proof. intros. unfold spent_value. by rewrite lookup_delete_ne. Qed.

Lemma inputs_value_delete s ins o :
  o ∉ previous_output <$> ins → inputs_value (delete o s) ins = inputs_value s ins.
Proof.
  unfold inputs_value. induction ins as [|i ins IH]; intros Ho; simpl; [done|].
  rewrite IH, spent_value_delete by set_solver. done.
Qed.

Lemma set_value_remove_inputs s ins :
  NoDup (previous_output <$> ins) →
  set_value s = inputs_value s ins + set_value (remove_inputs ins s).
Proof.
  revert s; induction ins as [|i ins IH]; intros s; simpl; [done|].
  intros [Hi Hnd]%NoDup_cons.
  pose proof (set_value_delete s (previous_output i)).
  pose proof (IH (delete (previous_output i) s) Hnd) as E.
  rewrite inputs_value_delete in E by done. unfold remove_inputs in *. simpl. lia.
Qed.

Lemma total_input_from s ins t n :
  t ≤ U64_MAX →
  ofold (λ total_in input,
    let? entry := ok_or (s !! previous_output input) (MissingUtxo (previous_output input)) in
    ok_or (checked_add total_in (value (output entry))) UtxoArithmeticOverflow) ins t = Ok n ↔
  all_unspent s ins ∧ n = t + inputs_value s ins ∧ n ≤ U64_MAX.
Proof.
  unfold all_unspent, inputs_value.
  revert t; induction ins as [|i ins IH]; intros t Ht; cbn [ofold foldr].
  - rewrite Forall_nil, N.add_0_r. split; [intros [= <-]; done|by intros (_ & -> & _)].
  - rewrite Forall_cons. unfold spent_value at 1.
    destruct (s !! previous_output i) as [e|]; cbn [ok_or obind from_option];
      [|by split; [|intros [[[? ?] _] _]]].
    unfold checked_add. destruct (N.leb_spec (t + value (output e)) U64_MAX); cbn [ok_or obind].
    + rewrite IH by done. split; intros (HF & -> & ?); repeat split; try done; try lia; by apply HF.
    + split; [done|]. intros (_ & -> & ?). lia.
Qed.

Lemma total_input_Ok s ins n :
  total_input s ins = Ok n ↔ all_unspent s ins ∧ n = inputs_value s ins ∧ n ≤ U64_MAX.
Proof. unfold total_input. by rewrite total_input_from. Qed.

Lemma total_input_returns s ins : returns (total_input s ins).
Proof.
  apply returns_ofold. intros t i _. destruct (s !! previous_output i); simpl; [|done].
  by destruct (checked_add _ _).
Qed.

Lemma insert_outputs_Ok id h cb i outs s s' :
  insert_outputs id h cb i outs s = (s', Ok tt) ↔
  fresh_for s (created id h cb i outs) ∧ s' = list_to_map (created id h cb i outs) ∪ s.
Proof.
  unfold fresh_for. revert i s; induction outs as [|o outs IH]; intros i s; simpl.
  - unfold sret. split; [intros [= <-]|intros [_ ->]].
    + split; [by repeat constructor|]. by rewrite (left_id_L ∅ _).
    + by rewrite (left_id_L ∅ _).
  - destruct (is_op_return _); [apply IH|]. simpl. unfold sbind, utxo_insert, utxo_contains.
    rewrite NoDup_cons, Forall_cons. case_bool_decide as Hs; [split; [done|]|].
    { intros [[_ [Hn _]] _]. rewrite Hn in Hs. by destruct (is_Some_None Hs). }
    apply eq_None_not_Some in Hs. rewrite IH. set (k := mkOutPoint _ _). set (C := created _ _ _ _ _).
    fold (C.*1). rewrite <- insert_union_l. set (e := UtxoEntry_new o h cb).
    assert (HF : Forall (λ o, <[k:=e]> s !! o = None) C.*1 ↔
                 k ∉ C.*1 ∧ Forall (λ o, s !! o = None) C.*1).
    { rewrite !Forall_forall. setoid_rewrite lookup_insert_None. naive_solver. }
    rewrite HF. split.
    + intros [(? & ? & ?) ->]. split; [done|]. rewrite insert_union_r; [done|].
      by apply not_elem_of_list_to_map_1.
    + intros [[[? ?] [? ?]] ->]. split; [done|]. rewrite insert_union_r; [done|].
      by apply not_elem_of_list_to_map_1.
Qed.

Lemma insert_outputs_returns id h cb i outs s : returns (insert_outputs id h cb i outs s).2.
Proof.
  revert i s; induction outs as [|o outs IH]; intros i s; simpl; [done|].
  destruct (is_op_return _); [apply IH|]. unfold sbind, utxo_insert.
  destruct (utxo_contains _ _); [done|apply IH].
Qed.

Lemma set_value_union_created s l :
  fresh_for s l →
  set_value (list_to_map l ∪ s) = foldr (λ p acc, value (output p.2) + acc) 0 l + set_value s.
Proof.
  unfold fresh_for. induction l as [|[k e] l IH].
  - intros _. simpl. by rewrite (left_id_L ∅ _).
  - rewrite fmap_cons. intros [[Hk Hnd]%NoDup_cons [Hs Hf]%Forall_cons]. cbn [foldr snd].
    rewrite list_to_map_cons, <- insert_union_l, set_value_insert.
    + rewrite IH by done. lia.
    + apply lookup_union_None. split; [by apply not_elem_of_list_to_map_1|done].
Qed.

Lemma created_value id h cb i outs :
  foldr (λ p acc, value (output p.2) + acc) 0 (created id h cb i outs) + burnt outs =
  outputs_value outs.
Proof.
  revert i; induction outs as [|o outs IH]; intros i; cbn [created burnt outputs_value foldr]; [done|].
  specialize (IH (i + 1)). unfold burnt, outputs_value in *.
  destruct (is_op_return _); cbn [foldr output snd]; lia.
Qed.

Section properties.
Context {B3 : Blake3}.

(** What a transaction that is accepted does to the set. *)
Definition transaction_step (s : UtxoSet) (tx : Transaction) (h fee : N) (s' : UtxoSet) : Prop :=
  ∃ id, txid (E := UtxoError) tx = Ok id ∧
    fresh_for (remove_inputs (inputs tx) s) (created id h false 0 (outputs tx)) ∧
    s' = list_to_map (created id h false 0 (outputs tx)) ∪ remove_inputs (inputs tx) s ∧
    stateless_valid tx ∧ all_unspent s (inputs tx) ∧
    inputs_value s (inputs tx) ≤ U64_MAX ∧
    inputs_value s (inputs tx) = outputs_value (outputs tx) + fee.

Lemma apply_transaction_Ok tx h s s' fee :
  apply_transaction tx h s = (s', Ok fee) ↔ transaction_step s tx h fee s'.
Proof.
  unfold apply_transaction, transaction_step, slift, sget, smodify, sret, sbind at 1.
  destruct (validate_stateless tx) as [[]|?| |] eqn:HV; simpl.
  2-4: split; [done|]; intros (?&?&?&?&HV2%validate_stateless_Ok&?); congruence.
  apply validate_stateless_Ok in HV as HV2. unfold sbind at 1 2.
  destruct (total_input s (inputs tx)) as [ti|?| |] eqn:HI.
  2-4: split; [done|]; intros (?&?&?&?&?&?&?&?);
       assert (total_input s (inputs tx) = Ok (inputs_value s (inputs tx)))
         by (by apply total_input_Ok); congruence.
  apply total_input_Ok in HI as (HU & -> & HM). unfold sbind at 1.
  rewrite total_output_quanta_spec. destruct HV2 as (? & ? & ? & ? & Hov & ?).
  destruct (N.leb_spec (outputs_value (outputs tx)) U64_MAX); [|lia]. simpl.
  destruct (N.ltb_spec (inputs_value s (inputs tx)) (outputs_value (outputs tx))).
  { split; [done|]. intros (?&?&?&?&?&?&?&?). lia. }
  unfold sbind at 1, checked_sub.
  destruct (N.leb_spec (outputs_value (outputs tx)) (inputs_value s (inputs tx))); [|lia].
  cbn [ok_or]. unfold sbind at 1 2.
  destruct (txid tx) as [id|?| |] eqn:Hid.
  2-4: split; [done|]; intros (?&?&?); by simplify_eq.
  unfold sbind. destruct (insert_outputs _ _ _ _ _ _) as [s1 r] eqn:HO. split.
  - destruct r as [[]| | |]; intros; simplify_eq.
    apply insert_outputs_Ok in HO as [? ->]. exists id.
    split; [done|]. split; [done|]. split; [done|]. split; [done|]. split; [done|]. split; [done|]. lia.
  - intros (id' & ? & Hf & -> & ? & ? & ? & ?). simplify_eq.
    rewrite (proj2 (insert_outputs_Ok _ _ _ _ _ _ _) (conj Hf eq_refl)) in HO. simplify_eq.
    do 2 f_equal. lia.
Qed.

Lemma transaction_step_value s tx h fee s' :
  transaction_step s tx h fee s' → set_value s' + fee + burnt (outputs tx) = set_value s.
Proof.
  intros (id & _ & Hf & -> & (_ & _ & _ & _ & _ & Hnd) & _ & _ & Hfee).
  rewrite set_value_union_created by done.
  pose proof (set_value_remove_inputs s (inputs tx) Hnd).
  pose proof (created_value id h false 0 (outputs tx)). lia.
Qed.

(** What a coinbase that is accepted does to the set. *)
Definition coinbase_step (s : UtxoSet) (tx : Transaction) (h : N) (s' : UtxoSet) : Prop :=
  ∃ id, txid (E := UtxoError) tx = Ok id ∧
    fresh_for s (created id h true 0 (outputs tx)) ∧
    s' = list_to_map (created id h true 0 (outputs tx)) ∪ s ∧
    outputs tx ≠ [] ∧ Forall (λ o, value o = 0 → is_op_return (locking_condition o) = true) (outputs tx) ∧
    outputs_value (outputs tx) ≤ U64_MAX.

Lemma coinbase_outputs_ok outs :
  forallb coinbase_output_ok outs = true ↔
  Forall (λ o, value o = 0 → is_op_return (locking_condition o) = true) outs.
Proof.
  rewrite forallb_forall, Forall_forall. unfold coinbase_output_ok.
  setoid_rewrite <- list_elem_of_In. split; intros H o Ho; specialize (H o Ho).
  - intros E. rewrite E in H. by destruct (is_op_return _).
  - destruct (N.eqb_spec (value o) 0); [by rewrite H|done].
Qed.

Lemma apply_coinbase_Ok tx h s s' :
  apply_coinbase tx h s = (s', Ok tt) ↔ coinbase_step s tx h s'.
Proof.
  unfold apply_coinbase, coinbase_step, slift. setoid_rewrite <- coinbase_outputs_ok.
  case_bool_decide; [naive_solver|].
  destruct (forallb coinbase_output_ok (outputs tx)); simpl; [|naive_solver].
  unfold sbind. rewrite total_output_quanta_spec.
  destruct (N.leb_spec (outputs_value (outputs tx)) U64_MAX); cbn [map_err].
  2:{ split; [done|]. intros (?&?&?&?&?&?&?). lia. }
  destruct (txid tx) as [id|?| |] eqn:Hid; [|naive_solver..].
  rewrite insert_outputs_Ok. naive_solver.
Qed.

Lemma coinbase_step_value s tx h s' :
  coinbase_step s tx h s' →
  set_value s' + burnt (outputs tx) = set_value s + outputs_value (outputs tx).
Proof.
  intros (id & _ & Hf & -> & _). rewrite set_value_union_created by done.
  pose proof (created_value id h true 0 (outputs tx)). lia.
Qed.

(** The transactions of a block after the coinbase, in order. *)
Inductive transactions_step (h : N) : UtxoSet → list Transaction → N → UtxoSet → Prop :=
| transactions_step_nil s : transactions_step h s [] 0 s
| transactions_step_cons s tx txs fee fees s1 s' :
    is_coinbase tx = false →
    transaction_step s tx h fee s1 →
    transactions_step h s1 txs fees s' →
    transactions_step h s (tx :: txs) (fee + fees) s'.

Definition block_step (s : UtxoSet) (txs : list Transaction) (h fees : N) (s' : UtxoSet) : Prop :=
  ∃ cb rest s1, txs = cb :: rest ∧ is_coinbase cb = true ∧ coinbase_step s cb h s1 ∧
    transactions_step h s1 rest fees s' ∧ fees ≤ U64_MAX.

Lemma apply_rest_Ok txs h t s s' f :
  t ≤ U64_MAX →
  apply_rest txs h t s = (s', Ok f) ↔
  ∃ fees, transactions_step h s txs fees s' ∧ f = t + fees ∧ f ≤ U64_MAX.
Proof.
  revert t s; induction txs as [|tx txs IH]; intros t s Ht; simpl.
  - unfold sret. split.
    + intros [= <- <-]. exists 0. split; [constructor|]. lia.
    + intros (fees & HT & -> & ?). inversion HT; subst. by rewrite N.add_0_r.
  - destruct (is_coinbase tx) eqn:Hcb.
    { split; [done|]. intros (fees & HT & _). inversion HT; subst. congruence. }
    rewrite sbind_Ok. split.
    + intros (s1 & fee & HA%apply_transaction_Ok & (s2 & t' & HC & HR)%sbind_Ok).
      unfold slift in HC. injection HC as <- HC. dinv.
      apply checked_add_Some in HC as [-> ?]. apply IH in HR as (fees & HT & -> & ?); [|done].
      exists (fee + fees). split; [by econstructor|]. lia.
    + intros (fees & HT & -> & Hle). inversion HT as [|? ? ? fee fees' s1 ? ? Hstep HT']; subst.
      exists s1, fee. split; [by apply apply_transaction_Ok|].
      unfold sbind, slift, checked_add. destruct (N.leb_spec (t + fee) U64_MAX); [|lia]. simpl.
      apply IH; [done|]. exists fees'. split; [done|]. lia.
Qed.

Lemma on_clone_Ok {S E A} (m : stM S E A) s s' a :
  on_clone m s = (s', Ok a) ↔ m s = (s', Ok a).
Proof. unfold on_clone. destruct (m s) as [s1 []]; naive_solver. Qed.

Lemma on_clone_atomic {S E A} (m : stM S E A) s :
  is_ok (on_clone m s).2 = false → (on_clone m s).1 = s.
Proof. unfold on_clone. by destruct (m s) as [s1 []]. Qed.

Lemma apply_block_Ok txs h s s' fees :
  apply_block txs h s = (s', Ok fees) ↔ block_step s txs h fees s'.
Proof.
  unfold apply_block, block_step, slift. destruct txs as [|cb rest]; [naive_solver|].
  rewrite on_clone_Ok. destruct (is_coinbase cb) eqn:Hcb; simpl.
  2:{ split; [done|]. intros (?&?&?&?&?&_). congruence. }
  rewrite sbind_Ok. split.
  - intros (s1 & [] & HC%apply_coinbase_Ok & HR). apply apply_rest_Ok in HR as (fees' & ? & -> & ?); [|done].
    exists cb, rest, s1. by rewrite N.add_0_l in *.
  - intros (cb' & rest' & s1 & ? & ? & HC & HT & ?). simplify_eq. exists s1, tt.
    rewrite apply_coinbase_Ok, apply_rest_Ok by done. split; [done|]. by exists fees.
Qed.

Lemma transactions_step_value h s txs fees s' :
  transactions_step h s txs fees s' →
  set_value s' + fees + foldr (λ tx acc, burnt (outputs tx) + acc) 0 txs = set_value s.
Proof.
  induction 1 as [|s tx txs fee fees s1 s' _ H%transaction_step_value _ IH]; simpl; lia.
Qed.

Lemma block_step_value s txs h fees s' :
  block_step s txs h fees s' →
  ∃ cb rest, txs = cb :: rest ∧
  set_value s' + fees + foldr (λ tx acc, burnt (outputs tx) + acc) 0 txs =
  set_value s + outputs_value (outputs cb).
Proof.
  intros (cb & rest & s1 & -> & _ & HC%coinbase_step_value & HT%transactions_step_value & _).
  exists cb, rest. split; [done|]. simpl. lia.
Qed.
End properties.

(** ** Returning *)

Section returning.
Context {B3 : Blake3}.

Lemma txid_any {E F} tx id : txid (E := E) tx = Ok id → txid (E := F) tx = Ok id.
Proof. unfold txid. by destruct (to_canonical_bytes tx); intros; simplify_eq. Qed.

Lemma transaction_encodable_txid {E} tx :
  transaction_encodable tx → ∃ id, txid (E := E) tx = Ok id.
Proof. intros [bs Hb]%transaction_encodable_spec. unfold txid. rewrite Hb. by eexists. Qed.

Lemma insert_outputs_Err id h cb i outs s s' e :
  insert_outputs id h cb i outs s = (s', Err e) → ∃ o, e = DuplicateOutPoint o.
Proof.
  revert i s; induction outs as [|o outs IH]; intros i s; simpl; [done|].
  destruct (is_op_return _); [apply IH|]. unfold sbind, utxo_insert.
  destruct (utxo_contains _ _); [naive_solver|apply IH].
Qed.

(** A run that returns, and leaves the set as it was unless it fails with
    [DuplicateOutPoint]. *)
Definition guarded {A} (s : UtxoSet) (run : UtxoSet * outcome UtxoError A) : Prop :=
  returns run.2 ∧ ∀ s' e, run = (s', Err e) → s' = s ∨ ∃ o, e = DuplicateOutPoint o.

Lemma guarded_lift {A B} (m : outcome UtxoError A) (k : A → stM UtxoSet UtxoError B) s :
  returns m → (∀ a, m = Ok a → guarded s (k a s)) → guarded s (sbind (slift m) k s).
Proof.
  intros [HP HD] Hk. unfold sbind, slift. destruct m; [by apply Hk| |done..].
  split; [done|]. intros ? ? [= <- <-]. by left.
Qed.

Lemma apply_transaction_cases tx h s :
  transaction_encodable tx → guarded s (apply_transaction tx h s).
Proof.
  intros [id Hid]%(transaction_encodable_txid (E := UtxoError)). unfold apply_transaction.
  apply guarded_lift; [apply returns_map_err, validate_stateless_returns|intros _ _].
  unfold sbind at 1, sget at 1.
  apply guarded_lift; [apply total_input_returns|intros ti _].
  apply guarded_lift; [apply returns_map_err, total_output_quanta_returns|intros to _].
  destruct (ti <? to); [split; [done|by intros ? ? [= <- <-]; left]|].
  apply guarded_lift; [by destruct (checked_sub ti to)|intros fee _].
  unfold sbind at 1, smodify at 1.
  unfold sbind, slift, sret. rewrite Hid.
  pose proof (insert_outputs_returns id h false 0 (outputs tx) (remove_inputs (inputs tx) s)) as [HP HD].
  destruct (insert_outputs _ _ _ _ _ _) as [s1 [[]|e| |]] eqn:HF; simpl in *; try done.
  split; [done|]. intros s' e' [= <- <-]. right. by eapply insert_outputs_Err.
Qed.

Lemma apply_rest_returns txs h t s :
  Forall transaction_encodable txs → returns (apply_rest txs h t s).2.
Proof.
  intros HF. revert t s; induction HF as [|tx txs Htx HF IH]; intros t s; simpl; [done|].
  destruct (is_coinbase tx); [done|].
  destruct (apply_transaction_cases tx h s Htx) as [[HP HD] _].
  unfold sbind, slift. destruct (apply_transaction tx h s) as [s1 [fee|?| |]]; try done.
  destruct (checked_add t fee); simpl; [apply IH|done].
Qed.

Lemma apply_coinbase_returns tx h s :
  transaction_encodable tx → returns (apply_coinbase tx h s).2.
Proof.
  intros [id Hid]%(transaction_encodable_txid (E := UtxoError)). unfold apply_coinbase, slift.
  case_bool_decide; [done|]. destruct (negb _); [done|]. unfold sbind. rewrite Hid.
  pose proof (total_output_quanta_returns tx) as HO.
  destruct (total_output_quanta tx) as [to|?| |]; [|done|by destruct HO..].
  apply insert_outputs_returns.
Qed.

Lemma on_clone_returns {S E A} (m : stM S E A) s : returns (m s).2 → returns (on_clone m s).2.
Proof. unfold on_clone. by destruct (m s) as [s1 []]. Qed.

Lemma apply_block_returns txs h s :
  Forall transaction_encodable txs → returns (apply_block txs h s).2.
Proof.
  intros HF. unfold apply_block. destruct HF as [|cb rest Hcb HF]; [done|].
  apply on_clone_returns. destruct (is_coinbase cb); [|done]. unfold sbind. cbn [negb].
  pose proof (apply_coinbase_returns cb h s Hcb) as [? ?].
  destruct (apply_coinbase cb h s) as [s1 [[]|?| |]]; cbn [negb snd] in *;
    [by apply apply_rest_returns|done..].
Qed.

Lemma apply_block_atomic txs h s s' r :
  apply_block txs h s = (s', r) → is_ok r = false → s' = s.
Proof.
  unfold apply_block, on_clone. destruct txs as [|cb rest]; [by intros [= <- <-]|].
  intros E Hr. repeat case_match; by simplify_eq/=.
Qed.
End returning.

(** ** Properties *)

Section utxo_properties.
Context {B3 : Blake3}.

Lemma apply_transaction_duplicate s tx h id o outs :
  txid (E := UtxoError) tx = Ok id → outputs tx = o :: outs →
  is_op_return (locking_condition o) = false →
  stateless_valid tx → all_unspent s (inputs tx) →
  outputs_value (outputs tx) ≤ inputs_value s (inputs tx) ≤ U64_MAX →
  mkOutPoint id 0 ∉ previous_output <$> inputs tx → is_Some (s !! mkOutPoint id 0) →
  apply_transaction tx h s =
    (remove_inputs (inputs tx) s, Err (DuplicateOutPoint (mkOutPoint id 0))).
Proof.
  intros Hid Houts Hop HV HU [Hle Hmax] Hnin Hin.
  unfold apply_transaction, sbind, slift, sget, smodify.
  rewrite (proj2 (validate_stateless_Ok tx) HV). cbn [map_err].
  rewrite (proj2 (total_input_Ok s _ _) (conj HU (conj eq_refl Hmax))).
  rewrite total_output_quanta_spec.
  destruct (N.leb_spec (outputs_value (outputs tx)) U64_MAX); [|lia]. cbn [map_err].
  destruct (N.ltb_spec (inputs_value s (inputs tx)) (outputs_value (outputs tx))); [lia|].
  unfold checked_sub. destruct (N.leb_spec (outputs_value (outputs tx)) (inputs_value s (inputs tx))); [|lia].
  cbn [ok_or]. rewrite Hid, Houts. cbn [insert_outputs]. rewrite Hop.
  unfold sbind, utxo_insert, utxo_contains. change (wrap32 0) with 0.
  rewrite bool_decide_eq_true_2; [done|]. rewrite lookup_remove_inputs.
  by rewrite bool_decide_eq_false_2.
Qed.

Lemma remove_inputs_changes s tx :
  stateless_valid tx → all_unspent s (inputs tx) → remove_inputs (inputs tx) s ≠ s.
Proof.
  intros (_ & Hne & _) HU E. destruct (inputs tx) as [|i ins]; [done|].
  apply Forall_cons in HU as [[e He] _].
  rewrite <- E, lookup_remove_inputs, bool_decide_eq_true_2 in He; [done|set_solver].
Qed.

(** A non-coinbase transaction is applied, with fee [fee], exactly when it is
    statelessly valid, every input is unspent, the input total fits 64 bits
    and covers the outputs, and no created outpoint is already present; the
    new set is then the old one without the inputs and with the outputs that
    are not [OP_RETURN], and value is conserved: what remains, the fee and
    the value of [OP_RETURN] outputs add up to what was there. *)
Theorem apply_transaction_spec (s s' : UtxoSet) (tx : Transaction) (h fee : N) :
  (apply_transaction tx h s = (s', Ok fee) ↔ transaction_step s tx h fee s') ∧
  (apply_transaction tx h s = (s', Ok fee) →
   set_value s' + fee + burnt (outputs tx) = set_value s).
Proof.
  rewrite apply_transaction_Ok. split; [done|]. apply transaction_step_value.
Qed.

(** The failures of [apply_transaction]: on an encodable transaction it
    returns, and an error leaves the set as it was, except
    [DuplicateOutPoint]: when the transaction is otherwise valid and its
    first output's outpoint is already present, the inputs have been removed
    when the error is returned. *)
Theorem apply_transaction_errors (s : UtxoSet) (tx : Transaction) (h : N)
    (He : transaction_encodable tx) :
  returns (apply_transaction tx h s).2 ∧
  (∀ s' e, apply_transaction tx h s = (s', Err e) → s' = s ∨ ∃ o, e = DuplicateOutPoint o) ∧
  (∀ id o outs, txid (E := UtxoError) tx = Ok id → outputs tx = o :: outs →
     is_op_return (locking_condition o) = false →
     stateless_valid tx → all_unspent s (inputs tx) →
     outputs_value (outputs tx) ≤ inputs_value s (inputs tx) ≤ U64_MAX →
     mkOutPoint id 0 ∉ previous_output <$> inputs tx → is_Some (s !! mkOutPoint id 0) →
     apply_transaction tx h s =
       (remove_inputs (inputs tx) s, Err (DuplicateOutPoint (mkOutPoint id 0))) ∧
     remove_inputs (inputs tx) s ≠ s).
Proof.
  split; [apply (apply_transaction_cases tx h s He)|].
  split; [apply (apply_transaction_cases tx h s He)|].
  intros id o outs Hid Houts Hop HV HU [Hle Hmax] Hnin Hin. split.
  - by eapply apply_transaction_duplicate.
  - by apply remove_inputs_changes.
Qed.

(** C11: [apply_block] succeeds exactly when the block is a coinbase followed by
    transactions that apply in order on top of it with a fee total that fits
    64 bits; then the value of the new set, the fees and the burnt value are
    the old value and the coinbase outputs. Otherwise the set is unchanged,
    whatever the failure, and on encodable transactions the call returns. This
    is the rule of the code: unlike [docs/protocol/eutxo-model.md], it has no
    coinbase maturity ([maturity_ignored]), and an OP_RETURN output may carry a
    value, which is burnt. *)
Theorem apply_block_spec (s s' : UtxoSet) (txs : list Transaction) (h fees : N) :
  (apply_block txs h s = (s', Ok fees) ↔ block_step s txs h fees s') ∧
  (apply_block txs h s = (s', Ok fees) → ∃ cb rest, txs = cb :: rest ∧
     set_value s' + fees + foldr (λ tx acc, burnt (outputs tx) + acc) 0 txs =
     set_value s + outputs_value (outputs cb)) ∧
  (is_ok (apply_block txs h s).2 = false → (apply_block txs h s).1 = s) ∧
  (Forall transaction_encodable txs → returns (apply_block txs h s).2).
Proof.
  rewrite apply_block_Ok. split; [done|]. split; [apply block_step_value|].
  split; [|apply apply_block_returns].
  destruct (apply_block txs h s) eqn:E. by eapply apply_block_atomic.
Qed.

(** Sets that differ only in when, and in what kind of transaction, their
    outputs were made; a computation that cannot tell them apart. *)
Definition same_outputs (s1 s2 : UtxoSet) : Prop := output <$> s1 = output <$> s2.
Definition age_blind {E A} (m1 m2 : stM UtxoSet E A) : Prop :=
  ∀ s1 s2, same_outputs s1 s2 → (m1 s1).2 = (m2 s2).2 ∧ same_outputs (m1 s1).1 (m2 s2).1.

Lemma same_lookup s1 s2 o : same_outputs s1 s2 → output <$> s1 !! o = output <$> s2 !! o.
Proof. intros H. by rewrite <- !lookup_fmap, H. Qed.
Lemma blind_lift {E A} (r : outcome E A) : age_blind (slift r) (slift r).
Proof. by intros s1 s2 H. Qed.
Lemma blind_bind {E A B} (m1 m2 : stM UtxoSet E A) (k1 k2 : A → stM UtxoSet E B) :
  age_blind m1 m2 → (∀ a, age_blind (k1 a) (k2 a)) → age_blind (sbind m1 k1) (sbind m2 k2).
Proof.
  intros Hm Hk s1 s2 H. destruct (Hm _ _ H) as [E1 E2]. unfold sbind.
  destruct (m1 s1) as [s1' r1], (m2 s2) as [s2' r2]. cbn in E1, E2. subst r2. destruct r1 as [a|e| |]; [by apply Hk|done..].
Qed.
Lemma blind_insert_outputs id h cb outs : ∀ index, age_blind (insert_outputs id h cb index outs) (insert_outputs id h cb index outs).
Proof.
  induction outs as [|o outs IH]; intros index; cbn [insert_outputs]; [apply blind_lift|]. destruct (is_op_return _); [apply IH|].
  apply blind_bind; [|intros; apply IH]. intros s1 s2 H. unfold utxo_insert, utxo_contains.
  pose proof (same_lookup _ _ (mkOutPoint id (wrap32 index)) H) as HL.
  destruct (s1 !! _), (s2 !! _); [|done..|].
  - by rewrite !bool_decide_eq_true_2 by done.
  - rewrite !bool_decide_eq_false_2 by apply is_Some_None. split; [done|]. cbn [fst]. unfold same_outputs in *. by rewrite !fmap_insert, H.
Qed.
Lemma blind_remove ins s1 s2 : same_outputs s1 s2 → same_outputs (remove_inputs ins s1) (remove_inputs ins s2).
Proof.
  unfold remove_inputs. revert s1 s2; induction ins as [|i ins IH]; intros s1 s2 H; [done|]. cbn [foldl]. apply IH.
  unfold same_outputs in *. by rewrite !fmap_delete, H.
Qed.
Lemma blind_apply_transaction tx h : age_blind (apply_transaction tx h) (apply_transaction tx h).
Proof.
  apply blind_bind; [apply blind_lift|]. intros _ s1 s2 H. rewrite !sbind_sget.
  assert (ET : total_input s1 (inputs tx) = total_input s2 (inputs tx)).
  { unfold total_input. generalize 0. induction (inputs tx) as [|i ins IH]; intros acc; [done|]. cbn [ofold].
    pose proof (same_lookup _ _ (previous_output i) H) as HL.
    destruct (s1 !! _), (s2 !! _); try done. injection HL as HL. cbn [ok_or obind]. rewrite HL.
    destruct (checked_add _ _); [apply IH|done]. }
  rewrite ET. clear ET. generalize (total_input s2 (inputs tx)) as total. intros total. revert s1 s2 H.
  refine (blind_bind _ _ _ _ (blind_lift _) _). intros total_in. apply blind_bind; [apply blind_lift|]. intros total_out.
  destruct (_ <? _); [apply blind_lift|]. apply blind_bind; [apply blind_lift|]. intros fee.
  apply blind_bind; [intros s1 s2 H; split; [done|by apply blind_remove]|]. intros _.
  apply blind_bind; [apply blind_lift|]. intros id. apply blind_bind; [apply blind_insert_outputs|]. intros _. by intros s1 s2 H.
Qed.
Lemma blind_apply_rest h txs : ∀ fees, age_blind (apply_rest txs h fees) (apply_rest txs h fees).
Proof.
  induction txs as [|tx txs IH]; intros fees; cbn [apply_rest]; [by intros s1 s2 H|]. destruct (is_coinbase tx); [apply blind_lift|].
  apply blind_bind; [apply blind_apply_transaction|]. intros fee. apply blind_bind; [apply blind_lift|]. intros total. apply IH.
Qed.

(** There is no coinbase maturity, and no other rule of age: what [apply_block]
    answers, and the outputs it leaves, depend neither on the heights of the
    outputs a block spends nor on whether a coinbase made them. *)
Theorem maturity_ignored (s1 s2 : UtxoSet) (txs : list Transaction) (h : N) :
  same_outputs s1 s2 →
  (apply_block txs h s1).2 = (apply_block txs h s2).2 ∧ same_outputs (apply_block txs h s1).1 (apply_block txs h s2).1.
Proof.
  intros H. unfold apply_block. destruct txs as [|cb txs]; [done|]. unfold on_clone.
  match goal with |- context [?m s1] => assert (HB : age_blind m m) end.
  { destruct (is_coinbase cb); cbn [negb]; [|apply blind_lift]. apply blind_bind; [|intros; apply blind_apply_rest].
    unfold apply_coinbase. case_bool_decide; [apply blind_lift|]. destruct (negb _); [apply blind_lift|].
    apply blind_bind; [apply blind_lift|]. intros _. apply blind_bind; [apply blind_lift|]. intros id. apply blind_insert_outputs. }
  destruct (HB _ _ H) as [E1 E2]. destruct (_ s1) as [s1' r1], (_ s2) as [s2' r2]. cbn in E1, E2. subst r2. by destruct r1.
Qed.

(** [total_quanta] does not depend on the iteration order of the hash map:
    any order yields the total value, or the overflow error when the total
    does not fit 64 bits. *)
Theorem total_quanta_order (s : UtxoSet) (values : list UtxoEntry)
    (Hp : values ≡ₚ (map_to_list s).*2) :
  total_quanta_in values = total_quanta s ∧
  total_quanta s = if set_value s <=? U64_MAX then Ok (set_value s) else Err UtxoArithmeticOverflow.
Proof. unfold total_quanta. by rewrite !(total_quanta_in_spec s). Qed.
End utxo_properties.

(** ** Witnesses *)

Definition toy_txid (tx : Transaction) : Hash :=
  match txid (B3 := toy_blake3) (E := UtxoError) tx with Ok id => id | _ => ZERO end.
Definition toy_coinbase : Transaction := new_coinbase 1 [mkTxOut 1000 [x51]; mkTxOut 0 [x6a; x01]].
Definition toy_spend : Transaction :=
  mkTransaction 1 [TxIn_new (mkOutPoint (toy_txid toy_coinbase) 0) []] [mkTxOut 900 [x52]] 0.
Definition toy_set : UtxoSet := (apply_block (B3 := toy_blake3) [toy_coinbase; toy_spend] 1 ∅).1.
Definition toy_clash : UtxoSet :=
  {[ mkOutPoint (toy_txid toy_coinbase) 0 := mkUtxoEntry (mkTxOut 1000 [x51]) 1 true;
     mkOutPoint (toy_txid toy_spend) 0 := mkUtxoEntry (mkTxOut 7 [x51]) 1 true ]}.

Lemma apply_transaction_errors_witness :
  ∃ s', apply_transaction (B3 := toy_blake3) toy_spend 2 toy_clash =
          (s', Err (DuplicateOutPoint (mkOutPoint (toy_txid toy_spend) 0))) ∧ s' ≠ toy_clash.
Proof.
  assert (He : transaction_encodable toy_spend).
  { unfold transaction_encodable, vec_fits, MAX_VECTOR_LENGTH. simpl.
    repeat first [split | constructor]; simpl; lia. }
  exists (remove_inputs (inputs toy_spend) toy_clash).
  apply (apply_transaction_errors (B3 := toy_blake3) toy_clash toy_spend 2 He)
    with (o := mkTxOut 900 [x52]) (outs := []).
  all: try (vm_compute; reflexivity).
  - apply validate_stateless_Ok. vm_compute; reflexivity.
  - repeat constructor. eexists. vm_compute. reflexivity.
  - split; vm_compute; discriminate.
  - apply (bool_decide_eq_false_1 _). vm_compute. reflexivity.
  - eexists. vm_compute. reflexivity.
Defined.

Lemma apply_block_spec_witness :
  apply_block (B3 := toy_blake3) [toy_coinbase; toy_spend] 1 ∅ = (toy_set, Ok 100) ∧
  ∃ cb rest, [toy_coinbase; toy_spend] = cb :: rest ∧
    set_value toy_set + 100 + foldr (λ tx acc, burnt (outputs tx) + acc) 0 [toy_coinbase; toy_spend] =
    set_value ∅ + outputs_value (outputs cb).
Proof.
  assert (E : apply_block (B3 := toy_blake3) [toy_coinbase; toy_spend] 1 ∅ = (toy_set, Ok 100)).
  { apply pair_snd. vm_compute. reflexivity. }
  split; [exact E|].
  apply (apply_block_spec (B3 := toy_blake3) ∅ toy_set [toy_coinbase; toy_spend] 1 100). exact E.
Defined.

Lemma apply_transaction_spec_witness :
  transaction_step (B3 := toy_blake3) toy_clash
    (mkTransaction 1 [TxIn_new (mkOutPoint (toy_txid toy_coinbase) 0) []] [mkTxOut 600 [x52]] 0) 3 400
    (apply_transaction (B3 := toy_blake3)
       (mkTransaction 1 [TxIn_new (mkOutPoint (toy_txid toy_coinbase) 0) []] [mkTxOut 600 [x52]] 0) 3
       toy_clash).1.
Proof.
  apply (apply_transaction_spec (B3 := toy_blake3) toy_clash).
  apply pair_snd. vm_compute. reflexivity.
Defined.

Lemma total_quanta_order_witness :
  reverse (map_to_list toy_clash).*2 ≡ₚ (map_to_list toy_clash).*2 ∧
  total_quanta_in (reverse (map_to_list toy_clash).*2) = Ok 1007.
Proof.
  assert (Hp : reverse (map_to_list toy_clash).*2 ≡ₚ (map_to_list toy_clash).*2)
    by apply reverse_Permutation.
  split; [exact Hp|].
  rewrite (proj1 (total_quanta_order toy_clash _ Hp)). vm_compute. reflexivity.
Defined.
