(* ===== verification/Merkle.v ===== *)
(** * The commitment to the unspent outputs

    The Merkle part of [crates/scytale-core/src/utxo.rs]: leaves, the root over
    the sorted set, inclusion proofs and their verification. *)

From S2P Require Import Prelude Bytes Primitives Types Codec Transaction Utxo.
Local Open Scope N_scope.
Local Open Scope scy_scope.

(** [CoreError], restricted to the variant this file returns. *)
Inductive CoreError := CoreUtxo (e : UtxoError).

Record UtxoEntryWithOutpoint := mkUtxoEntryWithOutpoint { outpoint : OutPoint; entry : UtxoEntry }.

Record UtxoMerkleProof := mkUtxoMerkleProof {
  proof_outpoint : OutPoint;
  value_quanta : N;
  proof_locking_condition : list byte;
  leaf_hash : Hash;
  audit_path : list (Hash * bool);
  leaf_index : N
}.

(** The comparison [sort_by] is called with: txid, then index. *)
Definition outpoint_cmp (a b : OutPoint) : comparison :=
  match hash_cmp (op_txid a) (op_txid b) with
  | Eq => op_index a ?= op_index b
  | c => c
  end.
Definition outpoint_leb (a b : OutPoint) : bool :=
  match outpoint_cmp a b with Gt => false | _ => true end.

(** A stable sort of a slice by outpoint. *)
Fixpoint insert_by {A} (key : A → OutPoint) (x : A) (l : list A) : list A :=
  match l with
  | [] => [x]
  | y :: l => if outpoint_leb (key x) (key y) then x :: y :: l else y :: insert_by key x l
  end.
Definition sort_by {A} (key : A → OutPoint) (l : list A) : list A := foldr (insert_by key) [] l.

(** [leaves.push(last)] when the number of leaves is odd. *)
Definition pad_odd (leaves : list Hash) : list Hash :=
  if Nat.odd (length leaves)
  then leaves ++ match last leaves with Some h => [h] | None => [] end
  else leaves.

Section merkle.
Context {B3 : Blake3}.

Definition compute_utxo_leaf (o : OutPoint) (out : TxOut) : Hash :=
  blake3 (String.list_byte_of_string "SCYTALE_UTXO_LEAF_V1" ++
          hash_bytes (op_txid o) ++ le_bytes 4 (op_index o) ++
          le_bytes 8 (value out) ++ locking_condition out).

Definition merkle_node (l r : Hash) : Hash := blake3 (hash_bytes l ++ hash_bytes r).

(** [chunks_exact(2)], each hashed. *)
Fixpoint pair_level (leaves : list Hash) : list Hash :=
  match leaves with
  | a :: b :: rest => merkle_node a b :: pair_level rest
  | _ => []
  end.

(** The [while leaves.len() > 1] loop. *)
Fixpoint merkle_loop {E} (fuel : nat) (leaves : list Hash) : outcome E Hash :=
  match fuel with
  | O => Diverge
  | S fuel =>
      if (1 <? length leaves)%nat then merkle_loop fuel (pair_level (pad_odd leaves))
      else expect (head leaves)
  end.

Definition compute_utxo_merkle_root {E} (leaves : list Hash) : outcome E Hash :=
  if bool_decide (leaves = []) then Ok ZERO else merkle_loop (length leaves) leaves.

(** [UtxoSet::compute_utxo_root], over the entries in iteration order. *)
Definition utxo_root_of {E} (entries : list (OutPoint * UtxoEntry)) : outcome E Hash :=
  compute_utxo_merkle_root
    ((λ p, compute_utxo_leaf p.1 (output p.2)) <$> sort_by fst entries).
Definition compute_utxo_root {E} (s : UtxoSet) : outcome E Hash := utxo_root_of (map_to_list s).

Definition to_entries_with_outpoints (s : UtxoSet) : list UtxoEntryWithOutpoint :=
  (λ p, mkUtxoEntryWithOutpoint p.1 p.2) <$> map_to_list s.

(** The loop of [generate_utxo_merkle_proof]. *)
Fixpoint audit_loop (fuel : nat) (leaves : list Hash) (idx : N) :
    outcome CoreError (list (Hash * bool)) :=
  match fuel with
  | O => Diverge
  | S fuel =>
      if (1 <? length leaves)%nat then
        let padded := pad_odd leaves in
        let is_right_sibling := idx mod 2 =? 0 in
        let sibling_idx := if is_right_sibling then idx + 1 else idx - 1 in
        let? sibling := expect (padded !! N.to_nat sibling_idx) in
        let? rest := audit_loop fuel (pair_level padded) (idx / 2) in
        Ok ((sibling, is_right_sibling) :: rest)
      else Ok []
  end.

Fixpoint position {A} (p : A → bool) (l : list A) : option nat :=
  match l with
  | [] => None
  | x :: l => if p x then Some O else S <$> position p l
  end.

Definition generate_utxo_merkle_proof (utxos : list UtxoEntryWithOutpoint)
    (target_outpoint : OutPoint) : outcome CoreError UtxoMerkleProof :=
  if bool_decide (utxos = []) then Err (CoreUtxo (MissingUtxo target_outpoint))
  else
    let sorted := sort_by outpoint utxos in
    let? target_idx :=
      ok_or (position (λ item, bool_decide (outpoint item = target_outpoint)) sorted)
        (CoreUtxo (MissingUtxo target_outpoint)) in
    let? target_item := expect (sorted !! target_idx) in
    let leaves := (λ item, compute_utxo_leaf (outpoint item) (output (entry item))) <$> sorted in
    let? target_leaf_hash := expect (leaves !! target_idx) in
    let? path := audit_loop (length leaves) leaves (N.of_nat target_idx) in
    Ok (mkUtxoMerkleProof target_outpoint (value (output (entry target_item)))
          (locking_condition (output (entry target_item))) target_leaf_hash path
          (N.of_nat target_idx)).

Definition generate_merkle_proof (s : UtxoSet) (target_outpoint : OutPoint) :
    outcome CoreError UtxoMerkleProof :=
  generate_utxo_merkle_proof (to_entries_with_outpoints s) target_outpoint.

Definition fold_path (path : list (Hash * bool)) (h : Hash) : Hash :=
  foldl (λ current p, let '(sibling, is_right_sibling) := p in
           if (is_right_sibling : bool) then merkle_node current sibling
           else merkle_node sibling current) h path.

(** [UtxoMerkleProof::verify]. *)
Definition merkle_verify (p : UtxoMerkleProof) (expected_root : Hash) : bool :=
  if negb (bool_decide (proof_locking_condition p = [])) &&
     negb (bool_decide (compute_utxo_leaf (proof_outpoint p)
                          (mkTxOut (value_quanta p) (proof_locking_condition p)) = leaf_hash p))
  then false
  else bool_decide (fold_path (audit_path p) (leaf_hash p) = expected_root).
End merkle.

(** ** The order of outpoints and the sort *)

Lemma outpoint_leb_spec a b :
  outpoint_leb a b = true ↔
  be_val (hash_bytes (op_txid a)) < be_val (hash_bytes (op_txid b)) ∨
  be_val (hash_bytes (op_txid a)) = be_val (hash_bytes (op_txid b)) ∧ op_index a ≤ op_index b.
Proof.
  unfold outpoint_leb, outpoint_cmp, hash_cmp.
  rewrite bytes_cmp_be_val by by rewrite !hash_length.
  destruct (N.compare_spec (be_val (hash_bytes (op_txid a))) (be_val (hash_bytes (op_txid b))));
    [|by split; [left|]|split; [done|lia]].
  destruct (N.compare_spec (op_index a) (op_index b)); split; try done; lia.
Qed.

Lemma outpoint_leb_antisym a b : outpoint_leb a b = true → outpoint_leb b a = true → a = b.
Proof.
  rewrite !outpoint_leb_spec. intros H1 H2.
  assert (be_val (hash_bytes (op_txid a)) = be_val (hash_bytes (op_txid b))) as Eh by lia.
  apply be_val_inj, hash_eq in Eh; [|by rewrite !hash_length].
  destruct a, b; simpl in *. f_equal; [done|lia].
Qed.

Lemma outpoint_leb_total a b : outpoint_leb a b = false → outpoint_leb b a = true.
Proof. rewrite <- not_true_iff_false, !outpoint_leb_spec. lia. Qed.

Lemma outpoint_leb_trans a b c :
  outpoint_leb a b = true → outpoint_leb b c = true → outpoint_leb a c = true.
Proof. rewrite !outpoint_leb_spec. lia. Qed.

Section sort.
Context {A : Type} (key : A → OutPoint).

Lemma insert_by_perm x l : insert_by key x l ≡ₚ x :: l.
Proof.
  induction l as [|y l IH]; simpl; [done|]. destruct (outpoint_leb _ _); [done|].
  rewrite IH. apply Permutation_swap.
Qed.

Lemma sort_by_perm l : sort_by key l ≡ₚ l.
Proof. induction l as [|x l IH]; simpl; [done|]. by rewrite insert_by_perm, IH. Qed.

Lemma insert_by_comm x y l :
  key x ≠ key y → insert_by key x (insert_by key y l) = insert_by key y (insert_by key x l).
Proof.
  intros Hne. assert (Hxy : outpoint_leb (key x) (key y) = true → outpoint_leb (key y) (key x) = true → False)
    by eauto using outpoint_leb_antisym.
  induction l as [|z l IH]; cbn [insert_by];
    [|destruct (outpoint_leb (key y) (key z)) eqn:Hyz, (outpoint_leb (key x) (key z)) eqn:Hxz;
      cbn [insert_by]; rewrite ?Hyz, ?Hxz];
    destruct (outpoint_leb (key x) (key y)) eqn:Exy, (outpoint_leb (key y) (key x)) eqn:Eyx;
    try done; try (exfalso; eauto; fail);
    try (apply outpoint_leb_total in Exy; congruence);
    try (pose proof (outpoint_leb_trans _ _ _ Exy Hyz); congruence);
    try (pose proof (outpoint_leb_trans _ _ _ Eyx Hxz); congruence);
    by rewrite IH.
Qed.

(** The sorted slice does not depend on the order the elements come in. *)
Lemma sort_by_unique l1 l2 :
  l1 ≡ₚ l2 → NoDup (key <$> l1) → sort_by key l1 = sort_by key l2.
Proof.
  induction 1 as [|x l1 l2 Hp IH|x y l|l1 l2 l3 H1 IH1 H2 IH2]; intros Hnd.
  - done.
  - apply NoDup_cons in Hnd as [_ Hnd]. simpl. by rewrite IH.
  - apply NoDup_cons in Hnd as [Hn _]. simpl. apply insert_by_comm. set_solver.
  - rewrite IH1 by done. apply IH2. by rewrite <- H1.
Qed.
End sort.

Lemma sort_by_fmap {A B} (f : A → B) (kb : B → OutPoint) l :
  sort_by kb (f <$> l) = f <$> sort_by (kb ∘ f) l.
Proof.
  assert (Hi : ∀ x l, insert_by kb (f x) (f <$> l) = f <$> insert_by (kb ∘ f) x l).
  { clear l. intros x l. induction l as [|y l IH]; [done|].
    rewrite fmap_cons. cbn [insert_by compose]. destruct (outpoint_leb _ _); [done|].
    by rewrite fmap_cons, IH. }
  unfold sort_by. induction l as [|x l IH]; [done|]. rewrite !fmap_cons. cbn [foldr].
  by rewrite IH, Hi.
Qed.

(** ** Levels of the tree *)

Lemma length_pad_odd l : length (pad_odd l) = (2 * ((length l + 1) / 2))%nat.
Proof.
  unfold pad_odd. destruct (Nat.odd (length l)) eqn:Ho.
  - apply Nat.odd_spec in Ho as [m Hm].
    assert (is_Some (last l)) as [h ->] by (apply last_is_Some; intros ->; simpl in Hm; lia).
    rewrite length_app, Hm. simpl length. replace (2 * m + 1 + 1)%nat with ((m + 1) * 2)%nat by lia.
    rewrite Nat.div_mul; lia.
  - rewrite <- Nat.negb_even in Ho. apply negb_false_iff, Nat.even_spec in Ho as [m Hm].
    rewrite Hm. replace (2 * m + 1)%nat with (1 + m * 2)%nat by lia.
    rewrite Nat.div_add by lia. simpl. lia.
Qed.

Lemma pad_odd_elem l h : h ∈ pad_odd l → h ∈ l.
Proof.
  unfold pad_odd. destruct (Nat.odd _); [|done]. intros [?|H]%elem_of_app; [done|].
  destruct (last l) as [h'|] eqn:E; [|by apply not_elem_of_nil in H].
  apply list_elem_of_singleton in H as ->. by apply last_Some_elem_of.
Qed.

Lemma pad_odd_lookup l i h : l !! i = Some h → pad_odd l !! i = Some h.
Proof. unfold pad_odd. intros. destruct (Nat.odd _); [by apply lookup_app_l_Some|done]. Qed.

Lemma list_pair_ind {A} (P : list A → Prop) :
  P [] → (∀ x, P [x]) → (∀ x y l, P l → P (x :: y :: l)) → ∀ l, P l.
Proof.
  intros H0 H1 H2. fix IH 1. intros [|x [|y l]]; [done|apply H1|apply H2, IH].
Qed.

Section levels.
Context {B3 : Blake3}.

Lemma length_pair_level l : length (pair_level l) = (length l / 2)%nat.
Proof.
  induction l as [|x|x y l IH] using list_pair_ind; [done..|].
  cbn [pair_level length]. rewrite IH.
  replace (S (S (length l))) with (length l + 1 * 2)%nat by lia.
  rewrite Nat.div_add by lia. lia.
Qed.

Lemma pair_level_lookup l i a b :
  l !! (2 * i)%nat = Some a → l !! (2 * i + 1)%nat = Some b →
  pair_level l !! i = Some (merkle_node a b).
Proof.
  revert i; induction l as [|x|x y l IH] using list_pair_ind; intros i.
  - done.
  - destruct i; simpl; [done|]. by rewrite lookup_nil.
  - destruct i as [|i]; cbn [pair_level]; [by intros [= ->] [= ->]|].
    replace (2 * S i + 1)%nat with (S (S (2 * i + 1))) by lia.
    replace (2 * S i)%nat with (S (S (2 * i))) by lia. simpl. apply IH.
Qed.

(** The preimages hashed to make one level from the level below. *)
Fixpoint level_preimages (leaves : list Hash) : list (list byte) :=
  match leaves with
  | a :: b :: rest => (hash_bytes a ++ hash_bytes b) :: level_preimages rest
  | _ => []
  end.

Lemma pair_level_elem l h :
  h ∈ pair_level l →
  ∃ a b, a ∈ l ∧ b ∈ l ∧ h = merkle_node a b ∧ hash_bytes a ++ hash_bytes b ∈ level_preimages l.
Proof.
  induction l as [|x|x y l IH] using list_pair_ind; cbn [pair_level level_preimages].
  1-2: by intros ?%not_elem_of_nil.
  intros [->|(a & b & ? & ? & ? & ?)%IH]%elem_of_cons.
  - exists x, y. set_solver.
  - exists a, b. set_solver.
Qed.

Lemma next_level_shorter l :
  (1 < length l)%nat → (0 < length (pair_level (pad_odd l)) < length l)%nat.
Proof.
  intros Hl. rewrite length_pair_level, length_pad_odd, Nat.mul_comm, Nat.div_mul by lia.
  split; [apply Nat.div_str_pos; lia|apply Nat.div_lt_upper_bound; lia].
Qed.

Lemma merkle_loop_total {E} fuel l :
  l ≠ [] → (length l ≤ fuel)%nat → ∃ r, merkle_loop (E := E) fuel l = Ok r.
Proof.
  revert l; induction fuel as [|fuel IH]; intros l Hne Hl.
  - destruct l; [done|simpl in Hl; lia].
  - cbn [merkle_loop]. destruct (Nat.ltb_spec 1 (length l)) as [Hlt|Hge].
    + pose proof (next_level_shorter l Hlt) as [H0 H1].
      apply IH; [|lia]. intros E'. rewrite E' in H0. simpl in H0. lia.
    + destruct l as [|h l]; [done|]. by exists h.
Qed.

(** The audit path leads from its leaf to the root. *)
Lemma audit_loop_correct {E} fuel l i h :
  l !! i = Some h → (length l ≤ fuel)%nat →
  ∃ path r, audit_loop fuel l (N.of_nat i) = Ok path ∧ merkle_loop (E := E) fuel l = Ok r ∧
    fold_path path h = r.
Proof.
  revert l i h; induction fuel as [|fuel IH]; intros l i h Hi Hl.
  - apply lookup_lt_Some in Hi. lia.
  - cbn [merkle_loop audit_loop]. apply lookup_lt_Some in Hi as Hlt.
    destruct (Nat.ltb_spec 1 (length l)) as [H1|H1].
    2:{ exists [], h. destruct l as [|h' [|]]; simpl in *; try lia.
        destruct i; [by simplify_eq/=|lia]. }
    pose proof (next_level_shorter l H1) as [H2 H3].
    pose proof (length_pad_odd l) as Hpad. apply pad_odd_lookup in Hi as Hp.
    destruct (Nat.Even_or_Odd i) as [[j Hj]|[j Hj]]; subst i.
    + assert (is_Some (pad_odd l !! (2 * j + 1)%nat)) as [s Hs].
      { apply lookup_lt_is_Some. rewrite Hpad. apply lookup_lt_Some in Hp. lia. }
      destruct (IH _ _ _ (pair_level_lookup _ _ _ _ Hp Hs)) as (path & r & EA & EM & EF); [lia|].
      exists ((s, true) :: path), r. 
      replace (N.of_nat (2 * j) mod 2) with 0 by (rewrite Nat2N.inj_mul, N.mul_comm, N.Div0.mod_mul; done).
      replace (N.of_nat (2 * j) / 2) with (N.of_nat j) by (rewrite Nat2N.inj_mul, N.mul_comm, N.div_mul; done).
      change (0 =? 0) with true. cbv iota. replace (N.to_nat (N.of_nat (2 * j) + 1)) with (2 * j + 1)%nat by lia.
      rewrite Hs. cbn [expect obind]. rewrite EA. done.
    + assert (is_Some (pad_odd l !! (2 * j)%nat)) as [s Hs].
      { apply lookup_lt_is_Some. apply lookup_lt_Some in Hp. lia. }
      destruct (IH _ _ _ (pair_level_lookup _ _ _ _ Hs Hp)) as (path & r & EA & EM & EF); [lia|].
      exists ((s, false) :: path), r.
      replace (N.of_nat (2 * j + 1)) with (1 + N.of_nat j * 2) by lia.
      rewrite N.Div0.mod_add, N.div_add by done. change (1 mod 2 =? 0) with false. cbv iota.
      replace (N.to_nat (1 + N.of_nat j * 2 - 1)) with (2 * j)%nat by lia.
      rewrite Hs. cbn [expect obind]. change (1 / 2 + N.of_nat j) with (N.of_nat j). rewrite EA. done.
Qed.
End levels.

(** ** Proof generation *)

Lemma position_Some {A} (p : A → bool) l i :
  position p l = Some i → ∃ x, l !! i = Some x ∧ p x = true.
Proof.
  revert i; induction l as [|x l IH]; intros i; simpl; [done|].
  destruct (p x) eqn:E; [intros [= <-]; by exists x|].
  intros (j & Hj & ->)%fmap_Some. simpl. by apply IH.
Qed.

Lemma position_None {A} (p : A → bool) l : position p l = None → Forall (λ x, p x = false) l.
Proof.
  induction l as [|x l IH]; simpl; [constructor|]. destruct (p x) eqn:E; [done|].
  intros H%fmap_None. constructor; auto.
Qed.

Section proofs.
Context {B3 : Blake3}.

Definition set_leaves (s : UtxoSet) : list Hash :=
  (λ p, compute_utxo_leaf p.1 (output p.2)) <$> sort_by fst (map_to_list s).

Lemma set_leaves_order s entries :
  entries ≡ₚ map_to_list s →
  (λ p, compute_utxo_leaf p.1 (output p.2)) <$> sort_by fst entries = set_leaves s.
Proof.
  intros Hp. unfold set_leaves. f_equal. apply sort_by_unique; [done|].
  rewrite Hp. apply NoDup_fst_map_to_list.
Qed.

Lemma set_leaves_nil s : set_leaves s = [] ↔ s = ∅.
Proof.
  unfold set_leaves. rewrite <- map_to_list_empty_iff. split.
  - intros H%fmap_nil_inv. pose proof (sort_by_perm fst (map_to_list s)) as P.
    rewrite H in P. by apply Permutation_nil.
  - by intros ->.
Qed.

Lemma sorted_entries s utxos :
  utxos ≡ₚ to_entries_with_outpoints s →
  ∃ es, es ≡ₚ map_to_list s ∧
    utxos = (λ p, mkUtxoEntryWithOutpoint p.1 p.2) <$> es.
Proof.
  unfold to_entries_with_outpoints. intros Hp.
  apply Permutation_map_inv in Hp as (es & -> & Hes). by exists es.
Qed.

Lemma generate_complete {E} s utxos o e :
  utxos ≡ₚ to_entries_with_outpoints s → s !! o = Some e →
  ∃ p root, generate_utxo_merkle_proof utxos o = Ok p ∧
    compute_utxo_root (E := E) s = Ok root ∧ merkle_verify p root = true ∧
    proof_outpoint p = o ∧
    mkTxOut (value_quanta p) (proof_locking_condition p) = output e.
Proof.
  intros (es & Hes & ->)%sorted_entries He. unfold generate_utxo_merkle_proof.
  assert (Hin : (o, e) ∈ es) by (rewrite Hes; by apply elem_of_map_to_list).
  case_bool_decide as Hn; [apply fmap_nil_inv in Hn as ->; by apply not_elem_of_nil in Hin|].
  rewrite sort_by_fmap, <- list_fmap_compose. change (outpoint ∘ _) with (@fst OutPoint UtxoEntry).
  set (srt := sort_by fst es).
  assert (Hsrt : srt ≡ₚ es) by apply sort_by_perm.
  destruct (position _ _) as [i|] eqn:Hpos; cbn [ok_or obind].
  2:{ apply position_None in Hpos. rewrite Forall_fmap, Forall_forall in Hpos.
      rewrite <- Hsrt in Hin. apply Hpos in Hin. simpl in Hin. by rewrite bool_decide_eq_true_2 in Hin. }
  apply position_Some in Hpos as (x & Hx & Ho%bool_decide_eq_true).
  apply list_lookup_fmap_Some in Hx as ([o' e'] & -> & Hx). simpl in Ho. subst o'.
  assert (e' = e) as ->.
  { apply list_elem_of_lookup_2 in Hx. rewrite Hsrt, Hes in Hx.
    apply elem_of_map_to_list in Hx. congruence. }
  rewrite list_lookup_fmap, Hx. cbn [fmap option_fmap option_map expect obind].
  assert (EL : (λ p : OutPoint * UtxoEntry, compute_utxo_leaf p.1 (output p.2)) <$> srt = set_leaves s)
    by (by apply set_leaves_order).
  change ((λ item, _) ∘ (λ p, _)) with (λ p : OutPoint * UtxoEntry, compute_utxo_leaf p.1 (output p.2)).
  rewrite EL. assert (Hl : set_leaves s !! i = Some (compute_utxo_leaf o (output e)))
    by (rewrite <- EL, list_lookup_fmap, Hx; done).
  rewrite Hl. cbn [expect obind].
  destruct (audit_loop_correct (E := E) (length (set_leaves s)) _ _ _ Hl) as (path & r & EA & EM & EF);
    [done|].
  rewrite EA. cbn [obind]. eexists _, r. split; [done|]. split.
  { unfold compute_utxo_root, utxo_root_of, compute_utxo_merkle_root.
    change (_ <$> sort_by fst (map_to_list s)) with (set_leaves s).
    rewrite bool_decide_eq_false_2; [done|]. intros E0. by rewrite E0 in Hl. }
  split; [|split; [done|simpl; by destruct (output e)]].
  unfold merkle_verify. cbn [proof_locking_condition proof_outpoint value_quanta leaf_hash audit_path].
  rewrite (bool_decide_eq_true_2 (compute_utxo_leaf _ _ = _)) by (simpl; by destruct (output e)).
  rewrite andb_false_r. by apply bool_decide_eq_true_2.
Qed.

Lemma generate_missing s utxos o :
  utxos ≡ₚ to_entries_with_outpoints s → s !! o = None →
  generate_utxo_merkle_proof utxos o = Err (CoreUtxo (MissingUtxo o)).
Proof.
  intros (es & Hes & ->)%sorted_entries He. unfold generate_utxo_merkle_proof.
  case_bool_decide; [done|]. destruct (position _ _) as [i|] eqn:Hpos; [|done].
  apply position_Some in Hpos as (x & Hx%list_elem_of_lookup_2 & Ho%bool_decide_eq_true).
  rewrite sort_by_perm in Hx. apply list_elem_of_fmap in Hx as ([o' e'] & -> & Hx).
  rewrite Hes in Hx. apply elem_of_map_to_list in Hx. simpl in Ho. congruence.
Qed.

(** ** What a verified proof shows *)

Definition leaf_preimage (o : OutPoint) (out : TxOut) : list byte :=
  String.list_byte_of_string "SCYTALE_UTXO_LEAF_V1" ++
  hash_bytes (op_txid o) ++ le_bytes 4 (op_index o) ++
  le_bytes 8 (value out) ++ locking_condition out.

Lemma leaf_preimage_inj o1 out1 o2 out2 :
  outpoint_wf o1 → outpoint_wf o2 → txout_wf out1 → txout_wf out2 →
  leaf_preimage o1 out1 = leaf_preimage o2 out2 → o1 = o2 ∧ out1 = out2.
Proof.
  intros W1 W2 W3 W4 H%app_inv_head.
  apply app_inj_1 in H as [Hh H]; [|by rewrite !hash_length].
  apply le_field_inj in H as [Hi H]; [|done..]. apply le_field_inj in H as [Hv Hl]; [|done..].
  apply hash_eq in Hh. destruct o1, o2, out1, out2; simpl in *; by simplify_eq.
Qed.

Lemma length_leaf_preimage o out :
  length (leaf_preimage o out) = (64 + length (locking_condition out))%nat.
Proof.
  unfold leaf_preimage. rewrite !length_app, hash_length, !length_le_bytes.
  change (length (String.list_byte_of_string "SCYTALE_UTXO_LEAF_V1")) with 20%nat. lia.
Qed.

(** What computing the root of [leaves] hashes, above the leaves. *)
Fixpoint tree_preimages (fuel : nat) (leaves : list Hash) : list (list byte) :=
  match fuel with
  | O => []
  | S fuel =>
      if (1 <? length leaves)%nat then
        level_preimages (pad_odd leaves) ++ tree_preimages fuel (pair_level (pad_odd leaves))
      else []
  end.

(** What computing the root of [s] hashes. *)
Definition root_preimages (s : UtxoSet) : list (list byte) :=
  ((λ p, leaf_preimage p.1 (output p.2)) <$> map_to_list s) ++
  tree_preimages (length (set_leaves s)) (set_leaves s).

(** What verifying [p] hashes. *)
Definition step_preimage (current : Hash) (p : Hash * bool) : list byte :=
  if p.2 then hash_bytes current ++ hash_bytes p.1 else hash_bytes p.1 ++ hash_bytes current.
Fixpoint path_preimages (path : list (Hash * bool)) (h : Hash) : list (list byte) :=
  match path with
  | [] => []
  | p :: path => step_preimage h p :: path_preimages path (blake3 (step_preimage h p))
  end.
Definition proof_preimages (p : UtxoMerkleProof) : list (list byte) :=
  leaf_preimage (proof_outpoint p) (mkTxOut (value_quanta p) (proof_locking_condition p))
  :: path_preimages (audit_path p) (leaf_hash p).

(** BLAKE3 does not collide on [l1] and [l2]. *)
Definition no_collision (l1 l2 : list (list byte)) : Prop :=
  ∀ b1 b2, b1 ∈ l1 → b2 ∈ l2 → blake3 b1 = blake3 b2 → b1 = b2.
End proofs.

Lemma merkle_root_total {B3 : Blake3} {E} (leaves : list Hash) :
  ∃ r, compute_utxo_merkle_root (E := E) leaves = Ok r.
Proof. unfold compute_utxo_merkle_root. case_bool_decide as Hn; [by eexists|]. by apply merkle_loop_total. Qed.

Lemma compute_utxo_root_total {B3 : Blake3} {E} s : ∃ r, compute_utxo_root (E := E) s = Ok r.
Proof.
  apply merkle_root_total.
Qed.

Section soundness.
Context {B3 : Blake3}.

Lemma fold_path_app p1 p2 h : fold_path (p1 ++ p2) h = fold_path p2 (fold_path p1 h).
Proof. unfold fold_path. by rewrite foldl_app. Qed.

Lemma fold_step h p : fold_path [p] h = blake3 (step_preimage h p).
Proof. destruct p as [s []]; done. Qed.

Lemma path_preimages_app p1 p2 h :
  path_preimages (p1 ++ p2) h = path_preimages p1 h ++ path_preimages p2 (fold_path p1 h).
Proof.
  revert h; induction p1 as [|p p1 IH]; intros h; [done|].
  cbn [app path_preimages]. rewrite IH. by rewrite <- fold_step.
Qed.

Lemma length_step_preimage h p : length (step_preimage h p) = 64%nat.
Proof. unfold step_preimage. by destruct (p.2); rewrite length_app, !hash_length. Qed.

Lemma step_preimage_elem h p a b :
  step_preimage h p = hash_bytes a ++ hash_bytes b → h = a ∨ h = b.
Proof.
  unfold step_preimage. destruct (p.2); intros [E1 E2]%app_inj_1; try (by rewrite !hash_length).
  - left. by apply hash_eq.
  - right. by apply hash_eq.
Qed.

Lemma level_preimages_length l b : b ∈ level_preimages l → length b = 64%nat.
Proof.
  induction l as [|x|x y l IH] using list_pair_ind; cbn [level_preimages].
  1-2: by intros ?%not_elem_of_nil.
  intros [->|?]%elem_of_cons; [by rewrite length_app, !hash_length|auto].
Qed.

(** A path that leads to the root of [l] passes through an element of [l], or
    starts at a node above [l]. *)
Lemma path_through fuel l path h r :
  merkle_loop (E := UtxoError) fuel l = Ok r → fold_path path h = r →
  no_collision (path_preimages path h) (tree_preimages fuel l) →
  (∃ p1 p2, path = p1 ++ p2 ∧ fold_path p1 h ∈ l) ∨
  (∃ b, b ∈ tree_preimages fuel l ∧ length b = 64%nat ∧ h = blake3 b).
Proof.
  revert l; induction fuel as [|fuel IH]; intros l HM HF HC; [done|].
  cbn [merkle_loop tree_preimages] in *. destruct (Nat.ltb_spec 1 (length l)) as [Hl|Hl].
  2:{ left. exists path, []. rewrite app_nil_r. split; [done|]. rewrite HF.
      apply expect_Ok, head_Some_elem_of in HM. done. }
  destruct (IH _ HM HF) as [(p1 & p2 & -> & Hin)|(b & Hb & Hlen & ->)].
  - intros b1 b2 H1 H2. apply HC; set_solver.
  - apply pair_level_elem in Hin as (a & b & Ha%pad_odd_elem & Hb%pad_odd_elem & Hn & Hpre).
    destruct p1 as [|p p1 _] using rev_ind.
    + right. exists (hash_bytes a ++ hash_bytes b). split; [set_solver|].
      split; [by rewrite length_app, !hash_length|done].
    + left. exists p1, (p :: p2). rewrite <- app_assoc. split; [done|].
      rewrite fold_path_app, fold_step in Hn.
      apply HC in Hn; [| |apply elem_of_app; by left].
      * apply step_preimage_elem in Hn as [-> | ->]; done.
      * rewrite !path_preimages_app, elem_of_app. left. rewrite elem_of_app. right.
        cbn [path_preimages]. apply list_elem_of_here.
  - right. exists b. set_solver.
Qed.

Lemma verify_sound s p root :
  compute_utxo_root (E := UtxoError) s = Ok root → s ≠ ∅ →
  map_Forall (λ o e, outpoint_wf o ∧ txout_wf (output e) ∧ locking_condition (output e) ≠ []) s →
  outpoint_wf (proof_outpoint p) → value_quanta p < MOD64 → proof_locking_condition p ≠ [] →
  no_collision (proof_preimages p) (root_preimages s) →
  merkle_verify p root = true →
  ∃ e, s !! proof_outpoint p = Some e ∧
    output e = mkTxOut (value_quanta p) (proof_locking_condition p).
Proof.
  intros HR Hne Hwf Wo Wv Hlock HC HV.
  unfold compute_utxo_root, utxo_root_of, compute_utxo_merkle_root in HR.
  change (_ <$> sort_by fst (map_to_list s)) with (set_leaves s) in HR.
  rewrite bool_decide_eq_false_2 in HR by (by rewrite set_leaves_nil).
  unfold merkle_verify in HV. rewrite (bool_decide_eq_false_2 (_ = [])) in HV by done.
  destruct (bool_decide (compute_utxo_leaf _ _ = _)) eqn:HL; [|done]. simpl in HV.
  apply bool_decide_eq_true in HL, HV. unfold proof_preimages, root_preimages in HC.
  set (out := mkTxOut (value_quanta p) (proof_locking_condition p)) in *.
  assert (Hpos : (0 < length (locking_condition out))%nat)
    by (subst out; simpl; destruct (proof_locking_condition p); simpl; [done|lia]).
  assert (Hleaf : ∀ b, b ∈ (λ q, leaf_preimage q.1 (output q.2)) <$> map_to_list s →
            ∃ o e, s !! o = Some e ∧ b = leaf_preimage o (output e)).
  { intros b ([o e] & -> & He%elem_of_map_to_list)%list_elem_of_fmap. by exists o, e. }
  destruct (path_through _ _ _ _ _ HR HV) as [(p1 & p2 & Hp & Hin)|(b & Hb & Hlen & Hh)].
  - intros b1 b2 H1 H2. apply HC; [by apply list_elem_of_further|apply elem_of_app; by right].
  - unfold set_leaves in Hin. rewrite sort_by_perm in Hin.
    apply list_elem_of_fmap in Hin as ([o e] & Hh & He). cbn [fst snd] in Hh.
    assert (Hpre : leaf_preimage o (output e) ∈ (λ q, leaf_preimage q.1 (output q.2)) <$> map_to_list s)
      by (apply list_elem_of_fmap; by exists (o, e)).
    apply elem_of_map_to_list in He. destruct (Hwf _ _ He) as (W1 & W2 & W3).
    destruct p1 as [|q p1 _] using rev_ind.
    + simpl in Hh. rewrite <- HL in Hh.
      apply HC in Hh; [|apply list_elem_of_here|apply elem_of_app; by left].
      apply leaf_preimage_inj in Hh as [<- E]; [|done..]. by exists e.
    + exfalso. rewrite fold_path_app, fold_step in Hh.
      assert (E : step_preimage (fold_path p1 (leaf_hash p)) q = leaf_preimage o (output e)).
      { apply HC; [|apply elem_of_app; by left|done].
        apply list_elem_of_further. rewrite Hp, !path_preimages_app, elem_of_app. left.
        rewrite elem_of_app. right. apply list_elem_of_here. }
      apply (f_equal length) in E. rewrite length_step_preimage, length_leaf_preimage in E.
      destruct (locking_condition (output e)); simpl in E; [done|lia].
  - exfalso. rewrite <- HL in Hh.
    apply HC in Hh; [|apply list_elem_of_here|apply elem_of_app; by right].
    apply (f_equal length) in Hh. change (length (leaf_preimage (proof_outpoint p) out) = length b) in Hh.
    rewrite length_leaf_preimage in Hh. lia.
Qed.
End soundness.

(** ** Properties *)

Section merkle_properties.
Context {B3 : Blake3}.

(** The UTXO root is a function of the set: it is computed, for every set, and
    whatever the order the hash map iterates its entries in. *)
Theorem utxo_root_deterministic (s : UtxoSet) (entries : list (OutPoint * UtxoEntry))
    (Hp : entries ≡ₚ map_to_list s) :
  ∃ root, utxo_root_of (E := UtxoError) entries = Ok root ∧
          compute_utxo_root (E := UtxoError) s = Ok root.
Proof.
  unfold compute_utxo_root, utxo_root_of. rewrite !(set_leaves_order s) by done.
  unfold compute_utxo_merkle_root. case_bool_decide as Hn; [by eexists|].
  destruct (merkle_loop_total (E := UtxoError) _ _ Hn (Nat.le_refl _)) as [r Hr]. by exists r.
Qed.

(** A proof is generated for an outpoint exactly when it is in the set, from
    the entries in any order; it carries the outpoint's output and verifies
    against the set's root. *)
Theorem merkle_proof_complete (s : UtxoSet) (o : OutPoint) (utxos : list UtxoEntryWithOutpoint)
    (Hp : utxos ≡ₚ to_entries_with_outpoints s) :
  match s !! o with
  | Some e => ∃ p root, generate_utxo_merkle_proof utxos o = Ok p ∧
      compute_utxo_root (E := UtxoError) s = Ok root ∧ merkle_verify p root = true ∧
      proof_outpoint p = o ∧ mkTxOut (value_quanta p) (proof_locking_condition p) = output e
  | None => generate_utxo_merkle_proof utxos o = Err (CoreUtxo (MissingUtxo o))
  end.
Proof.
  destruct (s !! o) as [e|] eqn:He; [by apply (generate_complete s)|by apply (generate_missing s)].
Qed.

(** A proof with a locking condition that verifies against the root of a
    non-empty set without empty locking conditions is for an output of the
    set, provided BLAKE3 does not collide between the strings hashed to
    verify the proof and the strings hashed to compute the root. *)
Theorem merkle_proof_sound (s : UtxoSet) (p : UtxoMerkleProof) (root : Hash)
    (HR : compute_utxo_root (E := UtxoError) s = Ok root) (Hne : s ≠ ∅)
    (Hwf : map_Forall (λ o e, outpoint_wf o ∧ txout_wf (output e) ∧ locking_condition (output e) ≠ []) s)
    (Wo : outpoint_wf (proof_outpoint p)) (Wv : value_quanta p < MOD64)
    (Hlock : proof_locking_condition p ≠ [])
    (HC : no_collision (proof_preimages p) (root_preimages s))
    (HV : merkle_verify p root = true) :
  ∃ e, s !! proof_outpoint p = Some e ∧
    output e = mkTxOut (value_quanta p) (proof_locking_condition p).
Proof. by eapply verify_sound. Qed.

(** With an empty locking condition the leaf is not checked against the
    outpoint and the value: against any root, a proof verifies for every
    outpoint and every value. *)
Theorem merkle_proof_empty_lock (root : Hash) (o : OutPoint) (v : N) :
  ∃ p, proof_outpoint p = o ∧ value_quanta p = v ∧ proof_locking_condition p = [] ∧
    merkle_verify p root = true.
Proof.
  exists (mkUtxoMerkleProof o v [] root [] 0). repeat split.
  unfold merkle_verify. simpl. by apply bool_decide_eq_true_2.
Qed.
End merkle_properties.

(** ** Witnesses *)

Definition toy_entry (v : N) : UtxoEntry := mkUtxoEntry (mkTxOut v [x51]) 1 false.
Definition toy_utxos : UtxoSet :=
  {[ mkOutPoint ZERO 0 := toy_entry 10; mkOutPoint ZERO 1 := toy_entry 20;
     mkOutPoint ZERO 2 := toy_entry 30 ]}.
Definition toy_root : Hash :=
  match compute_utxo_root (B3 := toy_blake3) (E := UtxoError) toy_utxos with Ok r => r | _ => ZERO end.
Definition toy_proof : UtxoMerkleProof :=
  match generate_merkle_proof (B3 := toy_blake3) toy_utxos (mkOutPoint ZERO 2) with
  | Ok p => p
  | _ => mkUtxoMerkleProof (mkOutPoint ZERO 9) 0 [] ZERO [] 0
  end.

Lemma utxo_root_deterministic_witness :
  ∃ root, utxo_root_of (B3 := toy_blake3) (E := UtxoError) (reverse (map_to_list toy_utxos)) = Ok root ∧
          compute_utxo_root (B3 := toy_blake3) (E := UtxoError) toy_utxos = Ok root.
Proof.
  apply (utxo_root_deterministic (B3 := toy_blake3) toy_utxos). apply reverse_Permutation.
Defined.

Lemma merkle_proof_complete_witness :
  ∃ p root, generate_utxo_merkle_proof (B3 := toy_blake3)
              (reverse (to_entries_with_outpoints toy_utxos)) (mkOutPoint ZERO 1) = Ok p ∧
    compute_utxo_root (B3 := toy_blake3) (E := UtxoError) toy_utxos = Ok root ∧
    merkle_verify (B3 := toy_blake3) p root = true ∧ proof_outpoint p = mkOutPoint ZERO 1 ∧
    mkTxOut (value_quanta p) (proof_locking_condition p) = mkTxOut 20 [x51].
Proof.
  apply (merkle_proof_complete (B3 := toy_blake3) toy_utxos (mkOutPoint ZERO 1)).
  apply reverse_Permutation.
Defined.

Lemma no_collision_check {B3 : Blake3} (l1 l2 : list (list byte)) :
  forallb (λ b1, forallb (λ b2, bool_decide (blake3 b1 = blake3 b2 → b1 = b2)) l2) l1 = true →
  no_collision l1 l2.
Proof.
  intros H b1 b2 H1%list_elem_of_In H2%list_elem_of_In.
  rewrite forallb_forall in H. specialize (H b1 H1). rewrite forallb_forall in H.
  exact (proj1 (bool_decide_eq_true _) (H b2 H2)).
Qed.

Lemma merkle_proof_sound_witness :
  ∃ e, toy_utxos !! proof_outpoint toy_proof = Some e ∧
    output e = mkTxOut (value_quanta toy_proof) (proof_locking_condition toy_proof).
Proof.
  apply (merkle_proof_sound (B3 := toy_blake3) toy_utxos toy_proof toy_root).
  - vm_compute. reflexivity.
  - apply (bool_decide_eq_false_1 _). vm_compute. reflexivity.
  - apply map_Forall_to_list. unfold outpoint_wf, txout_wf.
    apply (bool_decide_unpack _). vm_compute. exact I.
  - vm_compute. reflexivity.
  - vm_compute. reflexivity.
  - vm_compute. discriminate.
  - apply no_collision_check. vm_compute. reflexivity.
  - vm_compute. reflexivity.
Defined.
