(* ===== verification/Genesis.v ===== *)
(** * The genesis block

    [crates/scytale-core/src/genesis.rs]: the initial allocation, its coinbase
    and the block at height 0. *)

From S2P Require Import Prelude Bytes Primitives Types Codec Transaction Utxo Merkle.
Local Open Scope N_scope.
Local Open Scope scy_scope.

Definition GENESIS_FOUNDER_QUANTA : N := 1980000000000000.
Definition GENESIS_DEVELOPER_QUANTA : N := 1320000000000000.
Definition TOTAL_GENESIS_QUANTA : N := 3300000000000000.

Definition GENESIS_FOUNDER_LOCK_HEX : list byte := String.list_byte_of_string
  "73a0209bbccb9b6620952fb8e5608e75b58589f4551ac5d1f8699cbe3f93dab94ff40f88ac".
Definition GENESIS_DEVELOPER_LOCK_HEX : list byte := String.list_byte_of_string
  "73a02005277dd5198ed5b20f543520793539812865edf67b5b6da81cec743769427e8588ac".

Definition founder_locking_script {E} : outcome E (list byte) :=
  match from_hex GENESIS_FOUNDER_LOCK_HEX with Ok b => Ok b | _ => Panic end.
Definition developer_locking_script {E} : outcome E (list byte) :=
  match from_hex GENESIS_DEVELOPER_LOCK_HEX with Ok b => Ok b | _ => Panic end.

Definition build_genesis_coinbase {E} : outcome E Transaction :=
  let? founder := founder_locking_script in
  let? developer := developer_locking_script in
  Ok (new_coinbase 0 [mkTxOut GENESIS_FOUNDER_QUANTA founder;
                      mkTxOut GENESIS_DEVELOPER_QUANTA developer]).

Section genesis.
Context {B3 : Blake3}.

(** The leaves of [compute_genesis_utxo_root]: one for each output, in order. *)
Fixpoint output_leaves (id : Hash) (index : N) (outs : list TxOut) : list Hash :=
  match outs with
  | [] => []
  | o :: outs => compute_utxo_leaf (mkOutPoint id (wrap32 index)) o :: output_leaves id (index + 1) outs
  end.

Definition compute_genesis_utxo_root {E} (coinbase : Transaction) : outcome E Hash :=
  let? id := txid coinbase in
  compute_utxo_merkle_root (output_leaves id 0 (outputs coinbase)).

Definition build_genesis_block {E} (difficulty_target : N) : outcome E Block :=
  let? coinbase := build_genesis_coinbase in
  let? id := txid coinbase in
  let commitment := blake3 (hash_bytes id) in
  let? utxo_root := compute_genesis_utxo_root coinbase in
  Ok (mkBlock (mkBlockHeader 1 ZERO commitment utxo_root 0 difficulty_target 0) [coinbase]).
End genesis.

(** ** Properties *)

Section genesis_properties.
Context {B3 : Blake3}.

Lemma insert_by_le {A} (key : A → OutPoint) x l :
  Forall (λ y, outpoint_leb (key x) (key y) = true) l → insert_by key x l = x :: l.
Proof. destruct 1 as [|y l H]; simpl; [done|]. by rewrite H. Qed.

Lemma created_bounds id h cb i outs p :
  p ∈ created id h cb i outs → i + N.of_nat (length outs) ≤ MOD32 →
  op_txid p.1 = id ∧ i ≤ op_index p.1 < i + N.of_nat (length outs).
Proof.
  revert i; induction outs as [|o outs IH]; intros i; cbn [created]; [by intros ?%not_elem_of_nil|].
  intros H Hb. simpl length in *.
  assert (Hrec : p ∈ created id h cb (i + 1) outs → op_txid p.1 = id ∧ i ≤ op_index p.1 < i + N.of_nat (S (length outs))).
  { intros Hp. apply IH in Hp as [? ?]; [|lia]. split; [done|lia]. }
  destruct (is_op_return _); [auto|].
  apply elem_of_cons in H as [->|H]; [|auto]. simpl. rewrite wrap32_small; [|lia].
  split; [done|lia].
Qed.

(** The created entries come in the order of the commitment. *)
Lemma created_sorted id h cb i outs :
  i + N.of_nat (length outs) ≤ MOD32 →
  sort_by fst (created id h cb i outs) = created id h cb i outs ∧
  NoDup (created id h cb i outs).*1.
Proof.
  revert i; induction outs as [|o outs IH]; intros i Hb; cbn [created length] in *.
  { split; [done|constructor]. }
  destruct (IH (i + 1)) as [IH1 IH2]; [lia|].
  destruct (is_op_return _); [done|]. unfold sort_by in *. cbn [foldr]. rewrite IH1.
  assert (HB : Forall (λ p, op_txid p.1 = id ∧ i + 1 ≤ op_index p.1) (created id h cb (i + 1) outs)).
  { apply Forall_forall. intros p Hp. apply created_bounds in Hp as [? ?]; [|lia]. split; [done|lia]. }
  split.
  - apply insert_by_le. eapply Forall_impl; [exact HB|]. intros p [Hid Hi]. simpl.
    apply outpoint_leb_spec. simpl. rewrite wrap32_small by lia. right. split; [by rewrite Hid|lia].
  - rewrite fmap_cons. apply NoDup_cons. split; [|done].
    intros ([k e] & Hk & Hin)%list_elem_of_fmap. rewrite Forall_forall in HB.
    destruct (HB _ Hin) as [_ Hi]. simpl in *. subst k. simpl in Hi.
    rewrite wrap32_small in Hi by lia. lia.
Qed.

Lemma created_leaves id h cb i outs :
  Forall (λ o, is_op_return (locking_condition o) = false) outs →
  (λ p, compute_utxo_leaf p.1 (output p.2)) <$> created id h cb i outs = output_leaves id i outs.
Proof.
  intros HF. revert i; induction HF as [|o outs Ho HF IH]; intros i; simpl; [done|].
  rewrite Ho. simpl. by rewrite IH.
Qed.

(** The genesis block allocates exactly the genesis supply, 33,000,000 SCY;
    its coinbase applies to the empty set, and the UTXO root in its header is
    the root of the set this leaves. *)
Theorem genesis_block_consistent (difficulty_target : N) :
  ∃ (b : Block) (coinbase : Transaction) (s : UtxoSet) (root : Hash),
    build_genesis_block (E := UtxoError) difficulty_target = Ok b ∧
    transactions b = [coinbase] ∧ validate_structure b = Ok tt ∧
    apply_block [coinbase] 0 ∅ = (s, Ok 0) ∧
    set_value s = 33000000 * QUANTA_PER_SCY ∧
    compute_utxo_root (E := UtxoError) s = Ok root ∧ utxo_root (header b) = root.
Proof.
  set (cb := match build_genesis_coinbase (E := UtxoError) with Ok t => t | _ => sample_tx end).
  assert (Ecb : build_genesis_coinbase (E := UtxoError) = Ok cb) by (vm_compute; reflexivity).
  assert (Eenc : ∃ bs, to_canonical_bytes cb = Ok bs) by (eexists; vm_compute; reflexivity).
  destruct Eenc as [bs Hbs].
  assert (Hid : txid (E := UtxoError) cb = Ok (blake3 bs)) by (unfold txid; by rewrite Hbs).
  set (l := created (blake3 bs) 0 true 0 (outputs cb)).
  assert (Hlen : 0 + N.of_nat (length (outputs cb)) ≤ MOD32) by (vm_compute; discriminate).
  pose proof (created_sorted (blake3 bs) 0 true 0 (outputs cb) Hlen) as [Hsort Hnd].
  assert (Hop : Forall (λ o, is_op_return (locking_condition o) = false) (outputs cb)).
  { repeat constructor; vm_compute; reflexivity. }
  assert (Hfresh : fresh_for ∅ l).
  { split; [done|]. apply Forall_forall. intros. apply lookup_empty. }
  destruct (merkle_loop_total (E := UtxoError) (length (output_leaves (blake3 bs) 0 (outputs cb)))
              (output_leaves (blake3 bs) 0 (outputs cb))) as [root Hroot]; [done|done|].
  assert (Hroot' : compute_utxo_merkle_root (E := UtxoError) (output_leaves (blake3 bs) 0 (outputs cb)) = Ok root).
  { unfold compute_utxo_merkle_root. by rewrite bool_decide_eq_false_2. }
  assert (Happly : apply_block [cb] 0 ∅ = (list_to_map l ∪ ∅, Ok 0)).
  { apply apply_block_Ok. exists cb, [], (list_to_map l ∪ ∅). split; [done|].
    split; [vm_compute; reflexivity|]. split; [|split; [constructor|done]].
    - exists (blake3 bs). split; [done|]. split; [done|]. split; [done|].
      split; [done|]. split; [|vm_compute; discriminate].
      repeat constructor; vm_compute; discriminate. }
  eexists _, cb, _, root. split; [|split; [|split; [|split; [exact Happly|split; [|split]]]]].
  - unfold build_genesis_block. rewrite Ecb. cbn [obind]. rewrite Hid. cbn [obind].
    unfold compute_genesis_utxo_root. rewrite Hid. cbn [obind]. by rewrite Hroot'.
  - done.
  - vm_compute. reflexivity.
  - apply apply_block_Ok, block_step_value in Happly as (cb' & rest & E & HV).
    injection E as <- <-. rewrite N.add_0_r in HV.
    change (foldr _ _ _) with 0 in HV. rewrite N.add_0_r in HV. rewrite HV. vm_compute. reflexivity.
  - rewrite (right_id_L ∅ _). unfold compute_utxo_root, utxo_root_of. subst l.
    rewrite (sort_by_unique fst _ (created (blake3 bs) 0 true 0 (outputs cb))), Hsort, created_leaves; [done|done| |apply NoDup_fst_map_to_list].
    by apply map_to_list_to_map.
  - done.
Qed.
End genesis_properties.
