(* ===== verification/Words.v ===== *)
(** * Multi-limb integers

    The 256-bit integers of the proof-of-work code are arrays of 64-bit limbs,
    most significant first, walked by [for i in (0..4).rev()] loops with a
    carry. This file gives their value, their order, their byte form and the
    one lemma every carry loop is an instance of. *)

From S2P Require Import Prelude Bytes.
Local Open Scope N_scope.

Definition limbs_val (l : list N) : N := foldl (λ acc x, acc * MOD64 + x) 0 l.
Definition limbs_wf (l : list N) : Prop := Forall (λ x, x < MOD64) l.

(** [u64::from_be_bytes] of each 8-byte chunk of a 32-byte array. *)
Definition limbs_of_be (bytes : list byte) : list N :=
  (λ i, be_val (take 8 (drop (i * 8) bytes))) <$> seq 0 4.
(** [to_be_bytes] of each limb. *)
Definition limbs_to_be (limbs : list N) : list byte := limbs ≫= be_bytes 8.

(** The derived [Ord] of [[u64; N]]. *)
Fixpoint limbs_cmp (a b : list N) : comparison :=
  match a, b with
  | [], [] => Eq
  | [], _ => Lt
  | _, [] => Gt
  | x :: a, y :: b => match x ?= y with Eq => limbs_cmp a b | c => c end
  end.
Definition limbs_ltb (a b : list N) : bool := match limbs_cmp a b with Lt => true | _ => false end.

(** [for i in (0..n).rev()] with a carry; [f] gives a limb and the next carry. *)
Definition carry_loop {A} (f : A → N → N * N) (l : list A) (carry : N) : list N * N :=
  foldr (λ x st, let '(out, c) := st in let '(o, c') := f x c in (o :: out, c')) ([], carry) l.

(** ** Values *)

Lemma limbs_val_app l1 l2 :
  limbs_val (l1 ++ l2) = limbs_val l1 * MOD64 ^ N.of_nat (length l2) + limbs_val l2.
Proof.
  unfold limbs_val. rewrite foldl_app. generalize (foldl (λ acc x, acc * MOD64 + x) 0 l1).
  induction l2 as [|x l2 IH] using rev_ind; intros a; [simpl; lia|].
  rewrite !foldl_app. cbn [foldl]. rewrite IH, length_app, Nat2N.inj_add, N.pow_add_r.
  change (MOD64 ^ N.of_nat (length [x])) with MOD64. lia.
Qed.

Lemma limbs_val_cons x l : limbs_val (x :: l) = x * MOD64 ^ N.of_nat (length l) + limbs_val l.
Proof. change (x :: l) with ([x] ++ l). rewrite limbs_val_app. done. Qed.

Lemma limbs_val_snoc l x : limbs_val (l ++ [x]) = limbs_val l * MOD64 + x.
Proof. unfold limbs_val. by rewrite foldl_app. Qed.

Lemma limbs_val_bound l : limbs_wf l → limbs_val l < MOD64 ^ N.of_nat (length l).
Proof.
  induction 1 as [|x l Hx Hl IH]; [done|]. rewrite limbs_val_cons. cbn [length].
  rewrite Nat2N.inj_succ, N.pow_succ_r'. nia.
Qed.

Lemma limbs_cmp_val a b :
  limbs_wf a → limbs_wf b → length a = length b → limbs_cmp a b = (limbs_val a ?= limbs_val b).
Proof.
  intros Ha. revert b; induction Ha as [|x a Hx Ha IH]; intros [|y b] Hb Hl; simplify_eq/=; [done|].
  apply Forall_cons in Hb as [Hy Hb]. rewrite !limbs_val_cons, Hl.
  pose proof (limbs_val_bound a Ha) as B1. pose proof (limbs_val_bound b Hb) as B2. rewrite Hl in B1.
  destruct (N.compare_spec x y) as [->|Hlt|Hgt].
  - rewrite IH by done. destruct (N.compare_spec (limbs_val a) (limbs_val b)); symmetry;
      [apply N.compare_eq_iff|apply N.compare_lt_iff|apply N.compare_gt_iff]; lia.
  - symmetry. apply N.compare_lt_iff. nia.
  - symmetry. apply N.compare_gt_iff. nia.
Qed.

Lemma limbs_ltb_val a b :
  limbs_wf a → limbs_wf b → length a = length b → limbs_ltb a b = (limbs_val a <? limbs_val b).
Proof. intros. unfold limbs_ltb, N.ltb. by rewrite limbs_cmp_val. Qed.

Lemma limbs_val_inj a b :
  limbs_wf a → limbs_wf b → length a = length b → limbs_val a = limbs_val b → a = b.
Proof.
  intros Ha. revert b; induction Ha as [|x a Hx Ha IH]; intros [|y b] Hb Hl Hv; simplify_eq/=; [done|].
  apply Forall_cons in Hb as [Hy Hb]. rewrite !limbs_val_cons, Hl in Hv.
  pose proof (limbs_val_bound a Ha) as B1. pose proof (limbs_val_bound b Hb) as B2. rewrite Hl in B1.
  assert (x = y) as -> by nia. f_equal. apply IH; [done..|]. lia.
Qed.

Lemma limbs_val_map_mul m l : limbs_val ((λ x, x * m) <$> l) = limbs_val l * m.
Proof.
  induction l as [|x l IH]; [done|]. rewrite fmap_cons, !limbs_val_cons, length_fmap, IH. lia.
Qed.

(** ** Bytes *)

Lemma length_limbs_of_be b : length (limbs_of_be b) = 4%nat.
Proof. done. Qed.

Lemma limbs_of_be_wf b : limbs_wf (limbs_of_be b).
Proof.
  apply Forall_fmap, Forall_true. intros i. simpl.
  pose proof (be_val_bound (take 8 (drop (i * 8) b))) as HB. eapply N.lt_le_trans; [exact HB|].
  change MOD64 with (256 ^ 8). apply N.pow_le_mono_r; [done|]. rewrite length_take. lia.
Qed.

Lemma split_chunks (b : list byte) :
  length b = 32%nat →
  b = take 8 (drop 0 b) ++ take 8 (drop 8 b) ++ take 8 (drop 16 b) ++ take 8 (drop 24 b).
Proof.
  intros Hl. rewrite (take_ge (drop 24 b)) by (rewrite length_drop; lia).
  replace (drop 24 b) with (drop 8 (drop 16 b)) by (by rewrite drop_drop). rewrite take_drop.
  replace (drop 16 b) with (drop 8 (drop 8 b)) by (by rewrite drop_drop). rewrite take_drop.
  by rewrite drop_0, take_drop.
Qed.

Lemma limbs_val_of_be b : length b = 32%nat → limbs_val (limbs_of_be b) = be_val b.
Proof.
  intros Hl. rewrite (split_chunks b Hl) at 2. rewrite !be_val_app, !length_app, !length_take, !length_drop, Hl.
  unfold limbs_of_be. cbn [seq fmap list_fmap]. rewrite !limbs_val_cons. cbn [length].
  change (limbs_val []) with 0. rewrite N.add_0_r. cbn [Nat.mul Nat.add].
  change (256 ^ N.of_nat (8 `min` (32 - 8) + (8 `min` (32 - 16) + 8 `min` (32 - 24)))%nat) with (MOD64 ^ 3).
  change (256 ^ N.of_nat (8 `min` (32 - 16) + 8 `min` (32 - 24))%nat) with (MOD64 ^ 2).
  change (256 ^ N.of_nat (8 `min` (32 - 24))%nat) with (MOD64 ^ 1).
  change (MOD64 ^ N.of_nat 0) with 1. rewrite N.mul_1_r. done.
Qed.

Lemma length_limbs_to_be l : length (limbs_to_be l) = (8 * length l)%nat.
Proof.
  unfold limbs_to_be. induction l as [|x l IH]; [done|]. rewrite bind_cons, length_app, length_be_bytes, IH.
  simpl. lia.
Qed.

Lemma be_val_limbs_to_be l : limbs_wf l → be_val (limbs_to_be l) = limbs_val l.
Proof.
  unfold limbs_to_be. induction 1 as [|x l Hx Hl IH]; [done|].
  rewrite bind_cons, be_val_app, IH, limbs_val_cons, be_val_be_bytes.
  change (256 ^ N.of_nat 8) with MOD64. rewrite N.mod_small by done. do 2 f_equal.
  change (l ≫= be_bytes 8) with (limbs_to_be l). rewrite (length_limbs_to_be l), Nat2N.inj_mul, N.pow_mul_r. done.
Qed.

(** ** Carry loops *)

Lemma carry_loop_val {A} (f : A → N → N * N) (g : A → N) (Inv : N → Prop) l c0 :
  (∀ x c, x ∈ l → Inv c →
     (f x c).1 + MOD64 * (f x c).2 = g x + c ∧ (f x c).1 < MOD64 ∧ Inv (f x c).2) →
  Inv c0 →
  length (carry_loop f l c0).1 = length l ∧ limbs_wf (carry_loop f l c0).1 ∧
  Inv (carry_loop f l c0).2 ∧
  limbs_val (carry_loop f l c0).1 + MOD64 ^ N.of_nat (length l) * (carry_loop f l c0).2 =
  limbs_val (g <$> l) + c0.
Proof.
  intros Hf H0. induction l as [|x l IH].
  - split; [done|]. split; [constructor|]. split; [done|]. simpl. lia.
  - destruct IH as (IHl & IHw & IHi & IHv); [intros; apply Hf; [set_solver|done]|].
    unfold carry_loop in *. cbn [foldr]. rewrite fmap_cons, limbs_val_cons, length_fmap.
    set (st := foldr _ _ l) in *. destruct st as [out c]. cbn [fst snd] in *.
    destruct (Hf x c) as (E & Hb & Hi); [set_solver|done|]. destruct (f x c) as [o c']. cbn [fst snd] in *.
    split; [simpl; by rewrite IHl|]. split; [by constructor|]. split; [done|].
    rewrite limbs_val_cons, IHl. cbn [length]. rewrite Nat2N.inj_succ, N.pow_succ_r'. nia.
Qed.

(** Splitting a sum into the low 64 bits and the rest. *)
Lemma split64 s : wrap64 s + MOD64 * N.shiftr s 64 = s.
Proof.
  unfold wrap64. rewrite N.shiftr_div_pow2. change (2 ^ 64) with MOD64.
  pose proof (N.div_mod' s MOD64). lia.
Qed.

Lemma wrap64_lt s : wrap64 s < MOD64.
Proof. by apply N.mod_lt. Qed.
