(* ===== verification/Target.v ===== *)
(** * Proof-of-work targets and difficulty

    [crates/scytale-consensus/src/target.rs], [difficulty.rs] and [pow.rs]: the
    compact form of targets, retargeting in 64-bit limbs, and the checks of a
    header against its target. *)

From S2P Require Import Prelude Bytes Primitives Types Codec Words.
Local Open Scope N_scope.
Local Open Scope scy_scope.

(** ** Arrays of 32 bytes *)

(** A [[u8; 32]] from the list of its bytes. *)
Definition arr32 (l : list byte) : Hash := default ZERO (hash_of_list l).

(** [bytes[start..start + src.len()].copy_from_slice(src)]. *)
Definition copy_into (start : nat) (src bytes : list byte) : list byte :=
  take start bytes ++ src ++ drop (start + length src) bytes.

(** ** Targets *)

Record Target := mkTarget { target_bytes : Hash }.
#[global] Instance target_eq_dec : EqDecision Target.
Proof. solve_decision. Defined.

Definition Target_from_be_bytes (bytes : Hash) : Target := mkTarget bytes.
Definition Target_to_be_bytes (t : Target) : Hash := target_bytes t.
Definition Target_max : Target := mkTarget (arr32 (replicate 32 xff)).
Definition Target_zero : Target := mkTarget (arr32 (replicate 32 x00)).

(** [is_met_by]: the order of byte arrays. *)
Definition is_met_by (t : Target) (h : Hash) : bool :=
  bytes_leb (hash_bytes h) (hash_bytes (target_bytes t)).

Definition from_compact (compact : N) : Target :=
  let exponent := N.shiftr compact 24 in
  let mantissa := N.land compact 0x7FFFFF in
  let is_negative := negb (N.land compact 0x800000 =? 0) in
  if is_negative || (mantissa =? 0) || (exponent =? 0) then Target_zero
  else
    let bytes := replicate 32 x00 in
    if exponent <=? 3 then
      let shifted := N.shiftr mantissa (8 * (3 - exponent)) in
      mkTarget (arr32 (copy_into 28 (be_bytes 4 shifted) bytes))
    else if exponent - 3 <=? 29 then
      let m_bytes := be_bytes 4 mantissa in
      let start_idx := N.to_nat (32 - exponent) in
      if (start_idx + 2 <? 32)%nat
      then mkTarget (arr32 (copy_into start_idx (drop 1 m_bytes) bytes))
      else mkTarget (arr32 bytes)
    else Target_max.

(** The index of the first non-zero byte. *)
Fixpoint first_non_zero (l : list byte) : nat :=
  match l with
  | [] => O
  | b :: l => if bool_decide (b = x00) then S (first_non_zero l) else O
  end.

(** The first three bytes from an index, as the source assembles them. *)
Definition top_three (bytes : list byte) (i : nat) : N :=
  let at_ i := from_option Byte.to_N 0 (bytes !! i) in
  let m := N.shiftl (at_ i) 16 in
  let m := if (i + 1 <? 32)%nat then N.lor m (N.shiftl (at_ (i + 1)%nat) 8) else m in
  if (i + 2 <? 32)%nat then N.lor m (at_ (i + 2)%nat) else m.

Definition to_compact (t : Target) : N :=
  let bytes := hash_bytes (target_bytes t) in
  let first := first_non_zero bytes in
  if (first =? 32)%nat then 0
  else
    let exponent := (32 - first)%nat in
    let '(exponent, mantissa) :=
      if 0x7F <? from_option Byte.to_N 0 (bytes !! first)
      then ((exponent + 1)%nat, N.shiftr (top_three bytes first) 8)
      else (exponent, top_three bytes first) in
    N.lor (wrap32 (N.shiftl (N.of_nat exponent) 24)) (N.land mantissa 0x7FFFFF).

(** ** Retargeting *)

Inductive DifficultyError :=
| TargetMismatch (expected actual : Target)
| InvalidEpochWindow (start_height end_height : N)
| InvalidObservedTime (start_time end_time : N)
| DifficultyArithmeticOverflow.

Definition TARGET_BLOCK_INTERVAL_SECS : N := 60.
Definition DEFAULT_DIFFICULTY_EPOCH_BLOCKS : N := 1440.
Definition CLAMPING_FACTOR : N := 4.

Record DifficultyConfig := mkDifficultyConfig {
  epoch_blocks : N;
  target_block_interval_secs : N;
  clamping_factor : N;
  max_target : Target
}.

Definition DifficultyConfig_default : DifficultyConfig :=
  mkDifficultyConfig DEFAULT_DIFFICULTY_EPOCH_BLOCKS TARGET_BLOCK_INTERVAL_SECS CLAMPING_FACTOR
    (mkTarget (arr32 (x00 :: x00 :: x0f :: replicate 29 xff))).

(** The multiplication loop, in [u128]. *)
Definition mul_limbs (limbs : list N) (multiplier : N) : list N :=
  let '(prod, carry) :=
    carry_loop (λ limb carry, let cur := wrap128 (limb * multiplier + carry) in
                  (wrap64 cur, N.shiftr cur 64)) limbs 0 in
  wrap64 carry :: prod.

(** The division loop: quotient limbs, most significant first. *)
Definition div_limbs (prod : list N) (divisor : N) : list N * N :=
  foldl (λ st limb, let '(quot, rem) := st in
           let cur := N.lor (wrap128 (N.shiftl rem 64)) limb in
           (quot ++ [wrap64 (cur / divisor)], cur mod divisor)) ([], 0) prod.

Definition scale_target_by_ratio (target : Target) (multiplier divisor : N) :
    outcome DifficultyError Target :=
  if divisor =? 0 then Err DifficultyArithmeticOverflow
  else if multiplier =? 0 then Ok Target_zero
  else
    let limbs := limbs_of_be (hash_bytes (target_bytes target)) in
    let prod := mul_limbs limbs multiplier in
    let quot := (div_limbs prod divisor).1 in
    match quot with
    | q0 :: rest => if 0 <? q0 then Ok Target_max else Ok (mkTarget (arr32 (limbs_to_be rest)))
    | [] => Panic
    end.

Definition clamp (x lo hi : N) : N := if x <? lo then lo else if hi <? x then hi else x.

Definition calculate_next_target (current_target : Target) (epoch_start_time epoch_end_time : N)
    (config : DifficultyConfig) : outcome DifficultyError Target :=
  if epoch_end_time <=? epoch_start_time
  then Err (InvalidObservedTime epoch_start_time epoch_end_time)
  else
    let? expected_time :=
      ok_or (checked_mul (epoch_blocks config) (target_block_interval_secs config))
        DifficultyArithmeticOverflow in
    if (expected_time =? 0) || (clamping_factor config =? 0)
    then Err DifficultyArithmeticOverflow
    else
      let raw_observed_time := epoch_end_time - epoch_start_time in
      let min_time := expected_time / clamping_factor config in
      let? max_time :=
        ok_or (checked_mul expected_time (clamping_factor config)) DifficultyArithmeticOverflow in
      let clamped_time := clamp raw_observed_time min_time max_time in
      let? calculated := scale_target_by_ratio current_target clamped_time expected_time in
      if bytes_ltb (hash_bytes (target_bytes (max_target config)))
           (hash_bytes (target_bytes calculated))
      then Ok (max_target config) else Ok calculated.

Definition validate_block_target (header : BlockHeader) (expected_target : Target) :
    outcome DifficultyError unit :=
  let header_target := from_compact (difficulty_target header) in
  if negb (bool_decide (header_target = expected_target))
  then Err (TargetMismatch expected_target header_target) else Ok tt.

(** ** Proof of work *)

Inductive PowError :=
| PowInsufficientWork (hash : Hash) (target : Target)
| InvalidTarget
| HeaderError.

Section pow.
Context {B3 : Blake3}.

(** [BlockHeader::hash]; the [expect] cannot fail ([header_to_canonical_bytes]). *)
Definition header_hash {E} (h : BlockHeader) : outcome E Hash :=
  match to_canonical_bytes h with Ok bytes => Ok (blake3 bytes) | _ => Panic end.

Definition compute_pow_hash {E} (h : BlockHeader) : outcome E Hash := header_hash h.

Definition verify_pow (h : BlockHeader) (expected_target : Target) : outcome PowError unit :=
  let? hash := compute_pow_hash h in
  if negb (is_met_by expected_target hash)
  then Err (PowInsufficientWork hash expected_target) else Ok tt.

(** [mine_test_header]: the header left behind, and whether it meets the target. *)
Fixpoint mine_loop (h : BlockHeader) (target : Target) (nonce : N) (iterations : nat) :
    BlockHeader * bool :=
  match iterations with
  | O => (h, false)
  | S iterations =>
      let h := mkBlockHeader (version h) (previous_block_hash h) (transaction_commitment h)
                 (utxo_root h) (timestamp h) (difficulty_target h) nonce in
      if match header_hash (E := PowError) h with Ok hash => is_met_by target hash | _ => false end
      then (h, true) else mine_loop h target (nonce + 1) iterations
  end.
Definition mine_test_header (h : BlockHeader) (target : Target) (max_iterations : N) :
    BlockHeader * bool := mine_loop h target 0 (N.to_nat max_iterations).
End pow.

Lemma header_hash_ok {B3 : Blake3} {E} h : header_hash (E := E) h = Ok (blake3 (header_bytes h)).
Proof. unfold header_hash. by rewrite header_to_canonical_bytes. Qed.

(** ** Numeric values *)

Definition target_val (t : Target) : N := be_val (hash_bytes (target_bytes t)).

Lemma target_val_bound t : target_val t < 2 ^ 256.
Proof. unfold target_val. pose proof (be_val_bound (hash_bytes (target_bytes t))) as H. by rewrite hash_length in H. Qed.

Lemma target_val_inj t1 t2 : target_val t1 = target_val t2 → t1 = t2.
Proof.
  unfold target_val. destruct t1 as [h1], t2 as [h2]. intros H%be_val_inj; [|by rewrite !hash_length].
  f_equal. by apply hash_eq.
Qed.

Lemma arr32_bytes l : length l = 32%nat → hash_bytes (arr32 l) = l.
Proof.
  intros Hl. unfold arr32. destruct (hash_of_list_is_Some l Hl) as [h Hh]. rewrite Hh. simpl.
  by apply hash_of_list_Some.
Qed.

Lemma target_val_arr32 l : length l = 32%nat → target_val (mkTarget (arr32 l)) = be_val l.
Proof. intros. unfold target_val. simpl. by rewrite arr32_bytes. Qed.

Lemma target_val_zero : target_val Target_zero = 0.
Proof. done. Qed.
Lemma target_val_max : target_val Target_max = 2 ^ 256 - 1.
Proof. vm_compute. done. Qed.

Lemma is_met_by_val t h : is_met_by t h = (be_val (hash_bytes h) <=? target_val t).
Proof. apply bytes_leb_be_val. by rewrite !hash_length. Qed.

Lemma copy_into_zeros s src :
  (s + length src ≤ 32)%nat →
  length (copy_into s src (replicate 32 x00)) = 32%nat ∧
  be_val (copy_into s src (replicate 32 x00)) = be_val src * 256 ^ N.of_nat (32 - (s + length src)).
Proof.
  intros H. unfold copy_into. rewrite take_replicate, drop_replicate. split.
  - rewrite !length_app, !length_replicate. lia.
  - by rewrite !be_val_app, !be_val_zeros, length_replicate, N.mul_0_l, !N.add_0_l, N.add_0_r.
Qed.

Lemma be_val_drop1 m : m < 256 ^ 3 → be_val (drop 1 (be_bytes 4 m)) = m.
Proof.
  intros Hm. pose proof (be_val_be_bytes 4 m) as E.
  rewrite N.mod_small in E by (eapply N.lt_trans; [exact Hm|done]).
  pose proof (length_be_bytes 4 m) as Hl. destruct (be_bytes 4 m) as [|b l]; [done|].
  rewrite be_val_cons in E. simpl in Hl. injection Hl as Hl. rewrite Hl in E. rewrite skipn_cons, drop_0.
  change (256 ^ N.of_nat 3) with 16777216 in E. change (256 ^ 3) with 16777216 in Hm.
  lia.
Qed.

(** The number a compact target stands for. *)
Definition compact_val (c : N) : N :=
  let e := c / 2 ^ 24 in
  let m := c mod 2 ^ 23 in
  if N.testbit c 23 || (m =? 0) || (e =? 0) then 0
  else if e <=? 3 then m / 256 ^ (3 - e)
  else if e <=? 32 then m * 256 ^ (e - 3)
  else 2 ^ 256 - 1.

Lemma land_bit23 c : negb (N.land c 0x800000 =? 0) = N.testbit c 23.
Proof.
  change 0x800000 with (2 ^ 23). destruct (N.testbit c 23) eqn:E.
  - apply negb_true_iff, N.eqb_neq. intros H. apply (f_equal (λ x, N.testbit x 23)) in H.
    rewrite N.land_spec, E, N.pow2_bits_true in H. done.
  - apply negb_false_iff, N.eqb_eq. apply N.bits_inj. intros m. rewrite N.land_spec, N.bits_0.
    destruct (decide (m = 23)) as [->|]; [by rewrite E|]. by rewrite N.pow2_bits_false, andb_false_r.
Qed.

Lemma from_compact_val c : target_val (from_compact c) = compact_val c.
Proof.
  unfold from_compact, compact_val. rewrite land_bit23, N.shiftr_div_pow2.
  change 0x7FFFFF with (N.ones 23). rewrite N.land_ones.
  set (m := c mod 2 ^ 23). set (e := c / 2 ^ 24).
  assert (Hm : m < 2 ^ 23) by (by apply N.mod_lt).
  destruct (N.testbit c 23 || (m =? 0) || (e =? 0)) eqn:Hz; [apply target_val_zero|].
  rewrite !orb_false_iff, !N.eqb_neq in Hz. destruct Hz as [[_ Hm0] He0].
  destruct (N.leb_spec e 3) as [He|He].
  - rewrite N.shiftr_div_pow2, N.pow_mul_r. change (2 ^ 8) with 256.
    assert (m / 256 ^ (3 - e) ≤ m) by apply div_le_self.
    destruct (copy_into_zeros 28 (be_bytes 4 (m / 256 ^ (3 - e)))) as [L V]; [rewrite length_be_bytes; lia|].
    rewrite target_val_arr32, V, length_be_bytes, be_val_be_bytes by done.
    change (N.of_nat (32 - (28 + 4))) with 0. change (256 ^ N.of_nat 4) with (2 ^ 32).
    rewrite N.mod_small, N.mul_1_r; [done|]. eapply N.le_lt_trans; [eassumption|].
    eapply N.lt_trans; [exact Hm|done].
  - destruct (N.leb_spec (e - 3) 29) as [He2|He2], (N.leb_spec e 32) as [He3|He3]; try lia.
    2: apply target_val_max.
    destruct (Nat.ltb_spec (N.to_nat (32 - e) + 2) 32); [|lia].
    assert (Hl : length (drop 1 (be_bytes 4 m)) = 3%nat) by (by rewrite length_drop, length_be_bytes).
    destruct (copy_into_zeros (N.to_nat (32 - e)) (drop 1 (be_bytes 4 m))) as [L V]; [lia|].
    rewrite target_val_arr32, V, Hl, be_val_drop1 by first [done | by eapply N.lt_trans; [exact Hm|]].
    do 2 f_equal. lia.
Qed.

(** ** The compact form of a target *)

Lemma first_non_zero_split l :
  (be_val l = 0 ∧ first_non_zero l = length l) ∨
  ∃ b rest, l = replicate (first_non_zero l) x00 ++ b :: rest ∧ 0 < Byte.to_N b.
Proof.
  induction l as [|b l IH]; simpl; [by left|]. case_bool_decide as Hb.
  - subst b. destruct IH as [[Hv Hf]|(b & rest & Hl & Hb)].
    + left. rewrite be_val_cons, Hv, Hf. done.
    + right. exists b, rest. split; [by rewrite Hl at 1|done].
  - right. exists b, l. split; [done|]. destruct (Byte.to_N b) eqn:E; [|lia].
    destruct Hb. by apply to_N_inj.
Qed.

Lemma lor_two b r0 : r0 < 256 → N.lor (N.shiftl b 16) (N.shiftl r0 8) = (b * 256 + r0) * 256.
Proof.
  intros. rewrite lor_shiftl_add, N.shiftl_mul_pow2.
  - change (2 ^ 16) with 65536. change (2 ^ 8) with 256. lia.
  - rewrite N.shiftl_mul_pow2. change (2 ^ 16) with 65536. change (2 ^ 8) with 256. lia.
Qed.

Lemma lor_three b r0 r1 :
  r0 < 256 → r1 < 256 →
  N.lor (N.lor (N.shiftl b 16) (N.shiftl r0 8)) r1 = (b * 256 + r0) * 256 + r1.
Proof.
  intros. rewrite lor_two by done. change 256 with (2 ^ 8) at 2.
  by rewrite <- N.shiftl_mul_pow2, lor_shiftl_add.
Qed.

Lemma be_val_lead l tl :
  be_val (l ++ tl) / 256 ^ N.of_nat (length tl) = be_val l.
Proof.
  rewrite be_val_app, N.div_add_l by (by apply N.pow_nonzero).
  rewrite N.div_small by apply be_val_bound. lia.
Qed.

(** Three leading bytes of a number of [n] bytes. *)
Lemma top_three_val f b rest :
  (f + S (length rest))%nat = 32%nat →
  top_three (replicate f x00 ++ b :: rest) f =
  be_val (b :: rest) * 256 ^ 3 / 256 ^ N.of_nat (S (length rest)).
Proof.
  intros Hl. unfold top_three.
  assert (H0 : (replicate f x00 ++ b :: rest) !! f = Some b)
    by (by apply list_lookup_middle; rewrite length_replicate).
  assert (HS : ∀ i, (replicate f x00 ++ b :: rest) !! (f + S i)%nat = rest !! i).
  { intros i. rewrite lookup_app_r by (rewrite length_replicate; lia).
    rewrite length_replicate. by replace (f + S i - f)%nat with (S i) by lia. }
  rewrite H0, (HS 0%nat), (HS 1%nat). cbn [from_option].
  destruct rest as [|r0 [|r1 tl]]; cbn [length] in *.
  - replace f with 31%nat by lia. change (31 + 1 <? 32)%nat with false. change (31 + 2 <? 32)%nat with false.
    cbv iota. rewrite N.shiftl_mul_pow2. unfold be_val. cbn [fold_left].
    change (256 ^ N.of_nat 1) with 256. change (256 ^ 3) with (65536 * 256). change (2 ^ 16) with 65536.
    rewrite N.mul_assoc, N.div_mul by done. lia.
  - replace f with 30%nat by lia. change (30 + 1 <? 32)%nat with true. change (30 + 2 <? 32)%nat with false.
    cbv iota. change ([r0] !! 0%nat) with (Some r0). cbn [from_option].
    rewrite lor_two by apply to_N_lt. unfold be_val. cbn [fold_left].
    change (256 ^ N.of_nat 2) with 65536. change (256 ^ 3) with (256 * 65536).
    rewrite N.mul_assoc, N.div_mul by done. lia.
  - destruct (Nat.ltb_spec (f + 1) 32); [|lia]. destruct (Nat.ltb_spec (f + 2) 32); [|lia].
    change ((r0 :: r1 :: tl) !! 0%nat) with (Some r0). change ((r0 :: r1 :: tl) !! 1%nat) with (Some r1).
    cbn [from_option]. rewrite lor_three by apply to_N_lt.
    replace (N.of_nat (S (S (S (length tl))))) with (N.of_nat (length tl) + 3) by lia.
    rewrite N.pow_add_r, N.Div0.div_mul_cancel_r by done.
    change (b :: r0 :: r1 :: tl) with ([b; r0; r1] ++ tl). rewrite be_val_lead. unfold be_val. simpl. lia.
Qed.

(** [to_compact] of a number of [n] bytes. *)
Lemma to_compact_spec t :
  target_val t ≠ 0 →
  ∃ n, 0 < n ≤ 32 ∧ 256 ^ (n - 1) ≤ target_val t < 256 ^ n ∧
    to_compact t =
      if 127 <? target_val t / 256 ^ (n - 1)
      then (n + 1) * 2 ^ 24 + target_val t * 256 ^ 3 / 256 ^ n / 256
      else n * 2 ^ 24 + target_val t * 256 ^ 3 / 256 ^ n.
Proof.
  intros Hne. unfold to_compact. set (l := hash_bytes (target_bytes t)).
  assert (Hlen : length l = 32%nat) by apply hash_length.
  destruct (first_non_zero_split l) as [[Hv _]|(b & rest & Hl & Hb)]; [done|].
  set (f := first_non_zero l) in *.
  assert (Hf : (f + S (length rest))%nat = 32%nat)
    by (rewrite Hl, length_app, length_replicate in Hlen; done).
  assert (HV : target_val t = be_val (b :: rest)).
  { unfold target_val. fold l. rewrite Hl, be_val_app, be_val_zeros. lia. }
  pose proof (to_N_lt b) as Hb2.
  assert (Htop : be_val (b :: rest) / 256 ^ N.of_nat (length rest) = Byte.to_N b).
  { change (b :: rest) with ([b] ++ rest). by rewrite be_val_lead. }
  set (n := N.of_nat (S (length rest))).
  assert (Hn1 : n - 1 = N.of_nat (length rest)) by (subst n; lia).
  exists n. split; [subst n; lia|]. rewrite HV, Hn1, Htop.
  assert (Hpow : 256 ^ n = 256 * 256 ^ N.of_nat (length rest)) by (subst n; rewrite Nat2N.inj_succ; apply N.pow_succ_r').
  split.
  { split.
    - rewrite be_val_cons. nia.
    - apply (be_val_bound (b :: rest)). }
  destruct (Nat.eqb_spec f 32); [lia|].
  rewrite Hl at 1. rewrite (list_lookup_middle _ _ _ f) by (by rewrite length_replicate). cbn [from_option].
  replace (top_three l f) with (be_val (b :: rest) * 256 ^ 3 / 256 ^ n) by (rewrite Hl at 1; symmetry; by apply top_three_val).
  assert (HM : be_val (b :: rest) * 256 ^ 3 / 256 ^ n < (Byte.to_N b + 1) * 65536).
  { apply N.Div0.div_lt_upper_bound. rewrite Hpow, be_val_cons. pose proof (be_val_bound rest).
    change (256 ^ 3) with (256 * 65536). nia. }
  assert (Hland : ∀ m, m < 2 ^ 23 → N.land m 0x7FFFFF = m).
  { intros m Hm. change 0x7FFFFF with (N.ones 23). rewrite N.land_ones. by apply N.mod_small. }
  assert (Hcomp : ∀ e m, e < 256 → m < 2 ^ 23 → N.lor (wrap32 (N.shiftl e 24)) (N.land m 0x7FFFFF) = e * 2 ^ 24 + m).
  { intros e m He Hm. rewrite Hland by done. rewrite wrap32_small.
    - apply lor_shiftl_add. eapply N.lt_trans; [exact Hm|done].
    - rewrite N.shiftl_mul_pow2. change (2 ^ 24) with 16777216. lia. }
  destruct (N.ltb_spec 127 (Byte.to_N b)).
  - rewrite N.shiftr_div_pow2. change (2 ^ 8) with 256. rewrite Hcomp.
    + do 2 f_equal. lia.
    + lia.
    + apply N.Div0.div_lt_upper_bound. change (256 * 2 ^ 23) with 2147483648. lia.
  - rewrite Hcomp.
    + do 2 f_equal. lia.
    + lia.
    + change (2 ^ 23) with 8388608. lia.
Qed.

Lemma compact_val_pair e m :
  m < 2 ^ 23 → 0 < m → 0 < e →
  compact_val (e * 2 ^ 24 + m) =
  if e <=? 3 then m / 256 ^ (3 - e) else if e <=? 32 then m * 256 ^ (e - 3) else 2 ^ 256 - 1.
Proof.
  intros Hm Hm0 He0. unfold compact_val.
  assert (H24 : m < 2 ^ 24) by (eapply N.lt_trans; [exact Hm|done]).
  rewrite N.div_add_l, N.div_small, N.add_0_r by done.
  replace ((e * 2 ^ 24 + m) mod 2 ^ 23) with m.
  2:{ change (2 ^ 24) with (2 * 2 ^ 23). rewrite N.mul_assoc, N.add_comm, N.Div0.mod_add. symmetry. by apply N.mod_small. }
  replace (N.testbit (e * 2 ^ 24 + m) 23) with false.
  2:{ rewrite <- lor_shiftl_add by done. rewrite N.lor_spec, N.shiftl_spec_low by done.
      symmetry. by apply (testbit_high m 23 23). }
  destruct (N.eqb_spec m 0); [lia|]. destruct (N.eqb_spec e 0); [lia|]. done.
Qed.

Lemma pow256_split n : 2 < n → 256 ^ n = 256 ^ (n - 3) * 256 ^ 3.
Proof. intros. rewrite <- N.pow_add_r. f_equal. lia. Qed.

Lemma shift_div v a b : b ≤ a → v * 256 ^ a / 256 ^ b = v * 256 ^ (a - b).
Proof.
  intros. replace a with (a - b + b) at 1 by lia.
  rewrite N.pow_add_r, N.mul_assoc, N.div_mul; [done|]. by apply N.pow_nonzero.
Qed.

Lemma unshift_div v a b : a ≤ b → v * 256 ^ a / 256 ^ b = v / 256 ^ (b - a).
Proof.
  intros. replace b with (b - a + a) at 1 by lia.
  rewrite N.pow_add_r, N.Div0.div_mul_cancel_r; [done|]. by apply N.pow_nonzero.
Qed.

Lemma compact_roundtrip_val t :
  let V := target_val t in
  (V < 2 ^ 255 → ∃ k, target_val (from_compact (to_compact t)) = V / 256 ^ k * 256 ^ k ∧
                      (k = 0 ∨ 2 ^ 15 ≤ V / 256 ^ k)) ∧
  (2 ^ 255 ≤ V → target_val (from_compact (to_compact t)) = 2 ^ 256 - 1).
Proof.
  intros V. rewrite from_compact_val. destruct (decide (V = 0)) as [HV|HV].
  { assert (t = Target_zero) as -> by (apply target_val_inj; by rewrite target_val_zero).
    split; [|rewrite HV; intros H; by apply N.le_0_r in H]. intros _. exists 0. rewrite HV. by split; [|left]. }
  destruct (to_compact_spec t HV) as (n & Hn & [Hlo Hhi] & ->). fold V in Hlo, Hhi |- *.
  assert (Hp1 : 256 ^ (n - 1) ≠ 0) by (by apply N.pow_nonzero).
  assert (Hpn : 256 ^ n = 256 ^ (n - 1) * 256).
  { replace n with (n - 1 + 1) at 1 by lia. by rewrite N.pow_add_r. }
  destruct (N.ltb_spec 127 (V / 256 ^ (n - 1))) as [Htop|Htop].
  - assert (Htop' : 128 * 256 ^ (n - 1) ≤ V) by (pose proof (N.Div0.mul_div_le V (256 ^ (n - 1))); nia).
    rewrite N.Div0.div_div. replace (256 ^ n * 256) with (256 ^ (n + 1)) by (by rewrite N.pow_add_r).
    assert (HM : V * 256 ^ 3 / 256 ^ (n + 1) < 2 ^ 23).
    { apply N.Div0.div_lt_upper_bound. rewrite (N.pow_add_r 256 n 1), Hpn.
      change (256 ^ 3) with 16777216. change (256 ^ 1) with 256. change (2 ^ 23) with 8388608. nia. }
    assert (HM0 : 0 < V * 256 ^ 3 / 256 ^ (n + 1)).
    { apply N.div_str_pos. split; [apply N.neq_0_lt_0; by apply N.pow_nonzero|].
      rewrite (N.pow_add_r 256 n 1), Hpn. change (256 ^ 3) with 16777216. change (256 ^ 1) with 256. nia. }
    rewrite compact_val_pair by (done || lia).
    destruct (N.leb_spec (n + 1) 3) as [H3|H3].
    + rewrite shift_div by done. rewrite N.div_mul by (by apply N.pow_nonzero).
      split; [intros _; exists 0; rewrite N.div_1_r, N.mul_1_r; by split; [|left]|].
      intros H. exfalso. assert (256 ^ n ≤ 256 ^ 2) by (apply N.pow_le_mono_r; lia).
      assert (256 ^ 2 < 2 ^ 255) by done. lia.
    + rewrite unshift_div by lia. destruct (N.leb_spec (n + 1) 32) as [H32|H32].
      * split.
        -- intros _. exists (n + 1 - 3). split; [done|]. right.
           apply N.div_le_lower_bound; [by apply N.pow_nonzero|].
           replace (256 ^ (n + 1 - 3) * 2 ^ 15) with (128 * 256 ^ (n - 1)); [done|].
           replace (n - 1) with (n + 1 - 3 + 1) by lia. rewrite N.pow_add_r.
           change (2 ^ 15) with 32768. change (256 ^ 1) with 256. lia.
        -- intros H. exfalso. assert (256 ^ n ≤ 256 ^ 31) by (apply N.pow_le_mono_r; lia).
           assert (256 ^ 31 < 2 ^ 255) by done. lia.
      * split; [|done]. intros H. exfalso. assert (n = 32) as -> by lia.
        change (128 * 256 ^ (32 - 1)) with (2 ^ 255) in Htop'. lia.
  - assert (Htop' : V < 128 * 256 ^ (n - 1)).
    { pose proof (N.div_mod' V (256 ^ (n - 1))). pose proof (N.mod_lt V _ Hp1). nia. }
    assert (HM : V * 256 ^ 3 / 256 ^ n < 2 ^ 23).
    { apply N.Div0.div_lt_upper_bound. rewrite Hpn. change (256 ^ 3) with 16777216.
      change (2 ^ 23) with 8388608. nia. }
    assert (HM0 : 0 < V * 256 ^ 3 / 256 ^ n).
    { apply N.div_str_pos. rewrite Hpn. change (256 ^ 3) with 16777216. nia. }
    rewrite compact_val_pair by (done || lia).
    assert (HV255 : V < 2 ^ 255).
    { assert (256 ^ (n - 1) ≤ 256 ^ 31) by (apply N.pow_le_mono_r; lia).
      change (2 ^ 255) with (128 * 256 ^ 31). nia. }
    split; [intros _|intros ?; exfalso; lia].
    destruct (N.leb_spec n 3) as [H3|H3].
    + rewrite shift_div by done. rewrite N.div_mul by (by apply N.pow_nonzero).
      exists 0. rewrite N.div_1_r, N.mul_1_r. by split; [|left].
    + rewrite unshift_div by lia. destruct (N.leb_spec n 32) as [H32|H32]; [|lia].
      exists (n - 3). split; [done|]. right.
      apply N.div_le_lower_bound; [by apply N.pow_nonzero|].
      eapply N.le_trans; [|exact Hlo]. replace (n - 1) with (n - 3 + 2) by lia.
      rewrite N.pow_add_r. change (2 ^ 15) with 32768. change (256 ^ 2) with 65536. nia.
Qed.

(** ** Scaling in limbs *)

Lemma mul_limbs_spec limbs m :
  limbs_wf limbs → m < MOD64 →
  limbs_wf (mul_limbs limbs m) ∧ length (mul_limbs limbs m) = S (length limbs) ∧
  limbs_val (mul_limbs limbs m) = limbs_val limbs * m.
Proof.
  intros Hwf Hm. unfold mul_limbs. set (f := λ limb carry, _).
  destruct (carry_loop_val f (λ x, x * m) (λ c, c < MOD64) limbs 0) as (HL & HW & HI & HV).
  - intros x c Hx Hc. unfold limbs_wf in Hwf. rewrite Forall_forall in Hwf. apply Hwf in Hx.
    assert (Hcur : x * m + c < MOD128) by nia.
    unfold f. cbn [fst snd]. unfold wrap128. rewrite N.mod_small by done.
    split; [apply split64|]. split; [apply wrap64_lt|]. rewrite N.shiftr_div_pow2.
    apply N.Div0.div_lt_upper_bound. change (2 ^ 64 * MOD64) with MOD128. done.
  - done.
  - destruct (carry_loop f limbs 0) as [prod carry]. cbn [fst snd] in *.
    rewrite wrap64_small by done. split; [by constructor|]. split; [simpl; by rewrite HL|].
    rewrite limbs_val_cons, HL, <- limbs_val_map_mul. lia.
Qed.

Lemma div_limbs_spec prod d :
  limbs_wf prod → 0 < d < MOD64 →
  limbs_wf (div_limbs prod d).1 ∧ length (div_limbs prod d).1 = length prod ∧
  limbs_val (div_limbs prod d).1 = limbs_val prod / d ∧ (div_limbs prod d).2 = limbs_val prod mod d.
Proof.
  intros Hwf Hd. induction prod as [|x l IH] using rev_ind.
  - split; [constructor|]. split; [done|]. cbn. split; [by rewrite N.div_0_l by lia|by rewrite N.Div0.mod_0_l].
  - apply Forall_app in Hwf as [Hl Hx%Forall_cons]. destruct Hx as [Hx _].
    destruct (IH Hl) as (HW & HL & HQ & HR). unfold div_limbs in *. rewrite foldl_app. cbn [foldl].
    destruct (foldl _ ([], 0) l) as [quot rem]. cbn [fst snd] in *.
    assert (Hrem : rem < d) by (rewrite HR; apply N.mod_lt; lia).
    assert (Hcur : N.lor (wrap128 (N.shiftl rem 64)) x = rem * MOD64 + x).
    { rewrite N.shiftl_mul_pow2. change (2 ^ 64) with MOD64. unfold wrap128.
      rewrite N.mod_small by nia. change MOD64 with (2 ^ 64) at 1. rewrite <- N.shiftl_mul_pow2.
      by apply lor_shiftl_add. }
    rewrite Hcur.
    assert (Hq : (rem * MOD64 + x) / d < MOD64) by (apply N.Div0.div_lt_upper_bound; nia).
    assert (HD : limbs_val l * MOD64 + x = d * (limbs_val l / d * MOD64) + (rem * MOD64 + x)).
    { pose proof (N.div_mod' (limbs_val l) d). rewrite <- HR in *. nia. }
    rewrite (wrap64_small _ Hq). split; [by apply Forall_app; split; [|constructor]|].
    split; [rewrite !length_app, HL; done|]. rewrite !limbs_val_snoc, HQ, HD.
    rewrite (N.mul_comm d). split.
    + by rewrite N.div_add_l by lia.
    + by rewrite (N.add_comm (_ * d)), N.Div0.mod_add.
Qed.

(** [scale_target_by_ratio] is integer scaling, capped at the largest target. *)
Lemma scale_target_val t m d :
  m < MOD64 → 0 < d < MOD64 →
  ∃ t', scale_target_by_ratio t m d = Ok t' ∧
    target_val t' = N.min (target_val t * m / d) (2 ^ 256 - 1).
Proof.
  intros Hm Hd. unfold scale_target_by_ratio. destruct (N.eqb_spec d 0); [lia|].
  destruct (N.eqb_spec m 0) as [->|Hm0].
  { exists Target_zero. split; [done|]. by rewrite N.mul_0_r, N.div_0_l by lia. }
  set (l := limbs_of_be (hash_bytes (target_bytes t))).
  assert (HV : limbs_val l = target_val t) by (apply limbs_val_of_be, hash_length).
  destruct (mul_limbs_spec l m (limbs_of_be_wf _) Hm) as (W1 & L1 & V1).
  destruct (div_limbs_spec (mul_limbs l m) d W1 Hd) as (W2 & L2 & V2 & _).
  rewrite V1, HV in V2. rewrite L1 in L2. change (S (length l)) with 5%nat in L2.
  destruct (div_limbs (mul_limbs l m) d).1 as [|q0 rest]; [done|].
  rewrite limbs_val_cons in V2. apply Forall_cons in W2 as [Wq Wr].
  simpl in L2. injection L2 as L2. rewrite L2 in V2.
  change (MOD64 ^ N.of_nat 4) with (2 ^ 256) in V2.
  pose proof (limbs_val_bound rest Wr) as HB. rewrite L2 in HB. change (MOD64 ^ N.of_nat 4) with (2 ^ 256) in HB.
  destruct (N.ltb_spec 0 q0).
  - exists Target_max. split; [done|]. rewrite target_val_max, N.min_r; [done|].
    assert (0 < 2 ^ 256) by done. nia.
  - exists (mkTarget (arr32 (limbs_to_be rest))). split; [done|].
    rewrite target_val_arr32 by (by rewrite length_limbs_to_be, L2).
    rewrite be_val_limbs_to_be by done. assert (q0 = 0) as -> by lia. rewrite N.min_l by lia. lia.
Qed.

(** The numbers [calculate_next_target] works with. *)
Definition retarget_time (config : DifficultyConfig) (observed : N) : N :=
  let expected := epoch_blocks config * target_block_interval_secs config in
  N.max (expected / clamping_factor config) (N.min (expected * clamping_factor config) observed).

Definition config_ok (config : DifficultyConfig) : Prop :=
  0 < epoch_blocks config * target_block_interval_secs config ∧ 0 < clamping_factor config ∧
  epoch_blocks config * target_block_interval_secs config * clamping_factor config ≤ U64_MAX.

Lemma clamp_val x lo hi : lo ≤ hi → clamp x lo hi = N.max lo (N.min hi x).
Proof. intros. unfold clamp. destruct (N.ltb_spec x lo), (N.ltb_spec hi x); lia. Qed.

Lemma calculate_next_target_val t start end_ config :
  config_ok config → start < end_ →
  ∃ t', calculate_next_target t start end_ config = Ok t' ∧
    target_val t' =
      N.min (target_val t * retarget_time config (end_ - start)
             / (epoch_blocks config * target_block_interval_secs config))
            (target_val (max_target config)).
Proof.
  intros (He & Hc & Hmax) Hlt. unfold calculate_next_target.
  destruct (N.leb_spec end_ start); [lia|]. unfold retarget_time, checked_mul.
  set (e := epoch_blocks config * target_block_interval_secs config) in *.
  set (c := clamping_factor config) in *.
  assert (e ≤ U64_MAX) by nia.
  destruct (N.leb_spec e U64_MAX); [|lia]. cbn [ok_or obind].
  destruct (N.eqb_spec e 0); [lia|]. destruct (N.eqb_spec c 0); [lia|]. cbn [orb].
  destruct (N.leb_spec (e * c) U64_MAX); [|lia]. cbn [ok_or obind].
  pose proof (div_le_self e c).
  rewrite clamp_val by nia. set (ct := N.max _ _).
  destruct (scale_target_val t ct e) as (t' & -> & Ht'); [lia..|]. cbn [obind].
  rewrite bytes_ltb_be_val by (by rewrite !hash_length).
  change (be_val (hash_bytes (target_bytes (max_target config)))) with (target_val (max_target config)).
  change (be_val (hash_bytes (target_bytes t'))) with (target_val t').
  pose proof (target_val_bound (max_target config)).
  assert (2 ^ 256 - 1 < 2 ^ 256) by done.
  destruct (N.ltb_spec (target_val (max_target config)) (target_val t')) as [Hgt|Hle].
  - eexists. split; [done|]. lia.
  - eexists. split; [done|]. lia.
Qed.

Lemma length_carry_loop {A} (f : A → N → N * N) l c : length (carry_loop f l c).1 = length l.
Proof.
  unfold carry_loop. induction l as [|x l IH]; [done|]. cbn [foldr].
  destruct (foldr _ _ l) as [out c']. destruct (f x c'). cbn [fst length] in *. by rewrite IH.
Qed.

Lemma length_mul_limbs l m : length (mul_limbs l m) = S (length l).
Proof.
  unfold mul_limbs. set (f := λ limb carry, _). pose proof (length_carry_loop f l 0) as H.
  destruct (carry_loop f l 0). simpl in *. by rewrite H.
Qed.

Lemma length_div_limbs l d : length (div_limbs l d).1 = length l.
Proof.
  unfold div_limbs. induction l as [|x l IH] using rev_ind; [done|]. rewrite foldl_app. cbn [foldl].
  destruct (foldl _ _ l) as [q r]. cbn [fst] in *. by rewrite !length_app, IH.
Qed.

Lemma calculate_next_target_returns t start end_ config :
  returns (calculate_next_target t start end_ config).
Proof.
  unfold calculate_next_target. destruct (_ <=? _); [done|].
  apply returns_obind; [by destruct (checked_mul _ _)|intros e _].
  destruct (_ || _); [done|]. apply returns_obind; [by destruct (checked_mul _ _)|intros mx _].
  apply returns_obind; [|intros c _; by destruct (bytes_ltb _ _)].
  unfold scale_target_by_ratio. destruct (_ =? 0); [done|]. destruct (_ =? 0); [done|].
  pose proof (length_div_limbs (mul_limbs (limbs_of_be (hash_bytes (target_bytes t)))
    (clamp (end_ - start) (e / clamping_factor config) mx)) e) as HL. rewrite length_mul_limbs in HL.
  destruct (div_limbs _ _).1 as [|q0 rest]; [done|by destruct (0 <? q0)].
Qed.

(** A compact number has at most 23 significant bits above some byte. *)
Lemma compact_val_shape c :
  compact_val c < 2 ^ 255 → ∃ m j, compact_val c = m * 256 ^ j ∧ m < 2 ^ 23.
Proof.
  unfold compact_val. set (m := c mod 2 ^ 23). set (e := c / 2 ^ 24).
  assert (Hm : m < 2 ^ 23) by (by apply N.mod_lt).
  destruct (_ || _); [intros _; exists 0, 0; done|].
  destruct (e <=? 3); [|destruct (e <=? 32); [|done]].
  - intros _. exists (m / 256 ^ (3 - e)), 0. rewrite N.mul_1_r. split; [done|].
    eapply N.le_lt_trans; [apply div_le_self|done].
  - intros _. by exists m, (e - 3).
Qed.

Lemma truncate_exact m j k :
  m < 2 ^ 23 → (k = 0 ∨ 2 ^ 15 ≤ m * 256 ^ j / 256 ^ k) →
  m * 256 ^ j / 256 ^ k * 256 ^ k = m * 256 ^ j.
Proof.
  intros Hm Hk. destruct (N.le_gt_cases k j) as [Hkj|Hkj].
  - rewrite shift_div by done. rewrite <- N.mul_assoc, <- N.pow_add_r. do 2 f_equal. lia.
  - destruct Hk as [->|Hk]; [lia|]. exfalso. rewrite unshift_div in Hk by lia.
    assert (m / 256 ^ (k - j) < 2 ^ 15); [|lia]. apply N.Div0.div_lt_upper_bound.
    eapply N.lt_le_trans; [exact Hm|]. replace (k - j) with (1 + (k - j - 1)) by lia.
    rewrite N.pow_add_r. change (2 ^ 23) with (256 ^ 1 * 2 ^ 15). 
    assert (256 ^ (k - j - 1) ≠ 0) by (by apply N.pow_nonzero). nia.
Qed.

(** The retargeting cap is no compact number. *)
Lemma max_target_not_compact c : compact_val c ≠ target_val (max_target DifficultyConfig_default).
Proof.
  intros E. assert (HL : target_val (max_target DifficultyConfig_default) = 2 ^ 236 - 1) by (vm_compute; reflexivity).
  rewrite HL in E. destruct (compact_val_shape c) as (m & j & Em & Hm); [by rewrite E|].
  rewrite Em in E. destruct (N.eq_0_gt_0_cases j) as [->|Hj].
  - rewrite N.mul_1_r in E. rewrite E in Hm. vm_compute in Hm. done.
  - replace j with (1 + (j - 1)) in E by lia. rewrite N.pow_add_r in E.
    apply (f_equal (λ x, x mod 256)) in E.
    rewrite (N.mul_comm (256 ^ 1)), N.mul_assoc, N.Div0.mod_mul in E. vm_compute in E. done.
Qed.

Lemma validate_block_target_Ok h t :
  validate_block_target h t = Ok tt ↔ compact_val (difficulty_target h) = target_val t.
Proof.
  unfold validate_block_target. rewrite <- from_compact_val. case_bool_decide as E; simpl.
  - by rewrite E.
  - split; [done|]. by intros ?%target_val_inj.
Qed.

(** ** Properties *)

(** The compact form of targets: [from_compact] is mantissa times a power of 256
    (zero for a negative, zero-mantissa or zero-exponent form, all ones above
    exponent 32). Going to compact form and back truncates a target below
    2^255 to its leading bytes, losing less than 2^-15 of it and nothing when
    it came from compact form; a target from 2^255 on becomes the largest one. *)
Theorem compact_target_roundtrip (t : Target) (c : N) :
  target_val (from_compact c) = compact_val c ∧
  (target_val t < 2 ^ 255 → ∃ k,
     target_val (from_compact (to_compact t)) = target_val t / 256 ^ k * 256 ^ k ∧
     (k = 0 ∨ 2 ^ 15 ≤ target_val t / 256 ^ k)) ∧
  (target_val t < 2 ^ 255 → from_compact c = t → from_compact (to_compact t) = t) ∧
  (2 ^ 255 ≤ target_val t → from_compact (to_compact t) = Target_max).
Proof.
  pose proof (compact_roundtrip_val t) as [H1 H2].
  split; [apply from_compact_val|]. split; [done|]. split.
  - intros Hlt Hc. apply target_val_inj. destruct (H1 Hlt) as (k & -> & Hk).
    rewrite <- Hc, from_compact_val in *.
    destruct (compact_val_shape c Hlt) as (m & j & Em & Hm). rewrite Em in *.
    by apply truncate_exact.
  - intros Hge. apply target_val_inj. by rewrite target_val_max, H2.
Qed.

Lemma compact_target_roundtrip_witness :
  from_compact (to_compact (from_compact 0x1d00ffff)) = from_compact 0x1d00ffff ∧
  from_compact (to_compact (mkTarget (arr32 (x80 :: replicate 31 x00)))) = Target_max.
Proof.
  split.
  - apply (compact_target_roundtrip (from_compact 0x1d00ffff) 0x1d00ffff); vm_compute; reflexivity.
  - apply (compact_target_roundtrip (mkTarget (arr32 (x80 :: replicate 31 x00))) 0).
    vm_compute. discriminate.
Defined.

(** C29: Retargeting is [min(target * clamped / expected, max_target)] in exact
    integer arithmetic, without overflow in the 64-bit limbs, where the observed
    time is clamped to [expected / factor .. expected * factor]; so the new
    target is at most [factor] times the old one. It fails exactly when the
    epoch's end is not after its start. This is for a configuration that is
    [config_ok], as the one of the node is: its expected time and factor are
    positive and their product fits 64 bits. The largest target of that one is
    above the [0x1d00ffff] that [docs/protocol/consensus.md] names. *)
Theorem calculate_next_target_spec (t : Target) (start end_ : N) (config : DifficultyConfig)
    (Hc : config_ok config) :
  (end_ ≤ start → calculate_next_target t start end_ config = Err (InvalidObservedTime start end_)) ∧
  (start < end_ → ∃ t', calculate_next_target t start end_ config = Ok t' ∧
     target_val t' =
       N.min (target_val t * retarget_time config (end_ - start)
              / (epoch_blocks config * target_block_interval_secs config))
             (target_val (max_target config)) ∧
     target_val t' ≤ target_val t * clamping_factor config ∧
     target_val t' ≤ target_val (max_target config)).
Proof.
  split.
  - intros Hle. unfold calculate_next_target. destruct (N.leb_spec end_ start); [done|lia].
  - intros Hlt. destruct (calculate_next_target_val t start end_ config Hc Hlt) as (t' & E & V).
    exists t'. split; [done|]. split; [done|]. split; [|lia].
    rewrite V. apply N.min_le_iff. left. destruct Hc as (He & Hf & Hm). unfold retarget_time.
    set (e := epoch_blocks config * target_block_interval_secs config) in *.
    apply N.Div0.div_le_upper_bound. pose proof (div_le_self e (clamping_factor config)) as HD.
    set (f := clamping_factor config) in *. set (rt := N.max _ _).
    assert (Hrt : rt ≤ e * f) by (assert (e ≤ e * f) by nia; lia).
    rewrite (N.mul_comm (target_val t) f), N.mul_assoc, (N.mul_comm (target_val t)).
    by apply N.mul_le_mono_r.
Qed.

Lemma calculate_next_target_spec_witness :
  config_ok DifficultyConfig_default ∧
  ∃ t', calculate_next_target (from_compact 0x1d00ffff) 1000 (1000 + 43200) DifficultyConfig_default = Ok t' ∧
    target_val t' = 65535 * 256 ^ 26 / 2.
Proof.
  assert (Hc : config_ok DifficultyConfig_default) by (split; [|split]; vm_compute; done).
  split; [exact Hc|].
  destruct (proj2 (calculate_next_target_spec (from_compact 0x1d00ffff) 1000 (1000 + 43200) _ Hc))
    as (t' & E & V & _); [done|].
  exists t'. split; [exact E|]. rewrite V. vm_compute. reflexivity.
Defined.

(** The proof-of-work check compares numbers: a header passes exactly when its
    hash, read big-endian, is at most the target; and the header's own compact
    target must denote exactly the expected number, so an expected target that
    is no compact number is met by no header. The retargeting cap is such a
    number. *)
Theorem header_checks_numeric {B3 : Blake3} (h : BlockHeader) (expected : Target) :
  (verify_pow h expected = Ok tt ↔ be_val (hash_bytes (blake3 (header_bytes h))) ≤ target_val expected) ∧
  (validate_block_target h expected = Ok tt ↔
   compact_val (difficulty_target h) = target_val expected) ∧
  validate_block_target h (max_target DifficultyConfig_default) ≠ Ok tt.
Proof.
  split; [|split; [apply validate_block_target_Ok|]].
  - unfold verify_pow, compute_pow_hash, header_hash. rewrite header_to_canonical_bytes. cbn [obind].
    rewrite is_met_by_val. destruct (N.leb_spec (be_val (hash_bytes (blake3 (header_bytes h)))) (target_val expected));
      simpl; split; try done; lia.
  - rewrite validate_block_target_Ok. apply max_target_not_compact.
Qed.
