(* ===== verification/Work.v ===== *)
(** * Cumulative work

    [crates/scytale-consensus/src/work.rs]: 256-bit work values in 64-bit limbs,
    their checked addition, the long division and the work of a target. *)

From S2P Require Import Prelude Bytes Primitives Types Words Target.
Local Open Scope N_scope.
Local Open Scope scy_scope.

Record CumulativeWork := mkWork { work_limbs : list N }.
#[global] Instance work_eq_dec : EqDecision CumulativeWork.
Proof. solve_decision. Defined.

Definition Work_zero : CumulativeWork := mkWork (replicate 4 0).
Definition Work_from_be_bytes (bytes : Hash) : CumulativeWork := mkWork (limbs_of_be (hash_bytes bytes)).
Definition Work_to_be_bytes (w : CumulativeWork) : Hash := arr32 (limbs_to_be (work_limbs w)).

(** [w <= w'] in the derived order. *)
Definition work_leb (a b : CumulativeWork) : bool := negb (limbs_ltb (work_limbs b) (work_limbs a)).

Definition work_checked_add (a b : CumulativeWork) : option CumulativeWork :=
  let '(res, carry) :=
    carry_loop (λ p carry, let sum := wrap128 (p.1 + p.2 + carry) in (wrap64 sum, N.shiftr sum 64))
      (zip (work_limbs a) (work_limbs b)) 0 in
  if 0 <? carry then None else Some (mkWork res).

(** ** Long division *)

(** The remainder shifted left by one bit, the bit out of the top limb dropped. *)
Definition shl1 (remainder : list N) : list N :=
  (carry_loop (λ r c, (N.lor (wrap64 (N.shiftl r 1)) c, N.shiftr r 63)) remainder 0).1.

(** The subtraction loop, with [wrapping_sub] on [u128]. *)
Definition sub_limbs (remainder den : list N) : list N :=
  (carry_loop (λ p borrow,
     let diff := wrap128 (MOD128 + p.1 - (p.2 + borrow)) in
     (wrap64 diff, if p.1 <? diff then 1 else 0)) (zip remainder den) 0).1.

Definition div_step (num den : list N) (st : list N * list N) (i : nat) : list N * list N :=
  let '(quotient, remainder) := st in
  let remainder := shl1 remainder in
  let limb_idx := (3 - i / 64)%nat in
  let bit_idx := N.of_nat (i mod 64) in
  let bit := N.land (N.shiftr (num !!! limb_idx) bit_idx) 1 in
  let remainder := alter (λ r, N.lor r bit) 3%nat remainder in
  if negb (limbs_ltb remainder den)
  then (alter (λ q, N.lor q (N.shiftl 1 bit_idx)) limb_idx quotient, sub_limbs remainder den)
  else (quotient, remainder).

Definition div256 (num den : list N) : list N :=
  if bool_decide (den = replicate 4 0) then replicate 4 U64_MAX
  else if limbs_ltb num den then replicate 4 0
  else if bool_decide (num = den) then [0; 0; 0; 1]
  else (foldl (div_step num den) (replicate 4 0, replicate 4 0) (rev (seq 0 256))).1.

(** [limbs + 1]: the sum and the carry out. *)
Definition add_one (limbs : list N) : list N * N :=
  carry_loop (λ x carry, let sum := wrap128 (x + carry) in (wrap64 sum, N.shiftr sum 64)) limbs 1.

Definition block_work (target : Target) : CumulativeWork :=
  let t_limbs := limbs_of_be (hash_bytes (target_bytes target)) in
  let '(t_plus_1, carry) := add_one t_limbs in
  if 0 <? carry then mkWork [0; 0; 0; 1]
  else
    let not_t := (λ x, U64_MAX - x) <$> t_limbs in
    let div_res := div256 not_t t_plus_1 in
    mkWork (add_one div_res).1.

(** ** Values *)

Definition work_val (w : CumulativeWork) : N := limbs_val (work_limbs w).
Definition work_wf (w : CumulativeWork) : Prop :=
  limbs_wf (work_limbs w) ∧ length (work_limbs w) = 4%nat.

Notation "'MOD256'" := (MOD64 ^ N.of_nat 4) (only parsing).

Lemma work_val_bound w : work_wf w → work_val w < 2 ^ 256.
Proof. intros [Hw Hl]. pose proof (limbs_val_bound _ Hw) as H. by rewrite Hl in H. Qed.

Lemma work_leb_val a b : work_wf a → work_wf b → work_leb a b = (work_val a <=? work_val b).
Proof.
  intros [Wa La] [Wb Lb]. unfold work_leb. rewrite limbs_ltb_val by (done || congruence).
  unfold work_val. destruct (N.ltb_spec (limbs_val (work_limbs b)) (limbs_val (work_limbs a)));
    destruct (N.leb_spec (limbs_val (work_limbs a)) (limbs_val (work_limbs b))); simpl; lia || done.
Qed.

Lemma limbs_val_zip_add l1 l2 :
  length l1 = length l2 →
  limbs_val ((λ p : N * N, p.1 + p.2) <$> zip l1 l2) = limbs_val l1 + limbs_val l2.
Proof.
  revert l2; induction l1 as [|x l1 IH]; intros [|y l2] Hl; try done.
  injection Hl as Hl. change (zip (x :: l1) (y :: l2)) with ((x, y) :: zip l1 l2).
  rewrite fmap_cons, !limbs_val_cons, length_fmap, length_zip_with_l_eq, IH, Hl by done. cbn [fst snd]. lia.
Qed.

Lemma split_sum s : s < MOD128 → N.shiftr s 64 < MOD64.
Proof.
  intros. rewrite N.shiftr_div_pow2. apply N.Div0.div_lt_upper_bound. done.
Qed.

Lemma work_checked_add_spec a b :
  work_wf a → work_wf b →
  match work_checked_add a b with
  | Some c => work_wf c ∧ work_val c = work_val a + work_val b
  | None => 2 ^ 256 ≤ work_val a + work_val b
  end.
Proof.
  intros [Wa La] [Wb Lb]. unfold work_checked_add. set (f := λ p carry, _).
  destruct (carry_loop_val f (λ p, p.1 + p.2) (λ c, c ≤ 1) (zip (work_limbs a) (work_limbs b)) 0)
    as (HL & HW & HI & HV).
  - intros [x y] c Hin Hc. apply elem_of_zip_l in Hin as Hx. apply elem_of_zip_r in Hin as Hy.
    unfold limbs_wf in *. rewrite Forall_forall in Wa, Wb. apply Wa in Hx. apply Wb in Hy.
    unfold f. cbn [fst snd]. unfold wrap128. rewrite N.mod_small by lia.
    split; [apply split64|]. split; [apply wrap64_lt|].
    rewrite N.shiftr_div_pow2. apply N.lt_succ_r, N.Div0.div_lt_upper_bound.
    change (2 ^ 64) with MOD64. lia.
  - lia.
  - assert (Hlen : length (zip (work_limbs a) (work_limbs b)) = 4%nat)
      by (rewrite length_zip_with_l; lia).
    rewrite limbs_val_zip_add, Hlen in HV by congruence. rewrite Hlen in HL.
    destruct (carry_loop f _ 0) as [res carry]. cbn [fst snd] in *.
    change MOD256 with (2 ^ 256) in HV. unfold work_val.
    destruct (N.ltb_spec 0 carry).
    + assert (carry = 1) as -> by lia. lia.
    + split; [done|]. simpl. lia.
Qed.

Lemma add_one_spec l :
  limbs_wf l →
  length (add_one l).1 = length l ∧ limbs_wf (add_one l).1 ∧ (add_one l).2 ≤ 1 ∧
  limbs_val (add_one l).1 + MOD64 ^ N.of_nat (length l) * (add_one l).2 = limbs_val l + 1.
Proof.
  intros Hwf. unfold add_one. set (f := λ x carry, _).
  destruct (carry_loop_val f id (λ c, c ≤ 1) l 1) as (HL & HW & HI & HV).
  - intros x c Hin Hc. unfold limbs_wf in Hwf. rewrite Forall_forall in Hwf. apply Hwf in Hin.
    unfold f. cbn [fst snd]. unfold wrap128, id. rewrite N.mod_small by lia.
    split; [apply split64|]. split; [apply wrap64_lt|].
    rewrite N.shiftr_div_pow2. apply N.lt_succ_r, N.Div0.div_lt_upper_bound.
    change (2 ^ 64) with MOD64. lia.
  - done.
  - rewrite list_fmap_id in HV. done.
Qed.

(** ** The division loop *)

Lemma limbs_4 (l : list N) : length l = 4%nat → ∃ a b c d, l = [a; b; c; d].
Proof. destruct l as [|a [|b [|c [|d [|]]]]]; try done. by exists a, b, c, d. Qed.

Lemma limbs_val_4 a b c d :
  limbs_val [a; b; c; d] = a * 2 ^ 192 + b * 2 ^ 128 + c * 2 ^ 64 + d.
Proof.
  rewrite !limbs_val_cons. cbn [length]. change (limbs_val []) with 0.
  change (MOD64 ^ N.of_nat 3) with (2 ^ 192). change (MOD64 ^ N.of_nat 2) with (2 ^ 128).
  change (MOD64 ^ N.of_nat 1) with (2 ^ 64). change (MOD64 ^ N.of_nat 0) with 1. lia.
Qed.

Lemma lor_even d bit : d mod 2 = 0 → bit < 2 → N.lor d bit = d + bit.
Proof.
  intros Hd Hb. rewrite (N.div_mod' d 2), Hd, N.add_0_r, (N.mul_comm 2). change 2 with (2 ^ 1) at 2 4.
  rewrite <- N.shiftl_mul_pow2 at 1. by apply lor_shiftl_add.
Qed.

Lemma lor_lt a b n : a < 2 ^ n → b < 2 ^ n → N.lor a b < 2 ^ n.
Proof.
  intros Ha Hb. rewrite <- (N.mod_small a (2 ^ n)), <- (N.mod_small b (2 ^ n)) by done.
  rewrite <- !N.land_ones, <- N.land_lor_distr_l, N.land_ones. apply N.mod_lt. by apply N.pow_nonzero.
Qed.

Lemma lor_bit_add q n : N.testbit q n = false → N.lor q (N.shiftl 1 n) = q + 2 ^ n.
Proof.
  intros Hq. rewrite N.shiftl_1_l. assert (HL : N.land q (2 ^ n) = 0).
  { apply N.bits_inj. intros m. rewrite N.land_spec, N.bits_0.
    destruct (decide (m = n)) as [->|]; [by rewrite Hq|]. by rewrite N.pow2_bits_false, andb_false_r. }
  by rewrite <- N.lxor_lor, <- N.add_nocarry_lxor.
Qed.

Lemma shl1_spec r :
  limbs_wf r → length r = 4%nat → limbs_val r < 2 ^ 255 →
  limbs_wf (shl1 r) ∧ length (shl1 r) = 4%nat ∧ limbs_val (shl1 r) = 2 * limbs_val r.
Proof.
  intros Hwf Hl Hb. unfold shl1. set (f := λ x c, _).
  destruct (carry_loop_val f (λ x, x * 2) (λ c, c < 2) r 0) as (HL & HW & HI & HV).
  - intros x c Hin Hc. unfold limbs_wf in Hwf. rewrite Forall_forall in Hwf. apply Hwf in Hin.
    unfold f. cbn [fst snd]. unfold wrap64.
    rewrite N.shiftl_mul_pow2, N.shiftr_div_pow2. change (2 ^ 1) with 2.
    assert (HE : (x * 2) mod MOD64 = x mod 2 ^ 63 * 2).
    { change MOD64 with (2 ^ 63 * 2). by rewrite N.Div0.mul_mod_distr_r. }
    rewrite HE, lor_even; [|by rewrite N.Div0.mod_mul|done].
    pose proof (N.div_mod' x (2 ^ 63)) as HD. pose proof (N.mod_lt x (2 ^ 63)) as HM.
    change (2 ^ 63) with 9223372036854775808 in *. split; [lia|]. split; [lia|].
    apply N.Div0.div_lt_upper_bound. lia.
  - done.
  - rewrite HL, limbs_val_map_mul, Hl in *. change MOD256 with (2 ^ 256) in HV.
    split; [done|]. split; [done|].
    assert (HZ : (carry_loop f r 0).2 = 0).
    { change (2 ^ 256) with (2 * 2 ^ 255) in HV. nia. }
    rewrite HZ in HV. lia.
Qed.

Lemma sub_limbs_loop r d :
  limbs_wf r → limbs_wf d → length r = length d →
  let st := carry_loop (λ p borrow,
     let diff := wrap128 (MOD128 + p.1 - (p.2 + borrow)) in
     (wrap64 diff, if p.1 <? diff then 1 else 0)) (zip r d) 0 in
  limbs_wf st.1 ∧ length st.1 = length r ∧ st.2 ≤ 1 ∧
  limbs_val st.1 + limbs_val d = limbs_val r + MOD64 ^ N.of_nat (length r) * st.2.
Proof.
  intros Hr. revert d; induction Hr as [|x r Hx Hr IH]; intros [|y d] Hd Hl; try done.
  injection Hl as Hl. apply Forall_cons in Hd as [Hy Hd]. destruct (IH d Hd Hl) as (W & L & B & V).
  change (zip (x :: r) (y :: d)) with ((x, y) :: zip r d). cbv zeta.
  unfold carry_loop in *. cbn [foldr fst snd] in *. destruct (foldr _ _ (zip r d)) as [out b].
  cbn [fst snd] in *. rewrite !limbs_val_cons, L. cbn [length]. rewrite Nat2N.inj_succ, N.pow_succ_r'.
  set (P := MOD64 ^ N.of_nat (length r)) in *. rewrite <- Hl. fold P.
  destruct (N.le_gt_cases (y + b) x) as [Hge|Hlt].
  - assert (HD : wrap128 (MOD128 + x - (y + b)) = x - (y + b)).
    { unfold wrap128. replace (MOD128 + x - (y + b)) with (x - (y + b) + 1 * MOD128) by lia.
      rewrite N.Div0.mod_add. apply N.mod_small. lia. }
    rewrite HD, wrap64_small by lia. destruct (N.ltb_spec x (x - (y + b))); [lia|].
    split; [constructor; [lia|exact W]|]. split; [congruence|]. split; [lia|]. nia.
  - assert (HD : wrap128 (MOD128 + x - (y + b)) = MOD128 - (y + b - x)).
    { unfold wrap128. rewrite N.mod_small; lia. }
    assert (HW : wrap64 (MOD128 - (y + b - x)) = MOD64 - (y + b - x)).
    { unfold wrap64. replace (MOD128 - (y + b - x)) with (MOD64 - (y + b - x) + (MOD64 - 1) * MOD64) by lia.
      rewrite N.Div0.mod_add. apply N.mod_small. lia. }
    rewrite HD, HW. destruct (N.ltb_spec x (MOD128 - (y + b - x))); [|lia].
    split; [constructor; [lia|exact W]|]. split; [congruence|]. split; [lia|]. nia.
Qed.

Lemma sub_limbs_spec r d :
  limbs_wf r → limbs_wf d → length r = 4%nat → length d = 4%nat → limbs_val d ≤ limbs_val r →
  limbs_wf (sub_limbs r d) ∧ length (sub_limbs r d) = 4%nat ∧
  limbs_val (sub_limbs r d) = limbs_val r - limbs_val d.
Proof.
  intros Hr Hd Lr Ld Hle. unfold sub_limbs.
  destruct (sub_limbs_loop r d Hr Hd) as (W & L & B & V); [congruence|].
  destruct (carry_loop _ (zip r d) 0) as [out b]. cbn [fst snd] in *.
  rewrite Lr in L. split; [done|]. split; [done|].
  pose proof (limbs_val_bound out W) as HB. rewrite L in HB. rewrite Lr in V. nia.
Qed.

Lemma limbs_testbit l i :
  limbs_wf l → (i < 64 * length l)%nat →
  N.testbit (limbs_val l) (N.of_nat i) =
  N.testbit (l !!! (length l - 1 - i / 64)%nat) (N.of_nat (i mod 64)).
Proof.
  revert i; induction l as [|x l IH] using rev_ind; intros i Hwf Hi; [simpl in Hi; lia|].
  apply Forall_app in Hwf as [Hl Hx%Forall_cons]. destruct Hx as [Hx _].
  rewrite length_app in *. cbn [length] in *. rewrite limbs_val_snoc.
  change MOD64 with (2 ^ 64). rewrite <- lor_shiftl_add, N.lor_spec by done.
  destruct (Nat.lt_ge_cases i 64) as [Hlt|Hge].
  - rewrite N.shiftl_spec_low by lia. rewrite Nat.div_small, Nat.mod_small by done.
    replace (length l + 1 - 1 - 0)%nat with (length l) by lia.
    by rewrite (lookup_total_app_r l) by done; rewrite Nat.sub_diag.
  - rewrite N.shiftl_spec_high' by lia. rewrite (testbit_high x 64 (N.of_nat i)), orb_false_r by (done || lia).
    replace (N.of_nat i - 64) with (N.of_nat (i - 64)) by lia. rewrite IH by (done || lia).
    assert (Hdiv : (i / 64 = S ((i - 64) / 64))%nat).
    { replace i with (i - 64 + 1 * 64)%nat at 1 by lia. rewrite Nat.div_add by lia. lia. }
    assert (Hmod : (i mod 64 = (i - 64) mod 64)%nat).
    { replace i with (i - 64 + 1 * 64)%nat at 1 by lia. by rewrite Nat.Div0.mod_add. }
    rewrite Hdiv, Hmod. assert (((i - 64) / 64 < length l)%nat) by (apply Nat.Div0.div_lt_upper_bound; lia).
    f_equal. rewrite (lookup_total_app_l l) by lia. f_equal. lia.
Qed.

Lemma bit_extract num i :
  limbs_wf num → length num = 4%nat → (i < 256)%nat →
  N.land (N.shiftr (num !!! (3 - i / 64)%nat) (N.of_nat (i mod 64))) 1 =
  N.b2n (N.testbit (limbs_val num) (N.of_nat i)).
Proof.
  intros Hw Hl Hi. rewrite limbs_testbit by (done || lia). rewrite Hl.
  change (4 - 1)%nat with 3%nat. change 1 with (N.ones 1) at 1.
  rewrite N.land_ones. change (2 ^ 1) with 2. by rewrite N.testbit_spec', N.shiftr_div_pow2.
Qed.

Lemma alter_low_bit r bit :
  limbs_wf r → length r = 4%nat → limbs_val r mod 2 = 0 → bit < 2 →
  let r' := alter (λ x, N.lor x bit) 3%nat r in
  limbs_wf r' ∧ length r' = 4%nat ∧ limbs_val r' = limbs_val r + bit.
Proof.
  intros Hw Hl He Hb. destruct (limbs_4 r Hl) as (x & y & z & d & ->).
  change (alter (λ x, N.lor x bit) 3%nat [x; y; z; d]) with [x; y; z; N.lor d bit].
  rewrite !limbs_val_4 in *. unfold limbs_wf in *. rewrite !Forall_cons in *.
  destruct Hw as (? & ? & ? & Hd & _).
  assert (Hd2 : d mod 2 = 0).
  { rewrite <- He. change (2 ^ 192) with (2 ^ 191 * 2). change (2 ^ 128) with (2 ^ 127 * 2).
    change (2 ^ 64) with (2 ^ 63 * 2). rewrite !N.mul_assoc, <- !N.mul_add_distr_r.
    by rewrite N.add_comm, N.Div0.mod_add. }
  assert (N.lor d bit < MOD64).
  { apply (lor_lt d bit 64); [done|]. eapply N.lt_trans; [exact Hb|done]. }
  rewrite (lor_even d bit Hd2 Hb) in *. rewrite limbs_val_4. split; [by repeat split|]. split; [done|]. ring.
Qed.

Lemma alter_bit q i :
  limbs_wf q → length q = 4%nat → (i < 256)%nat → N.testbit (limbs_val q) (N.of_nat i) = false →
  let q' := alter (λ x, N.lor x (N.shiftl 1 (N.of_nat (i mod 64)))) (3 - i / 64)%nat q in
  limbs_wf q' ∧ length q' = 4%nat ∧ limbs_val q' = limbs_val q + 2 ^ N.of_nat i.
Proof.
  intros Hw Hl Hi Hbit. rewrite limbs_testbit in Hbit by (done || lia). rewrite Hl in Hbit.
  change (4 - 1 - i / 64)%nat with (3 - i / 64)%nat in Hbit.
  set (b := (i mod 64)%nat) in *. assert (Hb : (b < 64)%nat) by (apply Nat.mod_upper_bound; lia).
  assert (Hi' : i = (64 * (i / 64) + b)%nat) by (apply Nat.div_mod_eq).
  assert (Hq : (i / 64 < 4)%nat) by (apply Nat.Div0.div_lt_upper_bound; lia).
  assert (H2i : 2 ^ N.of_nat i = 2 ^ N.of_nat b * 2 ^ (64 * N.of_nat (i / 64))).
  { rewrite <- N.pow_add_r. f_equal. lia. }
  rewrite H2i. destruct (limbs_4 q Hl) as (x & y & z & d & ->).
  assert (Hlt : 2 ^ N.of_nat b < 2 ^ 64) by (apply N.pow_lt_mono_r; lia).
  assert (Hlor : ∀ v, v < MOD64 → N.testbit v (N.of_nat b) = false →
            N.lor v (N.shiftl 1 (N.of_nat b)) = v + 2 ^ N.of_nat b ∧ v + 2 ^ N.of_nat b < MOD64).
  { intros v Hv Hvb. rewrite <- lor_bit_add by done. split; [done|].
    apply (lor_lt _ _ 64); [done|]. by rewrite N.shiftl_1_l. }
  unfold limbs_wf in *. rewrite !Forall_cons in Hw. destruct Hw as (Hx & Hy & Hz & Hd & _).
  destruct (i / 64)%nat as [|[|[|[|]]]]; try lia; cbn [Nat.sub] in *; cbn in Hbit;
    match goal with |- context [alter ?f ?k [x; y; z; d]] =>
      let l := eval cbv [alter list_alter] in (alter f k [x; y; z; d]) in change (alter f k [x; y; z; d]) with l end;
    cbn [length]; rewrite !limbs_val_4, !Forall_cons;
    match goal with H : N.testbit ?v _ = false |- _ => destruct (Hlor v) as [-> ?]; [done..|] end;
    (split; [by repeat split|]); (split; [done|]).
  - change (2 ^ (64 * N.of_nat 0)) with 1. ring.
  - change (2 ^ (64 * N.of_nat 1)) with (2 ^ 64). ring.
  - change (2 ^ (64 * N.of_nat 2)) with (2 ^ 128). ring.
  - change (2 ^ (64 * N.of_nat 3)) with (2 ^ 192). ring.
Qed.

(** After the bits from [i] up: the quotient of the leading bits of [num]. *)
Definition div_inv (num den : list N) (i : nat) (st : list N * list N) : Prop :=
  ∃ Q, limbs_wf st.1 ∧ length st.1 = 4%nat ∧ limbs_wf st.2 ∧ length st.2 = 4%nat ∧
    limbs_val st.1 = Q * 2 ^ N.of_nat i ∧
    limbs_val num / 2 ^ N.of_nat i = Q * limbs_val den + limbs_val st.2 ∧
    limbs_val st.2 < limbs_val den.

Lemma div_shift v i :
  v / 2 ^ N.of_nat i = 2 * (v / 2 ^ N.of_nat (S i)) + N.b2n (N.testbit v (N.of_nat i)).
Proof.
  rewrite Nat2N.inj_succ, N.pow_succ_r', (N.mul_comm 2 (2 ^ _)), <- N.Div0.div_div.
  rewrite N.testbit_spec'. apply N.div_mod'.
Qed.

Lemma div_step_inv num den i st :
  limbs_wf num → length num = 4%nat → limbs_wf den → length den = 4%nat → (i < 256)%nat →
  div_inv num den (S i) st → div_inv num den i (div_step num den st i).
Proof.
  intros Wn Ln Wd Ld Hi (Q & W1 & L1 & W2 & L2 & HQ & HN & HR).
  destruct st as [q r]. cbn [fst snd] in *. unfold div_step.
  set (bit := N.b2n (N.testbit (limbs_val num) (N.of_nat i))).
  assert (Hbit : bit < 2) by (subst bit; by destruct (N.testbit _ _)).
  assert (Hr255 : limbs_val r < 2 ^ 255).
  { pose proof (limbs_val_bound num Wn) as HB. rewrite Ln in HB. change MOD256 with (2 ^ 256) in HB.
    pose proof (div_shift (limbs_val num) i) as HD.
    pose proof (div_le_self (limbs_val num) (2 ^ N.of_nat i)). rewrite HN in HD.
    change (2 ^ 256) with (2 * 2 ^ 255) in HB. lia. }
  destruct (shl1_spec r W2 L2 Hr255) as (Ws & Ls & Vs).
  destruct (alter_low_bit (shl1 r) bit Ws Ls) as (Wa & La & Va);
    [rewrite Vs, N.mul_comm; apply N.Div0.mod_mul|done|].
  rewrite bit_extract by done. fold bit.
  set (r' := alter (λ x, N.lor x bit) 3%nat (shl1 r)) in *.
  pose proof (div_shift (limbs_val num) i) as HD. fold bit in HD. rewrite HN in HD.
  rewrite limbs_ltb_val by congruence || done.
  rewrite Nat2N.inj_succ, N.pow_succ_r' in HQ.
  destruct (N.ltb_spec (limbs_val r') (limbs_val den)) as [Hlt|Hge]; cbn [negb].
  - exists (2 * Q). cbn [fst snd]. repeat (split; [done|]). split; [lia|]. split; [|done]. lia.
  - destruct (sub_limbs_spec r' den Wa Wd La Ld Hge) as (Wb & Lb & Vb).
    destruct (alter_bit q i W1 L1 Hi) as (Wq & Lq & Vq).
    { rewrite HQ. replace (Q * (2 * 2 ^ N.of_nat i)) with (Q * 2 ^ N.of_nat (S i))
        by (rewrite Nat2N.inj_succ, N.pow_succ_r'; lia).
      rewrite <- N.shiftl_mul_pow2. apply N.shiftl_spec_low. lia. }
    exists (2 * Q + 1). cbn [fst snd]. repeat (split; [done|]). split; [lia|]. split; lia.
Qed.

Lemma div_loop num den n st :
  limbs_wf num → length num = 4%nat → limbs_wf den → length den = 4%nat → (n ≤ 256)%nat →
  div_inv num den n st → div_inv num den 0 (foldl (div_step num den) st (rev (seq 0 n))).
Proof.
  intros Wn Ln Wd Ld. revert st; induction n as [|n IH]; intros st Hn Hinv; [done|].
  rewrite seq_S, rev_app_distr. cbn [rev app Nat.add foldl]. apply IH; [lia|].
  by apply div_step_inv.
Qed.

Lemma limbs_wf_zeros n : limbs_wf (replicate n 0).
Proof. apply Forall_replicate. done. Qed.

(** The long division computes the quotient. *)
Lemma div256_val num den :
  limbs_wf num → length num = 4%nat → limbs_wf den → length den = 4%nat → limbs_val den ≠ 0 →
  limbs_wf (div256 num den) ∧ length (div256 num den) = 4%nat ∧
  limbs_val (div256 num den) = limbs_val num / limbs_val den.
Proof.
  intros Wn Ln Wd Ld Hd. unfold div256. case_bool_decide as E0; [by subst den|].
  rewrite limbs_ltb_val by congruence || done.
  destruct (N.ltb_spec (limbs_val num) (limbs_val den)) as [Hlt|Hge].
  { split; [apply limbs_wf_zeros|]. split; [done|]. by rewrite N.div_small. }
  case_bool_decide as E1.
  { subst den. split; [by repeat constructor|]. split; [done|]. by rewrite N.div_same. }
  destruct (div_loop num den 256 (replicate 4 0, replicate 4 0) Wn Ln Wd Ld)
    as (Q & W1 & L1 & _ & _ & HQ & HN & HR); [done| |].
  - exists 0. cbn [fst snd]. repeat (split; [apply limbs_wf_zeros || done|]).
    rewrite N.div_small; [split; [done|change (limbs_val (replicate 4 0)) with 0; lia]|].
    pose proof (limbs_val_bound num Wn) as HB. by rewrite Ln in HB.
  - split; [done|]. split; [done|]. change (2 ^ N.of_nat 0) with 1 in *.
    rewrite N.div_1_r in HN. rewrite HQ, N.mul_1_r.
    apply (N.div_unique _ _ _ (limbs_val (foldl (div_step num den) (replicate 4 0, replicate 4 0) (rev (seq 0 256))).2)); [done|].
    lia.
Qed.

Lemma not_limbs_val l :
  limbs_wf l →
  limbs_wf ((λ x, U64_MAX - x) <$> l) ∧
  limbs_val ((λ x, U64_MAX - x) <$> l) + limbs_val l + 1 = MOD64 ^ N.of_nat (length l).
Proof.
  induction 1 as [|x l Hx Hl [IHw IHv]]; [split; [constructor|done]|].
  rewrite fmap_cons, !limbs_val_cons, length_fmap. split; [constructor; [lia|done]|].
  cbn [length]. rewrite Nat2N.inj_succ, N.pow_succ_r'. rewrite <- IHv.
  set (v := limbs_val l) in *. set (w := limbs_val _) in *.
  replace x with (U64_MAX - (U64_MAX - x)) at 2 by lia. set (y := U64_MAX - x).
  assert (y ≤ U64_MAX) by (subst y; lia). nia.
Qed.

Lemma block_work_val t :
  work_wf (block_work t) ∧
  work_val (block_work t) = (2 ^ 256 / (target_val t + 1)) mod 2 ^ 256.
Proof.
  unfold block_work. set (l := limbs_of_be (hash_bytes (target_bytes t))).
  assert (Wl : limbs_wf l) by apply limbs_of_be_wf.
  assert (Vl : limbs_val l = target_val t) by (apply limbs_val_of_be, hash_length).
  destruct (add_one_spec l Wl) as (L1 & W1 & C1 & V1). change (length l) with 4%nat in *.
  destruct (add_one l) as [t1 carry]. cbn [fst snd] in *. rewrite Vl in V1.
  change MOD256 with (2 ^ 256) in V1. pose proof (limbs_val_bound t1 W1) as B1.
  rewrite L1 in B1. change MOD256 with (2 ^ 256) in B1.
  pose proof (target_val_bound t) as Bt.
  destruct (N.ltb_spec 0 carry).
  - assert (carry = 1) as -> by lia. assert (target_val t + 1 = 2 ^ 256) as -> by lia.
    split; [split; [by repeat constructor|done]|]. by rewrite N.div_same.
  - assert (carry = 0) as -> by lia. rewrite N.mul_0_r, N.add_0_r in V1.
    destruct (not_limbs_val l Wl) as [Wn Vn]. change (length l) with 4%nat in Vn.
    rewrite Vl in Vn. change MOD256 with (2 ^ 256) in Vn.
    assert (Ln : length ((λ x, U64_MAX - x) <$> l) = 4%nat) by (by rewrite length_fmap).
    destruct (div256_val _ t1 Wn Ln W1 L1) as (Wq & Lq & Vq); [lia|].
    set (q := div256 _ t1) in *. destruct (add_one_spec q Wq) as (L2 & W2 & C2 & V2).
    rewrite Lq in *. change MOD256 with (2 ^ 256) in V2.
    unfold work_val, work_wf. cbn [work_limbs]. split; [done|].
    pose proof (limbs_val_bound _ W2) as B2. rewrite L2 in B2. change MOD256 with (2 ^ 256) in B2.
    assert (HQ : 2 ^ 256 / (target_val t + 1) = limbs_val q + 1).
    { rewrite <- Vn, Vq, V1. replace (limbs_val ((λ x, U64_MAX - x) <$> l) + target_val t + 1)
        with (limbs_val ((λ x, U64_MAX - x) <$> l) + 1 * (target_val t + 1)) by lia.
      by rewrite N.div_add by lia. }
    rewrite HQ, <- V2, (N.mul_comm (2 ^ 256)), N.Div0.mod_add. symmetry. by apply N.mod_small.
Qed.

Lemma block_work_pos t :
  target_val t ≠ 0 → work_val (block_work t) = 2 ^ 256 / (target_val t + 1) ∧ 0 < work_val (block_work t).
Proof.
  intros Ht. destruct (block_work_val t) as [_ ->]. pose proof (target_val_bound t).
  rewrite N.mod_small.
  - split; [done|]. apply N.div_str_pos. lia.
  - apply N.div_lt; [done|lia].
Qed.

(** ** Properties *)

(** The 256-bit arithmetic is exact: [div256] is integer division, [checked_add]
    is addition with [None] exactly on overflow, the derived order is the
    numeric one. *)
Theorem work_arithmetic (a b : CumulativeWork) (Wa : work_wf a) (Wb : work_wf b) :
  (work_val b ≠ 0 → limbs_val (div256 (work_limbs a) (work_limbs b)) = work_val a / work_val b) ∧
  (match work_checked_add a b with
   | Some c => work_wf c ∧ work_val c = work_val a + work_val b
   | None => 2 ^ 256 ≤ work_val a + work_val b
   end) ∧
  work_leb a b = (work_val a <=? work_val b).
Proof.
  split.
  - intros Hb. apply div256_val; try apply Wa; try apply Wb. done.
  - split; [by apply work_checked_add_spec|by apply work_leb_val].
Qed.

Lemma work_arithmetic_witness :
  limbs_val (div256 [0; 1; 2; 3] [0; 0; 5; 6]) = (2 ^ 128 + 2 * 2 ^ 64 + 3) / (5 * 2 ^ 64 + 6).
Proof.
  apply (work_arithmetic (mkWork [0; 1; 2; 3]) (mkWork [0; 0; 5; 6])).
  - split; [repeat constructor|done].
  - split; [repeat constructor|done].
  - vm_compute. discriminate.
Defined.

(** The work of a target is [2^256 / (target + 1)], at least 1, and smaller
    targets have at least as much of it; for the zero target, which no hash but
    zero meets, it wraps to 0. *)
Theorem block_work_spec (t t' : Target) :
  work_wf (block_work t) ∧
  (target_val t ≠ 0 → work_val (block_work t) = 2 ^ 256 / (target_val t + 1) ∧
                      0 < work_val (block_work t)) ∧
  (target_val t ≠ 0 → target_val t ≤ target_val t' →
   work_val (block_work t') ≤ work_val (block_work t)) ∧
  work_val (block_work Target_zero) = 0.
Proof.
  split; [apply block_work_val|]. split; [apply block_work_pos|]. split; [|vm_compute; done].
  intros Ht Hle. destruct (block_work_pos t Ht) as [-> _]. destruct (block_work_pos t') as [-> _]; [lia|].
  apply N.div_le_compat_l. lia.
Qed.

Lemma block_work_spec_witness :
  work_val (block_work (from_compact 0x1d00ffff)) = 2 ^ 256 / (target_val (from_compact 0x1d00ffff) + 1) ∧
  work_val (block_work Target_max) ≤ work_val (block_work (from_compact 0x1d00ffff)).
Proof.
  split.
  - apply (block_work_spec (from_compact 0x1d00ffff) Target_max). vm_compute. discriminate.
  - apply (block_work_spec (from_compact 0x1d00ffff) Target_max); vm_compute; discriminate.
Defined.
