(* ===== verification/Tables.v ===== *)
(** * Storage: table keys and records

    [crates/scytale-storage/src/tables.rs], [error.rs] and the encodings at the
    top of [engine.rs]: the keys of the tables, the metadata of a block, the
    records of the address index and the undo data of a block, with the laws of
    their encodings. *)

From S2P Require Import Prelude Bytes Primitives Types Codec Transaction Words Work.
Local Open Scope N_scope.
Local Open Scope scy_scope.

(** ** Errors *)

(** The messages of [Serialization] and [InconsistentState]. *)
Inductive SerializationMessage :=
| CodecFailure (e : SerializationError)
| TrailingUndoBytes.
Inductive StorageReason :=
| TipHashLength
| TipHeightMissing
| TipHeightLength
| DuplicateUtxo (e : UtxoError)
| SnapshotMismatch (expected calculated : Hash)
| MissingUndo (block : Hash).

Inductive StorageError :=
| RedbError
| RedbDatabaseError
| RedbTransactionError
| RedbTableError
| RedbCommitError
| RedbStorageError
| StorageSerialization (m : SerializationMessage)
| StorageNotFound
| StorageInconsistent (r : StorageReason).

(** [.map_err(|e| StorageError::serialization(e.to_string()))]. *)
Definition ser_err {A} (m : outcome SerializationError A) : outcome StorageError A :=
  map_err (λ e, StorageSerialization (CodecFailure e)) m.

(** ** Keys *)

(** Prefix of 32 bytes, then the index little-endian. *)
Definition outpoint_to_key (o : OutPoint) : list byte := hash_bytes (op_txid o) ++ le_bytes 4 (op_index o).

(** The key is a [[u8; 36]]; [None] on any other length. *)
Definition key_to_outpoint (key : list byte) : option OutPoint :=
  if bool_decide (length key = 36%nat)
  then h ← hash_of_list (take 32 key); Some (mkOutPoint h (le_val (drop 32 key)))
  else None.

Definition make_address_tx_key (address_hash : Hash) (height : N) : list byte :=
  hash_bytes address_hash ++ be_bytes 8 height.

(** The value of the confirmation index, and reading it back. *)
Definition location_bytes (block_hash : Hash) (height : N) : list byte := hash_bytes block_hash ++ be_bytes 8 height.
Definition location_of (bytes : list byte) : option (Hash * N) :=
  h ← hash_of_list (take 32 bytes); Some (h, be_val (take 8 (drop 32 bytes))).

(** ** Block metadata *)

Record BlockMeta := mkBlockMeta {
  meta_height : N;
  meta_cumulative_work : list N;
  meta_timestamp : N
}.
Definition BYTE_LEN : nat := 48.

Definition meta_to_bytes (m : BlockMeta) : list byte :=
  le_bytes 8 (meta_height m) ++ (meta_cumulative_work m ≫= le_bytes 8) ++ le_bytes 8 (meta_timestamp m).

(** [u64::from_le_bytes] of the slice of eight bytes at [at]. *)
Definition word_at (b : list byte) (at_ : nat) : N := le_val (take 8 (drop at_ b)).
Definition meta_from_bytes (b : list byte) : option BlockMeta :=
  if (length b <? BYTE_LEN)%nat then None
  else Some (mkBlockMeta (word_at b 0) ((λ i, word_at b (8 + i * 8)) <$> seq 0 4) (word_at b 40)).

(** ** Records of the address index *)

Record AddressTxRecord := mkAddressTxRecord {
  r_txid : Hash;
  r_is_input : bool;
  r_is_output : bool;
  r_value_quanta : N;
  r_token_id : option Hash
}.

#[export] Instance ser_record : CanonicalSerialize AddressTxRecord := λ r,
  let? a := serialize_canonical (r_txid r) in
  let? b := serialize_canonical (r_is_input r) in
  let? c := serialize_canonical (r_is_output r) in
  let? d := write_u64 (r_value_quanta r) in
  match r_token_id r with
  | Some token => let? e := write_u8 1 in Ok (a ++ b ++ c ++ d ++ e ++ hash_bytes token)
  | None => let? e := write_u8 0 in Ok (a ++ b ++ c ++ d ++ e)
  end.
#[export] Instance deser_record : CanonicalDeserialize AddressTxRecord := λ r,
  let? (txid, r) := deserialize_canonical r in
  let? (is_input, r) := deserialize_canonical r in
  let? (is_output, r) := deserialize_canonical r in
  let? (value_quanta, r) := read_u64 r in
  let? (has_token, r) := read_u8 r in
  if has_token =? 0 then Ok (mkAddressTxRecord txid is_input is_output value_quanta None, r)
  else if has_token =? 1 then
    let? (token, r) := read_exact 32 r in
    let? token := expect (hash_of_list token) in
    Ok (mkAddressTxRecord txid is_input is_output value_quanta (Some token), r)
  else Err InvalidEncoding.

Definition serialize_address_tx_records (records : list AddressTxRecord) :
    outcome SerializationError (list byte) := serialize_counted records.

Definition deserialize_address_tx_records (bytes : list byte) :
    outcome SerializationError (list AddressTxRecord) :=
  let? (count, r) := read_u32 bytes in
  if MAX_VECTOR_LENGTH <? count then Err (LengthExceedsLimit count MAX_VECTOR_LENGTH)
  else
    let? (records, rest) := deserialize_each (N.to_nat count) r in
    if (0 <? length rest)%nat then Err (TrailingBytes (N.of_nat (length rest))) else Ok records.

(** ** Undo data *)

Record BlockUndo := mkBlockUndo {
  spent_utxos : list (OutPoint * UtxoEntry);
  created_outpoints : list OutPoint
}.

(** The two loops write each entry as its canonical bytes. *)
#[export] Instance ser_spent : CanonicalSerialize (OutPoint * UtxoEntry) := λ p,
  let? a := to_canonical_bytes p.1 in
  let? b := to_canonical_bytes p.2 in
  Ok (a ++ b).
#[export] Instance deser_spent : CanonicalDeserialize (OutPoint * UtxoEntry) := λ r,
  let? (o, r) := deserialize_canonical r in
  let? (e, r) := deserialize_canonical r in
  Ok ((o, e), r).

Definition undo_to_bytes (u : BlockUndo) : outcome StorageError (list byte) :=
  let? spent := ser_err (serialize_each (spent_utxos u)) in
  let? created := ser_err (serialize_each (created_outpoints u)) in
  Ok (le_bytes 4 (wrap32 (N.of_nat (length (spent_utxos u)))) ++ spent ++
      le_bytes 4 (wrap32 (N.of_nat (length (created_outpoints u)))) ++ created).

Definition undo_from_bytes (bytes : list byte) : outcome StorageError BlockUndo :=
  let? (spent_count, r) := ser_err (read_u32 bytes) in
  let? (spent, r) := ser_err (deserialize_each (N.to_nat spent_count) r) in
  let? (created_count, r) := ser_err (read_u32 r) in
  let? (created, r) := ser_err (deserialize_each (N.to_nat created_count) r) in
  if bool_decide (r = []) then Ok (mkBlockUndo spent created)
  else Err (StorageSerialization TrailingUndoBytes).

(** ** The address a locking condition pays to *)

Section address.
Context {B3 : Blake3} {BC : Bincode}.

Definition hash_slice (l : list byte) : option Hash := hash_of_list l.

(** Standard pay to public key hash: DUP BLAKE3 PUSH32 hash EQUALVERIFY CHECKSIG. *)
Definition is_p2pkh (script : list byte) : bool :=
  (length script =? 37)%nat && bool_decide (take 3 script = [x73; xa0; x20]) &&
  bool_decide (drop 35 script = [x88; xac]).

Definition extract_address_from_locking_condition (script : list byte) : option Hash :=
  if is_p2pkh script then hash_slice (take 32 (drop 3 script))
  else
    match from_locking_condition script with
    | Some (PublicKey pk) => Some (blake3 (hash_bytes pk))
    | Some (Script script_hash _) => Some script_hash
    | None =>
        if (length script =? 32)%nat then hash_slice script
        else if negb (bool_decide (script = [])) then Some (blake3 script)
        else None
    end.
End address.

(** ** Lemmas on keys *)

Lemma length_outpoint_key o : length (outpoint_to_key o) = 36%nat.
Proof. unfold outpoint_to_key. by rewrite length_app, hash_length, length_le_bytes. Qed.

Lemma key_to_outpoint_key o : outpoint_wf o → key_to_outpoint (outpoint_to_key o) = Some o.
Proof.
  intros Ho. unfold key_to_outpoint. rewrite bool_decide_eq_true_2 by apply length_outpoint_key.
  unfold outpoint_to_key. rewrite take_app_length', drop_app_length' by by rewrite hash_length.
  rewrite hash_of_list_bytes. cbn. rewrite le_val_le_bytes_small by exact Ho. by destruct o.
Qed.

Lemma key_to_outpoint_Some key o : key_to_outpoint key = Some o → outpoint_to_key o = key ∧ outpoint_wf o.
Proof.
  unfold key_to_outpoint. case_bool_decide as Hl; [|done].
  intros (h & Hh%hash_of_list_Some & [= <-])%bind_Some. unfold outpoint_to_key, outpoint_wf. cbn.
  assert (Hd : length (drop 32 key) = 4%nat) by (rewrite length_drop; lia).
  rewrite Hh, (le_bytes_le_val' 4) by done. rewrite take_drop. split; [done|].
  pose proof (le_val_bound (drop 32 key)) as HB. by rewrite Hd in HB.
Qed.

Lemma outpoint_key_inj o1 o2 :
  outpoint_wf o1 → outpoint_wf o2 → outpoint_to_key o1 = outpoint_to_key o2 → o1 = o2.
Proof. intros H1 H2 E. apply key_to_outpoint_key in H1, H2. congruence. Qed.

Lemma height_key_inj h1 h2 : h1 < MOD64 → h2 < MOD64 → be_bytes 8 h1 = be_bytes 8 h2 → h1 = h2.
Proof.
  intros H1 H2 E%(f_equal be_val). rewrite !be_val_be_bytes in E.
  by rewrite !N.mod_small in E by done.
Qed.

Lemma location_roundtrip h n : n < MOD64 → location_of (location_bytes h n) = Some (h, n).
Proof.
  intros Hn. unfold location_of, location_bytes.
  rewrite take_app_length', drop_app_length' by by rewrite hash_length.
  rewrite hash_of_list_bytes. cbn. rewrite take_ge by (rewrite length_be_bytes; lia).
  rewrite be_val_be_bytes, N.mod_small by done. done.
Qed.

(** ** Laws of the encodings *)

Definition meta_wf (m : BlockMeta) : Prop :=
  meta_height m < MOD64 ∧ length (meta_cumulative_work m) = 4%nat ∧
  Forall (λ w, w < MOD64) (meta_cumulative_work m) ∧ meta_timestamp m < MOD64.

Lemma word_at_app l1 w l2 at_ :
  length l1 = at_ → w < MOD64 → word_at (l1 ++ le_bytes 8 w ++ l2) at_ = w.
Proof.
  intros Hl Hw. unfold word_at. rewrite drop_app_length' by done.
  rewrite take_app_length' by by rewrite length_le_bytes. by apply (le_val_le_bytes_small 8).
Qed.

(** The metadata of a block takes 48 bytes and reads back. *)
Lemma block_meta_roundtrip m :
  meta_wf m → length (meta_to_bytes m) = BYTE_LEN ∧ meta_from_bytes (meta_to_bytes m) = Some m.
Proof.
  intros (Hh & Hl & HF & Ht). destruct m as [h ws t]. cbn [meta_height meta_cumulative_work meta_timestamp] in *.
  destruct ws as [|a [|b [|c [|d [|]]]]]; try done.
  apply Forall_cons in HF as [Ha HF]. apply Forall_cons in HF as [Hb HF].
  apply Forall_cons in HF as [Hc HF]. apply Forall_cons in HF as [Hd _].
  unfold meta_to_bytes. cbn [meta_height meta_cumulative_work meta_timestamp mbind list_bind].
  assert (L : length (le_bytes 8 h ++ (le_bytes 8 a ++ le_bytes 8 b ++ le_bytes 8 c ++ le_bytes 8 d ++ []) ++ le_bytes 8 t) = BYTE_LEN)
    by (rewrite !length_app, !length_le_bytes; done).
  split; [exact L|]. unfold meta_from_bytes. rewrite L. cbn [Nat.ltb Nat.leb BYTE_LEN]. do 2 f_equal.
  - by apply (word_at_app []).
  - cbn [seq fmap list_fmap]. rewrite <- !app_assoc. cbn [app].
    f_equal; [by apply word_at_app|]. f_equal; [|f_equal; [|f_equal]].
    + rewrite (app_assoc (le_bytes 8 h)). by apply word_at_app; [rewrite length_app, !length_le_bytes|].
    + rewrite (app_assoc (le_bytes 8 h)), (app_assoc (_ ++ _)).
      by apply word_at_app; [rewrite !length_app, !length_le_bytes|].
    + rewrite (app_assoc (le_bytes 8 h)), (app_assoc (_ ++ _)), (app_assoc (_ ++ _)).
      by apply word_at_app; [rewrite !length_app, !length_le_bytes|].
  - rewrite <- (app_nil_r (le_bytes 8 t)), !app_assoc. rewrite <- (app_assoc _ (le_bytes 8 t)).
    by apply word_at_app; [rewrite !length_app, !length_le_bytes|].
Qed.

Definition record_wf (r : AddressTxRecord) : Prop := r_value_quanta r < MOD64.

Lemma lawful_record : lawful ser_record deser_record record_wf.
Proof.
  unfold ser_record, deser_record, record_wf. split.
  - intros [txid i o v tok] bs rest Hv H. cbn [r_txid r_is_input r_is_output r_value_quanta r_token_id] in *.
    destruct tok as [tok|]; dinv; run_reader;
      match goal with E : write_u8 ?n = Ok ?b |- _ =>
        rewrite (lawful_enc _ _ _ n b _ lawful_u8) by done; cbn [obind N.eqb Pos.eqb] end.
    + rewrite read_exact_app by apply hash_length. cbn [obind]. by rewrite hash_of_list_bytes.
    + done.
  - intros s x rest H.
    apply obind_Ok in H as ([txid r1] & E1 & H). apply obind_Ok in H as ([i r2] & E2 & H).
    apply obind_Ok in H as ([o r3] & E3 & H). apply obind_Ok in H as ([v r4] & E4 & H).
    apply obind_Ok in H as ([t r5] & E5 & H).
    eapply lawful_dec in E1 as (_ & a & Ha & ->); [|by eauto with codec].
    eapply lawful_dec in E2 as (_ & b & Hb & ->); [|by eauto with codec].
    eapply lawful_dec in E3 as (_ & c & Hc & ->); [|by eauto with codec].
    eapply lawful_dec in E4 as (Hv & d & Hd & ->); [|by eauto with codec].
    eapply lawful_dec in E5 as (_ & e & He & ->); [|by eauto with codec].
    destruct (N.eqb_spec t 0) as [->|Hn0].
    + injection H as <- <-. split; [exact Hv|]. cbn [r_txid r_is_input r_is_output r_value_quanta r_token_id].
      rewrite Ha, Hb, Hc, Hd, He. cbn [obind]. eexists. split; [done|]. by rewrite <- !app_assoc.
    + destruct (N.eqb_spec t 1) as [->|]; [|done].
      apply obind_Ok in H as ([tok r6] & [Hl ->]%read_exact_Ok & (h & Hh%expect_Ok & [= <- <-])%obind_Ok).
      apply hash_of_list_Some in Hh as <-.
      split; [exact Hv|]. cbn [r_txid r_is_input r_is_output r_value_quanta r_token_id].
      rewrite Ha, Hb, Hc, Hd, He. cbn [obind]. eexists. split; [done|]. by rewrite <- !app_assoc.
Qed.
#[export] Instance record_laws : CodecLaws AddressTxRecord record_wf := lawful_record.

Lemma lawful_spent : lawful ser_spent deser_spent (λ p, outpoint_wf p.1 ∧ utxoentry_wf p.2).
Proof.
  unfold ser_spent, deser_spent, to_canonical_bytes. split.
  - intros [o e] bs rest [Ho He] H. cbn [fst snd] in *. dinv. run_reader. done.
  - intros s [o e] rest H. run_writer. cbn [fst snd].
    split; [done|]. repeat match goal with E : _ = Ok _ |- _ => rewrite E; clear E; cbn [obind] end.
    eexists. split; [done|]. by rewrite <- app_assoc.
Qed.
#[export] Instance spent_laws : CodecLaws (OutPoint * UtxoEntry) (λ p, outpoint_wf p.1 ∧ utxoentry_wf p.2) :=
  lawful_spent.

Lemma records_from_canonical bytes :
  deserialize_address_tx_records bytes =
  let? (records, rest) := deserialize_counted bytes in
  if (0 <? length rest)%nat then Err (TrailingBytes (N.of_nat (length rest))) else Ok records.
Proof.
  unfold deserialize_address_tx_records, deserialize_counted.
  destruct (read_u32 bytes) as [[n r]|e| |]; [cbn [obind]|done..]. by destruct (_ <? n).
Qed.

(** The records of an address read back, whatever their number up to the
    limit, and a byte string that decodes is the encoding of what it decodes to. *)
Lemma address_records_roundtrip records bytes :
  Forall record_wf records ∧ N.of_nat (length records) ≤ MAX_VECTOR_LENGTH ∧
    serialize_address_tx_records records = Ok bytes ↔
  deserialize_address_tx_records bytes = Ok records.
Proof.
  rewrite records_from_canonical. unfold serialize_address_tx_records. split.
  - intros (HF & Hl & Hs). rewrite <- (app_nil_r bytes).
    by erewrite (lawful_enc _ _ _ _ _ [] (lawful_counted (A := AddressTxRecord))) by done.
  - intros ([l rest] & Hd & H)%obind_Ok.
    eapply (lawful_dec _ _ _ _ _ _ (lawful_counted (A := AddressTxRecord))) in Hd as ([HF Hl] & bs & Hs & ->).
    destruct rest; [|done]. injection H as <-. by rewrite app_nil_r.
Qed.

Definition undo_wf (u : BlockUndo) : Prop :=
  Forall (λ p, outpoint_wf p.1 ∧ utxoentry_wf p.2) (spent_utxos u) ∧ Forall outpoint_wf (created_outpoints u) ∧
  N.of_nat (length (spent_utxos u)) < MOD32 ∧ N.of_nat (length (created_outpoints u)) < MOD32.

(** The undo data of a block reads back when both counts fit 32 bits; only undo
    data of that form is ever read. *)
Lemma block_undo_roundtrip u bytes :
  undo_wf u ∧ undo_to_bytes u = Ok bytes ↔ undo_from_bytes bytes = Ok u.
Proof.
  unfold undo_to_bytes, undo_from_bytes, ser_err. split.
  - intros [(HS & HC & Ls & Lc) (a & Ha%map_err_Ok & (b & Hb%map_err_Ok & <-%Ok_inj)%obind_Ok)%obind_Ok].
    rewrite !wrap32_small by done.
    rewrite (lawful_enc _ _ _ (N.of_nat (length (spent_utxos u))) _ _ lawful_u32) by done. cbn [map_err obind].
    rewrite Nat2N.id, (deserialize_each_enc _ _ _ HS Ha). cbn [map_err obind].
    rewrite (lawful_enc _ _ _ (N.of_nat (length (created_outpoints u))) _ _ lawful_u32) by done. cbn [map_err obind].
    rewrite Nat2N.id. rewrite <- (app_nil_r b), (deserialize_each_enc _ _ _ HC Hb). cbn [map_err obind].
    rewrite bool_decide_eq_true_2 by done. by destruct u.
  - intros ([n r1] & E1%map_err_Ok & H)%obind_Ok. apply obind_Ok in H as ([sp r2] & E2%map_err_Ok & H).
    apply obind_Ok in H as ([m r3] & E3%map_err_Ok & H). apply obind_Ok in H as ([cr r4] & E4%map_err_Ok & H).
    case_bool_decide as Hr; [|done]. injection H as <-. subst r4.
    apply (lawful_dec _ _ _ _ _ _ lawful_u32) in E1 as (Hn & x & <-%Ok_inj & ->).
    apply deserialize_each_dec in E2 as (Ln & HS & a & Ha & ->).
    apply (lawful_dec _ _ _ _ _ _ lawful_u32) in E3 as (Hm & y & <-%Ok_inj & ->).
    apply deserialize_each_dec in E4 as (Lm & HC & b & Hb & ->).
    assert (Hn' : N.of_nat (length sp) = n) by (rewrite Ln; lia).
    assert (Hm' : N.of_nat (length cr) = m) by (rewrite Lm; lia).
    split; [split; [done|split; [done|cbn; lia]]|]. cbn [spent_utxos created_outpoints].
    rewrite Ha, Hb. cbn [map_err obind]. rewrite Hn', Hm', !wrap32_small by done.
    by rewrite app_nil_r.
Qed.
