(* ===== verification/Storage.v ===== *)
(** * The storage engine

    [crates/scytale-storage/src/engine.rs]: the tables on disk and the
    operations on them. The database [redb] is the parameter [Redb]: what its
    tables contain, a read, which gives that or an I/O error, and the commit of
    a write transaction, which replaces the contents of all the tables or
    fails. A write operation is therefore a computation on the contents
    ([storeM]) whose result is committed when it succeeds and dropped when it
    does not. A failure of [redb] inside a transaction is reported at its start
    or at its commit; the database is the same either way. *)

From S2P Require Import Prelude Bytes Primitives Types Codec Transaction Utxo Merkle Words Target Work Tables.
Local Open Scope N_scope.
Local Open Scope scy_scope.

(** ** Contents *)

Record Tables := mkTables {
  BLOCKS : gmap Hash (list byte);
  TRANSACTIONS : gmap Hash (list byte);
  UTXOS : gmap (list byte) (list byte);
  BLOCK_INDEX : gmap Hash (list byte);
  CHAIN_STATE : gmap string (list byte);
  ADDRESS_TX_INDEX : gmap (list byte) (list byte);
  BLOCK_UNDO_TABLE : gmap Hash (list byte);
  BLOCK_HEIGHT_INDEX : gmap (list byte) Hash;
  TX_CONFIRM_INDEX : gmap Hash (list byte);
  META_TABLE : option (gmap string string)
}.
Definition KEY_TIP_HASH : string := "tip_hash".
Definition KEY_TIP_HEIGHT : string := "tip_height".

(** What [init_tables] leaves in a new database. *)
Definition empty_tables : Tables := mkTables ∅ ∅ ∅ ∅ ∅ ∅ ∅ ∅ ∅ None.

Definition on_blocks f t := mkTables (f (BLOCKS t)) (TRANSACTIONS t) (UTXOS t) (BLOCK_INDEX t) (CHAIN_STATE t)
  (ADDRESS_TX_INDEX t) (BLOCK_UNDO_TABLE t) (BLOCK_HEIGHT_INDEX t) (TX_CONFIRM_INDEX t) (META_TABLE t).
Definition on_transactions f t := mkTables (BLOCKS t) (f (TRANSACTIONS t)) (UTXOS t) (BLOCK_INDEX t) (CHAIN_STATE t)
  (ADDRESS_TX_INDEX t) (BLOCK_UNDO_TABLE t) (BLOCK_HEIGHT_INDEX t) (TX_CONFIRM_INDEX t) (META_TABLE t).
Definition on_utxos f t := mkTables (BLOCKS t) (TRANSACTIONS t) (f (UTXOS t)) (BLOCK_INDEX t) (CHAIN_STATE t)
  (ADDRESS_TX_INDEX t) (BLOCK_UNDO_TABLE t) (BLOCK_HEIGHT_INDEX t) (TX_CONFIRM_INDEX t) (META_TABLE t).
Definition on_index f t := mkTables (BLOCKS t) (TRANSACTIONS t) (UTXOS t) (f (BLOCK_INDEX t)) (CHAIN_STATE t)
  (ADDRESS_TX_INDEX t) (BLOCK_UNDO_TABLE t) (BLOCK_HEIGHT_INDEX t) (TX_CONFIRM_INDEX t) (META_TABLE t).
Definition on_state f t := mkTables (BLOCKS t) (TRANSACTIONS t) (UTXOS t) (BLOCK_INDEX t) (f (CHAIN_STATE t))
  (ADDRESS_TX_INDEX t) (BLOCK_UNDO_TABLE t) (BLOCK_HEIGHT_INDEX t) (TX_CONFIRM_INDEX t) (META_TABLE t).
Definition on_addresses f t := mkTables (BLOCKS t) (TRANSACTIONS t) (UTXOS t) (BLOCK_INDEX t) (CHAIN_STATE t)
  (f (ADDRESS_TX_INDEX t)) (BLOCK_UNDO_TABLE t) (BLOCK_HEIGHT_INDEX t) (TX_CONFIRM_INDEX t) (META_TABLE t).
Definition on_undo f t := mkTables (BLOCKS t) (TRANSACTIONS t) (UTXOS t) (BLOCK_INDEX t) (CHAIN_STATE t)
  (ADDRESS_TX_INDEX t) (f (BLOCK_UNDO_TABLE t)) (BLOCK_HEIGHT_INDEX t) (TX_CONFIRM_INDEX t) (META_TABLE t).
Definition on_heights f t := mkTables (BLOCKS t) (TRANSACTIONS t) (UTXOS t) (BLOCK_INDEX t) (CHAIN_STATE t)
  (ADDRESS_TX_INDEX t) (BLOCK_UNDO_TABLE t) (f (BLOCK_HEIGHT_INDEX t)) (TX_CONFIRM_INDEX t) (META_TABLE t).
Definition on_confirm f t := mkTables (BLOCKS t) (TRANSACTIONS t) (UTXOS t) (BLOCK_INDEX t) (CHAIN_STATE t)
  (ADDRESS_TX_INDEX t) (BLOCK_UNDO_TABLE t) (BLOCK_HEIGHT_INDEX t) (f (TX_CONFIRM_INDEX t)) (META_TABLE t).
Definition on_meta f t := mkTables (BLOCKS t) (TRANSACTIONS t) (UTXOS t) (BLOCK_INDEX t) (CHAIN_STATE t)
  (ADDRESS_TX_INDEX t) (BLOCK_UNDO_TABLE t) (BLOCK_HEIGHT_INDEX t) (TX_CONFIRM_INDEX t) (f (META_TABLE t)).

Definition storeM := stM Tables StorageError.

(** Iteration of a table: by key, in the order of the bytes. *)
Fixpoint insert_key {A} (x : list byte * A) (l : list (list byte * A)) : list (list byte * A) :=
  match l with
  | [] => [x]
  | y :: l => if bytes_leb x.1 y.1 then x :: y :: l else y :: insert_key x l
  end.
Definition table_iter {A} (t : gmap (list byte) A) : list (list byte * A) := foldr insert_key [] (map_to_list t).

(** ** Reading *)

Definition decoded {A} `{CanonicalDeserialize A} (v : option (list byte)) : outcome StorageError (option A) :=
  match v with
  | None => Ok None
  | Some v => let? x := ser_err (from_canonical_bytes v) in Ok (Some x)
  end.

Definition get_block (t : Tables) (hash : Hash) : outcome StorageError (option Block) := decoded (BLOCKS t !! hash).
Definition get_transaction (t : Tables) (txid : Hash) : outcome StorageError (option Transaction) :=
  decoded (TRANSACTIONS t !! txid).
Definition get_block_hash_by_height (t : Tables) (height : N) : outcome StorageError (option Hash) :=
  Ok (BLOCK_HEIGHT_INDEX t !! be_bytes 8 height).
Definition get_block_by_height (t : Tables) (height : N) : outcome StorageError (option Block) :=
  let? hash := get_block_hash_by_height t height in
  match hash with Some hash => get_block t hash | None => Ok None end.

(** The value has 40 bytes, by the type of the table. *)
Definition get_transaction_location (t : Tables) (txid : Hash) : outcome StorageError (option (Hash * N)) :=
  match TX_CONFIRM_INDEX t !! txid with
  | None => Ok None
  | Some bytes => let? loc := expect (location_of bytes) in Ok (Some loc)
  end.
Definition get_transaction_height (t : Tables) (txid : Hash) : outcome StorageError (option N) :=
  let? loc := get_transaction_location t txid in Ok (snd <$> loc).
Definition get_utxo (t : Tables) (o : OutPoint) : outcome StorageError (option UtxoEntry) :=
  decoded (UTXOS t !! outpoint_to_key o).

Definition get_canonical_tip (t : Tables) : outcome StorageError (option (Hash * N)) :=
  match CHAIN_STATE t !! KEY_TIP_HASH with
  | None => Ok None
  | Some bytes =>
      let? tip_hash := ok_or (hash_of_list bytes) (StorageInconsistent TipHashLength) in
      match CHAIN_STATE t !! KEY_TIP_HEIGHT with
      | None => Err (StorageInconsistent TipHeightMissing)
      | Some bytes =>
          if negb (length bytes =? 8)%nat then Err (StorageInconsistent TipHeightLength)
          else Ok (Some (tip_hash, le_val bytes))
      end
  end.

(** The entries of the table of unspent outputs, in its order. *)
Definition utxo_entries (t : Tables) : outcome StorageError (list (OutPoint * UtxoEntry)) :=
  omap_list (λ kv,
    let? o := expect (key_to_outpoint kv.1) in
    let? entry := ser_err (from_canonical_bytes kv.2) in
    Ok (o, entry)) (table_iter (UTXOS t)).

Definition load_entire_utxo_set (t : Tables) : outcome StorageError UtxoSet :=
  let? entries := utxo_entries t in
  ofold (λ s oe, match utxo_insert oe.1 oe.2 s with
                 | (s, Ok _) => Ok s
                 | (_, Err e) => Err (StorageInconsistent (DuplicateUtxo e))
                 | (_, Panic) => Panic
                 | (_, Diverge) => Diverge
                 end) entries ∅.

Record UtxoSnapshotDto := mkUtxoSnapshotDto {
  snap_height : N;
  snap_block_hash : Hash;
  snap_utxo_root : Hash;
  snap_entries : list (OutPoint * UtxoEntry)
}.

Section reading.
Context {B3 : Blake3}.

Definition leaves_of (entries : list (OutPoint * UtxoEntry)) : list Hash :=
  (λ p, compute_utxo_leaf p.1 (output p.2)) <$> entries.

Definition stored_utxo_root (t : Tables) : outcome StorageError Hash :=
  let? entries := utxo_entries t in compute_utxo_merkle_root (leaves_of entries).

Definition export_utxo_snapshot (t : Tables) : outcome StorageError UtxoSnapshotDto :=
  let? tip := get_canonical_tip t in
  let '(block_hash, height) := default (ZERO, 0) tip in
  let? entries := utxo_entries t in
  let? utxo_root := compute_utxo_merkle_root (leaves_of entries) in
  Ok (mkUtxoSnapshotDto height block_hash utxo_root entries).
End reading.

(** The records of an address, at most [limit] of them, from the rows of the
    index in their order. *)
Fixpoint push_records (height : N) (records : list AddressTxRecord) (limit : nat) (results : list (N * AddressTxRecord)) :
    list (N * AddressTxRecord) * bool :=
  match records with
  | [] => (results, false)
  | r :: records =>
      let results := results ++ [(height, r)] in
      if (limit <=? length results)%nat then (results, true) else push_records height records limit results
  end.
Fixpoint collect_records (rows : list (list byte * list byte)) (limit : nat) (results : list (N * AddressTxRecord)) :
    outcome StorageError (list (N * AddressTxRecord)) :=
  match rows with
  | [] => Ok results
  | (key, val) :: rows =>
      let height := be_val (drop 32 key) in
      let? records := ser_err (deserialize_address_tx_records val) in
      match push_records height records limit results with
      | (results, true) => Ok results
      | (results, false) => collect_records rows limit results
      end
  end.

Definition get_address_transactions_with_height (t : Tables) (address : Hash) (from_height to_height : N) (limit : nat) :
    outcome StorageError (list (N * AddressTxRecord)) :=
  if (limit =? 0)%nat || (to_height <? from_height) then Ok []
  else
    let start_key := make_address_tx_key address from_height in
    let end_key := make_address_tx_key address to_height in
    collect_records (filter (λ kv, bytes_leb start_key kv.1 = true ∧ bytes_leb kv.1 end_key = true)
                       (table_iter (ADDRESS_TX_INDEX t))) limit [].
Definition get_address_transactions (t : Tables) (address : Hash) (from_height to_height : N) (limit : nat) :
    outcome StorageError (list AddressTxRecord) :=
  let? l := get_address_transactions_with_height t address from_height to_height limit in Ok (snd <$> l).

(** ** Filing a block *)

(** The state of the loop over the transactions of a block. *)
Record Filing := mkFiling {
  f_tables : Tables;
  f_records : gmap Hash (list AddressTxRecord);
  f_undo : BlockUndo
}.
Definition filingM := stM Filing StorageError.
Definition on_tables (g : Tables → Tables) (f : Filing) : Filing := mkFiling (g (f_tables f)) (f_records f) (f_undo f).
Definition push_spent (p : OutPoint * UtxoEntry) (f : Filing) : Filing :=
  mkFiling (f_tables f) (f_records f)
    (mkBlockUndo (spent_utxos (f_undo f) ++ [p]) (created_outpoints (f_undo f))).
Definition push_created (o : OutPoint) (f : Filing) : Filing :=
  mkFiling (f_tables f) (f_records f)
    (mkBlockUndo (spent_utxos (f_undo f)) (created_outpoints (f_undo f) ++ [o])).

Section writing.
Context {B3 : Blake3} {BC : Bincode}.

(** [block_addr_records.entry(addr).or_default().push(record)] for the address
    of the output, if it has one. *)
Definition push_record (out : TxOut) (record : AddressTxRecord) (f : Filing) : Filing :=
  match extract_address_from_locking_condition (locking_condition out) with
  | Some addr =>
      mkFiling (f_tables f) (<[addr := default [] (f_records f !! addr) ++ [record]]> (f_records f)) (f_undo f)
  | None => f
  end.

(** The output an input spends: from the unspent outputs, where it is noted for
    the undo data, or else from the transaction that made it. *)
Definition spent_output (o : OutPoint) : filingM (option TxOut) :=
  let! f := sget in
  match UTXOS (f_tables f) !! outpoint_to_key o with
  | Some v =>
      let! entry := slift (ser_err (from_canonical_bytes (A := UtxoEntry) v)) in
      let! _ := smodify (push_spent (o, entry)) in
      sret (Some (output entry))
  | None =>
      match TRANSACTIONS (f_tables f) !! op_txid o with
      | Some tx_bytes =>
          let! prev_tx := slift (ser_err (from_canonical_bytes (A := Transaction) tx_bytes)) in
          sret (outputs prev_tx !! N.to_nat (op_index o))
      | None => sret None
      end
  end.

Fixpoint file_inputs (id : Hash) (ins : list TxIn) : filingM unit :=
  match ins with
  | [] => sret tt
  | input :: ins =>
      let! spent := spent_output (previous_output input) in
      let! _ := smodify (match spent with
                         | Some out => push_record out (mkAddressTxRecord id true false (value out) None)
                         | None => Datatypes.id
                         end) in
      let! _ := smodify (on_tables (on_utxos (delete (outpoint_to_key (previous_output input))))) in
      file_inputs id ins
  end.

Fixpoint file_outputs (id : Hash) (height : N) (coinbase : bool) (idx : N) (outs : list TxOut) : filingM unit :=
  match outs with
  | [] => sret tt
  | out :: outs =>
      let! _ := smodify (push_record out (mkAddressTxRecord id false true (value out) None)) in
      if is_op_return (locking_condition out) then file_outputs id height coinbase (idx + 1) outs
      else
        let new_op := mkOutPoint id (wrap32 idx) in
        let! _ := smodify (push_created new_op) in
        let! entry_bytes := slift (ser_err (to_canonical_bytes (mkUtxoEntry out height coinbase))) in
        let! _ := smodify (on_tables (on_utxos (insert (outpoint_to_key new_op) entry_bytes))) in
        file_outputs id height coinbase (idx + 1) outs
  end.

(** One iteration of the loop over the transactions. *)
Definition file_transaction (block_hash : Hash) (height : N) (tx : Transaction) : filingM unit :=
  let! id := slift (txid tx) in
  let! tx_bytes := slift (ser_err (to_canonical_bytes tx)) in
  let! _ := smodify (on_tables (on_transactions (insert id tx_bytes))) in
  let! _ := smodify (on_tables (on_confirm (insert id (location_bytes block_hash height)))) in
  let! _ := (if is_coinbase tx then sret tt else file_inputs id (inputs tx)) in
  file_outputs id height (is_coinbase tx) 0 (outputs tx).
Fixpoint file_transactions (block_hash : Hash) (height : N) (txs : list Transaction) : filingM unit :=
  match txs with
  | [] => sret tt
  | tx :: txs =>
      let! _ := file_transaction block_hash height tx in
      file_transactions block_hash height txs
  end.

(** The loop, from an empty map of records and empty undo data. *)
Definition filing (m : filingM unit) : storeM (gmap Hash (list AddressTxRecord) * BlockUndo) := λ t,
  let '(f, r) := m (mkFiling t ∅ (mkBlockUndo [] [])) in
  (f_tables f, let? _ := r in Ok (f_records f, f_undo f)).

(** The accumulated address records, merged with those already there. *)
Fixpoint write_records (height : N) (records : list (Hash * list AddressTxRecord)) : storeM unit :=
  match records with
  | [] => sret tt
  | (addr, new_records) :: records =>
      let key := make_address_tx_key addr height in
      let! t := sget in
      let! merged :=
        (match ADDRESS_TX_INDEX t !! key with
         | Some v => let! old := slift (ser_err (deserialize_address_tx_records v)) in sret (old ++ new_records)
         | None => sret new_records
         end) in
      let! payload := slift (ser_err (serialize_address_tx_records merged)) in
      let! _ := smodify (on_addresses (insert key payload)) in
      write_records height records
  end.
Definition write_address_records (height : N) (records : gmap Hash (list AddressTxRecord)) : storeM unit :=
  write_records height (map_to_list records).

Definition index_row (b : Block) (height : N) (work : CumulativeWork) : list byte :=
  meta_to_bytes (mkBlockMeta height (work_limbs work) (timestamp (header b))).
Definition set_tip (block_hash : Hash) (height : N) (state : gmap string (list byte)) : gmap string (list byte) :=
  <[KEY_TIP_HEIGHT := le_bytes 8 height]> (<[KEY_TIP_HASH := hash_bytes block_hash]> state).

(** The body of [commit_block]. *)
Definition commit_block_tables (b : Block) (height : N) (work : CumulativeWork) : storeM unit :=
  let! block_hash := slift (header_hash (header b)) in
  let! block_bytes := slift (ser_err (to_canonical_bytes b)) in
  let! _ := smodify (on_blocks (insert block_hash block_bytes)) in
  let! _ := smodify (on_heights (insert (be_bytes 8 height) block_hash)) in
  let! (records, undo) := filing (file_transactions block_hash height (transactions b)) in
  let! _ := write_address_records height records in
  let! undo_bytes := slift (undo_to_bytes undo) in
  let! _ := smodify (on_undo (insert block_hash undo_bytes)) in
  let! _ := smodify (on_index (insert block_hash (index_row b height work))) in
  smodify (on_state (set_tip block_hash height)).

(** ** Rolling a block back *)

(** The addresses of [remove_block_address_records_internal]: those of the
    outputs of the block and of the outputs it spends. *)
Definition address_of (out : TxOut) : gset Hash :=
  match extract_address_from_locking_condition (locking_condition out) with Some a => {[a]} | None => ∅ end.
Definition prev_output (block_tx_map : gmap Hash Transaction) (t : Tables) (o : OutPoint) : option TxOut :=
  match block_tx_map !! op_txid o with
  | Some local_tx => outputs local_tx !! N.to_nat (op_index o)
  | None =>
      match TRANSACTIONS t !! op_txid o with
      | Some v =>
          match from_canonical_bytes (A := Transaction) v with
          | Ok prev_tx => outputs prev_tx !! N.to_nat (op_index o)
          | _ => None
          end
      | None => None
      end
  end.
Definition touched_by (m : gmap Hash Transaction) (t : Tables) (tx : Transaction) : gset Hash :=
  ⋃ (address_of <$> outputs tx) ∪
  (if is_coinbase tx then ∅
   else ⋃ ((λ i, from_option address_of ∅ (prev_output m t (previous_output i))) <$> inputs tx)).

Definition tx_map {E} (txs : list Transaction) : outcome E (gmap Hash Transaction) :=
  ofold (λ m tx, let? id := txid tx in Ok (<[id := tx]> m)) txs ∅.

Definition remove_block_address_records_internal (b : Block) (height : N) : storeM unit :=
  let! block_tx_map := slift (tx_map (transactions b)) in
  let! t := sget in
  let touched := ⋃ (touched_by block_tx_map t <$> transactions b) in
  smodify (on_addresses (λ idx, foldl (λ idx addr, delete (make_address_tx_key addr height) idx) idx (elements touched))).

Fixpoint restore_spent (spent : list (OutPoint * UtxoEntry)) : storeM unit :=
  match spent with
  | [] => sret tt
  | (o, entry) :: spent =>
      let! entry_bytes := slift (ser_err (to_canonical_bytes entry)) in
      let! _ := smodify (on_utxos (insert (outpoint_to_key o) entry_bytes)) in
      restore_spent spent
  end.

(** The undo data of a block applied: what it created goes, what it spent comes
    back. *)
Definition apply_undo (block_hash : Hash) : storeM unit :=
  let! t := sget in
  let! undo_bytes := slift (ok_or (BLOCK_UNDO_TABLE t !! block_hash) (StorageInconsistent (MissingUndo block_hash))) in
  let! undo := slift (undo_from_bytes undo_bytes) in
  let! _ := smodify (on_utxos (λ u, foldl (λ u o, delete (outpoint_to_key o) u) u (created_outpoints undo))) in
  restore_spent (spent_utxos undo).

Fixpoint remove_transactions (txs : list Transaction) : storeM unit :=
  match txs with
  | [] => sret tt
  | tx :: txs =>
      let! id := slift (txid tx) in
      let! _ := smodify (on_transactions (delete id)) in
      let! _ := smodify (on_confirm (delete id)) in
      remove_transactions txs
  end.
Definition remove_rows (block_hash : Hash) (t : Tables) : Tables :=
  on_undo (delete block_hash) (on_index (delete block_hash) (on_blocks (delete block_hash) t)).

(** The body of [unwind_block]. *)
Definition unwind_block_tables (b : Block) (height : N) : storeM unit :=
  let! _ := remove_block_address_records_internal b height in
  let! bh := slift (header_hash (header b)) in
  let! _ := apply_undo bh in
  let! _ := remove_transactions (transactions b) in
  let! _ := smodify (remove_rows bh) in
  let! _ := smodify (on_heights (delete (be_bytes 8 height))) in
  let! t := sget in
  if bool_decide (CHAIN_STATE t !! KEY_TIP_HASH = Some (hash_bytes bh))
  then smodify (on_state (set_tip (previous_block_hash (header b)) (saturating_sub height 1)))
  else sret tt.

(** ** Reorganizations *)

(** The rollback of one disconnected block, at the height its metadata gives. *)
Definition disconnect_block (b : Block) : storeM unit :=
  let! bh := slift (header_hash (header b)) in
  let! t := sget in
  let height := bytes ← BLOCK_INDEX t !! bh; meta_height <$> meta_from_bytes bytes in
  let! _ := (match height with
             | Some h =>
                 let! _ := remove_block_address_records_internal b h in
                 smodify (on_heights (delete (be_bytes 8 h)))
             | None => sret tt
             end) in
  let! _ := apply_undo bh in
  let! _ := remove_transactions (transactions b) in
  smodify (remove_rows bh).
Fixpoint disconnect_blocks (blocks : list Block) : storeM unit :=
  match blocks with
  | [] => sret tt
  | b :: blocks => let! _ := disconnect_block b in disconnect_blocks blocks
  end.

Definition connect_block (b : Block) (height : N) (work : CumulativeWork) : storeM unit :=
  let! block_hash := slift (header_hash (header b)) in
  let! _ := smodify (on_heights (insert (be_bytes 8 height) block_hash)) in
  let! block_bytes := slift (ser_err (to_canonical_bytes b)) in
  let! _ := smodify (on_blocks (insert block_hash block_bytes)) in
  let! (records, undo) := filing (file_transactions block_hash height (transactions b)) in
  let! undo_bytes := slift (undo_to_bytes undo) in
  let! _ := smodify (on_undo (insert block_hash undo_bytes)) in
  let! _ := write_address_records height records in
  smodify (on_index (insert block_hash (index_row b height work))).
Fixpoint connect_blocks (blocks : list (Block * N * CumulativeWork)) : storeM unit :=
  match blocks with
  | [] => sret tt
  | (b, height, work) :: blocks => let! _ := connect_block b height work in connect_blocks blocks
  end.

(** The body of [apply_reorganization]. *)
Definition apply_reorganization_tables (disconnected : list Block) (connected : list (Block * N * CumulativeWork)) :
    storeM unit :=
  let! _ := disconnect_blocks disconnected in
  let! _ := connect_blocks connected in
  match last connected with
  | Some (last_block, last_height, _) =>
      let! tip_hash := slift (header_hash (header last_block)) in
      smodify (on_state (set_tip tip_hash last_height))
  | None => sret tt
  end.

(** ** Replacing the unspent outputs *)

Fixpoint insert_entries (entries : list (OutPoint * UtxoEntry)) : storeM unit :=
  match entries with
  | [] => sret tt
  | (o, entry) :: entries =>
      let! bytes := slift (ser_err (to_canonical_bytes entry)) in
      let! _ := smodify (on_utxos (insert (outpoint_to_key o) bytes)) in
      insert_entries entries
  end.

Definition replace_utxo_set_tables (s : UtxoSet) : storeM unit :=
  let! _ := smodify (on_utxos (λ _, ∅)) in
  insert_entries (map_to_list s).

Definition apply_utxo_snapshot_tables (snapshot : UtxoSnapshotDto) : storeM unit :=
  let sorted_entries := sort_by fst (snap_entries snapshot) in
  let! calculated_root := slift (compute_utxo_merkle_root (leaves_of sorted_entries)) in
  if negb (bool_decide (calculated_root = snap_utxo_root snapshot))
  then slift (Err (StorageInconsistent (SnapshotMismatch (snap_utxo_root snapshot) calculated_root)))
  else
    let! _ := smodify (on_utxos (λ _, ∅)) in
    insert_entries sorted_entries.

Definition set_meta_tables (key value : string) : storeM unit :=
  smodify (on_meta (λ m, Some (<[key := value]> (default ∅ m)))).
Definition get_meta (t : Tables) (key : string) : outcome StorageError (option string) :=
  match META_TABLE t with Some m => Ok (m !! key) | None => Err RedbTableError end.
End writing.

(** ** The database *)

Class Redb := {
  db : Type;
  contents : db → Tables;
  read_tx : db → outcome StorageError Tables;
  commit_tx : db → Tables → outcome StorageError db
}.

(** What the engine relies on: a read sees what is there, a commit that succeeds
    leaves what it was given, and both come back. *)
Class RedbLaws {R : Redb} := {
  read_contents : ∀ d t, read_tx d = Ok t → t = contents d;
  commit_contents : ∀ d t d', commit_tx d t = Ok d' → contents d' = t;
  read_tx_returns : ∀ d, returns (read_tx d);
  commit_tx_returns : ∀ d t, returns (commit_tx d t)
}.

Section engine.
Context {B3 : Blake3} {BC : Bincode} {R : Redb}.

Definition reading {A} (f : Tables → outcome StorageError A) (d : db) : outcome StorageError A :=
  let? t := read_tx d in f t.

(** A write transaction: committed when its body succeeds, aborted when it
    fails. *)
Definition writing (m : storeM unit) (d : db) : outcome StorageError db :=
  let? t := read_tx d in
  match m t with
  | (t', Ok _) => commit_tx d t'
  | (_, Err e) => Err e
  | (_, Panic) => Panic
  | (_, Diverge) => Diverge
  end.

Definition engine_commit_block (b : Block) (height : N) (work : CumulativeWork) : db → outcome StorageError db :=
  writing (commit_block_tables b height work).
Definition engine_unwind_block (b : Block) (height : N) : db → outcome StorageError db :=
  writing (unwind_block_tables b height).
Definition engine_apply_reorganization (disconnected : list Block) (connected : list (Block * N * CumulativeWork)) :
    db → outcome StorageError db := writing (apply_reorganization_tables disconnected connected).
Definition engine_replace_utxo_set (s : UtxoSet) : db → outcome StorageError db := writing (replace_utxo_set_tables s).
Definition engine_apply_utxo_snapshot (snapshot : UtxoSnapshotDto) : db → outcome StorageError db :=
  writing (apply_utxo_snapshot_tables snapshot).
Definition engine_set_meta (key value : string) : db → outcome StorageError db := writing (set_meta_tables key value).
End engine.
