(* ===== verification/Consensus.v ===== *)
(** * Block validation rules

    [crates/scytale-consensus/src/lib.rs] and the first part of [chain.rs]: the
    subsidy, the median time past, lock times, and the authoritative validation
    of a block against the unspent outputs of its parent. *)

From S2P Require Import Prelude Bytes Primitives Types Codec Transaction Utxo Genesis.
Local Open Scope N_scope.
Local Open Scope scy_scope.

(** ** Emission *)

Definition COIN : N := QUANTA_PER_SCY.
Definition MAX_SUPPLY : N := 66000000 * COIN.
Definition INITIAL_SUBSIDY : N := 25 * COIN.
Definition INITIAL_REWARD : N := INITIAL_SUBSIDY.
Definition HALVING_INTERVAL : N := 660000.

Definition get_block_subsidy (height : N) : N :=
  let halvings := height / HALVING_INTERVAL in
  if 64 <=? halvings then 0 else N.shiftr INITIAL_SUBSIDY halvings.
Definition calculate_block_reward (height : N) : N := get_block_subsidy height.

(** ** Errors *)

(** What the message of [TransactionVerification] reports. *)
Inductive VerificationFailure :=
| FailStructure (e : BlockError)
| FailUtxo (e : UtxoError)
| FailOutputs (e : TransactionError)
| FailRewardOverflow
| FailVerifier.

Inductive ConsensusError :=
| ConsensusInvalidCoinbaseReward (subsidy fees output : N)
| ConsensusInvalidTransactionCommitment (expected actual : Hash)
| TransactionVerification (reason : VerificationFailure)
| LockTimeNotMet.

(** ** Validation *)

Section consensus.
Context {B3 : Blake3}.

Definition transaction_commitment_of {E} (b : Block) : outcome E Hash :=
  let? bytes := ofold (λ bytes tx, let? id := txid tx in Ok (bytes ++ hash_bytes id))
                  (transactions b) [] in
  Ok (blake3 bytes).

Definition calculate_median_time_past (headers : list BlockHeader) (current_index : N) : N :=
  let end_ := N.to_nat (N.min current_index (N.of_nat (length headers))) in
  let start := (end_ - 11)%nat in
  let timestamps := timestamp <$> take (end_ - start) (drop start headers) in
  if bool_decide (timestamps = []) then 0
  else merge_sort N.le timestamps !!! (length timestamps / 2)%nat.

Definition validate_lock_time (tx : Transaction) (block_height mtp : N) :
    outcome ConsensusError unit :=
  if (lock_time tx =? 0) || forallb (λ i, sequence i =? U32_MAX) (inputs tx) then Ok tt
  else if lock_time tx <? 500000000 then
    if block_height <? lock_time tx then Err LockTimeNotMet else Ok tt
  else if mtp <? lock_time tx then Err LockTimeNotMet else Ok tt.

Fixpoint validate_lock_times (txs : list Transaction) (block_height mtp : N) :
    outcome ConsensusError unit :=
  match txs with
  | [] => Ok tt
  | tx :: txs =>
      let? _ := validate_lock_time tx block_height mtp in
      validate_lock_times txs block_height mtp
  end.

Definition validate_block_authoritative_with_headers (b : Block) (height : N)
    (parent_utxo : UtxoSet) (headers : list BlockHeader) : outcome ConsensusError N :=
  let? _ := map_err (λ e, TransactionVerification (FailStructure e)) (validate_structure b) in
  let? expected_commitment := transaction_commitment_of b in
  if negb (bool_decide (transaction_commitment (header b) = expected_commitment))
  then Err (ConsensusInvalidTransactionCommitment expected_commitment (transaction_commitment (header b)))
  else
    let mtp := calculate_median_time_past headers (N.of_nat (length headers)) in
    let? _ := validate_lock_times (drop 1 (transactions b)) height mtp in
    let? total_fees :=
      map_err (λ e, TransactionVerification (FailUtxo e))
        (apply_block (transactions b) height parent_utxo).2 in
    let? coinbase := expect (head (transactions b)) in
    let? coinbase_output :=
      map_err (λ e, TransactionVerification (FailOutputs e)) (total_output_quanta coinbase) in
    let subsidy := get_block_subsidy height in
    let? maximum_reward :=
      ok_or (checked_add subsidy total_fees) (TransactionVerification FailRewardOverflow) in
    if maximum_reward <? coinbase_output
    then Err (ConsensusInvalidCoinbaseReward subsidy total_fees coinbase_output)
    else Ok total_fees.

Definition validate_block_authoritative (b : Block) (height : N) (parent_utxo : UtxoSet) :
    outcome ConsensusError N :=
  validate_block_authoritative_with_headers b height parent_utxo [].

(** The height [AuthoritativeTransactionVerifier] reads from the coinbase. *)
Definition coinbase_height (b : Block) : N :=
  match transactions b with
  | cb :: _ =>
      match inputs cb with
      | i :: _ =>
          if (8 <=? length (authorization i))%nat then le_val (take 8 (authorization i)) else 0
      | [] => 0
      end
  | [] => 0
  end.
End consensus.

(** [BlockTransactionVerifier]. *)
Class BlockTransactionVerifier :=
  verify_block_transactions : Block → UtxoSet → outcome ConsensusError unit.

Definition AuthoritativeTransactionVerifier {B3 : Blake3} : BlockTransactionVerifier := λ b utxo_set,
  let? _ := validate_block_authoritative b (coinbase_height b) utxo_set in Ok tt.

(** ** Lemmas *)

Lemma get_block_subsidy_val h : get_block_subsidy h = INITIAL_SUBSIDY / 2 ^ (h / HALVING_INTERVAL).
Proof.
  unfold get_block_subsidy. destruct (N.leb_spec 64 (h / HALVING_INTERVAL)) as [H|H].
  - symmetry. apply N.div_small. apply N.lt_le_trans with (2 ^ 64); [done|].
    by apply N.pow_le_mono_r.
  - apply N.shiftr_div_pow2.
Qed.

(** What the blocks below height [n] may issue. *)
Fixpoint emission (n : nat) : N :=
  match n with
  | O => 0
  | S n => emission n + get_block_subsidy (N.of_nat n)
  end.

(** A bound on what the blocks from height [h] on may issue. *)
Definition emission_left (h : N) : N :=
  (2 * HALVING_INTERVAL - h mod HALVING_INTERVAL) * (INITIAL_SUBSIDY / 2 ^ (h / HALVING_INTERVAL)).

Lemma emission_left_step h :
  get_block_subsidy h + emission_left (h + 1) ≤ emission_left h.
Proof.
  rewrite get_block_subsidy_val. unfold emission_left.
  set (k := h / HALVING_INTERVAL). set (r := h mod HALVING_INTERVAL).
  assert (Hr : r < HALVING_INTERVAL) by (by apply N.mod_lt).
  assert (Hh : h = HALVING_INTERVAL * k + r) by apply N.div_mod'.
  set (s := INITIAL_SUBSIDY / 2 ^ k).
  destruct (N.eq_dec (r + 1) HALVING_INTERVAL) as [He|He].
  - assert (h + 1 = (k + 1) * HALVING_INTERVAL) as -> by lia.
    rewrite N.Div0.mod_mul, N.div_mul by done.
    assert (Hs : 2 * (INITIAL_SUBSIDY / 2 ^ (k + 1)) ≤ s).
    { subst s. rewrite N.pow_add_r, <- N.Div0.div_div. change (2 ^ 1) with 2. apply N.Div0.mul_div_le. }
    unfold HALVING_INTERVAL in *. nia.
  - replace (h + 1) with (r + 1 + k * HALVING_INTERVAL) by lia.
    rewrite N.Div0.mod_add, N.div_add, N.mod_small, (N.div_small (r + 1)) by (done || lia).
    rewrite N.add_0_l. fold s. unfold HALVING_INTERVAL in *. nia.
Qed.

Lemma emission_bound n : emission n + emission_left (N.of_nat n) ≤ 33000000 * COIN.
Proof.
  induction n as [|n IH]; [vm_compute; discriminate|].
  pose proof (emission_left_step (N.of_nat n)) as H. rewrite Nat2N.inj_succ, <- N.add_1_r.
  cbn [emission]. lia.
Qed.

(** *** Median time past *)

Lemma mtp_window headers n :
  calculate_median_time_past headers n =
  let w := timestamp <$> (let e := N.to_nat (N.min n (N.of_nat (length headers))) in
                          take (e - (e - 11)) (drop (e - 11) headers)) in
  if bool_decide (w = []) then 0 else merge_sort N.le w !!! (length w / 2)%nat.
Proof. done. Qed.

(** The median is one of the timestamps of the window. *)
Lemma median_elem (w : list N) : w ≠ [] → merge_sort N.le w !!! (length w / 2)%nat ∈ w.
Proof.
  intros Hne. pose proof (merge_sort_Permutation N.le w) as HP.
  set (x := _ !!! _). cut (x ∈ merge_sort N.le w); [by rewrite HP|]. subst x.
  apply list_elem_of_lookup_total_2. rewrite (Permutation_length HP).
  destruct w as [|x w]; [done|]. apply Nat.div_lt; simpl; lia.
Qed.

Lemma mtp_le headers n bound :
  Forall (λ h, timestamp h ≤ bound) headers → calculate_median_time_past headers n ≤ bound.
Proof.
  intros HF. rewrite mtp_window. cbv zeta. case_bool_decide as Hw; [lia|].
  apply median_elem in Hw. apply list_elem_of_fmap in Hw as (h & -> & Hh).
  apply elem_of_take in Hh as (i & Hh & _). apply list_elem_of_lookup_2 in Hh.
  rewrite Forall_forall in HF. apply HF. rewrite <- (take_drop (N.to_nat (N.min n (N.of_nat (length headers))) - 11) headers).
  apply elem_of_app. by right.
Qed.

Lemma sorted_strict_merge_sort (w : list N) : StronglySorted N.lt w → merge_sort N.le w = w.
Proof.
  intros Hs. apply (StronglySorted_unique N.le).
  - apply (StronglySorted_merge_sort N.le).
  - induction Hs as [|x l Hs IH HF]; constructor; [done|].
    eapply Forall_impl; [exact HF|]. intros; simpl in *; lia.
  - apply merge_sort_Permutation.
Qed.

Lemma sorted_lookup (l : list N) i j x y :
  StronglySorted N.le l → (i < j)%nat → l !! i = Some x → l !! j = Some y → x ≤ y.
Proof.
  intros Hs Hij Hi Hj. rewrite <- (take_drop (S i) l) in Hs.
  eapply (StronglySorted_app_1_elem_of N.le); [exact Hs| |].
  - apply elem_of_take. exists i. split; [done|lia].
  - apply list_elem_of_lookup_2 with (j - S i)%nat. rewrite lookup_drop. rewrite <- Hj. f_equal. lia.
Qed.

Lemma sorted_before_le (l : list N) k x y :
  StronglySorted N.le l → l !! k = Some x → y ∈ take (S k) l → y ≤ x.
Proof.
  intros Hs Hk (i & Hy & Hi)%elem_of_take.
  destruct (Nat.eq_dec i k) as [->|]; [by simplify_eq|].
  apply (sorted_lookup l i k); [done|lia|done|done].
Qed.

Lemma sorted_after_le (l : list N) k x y :
  StronglySorted N.le l → l !! k = Some x → y ∈ drop k l → x ≤ y.
Proof.
  intros Hs Hk [i Hy]%list_elem_of_lookup. rewrite lookup_drop in Hy.
  destruct i as [|i]; [rewrite Nat.add_0_r in Hy; by simplify_eq|].
  apply (sorted_lookup l k (k + S i)); [done|lia|done|done].
Qed.

Lemma filter_all (P : N → Prop) `{∀ x, Decision (P x)} (l : list N) :
  (∀ x, x ∈ l → P x) → filter P l = l.
Proof.
  induction l as [|x l IH]; intros HP; [done|]. rewrite filter_cons_True by (apply HP; set_solver).
  f_equal. apply IH. set_solver.
Qed.

Lemma filter_length_prefix (P : N → Prop) `{∀ x, Decision (P x)} (l1 l2 : list N) :
  (∀ x, x ∈ l1 → P x) → (length l1 ≤ length (filter P (l1 ++ l2)))%nat.
Proof. intros HP. rewrite filter_app, length_app, filter_all by done. lia. Qed.

Lemma median_counts (w : list N) (m := merge_sort N.le w !!! (length w / 2)%nat) :
  w ≠ [] →
  (length w / 2 < length (filter (λ t, t ≤ m)%N w))%nat ∧
  (length w - length w / 2 ≤ length (filter (λ t, m ≤ t)%N w))%nat.
Proof.
  intros Hne. pose proof (merge_sort_Permutation N.le w) as HP.
  pose proof (StronglySorted_merge_sort N.le w) as Hs.
  set (l := merge_sort N.le w) in *.
  assert (HF : ∀ (P : N → Prop) `{∀ x, Decision (P x)}, length (filter P w) = length (filter P l))
    by (intros; by rewrite HP).
  rewrite !HF.
  assert (Hl : (length w / 2 < length l)%nat).
  { rewrite (Permutation_length HP). destruct w; [done|]. apply Nat.div_lt; simpl; lia. }
  assert (Hm : l !! (length w / 2)%nat = Some m) by (by apply list_lookup_lookup_total_lt).
  assert (Hlen : length l = length w) by (by rewrite HP). split.
  - rewrite <- (take_drop (S (length w / 2)) l) at 1.
    eapply Nat.lt_le_trans; [|apply filter_length_prefix].
    + rewrite length_take. lia.
    + intros x Hx. by eapply sorted_before_le.
  - rewrite <- (take_drop (length w / 2) l) at 1. rewrite (Permutation_app_comm (take _ _)).
    eapply Nat.le_trans; [|apply filter_length_prefix].
    + rewrite length_drop. lia.
    + intros x Hx. by eapply sorted_after_le.
Qed.

(** *** Authoritative validation *)

Section validation.
Context {B3 : Blake3}.

Definition lock_time_ok (h mtp : N) (tx : Transaction) : Prop :=
  lock_time tx = 0 ∨ Forall (λ i, sequence i = U32_MAX) (inputs tx) ∨
  (lock_time tx < 500000000 ∧ lock_time tx ≤ h) ∨ (500000000 ≤ lock_time tx ∧ lock_time tx ≤ mtp).

Lemma all_final_spec ins :
  forallb (λ i, sequence i =? U32_MAX) ins = true ↔ Forall (λ i, sequence i = U32_MAX) ins.
Proof.
  rewrite forallb_forall, Forall_forall. setoid_rewrite <- list_elem_of_In.
  by setoid_rewrite N.eqb_eq.
Qed.

Lemma validate_lock_time_Ok tx h mtp :
  validate_lock_time tx h mtp = Ok tt ↔ lock_time_ok h mtp tx.
Proof.
  unfold validate_lock_time, lock_time_ok. rewrite <- all_final_spec.
  destruct (N.eqb_spec (lock_time tx) 0); simpl; [naive_solver|].
  destruct (forallb _ _); [naive_solver|].
  destruct (N.ltb_spec (lock_time tx) 500000000).
  - destruct (N.ltb_spec h (lock_time tx)); split; try done; naive_solver lia.
  - destruct (N.ltb_spec mtp (lock_time tx)); split; try done; naive_solver lia.
Qed.

Lemma validate_lock_time_cases tx h mtp :
  validate_lock_time tx h mtp = Ok tt ∨ validate_lock_time tx h mtp = Err LockTimeNotMet.
Proof.
  unfold validate_lock_time. destruct (_ || _); [by left|].
  destruct (lock_time tx <? _); [by destruct (h <? _); [right|left]|by destruct (mtp <? _); [right|left]].
Qed.

Lemma validate_lock_times_Ok txs h mtp :
  validate_lock_times txs h mtp = Ok tt ↔ Forall (lock_time_ok h mtp) txs.
Proof.
  induction txs as [|tx txs IH]; simpl; [by split; [constructor|]|].
  rewrite Forall_cons, <- validate_lock_time_Ok, <- IH, obind_Ok. split.
  - intros ([] & ? & ?). done.
  - intros [? ?]. by exists tt.
Qed.

(** A block that passes authoritative validation on top of [s], and the set
    it leaves. *)
Definition authoritative (b : Block) (h : N) (s : UtxoSet) (mtp fees : N) (s' : UtxoSet) : Prop :=
  validate_structure b = Ok tt ∧
  transaction_commitment_of (E := ConsensusError) b = Ok (transaction_commitment (header b)) ∧
  Forall (lock_time_ok h mtp) (drop 1 (transactions b)) ∧
  block_step s (transactions b) h fees s' ∧
  from_option (λ cb, outputs_value (outputs cb)) 0 (head (transactions b)) ≤
    get_block_subsidy h + fees ∧
  get_block_subsidy h + fees ≤ U64_MAX.

Lemma validate_authoritative_Ok b h s headers fees :
  validate_block_authoritative_with_headers b h s headers = Ok fees ↔
  ∃ s', authoritative b h s (calculate_median_time_past headers (N.of_nat (length headers))) fees s'.
Proof.
  unfold validate_block_authoritative_with_headers, authoritative.
  set (mtp := calculate_median_time_past _ _). split.
  - intros ([] & HS%map_err_Ok & (c & HC & H)%obind_Ok)%obind_Ok.
    destruct (decide (transaction_commitment (header b) = c)) as [E|E].
    2:{ rewrite bool_decide_eq_false_2 in H by done. done. }
    rewrite bool_decide_eq_true_2 in H by done. simpl in H. subst c.
    apply obind_Ok in H as ([] & HL%validate_lock_times_Ok & H).
    apply obind_Ok in H as (f & HA%map_err_Ok & H).
    apply obind_Ok in H as (cb & Hcb%expect_Ok & H).
    apply obind_Ok in H as (v & HV%map_err_Ok & H).
    apply total_output_quanta_Ok in HV as [-> Hv].
    apply obind_Ok in H as (m & Hm & H). apply ok_or_Ok, checked_add_Some in Hm as [-> Hmax].
    destruct (N.ltb_spec (get_block_subsidy h + f) (outputs_value (outputs cb))); [done|].
    injection H as ->. destruct (apply_block (transactions b) h s) as [s' r] eqn:EA. simpl in HA. subst r.
    apply apply_block_Ok in EA. exists s'. rewrite Hcb. done.
  - intros (s' & HS & HC & HL & HB & Hle & Hmax).
    rewrite HS. cbn [map_err obind]. rewrite HC. cbn [obind].
    rewrite bool_decide_eq_true_2 by done. cbn [negb].
    rewrite (proj2 (validate_lock_times_Ok _ _ _) HL). cbn [obind].
    pose proof HB as HB'. apply apply_block_Ok in HB as ->. cbn [snd map_err obind].
    destruct HB' as (cb & rest & s1 & E & _ & HCS & _). rewrite E in *. cbn [head expect obind from_option] in *.
    destruct HCS as (_ & _ & _ & _ & _ & _ & Hov).
    rewrite total_output_quanta_spec. destruct (N.leb_spec (outputs_value (outputs cb)) U64_MAX); [|lia].
    cbn [map_err obind]. unfold checked_add.
    destruct (N.leb_spec (get_block_subsidy h + fees) U64_MAX); [|lia]. cbn [ok_or obind].
    destruct (N.ltb_spec (get_block_subsidy h + fees) (outputs_value (outputs cb))); [lia|done].
Qed.

(** A validated block creates no more than the subsidy. *)
Lemma authoritative_value b h s mtp fees s' :
  authoritative b h s mtp fees s' → set_value s' ≤ set_value s + get_block_subsidy h.
Proof.
  intros (_ & _ & _ & HB & Hle & _). apply block_step_value in HB as (cb & rest & E & HV).
  rewrite E in Hle, HV. cbn [head from_option] in Hle.
  set (x := foldr (λ tx acc, _) 0 _) in HV. lia.
Qed.

Lemma authoritative_apply b h s mtp fees s' :
  authoritative b h s mtp fees s' → apply_block (transactions b) h s = (s', Ok fees).
Proof. intros (_ & _ & _ & HB & _). by apply apply_block_Ok. Qed.

(** *** Returning *)

Definition block_encodable (b : Block) : Prop := Forall transaction_encodable (transactions b).

Lemma transaction_commitment_returns {E} b :
  block_encodable b → ∃ c, transaction_commitment_of (E := E) b = Ok c.
Proof.
  intros HF. unfold transaction_commitment_of.
  assert (Hl : ∀ l acc, Forall transaction_encodable l → ∃ bs, ofold (E := E) (λ bytes tx,
            let? id := txid tx in Ok (bytes ++ hash_bytes id)) l acc = Ok bs).
  { intros l acc Hl. revert acc. induction Hl as [|tx l Htx Hl IH]; intros acc; [by eexists|].
    cbn [ofold]. destruct (transaction_encodable_txid (E := E) tx Htx) as [id ->]. apply IH. }
  destruct (Hl _ [] HF) as [bs ->]. by eexists.
Qed.

Lemma validate_structure_returns b : returns (validate_structure b).
Proof.
  unfold validate_structure. destruct (transactions b) as [|cb txs]; [done|].
  destruct (is_coinbase cb); [|done]. cbn [negb]. generalize 1. induction txs as [|tx txs IH]; intros i; [done|].
  cbn [validate_non_coinbase]. destruct (is_coinbase tx); [done|].
  apply returns_obind; [apply returns_map_err, validate_stateless_returns|]. auto.
Qed.

Lemma validate_lock_times_returns txs h mtp : returns (validate_lock_times txs h mtp).
Proof.
  induction txs as [|tx txs IH]; [done|]. cbn [validate_lock_times].
  apply returns_obind; [|auto]. unfold validate_lock_time. repeat case_match; done.
Qed.

Lemma validate_authoritative_returns b h s headers :
  block_encodable b → returns (validate_block_authoritative_with_headers b h s headers).
Proof.
  intros He. unfold validate_block_authoritative_with_headers.
  apply returns_obind; [apply returns_map_err, validate_structure_returns|intros [] HS%map_err_Ok].
  destruct (transaction_commitment_returns (E := ConsensusError) b He) as [c ->]. cbn [obind].
  destruct (negb _); [done|].
  apply returns_obind; [apply validate_lock_times_returns|intros _ _].
  apply returns_obind; [apply returns_map_err; by apply apply_block_returns|intros f _].
  unfold validate_structure in HS. destruct (transactions b) as [|cb txs]; [done|]. cbn [head expect obind].
  apply returns_obind; [apply returns_map_err, total_output_quanta_returns|intros v _].
  apply returns_obind; [by destruct (checked_add _ _)|intros m _]. by destruct (_ <? _).
Qed.
End validation.

(** ** Properties *)

(** Emission: each halving interval pays half the subsidy of the one before,
    rounded down, and all blocks together issue at most 33,000,000 SCY; with
    the genesis allocation this stays within [MAX_SUPPLY]. *)
Theorem subsidy_emission (h : N) (n : nat) :
  get_block_subsidy (h + HALVING_INTERVAL) = get_block_subsidy h / 2 ∧
  get_block_subsidy (h + 1) ≤ get_block_subsidy h ∧
  emission n ≤ 33000000 * COIN ∧ TOTAL_GENESIS_QUANTA + emission n ≤ MAX_SUPPLY.
Proof.
  rewrite !get_block_subsidy_val. split.
  { replace (h + HALVING_INTERVAL) with (h + 1 * HALVING_INTERVAL) by lia.
    rewrite N.div_add, N.pow_add_r by done. by rewrite N.Div0.div_div. }
  split.
  { apply N.div_le_compat_l. split; [apply N.neq_0_lt_0; by apply N.pow_nonzero|].
    apply N.pow_le_mono_r; [done|]. apply N.Div0.div_le_mono. lia. }
  pose proof (emission_bound n) as H. split; [lia|].
  assert (TOTAL_GENESIS_QUANTA + 33000000 * COIN = MAX_SUPPLY) by (vm_compute; done). lia.
Qed.

(** The median time past is 0 without headers, and otherwise the upper median
    of the timestamps of the last (at most eleven) headers before the index:
    one of them, with more than half of them at most as large and at least half
    of them at least as large. *)
Theorem median_time_past_spec (headers : list BlockHeader) (n : N)
    (w := timestamp <$> (let e := N.to_nat (N.min n (N.of_nat (length headers))) in
                         take (e - (e - 11)) (drop (e - 11) headers)))
    (m := calculate_median_time_past headers n) :
  (length w ≤ 11)%nat ∧ (w = [] → m = 0) ∧
  (w ≠ [] → m ∈ w ∧ (length w / 2 < length (filter (λ t, t ≤ m)%N w))%nat ∧
            (length w - length w / 2 ≤ length (filter (λ t, m ≤ t)%N w))%nat).
Proof.
  split.
  { subst w. cbv zeta. rewrite length_fmap, length_take. lia. }
  change m with (if bool_decide (w = []) then 0 else merge_sort N.le w !!! (length w / 2)%nat).
  case_bool_decide as Hw; [done|].
  split; [done|]. intros _. split; [by apply median_elem|by apply median_counts].
Qed.

Definition toy_header (t : N) : BlockHeader := mkBlockHeader 1 ZERO ZERO ZERO t 0 0.

Lemma median_time_past_spec_witness :
  calculate_median_time_past (toy_header <$> [3; 9; 4; 20; 5]) 4 ∈ [3; 9; 4; 20] ∧
  calculate_median_time_past (toy_header <$> [3; 9; 4; 20; 5]) 4 = 9.
Proof.
  split; [|vm_compute; reflexivity].
  refine (proj1 (proj2 (proj2 (median_time_past_spec (toy_header <$> [3; 9; 4; 20; 5]) 4)) _)).
  discriminate.
Defined.

Section consensus_properties.
Context {B3 : Blake3}.

(** C13: Authoritative validation accepts a block, with fee total [fees], exactly
    when the block is structurally valid, commits to its transactions, has
    final lock times, applies in order to the parent's unspent outputs, and
    its coinbase pays at most the subsidy and the fees. The value of the
    unspent outputs then grows by at most the subsidy. On encodable
    transactions validation returns. The maturity of a hundred blocks that
    [docs/protocol/eutxo-model.md] asks of a spent coinbase output is no part of
    it. *)
Theorem authoritative_validation_spec (b : Block) (h : N) (s : UtxoSet) (headers : list BlockHeader)
    (fees : N) (mtp := calculate_median_time_past headers (N.of_nat (length headers))) :
  (validate_block_authoritative_with_headers b h s headers = Ok fees ↔
   ∃ s', authoritative b h s mtp fees s') ∧
  (validate_block_authoritative_with_headers b h s headers = Ok fees →
   ∃ s', apply_block (transactions b) h s = (s', Ok fees) ∧
         set_value s' ≤ set_value s + get_block_subsidy h) ∧
  (block_encodable b → returns (validate_block_authoritative_with_headers b h s headers)).
Proof.
  split; [apply validate_authoritative_Ok|]. split; [|apply validate_authoritative_returns].
  intros (s' & H)%validate_authoritative_Ok. exists s'.
  split; [by eapply authoritative_apply|by eapply authoritative_value].
Qed.

(** The default verifier repeats the validation without the headers, hence
    with a median time past of 0: it rejects every structurally valid,
    correctly committed block with a transaction locked by time, also one
    whose lock time the chain's median time past has reached. *)
Theorem authoritative_verifier_time_locks (b : Block) (s : UtxoSet) (tx : Transaction)
    (HS : validate_structure b = Ok tt)
    (HC : transaction_commitment_of (E := ConsensusError) b = Ok (transaction_commitment (header b)))
    (Hin : tx ∈ drop 1 (transactions b)) (Ht : 500000000 ≤ lock_time tx)
    (Hs : ¬ Forall (λ i, sequence i = U32_MAX) (inputs tx)) :
  AuthoritativeTransactionVerifier b s = Err LockTimeNotMet.
Proof.
  unfold AuthoritativeTransactionVerifier, validate_block_authoritative,
    validate_block_authoritative_with_headers.
  rewrite HS. cbn [map_err obind]. rewrite HC. cbn [obind]. rewrite bool_decide_eq_true_2 by done.
  cbn [negb]. change (calculate_median_time_past [] _) with 0.
  assert (HL : validate_lock_times (drop 1 (transactions b)) (coinbase_height b) 0 = Err LockTimeNotMet).
  { induction (drop 1 (transactions b)) as [|tx' txs IH]; [by apply not_elem_of_nil in Hin|].
    cbn [validate_lock_times].
    destruct (validate_lock_time_cases tx' (coinbase_height b) 0) as [E| ->]; [|done].
    rewrite E. cbn [obind]. apply elem_of_cons in Hin as [->|Hin]; [|auto].
    apply validate_lock_time_Ok in E. unfold lock_time_ok in E.
    destruct E as [?|[?|[[??]|[??]]]]; [lia|done|lia|lia]. }
  by rewrite HL.
Qed.
End consensus_properties.

(** ** Witnesses *)

Definition toy_commitment (txs : list Transaction) : Hash :=
  match transaction_commitment_of (B3 := toy_blake3) (E := ConsensusError)
          (mkBlock (toy_header 0) txs) with Ok c => c | _ => ZERO end.
Definition toy_block (t : N) (txs : list Transaction) : Block :=
  mkBlock (mkBlockHeader 1 ZERO (toy_commitment txs) ZERO t 0 0) txs.
Definition toy_locked : Transaction :=
  mkTransaction 1 [mkTxIn (mkOutPoint (toy_txid toy_coinbase) 0) [] 0] [mkTxOut 900 [x52]] 500000001.

Lemma authoritative_validation_spec_witness :
  ∃ s', apply_block (B3 := toy_blake3) [toy_coinbase; toy_spend] 1 ∅ = (s', Ok 100) ∧
        set_value s' ≤ set_value ∅ + get_block_subsidy 1.
Proof.
  apply (authoritative_validation_spec (B3 := toy_blake3) (toy_block 5 [toy_coinbase; toy_spend]) 1 ∅ [] 100).
  vm_compute. reflexivity.
Defined.

Lemma authoritative_verifier_time_locks_witness :
  is_ok (validate_block_authoritative_with_headers (B3 := toy_blake3)
           (toy_block 600000000 [toy_coinbase; toy_locked]) 1 ∅ [toy_header 599999999]) = true ∧
  AuthoritativeTransactionVerifier (B3 := toy_blake3)
    (toy_block 600000000 [toy_coinbase; toy_locked]) ∅ = Err LockTimeNotMet.
Proof.
  split; [vm_compute; reflexivity|].
  apply (authoritative_verifier_time_locks (B3 := toy_blake3) _ ∅ toy_locked).
  - vm_compute. reflexivity.
  - vm_compute. reflexivity.
  - apply (bool_decide_unpack _). vm_compute. exact I.
  - vm_compute. discriminate.
  - intros H%Forall_cons. destruct H as [H _]. discriminate H.
Defined.
