(* ===== verification/Chain.v ===== *)
(** * The block tree

    [ChainTree] of [crates/scytale-consensus/src/chain.rs]: the blocks seen so
    far, the canonical tip, and [process_block], which validates a candidate,
    stores it and reorganizes the chain onto it when it carries more work.

    [process_block_with_verifier] takes [&mut self] and [&mut UtxoSet], so it is
    an [stM] computation over the pair. The clock and the transaction verifier
    are parameters. The loops that follow parent links get one unit of fuel for
    each height below their start; that this is always enough is proved, not
    assumed ([process_block_returns]). *)

From S2P Require Import Prelude Bytes Primitives Types Codec Transaction Utxo Merkle Genesis.
From S2P Require Import Words Target Work Consensus.
Local Open Scope N_scope.
Local Open Scope scy_scope.

Definition MAX_FUTURE_DRIFT : N := 7200.
Definition DEFAULT_MAX_REORG_DEPTH : N := 100.

Record BlockNode := mkBlockNode {
  node_hash : Hash;
  parent_hash : Hash;
  height : N;
  node_work : CumulativeWork;
  cumulative_work : CumulativeWork;
  node_block : Block
}.

Record ReorgResult := mkReorgResult {
  old_tip : Hash;
  new_tip : Hash;
  disconnected_blocks : list Block;
  connected_blocks : list Block;
  transactions_for_mempool : list Transaction
}.

Record ChainTree := mkChainTree {
  nodes : gmap Hash BlockNode;
  canonical_tip : Hash;
  max_reorg_depth : N;
  invalid_blocks : gset Hash
}.

(** What the message of [ReorgFailed] reports. *)
Inductive ReorgFailure :=
| FailReplay (e : UtxoError)
| FailConsensus (e : ConsensusError)
| FailVerification (e : ConsensusError)
| FailUtxoRoot (expected actual : Hash).

(** The last one is the message of [Node::submit_external_block]. *)
Inductive InvalidBranchReason := BlockMarkedInvalid | ParentMarkedInvalid | BlockOrAncestorInvalid.
Inductive TimestampReason := ClockBeforeEpoch | MissingEpochHistory.

Inductive ChainError :=
| ChainDifficulty (e : DifficultyError)
| InvalidPoW (e : PowError)
| InvalidBranchBlock (hash : Hash) (reason : InvalidBranchReason)
| CommonAncestorNotFound (tip_a tip_b : Hash)
| ReorgFailed (hash : Hash) (error : ReorgFailure)
| ReorgDepthExceeded (depth max : N)
| CorruptedLinkage (parent : Hash)
| WorkOverflow
| ChainBlockError (e : BlockError)
| InvalidCoinbaseReward (subsidy fees output : N)
| InvalidTransactionCommitment (expected actual : Hash)
| InvalidTimestamp (reason : TimestampReason)
| NonMonotonicTimestamp
| BlockTooFarInFuture
| TimestampBeforeMedianTimePast.

(** ** Accessors *)

Definition with_max_reorg_depth (t : ChainTree) (d : N) : ChainTree :=
  mkChainTree (nodes t) (canonical_tip t) d (invalid_blocks t).
Definition canonical_height (t : ChainTree) : N := from_option height 0 (nodes t !! canonical_tip t).
Definition canonical_work (t : ChainTree) : CumulativeWork :=
  from_option cumulative_work Work_zero (nodes t !! canonical_tip t).
Definition get_node (t : ChainTree) (h : Hash) : option BlockNode := nodes t !! h.
Definition tree_len (t : ChainTree) : N := N.of_nat (size (nodes t)).
Definition is_block_invalid (t : ChainTree) (h : Hash) : bool := bool_decide (h ∈ invalid_blocks t).
Definition mark_block_invalid (h : Hash) (t : ChainTree) : ChainTree :=
  mkChainTree (nodes t) (canonical_tip t) (max_reorg_depth t) ({[h]} ∪ invalid_blocks t).
Definition insert_node (n : BlockNode) (t : ChainTree) : ChainTree :=
  mkChainTree (<[node_hash n := n]> (nodes t)) (canonical_tip t) (max_reorg_depth t) (invalid_blocks t).

(** ** Walking parent links *)

(** Enough fuel to walk from [h] down to height 0. *)
Definition link_fuel (ns : gmap Hash BlockNode) (h : Hash) : nat :=
  S (from_option (λ n, N.to_nat (height n)) O (ns !! h)).

(** The first loop of [find_common_ancestor]. *)
Fixpoint ancestors_loop {E} (fuel : nat) (ns : gmap Hash BlockNode) (curr : Hash) (acc : gset Hash) :
    outcome E (gset Hash) :=
  match fuel with
  | O => Diverge
  | S fuel =>
      match ns !! curr with
      | None => Ok acc
      | Some node =>
          let acc := {[curr]} ∪ acc in
          if height node =? 0 then Ok acc else ancestors_loop fuel ns (parent_hash node) acc
      end
  end.

(** Its second loop. *)
Fixpoint meet_loop {E} (fuel : nat) (ns : gmap Hash BlockNode) (ancestors : gset Hash) (curr : Hash) :
    outcome E (option Hash) :=
  match fuel with
  | O => Diverge
  | S fuel =>
      match ns !! curr with
      | None => Ok None
      | Some node =>
          if bool_decide (curr ∈ ancestors) then Ok (Some curr)
          else if height node =? 0 then Ok None
          else meet_loop fuel ns ancestors (parent_hash node)
      end
  end.

Definition find_common_ancestor (t : ChainTree) (tip_a tip_b : Hash) : outcome ChainError Hash :=
  if bool_decide (tip_a = tip_b) then Ok tip_a
  else
    let? ancestors := ancestors_loop (link_fuel (nodes t) tip_a) (nodes t) tip_a ∅ in
    let? found := meet_loop (link_fuel (nodes t) tip_b) (nodes t) ancestors tip_b in
    ok_or found (CommonAncestorNotFound tip_a tip_b).

(** The loop of [get_path_from_genesis]: nodes from [curr] down. *)
Fixpoint path_loop {E} (fuel : nat) (ns : gmap Hash BlockNode) (curr : Hash) :
    outcome E (list BlockNode) :=
  match fuel with
  | O => Diverge
  | S fuel =>
      match ns !! curr with
      | None => Ok []
      | Some node =>
          if height node =? 0 then Ok [node]
          else let? path := path_loop fuel ns (parent_hash node) in Ok (node :: path)
      end
  end.

Definition get_path_from_genesis {E} (t : ChainTree) (tip : Hash) : outcome E (list BlockNode) :=
  let? path := path_loop (link_fuel (nodes t) tip) (nodes t) tip in Ok (reverse path).

(** The two [while curr != common_ancestor] loops: nodes from [curr] down. *)
Fixpoint until_loop {E} (fuel : nat) (ns : gmap Hash BlockNode) (curr stop : Hash) :
    outcome E (list BlockNode) :=
  match fuel with
  | O => Diverge
  | S fuel =>
      if bool_decide (curr = stop) then Ok []
      else
        match ns !! curr with
        | None => Ok []
        | Some node => let? rest := until_loop fuel ns (parent_hash node) stop in Ok (node :: rest)
        end
  end.

Section chain.
Context {B3 : Blake3} {V : BlockTransactionVerifier}.

(** [ChainTree::new]. *)
Definition ChainTree_new {E} (genesis_block : Block) : outcome E ChainTree :=
  let? genesis_hash := header_hash (header genesis_block) in
  let b_work := block_work (from_compact (difficulty_target (header genesis_block))) in
  let genesis_node := mkBlockNode genesis_hash (previous_block_hash (header genesis_block)) 0
                        b_work b_work genesis_block in
  Ok (mkChainTree {[genesis_hash := genesis_node]} genesis_hash DEFAULT_MAX_REORG_DEPTH ∅).

(** [apply_block_transactions(&txs[0], &txs[1..], height)]. *)
Definition apply_node (n : BlockNode) (s : UtxoSet) : UtxoSet * outcome UtxoError N :=
  match transactions (node_block n) with
  | [] => (s, Panic)
  | cb :: txs => apply_block_transactions cb txs (height n) s
  end.

(** Replaying a path from the empty set. *)
Definition replay (path : list BlockNode) : outcome ChainError UtxoSet :=
  ofold (λ staged node,
    match apply_node node staged with
    | (staged, Ok _) => Ok staged
    | (_, Err e) => Err (ReorgFailed (node_hash node) (FailReplay e))
    | (_, Panic) => Panic
    | (_, Diverge) => Diverge
    end) path ∅.

Definition path_headers {E} (t : ChainTree) (tip : Hash) : outcome E (list BlockHeader) :=
  let? path := get_path_from_genesis t tip in Ok ((λ n, header (node_block n)) <$> path).

(** ** The stages of [process_block_with_verifier] *)

Definition expected_target (t : ChainTree) (parent : Hash) (parent_node : BlockNode) (h : N) :
    outcome ChainError Target :=
  let parent_target := from_compact (difficulty_target (header (node_block parent_node))) in
  if (DEFAULT_DIFFICULTY_EPOCH_BLOCKS <=? h) && (h mod DEFAULT_DIFFICULTY_EPOCH_BLOCKS =? 0) then
    let? epoch_headers := get_path_from_genesis t parent in
    let start_index :=
      saturating_sub (N.of_nat (length epoch_headers)) (DEFAULT_DIFFICULTY_EPOCH_BLOCKS + 1) in
    let? start_time :=
      ok_or ((λ n, timestamp (header (node_block n))) <$> epoch_headers !! N.to_nat start_index)
        (InvalidTimestamp MissingEpochHistory) in
    map_err ChainDifficulty
      (calculate_next_target parent_target start_time
         (timestamp (header (node_block parent_node))) DifficultyConfig_default)
  else Ok parent_target.

Definition check_header (b : Block) (parent_node : BlockNode) (target : Target) (now : option N) :
    outcome ChainError unit :=
  let? _ := map_err ChainDifficulty (validate_block_target (header b) target) in
  let? _ := map_err InvalidPoW (verify_pow (header b) target) in
  if timestamp (header b) <=? timestamp (header (node_block parent_node))
  then Err NonMonotonicTimestamp
  else
    let? now := ok_or now (InvalidTimestamp ClockBeforeEpoch) in
    if saturating_add now MAX_FUTURE_DRIFT <? timestamp (header b) then Err BlockTooFarInFuture
    else Ok tt.

Definition parent_state (t : ChainTree) (u : UtxoSet) (parent : Hash) : outcome ChainError UtxoSet :=
  if bool_decide (parent = canonical_tip t) then Ok u
  else let? path := get_path_from_genesis t parent in replay path.

(** The conversion of a validation error. *)
Definition chain_error_of (hash : Hash) (e : ConsensusError) : ChainError :=
  match e with
  | ConsensusInvalidCoinbaseReward subsidy fees output => InvalidCoinbaseReward subsidy fees output
  | ConsensusInvalidTransactionCommitment expected actual => InvalidTransactionCommitment expected actual
  | other => ReorgFailed hash (FailConsensus other)
  end.

(** The chain state a node keeps: the tree and the set of the canonical tip. *)
Definition ChainState : Type := ChainTree * UtxoSet.
Definition chainM := stM ChainState ChainError.
Definition on_tree (f : ChainTree → ChainTree) : ChainState → ChainState := λ st, (f st.1, st.2).

(** [self.invalid_blocks.insert] of the listed hashes, then the error. *)
Definition reject {A} (marks : list Hash) (e : ChainError) : chainM A :=
  let! _ := smodify (on_tree (λ t, foldl (λ t h, mark_block_invalid h t) t marks)) in
  slift (Err e).

(** One iteration of the loop over [connected_nodes]. *)
Definition connect_node (block_hash : Hash) (node : BlockNode) (staged : UtxoSet) : chainM UtxoSet :=
  let! st := sget in
  let! headers := slift (path_headers st.1 (parent_hash node)) in
  match validate_block_authoritative_with_headers (node_block node) (height node) staged headers with
  | Err e => reject [node_hash node; block_hash] (chain_error_of (node_hash node) e)
  | Panic => slift Panic
  | Diverge => slift Diverge
  | Ok _ =>
      match verify_block_transactions (node_block node) staged with
      | Err e => reject [node_hash node; block_hash] (ReorgFailed (node_hash node) (FailVerification e))
      | Panic => slift Panic
      | Diverge => slift Diverge
      | Ok _ =>
          match apply_node node staged with
          | (_, Err e) => reject [node_hash node; block_hash] (ReorgFailed (node_hash node) (FailReplay e))
          | (_, Panic) => slift Panic
          | (_, Diverge) => slift Diverge
          | (staged, Ok _) =>
              let! calculated_root := slift (compute_utxo_root staged) in
              if negb (bool_decide (utxo_root (header (node_block node)) = calculated_root))
              then reject [node_hash node; block_hash]
                     (ReorgFailed (node_hash node)
                        (FailUtxoRoot (utxo_root (header (node_block node))) calculated_root))
              else sret staged
          end
      end
  end.

Fixpoint connect_nodes (block_hash : Hash) (connected : list BlockNode) (staged : UtxoSet) :
    chainM UtxoSet :=
  match connected with
  | [] => sret staged
  | node :: connected =>
      let! staged := connect_node block_hash node staged in
      connect_nodes block_hash connected staged
  end.

(** The transactions handed back to the mempool. *)
Definition block_txids {E} (blocks : list Block) : outcome E (gset Hash) :=
  ofold (λ ids tx, let? id := txid tx in Ok ({[id]} ∪ ids)) (blocks ≫= transactions) ∅.
Definition returned_transactions {E} (disconnected connected : list Block) :
    outcome E (list Transaction) :=
  let? connected_txids := block_txids connected in
  ofold (λ out tx, let? id := txid tx in
           Ok (if bool_decide (id ∈ connected_txids) then out else out ++ [tx]))
    (disconnected ≫= λ b, drop 1 (transactions b)) [].

(** Steps 5 to 7: the candidate carries more work than the active tip. *)
Definition reorganize (new_node : BlockNode) : chainM (option ReorgResult) :=
  let! st := sget in
  let '(t, u) := st in
  let block_hash := node_hash new_node in
  let parent := parent_hash new_node in
  let old_tip := canonical_tip t in
  let! common_ancestor := slift (find_common_ancestor t old_tip parent) in
  let! disconnected :=
    slift (until_loop (link_fuel (nodes t) old_tip) (nodes t) old_tip common_ancestor) in
  let reorg_depth := N.of_nat (length disconnected) in
  if max_reorg_depth t <? reorg_depth then
    let! _ := smodify (on_tree (insert_node new_node)) in
    slift (Err (ReorgDepthExceeded reorg_depth (max_reorg_depth t)))
  else
    let! connected_rev :=
      slift (until_loop (link_fuel (nodes t) parent) (nodes t) parent common_ancestor) in
    let connected := reverse connected_rev ++ [new_node] in
    let! staged := slift (if bool_decide (common_ancestor = old_tip) then Ok u
                          else let? path := get_path_from_genesis t common_ancestor in replay path) in
    let! staged := connect_nodes block_hash connected staged in
    let! _ := smodify (λ st, (mkChainTree (<[block_hash := new_node]> (nodes st.1)) block_hash
                                (max_reorg_depth st.1) (invalid_blocks st.1), staged)) in
    let! returned := slift (returned_transactions (node_block <$> disconnected) (node_block <$> connected)) in
    sret (Some (mkReorgResult old_tip block_hash (node_block <$> disconnected)
                  (node_block <$> connected) returned)).

(** Steps 3 and 4: work, and the comparison with the active tip. *)
Definition attach_block (b : Block) (block_hash : Hash) (parent_node : BlockNode) (h : N) :
    chainM (option ReorgResult) :=
  let! st := sget in
  let b_work := block_work (from_compact (difficulty_target (header b))) in
  let! cum_work := slift (ok_or (work_checked_add (cumulative_work parent_node) b_work) WorkOverflow) in
  let new_node := mkBlockNode block_hash (previous_block_hash (header b)) h b_work cum_work b in
  let! active_tip_node := slift (expect (nodes st.1 !! canonical_tip st.1)) in
  if work_leb cum_work (cumulative_work active_tip_node) then
    let! _ := smodify (on_tree (insert_node new_node)) in sret None
  else reorganize new_node.

Definition process_block_with_verifier (now : option N) (b : Block) : chainM (option ReorgResult) :=
  let! block_hash := slift (header_hash (header b)) in
  let! st := sget in
  let '(t, u) := st in
  let parent := previous_block_hash (header b) in
  if is_block_invalid t block_hash
  then slift (Err (InvalidBranchBlock block_hash BlockMarkedInvalid))
  else if is_block_invalid t parent
  then reject [block_hash] (InvalidBranchBlock block_hash ParentMarkedInvalid)
  else
    let! _ := slift (map_err ChainBlockError (validate_structure b)) in
    if bool_decide (is_Some (nodes t !! block_hash)) then sret None
    else
      let! parent_node := slift (ok_or (nodes t !! parent) (CorruptedLinkage parent)) in
      let h := wrap64 (height parent_node + 1) in
      let! target := slift (expected_target t parent parent_node h) in
      let! _ := slift (check_header b parent_node target now) in
      let! parent_utxo := slift (parent_state t u parent) in
      let! headers := slift (path_headers t parent) in
      let mtp := calculate_median_time_past headers (N.of_nat (length headers)) in
      if negb (bool_decide (headers = [])) && (timestamp (header b) <? mtp)
      then slift (Err TimestampBeforeMedianTimePast)
      else
        match validate_block_authoritative_with_headers b h parent_utxo headers with
        | Err e => reject [block_hash] (chain_error_of block_hash e)
        | Panic => slift Panic
        | Diverge => slift Diverge
        | Ok _ => attach_block b block_hash parent_node h
        end.
End chain.

(** [process_block]: the baseline verifier. *)
Definition process_block {B3 : Blake3} (now : option N) (b : Block) : chainM (option ReorgResult) :=
  process_block_with_verifier (V := AuthoritativeTransactionVerifier) now b.

(** ** The ledger a tree stands for *)

Section ledger.
Context {B3 : Blake3}.

Definition mtp_of (path : list BlockNode) : N :=
  calculate_median_time_past ((λ n, header (node_block n)) <$> path) (N.of_nat (length path)).

(** [ledger ns h path u]: [path] leads from a root of [ns] to [h] along parent
    links, every block on it is valid on top of the ones before, and [u] is
    the set of unspent outputs they leave. *)
Inductive ledger (ns : gmap Hash BlockNode) : Hash → list BlockNode → UtxoSet → Prop :=
| ledger_genesis h n u fees :
    ns !! h = Some n → height n = 0 →
    apply_block (transactions (node_block n)) 0 ∅ = (u, Ok fees) →
    ledger ns h [n] u
| ledger_link h n path u u' fees :
    ns !! h = Some n → height n ≠ 0 →
    ledger ns (parent_hash n) path u →
    authoritative (node_block n) (height n) u (mtp_of path) fees u' →
    ledger ns h (path ++ [n]) u'.

(** The links of a stored node. *)
Definition node_wf (genesis : BlockNode) (ns : gmap Hash BlockNode) (h : Hash) (n : BlockNode) : Prop :=
  node_hash n = h ∧
  h = blake3 (header_bytes (header (node_block n))) ∧
  parent_hash n = previous_block_hash (header (node_block n)) ∧
  block_encodable (node_block n) ∧
  work_wf (cumulative_work n) ∧
  (height n = 0 → n = genesis) ∧
  (height n ≠ 0 → ∃ p, ns !! parent_hash n = Some p ∧ height n = height p + 1 ∧
     timestamp (header (node_block p)) < timestamp (header (node_block n)) ∧
     work_checked_add (cumulative_work p)
       (block_work (from_compact (difficulty_target (header (node_block n))))) =
     Some (cumulative_work n)).

Lemma ledger_lookup ns h path u :
  ledger ns h path u → ∃ n rest, ns !! h = Some n ∧ path = rest ++ [n].
Proof. destruct 1 as [h n u fees Hn|h n p u u' fees Hn]; [by exists n, []|by exists n, p]. Qed.

Lemma ledger_det ns h p1 u1 p2 u2 :
  ledger ns h p1 u1 → ledger ns h p2 u2 → p1 = p2 ∧ u1 = u2.
Proof.
  intros H1. revert p2 u2; induction H1 as [h n u fees Hn Hh HA|h n p u u' fees Hn Hh H1 IH HA];
    intros p2 u2 H2; inversion H2 as [? n2 ? ? Hn2 Hh2 HA2|? n2 ? ? ? ? Hn2 Hh2 HL2 HA2]; simplify_eq.
  - split; [done|congruence].
  - apply IH in HL2 as [-> ->]. split; [done|].
    apply authoritative_apply in HA, HA2. congruence.
Qed.

Lemma ledger_mono ns ns' h path u : ns ⊆ ns' → ledger ns h path u → ledger ns' h path u.
Proof.
  intros Hs H. induction H as [h n u fees Hn Hh HA|h n p u u' fees Hn Hh H IH HA].
  - eapply ledger_genesis; [by eapply lookup_weaken|done|done].
  - eapply ledger_link; [by eapply lookup_weaken|done|exact IH|done].
Qed.

Section links.
Context (genesis : BlockNode) (ns : gmap Hash BlockNode).
Hypothesis Hwf : map_Forall (node_wf genesis ns) ns.

Lemma node_parent h n :
  ns !! h = Some n → height n ≠ 0 → ∃ p, ns !! parent_hash n = Some p ∧ height n = height p + 1.
Proof.
  intros Hn Hh. destruct (Hwf _ _ Hn) as (_ & _ & _ & _ & _ & _ & HP).
  destruct (HP Hh) as (p & ? & ? & _). by exists p.
Qed.

Lemma ledger_nodes h path u : ledger ns h path u → Forall (λ n, ns !! node_hash n = Some n) path.
Proof.
  induction 1 as [h n u fees Hn|h n p u u' fees Hn _ _ IH].
  - destruct (Hwf _ _ Hn) as (E & _). subst h. by repeat constructor.
  - destruct (Hwf _ _ Hn) as (E & _). subst h. apply Forall_app. split; [done|by repeat constructor].
Qed.

(** The walks from a node down its path. *)
Lemma path_loop_ok {E} h n path u fuel :
  ledger ns h path u → ns !! h = Some n → (N.to_nat (height n) < fuel)%nat →
  path_loop (E := E) fuel ns h = Ok (reverse path).
Proof.
  intros HL. revert n fuel; induction HL as [h n u fees Hn Hh _|h n p u u' fees Hn Hh HL IH _];
    intros n' [|fuel] Hn' Hf; try lia; simplify_eq; cbn [path_loop]; rewrite Hn.
  - by rewrite Hh.
  - destruct (N.eqb_spec (height n) 0); [done|].
    destruct (node_parent _ _ Hn Hh) as (q & Hq & Hhq).
    rewrite (IH q fuel Hq) by lia. cbn [obind]. by rewrite reverse_snoc.
Qed.

Lemma get_path_ok {E} t h path u :
  nodes t = ns → ledger ns h path u → get_path_from_genesis (E := E) t h = Ok path.
Proof.
  intros Ht HL. destruct (ledger_lookup _ _ _ _ HL) as (n & _ & Hn & _).
  unfold get_path_from_genesis, link_fuel. rewrite Ht, Hn. cbn [from_option].
  rewrite (path_loop_ok h n path u) by (done || lia). cbn [obind]. by rewrite reverse_involutive.
Qed.

Lemma path_headers_ok {E} t h path u :
  nodes t = ns → ledger ns h path u →
  path_headers (E := E) t h = Ok ((λ n, header (node_block n)) <$> path).
Proof. intros Ht HL. unfold path_headers. by rewrite (get_path_ok t h path u). Qed.

Lemma apply_node_block n s :
  transactions (node_block n) ≠ [] → apply_node n s = apply_block (transactions (node_block n)) (height n) s.
Proof. unfold apply_node, apply_block_transactions. by destruct (transactions (node_block n)). Qed.

Lemma apply_block_nonempty txs h s s' fees : apply_block txs h s = (s', Ok fees) → txs ≠ [].
Proof. by destruct txs. Qed.

Lemma replay_ok h path u : ledger ns h path u → replay path = Ok u.
Proof.
  unfold replay. induction 1 as [h n u fees Hn Hh HA|h n p u u' fees Hn Hh HL IH HA].
  - cbn [ofold]. rewrite apply_node_block by (by eapply apply_block_nonempty). by rewrite Hh, HA.
  - rewrite ofold_app, IH. cbn [obind ofold]. apply authoritative_apply in HA.
    rewrite apply_node_block by (by eapply apply_block_nonempty). by rewrite HA.
Qed.

(** Headers on a path have increasing timestamps. *)
Lemma ledger_timestamps h n path u :
  ledger ns h path u → ns !! h = Some n →
  Forall (λ m, timestamp (header (node_block m)) ≤ timestamp (header (node_block n))) path.
Proof.
  intros HL. revert n; induction HL as [h n u fees Hn|h n p u u' fees Hn Hh HL IH _]; intros n' Hn'; simplify_eq.
  - by repeat constructor.
  - destruct (Hwf _ _ Hn) as (_ & _ & _ & _ & _ & _ & HP). destruct (HP Hh) as (q & Hq & _ & Ht & _).
    apply Forall_app. split; [|by repeat constructor].
    eapply Forall_impl; [exact (IH q Hq)|]. intros m Hm. simpl in *. lia.
Qed.

(** A validated path issues at most the subsidies of its heights. *)
Lemma ledger_value h n path u u0 fees0 :
  ledger ns h path u → ns !! h = Some n →
  apply_block (transactions (node_block genesis)) 0 ∅ = (u0, Ok fees0) →
  set_value u + get_block_subsidy 0 ≤ set_value u0 + emission (S (N.to_nat (height n))).
Proof.
  intros HL Hn HG. revert n Hn; induction HL as [h n u fees Hn Hh HA|h n p u u' fees Hn Hh HL IH HA];
    intros n' Hn'; simplify_eq.
  - destruct (Hwf _ _ Hn) as (_ & _ & _ & _ & _ & Hg & _). rewrite (Hg Hh) in HA.
    rewrite HG in HA. injection HA as -> ->. rewrite Hh.
    change (emission (S (N.to_nat 0))) with (0 + get_block_subsidy 0). lia.
  - destruct (node_parent _ _ Hn Hh) as (q & Hq & Hhq). specialize (IH q Hq).
    apply authoritative_value in HA. rewrite Hhq in *.
    replace (N.to_nat (height q + 1)) with (S (N.to_nat (height q))) by lia.
    cbn [emission] in *.
    replace (N.of_nat (S (N.to_nat (height q)))) with (height q + 1) by lia. lia.
Qed.
End links.
End ledger.

(** ** Paths and common ancestors *)

Section paths.
Context {B3 : Blake3}.
Context (genesis : BlockNode) (ns : gmap Hash BlockNode).
Hypothesis Hwf : map_Forall (node_wf genesis ns) ns.

Lemma ledger_key h path u : ledger ns h path u → ∃ rest n, path = rest ++ [n] ∧ node_hash n = h ∧ ns !! h = Some n.
Proof.
  intros HL. destruct (ledger_lookup _ _ _ _ HL) as (n & rest & Hn & ->).
  destruct (Hwf _ _ Hn) as (E & _). by exists rest, n.
Qed.

Lemma ledger_last h rest n u : ledger ns h (rest ++ [n]) u → node_hash n = h ∧ ns !! h = Some n.
Proof.
  intros HL. destruct (ledger_key _ _ _ HL) as (rest' & n' & E & Hh & Hn).
  by apply app_inj_2 in E as [_ [= ->]].
Qed.

Lemma ledger_root h path u : ledger ns h path u → ∃ rest, path = genesis :: rest.
Proof.
  induction 1 as [h n u fees Hn Hh|h n p u u' fees _ _ _ [rest ->] _].
  - destruct (Hwf _ _ Hn) as (_ & _ & _ & _ & _ & Hg & _). rewrite (Hg Hh). by exists [].
  - by exists (rest ++ [n]).
Qed.

Lemma ledger_heights h path u i m :
  ledger ns h path u → path !! i = Some m → height m = N.of_nat i.
Proof.
  intros HL. revert i m. induction HL as [h n u fees Hn Hh|h n p u u' fees Hn Hh HL IH _]; intros i m.
  - destruct i; simpl; [intros [= <-]; by rewrite Hh|done].
  - intros [Hi|(Hi & Hm)]%lookup_app_Some; [by apply IH|].
    destruct (i - length p)%nat eqn:Ei; [|done]. injection Hm as <-.
    destruct (node_parent genesis ns Hwf _ _ Hn Hh) as (q & Hq & ->).
    destruct (ledger_key _ _ _ HL) as (rest & q' & -> & Hk & Hq'). assert (q' = q) as -> by congruence.
    rewrite (IH (length rest) q) by (by apply list_lookup_middle).
    rewrite length_app in *. simpl in *. lia.
Qed.

Lemma ledger_prefix h p1 n p2 u :
  ledger ns h (p1 ++ n :: p2) u → ∃ s, ledger ns (node_hash n) (p1 ++ [n]) s.
Proof.
  revert h u; induction p2 as [|m p2 IH] using rev_ind; intros h u HL.
  - destruct (ledger_last _ _ _ _ HL) as [-> _]. by exists u.
  - rewrite app_comm_cons, app_assoc in HL.
    inversion HL as [? ? ? ? ? ? ? EH E|? m' p ? ? ? ? ? HL' ? EH E]; subst.
    + apply (f_equal length) in E. rewrite !length_app in E. simpl in E. lia.
    + apply app_inj_2 in E as [-> _]; [|done]. by eapply IH.
Qed.

(** Two paths that share a node share everything below it. *)
Lemma ledger_common h1 h2 p1 p2 q1 q2 n u1 u2 :
  ledger ns h1 (p1 ++ n :: q1) u1 → ledger ns h2 (p2 ++ n :: q2) u2 → p1 = p2.
Proof.
  intros (s1 & H1)%ledger_prefix (s2 & H2)%ledger_prefix.
  destruct (ledger_det _ _ _ _ _ _ H1 H2) as [E _]. by apply app_inj_2 in E as [-> _].
Qed.

Lemma ledger_elem h path u m : ledger ns h path u → m ∈ path → ns !! node_hash m = Some m.
Proof.
  intros HL Hm. pose proof (ledger_nodes genesis ns Hwf _ _ _ HL) as HF.
  rewrite Forall_forall in HF. by apply HF.
Qed.

(** A node occurs once on a path. *)
Lemma ledger_distinct h p1 n p2 u m :
  ledger ns h (p1 ++ n :: p2) u → m ∈ p2 → node_hash m ≠ node_hash n.
Proof.
  intros HL [i Hm]%list_elem_of_lookup E.
  assert (H1 : (p1 ++ n :: p2) !! length p1 = Some n) by (by apply list_lookup_middle).
  assert (H2 : (p1 ++ n :: p2) !! (length p1 + S i)%nat = Some m).
  { rewrite lookup_app_r by lia. by replace (length p1 + S i - length p1)%nat with (S i) by lia. }
  assert (m = n) as ->.
  { pose proof (ledger_elem _ _ _ m HL (list_elem_of_lookup_2 _ _ _ H2)) as E2.
    pose proof (ledger_elem _ _ _ n HL (list_elem_of_lookup_2 _ _ _ H1)) as E1. congruence. }
  apply (ledger_heights _ _ _ _ _ HL) in H1. apply (ledger_heights _ _ _ _ _ HL) in H2. lia.
Qed.

Lemma ancestors_loop_ok {E} h n path u fuel acc :
  ledger ns h path u → ns !! h = Some n → (N.to_nat (height n) < fuel)%nat →
  ancestors_loop (E := E) fuel ns h acc = Ok (list_to_set (node_hash <$> path) ∪ acc).
Proof.
  intros HL. revert n fuel acc; induction HL as [h n u fees Hn Hh _|h n p u u' fees Hn Hh HL IH _];
    intros n' [|fuel] acc Hn' Hf; try lia; simplify_eq; cbn [ancestors_loop]; rewrite Hn;
    destruct (Hwf _ _ Hn) as (Hk & _).
  - rewrite Hh. cbn [N.eqb]. f_equal. subst h. set_solver.
  - destruct (N.eqb_spec (height n) 0); [done|].
    destruct (node_parent genesis ns Hwf _ _ Hn Hh) as (q & Hq & Hhq).
    rewrite (IH q fuel _ Hq) by lia. f_equal. rewrite fmap_app, list_to_set_app_L. subst h. set_solver.
Qed.

Lemma meet_loop_ok {E} h n path u fuel (anc : gset Hash) :
  ledger ns h path u → ns !! h = Some n → (N.to_nat (height n) < fuel)%nat → node_hash genesis ∈ anc →
  ∃ p1 m p2, path = p1 ++ m :: p2 ∧ node_hash m ∈ anc ∧ Forall (λ x, node_hash x ∉ anc) p2 ∧
    meet_loop (E := E) fuel ns anc h = Ok (Some (node_hash m)).
Proof.
  intros HL. revert n fuel; induction HL as [h n u fees Hn Hh _|h n p u u' fees Hn Hh HL IH _];
    intros n' [|fuel] Hn' Hf Hg; try lia; simplify_eq; cbn [meet_loop]; rewrite Hn;
    destruct (Hwf _ _ Hn) as (Hk & _ & _ & _ & _ & Hgen & _).
  - assert (n = genesis) as -> by auto. exists [], genesis, []. subst h.
    rewrite bool_decide_eq_true_2 by done. split; [done|]. split; [done|]. split; [constructor|done].
  - case_bool_decide as Hin.
    + exists p, n, []. subst h. split; [done|]. split; [done|]. split; [constructor|done].
    + destruct (N.eqb_spec (height n) 0); [done|].
      destruct (node_parent genesis ns Hwf _ _ Hn Hh) as (q & Hq & Hhq).
      destruct (IH q fuel Hq) as (p1 & m & p2 & -> & ? & ? & ->); [lia|done|].
      exists p1, m, (p2 ++ [n]). rewrite <- app_assoc. split; [done|]. split; [done|].
      split; [|done]. apply Forall_app. split; [done|]. constructor; [by subst h|constructor].
Qed.

Lemma until_loop_ok {E} h p1 m p2 u n fuel :
  ledger ns h (p1 ++ m :: p2) u → ns !! h = Some n → (N.to_nat (height n) < fuel)%nat →
  until_loop (E := E) fuel ns h (node_hash m) = Ok (reverse p2).
Proof.
  revert h u n fuel; induction p2 as [|x p2 IH] using rev_ind; intros h u n [|fuel] HL Hn Hf; try lia;
    cbn [until_loop].
  - destruct (ledger_last _ _ _ _ HL) as [-> _]. by rewrite bool_decide_eq_true_2.
  - pose proof (ledger_distinct _ _ _ _ _ x HL) as Hd.
    rewrite app_comm_cons, app_assoc in HL. destruct (ledger_last _ _ _ _ HL) as [Hx Hx'].
    rewrite bool_decide_eq_false_2 by (rewrite <- Hx; apply Hd; set_solver).
    assert (x = n) as -> by congruence. rewrite Hn.
    inversion HL as [? ? ? ? ? ? ? EH E1|? m' p ? ? ? Hm' Hh' HL' ? EH E1]; subst.
    + apply (f_equal length) in E1. rewrite !length_app in E1. simpl in E1. lia.
    + apply app_inj_2 in E1 as [-> [= ->]]; [|done].
      destruct (node_parent genesis ns Hwf _ _ Hm' Hh') as (q & Hq & Hhq).
      rewrite (IH _ _ q fuel HL' Hq) by lia. cbn [obind]. by rewrite reverse_snoc.
Qed.

Lemma link_fuel_enough h n : ns !! h = Some n → (N.to_nat (height n) < link_fuel ns h)%nat.
Proof. intros Hn. unfold link_fuel. rewrite Hn. simpl. lia. Qed.

Lemma find_common_ancestor_ok t a b pa pb ua ub :
  nodes t = ns → ledger ns a pa ua → ledger ns b pb ub →
  ∃ common m da db, pa = common ++ m :: da ∧ pb = common ++ m :: db ∧
    Forall (λ x, x ∉ pa) db ∧ find_common_ancestor t a b = Ok (node_hash m).
Proof.
  intros Ht Ha Hb. unfold find_common_ancestor. rewrite Ht. case_bool_decide as Hab.
  - subst b. destruct (ledger_det _ _ _ _ _ _ Ha Hb) as [-> _].
    destruct (ledger_key _ _ _ Ha) as (rest & n & -> & <- & _). by exists rest, n, [], [].
  - destruct (ledger_key _ _ _ Ha) as (_ & na & _ & _ & Hna).
    destruct (ledger_key _ _ _ Hb) as (_ & nb & _ & _ & Hnb).
    rewrite (ancestors_loop_ok a na pa ua) by (done || by apply link_fuel_enough). cbn [obind].
    destruct (meet_loop_ok (E := ChainError) b nb pb ub (link_fuel ns b)
                (list_to_set (node_hash <$> pa) ∪ ∅) Hb Hnb (link_fuel_enough _ _ Hnb))
      as (p1 & m & p2 & -> & Hm & Hp2 & ->).
    { destruct (ledger_root _ _ _ Ha) as [rest ->]. set_solver. }
    cbn [obind ok_or]. rewrite (right_id_L ∅ _) in Hm. apply elem_of_list_to_set in Hm.
    apply list_elem_of_fmap in Hm as (m' & E & Hm').
    assert (m' = m) as ->.
    { pose proof (ledger_elem _ _ _ m' Ha Hm'). pose proof (ledger_elem _ _ _ m Hb) as Hmb.
      rewrite <- E in *. specialize (Hmb ltac:(set_solver)). congruence. }
    apply list_elem_of_split in Hm' as (c & d & ->).
    assert (c = p1) as -> by (by eapply ledger_common).
    exists p1, m, d, p2. split; [done|]. split; [done|]. split; [|done].
    eapply Forall_impl; [exact Hp2|]. intros x Hx Hin. apply Hx.
    rewrite elem_of_union, elem_of_list_to_set. left. apply list_elem_of_fmap. by exists x.
Qed.
End paths.

(** ** The abstract step *)

(** A verifier that comes back. *)
Class VerifierReturns {V : BlockTransactionVerifier} :=
  verifier_returns b s : block_encodable b → returns (verify_block_transactions b s).

Section step.
Context {B3 : Blake3} {V : BlockTransactionVerifier}.

(** [n] is a valid new node on top of [path], whose state is [s]; [s'] is the
    state it leaves. *)
Record extends (ns : gmap Hash BlockNode) (n : BlockNode) (path : list BlockNode) (s s' : UtxoSet) : Prop := {
  ext_new : ns !! node_hash n = None;
  ext_hash : node_hash n = blake3 (header_bytes (header (node_block n)));
  ext_parent : parent_hash n = previous_block_hash (header (node_block n));
  ext_encodable : block_encodable (node_block n);
  ext_ledger : ledger ns (parent_hash n) path s;
  ext_valid : ∃ fees, authoritative (node_block n) (height n) s (mtp_of path) fees s';
  ext_link : ∃ p, ns !! parent_hash n = Some p ∧ height n = height p + 1 ∧
    timestamp (header (node_block p)) < timestamp (header (node_block n)) ∧
    work_checked_add (cumulative_work p)
      (block_work (from_compact (difficulty_target (header (node_block n))))) = Some (cumulative_work n);
  ext_work : work_wf (cumulative_work n)
}.

(** Only [invalid_blocks] has grown. *)
Definition only_marks (st st' : ChainState) : Prop :=
  ∃ marks, st' = (mkChainTree (nodes st.1) (canonical_tip st.1) (max_reorg_depth st.1)
                    (list_to_set marks ∪ invalid_blocks st.1), st.2).

Lemma only_marks_refl st : only_marks st st.
Proof. exists []. destruct st as [[] ?]. simpl. by rewrite (left_id_L ∅ _). Qed.

Lemma reject_run {A} marks e st : ∃ st', reject (A := A) marks e st = (st', Err e) ∧ only_marks st st'.
Proof.
  unfold reject, sbind, smodify, slift, on_tree. eexists. split; [done|].
  exists (reverse marks). destruct st as [t u]. cbn [fst snd]. f_equal.
  revert t; induction marks as [|h marks IH]; intros t; simpl.
  - rewrite (left_id_L ∅ _). by destruct t.
  - rewrite IH. simpl. f_equal. rewrite reverse_cons, list_to_set_app_L. set_solver.
Qed.

(** What connecting a node adds to authoritative validation: the verifier
    accepts it, and it commits to the state it leaves. *)
Definition connectable (n : BlockNode) (s s' : UtxoSet) : Prop :=
  verify_block_transactions (node_block n) s = Ok tt ∧
  compute_utxo_root (E := ChainError) s' = Ok (utxo_root (header (node_block n))).

Lemma validate_of_authoritative b h s path fees s' :
  authoritative b h s (mtp_of path) fees s' →
  validate_block_authoritative_with_headers b h s ((λ n, header (node_block n)) <$> path) = Ok fees.
Proof.
  intros HA. apply validate_authoritative_Ok. exists s'. unfold mtp_of in HA. by rewrite length_fmap.
Qed.

(** Every block on the way to [h] has been connected. *)
Inductive verified (ns : gmap Hash BlockNode) : Hash → Prop :=
| verified_genesis h n : ns !! h = Some n → height n = 0 → verified ns h
| verified_link h n path s s' :
    ns !! h = Some n → height n ≠ 0 → verified ns (parent_hash n) →
    ledger ns (parent_hash n) path s → ledger ns h (path ++ [n]) s' →
    connectable n s s' → verified ns h.

Lemma verified_mono ns ns' h : ns ⊆ ns' → verified ns h → verified ns' h.
Proof.
  intros Hs H. induction H as [h n Hn Hh|h n path s s' Hn Hh Hv IH H1 H2 HC].
  - eapply verified_genesis; [by eapply lookup_weaken|done].
  - eapply verified_link; [by eapply lookup_weaken|done|done| | |done]; by eapply ledger_mono.
Qed.

Context {VR : VerifierReturns}.

Lemma connect_node_run genesis bh n path s s' st fees :
  map_Forall (node_wf genesis (nodes st.1)) (nodes st.1) →
  block_encodable (node_block n) →
  ledger (nodes st.1) (parent_hash n) path s →
  authoritative (node_block n) (height n) s (mtp_of path) fees s' →
  (connect_node bh n s st = (st, Ok s') ∧ connectable n s s') ∨
  (∃ st' f, connect_node bh n s st = (st', Err (ReorgFailed (node_hash n) f)) ∧ only_marks st st').
Proof.
  intros Hwf He HL HA. unfold connect_node. rewrite sbind_sget.
  rewrite (path_headers_ok genesis _ Hwf st.1 _ path s eq_refl HL), sbind_lift_Ok.
  rewrite (validate_of_authoritative _ _ _ _ _ _ HA).
  destruct (verifier_returns (node_block n) s He) as [HP HD]. unfold connectable.
  destruct (verify_block_transactions (node_block n) s) as [[]|e| |] eqn:HV; try done.
  2:{ right. destruct (reject_run (A := UtxoSet) [node_hash n; bh]
        (ReorgFailed (node_hash n) (FailVerification e)) st) as (st' & HR & HM). by exists st', (FailVerification e). }
  apply authoritative_apply in HA. rewrite apply_node_block by (exact (apply_block_nonempty _ _ _ _ _ HA)).
  rewrite HA. destruct (compute_utxo_root_total (E := ChainError) s') as [r Hr].
  rewrite Hr, sbind_lift_Ok. case_bool_decide as Hroot; cbn [negb].
  - left. rewrite Hroot. done.
  - right. destruct (reject_run (A := UtxoSet) [node_hash n; bh]
      (ReorgFailed (node_hash n) (FailUtxoRoot (utxo_root (header (node_block n))) r)) st) as (st' & HR & HM).
    by exists st', (FailUtxoRoot (utxo_root (header (node_block n))) r).
Qed.

Lemma connect_nodes_run genesis bh st h p todo s u :
  map_Forall (node_wf genesis (nodes st.1)) (nodes st.1) → p ≠ [] →
  ledger (nodes st.1) (from_option node_hash ZERO (last p)) p s →
  verified (nodes st.1) (from_option node_hash ZERO (last p)) →
  ledger (nodes st.1) h (p ++ todo) u →
  (connect_nodes bh todo s st = (st, Ok u) ∧ verified (nodes st.1) h) ∨
  (∃ st' x f, connect_nodes bh todo s st = (st', Err (ReorgFailed x f)) ∧ only_marks st st').
Proof.
  intros Hwf. revert p s; induction todo as [|m todo IH]; intros p s Hp HP HV HL.
  - rewrite app_nil_r in HL. left. cbn [connect_nodes].
    destruct (ledger_key genesis _ Hwf _ _ _ HL) as (rest & n & E & Hh & _). subst p.
    rewrite last_snoc in HP, HV. cbn [from_option] in HP, HV. rewrite Hh in HP, HV.
    by destruct (ledger_det _ _ _ _ _ _ HP HL) as [_ ->].
  - destruct (ledger_prefix genesis _ Hwf _ _ _ _ _ HL) as [s1 HL1].
    inversion HL1 as [? ? ? ? ? ? ? EH E|? m' p' ? ? fees Hm Hh HL' HA EH E]; subst.
    + apply (f_equal length) in E. rewrite length_app in E. simpl in E. destruct p; [done|simpl in E; lia].
    + apply app_inj_2 in E as [-> [= ->]]; [|done].
      destruct (ledger_key genesis _ Hwf _ _ _ HL') as (rest & n & E & Hk & _). subst p.
      rewrite last_snoc in HP, HV. cbn [from_option] in HP, HV. rewrite Hk in HP, HV.
      destruct (ledger_det _ _ _ _ _ _ HP HL') as [_ ->].
      destruct (Hwf _ _ Hm) as (Hmk & _ & _ & He & _).
      cbn [connect_nodes]. unfold sbind.
      destruct (connect_node_run genesis bh m _ _ _ st fees Hwf He HL' HA)
        as [[-> HC]|(st' & f & -> & HM)]; [|right; by exists st', (node_hash m), f].
      apply (IH ((rest ++ [n]) ++ [m])).
      * by destruct (rest ++ [n]).
      * by rewrite last_snoc.
      * rewrite last_snoc. cbn [from_option]. by eapply verified_link.
      * by rewrite <- app_assoc.
Qed.
End step.

(** ** [process_block_with_verifier] implements the abstract step *)

Section process.
Context {B3 : Blake3} {V : BlockTransactionVerifier}.

(** The invariant of the chain state: the tree is linked down to genesis,
    every stored block is valid on its path, the set of unspent outputs is the
    one the canonical path leaves, and every block of the canonical path has
    been accepted by the verifier and commits to the state it leaves. [k]
    bounds the heights. *)
Record chain_inv (genesis : BlockNode) (k : N) (st : ChainState) : Prop := {
  inv_nodes : map_Forall (node_wf genesis (nodes st.1)) (nodes st.1);
  inv_valid : ∀ h n, nodes st.1 !! h = Some n → ∃ path s, ledger (nodes st.1) h path s;
  inv_tip : ∃ path, ledger (nodes st.1) (canonical_tip st.1) path st.2;
  inv_verified : verified (nodes st.1) (canonical_tip st.1);
  inv_height : ∀ h n, nodes st.1 !! h = Some n → height n ≤ k
}.

(** Errors after which only [invalid_blocks] has changed. *)
Definition ordinary (e : ChainError) : Prop :=
  match e with
  | ReorgDepthExceeded _ _ | TimestampBeforeMedianTimePast => False
  | _ => True
  end.

(** What processing block [b] in state [st] may do. *)
Inductive step_result (st : ChainState) (b : Block) :
    ChainState → outcome ChainError (option ReorgResult) → Prop :=
| step_reject st' e :
    only_marks st st' → ordinary e → step_result st b st' (Err e)
| step_known :
    is_Some (nodes st.1 !! blake3 (header_bytes (header b))) → step_result st b st (Ok None)
| step_store n path s s' :
    extends (nodes st.1) n path s s' → node_block n = b →
    work_leb (cumulative_work n) (canonical_work st.1) = true →
    step_result st b (insert_node n st.1, st.2) (Ok None)
| step_deep n path s s' d :
    extends (nodes st.1) n path s s' → node_block n = b →
    work_leb (cumulative_work n) (canonical_work st.1) = false → max_reorg_depth st.1 < d →
    (∃ common m da db, path = common ++ m :: db ∧ Forall (λ x, x ∉ common ++ m :: da) db ∧
       ledger (nodes st.1) (canonical_tip st.1) (common ++ m :: da) st.2 ∧ d = N.of_nat (length da)) →
    step_result st b (insert_node n st.1, st.2) (Err (ReorgDepthExceeded d (max_reorg_depth st.1)))
| step_reorg n common m da db s s' txs :
    extends (nodes st.1) n (common ++ m :: db) s s' → node_block n = b →
    work_leb (cumulative_work n) (canonical_work st.1) = false →
    ledger (nodes st.1) (canonical_tip st.1) (common ++ m :: da) st.2 →
    Forall (λ x, x ∉ common ++ m :: da) db →
    N.of_nat (length da) ≤ max_reorg_depth st.1 →
    verified (nodes st.1) (parent_hash n) → connectable n s s' →
    returned_transactions (E := ChainError) (node_block <$> reverse da) (node_block <$> db ++ [n]) = Ok txs →
    step_result st b
      (mkChainTree (<[node_hash n := n]> (nodes st.1)) (node_hash n)
         (max_reorg_depth st.1) (invalid_blocks st.1), s')
      (Ok (Some (mkReorgResult (canonical_tip st.1) (node_hash n)
                   (node_block <$> reverse da) (node_block <$> db ++ [n]) txs))).

Definition stepped (st : ChainState) (b : Block)
    (run : ChainState * outcome ChainError (option ReorgResult)) : Prop := step_result st b run.1 run.2.

(** A computation that returns, with ordinary errors. *)
Definition benign {A} (m : outcome ChainError A) : Prop := returns m ∧ ∀ e, m = Err e → ordinary e.

Lemma stepped_lift {A} (m : outcome ChainError A) (k : A → chainM (option ReorgResult)) st b :
  benign m → (∀ a, m = Ok a → stepped st b (k a st)) → stepped st b (sbind (slift m) k st).
Proof.
  intros [[HP HD] HE] Hk. unfold sbind, slift. destruct m as [a|e| |]; [by apply Hk| |done..].
  apply step_reject; [apply only_marks_refl|by apply HE].
Qed.

Lemma stepped_reject st b marks e : ordinary e → stepped st b (reject marks e st).
Proof.
  intros He. destruct (reject_run (A := option ReorgResult) marks e st) as (st' & -> & HM).
  by apply step_reject.
Qed.

Lemma benign_Ok {A} (a : A) : benign (Ok a).
Proof. split; [done|by intros]. Qed.
Lemma benign_Err {A} (e : ChainError) : ordinary e → benign (A := A) (Err e).
Proof. intros He. split; [done|]. by intros ? [= <-]. Qed.
Lemma benign_map_err {E A} (f : E → ChainError) (m : outcome E A) :
  returns m → (∀ e, ordinary (f e)) → benign (map_err f m).
Proof. intros HR Hf. split; [by apply returns_map_err|]. intros e. destruct m; simpl; naive_solver. Qed.
Lemma benign_ok_or {A} (o : option A) e : ordinary e → benign (ok_or o e).
Proof. destruct o; intros; [apply benign_Ok|by apply benign_Err]. Qed.
Lemma benign_obind {A B} (m : outcome ChainError A) (k : A → outcome ChainError B) :
  benign m → (∀ a, m = Ok a → benign (k a)) → benign (obind m k).
Proof.
  intros [HR HE] Hk. destruct m as [a|e| |]; [by apply Hk| |by destruct HR..].
  apply benign_Err. by apply HE.
Qed.

Lemma connect_nodes_app bh l1 l2 s st :
  connect_nodes bh (l1 ++ l2) s st = sbind (connect_nodes bh l1 s) (connect_nodes bh l2) st.
Proof.
  revert s st; induction l1 as [|n l1 IH]; intros s st; [done|]. cbn [app connect_nodes].
  unfold sbind in *. destruct (connect_node bh n s st) as [st1 []]; [apply IH|done..].
Qed.

Lemma block_txids_total {E} bs :
  Forall block_encodable bs → ∃ ids, block_txids (E := E) bs = Ok ids.
Proof.
  intros HF. unfold block_txids.
  assert (HT : Forall transaction_encodable (bs ≫= transactions)).
  { induction HF as [|b bs Hb HF IH]; [constructor|]. rewrite bind_cons. apply Forall_app. done. }
  generalize (∅ : gset Hash). induction HT as [|tx txs Htx HT IH]; intros ids; [by exists ids|].
  cbn [ofold]. destruct (transaction_encodable_txid (E := E) tx Htx) as [id ->]. apply IH.
Qed.

Lemma returned_transactions_total {E} bs1 bs2 :
  Forall block_encodable bs1 → Forall block_encodable bs2 →
  ∃ txs, returned_transactions (E := E) bs1 bs2 = Ok txs.
Proof.
  intros H1 H2. unfold returned_transactions. destruct (block_txids_total (E := E) bs2 H2) as [ids ->].
  cbn [obind].
  assert (HT : Forall transaction_encodable (bs1 ≫= λ b, drop 1 (transactions b))).
  { induction H1 as [|b bs Hb HF IH]; [constructor|]. rewrite bind_cons. apply Forall_app.
    split; [|done]. by apply Forall_drop. }
  set (f := λ out tx, _). assert (Hf : ∀ out, ∃ txs, ofold f (bs1 ≫= λ b, drop 1 (transactions b)) out = Ok txs);
    [|apply Hf].
  induction HT as [|tx txs Htx HT IH]; intros out; [by exists out|].
  cbn [ofold]. unfold f at 1. destruct (transaction_encodable_txid (E := E) tx Htx) as [id ->]. apply IH.
Qed.

Lemma path_encodable genesis ns h path u :
  map_Forall (node_wf genesis ns) ns → ledger ns h path u → Forall block_encodable (node_block <$> path).
Proof.
  intros Hwf HL. apply Forall_fmap. eapply Forall_impl; [by eapply (ledger_nodes genesis ns Hwf)|].
  intros n Hn. simpl in *. by destruct (Hwf _ _ Hn) as (_ & _ & _ & ? & _).
Qed.

Lemma verified_prefix genesis ns h p1 n p2 u :
  map_Forall (node_wf genesis ns) ns →
  verified ns h → ledger ns h (p1 ++ n :: p2) u → verified ns (node_hash n).
Proof.
  intros Hwf Hv. revert p2 u; induction Hv as [h m Hm Hh|h m path s s' Hm Hh Hv IH H1 H2 HC]; intros p2 u HL.
  - inversion HL as [? m' ? ? Hm' ? ? EH E|? m' p ? ? ? Hm' Hh' HL' ? EH E]; subst.
    + destruct p1 as [|? [|]]; simplify_eq/=. destruct (Hwf _ _ Hm) as (-> & _). by eapply verified_genesis.
    + congruence.
  - destruct (ledger_det _ _ _ _ _ _ HL H2) as [E _]. destruct p2 as [|x p2 _] using rev_ind.
    + apply app_inj_2 in E as [_ [= ->]]; [|done]. destruct (Hwf _ _ Hm) as (-> & _).
      by eapply verified_link.
    + rewrite app_comm_cons, app_assoc in E. apply app_inj_2 in E as [<- _]; [|done]. by eapply IH.
Qed.
End process.

Section process_run.
Context {B3 : Blake3} {V : BlockTransactionVerifier} {VR : VerifierReturns}.
Context (genesis : BlockNode) (k : N).

(** The state a reorganization starts from. *)
Lemma staged_start st common m da :
  chain_inv genesis k st → ledger (nodes st.1) (canonical_tip st.1) (common ++ m :: da) st.2 →
  ∃ s, ledger (nodes st.1) (node_hash m) (common ++ [m]) s ∧
    (if bool_decide (node_hash m = canonical_tip st.1) then Ok st.2
     else let? path := get_path_from_genesis st.1 (node_hash m) in replay path) = Ok s.
Proof.
  intros Hinv HL. pose proof (inv_nodes _ _ _ Hinv) as Hwf.
  destruct (ledger_prefix genesis _ Hwf _ _ _ _ _ HL) as [s Hs]. exists s. split; [done|].
  case_bool_decide as E.
  - rewrite E in Hs. by destruct (ledger_det _ _ _ _ _ _ HL Hs) as [_ ->].
  - rewrite (get_path_ok genesis _ Hwf st.1 _ _ s eq_refl Hs). cbn [obind]. by eapply replay_ok.
Qed.

Lemma only_marks_nodes st st' : only_marks st st' → nodes st'.1 = nodes st.1.
Proof. by intros [marks ->]. Qed.

Lemma reorganize_step st n path s s' :
  chain_inv genesis k st → extends (nodes st.1) n path s s' →
  work_leb (cumulative_work n) (canonical_work st.1) = false →
  stepped st (node_block n) (reorganize n st).
Proof.
  intros Hinv Hext Hwork. pose proof (inv_nodes _ _ _ Hinv) as Hwf.
  destruct (inv_tip _ _ _ Hinv) as [pa HLa]. pose proof (ext_ledger _ _ _ _ _ Hext) as HLb.
  destruct (find_common_ancestor_ok genesis _ Hwf st.1 _ _ _ _ _ _ eq_refl HLa HLb)
    as (common & m & da & db & -> & -> & Hdb & HF).
  destruct (ledger_lookup _ _ _ _ HLa) as (na & _ & Hna & _).
  destruct (ledger_lookup _ _ _ _ HLb) as (nb & _ & Hnb & _).
  unfold reorganize. rewrite sbind_sget. destruct st as [t u] eqn:Est. cbn [fst snd] in *.
  rewrite HF, sbind_lift_Ok.
  rewrite (until_loop_ok genesis _ Hwf _ _ _ _ _ na _ HLa Hna (link_fuel_enough _ _ _ Hna)), sbind_lift_Ok.
  rewrite length_reverse. destruct (N.ltb_spec (max_reorg_depth t) (N.of_nat (length da))) as [Hd|Hd].
  { rewrite sbind_smodify. eapply (step_deep (t, u)); [exact Hext|done..|]. by exists common, m, da, db. }
  rewrite (until_loop_ok genesis _ Hwf _ _ _ _ _ nb _ HLb Hnb (link_fuel_enough _ _ _ Hnb)), sbind_lift_Ok.
  rewrite reverse_involutive.
  destruct (staged_start (t, u) common m da Hinv HLa) as (sm & HLm & Hstart). cbn [fst snd] in *.
  rewrite Hstart, sbind_lift_Ok.
  assert (Hvm : verified (nodes t) (node_hash m)).
  { eapply verified_prefix; [exact Hwf|exact (inv_verified _ _ _ Hinv)|exact HLa]. }
  unfold sbind at 1. rewrite connect_nodes_app. unfold sbind at 1.
  destruct (connect_nodes_run genesis (node_hash n) (t, u) (parent_hash n) (common ++ [m]) db sm s)
    as [[-> HVp]|(st' & x & f & -> & HM)].
  { done. } { by destruct common. } { by rewrite last_snoc. } { by rewrite last_snoc. }
  { by rewrite <- app_assoc. }
  2:{ by apply step_reject. }
  destruct (ext_valid _ _ _ _ _ Hext) as [fees HA]. cbn [connect_nodes]. unfold sbind at 1.
  destruct (connect_node_run genesis (node_hash n) n _ s s' (t, u) fees Hwf (ext_encodable _ _ _ _ _ Hext) HLb HA)
    as [[-> HC]|(st' & f & -> & HM)].
  2:{ by apply step_reject. }
  unfold sret at 1. rewrite sbind_smodify. cbn [fst snd].
  destruct (returned_transactions_total (E := ChainError) (node_block <$> reverse da) (node_block <$> db ++ [n]))
    as [txs Htxs].
  { pose proof (path_encodable genesis _ _ _ _ Hwf HLa) as HE. rewrite fmap_app, fmap_cons in HE.
    apply Forall_app in HE as [_ HE%Forall_cons]. rewrite fmap_reverse. apply Forall_reverse. by destruct HE. }
  { pose proof (path_encodable genesis _ _ _ _ Hwf HLb) as HE. rewrite fmap_app, fmap_cons in HE.
    apply Forall_app in HE as [_ HE%Forall_cons]. rewrite fmap_app. apply Forall_app. destruct HE as [_ HE].
    split; [done|]. repeat constructor. by apply (ext_encodable _ _ _ _ _ Hext). }
  rewrite Htxs, sbind_lift_Ok. unfold sret.
  by eapply (step_reorg (t, u)).
Qed.

Lemma attach_step st b p path s s' :
  chain_inv genesis k st →
  nodes st.1 !! previous_block_hash (header b) = Some p →
  nodes st.1 !! blake3 (header_bytes (header b)) = None → block_encodable b →
  timestamp (header (node_block p)) < timestamp (header b) →
  ledger (nodes st.1) (previous_block_hash (header b)) path s →
  (∃ fees, authoritative b (height p + 1) s (mtp_of path) fees s') →
  stepped st b (attach_block b (blake3 (header_bytes (header b))) p (height p + 1) st).
Proof.
  intros Hinv Hp Hnew He Hts HL HA. pose proof (inv_nodes _ _ _ Hinv) as Hwf.
  unfold attach_block. rewrite sbind_sget.
  set (w := block_work (from_compact (difficulty_target (header b)))).
  apply stepped_lift; [by apply benign_ok_or|intros cum Hcum%ok_or_Ok].
  destruct (inv_tip _ _ _ Hinv) as [pa HLa]. destruct (ledger_lookup _ _ _ _ HLa) as (na & _ & Hna & _).
  rewrite Hna. cbn [expect]. rewrite sbind_lift_Ok.
  set (n := mkBlockNode _ _ _ _ cum b).
  destruct (Hwf _ _ Hp) as (_ & _ & _ & _ & Wp & _).
  assert (Wc : work_wf cum).
  { pose proof (work_checked_add_spec (cumulative_work p) w Wp (proj1 (block_work_val _))) as HW.
    rewrite Hcum in HW. apply HW. }
  assert (Hext : extends (nodes st.1) n path s s').
  { split; try done. exists p. done. }
  assert (HCW : canonical_work st.1 = cumulative_work na) by (unfold canonical_work; by rewrite Hna).
  destruct (work_leb cum (cumulative_work na)) eqn:Hle.
  - rewrite sbind_smodify. unfold sret, on_tree. eapply step_store; [exact Hext|done|]. by rewrite HCW.
  - change b with (node_block n) at 1. eapply reorganize_step; [done|exact Hext|]. by rewrite HCW.
Qed.

Lemma expected_target_benign t u parent p h :
  chain_inv genesis k (t, u) → nodes t !! parent = Some p → benign (expected_target t parent p h).
Proof.
  intros Hinv Hp. pose proof (inv_nodes _ _ _ Hinv) as Hwf. unfold expected_target.
  destruct (_ && _); [|apply benign_Ok].
  destruct (inv_valid _ _ _ Hinv parent p Hp) as (path & s & HL).
  rewrite (get_path_ok genesis _ Hwf t _ path s eq_refl HL). cbn [obind].
  apply benign_obind; [by apply benign_ok_or|intros ts _].
  apply benign_map_err; [apply calculate_next_target_returns|done].
Qed.

Lemma check_header_benign b p target now : benign (check_header b p target now).
Proof.
  unfold check_header. apply benign_obind; [|intros [] _].
  { apply benign_map_err; [|done]. unfold validate_block_target. by destruct (negb _). }
  apply benign_obind; [|intros [] _].
  { apply benign_map_err; [|done]. unfold verify_pow, compute_pow_hash, header_hash.
    rewrite header_to_canonical_bytes. cbn [obind]. by destruct (negb _). }
  destruct (_ <=? _); [by apply benign_Err|].
  apply benign_obind; [by apply benign_ok_or|intros tn _].
  destruct (_ <? _); [by apply benign_Err|apply benign_Ok].
Qed.

Lemma check_header_timestamp b p target now :
  check_header b p target now = Ok tt →
  timestamp (header (node_block p)) < timestamp (header b).
Proof.
  unfold check_header. intros ([] & _ & ([] & _ & H)%obind_Ok)%obind_Ok.
  destruct (N.leb_spec (timestamp (header b)) (timestamp (header (node_block p)))); done.
Qed.

(** The candidate's timestamp is above the median of the past: the check
    against it never fires. *)
Lemma mtp_below t path p b s :
  map_Forall (node_wf genesis (nodes t)) (nodes t) →
  nodes t !! previous_block_hash (header b) = Some p →
  ledger (nodes t) (previous_block_hash (header b)) path s →
  timestamp (header (node_block p)) < timestamp (header b) →
  timestamp (header b) <? calculate_median_time_past ((λ n, header (node_block n)) <$> path)
    (N.of_nat (length ((λ n, header (node_block n)) <$> path))) = false.
Proof.
  intros Hwf Hp HL Hts. apply N.ltb_ge.
  eapply N.le_trans; [|apply N.lt_le_incl, Hts]. apply mtp_le. apply Forall_fmap.
  by eapply (ledger_timestamps genesis (nodes t) Hwf).
Qed.

Lemma parent_state_ok t u parent p path s :
  chain_inv genesis k (t, u) → nodes t !! parent = Some p → ledger (nodes t) parent path s →
  parent_state t u parent = Ok s.
Proof.
  intros Hinv Hp HL. unfold parent_state. case_bool_decide as E.
  - destruct (inv_tip _ _ _ Hinv) as [pa HLa]. cbn [fst snd] in HLa. subst parent.
    by destruct (ledger_det _ _ _ _ _ _ HL HLa) as [_ ->].
  - rewrite (get_path_ok genesis _ (inv_nodes _ _ _ Hinv) t _ path s eq_refl HL). cbn [obind].
    by eapply replay_ok.
Qed.

Lemma process_step st now b :
  chain_inv genesis k st → k < U64_MAX → block_encodable b →
  stepped st b (process_block_with_verifier now b st).
Proof.
  intros Hinv Hk He. unfold process_block_with_verifier.
  rewrite header_hash_ok, sbind_lift_Ok, sbind_sget. destruct st as [t u].
  destruct (is_block_invalid t _).
  { unfold slift. by apply step_reject; [apply only_marks_refl|]. }
  destruct (is_block_invalid t _); [by apply stepped_reject|].
  apply stepped_lift; [apply benign_map_err; [apply validate_structure_returns|done]|intros [] _].
  case_bool_decide as Hin; [unfold sret; by apply step_known|]. apply eq_None_not_Some in Hin.
  apply stepped_lift; [by apply benign_ok_or|intros p Hp%ok_or_Ok].
  destruct (inv_valid _ _ _ Hinv _ _ Hp) as (path & s & HL). cbn [fst] in HL.
  assert (Hh : wrap64 (height p + 1) = height p + 1).
  { apply wrap64_small. pose proof (inv_height _ _ _ Hinv _ _ Hp). lia. }
  rewrite Hh. apply stepped_lift; [by eapply expected_target_benign|intros target _].
  apply stepped_lift; [apply check_header_benign|intros [] Hts%check_header_timestamp].
  rewrite (parent_state_ok t u _ p path s Hinv Hp HL), sbind_lift_Ok.
  rewrite (path_headers_ok genesis _ (inv_nodes _ _ _ Hinv) t _ path s eq_refl HL), sbind_lift_Ok.
  rewrite (mtp_below t path p b s (inv_nodes _ _ _ Hinv) Hp HL Hts), andb_false_r.
  pose proof (validate_authoritative_returns b (height p + 1) s ((λ n, header (node_block n)) <$> path) He) as [HP HD].
  destruct (validate_block_authoritative_with_headers b (height p + 1) s _) as [fees|e| |] eqn:HA; [| |done..].
  - apply validate_authoritative_Ok in HA as [s' HA]. rewrite length_fmap in HA.
    eapply attach_step; try done. by exists fees.
  - apply stepped_reject. by destruct e.
Qed.
End process_run.

(** ** The invariant is preserved *)

#[export] Instance authoritative_verifier_returns {B3 : Blake3} :
  @VerifierReturns AuthoritativeTransactionVerifier.
Proof.
  intros b s He. unfold verify_block_transactions, AuthoritativeTransactionVerifier, validate_block_authoritative.
  apply returns_obind; [by apply validate_authoritative_returns|done].
Qed.

Section preservation.
Context {B3 : Blake3} {V : BlockTransactionVerifier}.
Context (genesis : BlockNode).

Lemma node_wf_mono ns ns' h n : ns ⊆ ns' → node_wf genesis ns h n → node_wf genesis ns' h n.
Proof.
  intros Hs (H1 & H2 & H3 & H4 & H5 & H6 & H7). repeat (split; [done|]).
  intros Hh. destruct (H7 Hh) as (p & Hp & H). exists p. split; [by eapply lookup_weaken|done].
Qed.

Lemma extends_subseteq ns n path s s' :
  extends ns n path s s' → ns ⊆ <[node_hash n := n]> ns.
Proof. intros H. apply insert_subseteq. by eapply ext_new. Qed.

Lemma extends_ledger ns n path s s' :
  extends ns n path s s' → ledger (<[node_hash n := n]> ns) (node_hash n) (path ++ [n]) s'.
Proof.
  intros H. destruct (ext_link _ _ _ _ _ H) as (p & _ & Hh & _). destruct (ext_valid _ _ _ _ _ H) as [fees HA].
  apply ledger_link with s fees; [by rewrite lookup_insert_eq|lia| |done].
  eapply ledger_mono; [by eapply extends_subseteq|by eapply ext_ledger].
Qed.

Lemma chain_inv_insert k t u n path s s' :
  chain_inv genesis k (t, u) → extends (nodes t) n path s s' →
  chain_inv genesis (k + 1) (insert_node n t, u).
Proof.
  intros Hinv Hext. pose proof (extends_subseteq _ _ _ _ _ Hext) as Hs.
  destruct (ext_link _ _ _ _ _ Hext) as (p & Hp & Hh & Hlink). split; cbn [fst snd insert_node nodes canonical_tip].
  - apply map_Forall_insert_2.
    + repeat (split; [try done; by apply Hext|]). split; [intros; lia|]. intros _.
      exists p. split; [by eapply lookup_weaken|done].
    + intros h m Hm. eapply node_wf_mono; [exact Hs|]. by eapply (inv_nodes _ _ _ Hinv).
  - intros h m [[<- <-]|[Hne Hm]]%lookup_insert_Some.
    + exists (path ++ [n]), s'. by eapply extends_ledger.
    + destruct (inv_valid _ _ _ Hinv h m Hm) as (q & x & HL). exists q, x. by eapply ledger_mono.
  - destruct (inv_tip _ _ _ Hinv) as [q HL]. exists q. by eapply ledger_mono.
  - eapply verified_mono; [exact Hs|]. apply (inv_verified _ _ _ Hinv).
  - intros h m [[<- <-]|[Hne Hm]]%lookup_insert_Some.
    + pose proof (inv_height _ _ _ Hinv _ _ Hp). simpl in *. lia.
    + pose proof (inv_height _ _ _ Hinv _ _ Hm). lia.
Qed.

Lemma chain_inv_weaken k k' st : k ≤ k' → chain_inv genesis k st → chain_inv genesis k' st.
Proof. intros Hk []. split; try done. intros h n Hn. specialize (inv_height0 h n Hn). lia. Qed.

Lemma chain_inv_marks k st st' : only_marks st st' → chain_inv genesis k st → chain_inv genesis k st'.
Proof. intros [marks ->] []. by split. Qed.

Lemma step_preserves k st b st' r :
  chain_inv genesis k st → step_result st b st' r → chain_inv genesis (k + 1) st'.
Proof.
  intros Hinv Hstep. destruct Hstep as [st' e HM He|Hin|n path s s' Hext|n path s s' d Hext|
    n common m da db s s' txs Hext Hb Hw HLa Hdb Hd Hv HC Htx].
  - eapply chain_inv_weaken; [|by eapply chain_inv_marks]. lia.
  - eapply chain_inv_weaken; [|exact Hinv]. lia.
  - destruct st as [t u]. by eapply chain_inv_insert.
  - destruct st as [t u]. by eapply chain_inv_insert.
  - destruct st as [t u]. pose proof (chain_inv_insert _ _ _ _ _ _ _ Hinv Hext) as HI.
    cbn [fst snd] in *. pose proof (extends_ledger _ _ _ _ _ Hext) as HLn.
    pose proof (extends_subseteq _ _ _ _ _ Hext) as Hs.
    destruct (ext_link _ _ _ _ _ Hext) as (p & _ & Hh & _).
    split; cbn [fst snd nodes canonical_tip]; [apply HI|apply HI| | |apply HI].
    + by eexists.
    + eapply verified_link; [by rewrite lookup_insert_eq|lia| | |exact HLn|exact HC].
      * by eapply verified_mono.
      * eapply ledger_mono; [exact Hs|by eapply ext_ledger].
Qed.

End preservation.

(** The node [ChainTree::new] makes. *)
Definition genesis_node {B3 : Blake3} (gb : Block) : BlockNode :=
  let w := block_work (from_compact (difficulty_target (header gb))) in
  mkBlockNode (blake3 (header_bytes (header gb))) (previous_block_hash (header gb)) 0 w w gb.

Lemma init_inv {B3 : Blake3} {V : BlockTransactionVerifier} gb t u fees :
  block_encodable gb → ChainTree_new (E := ChainError) gb = Ok t →
  apply_block (transactions gb) 0 ∅ = (u, Ok fees) → chain_inv (genesis_node gb) 0 (t, u).
Proof.
  intros He HN HA. unfold ChainTree_new in HN. rewrite header_hash_ok in HN.
  injection HN as <-. fold (genesis_node gb). set (gh := blake3 (header_bytes (header gb))).
  assert (Hlook : ∀ h n, ({[gh := genesis_node gb]} : gmap Hash BlockNode) !! h = Some n →
            h = gh ∧ n = genesis_node gb)
    by (intros h n [<- <-]%lookup_singleton_Some; done).
  assert (Hg : ({[gh := genesis_node gb]} : gmap Hash BlockNode) !! gh = Some (genesis_node gb))
    by apply lookup_singleton_eq.
  split; cbn [fst snd nodes canonical_tip].
  - intros h n [-> ->]%Hlook. repeat (split; [done|]). split; [apply block_work_val|].
    split; [done|]. by cbn [height genesis_node].
  - intros h n [-> ->]%Hlook. exists [genesis_node gb], u. by eapply ledger_genesis.
  - exists [genesis_node gb]. by eapply ledger_genesis.
  - by eapply verified_genesis.
  - intros h n [-> ->]%Hlook. done.
Qed.

(** ** Reachable states *)

Section reachable.
Context {B3 : Blake3} {V : BlockTransactionVerifier}.

(** States reached from a genesis block by [n] calls of
    [process_block_with_verifier], whatever they returned. *)
Inductive reachable (gb : Block) : N → ChainState → Prop :=
| reachable_init t u fees :
    block_encodable gb → ChainTree_new (E := ChainError) gb = Ok t →
    apply_block (transactions gb) 0 ∅ = (u, Ok fees) → reachable gb 0 (t, u)
| reachable_step n st now b :
    reachable gb n st → block_encodable b →
    reachable gb (n + 1) (process_block_with_verifier now b st).1.

Context {VR : VerifierReturns}.

Lemma reachable_inv gb n st :
  reachable gb n st → n ≤ U64_MAX →
  chain_inv (genesis_node gb) n st ∧
  ∃ fees u0, apply_block (transactions gb) 0 ∅ = (u0, Ok fees).
Proof.
  induction 1 as [t u fees He HN HA|n st now b HR IH He]; intros Hn.
  - split; [by eapply init_inv|by exists fees, u].
  - destruct IH as [HI HG]; [lia|]. split; [|done].
    eapply step_preserves; [exact HI|]. eapply (process_step _ n); [done|lia|done].
Qed.
End reachable.

(** ** Properties *)

Section chain_properties.
Context {B3 : Blake3} {V : BlockTransactionVerifier}.

Lemma canonical_work_wf genesis k st : chain_inv genesis k st → work_wf (canonical_work st.1).
Proof.
  intros Hinv. destruct (inv_tip _ _ _ Hinv) as [path HL]. destruct (ledger_lookup _ _ _ _ HL) as (n & _ & Hn & _).
  unfold canonical_work. rewrite Hn. cbn [from_option].
  by destruct (inv_nodes _ _ _ Hinv _ _ Hn) as (_ & _ & _ & _ & ? & _).
Qed.

Lemma canonical_work_insert genesis k t u n path s s' :
  chain_inv genesis k (t, u) → extends (nodes t) n path s s' →
  canonical_work (insert_node n t) = canonical_work t.
Proof.
  intros Hinv Hext. destruct (inv_tip _ _ _ Hinv) as [p HL]. destruct (ledger_lookup _ _ _ _ HL) as (m & _ & Hm & _).
  cbn [fst] in Hm. unfold canonical_work, insert_node. cbn [nodes canonical_tip]. rewrite Hm.
  rewrite lookup_insert_ne; [by rewrite Hm|]. intros E. rewrite <- E in Hm.
  by rewrite (ext_new _ _ _ _ _ Hext) in Hm.
Qed.

(** The tip carries the most work of the tree. *)
Definition heaviest (t : ChainTree) : Prop :=
  ∀ h n, nodes t !! h = Some n → work_val (cumulative_work n) ≤ work_val (canonical_work t).

Lemma step_work genesis k st b st' r :
  chain_inv genesis k st → step_result st b st' r →
  (canonical_tip st'.1 = canonical_tip st.1 → canonical_work st'.1 = canonical_work st.1 ∧ st'.2 = st.2) ∧
  (canonical_tip st'.1 ≠ canonical_tip st.1 →
     (∃ res, r = Ok (Some res)) ∧ work_val (canonical_work st.1) < work_val (canonical_work st'.1)) ∧
  (heaviest st.1 → (∀ d m, r ≠ Err (ReorgDepthExceeded d m)) → heaviest st'.1).
Proof.
  intros Hinv Hstep. pose proof (canonical_work_wf _ _ _ Hinv) as Wt.
  destruct Hstep as [st' e [marks ->] He|Hin|n path s s' Hext Hb Hw|n path s s' d Hext Hb Hw Hd|
    n common m da db s s' txs Hext Hb Hw HLa Hdb Hd Hv HC Htx]; destruct st as [t u]; cbn [fst snd] in *.
  - split; [done|]. split; [done|]. done.
  - done.
  - pose proof (canonical_work_insert _ _ _ _ _ _ _ _ Hinv Hext) as HCW.
    rewrite work_leb_val in Hw by (done || by eapply ext_work). apply N.leb_le in Hw.
    split; [done|]. split; [done|]. intros Hmax _ h x. unfold heaviest. rewrite HCW.
    cbn [insert_node nodes]. intros [[_ <-]|[_ Hx]]%lookup_insert_Some; [done|by eapply Hmax].
  - pose proof (canonical_work_insert _ _ _ _ _ _ _ _ Hinv Hext) as HCW.
    split; [done|]. split; [done|]. intros _ HE. exfalso. by eapply HE.
  - rewrite work_leb_val in Hw by (done || by eapply ext_work). apply N.leb_gt in Hw.
    set (t' := mkChainTree _ _ _ _).
    assert (HCW : canonical_work t' = cumulative_work n)
      by (unfold canonical_work, t'; cbn [nodes canonical_tip]; by rewrite lookup_insert_eq).
    rewrite HCW. split.
    { intros E. exfalso. cbn [t' canonical_tip] in E. destruct (ledger_lookup _ _ _ _ HLa) as (x & _ & Hx & _).
      rewrite <- E in Hx. by rewrite (ext_new _ _ _ _ _ Hext) in Hx. }
    split; [by split; [eexists|]|]. intros Hmax _ h x. rewrite HCW. cbn [t' nodes].
    intros [[_ <-]|[_ Hx]]%lookup_insert_Some; [done|]. specialize (Hmax h x Hx). lia.
Qed.

Lemma block_txids_spec {E} bs ids :
  block_txids (E := E) bs = Ok ids → ∀ id, id ∈ ids ↔ ∃ b tx, b ∈ bs ∧ tx ∈ transactions b ∧ txid (E := E) tx = Ok id.
Proof.
  unfold block_txids.
  assert (HG : ∀ l acc, ofold (E := E) (λ ids tx, let? id := txid tx in Ok ({[id]} ∪ ids)) l acc = Ok ids →
            ∀ id, id ∈ ids ↔ id ∈ acc ∨ ∃ tx, tx ∈ l ∧ txid (E := E) tx = Ok id).
  { induction l as [|tx l IH]; intros acc; cbn [ofold].
    - intros [= <-] id. set_solver.
    - intros (acc' & (x & Hx & [= <-])%obind_Ok & H)%obind_Ok id. rewrite (IH _ H).
      set_unfold. split.
      + intros [[->|?]|(tx' & ? & ?)]; [right; by exists tx; split; [left|]|by left|right; exists tx'; auto].
      + intros [?|(tx' & [->|?] & ?)]; [auto|left; left; congruence|right; by exists tx']. }
  intros H id. rewrite (HG _ _ H). setoid_rewrite list_elem_of_bind. set_solver.
Qed.

Lemma returned_transactions_spec {E} bs1 bs2 txs :
  returned_transactions (E := E) bs1 bs2 = Ok txs →
  ∀ tx, tx ∈ txs ↔ (∃ b, b ∈ bs1 ∧ tx ∈ drop 1 (transactions b)) ∧
    ∀ b tx' id, b ∈ bs2 → tx' ∈ transactions b → txid (E := E) tx' = Ok id → txid (E := E) tx ≠ Ok id.
Proof.
  unfold returned_transactions. intros (ids & Hids & H)%obind_Ok.
  pose proof (block_txids_spec _ _ Hids) as HI. clear Hids.
  assert (HG : ∀ l acc, ofold (E := E) (λ out tx, let? id := txid tx in
             Ok (if bool_decide (id ∈ ids) then out else out ++ [tx])) l acc = Ok txs →
            (∀ tx, tx ∈ l → ∃ id, txid (E := E) tx = Ok id) ∧
            ∀ tx, tx ∈ txs ↔ tx ∈ acc ∨ (tx ∈ l ∧ ∃ id, txid (E := E) tx = Ok id ∧ id ∉ ids)).
  { clear H. induction l as [|x l IH]; intros acc; cbn [ofold].
    - intros [= <-]. split; [by intros ? ?%not_elem_of_nil|set_solver].
    - intros (acc' & (id & Hid & [= <-])%obind_Ok & H)%obind_Ok. destruct (IH _ H) as [IH1 IH2].
      split; [intros tx [->|?]%elem_of_cons; [by exists id|auto]|]. intros tx. rewrite IH2.
      case_bool_decide as Hin; set_unfold; naive_solver congruence. }
  destruct (HG _ _ H) as [HT HS]. intros tx. rewrite HS, list_elem_of_bind. split.
  - intros [?%not_elem_of_nil|[(b & ? & ?) (id & Hid & Hn)]]; [done|]. split; [by exists b|].
    intros b' tx' id' Hb' Htx' Hid' E'. apply Hn. apply HI. exists b', tx'. split; [done|]. split; [done|]. congruence.
  - intros [(b & Hb & Htx) Hn]. right. split; [by exists b|].
    destruct (HT tx) as [id Hid]; [apply list_elem_of_bind; by exists b|].
    exists id. split; [done|]. intros (b' & tx' & ? & ? & ?)%HI. by eapply Hn.
Qed.

Context {VR : VerifierReturns}.

(** C1: In every reachable state the set of unspent outputs is exactly what
    validating and applying the blocks of the canonical path, from genesis,
    leaves; every block of that path was accepted by the transaction verifier
    and commits to the state it leaves; every stored block is filed under its
    header hash and valid on its own path down to genesis. *)
Theorem chain_state_is_ledger (gb : Block) (n : N) (st : ChainState)
    (HR : reachable gb n st) (Hn : n ≤ U64_MAX) :
  (∃ path, ledger (nodes st.1) (canonical_tip st.1) (genesis_node gb :: path) st.2 ∧
     get_path_from_genesis (E := ChainError) st.1 (canonical_tip st.1) = Ok (genesis_node gb :: path) ∧
     replay (genesis_node gb :: path) = Ok st.2) ∧
  verified (nodes st.1) (canonical_tip st.1) ∧
  (∀ h x, nodes st.1 !! h = Some x →
     h = blake3 (header_bytes (header (node_block x))) ∧ ∃ path s, ledger (nodes st.1) h path s).
Proof.
  destruct (reachable_inv gb n st HR Hn) as [HI _]. pose proof (inv_nodes _ _ _ HI) as Hwf. split.
  - destruct (inv_tip _ _ _ HI) as [path HL]. destruct (ledger_root _ _ Hwf _ _ _ HL) as [rest ->].
    exists rest. split; [done|]. split; [by eapply get_path_ok|by eapply replay_ok].
  - split; [apply HI|]. intros h x Hx. split; [by destruct (Hwf _ _ Hx) as (_ & ? & _)|by eapply inv_valid].
Qed.

(** C2: Supply: in every reachable state the unspent outputs are worth at most the
    genesis outputs and the subsidies of the heights 1 to the tip's; from a
    genesis worth at most the genesis allocation, they never exceed
    [MAX_SUPPLY]. *)
Theorem chain_supply_bounded (gb : Block) (n : N) (st : ChainState) (u0 : UtxoSet) (fees : N)
    (HR : reachable gb n st) (Hn : n ≤ U64_MAX)
    (HG : apply_block (transactions gb) 0 ∅ = (u0, Ok fees)) :
  set_value st.2 + get_block_subsidy 0 ≤
    set_value u0 + emission (S (N.to_nat (canonical_height st.1))) ∧
  (set_value u0 ≤ TOTAL_GENESIS_QUANTA → set_value st.2 ≤ MAX_SUPPLY).
Proof.
  destruct (reachable_inv gb n st HR Hn) as [HI _]. pose proof (inv_nodes _ _ _ HI) as Hwf.
  destruct (inv_tip _ _ _ HI) as [path HL]. destruct (ledger_lookup _ _ _ _ HL) as (x & _ & Hx & _).
  pose proof (ledger_value _ _ Hwf _ _ _ _ u0 fees HL Hx HG) as HV.
  assert (HH : canonical_height st.1 = height x) by (unfold canonical_height; by rewrite Hx).
  rewrite HH. split; [exact HV|]. intros Hle. pose proof (emission_bound (S (N.to_nat (height x)))) as HE.
  assert (TOTAL_GENESIS_QUANTA + 33000000 * COIN = MAX_SUPPLY) by (vm_compute; done). lia.
Qed.

(** C10: [process_block_with_verifier] implements the abstract step in every
    reachable state: on an encodable block it returns, does one of the things
    [step_result] lists, fails closed (on an error tip and unspent outputs are
    as before, and so are the stored blocks unless the error is
    [ReorgDepthExceeded]), and never reports [TimestampBeforeMedianTimePast]. *)
Theorem process_block_returns (gb : Block) (n : N) (st : ChainState) (now : option N) (b : Block)
    (HR : reachable gb n st) (Hn : n < U64_MAX) (He : block_encodable b) :
  let run := process_block_with_verifier now b st in
  returns run.2 ∧ step_result st b run.1 run.2 ∧
  ∀ e, run.2 = Err e →
    canonical_tip run.1.1 = canonical_tip st.1 ∧ run.1.2 = st.2 ∧ e ≠ TimestampBeforeMedianTimePast ∧
    (nodes run.1.1 = nodes st.1 ∨ ∃ d m, e = ReorgDepthExceeded d m).
Proof.
  cbv zeta. destruct (reachable_inv gb n st HR) as [HI _]; [lia|].
  pose proof (process_step _ n st now b HI Hn He) as HS. unfold stepped in HS.
  split; [by inversion HS|]. split; [done|]. intros e E. rewrite E in HS.
  inversion HS as [st' e' [marks ->] Ho| | |x path s s' d Hext Hb Hw Hd|]; subst.
  - split; [done|]. split; [done|]. split; [by intros ->|by left].
  - split; [done|]. split; [done|]. split; [done|]. right. by eexists _, _.
Qed.

(** C9: The most-work rule: processing a block changes the tip only to one of
    strictly greater cumulative work, and leaves the unspent outputs alone when
    it does not change the tip; the tip carries the most work of all stored
    blocks as long as no call reported [ReorgDepthExceeded]. At equal work the
    first seen stays: [docs/protocol/consensus.md] wants the branch with the
    smallest hash, which the code never compares. *)
Theorem canonical_work_rule (gb : Block) (n : N) (st : ChainState) (now : option N) (b : Block)
    (HR : reachable gb n st) (Hn : n < U64_MAX) (He : block_encodable b) :
  let run := process_block_with_verifier now b st in
  (canonical_tip run.1.1 = canonical_tip st.1 →
     canonical_work run.1.1 = canonical_work st.1 ∧ run.1.2 = st.2) ∧
  (canonical_tip run.1.1 ≠ canonical_tip st.1 → (∃ res, run.2 = Ok (Some res)) ∧
     work_val (canonical_work st.1) < work_val (canonical_work run.1.1)) ∧
  (heaviest st.1 → (∀ d m, run.2 ≠ Err (ReorgDepthExceeded d m)) → heaviest run.1.1).
Proof.
  cbv zeta. destruct (reachable_inv gb n st HR) as [HI _]; [lia|].
  pose proof (process_step _ n st now b HI Hn He) as HS. by eapply step_work.
Qed.

(** A reorganization: old and new canonical path share exactly a common
    prefix; what the result lists as disconnected is the rest of the old path,
    tip first, and as connected the rest of the new path, at most
    [max_reorg_depth] blocks are disconnected, and the transactions returned
    for the mempool are the non-coinbase ones of disconnected blocks whose
    identifier no connected block contains. *)
Theorem reorg_result_spec (gb : Block) (n : N) (st : ChainState) (now : option N) (b : Block) (r : ReorgResult)
    (HR : reachable gb n st) (Hn : n < U64_MAX) (He : block_encodable b)
    (Hrun : (process_block_with_verifier now b st).2 = Ok (Some r)) :
  let st' := (process_block_with_verifier now b st).1 in
  ∃ common disc conn,
    ledger (nodes st.1) (old_tip r) (common ++ disc) st.2 ∧ old_tip r = canonical_tip st.1 ∧
    ledger (nodes st'.1) (new_tip r) (common ++ conn) st'.2 ∧ new_tip r = canonical_tip st'.1 ∧
    common ≠ [] ∧ Forall (λ x, x ∉ disc) conn ∧
    disconnected_blocks r = node_block <$> reverse disc ∧
    connected_blocks r = node_block <$> conn ∧
    N.of_nat (length disc) ≤ max_reorg_depth st.1 ∧
    (∀ tx, tx ∈ transactions_for_mempool r ↔
       (∃ x, x ∈ disconnected_blocks r ∧ tx ∈ drop 1 (transactions x)) ∧
       ∀ x tx' id, x ∈ connected_blocks r → tx' ∈ transactions x →
         txid (E := ChainError) tx' = Ok id → txid (E := ChainError) tx ≠ Ok id).
Proof.
  cbv zeta. destruct (reachable_inv gb n st HR) as [HI _]; [lia|].
  pose proof (process_step _ n st now b HI Hn He) as HS. unfold stepped in HS.
  destruct (process_block_with_verifier now b st) as [st' r']. cbn [fst snd] in *. subst r'.
  inversion HS as [|?|?|?|x common m da db s s' txs Hext Hb Hw HLa Hdb Hd Hv HC Htx]; subst.
  exists (common ++ [m]), da, (db ++ [x]). cbn [nodes canonical_tip old_tip new_tip fst snd
    disconnected_blocks connected_blocks transactions_for_mempool].
  split; [by rewrite <- app_assoc|]. split; [done|]. split.
  { pose proof (extends_ledger _ _ _ _ _ Hext) as HL. by rewrite <- !app_assoc in *. }
  split; [done|]. split; [by destruct common|]. split.
  { apply Forall_app. split.
    - eapply Forall_impl; [exact Hdb|]. intros y Hy Hin. apply Hy. set_solver.
    - repeat constructor. intros Hin. pose proof (ext_new _ _ _ _ _ Hext) as HN.
      pose proof (inv_nodes _ _ _ HI) as Hwf.
      rewrite (ledger_elem _ _ Hwf _ _ _ x HLa) in HN; [done|set_solver]. }
  split; [done|]. split; [done|]. split; [done|]. by eapply returned_transactions_spec.
Qed.

(** Retargeting can stall the chain: when the target the next block must have
    is not a compact number (such as the retargeting cap itself), every block
    on that parent is rejected, whatever its work, and the tree stays as it
    is. *)
Theorem retarget_stalls (t : ChainTree) (u : UtxoSet) (p : BlockNode) (target : Target)
    (now : option N) (b : Block)
    (Hp : nodes t !! previous_block_hash (header b) = Some p)
    (Hnew : nodes t !! blake3 (header_bytes (header b)) = None)
    (HT : expected_target t (previous_block_hash (header b)) p (wrap64 (height p + 1)) = Ok target)
    (Hc : ∀ c, compact_val c ≠ target_val target) :
  ∃ e, (process_block_with_verifier now b (t, u)).2 = Err e ∧
       only_marks (t, u) (process_block_with_verifier now b (t, u)).1.
Proof.
  unfold process_block_with_verifier. rewrite header_hash_ok, sbind_lift_Ok, sbind_sget.
  destruct (is_block_invalid t _); [eexists; split; [done|apply only_marks_refl]|].
  destruct (is_block_invalid t _).
  { match goal with |- context [reject ?m ?e] =>
      destruct (reject_run (A := option ReorgResult) m e (t, u)) as (st' & -> & HM) end. by eexists. }
  pose proof (validate_structure_returns b) as [HP HD].
  destruct (validate_structure b) as [[]|e| |]; try done.
  2:{ cbn [map_err]. rewrite sbind_lift_Err. eexists; split; [done|apply only_marks_refl]. }
  cbn [map_err]. rewrite sbind_lift_Ok.
  rewrite bool_decide_eq_false_2 by (by rewrite Hnew; apply is_Some_None).
  rewrite Hp. cbn [ok_or]. rewrite sbind_lift_Ok, HT, sbind_lift_Ok.
  unfold check_header. destruct (validate_block_target (header b) target) as [[]|e| |] eqn:HV.
  - by apply validate_block_target_Ok, Hc in HV.
  - cbn [map_err obind]. rewrite sbind_lift_Err. eexists; split; [done|apply only_marks_refl].
  - unfold validate_block_target in HV. by destruct (negb _).
  - unfold validate_block_target in HV. by destruct (negb _).
Qed.
End chain_properties.

(** ** Witnesses *)

(** A chain with the easiest target: a block on [prev] at height [h], with the
    commitments that make it valid on top of [s]. *)
Definition toy_next (prev : Hash) (h time nonce : N) (txs : list Transaction) (s : UtxoSet) : Block :=
  let root := match compute_utxo_root (B3 := toy_blake3) (E := UtxoError)
                      (apply_block (B3 := toy_blake3) txs h s).1 with Ok r => r | _ => ZERO end in
  mkBlock (mkBlockHeader 1 prev (toy_commitment txs) root time 0x217fffff nonce) txs.
Definition toy_hash (b : Block) : Hash := toy_blake3 (header_bytes (header b)).
Definition toy_after (h : N) (txs : list Transaction) (s : UtxoSet) : UtxoSet :=
  (apply_block (B3 := toy_blake3) txs h s).1.

Definition toy_cb (h nonce : N) : list Transaction := [new_coinbase h [mkTxOut (1000 + nonce) [x51]]].
Definition toy_genesis : Block := toy_next ZERO 0 0 0 (toy_cb 0 0) ∅.
Definition toy_s0 : UtxoSet := toy_after 0 (toy_cb 0 0) ∅.
Definition toy_b1 : Block := toy_next (toy_hash toy_genesis) 1 10 0 (toy_cb 1 0) toy_s0.
Definition toy_f1 : Block := toy_next (toy_hash toy_genesis) 1 11 1 (toy_cb 1 1) toy_s0.
Definition toy_f2 : Block :=
  toy_next (toy_hash toy_f1) 2 12 1 (toy_cb 2 1) (toy_after 1 (toy_cb 1 1) toy_s0).

Definition toy_tree : ChainTree :=
  match ChainTree_new (B3 := toy_blake3) (E := ChainError) toy_genesis with
  | Ok t => t
  | _ => mkChainTree ∅ ZERO 0 ∅
  end.
Definition toy_run (b : Block) (st : ChainState) := process_block (B3 := toy_blake3) (Some 100) b st.
Definition toy_st1 : ChainState := (toy_run toy_b1 (toy_tree, toy_s0)).1.
Definition toy_st2 : ChainState := (toy_run toy_f1 toy_st1).1.

Definition encodableb (b : Block) : bool :=
  forallb (λ tx, forallb (λ i, N.of_nat (length (authorization i)) <=? MAX_VECTOR_LENGTH) (inputs tx) &&
                 forallb (λ o, N.of_nat (length (locking_condition o)) <=? MAX_VECTOR_LENGTH) (outputs tx))
    (transactions b).

Lemma encodableb_spec b : encodableb b = true → block_encodable b.
Proof.
  unfold encodableb, block_encodable, transaction_encodable, vec_fits.
  rewrite forallb_forall, Forall_forall. intros H tx Htx%list_elem_of_In.
  specialize (H tx Htx). apply andb_true_iff in H as [H1 H2].
  rewrite forallb_forall in H1, H2. rewrite !Forall_forall.
  setoid_rewrite list_elem_of_In. setoid_rewrite N.leb_le in H1. setoid_rewrite N.leb_le in H2. done.
Qed.

Lemma toy_reach0 :
  reachable (B3 := toy_blake3) (V := AuthoritativeTransactionVerifier (B3 := toy_blake3)) toy_genesis 0
    (toy_tree, toy_s0).
Proof.
  apply (reachable_init (B3 := toy_blake3) _ _ _ 0).
  - apply encodableb_spec. vm_compute. reflexivity.
  - reflexivity.
  - apply pair_snd. vm_compute. reflexivity.
Qed.

Lemma toy_reach2 :
  reachable (B3 := toy_blake3) (V := AuthoritativeTransactionVerifier (B3 := toy_blake3)) toy_genesis 2 toy_st2.
Proof.
  change 2 with (0 + 1 + 1). unfold toy_st2, toy_st1, toy_run, process_block.
  apply reachable_step; [apply reachable_step; [apply toy_reach0|]|];
    apply encodableb_spec; vm_compute; reflexivity.
Qed.

Lemma chain_state_is_ledger_witness :
  ∃ path, get_path_from_genesis (E := ChainError) toy_st2.1 (canonical_tip toy_st2.1) =
            Ok (genesis_node (B3 := toy_blake3) toy_genesis :: path) ∧
          replay (B3 := toy_blake3) (genesis_node (B3 := toy_blake3) toy_genesis :: path) = Ok toy_st2.2.
Proof.
  destruct (chain_state_is_ledger (B3 := toy_blake3) (V := AuthoritativeTransactionVerifier (B3 := toy_blake3))
              toy_genesis 2 toy_st2 toy_reach2) as [(path & _ & H1 & H2) _]; [discriminate|].
  exists path. exact (conj H1 H2).
Defined.

Lemma chain_supply_bounded_witness : set_value toy_st2.2 ≤ MAX_SUPPLY.
Proof.
  apply (chain_supply_bounded (B3 := toy_blake3) (V := AuthoritativeTransactionVerifier (B3 := toy_blake3))
           toy_genesis 2 toy_st2 toy_s0 0 toy_reach2).
  - discriminate.
  - apply pair_snd. vm_compute. reflexivity.
  - vm_compute. discriminate.
Defined.

Lemma process_block_returns_witness :
  returns (process_block (B3 := toy_blake3) (Some 100) toy_f2 toy_st2).2.
Proof.
  apply (process_block_returns (B3 := toy_blake3) (V := AuthoritativeTransactionVerifier (B3 := toy_blake3))
           toy_genesis 2 toy_st2 (Some 100) toy_f2 toy_reach2); [reflexivity|].
  apply encodableb_spec. vm_compute. reflexivity.
Defined.

Lemma canonical_work_rule_witness :
  work_val (canonical_work toy_st2.1) <
  work_val (canonical_work (process_block (B3 := toy_blake3) (Some 100) toy_f2 toy_st2).1.1).
Proof.
  apply (canonical_work_rule (B3 := toy_blake3) (V := AuthoritativeTransactionVerifier (B3 := toy_blake3))
           toy_genesis 2 toy_st2 (Some 100) toy_f2 toy_reach2); [reflexivity| |].
  - apply encodableb_spec. vm_compute. reflexivity.
  - apply (bool_decide_eq_false_1 _). vm_compute. reflexivity.
Defined.

Definition toy_final : ChainState * outcome ChainError (option ReorgResult) :=
  process_block_with_verifier (B3 := toy_blake3)
    (V := AuthoritativeTransactionVerifier (B3 := toy_blake3)) (Some 100) toy_f2 toy_st2.
Definition reorg_of (o : outcome ChainError (option ReorgResult)) : option ReorgResult :=
  match o with Ok (Some r) => Some r | _ => None end.

Lemma reorg_of_Some o r : reorg_of o = Some r → o = Ok (Some r).
Proof. destruct o as [[?|]|?| |]; simpl; congruence. Qed.

Lemma toy_reorg_runs : is_Some (reorg_of toy_final.2).
Proof. apply (bool_decide_unpack _). vm_compute. exact I. Qed.

Lemma reorg_result_spec_witness :
  ∃ r common disc conn, r.(old_tip) = canonical_tip toy_st2.1 ∧
    ledger (B3 := toy_blake3) (nodes toy_st2.1) (old_tip r) (common ++ disc) toy_st2.2 ∧
    disconnected_blocks r = node_block <$> reverse disc ∧
    connected_blocks r = node_block <$> conn.
Proof.
  destruct toy_reorg_runs as [r Hr]. apply reorg_of_Some in Hr.
  destruct (reorg_result_spec (B3 := toy_blake3) (V := AuthoritativeTransactionVerifier (B3 := toy_blake3))
              toy_genesis 2 toy_st2 (Some 100) toy_f2 r toy_reach2)
    as (common & disc & conn & H1 & H2 & _ & _ & _ & _ & H3 & H4 & _); [reflexivity| |exact Hr|].
  { apply encodableb_spec. vm_compute. reflexivity. }
  exists r, common, disc, conn. exact (conj H2 (conj H1 (conj H3 H4))).
Defined.

(** A two-node tree whose tip is at the end of the first epoch, reached so
    slowly that retargeting yields the cap. *)
Definition slow_header (time : N) : BlockHeader := mkBlockHeader 1 ZERO ZERO ZERO time 0x1e0fffff 0.
Definition slow_parent : BlockNode :=
  mkBlockNode (toy_txid toy_spend) ZERO 1439 Work_zero Work_zero (mkBlock (slow_header 1000000) []).
Definition slow_tree : ChainTree :=
  mkChainTree {[ ZERO := mkBlockNode ZERO ZERO 0 Work_zero Work_zero (mkBlock (slow_header 0) []);
                 toy_txid toy_spend := slow_parent ]} (toy_txid toy_spend) 100 ∅.
Definition slow_block : Block :=
  mkBlock (mkBlockHeader 1 (toy_txid toy_spend) ZERO ZERO 1000060 0x1e0fffff 0) [toy_coinbase].

Lemma retarget_stalls_witness :
  ∃ e, (process_block (B3 := toy_blake3) (Some 2000000) slow_block (slow_tree, ∅)).2 = Err e.
Proof.
  destruct (retarget_stalls (B3 := toy_blake3) (V := AuthoritativeTransactionVerifier (B3 := toy_blake3))
              slow_tree ∅ slow_parent (max_target DifficultyConfig_default) (Some 2000000) slow_block)
    as (e & H & _).
  - vm_compute. reflexivity.
  - vm_compute. reflexivity.
  - vm_compute. reflexivity.
  - apply max_target_not_compact.
  - exists e. exact H.
Defined.
