(* ===== verification/Script.v ===== *)
(** * The script engine

    [crates/scytale-script/src/engine.rs] and [builder.rs]: the interpreter that
    runs an unlocking script and then a locking script on one stack, and the
    builder of script bytes. The program counter is the list of the bytes not
    yet read; the operation budget of the engine is an argument. *)

From S2P Require Import Prelude Bytes Primitives Stack.
Local Open Scope N_scope.
Local Open Scope scy_scope.

Definition DEFAULT_MAX_OPS_BUDGET : N := 256.

(** What the interpreter updates: the stack, the remaining budget and the
    branch stack (innermost conditional first). *)
Record Machine := mkMachine { m_stack : ScriptStack; m_budget : N; m_branches : list bool }.

Definition machineM : Type → Type := stM Machine ScriptError.

(** Every enclosing branch is taken: [branch_stack.iter().all(|&b| b)]. *)
Definition all_taken (branches : list bool) : bool := forallb id branches.

Definition on_stack {A} (f : stackM A) : machineM A := λ m,
  let (s, r) := f (m_stack m) in (mkMachine s (m_budget m) (m_branches m), r).
Definition set_branches (branches : list bool) : machineM unit :=
  smodify (λ m, mkMachine (m_stack m) (m_budget m) branches).

Section engine.
Context {B3 : Blake3} {ED : Ed25519}.

Definition verify_signature (pubkey sig : list byte) (digest : Hash) : bool :=
  if negb (length pubkey =? 32)%nat || negb (length sig =? 64)%nat then false
  else match vk_from_bytes pubkey with
       | None => false
       | Some vk => verify_strict vk (hash_bytes digest) sig
       end.

(** The match on the opcode of an active instruction. *)
Definition exec_op (ctx : ScriptContext) (opcode : OpCode) (op_byte : byte) : stackM unit :=
  match opcode with
  | Op0 => push []
  | Op1 | Op2 | Op3 | Op4 | Op5 | Op6 | Op7 | Op8
  | Op9 | Op10 | Op11 | Op12 | Op13 | Op14 | Op15 | Op16 =>
      push_int (Z.of_N (Byte.to_N op_byte) - 81 + 1)
  | OpReturn => slift (Err OpReturnEncountered)
  | OpDup => op_dup
  | OpDrop => op_drop
  | OpSwap => op_swap
  | OpRot => op_rot
  | Op2Dup => op_2dup
  | OpEqual => let! b := pop in let! a := pop in push_bool (bool_decide (a = b))
  | OpEqualVerify =>
      let! b := pop in
      let! a := pop in
      if negb (bool_decide (a = b)) then slift (Err EqualVerifyFailed) else sret tt
  | OpAdd =>
      let! b := pop_int in
      let! a := pop_int in
      let! res := slift (ok_or (i64_checked (a + b)) ScriptArithmeticOverflow) in
      push_int res
  | OpSub =>
      let! b := pop_int in
      let! a := pop_int in
      let! res := slift (ok_or (i64_checked (a - b)) ScriptArithmeticOverflow) in
      push_int res
  | OpLessThan => let! b := pop_int in let! a := pop_int in push_bool (a <? b)%Z
  | OpGreaterThan => let! b := pop_int in let! a := pop_int in push_bool (b <? a)%Z
  | OpBlake3 => let! item := pop in push (hash_bytes (blake3 item))
  | OpCheckSig =>
      let! pubkey := pop in
      let! sig := pop in
      push_bool (verify_signature pubkey sig (sighash ctx))
  | OpCheckSigVerify =>
      let! pubkey := pop in
      let! sig := pop in
      if negb (verify_signature pubkey sig (sighash ctx))
      then slift (Err CheckSigVerifyFailed) else sret tt
  | OpCheckLockTimeVerify =>
      let! lock := pop_int in
      if (lock <? 0)%Z then slift (Err (ScriptLockTimeNotMet 0 (current_block_height ctx)))
      else
        let lock_height := Z.to_N lock in
        if current_block_height ctx <? lock_height
        then slift (Err (ScriptLockTimeNotMet lock_height (current_block_height ctx)))
        else sret tt
  | OpIf | OpElse | OpEndIf | OpPushData1 => sret tt
  end.

Section script.
Context (max_ops_budget : N) (ctx : ScriptContext).

Definition charge : machineM unit := λ m,
  if m_budget m =? 0 then (m, Err (BudgetExceeded max_ops_budget))
  else (mkMachine (m_stack m) (m_budget m - 1) (m_branches m), Ok tt).

(** A push of the next [n] bytes, skipped in a branch not taken. *)
Definition push_bytes (n : N) (rest : list byte) : machineM (list byte) :=
  if N.of_nat (length rest) <? n
  then slift (Err (ScriptTruncated n (N.of_nat (length rest))))
  else
    let! m := sget in
    if all_taken (m_branches m) then
      let! _ := charge in
      let! _ := on_stack (push (take (N.to_nat n) rest)) in
      sret (drop (N.to_nat n) rest)
    else sret (drop (N.to_nat n) rest).

(** One iteration of the loop; the result is the rest of the script. *)
Definition script_step (op_byte : byte) (rest : list byte) : machineM (list byte) :=
  let! m := sget in
  let is_active := all_taken (m_branches m) in
  if bool_decide (op_byte = as_byte OpIf) then
    if is_active then
      let! _ := charge in
      let! cond := on_stack pop_bool in
      let! _ := set_branches (cond :: m_branches m) in
      sret rest
    else
      let! _ := set_branches (false :: m_branches m) in
      sret rest
  else if bool_decide (op_byte = as_byte OpElse) then
    match m_branches m with
    | [] => slift (Err UnbalancedConditionals)
    | last :: outer =>
        let! _ := set_branches ((if all_taken outer then negb last else last) :: outer) in
        sret rest
    end
  else if bool_decide (op_byte = as_byte OpEndIf) then
    match m_branches m with
    | [] => slift (Err UnbalancedConditionals)
    | _ :: outer => let! _ := set_branches outer in sret rest
    end
  else if is_pushbytes op_byte then push_bytes (Byte.to_N op_byte) rest
  else if bool_decide (op_byte = as_byte OpPushData1) then
    match rest with
    | [] => slift (Err (ScriptTruncated 1 0))
    | n :: rest => push_bytes (Byte.to_N n) rest
    end
  else if negb is_active then sret rest
  else
    let! _ := charge in
    let! opcode := slift (ok_or (from_byte op_byte) (InvalidOpCode op_byte)) in
    let! _ := on_stack (exec_op ctx opcode op_byte) in
    sret rest.

(** [while pc < script.len()], with the number of iterations as fuel. *)
Fixpoint script_loop (fuel : nat) (rest : list byte) : machineM unit :=
  match rest with
  | [] => sret tt
  | op_byte :: rest =>
      match fuel with
      | O => slift Diverge
      | S fuel => let! rest := script_step op_byte rest in script_loop fuel rest
      end
  end.

(** The state of [execute_script] is the shared stack and budget. *)
Definition execute_script (script : list byte) : stM (ScriptStack * N) ScriptError unit := λ s,
  let (m, r) := script_loop (length script) script (mkMachine s.1 s.2 []) in
  ((m_stack m, m_budget m),
   let? _ := r in if bool_decide (m_branches m = []) then Ok tt else Err UnbalancedConditionals).

Definition execute_run (unlocking_script locking_script : list byte) :
    stM (ScriptStack * N) ScriptError bool :=
  let! _ := execute_script unlocking_script in
  let! _ := execute_script locking_script in
  λ st,
    if stack_is_empty st.1 then (st, Err ScriptFailed)
    else let (s, r) := pop_bool st.1 in
         ((s, st.2), let? is_valid := r in if is_valid then Ok true else Err ScriptFailed).

Definition execute (unlocking_script locking_script : list byte) : outcome ScriptError bool :=
  (execute_run unlocking_script locking_script (stack_new, max_ops_budget)).2.
End script.
End engine.

(** ** The builder *)

Definition builder_push_opcode (bytes : list byte) (opcode : OpCode) : list byte :=
  bytes ++ [as_byte opcode].

Definition builder_push_data (bytes data : list byte) : list byte :=
  let len := length data in
  if (len =? 0)%nat then bytes ++ [as_byte Op0]
  else if (len <=? 75)%nat then bytes ++ byte_of (N.of_nat len) :: data
  else if (len <=? 255)%nat then bytes ++ as_byte OpPushData1 :: byte_of (N.of_nat len) :: data
  else bytes ++ as_byte OpPushData1 :: xff :: take 255 data.

Definition builder_push_int (bytes : list byte) (val : Z) : list byte :=
  if (val =? 0)%Z then builder_push_opcode bytes Op0
  else if ((1 <=? val) && (val <=? 16))%Z
  then bytes ++ [byte_of (Byte.to_N (as_byte Op1) + Z.to_N (val - 1))]
  else builder_push_data bytes (i64_to_le_bytes val).

Definition builder_push_raw (bytes raw : list byte) : list byte := bytes ++ raw.

(** ** The loop *)

Section loop.
Context {B3 : Blake3} {ED : Ed25519}.
Context (max_ops_budget : N) (ctx : ScriptContext).
Local Notation step := (script_step max_ops_budget ctx).
Local Notation loop := (script_loop max_ops_budget ctx).

Lemma push_bytes_shorter n rest m m' rest' :
  push_bytes max_ops_budget n rest m = (m', Ok rest') → (length rest' ≤ length rest)%nat.
Proof.
  unfold push_bytes. intros H. destruct (_ <? _); [done|].
  apply sbind_Ok in H as (m1 & a & _ & H). destruct (all_taken _); dinv; rewrite length_drop; lia.
Qed.

(** Every iteration consumes its opcode. *)
Lemma script_step_shorter op rest m m' rest' :
  step op rest m = (m', Ok rest') → (length rest' ≤ length rest)%nat.
Proof.
  unfold script_step. intros H. apply sbind_Ok in H as (m1 & a & Hm & H).
  unfold sget in Hm. injection Hm as <- <-.
  destruct (bool_decide (op = as_byte OpIf)).
  { destruct (all_taken _); dinv; lia. }
  destruct (bool_decide (op = as_byte OpElse)).
  { destruct (m_branches m); [done|]. dinv; lia. }
  destruct (bool_decide (op = as_byte OpEndIf)).
  { destruct (m_branches m); [done|]. dinv; lia. }
  destruct (is_pushbytes op); [by eapply push_bytes_shorter|].
  destruct (bool_decide (op = as_byte OpPushData1)).
  { destruct rest as [|n rest]; [done|]. apply push_bytes_shorter in H. simpl. lia. }
  destruct (negb _); dinv; lia.
Qed.

Lemma script_loop_fuel f1 f2 rest m :
  (length rest ≤ f1)%nat → (length rest ≤ f2)%nat → loop f1 rest m = loop f2 rest m.
Proof.
  revert f2 rest m. induction f1 as [|f1 IH]; intros f2 [|op rest] m H1 H2; simpl in *; try lia.
  - by destruct f2.
  - by destruct f2.
  - destruct f2 as [|f2]; [lia|]. simpl. unfold sbind.
    destruct (step op rest m) as [m' [rest'| | |]] eqn:E; try done.
    apply script_step_shorter in E. apply IH; lia.
Qed.

(** The loop with enough fuel, and its equations. *)
Definition run_script (rest : list byte) : machineM unit := loop (length rest) rest.

Lemma run_script_nil m : run_script [] m = (m, Ok tt).
Proof. done. Qed.

Lemma run_script_cons op rest m :
  run_script (op :: rest) m = sbind (step op rest) run_script m.
Proof.
  unfold run_script at 1. simpl. unfold sbind.
  destruct (step op rest m) as [m' [rest'| | |]] eqn:E; try done.
  apply script_step_shorter in E. by apply script_loop_fuel.
Qed.

Lemma execute_script_run script st :
  execute_script max_ops_budget ctx script st =
  let (m, r) := run_script script (mkMachine st.1 st.2 []) in
  ((m_stack m, m_budget m),
   let? _ := r in if bool_decide (m_branches m = []) then Ok tt else Err UnbalancedConditionals).
Proof. done. Qed.

(** Induction along a run. *)
Lemma run_script_ind (P : Machine → Prop) (Q : outcome ScriptError unit → Prop) rest m :
  Q (Ok tt) →
  (∀ op rest m, P m → P (step op rest m).1 ∧
     match (step op rest m).2 with
     | Ok _ => True | Err e => Q (Err e) | Panic => Q Panic | Diverge => Q Diverge end) →
  P m → P (run_script rest m).1 ∧ Q (run_script rest m).2.
Proof.
  intros HQ HS. remember (length rest) as n eqn:En. assert (Hn : (length rest ≤ n)%nat) by lia.
  clear En. revert rest m Hn. induction n as [|n IH]; intros [|op rest] m Hn HP; simpl in *; try lia; try done.
  rewrite run_script_cons. unfold sbind. pose proof (HS op rest m HP) as [HP' HQ'].
  destruct (step op rest m) as [m' [rest'| | |]] eqn:E; simpl in *; try done.
  apply script_step_shorter in E. apply IH; [lia|done].
Qed.
End loop.

(** ** Bounds

    An operation pushes at most two items, and every item is at most 255 bytes
    (the longest [OP_PUSHDATA1]): with a budget of at most 512 the limits on
    depth and item size are never met. *)

Definition small (item : list byte) : Prop := (length item ≤ 255)%nat.

Definition roomy (m : Machine) : Prop :=
  stack_len (m_stack m) + 2 * m_budget m ≤ MAX_STACK_DEPTH ∧ Forall small (m_stack m).

Definition within_limits {A} (r : outcome ScriptError A) : Prop :=
  match r with
  | Panic | Diverge | Err (StackOverflow _) | Err (ItemTooLarge _ _) => False
  | _ => True
  end.

(** From a stack with room for two more items, a stack operation leaves at most
    two more items, all small. *)
Definition stays_small {A} (s : ScriptStack) (run : ScriptStack * outcome ScriptError A) : Prop :=
  stack_len run.1 ≤ stack_len s + 2 ∧ Forall small run.1 ∧ within_limits run.2.

Definition room (s : ScriptStack) : Prop := stack_len s + 2 ≤ MAX_STACK_DEPTH ∧ Forall small s.

Lemma push_stays s0 s item :
  room s0 → stack_len s ≤ stack_len s0 + 1 → Forall small s → small item →
  stays_small s0 (push item s).
Proof.
  intros [HR _] HL HF HI. unfold small in HI.
  rewrite push_ok by (unfold MAX_ITEM_SIZE; lia). split; [|split; [by constructor|done]].
  unfold stack_len in *. simpl. lia.
Qed.

Lemma small_hash h : small (hash_bytes h).
Proof. unfold small. rewrite hash_length. lia. Qed.
Lemma small_int z : small (i64_to_le_bytes z).
Proof. unfold small. rewrite i64_to_le_length. lia. Qed.
Lemma small_bool (b : bool) : small (if b then [x01] else []).
Proof. unfold small. destruct b; simpl; lia. Qed.
#[export] Hint Resolve small_hash small_int small_bool : scy.

Lemma stays_ret {A} s0 s (a : A) : stack_len s ≤ stack_len s0 + 2 → Forall small s →
  stays_small s0 (s, Ok a).
Proof. by repeat split. Qed.
Lemma stays_err {A} s0 s (e : ScriptError) :
  stack_len s ≤ stack_len s0 + 2 → Forall small s → within_limits (@Err _ A e) →
  stays_small s0 (@pair _ (outcome ScriptError A) s (Err e)).
Proof. by repeat split. Qed.

(** Sequencing with an operation that succeeds in place. *)
Lemma stays_pop {A} s0 s (k : list byte → stackM A) :
  stack_len s ≤ stack_len s0 → Forall small s →
  (∀ x s', stack_len s' < stack_len s → Forall small s' → small x → stays_small s0 (k x s')) →
  stays_small s0 (sbind pop k s).
Proof.
  intros HL HF HK. destruct s as [|x s]; [by apply stays_err; [lia| |]|].
  apply Forall_cons in HF as [Hx HF]. unfold sbind, pop. apply HK; [|done|done].
  unfold stack_len. simpl. lia.
Qed.

Lemma stays_pop_int {A} s0 s (k : Z → stackM A) :
  stack_len s ≤ stack_len s0 → Forall small s →
  (∀ z s', stack_len s' < stack_len s → Forall small s' → stays_small s0 (k z s')) →
  stays_small s0 (sbind pop_int k s).
Proof.
  intros HL HF HK. destruct s as [|x s].
  - rewrite (sbind_run_err _ _ _ _ _ pop_int_nil). by apply stays_err; [lia| |].
  - apply Forall_cons in HF as [Hx HF]. unfold sbind. rewrite pop_int_cons.
    assert (Hs : stack_len s < stack_len (x :: s)) by (unfold stack_len; simpl; lia).
    destruct (item_int x) as [z|]; cbn [ok_or]; [by apply HK|]. by apply stays_err; [lia| |].
Qed.

Lemma stays_push {A} s0 s item (k : unit → stackM A) :
  room s0 → stack_len s ≤ stack_len s0 + 1 → Forall small s → small item →
  (stack_len (item :: s) = stack_len s + 1 → Forall small (item :: s) →
   stays_small s0 (k tt (item :: s))) →
  stays_small s0 (sbind (push item) k s).
Proof.
  intros [HR _] HL HF HI HK. unfold sbind. rewrite push_ok.
  - apply HK; [unfold stack_len; simpl; lia|by constructor].
  - lia.
  - unfold small, MAX_ITEM_SIZE in *. lia.
Qed.

Lemma stays_peek {A} s0 s (k : list byte → stackM A) :
  stack_len s ≤ stack_len s0 → Forall small s →
  (∀ x, small x → stays_small s0 (k x s)) → stays_small s0 (sbind peek k s).
Proof.
  intros HL HF HK. unfold sbind, peek. destruct s as [|x s]; cbn [head ok_or].
  - by apply stays_err; [lia| |].
  - apply HK. by apply Forall_cons in HF as [? _].
Qed.

(** Runs a stack operation symbolically. *)
Ltac stays_step :=
  match goal with
  | |- stays_small _ (sbind pop _ _) => apply stays_pop; [lia|assumption|intros]
  | |- stays_small _ (sbind pop_int _ _) => apply stays_pop_int; [lia|assumption|intros]
  | |- stays_small _ (sbind peek _ _) => apply stays_peek; [lia|assumption|intros]
  | |- stays_small _ (sbind (push _) _ _) =>
      apply stays_push; [assumption|lia|assumption|by auto with scy|intros]
  | |- stays_small _ (sbind (slift (ok_or ?o _)) _ _) => destruct o; cbn [ok_or]
  | |- stays_small _ (sbind (slift (Ok _)) _ _) => rewrite sbind_lift_Ok
  | |- stays_small _ (sbind (slift (Err _)) _ _) => rewrite sbind_lift_Err
  | |- stays_small _ ((if ?b then _ else _) _) => destruct b
  | |- stays_small _ (slift (Err _) _) => unfold slift
  | |- stays_small _ (sret _ _) => unfold sret
  | |- stays_small _ (_, Err _) => apply stays_err; [lia|assumption|exact I]
  | |- stays_small _ (_, Ok _) => apply stays_ret; [lia|assumption]
  | |- stays_small _ (push _ _) => apply push_stays; [assumption|lia|assumption|by auto with scy]
  end.

Lemma small_one : small [x01].
Proof. unfold small; simpl; lia. Qed.
Lemma small_nil : small [].
Proof. unfold small; simpl; lia. Qed.
#[export] Hint Resolve small_one small_nil : scy.

Lemma op_2dup_stays s : room s → stays_small s (op_2dup s).
Proof.
  intros HR. pose proof HR as [HL HF]. unfold op_2dup. rewrite sbind_sget.
  destruct s as [|x [|y s]]; repeat stays_step.
  pose proof HF as [Hx [Hy _]%Forall_cons]%Forall_cons.
  apply stays_push; [done|lia|done..|]. intros. apply push_stays; [done|lia|done|done].
Qed.

Lemma exec_op_stays `{Blake3, Ed25519} ctx op b s : room s → stays_small s (exec_op ctx op b s).
Proof.
  intros HR. pose proof HR as [HL HF].
  destruct op; cbn [exec_op]; unfold push_int, push_bool, op_dup, op_drop, op_swap, op_rot;
    try apply op_2dup_stays; try done; repeat stays_step.
Qed.

Definition keeps_roomy {A} (run : Machine * outcome ScriptError A) : Prop :=
  roomy run.1 ∧ within_limits run.2.

Lemma push_stays_room s item : room s → small item → stays_small s (push item s).
Proof. intros HR HI. apply push_stays; [done|lia|apply HR|done]. Qed.

Lemma pop_bool_stays s : room s → stays_small s (pop_bool s).
Proof.
  intros HR. pose proof HR as [HL HF]. unfold pop_bool. repeat stays_step.
Qed.

Section bounds.
Context {B3 : Blake3} {ED : Ed25519}.
Context (max_ops_budget : N) (ctx : ScriptContext).

(** A charged stack operation pays for the room it takes. *)
Lemma charge_roomy {A B} (f : stackM A) (k : A → machineM B) m :
  roomy m → (room (m_stack m) → stays_small (m_stack m) (f (m_stack m))) →
  (∀ a m', roomy m' → keeps_roomy (k a m')) →
  keeps_roomy (sbind (charge max_ops_budget) (λ _, sbind (on_stack f) k) m).
Proof.
  intros [HR HF] Hf HK. unfold sbind at 1. unfold charge.
  destruct (N.eqb_spec (m_budget m) 0) as [E|Hb]; [by repeat split|].
  destruct Hf as (HL & HF' & HW); [split; [lia|done]|].
  unfold sbind, on_stack. cbn [m_stack m_budget m_branches].
  destruct (f (m_stack m)) as [s' r]. cbn [fst snd] in *.
  assert (HR' : roomy (mkMachine s' (m_budget m - 1) (m_branches m))).
  { split; cbn [m_stack m_budget]; [lia|done]. }
  destruct r; try done. by apply HK.
Qed.

Lemma set_branches_roomy {A} bs (a : A) m : roomy m → keeps_roomy (sbind (set_branches bs) (λ _, sret a) m).
Proof. done. Qed.

Lemma push_bytes_roomy n rest m :
  roomy m → n ≤ 255 → keeps_roomy (push_bytes max_ops_budget n rest m).
Proof.
  intros HR Hn. unfold push_bytes. destruct (_ <? _); [done|]. rewrite sbind_sget.
  destruct (all_taken _); [|done]. apply charge_roomy; [done| |by intros].
  intros HRo. apply push_stays_room; [done|]. unfold small. rewrite length_take. lia.
Qed.

Lemma script_step_roomy op rest m :
  roomy m → keeps_roomy (script_step max_ops_budget ctx op rest m).
Proof.
  intros HR. unfold script_step. rewrite sbind_sget. cbv zeta.
  destruct (bool_decide (op = as_byte OpIf)).
  { destruct (all_taken _); [|done]. apply charge_roomy; [done|apply pop_bool_stays|].
    intros a m' HR'. by apply set_branches_roomy. }
  destruct (bool_decide (op = as_byte OpElse)); [by destruct (m_branches m)|].
  destruct (bool_decide (op = as_byte OpEndIf)); [by destruct (m_branches m)|].
  destruct (is_pushbytes op).
  { apply push_bytes_roomy; [done|]. pose proof (to_N_lt op). lia. }
  destruct (bool_decide (op = as_byte OpPushData1)).
  { destruct rest as [|n rest]; [done|]. apply push_bytes_roomy; [done|]. pose proof (to_N_lt n). lia. }
  destruct (negb _); [done|]. destruct (from_byte op) as [opcode|].
  - apply (charge_roomy (exec_op ctx opcode op) (λ _, sret rest)); [done|apply exec_op_stays|by intros].
  - destruct HR as [HR HF]. unfold sbind, charge, slift.
    destruct (m_budget m =? 0); repeat split; cbn; (done || lia).
Qed.

Lemma run_script_roomy rest m :
  roomy m → keeps_roomy (run_script max_ops_budget ctx rest m).
Proof.
  intros HR. apply run_script_ind; [done| |done]. intros op r m' HR'.
  destruct (script_step_roomy op r m' HR') as [HR1 HW]. split; [done|].
  by destruct (script_step _ _ _ _ _).2.
Qed.
End bounds.

(** ** Termination on every script *)

Lemma returns_push item s : returns (push item s).2.
Proof. unfold push. by repeat case_match. Qed.
Lemma returns_pop s : returns (pop s).2.
Proof. by destruct s. Qed.
Lemma returns_peek s : returns (peek s).2.
Proof. by destruct s. Qed.
Lemma returns_pop_int s : returns (pop_int s).2.
Proof. destruct s as [|x s]; [done|]. rewrite pop_int_cons. by destruct (item_int x). Qed.
Lemma returns_pop_bool s : returns (pop_bool s).2.
Proof. destruct s as [|x s]; [done|]. by rewrite pop_bool_cons. Qed.

Ltac solve_returns :=
  repeat match goal with
  | |- returns (sbind _ _ _).2 => apply returns_sbind; intros
  | |- returns (push _ _).2 => apply returns_push
  | |- returns (pop _).2 => apply returns_pop
  | |- returns (peek _).2 => apply returns_peek
  | |- returns (pop_int _).2 => apply returns_pop_int
  | |- returns (slift (ok_or ?o _) _).2 => destruct o; cbn [ok_or]
  | |- returns (slift _ _).2 => by split
  | |- returns (sret _ _).2 => by split
  | |- returns (sget _).2 => by split
  | |- returns ((if ?b then _ else _) _).2 => destruct b
  | |- returns (match ?b with _ => _ end _).2 => destruct b
  end.

Section termination.
Context {B3 : Blake3} {ED : Ed25519}.
Context (max_ops_budget : N) (ctx : ScriptContext).

Lemma exec_op_returns op b s : returns (exec_op ctx op b s).2.
Proof.
  destruct op; cbn [exec_op];
    unfold push_int, push_bool, op_dup, op_drop, op_swap, op_rot, op_2dup; solve_returns.
Qed.

Lemma on_stack_returns {A} (f : stackM A) m :
  returns (f (m_stack m)).2 → returns (on_stack f m).2.
Proof. unfold on_stack. by destruct (f (m_stack m)). Qed.

Lemma charge_returns m : returns (charge max_ops_budget m).2.
Proof. unfold charge. by destruct (_ =? _). Qed.

Lemma push_bytes_returns n rest m : returns (push_bytes max_ops_budget n rest m).2.
Proof.
  unfold push_bytes. destruct (_ <? _); [done|]. rewrite sbind_sget. destruct (all_taken _); [|done].
  apply returns_sbind; [apply charge_returns|]. intros. apply returns_sbind; [|done].
  apply on_stack_returns, returns_push.
Qed.

Lemma script_step_returns op rest m : returns (script_step max_ops_budget ctx op rest m).2.
Proof.
  unfold script_step. rewrite sbind_sget. cbv zeta.
  destruct (bool_decide (op = as_byte OpIf)).
  { destruct (all_taken _); [|done]. apply returns_sbind; [apply charge_returns|]. intros.
    apply returns_sbind; [apply on_stack_returns, returns_pop_bool|done]. }
  destruct (bool_decide (op = as_byte OpElse)); [by destruct (m_branches m)|].
  destruct (bool_decide (op = as_byte OpEndIf)); [by destruct (m_branches m)|].
  destruct (is_pushbytes op); [apply push_bytes_returns|].
  destruct (bool_decide (op = as_byte OpPushData1)).
  { destruct rest; [done|apply push_bytes_returns]. }
  destruct (negb _); [done|]. apply returns_sbind; [apply charge_returns|]. intros.
  apply returns_sbind; [by destruct (from_byte op)|]. intros.
  apply returns_sbind; [apply on_stack_returns, exec_op_returns|done].
Qed.

Lemma run_script_returns rest m : returns (run_script max_ops_budget ctx rest m).2.
Proof.
  apply (run_script_ind max_ops_budget ctx (λ _, True) returns); [done| |done].
  intros op r m' _. split; [done|]. pose proof (script_step_returns op r m') as HR.
  by destruct (script_step _ _ _ _ _).2; destruct HR.
Qed.

Lemma execute_script_returns script st : returns (execute_script max_ops_budget ctx script st).2.
Proof.
  rewrite execute_script_run. pose proof (run_script_returns script (mkMachine st.1 st.2 [])) as HR.
  destruct (run_script _ _ _ _) as [m r]. cbn [snd] in *. apply returns_obind; [done|].
  intros _ _. by case_bool_decide.
Qed.

(** What a call leaves on the stack is small and paid for. *)
Lemma execute_script_roomy script st :
  stack_len st.1 + 2 * st.2 ≤ MAX_STACK_DEPTH → Forall small st.1 →
  let run := execute_script max_ops_budget ctx script st in
  stack_len run.1.1 + 2 * run.1.2 ≤ MAX_STACK_DEPTH ∧ Forall small run.1.1 ∧ within_limits run.2.
Proof.
  intros HL HF. cbv zeta. rewrite execute_script_run.
  pose proof (run_script_roomy max_ops_budget ctx script (mkMachine st.1 st.2 [])) as HR.
  destruct (run_script _ _ _ _) as [m r]. destruct HR as [[HL' HF'] HW]; [by split|]. cbn [fst snd] in *.
  split; [done|]. split; [done|]. destruct r; try done. cbn [obind]. by case_bool_decide.
Qed.
End termination.

(** ** Structured scripts

    A reference semantics: programs as trees, with conditionals nested instead
    of delimited, and their meaning on a stack and a budget. *)

Inductive prog :=
| PDone
| PPush (data : list byte) (k : prog)
| POp (op : OpCode) (k : prog)
| PWhen (t k : prog)
| PIf (t e k : prog).

Fixpoint encode (p : prog) : list byte :=
  match p with
  | PDone => []
  | PPush data k => builder_push_data [] data ++ encode k
  | POp op k => as_byte op :: encode k
  | PWhen t k => as_byte OpIf :: encode t ++ as_byte OpEndIf :: encode k
  | PIf t e k =>
      as_byte OpIf :: encode t ++ as_byte OpElse :: encode e ++ as_byte OpEndIf :: encode k
  end.

Lemma builder_push_data_app bytes data :
  builder_push_data bytes data = bytes ++ builder_push_data [] data.
Proof. unfold builder_push_data. by repeat destruct (_ : bool). Qed.

(** An instruction that neither branches nor pushes inline data. *)
Definition plain (op : OpCode) : bool :=
  match op with OpIf | OpElse | OpEndIf | OpPushData1 => false | _ => true end.

Fixpoint prog_wf (p : prog) : Prop :=
  match p with
  | PDone => True
  | PPush data k => (length data ≤ 255)%nat ∧ prog_wf k
  | POp op k => plain op = true ∧ prog_wf k
  | PWhen t k => prog_wf t ∧ prog_wf k
  | PIf t e k => prog_wf t ∧ prog_wf e ∧ prog_wf k
  end.

Section meaning.
Context {B3 : Blake3} {ED : Ed25519}.
Context (max_ops_budget : N) (ctx : ScriptContext).

(** An instruction: one unit of budget, then a stack operation. *)
Definition paid {A} (f : stackM A) : stM (ScriptStack * N) ScriptError A := λ st,
  if st.2 =? 0 then (st, Err (BudgetExceeded max_ops_budget))
  else let (s, r) := f st.1 in ((s, st.2 - 1), r).

Fixpoint meaning (p : prog) : stM (ScriptStack * N) ScriptError unit :=
  match p with
  | PDone => sret tt
  | PPush data k => let! _ := paid (push data) in meaning k
  | POp op k => let! _ := paid (exec_op ctx op (as_byte op)) in meaning k
  | PWhen t k =>
      let! cond := paid pop_bool in
      let! _ := if cond then meaning t else sret tt in
      meaning k
  | PIf t e k =>
      let! cond := paid pop_bool in
      let! _ := if cond then meaning t else meaning e in
      meaning k
  end.

(** What [execute_script] shows of a run of the loop. *)
Definition observe (run : Machine * outcome ScriptError unit) :
    (ScriptStack * N) * outcome ScriptError unit :=
  ((m_stack run.1, m_budget run.1),
   let? _ := run.2 in if bool_decide (m_branches run.1 = []) then Ok tt else Err UnbalancedConditionals).

Local Notation run := (run_script max_ops_budget ctx).

Lemma run_paid {A} (f : stackM A) (k : A → machineM (list byte)) m
    (c : A → stM (ScriptStack * N) ScriptError unit) :
  (∀ a s b, observe (sbind (k a) run (mkMachine s b (m_branches m))) = c a (s, b)) →
  observe (sbind (sbind (charge max_ops_budget) (λ _, sbind (on_stack f) k)) run m) =
  sbind (paid f) c (m_stack m, m_budget m).
Proof.
  intros HK. unfold sbind, charge, on_stack, paid in *. cbn [fst snd].
  destruct (m_budget m =? 0); [done|]. cbn [m_stack m_budget m_branches].
  destruct (f (m_stack m)) as [s [a| | |]]; cbn [fst snd]; [|done..]. apply HK.
Qed.

(** The step on each kind of instruction. *)
Lemma step_if rest m :
  all_taken (m_branches m) = true →
  script_step max_ops_budget ctx (as_byte OpIf) rest m =
  sbind (charge max_ops_budget) (λ _, sbind (on_stack pop_bool) (λ cond,
    sbind (set_branches (cond :: m_branches m)) (λ _, sret rest))) m.
Proof. intros HA. unfold script_step. rewrite sbind_sget. cbv zeta. by rewrite HA. Qed.

Lemma step_if_skip rest m :
  all_taken (m_branches m) = false →
  script_step max_ops_budget ctx (as_byte OpIf) rest m =
  (mkMachine (m_stack m) (m_budget m) (false :: m_branches m), Ok rest).
Proof. intros HA. unfold script_step. rewrite sbind_sget. cbv zeta. by rewrite HA. Qed.

Lemma step_plain op rest m :
  plain op = true → all_taken (m_branches m) = true →
  script_step max_ops_budget ctx (as_byte op) rest m =
  sbind (charge max_ops_budget) (λ _, sbind (on_stack (exec_op ctx op (as_byte op))) (λ _, sret rest)) m.
Proof.
  intros HP HA. unfold script_step. rewrite sbind_sget. cbv zeta. rewrite HA.
  destruct op; try done.
Qed.

Lemma step_plain_skip op rest m :
  plain op = true → all_taken (m_branches m) = false →
  script_step max_ops_budget ctx (as_byte op) rest m = (m, Ok rest).
Proof.
  intros HP HA. unfold script_step. rewrite sbind_sget. cbv zeta. rewrite HA. by destruct op.
Qed.

Lemma run_else rest s b last outer :
  run (as_byte OpElse :: rest) (mkMachine s b (last :: outer)) =
  run rest (mkMachine s b ((if all_taken outer then negb last else last) :: outer)).
Proof. by rewrite run_script_cons. Qed.
Lemma run_endif rest s b last outer :
  run (as_byte OpEndIf :: rest) (mkMachine s b (last :: outer)) = run rest (mkMachine s b outer).
Proof. by rewrite run_script_cons. Qed.

Lemma push_bytes_app data rest m :
  push_bytes max_ops_budget (N.of_nat (length data)) (data ++ rest) m =
  if all_taken (m_branches m) then
    sbind (charge max_ops_budget) (λ _, sbind (on_stack (push data)) (λ _, sret rest)) m
  else (m, Ok rest).
Proof.
  unfold push_bytes. rewrite length_app. destruct (N.ltb_spec (N.of_nat (length data + length rest)) (N.of_nat (length data))); [lia|].
  rewrite Nat2N.id, take_app_length, drop_app_length, sbind_sget. by destruct (all_taken _).
Qed.

(** A push instruction of the builder is one step. *)
Lemma step_data data rest m :
  (length data ≤ 255)%nat →
  ∃ op tail, builder_push_data [] data ++ rest = op :: tail ∧
    (length tail ≤ length data + length rest + 1)%nat ∧
    script_step max_ops_budget ctx op tail m =
    if all_taken (m_branches m) then
      sbind (charge max_ops_budget) (λ _, sbind (on_stack (push data)) (λ _, sret rest)) m
    else (m, Ok rest).
Proof.
  intros HL. unfold builder_push_data. destruct (Nat.eqb_spec (length data) 0) as [E|Hne].
  { destruct data; [|done]. exists x00, rest. split; [done|]. split; [simpl; lia|].
    destruct (all_taken (m_branches m)) eqn:HA.
    - change x00 with (as_byte Op0). by rewrite step_plain.
    - change x00 with (as_byte Op0). by rewrite step_plain_skip. }
  assert (HN : Byte.to_N (byte_of (N.of_nat (length data))) = N.of_nat (length data)).
  { rewrite to_N_byte_of. apply N.mod_small. lia. }
  destruct (Nat.leb_spec (length data) 75) as [Hs|Hs].
  - eexists _, _. split; [done|]. split; [rewrite length_app; simpl; lia|].
    assert (HD : ∀ c, 75 < Byte.to_N c → bool_decide (byte_of (N.of_nat (length data)) = c) = false).
    { intros c Hc. apply bool_decide_eq_false_2. intros <-. lia. }
    unfold script_step. rewrite sbind_sget. cbv zeta. rewrite !HD by done.
    unfold is_pushbytes. rewrite HN. destruct (N.leb_spec 1 (N.of_nat (length data))); [|lia].
    destruct (N.leb_spec (N.of_nat (length data)) 75); [|lia]. apply push_bytes_app.
  - destruct (Nat.leb_spec (length data) 255) as [_|]; [|lia].
    eexists _, _. split; [done|]. split; [simpl; rewrite length_app; lia|].
    unfold script_step. rewrite sbind_sget. cbv zeta. cbn [bool_decide as_byte is_pushbytes].
    change (push_bytes max_ops_budget (Byte.to_N (byte_of (N.of_nat (length data)))) (data ++ rest) m =
      if all_taken (m_branches m)
      then sbind (charge max_ops_budget) (λ _, sbind (on_stack (push data)) (λ _, sret rest)) m
      else (m, Ok rest)).
    rewrite HN. apply push_bytes_app.
Qed.

(** In a branch not taken a program changes nothing. *)
Lemma run_skip p rest m :
  prog_wf p → all_taken (m_branches m) = false → run (encode p ++ rest) m = run rest m.
Proof.
  revert rest m. induction p as [|data k IHk|op k IHk|t IHt k IHk|t IHt e IHe k IHk];
    intros rest m Hwf HA; cbn [encode prog_wf] in *; [done|..].
  - destruct Hwf as [HL Hwf]. rewrite <- app_assoc.
    destruct (step_data data (encode k ++ rest) m HL) as (op & tail & -> & _ & HS).
    rewrite run_script_cons. unfold sbind at 1. rewrite HS, HA. by apply IHk.
  - destruct Hwf as [HP Hwf]. cbn [app]. rewrite run_script_cons. unfold sbind.
    rewrite step_plain_skip by done. by apply IHk.
  - destruct Hwf as [Ht Hk]. cbn [app]. rewrite <- app_assoc. cbn [app].
    rewrite run_script_cons. unfold sbind. rewrite step_if_skip by done.
    rewrite IHt by done. rewrite run_endif.
    destruct m as [s b bs]. by apply IHk.
  - destruct Hwf as (Ht & He & Hk). cbn [app]. rewrite <- !app_assoc. cbn [app].
    rewrite <- app_assoc. cbn [app]. rewrite run_script_cons. unfold sbind. rewrite step_if_skip by done.
    rewrite IHt by done. rewrite run_else, HA.
    rewrite IHe by done. rewrite run_endif.
    destruct m as [s b bs]. by apply IHk.
Qed.

(** In an active branch it does what its meaning says. *)
Lemma run_encode p rest s b bs :
  prog_wf p → all_taken bs = true →
  observe (run (encode p ++ rest) (mkMachine s b bs)) =
  sbind (meaning p) (λ _ st, observe (run rest (mkMachine st.1 st.2 bs))) (s, b).
Proof.
  revert rest s b bs. induction p as [|data k IHk|op k IHk|t IHt k IHk|t IHt e IHe k IHk];
    intros rest s b bs Hwf HA; cbn [encode prog_wf meaning] in *; [done|..].
  - destruct Hwf as [HL Hwf]. rewrite <- app_assoc.
    destruct (step_data data (encode k ++ rest) (mkMachine s b bs) HL) as (op & tail & -> & _ & HS).
    cbn [m_branches] in HS. rewrite HA in HS.
    rewrite run_script_cons, (sbind_ext _ _ _ _ HS), (sbind_assoc (paid _)).
    apply (run_paid _ _ (mkMachine s b bs)). intros [] s' b'. by apply IHk.
  - destruct Hwf as [HP Hwf]. cbn [app].
    pose proof (step_plain op (encode k ++ rest) (mkMachine s b bs) HP HA) as HS.
    rewrite run_script_cons, (sbind_ext _ _ _ _ HS), (sbind_assoc (paid _)).
    apply (run_paid _ _ (mkMachine s b bs)). intros [] s' b'. by apply IHk.
  - destruct Hwf as [Ht Hk]. cbn [app]. rewrite <- app_assoc. cbn [app].
    pose proof (step_if (encode t ++ as_byte OpEndIf :: encode k ++ rest) (mkMachine s b bs) HA) as HS.
    rewrite run_script_cons, (sbind_ext _ _ _ _ HS), (sbind_assoc (paid _)).
    apply (run_paid _ _ (mkMachine s b bs)). intros [] s' b'; cbn [m_branches].
    + change (observe (run (encode t ++ as_byte OpEndIf :: encode k ++ rest) (mkMachine s' b' (true :: bs))) =
        sbind (sbind (meaning t) (λ _, meaning k)) (λ _ st, observe (run rest (mkMachine st.1 st.2 bs))) (s', b')).
      rewrite IHt by done. rewrite sbind_assoc. apply sbind_cont. intros [] [s2 b2].
      rewrite run_endif. by apply IHk.
    + change (observe (run (encode t ++ as_byte OpEndIf :: encode k ++ rest) (mkMachine s' b' (false :: bs))) =
        sbind (sbind (sret tt) (λ _, meaning k)) (λ _ st, observe (run rest (mkMachine st.1 st.2 bs))) (s', b')).
      rewrite run_skip by done. rewrite run_endif. by apply IHk.
  - destruct Hwf as (Ht & He & Hk). cbn [app]. rewrite <- !app_assoc. cbn [app].
    rewrite <- app_assoc. cbn [app].
    set (tail := encode t ++ as_byte OpElse :: encode e ++ as_byte OpEndIf :: encode k ++ rest).
    pose proof (step_if tail (mkMachine s b bs) HA) as HS.
    rewrite run_script_cons, (sbind_ext _ _ _ _ HS), (sbind_assoc (paid _)).
    apply (run_paid _ _ (mkMachine s b bs)). intros [] s' b'; cbn [m_branches].
    + change (observe (run tail (mkMachine s' b' (true :: bs))) =
        sbind (sbind (meaning t) (λ _, meaning k)) (λ _ st, observe (run rest (mkMachine st.1 st.2 bs))) (s', b')).
      subst tail. rewrite IHt by done. rewrite sbind_assoc. apply sbind_cont. intros [] [s2 b2].
      rewrite run_else, HA. cbn [negb].
      rewrite run_skip by done. rewrite run_endif. by apply IHk.
    + change (observe (run tail (mkMachine s' b' (false :: bs))) =
        sbind (sbind (meaning e) (λ _, meaning k)) (λ _ st, observe (run rest (mkMachine st.1 st.2 bs))) (s', b')).
      subst tail. rewrite run_skip by done. rewrite run_else, HA. cbn [negb]. rewrite IHe by done. rewrite sbind_assoc.
      apply sbind_cont. intros [] [s2 b2].
      rewrite run_endif. by apply IHk.
Qed.
End meaning.

(** ** Pay to public key hash

    The locking script the genesis outputs and the wallet use:
    [OP_DUP OP_BLAKE3 <hash> OP_EQUALVERIFY OP_CHECKSIG]. *)

Definition p2pkh_script (h : Hash) : list byte :=
  [x73; xa0; x20] ++ hash_bytes h ++ [x88; xac].

Definition p2pkh_prog (h : Hash) : prog :=
  POp OpDup (POp OpBlake3 (PPush (hash_bytes h) (POp OpEqualVerify (POp OpCheckSig PDone)))).

Lemma encode_p2pkh h : encode (p2pkh_prog h) = p2pkh_script h.
Proof.
  unfold p2pkh_script. cbn [encode p2pkh_prog]. unfold builder_push_data. rewrite hash_length.
  reflexivity.
Qed.

Lemma p2pkh_wf h : prog_wf (p2pkh_prog h).
Proof. cbn. rewrite hash_length. repeat split; try done. lia. Qed.

Section execution.
Context {B3 : Blake3} {ED : Ed25519}.
Context (max_ops_budget : N) (ctx : ScriptContext).

Lemma execute_script_meaning p st :
  prog_wf p → execute_script max_ops_budget ctx (encode p) st = meaning max_ops_budget ctx p st.
Proof.
  intros Hwf. rewrite execute_script_run.
  assert (HE : ∀ m r, ((m_stack m, m_budget m),
     let? _ := r in if bool_decide (m_branches m = []) then Ok tt else Err UnbalancedConditionals) =
     observe (m, r)) by done.
  destruct (run_script _ _ _ _) as [m r] eqn:E. rewrite HE, <- E. destruct st as [s b].
  rewrite <- (app_nil_r (encode p)), run_encode by done.
  transitivity (sbind (meaning max_ops_budget ctx p) (λ _, sret tt) (s, b)).
  - apply sbind_cont. by intros [] [s' b'].
  - unfold sbind, sret. by destruct (meaning _ _ _ _) as [st' [[]| | |]].
Qed.

Lemma paid_Ok {A} (f : stackM A) s b s' b' a :
  paid max_ops_budget f (s, b) = ((s', b'), Ok a) ↔ b ≠ 0 ∧ f s = (s', Ok a) ∧ b' = b - 1.
Proof.
  unfold paid. cbn [fst snd]. destruct (N.eqb_spec b 0); [naive_solver|].
  destruct (f s) as [s1 r]. naive_solver.
Qed.

Lemma execute_Ok unlock lock :
  execute max_ops_budget ctx unlock lock = Ok true ↔
  ∃ st item s b, execute_script max_ops_budget ctx unlock ([], max_ops_budget) = (st, Ok tt) ∧
    execute_script max_ops_budget ctx lock st = ((item :: s, b), Ok tt) ∧ truthy item = true.
Proof.
  unfold execute, execute_run, sbind, stack_new.
  destruct (execute_script _ _ unlock _) as [st [[]| | |]] eqn:EU; cbn [snd];
    try (split; [discriminate|by intros (? & ? & ? & ? & [=] & _)]).
  destruct (execute_script _ _ lock st) as [[s b] [[]| | |]] eqn:EL; cbn [snd fst];
    try (split; [discriminate|intros (? & ? & ? & ? & [= <-] & H & _); congruence]).
  unfold stack_is_empty. destruct s as [|item s].
  { cbn [bool_decide]. split; [done|]. intros (? & ? & ? & ? & [= <-] & H & _); congruence. }
  rewrite bool_decide_eq_false_2 by done. rewrite pop_bool_cons. cbn [obind snd]. split.
  - intros HT. exists st, item, s, b. by destruct (truthy item).
  - intros (st' & item' & s' & b' & [= <-] & H & HT). rewrite EL in H. injection H as -> -> ->. by rewrite HT.
Qed.

(** The outcome is never [Ok false]. *)
Lemma execute_not_false unlock lock : execute max_ops_budget ctx unlock lock ≠ Ok false.
Proof.
  unfold execute, execute_run, sbind.
  destruct (execute_script _ _ unlock _) as [st [[]| | |]]; cbn [snd]; try done.
  destruct (execute_script _ _ lock st) as [[s b] [[]| | |]]; cbn [snd fst]; try done.
  destruct (stack_is_empty s); [done|]. destruct (pop_bool s) as [s' [[]| | |]]; done.
Qed.

Lemma execute_returns unlock lock : returns (execute max_ops_budget ctx unlock lock).
Proof.
  unfold execute, execute_run. apply returns_sbind; [apply execute_script_returns|]. intros [] st _.
  apply returns_sbind; [apply execute_script_returns|]. intros [] st' _.
  destruct (stack_is_empty st'.1); [done|]. pose proof (returns_pop_bool st'.1) as HR.
  destruct (pop_bool st'.1) as [s [[]| | |]]; destruct HR; done.
Qed.

Lemma execute_within_limits unlock lock :
  max_ops_budget ≤ 512 → within_limits (execute max_ops_budget ctx unlock lock).
Proof.
  intros Hmax. unfold execute, execute_run, sbind, stack_new.
  pose proof (execute_script_roomy max_ops_budget ctx unlock ([], max_ops_budget)) as HU.
  destruct (execute_script _ _ unlock _) as [st r]. cbn [fst snd] in *.
  destruct HU as (HL & HF & HW); [unfold stack_len, MAX_STACK_DEPTH; simpl; lia|constructor|].
  destruct r as [[]| | |]; cbn [snd]; try done.
  pose proof (execute_script_roomy max_ops_budget ctx lock st HL HF) as HK. cbv zeta in HK.
  destruct (execute_script _ _ lock st) as [st' r]. cbn [fst snd] in *. destruct HK as (_ & _ & HW').
  destruct r as [[]| | |]; cbn [snd]; try done.
  destruct (stack_is_empty st'.1); [done|]. destruct st'.1 as [|item s]; [done|].
  rewrite pop_bool_cons. cbn [obind snd]. by destruct (truthy item).
Qed.

Lemma paid_ok {A} (f : stackM A) s b s' a :
  b ≠ 0 → f s = (s', Ok a) → paid max_ops_budget f (s, b) = ((s', b - 1), Ok a).
Proof. intros Hb Hf. by apply paid_Ok. Qed.

Lemma op_dup_cons x s : op_dup (x :: s) = push x (x :: s).
Proof. done. Qed.

(** The locking script, on the stack an unlocking script left. *)
Lemma p2pkh_meaning_inv h s b s' b' item :
  meaning max_ops_budget ctx (p2pkh_prog h) (s, b) = ((item :: s', b'), Ok tt) → truthy item = true →
  5 ≤ b ∧ ∃ pk sig, s = pk :: sig :: s' ∧ blake3 pk = h ∧ verify_signature pk sig (sighash ctx) = true.
Proof.
  cbn [meaning p2pkh_prog exec_op]. intros HM HT.
  apply sbind_Ok in HM as ([s1 b1] & [] & (B1 & H1 & ->)%paid_Ok & HM).
  apply sbind_Ok in HM as ([s2 b2] & [] & (B2 & H2 & ->)%paid_Ok & HM).
  apply sbind_Ok in HM as ([s3 b3] & [] & (B3' & H3 & ->)%paid_Ok & HM).
  apply sbind_Ok in HM as ([s4 b4] & [] & (B4 & H4 & ->)%paid_Ok & HM).
  apply sbind_Ok in HM as ([s5 b5] & [] & (B5 & H5 & ->)%paid_Ok & HM).
  injection HM as -> <-. destruct s as [|pk s]; [done|].
  rewrite op_dup_cons in H1. apply push_Ok in H1 as (_ & _ & ->).
  apply push_Ok in H2 as (_ & _ & ->). apply push_Ok in H3 as (_ & _ & ->).
  unfold sbind, pop, slift, sret in H4. case_bool_decide as EH; [|done]. injection H4 as <-.
  destruct s as [|sig s]; [done|]. unfold sbind, pop, push_bool in H5.
  destruct (verify_signature pk sig (sighash ctx)) eqn:HV;
    apply push_Ok in H5 as (_ & _ & [= -> ->]); [|done].
  split; [lia|]. exists pk, sig. split; [done|]. split; [|done].
  by apply hash_eq.
Qed.

Lemma p2pkh_meaning_run s b pk sig :
  stack_len (pk :: sig :: s) + 2 * b ≤ MAX_STACK_DEPTH → small pk → 5 ≤ b →
  verify_signature pk sig (sighash ctx) = true →
  meaning max_ops_budget ctx (p2pkh_prog (blake3 pk)) (pk :: sig :: s, b) = (([x01] :: s, b - 5), Ok tt).
Proof.
  intros HL Hpk Hb HV. cbn [meaning p2pkh_prog exec_op].
  assert (HP : ∀ x l, (length l ≤ length s + 4)%nat → small x → push x l = (x :: l, Ok tt)).
  { intros x l Hl Hx. unfold small, stack_len, MAX_STACK_DEPTH in *. cbn [length] in *.
    apply push_ok; [unfold stack_len, MAX_STACK_DEPTH; lia|unfold MAX_ITEM_SIZE; lia]. }
  set (h := hash_bytes (blake3 pk)).
  rewrite (sbind_run _ _ _ (pk :: pk :: sig :: s, b - 1) tt); [|apply paid_ok; [lia|apply HP; [simpl; lia|done]]].
  rewrite (sbind_run _ _ _ (h :: pk :: sig :: s, b - 1 - 1) tt);
    [|apply paid_ok; [lia|apply HP; [simpl; lia|by apply small_hash]]].
  rewrite (sbind_run _ _ _ (h :: h :: pk :: sig :: s, b - 1 - 1 - 1) tt);
    [|apply paid_ok; [lia|apply HP; [simpl; lia|by apply small_hash]]].
  rewrite (sbind_run _ _ _ (pk :: sig :: s, b - 1 - 1 - 1 - 1) tt);
    [|apply paid_ok; [lia|unfold sbind, pop; by rewrite bool_decide_eq_true_2]].
  rewrite (sbind_run _ _ _ ([x01] :: s, b - 1 - 1 - 1 - 1 - 1) tt);
    [|apply paid_ok; [lia|unfold sbind, pop, push_bool; rewrite HV; apply HP; [simpl; lia|apply small_one]]].
  by replace (b - 5) with (b - 1 - 1 - 1 - 1 - 1) by lia.
Qed.

Lemma execute_script_fits unlock st :
  max_ops_budget ≤ 512 → execute_script max_ops_budget ctx unlock ([], max_ops_budget) = (st, Ok tt) →
  stack_len st.1 + 2 * st.2 ≤ MAX_STACK_DEPTH ∧ Forall small st.1.
Proof.
  intros Hmax E. pose proof (execute_script_roomy max_ops_budget ctx unlock ([], max_ops_budget)) as HR.
  cbv zeta in HR. rewrite E in HR. cbn [fst snd] in HR.
  destruct HR as (HL & HF & _); [unfold stack_len, MAX_STACK_DEPTH; simpl; lia|constructor|done].
Qed.

Lemma p2pkh_execute unlock h :
  max_ops_budget ≤ 512 →
  execute max_ops_budget ctx unlock (p2pkh_script h) = Ok true ↔
  ∃ pk sig s b, execute_script max_ops_budget ctx unlock ([], max_ops_budget) = ((pk :: sig :: s, b), Ok tt) ∧
    5 ≤ b ∧ blake3 pk = h ∧ verify_signature pk sig (sighash ctx) = true.
Proof.
  intros Hmax. rewrite execute_Ok. split.
  - intros ([s b] & item & s' & b' & EU & EL & HT).
    rewrite <- encode_p2pkh, execute_script_meaning in EL by apply p2pkh_wf.
    destruct (p2pkh_meaning_inv _ _ _ _ _ _ EL HT) as (Hb & pk & sig & -> & Hpk & HV).
    by exists pk, sig, s', b.
  - intros (pk & sig & s & b & EU & Hb & <- & HV).
    destruct (execute_script_fits _ _ Hmax EU) as [HL HF]. cbn [fst snd] in *.
    eexists _, _, _, _. split; [exact EU|].
    rewrite <- encode_p2pkh, execute_script_meaning by apply p2pkh_wf.
    apply Forall_cons in HF as [Hpk _]. by rewrite p2pkh_meaning_run.
Qed.

(** Two pushes leave exactly their data. *)
Lemma execute_pushes sig pk :
  (length sig ≤ 255)%nat → (length pk ≤ 255)%nat → 2 ≤ max_ops_budget →
  execute_script max_ops_budget ctx (builder_push_data (builder_push_data [] sig) pk) ([], max_ops_budget) =
  (([pk; sig], max_ops_budget - 2), Ok tt).
Proof.
  intros Hs Hp Hb.
  assert (HB : builder_push_data (builder_push_data [] sig) pk = encode (PPush sig (PPush pk PDone))).
  { cbn [encode]. by rewrite app_nil_r, builder_push_data_app. }
  rewrite HB, execute_script_meaning by done. cbn [meaning].
  rewrite (sbind_run _ _ _ ([sig], max_ops_budget - 1) tt);
    [|apply paid_ok; [lia|apply push_ok; [by vm_compute|unfold MAX_ITEM_SIZE; lia]]].
  rewrite (sbind_run _ _ _ ([pk; sig], max_ops_budget - 1 - 1) tt);
    [|apply paid_ok; [lia|apply push_ok; [by vm_compute|unfold MAX_ITEM_SIZE; lia]]].
  by replace (max_ops_budget - 2) with (max_ops_budget - 1 - 1) by lia.
Qed.
End execution.

(** ** Block height *)

Section height.
Context {B3 : Blake3} {ED : Ed25519}.
Context (max_ops_budget : N) (ctx ctx' : ScriptContext).
Context (Hsig : sighash ctx' = sighash ctx).
Context (Hheight : current_block_height ctx ≤ current_block_height ctx').

(** Everything that succeeds at a height succeeds in the same way later. *)
Lemma exec_op_later op b s s' :
  exec_op ctx op b s = (s', Ok tt) → exec_op ctx' op b s = (s', Ok tt).
Proof.
  destruct op; cbn [exec_op]; rewrite ?Hsig; try done.
  intros (s1 & z & E & H)%sbind_Ok. rewrite (sbind_run _ _ _ _ _ E).
  destruct (z <? 0)%Z; [done|].
  destruct (N.ltb_spec (current_block_height ctx) (Z.to_N z)); [done|].
  destruct (N.ltb_spec (current_block_height ctx') (Z.to_N z)); [lia|done].
Qed.

Lemma on_stack_Ok {A} (f : stackM A) m m' a :
  on_stack f m = (m', Ok a) ↔
  ∃ s', f (m_stack m) = (s', Ok a) ∧ m' = mkMachine s' (m_budget m) (m_branches m).
Proof. unfold on_stack. destruct (f (m_stack m)) as [s r]. naive_solver. Qed.

Lemma script_step_later op rest m m' rest' :
  script_step max_ops_budget ctx op rest m = (m', Ok rest') →
  script_step max_ops_budget ctx' op rest m = (m', Ok rest').
Proof.
  unfold script_step. rewrite !sbind_sget. cbv zeta.
  destruct (bool_decide (op = as_byte OpIf)); [done|].
  destruct (bool_decide (op = as_byte OpElse)); [done|].
  destruct (bool_decide (op = as_byte OpEndIf)); [done|].
  destruct (is_pushbytes op); [done|].
  destruct (bool_decide (op = as_byte OpPushData1)); [done|]. destruct (negb _); [done|].
  intros (m1 & a & E1 & (m2 & opc & E2 & (m3 & [] & E3 & H)%sbind_Ok)%sbind_Ok)%sbind_Ok.
  rewrite (sbind_run _ _ _ _ _ E1), (sbind_run _ _ _ _ _ E2).
  apply on_stack_Ok in E3 as (s' & E3%exec_op_later & ->).
  rewrite (sbind_run _ _ _ (mkMachine s' (m_budget m2) (m_branches m2)) tt); [done|].
  apply on_stack_Ok. by exists s'.
Qed.

Lemma run_script_later rest m m' :
  run_script max_ops_budget ctx rest m = (m', Ok tt) →
  run_script max_ops_budget ctx' rest m = (m', Ok tt).
Proof.
  remember (length rest) as n eqn:En. assert (Hn : (length rest ≤ n)%nat) by lia. clear En.
  revert rest m Hn. induction n as [|n IH]; intros [|op rest] m Hn; simpl in Hn; try lia; try done.
  rewrite !run_script_cons. intros (m1 & rest' & E & H)%sbind_Ok.
  rewrite (sbind_run _ _ _ _ _ (script_step_later _ _ _ _ _ E)).
  apply script_step_shorter in E. apply IH; [lia|done].
Qed.

Lemma execute_script_later script st st' :
  execute_script max_ops_budget ctx script st = (st', Ok tt) →
  execute_script max_ops_budget ctx' script st = (st', Ok tt).
Proof.
  rewrite !execute_script_run. destruct (run_script _ ctx _ _) as [m [[]| | |]] eqn:E; try done.
  by rewrite (run_script_later _ _ _ E).
Qed.

Lemma execute_later unlock lock :
  execute max_ops_budget ctx unlock lock = Ok true → execute max_ops_budget ctx' unlock lock = Ok true.
Proof.
  rewrite !execute_Ok. intros (st & item & s & b & E1 & E2 & HT). exists st, item, s, b.
  split; [by apply execute_script_later|]. split; [by apply execute_script_later|done].
Qed.
End height.

(** ** Properties *)

Section script_properties.
Context {B3 : Blake3} {ED : Ed25519}.
Context (max_ops_budget : N) (ctx : ScriptContext).

(** Executing any two byte strings as scripts returns: the loop ends within the
    length of the script and nothing is read past its end. The outcome is never
    [Ok false], and with a budget of at most 512 (the engine's own is 256) the
    limits on stack depth and item size are never reached. *)
Theorem script_execution_total (unlock lock : list byte) :
  returns (execute max_ops_budget ctx unlock lock) ∧
  execute max_ops_budget ctx unlock lock ≠ Ok false ∧
  (max_ops_budget ≤ 512 → within_limits (execute max_ops_budget ctx unlock lock)).
Proof.
  split; [apply execute_returns|]. split; [apply execute_not_false|apply execute_within_limits].
Qed.

(** C25: On the encoding of a structured program the interpreter, with its branch
    stack and byte-level skipping, does what the tree semantics says: an
    instruction costs one unit of budget, a conditional runs one of its two
    programs, and the bytes of the other have no effect, whatever they are. *)
Theorem structured_scripts (p : prog) (st : ScriptStack * N) (Hwf : prog_wf p) :
  execute_script max_ops_budget ctx (encode p) st = meaning max_ops_budget ctx p st.
Proof. by apply execute_script_meaning. Qed.

(** Scripts are monotone in the block height: with the same signing digest, an
    unlocking script that satisfies a locking script at some height satisfies
    it at every later one. *)
Theorem script_height_monotone (ctx' : ScriptContext) (unlock lock : list byte)
    (Hsig : sighash ctx' = sighash ctx)
    (Hheight : current_block_height ctx ≤ current_block_height ctx')
    (Hrun : execute max_ops_budget ctx unlock lock = Ok true) :
  execute max_ops_budget ctx' unlock lock = Ok true.
Proof. by eapply execute_later. Qed.

Lemma execute_push data s b :
  (length data ≤ 255)%nat → stack_len s < MAX_STACK_DEPTH → b ≠ 0 →
  execute_script max_ops_budget ctx (builder_push_data [] data) (s, b) = ((data :: s, b - 1), Ok tt).
Proof.
  intros HD HL Hb. rewrite <- (app_nil_r (builder_push_data [] data)).
  change (builder_push_data [] data ++ []) with (encode (PPush data PDone)).
  rewrite execute_script_meaning by done. cbn [meaning].
  rewrite (sbind_run _ _ _ (data :: s, b - 1) tt); [done|].
  apply paid_ok; [done|]. apply push_ok; [done|unfold MAX_ITEM_SIZE; lia].
Qed.

Lemma execute_op op s s' b :
  plain op = true → exec_op ctx op (as_byte op) s = (s', Ok tt) → b ≠ 0 →
  execute_script max_ops_budget ctx [as_byte op] (s, b) = ((s', b - 1), Ok tt).
Proof.
  intros HP HE Hb. change [as_byte op] with (encode (POp op PDone)).
  rewrite execute_script_meaning by done. cbn [meaning].
  by rewrite (sbind_run _ _ _ (s', b - 1) tt); [|apply paid_ok].
Qed.

(** The small integers have opcodes of their own. *)
Lemma small_int_op v s :
  (1 ≤ v ≤ 16)%Z → stack_len s < MAX_STACK_DEPTH →
  ∃ op, plain op = true ∧ byte_of (Byte.to_N (as_byte Op1) + Z.to_N (v - 1)) = as_byte op ∧
    exec_op ctx op (as_byte op) s = (i64_to_le_bytes v :: s, Ok tt).
Proof.
  intros Hv HL.
  assert (HP : push_int v s = (i64_to_le_bytes v :: s, Ok tt)).
  { apply push_ok; [done|]. by rewrite i64_to_le_length. }
  assert (Hc : (v = 1 ∨ v = 2 ∨ v = 3 ∨ v = 4 ∨ v = 5 ∨ v = 6 ∨ v = 7 ∨ v = 8 ∨
    v = 9 ∨ v = 10 ∨ v = 11 ∨ v = 12 ∨ v = 13 ∨ v = 14 ∨ v = 15 ∨ v = 16)%Z) by lia.
  exists (nth (Z.to_nat (v - 1))
            [Op1; Op2; Op3; Op4; Op5; Op6; Op7; Op8; Op9; Op10; Op11; Op12; Op13; Op14; Op15; Op16] Op0).
  destruct_or! Hc; subst v; (split; [reflexivity|split; [reflexivity|exact HP]]).
Qed.

(** The builder: what [push_data] appends pushes exactly its argument up to
    255 bytes and its first 255 bytes beyond (not 520, the item limit); what
    [push_int] appends pushes an item that reads back as the same 64-bit signed
    integer. *)
Theorem builder_pushes (data : list byte) (v : Z) (s : ScriptStack) (b : N)
    (HL : stack_len s < MAX_STACK_DEPTH) (Hb : b ≠ 0) (Hv : i64_ok v) :
  execute_script max_ops_budget ctx (builder_push_data [] data) (s, b) =
    ((take 255 data :: s, b - 1), Ok tt) ∧
  ∃ item, execute_script max_ops_budget ctx (builder_push_int [] v) (s, b) =
    ((item :: s, b - 1), Ok tt) ∧ item_int item = Some v.
Proof.
  split.
  - destruct (Nat.le_gt_cases (length data) 255) as [HD|HD].
    + rewrite take_ge by done. by apply execute_push.
    + assert (HT : (length (take 255 data) ≤ 255)%nat) by (rewrite length_take; lia).
      rewrite <- (execute_push _ _ _ HT HL Hb).
      f_equal. unfold builder_push_data. rewrite length_take, Nat.min_l by lia.
      destruct (Nat.eqb_spec (length data) 0); [lia|]. destruct (Nat.leb_spec (length data) 75); [lia|].
      by destruct (Nat.leb_spec (length data) 255); [lia|].
  - unfold builder_push_int. destruct (Z.eqb_spec v 0) as [->|Hne].
    { exists []. split; [|done]. apply (execute_op Op0); [done| |done]. by apply push_ok. }
    exists (i64_to_le_bytes v). split; [|by apply item_int_int].
    destruct ((1 <=? v) && (v <=? 16))%Z eqn:E.
    + apply andb_true_iff in E as [E1%Z.leb_le E2%Z.leb_le].
      destruct (small_int_op v s) as (op & HP & HB & HE); [done..|]. cbn [app]. rewrite HB.
      by apply execute_op.
    + apply execute_push; [|done..]. rewrite i64_to_le_length. lia.
Qed.

Lemma i64_in_int r : i64_in r = true → item_int (i64_to_le_bytes r) = Some r.
Proof.
  unfold i64_in. intros [H1%Z.leb_le H2%Z.leb_le]%andb_true_iff. by apply item_int_int.
Qed.

(** Arithmetic on 64-bit signed integers: on operands that read as [a] and [b],
    addition and subtraction push the exact result when it fits and fail with
    the overflow error otherwise, and the comparisons compare [a] with [b]. *)
Theorem script_arithmetic (x y : list byte) (a b : Z) (s : ScriptStack) (op_byte : byte)
    (Ha : item_int x = Some a) (Hb : item_int y = Some b) (HL : stack_len s < MAX_STACK_DEPTH) :
  (∀ op r, (op, r) ∈ [(OpAdd, (a + b)%Z); (OpSub, (a - b)%Z)] →
     exec_op ctx op op_byte (y :: x :: s) =
       (if i64_in r then (i64_to_le_bytes r :: s, Ok tt) else (s, Err ScriptArithmeticOverflow)) ∧
     (i64_in r = true → item_int (i64_to_le_bytes r) = Some r)) ∧
  (∀ op r, (op, r) ∈ [(OpLessThan, (a <? b)%Z); (OpGreaterThan, (b <? a)%Z)] →
     ∃ item, exec_op ctx op op_byte (y :: x :: s) = (item :: s, Ok tt) ∧ truthy item = r).
Proof.
  assert (HP : ∀ item, small item → push item s = (item :: s, Ok tt)).
  { intros item Hi. apply push_ok; [done|]. unfold small, MAX_ITEM_SIZE in *. lia. }
  assert (Hpop : ∀ A (k : Z → Z → stackM A),
    sbind pop_int (λ b', sbind pop_int (λ a', k a' b')) (y :: x :: s) = k a b s).
  { intros A k. unfold sbind. by rewrite pop_int_cons, Hb, pop_int_cons, Ha. }
  split; intros op r;
    rewrite !elem_of_cons, elem_of_nil; intros [[= -> ->]|[[= -> ->]|[]]].
  1-2: split; [|apply i64_in_int].
  - etrans; [apply (Hpop _ (λ a b, sbind (slift (ok_or (i64_checked (a + b)) ScriptArithmeticOverflow)) (λ res, push_int res)))|].
    unfold i64_checked. destruct (i64_in _); [|done]. apply HP, small_int.
  - etrans; [apply (Hpop _ (λ a b, sbind (slift (ok_or (i64_checked (a - b)) ScriptArithmeticOverflow)) (λ res, push_int res)))|].
    unfold i64_checked. destruct (i64_in _); [|done]. apply HP, small_int.
  - exists (if (a <? b)%Z then [x01] else []). split; [|apply truthy_bool].
    etrans; [apply (Hpop _ (λ a b, push_bool (a <? b)%Z))|].
    unfold push_bool. destruct (_ <? _)%Z; apply HP; by auto with scy.
  - exists (if (b <? a)%Z then [x01] else []). split; [|apply truthy_bool].
    etrans; [apply (Hpop _ (λ a b, push_bool (b <? a)%Z))|].
    unfold push_bool. destruct (_ <? _)%Z; apply HP; by auto with scy.
Qed.
End script_properties.

(** ** Witnesses *)

(** [OP_1 OP_IF <7> OP_ELSE OP_RETURN OP_ENDIF OP_2 OP_ADD]. *)
Definition toy_prog : prog :=
  POp Op1 (PIf (PPush [x07] PDone) (POp OpReturn PDone) (POp Op2 (POp OpAdd PDone))).
Definition toy_ctx (h : N) : ScriptContext := mkScriptContext ZERO h.

Lemma structured_scripts_witness :
  encode toy_prog = [x51; x63; x01; x07; x67; x6a; x68; x52; x93] ∧
  execute_script (B3 := toy_blake3) (ED := toy_ed25519) 256 (toy_ctx 0) (encode toy_prog) ([], 256) =
  (([i64_to_le_bytes 9], 251), Ok tt).
Proof.
  split; [reflexivity|].
  rewrite (structured_scripts (B3 := toy_blake3) (ED := toy_ed25519) 256 (toy_ctx 0) toy_prog ([], 256));
    [reflexivity|]. cbn. repeat split. lia.
Defined.

Lemma script_height_monotone_witness :
  execute (B3 := toy_blake3) (ED := toy_ed25519) 256 (toy_ctx 5) [] [x55; xb1; x51] = Ok true ∧
  execute (B3 := toy_blake3) (ED := toy_ed25519) 256 (toy_ctx 9) [] [x55; xb1; x51] = Ok true.
Proof.
  split; [reflexivity|].
  apply (script_height_monotone (B3 := toy_blake3) (ED := toy_ed25519) 256 (toy_ctx 5) (toy_ctx 9)).
  - reflexivity.
  - vm_compute. discriminate.
  - reflexivity.
Defined.

Lemma builder_pushes_witness :
  take 255 (replicate 300 x07) = replicate 255 x07 ∧
  execute_script (B3 := toy_blake3) (ED := toy_ed25519) 256 (toy_ctx 0)
     (builder_push_data [] (replicate 300 x07)) ([], 3) =
  (([take 255 (replicate 300 x07)], 3 - 1), Ok tt).
Proof.
  split; [reflexivity|].
  apply (builder_pushes (B3 := toy_blake3) (ED := toy_ed25519) 256 (toy_ctx 0)
           (replicate 300 x07) (-3)%Z [] 3).
  - reflexivity.
  - discriminate.
  - split; discriminate.
Defined.

Lemma script_arithmetic_witness :
  exec_op (B3 := toy_blake3) (ED := toy_ed25519) (toy_ctx 0) OpAdd x93
    [[x01]; i64_to_le_bytes I64_MAX] = ([], Err ScriptArithmeticOverflow) ∧
  exec_op (B3 := toy_blake3) (ED := toy_ed25519) (toy_ctx 0) OpSub x94 [[x05]; [x03]] =
    ([i64_to_le_bytes (-2)], Ok tt).
Proof.
  split.
  - refine (proj1 (proj1 (script_arithmetic (B3 := toy_blake3) (ED := toy_ed25519) (toy_ctx 0)
      (i64_to_le_bytes I64_MAX) [x01] I64_MAX 1 [] x93 eq_refl eq_refl eq_refl)
      OpAdd (I64_MAX + 1)%Z _)).
    apply elem_of_cons. left. reflexivity.
  - refine (proj1 (proj1 (script_arithmetic (B3 := toy_blake3) (ED := toy_ed25519) (toy_ctx 0)
      [x03] [x05] 3 5 [] x94 eq_refl eq_refl eq_refl) OpSub (3 - 5)%Z _)).
    apply elem_of_cons. right. apply elem_of_cons. left. reflexivity.
Defined.
