(* ===== verification/Wallet.v ===== *)
(** * The wallet of the command line

    [apps/scytale-cli/src/wallet.rs] and, of [main.rs], what makes a wallet and
    registers its number: the key pair and the mnemonic, the file, its
    encryption under a PIN, the scripts. The steps on the file and their faults
    are those of Account.v. Wiping memory and [File::flush], which does
    nothing, are left out; what the user sees is not modelled. *)

From S2P Require Import Prelude Bytes Primitives Address Account Stack Script.
Local Open Scope N_scope.
Local Open Scope scy_scope.

(** ** Keys and mnemonics *)

(** [SigningKey::from_bytes] with [verifying_key] and [sign], on the seed. *)
Class Ed25519Sign {ED : Ed25519} {EV : Ed25519Verify} := {
  verifying_key : list byte → list byte;
  sign : list byte → list byte → list byte
}.
Class Ed25519SignLaws `{ES : Ed25519Sign} := {
  verifying_key_length seed : length (verifying_key seed) = 32%nat;
  signature_length seed message : length (sign seed message) = 64%nat;
  signs seed : ∃ vk, vk_from_bytes (verifying_key seed) = Some vk ∧
    ∀ message, verify vk message (sign seed message) = true ∧ verify_strict vk message (sign seed message) = true
}.

(** Words with single spaces between them. *)
Fixpoint join_words (words : list (list byte)) : list byte :=
  match words with
  | [] => []
  | [w] => w
  | w :: words => w ++ x20 :: join_words words
  end.

(** The crate [bip39], and [serde_json] on wallets. *)
Class Bip39 := {
  Mnemonic : Type;
  from_entropy : list byte → option Mnemonic;
  phrase_of : Mnemonic → list byte;
  parse_in_normalized : list byte → option Mnemonic;
  to_seed : Mnemonic → list byte
}.
Class Bip39Laws {BM : Bip39} := {
  seed_length m : length (to_seed m) = 64%nat;
  phrase_parses m : parse_in_normalized (phrase_of m) = Some m;
  phrase_words m : ∃ words, phrase_of m = join_words words ∧ Forall (λ w, w ≠ [] ∧ Forall graphic w) words
}.

(** [split_whitespace]; [skip] bytes of a white space character are left. *)
Fixpoint words_loop (skip : nat) (w s : list byte) : list (list byte) :=
  match s with
  | [] => if bool_decide (w = []) then [] else [w]
  | b :: rest =>
      match skip with
      | S skip => words_loop skip w rest
      | O =>
          match white_space s with
          | O => words_loop 0 (w ++ [b]) rest
          | S skip => (if bool_decide (w = []) then [] else [w]) ++ words_loop skip [] rest
          end
      end
  end.
Definition split_whitespace (s : list byte) : list (list byte) := words_loop 0 [] s.

(** ** The file *)

Inductive WalletError :=
| WalletIo (step : IoStep)
| WalletSerialization
| WalletHex (e : PrimitiveError)
| InvalidKeyLength (expected found : N)
| MissingPrivateKey
| EncryptedWalletContainsPlaintext
| InvalidAddress (e : AddressError)
| FileAlreadyExists
| FileNotFound
| WalletInsufficientFunds (required available : N)
| DataPayloadTooLarge (size max : N)
| UnsupportedWordCount (other : N)
| MnemonicInvalid
| WalletVault (e : VaultError).

Record WalletFile := mkWalletFile {
  w_version : N;
  mnemonic : option (list byte);
  private_key : option (list byte);
  public_key : list byte;
  address : list byte;
  w_account_number : option (list byte);
  w_passbook_id : option (list byte);
  encrypted_key : option EncryptedKeyEnvelope
}.
#[global] Instance wallet_eq_dec : EqDecision WalletFile.
Proof. solve_decision. Defined.

Class WalletJson := {
  wallet_to_json : WalletFile → option (list byte);
  wallet_from_json : list byte → option WalletFile
}.
Class WalletJsonLaws {WJ : WalletJson} := {
  wallet_from_to w bytes : wallet_to_json w = Some bytes → wallet_from_json bytes = Some w
}.

Section file.
Context {WJ : WalletJson}.
Definition walletM := stM Files WalletError.

Definition has_plaintext (w : WalletFile) : bool := bool_decide (is_Some (private_key w)) || bool_decide (is_Some (mnemonic w)).
(** An encrypted wallet with secrets beside the envelope. *)
Definition exposed (w : WalletFile) : bool := bool_decide (is_Some (encrypted_key w)) && has_plaintext w.

Definition clear_plaintext_secrets (w : WalletFile) : WalletFile :=
  mkWalletFile (w_version w) None None (public_key w) (address w) (w_account_number w) (w_passbook_id w) (encrypted_key w).

Definition wallet_io (f : Faults) (step : IoStep) (effect : Files → Files) : walletM unit :=
  if fails f step then slift (Err (WalletIo step)) else smodify effect.

(** The mode is that of a file that is created: a temporary file that is there
    keeps its own. *)
Definition save_to (f : Faults) (w : WalletFile) : walletM unit :=
  if exposed w then slift (Err EncryptedWalletContainsPlaintext)
  else
    let! _ := wallet_io f CreateDir Datatypes.id in
    let! json := slift (ok_or (wallet_to_json w) WalletSerialization) in
    let! _ := wallet_io f OpenTemporary (λ fs, mkFiles (target fs) (Some ([], from_option snd PRIVATE (temporary fs)))) in
    let! _ := if fails f WriteAll
              then let! _ := smodify (λ fs, mkFiles (target fs) ((λ cm, (take (partial f) json, cm.2)) <$> temporary fs)) in
                   slift (Err (WalletIo WriteAll))
              else smodify (λ fs, mkFiles (target fs) ((λ cm, (json, cm.2)) <$> temporary fs)) in
    wallet_io f Rename (λ fs, mkFiles (temporary fs) None).

Definition load_from (f : Faults) : walletM WalletFile :=
  let! fs := sget in
  match target fs with
  | None => slift (Err FileNotFound)
  | Some (content, _) =>
      if fails f ReadFile then slift (Err (WalletIo ReadFile))
      else
        let! w := slift (ok_or (wallet_from_json content) WalletSerialization) in
        if exposed w then
          let w := clear_plaintext_secrets w in
          let! _ := save_to f w in
          sret w
        else sret w
  end.
End file.

(** ** Keys *)

Section keys.
Context {KC : KeyCipher}.

(** [status], [random_salt] and [random_nonce] are what [encrypt_key] takes. *)
Definition wallet_encrypt (status random_salt random_nonce : option (list byte)) (passphrase : list byte) (w : WalletFile) :
    outcome WalletError WalletFile :=
  let? private_key := ok_or (private_key w) MissingPrivateKey in
  let? key_id := map_err WalletHex (from_hex private_key) in
  let? envelope := map_err WalletVault (encrypt_key status random_salt random_nonce key_id passphrase) in
  Ok (clear_plaintext_secrets (mkWalletFile (w_version w) (mnemonic w) (Some private_key) (public_key w) (address w)
        (w_account_number w) (w_passbook_id w) (Some envelope))).

(** The seed of the key. *)
Definition signing_key (w : WalletFile) : outcome WalletError (list byte) :=
  let? private_key := ok_or (private_key w) MissingPrivateKey in
  let? bytes := map_err WalletHex (from_hex private_key) in
  if negb (length bytes =? 32)%nat then Err (InvalidKeyLength 32 (N.of_nat (length bytes))) else Ok bytes.

Definition signing_key_with_pin (status : option (list byte)) (pin : list byte) (w : WalletFile) : outcome WalletError (list byte) :=
  let? key_bytes :=
    match encrypted_key w with
    | Some envelope => map_err WalletVault (decrypt_key status envelope pin)
    | None =>
        let? private_key := ok_or (private_key w) MissingPrivateKey in
        map_err WalletHex (from_hex private_key)
    end in
  if negb (length key_bytes =? 32)%nat then Err (InvalidKeyLength 32 (N.of_nat (length key_bytes))) else Ok key_bytes.

Definition verifying_key_bytes (w : WalletFile) : outcome WalletError (list byte) :=
  let? bytes := map_err WalletHex (from_hex (public_key w)) in
  if negb (length bytes =? 32)%nat then Err (InvalidKeyLength 32 (N.of_nat (length bytes))) else Ok bytes.
End keys.

(** ** Scripts *)

Definition build_p2pkh_locking_script (address_hash : Hash) : list byte :=
  builder_push_opcode (builder_push_opcode
    (builder_push_data (builder_push_opcode (builder_push_opcode [] OpDup) OpBlake3) (hash_bytes address_hash))
    OpEqualVerify) OpCheckSig.
Definition build_p2pkh_unlocking_script (sig pubkey : list byte) : list byte :=
  builder_push_data (builder_push_data [] sig) pubkey.
Definition build_op_return_script (data : list byte) : list byte :=
  builder_push_data (builder_push_opcode [] OpReturn) data.

Section addresses.
Context {BE : Bech32}.

Definition address_bytes (w : WalletFile) : outcome WalletError Hash :=
  let? addr := map_err InvalidAddress (address_parse (address w)) in Ok (address_hash addr).
Definition bech32_address (w : WalletFile) : outcome WalletError (list byte) :=
  let? addr := map_err InvalidAddress (address_parse (address w)) in
  map_err InvalidAddress (to_bech32 addr).
Definition p2pkh_locking_script (w : WalletFile) : outcome WalletError (list byte) :=
  let? addr := address_bytes w in Ok (build_p2pkh_locking_script addr).
End addresses.

(** ** New wallets *)

Section generate.
Context {WJ : WalletJson} {BE : Bech32} {B3 : Blake3} {ED : Ed25519} {EV : Ed25519Verify} {ES : Ed25519Sign} {BM : Bip39}.

(** The wallet of a seed. *)
Definition wallet_of (version : N) (phrase : option (list byte)) (seed : list byte) : outcome WalletError WalletFile :=
  let pubkey_bytes := verifying_key seed in
  let? bech32_addr := map_err InvalidAddress (to_bech32 (Address_new (blake3 pubkey_bytes))) in
  Ok (mkWalletFile version phrase (Some (to_hex seed)) (to_hex pubkey_bytes) bech32_addr None None None).

(** [path.exists() && !overwrite]. *)
Definition refuses (overwrite : bool) (fs : Files) : bool := bool_decide (is_Some (target fs)) && negb overwrite.

(** [random n] is what the generator of the system fills [n] bytes with. *)
Definition generate_new (f : Faults) (random : nat → list byte) (overwrite : bool) : walletM WalletFile :=
  let! fs := sget in
  if refuses overwrite fs then slift (Err FileAlreadyExists)
  else
    let! _ := wallet_io f CreateDir Datatypes.id in
    let! w := slift (wallet_of 1 None (random 32%nat)) in
    let! _ := save_to f w in
    sret w.

Definition entropy_bytes (word_count : N) : outcome WalletError nat :=
  if word_count =? 12 then Ok 16%nat else if word_count =? 24 then Ok 32%nat else Err (UnsupportedWordCount word_count).
Definition generate_with_mnemonic (f : Faults) (random : nat → list byte) (overwrite : bool) (word_count : N) :
    walletM (WalletFile * list byte) :=
  let! fs := sget in
  if refuses overwrite fs then slift (Err FileAlreadyExists)
  else
    let! n := slift (entropy_bytes word_count) in
    let! m := slift (ok_or (from_entropy (random n)) MnemonicInvalid) in
    let phrase := phrase_of m in
    let! w := slift (wallet_of 2 (Some phrase) (take 32 (to_seed m))) in
    let! _ := save_to f w in
    sret (w, phrase).

Definition restore_from_mnemonic (f : Faults) (phrase : list byte) (overwrite : bool) : walletM WalletFile :=
  let! fs := sget in
  if refuses overwrite fs then slift (Err FileAlreadyExists)
  else
    let clean_phrase := join_words (split_whitespace phrase) in
    let! m := slift (ok_or (parse_in_normalized clean_phrase) MnemonicInvalid) in
    let! w := slift (wallet_of 2 (Some clean_phrase) (take 32 (to_seed m))) in
    let! _ := save_to f w in
    sret w.
End generate.

(** ** Words *)

Lemma words_loop_word w acc rest : Forall graphic w → words_loop 0 acc (w ++ rest) = words_loop 0 (acc ++ w) rest.
Proof.
  revert acc. induction w as [|b w IH]; intros acc HF; [by rewrite app_nil_r|]. apply Forall_cons in HF as [Hb HF].
  cbn [app words_loop]. rewrite graphic_space by done. rewrite IH by done. by rewrite <- app_assoc.
Qed.
Lemma split_join words :
  Forall (λ w, w ≠ [] ∧ Forall graphic w) words → split_whitespace (join_words words) = words.
Proof.
  unfold split_whitespace. induction words as [|w words IH]; [done|]. intros [[Hne HG] HF]%Forall_cons.
  destruct words as [|w' words].
  - cbn [join_words]. rewrite <- (app_nil_r w) at 1. rewrite words_loop_word by done. cbn [app words_loop]. by rewrite bool_decide_eq_false_2.
  - change (join_words (w :: w' :: words)) with (w ++ x20 :: join_words (w' :: words)). rewrite words_loop_word by done.
    cbn [app]. change (words_loop 0 w (x20 :: join_words (w' :: words))) with
      ((if bool_decide (w = []) then [] else [w]) ++ words_loop 0 [] (join_words (w' :: words))).
    by rewrite bool_decide_eq_false_2, IH.
Qed.

(** ** The file *)

Section file_properties.
Context {WJ : WalletJson}.

(** A save that succeeds leaves the wallet in the file; one that fails leaves the
    file as it was. It has no other answer. *)
Lemma save_to_cases f w fs :
  (∃ json, exposed w = false ∧ wallet_to_json w = Some json ∧
     save_to f w fs = (mkFiles (Some (json, from_option snd PRIVATE (temporary fs))) None, Ok tt)) ∨
  (∃ e fs', save_to f w fs = (fs', Err e) ∧ target fs' = target fs ∧
     (exposed w = true → e = EncryptedWalletContainsPlaintext ∧ fs' = fs)).
Proof.
  unfold save_to. destruct (exposed w); [right; by eexists _, fs|].
  destruct f as [fl rm part], fs as [old tmp].
  unfold wallet_io, sbind, slift, sget, smodify, sret. cbn [fails remove_fails partial target temporary ok_or Datatypes.id].
  destruct (fl CreateDir); [right; by eexists _, _|].
  destruct (wallet_to_json w) as [json|]; cbn [ok_or]; [|right; by eexists _, _].
  destruct (fl OpenTemporary); [right; by eexists _, _|].
  destruct (fl WriteAll); [right; by eexists _, _|].
  destruct (fl Rename); [right; by eexists _, _|]. left. by exists json.
Qed.

Lemma load_from_saved {WL : WalletJsonLaws} f w json mode tmp :
  wallet_to_json w = Some json → exposed w = false → fails f ReadFile = false →
  load_from f (mkFiles (Some (json, mode)) tmp) = (mkFiles (Some (json, mode)) tmp, Ok w).
Proof.
  intros HJ HE Hf. unfold load_from. rewrite sbind_sget. cbn [target]. rewrite Hf, (wallet_from_to _ _ HJ). cbn [ok_or].
  by rewrite sbind_lift_Ok, HE.
Qed.

Lemma clear_not_exposed w : exposed (clear_plaintext_secrets w) = false.
Proof. unfold exposed, has_plaintext. cbn. by rewrite andb_false_r. Qed.
Lemma plain_not_exposed w : encrypted_key w = None → exposed w = false.
Proof. unfold exposed. by intros ->. Qed.

(** What is in the file is never an encrypted wallet with its secrets beside
    the envelope, once the wallet has been saved, or loaded without an error. *)
Definition file_exposed (fs : Files) : bool :=
  match target fs with Some (json, _) => from_option exposed false (wallet_from_json json) | None => false end.

Lemma save_exposed {WL : WalletJsonLaws} f w fs :
  file_exposed fs = false → file_exposed (save_to f w fs).1 = false.
Proof.
  intros H. destruct (save_to_cases f w fs) as [(json & HE & HJ & ->)|(e & fs' & -> & Ht & _)]; cbn [fst].
  - unfold file_exposed. cbn [target]. by rewrite (wallet_from_to _ _ HJ).
  - unfold file_exposed in *. by rewrite Ht.
Qed.
Lemma load_exposed {WL : WalletJsonLaws} f fs fs' w :
  load_from f fs = (fs', Ok w) → exposed w = false ∧ file_exposed fs' = false.
Proof.
  unfold load_from. rewrite sbind_sget. destruct (target fs) as [[content mode]|] eqn:Et; [|done].
  destruct (fails f ReadFile); [done|]. destruct (wallet_from_json content) as [w0|] eqn:Ej; [|done]. cbn [ok_or].
  rewrite sbind_lift_Ok. destruct (exposed w0) eqn:Ee.
  - destruct (save_to_cases f (clear_plaintext_secrets w0) fs) as [(json & HE & HJ & E)|(e & fs1 & E & _)].
    + unfold sbind. rewrite E. intros [= <- <-]. split; [done|]. unfold file_exposed. cbn [target]. by rewrite (wallet_from_to _ _ HJ).
    + unfold sbind. by rewrite E.
  - intros [= <- <-]. split; [done|]. unfold file_exposed. by rewrite Et, Ej.
Qed.
End file_properties.

(** ** Keys and scripts *)

(** The wallet has the public key and the address of a seed. *)
Definition belongs {BE : Bech32} {B3 : Blake3} `{ES : Ed25519Sign} (seed : list byte) (w : WalletFile) : Prop :=
  public_key w = to_hex (verifying_key seed) ∧ address_parse (address w) = Ok (Address_new (blake3 (verifying_key seed))).

Lemma from_to_hex bs : from_hex (to_hex bs) = Ok bs.
Proof. exact (proj1 (hex_roundtrip bs ZERO)). Qed.

Lemma build_p2pkh h : build_p2pkh_locking_script h = p2pkh_script h.
Proof.
  unfold build_p2pkh_locking_script, builder_push_data. rewrite hash_length. cbn [Nat.eqb Nat.leb builder_push_opcode app].
  unfold builder_push_opcode. by rewrite <- !app_assoc.
Qed.

Section key_properties.
Context {BE : Bech32} {BL : Bech32Laws} {B3 : Blake3} `{SL : Ed25519SignLaws} {KC : KeyCipher} {KL : KeyCipherLaws}.

Lemma signing_key_plain w seed : private_key w = Some (to_hex seed) → length seed = 32%nat → signing_key w = Ok seed.
Proof. intros Hp Hl. unfold signing_key. rewrite Hp. cbn [ok_or obind]. rewrite from_to_hex. cbn [map_err obind]. by rewrite Hl. Qed.
Lemma signing_key_pin_plain w seed status pin :
  private_key w = Some (to_hex seed) → encrypted_key w = None → length seed = 32%nat → signing_key_with_pin status pin w = Ok seed.
Proof.
  intros Hp He Hl. unfold signing_key_with_pin. rewrite He, Hp. cbn [ok_or obind]. rewrite from_to_hex. cbn [map_err obind]. by rewrite Hl.
Qed.
Lemma belongs_public seed w : belongs seed w → verifying_key_bytes w = Ok (verifying_key seed).
Proof. intros [Hp _]. unfold verifying_key_bytes. rewrite Hp, from_to_hex. cbn [map_err obind]. by rewrite verifying_key_length. Qed.
Lemma belongs_lock seed w : belongs seed w → p2pkh_locking_script w = Ok (p2pkh_script (blake3 (verifying_key seed))).
Proof. intros [_ Ha]. unfold p2pkh_locking_script, address_bytes. rewrite Ha. cbn [map_err obind]. by rewrite build_p2pkh. Qed.

Lemma wallet_of_Ok version phrase seed :
  ∃ addr, wallet_of version phrase seed = Ok (mkWalletFile version phrase (Some (to_hex seed)) (to_hex (verifying_key seed)) addr None None None) ∧
    address_parse addr = Ok (Address_new (blake3 (verifying_key seed))).
Proof using BL.
  destruct (address_roundtrip (blake3 (verifying_key seed)) 0 0) as (s & HB & _ & HP & _). exists s.
  unfold wallet_of. rewrite HB. cbn [map_err obind]. split; [done|]. cbn [replicate app] in HP. by rewrite app_nil_r in HP.
Qed.

(** Encryption keeps the seed under the PIN and nothing else. *)
Lemma wallet_encrypt_Ok status salt nonce pin w w' seed :
  private_key w = Some (to_hex seed) → length seed = 32%nat → wallet_encrypt status salt nonce pin w = Ok w' →
  ∃ envelope, w' = mkWalletFile (w_version w) None None (public_key w) (address w) (w_account_number w) (w_passbook_id w) (Some envelope) ∧
    (∀ status', is_being_traced status' = false → signing_key_with_pin status' pin w' = Ok seed).
Proof using KL.
  intros Hp Hl. unfold wallet_encrypt. rewrite Hp. cbn [ok_or obind]. rewrite from_to_hex. cbn [map_err obind].
  destruct (encrypt_key status salt nonce seed pin) as [env| | |] eqn:E; [|done..]. cbn [map_err obind].
  intros [= <-]. exists env. split; [done|]. intros status' Ht.
  pose proof (vault_roundtrip status status' salt nonce seed pin) as HV. rewrite E in HV.
  destruct HV as (_ & _ & _ & _ & _ & HD & _). rewrite Ht in HD.
  unfold signing_key_with_pin. cbn [encrypted_key clear_plaintext_secrets]. rewrite HD. cbn [map_err obind]. by rewrite Hl.
Qed.
End key_properties.

(** ** The account number *)

(** What the gateway answers to a request to bind: a binding, something else
    with a success, a status, or nothing. *)
Inductive BindReply :=
| Bound (account_number passbook_id : list byte)
| Unreadable
| StatusReply (code : N)
| TransportFailure.

Inductive CliError :=
| CliWallet (e : WalletError)
| CliPin (e : VaultError)
| PinMismatch
| InvalidPublicKeyHex (e : PrimitiveError)
| UnreadableReply
| RegistrationFailed (code : N)
| NumbersTaken.

Section register.
Context {KC : KeyCipher} {B3 : Blake3} {ED : Ed25519} {EV : Ed25519Verify} {ES : Ed25519Sign}.
Context {G : Type} (post : AliasBindRequest → G → G * BindReply).

Definition with_account (account_number passbook_id : list byte) (w : WalletFile) : WalletFile :=
  mkWalletFile (w_version w) (mnemonic w) (private_key w) (public_key w) (address w) (Some account_number) (Some passbook_id) (encrypted_key w).

(** The request of one attempt. *)
Definition bind_request (seed public_key key_id passbook_id : list byte) (attempt : N) : AliasBindRequest :=
  let candidate := derive_candidate key_id passbook_id attempt in
  let signature := sign seed (bind_message (default ZERO (hash_of_list public_key)) passbook_id candidate) in
  mkAliasBindRequest passbook_id candidate signature (to_hex public_key).

(** The loop over the attempts [attempt ..]. *)
Fixpoint register_loop (attempts : nat) (attempt : N) (seed public_key key_id passbook_id : list byte) (w : WalletFile) :
    stM G CliError (WalletFile * bool) :=
  match attempts with
  | O => slift (Err NumbersTaken)
  | S attempts => λ g,
      let '(g, reply) := post (bind_request seed public_key key_id passbook_id attempt) g in
      match reply with
      | Bound account_number passbook_id => (g, Ok (with_account account_number passbook_id w, true))
      | Unreadable => (g, Err UnreadableReply)
      | StatusReply code =>
          if code =? 409 then register_loop attempts (attempt + 1) seed public_key key_id passbook_id w g
          else (g, Err (RegistrationFailed code))
      | TransportFailure => (g, Ok (w, false))
      end
  end.

Definition register_account (status : option (list byte)) (pin : list byte) (w : WalletFile) : stM G CliError (WalletFile * bool) :=
  let! key_id := slift (map_err InvalidPublicKeyHex (from_hex (public_key w))) in
  let! public_key := slift (map_err CliWallet (verifying_key_bytes w)) in
  let! seed := slift (map_err CliWallet (signing_key_with_pin status pin w)) in
  register_loop 10 0 seed public_key key_id (address w) w.

(** ** [wallet new] *)

(** The PIN that stands for one that cannot be read. *)
Definition DEFAULT_PIN : list byte := [x31; x32; x33; x34; x35; x36].

(** [pin] and [env_pin] are the argument and the variable, [prompt] and
    [repeated] what is typed, when it can be read. *)
Definition collect_pin (pin env_pin prompt repeated : option (list byte)) (confirm : bool) : outcome CliError (list byte) :=
  let supplied := bool_decide (is_Some pin) || bool_decide (is_Some env_pin) in
  let pin := match pin with
             | Some pin => pin
             | None => match env_pin with Some pin => pin | None => default DEFAULT_PIN prompt end
             end in
  let? _ := map_err CliPin (PinCode_new pin) in
  if confirm && negb supplied then
    match repeated with
    | Some repeated => if negb (bool_decide (pin = repeated)) then Err PinMismatch else Ok pin
    | None => Ok pin
    end
  else Ok pin.

Context {WJ : WalletJson} {BE : Bech32} {BM : Bip39}.

(** What the system gives to a command: random bytes, the process status, the
    salt and the nonce of the vault. *)
Record System := mkSystem {
  random : nat → list byte;
  proc_status : option (list byte);
  random_salt : option (list byte);
  random_nonce : option (list byte)
}.

(** A step on the file, and one on the other side of the network. *)
Definition on_files {A} (m : walletM A) : stM (Files * G) CliError A := λ '(fs, g),
  let '(fs, r) := m fs in (fs, g, map_err CliWallet r).
Definition on_net {A} (m : stM G CliError A) : stM (Files * G) CliError A := λ '(fs, g),
  let '(g, r) := m g in (fs, g, r).

(** The wallet that [wallet new] makes and saves first. *)
Definition create_wallet (sys : System) (f : Faults) (force with_mnemonic : bool) (words : N) : walletM WalletFile :=
  if with_mnemonic then let! wp := generate_with_mnemonic f (random sys) force words in sret wp.1
  else generate_new f (random sys) force.

(** The faults are those of the first save and those of the second. *)
Definition wallet_new (sys : System) (f1 f2 : Faults) (pin : outcome CliError (list byte)) (force with_mnemonic : bool) (words : N) :
    stM (Files * G) CliError (WalletFile * bool) :=
  let! pin := slift pin in
  let! w := on_files (create_wallet sys f1 force with_mnemonic words) in
  let! w := slift (map_err CliWallet (wallet_encrypt (proc_status sys) (random_salt sys) (random_nonce sys) pin w)) in
  let! (w, registered) := on_net (register_account (proc_status sys) pin w) in
  let! _ := on_files (save_to f2 w) in
  sret (w, registered).
End register.

(** ** Properties *)

Section properties.
Context {WJ : WalletJson} {WL : WalletJsonLaws} {BE : Bech32} {BL : Bech32Laws} {B3 : Blake3}.
Context `{SL : Ed25519SignLaws} {BM : Bip39} {ML : Bip39Laws} {KC : KeyCipher} {KL : KeyCipherLaws}.

Lemma generated f random overwrite n fs fs' w phrase :
  generate_with_mnemonic f random overwrite n fs = (fs', Ok (w, phrase)) →
  ∃ m entropy json seed, (n = 12 ∨ n = 24) ∧ from_entropy entropy = Some m ∧ phrase = phrase_of m ∧ seed = take 32 (to_seed m) ∧
    wallet_of 2 (Some phrase) seed = Ok w ∧ wallet_to_json w = Some json ∧
    fs' = mkFiles (Some (json, from_option snd PRIVATE (temporary fs))) None.
Proof.
  unfold generate_with_mnemonic. rewrite sbind_sget. destruct (refuses overwrite fs); [done|].
  destruct (entropy_bytes n) as [k| | |] eqn:En; [|done..]. rewrite sbind_lift_Ok.
  destruct (from_entropy (random k)) as [m|] eqn:Em; [|done]. cbn [ok_or]. rewrite sbind_lift_Ok.
  destruct (wallet_of _ _ _) as [w0| | |] eqn:Ew; [|done..]. rewrite sbind_lift_Ok.
  destruct (save_to_cases f w0 fs) as [(json & HE & HJ & E)|(e & fs1 & E & _)]; unfold sbind; rewrite E; [|done].
  intros [= <- <- <-]. exists m, (random k), json, (take 32 (to_seed m)).
  split; [|by repeat split]. unfold entropy_bytes in En.
  destruct (N.eqb_spec n 12), (N.eqb_spec n 24); [by left|by left|by right|done].
Qed.

(** A wallet made with a mnemonic has a key pair, an address and a file that
    belong together, and its phrase, with whatever white space between the words,
    restores the same wallet on any disk, unless the disk fails or a file is in
    the way. *)
Theorem wallet_restores (f : Faults) (random : nat → list byte) (overwrite : bool) (n : N) (fs fs' : Files) (w : WalletFile) (phrase : list byte) :
  generate_with_mnemonic f random overwrite n fs = (fs', Ok (w, phrase)) →
  (∃ seed, belongs seed w ∧ signing_key w = Ok seed ∧ p2pkh_locking_script w = Ok (p2pkh_script (blake3 (verifying_key seed)))) ∧
  mnemonic w = Some phrase ∧ load_from no_faults fs' = (fs', Ok w) ∧
  ∀ spelled f2 overwrite2 fs2, split_whitespace spelled = split_whitespace phrase →
    match restore_from_mnemonic f2 spelled overwrite2 fs2 with
    | (fs2', Ok w2) => w2 = w ∧ load_from no_faults fs2' = (fs2', Ok w)
    | (fs2', Err e) => target fs2' = target fs2 ∧
        (e = FileAlreadyExists ∧ refuses overwrite2 fs2 = true ∨ ∃ step, e = WalletIo step ∧ fails f2 step = true)
    | _ => False
    end.
Proof.
  intros H. apply generated in H as (m & entropy & json & seed & Hn & He & -> & -> & Hw & HJ & ->).
  assert (Hlen : length (take 32 (to_seed m)) = 32%nat) by (rewrite length_take, seed_length; lia).
  destruct (wallet_of_Ok 2 (Some (phrase_of m)) (take 32 (to_seed m))) as (addr & Hw' & Ha). rewrite Hw' in Hw. injection Hw as <-.
  set (w := mkWalletFile _ _ _ _ _ _ _ _) in *.
  assert (Hb : belongs (take 32 (to_seed m)) w) by by split.
  split. { eexists. split; [exact Hb|]. split; [by apply signing_key_plain|by apply belongs_lock]. }
  split; [done|]. split; [by apply load_from_saved|].
  intros spelled f2 overwrite2 fs2 Hs. destruct (phrase_words m) as (words & Ep & HF).
  unfold restore_from_mnemonic. rewrite sbind_sget. destruct (refuses overwrite2 fs2) eqn:ER.
  { cbn. split; [done|]. by left. }
  rewrite Hs, Ep, split_join, <- Ep, phrase_parses by done. cbn [ok_or]. rewrite sbind_lift_Ok, Hw', sbind_lift_Ok. fold w.
  destruct f2 as [fl rm part], fs2 as [old tmp].
  unfold save_to. rewrite (plain_not_exposed w) by done.
  unfold wallet_io, sbind, slift, sget, smodify, sret. cbn [fails remove_fails partial target temporary Datatypes.id]. rewrite HJ. cbn [ok_or].
  destruct (fl CreateDir) eqn:F1; [split; [done|]; right; by eexists|].
  destruct (fl OpenTemporary) eqn:F2; [split; [done|]; right; by eexists|].
  destruct (fl WriteAll) eqn:F3; [split; [done|]; right; by eexists|].
  destruct (fl Rename) eqn:F4; [split; [done|]; right; by eexists|].
  split; [done|]. cbn [temporary from_option fmap option_fmap option_map]. by apply load_from_saved.
Qed.

(** An encrypted wallet holds no secret: its key comes out under the PIN alone.
    Saved, it is the file that holds none, or the file is as it was; and a wallet
    with its secrets beside the envelope is not saved at all, and cleared when it
    is loaded. *)
Theorem encrypted_wallet_sealed (status salt nonce : option (list byte)) (pin seed : list byte) (w w' : WalletFile) :
  private_key w = Some (to_hex seed) → length seed = 32%nat → wallet_encrypt status salt nonce pin w = Ok w' →
  private_key w' = None ∧ mnemonic w' = None ∧ public_key w' = public_key w ∧ address w' = address w ∧
  signing_key w' = Err MissingPrivateKey ∧
  (∀ status', is_being_traced status' = false → signing_key_with_pin status' pin w' = Ok seed) ∧
  (∀ f fs, match save_to f w' fs with
           | (fs', Ok _) => load_from no_faults fs' = (fs', Ok w')
           | (fs', Err _) => target fs' = target fs
           | _ => False
           end) ∧
  (∀ f x fs, exposed x = true → save_to f x fs = (fs, Err EncryptedWalletContainsPlaintext)) ∧
  (∀ f fs fs' x, load_from f fs = (fs', Ok x) → exposed x = false ∧ file_exposed fs' = false).
Proof.
  intros Hp Hl HE. destruct (wallet_encrypt_Ok _ _ _ _ _ _ _ Hp Hl HE) as (env & -> & HD).
  do 5 (split; [done|]). split; [exact HD|]. split; [|split].
  - intros f fs. destruct (save_to_cases f (mkWalletFile (w_version w) None None (public_key w) (address w) (w_account_number w) (w_passbook_id w) (Some env)) fs)
      as [(json & HX & HJ & ->)|(e & fs' & -> & Ht & _)]; [by apply load_from_saved|done].
  - intros f x fs Hx. unfold save_to. by rewrite Hx.
  - intros f fs fs' x. apply load_exposed.
Qed.
End properties.

(** ** Registration at a gateway *)

Definition status_code (s : StatusCode) : N :=
  match s with BAD_REQUEST => 400 | UNAUTHORIZED => 401 | CONFLICT => 409 | INTERNAL_SERVER_ERROR => 500 | CREATED => 201 | NOT_FOUND => 404 end.

Section registration.
Context {SJ : SidecarJson} {BE : Bech32} {BL : Bech32Laws} {B3 : Blake3} `{SL : Ed25519SignLaws} {KC : KeyCipher}.

(** The gateway of a node as the other side; a handler that panics answers
    nothing. *)
Definition gateway_post (f : Faults) (payload : AliasBindRequest) (g : AliasStore * Files) : AliasStore * Files * BindReply :=
  let '(g, r) := bind_alias f payload g in
  (g, match r with
      | Ok resp => Bound (account_number resp) (resp_passbook_id resp)
      | Err (status, _) => StatusReply (status_code status)
      | _ => TransportFailure
      end).

(** Not free for the passbook [id]. *)
Definition taken (s : AliasStore) (id : list byte) (a : AccountNumber) : Prop :=
  match by_account a s with Some other => other ≠ id | None => is_Some (by_passbook id s) end.

Section wallet.
Variables (seed : list byte) (w : WalletFile).
Hypothesis Hw : belongs seed w.
Let key := verifying_key seed.
Let candidate (i : N) : AccountNumber := derive_candidate key (address w) i.
Let attempt (i : N) : AliasBindRequest := bind_request seed key key (address w) i.

Lemma address_nonempty : trim (address w) ≠ [].
Proof using Hw.
  intros E. destruct Hw as [_ Ha]. unfold address_parse in Ha. rewrite E in Ha. discriminate Ha.
Qed.

Lemma attempt_checks i : check_bind (attempt i) = Ok (candidate i).
Proof using Hw SL.
  unfold check_bind, attempt, bind_request. cbn [req_candidate passbook_id req_public_key req_signature].
  rewrite derived_valid. cbn [map_err obind]. rewrite bool_decide_eq_false_2 by apply address_nonempty.
  destruct Hw as [_ Ha]. rewrite from_to_hex. cbn [map_err obind].
  destruct (hash_of_list_is_Some key (verifying_key_length seed)) as [pk Ek]. rewrite Ek.
  apply hash_of_list_Some in Ek. cbn [ok_or obind default]. rewrite Ha. cbn [map_err obind]. rewrite new_hrp. cbn [address_hash]. rewrite Ek.
  unfold key at 1. rewrite bool_decide_eq_true_2 by done. cbn [negb]. rewrite signature_length. cbn [Nat.eqb negb].
  destruct (signs seed) as (vk & Hvk & Hs). unfold key at 1. rewrite Hvk. cbn [ok_or obind]. destruct (Hs (bind_message pk (address w) (derive_candidate key (address w) i))) as [Hv _]. cbn [from_option id] in *. unfold id. by rewrite Hv.
Qed.

(** One attempt: refused with 409 when the number is taken, else bound unless
    the store fails. *)
Lemma attempt_cases f i s fs :
  consistent (store_data s) →
  (taken s (address w) (candidate i) ∧ gateway_post f (attempt i) (s, fs) = (s, fs, StatusReply 409)) ∨
  (¬ taken s (address w) (candidate i) ∧
   ((∃ s' fs', gateway_post f (attempt i) (s, fs) = (s', fs', Bound (candidate i) (address w)) ∧
       by_account (candidate i) s' = Some (address w) ∧ consistent (store_data s') ∧
       (∀ a id, by_account a s = Some id → by_account a s' = Some id) ∧
       (is_Some (by_passbook (address w) s) → s' = s ∧ fs' = fs)) ∨
    by_passbook (address w) s = None ∧ ∃ fs', gateway_post f (attempt i) (s, fs) = (s, fs', StatusReply 500))).
Proof using Hw SL.
  intros HC. unfold gateway_post. rewrite (bind_alias_accepted _ _ _ _ _ (attempt_checks i)).
  unfold taken. change (passbook_id (attempt i)) with (address w).
  pose proof (bind_cases f (candidate i) (address w) s fs) as HB. pose proof (bind_keeps f (candidate i) (address w) s fs HC) as HK.
  destruct (bind f (candidate i) (address w) (s, fs)) as [[s' fs'] r]. cbn [fst] in HK. destruct HK as (HC' & _ & HK).
  destruct (by_account (candidate i) s) as [other|] eqn:Ea.
  - case_bool_decide as Eo; cbn [negb]; [|left; by split]. right. split; [naive_solver|]. left. destruct r as [[]|e| |]; [| |done..].
    + destruct HB as (_ & _ & [(Ha & -> & ->)|(Ha & _)]); [|done]. exists s, fs. by subst.
    + destruct HB as [_ HB]. destruct e; try naive_solver. exfalso. destruct HB as [HB _]. by apply address_nonempty.
  - destruct r as [[]|e| |]; [| |done..].
    + destruct HB as (_ & _ & [(Ha & _)|(_ & Hb & Hd & _)]); [done|]. right. split; [rewrite Hb; by intros [? ?]|]. left. exists s', fs'.
      split; [done|]. split; [unfold by_account; rewrite Hd; apply lookup_insert_eq|]. split; [done|]. split; [done|]. rewrite Hb. by intros [? ?].
    + destruct HB as [-> HB]. cbn [map_err obind].
      destruct e; cbn [store_status status_code].
      1,2,6: destruct HB as (_ & _ & Hn & _); right; (split; [rewrite Hn; by intros [? ?]|]); right; (split; [done|]); by exists fs'.
      * destruct HB as (_ & _ & other & Ho & _). congruence.
      * left. destruct HB as (_ & -> & _ & other & ->). by split.
      * destruct HB as [HB _]. by destruct address_nonempty.
Qed.

Lemma register_loop_spec f attempts n s fs :
  consistent (store_data s) →
  match register_loop (gateway_post f) attempts n seed key key (address w) w (s, fs) with
  | (s', fs', Ok (w', registered)) => registered = true ∧
      ∃ i, n ≤ i < n + N.of_nat attempts ∧ w' = with_account (candidate i) (address w) w ∧
        (∀ j, n ≤ j < i → taken s (address w) (candidate j)) ∧ by_account (candidate i) s' = Some (address w) ∧
        consistent (store_data s') ∧ (∀ a id, by_account a s = Some id → by_account a s' = Some id) ∧
        (is_Some (by_passbook (address w) s) → s' = s ∧ fs' = fs)
  | (s', fs', Err e) => s' = s ∧
      (e = RegistrationFailed 500 ∧ by_passbook (address w) s = None ∨ e = NumbersTaken ∧ ∀ i, n ≤ i < n + N.of_nat attempts → taken s (address w) (candidate i))
  | _ => False
  end.
Proof using Hw SL.
  intros HC. revert n. induction attempts as [|attempts IH]; intros n; cbn [register_loop].
  { cbn. split; [done|]. right. split; [done|]. lia. }
  fold (attempt n). destruct (attempt_cases f n s fs HC) as [[Ht ->]|[Hn [(s' & fs' & -> & Hb & HC' & HK & HS)|(Hp & fs' & ->)]]].
  - cbn [N.eqb Pos.eqb]. specialize (IH (n + 1)).
    destruct (register_loop _ _ _ _ _ _ _ _ _) as [[s' fs'] [[w' registered]|e| |]]; [| |done..].
    + destruct IH as (-> & i & Hi & -> & Hj & H). split; [done|]. exists i. split; [lia|]. split; [done|]. split; [|done].
      intros j Hj'. destruct (N.eq_dec j n) as [->|]; [done|apply Hj; lia].
    + destruct IH as (-> & [[-> Hp]|[-> Hj]]); (split; [done|]); [by left|right]. split; [done|].
      intros i Hi. destruct (N.eq_dec i n) as [->|]; [done|apply Hj; lia].
  - split; [done|]. exists n. split; [lia|]. split; [done|]. split; [lia|]. done.
  - cbn. split; [done|]. by left.
Qed.

(** A wallet that opens registers at a node with the first of its ten numbers
    that is not taken, fails when they all are, or when the store of the node
    does. Registering again, after whatever the store failed to do before, gives
    the number it has. *)
Theorem registration_spec (f : Faults) (status : option (list byte)) (pin : list byte) (s : AliasStore) (fs : Files) :
  signing_key_with_pin status pin w = Ok seed → consistent (store_data s) →
  match register_account (gateway_post f) status pin w (s, fs) with
  | (s', fs', Ok (w', registered)) => registered = true ∧
      ∃ i, i < 10 ∧ w' = with_account (candidate i) (address w) w ∧ (∀ j, j < i → taken s (address w) (candidate j)) ∧
        by_account (candidate i) s' = Some (address w) ∧
        ∀ f', register_account (gateway_post f') status pin w (s', fs') = (s', fs', Ok (w', true))
  | (s', fs', Err e) => s' = s ∧
      (e = RegistrationFailed 500 ∨ e = NumbersTaken ∧ ∀ i, i < 10 → taken s (address w) (candidate i))
  | _ => False
  end.
Proof using Hw SL.
  intros Hk HC.
  assert (HR : ∀ f s fs, register_account (gateway_post f) status pin w (s, fs) = register_loop (gateway_post f) 10 0 seed key key (address w) w (s, fs)).
  { intros f' s0 fs0. unfold register_account. rewrite (proj1 Hw), from_to_hex. cbn [map_err]. rewrite sbind_lift_Ok.
    rewrite (belongs_public seed w Hw). cbn [map_err]. rewrite sbind_lift_Ok, Hk. cbn [map_err]. by rewrite sbind_lift_Ok. }
  rewrite HR. pose proof (register_loop_spec f 10 0 s fs HC) as H.
  destruct (register_loop _ _ _ _ _ _ _ _ _) as [[s' fs'] [[w' registered]|e| |]]; [| |done..].
  - destruct H as (-> & i & Hi & -> & Hj & Hb & HC' & HK & HS). split; [done|]. exists i.
    split; [lia|]. split; [done|]. split; [intros j ?; apply Hj; lia|]. split; [done|]. intros f'. rewrite HR.
    pose proof (register_loop_spec f' 10 0 s' fs' HC') as H.
    assert (Hpb : by_passbook (address w) s' = Some (candidate i)) by by apply HC'.
    destruct (register_loop _ _ _ _ _ _ _ _ _) as [[s2 fs2] [[w2 registered]|e| |]]; [| |done..].
    + destruct H as (-> & k & Hk' & -> & Hj2 & Hb2 & HC2 & HK2 & HS2). destruct HS2 as [-> ->]; [by eexists|].
      assert (candidate k = candidate i) as ->; [|done]. apply HC' in Hb2. unfold by_passbook in Hpb. congruence.
    + exfalso. destruct H as [-> [[-> Hp]|[-> Ht]]]; [congruence|].
      specialize (Ht i ltac:(lia)). unfold taken in Ht. by rewrite Hb in Ht.
  - destruct H as [-> [[-> _]|[-> Ht]]]; (split; [done|]); [by left|right]. split; [done|]. intros i Hi. apply Ht. lia.
Qed.
End wallet.
End registration.

(** ** New wallets *)

Section new_wallets.
Context {WJ : WalletJson} {WL : WalletJsonLaws} {BE : Bech32} {BL : Bech32Laws} {B3 : Blake3}.
Context `{SL : Ed25519SignLaws} {BM : Bip39} {ML : Bip39Laws} {KC : KeyCipher} {KL : KeyCipherLaws}.
Context {G : Type} (post : AliasBindRequest → G → G * BindReply).

(** A plain wallet: its secret is in it, and it is in the file. *)
Definition plain_wallet (seed : list byte) (w : WalletFile) : Prop :=
  belongs seed w ∧ private_key w = Some (to_hex seed) ∧ length seed = 32%nat ∧ encrypted_key w = None.

Lemma create_wallet_cases sys f force with_mnemonic words fs :
  (∀ n, length (random sys n) = n) →
  match create_wallet sys f force with_mnemonic words fs with
  | (fs', Ok w) => ∃ seed, plain_wallet seed w ∧ ∀ fs2, target fs2 = target fs' → load_from no_faults fs2 = (fs2, Ok w)
  | (fs', Err _) => target fs' = target fs
  | _ => False
  end.
Proof using BL SL WL ML.
  intros Hr.
  assert (HC : ∀ version phrase seed, length seed = 32%nat → ∃ w, wallet_of version phrase seed = Ok w ∧ plain_wallet seed w ∧
    match save_to f w fs with
    | (fs', Ok _) => ∀ fs2, target fs2 = target fs' → load_from no_faults fs2 = (fs2, Ok w)
    | (fs', Err _) => target fs' = target fs
    | _ => False
    end).
  { intros version phrase seed Hl. destruct (wallet_of_Ok version phrase seed) as (addr & -> & Ha). eexists. split; [done|]. split; [by split|].
    match goal with |- context [save_to f ?w fs] => destruct (save_to_cases f w fs) as [(json & HE & HJ & ->)|(e & fs' & -> & Ht & _)] end; [|done].
    intros [t2 tmp2] Et. cbn [target] in Et. subst t2. by apply load_from_saved. }
  unfold create_wallet. destruct with_mnemonic; unfold generate_with_mnemonic, generate_new.
  - rewrite sbind_assoc, sbind_sget. destruct (refuses force fs); [done|].
    rewrite sbind_assoc. unfold entropy_bytes. destruct (words =? 12); [|destruct (words =? 24); [|done]].
    all: rewrite sbind_lift_Ok, sbind_assoc; destruct (from_entropy _) as [m|]; [|done]; cbn [ok_or]; rewrite sbind_lift_Ok, sbind_assoc.
    all: destruct (HC 2 (Some (phrase_of m)) (take 32 (to_seed m))) as (w & -> & Hp & HS); [rewrite length_take, seed_length; lia|].
    all: rewrite sbind_lift_Ok; unfold sbind; destruct (save_to f w fs) as [fs' [[]|e| |]]; [|done..]; cbn; by eexists.
  - rewrite sbind_sget. destruct (refuses force fs); [done|].
    destruct (HC 1 None (random sys 32%nat)) as (w & -> & Hp & HS); [done|]. unfold wallet_io. destruct (fails f CreateDir); [done|].
    rewrite sbind_smodify, sbind_lift_Ok. unfold sbind, Datatypes.id. destruct (save_to f w fs) as [fs' [[]|e| |]]; [|done..]. by eexists.
Qed.

Lemma register_loop_same attempts n seed key key_id id w g :
  match register_loop post attempts n seed key key_id id w g with
  | (_, Ok (w', _)) => w' = w ∨ ∃ a p, w' = with_account a p w
  | (_, Err _) => True
  | _ => False
  end.
Proof.
  revert n g. induction attempts as [|attempts IH]; intros n g; cbn [register_loop]; [done|].
  destruct (post _ g) as [g' []]; [right; by eexists _, _|done| |by left].
  destruct (_ =? 409); [apply IH|done].
Qed.

(** C40: A new wallet that is reported is in the file, without a secret, and opens
    under the PIN: the phrase of the mnemonic is nowhere then. When anything
    fails after the wallet was first saved, be it the encryption, the
    registration at the node or the second save, the file that stays has the
    private key in plain text. *)
Theorem new_wallet_spec (sys : System) (f1 f2 : Faults) (pin : outcome CliError (list byte)) (force with_mnemonic : bool) (words : N)
    (fs : Files) (g : G) :
  (∀ n, length (random sys n) = n) → returns pin →
  match wallet_new post sys f1 f2 pin force with_mnemonic words (fs, g) with
  | (fs', g', Ok (w, registered)) =>
      private_key w = None ∧ mnemonic w = None ∧ load_from no_faults fs' = (fs', Ok w) ∧
      ∃ p seed, pin = Ok p ∧ belongs seed w ∧ ∀ status, is_being_traced status = false → signing_key_with_pin status p w = Ok seed
  | (fs', g', Err e) =>
      target fs' = target fs ∧ (is_ok pin = false ∨ is_ok (create_wallet sys f1 force with_mnemonic words fs).2 = false) ∨
      ∃ w seed, load_from no_faults fs' = (fs', Ok w) ∧ belongs seed w ∧ signing_key w = Ok seed
  | _ => False
  end.
Proof using BL KL ML SL WL.
  intros Hr Hpin. unfold wallet_new. destruct pin as [p|e| |]; [|by left; split; [|left]|by destruct Hpin..].
  rewrite sbind_lift_Ok. pose proof (create_wallet_cases sys f1 force with_mnemonic words fs Hr) as HC.
  unfold sbind at 1, on_files at 1. destruct (create_wallet sys f1 force with_mnemonic words fs) as [fs1 [w|e| |]]; [|by left; split; [|right]|done..].
  cbn [map_err]. destruct HC as (seed & (Hb & Hp & Hl & He) & HL).
  assert (Hleft : ∀ fs2 : Files, target fs2 = target fs1 → ∃ w0 seed0, load_from no_faults fs2 = (fs2, Ok w0) ∧ belongs seed0 w0 ∧ signing_key w0 = Ok seed0).
  { intros fs2 Et. exists w, seed. split; [by apply HL|]. split; [done|by apply signing_key_plain]. }
  pose proof (wallet_encrypt_Ok (proc_status sys) (random_salt sys) (random_nonce sys) p w) as HE.
  destruct (wallet_encrypt _ _ _ _ _) as [we|e| |] eqn:Ee; [|by right; apply Hleft|..].
  2,3: exfalso; unfold wallet_encrypt in Ee; rewrite Hp in Ee; cbn [ok_or obind] in Ee; rewrite from_to_hex in Ee; cbn [map_err obind] in Ee;
       pose proof (vault_roundtrip (proc_status sys) None (random_salt sys) (random_nonce sys) seed p) as HV; by destruct (encrypt_key _ _ _ _ _).
  destruct (HE we seed Hp Hl eq_refl) as (env & -> & HD). clear HE. cbn [map_err]. rewrite sbind_lift_Ok.
  set (we := mkWalletFile _ _ _ _ _ _ _ _) in *.
  assert (Ht : is_being_traced (proc_status sys) = false).
  { unfold wallet_encrypt, encrypt_key in Ee. rewrite Hp in Ee. cbn [ok_or obind] in Ee. rewrite from_to_hex in Ee. cbn [map_err obind] in Ee.
    by destruct (is_being_traced _). }
  assert (Hbe : belongs seed we) by exact Hb.
  unfold sbind at 1, on_net, register_account. rewrite (proj1 Hbe), from_to_hex. cbn [map_err]. rewrite sbind_lift_Ok.
  rewrite (belongs_public seed we Hbe). cbn [map_err]. rewrite sbind_lift_Ok, (HD _ Ht). cbn [map_err]. rewrite sbind_lift_Ok.
  pose proof (register_loop_same 10 0 seed (verifying_key seed) (verifying_key seed) (address we) we g) as HR.
  destruct (register_loop post 10 0 _ _ _ _ _ g) as [g' [[w' registered]|e| |]]; [|by right; apply Hleft|done..].
  assert (Hw' : exposed w' = false ∧ private_key w' = None ∧ mnemonic w' = None ∧ belongs seed w' ∧
    ∀ status, is_being_traced status = false → signing_key_with_pin status p w' = Ok seed).
  { destruct HR as [->|(a & q & ->)]; (do 3 (split; [done|])); (split; [exact Hbe|exact HD]). }
  destruct Hw' as (HX & H1 & H2 & H3 & H4).
  unfold sbind, on_files. destruct (save_to_cases f2 w' fs1) as [(json & _ & HJ & ->)|(e & fs' & -> & Et & _)]; cbn [map_err].
  - split; [done|]. split; [done|]. split; [by apply load_from_saved|]. by exists p, seed.
  - right. by apply Hleft.
Qed.
End new_wallets.

(** ** Witnesses *)

(** A toy signature: the key and the message, cut to its length. *)
Definition pad (n : nat) (s : list byte) : list byte := take n (s ++ replicate n x00).
Lemma length_pad n s : length (pad n s) = n.
Proof. unfold pad. rewrite length_take, length_app, length_replicate. lia. Qed.
Definition wallet_ed25519 : Ed25519 := {|
  VerifyingKey := list byte;
  vk_from_bytes := Some;
  verify_strict := λ vk message signature, bool_decide (signature = pad 64 (vk ++ message))
|}.
Definition wallet_verify : Ed25519Verify (ED := wallet_ed25519) := λ vk message signature, bool_decide (signature = pad 64 (vk ++ message)).
Definition wallet_sign : Ed25519Sign (ED := wallet_ed25519) (EV := wallet_verify) :=
  Build_Ed25519Sign wallet_ed25519 wallet_verify (pad 32) (λ seed message, pad 64 (pad 32 seed ++ message)).
Lemma wallet_sign_laws : Ed25519SignLaws (ES := wallet_sign).
Proof.
  split; intros; cbn; [by rewrite length_pad..|]. exists (pad 32 seed). split; [done|].
  intros message. unfold verify, wallet_verify. by rewrite bool_decide_eq_true_2.
Qed.

(** A phrase of one word, the entropy in hexadecimal. *)
Definition toy_bip39 : Bip39 := {|
  Mnemonic := list byte;
  from_entropy := Some;
  phrase_of := to_hex;
  parse_in_normalized s := match from_hex s with Ok m => Some m | _ => None end;
  to_seed := pad 64
|}.
Lemma toy_bip39_laws : Bip39Laws (BM := toy_bip39).
Proof.
  split; intros m; cbn.
  - apply length_pad.
  - by rewrite from_to_hex.
  - destruct m as [|b m]; [by exists []|]. exists [to_hex (b :: m)]. split; [done|]. apply Forall_singleton. split; [|apply hex_graphic].
    intros E%(f_equal length). by rewrite length_to_hex in E.
Qed.

(** Fields, each with its length. *)
Definition put (o : option (list byte)) : list byte :=
  match o with None => [x00] | Some l => x01 :: byte_of (N.of_nat (length l)) :: l end.
Fixpoint gets (fuel : nat) (s : list byte) : option (list (option (list byte))) :=
  match fuel, s with
  | _, [] => Some []
  | S fuel, x00 :: s => l ← gets fuel s; Some (None :: l)
  | S fuel, x01 :: n :: s => l ← gets fuel (drop (N.to_nat (Byte.to_N n)) s); Some (Some (take (N.to_nat (Byte.to_N n)) s) :: l)
  | _, _ => None
  end.
Definition envelope_fields (e : option EncryptedKeyEnvelope) : list (option (list byte)) :=
  match e with
  | None => []
  | Some e => [Some [byte_of (version e)]; Some (salt e); Some (nonce e); Some (ciphertext e)]
  end.
Definition read_wallet (s : list byte) : option WalletFile :=
  match gets (length s) s with
  | Some (Some [v] :: m :: p :: Some k :: Some a :: n :: i :: rest) =>
      let w := mkWalletFile (Byte.to_N v) m p k a n i in
      match rest with
      | [] => Some (w None)
      | [Some [ev]; Some es; Some en; Some ec] => Some (w (Some (mkEncryptedKeyEnvelope (Byte.to_N ev) es en ec)))
      | _ => None
      end
  | _ => None
  end.
Definition toy_wallet_json : WalletJson := {|
  wallet_from_json := read_wallet;
  wallet_to_json w :=
    let bytes := concat (put <$> [Some [byte_of (w_version w)]; mnemonic w; private_key w; Some (public_key w); Some (address w);
                                  w_account_number w; w_passbook_id w] ++ envelope_fields (encrypted_key w)) in
    if bool_decide (read_wallet bytes = Some w) then Some bytes else None
|}.
Lemma toy_wallet_json_laws : WalletJsonLaws (WJ := toy_wallet_json).
Proof. split. intros w bytes. cbn. case_bool_decide as E; [|done]. by intros [= <-]. Qed.

#[local] Existing Instances toy_blake3 toy_bech32 toy_bech32_laws toy_cipher toy_cipher_laws wallet_ed25519 wallet_verify wallet_sign
  wallet_sign_laws toy_bip39 toy_bip39_laws toy_wallet_json toy_wallet_json_laws toy_sidecar_json.

Definition toy_random (n : nat) : list byte := pad n [x07; x08].
Definition toy_system : System := mkSystem toy_random None (Some [x01]) (Some [x02]).
Definition no_file : Files := mkFiles None None.
Definition toy_mnemonic_run : Files * outcome WalletError (WalletFile * list byte) := generate_with_mnemonic no_faults toy_random false 12 no_file.
Definition toy_wallet : WalletFile := match toy_mnemonic_run.2 with Ok (w, _) => w | _ => mkWalletFile 0 None None [] [] None None None end.
Definition toy_phrase : list byte := match toy_mnemonic_run.2 with Ok (_, p) => p | _ => [] end.
Lemma toy_generated : toy_mnemonic_run = (toy_mnemonic_run.1, Ok (toy_wallet, toy_phrase)).
Proof.
  assert (H : is_ok toy_mnemonic_run.2 = true) by (vm_compute; reflexivity). unfold toy_wallet, toy_phrase.
  revert H. generalize toy_mnemonic_run. intros [fs [[w p]|e| |]] H; [reflexivity|discriminate H..].
Qed.

(** The phrase with spaces around it restores the wallet on an empty disk. *)
Lemma wallet_restores_witness :
  toy_mnemonic_run = (toy_mnemonic_run.1, Ok (toy_wallet, toy_phrase)) ∧
  split_whitespace (x20 :: toy_phrase ++ [x0a]) = split_whitespace toy_phrase ∧
  match restore_from_mnemonic no_faults (x20 :: toy_phrase ++ [x0a]) false no_file with
  | (fs, Ok w) => w = toy_wallet ∧ load_from no_faults fs = (fs, Ok toy_wallet)
  | (fs, Err e) => target fs = target no_file ∧
      (e = FileAlreadyExists ∧ refuses false no_file = true ∨ ∃ step, e = WalletIo step ∧ fails no_faults step = true)
  | _ => False
  end.
Proof.
  assert (HS : split_whitespace (x20 :: toy_phrase ++ [x0a]) = split_whitespace toy_phrase) by (vm_compute; reflexivity).
  split; [exact toy_generated|]. split; [exact HS|].
  exact (proj2 (proj2 (proj2 (wallet_restores no_faults toy_random false 12 no_file toy_mnemonic_run.1 toy_wallet toy_phrase toy_generated)))
    (x20 :: toy_phrase ++ [x0a]) no_faults false no_file HS).
Defined.

Definition toy_seed : list byte := pad 32 (toy_random 16).
Definition toy_encrypted : outcome WalletError WalletFile := wallet_encrypt None (Some [x01]) (Some [x02]) DEFAULT_PIN toy_wallet.
Definition toy_sealed : WalletFile := match toy_encrypted with Ok w => w | _ => toy_wallet end.
Lemma toy_encrypts : toy_encrypted = Ok toy_sealed.
Proof.
  assert (H : is_ok toy_encrypted = true) by (vm_compute; reflexivity). unfold toy_sealed.
  revert H. generalize toy_encrypted. intros [] H; [reflexivity|discriminate H..].
Qed.
Lemma toy_private : private_key toy_wallet = Some (to_hex toy_seed).
Proof. vm_compute. reflexivity. Qed.
Lemma encrypted_wallet_sealed_witness :
  private_key toy_wallet = Some (to_hex toy_seed) ∧ length toy_seed = 32%nat ∧
  wallet_encrypt None (Some [x01]) (Some [x02]) DEFAULT_PIN toy_wallet = Ok toy_sealed ∧
  private_key toy_sealed = None ∧ mnemonic toy_sealed = None.
Proof.
  split; [exact toy_private|]. split; [reflexivity|]. split; [exact toy_encrypts|].
  assert (HE : wallet_encrypt None (Some [x01]) (Some [x02]) DEFAULT_PIN toy_wallet = Ok toy_sealed) by exact toy_encrypts.
  pose proof (encrypted_wallet_sealed (WJ := toy_wallet_json) (KC := toy_cipher) None (Some [x01]) (Some [x02]) DEFAULT_PIN toy_seed toy_wallet toy_sealed toy_private eq_refl HE) as (H1 & H2 & _).
  split; [exact H1|exact H2].
Defined.

Lemma toy_belongs : belongs toy_seed toy_wallet.
Proof.
  assert (H : bool_decide (public_key toy_wallet = to_hex (verifying_key toy_seed)) &&
    match address_parse (address toy_wallet) with Ok a => bool_decide (a = Address_new (blake3 (verifying_key toy_seed))) | _ => false end = true)
    by (vm_compute; reflexivity).
  apply andb_true_iff in H as [H1 H2]. split; [exact (bool_decide_eq_true_1 _ H1)|].
  destruct (address_parse (address toy_wallet)) as [a| | |]; [|discriminate H2..]. apply bool_decide_eq_true_1 in H2. rewrite H2. reflexivity.
Qed.
Lemma registration_spec_witness :
  belongs toy_seed toy_wallet ∧ signing_key_with_pin None DEFAULT_PIN toy_wallet = Ok toy_seed ∧ consistent (store_data in_memory) ∧
  match register_account (gateway_post no_faults) None DEFAULT_PIN toy_wallet (in_memory, no_file) with
  | (_, Ok (w, registered)) => registered = true ∧ address w = address toy_wallet
  | (s, fs, Err e) => s = in_memory
  | _ => False
  end.
Proof.
  assert (HC : consistent (store_data in_memory)) by (intros a id; cbn; rewrite !lookup_empty; split; intros H; discriminate H).
  assert (HK : signing_key_with_pin None DEFAULT_PIN toy_wallet = Ok toy_seed).
  { apply signing_key_pin_plain; [exact toy_private|vm_compute; reflexivity|reflexivity]. }
  split; [exact toy_belongs|]. split; [exact HK|]. split; [exact HC|].
  pose proof (registration_spec toy_seed toy_wallet toy_belongs no_faults None DEFAULT_PIN in_memory no_file HK HC) as H.
  destruct (register_account _ _ _ _ _) as [[s fs] [[w registered]|e| |]]; [|exact (proj1 H)|exact H|exact H].
  destruct H as (-> & i & _ & -> & _). split; reflexivity.
Defined.

(** A node that answers an error. *)
Definition refusing (payload : AliasBindRequest) (g : unit) : unit * BindReply := (g, StatusReply 500).
Lemma new_wallet_spec_witness :
  (∀ n, length (random toy_system n) = n) ∧ returns (Ok (E := CliError) DEFAULT_PIN) ∧
  match wallet_new refusing toy_system no_faults no_faults (Ok DEFAULT_PIN) false true 12 (no_file, tt) with
  | (fs, Err e) => e = RegistrationFailed 500 ∧
      (target fs.1 = target no_file ∧ (is_ok (Ok (E := CliError) DEFAULT_PIN) = false ∨ is_ok (create_wallet toy_system no_faults false true 12 no_file).2 = false) ∨
       ∃ w seed, load_from no_faults fs.1 = (fs.1, Ok w) ∧ belongs seed w ∧ signing_key w = Ok seed)
  | _ => False
  end.
Proof.
  assert (HR : ∀ n, length (random toy_system n) = n) by (intros n; apply length_pad).
  assert (HP : returns (Ok (E := CliError) DEFAULT_PIN)) by (split; discriminate).
  split; [exact HR|]. split; [exact HP|].
  assert (HE : match wallet_new refusing toy_system no_faults no_faults (Ok DEFAULT_PIN) false true 12 (no_file, tt) with
    | (_, Err (RegistrationFailed code)) => code =? 500 | _ => false end = true) by (vm_compute; reflexivity).
  pose proof (new_wallet_spec refusing toy_system no_faults no_faults (Ok DEFAULT_PIN) false true 12 no_file tt HR HP) as H.
  destruct (wallet_new _ _ _ _ _ _ _ _ _) as [[fs g] [[w registered]|e| |]]; [discriminate HE| |discriminate HE|discriminate HE].
  split; [|exact H]. destruct e; try discriminate HE. apply N.eqb_eq in HE as ->. reflexivity.
Defined.
