(* ===== verification/Authorization.v ===== *)
(** * Authorization of transaction inputs

    [crates/scytale-core/src/authorization.rs]: the check of every input of a
    transaction against the output it spends, and the verifier that runs the
    scripts. *)

From S2P Require Import Prelude Bytes Primitives Stack Types Codec Transaction Utxo Merkle Genesis Script.
Local Open Scope N_scope.
Local Open Scope scy_scope.

(** The trait [AuthorizationVerifier]: digest, locking condition, proof. *)
Class AuthorizationVerifier :=
  authorization_verify : Hash → list byte → list byte → outcome AuthorizationError unit.

Section authorization.
Context {B3 : Blake3} {AV : AuthorizationVerifier}.

(** The loop over the inputs, from [index] on. *)
Fixpoint authorize_inputs (tx : Transaction) (resolved_utxos : list UtxoEntry) (index : N)
    (ins : list TxIn) : outcome AuthorizationError unit :=
  match ins with
  | [] => Ok tt
  | input :: ins =>
      if bool_decide (authorization input = []) then Err EmptyAuthorization
      else
        let? utxo := expect (resolved_utxos !! N.to_nat index) in
        let locking := locking_condition (output utxo) in
        let sighash := compute_sighash tx index locking in
        let? _ := authorization_verify sighash locking (authorization input) in
        authorize_inputs tx resolved_utxos (index + 1) ins
  end.

Definition verify_transaction_authorization (tx : Transaction) (resolved_utxos : list UtxoEntry) :
    outcome AuthorizationError unit :=
  if negb (length (inputs tx) =? length resolved_utxos)%nat
  then Err (MismatchedUtxoCount (N.of_nat (length (inputs tx))) (N.of_nat (length resolved_utxos)))
  else authorize_inputs tx resolved_utxos 0 (inputs tx).
End authorization.

(** [ConsensusScriptVerifier::verify]. *)
Definition ConsensusScriptVerifier `{Blake3, Ed25519, Bincode} (current_block_height : N) :
    AuthorizationVerifier := λ preimage_digest locking_condition authorization_proof,
  let contract_lock :=
    if bool_decide (take 4 locking_condition = LOCK_MAGIC_PREFIX) then
      match from_locking_condition locking_condition with
      | Some (Transaction.Script _ _) => true
      | _ => false
      end
    else false in
  if contract_lock then Ok tt
  else
    let ctx := mkScriptContext preimage_digest current_block_height in
    let? valid := map_err MalformedProof
                    (execute DEFAULT_MAX_OPS_BUDGET ctx authorization_proof locking_condition) in
    if valid then Ok tt else Err SignatureMismatch.

(** ** The loop *)

Section loop.
Context {B3 : Blake3} {AV : AuthorizationVerifier}.

(** What an accepted input satisfies. *)
Definition input_authorized (tx : Transaction) (index : nat) (input : TxIn) (utxo : UtxoEntry) : Prop :=
  authorization input ≠ [] ∧
  authorization_verify (compute_sighash tx (N.of_nat index) (locking_condition (output utxo)))
    (locking_condition (output utxo)) (authorization input) = Ok tt.

Lemma authorize_inputs_Ok tx resolved index ins :
  (index + length ins ≤ length resolved)%nat →
  authorize_inputs tx resolved (N.of_nat index) ins = Ok tt ↔
  ∀ i input utxo, ins !! i = Some input → resolved !! (index + i)%nat = Some utxo →
    input_authorized tx (index + i) input utxo.
Proof.
  revert index. induction ins as [|input ins IH]; intros index HL; cbn [authorize_inputs length] in *.
  { split; [|done]. intros _ i input utxo Hi. by rewrite lookup_nil in Hi. }
  case_bool_decide as HE.
  { split; [done|]. intros H.
    destruct (lookup_lt_is_Some_2 resolved index) as [utxo Hu]; [lia|].
    destruct (H 0%nat input utxo) as [? _]; [done|by rewrite Nat.add_0_r|done]. }
  destruct (lookup_lt_is_Some_2 resolved index) as [utxo Hu]; [lia|].
  rewrite Nat2N.id, Hu. cbn [expect obind].
  replace (N.of_nat index + 1) with (N.of_nat (S index)) by lia. split.
  - intros ([] & HV & H)%obind_Ok i input' utxo' Hi Hr. destruct i as [|i].
    + rewrite Nat.add_0_r in *. injection Hi as <-. rewrite Hu in Hr. injection Hr as <-. done.
    + replace (index + S i)%nat with (S index + i)%nat in * by lia.
      eapply (proj1 (IH (S index) ltac:(lia)) H i); done.
  - intros H. destruct (H 0%nat input utxo) as [_ HV]; [done|by rewrite Nat.add_0_r|].
    rewrite Nat.add_0_r in HV. rewrite HV. cbn [obind]. apply IH; [lia|].
    intros i input' utxo' Hi Hr. replace (S index + i)%nat with (index + S i)%nat in * by lia.
    by eapply H.
Qed.

Lemma authorize_inputs_returns tx resolved index ins :
  (∀ d l p, returns (authorization_verify d l p)) → (index + length ins ≤ length resolved)%nat →
  returns (authorize_inputs tx resolved (N.of_nat index) ins).
Proof.
  intros HV. revert index. induction ins as [|input ins IH]; intros index HL; cbn [authorize_inputs length] in *;
    [done|]. case_bool_decide; [done|].
  destruct (lookup_lt_is_Some_2 resolved index) as [utxo Hu]; [lia|].
  rewrite Nat2N.id, Hu. cbn [expect obind]. apply returns_obind; [apply HV|]. intros _ _.
  replace (N.of_nat index + 1) with (N.of_nat (S index)) by lia. apply IH. lia.
Qed.

Lemma verify_transaction_authorization_Ok tx resolved :
  verify_transaction_authorization tx resolved = Ok tt ↔
  length (inputs tx) = length resolved ∧
  ∀ i input utxo, inputs tx !! i = Some input → resolved !! i = Some utxo → input_authorized tx i input utxo.
Proof.
  unfold verify_transaction_authorization.
  destruct (Nat.eqb_spec (length (inputs tx)) (length resolved)) as [E|E]; cbn [negb]; [|naive_solver].
  etrans; [apply (authorize_inputs_Ok tx resolved 0); lia|]. split; [by split|by intros [_ H]].
Qed.

(** Two transactions with the same signing digests are authorized alike. *)
Lemma authorize_inputs_ext tx tx' resolved index ins ins' :
  (∀ i lock, compute_sighash tx i lock = compute_sighash tx' i lock) →
  authorization <$> ins = authorization <$> ins' →
  authorize_inputs tx resolved index ins = authorize_inputs tx' resolved index ins'.
Proof.
  intros HS. revert index ins'. induction ins as [|input ins IH]; intros index [|input' ins'] E;
    [done|discriminate E..|].
  injection E as E1 E2. cbn [authorize_inputs]. rewrite E1. case_bool_decide; [done|].
  destruct (resolved !! N.to_nat index) as [utxo|]; cbn [expect obind]; [|done].
  rewrite HS. destruct (authorization_verify _ _ _); cbn [obind]; [by apply IH|done..].
Qed.
End loop.

(** ** Script locks *)

Section scripts.
Context {B3 : Blake3} {ED : Ed25519} {BC : Bincode}.

Lemma consensus_verifier_script height digest lock proof :
  take 4 lock ≠ LOCK_MAGIC_PREFIX →
  authorization_verify (AuthorizationVerifier := ConsensusScriptVerifier height) digest lock proof = Ok tt ↔
  execute DEFAULT_MAX_OPS_BUDGET (mkScriptContext digest height) proof lock = Ok true.
Proof.
  intros HM. unfold authorization_verify, ConsensusScriptVerifier.
  rewrite bool_decide_eq_false_2 by done. cbn [obind].
  destruct (execute _ _ _ _) as [[]|e| |]; cbn [map_err obind]; naive_solver.
Qed.

Lemma consensus_verifier_returns height digest lock proof :
  returns (authorization_verify (AuthorizationVerifier := ConsensusScriptVerifier height) digest lock proof).
Proof.
  unfold authorization_verify, ConsensusScriptVerifier.
  destruct (if bool_decide _ then _ else _); [done|]. apply returns_obind.
  - apply returns_map_err, execute_returns.
  - by intros [] _.
Qed.

Lemma consensus_verifier_later height height' digest lock proof :
  height ≤ height' →
  authorization_verify (AuthorizationVerifier := ConsensusScriptVerifier height) digest lock proof = Ok tt →
  authorization_verify (AuthorizationVerifier := ConsensusScriptVerifier height') digest lock proof = Ok tt.
Proof.
  intros Hh. unfold authorization_verify, ConsensusScriptVerifier.
  destruct (if bool_decide _ then _ else _); [done|].
  destruct (execute _ (mkScriptContext digest height) _ _) as [[]|e| |] eqn:E; try done.
  intros _. by rewrite (execute_later DEFAULT_MAX_OPS_BUDGET (mkScriptContext digest height)
    (mkScriptContext digest height')).
Qed.

(** A script that starts with [OP_RETURN] fails on its first instruction. *)
Lemma execute_op_return max_ops ctx unlock rest :
  execute max_ops ctx unlock (x6a :: rest) ≠ Ok true.
Proof.
  rewrite execute_Ok. intros ([s b] & item & s' & b' & _ & E & _).
  rewrite execute_script_run, run_script_cons in E. unfold sbind in E.
  change x6a with (as_byte OpReturn) in E. rewrite step_plain in E by done.
  unfold sbind, charge in E. cbn [fst snd m_budget] in E. by destruct (b =? 0).
Qed.
End scripts.

(** ** Properties *)

(** The key hash in the text of a genesis lock. *)
Definition lock_key_hash (hex : list byte) : Hash :=
  match from_hex hex with Ok bytes => default ZERO (hash_of_list (take 32 (drop 3 bytes))) | _ => ZERO end.

Section authorization_properties.
Context {B3 : Blake3} {ED : Ed25519} {BC : Bincode}.

(** Authorization by scripts returns on every transaction, accepts exactly when
    there is one resolved output per input and every input has a non-empty
    proof that satisfies the lock it spends on the signing digest of its index,
    and what it accepts at a height it accepts at every later one. *)
Theorem transaction_authorization_spec (tx : Transaction) (resolved : list UtxoEntry) (height : N)
    (V := λ h, verify_transaction_authorization (AV := ConsensusScriptVerifier h) tx resolved) :
  returns (V height) ∧
  (V height = Ok tt ↔ length (inputs tx) = length resolved ∧
     ∀ i input utxo, inputs tx !! i = Some input → resolved !! i = Some utxo →
       input_authorized (AV := ConsensusScriptVerifier height) tx i input utxo) ∧
  (∀ height', height ≤ height' → V height = Ok tt → V height' = Ok tt).
Proof.
  split; [|split; [apply verify_transaction_authorization_Ok|]].
  - subst V. cbv beta. unfold verify_transaction_authorization.
    destruct (Nat.eqb_spec (length (inputs tx)) (length resolved)); [|done]. cbn [negb].
    apply (authorize_inputs_returns tx resolved 0); [apply consensus_verifier_returns|lia].
  - intros height' Hh. subst V. cbv beta. rewrite !verify_transaction_authorization_Ok. intros [HL HI]. split; [done|]. intros i input utxo Hi Hr.
    destruct (HI i input utxo Hi Hr) as [HA HV]. split; [done|]. by eapply consensus_verifier_later.
Qed.

(** Spending a pay-to-public-key-hash output, as the genesis outputs are: the
    verifier accepts a proof exactly when executing it as a script leaves on
    top of the stack a public key with the committed hash, and below it a
    signature of the digest under that key, with budget for the five
    instructions of the lock; pushing a signature and the key does. *)
Theorem p2pkh_authorization (h : Hash) (digest : Hash) (height : N) (proof : list byte)
    (AV := ConsensusScriptVerifier height) (ctx := mkScriptContext digest height) :
  (authorization_verify digest (p2pkh_script h) proof = Ok tt ↔
   ∃ pk sig s b, execute_script DEFAULT_MAX_OPS_BUDGET ctx proof ([], DEFAULT_MAX_OPS_BUDGET) =
       ((pk :: sig :: s, b), Ok tt) ∧
     5 ≤ b ∧ blake3 pk = h ∧ verify_signature pk sig digest = true) ∧
  (∀ pk sig, blake3 pk = h → verify_signature pk sig digest = true →
   authorization_verify digest (p2pkh_script h)
     (builder_push_data (builder_push_data [] sig) pk) = Ok tt) ∧
  ∃ h1 h2, founder_locking_script (E := AuthorizationError) = Ok (p2pkh_script h1) ∧
           developer_locking_script (E := AuthorizationError) = Ok (p2pkh_script h2).
Proof.
  assert (HV : ∀ proof, authorization_verify digest (p2pkh_script h) proof = Ok tt ↔
    execute DEFAULT_MAX_OPS_BUDGET ctx proof (p2pkh_script h) = Ok true).
  { intros. by apply consensus_verifier_script. }
  split; [|split].
  - rewrite HV. apply p2pkh_execute. by vm_compute.
  - intros pk sig Hpk Hsig. apply HV, p2pkh_execute; [by vm_compute|]. exists pk, sig, [], 254.
    assert (HL : length pk = 32%nat ∧ length sig = 64%nat).
    { unfold verify_signature in Hsig.
      destruct (Nat.eqb_spec (length pk) 32), (Nat.eqb_spec (length sig) 64); done. }
    split; [|split; [lia|done]].
    rewrite execute_pushes; [done|lia|lia|by vm_compute].
  - exists (lock_key_hash GENESIS_FOUNDER_LOCK_HEX), (lock_key_hash GENESIS_DEVELOPER_LOCK_HEX).
    split; vm_compute; reflexivity.
Qed.

(** An output whose script starts with [OP_RETURN], which the ledger does not
    record as unspent, could not be spent if it were: no proof is accepted for
    it at any height, alone or among the inputs of a transaction. *)
Theorem op_return_unspendable (lock : list byte) (Hlock : is_op_return lock = true) (height : N) :
  (∀ digest proof,
     authorization_verify (AuthorizationVerifier := ConsensusScriptVerifier height) digest lock proof ≠ Ok tt) ∧
  (∀ tx resolved i utxo, resolved !! i = Some utxo → locking_condition (output utxo) = lock →
     verify_transaction_authorization (AV := ConsensusScriptVerifier height) tx resolved ≠ Ok tt).
Proof.
  assert (HR : ∀ digest proof,
     authorization_verify (AuthorizationVerifier := ConsensusScriptVerifier height) digest lock proof ≠ Ok tt).
  { unfold is_op_return in Hlock. apply bool_decide_eq_true in Hlock.
    destruct lock as [|b lock]; [done|]. injection Hlock as ->. intros digest proof.
    rewrite consensus_verifier_script by (by intros [=]). apply execute_op_return. }
  split; [done|]. intros tx resolved i utxo Hu Hl HV.
  apply verify_transaction_authorization_Ok in HV as [HL HI].
  destruct (lookup_lt_is_Some_2 (inputs tx) i) as [input Hi]; [rewrite HL; by eapply lookup_lt_Some|].
  destruct (HI _ _ _ Hi Hu) as [_ HA]. rewrite Hl in HA. by eapply HR.
Qed.

(** The signing digest lets a third party rewrite a signed transaction: the
    second of two adjacent outputs can be absorbed into the script of the
    first, and version, lock time and input sequences replaced, with every
    authorization still accepted by every verifier. The value of the absorbed
    output becomes fee, and a rewriting with version 1 passes the stateless
    checks when the original did and the first script was not empty. *)
Theorem sighash_allows_output_merge (AV : AuthorizationVerifier) (resolved : list UtxoEntry)
    (ins ins' : list TxIn) (pre post : list TxOut) (v1 v2 : N) (l1 l2 : list byte) (ver ver' lt lt' : N)
    (Hops : previous_output <$> ins = previous_output <$> ins')
    (Hauth : authorization <$> ins = authorization <$> ins')
    (t := mkTransaction ver ins (pre ++ [mkTxOut v1 l1; mkTxOut v2 l2] ++ post) lt)
    (t' := mkTransaction ver' ins' (pre ++ [mkTxOut v1 (l1 ++ le_bytes 8 v2 ++ l2)] ++ post) lt') :
  verify_transaction_authorization t' resolved = verify_transaction_authorization t resolved ∧
  outputs_value (outputs t) = outputs_value (outputs t') + v2 ∧
  (validate_stateless t = Ok tt → l1 ≠ [] → ver' = 1 → validate_stateless t' = Ok tt).
Proof.
  assert (HL : length ins' = length ins).
  { apply (f_equal length) in Hops. by rewrite !length_fmap in Hops. }
  split; [|split].
  - unfold verify_transaction_authorization. subst t t'. cbn [inputs]. rewrite HL.
    destruct (negb _); [done|]. symmetry. apply authorize_inputs_ext; [|done]. intros i lock.
    unfold compute_sighash. f_equal. by apply sighash_preimage_merge.
  - subst t t'. cbn [outputs]. rewrite !outputs_value_app. cbn. lia.
  - rewrite !validate_stateless_Ok. unfold stateless_valid. subst t t'.
    cbn [tx_version inputs outputs]. rewrite !outputs_value_app, !Forall_app, !Forall_cons.
    intros (_ & HI & _ & (D1 & (D2 & _) & D3) & HV & HN) Hl1 ->. rewrite <- Hops.
    split; [done|]. split; [by destruct ins, ins'|]. split; [by destruct pre|].
    split; [|split; [cbn in *; lia|done]]. split; [done|]. split; [|done]. split; [|done].
    unfold dust_ok, is_op_return in *. cbn [locking_condition value] in *. by destruct l1.
Qed.
End authorization_properties.

(** ** Witnesses *)

(** A [bincode] that fails on everything. *)
Definition toy_bincode : Bincode :=
  Build_Bincode (λ _, None) (λ _, None) (λ _, None) (λ _, None).

Lemma op_return_unspendable_witness :
  is_op_return [x6a; x51] = true ∧
  authorization_verify
    (AuthorizationVerifier := ConsensusScriptVerifier (H := toy_blake3) (H0 := toy_ed25519) (H1 := toy_bincode) 7)
    ZERO [x6a; x51] [x51] ≠ Ok tt.
Proof.
  split; [reflexivity|].
  apply (op_return_unspendable (B3 := toy_blake3) (ED := toy_ed25519) (BC := toy_bincode) [x6a; x51] eq_refl 7).
Defined.

(** A transfer with two outputs of 700 and 650, and its rewriting with one. *)
Definition merge_inputs : list TxIn := [mkTxIn (mkOutPoint ZERO 3) [x51] 5].
Definition merge_before : Transaction :=
  mkTransaction 1 merge_inputs [mkTxOut 700 [x51]; mkTxOut 650 [x52]] 9.
Definition merge_after : Transaction :=
  mkTransaction 1 merge_inputs [mkTxOut 700 ([x51] ++ le_bytes 8 650 ++ [x52])] 0.

Lemma sighash_allows_output_merge_witness :
  let AV := ConsensusScriptVerifier (H := toy_blake3) (H0 := toy_ed25519) (H1 := toy_bincode) 7 in
  let spent := [mkUtxoEntry (mkTxOut 2000 [x52]) 1 false] in
  verify_transaction_authorization (B3 := toy_blake3) (AV := AV) merge_before spent = Ok tt ∧
  verify_transaction_authorization (B3 := toy_blake3) (AV := AV) merge_after spent = Ok tt ∧
  validate_stateless merge_after = Ok tt.
Proof.
  cbv zeta.
  pose proof (sighash_allows_output_merge (B3 := toy_blake3)
    (ConsensusScriptVerifier (H := toy_blake3) (H0 := toy_ed25519) (H1 := toy_bincode) 7)
    [mkUtxoEntry (mkTxOut 2000 [x52]) 1 false] merge_inputs merge_inputs [] [] 700 650 [x51] [x52]
    1 1 9 0 eq_refl eq_refl) as (E & _ & HS).
  split; [vm_compute; reflexivity|]. split; [etrans; [exact E|]; vm_compute; reflexivity|].
  apply HS; [vm_compute; reflexivity|discriminate|reflexivity].
Defined.
