(* ===== verification/StorageSpec.v ===== *)
(** * The storage engine: specification

    What the tables hold when blocks are committed in order, rolled back and
    connected again, stated against the set of unspent outputs of the ledger:
    [stores] relates the table of unspent outputs to the set, [stored_chain] the
    other tables to the blocks filed so far. *)

From S2P Require Import Prelude Bytes Primitives Types Codec Transaction Utxo Merkle Words Target Work Consensus.
From S2P Require Import Chain Script Authorization Tables Storage.
Local Open Scope N_scope.
Local Open Scope scy_scope.

(** ** The table of unspent outputs *)

Definition entry_wf (o : OutPoint) (e : UtxoEntry) : Prop := outpoint_wf o ∧ utxoentry_wf e.
Definition stores (tbl : gmap (list byte) (list byte)) (u : UtxoSet) : Prop :=
  map_Forall (λ o e, entry_wf o e ∧ ∃ bs, to_canonical_bytes e = Ok bs ∧ tbl !! outpoint_to_key o = Some bs) u ∧
  map_Forall (λ k _, ∃ o, k = outpoint_to_key o ∧ is_Some (u !! o)) tbl.

Lemma stores_empty : stores ∅ ∅.
Proof. split; intros ? ?; rewrite lookup_empty; done. Qed.

Lemma stores_Some tbl u o e :
  stores tbl u → u !! o = Some e →
  entry_wf o e ∧ ∃ bs, tbl !! outpoint_to_key o = Some bs ∧ from_canonical_bytes bs = Ok e.
Proof.
  intros [H _] Hu. destruct (H o e Hu) as (Hw & bs & Hb & Ht). split; [done|]. exists bs. split; [done|].
  eapply from_to_canonical; [|exact Hb]. apply Hw.
Qed.

Lemma stores_None tbl u o : stores tbl u → outpoint_wf o → u !! o = None → tbl !! outpoint_to_key o = None.
Proof.
  intros [H1 H2] Ho Hu. destruct (tbl !! outpoint_to_key o) as [bs|] eqn:E; [|done].
  destruct (H2 _ _ E) as (o' & Hk & e & He). destruct (H1 o' e He) as [[Ho' _] _].
  apply outpoint_key_inj in Hk; [|done..]. subst o'. congruence.
Qed.

Lemma stores_delete tbl u o : stores tbl u → outpoint_wf o → stores (delete (outpoint_to_key o) tbl) (delete o u).
Proof.
  intros [H1 H2] Ho. split.
  - intros o' e' [Hne He]%lookup_delete_Some. destruct (H1 o' e' He) as (Hw & bs & Hb & Ht).
    split; [done|]. exists bs. split; [done|]. rewrite lookup_delete_ne; [done|].
    intros E. apply outpoint_key_inj in E; [congruence|done|apply Hw].
  - intros k v [Hne Hv]%lookup_delete_Some. destruct (H2 k v Hv) as (o' & -> & Hs). exists o'. split; [done|].
    rewrite lookup_delete_ne; [done|]. by intros ->.
Qed.

Lemma stores_insert tbl u o e bs :
  stores tbl u → entry_wf o e → to_canonical_bytes e = Ok bs →
  stores (<[outpoint_to_key o := bs]> tbl) (<[o := e]> u).
Proof.
  intros [H1 H2] Hw Hb. split.
  - intros o' e' [[<- <-]|[Hne He]]%lookup_insert_Some.
    + split; [done|]. exists bs. by rewrite lookup_insert_eq.
    + destruct (H1 o' e' He) as (Hw' & bs' & Hb' & Ht'). split; [done|]. exists bs'. split; [done|].
      rewrite lookup_insert_ne; [done|]. intros E. apply outpoint_key_inj in E; [congruence|apply Hw|apply Hw'].
  - intros k v [[<- <-]|[Hne Hv]]%lookup_insert_Some.
    + exists o. by rewrite lookup_insert_eq.
    + destruct (H2 k v Hv) as (o' & -> & Hs). exists o'. split; [done|].
      rewrite lookup_insert_is_Some. destruct (decide (o = o')); [by left|by right].
Qed.

(** What the reading functions see. *)
Lemma stores_get_utxo t u o :
  stores (UTXOS t) u → outpoint_wf o → get_utxo t o = Ok (u !! o).
Proof.
  intros HS Ho. unfold get_utxo, decoded. destruct (u !! o) as [e|] eqn:E.
  - destruct (stores_Some _ _ _ _ HS E) as (_ & bs & -> & Hb). rewrite Hb. done.
  - by rewrite (stores_None _ _ _ HS Ho E).
Qed.

(** ** The order of a table *)

Lemma insert_key_perm {A} (x : list byte * A) l : insert_key x l ≡ₚ x :: l.
Proof.
  induction l as [|y l IH]; cbn [insert_key]; [done|]. destruct (bytes_leb _ _); [done|].
  rewrite IH. constructor.
Qed.
Lemma table_iter_perm {A} (t : gmap (list byte) A) : table_iter t ≡ₚ map_to_list t.
Proof.
  unfold table_iter. induction (map_to_list t) as [|x l IH]; [done|]. cbn [foldr].
  by rewrite insert_key_perm, IH.
Qed.

Definition row_entry (kv : list byte * list byte) : outcome StorageError (OutPoint * UtxoEntry) :=
  let? o := expect (key_to_outpoint kv.1) in
  let? entry := ser_err (from_canonical_bytes kv.2) in
  Ok (o, entry).

Lemma row_entry_stores tbl u k v :
  stores tbl u → tbl !! k = Some v → ∃ o e, row_entry (k, v) = Ok (o, e) ∧ k = outpoint_to_key o ∧ u !! o = Some e.
Proof.
  intros HS Hv. destruct (proj2 HS _ _ Hv) as (o & -> & e & He).
  destruct (stores_Some _ _ _ _ HS He) as ([Ho _] & bs & Hbs & Hb). exists o, e.
  unfold row_entry. cbn [fst snd]. rewrite key_to_outpoint_key by done. cbn [expect obind].
  replace v with bs by congruence. by rewrite Hb.
Qed.

Lemma rows_entries tbl u rows :
  stores tbl u → Forall (λ kv, tbl !! kv.1 = Some kv.2) rows →
  ∃ entries, omap_list row_entry rows = Ok entries ∧
    Forall2 (λ kv oe, kv.1 = outpoint_to_key oe.1 ∧ u !! oe.1 = Some oe.2) rows entries.
Proof.
  intros HS. induction 1 as [|[k v] rows Hkv _ (entries & IH1 & IH2)]; [by exists []|].
  cbn [fst snd] in Hkv. destruct (row_entry_stores _ _ _ _ HS Hkv) as (o & e & HR & Hk & He).
  exists ((o, e) :: entries). cbn [omap_list]. rewrite HR, IH1. split; [done|]. by constructor.
Qed.

(** The entries of the table are those of the set. *)
Lemma utxo_entries_stores t u :
  stores (UTXOS t) u →
  ∃ entries, utxo_entries t = Ok entries ∧ entries ≡ₚ map_to_list u ∧
    outpoint_to_key <$> entries.*1 = (table_iter (UTXOS t)).*1.
Proof.
  intros HS. unfold utxo_entries. fold row_entry.
  destruct (rows_entries (UTXOS t) u (table_iter (UTXOS t)) HS) as (entries & HE & HF).
  { rewrite table_iter_perm. apply Forall_forall. intros [k v] Hkv. by apply elem_of_map_to_list in Hkv. }
  exists entries. split; [exact HE|].
  assert (HK : outpoint_to_key <$> entries.*1 = (table_iter (UTXOS t)).*1).
  { clear HE. induction HF as [|kv oe l l' [Hk _] _ IH]; [done|]. cbn. by rewrite IH, Hk. }
  split; [|done]. apply NoDup_Permutation.
  - apply (NoDup_fmap_1 fst), (NoDup_fmap_1 outpoint_to_key). rewrite HK.
    rewrite table_iter_perm. apply NoDup_fst_map_to_list.
  - apply NoDup_map_to_list.
  - intros [o e]. rewrite elem_of_map_to_list. split.
    + intros [i Hi]%list_elem_of_lookup. by destruct (Forall2_lookup_r _ _ _ _ _ HF Hi) as (kv & _ & _ & ?).
    + intros He. destruct (proj1 HS o e He) as (_ & bs & _ & Hbs).
      assert (Hin : (outpoint_to_key o, bs) ∈ table_iter (UTXOS t))
        by (rewrite table_iter_perm; by apply elem_of_map_to_list).
      apply list_elem_of_lookup in Hin as [i Hi]. destruct (Forall2_lookup_l _ _ _ _ _ HF Hi) as ([o' e'] & Hi' & Hk & He').
      cbn [fst snd] in *. pose proof (proj1 HS o' e' He') as [[Ho' _] _]. pose proof (proj1 HS o e He) as [[Ho _] _].
      apply outpoint_key_inj in Hk; [|done..]. subst o'. replace e with e' by congruence.
      by eapply list_elem_of_lookup_2.
Qed.

(** ** Undo data *)

Definition deletes (C : list OutPoint) (u : UtxoSet) : UtxoSet := foldl (λ u o, delete o u) u C.
Definition inserts (S : list (OutPoint * UtxoEntry)) (u : UtxoSet) : UtxoSet := foldl (λ u p, <[p.1 := p.2]> u) u S.

(** What rolling back with some undo data makes of a set. *)
Definition restore (undo : BlockUndo) (u : UtxoSet) : UtxoSet :=
  inserts (spent_utxos undo) (deletes (created_outpoints undo) u).

Lemma deletes_app C1 C2 u : deletes (C1 ++ C2) u = deletes C2 (deletes C1 u).
Proof. apply foldl_app. Qed.
Lemma inserts_app S1 S2 u : inserts (S1 ++ S2) u = inserts S2 (inserts S1 u).
Proof. apply foldl_app. Qed.

Lemma deletes_delete C o u : deletes C (delete o u) = delete o (deletes C u).
Proof.
  revert u; induction C as [|c C IH]; intros u; [done|]. unfold deletes in *. cbn [foldl].
  by rewrite <- IH, delete_delete.
Qed.
Lemma deletes_lookup C o u : o ∉ C → deletes C u !! o = u !! o.
Proof.
  revert u; induction C as [|c C IH]; intros u Ho; [done|]. apply not_elem_of_cons in Ho as [Hc HC].
  unfold deletes in *. cbn [foldl]. rewrite IH by done. by rewrite lookup_delete_ne.
Qed.
Lemma inserts_lookup S o u : o ∉ S.*1 → inserts S u !! o = u !! o.
Proof.
  revert u; induction S as [|[c e] S IH]; intros u Ho; [done|]. cbn in Ho. apply not_elem_of_cons in Ho as [Hc HS].
  unfold inserts in *. cbn [foldl fst snd]. rewrite IH by done. by rewrite lookup_insert_ne.
Qed.
Lemma inserts_delete S o u : o ∉ S.*1 → inserts S (delete o u) = delete o (inserts S u).
Proof.
  revert u; induction S as [|[c e] S IH]; intros u Ho; [done|]. cbn in Ho. apply not_elem_of_cons in Ho as [Hc HS].
  unfold inserts in *. cbn [foldl fst snd]. rewrite <- IH by done. by rewrite delete_insert_ne.
Qed.
Lemma inserts_spent S o u : o ∈ S.*1 → is_Some (inserts S u !! o).
Proof.
  induction S as [|[c e] S IH] using rev_ind; [by intros ?%elem_of_nil|].
  rewrite fmap_app, elem_of_app, inserts_app. intros H. unfold inserts at 1. cbn [foldl fst snd].
  rewrite lookup_insert_is_Some. destruct (decide (c = o)); [by left|right; split; [done|]].
  apply IH. cbn in H. set_solver.
Qed.

(** Undo data that leads back to [u0]; a spent output is gone unless the block
    made it itself. *)
Definition undo_inv (u0 u : UtxoSet) (undo : BlockUndo) : Prop :=
  restore undo u = u0 ∧ ∀ o, o ∈ (spent_utxos undo).*1 → o ∉ created_outpoints undo → u !! o = None.

Lemma undo_inv_spend u0 u S C o e :
  undo_inv u0 u (mkBlockUndo S C) → u !! o = Some e → o ∉ C →
  undo_inv u0 (delete o u) (mkBlockUndo (S ++ [(o, e)]) C).
Proof.
  unfold undo_inv, restore. cbn [spent_utxos created_outpoints]. intros [HR HN] Ho HC.
  assert (HS : o ∉ S.*1) by (intros HS; specialize (HN o HS HC); congruence). split.
  - rewrite inserts_app, deletes_delete, inserts_delete, HR by done. unfold inserts. cbn [foldl fst snd].
    rewrite insert_delete_eq. apply insert_id.
    by rewrite <- HR, inserts_lookup, deletes_lookup by done.
  - intros o'. rewrite fmap_app, elem_of_app, lookup_delete_None. cbn. intros [H|H] HC'; [right; by apply HN|left; set_solver].
Qed.

Lemma undo_inv_create u0 u S C o e :
  undo_inv u0 u (mkBlockUndo S C) → u !! o = None → undo_inv u0 (<[o := e]> u) (mkBlockUndo S (C ++ [o])).
Proof.
  unfold undo_inv, restore. cbn [spent_utxos created_outpoints]. intros [HR HN] Ho. split.
  - rewrite deletes_app. change (deletes [o] ?x) with (delete o x). rewrite <- deletes_delete, delete_insert_id; done.
  - intros o' HS. rewrite elem_of_app, list_elem_of_singleton. intros HC.
    rewrite lookup_insert_ne by naive_solver. apply HN; [done|naive_solver].
Qed.

Lemma undo_inv_spends u0 u S C spent :
  undo_inv u0 u (mkBlockUndo S C) → NoDup spent.*1 → Forall (λ p, u !! p.1 = Some p.2) spent →
  Forall (λ o, o ∉ C) spent.*1 → undo_inv u0 (deletes spent.*1 u) (mkBlockUndo (S ++ spent) C).
Proof.
  revert u S; induction spent as [|[o e] spent IH]; intros u S HI Hnd HF HC.
  { by rewrite app_nil_r. }
  cbn in Hnd, HC. apply NoDup_cons in Hnd as [Hno Hnd]. apply Forall_cons in HF as [Ho HF].
  apply Forall_cons in HC as [HCo HC]. cbn [fst snd] in Ho.
  change ((o, e) :: spent) with ([(o, e)] ++ spent). rewrite app_assoc. cbn [fmap list_fmap app fst].
  change (deletes (o :: ?l) u) with (deletes l (delete o u)). apply IH; [by apply undo_inv_spend|done| |done].
  apply Forall_forall. intros [o' e'] Hin. rewrite Forall_forall in HF. cbn [fst snd].
  rewrite lookup_delete_ne; [exact (HF _ Hin)|]. intros ->. apply Hno. apply list_elem_of_fmap. by exists (o', e').
Qed.

Lemma undo_inv_creates u0 u S C new :
  undo_inv u0 u (mkBlockUndo S C) → fresh_for u new →
  undo_inv u0 (list_to_map new ∪ u) (mkBlockUndo S (C ++ new.*1)).
Proof.
  revert u C; induction new as [|[o e] new IH]; intros u C HI [Hnd HF].
  { cbn. by rewrite app_nil_r, (left_id_L ∅ _). }
  cbn in Hnd, HF. apply NoDup_cons in Hnd as [Hno Hnd]. apply Forall_cons in HF as [Ho HF].
  cbn [fmap list_fmap fst]. change (o :: new.*1) with ([o] ++ new.*1). rewrite app_assoc.
  rewrite list_to_map_cons, <- insert_union_l, insert_union_r by (by apply not_elem_of_list_to_map_1).
  apply IH; [by apply undo_inv_create|]. split; [done|]. apply Forall_forall. intros o' Ho'.
  rewrite lookup_insert_ne; [|by intros ->]. rewrite Forall_forall in HF. by apply HF.
Qed.

Lemma remove_inputs_deletes ins u : remove_inputs ins u = deletes (previous_output <$> ins) u.
Proof. revert u; induction ins as [|i ins IH]; intros u; [done|]. cbn. apply IH. Qed.

(** ** Filing the transactions of a block *)

Section filing.
Context {B3 : Blake3} {BC : Bincode}.

Definition filed_utxos (tbl : gmap (list byte) (list byte)) (t : Tables) : Tables := on_utxos (λ _, tbl) t.

(** At most [n] records for each address. *)
Definition recs_le (n : nat) (recs : gmap Hash (list AddressTxRecord)) : Prop :=
  map_Forall (λ _ l, Forall record_wf l ∧ (length l ≤ n)%nat) recs.

Lemma recs_le_weaken n m recs : (n ≤ m)%nat → recs_le n recs → recs_le m recs.
Proof. intros Hnm H addr l Hl. destruct (H addr l Hl) as [? ?]. split; [done|lia]. Qed.

Lemma push_record_run out r f :
  ∃ recs, push_record out r f = mkFiling (f_tables f) recs (f_undo f) ∧
    (∀ n, record_wf r → recs_le n (f_records f) → recs_le (S n) recs).
Proof.
  unfold push_record. destruct (extract_address_from_locking_condition _) as [a|].
  - eexists. split; [done|]. intros n Hr HR addr l [[<- <-]|[_ Hl]]%lookup_insert_Some.
    + destruct (f_records f !! a) as [l|] eqn:E; cbn [default from_option Datatypes.id].
      * destruct (HR a l E) as [HF Hn]. rewrite length_app. cbn [length]. split; [|lia].
        apply Forall_app. split; [done|by constructor].
      * cbn [length app]. split; [by constructor|lia].
    + destruct (HR addr l Hl) as [? ?]. split; [done|lia].
  - destruct f as [t recs undo]. exists recs. split; [done|]. intros n _. apply recs_le_weaken. lia.
Qed.

Definition spendable (u : UtxoSet) (p : OutPoint * UtxoEntry) : Prop :=
  u !! p.1 = Some p.2 ∧ entry_wf p.1 p.2 ∧ ∃ bs, to_canonical_bytes p.2 = Ok bs.

Lemma file_inputs_run id ins f u :
  stores (UTXOS (f_tables f)) u → NoDup (previous_output <$> ins) → all_unspent u ins →
  ∃ tbl recs spent,
    file_inputs id ins f = (mkFiling (filed_utxos tbl (f_tables f)) recs
      (mkBlockUndo (spent_utxos (f_undo f) ++ spent) (created_outpoints (f_undo f))), Ok tt) ∧
    stores tbl (remove_inputs ins u) ∧ spent.*1 = previous_output <$> ins ∧ Forall (spendable u) spent ∧
    (∀ n, recs_le n (f_records f) → recs_le (n + length ins) recs).
Proof.
  revert f u; induction ins as [|i ins IH]; intros f u HS Hnd HU.
  { exists (UTXOS (f_tables f)), (f_records f), []. rewrite app_nil_r. split; [by destruct f as [[] ? []]|].
    split; [exact HS|]. split; [done|]. split; [constructor|]. intros n. apply recs_le_weaken. lia. }
  cbn in Hnd. apply NoDup_cons in Hnd as [Hi Hnd]. apply Forall_cons in HU as [[e He] HU].
  destruct (stores_Some _ _ _ _ HS He) as ([Ho He'] & bs & Hbs & Hb).
  cbn [file_inputs]. unfold spent_output. rewrite sbind_assoc, sbind_sget, Hbs, sbind_assoc, Hb.
  cbn [ser_err map_err]. rewrite sbind_lift_Ok, sbind_assoc, sbind_smodify. cbn [sbind sret].
  change (sbind (sret (Some (output e))) ?k ?s) with (k (Some (output e)) s). cbv beta iota.
  rewrite sbind_smodify.
  destruct (push_record_run (output e) (mkAddressTxRecord id true false (value (output e)) None) (push_spent (previous_output i, e) f))
    as (recs0 & -> & Hrec0). rewrite sbind_smodify. cbn [f_tables f_undo push_spent].
  set (f1 := on_tables _ _).
  destruct (IH f1 (delete (previous_output i) u)) as (tbl & recs & spent & HR & HS' & Hsp & HF & Hrec).
  - by apply stores_delete.
  - done.
  - apply Forall_forall. intros j Hj. rewrite Forall_forall in HU. specialize (HU j Hj). rewrite lookup_delete_ne; [done|].
    intros E. apply Hi. rewrite E. apply list_elem_of_fmap. by exists j.
  - exists tbl, recs, ((previous_output i, e) :: spent). rewrite HR. split; [|split; [done|split; [by cbn; rewrite Hsp|]]].
    + unfold f1. cbn [on_tables f_undo f_tables spent_utxos created_outpoints]. by rewrite <- app_assoc.
    + destruct (proj1 HS _ _ He) as (_ & bs' & Hbs' & _).
      split.
      * constructor; [split; [done|]; split; [done|]; by exists bs'|].
        eapply Forall_impl; [exact HF|]. intros [o' e'] (H1 & H2 & H3). split; [|done]. cbn in *.
        by apply lookup_delete_Some in H1 as [_ ?].
      * intros n Hn. apply (recs_le_weaken (S n + length ins)); [cbn [length]; lia|].
        apply Hrec. apply Hrec0; [apply He'|exact Hn].
Qed.

Definition output_fits (o : TxOut) : Prop := vec_fits (locking_condition o) ∧ txout_wf o.

Lemma entry_bytes o h cb : vec_fits (locking_condition o) → ∃ bs, to_canonical_bytes (mkUtxoEntry o h cb) = Ok bs.
Proof.
  intros [bs Hbs]%ser_txout_Ok. unfold to_canonical_bytes, serialize_canonical, ser_utxoentry. cbn [output block_height is_coinbase_output].
  rewrite Hbs. cbn [obind]. by eexists.
Qed.

Lemma file_outputs_run id h cb idx outs f u :
  stores (UTXOS (f_tables f)) u → fresh_for u (created id h cb idx outs) → Forall output_fits outs → h < MOD64 →
  ∃ tbl recs,
    file_outputs id h cb idx outs f = (mkFiling (filed_utxos tbl (f_tables f)) recs
      (mkBlockUndo (spent_utxos (f_undo f)) (created_outpoints (f_undo f) ++ (created id h cb idx outs).*1)), Ok tt) ∧
    stores tbl (list_to_map (created id h cb idx outs) ∪ u) ∧
    (∀ n, recs_le n (f_records f) → recs_le (n + length outs) recs).
Proof.
  intros HS HF HO Hh. revert idx f u HS HF; induction HO as [|o outs [Hv Hw] _ IH]; intros idx f u HS HF.
  { exists (UTXOS (f_tables f)), (f_records f). cbn [created fmap list_fmap list_to_map foldr]. rewrite app_nil_r, (left_id_L ∅ _).
    split; [by destruct f as [[] ? []]|]. split; [done|]. intros n. apply recs_le_weaken. lia. }
  cbn [file_outputs created] in *. rewrite sbind_smodify.
  destruct (push_record_run o (mkAddressTxRecord id false true (value o) None) f) as (recs0 & -> & Hrec0).
  destruct (is_op_return (locking_condition o)).
  - destruct (IH (idx + 1) (mkFiling (f_tables f) recs0 (f_undo f)) u HS HF) as (tbl & recs & -> & HS' & Hrec).
    exists tbl, recs. split; [done|]. split; [done|]. intros n Hn.
    apply (recs_le_weaken (S n + length outs)); [cbn [length]; lia|]. apply Hrec. by apply Hrec0.
  - set (k := mkOutPoint id (wrap32 idx)) in *. set (e := mkUtxoEntry o h cb) in *.
    destruct HF as [Hnd HF]. cbn in Hnd, HF. apply NoDup_cons in Hnd as [Hno Hnd]. apply Forall_cons in HF as [Hk HF].
    destruct (entry_bytes o h cb Hv) as [bs Hbs]. fold e in Hbs. fold e. fold k.
    rewrite sbind_smodify, Hbs. cbn [ser_err map_err]. rewrite sbind_lift_Ok, sbind_smodify.
    cbn [f_tables f_undo push_created]. set (f1 := on_tables _ _).
    assert (Hwf : entry_wf k e).
    { split; [unfold outpoint_wf; cbn; by apply N.mod_lt|]. by split. }
    destruct (IH (idx + 1) f1 (<[k := e]> u)) as (tbl & recs & HR & HS' & Hrec).
    + by apply stores_insert.
    + split; [done|]. apply Forall_forall. intros k' Hk'. rewrite lookup_insert_ne; [|by intros ->].
      rewrite Forall_forall in HF. by apply HF.
    + exists tbl, recs. rewrite HR.
      split; [unfold f1; cbn [on_tables push_created f_undo f_tables spent_utxos created_outpoints fmap list_fmap fst]; by rewrite <- app_assoc|].
      rewrite list_to_map_cons, <- insert_union_l, insert_union_r by (by apply not_elem_of_list_to_map_1).
      split; [exact HS'|]. intros n Hn.
      apply (recs_le_weaken (S n + length outs)); [cbn [length]; lia|]. apply Hrec. by apply Hrec0.
Qed.

(** One transaction of a block. *)
Definition tx_step (h : N) (u : UtxoSet) (tx : Transaction) (u' : UtxoSet) : Prop :=
  if is_coinbase tx then coinbase_step u tx h u' else ∃ fee, transaction_step u tx h fee u'.
Definition tx_fits (tx : Transaction) : Prop := transaction_encodable tx ∧ transaction_wf tx.
Definition spends (tx : Transaction) : list OutPoint := if is_coinbase tx then [] else previous_output <$> inputs tx.

(** What filing transactions has done: the tables, and the undo data grown by
    [spent] and [new]. *)
Definition tx_tables (bh : Hash) (h : N) (rows : list (Hash * list byte)) (t : Tables) : Tables :=
  foldl (λ t p, on_confirm (insert p.1 (location_bytes bh h)) (on_transactions (insert p.1 p.2) t)) t rows.

Record filing_result (bh : Hash) (h : N) (txs : list Transaction) (u u' : UtxoSet) (f f' : Filing)
    (rows : list (Hash * list byte)) (spent : list (OutPoint * UtxoEntry)) (new : list OutPoint) : Prop := {
  fr_tables : f_tables f' = filed_utxos (UTXOS (f_tables f')) (tx_tables bh h rows (f_tables f));
  fr_undo : f_undo f' = mkBlockUndo (spent_utxos (f_undo f) ++ spent) (created_outpoints (f_undo f) ++ new);
  fr_stores : stores (UTXOS (f_tables f')) u';
  fr_rows : Forall2 (λ tx p, txid (E := StorageError) tx = Ok p.1 ∧ to_canonical_bytes tx = Ok p.2) txs rows;
  fr_spent : spent.*1 = txs ≫= spends;
  fr_entries : Forall (λ p, entry_wf p.1 p.2 ∧ ∃ bs, to_canonical_bytes p.2 = Ok bs) spent;
  fr_new : Forall (λ o, outpoint_wf o ∧ op_txid o ∈ rows.*1) new;
  fr_count : (length new ≤ length (txs ≫= outputs))%nat;
  fr_records : ∀ n, recs_le n (f_records f) →
    recs_le (n + length (txs ≫= spends) + length (txs ≫= outputs)) (f_records f');
  fr_inverse : ∀ u0, (∀ o, o ∈ txs ≫= spends → op_txid o ∉ rows.*1 ∧ o ∉ created_outpoints (f_undo f)) →
    undo_inv u0 u (f_undo f) → undo_inv u0 u' (f_undo f')
}.

Lemma created_ids id h cb idx outs :
  Forall (λ o, outpoint_wf o ∧ op_txid o = id) (created id h cb idx outs).*1.
Proof.
  revert idx; induction outs as [|o outs IH]; intros idx; cbn [created]; [constructor|].
  destruct (is_op_return _); [apply IH|]. cbn. constructor; [|apply IH].
  split; [unfold outpoint_wf; cbn; by apply N.mod_lt|done].
Qed.
Lemma created_count id h cb idx outs : (length (created id h cb idx outs) ≤ length outs)%nat.
Proof.
  revert idx; induction outs as [|o outs IH]; intros idx; cbn [created length]; [done|].
  destruct (is_op_return _); cbn [length]; specialize (IH (idx + 1)); lia.
Qed.
Lemma tx_fits_outputs tx : tx_fits tx → Forall output_fits (outputs tx).
Proof. intros [[_ HE] (_ & _ & HW & _)]. apply Forall_and. by split. Qed.

Lemma file_transaction_run bh h tx u u' f :
  tx_fits tx → h < MOD64 → stores (UTXOS (f_tables f)) u → tx_step h u tx u' →
  ∃ f' rows spent new, file_transaction bh h tx f = (f', Ok tt) ∧ filing_result bh h [tx] u u' f f' rows spent new.
Proof.
  intros Hfit Hh HS Hstep. pose proof (tx_fits_outputs tx Hfit) as HO. destruct Hfit as [He Hw].
  apply transaction_encodable_spec in He as [bytes Hbytes].
  assert (Hid : ∃ id, txid (E := UtxoError) tx = Ok id ∧
            fresh_for (remove_inputs (if is_coinbase tx then [] else inputs tx) u) (created id h (is_coinbase tx) 0 (outputs tx)) ∧
            u' = list_to_map (created id h (is_coinbase tx) 0 (outputs tx)) ∪ remove_inputs (if is_coinbase tx then [] else inputs tx) u ∧
            (is_coinbase tx = false → NoDup (previous_output <$> inputs tx) ∧ all_unspent u (inputs tx))).
  { unfold tx_step in Hstep. destruct (is_coinbase tx).
    - destruct Hstep as (id & Hid & HF & -> & _). by exists id.
    - destruct Hstep as (fee & id & Hid & HF & -> & (_ & _ & _ & _ & _ & Hnd) & HU & _). by exists id. }
  destruct Hid as (id & Hid & HF & -> & HI). apply (txid_any (F := StorageError)) in Hid.
  unfold file_transaction. rewrite Hid, sbind_lift_Ok, Hbytes. cbn [ser_err map_err].
  rewrite sbind_lift_Ok, !sbind_smodify. set (f1 := on_tables _ (on_tables _ f)).
  assert (HIn : ∃ tbl recs spent, (if is_coinbase tx then sret tt else file_inputs id (inputs tx)) f1 =
            (mkFiling (filed_utxos tbl (f_tables f1)) recs
               (mkBlockUndo (spent_utxos (f_undo f) ++ spent) (created_outpoints (f_undo f))), Ok tt) ∧
            stores tbl (remove_inputs (if is_coinbase tx then [] else inputs tx) u) ∧
            spent.*1 = spends tx ∧ Forall (spendable u) spent ∧ NoDup (spends tx) ∧
            (∀ n, recs_le n (f_records f) → recs_le (n + length (spends tx)) recs)).
  { unfold spends. destruct (is_coinbase tx).
    - exists (UTXOS (f_tables f)), (f_records f), []. rewrite app_nil_r. split; [by destruct f as [[] ? []]|].
      split; [exact HS|]. split; [done|]. split; [constructor|]. split; [constructor|].
      intros n. apply recs_le_weaken. lia.
    - destruct (HI eq_refl) as [Hnd HU].
      destruct (file_inputs_run id (inputs tx) f1 u HS Hnd HU) as (tbl & recs & spent & HR & H1 & H2 & H3 & H4).
      exists tbl, recs, spent. rewrite length_fmap. done. }
  destruct HIn as (tbl & recs & spent & HR & HS1 & Hsp & HFs & Hnd & Hrec). rewrite (sbind_run _ _ _ _ _ HR).
  destruct (file_outputs_run id h (is_coinbase tx) 0 (outputs tx) (mkFiling (filed_utxos tbl (f_tables f1)) recs
              (mkBlockUndo (spent_utxos (f_undo f) ++ spent) (created_outpoints (f_undo f)))) _ HS1 HF HO Hh)
    as (tbl' & recs' & HR' & HS2 & Hrec').
  eexists _, [(id, bytes)], spent, _. split; [exact HR'|].
  split; cbn [f_tables f_undo spent_utxos created_outpoints].
  - done.
  - done.
  - exact HS2.
  - by repeat constructor.
  - cbn [mbind list_bind]. by rewrite app_nil_r.
  - eapply Forall_impl; [exact HFs|]. intros p (_ & H2 & H3). by split.
  - eapply Forall_impl; [apply created_ids|]. intros o [H1 ->]. split; [done|]. cbn. by left.
  - rewrite length_fmap. cbn [mbind list_bind]. rewrite app_nil_r. apply created_count.
  - intros n Hn. cbn [mbind list_bind f_records]. rewrite !app_nil_r. apply Hrec'. cbn [f_records]. by apply Hrec.
  - intros u0 Hcl Hinv. cbn [mbind list_bind] in Hcl. rewrite app_nil_r in Hcl.
    apply undo_inv_creates; [|exact HF]. destruct f as [tf rf [S C]]. cbn [f_undo spent_utxos created_outpoints] in *.
    assert (HE : remove_inputs (if is_coinbase tx then [] else inputs tx) u = deletes spent.*1 u).
    { rewrite Hsp, remove_inputs_deletes. unfold spends. by destruct (is_coinbase tx). }
    rewrite HE. apply undo_inv_spends; [done|by rewrite Hsp| |].
    + eapply Forall_impl; [exact HFs|]. by intros p [? _].
    + rewrite Hsp. apply Forall_forall. intros o Ho. by apply Hcl.
Qed.

Lemma tx_tables_app bh h r1 r2 t : tx_tables bh h (r1 ++ r2) t = tx_tables bh h r2 (tx_tables bh h r1 t).
Proof. apply foldl_app. Qed.
Lemma tx_tables_filed bh h rows tbl t : tx_tables bh h rows (filed_utxos tbl t) = filed_utxos tbl (tx_tables bh h rows t).
Proof. revert t; induction rows as [|[id b] rows IH]; intros t; [done|]. unfold tx_tables in *. cbn [foldl]. by rewrite <- IH. Qed.

Lemma filing_result_trans bh h txs1 txs2 u u1 u2 f f1 f2 r1 r2 s1 s2 n1 n2 :
  filing_result bh h txs1 u u1 f f1 r1 s1 n1 → filing_result bh h txs2 u1 u2 f1 f2 r2 s2 n2 →
  filing_result bh h (txs1 ++ txs2) u u2 f f2 (r1 ++ r2) (s1 ++ s2) (n1 ++ n2).
Proof.
  intros [T1 U1 S1 R1 P1 E1 N1 C1 B1 I1] [T2 U2 S2 R2 P2 E2 N2 C2 B2 I2].
  split.
  - rewrite T2, T1, tx_tables_filed, <- tx_tables_app. done.
  - rewrite U2, U1. cbn [spent_utxos created_outpoints]. by rewrite <- !app_assoc.
  - done.
  - by apply Forall2_app.
  - by rewrite fmap_app, P1, P2, bind_app.
  - by apply Forall_app.
  - rewrite fmap_app. apply Forall_app. split; (eapply Forall_impl; [eassumption|]); intros o [? ?]; set_solver.
  - rewrite bind_app, !length_app. lia.
  - intros n Hn. rewrite !bind_app, !length_app. eapply recs_le_weaken; [|by apply B2, B1]. lia.
  - rewrite bind_app, fmap_app. intros u0 Hcl Hinv. apply I2.
    + intros o Ho. destruct (Hcl o) as [H1 H2]; [set_solver|]. split; [set_solver|].
      rewrite U1. cbn [created_outpoints]. rewrite elem_of_app. intros [?|Hn]; [done|].
      rewrite Forall_forall in N1. destruct (N1 o Hn) as [_ ?]. set_solver.
    + apply I1; [|done]. intros o Ho. destruct (Hcl o) as [H1 H2]; [set_solver|]. split; [set_solver|done].
Qed.

Lemma filing_result_nil bh h u f :
  stores (UTXOS (f_tables f)) u → filing_result bh h [] u u f f [] [] [].
Proof.
  intros HS. split; [by destruct f as [[] ? []]| |exact HS|constructor|done|constructor|constructor|done| |by intros].
  - rewrite !app_nil_r. by destruct (f_undo f).
  - intros n. apply recs_le_weaken. lia.
Qed.

Inductive txs_step (h : N) : UtxoSet → list Transaction → UtxoSet → Prop :=
| txs_step_nil u : txs_step h u [] u
| txs_step_cons u tx txs u1 u' : tx_step h u tx u1 → txs_step h u1 txs u' → txs_step h u (tx :: txs) u'.

Lemma block_txs_step u txs h fees u' : block_step u txs h fees u' → txs_step h u txs u'.
Proof.
  intros (cb & rest & s1 & -> & Hcb & HC & HT & _). econstructor; [unfold tx_step; by rewrite Hcb|].
  clear -HT. induction HT as [|s tx txs fee fees s1 s' Hcb Hst HT IH]; econstructor; [|done].
  unfold tx_step. rewrite Hcb. by exists fee.
Qed.

Lemma file_transactions_run bh h txs u u' f :
  Forall tx_fits txs → h < MOD64 → stores (UTXOS (f_tables f)) u → txs_step h u txs u' →
  ∃ f' rows spent new, file_transactions bh h txs f = (f', Ok tt) ∧ filing_result bh h txs u u' f f' rows spent new.
Proof.
  intros HF Hh HS Hstep. revert f HS HF; induction Hstep as [u|u tx txs u1 u' Htx Hstep IH]; intros f HS HF.
  - exists f, [], [], []. split; [done|]. by apply filing_result_nil.
  - apply Forall_cons in HF as [Hfit HF].
    destruct (file_transaction_run bh h tx u u1 f Hfit Hh HS Htx) as (f1 & r1 & s1 & n1 & E1 & H1).
    destruct (IH f1 (fr_stores _ _ _ _ _ _ _ _ _ _ H1) HF) as (f2 & r2 & s2 & n2 & E2 & H2).
    exists f2, (r1 ++ r2), (s1 ++ s2), (n1 ++ n2). cbn [file_transactions]. rewrite (sbind_run _ _ _ _ _ E1).
    split; [done|]. change (tx :: txs) with ([tx] ++ txs). by eapply filing_result_trans.
Qed.

(** ** A block in the tables *)

(** The undo data of a block leads from the set after it back to the set before
    it, when no transaction of the block spends another one's output. *)
Definition self_contained (txs : list Transaction) : Prop :=
  ∀ tx i tx', tx ∈ txs → is_coinbase tx = false → i ∈ inputs tx → tx' ∈ txs →
    txid (E := StorageError) tx' ≠ Ok (op_txid (previous_output i)).

Record undo_row (t : Tables) (b : Block) (u u' : UtxoSet) (undo : BlockUndo) (bytes : list byte) : Prop := {
  ur_row : BLOCK_UNDO_TABLE t !! blake3 (header_bytes (header b)) = Some bytes;
  ur_undo : undo_from_bytes bytes = Ok undo;
  ur_spent : (spent_utxos undo).*1 = transactions b ≫= spends;
  ur_restore : self_contained (transactions b) → restore undo u' = u
}.

(** The records a block can add for one address. *)
Definition record_count (b : Block) : nat :=
  (length (transactions b ≫= spends) + length (transactions b ≫= outputs))%nat.

Lemma serialize_each_total {A} `{CanonicalSerialize A} (l : list A) :
  Forall (λ x, ∃ bs, serialize_canonical x = Ok bs) l → ∃ bs, serialize_each l = Ok bs.
Proof.
  induction 1 as [|x l [a Ha] _ [b IH]]; [by exists []|]. cbn [serialize_each]. rewrite Ha, IH. by eexists.
Qed.

(** The undo data filed for a block is written and reads back. *)
Lemma undo_written undo :
  undo_wf undo → Forall (λ p, ∃ bs, to_canonical_bytes p.2 = Ok bs) (spent_utxos undo) →
  ∃ bytes, undo_to_bytes undo = Ok bytes ∧ undo_from_bytes bytes = Ok undo.
Proof.
  intros Hw HF. assert (HB : ∃ bytes, undo_to_bytes undo = Ok bytes).
  { unfold undo_to_bytes. destruct (serialize_each_total (spent_utxos undo)) as [a ->].
    { eapply Forall_impl; [exact HF|]. intros [o e] [bs Hbs]. unfold serialize_canonical, ser_spent. cbn [fst snd] in *.
      rewrite Hbs. by eexists. }
    destruct (serialize_each_total (created_outpoints undo)) as [c ->]; [|by eexists].
    apply Forall_true. intros o. by eexists. }
  destruct HB as [bytes HB]. exists bytes. split; [done|]. by apply block_undo_roundtrip.
Qed.

(** Every row of the address index decodes, to at most [n] records. *)
Definition index_le (n : nat) (t : Tables) : Prop :=
  map_Forall (λ _ v, ∃ l, deserialize_address_tx_records v = Ok l ∧ (length l ≤ n)%nat) (ADDRESS_TX_INDEX t).

Lemma records_written l : ∃ bs, serialize_address_tx_records l = Ok bs.
Proof.
  unfold serialize_address_tx_records, serialize_counted.
  destruct (serialize_each_total l) as [b ->]; [|by eexists]. apply Forall_true. intros [id i o v [tok|]]; by eexists.
Qed.

Lemma address_key_inj a1 a2 h1 h2 :
  make_address_tx_key a1 h1 = make_address_tx_key a2 h2 → a1 = a2.
Proof.
  unfold make_address_tx_key. intros E. apply app_inj_1 in E as [E _]; [|by rewrite !hash_length]. by apply hash_eq.
Qed.

Lemma write_records_run h records t n c :
  NoDup records.*1 → Forall (λ p, Forall record_wf p.2 ∧ (length p.2 ≤ c)%nat) records →
  N.of_nat (n + c) ≤ MAX_VECTOR_LENGTH → index_le (n + c) t →
  (∀ addr v, addr ∈ records.*1 → ADDRESS_TX_INDEX t !! make_address_tx_key addr h = Some v →
     ∃ l, deserialize_address_tx_records v = Ok l ∧ (length l ≤ n)%nat) →
  ∃ idx, write_records h records t = (on_addresses (λ _, idx) t, Ok tt) ∧
    index_le (n + c) (on_addresses (λ _, idx) t) ∧
    ∀ k, (∀ addr, k ≠ make_address_tx_key addr h) → idx !! k = ADDRESS_TX_INDEX t !! k.
Proof.
  intros Hnd HF Hmax. revert t Hnd HF; induction records as [|[addr new] records IH]; intros t Hnd HF HI HR.
  { exists (ADDRESS_TX_INDEX t). split; [by destruct t|done]. }
  cbn in Hnd. apply NoDup_cons in Hnd as [Hno Hnd]. apply Forall_cons in HF as [[Hwf Hc] HF]. cbn [snd] in *.
  cbn [write_records]. rewrite sbind_sget. set (key := make_address_tx_key addr h).
  assert (HM : ∃ merged, (match ADDRESS_TX_INDEX t !! key with
         | Some v => let! old := slift (ser_err (deserialize_address_tx_records v)) in sret (old ++ new)
         | None => sret new
         end) t = (t, Ok merged) ∧ Forall record_wf merged ∧ (length merged ≤ n + c)%nat).
  { destruct (ADDRESS_TX_INDEX t !! key) as [v|] eqn:E; [|eexists; split; [done|]; split; [done|lia]].
    destruct (HR addr v) as (l & Hl & Hn); [by left|done|]. rewrite Hl. eexists. split; [done|].
    apply address_records_roundtrip in Hl as (Hold & _). rewrite length_app. split; [by apply Forall_app|lia]. }
  destruct HM as (merged & HM & Hmw & Hml). rewrite (sbind_run _ _ _ _ _ HM).
  destruct (records_written merged) as [payload Hp]. rewrite Hp. cbn [ser_err map_err]. rewrite sbind_lift_Ok, sbind_smodify.
  destruct (IH (on_addresses (insert key payload) t) Hnd HF) as (idx & E & HL & HK).
  { intros k v Hkv. cbn [on_addresses ADDRESS_TX_INDEX] in Hkv. apply lookup_insert_Some in Hkv as [[<- <-]|[_ Hv]]; [|by eapply HI].
    exists merged. split; [|done]. apply address_records_roundtrip. split; [done|]. split; [lia|done]. }
  { intros a v Ha. cbn [on_addresses ADDRESS_TX_INDEX]. rewrite lookup_insert_ne.
    - intros Hv. eapply HR; [by right|done].
    - intros Hk. apply address_key_inj in Hk. by subst a. }
  exists idx. rewrite E. split; [done|]. split; [exact HL|]. intros k Hk. rewrite HK by done. cbn.
  apply lookup_insert_ne. intros E2. by apply (Hk addr).
Qed.

(** Filing a block on tables that store the set before it. [t'] are the tables
    up to the tip. *)
Record block_filed (b : Block) (h : N) (work : CumulativeWork) (t t' : Tables) (u u' : UtxoSet)
    (rows : list (Hash * list byte)) : Prop := {
  bf_blocks : ∃ bytes, to_canonical_bytes b = Ok bytes ∧
    BLOCKS t' = <[blake3 (header_bytes (header b)) := bytes]> (BLOCKS t);
  bf_transactions : TRANSACTIONS t' = foldl (λ m p, <[p.1 := p.2]> m) (TRANSACTIONS t) rows;
  bf_confirm : TX_CONFIRM_INDEX t' =
    foldl (λ m p, <[p.1 := location_bytes (blake3 (header_bytes (header b))) h]> m) (TX_CONFIRM_INDEX t) rows;
  bf_rows : Forall2 (λ tx p, txid (E := StorageError) tx = Ok p.1 ∧ to_canonical_bytes tx = Ok p.2) (transactions b) rows;
  bf_stores : stores (UTXOS t') u';
  bf_index : BLOCK_INDEX t' = <[blake3 (header_bytes (header b)) := index_row b h work]> (BLOCK_INDEX t);
  bf_undo : ∃ undo bytes, undo_row t' b u u' undo bytes ∧
    BLOCK_UNDO_TABLE t' = <[blake3 (header_bytes (header b)) := bytes]> (BLOCK_UNDO_TABLE t);
  bf_heights : BLOCK_HEIGHT_INDEX t' = <[be_bytes 8 h := blake3 (header_bytes (header b))]> (BLOCK_HEIGHT_INDEX t);
  bf_addresses : ∀ k, (∀ addr, k ≠ make_address_tx_key addr h) → ADDRESS_TX_INDEX t' !! k = ADDRESS_TX_INDEX t !! k;
  bf_state : CHAIN_STATE t' = CHAIN_STATE t;
  bf_meta : META_TABLE t' = META_TABLE t
}.

Lemma tx_tables_fields bh h rows t :
  tx_tables bh h rows t =
  on_confirm (λ m, foldl (λ m p, <[p.1 := location_bytes bh h]> m) m rows)
    (on_transactions (λ m, foldl (λ m p, <[p.1 := p.2]> m) m rows) t).
Proof.
  revert t; induction rows as [|[id b] rows IH]; intros t; [by destruct t|].
  change (tx_tables bh h ((id, b) :: rows) t) with
    (tx_tables bh h rows (on_confirm (insert id (location_bytes bh h)) (on_transactions (insert id b) t))).
  by rewrite IH.
Qed.

Lemma rows_ids txs rows p :
  Forall2 (λ tx p, txid (E := StorageError) tx = Ok p.1 ∧ to_canonical_bytes tx = Ok p.2) txs rows →
  p ∈ rows.*1 → ∃ tx, tx ∈ txs ∧ txid (E := StorageError) tx = Ok p.
Proof.
  intros HF (q & -> & Hq)%list_elem_of_fmap. apply list_elem_of_lookup in Hq as [i Hi].
  destruct (Forall2_lookup_r _ _ _ _ _ HF Hi) as (tx' & Hi' & Hid & _). exists tx'.
  split; [by eapply list_elem_of_lookup_2|done].
Qed.

Definition block_fits (b : Block) : Prop :=
  Forall tx_fits (transactions b) ∧ N.of_nat (record_count b) ≤ MAX_VECTOR_LENGTH.

Lemma block_fits_bytes b : block_fits b → ∃ bytes, to_canonical_bytes b = Ok bytes.
Proof. intros [HF _]. apply block_encodable_spec. eapply Forall_impl; [exact HF|]. by intros tx [? _]. Qed.

(** The loop over the transactions, its undo data, and the undo row. *)
Lemma filing_run b h t u fees u' :
  block_fits b → h < MOD64 → stores (UTXOS t) u → block_step u (transactions b) h fees u' →
  let bh := blake3 (header_bytes (header b)) in
  ∃ tbl recs rows undo bytes,
    filing (file_transactions bh h (transactions b)) t = (filed_utxos tbl (tx_tables bh h rows t), Ok (recs, undo)) ∧
    stores tbl u' ∧ recs_le (record_count b) recs ∧
    Forall2 (λ tx p, txid (E := StorageError) tx = Ok p.1 ∧ to_canonical_bytes tx = Ok p.2) (transactions b) rows ∧
    undo_to_bytes undo = Ok bytes ∧ undo_from_bytes bytes = Ok undo ∧
    (spent_utxos undo).*1 = transactions b ≫= spends ∧
    (self_contained (transactions b) → restore undo u' = u).
Proof.
  intros [HF Hs] Hh HS Hstep%block_txs_step bh. unfold record_count, MAX_VECTOR_LENGTH in Hs.
  destruct (file_transactions_run bh h (transactions b) u u' (mkFiling t ∅ (mkBlockUndo [] [])) HF Hh HS Hstep)
    as (f' & rows & spent & new & E & [T U S R P EN N C B I]). cbn [f_undo f_tables spent_utxos created_outpoints app] in *.
  destruct (undo_written (mkBlockUndo spent new)) as (bytes & Hb1 & Hb2).
  { unfold undo_wf. cbn [spent_utxos created_outpoints]. split; [eapply Forall_impl; [exact EN|]; by intros p [? _]|].
    split; [eapply Forall_impl; [exact N|]; by intros o [? _]|]. rewrite <- P, length_fmap in Hs. split; lia. }
  { eapply Forall_impl; [exact EN|]. by intros p [_ ?]. }
  exists (UTXOS (f_tables f')), (f_records f'), rows, (mkBlockUndo spent new), bytes.
  split. { unfold filing. rewrite E. cbn [obind]. by rewrite U, T. }
  split; [done|]. split; [by apply (B 0%nat)|]. split; [done|]. split; [done|]. split; [done|]. split; [done|].
  intros Hsc. rewrite <- U. apply I; [|by split; [|intros o ?%elem_of_nil]].
  intros o Ho. split; [|by intros ?%elem_of_nil]. intros (tx' & Htx' & Hid)%(rows_ids _ _ _ R).
  apply list_elem_of_bind in Ho as (tx & Ho & Htx). unfold spends in Ho.
  destruct (is_coinbase tx) eqn:Hcb; [by apply elem_of_nil in Ho|]. apply list_elem_of_fmap in Ho as (i & -> & Hi).
  exact (Hsc tx i tx' Htx Hcb Hi Htx' Hid).
Qed.

Lemma index_le_weaken n m t : (n ≤ m)%nat → index_le n t → index_le m t.
Proof. intros Hnm H k v Hv. destruct (H k v Hv) as (l & ? & ?). exists l. split; [done|lia]. Qed.

Lemma address_records_run h recs t n c :
  recs_le c recs → index_le n t → N.of_nat (n + c) ≤ MAX_VECTOR_LENGTH →
  ∃ idx, write_address_records h recs t = (on_addresses (λ _, idx) t, Ok tt) ∧
    index_le (n + c) (on_addresses (λ _, idx) t) ∧
    ∀ k, (∀ addr, k ≠ make_address_tx_key addr h) → idx !! k = ADDRESS_TX_INDEX t !! k.
Proof.
  intros HC HI Hmax. apply write_records_run; [apply NoDup_fst_map_to_list| |done| |].
  - apply Forall_forall. intros [a l] Hl%elem_of_map_to_list. exact (HC a l Hl).
  - eapply index_le_weaken; [|exact HI]. lia.
  - intros addr v _. apply HI.
Qed.

Lemma connect_block_run b h work t u fees u' n :
  block_fits b → h < MOD64 → stores (UTXOS t) u → block_step u (transactions b) h fees u' →
  index_le n t → N.of_nat (n + record_count b) ≤ MAX_VECTOR_LENGTH →
  ∃ t' rows, connect_block b h work t = (t', Ok tt) ∧ block_filed b h work t t' u u' rows ∧
    index_le (n + record_count b) t'.
Proof.
  intros Hfit Hh HS Hstep HI Hmax. destruct (block_fits_bytes b Hfit) as [bb Hbb]. unfold connect_block.
  rewrite header_hash_ok, sbind_lift_Ok, sbind_smodify, Hbb. cbn [ser_err map_err]. rewrite sbind_lift_Ok, sbind_smodify.
  set (bh := blake3 (header_bytes (header b))). set (t1 := on_blocks _ _).
  destruct (filing_run b h t1 u fees u' Hfit Hh HS Hstep)
    as (tbl & recs & rows & undo & bytes & E & HS' & HC & Hrows & Hb1 & Hb2 & Hsp & Hre).
  rewrite (sbind_run _ _ _ _ _ E). cbv beta iota. rewrite Hb1, sbind_lift_Ok, sbind_smodify, tx_tables_fields.
  set (t2 := on_undo _ _). destruct (address_records_run h recs t2 n _ HC HI Hmax) as (idx & E2 & HL & HK).
  rewrite (sbind_run _ _ _ _ _ E2). eexists _, rows. split; [reflexivity|]. split; [|exact HL].
  split; try done.
  - by exists bb.
  - exists undo, bytes. split; [|done]. split; [by apply lookup_insert_eq|done..].
Qed.

Lemma commit_block_run b h work t u fees u' n :
  block_fits b → h < MOD64 → stores (UTXOS t) u → block_step u (transactions b) h fees u' →
  index_le n t → N.of_nat (n + record_count b) ≤ MAX_VECTOR_LENGTH →
  ∃ t' rows, commit_block_tables b h work t =
      (on_state (set_tip (blake3 (header_bytes (header b))) h) t', Ok tt) ∧ block_filed b h work t t' u u' rows ∧
    index_le (n + record_count b) t'.
Proof.
  intros Hfit Hh HS Hstep HI Hmax. destruct (block_fits_bytes b Hfit) as [bb Hbb]. unfold commit_block_tables.
  rewrite header_hash_ok, sbind_lift_Ok, Hbb. cbn [ser_err map_err]. rewrite sbind_lift_Ok, !sbind_smodify.
  set (bh := blake3 (header_bytes (header b))). set (t1 := on_heights _ _).
  destruct (filing_run b h t1 u fees u' Hfit Hh HS Hstep)
    as (tbl & recs & rows & undo & bytes & E & HS' & HC & Hrows & Hb1 & Hb2 & Hsp & Hre).
  rewrite (sbind_run _ _ _ _ _ E). cbv beta iota. rewrite tx_tables_fields.
  set (t2 := filed_utxos _ _). destruct (address_records_run h recs t2 n _ HC HI Hmax) as (idx & E2 & HL & HK).
  rewrite (sbind_run _ _ _ _ _ E2), Hb1, sbind_lift_Ok, !sbind_smodify.
  eexists (on_index _ _), rows. split; [reflexivity|]. split; [|exact HL]. split; try done.
  - by exists bb.
  - exists undo, bytes. split; [|done]. split; [by apply lookup_insert_eq|done..].
Qed.

(** ** A block leaving the tables *)

Lemma restore_spent_run spent t u :
  stores (UTXOS t) u → Forall (λ p, entry_wf p.1 p.2 ∧ ∃ bs, to_canonical_bytes p.2 = Ok bs) spent →
  ∃ tbl, restore_spent spent t = (filed_utxos tbl t, Ok tt) ∧ stores tbl (inserts spent u).
Proof.
  intros HS HF. revert t u HS; induction HF as [|[o e] spent [Hw [bs Hbs]] _ IH]; intros t u HS.
  { exists (UTXOS t). split; [by destruct t|done]. }
  cbn [restore_spent fst snd] in *. rewrite Hbs. cbn [ser_err map_err]. rewrite sbind_lift_Ok, sbind_smodify.
  destruct (IH (on_utxos (insert (outpoint_to_key o) bs) t) (<[o := e]> u)) as (tbl & -> & HS'); [by apply stores_insert|].
  by exists tbl.
Qed.

Lemma delete_created_stores C t u :
  stores (UTXOS t) u → Forall outpoint_wf C →
  stores (foldl (λ u o, delete (outpoint_to_key o) u) (UTXOS t) C) (deletes C u).
Proof.
  generalize (UTXOS t). clear t. intros tbl HS HF. revert tbl u HS; induction HF as [|o C Ho _ IH]; intros tbl u HS; [done|].
  cbn [foldl]. apply (IH _ (delete o u)). by apply stores_delete.
Qed.

Lemma serialize_each_inv {A} `{CanonicalSerialize A} (l : list A) bs :
  serialize_each l = Ok bs → Forall (λ x, ∃ b, serialize_canonical x = Ok b) l.
Proof.
  revert bs; induction l as [|x l IH]; intros bs E; [constructor|]. cbn [serialize_each] in E. dinv.
  constructor; [by eexists|by eapply IH].
Qed.

Lemma apply_undo_run bh t u undo bytes :
  stores (UTXOS t) u → BLOCK_UNDO_TABLE t !! bh = Some bytes → undo_from_bytes bytes = Ok undo →
  ∃ tbl, apply_undo bh t = (filed_utxos tbl t, Ok tt) ∧ stores tbl (restore undo u).
Proof.
  intros HS Hrow Hundo. pose proof Hundo as ((HFs & HFc & _) & HB)%block_undo_roundtrip.
  unfold apply_undo. rewrite sbind_sget, Hrow. cbn [ok_or]. rewrite sbind_lift_Ok, Hundo, sbind_lift_Ok, sbind_smodify.
  set (t1 := on_utxos _ _). destruct (restore_spent_run (spent_utxos undo) t1 (deletes (created_outpoints undo) u))
    as (tbl & -> & HS').
  - by apply delete_created_stores.
  - unfold undo_to_bytes, ser_err in HB. apply obind_Ok in HB as (a & Ha%map_err_Ok%serialize_each_inv & _).
    apply Forall_and. split; [exact HFs|]. eapply Forall_impl; [exact Ha|]. intros [o e] [b Hb].
    unfold serialize_canonical, ser_spent in Hb. apply obind_Ok in Hb as (x & _ & (y & Hy & _)%obind_Ok). by exists y.
  - by exists tbl.
Qed.

Definition without_ids {A} (ids : list Hash) (m : gmap Hash A) : gmap Hash A := foldl (λ m id, delete id m) m ids.

Lemma remove_transactions_run txs t :
  Forall transaction_encodable txs →
  ∃ ids, Forall2 (λ tx id, txid (E := StorageError) tx = Ok id) txs ids ∧
    remove_transactions txs t = (on_confirm (without_ids ids) (on_transactions (without_ids ids) t), Ok tt).
Proof.
  intros HF. revert t; induction HF as [|tx txs He _ IH]; intros t.
  { exists []. split; [constructor|]. by destruct t. }
  destruct (transaction_encodable_txid (E := StorageError) tx He) as [id Hid].
  destruct (IH (on_confirm (delete id) (on_transactions (delete id) t))) as (ids & H1 & H2).
  exists (id :: ids). split; [by constructor|]. cbn [remove_transactions]. rewrite Hid, sbind_lift_Ok, !sbind_smodify.
  rewrite H2. done.
Qed.

Lemma tx_map_total {E} txs : Forall transaction_encodable txs → ∃ m, tx_map (E := E) txs = Ok m.
Proof.
  unfold tx_map. generalize (∅ : gmap Hash Transaction). intros m HF. revert m; induction HF as [|tx txs He _ IH]; intros m; [by eexists|].
  cbn [ofold]. destruct (transaction_encodable_txid (E := E) tx He) as [id ->]. cbn [obind]. apply IH.
Qed.

Lemma foldl_delete_subseteq (keys : list Hash) (h : N) (idx : gmap (list byte) (list byte)) k v :
  foldl (λ idx addr, delete (make_address_tx_key addr h) idx) idx keys !! k = Some v → idx !! k = Some v.
Proof.
  revert idx; induction keys as [|a keys IH]; intros idx; [done|]. cbn [foldl]. intros H%IH.
  by apply lookup_delete_Some in H as [_ ?].
Qed.

Lemma remove_records_run b h t :
  Forall transaction_encodable (transactions b) →
  ∃ idx, remove_block_address_records_internal b h t = (on_addresses (λ _, idx) t, Ok tt) ∧
    idx ⊆ ADDRESS_TX_INDEX t.
Proof.
  intros HF. unfold remove_block_address_records_internal. destruct (tx_map_total (E := StorageError) _ HF) as [m ->].
  rewrite sbind_lift_Ok, sbind_sget. eexists. split; [reflexivity|].
  apply map_subseteq_spec. intros k v. apply foldl_delete_subseteq.
Qed.

(** What is left when a block has gone: [u] is the set its undo data leads to. *)
Record block_gone (b : Block) (h : N) (t t' : Tables) (u : UtxoSet) : Prop := {
  bg_blocks : BLOCKS t' = delete (blake3 (header_bytes (header b))) (BLOCKS t);
  bg_index : BLOCK_INDEX t' = delete (blake3 (header_bytes (header b))) (BLOCK_INDEX t);
  bg_undo : BLOCK_UNDO_TABLE t' = delete (blake3 (header_bytes (header b))) (BLOCK_UNDO_TABLE t);
  bg_heights : BLOCK_HEIGHT_INDEX t' = delete (be_bytes 8 h) (BLOCK_HEIGHT_INDEX t);
  bg_transactions : ∃ ids, Forall2 (λ tx id, txid (E := StorageError) tx = Ok id) (transactions b) ids ∧
    TRANSACTIONS t' = without_ids ids (TRANSACTIONS t) ∧ TX_CONFIRM_INDEX t' = without_ids ids (TX_CONFIRM_INDEX t);
  bg_stores : stores (UTXOS t') u;
  bg_addresses : ADDRESS_TX_INDEX t' ⊆ ADDRESS_TX_INDEX t;
  bg_meta : META_TABLE t' = META_TABLE t
}.

Lemma index_row_height b h work :
  h < MOD64 → work_wf work → timestamp (header b) < MOD64 →
  meta_height <$> meta_from_bytes (index_row b h work) = Some h.
Proof.
  intros Hh [Hw Hl] Ht. unfold index_row. set (m := mkBlockMeta _ _ _).
  destruct (block_meta_roundtrip m) as [_ ->]; [|done]. split; [done|]. split; [exact Hl|]. split; [|done].
  eapply Forall_impl; [exact Hw|]. done.
Qed.

Lemma disconnect_block_run b h work t u undo bytes :
  Forall transaction_encodable (transactions b) → h < MOD64 → work_wf work → timestamp (header b) < MOD64 →
  BLOCK_INDEX t !! blake3 (header_bytes (header b)) = Some (index_row b h work) →
  stores (UTXOS t) u → BLOCK_UNDO_TABLE t !! blake3 (header_bytes (header b)) = Some bytes →
  undo_from_bytes bytes = Ok undo →
  ∃ t', disconnect_block b t = (t', Ok tt) ∧ block_gone b h t t' (restore undo u) ∧ CHAIN_STATE t' = CHAIN_STATE t.
Proof.
  intros HF Hh Hw Ht Hidx HS Hrow Hundo. unfold disconnect_block.
  rewrite header_hash_ok, sbind_lift_Ok, sbind_sget, Hidx. cbn [mbind option_bind].
  rewrite (index_row_height b h work Hh Hw Ht). cbv beta iota zeta.
  destruct (remove_records_run b h t HF) as (idx & E & Hsub). rewrite sbind_assoc, (sbind_run _ _ _ _ _ E), sbind_smodify.
  set (t1 := on_heights _ _). destruct (apply_undo_run _ t1 u undo bytes HS Hrow Hundo) as (tbl & E1 & HS').
  rewrite (sbind_run _ _ _ _ _ E1).
  destruct (remove_transactions_run (transactions b) (filed_utxos tbl t1) HF) as (ids & Hids & E2).
  rewrite (sbind_run _ _ _ _ _ E2). eexists. split; [reflexivity|]. split; [|done]. split; try done. by exists ids.
Qed.

Lemma unwind_block_run b h t u undo bytes :
  Forall transaction_encodable (transactions b) →
  stores (UTXOS t) u → BLOCK_UNDO_TABLE t !! blake3 (header_bytes (header b)) = Some bytes →
  undo_from_bytes bytes = Ok undo →
  ∃ t', unwind_block_tables b h t = (t', Ok tt) ∧ block_gone b h t t' (restore undo u) ∧
    CHAIN_STATE t' =
      if bool_decide (CHAIN_STATE t !! KEY_TIP_HASH = Some (hash_bytes (blake3 (header_bytes (header b)))))
      then set_tip (previous_block_hash (header b)) (h - 1) (CHAIN_STATE t) else CHAIN_STATE t.
Proof.
  intros HF HS Hrow Hundo. unfold unwind_block_tables.
  destruct (remove_records_run b h t HF) as (idx & E & Hsub). rewrite (sbind_run _ _ _ _ _ E).
  rewrite header_hash_ok, sbind_lift_Ok. set (t1 := on_addresses _ _).
  destruct (apply_undo_run _ t1 u undo bytes HS Hrow Hundo) as (tbl & E1 & HS'). rewrite (sbind_run _ _ _ _ _ E1).
  destruct (remove_transactions_run (transactions b) (filed_utxos tbl t1) HF) as (ids & Hids & E2).
  rewrite (sbind_run _ _ _ _ _ E2), !sbind_smodify, sbind_sget.
  change (CHAIN_STATE (on_heights _ _)) with (CHAIN_STATE t).
  case_bool_decide; (eexists; split; [reflexivity|]; split; [|done]); split; try done; by exists ids.
Qed.

(** ** The chain in the tables *)

Definition Entry : Type := Block * N * CumulativeWork.
Definition block_id (b : Block) : Hash := blake3 (header_bytes (header b)).
Definition entry_id (e : Entry) : Hash := block_id e.1.1.
Definition entry_ok (e : Entry) : Prop :=
  block_fits e.1.1 ∧ e.1.2 < MOD64 ∧ work_wf e.2 ∧ timestamp (header e.1.1) < MOD64.

(** The rows of a block that led from [u] to [u']. *)
Record rows_of (t : Tables) (e : Entry) (u u' : UtxoSet) : Prop := {
  ro_block : ∃ bytes, to_canonical_bytes e.1.1 = Ok bytes ∧ BLOCKS t !! entry_id e = Some bytes;
  ro_index : BLOCK_INDEX t !! entry_id e = Some (index_row e.1.1 e.1.2 e.2);
  ro_height : BLOCK_HEIGHT_INDEX t !! be_bytes 8 e.1.2 = Some (entry_id e);
  ro_undo : ∃ undo bytes, undo_row t e.1.1 u u' undo bytes
}.

Inductive stored_chain (t : Tables) : list Entry → UtxoSet → Prop :=
| stored_nil : stored_chain t [] ∅
| stored_snoc l u e fees u' :
    stored_chain t l u → entry_ok e → block_step u (transactions e.1.1) e.1.2 fees u' → rows_of t e u u' →
    stored_chain t (l ++ [e]) u'.

(** Tables that hold the blocks [l], filed in order, and the set [u] they leave. *)
Record holds (t : Tables) (l : list Entry) (u : UtxoSet) : Prop := {
  ho_chain : stored_chain t l u;
  ho_stores : stores (UTXOS t) u;
  ho_ids : NoDup (entry_id <$> l);
  ho_heights : NoDup ((λ e : Entry, e.1.2) <$> l)
}.

Lemma holds_empty : holds empty_tables [] ∅.
Proof. split; [constructor|apply stores_empty|constructor..]. Qed.

Definition same_rows (t t' : Tables) (e : Entry) : Prop :=
  BLOCKS t' !! entry_id e = BLOCKS t !! entry_id e ∧ BLOCK_INDEX t' !! entry_id e = BLOCK_INDEX t !! entry_id e ∧
  BLOCK_HEIGHT_INDEX t' !! be_bytes 8 e.1.2 = BLOCK_HEIGHT_INDEX t !! be_bytes 8 e.1.2 ∧
  BLOCK_UNDO_TABLE t' !! entry_id e = BLOCK_UNDO_TABLE t !! entry_id e.

Lemma rows_of_frame t t' e u u' : same_rows t t' e → rows_of t e u u' → rows_of t' e u u'.
Proof.
  intros (H1 & H2 & H3 & H4) [Hb Hi Hh (undo & bytes & [Hr Hu Hs He])]. split; [by rewrite H1|by rewrite H2|by rewrite H3|].
  exists undo, bytes. split; [|done..]. change (blake3 _) with (entry_id e). by rewrite H4.
Qed.

Lemma stored_chain_frame t t' l u : stored_chain t l u → Forall (same_rows t t') l → stored_chain t' l u.
Proof.
  induction 1 as [|l u e fees u' _ IH He Hs Hr]; intros HF; [constructor|].
  apply Forall_app in HF as [HF HF1]. apply Forall_cons in HF1 as [HF1 _].
  exact (stored_snoc _ _ _ _ _ _ (IH HF) He Hs (rows_of_frame _ _ _ _ _ HF1 Hr)).
Qed.

Lemma stored_chain_ok t l u : stored_chain t l u → Forall entry_ok l.
Proof. induction 1; [constructor|]. apply Forall_app. split; [done|]. by constructor. Qed.

Lemma stored_chain_snoc t l e u' :
  stored_chain t (l ++ [e]) u' →
  ∃ u fees, stored_chain t l u ∧ entry_ok e ∧ block_step u (transactions e.1.1) e.1.2 fees u' ∧ rows_of t e u u'.
Proof.
  intros H. inversion H as [E|l0 u e0 fees u0 H1 H2 H3 H4 E Eu]; [by destruct l|].
  apply app_inj_tail in E as [-> ->]. by exists u, fees.
Qed.

Lemma filed_same_rows b h work t t' u u' rows l :
  block_filed b h work t t' u u' rows → h < MOD64 → Forall entry_ok l →
  block_id b ∉ entry_id <$> l → h ∉ (λ e : Entry, e.1.2) <$> l → Forall (same_rows t t') l.
Proof.
  intros [(bytes & _ & EB) _ _ _ _ EI (undo & ub & _ & EU) EH _ _ _] Hh HF Hid Hhe. apply Forall_forall. intros e He.
  rewrite Forall_forall in HF. destruct (HF e He) as (_ & Hhe' & _).
  assert (N1 : block_id b ≠ entry_id e) by (intros E; apply Hid; rewrite E; by apply (list_elem_of_fmap_2 entry_id)).
  assert (N2 : be_bytes 8 h ≠ be_bytes 8 e.1.2).
  { intros E%height_key_inj; [|done..]. apply Hhe. rewrite E. by apply (list_elem_of_fmap_2 (λ e : Entry, e.1.2)). }
  unfold same_rows. rewrite EB, EI, EU, EH. by rewrite !lookup_insert_ne.
Qed.

(** Filing the next block. *)
Lemma holds_filed b h work t t' u u' rows l fees :
  holds t l u → entry_ok (b, h, work) → block_step u (transactions b) h fees u' →
  block_id b ∉ entry_id <$> l → h ∉ (λ e : Entry, e.1.2) <$> l →
  block_filed b h work t t' u u' rows → holds t' (l ++ [(b, h, work)]) u'.
Proof.
  intros [HC HS Hi Hh] Hok Hstep Hid Hhe HB. split.
  - econstructor; [|exact Hok|exact Hstep|].
    + eapply stored_chain_frame; [exact HC|]. eapply filed_same_rows; [exact HB|apply Hok| |done|done].
      by eapply stored_chain_ok.
    + destruct HB as [(bytes & Hb & EB) _ _ _ _ EI (undo & ub & HU & EU) EH _ _ _]. split; cbn [fst snd].
      * exists bytes. split; [done|]. rewrite EB. apply lookup_insert_eq.
      * rewrite EI. apply lookup_insert_eq.
      * rewrite EH. apply lookup_insert_eq.
      * by exists undo, ub.
  - apply HB.
  - rewrite fmap_app. apply NoDup_app. split; [done|]. split; [|apply NoDup_singleton]. cbn. set_solver.
  - rewrite fmap_app. apply NoDup_app. split; [done|]. split; [|apply NoDup_singleton]. cbn. set_solver.
Qed.

Lemma holds_state t l u f : holds t l u → holds (on_state f t) l u.
Proof.
  intros [HC HS Hi Hh]. split; [|done..]. eapply stored_chain_frame; [exact HC|]. by apply Forall_true.
Qed.

Lemma get_tip_set t id h :
  h < MOD64 → get_canonical_tip (on_state (set_tip id h) t) = Ok (Some (id, h)).
Proof.
  intros Hh. unfold get_canonical_tip. cbn [on_state CHAIN_STATE]. unfold set_tip.
  rewrite lookup_insert_ne, lookup_insert_eq by done. rewrite hash_of_list_bytes. cbn [ok_or obind].
  rewrite lookup_insert_eq, length_le_bytes. cbn [Nat.eqb negb]. by rewrite (le_val_le_bytes_small 8).
Qed.

(** Rolling back the last block. *)
Lemma stored_chain_det t1 t2 l u1 u2 : stored_chain t1 l u1 → stored_chain t2 l u2 → u1 = u2.
Proof.
  intros H1. revert u2; induction H1 as [|l u e fees u' H1 IH Hok Hst Hr]; intros u2 H2.
  - inversion H2 as [|? ? ? ? ? ? ? ? ? E]; [done|]. by destruct l.
  - apply stored_chain_snoc in H2 as (v & fees2 & HC & _ & Hst2 & _). apply IH in HC as <-.
    apply apply_block_Ok in Hst, Hst2. congruence.
Qed.
Lemma stored_chain_prefix t l1 l2 v : stored_chain t (l1 ++ l2) v → ∃ w, stored_chain t l1 w.
Proof.
  revert v; induction l2 as [|x l2 IH] using rev_ind; intros v Hv; [rewrite app_nil_r in Hv; by eexists|].
  rewrite app_assoc in Hv. apply stored_chain_snoc in Hv as (w & _ & Hw & _). by eapply IH.
Qed.

Lemma holds_disconnect t l e u' :
  holds t (l ++ [e]) u' → self_contained (transactions e.1.1) →
  ∃ t' u, disconnect_block e.1.1 t = (t', Ok tt) ∧ holds t' l u ∧ stored_chain t l u ∧
    CHAIN_STATE t' = CHAIN_STATE t ∧ ADDRESS_TX_INDEX t' ⊆ ADDRESS_TX_INDEX t.
Proof.
  intros [HC HS Hi Hh] Hsc. apply stored_chain_snoc in HC as (u & fees & HC & Hok & Hst & [Hb Hidx Hhe (undo & bytes & [Hr Hu Hs Hre])]).
  destruct Hok as ([Hfit Hc] & Hh64 & Hw & Ht).
  destruct (disconnect_block_run e.1.1 e.1.2 e.2 t u' undo bytes) as (t' & E & HG & Hstate); try done.
  { eapply Forall_impl; [exact Hfit|]. by intros tx [? _]. }
  rewrite Hre in HG by done. exists t', u. split; [done|].
  rewrite fmap_app in Hi. rewrite fmap_app in Hh. apply NoDup_app in Hi as (Hi1 & Hi2 & _). apply NoDup_app in Hh as (Hh1 & Hh2 & _).
  destruct HG as [EB EI EU EH _ HS' HA _]. split; [|done]. split; [|done..].
  eapply stored_chain_frame; [exact HC|]. apply Forall_forall. intros x Hx.
  pose proof (stored_chain_ok _ _ _ HC) as HF. rewrite Forall_forall in HF. destruct (HF x Hx) as (_ & Hx64 & _).
  assert (N1 : blake3 (header_bytes (header e.1.1)) ≠ entry_id x).
  { intros E1. apply (Hi2 (entry_id x)); [by apply (list_elem_of_fmap_2 entry_id)|]. rewrite <- E1. by left. }
  assert (N2 : be_bytes 8 e.1.2 ≠ be_bytes 8 x.1.2).
  { intros E1%height_key_inj; [|done..]. apply (Hh2 x.1.2); [by apply (list_elem_of_fmap_2 (λ e : Entry, e.1.2))|].
    rewrite <- E1. by left. }
  unfold same_rows. rewrite EB, EI, EU, EH. by rewrite !lookup_delete_ne.
Qed.

Definition total_records (l : list Entry) : nat := foldr (λ e n, (record_count e.1.1 + n)%nat) 0%nat l.

Inductive entries_step : UtxoSet → list Entry → UtxoSet → Prop :=
| entries_step_nil u : entries_step u [] u
| entries_step_cons u e l u1 fees u' :
    block_step u (transactions e.1.1) e.1.2 fees u1 → entries_step u1 l u' → entries_step u (e :: l) u'.

Lemma index_le_sub n t t' : ADDRESS_TX_INDEX t' ⊆ ADDRESS_TX_INDEX t → index_le n t → index_le n t'.
Proof. intros Hs HI k v Hv. apply (HI k v). by eapply lookup_weaken. Qed.

Lemma holds_disconnect_all t l da u' n :
  holds t (l ++ da) u' → Forall (λ e : Entry, self_contained (transactions e.1.1)) da → index_le n t →
  ∃ t' u, disconnect_blocks ((λ e : Entry, e.1.1) <$> reverse da) t = (t', Ok tt) ∧ holds t' l u ∧
    stored_chain t l u ∧ CHAIN_STATE t' = CHAIN_STATE t ∧ index_le n t'.
Proof.
  revert t u'; induction da as [|e da IH] using rev_ind; intros t u' HH HF HI.
  { rewrite app_nil_r in HH. exists t, u'. split; [done|]. split; [done|]. split; [apply HH|done]. }
  apply Forall_app in HF as [HF He]. apply Forall_cons in He as [He _].
  rewrite app_assoc in HH. pose proof HH as HH0.
  destruct (holds_disconnect _ _ _ _ HH He) as (t1 & u1 & E1 & H1 & HC1 & HS1 & HA1).
  destruct (IH t1 u1 H1 HF (index_le_sub _ _ _ HA1 HI)) as (t2 & u2 & E2 & H2 & HC2 & HS2 & HI2).
  exists t2, u2. rewrite reverse_snoc. cbn [fmap list_fmap disconnect_blocks]. rewrite (sbind_run _ _ _ _ _ E1).
  split; [done|]. split; [done|]. split; [|split; [congruence|done]].
  destruct (stored_chain_prefix _ _ _ _ HC1) as [w Hw]. by rewrite <- (stored_chain_det _ _ _ _ _ Hw HC2).
Qed.

Lemma holds_connect_all t l db u u' n :
  holds t l u → entries_step u db u' → Forall entry_ok db →
  NoDup (entry_id <$> l ++ db) → NoDup ((λ e : Entry, e.1.2) <$> l ++ db) →
  index_le n t → N.of_nat (n + total_records db) ≤ MAX_VECTOR_LENGTH →
  ∃ t', connect_blocks db t = (t', Ok tt) ∧ holds t' (l ++ db) u' ∧ CHAIN_STATE t' = CHAIN_STATE t ∧
    index_le (n + total_records db) t'.
Proof.
  intros HH Hs. revert t l n HH; induction Hs as [u|u [[b h] work] db u1 fees u' Hst Hs IH]; intros t l n HH HF Hi Hh HI Hmax.
  { exists t. rewrite app_nil_r. cbn [connect_blocks total_records foldr]. rewrite Nat.add_0_r. done. }
  apply Forall_cons in HF as [Hok HF]. cbn [fst snd total_records foldr] in *. fold (total_records db) in *.
  pose proof Hok as (Hfit & Hh64 & _). cbn [fst snd] in Hfit, Hh64.
  destruct (connect_block_run b h work t u fees u1 n Hfit Hh64 (ho_stores _ _ _ HH) Hst HI) as (t1 & rows & E1 & HB & HI1); [lia|].
  assert (Hid : block_id b ∉ entry_id <$> l).
  { rewrite fmap_app in Hi. apply NoDup_app in Hi as (_ & Hi & _). intros Hin. apply (Hi _ Hin). by left. }
  assert (Hhe : h ∉ (λ e : Entry, e.1.2) <$> l).
  { rewrite fmap_app in Hh. apply NoDup_app in Hh as (_ & Hh & _). intros Hin. apply (Hh _ Hin). by left. }
  pose proof (holds_filed b h work t t1 u u1 rows l fees HH Hok Hst Hid Hhe HB) as H1.
  destruct (IH t1 (l ++ [(b, h, work)]) (n + record_count b)%nat H1 HF) as (t2 & E2 & H2 & HS2 & HI2).
  - by rewrite <- app_assoc.
  - by rewrite <- app_assoc.
  - done.
  - lia.
  - exists t2. cbn [connect_blocks]. rewrite (sbind_run _ _ _ _ _ E1). split; [done|].
    rewrite <- app_assoc in H2. split; [done|]. split; [by rewrite HS2, (bf_state _ _ _ _ _ _ _ _ HB)|].
    by rewrite Nat.add_assoc.
Qed.

(** ** What the operations of the engine do *)

Definition next_of (l : list Entry) (e : Entry) : Prop :=
  entry_id e ∉ entry_id <$> l ∧ e.1.2 ∉ (λ e : Entry, e.1.2) <$> l.

Lemma get_block_row t e bytes :
  block_codec_wf e.1.1 → to_canonical_bytes e.1.1 = Ok bytes → BLOCKS t !! entry_id e = Some bytes →
  get_block t (entry_id e) = Ok (Some e.1.1).
Proof.
  intros Hw Hb Hr. unfold get_block, decoded. rewrite Hr. by rewrite (from_to_canonical _ _ Hw Hb).
Qed.

Lemma rows_of_block t e u u' :
  rows_of t e u u' → block_codec_wf e.1.1 → e.1.2 < MOD64 →
  get_block t (entry_id e) = Ok (Some e.1.1) ∧ get_block_by_height t e.1.2 = Ok (Some e.1.1).
Proof.
  intros [(bytes & Hb & Hr) _ Hh _] Hw H64. pose proof (get_block_row _ _ _ Hw Hb Hr) as HG. split; [done|].
  unfold get_block_by_height, get_block_hash_by_height. rewrite Hh. exact HG.
Qed.

Lemma foldl_insert_rows {A} (f : Hash * list byte → A) rows (m : gmap Hash A) p :
  p ∈ rows → ∃ q, q ∈ rows ∧ q.1 = p.1 ∧ foldl (λ m p, <[p.1 := f p]> m) m rows !! p.1 = Some (f q).
Proof.
  revert m; induction rows as [|q rows IH] using rev_ind; intros m; [by intros ?%elem_of_nil|].
  rewrite foldl_snoc, elem_of_app, list_elem_of_singleton. cbn beta.
  destruct (decide (q.1 = p.1)) as [E|E].
  - intros _. exists q. rewrite <- E, lookup_insert_eq. split; [set_solver|done].
  - intros [H|H]; [|by subst q]. destruct (IH m H) as (r & Hr & Er & Hl). exists r. split; [set_solver|]. split; [done|].
    by rewrite lookup_insert_ne.
Qed.

Lemma commit_holds b h work t l u u' fees n :
  holds t l u → entry_ok (b, h, work) → next_of l (b, h, work) → apply_block (transactions b) h u = (u', Ok fees) →
  index_le n t → N.of_nat (n + record_count b) ≤ MAX_VECTOR_LENGTH →
  ∃ t1 rows (t' := on_state (set_tip (block_id b) h) t1),
    commit_block_tables b h work t = (t', Ok tt) ∧ holds t' (l ++ [(b, h, work)]) u' ∧
    index_le (n + record_count b) t' ∧ get_canonical_tip t' = Ok (Some (block_id b, h)) ∧
    block_filed b h work t t1 u u' rows.
Proof.
  intros Hheld Hok [Hid Hhe] Hstep%apply_block_Ok HI Hroom. pose proof Hok as (Hfit & Hh & _). cbn [fst snd] in *.
  destruct (commit_block_run b h work t u fees u' n Hfit Hh (ho_stores _ _ _ Hheld) Hstep HI Hroom)
    as (t1 & rows & E & HB & HI').
  exists t1, rows. cbv zeta. split; [exact E|]. split; [|split; [exact HI'|split; [by apply get_tip_set|exact HB]]].
  apply holds_state. by eapply holds_filed.
Qed.

(** C6: Committing the next block of the chain succeeds, and leaves tables that
    hold the longer chain: the table of unspent outputs is the set the ledger
    computes, the block is found by its hash and by its height, it is the tip,
    and each of its transactions is found, confirmed at the height of the block.
    The address index must have room for the records of the block. *)
Theorem commit_block_spec (b : Block) (h : N) (work : CumulativeWork) (t : Tables) (l : list Entry)
    (u u' : UtxoSet) (fees : N) (n : nat)
    (Hheld : holds t l u) (Hok : entry_ok (b, h, work)) (Hwf : block_codec_wf b) (Hnext : next_of l (b, h, work))
    (Hstep : apply_block (transactions b) h u = (u', Ok fees))
    (Hindex : index_le n t) (Hroom : N.of_nat (n + record_count b) ≤ MAX_VECTOR_LENGTH) :
  ∃ t', commit_block_tables b h work t = (t', Ok tt) ∧ holds t' (l ++ [(b, h, work)]) u' ∧
    index_le (n + record_count b) t' ∧ get_canonical_tip t' = Ok (Some (block_id b, h)) ∧
    get_block t' (block_id b) = Ok (Some b) ∧ get_block_by_height t' h = Ok (Some b) ∧
    (∀ o, outpoint_wf o → get_utxo t' o = Ok (u' !! o)) ∧
    ∀ tx id, tx ∈ transactions b → txid (E := StorageError) tx = Ok id →
      get_transaction_location t' id = Ok (Some (block_id b, h)) ∧
      ∃ tx', tx' ∈ transactions b ∧ txid (E := StorageError) tx' = Ok id ∧ get_transaction t' id = Ok (Some tx').
Proof.
  pose proof Hok as (Hfit & Hh & _). cbn [fst snd] in Hfit, Hh.
  destruct (commit_holds b h work t l u u' fees n Hheld Hok Hnext Hstep Hindex Hroom) as (t1 & rows & E & H2 & HI & HT & HB).
  set (t' := on_state (set_tip (block_id b) h) t1) in *. exists t'. split; [exact E|]. split; [exact H2|]. split; [exact HI|].
  split; [exact HT|].
  destruct (stored_chain_snoc _ _ _ _ (ho_chain _ _ _ H2)) as (v & f & _ & _ & _ & HR).
  destruct (rows_of_block _ _ _ _ HR Hwf Hh) as [HG1 HG2]. split; [exact HG1|]. split; [exact HG2|].
  split. { intros o Ho. apply stores_get_utxo; [apply H2|done]. }
  intros tx id Htx Hid'. apply list_elem_of_lookup in Htx as [i Hi].
  destruct (Forall2_lookup_l _ _ _ _ _ (bf_rows _ _ _ _ _ _ _ _ HB) Hi) as (p & Hp & Hp1 & Hp2).
  assert (Hpin : p ∈ rows) by by eapply list_elem_of_lookup_2.
  replace id with p.1 by congruence. split.
  - destruct (foldl_insert_rows (λ _, location_bytes (block_id b) h) rows (TX_CONFIRM_INDEX t) p Hpin) as (q & _ & _ & HL).
    unfold get_transaction_location. change (TX_CONFIRM_INDEX t') with (TX_CONFIRM_INDEX t1).
    rewrite (bf_confirm _ _ _ _ _ _ _ _ HB). fold (block_id b). rewrite HL. by rewrite location_roundtrip.
  - destruct (foldl_insert_rows snd rows (TRANSACTIONS t) p Hpin) as (q & Hq & Eq & HL).
    apply list_elem_of_lookup in Hq as [j Hj].
    destruct (Forall2_lookup_r _ _ _ _ _ (bf_rows _ _ _ _ _ _ _ _ HB) Hj) as (tx' & Hj' & Hq1 & Hq2).
    assert (Htx' : tx' ∈ transactions b) by by eapply list_elem_of_lookup_2.
    exists tx'. split; [done|]. split; [by rewrite Hq1, Eq|].
    unfold get_transaction, decoded. change (TRANSACTIONS t') with (TRANSACTIONS t1).
    rewrite (bf_transactions _ _ _ _ _ _ _ _ HB), HL.
    destruct Hwf as (_ & HW & _). rewrite Forall_forall in HW. by rewrite (from_to_canonical _ _ (HW _ Htx') Hq2).
Qed.

Lemma stored_chain_steps t l u : stored_chain t l u → entries_step ∅ l u.
Proof.
  assert (HA : ∀ v l u, entries_step v l u → ∀ e u' fees, block_step u (transactions e.1.1) e.1.2 fees u' →
            entries_step v (l ++ [e]) u').
  { induction 1 as [v|v e l' u1 fees u2 Hst H IH]; intros e' u' fees' He; cbn [app].
    - econstructor; [exact He|constructor].
    - econstructor; [exact Hst|by eapply IH]. }
  induction 1 as [|l u e fees u' _ IH _ Hst _]; [constructor|]. by eapply HA.
Qed.

Lemma entries_step_det u l u1 u2 : entries_step u l u1 → entries_step u l u2 → u1 = u2.
Proof.
  intros H. revert u2; induction H as [u|u e l v fees u1 Hst H IH]; intros u2 H2; inversion H2 as [|? ? ? w ? ? Hst2 H2']; subst; [done|].
  apply apply_block_Ok in Hst, Hst2. assert (w = v) as -> by congruence. by apply IH.
Qed.

(** C7: Replacing the last blocks [da] of the chain by [db] succeeds, and leaves
    tables that hold the new chain and the set of unspent outputs it leaves,
    with its last block as the tip, when no transaction of a disconnected block
    spends an output of that block, and the address index has room for the
    records of the new blocks. *)
Theorem apply_reorganization_spec (t : Tables) (common da db : list Entry) (e : Entry) (u v u' : UtxoSet) (n : nat)
    (Hheld : holds t (common ++ da) u) (Hclean : Forall (λ e : Entry, self_contained (transactions e.1.1)) da)
    (Hcommon : entries_step ∅ common v) (Hnew : entries_step v (db ++ [e]) u')
    (Hok : Forall entry_ok (db ++ [e])) (Hids : NoDup (entry_id <$> common ++ db ++ [e]))
    (Hheights : NoDup ((λ e : Entry, e.1.2) <$> common ++ db ++ [e])) (Hindex : index_le n t)
    (Hroom : N.of_nat (n + total_records (db ++ [e])) ≤ MAX_VECTOR_LENGTH) :
  ∃ t', apply_reorganization_tables ((λ e : Entry, e.1.1) <$> reverse da) (db ++ [e]) t = (t', Ok tt) ∧
    holds t' (common ++ db ++ [e]) u' ∧ index_le (n + total_records (db ++ [e])) t' ∧
    get_canonical_tip t' = Ok (Some (entry_id e, e.1.2)) ∧
    ∀ o, outpoint_wf o → get_utxo t' o = Ok (u' !! o).
Proof.
  destruct (holds_disconnect_all t common da u n Hheld Hclean Hindex) as (t1 & u1 & E1 & H1 & HC1 & _ & HI1).
  replace u1 with v in * by (by eapply entries_step_det; [exact Hcommon|by eapply stored_chain_steps]).
  destruct (holds_connect_all t1 common (db ++ [e]) v u' n H1 Hnew Hok Hids Hheights HI1 Hroom) as (t2 & E2 & H2 & _ & HI2).
  exists (on_state (set_tip (entry_id e) e.1.2) t2). unfold apply_reorganization_tables.
  rewrite (sbind_run _ _ _ _ _ E1), (sbind_run _ _ _ _ _ E2), last_snoc. destruct e as [[b h] work].
  rewrite header_hash_ok, sbind_lift_Ok. split; [done|].
  pose proof (holds_state _ _ _ (set_tip (block_id b) h) H2) as H3. split; [exact H3|]. split; [exact HI2|].
  apply Forall_app in Hok as [_ Hok]. apply Forall_cons in Hok as [(_ & Hh & _) _].
  split; [by apply get_tip_set|]. intros o Ho. apply stores_get_utxo; [apply H3|done].
Qed.

(** Unwinding the block at the tip that was committed last gives back the
    set of unspent outputs before it and the tip before it, when no transaction
    of the block spends an output of the block. *)
Theorem unwind_block_spec (b : Block) (h : N) (work : CumulativeWork) (t : Tables) (l : list Entry) (u' : UtxoSet)
    (Hheld : holds t (l ++ [(b, h, work)]) u') (Htip : get_canonical_tip t = Ok (Some (block_id b, h)))
    (Hclean : self_contained (transactions b)) :
  ∃ t' u, unwind_block_tables b h t = (t', Ok tt) ∧ entries_step ∅ l u ∧ stores (UTXOS t') u ∧
    get_canonical_tip t' = Ok (Some (previous_block_hash (header b), h - 1)) ∧
    get_block t' (block_id b) = Ok None ∧ get_block_by_height t' h = Ok None.
Proof.
  destruct Hheld as [HC HS _ _].
  apply stored_chain_snoc in HC as (u & fees & HC & ((Hfit & _) & Hh & _) & Hst & [_ _ _ (undo & bytes & [Hr Hu _ Hre])]).
  cbn [fst snd] in *. destruct (unwind_block_run b h t u' undo bytes) as (t' & E & [EB _ _ EH _ HS' _ _] & Hstate); try done.
  { eapply Forall_impl; [exact Hfit|]. by intros tx [? _]. }
  rewrite Hre in HS' by done. exists t', u. split; [done|]. split; [by eapply stored_chain_steps|]. split; [done|].
  split.
  - assert (HT : CHAIN_STATE t !! KEY_TIP_HASH = Some (hash_bytes (block_id b))).
    { unfold get_canonical_tip in Htip. destruct (CHAIN_STATE t !! KEY_TIP_HASH) as [x|]; [|done].
      apply obind_Ok in Htip as (y & Hy%ok_or_Ok%hash_of_list_Some & Htip).
      destruct (CHAIN_STATE t !! KEY_TIP_HEIGHT) as [z|]; [|done]. destruct (negb _); [done|].
      injection Htip as -> _. by rewrite Hy. }
    rewrite bool_decide_eq_true_2 in Hstate by done. unfold get_canonical_tip. rewrite Hstate. unfold set_tip.
    rewrite lookup_insert_ne, lookup_insert_eq by done. rewrite hash_of_list_bytes. cbn [ok_or obind].
    rewrite lookup_insert_eq, length_le_bytes. cbn [Nat.eqb negb]. rewrite (le_val_le_bytes_small 8) by (cbn in *; lia). done.
  - unfold get_block_by_height, get_block_hash_by_height, get_block, decoded. rewrite EB, EH.
    by rewrite !lookup_delete_eq.
Qed.

(** Unwinding a block in which a transaction spends an output made in the
    same block puts that output into the table of unspent outputs, although it
    was not there before the block: the table is no longer the set of the
    ledger. *)
Theorem unwind_leaves_phantom (b : Block) (h : N) (work : CumulativeWork) (t : Tables) (l : list Entry) (u u' : UtxoSet)
    (o : OutPoint) (Hheld : holds t (l ++ [(b, h, work)]) u') (Hu : entries_step ∅ l u)
    (Hspent : o ∈ transactions b ≫= spends) (Hnew : u !! o = None) :
  ∃ t' e, unwind_block_tables b h t = (t', Ok tt) ∧ get_utxo t' o = Ok (Some e) ∧ ¬ stores (UTXOS t') u.
Proof.
  destruct Hheld as [HC HS _ _].
  apply stored_chain_snoc in HC as (v & fees & HC & ((Hfit & _) & Hh & _) & Hst & [_ _ _ (undo & bytes & [Hr Hundo Hsp _])]).
  cbn [fst snd] in *. destruct (unwind_block_run b h t u' undo bytes) as (t' & E & [EB _ _ EH _ HS' _ _] & _); try done.
  { eapply Forall_impl; [exact Hfit|]. by intros tx [? _]. }
  assert (Hin : o ∈ (spent_utxos undo).*1) by by rewrite Hsp.
  destruct (inserts_spent (spent_utxos undo) o (deletes (created_outpoints undo) u') Hin) as [e He].
  change (restore undo u' !! o = Some e) in He.
  pose proof (proj1 HS' o e He) as [[Ho _] _]. exists t', e. split; [done|]. split.
  - by rewrite (stores_get_utxo _ _ _ HS' Ho), He.
  - intros HN. pose proof (stores_get_utxo _ _ _ HN Ho) as H1. rewrite (stores_get_utxo _ _ _ HS' Ho), He, Hnew in H1. done.
Qed.
End filing.

(** ** Order, roots and snapshots *)

Lemma StronglySorted_fmap {A B} (R : B → B → Prop) (f : A → B) l :
  StronglySorted R (f <$> l) → StronglySorted (λ x y, R (f x) (f y)) l.
Proof.
  induction l as [|x l IH]; cbn; intros H; [constructor|]. apply StronglySorted_inv in H as [H HF].
  constructor; [by apply IH|]. by rewrite Forall_fmap in HF.
Qed.

Definition key_leb (a b : list byte) : Prop := bytes_leb a b = true.

Lemma insert_key_sorted {A} (x : list byte * A) l n :
  length x.1 = n → Forall (λ p, length p.1 = n) l →
  StronglySorted key_leb (l.*1) → StronglySorted key_leb ((insert_key x l).*1).
Proof.
  intros Hx. induction l as [|y l IH]; intros HF HS; cbn [insert_key].
  { repeat constructor. }
  apply Forall_cons in HF as [Hy HF]. cbn in HS. apply StronglySorted_inv in HS as [HS HA].
  destruct (bytes_leb x.1 y.1) eqn:E.
  - cbn. constructor; [by constructor|]. constructor; [exact E|]. eapply Forall_impl; [|intros z Hz; exact Hz].
    apply Forall_forall. intros z Hz. rewrite Forall_forall in HA. specialize (HA z Hz). unfold key_leb in *.
    apply list_elem_of_fmap in Hz as (p & -> & Hp). rewrite Forall_forall in HF. specialize (HF p Hp).
    rewrite bytes_leb_be_val, N.leb_le in * by congruence. lia.
  - cbn. constructor; [by apply IH|]. apply Forall_forall. intros z Hz. unfold key_leb.
    rewrite (insert_key_perm x l) in Hz. cbn in Hz. apply elem_of_cons in Hz as [->|Hz].
    + rewrite bytes_leb_be_val in E |- * by congruence. apply N.leb_gt in E. apply N.leb_le. lia.
    + rewrite Forall_forall in HA. by apply HA.
Qed.

Lemma table_iter_sorted {A} (t : gmap (list byte) A) n :
  map_Forall (λ k _, length k = n) t → StronglySorted key_leb (table_iter t).*1.
Proof.
  intros HF. assert (HL : Forall (λ p, length p.1 = n) (map_to_list t)).
  { apply Forall_forall. intros [k v] Hkv%elem_of_map_to_list. exact (HF k v Hkv). }
  unfold table_iter. induction HL as [|x l Hx HL IH]; [constructor|]. cbn [foldr].
  apply (insert_key_sorted x _ n Hx); [|exact IH]. clear -HL.
  induction HL as [|x l Hx HL IH]; [constructor|]. cbn [foldr]. rewrite insert_key_perm. by constructor.
Qed.

Lemma sort_by_sorted {A} (key : A → OutPoint) l :
  StronglySorted (λ x y, outpoint_leb (key x) (key y) = true) l → sort_by key l = l.
Proof.
  induction 1 as [|x l HS IH HF]; [done|]. unfold sort_by in *. cbn [foldr]. rewrite IH.
  destruct l as [|y l]; [done|]. cbn [insert_by]. apply Forall_cons in HF as [-> _]. done.
Qed.

(** Where every index is below 256, the order of the table is the order of the
    outpoints. *)
Definition small_index (o : OutPoint) : Prop := op_index o < 256.

Lemma key_order a b :
  small_index a → small_index b → bytes_leb (outpoint_to_key a) (outpoint_to_key b) = outpoint_leb a b.
Proof.
  unfold small_index. intros Ha Hb.
  assert (HI : ∀ i, i < 256 → be_val (le_bytes 4 i) = i * 16777216).
  { intros i Hi. apply N.eqb_eq, (forall_lt_N (λ i, be_val (le_bytes 4 i) =? i * 16777216) 256); [|exact Hi].
    vm_compute. reflexivity. }
  rewrite bytes_leb_be_val by by rewrite !length_outpoint_key.
  unfold outpoint_to_key. rewrite !be_val_app, !length_le_bytes, !HI by done. change (256 ^ N.of_nat 4) with 4294967296.
  apply Bool.eq_true_iff_eq. rewrite N.leb_le, outpoint_leb_spec. lia.
Qed.

Section snapshots.
Context {B3 : Blake3}.

(** The entries read from the table are the sorted entries of the set. *)
Lemma utxo_entries_sorted t u :
  stores (UTXOS t) u → map_Forall (λ o _, small_index o) u →
  utxo_entries t = Ok (sort_by fst (map_to_list u)).
Proof.
  intros HS Hsm. destruct (utxo_entries_stores t u HS) as (entries & HE & HP & HK). rewrite HE. f_equal.
  rewrite <- (sort_by_unique fst entries (map_to_list u) HP) by (rewrite HP; apply NoDup_fst_map_to_list).
  symmetry. apply sort_by_sorted. apply (StronglySorted_fmap (λ x y, outpoint_leb x y = true) fst).
  assert (HF : Forall small_index entries.*1).
  { rewrite HP. apply Forall_forall. intros o Ho. apply list_elem_of_fmap in Ho as ([o' e] & -> & Hin).
    apply elem_of_map_to_list in Hin. by eapply (Hsm o' e). }
  assert (HSS : StronglySorted key_leb (outpoint_to_key <$> entries.*1)).
  { rewrite HK. apply (table_iter_sorted _ 36). intros k v Hk. destruct (proj2 HS k v Hk) as (o & -> & _).
    apply length_outpoint_key. }
  apply StronglySorted_fmap in HSS. clear -HSS HF. revert HF.
  induction HSS as [|x l HS IH HA]; intros HF; [constructor|]. apply Forall_cons in HF as [Hx HF].
  constructor; [by apply IH|]. rewrite Forall_forall in HA, HF |- *. intros y Hy. rewrite <- key_order by eauto.
  by apply HA.
Qed.

Lemma insert_entries_run entries t u :
  stores (UTXOS t) u → Forall (λ p, entry_wf p.1 p.2 ∧ ∃ bs, to_canonical_bytes p.2 = Ok bs) entries →
  ∃ tbl, insert_entries entries t = (filed_utxos tbl t, Ok tt) ∧ stores tbl (inserts entries u).
Proof.
  intros HS HF. revert t u HS; induction HF as [|[o e] entries [Hw [bs Hbs]] _ IH]; intros t u HS.
  { exists (UTXOS t). split; [by destruct t|done]. }
  cbn [insert_entries fst snd] in *. rewrite Hbs. cbn [ser_err map_err]. rewrite sbind_lift_Ok, sbind_smodify.
  destruct (IH (on_utxos (insert (outpoint_to_key o) bs) t) (<[o := e]> u)) as (tbl & -> & HS'); [by apply stores_insert|].
  by exists tbl.
Qed.

Lemma inserts_map entries : NoDup entries.*1 → inserts entries ∅ = list_to_map entries.
Proof.
  assert (HG : ∀ m, (∀ o, o ∈ entries.*1 → m !! o = None) → NoDup entries.*1 →
            inserts entries m = list_to_map entries ∪ m).
  { induction entries as [|[o e] entries IH]; intros m Hm Hnd; [change (m = ∅ ∪ m); by rewrite (left_id_L ∅ _)|].
    cbn in Hnd, Hm. apply NoDup_cons in Hnd as [Ho Hnd]. unfold inserts in *. cbn [foldl fst snd].
    rewrite IH; [|intros o' Ho'; rewrite lookup_insert_ne; [apply Hm; by right|intros ->; done]|done].
    rewrite list_to_map_cons, <- insert_union_l, insert_union_r; [done|]. by apply not_elem_of_list_to_map_1. }
  intros Hnd. rewrite HG; [by rewrite (right_id_L ∅ _)|by intros; rewrite lookup_empty|done].
Qed.

(** Both functions that read the stored set back. *)
Lemma load_stored t u : stores (UTXOS t) u → load_entire_utxo_set t = Ok u.
Proof.
  intros HS. destruct (utxo_entries_stores t u HS) as (entries & HE & HP & _).
  unfold load_entire_utxo_set. rewrite HE. cbn [obind].
  assert (Hnd : NoDup entries.*1) by (rewrite HP; apply NoDup_fst_map_to_list).
  assert (HL : ∀ l m, NoDup l.*1 → (∀ o, o ∈ l.*1 → m !! o = None) →
    ofold (λ s oe, match utxo_insert oe.1 oe.2 s with
                   | (s, Ok _) => Ok s
                   | (_, Err e) => Err (StorageInconsistent (DuplicateUtxo e))
                   | (_, Panic) => Panic
                   | (_, Diverge) => Diverge
                   end) l m = Ok (inserts l m)).
  { induction l as [|[o e] l IH]; intros m Hl Hm; [done|]. cbn in Hl, Hm. apply NoDup_cons in Hl as [Ho Hl].
    cbn [ofold fst snd]. unfold utxo_insert, utxo_contains. rewrite (Hm o) by by left.
    rewrite bool_decide_eq_false_2 by by intros []. cbn [obind]. rewrite IH; [done|done|].
    intros o' Ho'. rewrite lookup_insert_ne; [apply Hm; by right|by intros ->]. }
  rewrite HL, inserts_map by (done || (intros; by rewrite lookup_empty)). f_equal.
  rewrite (list_to_map_proper _ _ Hnd HP). apply list_to_map_to_list.
Qed.

Lemma compute_root_sorted {E} u :
  compute_utxo_root (E := E) u = compute_utxo_merkle_root (leaves_of (sort_by fst (map_to_list u))).
Proof. done. Qed.

(** A snapshot exported from tables that store a set of unspent outputs
    whose indices are below 256 has the root the ledger computes for that set,
    and is accepted by the tables of any other node, which then store the same
    set and differ in nothing else. *)
Theorem snapshot_roundtrip (t t2 : Tables) (u : UtxoSet) (tip : option (Hash * N))
    (Hstores : stores (UTXOS t) u) (Hsmall : map_Forall (λ o _, small_index o) u)
    (Htip : get_canonical_tip t = Ok tip) :
  ∃ snap t2', export_utxo_snapshot t = Ok snap ∧ compute_utxo_root u = Ok (E := StorageError) (snap_utxo_root snap) ∧
    (snap_block_hash snap, snap_height snap) = default (ZERO, 0) tip ∧
    apply_utxo_snapshot_tables snap t2 = (t2', Ok tt) ∧ load_entire_utxo_set t2' = Ok u ∧
    stored_utxo_root t2' = Ok (snap_utxo_root snap) ∧ t2' = on_utxos (λ _, UTXOS t2') t2.
Proof.
  pose proof (utxo_entries_sorted t u Hstores Hsmall) as HE. destruct (compute_utxo_root_total (E := StorageError) u) as [r Hr].
  set (entries := sort_by fst (map_to_list u)) in *.
  assert (HP : entries ≡ₚ map_to_list u) by apply sort_by_perm.
  assert (HF : Forall (λ p, entry_wf p.1 p.2 ∧ ∃ bs, to_canonical_bytes p.2 = Ok bs) entries).
  { rewrite HP. apply Forall_forall. intros [o e] Hin%elem_of_map_to_list.
    destruct (proj1 Hstores o e Hin) as (Hw & bs & Hbs & _). split; [done|]. by exists bs. }
  assert (HSort : sort_by fst entries = entries).
  { apply sort_by_unique; [done|]. rewrite HP. apply NoDup_fst_map_to_list. }
  destruct (default (ZERO, 0) tip) as [bh h] eqn:Hd.
  destruct (insert_entries_run entries (on_utxos (λ _, ∅) t2) ∅ stores_empty HF) as (tbl & HI & HS2).
  assert (Hnd : NoDup entries.*1) by (rewrite HP; apply NoDup_fst_map_to_list).
  rewrite inserts_map, (list_to_map_proper _ _ Hnd HP), list_to_map_to_list in HS2 by done.
  set (t2' := filed_utxos tbl (on_utxos (λ _, ∅) t2)) in *.
  assert (HE2 : utxo_entries t2' = Ok entries) by exact (utxo_entries_sorted t2' u HS2 Hsmall).
  change (compute_utxo_merkle_root (E := StorageError) (leaves_of entries) = Ok r) in Hr.
  exists (mkUtxoSnapshotDto h bh r entries), t2'. split.
  { unfold export_utxo_snapshot. rewrite Htip. cbn [obind]. rewrite Hd, HE. cbn [obind]. by rewrite Hr. }
  split; [done|]. split; [done|]. split.
  { unfold apply_utxo_snapshot_tables. cbn [snap_entries snap_utxo_root]. rewrite HSort, Hr, sbind_lift_Ok.
    rewrite bool_decide_eq_true_2 by done. cbn [negb]. by rewrite sbind_smodify. }
  split; [by apply load_stored|]. split; [|done]. unfold stored_utxo_root. rewrite HE2. exact Hr.
Qed.
End snapshots.

(** ** Examples *)

Definition tx_okb (tx : Transaction) : bool :=
  (tx_version tx <? MOD32) && (lock_time tx <? MOD64) &&
  forallb (λ i, (op_index (previous_output i) <? MOD32) && (sequence i <? MOD32)) (inputs tx) &&
  forallb (λ o, value o <? MOD64) (outputs tx) &&
  (N.of_nat (length (inputs tx)) <=? MAX_VECTOR_LENGTH) && (N.of_nat (length (outputs tx)) <=? MAX_VECTOR_LENGTH).
Definition block_okb (b : Block) : bool :=
  encodableb b && forallb tx_okb (transactions b) && (N.of_nat (length (transactions b)) <=? MAX_VECTOR_LENGTH) &&
  (N.of_nat (record_count b) <=? MAX_VECTOR_LENGTH) && (version (header b) <? MOD32) && (timestamp (header b) <? MOD64) &&
  (difficulty_target (header b) <? MOD32) && (nonce (header b) <? MOD64).

Lemma tx_okb_spec tx : tx_okb tx = true → transaction_wf tx ∧ transaction_limits tx.
Proof.
  unfold tx_okb, transaction_wf, transaction_limits, txin_wf, outpoint_wf, txout_wf.
  rewrite !andb_true_iff, !forallb_forall, !N.ltb_lt, !N.leb_le. intros (((((H1 & H2) & H3) & H4) & H5) & H6).
  split; [|done]. split; [done|]. split; [|split; [|done]]; apply Forall_forall; intros x Hx%list_elem_of_In.
  - specialize (H3 x Hx). by rewrite andb_true_iff, !N.ltb_lt in H3.
  - specialize (H4 x Hx). by rewrite N.ltb_lt in H4.
Qed.

Lemma block_okb_spec b : block_okb b = true → block_fits b ∧ block_codec_wf b ∧ timestamp (header b) < MOD64.
Proof.
  unfold block_okb, block_fits, block_codec_wf, blockheader_wf. rewrite !andb_true_iff, !N.ltb_lt, !N.leb_le.
  intros (((((((He%encodableb_spec & HT) & H1) & H2) & H3) & H4) & H5) & H6).
  assert (HF : Forall (λ tx, transaction_wf tx ∧ transaction_limits tx) (transactions b)).
  { rewrite forallb_forall in HT. apply Forall_forall. intros tx Htx%list_elem_of_In. by apply tx_okb_spec, HT. }
  split; [split; [|done]|split; [split; [done|split; [exact HF|done]]|done]].
  apply Forall_forall. intros tx Htx. unfold block_encodable in He. rewrite Forall_forall in He, HF.
  split; [by apply He|by apply HF].
Qed.

Lemma entry_okb b h work :
  block_okb b = true → (h <? MOD64) = true → work_wf work → entry_ok (b, h, work).
Proof. intros (H1 & _ & H3)%block_okb_spec H2%N.ltb_lt Hw. done. Qed.

Definition toy_work (b : Block) : CumulativeWork := block_work (from_compact (difficulty_target (header b))).
Lemma toy_work_wf b : work_wf (toy_work b).
Proof. apply block_work_val. Qed.

Lemma index_le_empty n : index_le n empty_tables.
Proof. intros k v H. cbn [empty_tables ADDRESS_TX_INDEX] in H. by rewrite lookup_empty in H. Qed.

Section toy.
#[local] Existing Instance toy_blake3.
#[local] Existing Instance toy_bincode.

Definition toy_commit (b : Block) (h : N) (t : Tables) : Tables := (commit_block_tables b h (toy_work b) t).1.
Definition toy_tables0 : Tables := toy_commit toy_genesis 0 empty_tables.

Lemma commit_block_spec_witness :
  get_canonical_tip toy_tables0 = Ok (Some (block_id toy_genesis, 0)) ∧
  get_block_by_height toy_tables0 0 = Ok (Some toy_genesis).
Proof.
  assert (Hok : block_okb toy_genesis = true) by (vm_compute; reflexivity).
  destruct (commit_block_spec toy_genesis 0 (toy_work toy_genesis) empty_tables [] ∅
    (apply_block (transactions toy_genesis) 0 ∅).1 0 0)
    as (t' & E & _ & _ & H1 & _ & H2 & _).
  - apply holds_empty.
  - apply entry_okb; [exact Hok|reflexivity|apply toy_work_wf].
  - by apply block_okb_spec.
  - split; by intros ?%elem_of_nil.
  - apply pair_snd. vm_compute. reflexivity.
  - apply index_le_empty.
  - vm_compute. discriminate.
  - assert (E' : toy_tables0 = t') by (unfold toy_tables0, toy_commit; by rewrite E). rewrite E'. by split.
Defined.
(** Committing one more block to toy tables, with the checks done by evaluation. *)
Definition fresh_entry (l : list Entry) (e : Entry) : bool :=
  bool_decide (entry_id e ∉ entry_id <$> l) && bool_decide (e.1.2 ∉ (λ e : Entry, e.1.2) <$> l).
Lemma toy_commit_holds b h t l u u' fees n :
  holds t l u → index_le n t → block_okb b = true → (h <? MOD64) = true →
  fresh_entry l (b, h, toy_work b) = true → apply_block (transactions b) h u = (u', Ok fees) →
  (N.of_nat (n + record_count b) <=? MAX_VECTOR_LENGTH) = true →
  holds (toy_commit b h t) (l ++ [(b, h, toy_work b)]) u' ∧ index_le (n + record_count b) (toy_commit b h t) ∧
  get_canonical_tip (toy_commit b h t) = Ok (Some (block_id b, h)).
Proof.
  intros HH HI Hok Hh [Hf1%bool_decide_eq_true Hf2%bool_decide_eq_true]%andb_true_iff Hap Hroom%N.leb_le.
  destruct (commit_holds b h (toy_work b) t l u u' fees n HH (entry_okb b h _ Hok Hh (toy_work_wf b)) (conj Hf1 Hf2) Hap HI Hroom)
    as (t1 & rows & E & H1 & H2 & H3 & _).
  unfold toy_commit. rewrite E. done.
Qed.

Definition toy_e0 : Entry := (toy_genesis, 0, toy_work toy_genesis).
Definition toy_e1 : Entry := (toy_b1, 1, toy_work toy_b1).
Definition toy_g1 : Entry := (toy_f1, 1, toy_work toy_f1).
Definition toy_tables1 : Tables := toy_commit toy_b1 1 toy_tables0.
(** A block that spends its own coinbase. *)
Definition toy_loop : Block := toy_next (toy_hash toy_genesis) 1 10 0 [toy_coinbase; toy_spend] toy_s0.
Definition toy_tables_loop : Tables := toy_commit toy_loop 1 toy_tables0.

Lemma toy_holds0 :
  holds toy_tables0 [toy_e0] toy_s0 ∧ index_le 1 toy_tables0 ∧ get_canonical_tip toy_tables0 = Ok (Some (block_id toy_genesis, 0)).
Proof.
  apply (toy_commit_holds toy_genesis 0 empty_tables [] ∅ toy_s0 0 0 holds_empty (index_le_empty 0));
    [vm_compute; reflexivity..| | vm_compute; reflexivity].
  apply pair_snd. vm_compute. reflexivity.
Qed.
Lemma toy_holds1 :
  holds toy_tables1 [toy_e0; toy_e1] (toy_after 1 (transactions toy_b1) toy_s0) ∧ index_le 2 toy_tables1 ∧
  get_canonical_tip toy_tables1 = Ok (Some (block_id toy_b1, 1)).
Proof.
  destruct toy_holds0 as (H1 & H2 & _).
  apply (toy_commit_holds toy_b1 1 toy_tables0 [toy_e0] toy_s0 _ 0 1 H1 H2);
    [vm_compute; reflexivity..| | vm_compute; reflexivity].
  apply pair_snd. vm_compute. reflexivity.
Qed.
Lemma toy_holds_loop :
  holds toy_tables_loop [toy_e0; (toy_loop, 1, toy_work toy_loop)] (toy_after 1 (transactions toy_loop) toy_s0).
Proof.
  destruct toy_holds0 as (H1 & H2 & _).
  apply (toy_commit_holds toy_loop 1 toy_tables0 [toy_e0] toy_s0 _ 100 1 H1 H2);
    [vm_compute; reflexivity..| | vm_compute; reflexivity].
  apply pair_snd. vm_compute. reflexivity.
Qed.
Lemma toy_steps0 : entries_step ∅ [toy_e0] toy_s0.
Proof. exact (stored_chain_steps _ _ _ (ho_chain _ _ _ (proj1 toy_holds0))). Qed.

Lemma toy_clean : self_contained (transactions toy_b1).
Proof.
  intros tx i tx' Htx Hcb. assert (HF : forallb is_coinbase (transactions toy_b1) = true) by reflexivity.
  rewrite forallb_forall in HF. rewrite HF in Hcb by by apply list_elem_of_In. done.
Qed.

Lemma apply_reorganization_spec_witness :
  ∃ t', apply_reorganization_tables [toy_b1] [toy_g1] toy_tables1 = (t', Ok tt) ∧
    get_canonical_tip t' = Ok (Some (block_id toy_f1, 1)).
Proof.
  destruct toy_holds1 as (H1 & H2 & _).
  assert (Hok : block_okb toy_f1 = true) by (vm_compute; reflexivity).
  destruct (apply_reorganization_spec toy_tables1 [toy_e0] [toy_e1] [] toy_g1 _ toy_s0
    (toy_after 1 (transactions toy_f1) toy_s0) 2 H1) as (t' & E & _ & _ & HT & _).
  - constructor; [exact toy_clean|constructor].
  - exact toy_steps0.
  - eapply (entries_step_cons _ toy_g1 _ _ 0); [|constructor]. apply apply_block_Ok, pair_snd. vm_compute. reflexivity.
  - constructor; [apply entry_okb|constructor]; [exact Hok|reflexivity|apply toy_work_wf].
  - apply (bool_decide_eq_true_1 _). vm_compute. reflexivity.
  - apply (bool_decide_eq_true_1 _). vm_compute. reflexivity.
  - exact H2.
  - vm_compute. discriminate.
  - exists t'. split; [exact E|exact HT].
Defined.

Lemma unwind_block_spec_witness :
  ∃ t', unwind_block_tables toy_b1 1 toy_tables1 = (t', Ok tt) ∧
    get_canonical_tip t' = Ok (Some (block_id toy_genesis, 0)).
Proof.
  destruct toy_holds1 as (H1 & _ & H3).
  destruct (unwind_block_spec toy_b1 1 (toy_work toy_b1) toy_tables1 [toy_e0] _ H1 H3 toy_clean) as (t' & u & E & _ & _ & HT & _).
  exists t'. split; [exact E|exact HT].
Defined.

Lemma unwind_leaves_phantom_witness :
  ∃ t', unwind_block_tables toy_loop 1 toy_tables_loop = (t', Ok tt) ∧ ¬ stores (UTXOS t') toy_s0.
Proof.
  destruct (unwind_leaves_phantom toy_loop 1 (toy_work toy_loop) toy_tables_loop [toy_e0] toy_s0 _
    (mkOutPoint (toy_txid toy_coinbase) 0) toy_holds_loop toy_steps0) as (t' & e & E & _ & HN).
  - apply (bool_decide_eq_true_1 _). vm_compute. reflexivity.
  - vm_compute. reflexivity.
  - exists t'. split; [exact E|exact HN].
Defined.

Lemma snapshot_roundtrip_witness :
  ∃ snap t2', export_utxo_snapshot toy_tables1 = Ok snap ∧
    apply_utxo_snapshot_tables snap empty_tables = (t2', Ok tt) ∧
    load_entire_utxo_set t2' = Ok (toy_after 1 (transactions toy_b1) toy_s0).
Proof.
  destruct toy_holds1 as (H1 & _ & H3).
  destruct (snapshot_roundtrip toy_tables1 empty_tables _ _ (ho_stores _ _ _ H1)
    ltac:(apply map_Forall_to_list, Forall_forall; intros p; revert p; apply Forall_forall; vm_compute; repeat constructor) H3)
    as (snap & t2' & E & _ & _ & HA & HL & _).
  exists snap, t2'. split; [exact E|]. split; [exact HA|exact HL].
Defined.
(** Two outputs of one transaction, at the indices 1 and 256: the table lists the
    second first, because the key ends with the little-endian index. The root the
    engine exports is not the one the ledger computes, and the engine refuses the
    snapshot it exported. *)
Definition wide_entry (n : N) : UtxoEntry := mkUtxoEntry (mkTxOut n [x51]) 1 false.
Definition wide_set : UtxoSet :=
  {[ mkOutPoint (toy_hash toy_b1) 1 := wide_entry 5; mkOutPoint (toy_hash toy_b1) 256 := wide_entry 6 ]}.
Definition wide_tables : Tables := (replace_utxo_set_tables wide_set toy_tables1).1.

Definition wide_snapshot : UtxoSnapshotDto :=
  match export_utxo_snapshot wide_tables with Ok s => s | _ => mkUtxoSnapshotDto 0 ZERO ZERO [] end.
Definition is_Ok_b {E A} (r : outcome E A) : bool := match r with Ok _ => true | _ => false end.
Definition mismatch_of (r : outcome StorageError unit) : option Hash :=
  match r with Err (StorageInconsistent (SnapshotMismatch _ calculated)) => Some calculated | _ => None end.

Lemma snapshot_order :
  export_utxo_snapshot wide_tables = Ok wide_snapshot ∧
  ∃ r, compute_utxo_root (E := StorageError) wide_set = Ok r ∧ r ≠ snap_utxo_root wide_snapshot ∧
    mismatch_of (apply_utxo_snapshot_tables wide_snapshot empty_tables).2 = Some r.
Proof.
  split.
  - assert (HO : is_Ok_b (export_utxo_snapshot wide_tables) = true) by (vm_compute; reflexivity).
    unfold wide_snapshot. by destruct (export_utxo_snapshot wide_tables).
  - destruct (compute_utxo_root_total (E := StorageError) wide_set) as [r Hr]. exists r. split; [exact Hr|].
    assert (HD : match compute_utxo_root (E := StorageError) wide_set with
                 | Ok r => negb (bool_decide (r = snap_utxo_root wide_snapshot)) &&
                           bool_decide (mismatch_of (apply_utxo_snapshot_tables wide_snapshot empty_tables).2 = Some r)
                 | _ => false
                 end = true) by (vm_compute; reflexivity).
    rewrite Hr in HD. apply andb_true_iff in HD as [H1%negb_true_iff%bool_decide_eq_false_1 H2%bool_decide_eq_true_1].
    split; [exact H1|exact H2].
Qed.
End toy.
