(* ===== verification/Store.v ===== *)
(** * What a node asks of its storage

    [BlockStore] is the part of [StorageEngine] a node uses to keep its chain,
    [BlockStoreLaws] what it relies on, stated on the blocks and the tip the
    store has. The engine of [Storage] is an instance. *)

From S2P Require Import Prelude Bytes Primitives Types Codec Transaction Utxo Merkle Words Target Work Consensus.
From S2P Require Import Chain Script Authorization Tables Storage StorageSpec.
Local Open Scope N_scope.
Local Open Scope scy_scope.

(** ** The interface *)

(** A write gives the store it leaves; when it fails the store is the one
    before. *)
Class BlockStore := {
  store : Type;
  commit_block : Block → N → CumulativeWork → store → outcome StorageError store;
  apply_reorganization : list Block → list (Block * N * CumulativeWork) → store → outcome StorageError store;
  stored_tip : store → outcome StorageError (option (Hash * N));
  stored_block : Hash → store → outcome StorageError (option Block)
}.

Section views.
Context {B3 : Blake3}.

Definition put_block (m : gmap Hash Block) (b : Block) : gmap Hash Block := <[block_id b := b]> m.
Definition drop_block (m : gmap Hash Block) (b : Block) : gmap Hash Block := delete (block_id b) m.

(** [blocks_on] and [tip_on] are what a store holds; [readable], that reading
    it works. *)
Class BlockStoreLaws {BS : BlockStore} := {
  blocks_on : store → gmap Hash Block;
  tip_on : store → option (Hash * N);
  readable : store → Prop;
  commit_returns b h work d : block_encodable b → returns (commit_block b h work d);
  reorganization_returns old new d :
    Forall block_encodable old → Forall (λ e, block_encodable e.1.1) new →
    returns (apply_reorganization old new d);
  commit_effect b h work d d' :
    commit_block b h work d = Ok d' → block_codec_wf b → h < MOD64 →
    blocks_on d' = put_block (blocks_on d) b ∧ tip_on d' = Some (block_id b, h);
  reorganization_effect old new e d d' :
    apply_reorganization old (new ++ [e]) d = Ok d' → Forall (λ e, block_codec_wf e.1.1) (new ++ [e]) → e.1.2 < MOD64 →
    blocks_on d' = foldl put_block (foldl drop_block (blocks_on d) old) (new ++ [e]).*1.*1 ∧
    tip_on d' = Some (entry_id e, e.1.2);
  tip_reads d x : readable d → tip_on d = Some x → stored_tip d = Ok (Some x);
  block_reads d id b : readable d → blocks_on d !! id = Some b → stored_block id d = Ok (Some b)
}.
End views.

(** ** The engine always returns *)

Lemma returns_ser_err {A} (m : outcome SerializationError A) : returns m → returns (ser_err m).
Proof. apply returns_map_err. Qed.
#[export] Hint Resolve returns_ser_err : scy.

(** Peels the binds off a computation on the tables. *)
Ltac solve_total :=
  repeat first
    [ progress intros
    | match goal with
      | |- total (sbind _ _) => apply total_sbind
      | |- total (slift _) => apply total_slift
      | |- total (if ?b then _ else _) => destruct b
      | |- total (match ?x with _ => _ end) => destruct x
      end
    | solve [auto with scy] ].

Section readers.

Lemma from_canonical_returns {A} `{CanonicalDeserialize A} bs :
  safe_reader (@deserialize_canonical A _) → returns (from_canonical_bytes (A := A) bs).
Proof. intros HA. unfold from_canonical_bytes. apply returns_obind; [apply HA|]. intros [x rest] _. by destruct (_ <? _)%nat. Qed.

Lemma safe_utxoentry : safe_reader deser_utxoentry.
Proof. unfold safe_reader, deser_utxoentry. solve_safe. Qed.
Lemma safe_block : safe_reader deser_block.
Proof.
  intros s. unfold deser_block. apply returns_obind; [apply safe_blockheader|intros [h r] _].
  apply returns_obind; [apply safe_counted, safe_transaction|by intros [] _].
Qed.
Lemma safe_u8 : safe_reader read_u8.
Proof. unfold safe_reader, read_u8. solve_safe. Qed.
#[local] Hint Extern 1 (returns (read_u8 _)) => apply safe_u8 : codec.
Lemma safe_record : safe_reader deser_record.
Proof.
  intros s. unfold deser_record. solve_safe.
  match goal with H : read_exact 32 _ = Ok _ |- _ => apply read_exact_Ok in H as [Hl _] end.
  by destruct (hash_of_list_is_Some _ Hl) as [? ->].
Qed.
Lemma safe_spent : safe_reader deser_spent.
Proof.
  intros s. unfold deser_spent. apply returns_obind; [apply safe_outpoint|intros [o r] _].
  apply returns_obind; [apply safe_utxoentry|by intros [] _].
Qed.

Lemma records_return bs : returns (deserialize_address_tx_records bs).
Proof.
  rewrite records_from_canonical. apply returns_obind; [apply safe_counted, safe_record|intros [l rest] _].
  by destruct (_ <? _)%nat.
Qed.
Lemma undo_from_returns bs : returns (undo_from_bytes bs).
Proof.
  unfold undo_from_bytes. apply returns_obind; [apply returns_ser_err, safe_u32|intros [n r] _].
  apply returns_obind; [apply returns_ser_err, safe_each, safe_spent|intros [l r2] _].
  apply returns_obind; [apply returns_ser_err, safe_u32|intros [m r3] _].
  apply returns_obind; [apply returns_ser_err, safe_each, safe_outpoint|intros [l2 r4] _]. by case_bool_decide.
Qed.
End readers.

(** Writers return on every value. *)
Section writers.

Lemma returns_each {A} `{CanonicalSerialize A} (l : list A) :
  (∀ x, returns (serialize_canonical x)) → returns (serialize_each l).
Proof.
  intros HA. induction l as [|x l IH]; cbn [serialize_each]; [done|].
  apply returns_obind; [apply HA|intros a _]. by apply returns_obind.
Qed.
Lemma returns_counted {A} `{CanonicalSerialize A} (l : list A) :
  (∀ x, returns (serialize_canonical x)) → returns (serialize_counted l).
Proof.
  intros HA. unfold serialize_counted.
  apply returns_obind; [done|intros a _]. apply returns_obind; [by apply returns_each|done].
Qed.
Lemma returns_txin (i : TxIn) : returns (serialize_canonical i).
Proof.
  unfold serialize_canonical, ser_txin, serialize_canonical, ser_bytes. apply returns_obind; [done|intros a _].
  apply returns_obind; [by destruct (_ <? _)|done].
Qed.
Lemma returns_txout (o : TxOut) : returns (serialize_canonical o).
Proof.
  unfold serialize_canonical, ser_txout, serialize_canonical, ser_bytes. apply returns_obind; [done|intros a _].
  apply returns_obind; [by destruct (_ <? _)|done].
Qed.
Lemma returns_transaction (tx : Transaction) : returns (to_canonical_bytes tx).
Proof.
  apply returns_obind; [|done]. unfold serialize_canonical, ser_transaction. apply returns_obind; [done|intros a _].
  apply returns_obind; [apply returns_counted, returns_txin|intros b _].
  apply returns_obind; [apply returns_counted, returns_txout|done].
Qed.
Lemma returns_block (b : Block) : returns (to_canonical_bytes b).
Proof.
  apply returns_obind; [|done]. unfold serialize_canonical, ser_block. apply returns_obind; [done|intros a _].
  apply returns_obind; [|done]. apply returns_counted. intros tx.
  pose proof (returns_transaction tx) as HT. unfold to_canonical_bytes in HT. unfold returns in *.
  by destruct (serialize_canonical tx).
Qed.
Lemma returns_utxoentry (e : UtxoEntry) : returns (to_canonical_bytes e).
Proof.
  apply returns_obind; [|done]. unfold serialize_canonical, ser_utxoentry.
  apply returns_obind; [apply returns_txout|done].
Qed.
Lemma returns_records l : returns (serialize_address_tx_records l).
Proof.
  apply returns_counted. intros r. unfold serialize_canonical, ser_record.
  repeat (apply returns_obind; [done|intros ? _]). by destruct (r_token_id r).
Qed.
Lemma returns_undo u : returns (undo_to_bytes u).
Proof.
  unfold undo_to_bytes. apply returns_obind; [apply returns_ser_err, returns_each|intros a _].
  - intros p. unfold serialize_canonical, ser_spent. apply returns_obind; [done|intros a _].
    apply returns_obind; [apply returns_utxoentry|done].
  - apply returns_obind; [apply returns_ser_err, returns_each; done|done].
Qed.
End writers.
#[export] Hint Resolve returns_transaction returns_block returns_utxoentry returns_records returns_undo
  undo_from_returns records_return : scy.

Section engine.
Context {B3 : Blake3} {BC : Bincode}.

Lemma total_spent_output o : total (spent_output o).
Proof.
  unfold spent_output. solve_total.
  - apply returns_ser_err, from_canonical_returns, safe_utxoentry.
  - apply returns_ser_err, from_canonical_returns, safe_transaction.
Qed.
Lemma total_file_inputs id ins : total (file_inputs id ins).
Proof.
  induction ins as [|i ins IH]; cbn [file_inputs]; [solve_total|].
  apply total_sbind; [apply total_spent_output|intros s]. solve_total.
Qed.
Lemma total_file_outputs id h cb idx outs : total (file_outputs id h cb idx outs).
Proof.
  revert idx; induction outs as [|o outs IH]; intros idx; cbn [file_outputs]; [solve_total|].
  apply total_sbind; [solve_total|intros _]. destruct (is_op_return _); [apply IH|]. solve_total.
Qed.
Lemma total_file_transaction bh h tx : transaction_encodable tx → total (file_transaction bh h tx).
Proof.
  intros He. unfold file_transaction. destruct (transaction_encodable_txid (E := StorageError) tx He) as [id ->].
  apply total_sbind; [by apply total_slift|intros a]. apply total_sbind; [solve_total|intros bs].
  do 2 (apply total_sbind; [solve_total|intros _]). apply total_sbind; [|intros _; apply total_file_outputs].
  destruct (is_coinbase tx); [solve_total|apply total_file_inputs].
Qed.
Lemma total_file_transactions bh h txs : Forall transaction_encodable txs → total (file_transactions bh h txs).
Proof.
  induction 1 as [|tx txs Htx _ IH]; cbn [file_transactions]; [solve_total|].
  apply total_sbind; [by apply total_file_transaction|by intros _].
Qed.
Lemma total_filing m : total m → total (filing m).
Proof.
  intros Hm t. unfold filing. specialize (Hm (mkFiling t ∅ (mkBlockUndo [] []))).
  destruct (m _) as [f r]. apply returns_obind; [exact Hm|done].
Qed.
Lemma total_write_records h recs : total (write_records h recs).
Proof.
  induction recs as [|[a new] recs IH]; cbn [write_records]; [solve_total|].
  solve_total.
Qed.

Lemma header_hash_lift {A} (h : BlockHeader) (k : Hash → storeM A) : total (k (blake3 (header_bytes h))) → total (sbind (slift (header_hash h)) k).
Proof. intros Hk s. by rewrite header_hash_ok, sbind_lift_Ok. Qed.

Lemma total_commit b h work : block_encodable b → total (commit_block_tables b h work).
Proof.
  intros He. unfold commit_block_tables. apply header_hash_lift.
  apply total_sbind; [solve_total|intros bs]. do 2 (apply total_sbind; [solve_total|intros _]).
  apply total_sbind; [by apply total_filing, total_file_transactions|intros [recs undo]].
  apply total_sbind; [apply total_write_records|intros _]. solve_total.
Qed.

Lemma tx_map_returns {E} txs : Forall transaction_encodable txs → returns (tx_map (E := E) txs).
Proof.
  intros HF. apply returns_ofold. intros m tx Htx. rewrite Forall_forall in HF.
  by destruct (transaction_encodable_txid (E := E) tx (HF tx Htx)) as [id ->].
Qed.
Lemma total_remove_records b h : block_encodable b → total (remove_block_address_records_internal b h).
Proof.
  intros He. unfold remove_block_address_records_internal.
  apply total_sbind; [by apply total_slift, tx_map_returns|solve_total].
Qed.
Lemma total_restore_spent spent : total (restore_spent spent).
Proof. induction spent as [|[o e] spent IH]; cbn [restore_spent]; solve_total. Qed.
Lemma total_apply_undo bh : total (apply_undo bh).
Proof. unfold apply_undo. solve_total. apply total_restore_spent. Qed.
Lemma total_remove_transactions txs : Forall transaction_encodable txs → total (remove_transactions txs).
Proof.
  induction 1 as [|tx txs Htx _ IH]; cbn [remove_transactions]; [solve_total|].
  destruct (transaction_encodable_txid (E := StorageError) tx Htx) as [id ->]. solve_total.
Qed.
Lemma total_disconnect b : block_encodable b → total (disconnect_block b).
Proof.
  intros He. unfold disconnect_block. apply header_hash_lift. apply total_sbind; [solve_total|intros t]. cbv zeta.
  apply total_sbind.
  { destruct (_ ≫= _); [|solve_total]. apply total_sbind; [by apply total_remove_records|solve_total]. }
  intros _. apply total_sbind; [apply total_apply_undo|intros _].
  apply total_sbind; [by apply total_remove_transactions|solve_total].
Qed.
Lemma total_connect b h work : block_encodable b → total (connect_block b h work).
Proof.
  intros He. unfold connect_block. apply header_hash_lift.
  apply total_sbind; [solve_total|intros _]. apply total_sbind; [solve_total|intros bs].
  apply total_sbind; [solve_total|intros _].
  apply total_sbind; [by apply total_filing, total_file_transactions|intros [recs undo]].
  do 2 (apply total_sbind; [solve_total|intros ?]).
  apply total_sbind; [apply total_write_records|solve_total].
Qed.
Lemma total_reorganization old new :
  Forall block_encodable old → Forall (λ e : Block * N * CumulativeWork, block_encodable e.1.1) new →
  total (apply_reorganization_tables old new).
Proof.
  intros HO HN. unfold apply_reorganization_tables. apply total_sbind; [|intros _; apply total_sbind].
  - induction HO as [|b bs Hb _ IH]; cbn [disconnect_blocks]; [solve_total|].
    apply total_sbind; [by apply total_disconnect|by intros _].
  - induction HN as [|[[b h] w] bs Hb _ IH]; cbn [connect_blocks]; [solve_total|].
    apply total_sbind; [by apply total_connect|by intros _].
  - intros _. destruct (last new) as [[[b h] w]|]; [apply header_hash_lift|]; solve_total.
Qed.

(** ** What the engine does to the blocks and the tip *)

(** The part of the tables a restart reads. *)
Definition spine (t : Tables) : gmap Hash (list byte) * gmap string (list byte) := (BLOCKS t, CHAIN_STATE t).

Ltac solve_keeps :=
  repeat first
    [ progress intros
    | match goal with
      | |- keeps _ (sbind _ _) => apply keeps_sbind
      | |- keeps _ (smodify _) => apply keeps_smodify; done
      | |- keeps _ (if ?b then _ else _) => destruct b
      | |- keeps _ (match ?x with _ => _ end) => destruct x
      end
    | solve [auto with scy] ].

Definition filing_spine (f : Filing) := spine (f_tables f).

Lemma push_record_spine out r f : filing_spine (push_record out r f) = filing_spine f.
Proof. unfold push_record. by destruct (extract_address_from_locking_condition _). Qed.

Lemma keeps_file_transactions bh h txs : keeps filing_spine (file_transactions bh h txs).
Proof.
  assert (HI : ∀ id ins, keeps filing_spine (file_inputs id ins)).
  { intros id ins. induction ins as [|i ins IH]; cbn [file_inputs]; [solve_keeps|].
    apply keeps_sbind; [unfold spent_output; solve_keeps|intros s]. apply keeps_sbind.
    - apply keeps_smodify. intros f. destruct s; [apply push_record_spine|done].
    - intros _. solve_keeps. }
  assert (HO : ∀ id cb outs idx, keeps filing_spine (file_outputs id h cb idx outs)).
  { intros id cb outs. induction outs as [|o outs IH]; intros idx; cbn [file_outputs]; [solve_keeps|].
    apply keeps_sbind; [apply keeps_smodify; intros f; apply push_record_spine|intros _].
    destruct (is_op_return _); [apply IH|]. solve_keeps. }
  induction txs as [|tx txs IH]; cbn [file_transactions]; [solve_keeps|].
  apply keeps_sbind; [|by intros _]. unfold file_transaction. do 4 (apply keeps_sbind; [solve_keeps|intros ?]).
  apply keeps_sbind; [|intros _; apply HO]. destruct (is_coinbase tx); [solve_keeps|apply HI].
Qed.
Lemma keeps_filing bh h txs : keeps spine (filing (file_transactions bh h txs)).
Proof.
  intros t. unfold filing. pose proof (keeps_file_transactions bh h txs (mkFiling t ∅ (mkBlockUndo [] []))) as HK.
  destruct (file_transactions bh h txs _) as [f r]. exact HK.
Qed.
Lemma keeps_write_records h recs : keeps spine (write_records h recs).
Proof. induction recs as [|[a new] recs IH]; cbn [write_records]; solve_keeps. Qed.
Lemma keeps_remove_records b h : keeps spine (remove_block_address_records_internal b h).
Proof. unfold remove_block_address_records_internal. solve_keeps. Qed.
Lemma keeps_apply_undo bh : keeps spine (apply_undo bh).
Proof.
  unfold apply_undo. solve_keeps. generalize (spent_utxos a1). intros l.
  induction l as [|[o e] l IH]; cbn [restore_spent]; solve_keeps.
Qed.
Lemma keeps_remove_transactions txs : keeps spine (remove_transactions txs).
Proof. induction txs as [|tx txs IH]; cbn [remove_transactions]; solve_keeps. Qed.

Lemma spine_inv m (t t' : Tables) (r : outcome StorageError unit) :
  keeps spine m → m t = (t', r) → BLOCKS t' = BLOCKS t ∧ CHAIN_STATE t' = CHAIN_STATE t.
Proof. intros HK E. specialize (HK t). rewrite E in HK. by injection HK. Qed.

Lemma commit_spine b h work t t' :
  commit_block_tables b h work t = (t', Ok tt) →
  ∃ bytes, to_canonical_bytes b = Ok bytes ∧ BLOCKS t' = <[block_id b := bytes]> (BLOCKS t) ∧
    CHAIN_STATE t' = set_tip (block_id b) h (CHAIN_STATE t).
Proof.
  unfold commit_block_tables. rewrite header_hash_ok, sbind_lift_Ok. fold (block_id b).
  intros (t0 & bytes & [= <- Hb%map_err_Ok] & H)%sbind_Ok. rewrite !sbind_smodify in H.
  apply sbind_Ok in H as (t1 & [recs undo] & H1 & H). pose proof (keeps_filing (block_id b) h (transactions b)) as K1.
  specialize (K1 (on_heights (insert (be_bytes 8 h) (block_id b)) (on_blocks (insert (block_id b) bytes) t))).
  rewrite H1 in K1. apply sbind_Ok in H as (t2 & [] & H2 & H).
  apply (spine_inv _ _ _ _ (keeps_write_records _ _)) in H2 as [E1 E2].
  apply sbind_Ok in H as (t3 & ub & [= <- _] & H). rewrite !sbind_smodify in H. injection H as <-.
  injection K1 as K1 K2. exists bytes. split; [done|]. cbn [on_state on_index on_undo BLOCKS CHAIN_STATE] in *.
  by rewrite E1, E2, K1, K2.
Qed.

Lemma connect_spine b h work t t' :
  connect_block b h work t = (t', Ok tt) →
  ∃ bytes, to_canonical_bytes b = Ok bytes ∧ BLOCKS t' = <[block_id b := bytes]> (BLOCKS t) ∧
    CHAIN_STATE t' = CHAIN_STATE t.
Proof.
  unfold connect_block. rewrite header_hash_ok, sbind_lift_Ok, sbind_smodify. fold (block_id b).
  intros (t0 & bytes & [= <- Hb%map_err_Ok] & H)%sbind_Ok. rewrite sbind_smodify in H.
  apply sbind_Ok in H as (t1 & [recs undo] & H1 & H). pose proof (keeps_filing (block_id b) h (transactions b)) as K1.
  specialize (K1 (on_blocks (insert (block_id b) bytes) (on_heights (insert (be_bytes 8 h) (block_id b)) t))).
  rewrite H1 in K1. apply sbind_Ok in H as (t2 & ub & [= <- _] & H). rewrite sbind_smodify in H.
  apply sbind_Ok in H as (t3 & [] & H2 & H). apply (spine_inv _ _ _ _ (keeps_write_records _ _)) in H2 as [E1 E2].
  injection H as <-. injection K1 as K1 K2. exists bytes. split; [done|].
  cbn [on_index on_undo BLOCKS CHAIN_STATE] in *. by rewrite E1, E2, K1, K2.
Qed.

Lemma disconnect_spine b t t' :
  disconnect_block b t = (t', Ok tt) →
  BLOCKS t' = delete (block_id b) (BLOCKS t) ∧ CHAIN_STATE t' = CHAIN_STATE t.
Proof.
  unfold disconnect_block. rewrite header_hash_ok, sbind_lift_Ok, sbind_sget. fold (block_id b). cbv zeta.
  intros (t1 & [] & H1 & H)%sbind_Ok.
  assert (K1 : keeps spine (match (BLOCK_INDEX t !! block_id b ≫= λ bytes, meta_height <$> meta_from_bytes bytes) with
    | Some h => let! _ := remove_block_address_records_internal b h in smodify (on_heights (delete (be_bytes 8 h)))
    | None => sret tt
    end)) by (destruct (_ ≫= _); [apply keeps_sbind; [apply keeps_remove_records|solve_keeps]|solve_keeps]).
  apply (spine_inv _ _ _ _ K1) in H1 as [E1 E2].
  apply sbind_Ok in H as (t2 & [] & H2 & H). apply (spine_inv _ _ _ _ (keeps_apply_undo _)) in H2 as [E3 E4].
  apply sbind_Ok in H as (t3 & [] & H3 & H). apply (spine_inv _ _ _ _ (keeps_remove_transactions _)) in H3 as [E5 E6].
  injection H as <-. cbn [remove_rows on_undo on_index on_blocks BLOCKS CHAIN_STATE]. split; congruence.
Qed.

(** The blocks in the tables, those that decode. *)
Definition decode_block (v : list byte) : option Block :=
  match from_canonical_bytes v with Ok b => Some b | _ => None end.
Definition blocks_of (t : Tables) : gmap Hash Block := omap decode_block (BLOCKS t).

Lemma decode_encoded b bytes : block_codec_wf b → to_canonical_bytes b = Ok bytes → decode_block bytes = Some b.
Proof. intros Hw Hb. unfold decode_block. by rewrite (from_to_canonical _ _ Hw Hb). Qed.

Lemma connect_blocks_of new t t' :
  connect_blocks new t = (t', Ok tt) → Forall (λ e : Entry, block_codec_wf e.1.1) new →
  blocks_of t' = foldl put_block (blocks_of t) new.*1.*1 ∧ CHAIN_STATE t' = CHAIN_STATE t.
Proof.
  intros H HF. revert t H; induction HF as [|[[b h] w] new Hw _ IH]; intros t H; cbn [connect_blocks] in H.
  { by injection H as <-. }
  apply sbind_Ok in H as (t1 & [] & (bytes & Hb & E1 & E2)%connect_spine & [H1 H2]%IH).
  cbn [fst] in Hw. cbn [fmap list_fmap fst foldl]. rewrite H1, H2, E2. split; [|done]. f_equal.
  unfold blocks_of, put_block. by rewrite E1, omap_insert, (decode_encoded _ _ Hw Hb).
Qed.
Lemma disconnect_blocks_of old t t' :
  disconnect_blocks old t = (t', Ok tt) →
  blocks_of t' = foldl drop_block (blocks_of t) old ∧ CHAIN_STATE t' = CHAIN_STATE t.
Proof.
  revert t; induction old as [|b old IH]; intros t H; cbn [disconnect_blocks] in H.
  { by injection H as <-. }
  apply sbind_Ok in H as (t1 & [] & [E1 E2]%disconnect_spine & [H1 H2]%IH). rewrite H1, H2, E2. split; [|done].
  cbn [foldl]. f_equal. unfold blocks_of, drop_block. by rewrite E1, omap_delete.
Qed.

Definition tip_of (t : Tables) : option (Hash * N) :=
  match get_canonical_tip t with Ok x => x | _ => None end.
Lemma tip_of_set id h t t' : CHAIN_STATE t' = set_tip id h (CHAIN_STATE t) → h < MOD64 → get_canonical_tip t' = Ok (Some (id, h)).
Proof.
  intros E Hh. rewrite <- (get_tip_set t id h Hh). unfold get_canonical_tip. by rewrite E.
Qed.

Lemma commit_tables_effect b h work t t' :
  commit_block_tables b h work t = (t', Ok tt) → block_codec_wf b → h < MOD64 →
  blocks_of t' = put_block (blocks_of t) b ∧ get_canonical_tip t' = Ok (Some (block_id b, h)).
Proof.
  intros (bytes & Hb & E1 & E2)%commit_spine Hw Hh. split; [|by eapply tip_of_set].
  unfold blocks_of, put_block. by rewrite E1, omap_insert, (decode_encoded _ _ Hw Hb).
Qed.
Lemma reorganization_tables_effect old new e t t' :
  apply_reorganization_tables old (new ++ [e]) t = (t', Ok tt) → Forall (λ e : Entry, block_codec_wf e.1.1) (new ++ [e]) →
  e.1.2 < MOD64 →
  blocks_of t' = foldl put_block (foldl drop_block (blocks_of t) old) (new ++ [e]).*1.*1 ∧
  get_canonical_tip t' = Ok (Some (entry_id e, e.1.2)).
Proof.
  unfold apply_reorganization_tables. intros H HF Hh. apply sbind_Ok in H as (t1 & [] & [E1 E2]%disconnect_blocks_of & H).
  apply sbind_Ok in H as (t2 & [] & H2 & H). apply connect_blocks_of in H2 as [E3 E4]; [|done].
  rewrite last_snoc in H. destruct e as [[b h] w]. rewrite header_hash_ok, sbind_lift_Ok in H. injection H as <-.
  split; [change (blocks_of (on_state _ t2)) with (blocks_of t2); by rewrite E3, E1|].
  by apply (tip_of_set _ _ t2).
Qed.
End engine.

(** ** The engine is a store *)

Section instance.
Context {B3 : Blake3} {BC : Bincode} {R : Redb}.

#[export] Instance StorageEngine : BlockStore := {|
  store := db;
  commit_block := engine_commit_block;
  apply_reorganization := engine_apply_reorganization;
  stored_tip := reading get_canonical_tip;
  stored_block := λ id, reading (λ t, get_block t id)
|}.

Context {L : RedbLaws}.

Lemma writing_returns (m : storeM unit) d : total m → returns (writing m d).
Proof.
  intros Hm. unfold writing. apply returns_obind; [apply read_tx_returns|intros t _]. specialize (Hm t).
  destruct (m t) as [t' [[]|e| |]]; cbn in *; [apply commit_tx_returns|done|by destruct Hm..].
Qed.
Lemma writing_Ok (m : storeM unit) d d' :
  writing m d = Ok d' → m (contents d) = (contents d', Ok tt).
Proof.
  unfold writing. intros (t & ->%read_contents & H)%obind_Ok.
  destruct (m (contents d)) as [t' [[]|e| |]]; [|done..]. by apply commit_contents in H as ->.
Qed.

#[export] Program Instance StorageEngine_laws : BlockStoreLaws := {|
  blocks_on := λ d : db, blocks_of (contents d);
  tip_on := λ d : db, tip_of (contents d);
  readable := λ d : db, read_tx d = Ok (contents d)
|}.
Next Obligation. intros b h work d He. by apply writing_returns, total_commit. Qed.
Next Obligation. intros old new d HO HN. by apply writing_returns, total_reorganization. Qed.
Next Obligation.
  intros b h work d d' H%writing_Ok Hw Hh. apply commit_tables_effect in H as [-> HT]; [|done..].
  split; [done|]. unfold tip_of. by rewrite HT.
Qed.
Next Obligation.
  intros old new e d d' H%writing_Ok Hw Hh. apply reorganization_tables_effect in H as [-> HT]; [|done..].
  split; [done|]. unfold tip_of. by rewrite HT.
Qed.
Next Obligation.
  intros d x Hd Hx. cbn [stored_tip StorageEngine]. unfold reading. rewrite Hd. cbn [obind]. unfold tip_of in Hx.
  destruct (get_canonical_tip (contents d)) as [y|e| |]; by subst.
Qed.
Next Obligation.
  intros d id b Hd Hb. cbn [stored_block StorageEngine]. unfold reading. rewrite Hd. cbn [obind].
  apply lookup_omap_Some in Hb as (v & Hv & Hrow). unfold get_block, decoded. rewrite Hrow.
  unfold decode_block in Hv. by destruct (from_canonical_bytes v); [injection Hv as ->|..].
Qed.
End instance.

(** A database that keeps its tables in memory. *)
Definition toy_redb : Redb := {| db := Tables; contents := λ t, t; read_tx := λ t, Ok t; commit_tx := λ _ t, Ok t |}.
Lemma toy_redb_laws : @RedbLaws toy_redb.
Proof. split; [by intros d t [= <-]|by intros d t d' [= <-]|done|done]. Qed.
