(* ===== verification/StorageTyped.v ===== *)
(** * Storage: the types of the rows

    What the tables of [Storage] hold: every row decodes at the type the readers
    of [crates/scytale-storage/src/engine.rs] decode it at, a block or a
    transaction is filed under its own hash, and the two halves of the tip come
    together. Every write of the engine preserves this, so no read of a database
    the engine has written reports a decoding error or an inconsistent state. *)

From S2P Require Import Prelude Bytes Primitives Types Codec Transaction Utxo Merkle Words Target Work Tables.
From S2P Require Import Consensus Chain Authorization Storage StorageSpec Store.
Local Open Scope N_scope.
Local Open Scope scy_scope.

(** ** Triples for computations on a state *)

(** From a state of [P], a run that succeeds ends in a state of [Q]. *)
Definition ensures {S E A} (P : S → Prop) (m : stM S E A) (Q : A → S → Prop) : Prop :=
  ∀ s s' a, P s → m s = (s', Ok a) → Q a s'.

Section triples.
Context {S E : Type}.
Implicit Types P : S → Prop.

Lemma ensures_bind {A B} P (R : A → S → Prop) (m : stM S E A) (k : A → stM S E B) (Q : B → S → Prop) :
  ensures P m R → (∀ a, ensures (R a) (k a) Q) → ensures P (sbind m k) Q.
Proof. intros Hm Hk s s' b HP (s1 & a & E1 & E2)%sbind_Ok. eapply Hk; [|exact E2]. by eapply Hm. Qed.

Lemma ensures_ret {A} P (a : A) (Q : A → S → Prop) : (∀ s, P s → Q a s) → ensures P (sret (E := E) a) Q.
Proof. intros H s s' a' HP [= <- <-]. by apply H. Qed.

(** The result of a computation that does not touch the state. *)
Lemma ensures_lift {A B} P (m : outcome E A) (k : A → stM S E B) (Q : B → S → Prop) :
  (∀ a, m = Ok a → ensures P (k a) Q) → ensures P (sbind (slift m) k) Q.
Proof. intros H s s' b HP (s1 & a & [= <- Hm] & E2)%sbind_Ok. by eapply H. Qed.

Lemma ensures_get {B} P (k : S → stM S E B) (Q : B → S → Prop) :
  (∀ s, P s → ensures (λ s', s' = s ∧ P s') (k s) Q) → ensures P (sbind sget k) Q.
Proof. intros H s s' b HP (s1 & a & [= <- <-] & E2)%sbind_Ok. by eapply H. Qed.

Lemma ensures_modify {B} P (g : S → S) (R : S → Prop) (k : unit → stM S E B) (Q : B → S → Prop) :
  (∀ s, P s → R (g s)) → ensures R (k tt) Q → ensures P (sbind (smodify g) k) Q.
Proof. intros HR Hk s s' b HP (s1 & [] & [= <-] & E2)%sbind_Ok. eapply Hk; [|exact E2]. by apply HR. Qed.

Lemma ensures_modify_last P (g : S → S) (Q : unit → S → Prop) :
  (∀ s, P s → Q tt (g s)) → ensures P (smodify (E := E) g) Q.
Proof. intros H s s' [] HP [= <-]. by apply H. Qed.

Lemma ensures_mono {A} P P' (m : stM S E A) (Q Q' : A → S → Prop) :
  (∀ s, P' s → P s) → (∀ a s, Q a s → Q' a s) → ensures P m Q → ensures P' m Q'.
Proof. intros HP HQ H s s' a Hs Hm. eapply HQ, H; [by apply HP|exact Hm]. Qed.

Lemma ensures_pure {A} P (φ : Prop) (m : stM S E A) (Q : A → S → Prop) :
  (φ → ensures P m Q) → ensures (λ s, P s ∧ φ) m Q.
Proof. intros H s s' a [HP Hφ]. by apply H. Qed.
End triples.

(** ** Typed tables *)

Section typed.
Context {B3 : Blake3} {BC : Bincode}.

Definition block_row (h : Hash) (v : list byte) : Prop :=
  ∃ b, from_canonical_bytes v = Ok b ∧ header_hash (E := StorageError) (header b) = Ok h.
Definition transaction_row (id : Hash) (v : list byte) : Prop :=
  ∃ tx, from_canonical_bytes v = Ok tx ∧ txid (E := StorageError) tx = Ok id.
Definition utxo_row (k v : list byte) : Prop :=
  is_Some (key_to_outpoint k) ∧ ∃ e : UtxoEntry, from_canonical_bytes v = Ok e.
Definition tip_rows (state : gmap string (list byte)) : Prop :=
  state !! KEY_TIP_HASH = None ∨
  ∃ h n, state !! KEY_TIP_HASH = Some (hash_bytes h) ∧ state !! KEY_TIP_HEIGHT = Some (le_bytes 8 n).

(** The rows of the address index decode, to at most as many records as the
    bound of their key. *)
Definition index_bound (f : list byte → nat) (t : Tables) : Prop :=
  map_Forall (λ key v, ∃ l, deserialize_address_tx_records v = Ok l ∧ (length l ≤ f key)%nat) (ADDRESS_TX_INDEX t).
(** The height in a key of that index. *)
Definition key_height (key : list byte) : N := be_val (drop 32 key).

(** [n] bounds the records of an address at each height. *)
Record tables_typed (n : N → nat) (t : Tables) : Prop := {
  ty_blocks : map_Forall block_row (BLOCKS t);
  ty_transactions : map_Forall transaction_row (TRANSACTIONS t);
  ty_utxos : map_Forall utxo_row (UTXOS t);
  ty_index : map_Forall (λ _ v, length v = BYTE_LEN) (BLOCK_INDEX t);
  ty_state : tip_rows (CHAIN_STATE t);
  ty_addresses : index_bound (λ key, n (key_height key)) t;
  ty_undo : map_Forall (λ _ v, ∃ u, undo_from_bytes v = Ok u) (BLOCK_UNDO_TABLE t);
  ty_confirm : map_Forall (λ _ v, is_Some (location_of v)) (TX_CONFIRM_INDEX t)
}.

Lemma tables_typed_empty n : tables_typed n empty_tables.
Proof. split; try apply map_Forall_empty. by left. Qed.

Lemma index_bound_weaken f g t : (∀ key, (f key ≤ g key)%nat) → index_bound f t → index_bound g t.
Proof. intros Hfg H key v Hv. destruct (H key v Hv) as (l & Hl & Hn). exists l. split; [done|]. specialize (Hfg key). lia. Qed.
Lemma tables_typed_weaken n m t : (∀ h, (n h ≤ m h)%nat) → tables_typed n t → tables_typed m t.
Proof. intros Hnm []. split; try done. eapply index_bound_weaken; [|done]. intros key. apply Hnm. Qed.

(** Each table can be written on its own. *)
Lemma typed_on_blocks n f t :
  (map_Forall block_row (BLOCKS t) → map_Forall block_row (f (BLOCKS t))) →
  tables_typed n t → tables_typed n (on_blocks f t).
Proof. intros H []. split; try done. by apply H. Qed.
Lemma typed_on_transactions n f t :
  (map_Forall transaction_row (TRANSACTIONS t) → map_Forall transaction_row (f (TRANSACTIONS t))) →
  tables_typed n t → tables_typed n (on_transactions f t).
Proof. intros H []. split; try done. by apply H. Qed.
Lemma typed_on_utxos n f t :
  (map_Forall utxo_row (UTXOS t) → map_Forall utxo_row (f (UTXOS t))) →
  tables_typed n t → tables_typed n (on_utxos f t).
Proof. intros H []. split; try done. by apply H. Qed.
Lemma typed_on_index n f t :
  (map_Forall (λ _ v, length v = BYTE_LEN) (BLOCK_INDEX t) → map_Forall (λ _ v, length v = BYTE_LEN) (f (BLOCK_INDEX t))) →
  tables_typed n t → tables_typed n (on_index f t).
Proof. intros H []. split; try done. by apply H. Qed.
Lemma typed_on_undo n f t :
  (map_Forall (λ _ v, ∃ u, undo_from_bytes v = Ok u) (BLOCK_UNDO_TABLE t) →
   map_Forall (λ _ v, ∃ u, undo_from_bytes v = Ok u) (f (BLOCK_UNDO_TABLE t))) →
  tables_typed n t → tables_typed n (on_undo f t).
Proof. intros H []. split; try done. by apply H. Qed.
Lemma typed_on_confirm n f t :
  (map_Forall (λ _ v, is_Some (location_of v)) (TX_CONFIRM_INDEX t) →
   map_Forall (λ _ v, is_Some (location_of v)) (f (TX_CONFIRM_INDEX t))) →
  tables_typed n t → tables_typed n (on_confirm f t).
Proof. intros H []. split; try done. by apply H. Qed.
Lemma typed_on_heights n f t : tables_typed n t → tables_typed n (on_heights f t).
Proof. by intros []. Qed.
Lemma typed_on_meta n f t : tables_typed n t → tables_typed n (on_meta f t).
Proof. by intros []. Qed.
Lemma typed_set_tip n h k t : tables_typed n t → tables_typed n (on_state (set_tip h k) t).
Proof.
  intros []. split; try done. right. exists h, k. cbn [on_state CHAIN_STATE]. unfold set_tip.
  by rewrite lookup_insert_ne, !lookup_insert_eq by done.
Qed.
Lemma typed_on_addresses n f t :
  index_bound (λ key, n (key_height key)) (on_addresses f t) → tables_typed n t → tables_typed n (on_addresses f t).
Proof. intros H []. by split. Qed.

(** The rows the engine writes. *)
Lemma utxo_row_entry o e bs :
  outpoint_wf o → utxoentry_wf e → to_canonical_bytes e = Ok bs → utxo_row (outpoint_to_key o) bs.
Proof.
  intros Ho He Hbs. split; [exists o; by apply key_to_outpoint_key|]. exists e. by apply from_to_canonical.
Qed.
Lemma location_row h n : is_Some (location_of (location_bytes h n)).
Proof.
  unfold location_of, location_bytes. rewrite take_app_length' by by rewrite hash_length.
  rewrite hash_of_list_bytes. by eexists.
Qed.
Lemma index_row_length b h work : length (work_limbs work) = 4%nat → length (index_row b h work) = BYTE_LEN.
Proof.
  intros Hl. unfold index_row, meta_to_bytes. cbn [meta_height meta_cumulative_work meta_timestamp].
  destruct (work_limbs work) as [|a [|b' [|c [|d [|]]]]]; done.
Qed.
Lemma undo_row_written u bs : undo_wf u → undo_to_bytes u = Ok bs → ∃ u', undo_from_bytes bs = Ok u'.
Proof. intros Hu Hbs. exists u. by apply block_undo_roundtrip. Qed.

(** ** Filing a block *)

(** The state of the loop over the transactions, when at most [k] inputs and
    outputs have been filed. *)
Record filing_typed (n : N → nat) (k : nat) (f : Filing) : Prop := {
  ft_tables : tables_typed n (f_tables f);
  ft_records : recs_le k (f_records f);
  ft_spent : Forall (λ p, outpoint_wf p.1 ∧ utxoentry_wf p.2) (spent_utxos (f_undo f));
  ft_created : Forall outpoint_wf (created_outpoints (f_undo f));
  ft_spent_count : (length (spent_utxos (f_undo f)) ≤ k)%nat;
  ft_created_count : (length (created_outpoints (f_undo f)) ≤ k)%nat
}.

Lemma filing_typed_weaken n k k' f : (k ≤ k')%nat → filing_typed n k f → filing_typed n k' f.
Proof. intros Hk []. split; try done; [by eapply recs_le_weaken|lia..]. Qed.

Lemma filing_typed_tables n k g f :
  (tables_typed n (f_tables f) → tables_typed n (g (f_tables f))) → filing_typed n k f → filing_typed n k (on_tables g f).
Proof. intros Hg []. split; try done. by apply Hg. Qed.

Lemma filing_push_record n k out r f : record_wf r → filing_typed n k f → filing_typed n (S k) (push_record out r f).
Proof.
  intros Hr []. destruct (push_record_run out r f) as (recs & -> & HR).
  split; cbn [f_tables f_records f_undo]; try done; [by apply HR|lia..].
Qed.

(** The output an input spends: its value is a machine word, and the undo data
    may have grown by one entry. *)
Lemma spent_output_typed n k o :
  outpoint_wf o →
  ensures (filing_typed n k) (spent_output o)
    (λ spent f, from_option txout_wf True spent ∧ recs_le k (f_records f) ∧ filing_typed n (S k) f).
Proof.
  intros Ho. apply ensures_get. intros f Hf. destruct (UTXOS (f_tables f) !! outpoint_to_key o) as [v|] eqn:E.
  - apply ensures_lift. intros e He%map_err_Ok. apply to_from_canonical in He as [He _].
    apply (ensures_modify _ _ (λ f', recs_le k (f_records f') ∧ filing_typed n (S k) f')).
    + intros f' [-> []]. split; [done|]. split; cbn [push_spent f_tables f_records f_undo spent_utxos created_outpoints]; try done.
      * by eapply recs_le_weaken, ft_records0; lia.
      * apply Forall_app. split; [done|]. by constructor.
      * rewrite length_app. cbn [length]. lia.
      * lia.
    + apply ensures_ret. intros f' [? ?]. split; [apply He|done].
  - destruct (TRANSACTIONS (f_tables f) !! op_txid o) as [v|].
    + apply ensures_lift. intros tx Htx%map_err_Ok. apply to_from_canonical in Htx as [[Hw _] _].
      apply ensures_ret. intros f' [-> Hf']. split.
      * destruct (outputs tx !! _) as [out|] eqn:Hout; [|done]. cbn. destruct Hw as (_ & _ & HO & _).
        by eapply Forall_lookup_1 in HO.
      * split; [apply Hf'|]. eapply filing_typed_weaken, Hf'. lia.
    + apply ensures_ret. intros f' [-> Hf']. split; [done|]. split; [apply Hf'|].
      eapply filing_typed_weaken, Hf'. lia.
Qed.

Lemma file_inputs_typed n k id ins :
  Forall txin_wf ins → ensures (filing_typed n k) (file_inputs id ins) (λ _, filing_typed n (k + length ins)).
Proof.
  intros HF. revert k. induction HF as [|i ins [Hi _] _ IH]; intros k.
  { apply ensures_ret. intros f. apply filing_typed_weaken. lia. }
  cbn [file_inputs]. eapply ensures_bind; [by apply spent_output_typed|]. intros spent. cbn beta.
  apply (ensures_modify _ _ (filing_typed n (S k))).
  { intros f (Hv & Hrec & Hf). destruct spent as [out|]; [|done].
    destruct (push_record_run out (mkAddressTxRecord id true false (value out) None) f) as (recs & -> & HR).
    destruct Hf. split; cbn [f_tables f_records f_undo]; try done. by apply HR. }
  apply (ensures_modify _ _ (filing_typed n (S k))).
  { intros f. apply filing_typed_tables, typed_on_utxos. intros H. by apply map_Forall_delete. }
  eapply ensures_mono, IH; [done|]. intros [] f. apply filing_typed_weaken. cbn [length]. lia.
Qed.

Lemma file_outputs_typed n k id h cb idx outs :
  Forall txout_wf outs → h < MOD64 →
  ensures (filing_typed n k) (file_outputs id h cb idx outs) (λ _, filing_typed n (k + length outs)).
Proof.
  intros HF Hh. revert k idx. induction HF as [|o outs Ho _ IH]; intros k idx.
  { apply ensures_ret. intros f. apply filing_typed_weaken. lia. }
  cbn [file_outputs]. 
  apply (ensures_modify _ _ (λ f, filing_typed n (S k) f ∧ (length (created_outpoints (f_undo f)) ≤ k)%nat)).
  { intros f Hf. split; [by apply filing_push_record|].
    destruct (push_record_run o (mkAddressTxRecord id false true (value o) None) f) as (recs & -> & _). apply Hf. }
  destruct (is_op_return (locking_condition o)).
  - eapply ensures_mono, (IH (S k)); [by intros f []|]. intros [] f. apply filing_typed_weaken. cbn [length]. lia.
  - assert (Hop : outpoint_wf (mkOutPoint id (wrap32 idx))) by (by apply N.mod_lt).
    apply (ensures_modify _ _ (filing_typed n (S k))).
    { intros f [[] Hc]. split; cbn [push_created f_tables f_records f_undo spent_utxos created_outpoints]; try done.
      - apply Forall_app. split; [done|]. by constructor.
      - rewrite length_app. cbn [length]. lia. }
    apply ensures_lift. intros bs Hbs%map_err_Ok.
    apply (ensures_modify _ _ (filing_typed n (S k))).
    { intros f. apply filing_typed_tables, typed_on_utxos. intros H. apply map_Forall_insert_2; [|done].
      apply (utxo_row_entry _ (mkUtxoEntry o h cb)); [done|by split|done]. }
    eapply ensures_mono, (IH (S k)); [done|]. intros [] f. apply filing_typed_weaken. cbn [length]. lia.
Qed.

Definition tx_count (tx : Transaction) : nat := (length (spends tx) + length (outputs tx))%nat.

Lemma file_transaction_typed n k bh h tx :
  transaction_codec_wf tx → h < MOD64 →
  ensures (filing_typed n k) (file_transaction bh h tx) (λ _, filing_typed n (k + tx_count tx)).
Proof.
  intros Hwf Hh. pose proof Hwf as [(_ & Hi & Ho & _) _]. unfold file_transaction.
  apply ensures_lift. intros id Hid. apply ensures_lift. intros bs Hbs%map_err_Ok.
  apply (ensures_modify _ _ (filing_typed n k)).
  { intros f. apply filing_typed_tables, typed_on_transactions. intros H. apply map_Forall_insert_2; [|done].
    exists tx. split; [by apply from_to_canonical|done]. }
  apply (ensures_modify _ _ (filing_typed n k)).
  { intros f. apply filing_typed_tables, typed_on_confirm. intros H. apply map_Forall_insert_2; [|done].
    apply location_row. }
  apply (ensures_bind _ (λ _, filing_typed n (k + length (spends tx)))).
  { unfold spends. destruct (is_coinbase tx).
    - apply ensures_ret. intros f. apply filing_typed_weaken. lia.
    - rewrite length_fmap. by apply file_inputs_typed. }
  intros []. eapply ensures_mono, file_outputs_typed; [done| |done..].
  intros [] f. apply filing_typed_weaken. unfold tx_count. lia.
Qed.

Lemma file_transactions_typed n k bh h txs :
  Forall transaction_codec_wf txs → h < MOD64 →
  ensures (filing_typed n k) (file_transactions bh h txs)
    (λ _, filing_typed n (k + (length (txs ≫= spends) + length (txs ≫= outputs)))).
Proof.
  intros HF Hh. revert k. induction HF as [|tx txs Htx _ IH]; intros k.
  { apply ensures_ret. intros f. apply filing_typed_weaken. lia. }
  cbn [file_transactions]. eapply ensures_bind; [by apply file_transaction_typed|]. intros [].
  eapply ensures_mono, IH; [done|]. intros [] f. apply filing_typed_weaken.
  cbn [mbind list_bind]. rewrite !length_app. unfold tx_count. lia.
Qed.

(** What filing a block gives: records and undo data that can be written. *)
Lemma filing_tables_typed n bh h b :
  block_codec_wf b → h < MOD64 →
  ensures (tables_typed n) (filing (file_transactions bh h (transactions b)))
    (λ ru t, tables_typed n t ∧ recs_le (record_count b) ru.1 ∧
       (N.of_nat (record_count b) < MOD32 → undo_wf ru.2)).
Proof.
  intros (_ & HF & _) Hh t t' [records undo] Ht HR. unfold filing in HR.
  destruct (file_transactions _ _ _ _) as [f r] eqn:E. injection HR as <- Hr.
  apply obind_Ok in Hr as ([] & -> & [= <- <-]).
  eapply (file_transactions_typed n 0) in E; [|done|done|by split].
  destruct E. cbn [fst snd]. unfold record_count in *. split; [done|]. split; [done|].
  intros Hc. split; [done|]. split; [done|]. lia.
Qed.

(** ** The writes of the engine *)

(** [c] more records at the height [h]. *)
Definition add_at (h : N) (c : nat) (n : N → nat) : N → nat := λ h', if h' =? h then (n h' + c)%nat else n h'.
Lemma add_at_le h c n h' : (n h' ≤ add_at h c n h')%nat.
Proof. unfold add_at. destruct (_ =? _); lia. Qed.
Lemma add_at_eq h c n : add_at h c n h = (n h + c)%nat.
Proof. unfold add_at. by rewrite N.eqb_refl. Qed.

Lemma key_height_key addr h : h < MOD64 → key_height (make_address_tx_key addr h) = h.
Proof.
  intros Hh. unfold key_height, make_address_tx_key. rewrite drop_app_length' by by rewrite hash_length.
  rewrite be_val_be_bytes. by apply N.mod_small.
Qed.

Lemma write_records_bound h c f g records :
  NoDup records.*1 → Forall (λ p, Forall record_wf p.2 ∧ (length p.2 ≤ c)%nat) records →
  (∀ key, (f key ≤ g key)%nat) →
  Forall (λ addr, (f (make_address_tx_key addr h) + c ≤ g (make_address_tx_key addr h))%nat ∧
                  N.of_nat (g (make_address_tx_key addr h)) ≤ MAX_VECTOR_LENGTH) records.*1 →
  ensures (index_bound f) (write_records h records) (λ _, index_bound g).
Proof.
  intros Hnd HF. revert f Hnd; induction HF as [|[addr new] records [Hwf Hc] _ IH]; intros f Hnd Hfg HA.
  { apply ensures_ret. intros t. by apply index_bound_weaken. }
  cbn in Hnd, HA. apply NoDup_cons in Hnd as [Hno Hnd]. apply Forall_cons in HA as [[HA0 Hmax] HA]. cbn [snd] in *.
  cbn [write_records]. set (key := make_address_tx_key addr h) in *. apply ensures_get. intros t Ht.
  apply (ensures_bind _ (λ merged t, index_bound f t ∧ Forall record_wf merged ∧ (length merged ≤ f key + c)%nat)).
  { destruct (ADDRESS_TX_INDEX t !! key) as [v|] eqn:E.
    - destruct (Ht _ _ E) as (l & Hl & Hn). apply ensures_lift. intros old Hold%map_err_Ok.
      replace old with l by congruence. apply address_records_roundtrip in Hl as (Hl & _).
      apply ensures_ret. intros t' [_ ?]. split; [done|]. rewrite length_app. split; [by apply Forall_app|lia].
    - apply ensures_ret. intros t' [_ ?]. split; [done|]. split; [done|lia]. }
  intros merged. apply ensures_pure. intros [Hmw Hml]. apply ensures_lift. intros payload Hp%map_err_Ok.
  set (f' := λ k, if decide (k = key) then (f k + c)%nat else f k).
  apply (ensures_modify _ _ (index_bound f')); [|apply IH; [done| |]].
  - intros t' Ht' k v Hkv. cbn [on_addresses ADDRESS_TX_INDEX] in Hkv. unfold f'.
    apply lookup_insert_Some in Hkv as [[<- <-]|[Hk Hv]].
    + exists merged. rewrite decide_True by done. split; [|done]. apply address_records_roundtrip.
      split; [done|]. split; [lia|done].
    + rewrite decide_False by done. by apply Ht'.
  - intros k. unfold f'. destruct (decide _) as [->|]; [lia|apply Hfg].
  - apply Forall_forall. intros a Ha. rewrite Forall_forall in HA. destruct (HA a Ha). unfold f'.
    rewrite decide_False; [done|]. intros Hk%address_key_inj. by subst a.
Qed.

Lemma write_address_records_typed n c h records :
  recs_le c records → h < MOD64 → N.of_nat (n h + c) ≤ MAX_VECTOR_LENGTH →
  ensures (tables_typed n) (write_address_records h records) (λ _, tables_typed (add_at h c n)).
Proof.
  intros Hc Hh Hmax t t' [] Ht HR.
  assert (HB : index_bound (λ key, add_at h c n (key_height key)) t').
  { revert HR. apply (write_records_bound h c (λ key, n (key_height key))); [apply NoDup_fst_map_to_list| | | |apply Ht].
    - apply Forall_forall. intros [a l] Hl%elem_of_map_to_list. exact (Hc a l Hl).
    - intros key. apply add_at_le.
    - apply Forall_forall. intros a _. rewrite key_height_key, add_at_eq by done. split; [lia|done]. }
  assert (HK : ∀ records t t', write_records h records t = (t', Ok tt) → ∃ idx, t' = on_addresses (λ _, idx) t).
  { clear. induction records as [|[a l] records IH]; intros t t'; cbn [write_records].
    - intros [= <-]. exists (ADDRESS_TX_INDEX t). by destruct t.
    - rewrite sbind_sget. intros (t1 & m & E1 & (t2 & p & [= <- _] & (t3 & [] & [= <-] & E3)%sbind_Ok)%sbind_Ok)%sbind_Ok.
      assert (t1 = t) as ->.
      { destruct (ADDRESS_TX_INDEX t !! _); [|by injection E1]. apply sbind_Ok in E1 as (? & ? & [= <- _] & [= <- _]). done. }
      apply IH in E3 as (idx & ->). by exists idx. }
  apply HK in HR as (idx & ->). apply typed_on_addresses; [exact HB|].
  eapply tables_typed_weaken, Ht. intros h'. apply add_at_le.
Qed.

(** A block whose fields are machine integers and whose vectors are within the
    limit, filed at a height and with a work of their types. *)
Definition entry_typed (e : Entry) : Prop :=
  block_codec_wf e.1.1 ∧ e.1.2 < MOD64 ∧ length (work_limbs e.2) = 4%nat.

Lemma typed_insert_block n b id bytes t :
  block_codec_wf b → header_hash (E := StorageError) (header b) = Ok id → to_canonical_bytes b = Ok bytes →
  tables_typed n t → tables_typed n (on_blocks (insert id bytes) t).
Proof.
  intros Hwf Hid Hb. apply typed_on_blocks. intros H. apply map_Forall_insert_2; [|done].
  exists b. split; [by apply from_to_canonical|done].
Qed.
Lemma typed_insert_undo n id undo bytes t :
  undo_wf undo → undo_to_bytes undo = Ok bytes → tables_typed n t → tables_typed n (on_undo (insert id bytes) t).
Proof. intros Hu Hb. apply typed_on_undo. intros H. apply map_Forall_insert_2; [by eapply undo_row_written|done]. Qed.
Lemma typed_insert_index n id b h work t :
  length (work_limbs work) = 4%nat → tables_typed n t → tables_typed n (on_index (insert id (index_row b h work)) t).
Proof. intros Hl. apply typed_on_index. intros H. apply map_Forall_insert_2; [by apply index_row_length|done]. Qed.

Lemma room_for_undo (n c : nat) : N.of_nat (n + c) ≤ MAX_VECTOR_LENGTH → N.of_nat c < MOD32.
Proof. unfold MAX_VECTOR_LENGTH. lia. Qed.

Lemma commit_block_typed n b h work :
  entry_typed (b, h, work) → N.of_nat (n h + record_count b) ≤ MAX_VECTOR_LENGTH →
  ensures (tables_typed n) (commit_block_tables b h work) (λ _, tables_typed (add_at h (record_count b) n)).
Proof.
  intros (Hwf & Hh & Hl) Hmax. cbn [fst snd] in *. unfold commit_block_tables.
  apply ensures_lift. intros id Hid. apply ensures_lift. intros bytes Hb%map_err_Ok.
  apply (ensures_modify _ _ (tables_typed n)); [intros t; by eapply typed_insert_block|].
  apply (ensures_modify _ _ (tables_typed n)); [intros t; apply typed_on_heights|].
  eapply ensures_bind; [by apply filing_tables_typed|]. intros [records undo]. cbn [fst snd].
  apply ensures_pure. intros [Hrec Hundo%(λ H, H (room_for_undo _ _ Hmax))].
  eapply ensures_bind; [by apply write_address_records_typed|]. intros [].
  apply ensures_lift. intros ubytes Hu.
  apply (ensures_modify _ _ (tables_typed (add_at h (record_count b) n))); [intros t; by eapply typed_insert_undo|].
  apply (ensures_modify _ _ (tables_typed (add_at h (record_count b) n))); [intros t; by apply typed_insert_index|].
  apply ensures_modify_last. intros t. apply typed_set_tip.
Qed.

Lemma connect_block_typed n b h work :
  entry_typed (b, h, work) → N.of_nat (n h + record_count b) ≤ MAX_VECTOR_LENGTH →
  ensures (tables_typed n) (connect_block b h work) (λ _, tables_typed (add_at h (record_count b) n)).
Proof.
  intros (Hwf & Hh & Hl) Hmax. cbn [fst snd] in *. unfold connect_block.
  apply ensures_lift. intros id Hid.
  apply (ensures_modify _ _ (tables_typed n)); [intros t; apply typed_on_heights|].
  apply ensures_lift. intros bytes Hb%map_err_Ok.
  apply (ensures_modify _ _ (tables_typed n)); [intros t; by eapply typed_insert_block|].
  eapply ensures_bind; [by apply filing_tables_typed|]. intros [records undo]. cbn [fst snd].
  apply ensures_pure. intros [Hrec Hundo%(λ H, H (room_for_undo _ _ Hmax))].
  apply ensures_lift. intros ubytes Hu.
  apply (ensures_modify _ _ (tables_typed n)); [intros t; by eapply typed_insert_undo|].
  eapply ensures_bind; [by apply write_address_records_typed|]. intros [].
  apply ensures_modify_last. intros t. by apply typed_insert_index.
Qed.

(** The records at each height once the blocks of [l] have been filed. *)
Definition filed_at (l : list Entry) (n : N → nat) : N → nat := foldl (λ n e, add_at e.1.2 (record_count e.1.1) n) n l.
Lemma filed_at_le l n h : (n h ≤ filed_at l n h)%nat.
Proof.
  revert n; induction l as [|e l IH]; intros n; [done|]. cbn [filed_at foldl]. etrans; [|apply IH]. apply add_at_le.
Qed.
(** The address index has room for [n] records at each height. *)
Definition fits (n : N → nat) : Prop := ∀ h, N.of_nat (n h) ≤ MAX_VECTOR_LENGTH.

Lemma connect_blocks_typed n l :
  Forall entry_typed l → fits (filed_at l n) →
  ensures (tables_typed n) (connect_blocks l) (λ _, tables_typed (filed_at l n)).
Proof.
  intros HF. revert n. induction HF as [|[[b h] work] l He _ IH]; intros n Hmax; [by apply ensures_ret|].
  cbn [connect_blocks filed_at foldl fst snd] in *.
  apply (ensures_bind _ (λ _, tables_typed (add_at h (record_count b) n))); [|intros []; by apply IH].
  apply connect_block_typed; [done|]. pose proof (filed_at_le l (add_at h (record_count b) n) h) as HL.
  rewrite add_at_eq in HL. specialize (Hmax h). unfold filed_at in HL. lia.
Qed.

(** *** Rolling back *)

Lemma remove_records_typed n b h :
  ensures (tables_typed n) (remove_block_address_records_internal b h) (λ _, tables_typed n).
Proof.
  apply ensures_lift. intros m _. apply ensures_get. intros t0 _. apply ensures_modify_last. intros t [_ Ht].
  apply typed_on_addresses; [|done]. intros k v Hkv%foldl_delete_subseteq. by apply (ty_addresses _ _ Ht).
Qed.

Lemma typed_delete_created n C t :
  tables_typed n t → tables_typed n (on_utxos (λ u, foldl (λ u o, delete (outpoint_to_key o) u) u C) t).
Proof.
  apply typed_on_utxos. generalize (UTXOS t). induction C as [|o C IH]; intros u Hu; cbn [foldl]; [done|].
  apply IH. by apply map_Forall_delete.
Qed.

Lemma restore_spent_typed n spent :
  Forall (λ p, outpoint_wf p.1 ∧ utxoentry_wf p.2) spent →
  ensures (tables_typed n) (restore_spent spent) (λ _, tables_typed n).
Proof.
  induction 1 as [|[o e] spent [Ho He] _ IH]; [by apply ensures_ret|]. cbn [restore_spent].
  apply ensures_lift. intros bs Hbs%map_err_Ok.
  apply (ensures_modify _ _ (tables_typed n)); [|exact IH].
  intros t. apply typed_on_utxos. intros H. apply map_Forall_insert_2; [by eapply utxo_row_entry|done].
Qed.

Lemma apply_undo_typed n id : ensures (tables_typed n) (apply_undo id) (λ _, tables_typed n).
Proof.
  apply ensures_get. intros t0 _. apply ensures_lift. intros bytes _. apply ensures_lift. intros undo Hu.
  apply block_undo_roundtrip in Hu as [(HS & _ & _) _].
  apply (ensures_modify _ _ (tables_typed n)); [|by apply restore_spent_typed].
  intros t [_ Ht]. by apply typed_delete_created.
Qed.

Lemma remove_transactions_typed n txs : ensures (tables_typed n) (remove_transactions txs) (λ _, tables_typed n).
Proof.
  induction txs as [|tx txs IH]; [by apply ensures_ret|]. cbn [remove_transactions].
  apply ensures_lift. intros id _.
  apply (ensures_modify _ _ (tables_typed n)); [intros t; apply typed_on_transactions, map_Forall_delete|].
  apply (ensures_modify _ _ (tables_typed n)); [intros t; apply typed_on_confirm, map_Forall_delete|exact IH].
Qed.

Lemma typed_remove_rows n id t : tables_typed n t → tables_typed n (remove_rows id t).
Proof.
  intros Ht. apply typed_on_undo, typed_on_index, typed_on_blocks; [apply map_Forall_delete..|exact Ht].
Qed.

Lemma unwind_block_typed n b h : ensures (tables_typed n) (unwind_block_tables b h) (λ _, tables_typed n).
Proof.
  eapply ensures_bind; [apply remove_records_typed|]. intros []. apply ensures_lift. intros id _.
  eapply ensures_bind; [apply apply_undo_typed|]. intros [].
  eapply ensures_bind; [apply remove_transactions_typed|]. intros [].
  apply (ensures_modify _ _ (tables_typed n)); [intros t; apply typed_remove_rows|].
  apply (ensures_modify _ _ (tables_typed n)); [intros t; apply typed_on_heights|].
  apply ensures_get. intros t0 _. case_bool_decide.
  - apply ensures_modify_last. intros t [_ Ht]. by apply typed_set_tip.
  - apply ensures_ret. by intros t [_ Ht].
Qed.

Lemma disconnect_block_typed n b : ensures (tables_typed n) (disconnect_block b) (λ _, tables_typed n).
Proof.
  apply ensures_lift. intros id _. apply ensures_get. intros t0 _.
  apply (ensures_bind _ (λ _, tables_typed n)).
  { destruct (_ ≫= _) as [h|]; [|by apply ensures_ret; intros t [_ Ht]].
    apply (ensures_bind _ (λ _, tables_typed n)).
    - eapply ensures_mono, remove_records_typed; [by intros t []|done].
    - intros []. apply ensures_modify_last. intros t. apply typed_on_heights. }
  intros []. eapply ensures_bind; [apply apply_undo_typed|]. intros [].
  eapply ensures_bind; [apply remove_transactions_typed|]. intros [].
  apply ensures_modify_last. intros t. apply typed_remove_rows.
Qed.
Lemma disconnect_blocks_typed n l : ensures (tables_typed n) (disconnect_blocks l) (λ _, tables_typed n).
Proof.
  induction l as [|b l IH]; [by apply ensures_ret|].
  eapply ensures_bind; [apply disconnect_block_typed|]. by intros [].
Qed.

Lemma reorganization_typed n disconnected connected :
  Forall entry_typed connected → fits (filed_at connected n) →
  ensures (tables_typed n) (apply_reorganization_tables disconnected connected)
    (λ _, tables_typed (filed_at connected n)).
Proof.
  intros HF Hmax. eapply ensures_bind; [apply disconnect_blocks_typed|]. intros [].
  eapply ensures_bind; [by apply connect_blocks_typed|]. intros [].
  destruct (last (A := Block * N * CumulativeWork) connected) as [[[b h] work]|]; [|by apply ensures_ret].
  apply ensures_lift. intros id _. apply ensures_modify_last. intros t. apply typed_set_tip.
Qed.

(** *** Replacing the unspent outputs *)

Lemma insert_entries_typed n entries :
  Forall (λ p, entry_wf p.1 p.2) entries → ensures (tables_typed n) (insert_entries entries) (λ _, tables_typed n).
Proof.
  induction 1 as [|[o e] l [Ho He] _ IH]; [by apply ensures_ret|]. cbn [insert_entries].
  apply ensures_lift. intros bs Hbs%map_err_Ok.
  apply (ensures_modify _ _ (tables_typed n)); [|exact IH].
  intros t. apply typed_on_utxos. intros H. apply map_Forall_insert_2; [by eapply utxo_row_entry|done].
Qed.
Lemma typed_clear_utxos n t : tables_typed n t → tables_typed n (on_utxos (λ _, ∅) t).
Proof. apply typed_on_utxos. intros _. apply map_Forall_empty. Qed.

(** ** Reading typed tables *)

(** A typed table of unspent outputs stores a set. *)
Lemma typed_stores tbl : map_Forall utxo_row tbl → ∃ u, stores tbl u.
Proof.
  induction tbl as [|k v tbl Hk IH] using map_ind; intros H; [exists ∅; apply stores_empty|].
  destruct IH as [u Hu]; [by eapply map_Forall_insert_1_2|].
  destruct (map_Forall_insert_1_1 _ _ _ _ H) as ([o Ho] & e & He).
  apply key_to_outpoint_Some in Ho as [<- Ho]. apply to_from_canonical in He as [Hw He].
  exists (<[o := e]> u). by apply stores_insert.
Qed.

Lemma decoded_row {A} `{CanonicalDeserialize A} (P : A → Prop) (v : option (list byte)) :
  (∀ bs, v = Some bs → ∃ x, from_canonical_bytes bs = Ok x ∧ P x) →
  ∃ r, decoded v = Ok r ∧ from_option P True r.
Proof.
  intros Hv. destruct v as [bs|]; [|by exists None]. destruct (Hv bs eq_refl) as (x & Hx & HP).
  exists (Some x). cbn [decoded]. by rewrite Hx.
Qed.

Lemma typed_tip n t : tables_typed n t → ∃ r, get_canonical_tip t = Ok r.
Proof.
  intros Ht. unfold get_canonical_tip. destruct (ty_state _ _ Ht) as [->|(h & k & -> & ->)]; [by eexists|].
  rewrite hash_of_list_bytes. cbn [ok_or obind]. by eexists.
Qed.

Lemma collect_records_typed rows limit results :
  Forall (λ kv, ∃ l, deserialize_address_tx_records kv.2 = Ok l) rows →
  ∃ r, collect_records rows limit results = Ok r.
Proof.
  intros HF. revert results; induction HF as [|[k v] rows [l Hl] _ IH]; intros results; [by eexists|].
  cbn [collect_records]. cbn [snd] in Hl. rewrite Hl. cbn [ser_err map_err obind].
  destruct (push_records _ _ _ _) as [r []]; [by eexists|apply IH].
Qed.

Lemma typed_address n t a from to limit :
  tables_typed n t → ∃ r, get_address_transactions t a from to limit = Ok r.
Proof.
  intros Ht. unfold get_address_transactions, get_address_transactions_with_height.
  destruct (_ || _); [by eexists|]. edestruct collect_records_typed as [r ->]; [|by eexists].
  apply Forall_forall. intros [k v] [_ Hkv]%list_elem_of_filter. rewrite table_iter_perm in Hkv.
  apply elem_of_map_to_list in Hkv. destruct (ty_addresses _ _ Ht k v Hkv) as (l & Hl & _). by exists l.
Qed.

(** The writer of a row of the address index has no limit; the reader has one. *)
Lemma long_address_row_unreadable records bytes :
  MAX_VECTOR_LENGTH < N.of_nat (length records) → N.of_nat (length records) < MOD32 →
  serialize_address_tx_records records = Ok bytes →
  deserialize_address_tx_records bytes =
    Err (LengthExceedsLimit (N.of_nat (length records)) MAX_VECTOR_LENGTH).
Proof.
  intros Hl H32. unfold serialize_address_tx_records, serialize_counted. intros (a & Ha & (b & _ & <-%Ok_inj)%obind_Ok)%obind_Ok.
  rewrite wrap32_small in Ha by done. unfold deserialize_address_tx_records.
  rewrite (lawful_enc _ _ _ _ _ _ lawful_u32 H32 Ha). cbn [obind].
  by rewrite (proj2 (N.ltb_lt _ _) Hl).
Qed.

(** ** Every state of a database the engine has written *)

Inductive Write :=
| WCommit (b : Block) (height : N) (work : CumulativeWork)
| WUnwind (b : Block) (height : N)
| WReorganize (disconnected : list Block) (connected : list (Block * N * CumulativeWork))
| WReplace (s : UtxoSet)
| WSnapshot (snapshot : UtxoSnapshotDto)
| WMeta (key value : string).

(** The arguments are of the types the program gives them. *)
Definition write_typed (w : Write) : Prop :=
  match w with
  | WCommit b h work => entry_typed (b, h, work)
  | WReorganize _ connected => Forall entry_typed connected
  | WReplace s => map_Forall entry_wf s
  | WSnapshot snapshot => Forall (λ p, entry_wf p.1 p.2) (snap_entries snapshot)
  | WUnwind _ _ | WMeta _ _ => True
  end.
(** The records at each height after it. *)
Definition records_after (w : Write) (n : N → nat) : N → nat :=
  match w with
  | WCommit b h _ => add_at h (record_count b) n
  | WReorganize _ connected => filed_at connected n
  | _ => n
  end.
Definition write_body (w : Write) : storeM unit :=
  match w with
  | WCommit b h work => commit_block_tables b h work
  | WUnwind b h => unwind_block_tables b h
  | WReorganize disconnected connected => apply_reorganization_tables disconnected connected
  | WReplace s => replace_utxo_set_tables s
  | WSnapshot snapshot => apply_utxo_snapshot_tables snapshot
  | WMeta key value => set_meta_tables key value
  end.

Lemma write_body_typed n w :
  write_typed w → fits (records_after w n) →
  ensures (tables_typed n) (write_body w) (λ _, tables_typed (records_after w n)).
Proof.
  destruct w as [b h work|b h|ds cs|s|sn|k v]; cbn [write_typed records_after write_body]; intros Hw Hmax.
  - apply commit_block_typed; [done|]. specialize (Hmax h). by rewrite add_at_eq in Hmax.
  - apply unwind_block_typed.
  - by apply reorganization_typed.
  - apply (ensures_modify _ _ (tables_typed n)); [intros t; apply typed_clear_utxos|].
    apply insert_entries_typed, Forall_forall. intros [o e] Hoe%elem_of_map_to_list. by apply Hw.
  - apply ensures_lift. intros r _. destruct (negb _); [by intros t t' a _ [=]|].
    apply (ensures_modify _ _ (tables_typed n)); [intros t; apply typed_clear_utxos|].
    apply insert_entries_typed. by rewrite sort_by_perm.
  - apply ensures_modify_last. intros t. apply typed_on_meta.
Qed.
Lemma records_after_le w n h : (n h ≤ records_after w n h)%nat.
Proof. destruct w; cbn [records_after]; [apply add_at_le|done|apply filed_at_le|done..]. Qed.
End typed.

Section database.
Context {B3 : Blake3} {BC : Bincode} {R : Redb} {RL : RedbLaws}.

Definition engine_write (w : Write) : db → outcome StorageError db :=
  match w with
  | WCommit b h work => engine_commit_block b h work
  | WUnwind b h => engine_unwind_block b h
  | WReorganize disconnected connected => engine_apply_reorganization disconnected connected
  | WReplace s => engine_replace_utxo_set s
  | WSnapshot snapshot => engine_apply_utxo_snapshot snapshot
  | WMeta key value => engine_set_meta key value
  end.

(** The databases the engine can have written, from a new one, with a bound of
    the records it has filed at each height. A write that fails leaves the
    database as it was. *)
Inductive written : (N → nat) → db → Prop :=
| written_new d : contents d = empty_tables → written (λ _, 0%nat) d
| written_write n d w d' : written n d → write_typed w → engine_write w d = Ok d' → written (records_after w n) d'.

Lemma engine_write_contents w d d' :
  engine_write w d = Ok d' → write_body w (contents d) = (contents d', Ok tt).
Proof.
  assert (HW : ∀ m, writing m d = Ok d' → m (contents d) = (contents d', Ok tt)).
  { intros m (t & Ht & Hm)%obind_Ok. apply read_contents in Ht as ->.
    destruct (m (contents d)) as [t' [[]| | |]]; try done. by apply commit_contents in Hm as <-. }
  destruct w; apply HW.
Qed.

Lemma written_typed n d : written n d → fits n → tables_typed n (contents d).
Proof.
  induction 1 as [d Hd|n d w d' _ IH Hw E]; intros Hn; [rewrite Hd; apply tables_typed_empty|].
  assert (Ht : tables_typed n (contents d)).
  { apply IH. intros h. pose proof (records_after_le w n h). specialize (Hn h). lia. }
  by eapply write_body_typed, engine_write_contents.
Qed.

(** C8: No read of a database the engine has written meets a row it cannot
    decode. Whatever blocks were committed, unwound or reorganized, and whatever
    sets were installed, every block and transaction in the tables decodes and is
    the one its key names, the tip is complete, and the queries for a block by
    hash or height, a transaction, its location, an unspent output, the whole
    set, a snapshot and the history of an address all return a value: none of
    them reports a decoding error or an inconsistent state, and none panics. The
    bound is the writer's, which does not check the limit the reader of the
    address index enforces. *)
Theorem engine_rows_typed (n : N → nat) (d : db) (Hw : written n d) (Hn : fits n) :
  (∀ h, ∃ r, get_block (contents d) h = Ok r ∧ from_option (λ b, header_hash (E := StorageError) (header b) = Ok h) True r) ∧
  (∀ id, ∃ r, get_transaction (contents d) id = Ok r ∧ from_option (λ tx, txid (E := StorageError) tx = Ok id) True r) ∧
  (∀ height, ∃ r, get_block_by_height (contents d) height = Ok r) ∧
  (∀ id, ∃ r, get_transaction_location (contents d) id = Ok r) ∧
  (∀ o, ∃ r, get_utxo (contents d) o = Ok r) ∧
  (∃ r, get_canonical_tip (contents d) = Ok r) ∧
  (∃ u, load_entire_utxo_set (contents d) = Ok u) ∧
  (∃ s, export_utxo_snapshot (contents d) = Ok s) ∧
  (∀ address from to limit, ∃ l, get_address_transactions (contents d) address from to limit = Ok l).
Proof.
  pose proof (written_typed n d Hw Hn) as Ht. destruct (typed_stores _ (ty_utxos _ _ Ht)) as [u Hu].
  assert (HB : ∀ h, ∃ r, get_block (contents d) h = Ok r ∧
            from_option (λ b, header_hash (E := StorageError) (header b) = Ok h) True r).
  { intros h. apply decoded_row. apply (ty_blocks _ _ Ht). }
  split; [exact HB|]. split; [intros id; apply decoded_row, (ty_transactions _ _ Ht)|].
  split.
  { intros height. unfold get_block_by_height, get_block_hash_by_height. cbn [obind].
    destruct (_ !! _) as [h|]; [|by eexists]. destruct (HB h) as (r & -> & _). by eexists. }
  split.
  { intros id. unfold get_transaction_location. destruct (_ !! _) as [v|] eqn:E; [|by eexists].
    destruct (ty_confirm _ _ Ht id v E) as [loc ->]. by eexists. }
  split.
  { intros o. destruct (decoded_row (λ _ : UtxoEntry, True) (UTXOS (contents d) !! outpoint_to_key o)) as (r & Hr & _);
      [|by exists r]. intros bs E. destruct (ty_utxos _ _ Ht _ _ E) as (_ & e & He). by exists e. }
  destruct (typed_tip _ _ Ht) as [tip Htip]. destruct (utxo_entries_stores _ _ Hu) as (entries & He & _).
  split; [by exists tip|]. split; [exists u; by apply load_stored|]. split; [|intros; by eapply typed_address].
  unfold export_utxo_snapshot. rewrite Htip. cbn [obind]. destruct (default _ _) as [bh h]. rewrite He. cbn [obind].
  destruct (merkle_root_total (E := StorageError) (leaves_of entries)) as [r ->]. by eexists.
Qed.
End database.

(** ** Witness *)

Section witness.
#[local] Existing Instances toy_blake3 toy_bincode toy_redb toy_redb_laws.

(** Two commits, then a reorganization from the second block to another. *)
Definition toy_writes : list Write :=
  [WCommit toy_genesis 0 (toy_work toy_genesis); WCommit toy_b1 1 (toy_work toy_b1);
   WReorganize [toy_b1] [toy_g1]].
Definition toy_bound : N → nat := foldl (λ n w, records_after w n) (λ _, 0%nat) toy_writes.
Definition toy_run (t : Tables) (w : Write) : Tables :=
  match engine_write (R := toy_redb) w t with Ok t' => t' | _ => t end.
Definition toy_written : Tables := foldl toy_run empty_tables toy_writes.

Lemma entry_typed_okb b h work :
  block_okb b = true → (h <? MOD64) = true → length (work_limbs work) = 4%nat → entry_typed (b, h, work).
Proof. intros (_ & ? & _)%block_okb_spec Hh%N.ltb_lt Hl. done. Qed.

Lemma toy_step n d w :
  written (R := toy_redb) n d → write_typed w → is_Ok_b (engine_write (R := toy_redb) w d) = true →
  written (R := toy_redb) (records_after w n) (toy_run d w).
Proof.
  intros Hd Hw HO. apply (written_write _ d); [exact Hd|exact Hw|]. unfold toy_run.
  by destruct (engine_write w d).
Qed.

Lemma toy_is_written : written (R := toy_redb) toy_bound toy_written.
Proof.
  unfold toy_bound, toy_written, toy_writes. cbn [foldl].
  apply toy_step; [apply toy_step; [apply toy_step; [by apply written_new| |]| |]| |].
  - apply entry_typed_okb; vm_compute; reflexivity.
  - vm_compute; reflexivity.
  - apply entry_typed_okb; vm_compute; reflexivity.
  - vm_compute; reflexivity.
  - constructor; [|constructor]. apply entry_typed_okb; vm_compute; reflexivity.
  - vm_compute; reflexivity.
Qed.

Lemma toy_fits : fits toy_bound.
Proof.
  assert (HC : (N.of_nat (record_count toy_genesis + record_count toy_b1 + record_count toy_f1) <=? MAX_VECTOR_LENGTH) = true)
    by (vm_compute; reflexivity).
  apply N.leb_le in HC. intros h. unfold toy_bound, toy_writes. cbn [foldl records_after filed_at toy_g1 fst snd].
  unfold add_at. repeat destruct (_ =? _); lia.
Qed.

Lemma engine_rows_typed_witness :
  get_canonical_tip toy_written = Ok (Some (block_id toy_f1, 1)) ∧
  (∃ r, get_block toy_written (block_id toy_f1) = Ok r) ∧ ∃ s, export_utxo_snapshot toy_written = Ok s.
Proof.
  destruct (engine_rows_typed (R := toy_redb) toy_bound toy_written toy_is_written toy_fits)
    as (HB & _ & _ & _ & _ & _ & _ & HS & _).
  split; [vm_compute; reflexivity|]. split; [|exact HS].
  destruct (HB (block_id toy_f1)) as (r & Hr & _). by exists r.
Defined.
End witness.
