(* ===== verification/Mempool.v ===== *)
(** * The mempool: data and operations

    [crates/scytale-mempool/src/entry.rs], [error.rs] and [pool.rs]. Hash maps
    and sets are finite maps and sets; where the code iterates over one, the
    model enumerates it, in an order of its own. The priority index is a set of
    keys, iterated in the derived order of [PriorityKey], as a [BTreeSet] is.
    [usize] has 64 bits. *)

From S2P Require Import Prelude Bytes Primitives Types Codec Transaction Utxo Authorization.
Local Open Scope N_scope.
Local Open Scope scy_scope.

(** ** Entries *)

(** [added_time] is wrapped in [Reverse]: the comparison is the other way. *)
Record PriorityKey := mkPriorityKey { k_fee_rate : N; k_added_time : N; k_txid : Hash }.
#[global] Instance prioritykey_eq_dec : EqDecision PriorityKey.
Proof. solve_decision. Defined.
#[global] Instance prioritykey_countable : Countable PriorityKey :=
  inj_countable' (λ k, (k_fee_rate k, k_added_time k, k_txid k)) (λ p, mkPriorityKey p.1.1 p.1.2 p.2)
    (λ k, match k with mkPriorityKey _ _ _ => eq_refl end).

Definition key_cmp (a b : PriorityKey) : comparison :=
  match k_fee_rate a ?= k_fee_rate b with
  | Eq => match k_added_time b ?= k_added_time a with
          | Eq => hash_cmp (k_txid a) (k_txid b)
          | c => c
          end
  | c => c
  end.
Definition key_le (a b : PriorityKey) : Prop := key_cmp a b ≠ Gt.
#[global] Instance key_le_dec : RelDecision key_le.
Proof. intros a b. unfold key_le. solve_decision. Defined.

(** [BTreeSet::iter]. *)
Definition ascending (s : gset PriorityKey) : list PriorityKey := merge_sort key_le (elements s).

Record MempoolEntry := mkMempoolEntry {
  e_transaction : Transaction;
  e_txid : Hash;
  e_fee : N;
  e_fee_rate : N;
  e_size_bytes : N;
  e_added_time : N
}.

Definition priority_key (e : MempoolEntry) : PriorityKey :=
  mkPriorityKey (e_fee_rate e) (e_added_time e) (e_txid e).

Inductive MempoolError :=
| DuplicateTx (id : Hash)
| MissingInputUtxo (o : OutPoint)
| ConflictDoubleSpend (outpoint : OutPoint) (conflicting_tx : Hash)
| AuthorizationFailed (e : AuthorizationError)
| MempoolValueDeficit (total_in total_out : N)
| StructuralError (e : TransactionError)
| CoinbaseNotAllowed
| MempoolArithmeticOverflow
| FeeTooLow (fee_rate min_relay_fee : N)
| MempoolFull (fee_rate lowest_fee_rate : N).

(** ** The pool *)

Definition DEFAULT_MAX_MEMPOOL_COUNT : N := 5000.
Definition DEFAULT_MAX_MEMPOOL_BYTES : N := 5000000.
Definition DEFAULT_MIN_RELAY_FEE_RATE : N := 1000.
Definition MAX_ANCESTORS : N := 25.
Definition MAX_DESCENDANTS : N := 25.

Record Mempool := mkMempool {
  entries : gmap Hash MempoolEntry;
  priority_index : gset PriorityKey;
  spent_outpoints : gmap OutPoint Hash;
  parent_to_children : gmap Hash (gset Hash);
  child_to_parents : gmap Hash (gset Hash);
  total_bytes : N;
  max_count : N;
  max_bytes : N;
  min_fee_rate : N
}.

Definition with_config (max_count max_bytes min_fee_rate : N) : Mempool :=
  mkMempool ∅ ∅ ∅ ∅ ∅ 0 max_count max_bytes min_fee_rate.
Definition Mempool_new : Mempool :=
  with_config DEFAULT_MAX_MEMPOOL_COUNT DEFAULT_MAX_MEMPOOL_BYTES DEFAULT_MIN_RELAY_FEE_RATE.

Definition pool_len (p : Mempool) : N := N.of_nat (size (entries p)).
Definition pool_is_empty (p : Mempool) : bool := pool_len p =? 0.
Definition pool_contains (p : Mempool) (id : Hash) : bool := bool_decide (is_Some (entries p !! id)).
Definition pool_get (p : Mempool) (id : Hash) : option MempoolEntry := entries p !! id.

Definition poolM : Type → Type := stM Mempool MempoolError.

(** Keys from the highest priority down: [iter().rev()]. *)
Definition descending (p : Mempool) : list PriorityKey := reverse (ascending (priority_index p)).

Definition get_entries_sorted_by_fee_rate (p : Mempool) : list MempoolEntry :=
  omap (λ key, entries p !! k_txid key) (descending p).

(** The state of [select_transactions_for_block]. *)
Record Selection := mkSelection {
  selected_txs : list Transaction;
  total_fees : N;
  current_bytes : N;
  included_txids : gset Hash
}.

Definition select_step (p : Mempool) (max : N) (sel : Selection) (key : PriorityKey) : Selection :=
  match entries p !! k_txid key with
  | None => sel
  | Some entry =>
      let ready := match child_to_parents p !! k_txid key with
                   | Some parents => bool_decide (parents ⊆ included_txids sel)
                   | None => true
                   end in
      if negb ready then sel
      else if saturating_add (current_bytes sel) (e_size_bytes entry) <=? max
      then mkSelection (selected_txs sel ++ [e_transaction entry])
             (saturating_add (total_fees sel) (e_fee entry))
             (saturating_add (current_bytes sel) (e_size_bytes entry))
             ({[k_txid key]} ∪ included_txids sel)
      else sel
  end.

Definition select_transactions_for_block (p : Mempool) (max : N) : list Transaction * N :=
  let sel := foldl (select_step p max) (mkSelection [] 0 0 ∅) (descending p) in
  (selected_txs sel, total_fees sel).

(** ** Removal *)

(** The walk over [parent_to_children]; [queue] has its back first. *)
Fixpoint collect_loop (fuel : nat) (p2c : gmap Hash (gset Hash)) (queue to_remove : list Hash) :
    outcome MempoolError (list Hash) :=
  match queue with
  | [] => Ok to_remove
  | current_id :: queue =>
      match fuel with
      | O => Diverge
      | S fuel =>
          if bool_decide (current_id ∈ to_remove) then collect_loop fuel p2c queue to_remove
          else
            let children := default ∅ (p2c !! current_id) in
            collect_loop fuel p2c (reverse (elements children) ++ queue) (to_remove ++ [current_id])
      end
  end.

(** Every iteration takes one identifier, and each is pushed at most once per
    parent it has. *)
Definition collect_fuel (p2c : gmap Hash (gset Hash)) : nat :=
  S (map_fold (λ _ children n, size children + n) 0 p2c)%nat.

(** The entry with its index key, bytes and spent outpoints. *)
Definition remove_entry (id : Hash) (p : Mempool) : Mempool :=
  match entries p !! id with
  | None => p
  | Some entry =>
      mkMempool (delete id (entries p)) (priority_index p ∖ {[priority_key entry]})
        (foldl (λ spent input, delete (previous_output input) spent) (spent_outpoints p)
           (inputs (e_transaction entry)))
        (parent_to_children p) (child_to_parents p)
        (saturating_sub (total_bytes p) (e_size_bytes entry))
        (max_count p) (max_bytes p) (min_fee_rate p)
  end.

(** [id] as a child of its parents. *)
Definition remove_child_links (id : Hash) (p : Mempool) : Mempool :=
  match child_to_parents p !! id with
  | None => p
  | Some parents =>
      mkMempool (entries p) (priority_index p) (spent_outpoints p)
        (foldl (λ p2c parent_id,
           match p2c !! parent_id with
           | Some children => <[parent_id := children ∖ {[id]}]> p2c
           | None => p2c
           end) (parent_to_children p) (elements parents))
        (delete id (child_to_parents p))
        (total_bytes p) (max_count p) (max_bytes p) (min_fee_rate p)
  end.

Definition remove_parent_links (id : Hash) (p : Mempool) : Mempool :=
  mkMempool (entries p) (priority_index p) (spent_outpoints p)
    (delete id (parent_to_children p)) (child_to_parents p)
    (total_bytes p) (max_count p) (max_bytes p) (min_fee_rate p).

Definition remove_one (p : Mempool) (id : Hash) : Mempool :=
  remove_parent_links id (remove_child_links id (remove_entry id p)).

Definition remove_transaction_and_descendants (txid : Hash) : poolM (list Hash) :=
  let! p := sget in
  let! to_remove :=
    slift (collect_loop (collect_fuel (parent_to_children p)) (parent_to_children p) [txid] []) in
  let! _ := smodify (λ p, foldl remove_one p to_remove) in
  sret to_remove.

(** ** Admission *)

Definition over_capacity (p : Mempool) (size_bytes : N) : bool :=
  (max_count p <=? pool_len p) || (max_bytes p <? saturating_add (total_bytes p) size_bytes).

(** Evicts lowest-priority entries for one of the given fee rate and size; the
    result is the last entry evicted. *)
Fixpoint evict_loop (fuel : nat) (fee_rate size_bytes : N) (evicted : option Hash) : poolM (option Hash) :=
  let! p := sget in
  if over_capacity p size_bytes then
    match fuel with
    | O => slift Diverge
    | S fuel =>
        match ascending (priority_index p) with
        | [] => sret evicted
        | lowest_key :: _ =>
            if k_fee_rate lowest_key <? fee_rate then
              let! _ := remove_transaction_and_descendants (k_txid lowest_key) in
              evict_loop fuel fee_rate size_bytes (Some (k_txid lowest_key))
            else slift (Err (MempoolFull fee_rate (k_fee_rate lowest_key)))
        end
    end
  else sret evicted.

Definition make_room (fee_rate size_bytes : N) : poolM (option Hash) :=
  let! p := sget in
  evict_loop (S (size (priority_index p))) fee_rate size_bytes None.

(** Records an entry in the maps and the index, and as child of its parents. *)
Definition add_entry (entry : MempoolEntry) (parents : gset Hash) (p : Mempool) : Mempool :=
  let id := e_txid entry in
  mkMempool (<[id := entry]> (entries p)) ({[priority_key entry]} ∪ priority_index p)
    (foldl (λ spent input, <[previous_output input := id]> spent) (spent_outpoints p)
       (inputs (e_transaction entry)))
    (foldl (λ p2c parent_id, <[parent_id := {[id]} ∪ default ∅ (p2c !! parent_id)]> p2c)
       (parent_to_children p) (elements parents))
    (if bool_decide (parents = ∅) then child_to_parents p
     else <[id := parents]> (child_to_parents p))
    (saturating_add (total_bytes p) (e_size_bytes entry))
    (max_count p) (max_bytes p) (min_fee_rate p).

(** [Mempool::insert]. *)
Definition pool_insert (entry : MempoolEntry) : poolM (option Hash) :=
  let! p := sget in
  if e_fee_rate entry <? min_fee_rate p
  then slift (Err (FeeTooLow (e_fee_rate entry) (min_fee_rate p)))
  else
    let! evicted_txid := make_room (e_fee_rate entry) (e_size_bytes entry) in
    let! _ := smodify (add_entry entry ∅) in
    sret evicted_txid.

(** The check against pending spends. *)
Fixpoint check_conflicts (spent : gmap OutPoint Hash) (ins : list TxIn) : outcome MempoolError unit :=
  match ins with
  | [] => Ok tt
  | input :: ins =>
      match spent !! previous_output input with
      | Some conflicting_tx => Err (ConflictDoubleSpend (previous_output input) conflicting_tx)
      | None => check_conflicts spent ins
      end
  end.

(** The outputs the inputs spend, confirmed or pending, and the pending
    transactions they come from. *)
Fixpoint resolve_inputs (canonical_utxos : UtxoSet) (pool : gmap Hash MempoolEntry) (ins : list TxIn) :
    outcome MempoolError (list UtxoEntry * gset Hash) :=
  match ins with
  | [] => Ok ([], ∅)
  | input :: ins =>
      let o := previous_output input in
      let? (entry, parents) :=
        match canonical_utxos !! o with
        | Some canonical_entry => Ok (canonical_entry, ∅)
        | None =>
            match pool !! op_txid o with
            | None => Err (MissingInputUtxo o)
            | Some parent_entry =>
                match outputs (e_transaction parent_entry) !! N.to_nat (op_index o) with
                | None => Err (MissingInputUtxo o)
                | Some parent_out => Ok (UtxoEntry_new parent_out 0 false, {[op_txid o]})
                end
            end
        end in
      let? (utxo_entries, rest) := resolve_inputs canonical_utxos pool ins in
      Ok (entry :: utxo_entries, parents ∪ rest)
  end.

(** The walk up [child_to_parents] that counts ancestors. *)
Fixpoint ancestor_loop (fuel : nat) (c2p : gmap Hash (gset Hash)) (pending : list Hash)
    (visited : gset Hash) (ancestor_count : N) : outcome MempoolError N :=
  match pending with
  | [] => Ok ancestor_count
  | parent :: pending =>
      match fuel with
      | O => Diverge
      | S fuel =>
          let '(pending, visited, ancestor_count) :=
            foldl (λ '(pending, visited, count) grandparent,
                     if bool_decide (grandparent ∈ visited) then (pending, visited, count)
                     else (grandparent :: pending, {[grandparent]} ∪ visited, saturating_add count 1))
              (pending, visited, ancestor_count) (elements (default ∅ (c2p !! parent))) in
          ancestor_loop fuel c2p pending visited ancestor_count
      end
  end.

(** All identifiers a walk can reach. *)
Definition all_parents (c2p : gmap Hash (gset Hash)) : gset Hash :=
  map_fold (λ _ parents acc, parents ∪ acc) ∅ c2p.
Definition ancestor_fuel (c2p : gmap Hash (gset Hash)) (parents : gset Hash) : nat :=
  S (size (parents ∪ all_parents c2p)).

Definition count_ancestors (p : Mempool) (parents : gset Hash) : outcome MempoolError N :=
  ancestor_loop (ancestor_fuel (child_to_parents p) parents) (child_to_parents p) (elements parents)
    parents (N.of_nat (size parents)).

Definition too_many_children (p : Mempool) (parents : gset Hash) : bool :=
  existsb (λ parent, MAX_DESCENDANTS <=?
             from_option (λ children, N.of_nat (size children)) 0 (parent_to_children p !! parent))
    (elements parents).

Section admission.
Context {B3 : Blake3}.

(** [MempoolEntry::new]. *)
Definition MempoolEntry_new {E} (transaction : Transaction) (fee added_time : N) :
    outcome E MempoolEntry :=
  let? id := txid transaction in
  let size_bytes := N.max (match to_canonical_bytes transaction with
                           | Ok b => N.of_nat (length b) | _ => 1 end) 1 in
  Ok (mkMempoolEntry transaction id fee (saturating_mul fee 1000 / size_bytes) size_bytes added_time).

(** Stages 1 to 7: what is computed before the pool changes. *)
Definition evaluate {AV : AuthorizationVerifier} (tx : Transaction) (canonical_utxos : UtxoSet)
    (current_timestamp : N) (p : Mempool) : outcome MempoolError (MempoolEntry * gset Hash) :=
  let? _ := map_err StructuralError (validate_stateless tx) in
  if is_coinbase tx then Err CoinbaseNotAllowed
  else
    let? id := txid tx in
    if pool_contains p id then Err (DuplicateTx id)
    else
      let? _ := check_conflicts (spent_outpoints p) (inputs tx) in
      let? (utxo_entries, parents) := resolve_inputs canonical_utxos (entries p) (inputs tx) in
      let? ancestor_count := count_ancestors p parents in
      if MAX_ANCESTORS <? ancestor_count then Err (MempoolFull 0 MAX_ANCESTORS)
      else if too_many_children p parents then Err (MempoolFull 0 MAX_DESCENDANTS)
      else
        let? _ := map_err AuthorizationFailed (verify_transaction_authorization tx utxo_entries) in
        let? total_in :=
          ofold (λ total entry, ok_or (checked_add total (value (output entry))) MempoolArithmeticOverflow)
            utxo_entries 0 in
        let? total_out := map_err StructuralError (total_output_quanta tx) in
        if total_in <? total_out then Err (MempoolValueDeficit total_in total_out)
        else
          let? fee := ok_or (checked_sub total_in total_out) MempoolArithmeticOverflow in
          let? entry := MempoolEntry_new tx fee current_timestamp in
          if e_fee_rate entry <? min_fee_rate p
          then Err (FeeTooLow (e_fee_rate entry) (min_fee_rate p))
          else Ok (entry, parents).

Definition admit_transaction {AV : AuthorizationVerifier} (tx : Transaction) (canonical_utxos : UtxoSet)
    (current_timestamp : N) : poolM Hash :=
  let! p := sget in
  let! (entry, parents) := slift (evaluate tx canonical_utxos current_timestamp p) in
  let! _ := make_room (e_fee_rate entry) (e_size_bytes entry) in
  let! _ := smodify (add_entry entry parents) in
  sret (e_txid entry).

(** ** Chain events *)

(** Step 1 of [on_block_connected]. *)
Fixpoint remove_confirmed (txs : list Transaction) : poolM unit :=
  match txs with
  | [] => sret tt
  | tx :: txs =>
      let! id := slift (txid tx) in
      let! _ := smodify (λ p, remove_child_links id (remove_entry id p)) in
      remove_confirmed txs
  end.

(** An input that neither the chain nor a pending parent provides. *)
Definition broken_input (p : Mempool) (utxos : UtxoSet) (input : TxIn) : bool :=
  let o := previous_output input in
  let exists_in_canonical := utxo_contains utxos o in
  let exists_in_mempool_parent :=
    from_option (λ e, op_index o <? N.of_nat (length (outputs (e_transaction e)))) false
      (entries p !! op_txid o) in
  negb exists_in_canonical && negb exists_in_mempool_parent.

Definition invalid_txs (p : Mempool) (utxos : UtxoSet) : list Hash :=
  (filter (λ e, existsb (broken_input p utxos) (inputs (e_transaction e.2)) = true)
     (map_to_list (entries p))).*1.

Fixpoint remove_all (ids : list Hash) : poolM unit :=
  match ids with
  | [] => sret tt
  | id :: ids =>
      let! _ := remove_transaction_and_descendants id in
      remove_all ids
  end.

Definition on_block_connected (b : Block) (updated_canonical_utxos : UtxoSet) : poolM unit :=
  let! _ := remove_confirmed (drop 1 (transactions b)) in
  let! p := sget in
  remove_all (invalid_txs p updated_canonical_utxos).

(** [on_reorg]: the transactions not admitted again, with the reason. *)
Fixpoint on_reorg {AV : AuthorizationVerifier} (disconnected_txs : list Transaction)
    (canonical_utxos : UtxoSet) (current_timestamp : N) : poolM (list (Hash * MempoolError)) :=
  match disconnected_txs with
  | [] => sret []
  | tx :: txs =>
      if is_coinbase tx then on_reorg txs canonical_utxos current_timestamp
      else
        let! id := slift (txid tx) in
        λ p, match admit_transaction tx canonical_utxos current_timestamp p with
             | (p, Ok _) => on_reorg txs canonical_utxos current_timestamp p
             | (p, Err error) =>
                 (let! rejected := on_reorg txs canonical_utxos current_timestamp in
                  sret ((id, error) :: rejected)) p
             | (p, Panic) => (p, Panic)
             | (p, Diverge) => (p, Diverge)
             end
  end.
End admission.
