(* ===== verification/MempoolInv.v ===== *)
(** * The mempool: invariants

    The order of the priority index, termination and results of the walks over
    the dependency maps, and the consistency of the indices of [Mempool.v]
    through every removal and insertion. *)

From S2P Require Import Prelude Bytes Primitives Types Codec Transaction Utxo Authorization Mempool.
Local Open Scope N_scope.
Local Open Scope scy_scope.

(** ** The order of keys *)

Definition hash_val (h : Hash) : N := be_val (hash_bytes h).

Lemma hash_cmp_val a b : hash_cmp a b = (hash_val a ?= hash_val b).
Proof. apply bytes_cmp_be_val. by rewrite !hash_length. Qed.

Lemma hash_val_inj a b : hash_val a = hash_val b → a = b.
Proof. intros E. apply hash_eq, be_val_inj; [by rewrite !hash_length|done]. Qed.

(** Fee rate, then earlier arrival, then identifier. *)
Lemma key_le_spec a b :
  key_le a b ↔
  k_fee_rate a < k_fee_rate b ∨
  (k_fee_rate a = k_fee_rate b ∧
   (k_added_time b < k_added_time a ∨
    (k_added_time b = k_added_time a ∧ hash_val (k_txid a) ≤ hash_val (k_txid b)))).
Proof.
  unfold key_le, key_cmp. rewrite hash_cmp_val.
  destruct (N.compare_spec (k_fee_rate a) (k_fee_rate b)); [|split; [by left|done]|split; [done|lia]].
  destruct (N.compare_spec (k_added_time b) (k_added_time a)); [|split; [intros; lia|done]|split; [done|lia]].
  rewrite N.compare_le_iff. lia.
Qed.

#[export] Instance key_le_total : Total key_le.
Proof. intros a b. rewrite !key_le_spec. lia. Qed.
#[export] Instance key_le_trans : Transitive key_le.
Proof. intros a b c. rewrite !key_le_spec. lia. Qed.
#[export] Instance key_le_antisymm : AntiSymm eq key_le.
Proof.
  intros [f1 t1 h1] [f2 t2 h2]. rewrite !key_le_spec. cbn [k_fee_rate k_added_time k_txid]. intros H1 H2.
  assert (hash_val h1 = hash_val h2) as ->%hash_val_inj by lia. f_equal; lia.
Qed.

Lemma elem_of_ascending k s : k ∈ ascending s ↔ k ∈ s.
Proof. unfold ascending. rewrite merge_sort_Permutation. apply elem_of_elements. Qed.

Lemma ascending_sorted s : StronglySorted key_le (ascending s).
Proof. apply StronglySorted_merge_sort; apply _. Qed.

Lemma ascending_NoDup s : NoDup (ascending s).
Proof. unfold ascending. rewrite merge_sort_Permutation. apply NoDup_elements. Qed.

Lemma ascending_nil s : ascending s = [] → s = ∅.
Proof.
  intros E. apply elem_of_equiv_empty_L. intros k Hk%elem_of_ascending. rewrite E in Hk.
  by apply not_elem_of_nil in Hk.
Qed.

(** ** Descendants *)

Section walks.
Context (p2c : gmap Hash (gset Hash)).

Definition children_of (x : Hash) : gset Hash := default ∅ (p2c !! x).
Definition child (x y : Hash) : Prop := y ∈ children_of x.

Definition weight (q : gmap Hash (gset Hash)) : nat := map_fold (λ _ children n, size children + n)%nat 0%nat q.

Lemma weight_delete q x cs : q !! x = Some cs → weight q = (size cs + weight (delete x q))%nat.
Proof.
  intros Hx. unfold weight. apply (map_fold_delete_L (λ _ children n, (size children + n)%nat)).
  - intros; lia.
  - done.
Qed.

(** The walk ends within its fuel, with every queued identifier and its
    descendants, and nothing else. [q] is the map without what is done. *)
Lemma collect_loop_spec q fuel queue done_ids :
  (length queue + weight q ≤ fuel)%nat →
  (∀ x, x ∉ done_ids → q !! x = p2c !! x) → NoDup done_ids →
  (∀ x y, x ∈ done_ids → child x y → y ∈ done_ids ∨ y ∈ queue) →
  ∃ l, collect_loop fuel p2c queue done_ids = Ok l ∧ NoDup l ∧
    (∀ x, x ∈ done_ids ∨ x ∈ queue → x ∈ l) ∧
    (∀ x y, x ∈ l → child x y → y ∈ l) ∧
    (∀ y, y ∈ l → y ∈ done_ids ∨ ∃ x, x ∈ queue ∧ rtc child x y).
Proof.
  revert q queue done_ids. induction fuel as [|fuel IH]; intros q [|x queue] ids HF Hq Hnd Hcl;
    cbn [length] in HF; try lia; cbn [collect_loop].
  1-2: exists ids; split; [done|]; split; [done|]; split; [by intros ? [?|?%not_elem_of_nil]|];
       split; [intros x y Hx Hxy; by destruct (Hcl x y Hx Hxy) as [?|?%not_elem_of_nil]|by left].
  case_bool_decide as Hx.
  - destruct (IH q queue ids) as (l & E & HN & HI & HC & HR); [lia|done|done|set_solver|].
    exists l. split; [done|]. split; [done|]. split; [set_solver|]. split; [done|].
    intros y [?|(z & ? & ?)]%HR; [by left|]. right. exists z. set_solver.
  - destruct (IH (delete x q) (reverse (elements (default ∅ (p2c !! x))) ++ queue) (ids ++ [x]))
      as (l & E & HN & HI & HC & HR).
    + rewrite length_app, length_reverse.
      destruct (p2c !! x) as [cs|] eqn:E; cbn [default from_option id].
      * assert (Hqx : q !! x = Some cs) by (by rewrite Hq).
        rewrite (weight_delete q x cs Hqx) in HF. change (size cs) with (length (elements cs)) in HF. lia.
      * rewrite delete_id by (by rewrite Hq). rewrite elements_empty. simpl. lia.
    + intros y Hy. rewrite lookup_delete_ne by set_solver. apply Hq. set_solver.
    + apply NoDup_app. split; [done|]. split; [set_solver|apply NoDup_singleton].
    + intros y z Hy Hyz. apply elem_of_app in Hy as [Hy|Hy].
      * destruct (Hcl y z Hy Hyz); set_solver.
      * apply list_elem_of_singleton in Hy as ->. right. apply elem_of_app. left.
        apply elem_of_reverse, elem_of_elements. exact Hyz.
    + exists l. split; [done|]. split; [done|]. split; [set_solver|]. split; [done|].
      intros y [Hy|(z & Hz & Hr)]%HR.
      * apply elem_of_app in Hy as [?|Hy]; [by left|]. apply list_elem_of_singleton in Hy as ->.
        right. exists x. split; [set_solver|done].
      * right. apply elem_of_app in Hz as [Hz|Hz]; [|exists z; set_solver].
        exists x. split; [set_solver|]. apply elem_of_reverse, elem_of_elements in Hz.
        eapply rtc_l; [exact Hz|done].
Qed.

(** What removing a transaction and its descendants removes. *)
Definition removal_list (x : Hash) (l : list Hash) : Prop :=
  NoDup l ∧ ∀ y, y ∈ l ↔ rtc child x y.

Lemma collect_ok x :
  ∃ l, collect_loop (collect_fuel p2c) p2c [x] [] = Ok l ∧ removal_list x l.
Proof.
  destruct (collect_loop_spec p2c (collect_fuel p2c) [x] []) as (l & E & HN & HI & HC & HR).
  - unfold collect_fuel. fold (weight p2c). simpl. lia.
  - done.
  - constructor.
  - by intros ? ? ?%not_elem_of_nil.
  - exists l. split; [done|]. split; [done|]. intros y. split.
    + intros [?%not_elem_of_nil|(z & ->%list_elem_of_singleton & ?)]%HR; done.
    + intros Hr. assert (Hx : x ∈ l) by set_solver. clear -Hr Hx HC.
      induction Hr as [|x y z Hxy Hr IH]; [done|]. apply IH. by eapply HC.
Qed.

Lemma removal_closed x l y z : removal_list x l → y ∈ l → child y z → z ∈ l.
Proof. intros [_ H] Hy Hyz. apply H. apply H in Hy. by eapply rtc_r. Qed.
End walks.

(** ** Consistent indices *)

(** Bytes of all entries. *)
Definition pool_bytes (es : gmap Hash MempoolEntry) : N := map_fold (λ _ e n, e_size_bytes e + n) 0 es.

Definition spends (e : MempoolEntry) (o : OutPoint) : Prop :=
  o ∈ previous_output <$> inputs (e_transaction e).

Section indexed.
Context {B3 : Blake3}.

(** The entries are filed under their identifiers as [MempoolEntry::new] made
    them, the index holds exactly their keys, the spend map exactly their
    inputs (so no two share one), and the byte count is their total. *)
Record indexed (p : Mempool) : Prop := {
  ix_entry id e : entries p !! id = Some e →
    e_txid e = id ∧ MempoolEntry_new (E := MempoolError) (e_transaction e) (e_fee e) (e_added_time e) = Ok e ∧
    stateless_valid (e_transaction e);
  ix_index k : k ∈ priority_index p ↔ ∃ id e, entries p !! id = Some e ∧ k = priority_key e;
  ix_spent o id : spent_outpoints p !! o = Some id ↔ ∃ e, entries p !! id = Some e ∧ spends e o;
  ix_bytes : total_bytes p = pool_bytes (entries p)
}.

Lemma pool_bytes_insert es id e :
  es !! id = None → pool_bytes (<[id := e]> es) = e_size_bytes e + pool_bytes es.
Proof. intros. apply (map_fold_insert_L (λ _ e n, e_size_bytes e + n)); [intros; lia|done]. Qed.

Lemma pool_bytes_delete es id e :
  es !! id = Some e → pool_bytes es = e_size_bytes e + pool_bytes (delete id es).
Proof. intros. apply (map_fold_delete_L (λ _ e n, e_size_bytes e + n)); [intros; lia|done]. Qed.

Lemma foldl_delete_lookup (ins : list TxIn) (m : gmap OutPoint Hash) o :
  foldl (λ spent input, delete (previous_output input) spent) m ins !! o =
  if bool_decide (o ∈ previous_output <$> ins) then None else m !! o.
Proof.
  revert m. induction ins as [|i ins IH]; intros m; cbn [foldl fmap list_fmap].
  - by rewrite bool_decide_eq_false_2 by apply not_elem_of_nil.
  - rewrite IH. case_bool_decide as H1; case_bool_decide as H2; rewrite elem_of_cons in H2.
    + done.
    + destruct H2. by right.
    + destruct H2 as [->|?]; [by rewrite lookup_delete_eq|done].
    + rewrite lookup_delete_ne; [done|]. intros E. apply H2. by left.
Qed.

Lemma foldl_insert_lookup (ins : list TxIn) (m : gmap OutPoint Hash) id o :
  foldl (λ spent input, <[previous_output input := id]> spent) m ins !! o =
  if bool_decide (o ∈ previous_output <$> ins) then Some id else m !! o.
Proof.
  revert m. induction ins as [|i ins IH]; intros m; cbn [foldl fmap list_fmap].
  - by rewrite bool_decide_eq_false_2 by apply not_elem_of_nil.
  - rewrite IH. case_bool_decide as H1; case_bool_decide as H2; rewrite elem_of_cons in H2.
    + done.
    + destruct H2. by right.
    + destruct H2 as [->|?]; [by rewrite lookup_insert_eq|done].
    + rewrite lookup_insert_ne; [done|]. intros E. apply H2. by left.
Qed.

Lemma priority_key_inj p id id' e e' :
  indexed p → entries p !! id = Some e → entries p !! id' = Some e' →
  priority_key e = priority_key e' → id = id'.
Proof.
  intros HI He He' E. destruct (ix_entry _ HI _ _ He) as [<- _], (ix_entry _ HI _ _ He') as [<- _].
  by injection E.
Qed.

(** No outpoint is spent by two pending transactions. *)
Lemma spends_unique p id id' e e' o :
  indexed p → entries p !! id = Some e → entries p !! id' = Some e' → spends e o → spends e' o → id = id'.
Proof.
  intros HI He He' Ho Ho'.
  assert (H1 : spent_outpoints p !! o = Some id) by (apply (ix_spent _ HI); by exists e).
  assert (H2 : spent_outpoints p !! o = Some id') by (apply (ix_spent _ HI); by exists e').
  congruence.
Qed.

Lemma remove_entry_entries id p : entries (remove_entry id p) = delete id (entries p).
Proof.
  unfold remove_entry. destruct (entries p !! id) eqn:E; [done|]. by rewrite delete_id.
Qed.

Lemma remove_entry_indexed id p : indexed p → indexed (remove_entry id p).
Proof.
  intros HI. unfold remove_entry. destruct (entries p !! id) as [e|] eqn:E; [|done]. split; cbn.
  - intros id' e' [_ He']%lookup_delete_Some. by apply (ix_entry _ HI).
  - intros k. rewrite elem_of_difference, elem_of_singleton, (ix_index _ HI). split.
    + intros [(id' & e' & He' & ->) Hne]. exists id', e'. split; [|done].
      apply lookup_delete_Some. split; [|done]. intros ->. rewrite E in He'. by injection He' as ->.
    + intros (id' & e' & [Hne He']%lookup_delete_Some & ->). split; [by exists id', e'|].
      intros Hk. apply Hne. by eapply priority_key_inj.
  - intros o id'. rewrite foldl_delete_lookup. case_bool_decide as Ho; fold (spends e o) in Ho.
    + split; [done|]. intros (e' & [Hne He']%lookup_delete_Some & Ho'). destruct Hne.
      by eapply spends_unique.
    + rewrite (ix_spent _ HI). split; intros (e' & He' & Ho').
      * exists e'. split; [|done]. apply lookup_delete_Some. split; [|done]. intros ->. congruence.
      * apply lookup_delete_Some in He' as [_ He']. by exists e'.
  - rewrite (ix_bytes _ HI), (pool_bytes_delete _ _ _ E). unfold saturating_sub. lia.
Qed.

(** The entry fields of two pools agree. *)
Definition same_entries (p q : Mempool) : Prop :=
  entries p = entries q ∧ priority_index p = priority_index q ∧
  spent_outpoints p = spent_outpoints q ∧ total_bytes p = total_bytes q.

Lemma indexed_same p q : same_entries p q → indexed p → indexed q.
Proof.
  intros (E1 & E2 & E3 & E4) HI.
  split; rewrite <- ?E1, <- ?E2, <- ?E3, <- ?E4; apply HI.
Qed.

Lemma remove_child_links_same id p : same_entries p (remove_child_links id p).
Proof. unfold remove_child_links. by destruct (child_to_parents p !! id). Qed.

Lemma remove_one_indexed id p : indexed p → indexed (remove_one p id).
Proof.
  intros HI. apply (indexed_same (remove_child_links id (remove_entry id p))); [done|].
  apply (indexed_same (remove_entry id p)); [apply remove_child_links_same|by apply remove_entry_indexed].
Qed.

Lemma add_entry_indexed e parents p :
  indexed p → entries p !! e_txid e = None →
  MempoolEntry_new (E := MempoolError) (e_transaction e) (e_fee e) (e_added_time e) = Ok e →
  stateless_valid (e_transaction e) →
  (∀ o, spends e o → spent_outpoints p !! o = None) →
  total_bytes p + e_size_bytes e ≤ U64_MAX →
  indexed (add_entry e parents p).
Proof.
  intros HI Hid He Hv Hs Hb. split; cbn.
  - intros id' e' H. apply lookup_insert_Some in H as [[<- <-]|[_ H]]; [done|by apply (ix_entry _ HI)].
  - intros k. rewrite elem_of_union, elem_of_singleton, (ix_index _ HI). split.
    + intros [->|(id' & e' & He' & ->)]; [exists (e_txid e), e; split; [apply lookup_insert_eq|done]|].
      exists id', e'. split; [|done]. rewrite lookup_insert_ne; [done|congruence].
    + intros (id' & e' & [[<- <-]|[_ He']]%lookup_insert_Some & ->); [by left|right; by exists id', e'].
  - intros o id'. rewrite foldl_insert_lookup. case_bool_decide as Ho; fold (spends e o) in Ho.
    + split.
      * intros [= <-]. exists e. split; [apply lookup_insert_eq|done].
      * intros (e' & [[<- _]|[Hne He']]%lookup_insert_Some & Ho'); [done|].
        assert (Hc : spent_outpoints p !! o = Some id') by (apply (ix_spent _ HI); by exists e').
        by rewrite (Hs o Ho) in Hc.
    + rewrite (ix_spent _ HI). split; intros (e' & He' & Ho').
      * exists e'. split; [|done]. rewrite lookup_insert_ne; [done|congruence].
      * apply lookup_insert_Some in He' as [[_ <-]|[_ He']]; [done|by exists e'].
  - rewrite pool_bytes_insert by done. unfold saturating_add. rewrite <- (ix_bytes _ HI). lia.
Qed.
End indexed.

(** ** Consistent links *)

Notation is_child p := (child (parent_to_children p)).
Definition is_parent (p : Mempool) (ch par : Hash) : Prop := par ∈ default ∅ (child_to_parents p !! ch).

(** Only entries have recorded parents, and the two maps are converses. *)
Record linked (p : Mempool) : Prop := {
  ln_entry ch : is_Some (child_to_parents p !! ch) → is_Some (entries p !! ch);
  ln_dual par ch : is_child p par ch ↔ is_parent p ch par
}.

(** Half of it, which holds between the steps of a removal. *)
Definition forward_linked (p : Mempool) : Prop := ∀ par ch, is_child p par ch → is_parent p ch par.

Lemma foldl_drop_child (id : Hash) (l : list Hash) (m : gmap Hash (gset Hash)) (x y : Hash) :
  y ∈ default ∅ (foldl (λ p2c parent_id,
           match p2c !! parent_id with
           | Some children => <[parent_id := children ∖ {[id]}]> p2c
           | None => p2c
           end) m l !! x) ↔
  y ∈ default ∅ (m !! x) ∧ ¬ (y = id ∧ x ∈ l).
Proof.
  revert m. induction l as [|z l IH]; intros m; cbn [foldl]; [set_solver|].
  rewrite IH, elem_of_cons. destruct (m !! z) as [cs|] eqn:E; [|].
  - destruct (decide (x = z)) as [->|Hne].
    + rewrite lookup_insert_eq, E. cbn. set_solver.
    + rewrite lookup_insert_ne by done. naive_solver.
  - destruct (decide (x = z)) as [->|Hne]; [rewrite E; cbn; set_solver|naive_solver].
Qed.

Lemma remove_child_links_child id p par ch :
  is_child (remove_child_links id p) par ch ↔ is_child p par ch ∧ ¬ (ch = id ∧ is_parent p id par).
Proof.
  unfold remove_child_links, is_parent. destruct (child_to_parents p !! id) as [ps|] eqn:E; cbn [default from_option Datatypes.id].
  - unfold child, children_of. cbn [parent_to_children]. rewrite foldl_drop_child, elem_of_elements. done.
  - set_solver.
Qed.

Lemma remove_child_links_c2p id p :
  child_to_parents (remove_child_links id p) = delete id (child_to_parents p).
Proof.
  unfold remove_child_links. destruct (child_to_parents p !! id) eqn:E; [done|]. by rewrite delete_id.
Qed.

Lemma remove_child_links_entries id p : entries (remove_child_links id p) = entries p.
Proof. unfold remove_child_links. by destruct (child_to_parents p !! id). Qed.

Lemma remove_entry_links id p :
  parent_to_children (remove_entry id p) = parent_to_children p ∧
  child_to_parents (remove_entry id p) = child_to_parents p.
Proof. unfold remove_entry. by destruct (entries p !! id). Qed.

Lemma is_parent_delete (p q : Mempool) id ch par :
  child_to_parents q = delete id (child_to_parents p) →
  is_parent q ch par ↔ is_parent p ch par ∧ ch ≠ id.
Proof.
  intros E. unfold is_parent. rewrite E. destruct (decide (ch = id)) as [->|].
  - rewrite lookup_delete_eq. set_solver.
  - rewrite lookup_delete_ne by done. naive_solver.
Qed.

(** The links after an entry is taken out as a child. *)
Definition unlink_child (id : Hash) (p : Mempool) : Mempool := remove_child_links id (remove_entry id p).

Lemma unlink_child_spec id p :
  forward_linked p →
  entries (unlink_child id p) = delete id (entries p) ∧
  child_to_parents (unlink_child id p) = delete id (child_to_parents p) ∧
  ∀ par ch, is_child (unlink_child id p) par ch ↔ is_child p par ch ∧ ch ≠ id.
Proof.
  intros HF. unfold unlink_child. destruct (remove_entry_links id p) as [E1 E2].
  split; [by rewrite remove_child_links_entries, remove_entry_entries|].
  split; [by rewrite remove_child_links_c2p, E2|]. intros par ch.
  rewrite remove_child_links_child. unfold is_parent. rewrite E1, E2. split.
  - intros [H HN]. split; [done|]. intros ->. apply HN. split; [done|]. by apply HF.
  - intros [H HN]. split; [done|]. by intros [-> _].
Qed.

Lemma remove_one_spec id p :
  forward_linked p →
  entries (remove_one p id) = delete id (entries p) ∧
  child_to_parents (remove_one p id) = delete id (child_to_parents p) ∧
  ∀ par ch, is_child (remove_one p id) par ch ↔ is_child p par ch ∧ ch ≠ id ∧ par ≠ id.
Proof.
  intros HF. destruct (unlink_child_spec id p HF) as (E1 & E2 & E3). split; [done|]. split; [done|].
  intros par ch. change (remove_one p id) with (remove_parent_links id (unlink_child id p)).
  destruct (decide (par = id)) as [->|Hne].
  - unfold child, children_of, remove_parent_links. cbn [parent_to_children].
    rewrite lookup_delete_eq. set_solver.
  - etrans; [|etrans; [apply (E3 par ch)|naive_solver]].
    unfold child, children_of, remove_parent_links. cbn [parent_to_children].
    by rewrite lookup_delete_ne.
Qed.

Lemma remove_one_forward id p : forward_linked p → forward_linked (remove_one p id).
Proof.
  intros HF par ch. destruct (remove_one_spec id p HF) as (_ & E2 & E3).
  rewrite E3, (is_parent_delete p _ id) by done. naive_solver.
Qed.

Definition same_config (p q : Mempool) : Prop :=
  max_count p = max_count q ∧ max_bytes p = max_bytes q ∧ min_fee_rate p = min_fee_rate q.

Lemma remove_one_config id p : same_config p (remove_one p id).
Proof.
  unfold remove_one, remove_child_links, remove_entry, same_config.
  destruct (entries p !! id), (child_to_parents p !! id); cbn; repeat case_match; done.
Qed.

Lemma foldl_remove_config l p : same_config p (foldl remove_one p l).
Proof.
  revert p. induction l as [|id l IH]; intros p; [done|]. cbn [foldl].
  destruct (remove_one_config id p) as (E1 & E2 & E3), (IH (remove_one p id)) as (F1 & F2 & F3).
  split; [|split]; congruence.
Qed.

Section removal.
Context {B3 : Blake3}.

Lemma lookup_remove_cons {A} (m : gmap Hash A) id l x :
  (if bool_decide (x ∈ l) then None else delete id m !! x) =
  (if bool_decide (x ∈ id :: l) then None else m !! x).
Proof.
  case_bool_decide as H1; case_bool_decide as H2; rewrite elem_of_cons in H2.
  - done.
  - destruct H2. by right.
  - destruct H2 as [->|?]; [apply lookup_delete_eq|done].
  - apply lookup_delete_ne. intros ->. apply H2. by left.
Qed.

(** Removing a list of identifiers one by one. *)
Lemma foldl_remove_spec l p :
  indexed p → forward_linked p →
  let q := foldl remove_one p l in
  indexed q ∧
  (∀ x, entries q !! x = if bool_decide (x ∈ l) then None else entries p !! x) ∧
  (∀ x, child_to_parents q !! x = if bool_decide (x ∈ l) then None else child_to_parents p !! x) ∧
  (∀ par ch, is_child q par ch ↔ is_child p par ch ∧ ch ∉ l ∧ par ∉ l).
Proof.
  cbv zeta. revert p. induction l as [|id l IH]; intros p HI HF; cbn [foldl].
  { split; [done|]. split; [done|]. split; [done|]. intros par ch. rewrite !elem_of_nil. naive_solver. }
  destruct (remove_one_spec id p HF) as (E1 & E2 & E3).
  destruct (IH (remove_one p id)) as (HI' & F1 & F2 & F3);
    [by apply remove_one_indexed|by apply remove_one_forward|].
  split; [done|]. split; [|split].
  - intros x. by rewrite F1, E1, lookup_remove_cons.
  - intros x. by rewrite F2, E2, lookup_remove_cons.
  - intros par ch. rewrite F3, E3, !not_elem_of_cons. naive_solver.
Qed.

(** ** Pools *)

Record pool_ok (p : Mempool) : Prop := { ok_indexed : indexed p; ok_linked : linked p }.

Lemma linked_forward p : linked p → forward_linked p.
Proof. intros HL par ch. apply (ln_dual _ HL). Qed.

Lemma unlink_child_ok id p : pool_ok p → pool_ok (unlink_child id p).
Proof.
  intros [HI HL]. destruct (unlink_child_spec id p (linked_forward _ HL)) as (E1 & E2 & E3). split.
  - apply (indexed_same (remove_entry id p)); [apply remove_child_links_same|by apply remove_entry_indexed].
  - split.
    + intros ch. rewrite E1, E2, !lookup_delete_is_Some. intros [? ?]. split; [done|]. by apply (ln_entry _ HL).
    + intros par ch. rewrite E3, (is_parent_delete p _ id), (ln_dual _ HL) by done. done.
Qed.

Lemma remove_all_links p x l :
  pool_ok p → removal_list (parent_to_children p) x l → pool_ok (foldl remove_one p l).
Proof.
  intros [HI HL] HR. destruct (foldl_remove_spec l p HI (linked_forward _ HL)) as (HI' & F1 & F2 & F3).
  split; [done|]. split.
  - intros ch. rewrite F1, F2. case_bool_decide; [by intros []|]. apply (ln_entry _ HL).
  - intros par ch. rewrite F3. unfold is_parent. rewrite F2. case_bool_decide as Hch.
    + split; [by intros (_ & ? & _)|by intros ?%elem_of_empty].
    + rewrite (ln_dual _ HL). split; [by intros [? _]|]. intros H. split; [done|]. split; [done|].
      intros Hpar. apply Hch. eapply removal_closed; [done..|]. by apply (ln_dual _ HL).
Qed.

(** Removing a transaction succeeds on consistent pools, removes exactly it and
    its recorded descendants, and keeps the pool consistent. *)
Lemma remove_descendants_spec p x :
  pool_ok p →
  ∃ l q, remove_transaction_and_descendants x p = (q, Ok l) ∧ pool_ok q ∧ same_config p q ∧
    (∀ y, y ∈ l ↔ rtc (is_child p) x y) ∧
    (∀ y, entries q !! y = if bool_decide (y ∈ l) then None else entries p !! y) ∧
    (∀ y, child_to_parents q !! y = if bool_decide (y ∈ l) then None else child_to_parents p !! y) ∧
    (∀ par ch, is_child q par ch ↔ is_child p par ch ∧ ch ∉ l ∧ par ∉ l).
Proof.
  intros Hok. destruct (collect_ok (parent_to_children p) x) as (l & E & HR).
  exists l, (foldl remove_one p l). unfold remove_transaction_and_descendants.
  rewrite sbind_sget, E, sbind_lift_Ok, sbind_smodify. split; [done|].
  split; [by eapply remove_all_links|]. split; [apply foldl_remove_config|]. split; [apply HR|].
  destruct Hok as [HI HL]. apply (foldl_remove_spec l p HI (linked_forward _ HL)).
Qed.
End removal.

(** ** Insertion *)

Lemma foldl_add_child (id : Hash) (l : list Hash) (m : gmap Hash (gset Hash)) (x y : Hash) :
  y ∈ default ∅ (foldl (λ p2c parent_id, <[parent_id := {[id]} ∪ default ∅ (p2c !! parent_id)]> p2c) m l !! x) ↔
  y ∈ default ∅ (m !! x) ∨ (y = id ∧ x ∈ l).
Proof.
  revert m. induction l as [|z l IH]; intros m; cbn [foldl]; [rewrite elem_of_nil; naive_solver|].
  rewrite IH, elem_of_cons. destruct (decide (x = z)) as [->|Hne].
  - rewrite lookup_insert_eq. cbn. rewrite elem_of_union, elem_of_singleton. naive_solver.
  - rewrite lookup_insert_ne by done. naive_solver.
Qed.

Lemma add_entry_linked e parents p :
  linked p → entries p !! e_txid e = None → linked (add_entry e parents p).
Proof.
  intros HL Hid.
  assert (Hc : child_to_parents p !! e_txid e = None).
  { destruct (child_to_parents p !! e_txid e) eqn:E; [|done].
    destruct (ln_entry _ HL (e_txid e)) as [x Hx]; [by eexists|congruence]. }
  assert (HP : ∀ ch par, is_parent (add_entry e parents p) ch par ↔
    is_parent p ch par ∨ (ch = e_txid e ∧ par ∈ parents)).
  { intros ch par. unfold is_parent, add_entry. cbn [child_to_parents]. case_bool_decide as He.
    - subst parents. rewrite elem_of_empty. naive_solver.
    - destruct (decide (ch = e_txid e)) as [->|Hne].
      + rewrite lookup_insert_eq, Hc. cbn. rewrite elem_of_empty. naive_solver.
      + rewrite lookup_insert_ne by done. naive_solver. }
  split.
  - intros ch. cbn [add_entry child_to_parents entries]. case_bool_decide.
    + intros H'. destruct (decide (ch = e_txid e)) as [->|Hne]; [rewrite lookup_insert_eq; by eexists|].
      rewrite lookup_insert_ne by done. by apply (ln_entry _ HL).
    + destruct (decide (ch = e_txid e)) as [->|Hne]; [rewrite !lookup_insert_eq; by eexists|].
      rewrite !lookup_insert_ne by done. by apply (ln_entry _ HL).
  - intros par ch. rewrite HP, <- (ln_dual _ HL). unfold child, children_of at 1. cbn [add_entry parent_to_children].
    rewrite foldl_add_child, elem_of_elements. done.
Qed.

(** ** Ancestors *)

Section ancestors.
Context (c2p : gmap Hash (gset Hash)).

Definition parents_of (x : Hash) : gset Hash := default ∅ (c2p !! x).
Definition above (x y : Hash) : Prop := y ∈ parents_of x.

Lemma elem_of_all_parents x : x ∈ all_parents c2p ↔ ∃ ch, x ∈ parents_of ch.
Proof.
  unfold parents_of, all_parents. induction c2p as [|ch ps m Hch HF IH] using map_first_key_ind.
  - rewrite map_fold_empty. split; [by intros ?%elem_of_empty|].
    intros [ch H]. by rewrite lookup_empty in H.
  - rewrite map_fold_insert_first_key by done. rewrite elem_of_union, IH. split.
    + intros [Hx|[ch' Hx]]; [exists ch; by rewrite lookup_insert_eq|].
      exists ch'. destruct (decide (ch' = ch)) as [->|]; [by rewrite Hch in Hx|].
      by rewrite lookup_insert_ne.
    + intros [ch' Hx]. destruct (decide (ch' = ch)) as [->|].
      * rewrite lookup_insert_eq in Hx. by left.
      * rewrite lookup_insert_ne in Hx by done. right. by exists ch'.
Qed.

(** The loop over the parents of one identifier. *)
Definition visit : list Hash * gset Hash * N → Hash → list Hash * gset Hash * N :=
  λ '(pending, visited, count) grandparent,
    if bool_decide (grandparent ∈ visited) then (pending, visited, count)
    else (grandparent :: pending, {[grandparent]} ∪ visited, saturating_add count 1).

Lemma visit_all l pending visited count :
  count = N.min (N.of_nat (size visited)) U64_MAX →
  ∃ pending' visited' count', foldl visit (pending, visited, count) l = (pending', visited', count') ∧
    (length pending' + size visited = length pending + size visited')%nat ∧
    count' = N.min (N.of_nat (size visited')) U64_MAX ∧
    (∀ x, x ∈ visited' ↔ x ∈ visited ∨ x ∈ l) ∧
    (∀ x, x ∈ pending' ↔ x ∈ pending ∨ (x ∈ l ∧ x ∉ visited)).
Proof.
  revert pending visited count. induction l as [|y l IH]; intros pending visited count Hc; cbn [foldl].
  { exists pending, visited, count. split; [done|]. split; [lia|]. split; [done|]. split; intros x; rewrite elem_of_nil; naive_solver. }
  unfold visit at 2. case_bool_decide as Hy.
  - destruct (IH pending visited count Hc) as (p' & v' & c' & E & HL & HC & HV & HP).
    exists p', v', c'. split; [done|]. split; [done|]. split; [done|].
    split; intros x; rewrite ?HV, ?HP, elem_of_cons; naive_solver.
  - assert (HS : size ({[y]} ∪ visited) = S (size visited)).
    { rewrite size_union by set_solver. by rewrite size_singleton. }
    destruct (IH (y :: pending) ({[y]} ∪ visited) (saturating_add count 1)) as (p' & v' & c' & E & HL & HC & HV & HP).
    { rewrite HS, Hc. unfold saturating_add. lia. }
    exists p', v', c'. split; [done|]. split; [cbn [length] in HL; lia|]. split; [done|].
    split; intros x; rewrite ?HV, ?HP, ?elem_of_cons, ?not_elem_of_union, ?elem_of_union, ?elem_of_singleton,
      ?not_elem_of_singleton; [naive_solver|].
    destruct (decide (x = y)); naive_solver.
Qed.

Lemma ancestor_loop_spec parents0 fuel pending visited count :
  (length pending + size (parents0 ∪ all_parents c2p) ≤ fuel + size visited)%nat →
  visited ⊆ parents0 ∪ all_parents c2p → parents0 ⊆ visited →
  (∀ x, x ∈ pending → x ∈ visited) →
  (∀ x, x ∈ visited → ∃ r, r ∈ parents0 ∧ rtc above r x) →
  (∀ x y, x ∈ visited → x ∉ pending → above x y → y ∈ visited) →
  count = N.min (N.of_nat (size visited)) U64_MAX →
  ∃ anc : gset Hash, ancestor_loop fuel c2p pending visited count = Ok (N.min (N.of_nat (size anc)) U64_MAX) ∧
    ∀ x, x ∈ anc ↔ ∃ r, r ∈ parents0 ∧ rtc above r x.
Proof.
  revert pending visited count. induction fuel as [|fuel IH]; intros [|x pending] visited count HF HU H0 HP HR HC Hc;
    cbn [ancestor_loop].
  1,3: exists visited; split; [by rewrite Hc|]; intros y; split; [apply HR|];
    intros (r & Hr & Hry); assert (Hv : r ∈ visited) by set_solver; clear -Hry Hv HC;
    induction Hry as [|a b c Hab Hbc IHr]; [done|]; apply IHr; eapply HC; [exact Hv|apply not_elem_of_nil|done].
  { pose proof (subseteq_size _ _ HU). cbn [length] in HF. lia. }
  destruct (visit_all (elements (default ∅ (c2p !! x))) pending visited count Hc)
    as (p' & v' & c' & E & HL & HC' & HV & HP').
  change (∃ anc : gset Hash,
    (let '(pending, visited, count) := foldl visit (pending, visited, count) (elements (default ∅ (c2p !! x))) in
     ancestor_loop fuel c2p pending visited count) = Ok (N.min (N.of_nat (size anc)) U64_MAX) ∧
    ∀ x, x ∈ anc ↔ ∃ r, r ∈ parents0 ∧ rtc above r x).
  rewrite E. assert (Hpar : ∀ y, y ∈ elements (default ∅ (c2p !! x)) ↔ above x y).
  { intros y. by rewrite elem_of_elements. }
  apply IH.
  - cbn [length] in HF. lia.
  - intros y [Hy|Hy%Hpar]%HV; [by apply HU|]. apply elem_of_union. right. apply elem_of_all_parents. by exists x.
  - intros y Hy. apply HV. left. by apply H0.
  - intros y [Hy|[Hy _]]%HP'; apply HV; [left; apply HP; by right|by right].
  - intros y [Hy|Hy%Hpar]%HV; [by apply HR|]. destruct (HR x) as (r & Hr & Hrx); [apply HP; by left|].
    exists r. split; [done|]. by eapply rtc_r.
  - intros y z Hy Hyp Hyz. apply HV. destruct (decide (y = x)) as [->|Hne]; [right; by apply Hpar|].
    apply HV in Hy as [Hy|Hy].
    + left. eapply (HC y); [done| |done]. intros [->|Hyq]%elem_of_cons; [done|]. apply Hyp, HP'. by left.
    + destruct (decide (y ∈ visited)) as [Hv|Hv].
      * left. eapply (HC y); [done| |done]. intros [->|Hyq]%elem_of_cons; [done|]. apply Hyp, HP'. by left.
      * destruct Hyp. apply HP'. by right.
  - done.
Qed.
End ancestors.

(** The count is that of the recorded ancestors, each counted once. *)
Lemma count_ancestors_spec p parents :
  N.of_nat (size parents) ≤ U64_MAX →
  ∃ anc : gset Hash, count_ancestors p parents = Ok (N.min (N.of_nat (size anc)) U64_MAX) ∧
    ∀ x, x ∈ anc ↔ ∃ r, r ∈ parents ∧ rtc (is_parent p) r x.
Proof.
  intros Hmax. unfold count_ancestors.
  destruct (ancestor_loop_spec (child_to_parents p) parents
    (ancestor_fuel (child_to_parents p) parents) (elements parents) parents (N.of_nat (size parents))) as (anc & E & HA).
  - unfold ancestor_fuel. change (length (elements parents)) with (size parents). lia.
  - set_solver.
  - done.
  - intros x. apply elem_of_elements.
  - intros x Hx. exists x. by split.
  - intros x y Hx Hnx. by rewrite elem_of_elements in Hnx.
  - lia.
  - by exists anc.
Qed.
