(* ===== verification/MempoolSpec.v ===== *)
(** * The mempool: specification

    What eviction, admission, block and reorganization events do to a consistent
    pool, the states a pool can reach, and the block template selection. *)

From S2P Require Import Prelude Bytes Primitives Types Codec Transaction Utxo Authorization Script.
From S2P Require Import Mempool MempoolInv.
Local Open Scope N_scope.
Local Open Scope scy_scope.

(** ** Eviction *)

Section eviction.
Context {B3 : Blake3}.

(** [q] is [p] without some entries, each of them a descendant of an entry of
    [p] with a fee rate below [fee_rate]. *)
Record evicts (fee_rate : N) (p q : Mempool) : Prop := {
  ev_sub : entries q ⊆ entries p;
  ev_config : same_config p q;
  ev_low id e : entries p !! id = Some e → entries q !! id = None →
    ∃ root er, entries p !! root = Some er ∧ e_fee_rate er < fee_rate ∧ rtc (is_child p) root id;
  ev_child par ch : is_child q par ch → is_child p par ch
}.

Lemma evicts_refl fee_rate p : evicts fee_rate p p.
Proof. split; [done|done| |done]. intros id e H1 H2. congruence. Qed.

Lemma evicts_trans fee_rate p q r : evicts fee_rate p q → evicts fee_rate q r → evicts fee_rate p r.
Proof.
  intros [S1 (C1 & C2 & C3) L1 D1] [S2 (C1' & C2' & C3') L2 D2]. split.
  - by etrans.
  - split; [congruence|split; congruence].
  - intros id e Hp Hr. destruct (entries q !! id) as [e'|] eqn:Hq; [|by eapply L1].
    destruct (L2 _ _ Hq Hr) as (root & er & Hroot & Hlt & Hrtc). exists root, er.
    split; [by eapply lookup_weaken|]. split; [done|].
    clear -Hrtc D1. induction Hrtc as [|a b c Hab _ IH]; [constructor|]. eapply rtc_l; [by apply D1|done].
  - auto.
Qed.

Lemma remove_evicts p id e fee_rate :
  pool_ok p → entries p !! id = Some e → e_fee_rate e < fee_rate →
  ∃ l q, remove_transaction_and_descendants id p = (q, Ok l) ∧ pool_ok q ∧ evicts fee_rate p q ∧
    entries q !! id = None.
Proof.
  intros Hok He Hlt. destruct (remove_descendants_spec p id Hok) as (l & q & E & Hq & Hcfg & Hl & Hen & _ & Hch).
  exists l, q. split; [done|]. split; [done|].
  assert (Hid : entries q !! id = None).
  { rewrite Hen, bool_decide_eq_true_2; [done|]. apply Hl. constructor. }
  split; [|done]. split; [|done| |].
  - apply map_subseteq_spec. intros x ex Hx. rewrite Hen in Hx. by case_bool_decide.
  - intros x ex Hx Hqx. rewrite Hen in Hqx. case_bool_decide as Hin; [|congruence].
    exists id, e. split; [done|]. split; [done|]. by apply Hl.
  - intros par ch H'%Hch. apply H'.
Qed.

Lemma index_smaller p q id e :
  indexed p → indexed q → entries q ⊆ entries p → entries p !! id = Some e → entries q !! id = None →
  (size (priority_index q) < size (priority_index p))%nat.
Proof.
  intros HP HQ Hsub He Hq. apply subset_size. split.
  - intros k (x & ex & Hx & ->)%(ix_index _ HQ). apply (ix_index _ HP). exists x, ex.
    split; [by eapply lookup_weaken|done].
  - intros HS. assert (HK : priority_key e ∈ priority_index p) by (apply (ix_index _ HP); by exists id, e).
    apply HS, (ix_index _ HQ) in HK as (x & ex & Hx & Ek).
    assert (id = x) as ->.
    { eapply (priority_key_inj p); [done|done|by eapply lookup_weaken|done]. }
    congruence.
Qed.

Lemma index_empty p : indexed p → priority_index p = ∅ → entries p = ∅.
Proof.
  intros HI HE. apply map_eq. intros id. rewrite lookup_empty.
  destruct (entries p !! id) as [e|] eqn:E; [|done].
  assert (HK : priority_key e ∈ priority_index p) by (apply (ix_index _ HI); by exists id, e).
  rewrite HE in HK. by apply elem_of_empty in HK.
Qed.

(** Making room ends; it removes low-fee entries with their descendants until
    the pool has room or is empty, or stops with [MempoolFull] at a lowest entry
    that pays at least as much. *)
Lemma evict_loop_spec fuel fee_rate size_bytes evicted p :
  pool_ok p → (size (priority_index p) < fuel)%nat →
  ∃ q r, evict_loop fuel fee_rate size_bytes evicted p = (q, r) ∧ pool_ok q ∧ evicts fee_rate p q ∧
    ((∃ o, r = Ok o) ∧ (over_capacity q size_bytes = false ∨ entries q = ∅) ∨
     ∃ id e, entries q !! id = Some e ∧ r = Err (MempoolFull fee_rate (e_fee_rate e)) ∧
       fee_rate ≤ e_fee_rate e ∧ over_capacity q size_bytes = true).
Proof.
  revert p evicted. induction fuel as [|fuel IH]; intros p evicted Hok HF; [lia|].
  cbn [evict_loop]. rewrite sbind_sget. destruct (over_capacity p size_bytes) eqn:HC.
  2:{ exists p, (Ok evicted). split; [done|]. split; [done|]. split; [apply evicts_refl|].
      left. split; [by eexists|by left]. }
  destruct (ascending (priority_index p)) as [|k ks] eqn:Hasc.
  { exists p, (Ok evicted). split; [done|]. split; [done|]. split; [apply evicts_refl|].
    left. split; [by eexists|]. right. by apply index_empty; [apply Hok|apply ascending_nil]. }
  assert (Hk : k ∈ priority_index p) by (apply elem_of_ascending; rewrite Hasc; by left).
  apply (ix_index _ (ok_indexed _ Hok)) in Hk as (id & e & He & ->).
  destruct (ix_entry _ (ok_indexed _ Hok) _ _ He) as [Eid _].
  cbn [priority_key k_fee_rate k_txid].
  destruct (N.ltb_spec (e_fee_rate e) fee_rate) as [Hlt|Hge].
  - rewrite Eid. destruct (remove_evicts p id e fee_rate Hok He Hlt) as (l & q & E & Hq & Hev & Hid).
    rewrite (sbind_run _ _ _ _ _ E).
    destruct (IH q (Some id) Hq) as (q' & r & E' & Hq' & Hev' & Hr).
    { pose proof (index_smaller p q id e (ok_indexed _ Hok) (ok_indexed _ Hq) (ev_sub _ _ _ Hev) He Hid). lia. }
    exists q', r. split; [done|]. split; [done|]. split; [by eapply evicts_trans|done].
  - eexists p, _. split; [done|]. split; [done|]. split; [apply evicts_refl|]. right. by exists id, e.
Qed.

Lemma make_room_spec fee_rate size_bytes p :
  pool_ok p →
  ∃ q r, make_room fee_rate size_bytes p = (q, r) ∧ pool_ok q ∧ evicts fee_rate p q ∧
    ((∃ o, r = Ok o) ∧ (over_capacity q size_bytes = false ∨ entries q = ∅) ∨
     ∃ id e, entries q !! id = Some e ∧ r = Err (MempoolFull fee_rate (e_fee_rate e)) ∧
       fee_rate ≤ e_fee_rate e ∧ over_capacity q size_bytes = true).
Proof. intros Hok. unfold make_room. rewrite sbind_sget. by apply evict_loop_spec; [|lia]. Qed.
End eviction.

(** ** Evaluation *)

Section evaluation.
Context {B3 : Blake3}.

(** What an input resolves to: the unspent output it names, or an output of the
    pending transaction it names. *)
Definition provided (utxos : UtxoSet) (es : gmap Hash MempoolEntry) (o : OutPoint) (u : UtxoEntry) : Prop :=
  utxos !! o = Some u ∨
  utxos !! o = None ∧ ∃ pe out, es !! op_txid o = Some pe ∧
    outputs (e_transaction pe) !! N.to_nat (op_index o) = Some out ∧ u = UtxoEntry_new out 0 false.

(** The pending transactions some of the inputs spend. *)
Definition pending_parent (utxos : UtxoSet) (ins : list TxIn) (par : Hash) : Prop :=
  ∃ i, i ∈ ins ∧ utxos !! previous_output i = None ∧ op_txid (previous_output i) = par.

Lemma check_conflicts_Ok spent ins :
  check_conflicts spent ins = Ok tt ↔ ∀ o, o ∈ previous_output <$> ins → spent !! o = None.
Proof.
  induction ins as [|i ins IH]; cbn [check_conflicts fmap list_fmap].
  - split; [intros _ o []%elem_of_nil|done].
  - destruct (spent !! previous_output i) as [c|] eqn:E.
    + split; [done|]. intros H. by rewrite (H (previous_output i)) in E by by left.
    + rewrite IH. split; intros H o; [intros [->|?]%elem_of_cons; auto|intros; apply H; by right].
Qed.

Lemma resolve_inputs_Ok utxos es ins us parents :
  resolve_inputs utxos es ins = Ok (us, parents) →
  Forall2 (λ i u, provided utxos es (previous_output i) u) ins us ∧
  (∀ par, par ∈ parents ↔ pending_parent utxos ins par) ∧
  (∀ par, par ∈ parents → is_Some (es !! par)) ∧ (size parents ≤ length ins)%nat.
Proof.
  revert us parents. induction ins as [|i ins IH]; intros us parents; cbn [resolve_inputs].
  { intros [= <- <-]. split; [constructor|]. split; [|split; [set_solver|by rewrite size_empty]].
    intros par. split; [by intros ?%elem_of_empty|]. by intros (? & ?%elem_of_nil & _). }
  intros ([u ps] & E & ([us' rest] & E' & [= <- <-])%obind_Ok)%obind_Ok.
  destruct (IH _ _ E') as (HF & HP & HE & HS).
  assert (HH : provided utxos es (previous_output i) u ∧
    (∀ par, par ∈ ps ↔ utxos !! previous_output i = None ∧ op_txid (previous_output i) = par) ∧
    (∀ par, par ∈ ps → is_Some (es !! par)) ∧ (size ps ≤ 1)%nat).
  { unfold provided. destruct (utxos !! previous_output i) as [c|]; [|].
    { injection E as -> <-. split; [by left|]. rewrite size_empty. split; [set_solver|]. split; [set_solver|lia]. }
    destruct (es !! op_txid (previous_output i)) as [pe|] eqn:Ep; [|done].
    destruct (outputs _ !! _) as [out|] eqn:Eo; [|done]. injection E as <- <-.
    split; [right; split; [done|]; by exists pe, out|]. rewrite size_singleton.
    split; [set_solver|]. split; [|done]. intros par ->%elem_of_singleton. by exists pe. }
  destruct HH as (H1 & H2 & H3 & H4). split; [by constructor|]. split; [|split].
  - intros par. rewrite elem_of_union, H2, HP. unfold pending_parent. split.
    + intros [[? ?]|(j & ? & ?)]; [exists i|exists j]; rewrite elem_of_cons; auto.
    + intros (j & [->|Hj]%elem_of_cons & Hn & Ht); [by left|right; by exists j].
  - intros par [?|?]%elem_of_union; auto.
  - cbn [length]. rewrite size_union_alt. pose proof (subseteq_size (rest ∖ ps) rest ltac:(set_solver)). lia.
Qed.

Lemma resolve_inputs_returns utxos es ins : returns (resolve_inputs utxos es ins).
Proof.
  induction ins as [|i ins IH]; cbn [resolve_inputs]; [done|]. apply returns_obind.
  - repeat case_match; done.
  - intros [u ps] _. apply returns_obind; [done|]. by intros [us rest] _.
Qed.

Lemma check_conflicts_returns spent ins : returns (check_conflicts spent ins).
Proof. induction ins; cbn [check_conflicts]; [done|]. by case_match. Qed.

Lemma resolve_inputs_complete utxos es ins us :
  Forall2 (λ i u, provided utxos es (previous_output i) u) ins us →
  ∃ parents, resolve_inputs utxos es ins = Ok (us, parents).
Proof.
  induction 1 as [|i u ins us Hu _ [parents IH]]; cbn [resolve_inputs]; [by eexists|]. rewrite IH.
  destruct Hu as [->|(-> & pe & out & -> & -> & ->)]; cbn [obind]; by eexists.
Qed.

(** Transactions the program can hold and encode. *)
Definition pool_tx (tx : Transaction) : Prop :=
  transaction_encodable tx ∧ serialized_size tx ≤ U64_MAX ∧ N.of_nat (length (inputs tx)) ≤ U64_MAX.

Lemma MempoolEntry_new_spec {E} tx fee now :
  pool_tx tx →
  ∃ e, MempoolEntry_new (E := E) tx fee now = Ok e ∧ e_transaction e = tx ∧ txid (E := E) tx = Ok (e_txid e) ∧
    e_fee e = fee ∧ e_added_time e = now ∧ e_size_bytes e ≤ U64_MAX.
Proof.
  intros ([bs Hb]%transaction_encodable_spec & Hs & _). unfold serialized_size in Hs.
  unfold MempoolEntry_new, txid. rewrite Hb in *. cbn [obind]. eexists. split; [done|].
  cbn. split; [done|]. split; [done|]. split; [done|]. split; [done|]. lia.
Qed.

Lemma MempoolEntry_new_err {E F} tx fee now e :
  MempoolEntry_new (E := E) tx fee now = Ok e → MempoolEntry_new (E := F) tx fee now = Ok e.
Proof. unfold MempoolEntry_new, txid. destruct (to_canonical_bytes tx); cbn [obind]; [by intros [= <-]|done..]. Qed.

Context {AV : AuthorizationVerifier}.

(** What admission requires of a transaction, against the outputs [utxos] and
    the pool [p]: it becomes the entry [e] with the pending [parents]. *)
Record evaluated (tx : Transaction) (utxos : UtxoSet) (now : N) (p : Mempool)
    (e : MempoolEntry) (parents : gset Hash) : Prop := {
  ev_valid : stateless_valid tx;
  ev_not_coinbase : is_coinbase tx = false;
  ev_entry : MempoolEntry_new (E := MempoolError) tx (e_fee e) now = Ok e;
  ev_fresh : entries p !! e_txid e = None;
  ev_unspent o : o ∈ previous_output <$> inputs tx → spent_outpoints p !! o = None;
  ev_inputs : ∃ us, Forall2 (λ i u, provided utxos (entries p) (previous_output i) u) (inputs tx) us ∧
    verify_transaction_authorization tx us = Ok tt ∧
    outputs_value (map output us) = outputs_value (outputs tx) + e_fee e ∧
    outputs_value (map output us) ≤ U64_MAX;
  ev_parents par : par ∈ parents ↔ pending_parent utxos (inputs tx) par;
  ev_ancestors (anc : gset Hash) : (∀ x, x ∈ anc ↔ ∃ r, r ∈ parents ∧ rtc (is_parent p) r x) →
    N.of_nat (size anc) ≤ MAX_ANCESTORS;
  ev_children par : par ∈ parents →
    N.of_nat (size (children_of (parent_to_children p) par)) < MAX_DESCENDANTS;
  ev_fee : min_fee_rate p ≤ e_fee_rate e
}.

Lemma too_many_children_false p parents :
  too_many_children p parents = false ↔
  ∀ par, par ∈ parents → N.of_nat (size (children_of (parent_to_children p) par)) < MAX_DESCENDANTS.
Proof.
  unfold too_many_children. rewrite <- not_true_iff_false, existsb_exists. unfold children_of. split.
  - intros H par Hpar. apply N.nle_gt. intros Hle. apply H. exists par.
    split; [by apply list_elem_of_In, elem_of_elements|]. apply N.leb_le.
    destruct (parent_to_children p !! par); [done|].
    cbn [default from_option Datatypes.id] in Hle. by rewrite size_empty in Hle.
  - intros H (par & Hin & Hle%N.leb_le). apply list_elem_of_In, elem_of_elements, H in Hin.
    destruct (parent_to_children p !! par); cbn [default from_option Datatypes.id] in *; [|done].
    by apply N.le_ngt in Hle.
Qed.

Lemma outputs_value_map us : outputs_value (map output us) = foldr (λ u s, value (output u) + s) 0 us.
Proof. induction us as [|u us IH]; [done|]. cbn. by rewrite <- IH. Qed.

Lemma evaluate_Ok tx utxos now p e parents :
  pool_tx tx →
  evaluate tx utxos now p = Ok (e, parents) ↔ evaluated tx utxos now p e parents.
Proof.
  intros Htx. unfold evaluate. split.
  - intros ([] & Hv%map_err_Ok%validate_stateless_Ok & H)%obind_Ok.
    destruct (is_coinbase tx) eqn:Hcb; [done|].
    apply obind_Ok in H as (id & Hid & H). destruct (pool_contains p id) eqn:Hc; [done|].
    apply obind_Ok in H as ([] & Hcf & H). apply obind_Ok in H as ([us ps] & Hres & H).
    apply obind_Ok in H as (cnt & Hcnt & H). destruct (N.ltb_spec MAX_ANCESTORS cnt) as [|Hle]; [done|].
    destruct (too_many_children p ps) eqn:Hch; [done|].
    apply obind_Ok in H as ([] & Hau%map_err_Ok & H). apply obind_Ok in H as (tin & Hin & H).
    apply obind_Ok in H as (tout & Hout%map_err_Ok%total_output_quanta_Ok & H).
    destruct (N.ltb_spec tin tout) as [|Hge]; [done|].
    apply obind_Ok in H as (fee & Hfee%ok_or_Ok%checked_sub_Some & H).
    apply obind_Ok in H as (e' & He & H). destruct (N.ltb_spec (e_fee_rate e') (min_fee_rate p)) as [|Hr]; [done|].
    injection H as -> ->.
    destruct (MempoolEntry_new_spec (E := MempoolError) tx fee now Htx) as (e' & He' & _ & Hid' & Hf & _).
    assert (e' = e) as -> by congruence. assert (id = e_txid e) as -> by congruence.
    rewrite ofold_checked_add, !N.add_0_l in Hin by lia.
    rewrite <- outputs_value_map in Hin. destruct (N.leb_spec (outputs_value (map output us)) U64_MAX); [|done].
    injection Hin as <-.
    destruct (resolve_inputs_Ok _ _ _ _ _ Hres) as (HF & HP & _ & HS).
    split; try done.
    + by rewrite Hf.
    + unfold pool_contains in Hc. apply bool_decide_eq_false in Hc. by apply eq_None_not_Some.
    + by apply check_conflicts_Ok.
    + exists us. split; [done|]. split; [done|]. split; [lia|done].
    + intros anc Hanc. destruct (count_ancestors_spec p parents) as (anc' & E & HA).
      { destruct Htx as (_ & _ & Hlen). lia. }
      rewrite E in Hcnt. injection Hcnt as <-.
      assert (anc = anc') as -> by (apply set_eq; intros x; by rewrite Hanc, HA). unfold MAX_ANCESTORS in *. lia.
    + by apply too_many_children_false.
  - intros [Hv Hcb He Hfr Hsp (us & HF & Hau & Hsum & Hmax) HP Hanc Hch Hr].
    apply validate_stateless_Ok in Hv as Hv'. rewrite Hv', Hcb. cbn [map_err obind].
    destruct (MempoolEntry_new_spec (E := MempoolError) tx (e_fee e) now Htx) as (e' & He' & _ & Hid' & _).
    assert (e' = e) as -> by congruence. rewrite Hid'. cbn [obind].
    unfold pool_contains. rewrite bool_decide_eq_false_2 by (rewrite Hfr; by intros []).
    rewrite (proj2 (check_conflicts_Ok _ _) Hsp). cbn [obind].
    destruct (resolve_inputs_complete _ _ _ _ HF) as [ps Hres].
    destruct (resolve_inputs_Ok _ _ _ _ _ Hres) as (_ & HP' & _ & HS).
    assert (ps = parents) as -> by (apply set_eq; intros x; by rewrite HP, HP').
    rewrite Hres. cbn [obind].
    destruct (count_ancestors_spec p parents) as (anc & E & HA); [destruct Htx as (_ & _ & Hlen); lia|].
    rewrite E. cbn [obind]. apply Hanc in HA.
    destruct (N.ltb_spec MAX_ANCESTORS (N.of_nat (size anc) `min` U64_MAX)); [lia|].
    rewrite (proj2 (too_many_children_false _ _) Hch), Hau. cbn [map_err obind].
    rewrite ofold_checked_add, !N.add_0_l by lia. rewrite <- outputs_value_map.
    destruct (N.leb_spec (outputs_value (map output us)) U64_MAX); [|lia]. cbn [obind].
    rewrite total_output_quanta_spec. destruct (N.leb_spec (outputs_value (outputs tx)) U64_MAX); [|lia].
    cbn [map_err obind].
    destruct (N.ltb_spec (outputs_value (map output us)) (outputs_value (outputs tx))); [lia|].
    unfold checked_sub. destruct (N.leb_spec (outputs_value (outputs tx)) (outputs_value (map output us))); [|lia].
    cbn [ok_or obind]. replace (outputs_value (map output us) - outputs_value (outputs tx)) with (e_fee e) by lia.
    rewrite He'. cbn [obind]. destruct (N.ltb_spec (e_fee_rate e) (min_fee_rate p)); [lia|done].
Qed.

Lemma evaluate_returns tx utxos now p :
  (∀ d l a, returns (authorization_verify d l a)) → pool_tx tx → returns (evaluate tx utxos now p).
Proof.
  intros HV Htx. unfold evaluate. apply returns_obind; [apply returns_map_err, validate_stateless_returns|].
  intros [] _. destruct (is_coinbase tx); [done|].
  destruct (MempoolEntry_new_spec (E := MempoolError) tx 0 now Htx) as (e0 & _ & _ & Hid & _).
  rewrite Hid. cbn [obind]. destruct (pool_contains _ _); [done|].
  apply returns_obind; [apply check_conflicts_returns|]. intros [] _.
  apply returns_obind; [apply resolve_inputs_returns|]. intros [us ps] Hres.
  destruct (resolve_inputs_Ok _ _ _ _ _ Hres) as (HF & _ & _ & HS).
  destruct (count_ancestors_spec p ps) as (anc & E & _); [destruct Htx as (_ & _ & ?); lia|].
  rewrite E. cbn [obind]. destruct (_ <? _); [done|]. destruct (too_many_children _ _); [done|].
  apply returns_obind.
  { apply returns_map_err. unfold verify_transaction_authorization.
    destruct (Nat.eqb_spec (length (inputs tx)) (length us)); [|done].
    apply (authorize_inputs_returns tx us 0); [done|lia]. }
  intros [] _. apply returns_obind; [rewrite ofold_checked_add by lia; by destruct (_ <=? _)|].
  intros tin _. apply returns_obind; [apply returns_map_err, total_output_quanta_returns|].
  intros tout _. destruct (tin <? tout); [done|]. apply returns_obind; [by unfold checked_sub; destruct (_ <=? _)|].
  intros fee _. destruct (MempoolEntry_new_spec (E := MempoolError) tx fee now Htx) as (e & He & _).
  rewrite He. cbn [obind]. by destruct (_ <? _).
Qed.
End evaluation.

(** ** Admission *)

Section admission_spec.
Context {B3 : Blake3} {AV : AuthorizationVerifier}.

Lemma evicts_indexed_unspent fee_rate p q o :
  indexed p → indexed q → evicts fee_rate p q → spent_outpoints p !! o = None → spent_outpoints q !! o = None.
Proof.
  intros HP HQ Hev Ho. destruct (spent_outpoints q !! o) as [id|] eqn:E; [|done].
  apply (ix_spent _ HQ) in E as (e & He & Hs).
  assert (Hp : spent_outpoints p !! o = Some id).
  { apply (ix_spent _ HP). exists e. split; [|done]. by eapply lookup_weaken, ev_sub. }
  congruence.
Qed.

(** The pool holds no more than its limits allow, or a single entry. *)
Definition within_capacity (p : Mempool) : Prop :=
  pool_len p ≤ max_count p ∧ total_bytes p ≤ max_bytes p ∨ size (entries p) = 1%nat.

(** The three ways an admission ends. *)
Inductive admission (tx : Transaction) (utxos : UtxoSet) (now : N) (p : Mempool) :
    Mempool → outcome MempoolError Hash → Prop :=
| admission_refused err :
    evaluate tx utxos now p = Err err → (¬ ∃ e parents, evaluated tx utxos now p e parents) →
    admission tx utxos now p p (Err err)
| admission_full e parents q low :
    evaluated tx utxos now p e parents → evicts (e_fee_rate e) p q →
    (∃ id el, entries q !! id = Some el ∧ e_fee_rate el = low) → e_fee_rate e ≤ low →
    over_capacity q (e_size_bytes e) = true →
    admission tx utxos now p q (Err (MempoolFull (e_fee_rate e) low))
| admission_done e parents q :
    evaluated tx utxos now p e parents → evicts (e_fee_rate e) p q →
    (over_capacity q (e_size_bytes e) = false ∨ entries q = ∅) →
    within_capacity (add_entry e parents q) →
    admission tx utxos now p (add_entry e parents q) (Ok (e_txid e)).

Lemma evaluated_entry tx utxos now p e parents :
  pool_tx tx → evaluated tx utxos now p e parents →
  e_transaction e = tx ∧ e_added_time e = now ∧ e_size_bytes e ≤ U64_MAX.
Proof.
  intros Htx Hev. destruct (MempoolEntry_new_spec (E := MempoolError) tx (e_fee e) now Htx) as (e' & He' & H).
  rewrite (ev_entry _ _ _ _ _ _ Hev) in He'. injection He' as <-. naive_solver.
Qed.

Lemma over_capacity_false q size_bytes :
  max_bytes q < U64_MAX → over_capacity q size_bytes = false →
  pool_len q < max_count q ∧ total_bytes q + size_bytes ≤ max_bytes q.
Proof.
  unfold over_capacity, saturating_add. intros HM [H1%N.leb_gt H2%N.ltb_ge]%orb_false_iff. split; [done|lia].
Qed.

(** Committing an evaluated entry after making room. *)
Lemma commit_ok tx utxos now p e parents q :
  pool_tx tx → max_bytes p < U64_MAX → pool_ok p → pool_ok q →
  evaluated tx utxos now p e parents → evicts (e_fee_rate e) p q →
  over_capacity q (e_size_bytes e) = false ∨ entries q = ∅ →
  pool_ok (add_entry e parents q) ∧ within_capacity (add_entry e parents q).
Proof.
  intros Htx HM Hp Hq Hev Hcut Hroom.
  destruct (evaluated_entry _ _ _ _ _ _ Htx Hev) as (Htr & Htime & Hsz).
  destruct (ev_config _ _ _ Hcut) as (_ & HMq & _).
  assert (Hfr : entries q !! e_txid e = None).
  { destruct (entries q !! e_txid e) eqn:E; [|done].
    eapply lookup_weaken in E; [|by apply (ev_sub _ _ _ Hcut)]. by rewrite (ev_fresh _ _ _ _ _ _ Hev) in E. }
  assert (Hb : total_bytes q + e_size_bytes e ≤ U64_MAX ∧
    (total_bytes q + e_size_bytes e ≤ max_bytes q ∧ pool_len q < max_count q ∨ entries q = ∅)).
  { destruct Hroom as [Hoc|He].
    - apply over_capacity_false in Hoc; [|lia]. lia.
    - rewrite (ix_bytes _ (ok_indexed _ Hq)), He. change (pool_bytes ∅) with 0. split; [lia|by right]. }
  destruct Hb as [Hb HC]. split; [split|].
  - apply add_entry_indexed; [apply Hq|done|..|done].
    + rewrite Htr, Htime. by apply (ev_entry _ _ _ _ _ _ Hev).
    + rewrite Htr. by apply (ev_valid _ _ _ _ _ _ Hev).
    + intros o Ho. unfold spends in Ho. rewrite Htr in Ho.
      eapply evicts_indexed_unspent; [apply Hp|apply Hq|done|]. by apply (ev_unspent _ _ _ _ _ _ Hev).
  - apply add_entry_linked; [apply Hq|done].
  - unfold within_capacity, pool_len in *. cbn [add_entry entries max_count max_bytes total_bytes].
    unfold saturating_add. rewrite map_size_insert_None by done. destruct HC as [[HC1 HC2]| ->]; [left; lia|].
    right. by rewrite map_size_empty.
Qed.

Lemma admit_transaction_cases tx utxos now p :
  (∀ d l a, returns (authorization_verify d l a)) → pool_tx tx → max_bytes p < U64_MAX → pool_ok p →
  ∃ q r, admit_transaction tx utxos now p = (q, r) ∧ pool_ok q ∧ same_config p q ∧ admission tx utxos now p q r.
Proof.
  intros HV Htx HM Hp. unfold admit_transaction. rewrite sbind_sget.
  destruct (evaluate_returns tx utxos now p HV Htx) as [HP HD].
  destruct (evaluate tx utxos now p) as [[e parents]|err| |] eqn:Hev; [|..].
  3,4: done.
  2:{ rewrite sbind_lift_Err. eexists p, _. split; [done|]. split; [done|]. split; [done|].
      apply admission_refused; [done|]. intros (e & parents & He%evaluate_Ok); [congruence|done]. }
  rewrite sbind_lift_Ok. apply evaluate_Ok in Hev; [|done].
  destruct (make_room_spec (e_fee_rate e) (e_size_bytes e) p Hp)
    as (q & r & E & Hq & Hcut & [[[o Er] Hroom]|(id & el & Hel & Er & Hle & Hoc)]); subst r.
  - destruct (commit_ok _ _ _ _ _ _ _ Htx HM Hp Hq Hev Hcut Hroom) as [Hok Hwc].
    eexists _, _. rewrite (sbind_run _ _ _ _ _ E), sbind_smodify. split; [done|]. split; [done|].
    split; [apply (ev_config _ _ _ Hcut)|]. by eapply admission_done.
  - eexists q, _. rewrite (sbind_run_err _ _ _ _ _ E). split; [done|]. split; [done|].
    split; [apply (ev_config _ _ _ Hcut)|]. eapply admission_full; [done|done| |done|done]. by exists id, el.
Qed.
End admission_spec.

(** ** Chain events *)

Section events.
Context {B3 : Blake3}.

Definition confirmed_ids (txs : list Transaction) (ids : list Hash) : Prop :=
  Forall2 (λ tx id, txid (E := MempoolError) tx = Ok id) txs ids.

Lemma remove_confirmed_spec txs p :
  Forall pool_tx txs → pool_ok p →
  ∃ ids q, remove_confirmed txs p = (q, Ok tt) ∧ confirmed_ids txs ids ∧ pool_ok q ∧ same_config p q ∧
    (∀ y, entries q !! y = if bool_decide (y ∈ ids) then None else entries p !! y) ∧
    (∀ y, child_to_parents q !! y = if bool_decide (y ∈ ids) then None else child_to_parents p !! y) ∧
    (∀ par ch, is_child q par ch ↔ is_child p par ch ∧ ch ∉ ids).
Proof.
  intros HF. revert p. induction HF as [|tx txs [Htx _] HF IH]; intros p Hok; cbn [remove_confirmed].
  { exists [], p. split; [done|]. split; [constructor|]. split; [done|]. split; [done|]. split; [done|].
    split; [done|]. intros par ch. rewrite elem_of_nil. naive_solver. }
  destruct (transaction_encodable_txid (E := MempoolError) tx Htx) as [id Hid].
  rewrite Hid, sbind_lift_Ok, sbind_smodify.
  destruct (IH (unlink_child id p)) as (ids & q & E & Hids & Hq & Hcfg & H1 & H2 & H3); [by apply unlink_child_ok|].
  destruct (unlink_child_spec id p (linked_forward _ (ok_linked _ Hok))) as (E1 & E2 & E3).
  exists (id :: ids), q. split; [exact E|]. split; [by constructor|]. split; [done|].
  split; [|split; [|split]].
  - clear -Hcfg. destruct Hcfg as (C1 & C2 & C3). unfold same_config. rewrite <- C1, <- C2, <- C3.
    unfold unlink_child, remove_child_links, remove_entry.
    destruct (entries p !! id), (child_to_parents p !! id); cbn; repeat case_match; done.
  - intros y. by rewrite H1, E1, lookup_remove_cons.
  - intros y. by rewrite H2, E2, lookup_remove_cons.
  - intros par ch. rewrite H3, E3, not_elem_of_cons. naive_solver.
Qed.

(** Descendants of some of the listed transactions. *)
Definition below (p : Mempool) (ids : list Hash) (y : Hash) : Prop :=
  ∃ root, root ∈ ids ∧ rtc (is_child p) root y.

(** A descent survives a removal when it ends outside it. *)
Lemma descent_after_removal p q x (l : list Hash) root y :
  (∀ y, y ∈ l ↔ rtc (is_child p) x y) →
  (∀ par ch, is_child q par ch ↔ is_child p par ch ∧ ch ∉ l ∧ par ∉ l) →
  y ∉ l → rtc (is_child q) root y ↔ rtc (is_child p) root y.
Proof.
  intros Hl Hq Hy. split; intros H.
  - clear -H Hq. induction H as [|a b c Hab _ IH]; [done|]. eapply rtc_l; [by apply Hq|done].
  - induction H as [|a b c Hab Hbc IH]; [done|].
    assert (Hb : b ∉ l) by (intros Hb; apply Hy, Hl; etrans; [by apply Hl|done]).
    assert (Ha : a ∉ l) by (intros Ha; apply Hb, Hl; eapply rtc_r; [by apply Hl|done]).
    eapply rtc_l; [by apply Hq|by apply IH].
Qed.

Lemma remove_all_spec ids p :
  pool_ok p →
  ∃ q, remove_all ids p = (q, Ok tt) ∧ pool_ok q ∧ same_config p q ∧
    entries q ⊆ entries p ∧ (∀ y, below p ids y → entries q !! y = None) ∧
    (∀ y, ¬ below p ids y → entries q !! y = entries p !! y ∧ child_to_parents q !! y = child_to_parents p !! y).
Proof.
  revert p. induction ids as [|x ids IH]; intros p Hok; cbn [remove_all].
  { exists p. split; [done|]. split; [done|]. split; [done|].
    split; [done|]. split; [|done]. by intros y (? & ?%elem_of_nil & _). }
  destruct (remove_descendants_spec p x Hok) as (l & p1 & E & Hp1 & Hcfg & Hl & Hen & Hcp & Hch).
  rewrite (sbind_run _ _ _ _ _ E). destruct (IH p1 Hp1) as (q & E' & Hq & Hcfg' & Hsub & H1 & H2).
  assert (Hsub1 : entries p1 ⊆ entries p).
  { apply map_subseteq_spec. intros y e Hy. rewrite Hen in Hy. by case_bool_decide. }
  exists q. split; [done|]. split; [done|].
  split; [destruct Hcfg as (?&?&?), Hcfg' as (?&?&?); split; [congruence|split; congruence]|].
  assert (HB : ∀ y, y ∉ l → below p (x :: ids) y ↔ below p1 ids y).
  { intros y Hy. split.
    - intros (root & [->|Hroot]%elem_of_cons & Hr); [by destruct Hy; apply Hl|].
      exists root. split; [done|]. by apply (descent_after_removal p p1 x l).
    - intros (root & Hroot & Hr). exists root. split; [by right|]. by apply (descent_after_removal p p1 x l). }
  split; [by etrans|]. split.
  - intros y Hy. destruct (decide (y ∈ l)) as [Hl'|Hl'].
    + destruct (entries q !! y) as [e|] eqn:Ey; [|done]. eapply lookup_weaken in Ey; [|exact Hsub].
      by rewrite Hen, bool_decide_eq_true_2 in Ey.
    + by apply H1, HB.
  - intros y Hy. assert (Hl' : y ∉ l) by (intros Hl'; apply Hy; exists x; split; [by left|by apply Hl]).
    rewrite HB in Hy by done. apply H2 in Hy as [-> ->]. by rewrite Hen, Hcp, bool_decide_eq_false_2.
Qed.

(** The entries a block does not confirm, and those among them with an input
    that neither the chain nor one of them provides. *)
Definition unconfirmed (p : Mempool) (ids : list Hash) : gmap Hash MempoolEntry :=
  filter (λ kv, kv.1 ∉ ids) (entries p).
Definition orphan (es : gmap Hash MempoolEntry) (utxos : UtxoSet) (id : Hash) : Prop :=
  ∃ e i, es !! id = Some e ∧ i ∈ inputs (e_transaction e) ∧ ¬ ∃ u, provided utxos es (previous_output i) u.

Lemma broken_input_spec p utxos i :
  broken_input p utxos i = true ↔ ¬ ∃ u, provided utxos (entries p) (previous_output i) u.
Proof.
  unfold broken_input, utxo_contains, provided. rewrite andb_true_iff, !negb_true_iff, bool_decide_eq_false.
  split.
  - intros [Hn Hp] (u & [Hu|(_ & pe & out & Hpe & Ho & _)]); [apply Hn; by exists u|].
    rewrite Hpe in Hp. cbn [from_option] in Hp. apply N.ltb_ge in Hp. apply lookup_lt_Some in Ho. lia.
  - intros H. split; [intros [u Hu]; apply H; exists u; by left|].
    destruct (entries p !! op_txid (previous_output i)) as [pe|] eqn:Hpe; [|done]. cbn [from_option].
    apply N.ltb_ge, N.le_ngt. intros Hlt.
    destruct (lookup_lt_is_Some_2 (outputs (e_transaction pe)) (N.to_nat (op_index (previous_output i))))
      as [out Ho]; [lia|].
    destruct (utxos !! previous_output i) as [u|] eqn:Hu; apply H; [exists u; by left|].
    exists (UtxoEntry_new out 0 false). right. split; [done|]. by exists pe, out.
Qed.

Lemma elem_of_invalid_txs p utxos id : id ∈ invalid_txs p utxos ↔ orphan (entries p) utxos id.
Proof.
  unfold invalid_txs, orphan. rewrite list_elem_of_fmap. split.
  - intros ([id' e] & -> & [Hb He%elem_of_map_to_list]%list_elem_of_filter). cbn [fst snd] in *.
    apply existsb_exists in Hb as (i & Hi & Hbr). exists e, i. split; [done|].
    split; [by apply list_elem_of_In|by apply broken_input_spec].
  - intros (e & i & He & Hi & Hbr). exists (id, e). split; [done|]. apply list_elem_of_filter.
    split; [|by apply elem_of_map_to_list]. apply existsb_exists. exists i.
    split; [by apply list_elem_of_In|by apply broken_input_spec].
Qed.

Lemma on_block_connected_cases b utxos p :
  Forall pool_tx (transactions b) → pool_ok p →
  ∃ ids q, on_block_connected b utxos p = (q, Ok tt) ∧ confirmed_ids (drop 1 (transactions b)) ids ∧
    pool_ok q ∧ same_config p q ∧
    (∀ id, is_Some (entries q !! id) → child_to_parents q !! id = child_to_parents p !! id) ∧
    ∀ id e, entries q !! id = Some e ↔
      unconfirmed p ids !! id = Some e ∧
      ¬ ∃ root, orphan (unconfirmed p ids) utxos root ∧
          rtc (λ par ch, is_child p par ch ∧ ch ∉ ids) root id.
Proof.
  intros HF Hok. unfold on_block_connected.
  destruct (remove_confirmed_spec (drop 1 (transactions b)) p) as (ids & p1 & E & Hids & Hp1 & Hc1 & H1 & H2 & H3);
    [by apply Forall_drop|done|].
  rewrite (sbind_run _ _ _ _ _ E), sbind_sget.
  destruct (remove_all_spec (invalid_txs p1 utxos) p1 Hp1) as (q & E' & Hq & Hc2 & Hsub & H4 & H5).
  exists ids, q. split; [done|]. split; [done|]. split; [done|].
  split; [destruct Hc1 as (?&?&?), Hc2 as (?&?&?); split; [congruence|split; congruence]|].
  assert (Hes : entries p1 = unconfirmed p ids).
  { apply map_eq. intros y. unfold unconfirmed. rewrite H1, map_lookup_filter. case_bool_decide.
    - destruct (entries p !! y); cbn; [|done]. by rewrite option_guard_False by naive_solver.
    - destruct (entries p !! y); cbn; [|done]. by rewrite option_guard_True by done. }
  assert (HR : ∀ root id, rtc (is_child p1) root id ↔ rtc (λ par ch, is_child p par ch ∧ ch ∉ ids) root id).
  { intros root id. split; intros H; eapply rtc_subrel; try exact H; intros par ch; apply H3. }
  rewrite <- Hes.
  assert (HB : ∀ id, below p1 (invalid_txs p1 utxos) id ↔
    ∃ root, orphan (entries p1) utxos root ∧ rtc (λ par ch, is_child p par ch ∧ ch ∉ ids) root id).
  { intros id. unfold below.
    split; intros (root & A & B); exists root; (split; [by apply elem_of_invalid_txs|by apply HR]). }
  assert (HN : ∀ id e, entries q !! id = Some e → ¬ below p1 (invalid_txs p1 utxos) id ∧ entries p1 !! id = Some e).
  { intros id e He. split; [|by eapply lookup_weaken]. intros Hb. apply H4 in Hb. congruence. }
  split.
  - intros id [e He]. apply HN in He as [Hb He]. apply H5 in Hb as [_ ->].
    rewrite H1 in He. rewrite H2. by case_bool_decide.
  - intros id e. rewrite <- HB. split; [intros He; by apply HN in He as [? ?]|].
    intros [He Hb]. apply H5 in Hb as [-> _]. done.
Qed.

Lemma on_reorg_cases {AV : AuthorizationVerifier} (I : Mempool → Prop) txs utxos now p :
  (∀ d l a, returns (authorization_verify d l a)) → Forall pool_tx txs → max_bytes p < U64_MAX → pool_ok p →
  (∀ tx p q r, pool_ok p → pool_ok q → same_config p q → admission tx utxos now p q r → I p → I q) → I p →
  ∃ q rejected, on_reorg txs utxos now p = (q, Ok rejected) ∧ pool_ok q ∧ same_config p q ∧ I q.
Proof.
  intros HV HF HM Hp HI. revert p HM Hp. induction HF as [|tx txs Htx HF IH]; intros p HM Hp Hi; cbn [on_reorg].
  { by exists p, []. }
  destruct (is_coinbase tx); [by apply IH|].
  destruct (transaction_encodable_txid (E := MempoolError) tx (proj1 Htx)) as [id Hid].
  rewrite Hid, sbind_lift_Ok.
  destruct (admit_transaction_cases tx utxos now p HV Htx HM Hp) as (p1 & r & E & Hp1 & Hc & Ha).
  assert (Hi1 : I p1) by exact (HI _ _ _ _ Hp Hp1 Hc Ha Hi).
  rewrite E. destruct (IH p1) as (q & rej & E' & Hq & Hc' & Hiq); [destruct Hc as (_ & <- & _); done|done|done|].
  assert (Hcfg : same_config p q).
  { destruct Hc as (?&?&?), Hc' as (?&?&?). split; [congruence|split; congruence]. }
  destruct Ha.
  - exists q, ((id, err) :: rej). by rewrite (sbind_run _ _ _ _ _ E').
  - eexists q, (_ :: rej). by rewrite (sbind_run _ _ _ _ _ E').
  - by exists q, rej.
Qed.
End events.
