(* ===== verification/MempoolSelect.v ===== *)
(** * The mempool: block templates

    The order of [get_entries_sorted_by_fee_rate] and the selection of
    [select_transactions_for_block], which goes once through that order. *)

From S2P Require Import Prelude Bytes Primitives Types Codec Transaction Utxo Authorization.
From S2P Require Import Mempool MempoolInv.
Local Open Scope N_scope.
Local Open Scope scy_scope.

#[global] Instance mempoolentry_eq_dec : EqDecision MempoolEntry.
Proof. solve_decision. Defined.

Definition total_size (es : list MempoolEntry) : N := foldr (λ e n, e_size_bytes e + n) 0 es.
Definition total_fee (es : list MempoolEntry) : N := foldr (λ e n, e_fee e + n) 0 es.

Lemma total_size_snoc es e : total_size (es ++ [e]) = total_size es + e_size_bytes e.
Proof. unfold total_size. rewrite foldr_app. induction es as [|x es IH]; cbn in *; lia. Qed.
Lemma total_fee_snoc es e : total_fee (es ++ [e]) = total_fee es + e_fee e.
Proof. unfold total_fee. rewrite foldr_app. induction es as [|x es IH]; cbn in *; lia. Qed.

(** Higher fee rate first, then earlier arrival, then greater identifier. *)
Definition before (a b : MempoolEntry) : Prop := key_le (priority_key b) (priority_key a).

Section sorted.
Context {B3 : Blake3}.

Lemma key_entry p k :
  indexed p → k ∈ priority_index p → ∃ e, entries p !! k_txid k = Some e ∧ priority_key e = k.
Proof.
  intros HI (id & e & He & ->)%(ix_index _ HI). exists e. split; [|done].
  destruct (ix_entry _ HI _ _ He) as [Eid _]. cbn [priority_key k_txid]. by rewrite Eid.
Qed.

(** The entries, each once, by falling priority. *)
Lemma sorted_keys p : indexed p → priority_key <$> get_entries_sorted_by_fee_rate p = descending p.
Proof.
  intros HI. unfold get_entries_sorted_by_fee_rate.
  assert (HK : ∀ k, k ∈ descending p → k ∈ priority_index p).
  { intros k. unfold descending. by rewrite elem_of_reverse, elem_of_ascending. }
  induction (descending p) as [|k ks IH]; [done|]. cbn.
  destruct (key_entry p k HI) as (e & -> & Ek); [apply HK; by left|]. cbn [fmap list_fmap].
  rewrite Ek. f_equal. apply IH. intros k' Hk'. apply HK. by right.
Qed.

Lemma elem_of_sorted p e :
  indexed p → e ∈ get_entries_sorted_by_fee_rate p ↔ entries p !! e_txid e = Some e.
Proof.
  intros HI. unfold get_entries_sorted_by_fee_rate. rewrite list_elem_of_omap. split.
  - intros (k & Hk & He). destruct (ix_entry _ HI _ _ He) as [-> _]. done.
  - intros He. exists (priority_key e). split; [|done].
    unfold descending. rewrite elem_of_reverse, elem_of_ascending. apply (ix_index _ HI). by exists (e_txid e), e.
Qed.

Lemma sorted_NoDup p : indexed p → NoDup (get_entries_sorted_by_fee_rate p).
Proof.
  intros HI. apply (NoDup_fmap_1 priority_key). rewrite sorted_keys by done.
  unfold descending. rewrite reverse_Permutation. apply ascending_NoDup.
Qed.

Lemma StronglySorted_flip {A} (R : relation A) l : StronglySorted R l → StronglySorted (flip R) (reverse l).
Proof.
  induction 1 as [|x l Hl IH Hx]; [constructor|]. rewrite reverse_cons.
  apply StronglySorted_app_2; [|done|repeat constructor].
  intros a b Ha ->%list_elem_of_singleton.
  unfold flip. rewrite !elem_of_reverse in Ha. rewrite Forall_forall in Hx. by apply Hx.
Qed.

Lemma sorted_order p : indexed p → StronglySorted before (get_entries_sorted_by_fee_rate p).
Proof.
  intros HI. assert (HS : StronglySorted (flip key_le) (priority_key <$> get_entries_sorted_by_fee_rate p)).
  { rewrite sorted_keys by done. unfold descending. apply StronglySorted_flip, ascending_sorted. }
  induction (get_entries_sorted_by_fee_rate p) as [|e l IH]; [constructor|].
  cbn [fmap list_fmap] in HS. apply StronglySorted_inv in HS as [HS HF]. constructor; [by apply IH|].
  exact (proj1 (Forall_fmap _ _ _) HF).
Qed.
End sorted.

(** ** Selection *)

(** [es] is what a pass over [l] picks within [max] bytes: each entry after its
    parents, and none left out that would have had its place. *)
Record picks (p : Mempool) (max : N) (l es : list MempoolEntry) : Prop := {
  pk_sub : sublist es l;
  pk_size : total_size es ≤ max;
  pk_parents pre e post : es = pre ++ e :: post →
    ∀ par, is_parent p (e_txid e) par → par ∈ e_txid <$> pre;
  pk_maximal pre e post : l = pre ++ e :: post → e ∉ es →
    (∃ par, is_parent p (e_txid e) par ∧ par ∉ e_txid <$> filter (.∈ es) pre) ∨
    max < total_size (filter (.∈ es) pre) + e_size_bytes e
}.

Section selection.
Context (p : Mempool) (max : N).

Definition select_entry (sel : Selection) (e : MempoolEntry) : Selection :=
  select_step p max sel (priority_key e).

(** The selection state after picking [es]. *)
Definition picked (es : list MempoolEntry) (sel : Selection) : Prop :=
  selected_txs sel = e_transaction <$> es ∧ total_fees sel = N.min (total_fee es) U64_MAX ∧
  current_bytes sel = total_size es ∧ ∀ id, id ∈ included_txids sel ↔ id ∈ e_txid <$> es.

(** One entry: taken when its parents are in and it fits. *)
Lemma select_entry_spec es sel e :
  max < U64_MAX → picked es sel → entries p !! e_txid e = Some e →
  (∀ par, is_parent p (e_txid e) par → par ∈ e_txid <$> es) ∧ total_size es + e_size_bytes e ≤ max ∧
    picked (es ++ [e]) (select_entry sel e) ∨
  ((∃ par, is_parent p (e_txid e) par ∧ par ∉ e_txid <$> es) ∨ max < total_size es + e_size_bytes e) ∧
    select_entry sel e = sel.
Proof.
  intros HM (H1 & H2 & H3 & H4) He. unfold select_entry, select_step. cbn [priority_key k_txid]. rewrite He.
  assert (HR : match child_to_parents p !! e_txid e with
               | Some parents => bool_decide (parents ⊆ included_txids sel)
               | None => true
               end = bool_decide (default ∅ (child_to_parents p !! e_txid e) ⊆ included_txids sel)).
  { destruct (child_to_parents p !! e_txid e); [done|]. symmetry. apply bool_decide_eq_true_2. set_solver. }
  rewrite HR. clear HR. case_bool_decide as HP; cbn [negb].
  - rewrite H3. unfold saturating_add.
    destruct (N.leb_spec (N.min (total_size es + e_size_bytes e) U64_MAX) max) as [Hle|Hgt].
    + left. split; [intros par Hpar; by apply H4, HP|]. split; [lia|].
      split; [by rewrite fmap_app; cbn; rewrite H1|]. cbn [total_fees current_bytes included_txids].
      split; [rewrite H2, total_fee_snoc; lia|]. split; [rewrite total_size_snoc; lia|].
      intros id. rewrite elem_of_union, elem_of_singleton, H4, fmap_app, elem_of_app. cbn.
      rewrite list_elem_of_singleton. naive_solver.
    + right. split; [right; lia|done].
  - right. split; [left|done]. apply dec_stable. intros HN. apply HP. intros par Hpar. apply H4.
    apply dec_stable. intros Hn. apply HN. by exists par.
Qed.

Lemma filter_ext_in (P Q : MempoolEntry → Prop) `{∀ x, Decision (P x), ∀ x, Decision (Q x)} (l : list MempoolEntry) :
  (∀ x, x ∈ l → P x ↔ Q x) → filter P l = filter Q l.
Proof.
  induction l as [|x l IH]; intros H'; [done|]. rewrite !filter_cons, IH by (intros; apply H'; by right).
  specialize (H' x ltac:(by left)). destruct (decide (P x)), (decide (Q x)); tauto.
Qed.

Lemma filter_sublist (es l : list MempoolEntry) : NoDup l → sublist es l → filter (.∈ es) l = es.
Proof.
  intros HN HS. revert HN. induction HS as [|x es l HS IH|x es l HS IH]; [done|..];
    intros [Hx HN]%NoDup_cons; rewrite filter_cons.
  - rewrite decide_True by by left. f_equal. transitivity (filter (.∈ es) l); [|by apply IH].
    apply filter_ext_in. intros y Hy. rewrite elem_of_cons. split; [|by right]. by intros [->|?].
  - rewrite decide_False; [by apply IH|]. intros Hin. apply Hx. by eapply elem_of_sublist.
Qed.

Lemma picks_snoc_in l es e :
  NoDup (l ++ [e]) → picks p max l es → (∀ par, is_parent p (e_txid e) par → par ∈ e_txid <$> es) →
  total_size es + e_size_bytes e ≤ max → picks p max (l ++ [e]) (es ++ [e]).
Proof.
  intros HN [H1 H2 H3 H4] HP HB. assert (Hel : e ∉ l).
  { apply NoDup_app in HN as (_ & HN & _). intros H. by apply (HN e H), list_elem_of_singleton. }
  split.
  - by apply sublist_app.
  - by rewrite total_size_snoc.
  - intros pre x post E. destruct post as [|y post _] using rev_ind.
    + apply app_inj_tail in E as [-> ->]. done.
    + rewrite app_comm_cons, app_assoc in E. apply app_inj_tail in E as [-> _]. by eapply H3.
  - intros pre x post E Hx. destruct post as [|y post _] using rev_ind.
    + apply app_inj_tail in E as [-> ->]. destruct Hx. set_solver.
    + rewrite app_comm_cons, app_assoc in E. apply app_inj_tail in E as [-> _].
      assert (EF : filter (.∈ es ++ [e]) pre = filter (.∈ es) pre).
      { apply filter_ext_in. intros z Hz. rewrite elem_of_app, list_elem_of_singleton.
        split; [|by left]. intros [?| ->]; [done|]. destruct Hel. set_solver. }
      rewrite EF. eapply H4; [done|]. set_solver.
Qed.

Lemma picks_snoc_out l es e :
  NoDup (l ++ [e]) → picks p max l es →
  (∃ par, is_parent p (e_txid e) par ∧ par ∉ e_txid <$> es) ∨ max < total_size es + e_size_bytes e →
  picks p max (l ++ [e]) es.
Proof.
  intros HN [H1 H2 H3 H4] HE.
  split; [by apply sublist_inserts_r|done..|].
  intros pre x post E Hx. destruct post as [|y post _] using rev_ind.
  - apply app_inj_tail in E as [-> ->]. enough (filter (.∈ es) pre = es) as -> by done.
    apply NoDup_app in HN as (HN & _). by apply filter_sublist.
  - rewrite app_comm_cons, app_assoc in E. apply app_inj_tail in E as [-> _]. by eapply H4.
Qed.

Lemma picks_nil : picks p max [] [].
Proof.
  split; [constructor|cbn; lia|..]; intros pre e post E; by destruct pre.
Qed.

(** The whole pass. *)
Lemma selection_fold l :
  max < U64_MAX → NoDup l → (∀ e, e ∈ l → entries p !! e_txid e = Some e) →
  ∃ es, picks p max l es ∧ picked es (foldl select_entry (mkSelection [] 0 0 ∅) l).
Proof.
  intros HM. induction l as [|e l IH] using rev_ind; intros HN HE.
  { exists []. split; [apply picks_nil|]. split; [done|]. split; [done|]. split; [done|].
    intros id. split; [by intros ?%elem_of_empty|by intros ?%elem_of_nil]. }
  destruct IH as (es & Hpk & Hst); [by apply NoDup_app in HN as [? _]| |].
  { intros x Hx. apply HE, elem_of_app. by left. }
  rewrite foldl_app. cbn [foldl].
  destruct (select_entry_spec es _ e HM Hst) as [(HP & HB & Hst')|(HO & ->)].
  - apply HE, elem_of_app. right. by apply list_elem_of_singleton.
  - exists (es ++ [e]). split; [by apply picks_snoc_in|done].
  - exists es. split; [by apply picks_snoc_out|done].
Qed.
End selection.

Lemma select_transactions_cases {B3 : Blake3} p max :
  max < U64_MAX → indexed p →
  ∃ es, picks p max (get_entries_sorted_by_fee_rate p) es ∧
    select_transactions_for_block p max = (e_transaction <$> es, N.min (total_fee es) U64_MAX).
Proof.
  intros HM HI.
  destruct (selection_fold p max (get_entries_sorted_by_fee_rate p) HM) as (es & Hpk & (H1 & H2 & _)).
  - by apply sorted_NoDup.
  - intros e. by apply elem_of_sorted.
  - exists es. split; [done|]. unfold select_transactions_for_block.
    rewrite <- (sorted_keys p HI), foldl_fmap. unfold select_entry in H1, H2. by rewrite H1, H2.
Qed.
