(* ===== verification/MempoolTheorems.v ===== *)
(** * The mempool: theorems

    The pools that admission, removal, block and reorganization events reach
    from an empty one, what holds of them, and what each event does. The
    unchecked [Mempool::insert] is not among the events: it trusts its caller. *)

From S2P Require Import Prelude Bytes Primitives Types Codec Transaction Utxo Authorization Script.
From S2P Require Import Mempool MempoolInv MempoolSpec MempoolSelect.
Local Open Scope N_scope.
Local Open Scope scy_scope.

(** ** Reachable pools *)

Section reachable.
Context {B3 : Blake3}.

(** A verifier whose calls return. *)
Definition total_verifier (V : AuthorizationVerifier) : Prop := ∀ d l a, returns (V d l a).

Inductive pool_event : Mempool → Mempool → Prop :=
| event_admit (V : AuthorizationVerifier) tx utxos now p q r :
    total_verifier V → pool_tx tx → admit_transaction tx utxos now p = (q, r) → pool_event p q
| event_remove id p q r : remove_transaction_and_descendants id p = (q, r) → pool_event p q
| event_block b utxos p q r :
    Forall pool_tx (transactions b) → on_block_connected b utxos p = (q, r) → pool_event p q
| event_reorg (V : AuthorizationVerifier) txs utxos now p q r :
    total_verifier V → Forall pool_tx txs → on_reorg txs utxos now p = (q, r) → pool_event p q.

Definition reachable (count bytes fee : N) (p : Mempool) : Prop :=
  bytes < U64_MAX ∧ rtc pool_event (with_config count bytes fee) p.

(** Limits hold, except that a single entry may exceed them; all pay the floor. *)
Record bounded (p : Mempool) : Prop := {
  bd_capacity : pool_len p ≤ max_count p ∧ total_bytes p ≤ max_bytes p ∨ (size (entries p) ≤ 1)%nat;
  bd_fee id e : entries p !! id = Some e → min_fee_rate p ≤ e_fee_rate e
}.

Lemma pool_bytes_subseteq es es' : es ⊆ es' → pool_bytes es ≤ pool_bytes es'.
Proof.
  revert es'. induction es as [|id e es Hid IH] using map_ind; intros es' Hsub.
  { change (pool_bytes ∅) with 0. lia. }
  assert (He : es' !! id = Some e) by (eapply lookup_weaken; [apply lookup_insert_eq|done]).
  rewrite pool_bytes_insert, (pool_bytes_delete es' id e) by done.
  enough (pool_bytes es ≤ pool_bytes (delete id es')) by lia. apply IH.
  apply map_subseteq_spec. intros x ex Hx. destruct (decide (x = id)) as [->|]; [congruence|].
  rewrite lookup_delete_ne by done. eapply lookup_weaken; [|exact Hsub]. by rewrite lookup_insert_ne.
Qed.

Lemma bounded_subset p q :
  indexed p → indexed q → same_config p q → entries q ⊆ entries p → bounded p → bounded q.
Proof.
  intros HP HQ (C1 & C2 & C3) Hsub [HC HF]. split.
  - pose proof (map_subseteq_size _ _ Hsub). pose proof (pool_bytes_subseteq _ _ Hsub).
    unfold pool_len in *. rewrite (ix_bytes _ HP) in HC. rewrite (ix_bytes _ HQ), <- C1, <- C2. lia.
  - intros id e He. rewrite <- C3. eapply HF, lookup_weaken; done.
Qed.

Lemma admission_bounded {AV : AuthorizationVerifier} tx utxos now p q r :
  pool_ok p → pool_ok q → same_config p q → admission tx utxos now p q r → bounded p → bounded q.
Proof.
  intros HP HQ HC HA HB. destruct HA as [err| |e parents q Hev Hcut _ Hcap]; [done|..].
  - eapply bounded_subset; [apply HP|apply HQ|done|by eapply ev_sub|done].
  - split; [destruct Hcap as [?|Hs]; [by left|right; lia]|].
    intros id e' He'. cbn [add_entry entries] in He'. apply lookup_insert_Some in He' as [[_ <-]|[_ He]].
    + destruct HC as (_ & _ & <-). by eapply ev_fee.
    + destruct HC as (_ & _ & <-). eapply (bd_fee _ HB), lookup_weaken; [done|by eapply ev_sub].
Qed.

Definition sound (p : Mempool) : Prop := pool_ok p ∧ bounded p ∧ max_bytes p < U64_MAX.

Lemma empty_sound count bytes fee : bytes < U64_MAX → sound (with_config count bytes fee).
Proof.
  intros HM. split; [split; split|split; [split|done]]; cbn.
  - intros id e. by rewrite lookup_empty.
  - intros k. split; [by intros ?%elem_of_empty|]. intros (id & e & He & _). by rewrite lookup_empty in He.
  - intros o id. rewrite lookup_empty. split; [done|]. intros (e & He & _). by rewrite lookup_empty in He.
  - done.
  - intros ch [? Hc]. by rewrite lookup_empty in Hc.
  - intros par ch. unfold child, children_of, is_parent. cbn. rewrite !lookup_empty. cbn. set_solver.
  - left. unfold pool_len. cbn. rewrite map_size_empty. lia.
  - intros id e. by rewrite lookup_empty.
Qed.

Lemma sound_config p q : sound p → pool_ok q → same_config p q → bounded q → sound q.
Proof. intros (_ & _ & HM) Hq (_ & E & _) Hb. split; [done|]. split; [done|]. by rewrite <- E. Qed.

(** Removing entries, without any other change, keeps a pool sound. *)
Lemma sound_subset p q : sound p → pool_ok q → same_config p q → entries q ⊆ entries p → sound q.
Proof.
  intros Hs Hq HC Hsub. eapply sound_config; [done..|]. destruct Hs as (Hp & HB & _).
  eapply bounded_subset; [apply Hp|apply Hq|done..].
Qed.

Lemma event_sound p q : pool_event p q → sound p → sound q ∧ same_config p q.
Proof.
  intros [V tx utxos now p' q' r HV Htx E|id p' q' r E|b utxos p' q' r HF E|V txs utxos now p' q' r HV HF E] Hs;
    pose proof Hs as (Hp & HB & HM).
  - destruct (admit_transaction_cases tx utxos now p' HV Htx HM Hp) as (q1 & r1 & E1 & Hq & HC & HA).
    rewrite E in E1. injection E1 as <- <-. split; [|done]. apply (sound_config p'); [done..|].
    by apply (admission_bounded (AV := V) tx utxos now p' _ r).
  - destruct (remove_descendants_spec p' id Hp) as (l & q1 & E1 & Hq & HC & _ & Hen & _).
    rewrite E in E1. injection E1 as <- _. split; [|done]. apply (sound_subset p'); [done..|].
    apply map_subseteq_spec. intros x ex Hx. rewrite Hen in Hx. by case_bool_decide.
  - destruct (on_block_connected_cases b utxos p' HF Hp) as (ids & q1 & E1 & _ & Hq & HC & _ & Hen).
    rewrite E in E1. injection E1 as <- _. split; [|done]. apply (sound_subset p'); [done..|].
    apply map_subseteq_spec. intros x ex [Hx _]%Hen. unfold unconfirmed in Hx.
    by apply map_lookup_filter_Some in Hx as [? _].
  - destruct (on_reorg_cases bounded txs utxos now p' HV HF HM Hp) as (q1 & rej & E1 & Hq & HC & Hb); [|done|].
    { intros tx p1 q1 r1 ? ? ? HA ?. by apply (admission_bounded (AV := V) tx utxos now p1 q1 r1). }
    rewrite E in E1. injection E1 as <- _. split; [|done]. by apply (sound_config p').
Qed.

Lemma reachable_sound count bytes fee p :
  reachable count bytes fee p → sound p ∧ same_config (with_config count bytes fee) p.
Proof.
  intros [HM HR]. apply (empty_sound count bytes fee) in HM. revert HM.
  induction HR as [|p q r H _ IH]; [done|]. intros Hs.
  destruct (event_sound _ _ H Hs) as [Hq (?&?&?)], (IH Hq) as [Hr (?&?&?)].
  split; [done|]. split; [congruence|split; congruence].
Qed.
End reachable.

(** ** Properties *)

Section mempool_properties.
Context {B3 : Blake3}.

(** C12: In every reachable pool the entries are filed under their identifiers, are
    valid and pay the minimum rate; no two of them spend the same output, the
    spend map lists exactly what they spend and the two dependency maps are
    converses; the priority index lists every entry once, by falling fee rate,
    then arrival, then falling identifier; the byte count is exact, and the
    limits hold unless a single entry is left. *)
Theorem mempool_invariant (count bytes fee : N) (p : Mempool) (H : reachable count bytes fee p) :
  (∀ id e, entries p !! id = Some e → txid (E := MempoolError) (e_transaction e) = Ok id ∧
     stateless_valid (e_transaction e) ∧ fee ≤ e_fee_rate e) ∧
  (∀ id1 id2 e1 e2 o, entries p !! id1 = Some e1 → entries p !! id2 = Some e2 →
     spends e1 o → spends e2 o → id1 = id2) ∧
  (∀ o id, spent_outpoints p !! o = Some id ↔ ∃ e, entries p !! id = Some e ∧ spends e o) ∧
  (∀ par ch, ch ∈ children_of (parent_to_children p) par ↔ par ∈ parents_of (child_to_parents p) ch) ∧
  ((∀ e, e ∈ get_entries_sorted_by_fee_rate p ↔ entries p !! e_txid e = Some e) ∧
   NoDup (get_entries_sorted_by_fee_rate p) ∧ StronglySorted before (get_entries_sorted_by_fee_rate p)) ∧
  total_bytes p = pool_bytes (entries p) ∧
  (pool_len p ≤ count ∧ total_bytes p ≤ bytes ∨ (size (entries p) ≤ 1)%nat).
Proof.
  apply reachable_sound in H as (([HI HL] & [HC HF] & HM) & (E1 & E2 & E3)). cbn in E1, E2, E3.
  rewrite E1, E2, E3. split; [|split; [|split; [|split; [|split; [|split]]]]].
  - intros id e He. destruct (ix_entry _ HI _ _ He) as (<- & Hn & Hv). split; [|split; [done|by eapply HF]].
    unfold MempoolEntry_new in Hn. apply obind_Ok in Hn as (id' & -> & Hn). injection Hn as <-. done.
  - intros id1 id2 e1 e2 o. by apply spends_unique.
  - apply HI.
  - intros par ch. apply (ln_dual _ HL).
  - split; [intros e; by apply elem_of_sorted|]. split; [by apply sorted_NoDup|by apply sorted_order].
  - apply HI.
  - done.
Qed.

(** C20: Admission returns on every reachable pool. It refuses a transaction without
    touching the pool exactly when the transaction does not pass the checks:
    stateless validity, no pending spend of its inputs, every input provided by
    the chain or a pending transaction, authorization, no value deficit, the
    package limits and the fee floor. Otherwise it evicts cheaper entries with
    their descendants until there is room and files the transaction, or stops
    at an entry that pays as much. So a transaction never replaces one that
    spends the same output, at any fee, although [CHANGELOG.md] announces that,
    and it may spend the output of a coinbase of any age. *)
Theorem mempool_admission_spec (V : AuthorizationVerifier) (count bytes fee : N) (p : Mempool)
    (tx : Transaction) (utxos : UtxoSet) (now : N)
    (H : reachable count bytes fee p) (HV : total_verifier V) (Htx : pool_tx tx) :
  ∃ q r, admit_transaction tx utxos now p = (q, r) ∧ admission tx utxos now p q r ∧
    reachable count bytes fee q ∧
    (∀ id, r = Ok id → txid (E := MempoolError) tx = Ok id ∧ ∃ e, entries q !! id = Some e ∧ e_transaction e = tx).
Proof.
  destruct (reachable_sound _ _ _ _ H) as [(Hp & _ & HM) _]. destruct H as [HB HR].
  destruct (admit_transaction_cases tx utxos now p HV Htx HM Hp) as (q & r & E & Hq & HC & HA).
  exists q, r. split; [done|]. split; [done|]. split; [split; [done|]|].
  - eapply rtc_r; [done|]. by eapply event_admit.
  - intros id ->. inversion HA as [| |e parents q' Hev Hcut Hroom Hcap E1 E2]; subst.
    destruct (MempoolEntry_new_spec (E := MempoolError) tx (e_fee e) now Htx) as (e' & He' & Ht & Hid & _).
    rewrite (ev_entry _ _ _ _ _ _ Hev) in He'. injection He' as <-. split; [done|].
    exists e. split; [|done]. cbn. apply lookup_insert_eq.
Qed.

(** C21: Connecting a block returns. What is left of the pool is exactly the entries
    that the block does not confirm, without those that spend an output which
    neither the new unspent set nor a remaining entry provides, and without the
    descendants of those. *)
Theorem mempool_block_spec (count bytes fee : N) (p : Mempool) (b : Block) (utxos : UtxoSet)
    (H : reachable count bytes fee p) (Hb : Forall pool_tx (transactions b)) :
  ∃ ids q, on_block_connected b utxos p = (q, Ok tt) ∧ confirmed_ids (drop 1 (transactions b)) ids ∧
    reachable count bytes fee q ∧
    ∀ id e, entries q !! id = Some e ↔
      unconfirmed p ids !! id = Some e ∧
      ¬ ∃ root, orphan (unconfirmed p ids) utxos root ∧
          rtc (λ par ch, is_child p par ch ∧ ch ∉ ids) root id.
Proof.
  destruct (reachable_sound _ _ _ _ H) as [(Hp & _ & HM) _]. destruct H as [HB HR].
  destruct (on_block_connected_cases b utxos p Hb Hp) as (ids & q & E & Hids & Hq & HC & _ & Hen).
  exists ids, q. split; [done|]. split; [done|]. split; [|done]. split; [done|].
  eapply rtc_r; [done|]. by eapply event_block.
Qed.

(** C22: A block template is a selection of the pool in priority order: it fits, its
    fee is the total fee, every selected entry comes after all its recorded
    parents, and an entry is left out only if a parent of it was not selected
    before it or it does not fit beside what was. *)
Theorem mempool_selection_spec (count bytes fee : N) (p : Mempool) (max : N)
    (H : reachable count bytes fee p) (Hmax : max < U64_MAX) :
  ∃ es, picks p max (get_entries_sorted_by_fee_rate p) es ∧
    select_transactions_for_block p max = (e_transaction <$> es, N.min (total_fee es) U64_MAX).
Proof.
  destruct (reachable_sound _ _ _ _ H) as [([HI _] & _) _]. by apply select_transactions_cases.
Qed.

Lemma selected_parent_present p max e par :
  indexed p → max < U64_MAX → entries p !! e_txid e = Some e → is_parent p (e_txid e) par →
  e_transaction e ∈ (select_transactions_for_block p max).1 → is_Some (entries p !! par).
Proof.
  intros HI HM He Hpar Hin. destruct (select_transactions_cases p max HM HI) as (es & Hpk & Es).
  rewrite Es in Hin. cbn [fst] in Hin.
  apply list_elem_of_fmap in Hin as (e' & Et & He'%list_elem_of_In%in_split).
  destruct He' as (pre & post & E).
  assert (HS : ∀ x, x ∈ es → entries p !! e_txid x = Some x).
  { intros x Hx. apply elem_of_sorted; [done|]. eapply elem_of_sublist; [done|]. by eapply pk_sub. }
  assert (Hx : entries p !! e_txid e' = Some e') by (apply HS; rewrite E; apply elem_of_app; right; by left).
  assert (Hid : e_txid e' = e_txid e).
  { destruct (ix_entry _ HI _ _ He) as (_ & Hn & _), (ix_entry _ HI _ _ Hx) as (_ & Hn' & _).
    rewrite Et in Hn. unfold MempoolEntry_new in Hn, Hn'.
    apply obind_Ok in Hn as (i & Hi & Hn), Hn' as (i' & Hi' & Hn'). injection Hn as <-. injection Hn' as <-.
    cbn. congruence. }
  rewrite <- Hid in Hpar. eapply pk_parents in Hpar; [|done|done].
  apply list_elem_of_fmap in Hpar as (pe & -> & Hpe). exists pe. apply HS. rewrite E. apply elem_of_app. by left.
Qed.

(** A pending transaction whose recorded parent is confirmed by a block stays
    in the pool with that parent still recorded, and no block template made
    from the resulting pool contains it, however much room there is. *)
Theorem mempool_confirmed_parent (count bytes fee : N) (p : Mempool) (b : Block) (utxos : UtxoSet)
    (tx : Transaction) (par ch : Hash) (e : MempoolEntry)
    (H : reachable count bytes fee p) (Hb : Forall pool_tx (transactions b))
    (Htx : tx ∈ drop 1 (transactions b)) (Hid : txid (E := MempoolError) tx = Ok par)
    (Hpar : is_parent p ch par) (q := (on_block_connected b utxos p).1) (Hq : entries q !! ch = Some e) :
  is_parent q ch par ∧ entries q !! par = None ∧
  ∀ max, max < U64_MAX → e_transaction e ∉ (select_transactions_for_block q max).1.
Proof.
  destruct (reachable_sound _ _ _ _ H) as [(Hp & _ & HM) _].
  destruct (on_block_connected_cases b utxos p Hb Hp) as (ids & q' & E & Hids & [HI _] & HC & Hcp & Hen).
  subst q. rewrite E in *. cbn [fst] in *.
  assert (HP : is_parent q' ch par) by (unfold is_parent; rewrite Hcp; [done|by eexists]).
  assert (HN : entries q' !! par = None).
  { destruct (entries q' !! par) as [pe|] eqn:Epe; [|done]. apply Hen in Epe as [Hf _].
    unfold unconfirmed in Hf. apply map_lookup_filter_Some in Hf as [_ Hn]. destruct Hn. cbn [fst].
    apply list_elem_of_lookup_1 in Htx as [i Hi].
    destruct (Forall2_lookup_l _ _ _ _ _ Hids Hi) as (id & Hi' & E').
    rewrite Hid in E'. injection E' as <-. by eapply list_elem_of_lookup_2. }
  split; [done|]. split; [done|]. intros max Hmax Hin.
  destruct (ix_entry _ HI _ _ Hq) as [Eid _]. rewrite <- Eid in Hq, HP.
  destruct (selected_parent_present q' max e par HI Hmax Hq HP Hin) as [pe Hpe]. congruence.
Qed.
End mempool_properties.

(** ** Witnesses *)

(** Accepts everything. *)
Definition toy_verifier : AuthorizationVerifier := λ _ _ _, Ok tt.

Definition chain_utxos : UtxoSet := {[ mkOutPoint ZERO 1 := mkUtxoEntry (mkTxOut 10000 [x51]) 0 false ]}.
Definition parent_tx : Transaction :=
  mkTransaction 1 [mkTxIn (mkOutPoint ZERO 1) [x51] 0] [mkTxOut 9000 [x51]] 0.
Definition child_tx : Transaction :=
  mkTransaction 1 [mkTxIn (mkOutPoint (toy_txid parent_tx) 0) [x51] 0] [mkTxOut 8000 [x51]] 0.

Definition toy_admit (tx : Transaction) (now : N) (p : Mempool) : Mempool :=
  (admit_transaction (B3 := toy_blake3) (AV := toy_verifier) tx chain_utxos now p).1.
(** A pool with a transaction and a child of it. *)
Definition toy_pool : Mempool := toy_admit child_tx 8 (toy_admit parent_tx 7 (with_config 10 100000 1000)).

Lemma toy_verifier_total : total_verifier toy_verifier.
Proof. done. Qed.

Lemma toy_pool_txs : Forall pool_tx [toy_coinbase; parent_tx; child_tx].
Proof.
  repeat apply Forall_cons_2; [..|constructor];
    (split; [split; repeat constructor; vm_compute; discriminate|split; vm_compute; discriminate]).
Qed.

Lemma toy_admit_event tx now p : pool_tx tx → pool_event (B3 := toy_blake3) p (toy_admit tx now p).
Proof.
  intros Htx. eapply (event_admit (B3 := toy_blake3) toy_verifier tx chain_utxos now); [done|done|].
  apply surjective_pairing.
Qed.

Lemma toy_pool_reachable : reachable (B3 := toy_blake3) 10 100000 1000 toy_pool.
Proof.
  pose proof toy_pool_txs as HF. rewrite !Forall_cons in HF. destruct HF as (_ & H1 & H2 & _).
  split; [lia|]. eapply rtc_l; [exact (toy_admit_event parent_tx 7 _ H1)|].
  exact (rtc_once _ _ (toy_admit_event child_tx 8 _ H2)).
Qed.

(** A block that confirms the parent alone, and the unspent set after it. *)
Definition parent_block : Block := mkBlock (header sample_block) [toy_coinbase; parent_tx].
Definition updated_utxos : UtxoSet :=
  {[ mkOutPoint (toy_txid parent_tx) 0 := mkUtxoEntry (mkTxOut 9000 [x51]) 1 false ]}.

Lemma parent_block_txs : Forall pool_tx (transactions parent_block).
Proof. pose proof toy_pool_txs as HF. rewrite !Forall_cons in *. naive_solver. Qed.

Lemma mempool_invariant_witness :
  pool_len toy_pool = 2 ∧ total_bytes toy_pool = pool_bytes (entries toy_pool).
Proof.
  destruct (mempool_invariant (B3 := toy_blake3) 10 100000 1000 _ toy_pool_reachable) as (_ & _ & _ & _ & _ & E & _).
  split; [vm_compute; reflexivity|exact E].
Defined.

(** The parent again, which the pool has. *)
Lemma mempool_admission_spec_witness :
  ∃ q r, admit_transaction (B3 := toy_blake3) (AV := toy_verifier) parent_tx chain_utxos 9 toy_pool = (q, r) ∧
    admission (B3 := toy_blake3) (AV := toy_verifier) parent_tx chain_utxos 9 toy_pool q r.
Proof.
  destruct (mempool_admission_spec (B3 := toy_blake3) toy_verifier 10 100000 1000 toy_pool parent_tx chain_utxos 9
    toy_pool_reachable toy_verifier_total) as (q & r & E & HA & _).
  - pose proof toy_pool_txs as HF. rewrite !Forall_cons in HF. apply HF.
  - exists q, r. split; [exact E|exact HA].
Defined.

Lemma mempool_block_spec_witness :
  ∃ q, on_block_connected (B3 := toy_blake3) parent_block updated_utxos toy_pool = (q, Ok tt) ∧
    is_Some (entries (on_block_connected (B3 := toy_blake3) parent_block updated_utxos toy_pool).1 !! toy_txid child_tx).
Proof.
  destruct (mempool_block_spec (B3 := toy_blake3) 10 100000 1000 toy_pool parent_block updated_utxos
    toy_pool_reachable parent_block_txs) as (ids & q & E & _).
  exists q. split; [exact E|]. vm_compute. eexists. reflexivity.
Defined.

Lemma mempool_selection_spec_witness :
  select_transactions_for_block toy_pool 1000 = ([parent_tx; child_tx], 2000) ∧
  ∃ es, picks toy_pool 1000 (get_entries_sorted_by_fee_rate toy_pool) es ∧ e_transaction <$> es = [parent_tx; child_tx].
Proof.
  assert (E : select_transactions_for_block toy_pool 1000 = ([parent_tx; child_tx], 2000)) by (vm_compute; reflexivity).
  split; [exact E|]. destruct (mempool_selection_spec (B3 := toy_blake3) 10 100000 1000 toy_pool 1000
    toy_pool_reachable eq_refl) as (es & Hp & Es).
  exists es. split; [exact Hp|]. rewrite E in Es. by injection Es as <- _.
Defined.

Lemma mempool_confirmed_parent_witness :
  let q := (on_block_connected (B3 := toy_blake3) parent_block updated_utxos toy_pool).1 in
  pool_contains q (toy_txid child_tx) = true ∧
  child_tx ∉ (select_transactions_for_block q 1000000).1.
Proof.
  cbv zeta. split; [vm_compute; reflexivity|].
  set (e := mkMempoolEntry child_tx (toy_txid child_tx) 1000 (1000000 / 78) 78 8).
  apply (mempool_confirmed_parent (B3 := toy_blake3) 10 100000 1000 toy_pool parent_block updated_utxos
    parent_tx (toy_txid parent_tx) (toy_txid child_tx) e toy_pool_reachable parent_block_txs).
  - vm_compute. left.
  - vm_compute. reflexivity.
  - unfold is_parent. by apply (bool_decide_eq_true_1 _).
  - vm_compute. reflexivity.
  - reflexivity.
Defined.
