(* ===== verification/Vm.v ===== *)
(** * The contract virtual machine

    [crates/scytale-sdk/src/lib.rs] and [crates/scytale-vm/src/lib.rs]: the
    interface between the host and a validator. The WebAssembly interpreter
    [wasmi] is the parameter [Wasmi], the [bincode] encoding of a payload type
    the parameter [Payload]; the host functions, the memory layout and the
    limits are modelled. An [i32] is a [Z], linear memory a list of bytes. *)

From S2P Require Import Prelude Bytes Primitives Stack.
Local Open Scope N_scope.
Local Open Scope scy_scope.

(** ** The validator interface *)

Record TxContext := mkTxContext {
  tx_hash : Hash;
  block_time : N;
  input_amount : N;
  fee_burned : N;
  input_datums : list (list byte);
  output_datums : list (list byte);
  ledger_state : list (list byte)
}.

(** [bincode::serialize] and [bincode::deserialize] at a payload type. *)
Class Payload (A : Type) := {
  encode_payload : A → option (list byte);
  decode_payload : list byte → option A
}.

Definition VALIDATION_SUCCESS : Z := 1.
Definition VALIDATION_REJECT : Z := 0.

(** Bytes of linear memory; reading past its end traps. *)
Definition mem_read (memory : list byte) (offset len : nat) : option (list byte) :=
  if (offset + len <=? length memory)%nat then Some (take len (drop offset memory)) else None.
Definition mem_write (memory : list byte) (offset : nat) (bytes : list byte) : option (list byte) :=
  if (offset + length bytes <=? length memory)%nat
  then Some (take offset memory ++ bytes ++ drop (offset + length bytes) memory) else None.

(** [parse_raw_slice] and [parse_i32_slice]; [Panic] is the trap on a slice
    outside of memory. *)
Definition parse_raw_slice {E} (memory : list byte) (ptr len : nat) : outcome E (option (list byte)) :=
  if (ptr =? 0)%nat then Ok (if (len =? 0)%nat then Some [] else None)
  else let? s := expect (mem_read memory ptr len) in Ok (Some s).
Definition parse_i32_slice {E} (memory : list byte) (ptr len : Z) : outcome E (option (list byte)) :=
  if ((ptr <? 0) || (len <? 0))%Z then Ok None
  else parse_raw_slice memory (Z.to_nat ptr) (Z.to_nat len).

Definition verify_ed25519 `{Ed25519} (public_key signature message : list byte) : bool :=
  match vk_from_bytes public_key with
  | Some vk => verify_strict vk message signature
  | None => false
  end.

(** ** The machine *)

Definition MAX_WASM_MEMORY_PAGES : N := 256.
Definition WASM_PAGE_SIZE : N := 65536.
Definition MAX_WASM_MEMORY_BYTES : N := MAX_WASM_MEMORY_PAGES * WASM_PAGE_SIZE.
Definition MAX_WASM_FUEL : N := 10000000.
Definition I32_MAX : N := 2147483647.

Inductive VmError :=
| CompilationFailed
| InstantiationFailed
| ExecutionTrapped
| MemoryAccessViolation
| OutOfGas
| OutOfFuel
| MemoryLimitExceeded (pages max_pages : N).

Record ExecutionResult := mkExecutionResult { is_valid : bool; gas_consumed : N }.

(** The parts of [wasmi] the machine uses: modules, a store with its fuel and
    instance, the exported memory, the exported validator. A trap says whether
    its message mentions fuel. *)
Class Wasmi := {
  wasm_module : Type;
  wasm_store : Type;
  module_new : list byte → option wasm_module;
  store_with_fuel : N → option wasm_store;
  instantiate : wasm_store → wasm_module → option wasm_store;
  get_memory : wasm_store → option (list byte);
  set_memory : wasm_store → list byte → wasm_store;
  has_validate : wasm_store → bool;
  call_validate : wasm_store → list Z → wasm_store * (Z + bool);
  fuel_consumed : wasm_store → option N;
  consume_fuel : N → N → option N
}.

Definition memory_pages (memory : list byte) : N := N.of_nat (length memory) / WASM_PAGE_SIZE.

Section host.
Context {WM : Wasmi} {B3 : Blake3} {ED : Ed25519}.

(** What a host function sees of its caller: remaining fuel, exported memory. *)
Record Caller := mkCaller { c_fuel : N; c_memory : option (list byte) }.

(** [scytale_crypto_ed25519_verify]. *)
Definition host_ed25519_verify (pk_ptr pk_len sig_ptr sig_len msg_ptr msg_len : Z) (caller : Caller) :
    Caller * Z :=
  match consume_fuel (c_fuel caller) 200 with
  | None => (caller, 0%Z)
  | Some fuel =>
      let caller := mkCaller fuel (c_memory caller) in
      if (negb (pk_len =? 32) || negb (sig_len =? 64) || (pk_ptr <? 0) || (sig_ptr <? 0) ||
          (msg_ptr <? 0) || (msg_len <? 0))%Z then (caller, 0%Z)
      else
        let result :=
          memory ← c_memory caller;
          pk_bytes ← mem_read memory (Z.to_nat pk_ptr) 32;
          sig_bytes ← mem_read memory (Z.to_nat sig_ptr) 64;
          msg_bytes ← mem_read memory (Z.to_nat msg_ptr) (Z.to_nat msg_len);
          verifying_key ← vk_from_bytes pk_bytes;
          Some (verify_strict verifying_key msg_bytes sig_bytes) in
        (caller, match result with Some true => 1%Z | _ => 0%Z end)
  end.

(** [scytale_crypto_blake3]. *)
Definition host_blake3 (data_ptr data_len out_ptr : Z) (caller : Caller) : Caller :=
  if ((data_ptr <? 0) || (data_len <? 0) || (out_ptr <? 0))%Z then caller
  else
    match consume_fuel (c_fuel caller) (saturating_add 15 (Z.to_N data_len / 64)) with
    | None => caller
    | Some fuel =>
        let result :=
          memory ← c_memory caller;
          data ← mem_read memory (Z.to_nat data_ptr) (Z.to_nat data_len);
          mem_write memory (Z.to_nat out_ptr) (hash_bytes (blake3 data)) in
        mkCaller fuel (match result with Some memory => Some memory | None => c_memory caller end)
    end.
End host.

Section execution.
Context {WM : Wasmi} {PC : Payload TxContext}.

Definition write_memory (store : wasm_store) (offset : nat) (bytes : list byte) : outcome VmError wasm_store :=
  let? memory := ok_or (get_memory store) MemoryAccessViolation in
  let? memory := ok_or (mem_write memory offset bytes) MemoryAccessViolation in
  Ok (set_memory store memory).

Definition check_pages (store : wasm_store) : outcome VmError unit :=
  let pages := from_option memory_pages 0 (get_memory store) in
  if MAX_WASM_MEMORY_PAGES <? pages then Err (MemoryLimitExceeded pages MAX_WASM_MEMORY_PAGES)
  else Ok tt.

Definition datum_offset : nat := 1024.

(** [ScyVM::execute_validator]. The offsets fit [usize]. *)
Definition execute_validator (wasm_bytecode datum redeemer : list byte) (context : TxContext)
    (gas_limit : N) : outcome VmError ExecutionResult :=
  let? module := ok_or (module_new wasm_bytecode) CompilationFailed in
  let fuel_limit := N.min gas_limit MAX_WASM_FUEL in
  let? store := ok_or (store_with_fuel fuel_limit) OutOfGas in
  let? store := ok_or (instantiate store module) InstantiationFailed in
  let? _ := ok_or (get_memory store) MemoryAccessViolation in
  let? _ := check_pages store in
  let? ctx_bytes := ok_or (encode_payload context) MemoryAccessViolation in
  let redeemer_offset := (datum_offset + length datum)%nat in
  let ctx_offset := (redeemer_offset + length redeemer)%nat in
  if (I32_MAX <? N.of_nat (length datum)) || (I32_MAX <? N.of_nat (length redeemer)) ||
     (I32_MAX <? N.of_nat (length ctx_bytes)) || (I32_MAX <? N.of_nat ctx_offset)
  then Err MemoryAccessViolation
  else
    let? store := write_memory store datum_offset datum in
    let? store := write_memory store redeemer_offset redeemer in
    let? store := write_memory store ctx_offset ctx_bytes in
    if negb (has_validate store) then Err InstantiationFailed
    else
      let '(store, result) := call_validate store
        [Z.of_nat datum_offset; Z.of_nat (length datum);
         Z.of_nat redeemer_offset; Z.of_nat (length redeemer);
         Z.of_nat ctx_offset; Z.of_nat (length ctx_bytes)] in
      match result with
      | inr mentions_fuel => Err (if mentions_fuel then OutOfFuel else ExecutionTrapped)
      | inl result =>
          let? _ := check_pages store in
          let? gas_consumed := ok_or (fuel_consumed store) OutOfFuel in
          Ok (mkExecutionResult (result =? 1)%Z gas_consumed)
      end.
End execution.

(** ** Memory *)

Lemma mem_read_Some memory offset len bytes :
  mem_read memory offset len = Some bytes ↔
  (offset + len ≤ length memory)%nat ∧ bytes = take len (drop offset memory).
Proof.
  unfold mem_read. destruct (Nat.leb_spec (offset + len) (length memory)); [naive_solver|]. split; [done|lia].
Qed.

Lemma mem_write_Some memory offset bytes memory' :
  mem_write memory offset bytes = Some memory' →
  (offset + length bytes ≤ length memory)%nat ∧
  memory' = take offset memory ++ bytes ++ drop (offset + length bytes) memory.
Proof. unfold mem_write. destruct (Nat.leb_spec (offset + length bytes) (length memory)); naive_solver. Qed.

Lemma mem_write_length memory offset bytes memory' :
  mem_write memory offset bytes = Some memory' → length memory' = length memory.
Proof. intros [? ->]%mem_write_Some. rewrite !length_app, length_take, length_drop. lia. Qed.

(** What is written is read back; what does not overlap stays. *)
Lemma mem_read_written memory offset bytes memory' :
  mem_write memory offset bytes = Some memory' → mem_read memory' offset (length bytes) = Some bytes.
Proof.
  intros H. pose proof (mem_write_length _ _ _ _ H) as HL. apply mem_write_Some in H as [Hle ->].
  apply mem_read_Some. split; [lia|]. rewrite drop_app_length' by (rewrite length_take; lia).
  by rewrite take_app_length.
Qed.

Lemma lookup_mem_write memory offset bytes memory' i :
  mem_write memory offset bytes = Some memory' →
  (i < offset ∨ offset + length bytes ≤ i)%nat → memory' !! i = memory !! i.
Proof.
  intros [Hle ->]%mem_write_Some [Hi|Hi].
  - rewrite lookup_app_l by (rewrite length_take; lia). by apply lookup_take_lt.
  - rewrite !lookup_app_r by (rewrite ?length_take; lia). rewrite lookup_drop, length_take. f_equal. lia.
Qed.

Lemma mem_read_disjoint memory offset bytes memory' start len :
  mem_write memory offset bytes = Some memory' → (start + len ≤ offset)%nat →
  mem_read memory' start len = mem_read memory start len.
Proof.
  intros H Hd. pose proof (mem_write_length _ _ _ _ H) as HL. unfold mem_read. rewrite HL.
  destruct (Nat.leb_spec (start + len) (length memory)); [|done]. f_equal.
  apply list_eq. intros i. destruct (decide (i < len)%nat).
  - rewrite !lookup_take_lt, !lookup_drop by done. eapply lookup_mem_write; [done|lia].
  - by rewrite !lookup_take_ge by lia.
Qed.

Lemma parse_i32_slice_read {E} memory (ptr len : nat) bytes :
  mem_read memory ptr len = Some bytes → (0 < ptr)%nat →
  parse_i32_slice (E := E) memory (Z.of_nat ptr) (Z.of_nat len) = Ok (Some bytes).
Proof.
  intros H Hp. unfold parse_i32_slice, parse_raw_slice.
  destruct (Z.ltb_spec (Z.of_nat ptr) 0), (Z.ltb_spec (Z.of_nat len) 0); try lia. cbn [orb].
  rewrite !Nat2Z.id. destruct (Nat.eqb_spec ptr 0); [lia|]. by rewrite H.
Qed.

(** ** The machine and the contract it runs *)

Section contracts.
Context {WM : Wasmi} {PC : Payload TxContext}.

(** A write to an exported memory is what is read afterwards. *)
Definition memory_law : Prop := ∀ store memory memory',
  get_memory store = Some memory → length memory' = length memory →
  get_memory (set_memory store memory') = Some memory'.

(** A contract: the result of [validate] on linear memory and its arguments. *)
Definition contract : Type := list byte → list Z → outcome unit Z.

(** Modules compiled from [code] behave as the contract does: a call that
    returns a number returns the contract's. *)
Definition implements (store : wasm_store) (c : contract) : Prop := ∀ memory args result,
  get_memory store = Some memory → (call_validate store args).2 = inl result → c memory args = Ok result.
Definition runs (wasm_bytecode : list byte) (c : contract) : Prop := ∀ module store store' store'',
  module_new wasm_bytecode = Some module → instantiate store module = Some store' →
  rtc (λ s s', ∃ m, s' = set_memory s m) store' store'' → implements store'' c.

Lemma write_memory_Ok store offset bytes store' :
  memory_law → write_memory store offset bytes = Ok store' →
  ∃ memory memory', get_memory store = Some memory ∧ mem_write memory offset bytes = Some memory' ∧
    store' = set_memory store memory' ∧ get_memory store' = Some memory'.
Proof.
  intros HL (memory & HM%ok_or_Ok & (memory' & HW%ok_or_Ok & [= <-])%obind_Ok)%obind_Ok.
  exists memory, memory'. split; [done|]. split; [done|]. split; [done|].
  eapply HL; [done|]. by eapply mem_write_length.
Qed.

Lemma check_pages_Ok store memory :
  get_memory store = Some memory → check_pages store = Ok tt → memory_pages memory ≤ MAX_WASM_MEMORY_PAGES.
Proof.
  intros HM. unfold check_pages. rewrite HM. cbn [from_option].
  destruct (N.ltb_spec MAX_WASM_MEMORY_PAGES (memory_pages memory)); [done|lia].
Qed.

(** What a finished execution did. *)
Lemma execute_validator_Ok wasm datum redeemer context gas_limit res :
  memory_law → execute_validator wasm datum redeemer context gas_limit = Ok res →
  ∃ module store0 store1 store store' memory ctx_bytes result,
    module_new wasm = Some module ∧ store_with_fuel (N.min gas_limit MAX_WASM_FUEL) = Some store0 ∧
    instantiate store0 module = Some store1 ∧ rtc (λ s s', ∃ m, s' = set_memory s m) store1 store ∧
    encode_payload context = Some ctx_bytes ∧ get_memory store = Some memory ∧
    memory_pages memory ≤ MAX_WASM_MEMORY_PAGES ∧
    let redeemer_offset := (datum_offset + length datum)%nat in
    let ctx_offset := (redeemer_offset + length redeemer)%nat in
    mem_read memory datum_offset (length datum) = Some datum ∧
    mem_read memory redeemer_offset (length redeemer) = Some redeemer ∧
    mem_read memory ctx_offset (length ctx_bytes) = Some ctx_bytes ∧
    Forall (λ n, N.of_nat n ≤ I32_MAX) [length datum; length redeemer; length ctx_bytes; ctx_offset] ∧
    call_validate store [Z.of_nat datum_offset; Z.of_nat (length datum);
         Z.of_nat redeemer_offset; Z.of_nat (length redeemer);
         Z.of_nat ctx_offset; Z.of_nat (length ctx_bytes)] = (store', inl result) ∧
    is_valid res = (result =? 1)%Z ∧ fuel_consumed store' = Some (gas_consumed res).
Proof.
  intros HL H. unfold execute_validator in H.
  apply obind_Ok in H as (module & Hmod%ok_or_Ok & H). apply obind_Ok in H as (store0 & H0%ok_or_Ok & H).
  apply obind_Ok in H as (store1 & H1%ok_or_Ok & H). apply obind_Ok in H as (memory1 & HM1%ok_or_Ok & H).
  apply obind_Ok in H as ([] & Hpages & H). apply obind_Ok in H as (ctx_bytes & Hctx%ok_or_Ok & H).
  destruct (N.ltb_spec I32_MAX (N.of_nat (length datum))) as [|B1]; [done|].
  destruct (N.ltb_spec I32_MAX (N.of_nat (length redeemer))) as [|B2]; [done|].
  destruct (N.ltb_spec I32_MAX (N.of_nat (length ctx_bytes))) as [|B3]; [done|].
  destruct (N.ltb_spec I32_MAX (N.of_nat (datum_offset + length datum + length redeemer))) as [|B4]; [done|].
  cbn [orb] in H.
  apply obind_Ok in H as (s1 & W1 & H). apply obind_Ok in H as (s2 & W2 & H).
  apply obind_Ok in H as (s3 & W3 & H). destruct (negb (has_validate s3)); [done|].
  destruct (call_validate s3 _) as [store' [result|]] eqn:Hcall; [|done].
  apply obind_Ok in H as ([] & Hpages' & H). apply obind_Ok in H as (gas & Hgas%ok_or_Ok & H). injection H as <-.
  apply (write_memory_Ok _ _ _ _ HL) in W1 as (m0 & m1 & G0 & W1 & -> & G1).
  apply (write_memory_Ok _ _ _ _ HL) in W2 as (m1' & m2 & G1' & W2 & -> & G2).
  apply (write_memory_Ok _ _ _ _ HL) in W3 as (m2' & m3 & G2' & W3 & -> & G3).
  assert (m1' = m1) as -> by congruence. assert (m2' = m2) as -> by congruence.
  assert (m0 = memory1) as -> by congruence.
  eexists module, store0, store1, _, store', m3, ctx_bytes, result.
  split; [done|]. split; [done|]. split; [done|].
  split. { eapply rtc_l; [by eexists|]. eapply rtc_l; [by eexists|]. apply rtc_once. by eexists. }
  split; [done|]. split; [done|].
  split. { apply (check_pages_Ok _ _ HM1) in Hpages. unfold memory_pages in *.
           by rewrite (mem_write_length _ _ _ _ W3), (mem_write_length _ _ _ _ W2), (mem_write_length _ _ _ _ W1). }
  cbv zeta. split; [|split; [|split; [|split; [by repeat constructor|split; [exact Hcall|split; [done|done]]]]]].
  - rewrite (mem_read_disjoint _ _ _ _ _ _ W3), (mem_read_disjoint _ _ _ _ _ _ W2) by lia.
    by apply (mem_read_written _ _ _ _ W1).
  - rewrite (mem_read_disjoint _ _ _ _ _ _ W3) by lia. by apply (mem_read_written _ _ _ _ W2).
  - by apply (mem_read_written _ _ _ _ W3).
Qed.

(** The values of an [i32]. *)
Definition i32_arg (z : Z) : Prop := (-2147483648 ≤ z < 2147483648)%Z.

(** A contract that first turns its three arguments into slices. *)
Definition slices {E} (memory : list byte) (args : list Z) :
    outcome E (option (list byte * list byte * list byte)) :=
  match args with
  | [dp; dl; rp; rl; cp; cl] =>
      let? datum := parse_i32_slice memory dp dl in
      let? redeemer := parse_i32_slice memory rp rl in
      let? ctx := parse_i32_slice memory cp cl in
      Ok (d ← datum; r ← redeemer; c ← ctx; Some (d, r, c))
  | _ => Ok None
  end.

(** The machine runs contract [c] on exactly the bytes the host passes. *)
Lemma execute_validator_runs wasm (c : contract) datum redeemer context gas_limit res :
  memory_law → runs wasm c → execute_validator wasm datum redeemer context gas_limit = Ok res →
  ∃ memory args ctx_bytes result, encode_payload context = Some ctx_bytes ∧ Forall i32_arg args ∧
    slices (E := unit) memory args = Ok (Some (datum, redeemer, ctx_bytes)) ∧
    c memory args = Ok result ∧ is_valid res = (result =? 1)%Z.
Proof.
  intros HL Hruns H. apply (execute_validator_Ok _ _ _ _ _ _ HL) in H
    as (module & store0 & store1 & store & store' & memory & ctx_bytes & result & Hmod & _ & Hinst & Hrtc & Hctx & HM & _ & H).
  cbv zeta in H. destruct H as (R1 & R2 & R3 & HB & Hcall & Hv & _).
  assert (HC := Hruns _ _ _ _ Hmod Hinst Hrtc memory _ result HM (f_equal snd Hcall)).
  exists memory. eexists. exists ctx_bytes, result. split; [done|]. split; [|split; [|split; [exact HC|done]]].
  { apply Forall_cons in HB as [B1 HB]. apply Forall_cons in HB as [B2 HB].
    apply Forall_cons in HB as [B3 HB]. apply Forall_cons in HB as [B4 _].
    unfold I32_MAX, i32_arg, datum_offset in *. repeat constructor; lia. }
  unfold slices. rewrite (parse_i32_slice_read _ _ _ _ R1) by (unfold datum_offset; lia). cbn [obind].
  rewrite (parse_i32_slice_read _ _ _ _ R2) by (unfold datum_offset; lia). cbn [obind].
  by rewrite (parse_i32_slice_read _ _ _ _ R3) by (unfold datum_offset; lia).
Qed.
End contracts.

(** ** Properties *)

Section vm_properties.
Context {WM : Wasmi} {B3 : Blake3} {ED : Ed25519} {PC : Payload TxContext}.

(** The host functions are safe for every argument a contract passes: signature
    verification never writes memory and answers 1 exactly when its fuel is
    paid, key and signature have their lengths, all three slices lie in memory
    and the signature verifies, 0 otherwise; hashing changes at most the 32
    bytes at the output address, to the hash of the data, and never the size of
    the memory. *)
Theorem host_functions_spec (caller : Caller) :
  (∀ pk_ptr pk_len sig_ptr sig_len msg_ptr msg_len,
     let run := host_ed25519_verify pk_ptr pk_len sig_ptr sig_len msg_ptr msg_len caller in
     c_memory run.1 = c_memory caller ∧ (run.2 = 1%Z ∨ run.2 = 0%Z) ∧
     (run.2 = 1%Z ↔ ∃ fuel memory pk sig msg,
        consume_fuel (c_fuel caller) 200 = Some fuel ∧ pk_len = 32%Z ∧ sig_len = 64%Z ∧
        (0 ≤ pk_ptr ∧ 0 ≤ sig_ptr ∧ 0 ≤ msg_ptr ∧ 0 ≤ msg_len)%Z ∧ c_memory caller = Some memory ∧
        mem_read memory (Z.to_nat pk_ptr) 32 = Some pk ∧ mem_read memory (Z.to_nat sig_ptr) 64 = Some sig ∧
        mem_read memory (Z.to_nat msg_ptr) (Z.to_nat msg_len) = Some msg ∧ verify_ed25519 pk sig msg = true)) ∧
  (∀ data_ptr data_len out_ptr memory, c_memory caller = Some memory →
     ∃ memory', c_memory (host_blake3 data_ptr data_len out_ptr caller) = Some memory' ∧
       length memory' = length memory ∧
       (∀ i, (Z.of_nat i < out_ptr ∨ out_ptr + 32 ≤ Z.of_nat i)%Z → memory' !! i = memory !! i) ∧
       (memory' ≠ memory → ∃ data, mem_read memory (Z.to_nat data_ptr) (Z.to_nat data_len) = Some data ∧
          mem_read memory' (Z.to_nat out_ptr) 32 = Some (hash_bytes (blake3 data)))).
Proof.
  split.
  - intros pk_ptr pk_len sig_ptr sig_len msg_ptr msg_len. cbv zeta. unfold host_ed25519_verify.
    destruct (consume_fuel (c_fuel caller) 200) as [fuel|]; cbn [fst snd]; [|naive_solver].
    destruct (Z.eqb_spec pk_len 32), (Z.eqb_spec sig_len 64), (Z.ltb_spec pk_ptr 0), (Z.ltb_spec sig_ptr 0),
      (Z.ltb_spec msg_ptr 0), (Z.ltb_spec msg_len 0); cbn [negb orb fst snd c_memory];
      try (split; [done|]; split; [by right|]; split; [done|naive_solver lia]).
    split; [done|]. destruct (c_memory caller) as [memory|]; cbn [mbind option_bind]; [|naive_solver].
    destruct (mem_read memory (Z.to_nat pk_ptr) 32) as [pk|] eqn:R1; cbn [mbind option_bind]; [|naive_solver].
    destruct (mem_read memory (Z.to_nat sig_ptr) 64) as [sig|] eqn:R2; cbn [mbind option_bind]; [|naive_solver].
    destruct (mem_read memory _ (Z.to_nat msg_len)) as [msg|] eqn:R3; cbn [mbind option_bind]; [|naive_solver].
    unfold verify_ed25519.
    destruct (vk_from_bytes pk) as [vk|] eqn:Hvk; cbn [mbind option_bind].
    2:{ split; [by right|]. split; [done|]. intros (f & m & pk' & sig' & msg' & _ & _ & _ & _ & Em & E1 & _ & _ & E4).
        injection Em as <-. rewrite R1 in E1. injection E1 as <-. by rewrite Hvk in E4. }
    destruct (verify_strict vk msg sig) eqn:HV.
    + split; [by left|]. split; [|done]. intros _. exists fuel, memory, pk, sig, msg. rewrite Hvk. done.
    + split; [by right|]. split; [done|]. intros (f & m & pk' & sig' & msg' & _ & _ & _ & _ & Em & E1 & E2 & E3 & E4).
      injection Em as <-. rewrite R1 in E1. rewrite R2 in E2. rewrite R3 in E3. simplify_eq.
      rewrite Hvk in E4. congruence.
  - intros data_ptr data_len out_ptr memory HM. unfold host_blake3.
    assert (HD : ∃ memory', Some memory = Some memory' ∧ length memory' = length memory ∧
       (∀ i, (Z.of_nat i < out_ptr ∨ out_ptr + 32 ≤ Z.of_nat i)%Z → memory' !! i = memory !! i) ∧
       (memory' ≠ memory → ∃ data, mem_read memory (Z.to_nat data_ptr) (Z.to_nat data_len) = Some data ∧
          mem_read memory' (Z.to_nat out_ptr) 32 = Some (hash_bytes (blake3 data)))).
    { exists memory. naive_solver. }
    destruct (Z.ltb_spec data_ptr 0), (Z.ltb_spec data_len 0), (Z.ltb_spec out_ptr 0); cbn [orb];
      rewrite ?HM; try done.
    destruct (consume_fuel _ _) as [fuel|]; [|by rewrite HM]. cbn [c_memory mbind option_bind].
    destruct (mem_read memory (Z.to_nat data_ptr) _) as [data|] eqn:R; cbn [mbind option_bind]; [|done].
    destruct (mem_write memory (Z.to_nat out_ptr) _) as [memory'|] eqn:W; [|done].
    exists memory'. split; [done|]. split; [by eapply mem_write_length|]. split.
    + intros i Hi. eapply lookup_mem_write; [done|]. rewrite hash_length. lia.
    + intros _. exists data. split; [done|]. rewrite <- (hash_length (blake3 data)). by eapply mem_read_written.
Qed.

(** What the machine runs is the contract in the module, on the bytes the host
    passed: in the memory the validator is called on, its arguments denote
    exactly datum, redeemer and encoded context, which do not overlap; the
    verdict is the contract's result, the fuel what the caller allows capped by
    the machine's limit. *)
Theorem validator_receives_payloads (wasm datum redeemer : list byte) (context : TxContext) (gas_limit : N)
    (res : ExecutionResult) (c : contract) (Hlaw : memory_law) (Hruns : runs wasm c)
    (H : execute_validator wasm datum redeemer context gas_limit = Ok res) :
  (∃ memory args ctx_bytes result, encode_payload context = Some ctx_bytes ∧
    slices (E := unit) memory args = Ok (Some (datum, redeemer, ctx_bytes)) ∧
    c memory args = Ok result ∧ is_valid res = (result =? 1)%Z) ∧
  (∃ store0, store_with_fuel (N.min gas_limit MAX_WASM_FUEL) = Some store0).
Proof.
  split.
  - destruct (execute_validator_runs wasm c datum redeemer context gas_limit res Hlaw Hruns H)
      as (memory & args & ctx_bytes & result & ? & _ & ? & ? & ?). by exists memory, args, ctx_bytes, result.
  - apply (execute_validator_Ok _ _ _ _ _ _ Hlaw) in H as (? & store0 & ? & ? & ? & ? & ? & ? & _ & HF & _).
    by exists store0.
Qed.
End vm_properties.

(** ** Witnesses *)

(** A machine with one page of memory that runs the contract [c]. *)
Definition toy_wasmi (c : contract) : Wasmi := {|
  wasm_module := unit;
  wasm_store := list byte;
  module_new _ := Some tt;
  store_with_fuel _ := Some [];
  instantiate _ _ := Some (replicate 2048 x00);
  get_memory store := Some store;
  set_memory _ memory := memory;
  has_validate _ := true;
  call_validate store args := (store, match c store args with Ok r => inl r | _ => inr false end);
  fuel_consumed _ := Some 7;
  consume_fuel fuel delta := if delta <=? fuel then Some (fuel - delta) else None
|}.

Lemma toy_memory_law c : memory_law (WM := toy_wasmi c).
Proof. by intros store memory memory' _ _. Qed.

Lemma toy_runs c wasm : runs (WM := toy_wasmi c) wasm c.
Proof.
  intros module store store' store'' _ _ _ memory args result HM. cbn in *. injection HM as ->.
  destruct (c memory args); naive_solver.
Qed.

(** Contexts as their block time. *)
Definition toy_payload_context : Payload TxContext :=
  {| encode_payload ctx := Some (le_bytes 8 (block_time ctx));
     decode_payload b := Some (mkTxContext ZERO (le_val b) 0 0 [] [] []) |}.

(** Accepts when the datum is the redeemer. *)
Definition toy_contract : contract := λ memory args,
  let? s := slices memory args in
  Ok (match s with
      | Some (d, r, _) => if bool_decide (d = r) then VALIDATION_SUCCESS else VALIDATION_REJECT
      | None => VALIDATION_REJECT
      end).
Definition toy_context : TxContext := mkTxContext ZERO 5 10 1 [] [] [].

Lemma validator_receives_payloads_witness :
  execute_validator (WM := toy_wasmi toy_contract) (PC := toy_payload_context) [] [x07] [x07] toy_context 100 =
    Ok (mkExecutionResult true 7) ∧
  ∃ memory args ctx_bytes result,
    encode_payload (Payload := toy_payload_context) toy_context = Some ctx_bytes ∧
    slices (E := unit) memory args = Ok (Some ([x07], [x07], ctx_bytes)) ∧
    toy_contract memory args = Ok result ∧ true = (result =? 1)%Z.
Proof.
  assert (E : execute_validator (WM := toy_wasmi toy_contract) (PC := toy_payload_context) [] [x07] [x07]
    toy_context 100 = Ok (mkExecutionResult true 7)) by (vm_compute; reflexivity).
  split; [exact E|].
  exact (proj1 (validator_receives_payloads (WM := toy_wasmi toy_contract) (PC := toy_payload_context) [] [x07] [x07]
    toy_context 100 _ toy_contract (toy_memory_law _) (toy_runs _ _) E)).
Defined.
