(* ===== verification/VmAdapter.v ===== *)
(** * Contract inputs of a transaction

    [crates/scytale-core/src/vm_adapter.rs]: the context a validator receives
    and the check of every contract input of a transaction. *)

From S2P Require Import Prelude Bytes Primitives Stack Types Codec Transaction Utxo Vm.
Local Open Scope N_scope.
Local Open Scope scy_scope.

Definition MAX_TX_GAS : N := 5000000.
Definition MAX_BLOCK_GAS : N := 50000000.

(** The hexadecimal texts of [ScriptHashMismatch] are the hashes they render. *)
Inductive EutxoValidationError :=
| EutxoMissingUtxo (txid : Hash) (index : N)
| MissingScriptSource
| MissingRedeemer
| ScriptHashMismatch (expected actual : Hash)
| VmExecutionFailed (e : VmError)
| ValidationRejected
| GasLimitExceeded (consumed limit : N)
| BlockGasLimitExceeded (consumed limit : N)
| EutxoArithmeticOverflow.

Section adapter.
Context {B3 : Blake3} {BC : Bincode} {WM : Wasmi} {PC : Payload TxContext}.

Definition create_tx_context (tx : Transaction) (block_time total_input_amount total_output_amount : N) :
    TxContext :=
  mkTxContext (compute_hash tx) block_time total_input_amount
    (saturating_sub total_input_amount total_output_amount) [] [] [].

(** The script hash and the datum of a contract output. *)
Definition script_lock (locking_condition : list byte) : option (Hash * list byte) :=
  match from_locking_condition locking_condition with
  | Some (Script script_hash datum) => Some (script_hash, datum)
  | _ => None
  end.
Definition script_datum (o : TxOut) : option (list byte) := snd <$> script_lock (locking_condition o).

Definition sum_inputs (utxos : UtxoSet) (ins : list TxIn) : outcome EutxoValidationError N :=
  ofold (λ total input,
    let? utxo := ok_or (utxos !! previous_output input)
                   (EutxoMissingUtxo (op_txid (previous_output input)) (op_index (previous_output input))) in
    ok_or (checked_add total (value (output utxo))) EutxoArithmeticOverflow) ins 0.

(** [utxos.get(..).expect("UTXO checked above")] for every input. *)
Definition spent_outputs {E} (utxos : UtxoSet) (ins : list TxIn) : outcome E (list TxOut) :=
  omap_list (λ input, let? utxo := expect (utxos !! previous_output input) in Ok (output utxo)) ins.

Definition resolve_datums (context : TxContext) (spent outs : list TxOut) : TxContext :=
  let datums := omap script_datum spent in
  mkTxContext (tx_hash context) (block_time context) (input_amount context) (fee_burned context)
    (input_datums context ++ datums) (output_datums context ++ omap script_datum outs)
    (ledger_state context ++ datums).

(** One input of the last loop. *)
Definition check_script_input (tx_context : TxContext) (utxos : UtxoSet) (gas_limit total_gas_consumed : N)
    (input : TxIn) : outcome EutxoValidationError N :=
  let? utxo := expect (utxos !! previous_output input) in
  match script_lock (locking_condition (output utxo)) with
  | None => Ok total_gas_consumed
  | Some (script_hash, datum) =>
      let? eutxo_in := ok_or (from_tx_in input) MissingScriptSource in
      let? wasm_code := ok_or (script_source eutxo_in) MissingScriptSource in
      let? redeemer := ok_or (redeemer eutxo_in) MissingRedeemer in
      let calculated_hash := blake3 wasm_code in
      if negb (bool_decide (calculated_hash = script_hash))
      then Err (ScriptHashMismatch script_hash calculated_hash)
      else
        let remaining_gas := saturating_sub gas_limit total_gas_consumed in
        let? exec_res := map_err VmExecutionFailed
                           (execute_validator wasm_code datum redeemer tx_context remaining_gas) in
        if negb (is_valid exec_res) then Err ValidationRejected
        else
          let? total := ok_or (checked_add total_gas_consumed (gas_consumed exec_res)) EutxoArithmeticOverflow in
          if gas_limit <? total then Err (GasLimitExceeded total gas_limit) else Ok total
  end.

Definition verify_transaction_eutxo (tx : Transaction) (block_time : N) (utxos : UtxoSet) (gas_limit : N) :
    outcome EutxoValidationError N :=
  if is_coinbase tx then Ok 0
  else
    let? total_in := sum_inputs utxos (inputs tx) in
    let? total_out := map_err (λ _, EutxoArithmeticOverflow) (total_output_quanta tx) in
    let? spent := spent_outputs utxos (inputs tx) in
    let tx_context := resolve_datums (create_tx_context tx block_time total_in total_out) spent (outputs tx) in
    ofold (check_script_input tx_context utxos gas_limit) (inputs tx) 0.

(** ** What it checks *)

(** The unspent outputs of the inputs, in order. *)
Definition resolves (utxos : UtxoSet) (ins : list TxIn) (spent : list UtxoEntry) : Prop :=
  Forall2 (λ i u, utxos !! previous_output i = Some u) ins spent.

(** The context of a transaction that spends [spent]. *)
Definition host_context (tx : Transaction) (block_time : N) (spent : list UtxoEntry) : TxContext :=
  let total_in := outputs_value (map output spent) in
  let datums := omap script_datum (map output spent) in
  mkTxContext (compute_hash tx) block_time total_in (total_in - outputs_value (outputs tx))
    datums (omap script_datum (outputs tx)) datums.

(** One contract input passes with [gas] fuel out of [budget]. *)
Definition script_input_ok (context : TxContext) (budget : N) (input : TxIn) (u : UtxoEntry) (gas : N) : Prop :=
  match script_lock (locking_condition (output u)) with
  | None => gas = 0
  | Some (script_hash, datum) => ∃ i code r,
      from_tx_in input = Some i ∧ script_source i = Some code ∧ redeemer i = Some r ∧
      blake3 code = script_hash ∧
      execute_validator code datum r context budget = Ok (mkExecutionResult true gas)
  end.

(** All of them, each with the gas its predecessors left. *)
Inductive script_inputs_ok (context : TxContext) (limit : N) :
    N → list TxIn → list UtxoEntry → N → Prop :=
| script_inputs_nil used : script_inputs_ok context limit used [] [] used
| script_inputs_cons used i u ins us gas total :
    script_input_ok context (limit - used) i u gas → used + gas ≤ limit →
    script_inputs_ok context limit (used + gas) ins us total →
    script_inputs_ok context limit used (i :: ins) (u :: us) total.

Lemma sum_inputs_Ok utxos ins t :
  sum_inputs utxos ins = Ok t ↔
  ∃ spent, resolves utxos ins spent ∧ t = outputs_value (map output spent) ∧ t ≤ U64_MAX.
Proof.
  unfold sum_inputs. enough (HG : ∀ t0, t0 ≤ U64_MAX →
    ofold (λ total input,
      let? utxo := ok_or (utxos !! previous_output input)
                   (EutxoMissingUtxo (op_txid (previous_output input)) (op_index (previous_output input))) in
      ok_or (checked_add total (value (output utxo))) EutxoArithmeticOverflow) ins t0 = Ok t ↔
    ∃ spent, resolves utxos ins spent ∧ t = t0 + outputs_value (map output spent) ∧ t ≤ U64_MAX).
  { rewrite (HG 0) by lia. by setoid_rewrite N.add_0_l. }
  unfold resolves. induction ins as [|i ins IH]; intros t0 Ht; cbn [ofold].
  - split; [intros [= <-]; exists []; cbn; split; [constructor|lia]|].
    intros (spent & HF%Forall2_nil_inv_l & -> & _). subst. cbn. by rewrite N.add_0_r.
  - rewrite obind_Ok. split.
    + intros (t1 & (u & Hu%ok_or_Ok & Ht1%ok_or_Ok%checked_add_Some)%obind_Ok & H). destruct Ht1 as [-> Hle].
      apply IH in H as (spent & HF & -> & Hle'); [|done]. exists (u :: spent). split; [by constructor|].
      cbn. unfold outputs_value in *. lia.
    + intros (spent & HF & -> & Hle). apply Forall2_cons_inv_l in HF as (u & spent' & Hu & HF & ->).
      cbn in *. exists (t0 + value (output u)). split.
      * rewrite Hu. cbn [ok_or obind]. apply ok_or_Ok, checked_add_Some. unfold outputs_value in *. lia.
      * apply IH; [unfold outputs_value in *; lia|]. exists spent'. split; [done|]. unfold outputs_value in *. lia.
Qed.

Lemma resolves_fun utxos ins s1 s2 : resolves utxos ins s1 → resolves utxos ins s2 → s1 = s2.
Proof.
  intros H1. revert s2. induction H1 as [|i u ins s1 Hu _ IH]; intros s2 H2.
  - by apply Forall2_nil_inv_l in H2.
  - apply Forall2_cons_inv_l in H2 as (u' & s2' & Hu' & H2 & ->). f_equal; [congruence|by apply IH].
Qed.

Lemma spent_outputs_Ok {E} utxos ins spent :
  resolves utxos ins spent → spent_outputs (E := E) utxos ins = Ok (map output spent).
Proof.
  intros H. apply omap_list_Ok. induction H as [|i u ins spent Hu _ IH]; constructor; [|done]. by rewrite Hu.
Qed.

Lemma check_script_input_Ok context utxos limit used i u total :
  limit ≤ U64_MAX → used ≤ limit → utxos !! previous_output i = Some u →
  check_script_input context utxos limit used i = Ok total ↔
  ∃ gas, script_input_ok context (limit - used) i u gas ∧ used + gas ≤ limit ∧ total = used + gas.
Proof.
  intros HL Hused Hu. unfold check_script_input, script_input_ok. rewrite Hu. cbn [expect obind].
  destruct (script_lock _) as [[h d]|].
  2:{ split; [intros [= <-]; exists 0; split; [done|lia]|intros (gas & -> & _ & ->); f_equal; lia]. }
  split.
  - intros (e & He%ok_or_Ok & (code & Hc%ok_or_Ok & (r & Hr%ok_or_Ok & H)%obind_Ok)%obind_Ok)%obind_Ok.
    case_bool_decide as Hh; cbn [negb] in H; [|done].
    apply obind_Ok in H as ([v g] & Hx%map_err_Ok & H). cbn [is_valid gas_consumed] in H.
    destruct v; cbn [negb] in H; [|done].
    apply obind_Ok in H as (t & Ht%ok_or_Ok%checked_add_Some & H).
    destruct (N.ltb_spec limit t); [done|]. injection H as <-. destruct Ht as [-> _].
    exists g. split; [|done]. by exists e, code, r.
  - intros (gas & (e & code & r & -> & Hc & Hr & Hh & Hx) & Hle & ->). cbn [ok_or obind].
    rewrite Hc, Hr. cbn [ok_or obind]. rewrite bool_decide_eq_true_2 by done. cbn [negb].
    unfold saturating_sub. rewrite Hx. cbn [map_err obind is_valid gas_consumed negb].
    rewrite (proj2 (checked_add_Some used gas (used + gas))) by lia. cbn [ok_or obind].
    by destruct (N.ltb_spec limit (used + gas)); [lia|].
Qed.

Lemma check_script_inputs_Ok context utxos limit used ins us total :
  limit ≤ U64_MAX → used ≤ limit → resolves utxos ins us →
  ofold (check_script_input context utxos limit) ins used = Ok total ↔
  script_inputs_ok context limit used ins us total.
Proof.
  intros HL Hused HR. revert used Hused. induction HR as [|i u ins us Hu HR IH]; intros used Hused; cbn [ofold].
  - split; [intros [= <-]; constructor|by inversion 1].
  - rewrite obind_Ok. split.
    + intros (t & (gas & Hi & Hle & ->)%(check_script_input_Ok _ _ _ _ _ u) & H); [|done..].
      econstructor; [done|done|]. by apply IH.
    + inversion 1; subst. eexists. split; [by apply (check_script_input_Ok _ _ _ _ _ u); eauto|]. by apply IH.
Qed.

Lemma script_inputs_bound context limit used ins us total :
  script_inputs_ok context limit used ins us total → used ≤ limit → used ≤ total ≤ limit.
Proof. induction 1; intros; [lia|]. specialize (IHscript_inputs_ok ltac:(lia)). lia. Qed.

Lemma verify_transaction_eutxo_Ok tx block_time utxos gas_limit gas :
  gas_limit ≤ U64_MAX → is_coinbase tx = false →
  verify_transaction_eutxo tx block_time utxos gas_limit = Ok gas ↔
  ∃ spent, resolves utxos (inputs tx) spent ∧ outputs_value (map output spent) ≤ U64_MAX ∧
    outputs_value (outputs tx) ≤ U64_MAX ∧
    script_inputs_ok (host_context tx block_time spent) gas_limit 0 (inputs tx) spent gas.
Proof.
  intros HL Hcb. unfold verify_transaction_eutxo. rewrite Hcb. split.
  - intros (tin & (spent & HR & -> & Hin)%sum_inputs_Ok & H)%obind_Ok.
    apply obind_Ok in H as (tout & Hout%map_err_Ok%total_output_quanta_Ok & H). destruct Hout as [-> Hout].
    rewrite (spent_outputs_Ok _ _ _ HR) in H. cbn [obind] in H. exists spent.
    split; [done|]. split; [done|]. split; [done|]. apply (check_script_inputs_Ok _ utxos); [done|lia|done|].
    exact H.
  - intros (spent & HR & Hin & Hout & H).
    rewrite (proj2 (sum_inputs_Ok utxos (inputs tx) (outputs_value (map output spent)))) by (by exists spent).
    cbn [obind]. rewrite total_output_quanta_spec.
    destruct (N.leb_spec (outputs_value (outputs tx)) U64_MAX); [|lia]. cbn [map_err obind].
    rewrite (spent_outputs_Ok _ _ _ HR). cbn [obind].
    apply (check_script_inputs_Ok _ utxos) in H; [|done|lia|done]. exact H.
Qed.

Lemma sum_inputs_returns utxos ins : returns (sum_inputs utxos ins).
Proof.
  apply returns_ofold. intros t i _. apply returns_obind; [apply returns_ok_or|]. intros u _. unfold checked_add. by destruct (_ <=? _).
Qed.

Lemma verify_transaction_eutxo_returns tx block_time utxos gas_limit :
  (∀ w d r c g, returns (execute_validator w d r c g)) →
  returns (verify_transaction_eutxo tx block_time utxos gas_limit).
Proof.
  intros HX. unfold verify_transaction_eutxo. destruct (is_coinbase tx); [done|].
  apply returns_obind; [apply sum_inputs_returns|]. intros tin (spent & HR & _)%sum_inputs_Ok.
  apply returns_obind; [apply returns_map_err, total_output_quanta_returns|]. intros tout _.
  rewrite (spent_outputs_Ok _ _ _ HR). cbn [obind]. apply returns_ofold. intros used i Hi.
  apply list_elem_of_lookup_1 in Hi as [k Hk]. destruct (Forall2_lookup_l _ _ _ _ _ HR Hk) as (u & _ & Hu).
  unfold check_script_input. rewrite Hu. cbn [expect obind].
  destruct (script_lock _) as [[h d]|]; [|done].
  do 3 (apply returns_obind; [apply returns_ok_or|]; intros ? _).
  destruct (negb _); [done|]. apply returns_obind; [by apply returns_map_err|]. intros x _.
  destruct (negb _); [done|]. unfold checked_add. destruct (_ <=? _); cbn [ok_or obind]; [|done].
  by destruct (_ <? _).
Qed.

Lemma execute_validator_returns w d r c g : returns (execute_validator w d r c g).
Proof.
  unfold execute_validator, write_memory, check_pages.
  repeat first [done | apply returns_ok_or | apply returns_obind; [|intros ? _] | case_match ].
Qed.
Lemma script_inputs_lookup context limit used ins us total k i u :
  script_inputs_ok context limit used ins us total → ins !! k = Some i → us !! k = Some u →
  ∃ budget gas, script_input_ok context budget i u gas.
Proof.
  intros H. revert k. induction H as [|used i' u' ins us gas total Hi Hle _ IH]; intros [|k] Hk Hu; try done.
  - injection Hk as ->. injection Hu as ->. by eexists _, _.
  - by eapply IH.
Qed.


(** An accepted transaction ran the contract a spent output commits to, on the
    datum of that output and the context of the host, and it answered 1. *)
Lemma script_spend_runs tx now limit gas utxos spent k i u h datum_bytes (c : contract) :
  verify_transaction_eutxo tx now utxos limit = Ok gas → limit ≤ U64_MAX → is_coinbase tx = false →
  resolves utxos (inputs tx) spent → inputs tx !! k = Some i → spent !! k = Some u →
  script_lock (locking_condition (output u)) = Some (h, datum_bytes) →
  memory_law → (∀ code, blake3 code = h → runs code c) →
  ∃ r memory args ctx_bytes, encode_payload (host_context tx now spent) = Some ctx_bytes ∧
    Forall i32_arg args ∧ slices (E := unit) memory args = Ok (Some (datum_bytes, r, ctx_bytes)) ∧
    c memory args = Ok 1%Z.
Proof.
  intros H Hlimit Hcb Hspent Hi Hu Hlock Hlaw Hruns.
  apply verify_transaction_eutxo_Ok in H as (spent' & HR & _ & _ & H); [|done..].
  rewrite <- (resolves_fun _ _ _ _ Hspent HR) in H.
  destruct (script_inputs_lookup _ _ _ _ _ _ _ _ _ H Hi Hu) as (budget & g & Hok).
  unfold script_input_ok in Hok. rewrite Hlock in Hok. destruct Hok as (e & code & r & _ & _ & _ & Hh & Hx).
  apply (execute_validator_runs _ c _ _ _ _ _ Hlaw (Hruns _ Hh)) in Hx
    as (memory & args & cb & result & Hcb' & Hargs & Hsl & Hc & Hres).
  cbn in Hres. symmetry in Hres. apply Z.eqb_eq in Hres as ->. by exists r, memory, args, cb.
Qed.
End adapter.

(** ** Properties *)

(** C18: The check of the contract inputs of a transaction returns, and accepts with
    [gas] exactly when the transaction is a coinbase, which costs nothing, or
    its inputs are unspent outputs, both totals fit, and every input that
    spends a contract output carries a module with the committed hash and a
    redeemer on which the machine answers yes, with the gas the inputs before it
    left. The context all of them see is fixed by the transaction, the block
    time and the spent outputs: no witness contributes to it. *)
Theorem contract_inputs_spec {B3 : Blake3} {BC : Bincode} {WM : Wasmi} {PC : Payload TxContext}
    (tx : Transaction) (now : N) (utxos : UtxoSet) (gas : N) :
  returns (verify_transaction_eutxo tx now utxos MAX_TX_GAS) ∧
  (verify_transaction_eutxo tx now utxos MAX_TX_GAS = Ok gas ↔
   (is_coinbase tx = true ∧ gas = 0) ∨
   (is_coinbase tx = false ∧ ∃ spent, resolves utxos (inputs tx) spent ∧
      outputs_value (map output spent) ≤ U64_MAX ∧ outputs_value (outputs tx) ≤ U64_MAX ∧
      script_inputs_ok (host_context tx now spent) MAX_TX_GAS 0 (inputs tx) spent gas)) ∧
  (verify_transaction_eutxo tx now utxos MAX_TX_GAS = Ok gas → gas ≤ MAX_TX_GAS).
Proof.
  assert (HE : verify_transaction_eutxo tx now utxos MAX_TX_GAS = Ok gas ↔
   (is_coinbase tx = true ∧ gas = 0) ∨
   (is_coinbase tx = false ∧ ∃ spent, resolves utxos (inputs tx) spent ∧
      outputs_value (map output spent) ≤ U64_MAX ∧ outputs_value (outputs tx) ≤ U64_MAX ∧
      script_inputs_ok (host_context tx now spent) MAX_TX_GAS 0 (inputs tx) spent gas)).
  { destruct (is_coinbase tx) eqn:Hcb.
    - unfold verify_transaction_eutxo. rewrite Hcb. naive_solver.
    - rewrite verify_transaction_eutxo_Ok by done. naive_solver. }
  split; [apply verify_transaction_eutxo_returns, execute_validator_returns|]. split; [done|].
  intros [[_ ->]|(_ & spent & _ & _ & _ & H)]%HE; [done|].
  pose proof (script_inputs_bound _ _ _ _ _ _ H ltac:(done)). lia.
Qed.

(** The encoding of a payload reads back. *)
Definition payload_roundtrip {A} `{Payload A} (x : A) : Prop :=
  ∀ bytes, encode_payload x = Some bytes → decode_payload bytes = Some x.
