(* ===== verification/Vault.v ===== *)
(** * The vault contract

    [contracts/vault/src/lib.rs]: an output that its owner can spend after a
    date, and a rescue key at any time for a penalty. [validate] receives
    pointers into linear memory; a 32-bit address is the [i32] argument taken
    modulo [2^32]. *)

From S2P Require Import Prelude Bytes Primitives Stack Types Codec Transaction Utxo Vm VmAdapter.
Local Open Scope N_scope.
Local Open Scope scy_scope.

Record VaultDatum := mkVaultDatum {
  owner_pubkey : Hash;
  unlock_time : N;
  emergency_key : Hash;
  penalty_fee : N
}.

Inductive VaultRedeemer :=
| NormalWithdraw (signature : list byte)
| EmergencyRescue (penalty_accepted : bool) (signature : list byte).

Section vault.
Context {ED : Ed25519} {PD : Payload VaultDatum} {PR : Payload VaultRedeemer} {PC : Payload TxContext}.

(** The match on the decoded redeemer. *)
Definition vault_rule (datum : VaultDatum) (redeemer : VaultRedeemer) (ctx : TxContext) : bool :=
  match redeemer with
  | NormalWithdraw signature =>
      (unlock_time datum <=? block_time ctx) &&
      verify_ed25519 (hash_bytes (owner_pubkey datum)) signature (hash_bytes (tx_hash ctx))
  | EmergencyRescue penalty_accepted signature =>
      penalty_accepted && (penalty_fee datum <=? fee_burned ctx) &&
      verify_ed25519 (hash_bytes (emergency_key datum)) signature (hash_bytes (tx_hash ctx))
  end.

(** From the slices on. *)
Definition vault_decide (datum_slice redeemer_slice ctx_slice : list byte) : Z :=
  match decode_payload (A := VaultDatum) datum_slice with
  | None => VALIDATION_REJECT
  | Some datum =>
      match decode_payload (A := VaultRedeemer) redeemer_slice with
      | None => VALIDATION_REJECT
      | Some redeemer =>
          match decode_payload (A := TxContext) ctx_slice with
          | None => VALIDATION_REJECT
          | Some ctx => if vault_rule datum redeemer ctx then VALIDATION_SUCCESS else VALIDATION_REJECT
          end
      end
  end.

Definition usize32 (z : Z) : nat := Z.to_nat (z mod 4294967296).

(** [validate]. *)
Definition vault_validate : contract := λ memory args,
  match args with
  | [datum_ptr; datum_len; redeemer_ptr; redeemer_len; ctx_ptr; ctx_len] =>
      let? datum_slice := parse_raw_slice memory (usize32 datum_ptr) (usize32 datum_len) in
      match datum_slice with
      | None => Ok VALIDATION_REJECT
      | Some datum_slice =>
          let? redeemer_slice := parse_raw_slice memory (usize32 redeemer_ptr) (usize32 redeemer_len) in
          match redeemer_slice with
          | None => Ok VALIDATION_REJECT
          | Some redeemer_slice =>
              let? ctx_slice := parse_raw_slice memory (usize32 ctx_ptr) (usize32 ctx_len) in
              match ctx_slice with
              | None => Ok VALIDATION_REJECT
              | Some ctx_slice => Ok (vault_decide datum_slice redeemer_slice ctx_slice)
              end
          end
      end
  | _ => Panic
  end.

(** ** The contract on the slices the host passes *)

Lemma parse_i32_raw {E} memory ptr len bytes :
  i32_arg ptr → i32_arg len → parse_i32_slice (E := E) memory ptr len = Ok (Some bytes) →
  parse_raw_slice (E := E) memory (usize32 ptr) (usize32 len) = Ok (Some bytes).
Proof.
  unfold parse_i32_slice, usize32, i32_arg. intros Hp Hl.
  destruct (Z.ltb_spec ptr 0), (Z.ltb_spec len 0); try done. cbn [orb].
  by rewrite !Z.mod_small by lia.
Qed.

Lemma vault_validate_slices memory args d r c :
  Forall i32_arg args → slices (E := unit) memory args = Ok (Some (d, r, c)) →
  vault_validate memory args = Ok (vault_decide d r c).
Proof.
  unfold slices, vault_validate. intros HF H.
  do 6 (destruct args as [|? args]; [done|]). destruct args; [|done].
  rewrite !Forall_cons in HF. destruct HF as (F1 & F2 & F3 & F4 & F5 & F6 & _).
  apply obind_Ok in H as (od & H1 & H). apply obind_Ok in H as (or & H2 & H).
  apply obind_Ok in H as (oc & H3 & H). injection H as H.
  destruct od as [d'|]; [|done]. destruct or as [r'|]; [|done]. destruct oc as [c'|]; [|done]. injection H as -> -> ->.
  rewrite (parse_i32_raw _ _ _ _ F1 F2 H1). cbn [obind]. rewrite (parse_i32_raw _ _ _ _ F3 F4 H2). cbn [obind].
  by rewrite (parse_i32_raw _ _ _ _ F5 F6 H3).
Qed.

Lemma vault_decide_success d r c :
  vault_decide d r c = VALIDATION_SUCCESS ↔
  ∃ datum redeemer ctx, decode_payload d = Some datum ∧ decode_payload r = Some redeemer ∧
    decode_payload c = Some ctx ∧ vault_rule datum redeemer ctx = true.
Proof.
  unfold vault_decide, VALIDATION_SUCCESS, VALIDATION_REJECT.
  destruct (decode_payload d) as [datum|]; [|split; [done|by intros (? & ? & ? & [=] & _)]].
  destruct (decode_payload r) as [red|]; [|split; [done|by intros (? & ? & ? & _ & [=] & _)]].
  destruct (decode_payload c) as [ctx|]; [|split; [done|by intros (? & ? & ? & _ & _ & [=] & _)]].
  destruct (vault_rule datum red ctx) eqn:E.
  - split; [|done]. intros _. by exists datum, red, ctx.
  - split; [done|]. intros (? & ? & ? & [= <-] & [= <-] & [= <-] & H). congruence.
Qed.
End vault.

(** ** Properties *)

Section vault_properties.
Context {B3 : Blake3} {ED : Ed25519} {BC : Bincode} {WM : Wasmi}.
Context {PD : Payload VaultDatum} {PR : Payload VaultRedeemer} {PC : Payload TxContext}.

(** C19: A transaction that spends an output locked to the vault contract is
    accepted only if the owner signed its digest and the block is past the
    unlock time, or the rescue key signed it and the transaction leaves at
    least the penalty as fee. This is so for every module with the committed
    hash, as all of them run the vault. *)
Theorem vault_spend_safety (tx : Transaction) (now limit gas : N) (utxos : UtxoSet) (spent : list UtxoEntry)
    (k : nat) (i : TxIn) (u : UtxoEntry) (h : Hash) (datum_bytes : list byte) (datum : VaultDatum)
    (H : verify_transaction_eutxo tx now utxos limit = Ok gas) (Hlimit : limit ≤ U64_MAX)
    (Hcb : is_coinbase tx = false) (Hspent : resolves utxos (inputs tx) spent)
    (Hi : inputs tx !! k = Some i) (Hu : spent !! k = Some u)
    (Hlock : script_lock (locking_condition (output u)) = Some (h, datum_bytes))
    (Hdatum : decode_payload datum_bytes = Some datum)
    (Hlaw : memory_law) (Hruns : ∀ code, blake3 code = h → runs code vault_validate)
    (Hctx : payload_roundtrip (host_context tx now spent)) :
  (unlock_time datum ≤ now ∧
   ∃ sig, verify_ed25519 (hash_bytes (owner_pubkey datum)) sig (hash_bytes (compute_hash tx)) = true) ∨
  (penalty_fee datum + outputs_value (outputs tx) ≤ outputs_value (map output spent) ∨ penalty_fee datum = 0) ∧
   ∃ sig, verify_ed25519 (hash_bytes (emergency_key datum)) sig (hash_bytes (compute_hash tx)) = true.
Proof.
  destruct (script_spend_runs tx now limit gas utxos spent k i u h datum_bytes vault_validate)
    as (r & memory & args & cb & Hcb' & Hargs & Hsl & Hc); [done..|].
  rewrite (vault_validate_slices _ _ _ _ _ Hargs Hsl) in Hc. injection Hc as Hc.
  apply vault_decide_success in Hc as (datum' & red & ctx & Hd & _ & Hct & Hrule).
  rewrite Hdatum in Hd. injection Hd as <-. apply Hctx in Hcb'. rewrite Hcb' in Hct. injection Hct as <-.
  destruct red as [sig|accepted sig]; cbn [vault_rule host_context block_time tx_hash fee_burned] in Hrule.
  - apply andb_true_iff in Hrule as [Ht%N.leb_le Hs]. left. split; [done|by exists sig].
  - apply andb_true_iff in Hrule as [[_ Hf%N.leb_le]%andb_true_iff Hs]. right. split; [lia|by exists sig].
Qed.
End vault_properties.

(** ** Witnesses *)

Definition vault_code : list byte := [x00; x61; x73; x6d].
(** The lock of the vault with one byte of datum; proofs are redeemers. *)
Definition vault_bincode : Bincode := {|
  bincode_ser_lock _ := None;
  bincode_de_lock b := match b with x01 :: datum => Some (Script (toy_blake3 vault_code) datum) | _ => None end;
  bincode_ser_witness _ := None;
  bincode_de_witness b := Some (mkEutxoWitness None (Some b) (Some vault_code))
|}.

Definition vault_utxo : UtxoEntry := mkUtxoEntry (mkTxOut 2000 [x01; x05]) 3 false.
Definition vault_utxos : UtxoSet := {[ mkOutPoint ZERO 1 := vault_utxo ]}.
Definition vault_tx : Transaction := mkTransaction 1 [mkTxIn (mkOutPoint ZERO 1) [x09] 0] [mkTxOut 1900 [x51]] 0.
Definition vault_context : TxContext := host_context (B3 := toy_blake3) (BC := vault_bincode) vault_tx 200 [vault_utxo].

Definition toy_datum : VaultDatum := mkVaultDatum ZERO 100 ZERO 50.
Definition toy_datum_payload : Payload VaultDatum :=
  {| encode_payload _ := Some [x05]; decode_payload _ := Some toy_datum |}.
Definition toy_redeemer_payload : Payload VaultRedeemer :=
  {| encode_payload _ := None; decode_payload b := 
       Some (NormalWithdraw (hash_bytes ZERO ++ hash_bytes (compute_hash (B3 := toy_blake3) vault_tx))) |}.
Definition vault_context_payload : Payload TxContext :=
  {| encode_payload _ := Some [x2a]; decode_payload _ := Some vault_context |}.

Definition vault_machine : Wasmi :=
  toy_wasmi (vault_validate (ED := toy_ed25519) (PD := toy_datum_payload) (PR := toy_redeemer_payload)
               (PC := vault_context_payload)).

Lemma vault_spend_safety_witness :
  verify_transaction_eutxo (B3 := toy_blake3) (BC := vault_bincode) (WM := vault_machine)
    (PC := vault_context_payload) vault_tx 200 vault_utxos MAX_TX_GAS = Ok 7 ∧
  (100 ≤ 200 ∧ (∃ sig, verify_ed25519 (H := toy_ed25519) (hash_bytes ZERO) sig
      (hash_bytes (compute_hash (B3 := toy_blake3) vault_tx)) = true) ∨
   (50 + 1900 ≤ 2000 ∨ 50 = 0) ∧ (∃ sig, verify_ed25519 (H := toy_ed25519) (hash_bytes ZERO) sig
      (hash_bytes (compute_hash (B3 := toy_blake3) vault_tx)) = true)).
Proof.
  assert (E : verify_transaction_eutxo (B3 := toy_blake3) (BC := vault_bincode) (WM := vault_machine)
    (PC := vault_context_payload) vault_tx 200 vault_utxos MAX_TX_GAS = Ok 7) by (vm_compute; reflexivity).
  split; [exact E|].
  apply (vault_spend_safety (B3 := toy_blake3) (ED := toy_ed25519) (BC := vault_bincode) (WM := vault_machine)
    (PD := toy_datum_payload) (PR := toy_redeemer_payload) (PC := vault_context_payload)
    vault_tx 200 MAX_TX_GAS 7 vault_utxos [vault_utxo] 0 (mkTxIn (mkOutPoint ZERO 1) [x09] 0) vault_utxo
    (toy_blake3 vault_code) [x05] toy_datum E).
  - by vm_compute.
  - reflexivity.
  - constructor; [reflexivity|constructor].
  - reflexivity.
  - reflexivity.
  - reflexivity.
  - reflexivity.
  - apply toy_memory_law.
  - intros code _. apply toy_runs.
  - intros bytes _. reflexivity.
Defined.
