(* ===== verification/Scy20.v ===== *)
(** * The SCY-20 token contract

    [contracts/scy20/src]: token datums, the registry of a token, and the
    validation of a transfer, mint or burn against the datums the host
    resolved. Amounts are [u128]. *)

From S2P Require Import Prelude Bytes Primitives Stack Types Codec Transaction Utxo Vm VmAdapter Vault.
Local Open Scope N_scope.
Local Open Scope scy_scope.

(** ** Types *)

Record Scy20Datum := mkScy20Datum { token_id : Hash; owner : Hash; amount : N }.

Record TokenRegistryDatum := mkTokenRegistryDatum {
  reg_token_id : Hash;
  authority : Hash;
  current_supply : N;
  max_supply : option N;
  reg_nonce : N
}.

Inductive Scy20Redeemer :=
| Transfer (signature : list byte) (nonce : N)
| Mint (signature : list byte) (nonce : N)
| Burn (signature : list byte) (nonce : N).

Inductive Scy20Error :=
| SupplyMismatch (input output : N)
| InvalidTokenId
| MissingSignature (addr : Hash)
| MaxSupplyExceeded
| ZeroAmount
| DeserializationFailed
| InvalidRegistryState
| NonceMismatch.

Definition U128_MAX : N := MOD128 - 1.
Definition checked_add128 (a b : N) : option N := if a + b <=? U128_MAX then Some (a + b) else None.

Section scy20.
Context {ED : Ed25519}.
Context {PT : Payload Scy20Datum} {PG : Payload TokenRegistryDatum} {PR : Payload Scy20Redeemer} {PC : Payload TxContext}.

(** ** Codec *)

Definition serialize_datum (d : Scy20Datum) : outcome Scy20Error (list byte) :=
  ok_or (encode_payload d) DeserializationFailed.
Definition deserialize_datum (bytes : list byte) : outcome Scy20Error Scy20Datum :=
  ok_or (decode_payload bytes) DeserializationFailed.
Definition serialize_redeemer (r : Scy20Redeemer) : outcome Scy20Error (list byte) :=
  ok_or (encode_payload r) DeserializationFailed.
Definition deserialize_redeemer (bytes : list byte) : outcome Scy20Error Scy20Redeemer :=
  ok_or (decode_payload bytes) DeserializationFailed.

(** ** Validation *)

Definition canonical_token_total (datums : list (list byte)) (id : Hash) : outcome Scy20Error N :=
  ofold (λ total bytes,
    match decode_payload (A := Scy20Datum) bytes with
    | Some state =>
        if bool_decide (token_id state = id) then
          if amount state =? 0 then Err ZeroAmount
          else ok_or (checked_add128 total (amount state)) (SupplyMismatch total (amount state))
        else Ok total
    | None => Ok total
    end) datums 0.

(** [filter_map(deserialize).find(|state| state.token_id == ..)]. *)
Definition find_registry (datums : list (list byte)) (id : Hash) : option TokenRegistryDatum :=
  head (filter (λ state, reg_token_id state = id) (omap (decode_payload (A := TokenRegistryDatum)) datums)).

(** The match that verifies the signature and returns the nonce. *)
Definition authorized_nonce (datum : Scy20Datum) (registry : TokenRegistryDatum) (redeemer : Scy20Redeemer)
    (ctx : TxContext) : outcome Scy20Error N :=
  let '(key, signature, nonce) :=
    match redeemer with
    | Transfer signature nonce => (owner datum, signature, nonce)
    | Mint signature nonce => (authority registry, signature, nonce)
    | Burn signature nonce => (owner datum, signature, nonce)
    end in
  if verify_ed25519 (hash_bytes key) signature (hash_bytes (tx_hash ctx)) then Ok nonce
  else Err (MissingSignature key).

Definition token_delta (redeemer : Scy20Redeemer) (input_total output_total : N) : option N :=
  match redeemer with
  | Mint _ _ => if input_total <=? output_total then Some (output_total - input_total) else None
  | Transfer _ _ => if input_total =? output_total then Some 0 else None
  | Burn _ _ => if output_total <=? input_total then Some (input_total - output_total) else None
  end.

Definition expected_supply_of (redeemer : Scy20Redeemer) (registry : TokenRegistryDatum) (delta : N) :
    outcome Scy20Error N :=
  match redeemer with
  | Mint _ _ => ok_or (checked_add128 (current_supply registry) delta) MaxSupplyExceeded
  | Transfer _ _ => Ok (current_supply registry)
  | Burn _ _ =>
      if delta <=? current_supply registry then Ok (current_supply registry - delta)
      else Err (SupplyMismatch (current_supply registry) delta)
  end.

Definition validate_scy20_execution (datum : Scy20Datum) (redeemer : Scy20Redeemer) (ctx : TxContext) :
    outcome Scy20Error unit :=
  let? registry := ok_or (find_registry (ledger_state ctx) (token_id datum)) InvalidRegistryState in
  let? next_registry := ok_or (find_registry (output_datums ctx) (token_id datum)) InvalidRegistryState in
  let? nonce := authorized_nonce datum registry redeemer ctx in
  let? expected_nonce := ok_or (checked_add (reg_nonce registry) 1) NonceMismatch in
  if negb (nonce =? reg_nonce registry) || negb (reg_nonce next_registry =? expected_nonce)
  then Err NonceMismatch
  else
    let? input_total := canonical_token_total (input_datums ctx) (token_id datum) in
    let? output_total := canonical_token_total (output_datums ctx) (token_id datum) in
    let? delta := ok_or (token_delta redeemer input_total output_total)
                    (SupplyMismatch input_total output_total) in
    let? expected_supply := expected_supply_of redeemer registry delta in
    if negb (current_supply next_registry =? expected_supply) ||
       negb (bool_decide (authority next_registry = authority registry)) ||
       negb (bool_decide (max_supply next_registry = max_supply registry))
    then Err InvalidRegistryState
    else if from_option (λ max, max <? expected_supply) false (max_supply next_registry)
    then Err MaxSupplyExceeded
    else Ok tt.

(** ** The entry point *)

Definition scy20_decide (datum_slice redeemer_slice ctx_slice : list byte) : Z :=
  match decode_payload (A := Scy20Datum) datum_slice with
  | None => VALIDATION_REJECT
  | Some datum =>
      match decode_payload (A := Scy20Redeemer) redeemer_slice with
      | None => VALIDATION_REJECT
      | Some redeemer =>
          match decode_payload (A := TxContext) ctx_slice with
          | None => VALIDATION_REJECT
          | Some ctx =>
              match validate_scy20_execution datum redeemer ctx with
              | Ok _ => VALIDATION_SUCCESS
              | _ => VALIDATION_REJECT
              end
          end
      end
  end.

(** [validate]. *)
Definition scy20_validate : contract := λ memory args,
  match args with
  | [datum_ptr; datum_len; redeemer_ptr; redeemer_len; ctx_ptr; ctx_len] =>
      let? datum_slice := parse_i32_slice memory datum_ptr datum_len in
      match datum_slice with
      | None => Ok VALIDATION_REJECT
      | Some datum_slice =>
          let? redeemer_slice := parse_i32_slice memory redeemer_ptr redeemer_len in
          match redeemer_slice with
          | None => Ok VALIDATION_REJECT
          | Some redeemer_slice =>
              let? ctx_slice := parse_i32_slice memory ctx_ptr ctx_len in
              match ctx_slice with
              | None => Ok VALIDATION_REJECT
              | Some ctx_slice => Ok (scy20_decide datum_slice redeemer_slice ctx_slice)
              end
          end
      end
  | _ => Panic
  end.
End scy20.

(** ** What validation accepts *)

Section scy20_spec.
Context {ED : Ed25519}.
Context {PT : Payload Scy20Datum} {PG : Payload TokenRegistryDatum}.

(** The amounts of the token among some datums. *)
Definition amount_of (id : Hash) (bytes : list byte) : option N :=
  match decode_payload (A := Scy20Datum) bytes with
  | Some d => if bool_decide (token_id d = id) then Some (amount d) else None
  | None => None
  end.
Definition amounts (datums : list (list byte)) (id : Hash) : list N := omap (amount_of id) datums.
Definition sum (l : list N) : N := foldr N.add 0 l.

Lemma sum_app l1 l2 : sum (l1 ++ l2) = sum l1 + sum l2.
Proof.
  induction l1 as [|x l1 IH]; [done|]. change (x + sum (l1 ++ l2) = x + sum l1 + sum l2). rewrite IH. lia.
Qed.

Lemma checked_add128_Some a b c : checked_add128 a b = Some c ↔ c = a + b ∧ a + b ≤ U128_MAX.
Proof. unfold checked_add128. destruct (N.leb_spec (a + b) U128_MAX); naive_solver lia. Qed.

Lemma canonical_token_total_Ok datums id t :
  canonical_token_total datums id = Ok t ↔
  Forall (λ a, a ≠ 0) (amounts datums id) ∧ t = sum (amounts datums id) ∧ t ≤ U128_MAX.
Proof.
  unfold canonical_token_total. match goal with |- ofold ?f _ _ = _ ↔ _ => set (step := f) end.
  enough (HG : ∀ t0, t0 ≤ U128_MAX → ofold step datums t0 = Ok t ↔
    Forall (λ a, a ≠ 0) (amounts datums id) ∧ t = t0 + sum (amounts datums id) ∧ t ≤ U128_MAX).
  { rewrite (HG 0) by (unfold U128_MAX; lia). by rewrite N.add_0_l. }
  induction datums as [|b datums IH]; intros t0 Ht; cbn [ofold].
  - cbn. split; [intros [= <-]; split; [constructor|lia]|intros (_ & -> & _); f_equal; lia].
  - unfold step at 1, amounts, amount_of. cbn [omap list_omap].
    destruct (decode_payload b) as [d|]; [|by apply IH].
    case_bool_decide as Hid; [|by apply IH]. cbn [omap]. rewrite Forall_cons. cbn [sum foldr].
    fold (sum (amounts datums id)). destruct (N.eqb_spec (amount d) 0) as [->|Hz]; [split; [done|naive_solver]|].
    rewrite obind_Ok. split.
    + intros (t1 & Ht1%ok_or_Ok%checked_add128_Some & H). destruct Ht1 as [-> Hle].
      apply IH in H as (HF & -> & Hle'); [|done]. split; [done|].
      change (t0 + amount d + sum (amounts datums id) = t0 + (amount d + sum (amounts datums id)) ∧
        t0 + amount d + sum (amounts datums id) ≤ U128_MAX). lia.
    + intros ((_ & HF) & -> & Hle). exists (t0 + amount d).
      assert (HS : t0 + (amount d + sum (amounts datums id)) ≤ U128_MAX) by exact Hle.
      split; [apply ok_or_Ok, checked_add128_Some; split; [done|lia]|]. apply IH; [lia|].
      split; [exact HF|].
      change (t0 + (amount d + sum (amounts datums id)) = t0 + amount d + sum (amounts datums id) ∧
        t0 + (amount d + sum (amounts datums id)) ≤ U128_MAX). lia.
Qed.

(** The supply recorded after an operation on [input] and [output] tokens. *)
Definition next_supply (redeemer : Scy20Redeemer) (supply input output : N) : option N :=
  match redeemer with
  | Transfer _ _ => if input =? output then Some supply else None
  | Mint _ _ => if (input <=? output) && (supply + (output - input) <=? U128_MAX)
                then Some (supply + (output - input)) else None
  | Burn _ _ => if (output <=? input) && (input - output <=? supply)
                then Some (supply - (input - output)) else None
  end.

Definition redeemer_nonce (r : Scy20Redeemer) : N :=
  match r with Transfer _ n | Mint _ n | Burn _ n => n end.
Definition redeemer_signature (r : Scy20Redeemer) : list byte :=
  match r with Transfer s _ | Mint s _ | Burn s _ => s end.
(** Who signs: the authority for a mint, else the owner of the datum. *)
Definition signer (datum : Scy20Datum) (registry : TokenRegistryDatum) (r : Scy20Redeemer) : Hash :=
  match r with Mint _ _ => authority registry | _ => owner datum end.

(** An accepted operation. *)
Record scy20_accepts (datum : Scy20Datum) (redeemer : Scy20Redeemer) (ctx : TxContext)
    (registry next : TokenRegistryDatum) : Prop := {
  sa_registry : find_registry (ledger_state ctx) (token_id datum) = Some registry;
  sa_next : find_registry (output_datums ctx) (token_id datum) = Some next;
  sa_signature : verify_ed25519 (hash_bytes (signer datum registry redeemer)) (redeemer_signature redeemer)
                   (hash_bytes (tx_hash ctx)) = true;
  sa_nonce : redeemer_nonce redeemer = reg_nonce registry ∧ reg_nonce next = reg_nonce registry + 1 ∧
             reg_nonce next ≤ U64_MAX;
  sa_amounts : Forall (λ a, a ≠ 0) (amounts (input_datums ctx) (token_id datum)) ∧
               Forall (λ a, a ≠ 0) (amounts (output_datums ctx) (token_id datum)) ∧
               sum (amounts (input_datums ctx) (token_id datum)) ≤ U128_MAX ∧
               sum (amounts (output_datums ctx) (token_id datum)) ≤ U128_MAX;
  sa_supply : next_supply redeemer (current_supply registry)
                (sum (amounts (input_datums ctx) (token_id datum)))
                (sum (amounts (output_datums ctx) (token_id datum))) = Some (current_supply next);
  sa_kept : authority next = authority registry ∧ max_supply next = max_supply registry;
  sa_max max : max_supply next = Some max → current_supply next ≤ max
}.

Lemma next_supply_Ok redeemer registry input output s :
  (let? delta := ok_or (token_delta redeemer input output) (SupplyMismatch input output) in
   expected_supply_of redeemer registry delta) = Ok s ↔
  next_supply redeemer (current_supply registry) input output = Some s.
Proof.
  unfold token_delta, expected_supply_of, next_supply, checked_add128. destruct redeemer.
  - destruct (N.eqb_spec input output); cbn [ok_or obind]; naive_solver.
  - destruct (N.leb_spec input output); cbn [ok_or obind andb]; [|naive_solver].
    destruct (N.leb_spec (current_supply registry + (output - input)) U128_MAX); naive_solver.
  - destruct (N.leb_spec output input); cbn [ok_or obind andb]; [|naive_solver].
    destruct (N.leb_spec (input - output) (current_supply registry)); naive_solver.
Qed.

Lemma validate_scy20_Ok datum redeemer ctx :
  validate_scy20_execution datum redeemer ctx = Ok tt ↔
  ∃ registry next, scy20_accepts datum redeemer ctx registry next.
Proof.
  assert (HA : ∀ registry n, authorized_nonce datum registry redeemer ctx = Ok n ↔
    verify_ed25519 (hash_bytes (signer datum registry redeemer)) (redeemer_signature redeemer)
      (hash_bytes (tx_hash ctx)) = true ∧ n = redeemer_nonce redeemer).
  { intros registry n. unfold authorized_nonce. destruct redeemer; cbn; destruct (verify_ed25519 _ _ _); naive_solver. }
  unfold validate_scy20_execution. split.
  - intros (reg & H1%ok_or_Ok & H)%obind_Ok. apply obind_Ok in H as (next & H2%ok_or_Ok & H).
    apply obind_Ok in H as (n & Hn%HA & H). destruct Hn as [Hsig ->].
    apply obind_Ok in H as (n1 & Hn1%ok_or_Ok%checked_add_Some & H). destruct Hn1 as [-> Hn1].
    destruct (N.eqb_spec (redeemer_nonce redeemer) (reg_nonce reg)) as [En|]; [|done].
    destruct (N.eqb_spec (reg_nonce next) (reg_nonce reg + 1)) as [En1|]; [|done]. cbn [negb orb] in H.
    apply obind_Ok in H as (tin & Hin%canonical_token_total_Ok & H).
    apply obind_Ok in H as (tout & Hout%canonical_token_total_Ok & H).
    apply obind_Ok in H as (delta & Hd & H). apply obind_Ok in H as (s & Hs & H).
    assert (Hns : next_supply redeemer (current_supply reg) tin tout = Some s).
    { apply (next_supply_Ok _ reg). rewrite Hd. exact Hs. }
    destruct (N.eqb_spec (current_supply next) s) as [<-|]; [|done].
    case_bool_decide as Ha; [|done]. case_bool_decide as Hm; [|done]. cbn [negb orb] in H.
    destruct Hin as (F1 & -> & B1), Hout as (F2 & -> & B2).
    exists reg, next. split; try done; [split; [done|lia]|].
    intros max Hmax. rewrite Hmax in H. cbn [from_option] in H.
    destruct (N.ltb_spec max (current_supply next)); [done|lia].
  - intros (reg & next & [H1 H2 Hsig (En & En1 & Hb) (F1 & F2 & B1 & B2) Hs [Ha Hm] Hmax]).
    rewrite H1, H2. cbn [ok_or obind]. rewrite (proj2 (HA reg _)) by done. cbn [obind].
    unfold checked_add. destruct (N.leb_spec (reg_nonce reg + 1) U64_MAX); [|lia]. cbn [ok_or obind].
    rewrite En1, !N.eqb_refl. cbn [negb orb].
    rewrite !(proj2 (canonical_token_total_Ok _ _ _)) by (split; [|split; [reflexivity|]]; done). cbn [obind].
    apply (next_supply_Ok _ reg), obind_Ok in Hs as (delta & -> & Hs). cbn [obind]. rewrite Hs. cbn [obind].
    rewrite N.eqb_refl, !bool_decide_eq_true_2 by done. cbn [negb orb].
    destruct (max_supply next) as [max|]; [|done]. cbn [from_option]. specialize (Hmax max eq_refl).
    by destruct (N.ltb_spec max (current_supply next)); [lia|].
Qed.
End scy20_spec.

(** ** Properties *)

Section scy20_properties.
Context {B3 : Blake3} {ED : Ed25519} {BC : Bincode} {WM : Wasmi}.
Context {PT : Payload Scy20Datum} {PG : Payload TokenRegistryDatum} {PR : Payload Scy20Redeemer} {PC : Payload TxContext}.

Lemma returns_canonical_token_total datums id : returns (canonical_token_total datums id).
Proof.
  apply returns_ofold. intros t b _. destruct (decode_payload b) as [d|]; [|done].
  case_bool_decide; [|done]. destruct (_ =? _); [done|apply returns_ok_or].
Qed.

Lemma validate_scy20_returns datum redeemer ctx : returns (validate_scy20_execution datum redeemer ctx).
Proof.
  unfold validate_scy20_execution, authorized_nonce, expected_supply_of.
  repeat first [ done | apply returns_ok_or | apply returns_canonical_token_total
               | apply returns_obind; [|intros ? _] | case_match ].
Qed.

(** C26: Validation returns, and accepts exactly when the registry of the token in
    the ledger state has a successor among the outputs with the next nonce, the
    redeemer names the current nonce and carries the signature of the owner (of
    the authority, for a mint), no amount of the token is zero, the amounts on
    both sides fit and differ as the operation says, the recorded supply
    follows that difference, authority and maximum are kept, and the maximum is
    respected. *)
Theorem scy20_execution_spec (datum : Scy20Datum) (redeemer : Scy20Redeemer) (ctx : TxContext) :
  returns (validate_scy20_execution datum redeemer ctx) ∧
  (validate_scy20_execution datum redeemer ctx = Ok tt ↔
   ∃ registry next, scy20_accepts datum redeemer ctx registry next).
Proof. split; [apply validate_scy20_returns|apply validate_scy20_Ok]. Qed.

Lemma scy20_validate_slices memory args d r c :
  slices (E := unit) memory args = Ok (Some (d, r, c)) → scy20_validate memory args = Ok (scy20_decide d r c).
Proof.
  unfold slices, scy20_validate. intros H. do 6 (destruct args as [|? args]; [done|]). destruct args; [|done].
  apply obind_Ok in H as (od & H1 & H). apply obind_Ok in H as (or & H2 & H).
  apply obind_Ok in H as (oc & H3 & H). injection H as H.
  destruct od as [d'|]; [|done]. destruct or as [r'|]; [|done]. destruct oc as [c'|]; [|done]. injection H as -> -> ->.
  rewrite H1. cbn [obind]. rewrite H2. cbn [obind]. by rewrite H3.
Qed.

Lemma scy20_decide_success d r c :
  scy20_decide d r c = 1%Z →
  ∃ datum redeemer ctx, decode_payload d = Some datum ∧ decode_payload r = Some redeemer ∧
    decode_payload c = Some ctx ∧ validate_scy20_execution datum redeemer ctx = Ok tt.
Proof.
  unfold scy20_decide, VALIDATION_REJECT. destruct (decode_payload d) as [datum|]; [|done].
  destruct (decode_payload r) as [red|]; [|done]. destruct (decode_payload c) as [ctx|]; [|done].
  destruct (validate_scy20_execution datum red ctx) as [[]|e| |] eqn:E; try done.
  intros _. by exists datum, red, ctx.
Qed.

(** A transaction that spends a token output is accepted only if validation
    accepts it on the context of the host, in which ledger state and inputs are
    both the datums of the outputs it spends, for some redeemer. This is so for
    every module with the committed hash, as all of them run the contract. *)
Theorem scy20_spend_safety (tx : Transaction) (now limit gas : N) (utxos : UtxoSet) (spent : list UtxoEntry)
    (k : nat) (i : TxIn) (u : UtxoEntry) (h : Hash) (datum_bytes : list byte) (datum : Scy20Datum)
    (H : verify_transaction_eutxo tx now utxos limit = Ok gas) (Hlimit : limit ≤ U64_MAX)
    (Hcb : is_coinbase tx = false) (Hspent : resolves utxos (inputs tx) spent)
    (Hi : inputs tx !! k = Some i) (Hu : spent !! k = Some u)
    (Hlock : script_lock (locking_condition (output u)) = Some (h, datum_bytes))
    (Hdatum : decode_payload datum_bytes = Some datum)
    (Hlaw : memory_law) (Hruns : ∀ code, blake3 code = h → runs code scy20_validate)
    (Hctx : payload_roundtrip (host_context tx now spent)) :
  let ctx := host_context tx now spent in
  ledger_state ctx = input_datums ctx ∧ datum_bytes ∈ input_datums ctx ∧
  ∃ redeemer registry next, scy20_accepts datum redeemer ctx registry next ∧
    ∃ b, b ∈ input_datums ctx ∧ decode_payload b = Some registry.
Proof.
  cbv zeta. destruct (script_spend_runs tx now limit gas utxos spent k i u h datum_bytes scy20_validate)
    as (r & memory & args & cb & Hcb' & Hargs & Hsl & Hc); [done..|].
  rewrite (scy20_validate_slices _ _ _ _ _ Hsl) in Hc. injection Hc as Hc.
  apply scy20_decide_success in Hc as (datum' & red & ctx & Hd & _ & Hct & Hv).
  rewrite Hdatum in Hd. injection Hd as <-. apply Hctx in Hcb'. rewrite Hcb' in Hct. injection Hct as <-.
  apply validate_scy20_Ok in Hv as (reg & next & Hacc). split; [done|]. split.
  - cbn [host_context input_datums]. apply list_elem_of_omap. exists (output u).
    split; [apply list_elem_of_fmap_2; by eapply list_elem_of_lookup_2|].
    unfold script_datum. by rewrite Hlock.
  - exists red, reg, next. split; [done|]. pose proof (sa_registry _ _ _ _ _ Hacc) as Hreg.
    unfold find_registry in Hreg. apply head_Some_elem_of, list_elem_of_filter in Hreg as [_ Hreg].
    apply list_elem_of_omap in Hreg as (b & Hb & Hdec). by exists b.
Qed.
End scy20_properties.

(** ** The registry among the tokens *)

Section frozen.
Context {ED : Ed25519} {PT : Payload Scy20Datum} {PG : Payload TokenRegistryDatum}.

(** [bincode] writes a struct as its fields in order and [deserialize] ignores
    what follows: the bytes of a registry, whose first fields have the types of
    a token datum's, read as one. *)
Definition registry_reads_as_datum : Prop := ∀ b r,
  decode_payload (A := TokenRegistryDatum) b = Some r →
  decode_payload (A := Scy20Datum) b = Some (mkScy20Datum (reg_token_id r) (authority r) (current_supply r)).

(** [datums] has the registry [r] of [id], encoded as [b], between [pre] and
    [post], and no other. *)
Definition one_registry (datums : list (list byte)) (id : Hash) (pre post : list (list byte)) (b : list byte)
    (r : TokenRegistryDatum) : Prop :=
  datums = pre ++ b :: post ∧ decode_payload b = Some r ∧ reg_token_id r = id ∧
  ∀ b' r', b' ∈ pre ++ post → decode_payload b' = Some r' → reg_token_id r' ≠ id.

Lemma nil_no_elem {A} (l : list A) : (∀ x, x ∉ l) → l = [].
Proof. destruct l as [|x l]; [done|]. intros H. destruct (H x). by left. Qed.

Lemma find_one_registry datums id pre post b r :
  one_registry datums id pre post b r → find_registry datums id = Some r.
Proof.
  intros (-> & Hb & Hid & Hno). unfold find_registry. rewrite omap_app, filter_app.
  assert (Hpre : filter (λ state, reg_token_id state = id) (omap (decode_payload (A := TokenRegistryDatum)) pre) = []).
  { apply nil_no_elem. intros r' [Hid' (b' & Hb' & Hr')%list_elem_of_omap]%list_elem_of_filter.
    by apply (Hno b' r'); [apply elem_of_app; left|..]. }
  rewrite Hpre. cbn. rewrite Hb, filter_cons_True by done. done.
Qed.

Lemma amounts_one_registry datums id pre post b r :
  registry_reads_as_datum → one_registry datums id pre post b r →
  amounts datums id = amounts pre id ++ current_supply r :: amounts post id.
Proof.
  intros HR (-> & Hb & Hid & _). unfold amounts. rewrite omap_app. f_equal. cbn.
  unfold amount_of at 1. rewrite (HR _ _ Hb). cbn [token_id amount]. by rewrite bool_decide_eq_true_2.
Qed.

(** No operation changes the amount of a token. The registry a mint or burn
    must spend and recreate is itself counted as tokens on both sides, so the
    recorded supply follows twice its own change: a mint that creates the
    tokens it records is refused, one that records tokens it does not create is
    accepted, and a token with recorded supply zero cannot be minted at all. *)
Theorem scy20_tokens_frozen (datum : Scy20Datum) (redeemer : Scy20Redeemer) (ctx : TxContext)
    (pre post pre' post' : list (list byte)) (b b' : list byte) (registry next : TokenRegistryDatum)
    (Hlaw : registry_reads_as_datum) (Hhost : ledger_state ctx = input_datums ctx)
    (Hin : one_registry (input_datums ctx) (token_id datum) pre post b registry)
    (Hout : one_registry (output_datums ctx) (token_id datum) pre' post' b' next)
    (H : validate_scy20_execution datum redeemer ctx = Ok tt) :
  sum (amounts (pre' ++ post') (token_id datum)) = sum (amounts (pre ++ post) (token_id datum)) ∧
  current_supply registry ≠ 0 ∧ current_supply next ≠ 0.
Proof.
  apply validate_scy20_Ok in H as (reg & nxt & [H1 H2 _ _ (F1 & F2 & _ & _) Hs _ _]).
  rewrite Hhost, (find_one_registry _ _ _ _ _ _ Hin) in H1. injection H1 as <-.
  rewrite (find_one_registry _ _ _ _ _ _ Hout) in H2. injection H2 as <-.
  rewrite (amounts_one_registry _ _ _ _ _ _ Hlaw Hin) in F1, Hs.
  rewrite (amounts_one_registry _ _ _ _ _ _ Hlaw Hout) in F2, Hs.
  assert (HA : ∀ p q : list (list byte), amounts (p ++ q) (token_id datum) =
    amounts p (token_id datum) ++ amounts q (token_id datum)) by (intros; apply omap_app).
  rewrite !HA, !sum_app. apply Forall_app in F1 as [_ [F1 _]%Forall_cons], F2 as [_ [F2 _]%Forall_cons].
  split; [|done]. rewrite !sum_app in Hs. unfold next_supply in Hs. cbn [sum foldr] in Hs.
  fold (sum (amounts post (token_id datum))) (sum (amounts post' (token_id datum))) in Hs.
  destruct redeemer.
  - destruct (N.eqb_spec (sum (amounts pre (token_id datum)) + (current_supply registry + sum (amounts post (token_id datum))))
      (sum (amounts pre' (token_id datum)) + (current_supply next + sum (amounts post' (token_id datum))))); naive_solver lia.
  - destruct (_ && _) eqn:E; [|done]. apply andb_true_iff in E as [E%N.leb_le _]. injection Hs as Hs. lia.
  - destruct (_ && _) eqn:E; [|done]. apply andb_true_iff in E as [E%N.leb_le E'%N.leb_le]. injection Hs as Hs. lia.
Qed.
End frozen.

(** ** Witnesses *)

Section toy_codec.
(** Token datums are [01 amount], registries [02 supply nonce]. *)
Definition toy_token_payload : Payload Scy20Datum := {|
  encode_payload d := Some [x01; byte_of (amount d)];
  decode_payload b := match b with
                      | [t; a] => if bool_decide (t = x01) then Some (mkScy20Datum ZERO ZERO (Byte.to_N a)) else None
                      | [t; s; n] => if bool_decide (t = x02) then Some (mkScy20Datum ZERO ZERO (Byte.to_N s)) else None
                      | _ => None
                      end
|}.
Definition toy_registry_payload : Payload TokenRegistryDatum := {|
  encode_payload r := Some [x02; byte_of (current_supply r); byte_of (reg_nonce r)];
  decode_payload b := match b with
                      | [t; s; n] => if bool_decide (t = x02)
                                     then Some (mkTokenRegistryDatum ZERO ZERO (Byte.to_N s) None (Byte.to_N n)) else None
                      | _ => None
                      end
|}.

Lemma toy_registry_reads : registry_reads_as_datum (PT := toy_token_payload) (PG := toy_registry_payload).
Proof.
  intros b r. cbn. do 4 (destruct b as [|? b]; try done). case_bool_decide; [|done]. by intros [= <-].
Qed.
End toy_codec.

Definition toy_signature : list byte := hash_bytes ZERO ++ hash_bytes ZERO.
(** Three tokens and a registry of supply 5 are spent; the outputs hold tokens
    of amounts 1 and [tokens], and a registry of supply [supply]. *)
Definition mint_context (tokens supply : byte) : TxContext :=
  mkTxContext ZERO 0 0 0 [[x01; x03]; [x02; x05; x07]] [[x01; x01]; [x01; tokens]; [x02; supply; x08]]
    [[x01; x03]; [x02; x05; x07]].

(** Recording four more tokens without creating any is accepted; creating and
    recording four is not. *)
Lemma scy20_tokens_frozen_witness :
  let validate := validate_scy20_execution (ED := toy_ed25519) (PT := toy_token_payload) (PG := toy_registry_payload)
                    (mkScy20Datum ZERO ZERO 3) (Mint toy_signature 7) in
  validate (mint_context x02 x09) = Ok tt ∧ validate (mint_context x06 x09) = Err InvalidRegistryState ∧
  sum (amounts (PT := toy_token_payload) [[x01; x01]; [x01; x02]] ZERO) =
  sum (amounts (PT := toy_token_payload) [[x01; x03]] ZERO).
Proof.
  cbv zeta. split; [vm_compute; reflexivity|]. split; [vm_compute; reflexivity|].
  assert (HO : ∀ pre s n, Forall (λ b, length b = 2%nat) pre →
    one_registry (PG := toy_registry_payload) (pre ++ [[x02; s; n]]) ZERO pre []
    [x02; s; n] (mkTokenRegistryDatum ZERO ZERO (Byte.to_N s) None (Byte.to_N n))).
  { intros pre s n HF. split; [reflexivity|]. split; [reflexivity|]. split; [reflexivity|].
    intros b' r' Hb. rewrite app_nil_r in Hb. rewrite Forall_forall in HF. apply HF in Hb.
    do 3 (destruct b' as [|? b']; [done|]). done. }
  apply (scy20_tokens_frozen (ED := toy_ed25519) (PT := toy_token_payload) (PG := toy_registry_payload)
    (mkScy20Datum ZERO ZERO 3) (Mint toy_signature 7) (mint_context x02 x09)
    [[x01; x03]] [] [[x01; x01]; [x01; x02]] [] [x02; x05; x07] [x02; x09; x08] _ _ toy_registry_reads eq_refl
    (HO [[x01; x03]] x05 x07 ltac:(repeat constructor)) (HO [[x01; x01]; [x01; x02]] x09 x08 ltac:(repeat constructor))).
  vm_compute; reflexivity.
Defined.
