(* ===== verification/Mining.v ===== *)
(** * Mining

    [crates/scytale-mining/src/worker.rs]: the block template a miner builds
    from the canonical tip and the mempool, and the search for a nonce that
    solves it. The search runs either in one thread or in up to eight; what the
    scheduler decides (when a flag is seen, which thread stores last) is the
    record [Schedule], over which the theorems quantify. *)

From S2P Require Import Prelude Bytes Primitives Types Codec Transaction Utxo Merkle Genesis.
From S2P Require Import Words Target Work Script Authorization Mempool MempoolInv MempoolSpec.
From S2P Require Import MempoolSelect MempoolTheorems Consensus Chain.
Local Open Scope N_scope.
Local Open Scope scy_scope.

Definition MAX_BLOCK_PAYLOAD_SIZE : N := 2000000.

Inductive MiningError :=
| CanonicalTipMissing
| Cancelled (height : N)
| ExhaustedNonce (height searched : N)
| LocalValidationFailed
| MempoolUnavailable
| MiningOverflow
| WorkerPanic.

Inductive MinerState := Stopped | Starting | Mining (height : N) | Refreshing | Stopping | Failed.

Record BlockTemplate := mkBlockTemplate {
  t_previous : Hash;
  t_height : N;
  t_compact : N;
  t_transactions : list Transaction;
  t_root : Hash;
  t_timestamp : N
}.

(** ** The template *)

Section template.
Context {B3 : Blake3}.

Definition template_target (t : BlockTemplate) : Target := from_compact (t_compact t).

(** The commitment of a template: [ZERO] when there is nothing to hash. *)
Definition compute_transaction_commitment {E} (t : BlockTemplate) : outcome E Hash :=
  let? combined := ofold (λ combined tx, let? id := txid tx in Ok (combined ++ hash_bytes id))
                     (t_transactions t) [] in
  Ok (if bool_decide (combined = []) then ZERO else blake3 combined).

Definition build_header {E} (t : BlockTemplate) (nonce : N) : outcome E BlockHeader :=
  let? tx_commitment := compute_transaction_commitment t in
  Ok (mkBlockHeader 1 (t_previous t) tx_commitment (t_root t) (t_timestamp t) (t_compact t) nonce).

Definition assemble_block (t : BlockTemplate) (solved_header : BlockHeader) : Block :=
  mkBlock solved_header (t_transactions t).

(** The loop over the candidates of the mempool. *)
Record Picked := mkPicked {
  p_selected : list Transaction;
  p_fees : N;
  p_spent : gset OutPoint
}.

(** [selected_txs.iter().any(..)]: an earlier transaction has this output. *)
Fixpoint provided_by {E} (selected : list Transaction) (o : OutPoint) : outcome E bool :=
  match selected with
  | [] => Ok false
  | stx :: selected =>
      let? id := txid stx in
      if bool_decide (id = op_txid o) && (op_index o <? N.of_nat (length (outputs stx)))
      then Ok true else provided_by selected o
  end.

Fixpoint all_inputs_valid {E} (utxos : UtxoSet) (selected : list Transaction) (spent : gset OutPoint)
    (ins : list TxIn) : outcome E bool :=
  match ins with
  | [] => Ok true
  | input :: ins =>
      let o := previous_output input in
      if bool_decide (o ∈ spent) then Ok false
      else
        let? found := if utxo_contains utxos o then Ok true else provided_by selected o in
        if found : bool then all_inputs_valid utxos selected spent ins else Ok false
  end.

Definition spent_set (tx : Transaction) : gset OutPoint := list_to_set (previous_output <$> inputs tx).

Definition pick_transaction {E} (utxos : UtxoSet) (pool : Mempool) (p : Picked) (tx : Transaction) :
    outcome E Picked :=
  let? valid := all_inputs_valid utxos (p_selected p) (p_spent p) (inputs tx) in
  if valid : bool then
    let? id := txid tx in
    let fees := match pool_get pool id with
                | Some entry => saturating_add (p_fees p) (e_fee entry)
                | None => p_fees p
                end in
    Ok (mkPicked (p_selected p ++ [tx]) fees (spent_set tx ∪ p_spent p))
  else Ok p.

Definition build_template (chain : ChainTree) (utxos : UtxoSet) (pool : Mempool) (compact_target : N)
    (miner_locking_condition : list byte) (now : N) : outcome MiningError BlockTemplate :=
  let tip_hash := canonical_tip chain in
  let? tip_node := ok_or (get_node chain tip_hash) CanonicalTipMissing in
  let height := wrap64 (height tip_node + 1) in
  let now := N.max now (saturating_add (timestamp (header (node_block tip_node))) 1) in
  let subsidy := calculate_block_reward height in
  let candidate_txs := (select_transactions_for_block pool MAX_BLOCK_PAYLOAD_SIZE).1 in
  let? picked := ofold (pick_transaction utxos pool) candidate_txs (mkPicked [] 0 ∅) in
  let? coinbase_value := ok_or (checked_add subsidy (p_fees picked)) MiningOverflow in
  let coinbase := new_coinbase height [mkTxOut coinbase_value miner_locking_condition] in
  let transactions := coinbase :: p_selected picked in
  let '(prospective_utxos, applied) := apply_block transactions height utxos in
  let? _ := map_err (λ _, MiningOverflow) applied in
  let? root := compute_utxo_root prospective_utxos in
  Ok (mkBlockTemplate tip_hash height compact_target transactions root now).
End template.

(** ** The nonce search *)

(** What the scheduler and the other threads decide: at which polls a thread
    sees the cancellation or the flag of a found solution, whether the search
    is cancelled at its end, how many threads run, and which of the threads
    that found a nonce stored it last. *)
Record Schedule := mkSchedule {
  parallelism : option N;
  cancel_seen : N → N → bool;
  found_seen : N → N → bool;
  cancel_final : bool;
  last_writer : nat
}.

Section search.
Context {B3 : Blake3}.

(** [header_bytes[len - 8..len].copy_from_slice(&nonce_bytes)]. *)
Definition patch_nonce (bytes : list byte) (nonce : N) : list byte :=
  if (8 <=? length bytes)%nat then take (length bytes - 8) bytes ++ le_bytes 8 nonce else bytes.

Inductive ScanResult := ScanFound (nonce : N) | ScanStopped | ScanExhausted.

(** The loop over [count] nonces from [start]; [i] counts the iterations. *)
Fixpoint scan (target : Target) (stop : N → bool) (bytes : list byte) (start i : N) (count : nat) :
    ScanResult :=
  match count with
  | O => ScanExhausted
  | S count =>
      if (N.land i 4095 =? 0) && stop i then ScanStopped
      else
        let nonce := wrap64 (start + i) in
        let bytes := patch_nonce bytes nonce in
        if is_met_by target (blake3 bytes) then ScanFound nonce
        else scan target stop bytes start (i + 1) count
  end.

Definition num_threads (s : Schedule) : N :=
  match parallelism s with Some n => N.min n 8 | None => 4 end.

(** The part of the range thread [t] of [n] searches. *)
Definition thread_start (start_nonce chunk_size t : N) : N := wrap64 (start_nonce + t * chunk_size).
Definition thread_count (max_iterations chunk_size n t : N) : N :=
  if t =? n - 1 then max_iterations - t * chunk_size else chunk_size.

Definition thread_scan (target : Target) (bytes : list byte) (start_nonce max_iterations n : N)
    (s : Schedule) (t : N) : ScanResult :=
  let chunk_size := max_iterations / n in
  scan target (λ i, cancel_seen s t i || found_seen s t i) bytes
    (thread_start start_nonce chunk_size t) 0 (N.to_nat (thread_count max_iterations chunk_size n t)).

Definition found_nonces (results : list ScanResult) : list N :=
  omap (λ r, match r with ScanFound n => Some n | _ => None end) results.

Definition thread_ids (n : N) : list N := N.of_nat <$> seq 0 (N.to_nat n).

Definition with_nonce (h : BlockHeader) (n : N) : BlockHeader :=
  mkBlockHeader (version h) (previous_block_hash h) (transaction_commitment h) (utxo_root h)
    (timestamp h) (difficulty_target h) n.

Definition run_pow_search (t : BlockTemplate) (start_nonce max_iterations : N) (s : Schedule) :
    outcome MiningError BlockHeader :=
  let target := template_target t in
  let? initial_header := build_header t start_nonce in
  let? proto_bytes := map_err (λ _, ExhaustedNonce (t_height t) 0) (to_canonical_bytes initial_header) in
  let n := num_threads s in
  if (max_iterations <? 100000) || (n <=? 1) then
    match scan target (cancel_seen s 0) proto_bytes start_nonce 0 (N.to_nat max_iterations) with
    | ScanFound nonce => Ok (with_nonce initial_header nonce)
    | ScanStopped => Err (Cancelled (t_height t))
    | ScanExhausted => Err (ExhaustedNonce (t_height t) max_iterations)
    end
  else
    let found := found_nonces (thread_scan target proto_bytes start_nonce max_iterations n s <$> thread_ids n) in
    if cancel_final s then Err (Cancelled (t_height t))
    else
      match found !! (last_writer s mod length found)%nat with
      | Some nonce => Ok (with_nonce initial_header nonce)
      | None => Err (ExhaustedNonce (t_height t) max_iterations)
      end.
End search.

(** ** The nonce search, proved *)

Section search_lemmas.
Context {B3 : Blake3}.

Lemma patch_nonce_header h n : patch_nonce (header_bytes h) n = header_bytes (with_nonce h n).
Proof.
  unfold patch_nonce. rewrite length_header_bytes. change (8 <=? 120)%nat with true. cbv iota.
  unfold header_bytes at 1 2. rewrite !app_assoc. rewrite take_app_length'; [by rewrite <- !app_assoc|].
  by rewrite !length_app, !hash_length, !length_le_bytes.
Qed.

Definition solves (target : Target) (h : BlockHeader) (n : N) : Prop :=
  is_met_by target (blake3 (header_bytes (with_nonce h n))) = true.

Lemma solves_pow target h n : solves target h n ↔ verify_pow (with_nonce h n) target = Ok tt.
Proof.
  unfold solves, verify_pow, compute_pow_hash. rewrite header_hash_ok. cbn [obind].
  by destruct (is_met_by _ _).
Qed.

(** What a scan of [count] nonces found out. *)
Inductive scanned (target : Target) (stop : N → bool) (h : BlockHeader) (start i : N) (count : nat) :
    ScanResult → Prop :=
| scanned_found j :
    i ≤ j < i + N.of_nat count → solves target h (wrap64 (start + j)) →
    scanned target stop h start i count (ScanFound (wrap64 (start + j)))
| scanned_stopped j :
    i ≤ j < i + N.of_nat count → stop j = true → scanned target stop h start i count ScanStopped
| scanned_exhausted :
    (∀ j, i ≤ j < i + N.of_nat count → ¬ solves target h (wrap64 (start + j))) →
    scanned target stop h start i count ScanExhausted.

Lemma scan_spec target stop h start count : ∀ n i,
  scanned target stop h start i count (scan target stop (header_bytes (with_nonce h n)) start i count).
Proof.
  induction count as [|count IH]; intros n i; cbn [scan]; [apply scanned_exhausted; lia|].
  destruct (N.land i 4095 =? 0); cbn [andb].
  1: destruct (stop i) eqn:Hs; [by apply scanned_stopped with i; [lia|]|].
  all: rewrite patch_nonce_header; cbn [with_nonce];
    change (with_nonce (with_nonce h n) ?m) with (with_nonce h m);
    destruct (is_met_by target _) eqn:Hm; [by apply scanned_found; [lia|]|];
    (destruct (IH (wrap64 (start + i)) (i + 1)) as [j Hj Hf|j Hj Hf|Hf];
     [by apply scanned_found; [lia|]|by apply scanned_stopped with j; [lia|]|]);
    apply scanned_exhausted; intros j Hj; (destruct (N.eq_dec j i) as [->|]; [unfold solves; by rewrite Hm|]);
    apply Hf; lia.
Qed.

(** The chunks of the threads are the range. *)
Lemma chunk_partition start max n j :
  0 < n → j < max →
  ∃ t k, t < n ∧ k < thread_count max (max / n) n t ∧
    wrap64 (start + j) = wrap64 (thread_start start (max / n) t + k).
Proof.
  intros Hn Hj. set (c := max / n). assert (Hc : n * c ≤ max) by apply N.Div0.mul_div_le.
  assert (HW : ∀ t k, j = t * c + k → wrap64 (start + j) = wrap64 (thread_start start c t + k)).
  { intros t k ->. unfold thread_start, wrap64. rewrite N.add_assoc. by rewrite N.Div0.add_mod_idemp_l. }
  destruct (N.lt_ge_cases j ((n - 1) * c)) as [Hlt|Hge].
  - assert (c ≠ 0) by nia. exists (j / c), (j mod c).
    assert (j / c < n - 1) by (apply N.Div0.div_lt_upper_bound; lia).
    split; [lia|]. unfold thread_count. destruct (N.eqb_spec (j / c) (n - 1)); [lia|].
    split; [by apply N.mod_lt|]. apply HW. rewrite N.mul_comm. by apply N.div_mod.
  - exists (n - 1), (j - (n - 1) * c). split; [lia|]. unfold thread_count. rewrite N.eqb_refl.
    split; [lia|]. apply HW. lia.
Qed.

Lemma chunk_inside start max n t k :
  t < n → k < thread_count max (max / n) n t →
  ∃ j, j < max ∧ wrap64 (thread_start start (max / n) t + k) = wrap64 (start + j).
Proof.
  intros Ht Hk. exists (t * (max / n) + k). split.
  - assert (Hc : n * (max / n) ≤ max) by apply N.Div0.mul_div_le. unfold thread_count in Hk.
    destruct (N.eqb_spec t (n - 1)); [nia|]. assert ((t + 1) * (max / n) ≤ max) by nia. lia.
  - unfold thread_start, wrap64. rewrite N.add_assoc. by rewrite N.Div0.add_mod_idemp_l.
Qed.

Context (t : BlockTemplate) (start_nonce max_iterations : N) (s : Schedule) (h : BlockHeader).
Notation target := (template_target t).
Notation bytes := (header_bytes h).
Notation results := (thread_scan target bytes start_nonce max_iterations (num_threads s) s <$> thread_ids (num_threads s)).

(** A schedule the machine can produce: a flag is only seen when it was
    raised, and a cancellation is not withdrawn. *)
Record fair : Prop := {
  fair_found : ∀ i t, found_seen s i t = true → found_nonces results ≠ [];
  fair_cancel : ∀ i t, cancel_seen s i t = true → cancel_final s = true
}.

Lemma elem_of_thread_ids n i : i ∈ thread_ids n ↔ i < n.
Proof.
  unfold thread_ids. rewrite list_elem_of_fmap. split.
  - intros (m & -> & Hm%elem_of_seq). lia.
  - intros Hi. exists (N.to_nat i). split; [lia|]. apply elem_of_seq. lia.
Qed.

Lemma elem_of_found n :
  n ∈ found_nonces results ↔
  ∃ i, i < num_threads s ∧ thread_scan target bytes start_nonce max_iterations (num_threads s) s i = ScanFound n.
Proof.
  unfold found_nonces. rewrite list_elem_of_omap. split.
  - intros (r & (i & -> & Hi%elem_of_thread_ids)%list_elem_of_fmap & Hr). exists i. split; [done|].
    by destruct (thread_scan _ _ _ _ _ _ i); simplify_eq.
  - intros (i & Hi & Hr). exists (ScanFound n). split; [|done].
    apply list_elem_of_fmap. exists i. split; [done|]. by apply elem_of_thread_ids.
Qed.

Lemma thread_scan_spec i :
  scanned target (λ j, cancel_seen s i j || found_seen s i j) h
    (thread_start start_nonce (max_iterations / num_threads s) i) 0
    (N.to_nat (thread_count max_iterations (max_iterations / num_threads s) (num_threads s) i))
    (thread_scan target bytes start_nonce max_iterations (num_threads s) s i).
Proof. unfold thread_scan. replace h with (with_nonce h (nonce h)) at 2 by by destruct h. apply scan_spec. Qed.

(** A stored nonce is a solution from the range. *)
Lemma found_in_range n :
  n ∈ found_nonces results →
  ∃ j, j < max_iterations ∧ n = wrap64 (start_nonce + j) ∧ solves target h n.
Proof.
  intros (i & Hi & Hr)%elem_of_found. pose proof (thread_scan_spec i) as Hs. rewrite Hr in Hs.
  inversion Hs as [k Hk Hf Ek| |]; subst.
  destruct (chunk_inside start_nonce max_iterations (num_threads s) i k) as (j & Hj & E); [done|lia|].
  exists j. split; [done|]. by rewrite E in Hf |- *.
Qed.

(** When no thread found one and none was stopped, there is none. *)
Lemma none_found :
  0 < num_threads s → fair → cancel_final s = false → found_nonces results = [] →
  ∀ j, j < max_iterations → ¬ solves target h (wrap64 (start_nonce + j)).
Proof.
  intros Hn HF HC HN j Hj.
  destruct (chunk_partition start_nonce max_iterations (num_threads s) j Hn Hj) as (i & k & Hi & Hk & ->).
  pose proof (thread_scan_spec i) as Hs. destruct (thread_scan _ _ _ _ _ _ i) as [n| |] eqn:Hr.
  - exfalso. assert (HI : n ∈ found_nonces results) by (apply elem_of_found; by exists i).
    rewrite HN in HI. by apply elem_of_nil in HI.
  - exfalso. inversion Hs as [|m Hm Hstop|]; subst. apply orb_true_iff in Hstop as [Hc|Hc].
    + apply (fair_cancel HF) in Hc. congruence.
    + by apply (fair_found HF) in Hc.
  - inversion Hs as [| |Hx]; subst. apply Hx. lia.
Qed.

(** What the search may return. *)
Inductive searched : outcome MiningError BlockHeader → Prop :=
| searched_found j :
    j < max_iterations → solves target h (wrap64 (start_nonce + j)) →
    searched (Ok (with_nonce h (wrap64 (start_nonce + j))))
| searched_cancelled :
    cancel_final s = true ∨ (∃ i, cancel_seen s 0 i = true) → searched (Err (Cancelled (t_height t)))
| searched_exhausted :
    (fair → ∀ j, j < max_iterations → ¬ solves target h (wrap64 (start_nonce + j))) →
    searched (Err (ExhaustedNonce (t_height t) max_iterations)).

Lemma run_pow_cases :
  build_header (E := MiningError) t start_nonce = Ok h → 0 < num_threads s →
  searched (run_pow_search t start_nonce max_iterations s).
Proof.
  intros Hh Hn. unfold run_pow_search. rewrite Hh. cbn [obind]. rewrite header_to_canonical_bytes. cbn [obind map_err].
  destruct ((max_iterations <? 100000) || (num_threads s <=? 1)) eqn:Hmode.
  - replace h with (with_nonce h (nonce h)) at 1 by by destruct h.
    destruct (scan_spec target (cancel_seen s 0) h start_nonce (N.to_nat max_iterations) (nonce h) 0)
      as [j Hj Hf|j Hj Hs|Hx].
    + apply searched_found; [lia|done].
    + apply searched_cancelled. right. by exists j.
    + apply searched_exhausted. intros _ j Hj. apply Hx. lia.
  - destruct (cancel_final s) eqn:HC; [apply searched_cancelled; by left|].
    destruct (found_nonces results !! _) as [n|] eqn:Hl.
    + apply list_elem_of_lookup_2, found_in_range in Hl as (j & Hj & -> & Hf). by apply searched_found.
    + apply searched_exhausted. intros HF. apply none_found; [done..|].
      apply lookup_ge_None in Hl. destruct (found_nonces results) as [|x l]; [done|].
      pose proof (Nat.mod_upper_bound (last_writer s) (length (x :: l))). simpl in *. lia.
Qed.
End search_lemmas.

(** ** The template, proved *)

Section template_lemmas.
Context {B3 : Blake3}.

(** The fee the pool has recorded for a transaction. *)
Definition recorded_fee (pool : Mempool) (tx : Transaction) : N :=
  match txid (E := MiningError) tx with
  | Ok id => from_option e_fee 0 (entries pool !! id)
  | _ => 0
  end.
Definition recorded_fees (pool : Mempool) (txs : list Transaction) : N :=
  foldr (λ tx n, recorded_fee pool tx + n) 0 txs.

Lemma recorded_fees_snoc pool txs tx :
  recorded_fees pool (txs ++ [tx]) = recorded_fees pool txs + recorded_fee pool tx.
Proof. unfold recorded_fees. induction txs as [|x txs IH]; simpl; [lia|]. rewrite IH. lia. Qed.

(** An output the block can spend: unspent on the chain, or of an earlier
    transaction of the block. *)
Definition available (utxos : UtxoSet) (selected : list Transaction) (o : OutPoint) : Prop :=
  is_Some (utxos !! o) ∨
  ∃ tx, tx ∈ selected ∧ txid (E := MiningError) tx = Ok (op_txid o) ∧
    op_index o < N.of_nat (length (outputs tx)).

Lemma provided_by_Ok selected o b :
  provided_by (E := MiningError) selected o = Ok b →
  b = true ↔ ∃ tx, tx ∈ selected ∧ txid (E := MiningError) tx = Ok (op_txid o) ∧
    op_index o < N.of_nat (length (outputs tx)).
Proof.
  revert b; induction selected as [|tx l IH]; intros b; simpl.
  { intros [= <-]. split; [done|]. by intros (? & ?%elem_of_nil & _). }
  intros (id & Hid & H)%obind_Ok.
  case_bool_decide as E; cbn [andb] in H.
  1: destruct (N.ltb_spec (op_index o) (N.of_nat (length (outputs tx)))) as [Hlt|Hge].
  1: { injection H as <-. split; [|done]. intros _. exists tx. split; [left|]. by rewrite Hid, E. }
  all: rewrite (IH _ H); split; intros (x & Hx & Hi & Hl); exists x; (split; [|done]).
  1,3: by right.
  all: apply elem_of_cons in Hx as [->|Hx]; [|done].
  - lia.
  - rewrite Hid in Hi. congruence.
Qed.

Lemma all_inputs_valid_Ok utxos selected spent ins b :
  all_inputs_valid (E := MiningError) utxos selected spent ins = Ok b →
  b = true ↔ Forall (λ i, previous_output i ∉ spent ∧ available utxos selected (previous_output i)) ins.
Proof.
  revert b; induction ins as [|i ins IH]; intros b; simpl; [intros [= <-]; by split|].
  rewrite Forall_cons. case_bool_decide as Hs; [intros [= <-]; naive_solver|].
  intros (f & Hf & H)%obind_Ok.
  assert (HA : f = true ↔ available utxos selected (previous_output i)).
  { unfold available. unfold utxo_contains in Hf. case_bool_decide as Hu.
    - injection Hf as <-. naive_solver.
    - rewrite (provided_by_Ok _ _ _ Hf). naive_solver. }
  destruct f.
  - rewrite (IH _ H). naive_solver.
  - injection H as <-. split; [done|]. intros [[_ HA'] _]. by apply HA in HA'.
Qed.

(** What the loop has chosen from the candidates [l]: in their order, without
    double spends, every input available, the fees as recorded; a candidate is
    only left out when one of its inputs is spent or unavailable. *)
Definition spent_by (txs : list Transaction) : gset OutPoint := ⋃ (spent_set <$> txs).
Definition includable (utxos : UtxoSet) (pre : list Transaction) (tx : Transaction) : Prop :=
  Forall (λ i, previous_output i ∉ spent_by pre ∧ available utxos pre (previous_output i)) (inputs tx).

Inductive chosen (utxos : UtxoSet) : list Transaction → list Transaction → Prop :=
| chosen_nil : chosen utxos [] []
| chosen_take l sel tx :
    chosen utxos l sel → includable utxos sel tx → chosen utxos (l ++ [tx]) (sel ++ [tx])
| chosen_skip l sel tx :
    chosen utxos l sel → ¬ includable utxos sel tx → chosen utxos (l ++ [tx]) sel.

Lemma elem_of_spent_by txs o : o ∈ spent_by txs ↔ ∃ tx, tx ∈ txs ∧ o ∈ spent_set tx.
Proof.
  unfold spent_by. rewrite elem_of_union_list. setoid_rewrite list_elem_of_fmap. naive_solver.
Qed.

Lemma spent_by_snoc txs tx : spent_by (txs ++ [tx]) = spent_set tx ∪ spent_by txs.
Proof.
  unfold spent_by. rewrite fmap_app, union_list_app_L. cbn. rewrite (right_id_L ∅ _). apply union_comm_L.
Qed.

Lemma pick_loop utxos pool l p :
  ofold (pick_transaction (E := MiningError) utxos pool) l (mkPicked [] 0 ∅) = Ok p →
  chosen utxos l (p_selected p) ∧ p_fees p = N.min (recorded_fees pool (p_selected p)) U64_MAX ∧
  p_spent p = spent_by (p_selected p).
Proof.
  revert p; induction l as [|tx l IH] using rev_ind; intros p.
  { intros [= <-]. split; [constructor|]. done. }
  rewrite ofold_app. intros (q & Hq & H)%obind_Ok. destruct (IH q Hq) as (HC & HF & HS).
  cbn [ofold] in H. apply obind_Ok in H as (p' & H & [= <-]). unfold pick_transaction in H.
  apply obind_Ok in H as (b & Hb & H). pose proof (all_inputs_valid_Ok _ _ _ _ _ Hb) as HV. rewrite HS in HV.
  destruct b.
  - apply obind_Ok in H as (id & Hid & [= <-]). cbn [p_selected p_fees p_spent].
    split; [apply chosen_take; [done|by apply HV]|]. rewrite spent_by_snoc, HS. split; [|done].
    rewrite recorded_fees_snoc. unfold recorded_fee, pool_get. rewrite Hid.
    destruct (entries pool !! id); cbn [from_option]; unfold saturating_add; lia.
  - injection H as <-. split; [|done]. apply chosen_skip; [done|]. intros HI. by apply HV in HI.
Qed.

Lemma chosen_sublist utxos l sel : chosen utxos l sel → sublist sel l.
Proof. induction 1; [done|by apply sublist_app|by apply sublist_inserts_r]. Qed.

(** Everything a template fixes. *)
Record template_of (chain : ChainTree) (utxos : UtxoSet) (pool : Mempool) (compact : N)
    (lock : list byte) (now : N) (t : BlockTemplate) (tip : BlockNode) (sel : list Transaction)
    (fees : N) (s' : UtxoSet) : Prop := {
  tpl_tip : nodes chain !! canonical_tip chain = Some tip;
  tpl_previous : t_previous t = canonical_tip chain;
  tpl_height : t_height t = wrap64 (height tip + 1);
  tpl_compact : t_compact t = compact;
  tpl_timestamp : t_timestamp t = N.max now (saturating_add (timestamp (header (node_block tip))) 1);
  tpl_selected : chosen utxos (select_transactions_for_block pool MAX_BLOCK_PAYLOAD_SIZE).1 sel;
  tpl_transactions : t_transactions t =
    new_coinbase (t_height t)
      [mkTxOut (get_block_subsidy (t_height t) + N.min (recorded_fees pool sel) U64_MAX) lock] :: sel;
  tpl_reward : get_block_subsidy (t_height t) + N.min (recorded_fees pool sel) U64_MAX ≤ U64_MAX;
  tpl_step : block_step utxos (t_transactions t) (t_height t) fees s';
  tpl_root : compute_utxo_root (E := MiningError) s' = Ok (t_root t)
}.

Lemma build_template_Ok chain utxos pool compact lock now t :
  build_template chain utxos pool compact lock now = Ok t →
  ∃ tip sel fees s', template_of chain utxos pool compact lock now t tip sel fees s'.
Proof.
  unfold build_template. intros (tip & Htip%ok_or_Ok & H)%obind_Ok.
  apply obind_Ok in H as (p & Hp & H). apply obind_Ok in H as (v & Hv%ok_or_Ok & H).
  destruct (apply_block _ _ utxos) as [s' r] eqn:HA. apply obind_Ok in H as (fees & Hr%map_err_Ok & H).
  subst r. apply obind_Ok in H as (root & Hroot & [= <-]).
  destruct (pick_loop _ _ _ _ Hp) as (HC & HF & _).
  unfold checked_add in Hv. destruct (N.leb_spec (calculate_block_reward (wrap64 (height tip + 1)) + p_fees p) U64_MAX);
    [|done]. injection Hv as <-. rewrite HF in *.
  exists tip, (p_selected p), fees, s'. split; cbn; try done. by apply apply_block_Ok.
Qed.
End template_lemmas.

(** ** A mined block becomes the tip *)

Section mined.
Context {B3 : Blake3} {V : BlockTransactionVerifier}.

(** The error type of a caller does not change a result. *)
Lemma utxo_root_any {E F} s r : compute_utxo_root (E := E) s = Ok r → compute_utxo_root (E := F) s = Ok r.
Proof.
  unfold compute_utxo_root, utxo_root_of, compute_utxo_merkle_root. case_bool_decide; [by intros [= <-]|].
  generalize ((λ p, compute_utxo_leaf p.1 (output p.2)) <$> sort_by fst (map_to_list s)) as l.
  intros l. generalize (length l) as fuel. intros fuel; revert l; induction fuel as [|fuel IH]; intros l; [done|].
  cbn [merkle_loop]. destruct (1 <? length l)%nat; [apply IH|]. destruct l; [done|by intros [= <-]].
Qed.

Lemma commitment_any {E F} l acc bs :
  ofold (E := E) (λ bytes tx, let? id := txid tx in Ok (bytes ++ hash_bytes id)) l acc = Ok bs →
  ofold (E := F) (λ bytes tx, let? id := txid tx in Ok (bytes ++ hash_bytes id)) l acc = Ok bs ∧
  (acc ≠ [] ∨ l ≠ [] → bs ≠ []).
Proof.
  revert acc; induction l as [|tx l IH]; intros acc; cbn [ofold]; [intros [= <-]; split; [done|naive_solver]|].
  intros (a & (id & Hid & [= <-])%obind_Ok & H)%obind_Ok.
  assert (Hid' : txid (E := F) tx = Ok id) by (unfold txid in *; by destruct (to_canonical_bytes tx); simplify_eq).
  rewrite Hid'. cbn [obind]. destruct (IH _ H) as [H1 H2]. split; [done|]. intros _. apply H2. left.
  intros E0%app_eq_nil. destruct E0 as [_ E0]. pose proof (hash_length id). by rewrite E0 in *.
Qed.

(** The header commits to the transactions of the template. *)
Lemma build_header_commitment t nonce h :
  build_header (E := MiningError) t nonce = Ok h → t_transactions t ≠ [] →
  ∃ c, transaction_commitment_of (E := ConsensusError) (mkBlock h (t_transactions t)) = Ok c ∧
    h = mkBlockHeader 1 (t_previous t) c (t_root t) (t_timestamp t) (t_compact t) nonce.
Proof.
  unfold build_header, compute_transaction_commitment, transaction_commitment_of.
  intros (c & (bs & Hbs & [= <-])%obind_Ok & [= <-])%obind_Ok Hne.
  destruct (commitment_any (F := ConsensusError) _ _ _ Hbs) as [Hc Hb]. cbn [transactions]. rewrite Hc.
  rewrite bool_decide_eq_false_2 by (apply Hb; by right). by eexists.
Qed.

Lemma structure_of_step s txs h fees s' hd :
  block_step s txs h fees s' → validate_structure (mkBlock hd txs) = Ok tt.
Proof.
  intros (cb & rest & s1 & -> & Hcb & _ & HT & _). unfold validate_structure. cbn [transactions].
  rewrite Hcb. cbn [negb]. generalize 1. induction HT as [|s0 tx txs fee fees s2 s3 Hc Hst HT IH]; intros i; [done|].
  cbn [validate_non_coinbase]. rewrite Hc. destruct Hst as (_ & _ & _ & _ & HV%validate_stateless_Ok & _).
  rewrite HV. apply IH.
Qed.

(** A node on top of the canonical tip is connected by applying it alone. *)
Lemma reorganize_tip genesis k st n path s' :
  chain_inv genesis k st → extends (nodes st.1) n path st.2 s' → parent_hash n = canonical_tip st.1 →
  connectable n st.2 s' →
  reorganize n st =
    ((mkChainTree (<[node_hash n := n]> (nodes st.1)) (node_hash n) (max_reorg_depth st.1) (invalid_blocks st.1), s'),
     Ok (Some (mkReorgResult (canonical_tip st.1) (node_hash n) [] [node_block n] []))).
Proof.
  intros Hinv Hext Hpar [Hver Hroot]. pose proof (inv_nodes _ _ _ Hinv) as Hwf.
  pose proof (ext_ledger _ _ _ _ _ Hext) as HL. destruct st as [t u]. cbn [fst snd] in *.
  destruct (ext_valid _ _ _ _ _ Hext) as [fees HA]. destruct (ext_link _ _ _ _ _ Hext) as (p & Hp & _).
  unfold reorganize. rewrite sbind_sget, Hpar. rewrite Hpar in HL, Hp.
  assert (HF : find_common_ancestor t (canonical_tip t) (canonical_tip t) = Ok (canonical_tip t)).
  { unfold find_common_ancestor. by rewrite bool_decide_eq_true_2. }
  rewrite HF, sbind_lift_Ok.
  assert (HU : ∀ fuel : nat, (0 < fuel)%nat →
            until_loop (E := ChainError) fuel (nodes t) (canonical_tip t) (canonical_tip t) = Ok []).
  { intros [|fuel]; [lia|]. intros _. cbn [until_loop]. by rewrite bool_decide_eq_true_2. }
  pose proof (link_fuel_enough (nodes t) _ _ Hp) as Hfuel.
  rewrite HU, sbind_lift_Ok by lia. cbn [length N.of_nat].
  change (N.of_nat 0) with 0. destruct (N.ltb_spec (max_reorg_depth t) 0); [lia|]. rewrite sbind_lift_Ok.
  rewrite bool_decide_eq_true_2, sbind_lift_Ok by done. cbn [reverse rev_append app connect_nodes].
  unfold connect_node. unfold sbind at 1 2. rewrite sbind_sget. cbn [fst snd].
  rewrite Hpar, (path_headers_ok genesis _ Hwf t _ path u eq_refl HL), sbind_lift_Ok.
  rewrite (validate_of_authoritative _ _ _ _ _ _ HA), Hver.
  apply authoritative_apply in HA. rewrite apply_node_block by (exact (apply_block_nonempty _ _ _ _ _ HA)).
  rewrite HA, Hroot, sbind_lift_Ok, bool_decide_eq_true_2 by done. cbn [negb]. unfold sret at 1 2.
  rewrite sbind_smodify. cbn [fst snd].
  destruct (block_txids_total (E := ChainError) [node_block n]) as [ids Hids].
  { repeat constructor. by apply (ext_encodable _ _ _ _ _ Hext). }
  assert (HT : returned_transactions (E := ChainError) [] [node_block n] = Ok []).
  { unfold returned_transactions. rewrite Hids. done. }
  cbn [fmap list_fmap]. rewrite HT, sbind_lift_Ok. done.
Qed.

(** A valid block on the canonical tip, accepted by the verifier, becomes the
    new tip when its target is not the impossible one. *)
Lemma attach_tip genesis k st b p path s' :
  let id := blake3 (header_bytes (header b)) in
  chain_inv genesis k st → nodes st.1 !! canonical_tip st.1 = Some p →
  previous_block_hash (header b) = canonical_tip st.1 → nodes st.1 !! id = None → block_encodable b →
  timestamp (header (node_block p)) < timestamp (header b) →
  ledger (nodes st.1) (canonical_tip st.1) path st.2 →
  (∃ fees, authoritative b (height p + 1) st.2 (mtp_of path) fees s') →
  target_val (from_compact (difficulty_target (header b))) ≠ 0 →
  is_Some (work_checked_add (cumulative_work p) (block_work (from_compact (difficulty_target (header b))))) →
  verify_block_transactions b st.2 = Ok tt →
  compute_utxo_root (E := ChainError) s' = Ok (utxo_root (header b)) →
  ∃ n, node_hash n = id ∧ node_block n = b ∧
    attach_block b id p (height p + 1) st =
      ((mkChainTree (<[id := n]> (nodes st.1)) id (max_reorg_depth st.1) (invalid_blocks st.1), s'),
       Ok (Some (mkReorgResult (canonical_tip st.1) id [] [b] []))).
Proof.
  intros id Hinv Hp Hpar Hnew He Hts HL HA Htarget [cum Hcum] Hver Hroot.
  unfold attach_block. rewrite sbind_sget, Hcum. cbn [ok_or]. rewrite sbind_lift_Ok, Hp. cbn [expect].
  rewrite sbind_lift_Ok. destruct (inv_nodes _ _ _ Hinv _ _ Hp) as (_ & _ & _ & _ & Wp & _).
  set (w := block_work _) in *. destruct (block_work_pos _ Htarget) as [_ Hpos]. fold w in Hpos.
  pose proof (work_checked_add_spec (cumulative_work p) w Wp (proj1 (block_work_val _))) as HW.
  rewrite Hcum in HW. destruct HW as [Wc HV].
  assert (HLe : work_leb cum (cumulative_work p) = false).
  { rewrite work_leb_val by done. apply N.leb_gt. lia. }
  rewrite HLe. set (n := mkBlockNode _ _ _ _ cum b).
  assert (Hext : extends (nodes st.1) n path st.2 s').
  { split; try done; cbn [parent_hash n]; rewrite Hpar; [done|]. exists p. split; [exact Hp|]. split; [done|].
    split; [exact Hts|exact Hcum]. }
  rewrite (reorganize_tip genesis k st n path s' Hinv Hext Hpar (conj Hver Hroot)). by exists n.
Qed.

(** ** What a template meets on its way into the chain *)

Context (gb : Block) (k : N) (st : ChainState) (pool : Mempool) (lock : list byte) (time nonce now : N).
Context (compact : N) (t : BlockTemplate) (h0 : BlockHeader) (tip : BlockNode).
Notation solved := (with_nonce h0 nonce).
Notation block := (assemble_block t solved).
Notation block_id := (blake3 (header_bytes solved)).

(** A template on a reachable state, its header solved, with the target of its
    parent; the clock agrees and the block is new. *)
Record mining_conditions : Prop := {
  mc_reachable : reachable gb k st;
  mc_bound : k < U64_MAX;
  mc_template : build_template st.1 st.2 pool compact lock time = Ok t;
  mc_header : build_header (E := MiningError) t 0 = Ok h0;
  mc_pow : verify_pow solved (template_target t) = Ok tt;
  mc_tip : nodes st.1 !! canonical_tip st.1 = Some tip;
  mc_compact : compact = difficulty_target (header (node_block tip));
  mc_encodable : block_encodable block;
  mc_tip_time : timestamp (header (node_block tip)) < U64_MAX;
  mc_clock : t_timestamp t ≤ now + MAX_FUTURE_DRIFT;
  mc_now : now + MAX_FUTURE_DRIFT ≤ U64_MAX;
  mc_new : nodes st.1 !! block_id = None;
  mc_valid : is_block_invalid st.1 block_id = false ∧ is_block_invalid st.1 (canonical_tip st.1) = false
}.

End mined.

Section acceptance.
Context {B3 : Blake3} {V : BlockTransactionVerifier} {VR : VerifierReturns}.

(** The heights at which the target is recomputed. *)
Definition retarget_height (height : N) : Prop :=
  DEFAULT_DIFFICULTY_EPOCH_BLOCKS ≤ height ∧ height mod DEFAULT_DIFFICULTY_EPOCH_BLOCKS = 0.

Lemma retarget_height_spec h :
  (DEFAULT_DIFFICULTY_EPOCH_BLOCKS <=? h) && (h mod DEFAULT_DIFFICULTY_EPOCH_BLOCKS =? 0) = true ↔ retarget_height h.
Proof. unfold retarget_height. by rewrite andb_true_iff, N.leb_le, N.eqb_eq. Qed.

(** Up to the target, processing a mined block goes through. *)
Lemma mined_prefix gb k st pool lock time nonce now compact t h0 tip :
  let block := assemble_block t (with_nonce h0 nonce) in
  let block_id := blake3 (header_bytes (with_nonce h0 nonce)) in
  mining_conditions gb k st pool lock time nonce now compact t h0 tip →
  ∃ path sel fees s',
    template_of st.1 st.2 pool compact lock time t tip sel fees s' ∧
    chain_inv (genesis_node gb) k st ∧ t_height t = height tip + 1 ∧
    ledger (nodes st.1) (canonical_tip st.1) path st.2 ∧
    header block = mkBlockHeader 1 (canonical_tip st.1) (transaction_commitment h0) (t_root t) (t_timestamp t) compact nonce ∧
    transaction_commitment_of (E := ConsensusError) block = Ok (transaction_commitment (header block)) ∧
    timestamp (header (node_block tip)) < t_timestamp t ∧
    process_block_with_verifier (Some now) block st =
      (let! target := slift (expected_target st.1 (canonical_tip st.1) tip (height tip + 1)) in
       let! _ := slift (check_header block tip target (Some now)) in
       match validate_block_authoritative_with_headers block (height tip + 1) st.2
               ((λ n, header (node_block n)) <$> path) with
       | Err e => reject [block_id] (chain_error_of block_id e)
       | Panic => slift Panic
       | Diverge => slift Diverge
       | Ok _ => attach_block block block_id tip (height tip + 1)
       end) st.
Proof.
  intros block block_id M. subst block block_id. destruct (build_template_Ok _ _ _ _ _ _ _ (mc_template _ _ _ _ _ _ _ _ _ _ _ _ M)) as (tip' & sel & fees & s' & HT).
  assert (tip' = tip) as -> by (pose proof (tpl_tip _ _ _ _ _ _ _ _ _ _ _ HT); pose proof (mc_tip _ _ _ _ _ _ _ _ _ _ _ _ M); congruence).
  destruct (reachable_inv gb k st (mc_reachable _ _ _ _ _ _ _ _ _ _ _ _ M)) as [Hinv _]; [pose proof (mc_bound _ _ _ _ _ _ _ _ _ _ _ _ M); lia|].
  destruct (inv_tip _ _ _ Hinv) as [path HL].
  assert (Hne : t_transactions t ≠ []) by (rewrite (tpl_transactions _ _ _ _ _ _ _ _ _ _ _ HT); done).
  destruct (build_header_commitment t 0 h0 (mc_header _ _ _ _ _ _ _ _ _ _ _ _ M) Hne) as (c & Hc & Hh0).
  assert (HH : header (assemble_block t (with_nonce h0 nonce)) = mkBlockHeader 1 (canonical_tip st.1) (transaction_commitment h0) (t_root t) (t_timestamp t) compact nonce).
  { rewrite Hh0. unfold with_nonce. cbn.
    by rewrite (tpl_previous _ _ _ _ _ _ _ _ _ _ _ HT), (tpl_compact _ _ _ _ _ _ _ _ _ _ _ HT). }
  assert (Hh : wrap64 (height tip + 1) = height tip + 1).
  { apply wrap64_small. pose proof (inv_height _ _ _ Hinv _ _ (mc_tip _ _ _ _ _ _ _ _ _ _ _ _ M)). pose proof (mc_bound _ _ _ _ _ _ _ _ _ _ _ _ M). lia. }
  assert (Hts : timestamp (header (node_block tip)) < t_timestamp t).
  { rewrite (tpl_timestamp _ _ _ _ _ _ _ _ _ _ _ HT). pose proof (mc_tip_time _ _ _ _ _ _ _ _ _ _ _ _ M). unfold saturating_add. lia. }
  exists path, sel, fees, s'. split; [done|]. split; [done|].
  split; [by rewrite (tpl_height _ _ _ _ _ _ _ _ _ _ _ HT)|]. split; [done|]. split; [done|].
  split. { rewrite Hh0. unfold transaction_commitment_of in *. exact Hc. }
  split; [done|]. unfold process_block_with_verifier.
  rewrite header_hash_ok, sbind_lift_Ok, sbind_sget. destruct st as [tr u]. cbn [fst snd] in *.
  pose proof (mc_new _ _ _ _ _ _ _ _ _ _ _ _ M) as Hnew. pose proof (mc_tip _ _ _ _ _ _ _ _ _ _ _ _ M) as Htip. cbn [fst] in Hnew, Htip.
  assert (HP : previous_block_hash (header (assemble_block t (with_nonce h0 nonce))) = canonical_tip tr) by by rewrite HH.
  destruct (mc_valid _ _ _ _ _ _ _ _ _ _ _ _ M) as [HV1 HV2]. cbn [fst] in HV1, HV2. cbn [header assemble_block] in HP |- *.
  rewrite HP, HV1, HV2. cbn [fst snd] in *.
  unfold assemble_block. rewrite (structure_of_step _ _ _ _ _ (with_nonce h0 nonce) (tpl_step _ _ _ _ _ _ _ _ _ _ _ HT)). cbn [map_err].
  rewrite sbind_lift_Ok, bool_decide_eq_false_2 by (rewrite Hnew; apply is_Some_None).
  rewrite Htip. cbn [ok_or]. rewrite sbind_lift_Ok, Hh.
  apply sbind_lift_cong; intros target _. apply sbind_lift_cong; intros [] _.
  unfold parent_state. rewrite bool_decide_eq_true_2, sbind_lift_Ok by done.
  rewrite (path_headers_ok _ _ (inv_nodes _ _ _ Hinv) tr _ path u eq_refl HL), sbind_lift_Ok.
  pose proof (mtp_below (genesis_node gb) tr path tip (assemble_block t (with_nonce h0 nonce)) u (inv_nodes _ _ _ Hinv)) as Hmtp.
  cbn [header assemble_block] in Hmtp.
  rewrite Hmtp, andb_false_r; [done|by rewrite HP|by rewrite HP|].
  rewrite Hh0. exact Hts.
Qed.

Notation M_ M f := (f _ _ _ _ _ _ _ _ _ _ _ _ M) (only parsing).

Lemma mined_header_ok gb k st pool lock time nonce now compact t h0 tip :
  let block := assemble_block t (with_nonce h0 nonce) in
  mining_conditions gb k st pool lock time nonce now compact t h0 tip →
  header block = mkBlockHeader 1 (canonical_tip st.1) (transaction_commitment h0) (t_root t) (t_timestamp t) compact nonce →
  timestamp (header (node_block tip)) < t_timestamp t → t_compact t = compact →
  check_header block tip (template_target t) (Some now) = Ok tt.
Proof.
  intros block M HH Hts Hc. unfold check_header, validate_block_target.
  rewrite HH. cbn [difficulty_target timestamp]. unfold template_target. rewrite Hc.
  rewrite bool_decide_eq_true_2 by done. cbn [negb map_err obind].
  pose proof (M_ M mc_pow) as HP. unfold template_target in HP. rewrite Hc in HP.
  change (with_nonce h0 nonce) with (header block) in HP. rewrite HH in HP. rewrite HP. cbn [map_err obind].
  destruct (N.leb_spec (t_timestamp t) (timestamp (header (node_block tip)))); [lia|]. cbn [ok_or obind].
  pose proof (M_ M mc_clock). pose proof (M_ M mc_now). unfold saturating_add.
  destruct (N.ltb_spec (N.min (now + MAX_FUTURE_DRIFT) U64_MAX) (t_timestamp t)); [lia|done].
Qed.

Lemma expected_target_between t parent p h :
  ¬ retarget_height h → expected_target t parent p h = Ok (from_compact (difficulty_target (header (node_block p)))).
Proof. intros HR. rewrite <- retarget_height_spec in HR. unfold expected_target. by destruct (_ && _). Qed.

(** A transaction no time lock holds back. *)
Definition final (tx : Transaction) : Prop := lock_time tx = 0 ∨ Forall (λ i, sequence i = U32_MAX) (inputs tx).

(** C14: A block made of a template whose header a nonce search has solved is
    accepted by the chain it was built for, and becomes its canonical tip
    without disconnecting anything, leaving the set of unspent outputs the
    template committed to. The conditions, all of them: the template is built on
    the state the block is processed in, reached in fewer than 2^64 steps, with
    the compact target of the tip; the header meets that target, which is not
    zero; the block can be encoded and is not stored yet; neither it nor the tip
    is marked invalid; the time of the tip is not the largest of 64 bits, and the
    time of the template is at most [MAX_FUTURE_DRIFT] ahead of the clock, which
    is itself that far from overflow; the height is not one that recomputes the
    target; no selected transaction is time locked; the recorded fees are not more
    than the actual ones, which fit 64 bits with the subsidy; the verifier accepts
    the block; and the cumulative work does not overflow. *)
Theorem mined_block_accepted (gb : Block) (k : N) (st : ChainState) (pool : Mempool) (lock : list byte)
    (time nonce now compact : N) (t : BlockTemplate) (h0 : BlockHeader) (tip : BlockNode)
    (block := assemble_block t (with_nonce h0 nonce))
    (block_id := blake3 (header_bytes (with_nonce h0 nonce)))
    (M : mining_conditions gb k st pool lock time nonce now compact t h0 tip)
    (Hheight : ¬ retarget_height (t_height t)) (Htarget : target_val (template_target t) ≠ 0)
    (Hfinal : Forall final (drop 1 (t_transactions t)))
    (Hfees : ∀ fees s', block_step st.2 (t_transactions t) (t_height t) fees s' →
       recorded_fees pool (drop 1 (t_transactions t)) ≤ fees ∧ get_block_subsidy (t_height t) + fees ≤ U64_MAX)
    (Hverify : verify_block_transactions block st.2 = Ok tt)
    (Hwork : is_Some (work_checked_add (cumulative_work tip) (block_work (template_target t)))) :
  let result := process_block_with_verifier (Some now) block st in
  result.2 = Ok (Some (mkReorgResult (canonical_tip st.1) block_id [] [block] [])) ∧
  canonical_tip result.1.1 = block_id ∧
  (∃ fees, apply_block (t_transactions t) (t_height t) st.2 = (result.1.2, Ok fees)) ∧
  compute_utxo_root (E := MiningError) result.1.2 = Ok (t_root t).
Proof.
  cbv zeta. subst block block_id.
  destruct (mined_prefix _ _ _ _ _ _ _ _ _ _ _ _ M)
    as (path & sel & fees & s' & HT & Hinv & Hh & HL & HH & HC & Hts & ->).
  pose proof (tpl_compact _ _ _ _ _ _ _ _ _ _ _ HT) as Hc. rewrite Hh in Hheight.
  rewrite (expected_target_between _ _ _ _ Hheight), <- (M_ M mc_compact), <- Hc, sbind_lift_Ok.
  change (from_compact (t_compact t)) with (template_target t).
  rewrite (mined_header_ok _ _ _ _ _ _ _ _ _ _ _ _ M HH Hts Hc), sbind_lift_Ok.
  pose proof (tpl_step _ _ _ _ _ _ _ _ _ _ _ HT) as Hstep. destruct (Hfees _ _ Hstep) as [Hrec Hmax].
  pose proof (tpl_transactions _ _ _ _ _ _ _ _ _ _ _ HT) as Htx.
  assert (HA : authoritative (assemble_block t (with_nonce h0 nonce)) (height tip + 1) st.2 (mtp_of path) fees s').
  { split; [by eapply structure_of_step|]. split; [done|]. rewrite <- Hh.
    split. { eapply Forall_impl; [exact Hfinal|]. intros tx [?|?]; [by left|by right; left]. }
    split; [done|]. split; [|done]. cbn [transactions assemble_block]. rewrite Htx in Hrec |- *.
    change (drop 1 (_ :: ?l)) with l in Hrec. cbn. lia. }
  rewrite (validate_of_authoritative _ _ _ _ _ _ HA).
  destruct (attach_tip (genesis_node gb) k st (assemble_block t (with_nonce h0 nonce)) tip path s')
    as (n & _ & _ & Hrun); try done.
  - exact (M_ M mc_tip).
  - by rewrite HH.
  - exact (M_ M mc_new).
  - exact (M_ M mc_encodable).
  - by rewrite HH.
  - by exists fees.
  - rewrite HH, <- Hc. exact Htarget.
  - rewrite HH, <- Hc. exact Hwork.
  - rewrite HH. eapply utxo_root_any. exact (tpl_root _ _ _ _ _ _ _ _ _ _ _ HT).
  - cbn [header assemble_block] in Hrun. rewrite Hrun. split; [done|]. split; [done|].
    split; [exists fees; by apply apply_block_Ok|]. exact (tpl_root _ _ _ _ _ _ _ _ _ _ _ HT).
Qed.

Lemma validate_lock_times_Err txs h mtp :
  ¬ Forall (lock_time_ok h mtp) txs → validate_lock_times txs h mtp = Err LockTimeNotMet.
Proof.
  induction txs as [|tx txs IH]; intros HN; [by destruct HN|]. cbn [validate_lock_times].
  destruct (validate_lock_time_cases tx h mtp) as [HE|HE]; rewrite HE; [|done]. apply IH.
  apply validate_lock_time_Ok in HE. by rewrite Forall_cons in HN; naive_solver.
Qed.

(** What a solved block of a template cannot pass. The miner takes the target
    of the parent: at a height where the chain recomputes it to another one,
    every block is refused. Neither the mempool nor the template looks at lock
    times: with one transaction that is not final at the block's height and
    median time, every block is refused and marked invalid. *)
Theorem template_rejections (gb : Block) (k : N) (st : ChainState) (pool : Mempool) (lock : list byte)
    (time nonce now compact : N) (t : BlockTemplate) (h0 : BlockHeader) (tip : BlockNode)
    (block := assemble_block t (with_nonce h0 nonce))
    (block_id := blake3 (header_bytes (with_nonce h0 nonce)))
    (M : mining_conditions gb k st pool lock time nonce now compact t h0 tip) :
  let result := process_block_with_verifier (Some now) block st in
  (∀ target, expected_target st.1 (canonical_tip st.1) tip (height tip + 1) = Ok target →
     target ≠ template_target t →
     result = (st, Err (ChainDifficulty (TargetMismatch target (template_target t))))) ∧
  (∀ path u, ¬ retarget_height (t_height t) → ledger (nodes st.1) (canonical_tip st.1) path u →
     ¬ Forall (lock_time_ok (t_height t) (mtp_of path)) (drop 1 (t_transactions t)) →
     result.2 = Err (ReorgFailed block_id (FailConsensus LockTimeNotMet)) ∧
     is_block_invalid result.1.1 block_id = true).
Proof.
  cbv zeta. subst block block_id.
  destruct (mined_prefix _ _ _ _ _ _ _ _ _ _ _ _ M)
    as (path & sel & fees & s' & HT & Hinv & Hh & HL & HH & HC & Hts & ->).
  pose proof (tpl_compact _ _ _ _ _ _ _ _ _ _ _ HT) as Hc. split.
  - intros target HE Hne. rewrite HE, sbind_lift_Ok. unfold check_header, validate_block_target.
    rewrite HH. cbn [difficulty_target]. rewrite <- Hc.
    change (from_compact (t_compact t)) with (template_target t). by rewrite bool_decide_eq_false_2.
  - intros path' u Hheight HL' HN. destruct (ledger_det _ _ _ _ _ _ HL' HL) as [-> ->].
    rewrite Hh in Hheight. rewrite (expected_target_between _ _ _ _ Hheight), <- (M_ M mc_compact), <- Hc, sbind_lift_Ok.
    change (from_compact (t_compact t)) with (template_target t).
    rewrite (mined_header_ok _ _ _ _ _ _ _ _ _ _ _ _ M HH Hts Hc), sbind_lift_Ok.
    assert (HV : validate_block_authoritative_with_headers (assemble_block t (with_nonce h0 nonce)) (height tip + 1)
              st.2 ((λ n, header (node_block n)) <$> path) = Err LockTimeNotMet).
    { unfold validate_block_authoritative_with_headers.
      pose proof (structure_of_step _ _ _ _ _ (with_nonce h0 nonce) (tpl_step _ _ _ _ _ _ _ _ _ _ _ HT)) as HS.
      unfold assemble_block in HC |- *. rewrite HS. cbn [map_err obind]. rewrite HC. cbn [obind].
      rewrite bool_decide_eq_true_2 by done. cbn [negb transactions].
      unfold mtp_of in HN. rewrite length_fmap, <- Hh, (validate_lock_times_Err _ _ _ HN). done. }
    rewrite HV. split; [done|]. unfold reject, sbind, smodify, slift, on_tree. cbn [fst foldl].
    unfold is_block_invalid, mark_block_invalid. cbn [invalid_blocks]. apply bool_decide_eq_true_2. set_solver.
Qed.
End acceptance.

(** ** Properties of the template and of the search *)

Section properties.
Context {B3 : Blake3}.

Lemma provided_by_total {E} selected o :
  Forall transaction_encodable selected → ∃ b, provided_by (E := E) selected o = Ok b.
Proof.
  induction 1 as [|tx l Htx HF IH]; [by eexists|]. cbn [provided_by].
  destruct (transaction_encodable_txid (E := E) tx Htx) as [id ->]. cbn [obind].
  destruct (_ && _); [by eexists|done].
Qed.

Lemma all_inputs_valid_total {E} utxos selected spent ins :
  Forall transaction_encodable selected → ∃ b, all_inputs_valid (E := E) utxos selected spent ins = Ok b.
Proof.
  intros HF. induction ins as [|i ins IH]; [by eexists|]. cbn [all_inputs_valid].
  case_bool_decide; [by eexists|]. destruct (utxo_contains utxos (previous_output i)); cbn [obind]; [done|].
  destruct (provided_by_total (E := E) selected (previous_output i) HF) as [[] ->]; cbn [obind]; [done|by eexists].
Qed.

Lemma pick_loop_total {E} utxos pool l p :
  Forall transaction_encodable l → Forall transaction_encodable (p_selected p) →
  ∃ p', ofold (pick_transaction (E := E) utxos pool) l p = Ok p'.
Proof.
  intros HF; revert p; induction HF as [|tx l Htx HF IH]; intros p Hp; [by eexists|]. cbn [ofold].
  unfold pick_transaction at 1.
  destruct (all_inputs_valid_total (E := E) utxos (p_selected p) (p_spent p) (inputs tx) Hp) as [[] ->]; cbn [obind].
  - destruct (transaction_encodable_txid (E := E) tx Htx) as [id ->]. cbn [obind]. apply IH. cbn [p_selected].
    apply Forall_app. split; [done|]. by apply Forall_singleton.
  - by apply IH.
Qed.

Lemma candidates_encodable pool :
  indexed pool → Forall transaction_encodable (select_transactions_for_block pool MAX_BLOCK_PAYLOAD_SIZE).1.
Proof.
  intros HI. destruct (select_transactions_cases pool MAX_BLOCK_PAYLOAD_SIZE ltac:(done) HI) as (es & Hpk & ->).
  cbn [fst]. apply Forall_fmap, Forall_forall. intros e He. cbn.
  eapply elem_of_sublist in He; [|exact (pk_sub _ _ _ _ Hpk)]. apply elem_of_sorted in He; [|done].
  destruct (ix_entry _ HI _ _ He) as (_ & HN & _). unfold MempoolEntry_new in HN.
  apply obind_Ok in HN as (id & Hid & _). apply transaction_encodable_spec. unfold txid in Hid.
  destruct (to_canonical_bytes (e_transaction e)) as [bs| | |]; [by exists bs|done..].
Qed.

Lemma chosen_subset utxos l sel : chosen utxos l sel → ∀ tx, tx ∈ sel → tx ∈ l.
Proof. intros HC tx Htx. eapply elem_of_sublist; [exact Htx|by eapply chosen_sublist]. Qed.

(** Once the candidates are chosen: the reward, then the transition. *)
Lemma build_template_tail chain utxos pool compact lock now tip sel :
  nodes chain !! canonical_tip chain = Some tip → indexed pool → N.of_nat (length lock) ≤ MAX_VECTOR_LENGTH →
  ofold (pick_transaction (E := MiningError) utxos pool) (select_transactions_for_block pool MAX_BLOCK_PAYLOAD_SIZE).1
    (mkPicked [] 0 ∅) = Ok sel →
  let h := wrap64 (height tip + 1) in
  let reward := get_block_subsidy h + N.min (recorded_fees pool (p_selected sel)) U64_MAX in
  is_ok (build_template chain utxos pool compact lock now) = true ∨
  build_template chain utxos pool compact lock now = Err MiningOverflow ∧
  (U64_MAX < reward ∨
   ∀ fees s', ¬ block_step utxos (new_coinbase h [mkTxOut reward lock] :: p_selected sel) h fees s').
Proof.
  intros Htip HI Hlock Hp h reward. destruct (pick_loop _ _ _ _ Hp) as (HC & HF & _).
  unfold build_template, get_node. rewrite Htip. cbn [ok_or obind]. rewrite Hp. cbn [obind].
  unfold calculate_block_reward, checked_add. rewrite HF. fold h reward.
  destruct (N.leb_spec reward U64_MAX) as [Hr|Hr]; cbn [ok_or obind]; [|by right; split; [|left]].
  assert (HE : Forall transaction_encodable (new_coinbase h [mkTxOut reward lock] :: p_selected sel)).
  { constructor.
    - split; [|by apply Forall_singleton]. apply Forall_singleton. unfold vec_fits. by vm_compute.
    - apply Forall_forall. intros tx Htx. pose proof (candidates_encodable pool HI) as HE.
      rewrite Forall_forall in HE. by eapply HE, chosen_subset. }
  pose proof (apply_block_returns _ h utxos HE) as [HP HD].
  destruct (apply_block _ h utxos) as [s' [fees|ue| |]] eqn:HA; cbn [map_err obind]; [| |done..].
  - destruct (compute_utxo_root_total (E := MiningError) s') as [r ->]. by left.
  - right. split; [done|]. right. intros fees s0 HS%apply_block_Ok. congruence.
Qed.

(** Building a template always returns. What it returns is a child of the
    canonical tip, one second later at least, whose transactions are a coinbase
    paying the subsidy and the recorded fees to the miner, followed by
    candidates of the mempool in the order of their fee rate: each of them
    spent_set outputs that exist on the chain or earlier in the block and that no
    earlier one spent_set, and a candidate is only left out when it does not. The
    template commits to the set of unspent outputs the block leaves. It fails
    when the tip is unknown, when the reward overflows, or when the selected
    transactions cannot be applied. *)
Theorem build_template_spec (chain : ChainTree) (utxos : UtxoSet) (pool : Mempool) (compact : N)
    (lock : list byte) (now : N) (HI : indexed pool) (Hlock : N.of_nat (length lock) ≤ MAX_VECTOR_LENGTH) :
  match build_template chain utxos pool compact lock now with
  | Ok t => ∃ tip es sel fees s',
      picks pool MAX_BLOCK_PAYLOAD_SIZE (get_entries_sorted_by_fee_rate pool) es ∧
      chosen utxos (e_transaction <$> es) sel ∧
      template_of chain utxos pool compact lock now t tip sel fees s'
  | Err CanonicalTipMissing => nodes chain !! canonical_tip chain = None
  | Err MiningOverflow => ∃ tip sel,
      nodes chain !! canonical_tip chain = Some tip ∧
      chosen utxos (select_transactions_for_block pool MAX_BLOCK_PAYLOAD_SIZE).1 sel ∧
      let h := wrap64 (height tip + 1) in
      let reward := get_block_subsidy h + N.min (recorded_fees pool sel) U64_MAX in
      (U64_MAX < reward ∨
       ∀ fees s', ¬ block_step utxos (new_coinbase h [mkTxOut reward lock] :: sel) h fees s')
  | _ => False
  end.
Proof.
  destruct (nodes chain !! canonical_tip chain) as [tip|] eqn:Htip.
  2:{ unfold build_template, get_node. by rewrite Htip. }
  destruct (pick_loop_total (E := MiningError) utxos pool _ (mkPicked [] 0 ∅) (candidates_encodable pool HI)
    (Forall_nil_2 _)) as [p Hp].
  destruct (build_template_tail _ _ _ compact _ now _ _ Htip HI Hlock Hp) as [HB|[-> HR]].
  2:{ exists tip, (p_selected p). split; [done|]. by destruct (pick_loop _ _ _ _ Hp). }
  destruct (build_template chain utxos pool compact lock now) as [t|e| |] eqn:HB'; try done.
  destruct (build_template_Ok _ _ _ _ _ _ _ HB') as (tip' & sel & fees & s' & HT).
  destruct (select_transactions_cases pool MAX_BLOCK_PAYLOAD_SIZE ltac:(done) HI) as (es & Hpk & HS).
  exists tip', es, sel, fees, s'. split; [done|]. split; [|done].
  pose proof (tpl_selected _ _ _ _ _ _ _ _ _ _ _ HT) as HC. by rewrite HS in HC.
Qed.

(** The nonce search, in one thread or several, returns a header that
    differs from the template's in the nonce alone, which lies in the searched
    range and meets the target; or reports a cancellation that was requested;
    or reports that the range is exhausted, and then no nonce of it meets the
    target, whatever the threads did. *)
Theorem pow_search_spec (t : BlockTemplate) (start_nonce max_iterations : N) (s : Schedule) (h : BlockHeader)
    (Hh : build_header (E := MiningError) t start_nonce = Ok h) (Hn : 0 < num_threads s) :
  match run_pow_search t start_nonce max_iterations s with
  | Ok solved => verify_pow solved (template_target t) = Ok tt ∧
      ∃ j, j < max_iterations ∧ solved = with_nonce h (wrap64 (start_nonce + j))
  | Err (Cancelled height) => height = t_height t ∧ (cancel_final s = true ∨ ∃ i, cancel_seen s 0 i = true)
  | Err (ExhaustedNonce height searched) => height = t_height t ∧ searched = max_iterations ∧
      (fair t start_nonce max_iterations s h →
       ∀ j, j < max_iterations → verify_pow (with_nonce h (wrap64 (start_nonce + j))) (template_target t) ≠ Ok tt)
  | _ => False
  end.
Proof.
  destruct (run_pow_cases t start_nonce max_iterations s h Hh Hn) as [j Hj Hs|HC|HX].
  - split; [by apply solves_pow|]. by exists j.
  - done.
  - split; [done|]. split; [done|]. intros HF j Hj HP%solves_pow. by apply (HX HF j Hj).
Qed.

(** When some nonce of the range meets the target and nobody cancels, the
    search finds one, whatever the number of threads and their interleaving. *)
Theorem pow_search_finds (t : BlockTemplate) (start_nonce max_iterations : N) (s : Schedule) (h : BlockHeader)
    (j : N) (Hh : build_header (E := MiningError) t start_nonce = Ok h) (Hn : 0 < num_threads s)
    (HF : fair t start_nonce max_iterations s h)
    (HC : cancel_final s = false) (Hj : j < max_iterations)
    (Hsol : verify_pow (with_nonce h (wrap64 (start_nonce + j))) (template_target t) = Ok tt) :
  ∃ solved, run_pow_search t start_nonce max_iterations s = Ok solved ∧
    verify_pow solved (template_target t) = Ok tt.
Proof.
  destruct (run_pow_cases t start_nonce max_iterations s h Hh Hn) as [i Hi Hs|HX|HX].
  - eexists. split; [done|]. by apply solves_pow.
  - exfalso. destruct HX as [HX|[i HX]]; [congruence|]. apply (fair_cancel _ _ _ _ _ HF) in HX. congruence.
  - exfalso. by apply (HX HF j Hj), solves_pow.
Qed.
End properties.

(** ** Witnesses *)

(** A pool with one transaction that spent_set the genesis reward of the toy
    chain, the template on the toy genesis block, and a solved header. *)
Definition miner_tx : Transaction :=
  mkTransaction 1
    [mkTxIn (mkOutPoint (match toy_cb 0 0 with tx :: _ => toy_txid tx | [] => ZERO end) 0) [x51] U32_MAX]
    [mkTxOut 900 [x51]] 0.
Definition miner_pool : Mempool :=
  (admit_transaction (B3 := toy_blake3) (AV := λ _ _ _, Ok tt) miner_tx toy_s0 5 (with_config 10 100000 0)).1.
Definition toy_build (pool : Mempool) : outcome MiningError BlockTemplate :=
  build_template (B3 := toy_blake3) toy_tree toy_s0 pool 0x217fffff [x51] 50.
Definition empty_template : BlockTemplate := mkBlockTemplate ZERO 0 0 [] ZERO 0.
Definition toy_template : BlockTemplate :=
  match toy_build miner_pool with Ok t => t | _ => empty_template end.
Definition toy_header : BlockHeader :=
  match build_header (B3 := toy_blake3) (E := MiningError) toy_template 0 with
  | Ok h => h
  | _ => header toy_genesis
  end.
Definition quiet (threads : N) : Schedule := mkSchedule (Some threads) (λ _ _, false) (λ _ _, false) false 3.

Lemma miner_pool_indexed : indexed (B3 := toy_blake3) miner_pool.
Proof.
  assert (HR : MempoolTheorems.reachable (B3 := toy_blake3) 10 100000 0 miner_pool).
  { split; [lia|]. apply rtc_once.
    apply (MempoolTheorems.event_admit (B3 := toy_blake3) (λ _ _ _, Ok tt) miner_tx toy_s0 5
             (with_config 10 100000 0) _ (admit_transaction (B3 := toy_blake3) (AV := λ _ _ _, Ok tt) miner_tx toy_s0 5
               (with_config 10 100000 0)).2); [done| |apply surjective_pairing].
    split; [split; repeat constructor; vm_compute; discriminate|split; vm_compute; discriminate]. }
  apply (MempoolTheorems.reachable_sound 10 100000 0 miner_pool HR).
Qed.

Lemma toy_build_Ok : toy_build miner_pool = Ok toy_template.
Proof. vm_compute. reflexivity. Qed.
Lemma toy_header_Ok : build_header (B3 := toy_blake3) (E := MiningError) toy_template 0 = Ok toy_header.
Proof. vm_compute. reflexivity. Qed.

Lemma build_template_spec_witness :
  ∃ tip es sel fees s',
    picks miner_pool MAX_BLOCK_PAYLOAD_SIZE (get_entries_sorted_by_fee_rate miner_pool) es ∧
    chosen (B3 := toy_blake3) toy_s0 (e_transaction <$> es) sel ∧
    template_of (B3 := toy_blake3) toy_tree toy_s0 miner_pool 0x217fffff [x51] 50 toy_template tip sel fees s'.
Proof.
  pose proof (build_template_spec (B3 := toy_blake3) toy_tree toy_s0 miner_pool 0x217fffff [x51] 50
    miner_pool_indexed ltac:(vm_compute; discriminate)) as H.
  pose proof toy_build_Ok as HB. unfold toy_build in HB. rewrite HB in H. exact H.
Defined.

Lemma toy_conditions :
  mining_conditions (B3 := toy_blake3) (V := AuthoritativeTransactionVerifier (B3 := toy_blake3)) toy_genesis 0
    (toy_tree, toy_s0) miner_pool [x51] 50 7 100 0x217fffff toy_template toy_header
    (genesis_node (B3 := toy_blake3) toy_genesis).
Proof.
  split.
  - exact toy_reach0.
  - reflexivity.
  - exact toy_build_Ok.
  - exact toy_header_Ok.
  - vm_compute. reflexivity.
  - vm_compute. reflexivity.
  - reflexivity.
  - apply encodableb_spec. vm_compute. reflexivity.
  - vm_compute. reflexivity.
  - vm_compute. discriminate.
  - vm_compute. discriminate.
  - vm_compute. reflexivity.
  - split; vm_compute; reflexivity.
Qed.

Notation toy_verifying := (AuthoritativeTransactionVerifier (B3 := toy_blake3)) (only parsing).
Definition toy_mined : Block := assemble_block toy_template (with_nonce toy_header 7).
Definition mined_state := process_block_with_verifier (B3 := toy_blake3) (V := toy_verifying) (Some 100) toy_mined
  (toy_tree, toy_s0).

Lemma mined_block_accepted_witness :
  canonical_tip mined_state.1.1 = toy_hash toy_mined ∧ is_ok mined_state.2 = true.
Proof.
  pose proof (mined_block_accepted (B3 := toy_blake3) (V := toy_verifying) toy_genesis 0
    (toy_tree, toy_s0) miner_pool [x51] 50 7 100 0x217fffff toy_template toy_header
    (genesis_node (B3 := toy_blake3) toy_genesis) toy_conditions) as H.
  destruct H as (H1 & H2 & _).
  - intros [H _]. by vm_compute in H.
  - vm_compute. discriminate.
  - assert (HD : drop 1 (t_transactions toy_template) = [miner_tx]) by (vm_compute; reflexivity).
    rewrite HD. apply Forall_singleton. left. reflexivity.
  - intros fees s' HS%(proj2 (apply_block_Ok (B3 := toy_blake3) _ _ _ _ _)).
    assert (HR : (apply_block (B3 := toy_blake3) (t_transactions toy_template) (t_height toy_template) toy_s0).2 = Ok 100)
      by (vm_compute; reflexivity).
    cbn [snd fst] in HS. rewrite HS in HR. cbn [snd] in HR. injection HR as ->.
    split; vm_compute; discriminate.
  - vm_compute. reflexivity.
  - vm_compute. by eexists.
  - split; [exact H2|]. change (is_ok mined_state.2 = true). unfold mined_state, toy_mined. by rewrite H1.
Defined.

(** The same pool with a transaction that is locked until height 100. *)
Definition locked_tx : Transaction :=
  mkTransaction 1
    [mkTxIn (mkOutPoint (match toy_cb 0 0 with tx :: _ => toy_txid tx | [] => ZERO end) 0) [x51] 0]
    [mkTxOut 900 [x51]] 100.
Definition locked_pool : Mempool :=
  (admit_transaction (B3 := toy_blake3) (AV := λ _ _ _, Ok tt) locked_tx toy_s0 5 (with_config 10 100000 0)).1.
Definition locked_template : BlockTemplate :=
  match toy_build locked_pool with Ok t => t | _ => empty_template end.
Definition locked_header : BlockHeader :=
  match build_header (B3 := toy_blake3) (E := MiningError) locked_template 0 with
  | Ok h => h
  | _ => header toy_genesis
  end.

Lemma locked_conditions :
  mining_conditions (B3 := toy_blake3) (V := toy_verifying) toy_genesis 0
    (toy_tree, toy_s0) locked_pool [x51] 50 7 100 0x217fffff locked_template locked_header
    (genesis_node (B3 := toy_blake3) toy_genesis).
Proof.
  split.
  - exact toy_reach0.
  - reflexivity.
  - change (toy_build locked_pool = Ok locked_template). vm_compute. reflexivity.
  - vm_compute. reflexivity.
  - vm_compute. reflexivity.
  - vm_compute. reflexivity.
  - reflexivity.
  - apply encodableb_spec. vm_compute. reflexivity.
  - vm_compute. reflexivity.
  - vm_compute. discriminate.
  - vm_compute. discriminate.
  - vm_compute. reflexivity.
  - split; vm_compute; reflexivity.
Qed.

Lemma toy_genesis_ledger :
  ledger (B3 := toy_blake3) (nodes toy_tree) (canonical_tip toy_tree) [genesis_node (B3 := toy_blake3) toy_genesis] toy_s0.
Proof.
  apply (ledger_genesis (B3 := toy_blake3) _ _ _ _ 0).
  - vm_compute. reflexivity.
  - reflexivity.
  - apply pair_snd. vm_compute. reflexivity.
Qed.

Lemma template_rejections_witness :
  (process_block_with_verifier (B3 := toy_blake3) (V := toy_verifying) (Some 100)
     (assemble_block locked_template (with_nonce locked_header 7)) (toy_tree, toy_s0)).2 =
  Err (ReorgFailed (toy_blake3 (header_bytes (with_nonce locked_header 7))) (FailConsensus LockTimeNotMet)).
Proof.
  destruct (template_rejections (B3 := toy_blake3) (V := toy_verifying) toy_genesis 0
    (toy_tree, toy_s0) locked_pool [x51] 50 7 100 0x217fffff locked_template locked_header
    (genesis_node (B3 := toy_blake3) toy_genesis) locked_conditions) as [_ H].
  destruct (H _ _ ltac:(intros [HR _]; by vm_compute in HR) toy_genesis_ledger) as [HR _]; [|exact HR].
  intros HF%validate_lock_times_Ok. vm_compute in HF. discriminate.
Defined.

Lemma pow_search_spec_witness :
  run_pow_search (B3 := toy_blake3) toy_template 0 50 (quiet 1) = Ok (with_nonce toy_header 0) ∧
  verify_pow (B3 := toy_blake3) (with_nonce toy_header 0) (template_target toy_template) = Ok tt.
Proof.
  pose proof (pow_search_spec (B3 := toy_blake3) toy_template 0 50 (quiet 1) toy_header toy_header_Ok
    ltac:(vm_compute; reflexivity)) as H.
  assert (HR : run_pow_search (B3 := toy_blake3) toy_template 0 50 (quiet 1) = Ok (with_nonce toy_header 0))
    by (vm_compute; reflexivity).
  rewrite HR in H. split; [exact HR|exact (proj1 H)].
Defined.

(** Four threads, each of which finds a nonce; the last writer wins. *)
Lemma pow_search_finds_witness :
  ∃ solved, run_pow_search (B3 := toy_blake3) toy_template 0 100000 (quiet 4) = Ok solved ∧
    verify_pow (B3 := toy_blake3) solved (template_target toy_template) = Ok tt.
Proof.
  apply (pow_search_finds (B3 := toy_blake3) toy_template 0 100000 (quiet 4) toy_header 42 toy_header_Ok).
  - vm_compute. reflexivity.
  - split; intros i t H; discriminate H.
  - reflexivity.
  - vm_compute. reflexivity.
  - vm_compute. reflexivity.
Defined.
