(* ===== verification/ChainReplay.v ===== *)
(** * Replaying a chain

    What [process_block_with_verifier] has checked of a block it stores, and what
    follows for a chain replayed block by block into a new tree: every block is
    accepted again, and the tree is that of the path. *)

From S2P Require Import Prelude Bytes Primitives Types Codec Transaction Utxo Merkle Genesis.
From S2P Require Import Words Target Work Tables StorageSpec Mempool Consensus Chain Mining.
Local Open Scope N_scope.
Local Open Scope scy_scope.

Section stored.
Context {B3 : Blake3} {V : BlockTransactionVerifier}.

Definition stored_nodes (st : ChainState) : gmap Hash BlockNode := nodes st.1.

Lemma keeps_reject {A} marks e : keeps stored_nodes (reject (A := A) marks e).
Proof.
  apply keeps_sbind; [|auto with scy]. apply keeps_smodify. intros [t u]. unfold stored_nodes, on_tree. cbn [fst].
  revert t. induction marks as [|h marks IH]; intros t; [done|]. cbn [foldl]. by rewrite IH.
Qed.
Lemma keeps_connect_nodes bh l s : keeps stored_nodes (connect_nodes bh l s).
Proof.
  revert s. induction l as [|n l IH]; intros s; cbn [connect_nodes]; [auto with scy|].
  apply keeps_sbind; [|done]. unfold connect_node. apply keeps_sbind; [auto with scy|intros st].
  apply keeps_sbind; [auto with scy|intros hs].
  destruct (validate_block_authoritative_with_headers _ _ _ _); [|apply keeps_reject|auto with scy..].
  destruct (verify_block_transactions _ _); [|apply keeps_reject|auto with scy..].
  destruct (apply_node n s) as [s' [fee|e| |]]; [|apply keeps_reject|auto with scy..].
  apply keeps_sbind; [auto with scy|intros root]. destruct (negb _); [apply keeps_reject|auto with scy].
Qed.

(** A run from [st] stores nothing, or the node [n]. *)
Definition stores_node (n : BlockNode) (st : ChainState) (run : ChainState * outcome ChainError (option ReorgResult)) : Prop :=
  nodes run.1.1 = nodes st.1 ∨ nodes run.1.1 = <[node_hash n := n]> (nodes st.1).

Lemma stores_lift {A} n (m : outcome ChainError A) k st :
  (∀ a, m = Ok a → stores_node n st (k a st)) → stores_node n st (sbind (slift m) k st).
Proof. intros Hk. unfold sbind, slift. destruct m as [a| | |]; [by apply Hk|by left..]. Qed.

Lemma reorganize_stores n st : stores_node n st (reorganize n st).
Proof.
  unfold reorganize. rewrite sbind_sget. destruct st as [t u].
  apply stores_lift; intros anc _. apply stores_lift; intros dis _.
  destruct (_ <? _); [rewrite sbind_smodify; by right|].
  apply stores_lift; intros con _. apply stores_lift; intros staged _.
  pose proof (keeps_connect_nodes (node_hash n) (reverse con ++ [n]) staged (t, u)) as HK.
  unfold stored_nodes in HK.
  destruct (connect_nodes _ _ _ _) as [st' r] eqn:E; cbn [fst] in HK. unfold stores_node, sbind at 1 4. rewrite E.
  destruct r as [s'| | |]; [|by left..]. rewrite sbind_smodify. right. cbn [fst].
  rewrite <- HK. unfold sbind, slift. by destruct (returned_transactions _ _).
Qed.

(** What has been checked of a block [b] on the stored node [p]. *)
Record checked_on (t : ChainTree) (now : option N) (b : Block) (p : BlockNode) (n : BlockNode) : Prop := {
  ck_parent : nodes t !! previous_block_hash (header b) = Some p;
  ck_header : ∃ target, expected_target t (previous_block_hash (header b)) p (wrap64 (height p + 1)) = Ok target ∧
    check_header b p target now = Ok tt;
  ck_node : ∃ cum, work_checked_add (cumulative_work p) (block_work (from_compact (difficulty_target (header b)))) = Some cum ∧
    n = mkBlockNode (block_id b) (previous_block_hash (header b)) (wrap64 (height p + 1))
          (block_work (from_compact (difficulty_target (header b)))) cum b
}.

Lemma process_stores now b st st' r :
  process_block_with_verifier now b st = (st', r) →
  nodes st'.1 = nodes st.1 ∨
  ∃ p n, checked_on st.1 now b p n ∧ nodes st'.1 = <[node_hash n := n]> (nodes st.1).
Proof.
  intros E.
  assert (HP : nodes (process_block_with_verifier now b st).1.1 = nodes st.1 ∨
    ∃ p n, checked_on st.1 now b p n ∧ nodes (process_block_with_verifier now b st).1.1 = <[node_hash n := n]> (nodes st.1));
    [|by rewrite E in HP].
  clear E st' r. unfold process_block_with_verifier. rewrite header_hash_ok, sbind_lift_Ok, sbind_sget. fold (block_id b).
  destruct st as [t u]. cbn [fst].
  assert (HL : ∀ A (m : outcome ChainError A) (k : A → chainM (option ReorgResult)) (P : ChainState → Prop),
            P (t, u) → (∀ a, m = Ok a → P (k a (t, u)).1) → P (sbind (slift m) k (t, u)).1).
  { intros A m k P H0 Hk. unfold sbind, slift. destruct m as [a| | |]; [by apply Hk|done..]. }
  set (P := λ st' : ChainState, nodes st'.1 = nodes t ∨
    ∃ p n, checked_on t now b p n ∧ nodes st'.1 = <[node_hash n := n]> (nodes t)).
  assert (H0 : P (t, u)) by by left.
  assert (HR : ∀ A marks e, P (reject (A := A) marks e (t, u)).1).
  { intros A marks e. left. exact (keeps_reject marks e (t, u)). }
  destruct (is_block_invalid t _); [exact H0|]. destruct (is_block_invalid t _); [apply HR|].
  apply HL; [done|intros _ _]. case_bool_decide; [exact H0|].
  apply HL; [done|intros p Hp%ok_or_Ok]. apply HL; [done|intros target Ht].
  apply HL; [done|intros [] Hc]. apply HL; [done|intros s _]. apply HL; [done|intros hs _].
  destruct (_ && _); [exact H0|].
  destruct (validate_block_authoritative_with_headers _ _ _ _); [|apply HR|exact H0..].
  unfold attach_block. rewrite sbind_sget. apply HL; [done|intros cum Hcum%ok_or_Ok].
  apply HL; [done|intros tip _]. set (n := mkBlockNode _ _ _ _ cum b).
  assert (HC : checked_on t now b p n) by (split; [done|by exists target|by exists cum]).
  assert (HN : ∀ run, stores_node n (t, u) run → P run.1).
  { intros run [E|E]; [by left|right; by exists p, n]. }
  destruct (work_leb _ _); [rewrite sbind_smodify; apply (HN (_, _)); by right|]. apply HN, reorganize_stores.
Qed.
End stored.

(** ** Trees of vetted nodes *)

(** The target of a block at height [h] on the path [path], which ends in [p]. *)
Definition target_on (path : list BlockNode) (p : BlockNode) (h : N) : outcome ChainError Target :=
  let parent_target := from_compact (difficulty_target (header (node_block p))) in
  if (DEFAULT_DIFFICULTY_EPOCH_BLOCKS <=? h) && (h mod DEFAULT_DIFFICULTY_EPOCH_BLOCKS =? 0) then
    let start_index := saturating_sub (N.of_nat (length path)) (DEFAULT_DIFFICULTY_EPOCH_BLOCKS + 1) in
    let? start_time :=
      ok_or ((λ n, timestamp (header (node_block n))) <$> path !! N.to_nat start_index)
        (InvalidTimestamp MissingEpochHistory) in
    map_err ChainDifficulty
      (calculate_next_target parent_target start_time (timestamp (header (node_block p))) DifficultyConfig_default)
  else Ok parent_target.

Lemma hash_zero (h : Hash) : be_val (hash_bytes h) = 0 → h = ZERO.
Proof.
  intros E. apply hash_eq, be_val_inj; [by rewrite !hash_length|]. rewrite E. by vm_compute.
Qed.

Section vetted.
Context {B3 : Blake3} {V : BlockTransactionVerifier}.

Lemma expected_target_on genesis t parent p h path u :
  map_Forall (node_wf genesis (nodes t)) (nodes t) → ledger (nodes t) parent path u →
  expected_target t parent p h = target_on path p h.
Proof.
  intros Hwf HL. unfold expected_target, target_on.
  by rewrite (get_path_ok genesis _ Hwf t parent path u eq_refl HL).
Qed.

(** Whatever the clock says, up to the drift it allows. *)
Lemma check_header_clock b p target t0 now :
  check_header b p target t0 = Ok tt → timestamp (header b) ≤ saturating_add now MAX_FUTURE_DRIFT →
  check_header b p target (Some now) = Ok tt.
Proof.
  unfold check_header. intros ([] & -> & ([] & -> & H)%obind_Ok)%obind_Ok Hn. cbn [obind].
  destruct (_ <=? _); [done|]. cbn [ok_or obind].
  by destruct (N.ltb_spec (saturating_add now MAX_FUTURE_DRIFT) (timestamp (header b))); [lia|].
Qed.

Lemma check_header_target b p target t0 :
  check_header b p target t0 = Ok tt → block_id b ≠ ZERO →
  target_val (from_compact (difficulty_target (header b))) ≠ 0.
Proof.
  unfold check_header. intros ([] & HT%map_err_Ok & ([] & HP%map_err_Ok & _)%obind_Ok)%obind_Ok Hid E.
  apply validate_block_target_Ok in HT. rewrite <- from_compact_val in HT. apply Hid. unfold block_id.
  unfold verify_pow, compute_pow_hash in HP. rewrite header_hash_ok in HP. cbn [obind] in HP.
  rewrite is_met_by_val in HP. destruct (N.leb_spec (be_val (hash_bytes (blake3 (header_bytes (header b))))) (target_val target)); [|done].
  apply hash_zero. lia.
Qed.

(** The header of a stored block has been checked on its parent. *)
Definition vetted (ns : gmap Hash BlockNode) (n : BlockNode) : Prop :=
  node_work n = block_work (from_compact (difficulty_target (header (node_block n)))) ∧
  ∃ p path s target t0,
    ns !! parent_hash n = Some p ∧ ledger ns (parent_hash n) path s ∧ target_on path p (height n) = Ok target ∧
    check_header (node_block n) p target t0 = Ok tt.

Lemma vetted_mono ns ns' n : ns ⊆ ns' → vetted ns n → vetted ns' n.
Proof.
  intros Hs [Hw (p & path & s & target & t0 & Hp & HL & H)]. split; [done|]. exists p, path, s, target, t0.
  split; [by eapply lookup_weaken|]. split; [by eapply ledger_mono|done].
Qed.

(** No stored node lies above the canonical tip, and no block hashes to zero,
    which is the parent a genesis block names. *)
Record tree_inv (st : ChainState) : Prop := {
  ti_vetted : map_Forall (λ _ n, height n ≠ 0 → vetted (nodes st.1) n) (nodes st.1);
  ti_leaf : map_Forall (λ _ n, height n ≠ 0 → parent_hash n ≠ canonical_tip st.1) (nodes st.1);
  ti_codec : map_Forall (λ _ n, block_codec_wf (node_block n)) (nodes st.1);
  ti_zero : nodes st.1 !! ZERO = None
}.

Lemma tree_inv_same st st' :
  nodes st'.1 = nodes st.1 → canonical_tip st'.1 = canonical_tip st.1 → tree_inv st → tree_inv st'.
Proof. intros E1 E2 []. split; by rewrite ?E1, ?E2. Qed.

Context (genesis : BlockNode) (k : N).

(** Work on top of the tip is more work. *)
Lemma tip_work t u p n b cum target t0 :
  chain_inv genesis k (t, u) → nodes t !! canonical_tip t = Some p → check_header b p target t0 = Ok tt → block_id b ≠ ZERO →
  work_checked_add (cumulative_work p) (block_work (from_compact (difficulty_target (header b)))) = Some cum →
  cumulative_work n = cum → work_leb (cumulative_work n) (canonical_work t) = false.
Proof.
  intros HC Hp Hc Hid Hcum ->. unfold canonical_work. rewrite Hp. cbn [from_option].
  destruct (inv_nodes _ _ _ HC _ _ Hp) as (_ & _ & _ & _ & Wp & _).
  destruct (block_work_pos _ (check_header_target _ _ _ _ Hc Hid)) as [_ Hpos].
  pose proof (work_checked_add_spec _ _ Wp (proj1 (block_work_val (from_compact (difficulty_target (header b)))))) as HW.
  rewrite Hcum in HW. destruct HW as [Wc HV]. rewrite work_leb_val by done. apply N.leb_gt. lia.
Qed.

Lemma tree_inv_insert t u p n b path s s' now tip' :
  chain_inv genesis k (t, u) → tree_inv (t, u) → k < U64_MAX →
  checked_on t now b p n → extends (nodes t) n path s s' → block_codec_wf b → block_id b ≠ ZERO →
  (tip' = canonical_tip t ∧ parent_hash n ≠ tip' ∨ tip' = node_hash n) →
  ∀ t' u', nodes t' = <[node_hash n := n]> (nodes t) → canonical_tip t' = tip' → tree_inv (t', u').
Proof.
  intros HC HI Hk HK Hext Hw Hid Htip t' u' EN ET. destruct HK as [Hp (target & Ht & Hc) (cum & Hcum & En)].
  pose proof (extends_subseteq _ _ _ _ _ Hext) as Hs. pose proof (ext_new _ _ _ _ _ Hext) as Hnew.
  pose proof (inv_nodes _ _ _ HC) as Hwf. cbn [fst] in *.
  assert (Hh : wrap64 (height p + 1) = height p + 1).
  { apply wrap64_small. pose proof (inv_height _ _ _ HC _ _ Hp). lia. }
  assert (HV : vetted (nodes t) n).
  { rewrite En. split; [done|]. cbn [parent_hash height node_block]. exists p, path, s, target, now. split; [done|].
    pose proof (ext_ledger _ _ _ _ _ Hext) as HL. rewrite En in HL. cbn [parent_hash] in HL. split; [done|]. split; [|done].
    by rewrite <- (expected_target_on genesis t _ p _ path s Hwf HL). }
  assert (Hnb : node_block n = b) by by rewrite En.
  split; cbn [fst]; rewrite ?EN, ?ET.
  - apply map_Forall_insert_2; [intros _; by eapply vetted_mono|].
    intros h m Hm Hh0. eapply vetted_mono; [exact Hs|]. by eapply (ti_vetted _ HI).
  - apply map_Forall_insert_2.
    + intros _. destruct Htip as [[-> Hne]|E]; [done|]. rewrite E. intros EP.
      destruct (ext_link _ _ _ _ _ Hext) as (q & Hq & _). rewrite EP, Hnew in Hq. done.
    + intros h m Hm Hh0. destruct Htip as [[-> _]|E]; [by eapply (ti_leaf _ HI)|]. rewrite E. intros EP.
      destruct (node_parent genesis _ Hwf _ _ Hm Hh0) as (q & Hq & _). rewrite EP, Hnew in Hq. done.
  - apply map_Forall_insert_2; [by rewrite Hnb|apply (ti_codec _ HI)].
  - rewrite lookup_insert_ne; [apply (ti_zero _ HI)|]. intros E. apply Hid. rewrite <- E. by rewrite En.
Qed.

Context {VR : VerifierReturns}.

Lemma tree_inv_step now b st st' r :
  chain_inv genesis k st → k < U64_MAX → tree_inv st → block_encodable b → block_codec_wf b → block_id b ≠ ZERO →
  process_block_with_verifier now b st = (st', r) → tree_inv st'.
Proof.
  intros HC Hk HI He Hw Hid E. pose proof (process_step genesis k st now b HC Hk He) as HS.
  unfold stepped in HS. rewrite E in HS. cbn [fst snd] in HS.
  assert (HN : ∀ n path s s', extends (nodes st.1) n path s s' → node_block n = b →
            nodes st'.1 = <[node_hash n := n]> (nodes st.1) → ∃ p, checked_on st.1 now b p n).
  { intros n path s s' Hext Hb EN. pose proof (ext_new _ _ _ _ _ Hext) as Hnew.
    assert (Hid' : node_hash n = block_id b) by (rewrite (ext_hash _ _ _ _ _ Hext), Hb; done).
    destruct (process_stores now b st st' r E) as [E0|(p & m & HK & E0)].
    - rewrite EN in E0. exfalso. rewrite <- E0, lookup_insert_eq in Hnew. done.
    - exists p. replace n with m; [done|]. assert (Hm : node_hash m = block_id b) by (destruct HK as [_ _ (? & _ & ->)]; done).
      rewrite EN, Hid', Hm in E0. apply (f_equal (lookup (block_id b))) in E0. rewrite !lookup_insert_eq in E0. congruence. }
  destruct st as [t u]. destruct HS as [st2 e [marks ->] He'|Hin|n path s s' Hext Hb Hwk|n path s s' d Hext Hb Hwk Hd HD|
    n common m da db s s' txs Hext Hb Hwk HLa Hdb Hd Hv HCn Htx]; cbn [fst snd] in *.
  - by eapply tree_inv_same; [| |exact HI].
  - done.
  - destruct (HN n path s s' Hext Hb eq_refl) as (p & HK).
    eapply (tree_inv_insert t u p n b path s s' now (canonical_tip t)); try done. left. split; [done|]. intros EP.
    destruct HK as [Hp (target & _ & Hc) (cum & Hcum & En)]. rewrite En in EP. cbn [parent_hash] in EP. rewrite EP in Hp.
    rewrite (tip_work t u p n b cum target now HC Hp Hc Hid Hcum) in Hwk by by rewrite En. done.
  - destruct (HN n path s s' Hext Hb eq_refl) as (p & HK).
    eapply (tree_inv_insert t u p n b path s s' now (canonical_tip t)); try done. left. split; [done|]. intros EP.
    destruct HD as (common & m & da & db & -> & HF & HLa & ->). pose proof (ext_ledger _ _ _ _ _ Hext) as HL. rewrite EP in HL.
    destruct (ledger_det _ _ _ _ _ _ HL HLa) as [E2 _]. apply app_inv_head in E2 as [= ->].
    destruct da as [|x da]; [cbn in Hd; lia|]. apply Forall_cons in HF as [HF _]. set_solver.
  - destruct (HN n _ s s' Hext Hb eq_refl) as (p & HK).
    eapply (tree_inv_insert t u p n b _ s s' now (node_hash n)); try done. by right.
Qed.
End vetted.

(** ** A block on the tip *)

Section tip.
Context {B3 : Blake3} {V : BlockTransactionVerifier} {VR : VerifierReturns}.
Context (genesis : BlockNode) (k : N).

(** A block whose checks all pass on the tip becomes the tip. *)
Lemma process_on_tip now b st p path target s' fees :
  chain_inv genesis k st → k < U64_MAX → invalid_blocks st.1 = ∅ →
  nodes st.1 !! canonical_tip st.1 = Some p → previous_block_hash (header b) = canonical_tip st.1 →
  nodes st.1 !! block_id b = None → block_encodable b → block_id b ≠ ZERO →
  ledger (nodes st.1) (canonical_tip st.1) path st.2 →
  expected_target st.1 (canonical_tip st.1) p (height p + 1) = Ok target → check_header b p target now = Ok tt →
  authoritative b (height p + 1) st.2 (mtp_of path) fees s' →
  is_Some (work_checked_add (cumulative_work p) (block_work (from_compact (difficulty_target (header b))))) →
  verify_block_transactions b st.2 = Ok tt → compute_utxo_root (E := ChainError) s' = Ok (utxo_root (header b)) →
  ∃ n r, node_hash n = block_id b ∧ node_block n = b ∧
    process_block_with_verifier now b st =
      ((mkChainTree (<[block_id b := n]> (nodes st.1)) (block_id b) (max_reorg_depth st.1) ∅, s'), Ok (Some r)).
Proof.
  intros HC Hk Hmarks Hp Hpar Hnew He Hid HL Ht Hc HA Hcum Hver Hroot.
  pose proof (check_header_timestamp _ _ _ _ Hc) as Hts.
  assert (Hh : wrap64 (height p + 1) = height p + 1).
  { apply wrap64_small. pose proof (inv_height _ _ _ HC _ _ Hp). lia. }
  destruct (attach_tip genesis k st b p path s' HC Hp Hpar Hnew He Hts HL (ex_intro _ fees HA)
    (check_header_target _ _ _ _ Hc Hid) Hcum Hver Hroot) as (n & Hn & Hb & Hrun).
  destruct st as [t u]. cbn [fst snd] in *.
  exists n. eexists. split; [exact Hn|]. split; [exact Hb|]. unfold process_block_with_verifier.
  rewrite header_hash_ok, sbind_lift_Ok, sbind_sget. fold (block_id b).
  assert (HM : ∀ id, is_block_invalid t id = false).
  { intros id. unfold is_block_invalid. rewrite Hmarks. apply bool_decide_eq_false_2. set_solver. }
  rewrite !HM, (proj1 HA). cbn [map_err]. rewrite sbind_lift_Ok, bool_decide_eq_false_2 by (rewrite Hnew; apply is_Some_None).
  rewrite Hpar, Hp. cbn [ok_or]. rewrite sbind_lift_Ok, Hh, Ht, sbind_lift_Ok, Hc, sbind_lift_Ok.
  unfold parent_state. rewrite bool_decide_eq_true_2, sbind_lift_Ok by done.
  rewrite (path_headers_ok genesis _ (inv_nodes _ _ _ HC) t _ path u eq_refl HL), sbind_lift_Ok.
  rewrite (mtp_below genesis t path p b u (inv_nodes _ _ _ HC)), andb_false_r by (done || by rewrite Hpar).
  rewrite (validate_of_authoritative _ _ _ _ _ _ HA). cbn [header block_id] in Hrun. unfold block_id. rewrite Hrun.
  cbn [fst snd]. by rewrite Hmarks.
Qed.
End tip.

(** ** Replaying a path *)

Section replaying.
Context {B3 : Blake3} {V : BlockTransactionVerifier}.

(** The loop over the blocks of a path, each processed at the time [clock]
    gives. *)
Fixpoint replay_blocks (clock : Block → option N) (blocks : list Block) : chainM unit :=
  match blocks with
  | [] => sret tt
  | b :: blocks =>
      let! _ := process_block_with_verifier (clock b) b in
      replay_blocks clock blocks
  end.

Lemma replay_blocks_app clock l1 l2 st :
  replay_blocks clock (l1 ++ l2) st = sbind (replay_blocks clock l1) (λ _, replay_blocks clock l2) st.
Proof.
  revert st; induction l1 as [|b l1 IH]; intros st; [done|]. cbn [app replay_blocks]. rewrite sbind_assoc.
  apply sbind_cont. intros _ s'. apply IH.
Qed.

(** The clock is not more than the allowed drift behind a block. *)
Definition clock_ok (clock : Block → option N) (b : Block) : Prop :=
  ∃ now, clock b = Some now ∧ timestamp (header b) ≤ saturating_add now MAX_FUTURE_DRIFT.

Context {VR : VerifierReturns}.
Context (genesis : BlockNode) (k : N) (st0 : ChainState).
Notation ns := (nodes st0.1).
Hypotheses (Hinv : chain_inv genesis k st0) (Htree : tree_inv st0) (Hk : k < U64_MAX).

(** A chain state that is the path [p] of the tree and nothing else. *)
Record linear (st : ChainState) (p : list BlockNode) : Prop := {
  li_sub : nodes st.1 ⊆ ns;
  li_path : ledger (nodes st.1) (canonical_tip st.1) p st.2;
  li_only : map_Forall (λ _ n, n ∈ p) (nodes st.1);
  li_marks : invalid_blocks st.1 = ∅;
  li_inv : chain_inv genesis (N.of_nat (length p) - 1) st;
  li_tree : tree_inv st
}.

Lemma checked_same n p b now t :
  checked_on t now b p n → nodes t ⊆ ns → height p + 1 ≤ U64_MAX →
  ∀ m, ns !! block_id b = Some m → node_block m = b → height m ≠ 0 → n = m.
Proof.
  intros [Hp _ (cum & Hcum & ->)] Hs Hh m Hm Hb Hh0. pose proof (inv_nodes _ _ _ Hinv) as Hwf.
  destruct (Hwf _ _ Hm) as (E1 & _ & E3 & _ & _ & _ & HL). destruct (HL Hh0) as (q & Hq & Eh & _ & Ecum).
  destruct (ti_vetted _ Htree _ _ Hm Hh0) as [Ew _].
  assert (q = p) as ->.
  { rewrite E3, Hb in Hq. pose proof (lookup_weaken _ _ _ _ Hp Hs). congruence. }
  rewrite Hb in Ecum, Ew, E3. assert (wrap64 (height p + 1) = height p + 1) as -> by (apply wrap64_small; lia).
  rewrite Ecum in Hcum. injection Hcum as <-. destruct m. cbn in *. by subst.
Qed.

Lemma replay_link clock h n p u0 u fees st1 :
  ns !! h = Some n → height n ≠ 0 → ledger ns (parent_hash n) p u0 → ledger ns h (p ++ [n]) u →
  authoritative (node_block n) (height n) u0 (mtp_of p) fees u → connectable n u0 u →
  linear st1 p → canonical_tip st1.1 = parent_hash n → clock_ok clock (node_block n) →
  ∃ st' r, process_block_with_verifier (clock (node_block n)) (node_block n) st1 = (st', Ok (Some r)) ∧
    linear st' (p ++ [n]) ∧ canonical_tip st'.1 = h ∧ st'.2 = u ∧ max_reorg_depth st'.1 = max_reorg_depth st1.1.
Proof.
  intros Hn Hh0 HLp HL HA [Hver Hroot] Hlin Htip (now & Hclock & Hnow). pose proof (inv_nodes _ _ _ Hinv) as Hwf.
  destruct Hlin as [Hsub Hpath Honly Hmarks Hinv1 Htree1].
  assert (Eu : u0 = st1.2).
  { rewrite <- Htip in HLp. by destruct (ledger_det _ _ _ _ _ _ HLp (ledger_mono _ _ _ _ _ Hsub Hpath)) as [_ ?]. }
  subst u0.
  destruct (Hwf _ _ Hn) as (E1 & E2 & E3 & He & _ & _ & Hlk). destruct (Hlk Hh0) as (q & Hq & Eh & _ & Ecum).
  assert (Hq1 : nodes st1.1 !! canonical_tip st1.1 = Some q).
  { destruct (ledger_lookup _ _ _ _ Hpath) as (q' & _ & Hq' & _). rewrite Hq'. f_equal.
    pose proof (lookup_weaken _ _ _ _ Hq' Hsub) as H1. rewrite Htip in H1. congruence. }
  assert (Hid : block_id (node_block n) = h) by by rewrite E2.
  assert (Hlen : height n = N.of_nat (length p)).
  { apply (ledger_heights genesis _ Hwf _ _ _ _ _ HL). by apply list_lookup_middle. }
  assert (Hlast : (p ++ [n]) !! length p = Some n) by by apply list_lookup_middle.
  assert (Hnp : n ∉ p).
  { intros [i Hi]%list_elem_of_lookup. pose proof (ledger_heights genesis _ Hwf _ _ _ _ _ HLp Hi) as E.
    apply lookup_lt_Some in Hi. lia. }
  assert (Hnew : nodes st1.1 !! block_id (node_block n) = None).
  { rewrite Hid. destruct (nodes st1.1 !! h) as [m|] eqn:Hm; [|done]. exfalso. apply Hnp.
    pose proof (lookup_weaken _ _ _ _ Hm Hsub) as Hm'. assert (m = n) as -> by congruence. exact (Honly _ _ Hm). }
  assert (Hnz : block_id (node_block n) ≠ ZERO).
  { rewrite Hid. intros ->. pose proof (ti_zero _ Htree). congruence. }
  assert (Hbound : N.of_nat (length p) - 1 < U64_MAX).
  { pose proof (inv_height _ _ _ Hinv _ _ Hn). lia. }
  destruct (ti_vetted _ Htree _ _ Hn Hh0) as [_ (q' & path' & s' & target & t0 & Hq' & HL' & Ht & Hc)].
  assert (q' = q) as -> by congruence. destruct (ledger_det _ _ _ _ _ _ HL' HLp) as [-> _].
  assert (Ht' : expected_target st1.1 (canonical_tip st1.1) q (height q + 1) = Ok target).
  { rewrite <- Eh, <- Ht. eapply (expected_target_on genesis); [apply (inv_nodes _ _ _ Hinv1)|exact Hpath]. }
  rewrite Hclock. pose proof (check_header_clock _ _ _ _ _ Hc Hnow) as Hc'.
  destruct (process_on_tip genesis (N.of_nat (length p) - 1) (Some now) (node_block n) st1 q p target u fees Hinv1 Hbound Hmarks
    Hq1) as (m & r & Hm & Hmb & E); try done.
  { by rewrite Htip, <- E3. } { by rewrite <- Eh. }
  assert (m = n) as ->.
  { destruct (process_stores _ _ _ _ _ E) as [EN|(p1 & m1 & HK & EN)].
    - cbn [fst nodes] in EN. rewrite <- EN, lookup_insert_eq in Hnew. done.
    - assert (Hm1 : node_hash m1 = block_id (node_block n)) by (destruct HK as [_ _ (? & _ & ->)]; done).
      cbn [fst nodes] in EN. rewrite Hm1 in EN. apply (f_equal (lookup (block_id (node_block n)))) in EN.
      rewrite !lookup_insert_eq in EN. injection EN as ->.
      eapply (checked_same m1 p1); [exact HK|done| |by rewrite Hid|done|done].
      pose proof (ck_parent _ _ _ _ _ HK) as HP. pose proof (inv_height _ _ _ Hinv1 _ _ HP). lia. }
  eexists _, _. split; [exact E|]. cbn [fst snd canonical_tip max_reorg_depth]. split; [|by rewrite Hid].
  pose proof (process_step genesis _ st1 (Some now) (node_block n) Hinv1 Hbound He) as HS. unfold stepped in HS.
  rewrite E in HS. cbn [fst snd] in HS. pose proof (step_preserves _ _ _ _ _ _ Hinv1 HS) as Hinv2.
  split; cbn [fst snd nodes canonical_tip invalid_blocks].
  - apply insert_subseteq_l; [by rewrite Hid|done].
  - eapply ledger_link with (fees := fees) (u := st1.2); [by rewrite lookup_insert_eq|done| |exact HA].
    rewrite <- Htip. eapply ledger_mono; [by apply insert_subseteq|exact Hpath].
  - apply map_Forall_insert_2; [set_solver|]. eapply map_Forall_impl; [exact Honly|]. set_solver.
  - done.
  - eapply chain_inv_weaken; [|exact Hinv2]. rewrite length_app. cbn [length].
    destruct p as [|x p]; [|cbn [length]; lia]. destruct (ledger_lookup _ _ _ _ Hpath) as (? & ? & _ & ?). by destruct x0.
  - exact (tree_inv_step genesis _ (Some now) _ st1 _ _ Hinv1 Hbound Htree1 He (ti_codec _ Htree h n Hn) Hnz E).
Qed.

(** Replaying the blocks above genesis of a path that is connected gives the
    tree of that path, with the set the path leaves. *)
Lemma replay_path clock h p u st1 :
  verified ns h → ledger ns h p u → Forall (λ n, clock_ok clock (node_block n)) p →
  linear st1 [genesis] →
  ∃ st', replay_blocks clock (node_block <$> drop 1 p) st1 = (st', Ok tt) ∧ linear st' p ∧ canonical_tip st'.1 = h ∧
    st'.2 = u ∧ max_reorg_depth st'.1 = max_reorg_depth st1.1.
Proof.
  intros Hv HL HF H1. pose proof (inv_nodes _ _ _ Hinv) as Hwf. revert p u HL HF.
  induction Hv as [h n Hn Hh|h n path s s' Hn Hh Hv IH HL1 HL2 HC]; intros p u HL HF.
  - assert (HL' : ∃ fees, p = [n] ∧ apply_block (transactions (node_block n)) 0 ∅ = (u, Ok fees)).
    { inversion HL as [? m ? fees Hm ? HA|? m ? ? ? ? Hm]; simplify_eq. by exists fees. }
    destruct HL' as (fees & -> & HA). destruct (Hwf _ _ Hn) as (E1 & _ & _ & _ & _ & Hg & _). rewrite (Hg Hh) in *.
    exists st1. split; [done|]. split; [exact H1|].
    pose proof (ledger_mono _ _ _ _ _ (li_sub _ _ H1) (li_path _ _ H1)) as HL0.
    destruct (ledger_key genesis _ Hwf _ _ _ HL0) as (rest & g & E & Hkey & _). destruct rest as [|x []]; [|done..].
    injection E as <-. split; [congruence|]. split; [|done].
    rewrite <- Hkey, E1 in HL0. by destruct (ledger_det _ _ _ _ _ _ HL0 HL) as [_ ?].
  - destruct (ledger_det _ _ _ _ _ _ HL HL2) as [-> ->].
    apply Forall_app in HF as [HF HFn]. apply Forall_cons in HFn as [HFn _].
    destruct (IH path s HL1 HF) as (st2 & E & Hlin & Htip & Hu & Hd).
    assert (HA : ∃ fees, authoritative (node_block n) (height n) s (mtp_of path) fees s').
    { inversion HL2 as [? m ? fees Hm Hm0 HA Eh Ep|? m p0 u0 ? fees Hm Hm0 HL0 HA Eh Ep]; simplify_eq.
      apply app_inj_2 in Ep as [-> _]; [|done]. destruct (ledger_det _ _ _ _ _ _ HL0 HL1) as [_ ->]. by exists fees. }
    destruct HA as [fees HA].
    destruct (replay_link clock h n path s s' fees st2 Hn Hh HL1 HL2 HA HC Hlin Htip HFn) as (st' & r & E2 & Hl2 & Ht2 & Hu2 & Hd2).
    exists st'. split; [|split; [done|split; [done|split; [done|congruence]]]].
    destruct (ledger_root genesis _ Hwf _ _ _ HL1) as [rest ->]. cbn [drop app] in *. rewrite drop_0 in *.
    rewrite fmap_app, replay_blocks_app, (sbind_run _ _ _ _ _ E). cbn [fmap list_fmap replay_blocks].
    by rewrite (sbind_run _ _ _ _ _ E2).
Qed.
End replaying.
