(* ===== verification/Node.v ===== *)
(** * The node

    [apps/scytale-node/src/node.rs]: how the node validates the transactions of
    a block, how it takes a block from outside, admits a transaction, builds a
    mining template and commits a mined block. The locks are held for a whole
    operation, which is therefore one step on the shared state; messages to
    peers, the indexer and the log do not feed back and are left out. The
    storage is a [BlockStore]. *)

From S2P Require Import Prelude Bytes Primitives Types Codec Transaction Utxo Merkle Genesis.
From S2P Require Import Words Target Work Tables Storage StorageSpec Store Stack Script Authorization Mempool MempoolInv.
From S2P Require Import MempoolSpec Consensus Chain Vm VmAdapter Mining.
Local Open Scope N_scope.
Local Open Scope scy_scope.

(** The reasons of [InconsistentState]. *)
Inductive StateReason :=
| MissingInput (o : OutPoint)
| InsertFailed (e : UtxoError)
| ReplayFailed (hash : Hash) (e : UtxoError)
| ChainTreeEmpty
| AmountZero
| AmountOverflow
| AccumulationOverflow
| InsufficientFunds (required available : N)
| NoCanonicalTip
| MissingPathBlock
| PathLength
| RangeLimit
| MissingHeight (h : N)
| InvalidBlockHash
| InvalidTxidHex
| InvalidScriptHex
| SnapshotRootMismatch (block expected calculated : Hash)
| SnapshotBlockMissing (block : Hash)
| Backfill.

Inductive NodeError :=
| NodeStorage (e : StorageError)
| NodeConsensus (e : ChainError)
| NodeMempool (e : MempoolError)
| NodeMining (e : MiningError)
| ShutdownTimeout
| MiningNotRunning
| InconsistentState (reason : StateReason)
| P2PStartupFailed
| InvalidScript (e : ScriptError)
| ScriptEvaluationFailed
| MissingMiningPayout
| EutxoValidation (e : EutxoValidationError)
| ModuleIntegrityFailure.

(** The error type of a computation changed. *)
Definition smap_err {S E F A} (f : E → F) (m : stM S E A) : stM S F A := λ s, ((m s).1, map_err f (m s).2).

Section node.
Context {B3 : Blake3} {ED : Ed25519} {BC : Bincode} {WM : Wasmi} {PC : Payload TxContext}.

(** ** Block transactions *)

Fixpoint verify_inputs (tx : Transaction) (height : N) (utxos : UtxoSet) (input_idx : N) (ins : list TxIn) :
    outcome NodeError unit :=
  match ins with
  | [] => Ok tt
  | input :: ins =>
      let? utxo := ok_or (utxos !! previous_output input) (InconsistentState (MissingInput (previous_output input))) in
      let locking := locking_condition (output utxo) in
      let contract_lock := bool_decide (take 4 locking = LOCK_MAGIC_PREFIX) &&
                           bool_decide (is_Some (script_lock locking)) in
      if contract_lock then verify_inputs tx height utxos (input_idx + 1) ins
      else
        let ctx := mkScriptContext (compute_sighash tx input_idx locking) height in
        let? valid := map_err InvalidScript (execute DEFAULT_MAX_OPS_BUDGET ctx (authorization input) locking) in
        if negb valid then Err ScriptEvaluationFailed
        else verify_inputs tx height utxos (input_idx + 1) ins
  end.

Definition verify_transaction_scripts (tx : Transaction) (height : N) (utxos : UtxoSet) : outcome NodeError unit :=
  if is_coinbase tx then Ok tt else verify_inputs tx height utxos 0 (inputs tx).

(** The checks of one transaction that is not a coinbase: the gas of the block
    so far, with its own. *)
Definition check_transaction (tx : Transaction) (height block_time gas : N) (staged : UtxoSet) :
    outcome NodeError N :=
  let? _ := verify_transaction_scripts tx height staged in
  let? tx_gas := map_err EutxoValidation (verify_transaction_eutxo tx block_time staged MAX_TX_GAS) in
  let gas := saturating_add gas tx_gas in
  if MAX_BLOCK_GAS <? gas then Err (EutxoValidation (BlockGasLimitExceeded gas MAX_BLOCK_GAS)) else Ok gas.

Fixpoint validate_transactions (txs : list Transaction) (height block_time gas : N) : stM UtxoSet NodeError unit :=
  match txs with
  | [] => sret tt
  | tx :: txs =>
      let! staged := sget in
      let! gas :=
        (if is_coinbase tx then sret gas
         else
           let! gas := slift (check_transaction tx height block_time gas staged) in
           let! _ := smodify (remove_inputs (inputs tx)) in
           sret gas) in
      let! id := slift (txid tx) in
      let! _ := smap_err (λ e, InconsistentState (InsertFailed e))
                  (insert_outputs id height (is_coinbase tx) 0 (outputs tx)) in
      validate_transactions txs height block_time gas
  end.

Definition validate_block_transactions (b : Block) (height block_time : N) : stM UtxoSet NodeError unit :=
  validate_transactions (transactions b) height block_time 0.

(** The height a block states, 0 when its coinbase does not. *)
Definition stated_height (b : Block) : N :=
  match transactions b with
  | cb :: _ =>
      match inputs cb with
      | i :: _ => if is_coinbase cb && (8 <=? length (authorization i))%nat
                  then le_val (take 8 (authorization i)) else 0
      | [] => 0
      end
  | [] => 0
  end.

Definition NodeBlockVerifier : BlockTransactionVerifier := λ b utxo_set,
  map_err (λ _, TransactionVerification FailVerifier)
    (validate_block_transactions b (stated_height b) (timestamp (header b)) utxo_set).2.

(** The check of the root after the transactions of a block. *)
Definition check_root (b : Block) (staged : UtxoSet) : outcome NodeError unit :=
  let? calculated_root := compute_utxo_root staged in
  if negb (bool_decide (utxo_root (header b) = calculated_root))
  then Err (NodeConsensus (ChainBlockError (InvalidUtxoRoot (utxo_root (header b)) calculated_root)))
  else Ok tt.

Definition validate_and_root (b : Block) (height : N) (staged : UtxoSet) : outcome NodeError UtxoSet :=
  let '(staged, r) := validate_block_transactions b height (timestamp (header b)) staged in
  let? _ := r in
  let? _ := check_root b staged in
  Ok staged.

Definition replay_ancestors (path : list BlockNode) : outcome NodeError UtxoSet :=
  ofold (λ s node,
    match transactions (node_block node) with
    | [] => Panic
    | cb :: txs =>
        match apply_block_transactions cb txs (height node) s with
        | (s, Ok _) => Ok s
        | (_, Err e) => Err (InconsistentState (ReplayFailed (node_hash node) e))
        | (_, Panic) => Panic
        | (_, Diverge) => Diverge
        end
    end) path ∅.

Definition pre_validate_reorg_branch (chain : ChainTree) (canonical_utxos : UtxoSet) (candidate : Block) :
    outcome NodeError unit :=
  let parent := previous_block_hash (header candidate) in
  let tip := canonical_tip chain in
  let? common_ancestor := map_err NodeConsensus (find_common_ancestor chain tip parent) in
  let? fork := until_loop (link_fuel (nodes chain) parent) (nodes chain) parent common_ancestor in
  let? staged := (if bool_decide (common_ancestor = tip) then Ok canonical_utxos
                  else let? path := map_err NodeConsensus (get_path_from_genesis chain common_ancestor) in
                       replay_ancestors path) in
  let? staged := ofold (λ s node, validate_and_root (node_block node) (height node) s) (reverse fork) staged in
  let candidate_height := match nodes chain !! parent with Some n => wrap64 (height n + 1) | None => 1 end in
  let? _ := validate_and_root candidate candidate_height staged in
  Ok tt.

(** ** Shared state *)

Context {BS : BlockStore}.

Record Shared := mkShared { chain_tree : ChainTree; utxo_set : UtxoSet; mempool : Mempool; disk : store }.
Definition nodeM := stM Shared NodeError.

Definition with_chain (st : ChainState) (s : Shared) : Shared := mkShared st.1 st.2 (mempool s) (disk s).
Definition with_disk (d : store) (s : Shared) : Shared := mkShared (chain_tree s) (utxo_set s) (mempool s) d.
Definition with_pool (p : Mempool) (s : Shared) : Shared := mkShared (chain_tree s) (utxo_set s) p (disk s).
Definition chain_of (s : Shared) : ChainState := (chain_tree s, utxo_set s).

Definition mark_and_fail {A} (hash : Hash) (e : NodeError) : nodeM A :=
  let! _ := smodify (λ s, with_chain (mark_block_invalid hash (chain_tree s), utxo_set s) s) in slift (Err e).

(** A call on the mempool from a caller that ignores its result. *)
Definition on_pool {A} (m : poolM A) : nodeM A := λ s,
  let '(p, r) := m (mempool s) in (with_pool p s, map_err NodeMempool r).

(** A write to the store: when it fails the chain state is put back. *)
Definition write_store (before : ChainState) (f : store → outcome StorageError store) : nodeM unit := λ s,
  match f (disk s) with
  | Ok d => (with_disk d s, Ok tt)
  | Err e => (with_chain before s, Err (NodeStorage e))
  | Panic => (s, Panic)
  | Diverge => (s, Diverge)
  end.

Definition connected_meta (chain : ChainTree) (h : N) (work : CumulativeWork) (blocks : list Block) :
    outcome NodeError (list (Block * N * CumulativeWork)) :=
  omap_list (λ b, let? id := header_hash (header b) in
    Ok (match nodes chain !! id with
        | Some n => (b, height n, cumulative_work n)
        | None => (b, h, work)
        end)) blocks.

(** What follows a block that became the tip, shared by blocks from outside and
    mined ones: [h] is the height it is filed under, [later] the clock. *)
Definition finish_block (before : ChainState) (b : Block) (h later : N) (reorg : ReorgResult) : nodeM unit :=
  let! s := sget in
  let work := canonical_work (chain_tree s) in
  let! _ :=
    (if bool_decide (disconnected_blocks reorg = []) then write_store before (commit_block b h work)
     else
       let! meta := slift (connected_meta (chain_tree s) h work (connected_blocks reorg)) in
       let! _ := write_store before (apply_reorganization (disconnected_blocks reorg) meta) in
       let! _ := on_pool (on_reorg (AV := ConsensusScriptVerifier h) (transactions_for_mempool reorg)
                            (utxo_set s) later) in
       sret tt) in
  on_pool (on_block_connected b (utxo_set s)).

(** The call of the consensus crate with the node's verifier. *)
Definition process (now : option N) (b : Block) : nodeM (option ReorgResult) := λ s,
  let '(st, r) := process_block_with_verifier (V := NodeBlockVerifier) now b (chain_of s) in
  (with_chain st s, map_err NodeConsensus r).

Definition prevalidate (b : Block) (s : Shared) : outcome NodeError unit :=
  let chain := chain_tree s in
  if bool_decide (previous_block_hash (header b) = canonical_tip chain)
  then let? _ := validate_and_root b (wrap64 (canonical_height chain + 1)) (utxo_set s) in Ok tt
  else pre_validate_reorg_branch chain (utxo_set s) b.

Definition submit_external_block (now : option N) (later : N) (b : Block) : nodeM bool :=
  let! s := sget in
  let! block_hash := slift (header_hash (header b)) in
  if is_block_invalid (chain_tree s) block_hash ||
     is_block_invalid (chain_tree s) (previous_block_hash (header b))
  then slift (Err (NodeConsensus (InvalidBranchBlock block_hash BlockOrAncestorInvalid)))
  else
    let! _ := (match prevalidate b s with
               | Err e => mark_and_fail block_hash e
               | r => slift r
               end) in
    let! result := process now b in
    match result with
    | None => sret false
    | Some reorg =>
        let! s' := sget in
        let! _ := finish_block (chain_of s) b (canonical_height (chain_tree s')) later reorg in
        sret true
    end.

(** ** Transactions *)

Definition submit_transaction (now : N) (tx : Transaction) : nodeM Hash :=
  let! s := sget in
  let h := canonical_height (chain_tree s) in
  let! _ := slift (verify_transaction_scripts tx h (utxo_set s)) in
  let! _ := slift (map_err EutxoValidation (verify_transaction_eutxo tx now (utxo_set s) MAX_TX_GAS)) in
  on_pool (admit_transaction (AV := ConsensusScriptVerifier h) tx (utxo_set s) now).

(** The selection of inputs, over the entries in the order the hash map lists
    them. *)
Fixpoint select_inputs (sender : list byte) (needed : N) (entries : list (OutPoint * UtxoEntry))
    (selected : list OutPoint) (accumulated : N) : outcome NodeError (list OutPoint * N) :=
  match entries with
  | [] => Ok (selected, accumulated)
  | (o, e) :: entries =>
      if bool_decide (locking_condition (output e) = sender) then
        let? accumulated := ok_or (checked_add accumulated (value (output e))) (InconsistentState AccumulationOverflow) in
        if needed <=? accumulated then Ok (selected ++ [o], accumulated)
        else select_inputs sender needed entries (selected ++ [o]) accumulated
      else select_inputs sender needed entries selected accumulated
  end.

(** The transfer [create_and_submit_transaction] builds. *)
Definition create_transaction (payout : list byte) (entries : list (OutPoint * UtxoEntry))
    (recipient_script : list byte) (amount fee : N) (sender_script : option (list byte)) :
    outcome NodeError Transaction :=
  if amount =? 0 then Err (InconsistentState AmountZero)
  else
    let? needed := ok_or (checked_add amount fee) (InconsistentState AmountOverflow) in
    let sender := default payout sender_script in
    let? (selected, accumulated) := select_inputs sender needed entries [] 0 in
    if accumulated <? needed then Err (InconsistentState (InsufficientFunds needed accumulated))
    else
      let change := if needed <? accumulated then [mkTxOut (accumulated - needed) sender] else [] in
      Ok (mkTransaction 1 ((λ o, TxIn_new o sender) <$> selected) (mkTxOut amount recipient_script :: change) 0).

Definition create_and_submit_transaction (payout : list byte) (now : N) (recipient_script : list byte)
    (amount fee : N) (sender_script : option (list byte)) : nodeM Hash :=
  let! s := sget in
  let! tx := slift (create_transaction payout (map_to_list (utxo_set s)) recipient_script amount fee sender_script) in
  submit_transaction now tx.

(** ** Mining *)

Definition build_mining_template (miner_payout_script : list byte) (now : N) (s : Shared) :
    outcome NodeError BlockTemplate :=
  let chain := chain_tree s in
  if tree_len chain =? 0 then Err (InconsistentState ChainTreeEmpty)
  else
    let compact := from_option (λ n, difficulty_target (header (node_block n))) 0x1d00ffff
                     (nodes chain !! canonical_tip chain) in
    map_err NodeMining (build_template chain (utxo_set s) (mempool s) compact miner_payout_script now).

(** The commit of a solved template by the mining loop: stale when the tip has
    moved. *)
Definition commit_mined (now : option N) (later : N) (t : BlockTemplate) (solved : BlockHeader) : nodeM bool :=
  let! s := sget in
  if negb (bool_decide (canonical_tip (chain_tree s) = t_previous t)) then sret false
  else
    let b := assemble_block t solved in
    let! result := process now b in
    match result with
    | None => sret false
    | Some reorg => let! _ := finish_block (chain_of s) b (t_height t) later reorg in sret true
    end.
End node.

(** ** The verifier of the node *)

Section verifier.
Context {B3 : Blake3} {ED : Ed25519} {BC : Bincode} {WM : Wasmi} {PC : Payload TxContext}.

Lemma verify_inputs_returns tx h utxos idx ins : returns (verify_inputs tx h utxos idx ins).
Proof.
  revert idx; induction ins as [|i ins IH]; intros idx; cbn [verify_inputs]; [done|].
  apply returns_obind; [apply returns_ok_or|intros u _]. destruct (_ && _); [apply IH|].
  apply returns_obind; [apply returns_map_err, execute_returns|intros [] _]; [apply IH|done].
Qed.

Lemma check_transaction_returns tx h time gas s : returns (check_transaction tx h time gas s).
Proof.
  unfold check_transaction, verify_transaction_scripts.
  apply returns_obind; [destruct (is_coinbase tx); [done|apply verify_inputs_returns]|intros _ _].
  apply returns_obind; [|intros g _; by destruct (_ <? _)].
  apply returns_map_err, verify_transaction_eutxo_returns, execute_validator_returns.
Qed.

Lemma smap_err_returns {S E F A} (f : E → F) (m : stM S E A) s : returns (m s).2 → returns (smap_err f m s).2.
Proof. apply returns_map_err. Qed.

Lemma smap_err_Ok {S E F A} (f : E → F) (m : stM S E A) s s' a :
  smap_err f m s = (s', Ok a) ↔ m s = (s', Ok a).
Proof. unfold smap_err. destruct (m s) as [s1 [x|x| |]]; cbn; naive_solver. Qed.

(** One transaction: checked when it is not a coinbase, then applied. *)
Definition checked (h time gas : N) (s : UtxoSet) (tx : Transaction) (gas' : N) : Prop :=
  if is_coinbase tx then gas' = gas else check_transaction tx h time gas s = Ok gas'.

Lemma validate_transactions_cons tx txs h time gas s s' :
  validate_transactions (tx :: txs) h time gas s = (s', Ok tt) ↔
  ∃ gas' id s1, checked h time gas s tx gas' ∧ txid (E := NodeError) tx = Ok id ∧
    insert_outputs id h (is_coinbase tx) 0 (outputs tx)
      (if is_coinbase tx then s else remove_inputs (inputs tx) s) = (s1, Ok tt) ∧
    validate_transactions txs h time gas' s1 = (s', Ok tt).
Proof.
  cbn [validate_transactions]. rewrite sbind_sget. unfold checked. destruct (is_coinbase tx) eqn:Hcb.
  - rewrite sbind_Ok. split.
    + intros (s0 & g & [= <- <-] & (s1 & id & HI & (s2 & [] & HO%smap_err_Ok & HR)%sbind_Ok)%sbind_Ok).
      unfold slift in HI. injection HI as <- HI. exists gas, id, s2. done.
    + intros (g & id & s1 & -> & Hid & HO & HR). exists s, gas. split; [done|].
      rewrite Hid, sbind_lift_Ok, sbind_Ok. exists s1, tt. split; [by apply smap_err_Ok|done].
  - rewrite sbind_Ok. split.
    + intros (s0 & g & (s0' & g' & HG & HM)%sbind_Ok & (s1 & id & HI & (s2 & [] & HO%smap_err_Ok & HR)%sbind_Ok)%sbind_Ok).
      unfold slift in HI, HG. injection HG as <- HG. injection HI as <- HI. rewrite sbind_smodify in HM.
      injection HM as <- <-. exists g', id, s2. done.
    + intros (g & id & s1 & HG & Hid & HO & HR). exists (remove_inputs (inputs tx) s), g.
      split; [by rewrite HG, sbind_lift_Ok, sbind_smodify|].
      rewrite Hid, sbind_lift_Ok, sbind_Ok. exists s1, tt. split; [by apply smap_err_Ok|done].
Qed.

Lemma validate_transactions_returns txs h time gas s :
  Forall transaction_encodable txs → returns (validate_transactions txs h time gas s).2.
Proof.
  intros HF. revert gas s; induction HF as [|tx txs Htx HF IH]; intros gas s; [done|].
  cbn [validate_transactions]. rewrite sbind_sget. apply returns_sbind.
  - destruct (is_coinbase tx); [done|]. apply returns_sbind; [apply check_transaction_returns|done].
  - intros g s1 _. destruct (transaction_encodable_txid (E := NodeError) tx Htx) as [id ->]. rewrite sbind_lift_Ok.
    apply returns_sbind; [apply smap_err_returns, insert_outputs_returns|]. intros [] s2 _. apply IH.
Qed.

#[export] Instance node_verifier_returns : @VerifierReturns NodeBlockVerifier.
Proof.
  intros b s He. unfold verify_block_transactions, NodeBlockVerifier. apply returns_map_err.
  by apply validate_transactions_returns.
Qed.

(** An input passes when its output is in the set and is locked by a contract
    (judged with the gas) or by a script that holds of the digest of the input. *)
Definition contract_lock (locking : list byte) : bool :=
  bool_decide (take 4 locking = LOCK_MAGIC_PREFIX) && bool_decide (is_Some (script_lock locking)).
Definition input_passes (tx : Transaction) (h : N) (s : UtxoSet) (i : N) (input : TxIn) : Prop :=
  ∃ u, s !! previous_output input = Some u ∧
    (contract_lock (locking_condition (output u)) = true ∨
     execute DEFAULT_MAX_OPS_BUDGET
       (mkScriptContext (compute_sighash tx i (locking_condition (output u))) h)
       (authorization input) (locking_condition (output u)) = Ok true).

Lemma verify_inputs_Ok tx h s idx ins :
  verify_inputs tx h s idx ins = Ok tt ↔
  ∀ i input, ins !! i = Some input → input_passes tx h s (idx + N.of_nat i) input.
Proof.
  revert idx; induction ins as [|input ins IH]; intros idx; cbn [verify_inputs].
  { split; [|done]. intros _ i input Hi. by rewrite lookup_nil in Hi. }
  trans (input_passes tx h s idx input ∧ verify_inputs tx h s (idx + 1) ins = Ok tt).
  - rewrite obind_Ok. split.
    + intros (u & Hu%ok_or_Ok & H). fold (contract_lock (locking_condition (output u))) in H.
      destruct (contract_lock _) eqn:HC; [split; [exists u; auto|done]|].
      apply obind_Ok in H as (v & Hv%map_err_Ok & H). destruct v; [|done].
      split; [exists u; auto|exact H].
    + intros [(u & Hu & HC) H]. exists u. split; [by apply ok_or_Ok|].
      fold (contract_lock (locking_condition (output u))). destruct (contract_lock _) eqn:HE; [done|].
      destruct HC as [|HC]; [done|]. rewrite HC. exact H.
  - rewrite IH. split.
    + intros [H0 HS] [|i] inp Hi; [injection Hi as <-; by rewrite N.add_0_r|].
      replace (idx + N.of_nat (S i)) with (idx + 1 + N.of_nat i) by lia. by apply HS.
    + intros H. split; [specialize (H 0%nat input eq_refl); by rewrite N.add_0_r in H|].
      intros i inp Hi. replace (idx + 1 + N.of_nat i) with (idx + N.of_nat (S i)) by lia. by apply H.
Qed.

Lemma check_transaction_Ok tx h time gas s gas' :
  is_coinbase tx = false → check_transaction tx h time gas s = Ok gas' ↔
  (∀ i input, inputs tx !! i = Some input → input_passes tx h s (N.of_nat i) input) ∧
  ∃ g, verify_transaction_eutxo tx time s MAX_TX_GAS = Ok g ∧ gas' = gas + g ∧ gas' ≤ MAX_BLOCK_GAS.
Proof.
  intros Hcb. unfold check_transaction, verify_transaction_scripts. rewrite Hcb, obind_Ok. split.
  - intros ([] & HV & (g & Hg%map_err_Ok & H)%obind_Ok). split; [exact (proj1 (verify_inputs_Ok _ _ _ _ _) HV)|].
    destruct (N.ltb_spec MAX_BLOCK_GAS (saturating_add gas g)) as [|Hle]; [done|]. injection H as <-.
    assert (MAX_BLOCK_GAS < U64_MAX) by done. unfold saturating_add in *. exists g. split; [done|]. lia.
  - intros (HV & g & Hg & -> & Hle). exists tt. split; [by apply (verify_inputs_Ok tx h s 0)|].
    rewrite Hg. cbn [map_err obind]. assert (MAX_BLOCK_GAS < U64_MAX) by done.
    replace (saturating_add gas g) with (gas + g) by (unfold saturating_add; lia).
    by destruct (N.ltb_spec MAX_BLOCK_GAS (gas + g)); [lia|].
Qed.

(** The transactions of a block, each checked on the set the ones before it
    leave, with the gas each consumes. *)
Inductive transactions_checked (h time : N) : UtxoSet → list Transaction → list N → Prop :=
| transactions_checked_nil s : transactions_checked h time s [] []
| transactions_checked_cons g gs fee s s1 tx txs :
    (∀ i input, inputs tx !! i = Some input → input_passes tx h s (N.of_nat i) input) →
    verify_transaction_eutxo tx time s MAX_TX_GAS = Ok g → transaction_step s tx h fee s1 →
    transactions_checked h time s1 txs gs → transactions_checked h time s (tx :: txs) (g :: gs).
Definition gas_total (gs : list N) : N := foldr N.add 0 gs.

Lemma insert_step s tx h fee s1 id :
  transaction_step s tx h fee s1 → txid (E := NodeError) tx = Ok id →
  insert_outputs id h false 0 (outputs tx) (remove_inputs (inputs tx) s) = (s1, Ok tt).
Proof.
  intros (id' & Hid' & Hf & -> & _) Hid%(txid_any (F := UtxoError)). assert (id' = id) as -> by congruence.
  by apply insert_outputs_Ok.
Qed.

Lemma transaction_step_txid {E} s tx h fee s1 : transaction_step s tx h fee s1 → ∃ id, txid (E := E) tx = Ok id.
Proof. intros (id & Hid & _). exists id. by eapply txid_any. Qed.

(** On transactions that the ledger accepts, the node checks the scripts and
    the gas, and computes the same set. *)
Lemma validate_transactions_step txs h time gas s fees s' s2 :
  transactions_step h s txs fees s' → gas ≤ MAX_BLOCK_GAS →
  validate_transactions txs h time gas s = (s2, Ok tt) ↔
  s2 = s' ∧ ∃ gs, transactions_checked h time s txs gs ∧ gas + gas_total gs ≤ MAX_BLOCK_GAS.
Proof.
  intros HT. revert gas. induction HT as [s|s tx txs fee fees s1 s' Hcb Hst HT IH]; intros gas HG.
  { split; [intros [= <-]; split; [done|exists []; split; [constructor|unfold gas_total; cbn [foldr]; lia]]|by intros [-> _]]. }
  rewrite validate_transactions_cons. unfold checked. rewrite Hcb. split.
  - intros (gas' & id & s3 & HC & Hid & HO & HR). rewrite (insert_step _ _ _ _ _ _ Hst Hid) in HO.
    injection HO as <-. apply check_transaction_Ok in HC as (HI & g & Hg & -> & Hle); [|done].
    apply (IH _ Hle) in HR as (-> & gs & HR & Hs). split; [done|]. exists (g :: gs).
    split; [by econstructor|unfold gas_total in *; cbn [foldr]; lia].
  - intros (-> & gs0 & HC & Hs). inversion HC as [|g gs fee' ? s3 ? ? HI Hg Hst' HC']; subst.
    unfold gas_total in Hs; cbn [foldr] in Hs.
    destruct (transaction_step_txid (E := NodeError) _ _ _ _ _ Hst) as [id Hid].
    assert (s3 = s1) as ->.
    { pose proof (insert_step _ _ _ _ _ _ Hst' Hid) as H3. rewrite (insert_step _ _ _ _ _ _ Hst Hid) in H3. congruence. }
    fold (gas_total gs) in Hs. exists (gas + g), id, s1.
    split; [apply check_transaction_Ok; [done|]; split; [done|]; exists g; split; [done|]; lia|].
    split; [done|]. split; [by eapply insert_step|]. apply IH; [lia|]. split; [done|]. exists gs. split; [done|lia].
Qed.

Lemma validate_block_step b h time s fees s' :
  block_step s (transactions b) h fees s' →
  ∃ cb rest s1, transactions b = cb :: rest ∧ coinbase_step s cb h s1 ∧
  ∀ s2, validate_block_transactions b h time s = (s2, Ok tt) ↔
        s2 = s' ∧ ∃ gs, transactions_checked h time s1 rest gs ∧ gas_total gs ≤ MAX_BLOCK_GAS.
Proof.
  intros (cb & rest & s1 & E & Hcb & HC & HT & _). exists cb, rest, s1. split; [done|]. split; [done|].
  intros s2. unfold validate_block_transactions. rewrite E, validate_transactions_cons. unfold checked. rewrite Hcb.
  pose proof HC as (id & Hid%(txid_any (F := NodeError)) & Hf & Es1 & _).
  assert (HI : insert_outputs id h true 0 (outputs cb) s = (s1, Ok tt)) by (apply insert_outputs_Ok; exact (conj Hf Es1)).
  pose proof (validate_transactions_step rest h time 0 s1 _ s' s2 HT ltac:(done)) as HV.
  split.
  - intros (g & id' & s3 & -> & Hid' & HO & HR). assert (id' = id) as -> by congruence.
    assert (s3 = s1) as -> by congruence. by apply HV.
  - intros HR. exists 0, id, s1. split; [done|]. split; [done|]. split; [done|]. by apply HV.
Qed.

(** C17: On a block the ledger accepts at the height its coinbase states, the
    verifier of the node returns, and accepts exactly when, on the set the
    transactions before it leave, each transaction after the coinbase has every
    script of an input evaluate to true on the digest of that input and its
    contracts answer yes, and the gas they all consume is in the limit of a
    block; and the set it has then built is the one the ledger computes. *)
Theorem node_verifier_spec (b : Block) (s s' : UtxoSet) (fees : N) (He : block_encodable b)
    (HA : apply_block (transactions b) (stated_height b) s = (s', Ok fees)) :
  returns (verify_block_transactions (BlockTransactionVerifier := NodeBlockVerifier) b s) ∧
  ∃ cb rest s1, transactions b = cb :: rest ∧ coinbase_step s cb (stated_height b) s1 ∧
  (verify_block_transactions (BlockTransactionVerifier := NodeBlockVerifier) b s = Ok tt ↔
   ∃ gs, transactions_checked (stated_height b) (timestamp (header b)) s1 rest gs ∧ gas_total gs ≤ MAX_BLOCK_GAS) ∧
  ∀ s2, validate_block_transactions b (stated_height b) (timestamp (header b)) s = (s2, Ok tt) → s2 = s'.
Proof.
  split; [by apply node_verifier_returns|]. apply apply_block_Ok in HA.
  destruct (validate_block_step b _ (timestamp (header b)) _ _ _ HA) as (cb & rest & s1 & E & HC & HV).
  exists cb, rest, s1. split; [done|]. split; [done|]. split; [|intros s2 H2; by apply HV in H2 as [-> _]].
  unfold verify_block_transactions, NodeBlockVerifier. rewrite map_err_Ok. split.
  - intros H. apply (HV (validate_block_transactions b (stated_height b) (timestamp (header b)) s).1).
    rewrite <- H. apply surjective_pairing.
  - intros H. by rewrite (proj2 (HV s') (conj eq_refl H)).
Qed.
End verifier.

(** ** A block from outside *)

Section submission.
Context {B3 : Blake3} {ED : Ed25519} {BC : Bincode} {WM : Wasmi} {PC : Payload TxContext}.
#[local] Existing Instance NodeBlockVerifier.

Lemma validate_and_root_returns b h s : block_encodable b → returns (validate_and_root b h s).
Proof.
  intros He. unfold validate_and_root, validate_block_transactions.
  pose proof (validate_transactions_returns (transactions b) h (timestamp (header b)) 0 s He) as HR.
  destruct (validate_transactions _ _ _ _ s) as [s' r]. apply returns_obind; [exact HR|intros _ _].
  apply returns_obind; [|done]. unfold check_root.
  destruct (compute_utxo_root_total (E := NodeError) s') as [root ->]. cbn [obind]. by destruct (negb _).
Qed.

Lemma replay_ancestors_ok ns h path u : ledger ns h path u → replay_ancestors path = Ok u.
Proof.
  unfold replay_ancestors. induction 1 as [h n u fees Hn Hh HA|h n p u u' fees Hn Hh HL IH HA].
  - cbn [ofold]. unfold apply_block_transactions. destruct (transactions (node_block n)) as [|cb txs]; [done|].
    by rewrite Hh, HA.
  - rewrite ofold_app, IH. cbn [obind ofold]. apply authoritative_apply in HA. unfold apply_block_transactions.
    destruct (transactions (node_block n)) as [|cb txs]; [done|]. by rewrite HA.
Qed.

Context (genesis : BlockNode).

Lemma find_common_ancestor_unknown ns t a b pa ua :
  map_Forall (node_wf genesis ns) ns → nodes t = ns → ledger ns a pa ua → ns !! b = None →
  returns (find_common_ancestor t a b) ∧ ∀ h, find_common_ancestor t a b ≠ Ok h.
Proof.
  intros Hwf <- Ha Hb. destruct (ledger_lookup _ _ _ _ Ha) as (n & _ & Hn & _). unfold find_common_ancestor.
  rewrite bool_decide_eq_false_2 by congruence.
  rewrite (ancestors_loop_ok genesis _ Hwf a n pa ua) by (done || by apply link_fuel_enough).
  cbn [obind]. unfold link_fuel. rewrite Hb. cbn [from_option meet_loop]. by rewrite Hb.
Qed.

Lemma pre_validate_returns k st b :
  chain_inv genesis k st → block_encodable b → returns (pre_validate_reorg_branch st.1 st.2 b).
Proof.
  intros Hinv He. pose proof (inv_nodes _ _ _ Hinv) as Hwf. unfold pre_validate_reorg_branch.
  destruct (inv_tip _ _ _ Hinv) as [pa HLa]. set (parent := previous_block_hash (header b)).
  destruct (nodes st.1 !! parent) as [p|] eqn:Hp.
  2:{ destruct (find_common_ancestor_unknown _ st.1 _ parent _ _ Hwf eq_refl HLa Hp) as [[HP HD] HF].
      destruct (find_common_ancestor _ _ _) as [h| | |]; [by destruct (HF h)|done..]. }
  destruct (inv_valid _ _ _ Hinv _ _ Hp) as (pb & ub & HLb).
  destruct (find_common_ancestor_ok genesis _ Hwf st.1 _ _ _ _ _ _ eq_refl HLa HLb)
    as (common & m & da & db & -> & -> & Hdb & ->). cbn [map_err obind].
  rewrite (until_loop_ok genesis _ Hwf parent _ m db ub p _ HLb Hp (link_fuel_enough _ _ _ Hp)). cbn [obind].
  apply returns_obind.
  { case_bool_decide; [done|]. destruct (ledger_prefix genesis _ Hwf _ _ _ _ _ HLa) as [sm HLm].
    rewrite (get_path_ok genesis _ Hwf st.1 _ _ sm eq_refl HLm). cbn [map_err obind].
    by rewrite (replay_ancestors_ok _ _ _ _ HLm). }
  intros staged _. rewrite reverse_involutive. apply returns_obind.
  - pose proof (path_encodable genesis _ _ _ _ Hwf HLb) as HE. rewrite fmap_app, fmap_cons in HE.
    apply Forall_app in HE as [_ HE%Forall_cons]. destruct HE as [_ HE].
    revert staged HE. generalize db as l. clear. intros l. induction l as [|n l IH]; intros s HE; [done|]. cbn [ofold].
    apply Forall_cons in HE as [Hn HE]. apply returns_obind; [by apply validate_and_root_returns|].
    intros s' _. by apply IH.
  - intros s' _. apply returns_obind; [by apply validate_and_root_returns|done].
Qed.

Context {BS : BlockStore} {SL : BlockStoreLaws}.

(** The invariant of the node: its chain state stands for a ledger every block
    of whose canonical path the node's verifier has accepted, its pool is
    sound, and it can hold and encode its transactions. *)
Record node_inv (k : N) (s : Shared) : Prop := {
  ni_chain : chain_inv genesis k (chain_of s);
  ni_pool : MempoolTheorems.sound (mempool s);
  ni_txs : map_Forall (λ _ n, Forall pool_tx (transactions (node_block n))) (nodes (chain_tree s))
}.

Lemma prevalidate_returns k b s :
  chain_inv genesis k (chain_of s) → block_encodable b → returns (prevalidate b s).
Proof.
  intros Hinv He. unfold prevalidate. case_bool_decide.
  - apply returns_obind; [by apply validate_and_root_returns|done].
  - exact (pre_validate_returns k (chain_of s) b Hinv He).
Qed.

Lemma process_run k now b s :
  chain_inv genesis k (chain_of s) → k < U64_MAX → block_encodable b →
  ∃ st' r, process now b s = (with_chain st' s, map_err NodeConsensus r) ∧ step_result (chain_of s) b st' r ∧
    process_block_with_verifier now b (chain_of s) = (st', r).
Proof.
  intros Hinv Hk He. pose proof (process_step genesis k (chain_of s) now b Hinv Hk He) as HS.
  unfold stepped in HS. unfold process.
  destruct (process_block_with_verifier now b (chain_of s)) as [st' r]. by exists st', r.
Qed.

Lemma pool_txs_encodable txs : Forall pool_tx txs → Forall transaction_encodable txs.
Proof. intros HF. eapply Forall_impl; [exact HF|]. by intros tx []. Qed.

Lemma on_pool_run {A} (m : poolM A) s p a :
  m (mempool s) = (p, Ok a) → on_pool m s = (with_pool p s, Ok a).
Proof. unfold on_pool. by intros ->. Qed.

Lemma consensus_total h : MempoolTheorems.total_verifier (ConsensusScriptVerifier h).
Proof. intros d l a. apply consensus_verifier_returns. Qed.

Lemma meta_total chain h work bs : ∃ meta, connected_meta chain h work bs = Ok meta ∧ meta.*1.*1 = bs.
Proof.
  unfold connected_meta. induction bs as [|b bs (meta & IH & E)]; [by exists []|]. cbn [omap_list].
  rewrite header_hash_ok. cbn [obind]. rewrite IH. cbn [obind]. eexists. split; [done|]. cbn. rewrite E. f_equal.
  by destruct (nodes chain !! _).
Qed.

(** What the store has been given. *)
Definition filed (b : Block) (h : N) (work : CumulativeWork) (chain : ChainTree) (reorg : ReorgResult) (d d' : store) : Prop :=
  if bool_decide (disconnected_blocks reorg = []) then commit_block b h work d = Ok d'
  else ∃ meta, connected_meta chain h work (connected_blocks reorg) = Ok meta ∧
         apply_reorganization (disconnected_blocks reorg) meta d = Ok d'.

(** The blocks of a reorganization can be encoded, and the pool can hold what it
    returns. *)
Definition reorg_fits (reorg : ReorgResult) : Prop :=
  Forall pool_tx (transactions_for_mempool reorg) ∧ Forall block_encodable (disconnected_blocks reorg) ∧
  Forall block_encodable (connected_blocks reorg).

Lemma write_store_cases before f s :
  returns (f (disk s)) →
  (∃ d, f (disk s) = Ok d ∧ write_store before f s = (with_disk d s, Ok tt)) ∨
  (∃ e, write_store before f s = (with_chain before s, Err (NodeStorage e))).
Proof.
  unfold write_store. intros [HP HD]. destruct (f (disk s)) as [d|e| |]; [left; by exists d|right; by exists e|done..].
Qed.

(** After a block became the tip: the store has it and the pool follows, or the
    store refused it and the chain state is put back. *)
Lemma finish_block_cases before b h later reorg s :
  MempoolTheorems.sound (mempool s) → Forall pool_tx (transactions b) → reorg_fits reorg →
  (∃ p d, finish_block before b h later reorg s = (with_pool p (with_disk d s), Ok tt) ∧ MempoolTheorems.sound p ∧
     filed b h (canonical_work (chain_tree s)) (chain_tree s) reorg (disk s) d) ∨
  (∃ e, finish_block before b h later reorg s = (with_chain before s, Err (NodeStorage e))).
Proof.
  intros HS HF (HR & HE1 & HE2). unfold finish_block, filed. rewrite sbind_sget.
  assert (HB : ∀ s1, MempoolTheorems.sound (mempool s1) → ∃ p, MempoolTheorems.sound p ∧
            on_pool (on_block_connected b (utxo_set s)) s1 = (with_pool p s1, Ok tt)).
  { intros s1 HS1. destruct (on_block_connected_cases b (utxo_set s) (mempool s1) HF (proj1 HS1))
      as (ids & q & E & _). exists q. split; [|by apply on_pool_run].
    eapply MempoolTheorems.event_sound; [|exact HS1]. by eapply MempoolTheorems.event_block. }
  case_bool_decide.
  - destruct (write_store_cases before (commit_block b h (canonical_work (chain_tree s))) s) as [(d & Hd & E)|(e & E)].
    + apply commit_returns, pool_txs_encodable, HF.
    + left. rewrite (sbind_run _ _ _ _ _ E). destruct (HB (with_disk d s) HS) as (p & Hp & E2). exists p, d. done.
    + right. exists e. by rewrite (sbind_run_err _ _ _ _ _ E).
  - destruct (meta_total (chain_tree s) h (canonical_work (chain_tree s)) (connected_blocks reorg)) as (meta & HM & Hmb).
    rewrite HM, sbind_assoc, sbind_lift_Ok, sbind_assoc.
    destruct (write_store_cases before (apply_reorganization (disconnected_blocks reorg) meta) s) as [(d & Hd & E)|(e & E)].
    { apply reorganization_returns; [done|]. rewrite <- Hmb, !Forall_fmap in HE2. exact HE2. }
    2:{ right. exists e. by rewrite (sbind_run_err _ _ _ _ _ E). }
    left. rewrite (sbind_run _ _ _ _ _ E), sbind_assoc.
    pose proof HS as (Hok & Hb & Hmax).
    destruct (on_reorg_cases (AV := ConsensusScriptVerifier h) (λ _, True) (transactions_for_mempool reorg)
                (utxo_set s) later (mempool s)) as (q & rej & E3 & _); [apply consensus_total|done..|].
    assert (Hq : MempoolTheorems.sound q).
    { eapply MempoolTheorems.event_sound; [|exact HS].
      exact (MempoolTheorems.event_reorg (ConsensusScriptVerifier h) _ _ _ _ _ _ (consensus_total h) HR E3). }
    rewrite (sbind_run _ _ _ _ _ (on_pool_run _ (with_disk d s) _ _ E3)). cbn [sbind sret].
    destruct (HB (with_pool q (with_disk d s)) Hq) as (p & Hp & E2). exists p, d. split; [exact E2|].
    split; [done|]. by exists meta.
Qed.

Lemma step_nodes st b st' r :
  step_result st b st' r →
  nodes st'.1 = nodes st.1 ∨ ∃ n, node_block n = b ∧ nodes st'.1 = <[node_hash n := n]> (nodes st.1).
Proof.
  intros [st2 e [marks ->] He|Hin|n path s s' Hext Hb Hw|n path s s' d Hext Hb Hw Hd|
    n common m da db s s' txs Hext Hb Hw HLa Hdb Hd Hv HC Htx]; cbn; [by left|by left|right..]; by exists n.
Qed.

(** The tip, the set, the pool and the store are as before. *)
Definition unmoved (s s' : Shared) : Prop :=
  canonical_tip (chain_tree s') = canonical_tip (chain_tree s) ∧ utxo_set s' = utxo_set s ∧
  mempool s' = mempool s ∧ disk s' = disk s.

Lemma node_inv_step k s b st' r :
  node_inv k s → Forall pool_tx (transactions b) → step_result (chain_of s) b st' r →
  node_inv (k + 1) (with_chain st' s).
Proof.
  intros [HC HP HT] HF Hstep. split; [|done|].
  - destruct st' as [t' u']. by eapply step_preserves.
  - destruct (step_nodes _ _ _ _ Hstep) as [E|(n & Hn & E)]; cbn [chain_tree with_chain] in *; rewrite E; [done|].
    apply map_Forall_insert_2; [by rewrite Hn|done].
Qed.

Lemma node_inv_weaken k s : node_inv k s → node_inv (k + 1) s.
Proof. intros [HC HP HT]. split; [|done|done]. eapply chain_inv_weaken; [|exact HC]. lia. Qed.

Lemma node_inv_pool k s p : node_inv k s → MempoolTheorems.sound p → node_inv k (with_pool p s).
Proof. intros [HC _ HT] Hp. by split. Qed.

Lemma node_inv_mark k s hash :
  node_inv k s → node_inv (k + 1) (with_chain (mark_block_invalid hash (chain_tree s), utxo_set s) s).
Proof.
  intros [HC HP HT]. split; [|done|exact HT]. eapply chain_inv_weaken with k; [lia|].
  eapply chain_inv_marks; [|exact HC]. exists [hash]. unfold chain_of, with_chain, mark_block_invalid. cbn.
  by rewrite (right_id_L ∅ _).
Qed.

Lemma step_quiet k s b st' r :
  chain_inv genesis k (chain_of s) → step_result (chain_of s) b st' r → (∀ reorg, r ≠ Ok (Some reorg)) →
  unmoved s (with_chain st' s).
Proof.
  intros HC Hstep Hr. destruct (step_work _ _ _ _ _ _ HC Hstep) as (H1 & H2 & _).
  destruct (decide (canonical_tip st'.1 = canonical_tip (chain_tree s))) as [E|E].
  - destruct (H1 E) as [_ E2]. done.
  - destruct (H2 E) as [[res ->] _]. by destruct (Hr res).
Qed.

(** A reorganization, seen from the node. *)
Lemma step_moved k s b st' reorg :
  node_inv k s → step_result (chain_of s) b st' (Ok (Some reorg)) →
  canonical_tip st'.1 = blake3 (header_bytes (header b)) ∧
  work_val (canonical_work (chain_tree s)) < work_val (canonical_work st'.1) ∧ reorg_fits reorg.
Proof.
  intros [HC HP HT] Hstep.
  assert (HW : canonical_tip st'.1 ≠ canonical_tip (chain_tree s) →
            work_val (canonical_work (chain_tree s)) < work_val (canonical_work st'.1)).
  { intros HN. exact (proj2 (proj1 (proj2 (step_work _ _ _ _ _ _ HC Hstep)) HN)). }
  inversion Hstep as [| | | |n common m da db u u' txs Hext Hb Hw HLa Hdb Hd Hv Hcn Htx]; subst.
  cbn [fst canonical_tip] in *.
  split; [by apply (ext_hash _ _ _ _ _ Hext)|]. split.
  - apply HW. intros E. destruct (ledger_lookup _ _ _ _ HLa) as (x & _ & Hx & _). cbn [chain_of fst] in Hx.
    rewrite <- E in Hx. pose proof (ext_new _ _ _ _ _ Hext) as Hnew. cbn [chain_of fst] in Hnew. congruence.
  - pose proof (path_encodable genesis _ _ _ _ (inv_nodes _ _ _ HC) HLa) as HE1.
    pose proof (path_encodable genesis _ _ _ _ (inv_nodes _ _ _ HC) (ext_ledger _ _ _ _ _ Hext)) as HE2.
    rewrite fmap_app, fmap_cons in HE1, HE2. apply Forall_app in HE1 as [_ [_ HE1]%Forall_cons].
    apply Forall_app in HE2 as [_ [_ HE2]%Forall_cons]. split; [|split].
    2:{ cbn [disconnected_blocks]. rewrite fmap_reverse. by apply Forall_reverse. }
    2:{ cbn [connected_blocks]. rewrite fmap_app. apply Forall_app. split; [done|]. constructor; [by eapply ext_encodable|constructor]. }
    apply Forall_forall. intros tx Htx'. cbn [transactions_for_mempool] in Htx'.
    apply (returned_transactions_spec _ _ _ Htx) in Htx' as [(b & Hb & Hin) _].
    apply list_elem_of_fmap in Hb as (x & -> & Hx). apply elem_of_reverse in Hx.
    assert (Hx' : nodes (chain_tree s) !! node_hash x = Some x).
    { eapply (ledger_elem genesis _ (inv_nodes _ _ _ HC) _ _ _ _ HLa). set_solver. }
    specialize (HT _ _ Hx'). cbn in HT. rewrite Forall_forall in HT. apply HT.
    rewrite <- (take_drop 1 (transactions (node_block x))). apply elem_of_app. by right.
Qed.

(** How the chain state and the store have moved with a block [b] filed under
    height [h]: not at all, but for marks; by the chain crate, without a new
    tip; or to a new tip the store has filed. *)
Inductive traced (now : option N) (s : Shared) (b : Block) (h : N) (s' : Shared) : Prop :=
| traced_still : nodes (chain_tree s') = nodes (chain_tree s) → unmoved s s' → traced now s b h s'
| traced_kept r :
    process_block_with_verifier now b (chain_of s) = (chain_of s', r) → (∀ reorg, r ≠ Ok (Some reorg)) →
    unmoved s s' → traced now s b h s'
| traced_moved reorg :
    process_block_with_verifier now b (chain_of s) = (chain_of s', Ok (Some reorg)) →
    filed b h (canonical_work (chain_tree s')) (chain_tree s') reorg (disk s) (disk s') → traced now s b h s'.

Lemma submit_external_block_cases (k : N) (s : Shared) (now : option N) (later : N) (b : Block)
    (Hinv : node_inv k s) (Hk : k < U64_MAX) (Hb : Forall pool_tx (transactions b)) :
  ∃ s' r, submit_external_block now later b s = (s', r) ∧ returns r ∧ node_inv (k + 1) s' ∧
    match r with
    | Ok true =>
      prevalidate b s = Ok tt ∧ canonical_tip (chain_tree s') = blake3 (header_bytes (header b)) ∧
      work_val (canonical_work (chain_tree s)) < work_val (canonical_work (chain_tree s')) ∧
      ∃ reorg, process_block_with_verifier now b (chain_of s) = (chain_of s', Ok (Some reorg)) ∧
        filed b (canonical_height (chain_tree s')) (canonical_work (chain_tree s')) (chain_tree s') reorg (disk s) (disk s')
    | _ => unmoved s s'
    end ∧ traced now s b (canonical_height (chain_tree s')) s'.
Proof.
  pose proof (ni_chain _ _ Hinv) as HC. pose proof (pool_txs_encodable _ Hb) as He.
  unfold submit_external_block. rewrite sbind_sget, header_hash_ok, sbind_lift_Ok.
  destruct (_ || _).
  { eexists s, _. split; [done|]. split; [done|]. split; [by apply node_inv_weaken|]. split; [done|]. by apply traced_still. }
  pose proof (prevalidate_returns k b s HC He) as [HP HD].
  destruct (prevalidate b s) as [[]|e| |] eqn:Hpre; [| |done..].
  2:{ eexists _, _. split; [done|]. split; [done|]. split; [by apply node_inv_mark|]. split; [done|]. by apply traced_still. }
  rewrite sbind_lift_Ok. destruct (process_run k now b s HC Hk He) as (st' & r & HR & Hstep & HE).
  pose proof (node_inv_step _ _ _ _ _ Hinv Hb Hstep) as Hinv'.
  assert (HQ : (∀ reorg, r ≠ Ok (Some reorg)) → unmoved s (with_chain st' s)) by (intros; by apply (step_quiet k s b st' r)).
  assert (Est : ∀ s0, chain_of (with_chain st' s0) = st') by by destruct st'.
  destruct r as [[reorg|]|e| |]; cbn [map_err] in HR.
  - rewrite (sbind_run _ _ _ _ _ HR), sbind_sget.
    destruct (step_moved _ _ _ _ _ Hinv Hstep) as (Htip & Hwork & Hret).
    destruct (finish_block_cases (chain_of s) b (canonical_height st'.1) later reorg (with_chain st' s)
                (ni_pool _ _ Hinv) Hb Hret) as [(p & d & E & Hp & Hf)|(e & E)].
    + rewrite (sbind_run _ _ _ _ _ E). eexists _, _. split; [done|]. split; [done|].
      split; [split; [apply (ni_chain _ _ Hinv')|done|apply (ni_txs _ _ Hinv')]|]. split.
      * split; [done|]. split; [done|]. split; [done|]. exists reorg. split; [by rewrite HE, <- (Est s)|done].
      * apply (traced_moved _ _ _ _ _ reorg); [|done]. by rewrite HE, <- (Est s).
    + rewrite (sbind_run_err _ _ _ _ _ E). eexists _, _. split; [done|]. split; [done|].
      split; [apply node_inv_weaken; by destruct s, Hinv|]. split; [done|]. by apply traced_still.
  - rewrite (sbind_run _ _ _ _ _ HR). eexists _, _. split; [done|]. split; [done|]. split; [done|].
    split; [by apply HQ|]. eapply (traced_kept _ _ _ _ _ (Ok None)); [by rewrite HE, Est|done|by apply HQ].
  - rewrite (sbind_run_err _ _ _ _ _ HR). eexists _, _. split; [done|]. split; [done|]. split; [done|].
    split; [by apply HQ|]. eapply (traced_kept _ _ _ _ _ (Err e)); [by rewrite HE, Est|done|by apply HQ].
  - by inversion Hstep.
  - by inversion Hstep.
Qed.

(** C4: Submitting a block from outside always returns and keeps the invariant of
    the node. It is fail-closed: when it reports an error or a side branch, the
    canonical tip, the set of unspent outputs, the mempool and the store are as
    before, a refusal by the store included. When it reports a new tip, the
    node's own validation of the block or of its whole branch had succeeded
    first, the block is the tip, the canonical chain carries more work, the chain
    and the set are what the chain crate left, and the store has filed exactly
    the reorganization the chain crate reported: by [commit_block] when it
    disconnected nothing, else by [apply_reorganization] of the blocks it
    disconnected and connected. *)
Theorem submit_external_block_spec (k : N) (s : Shared) (now : option N) (later : N) (b : Block)
    (Hinv : node_inv k s) (Hk : k < U64_MAX) (Hb : Forall pool_tx (transactions b)) :
  ∃ s' r, submit_external_block now later b s = (s', r) ∧ returns r ∧ node_inv (k + 1) s' ∧
    match r with
    | Ok true =>
      prevalidate b s = Ok tt ∧ canonical_tip (chain_tree s') = blake3 (header_bytes (header b)) ∧
      work_val (canonical_work (chain_tree s)) < work_val (canonical_work (chain_tree s')) ∧
      ∃ reorg, process_block_with_verifier now b (chain_of s) = (chain_of s', Ok (Some reorg)) ∧
        filed b (canonical_height (chain_tree s')) (canonical_work (chain_tree s')) (chain_tree s') reorg (disk s) (disk s')
    | _ => unmoved s s'
    end.
Proof.
  destruct (submit_external_block_cases k s now later b Hinv Hk Hb) as (s' & r & E & Hr & Hi & H & _). by exists s', r.
Qed.
End submission.

(** ** Events of a running node *)

Section events.
Context {B3 : Blake3} {ED : Ed25519} {BC : Bincode} {WM : Wasmi} {PC : Payload TxContext} {BS : BlockStore} {SL : BlockStoreLaws}.
#[local] Existing Instance NodeBlockVerifier.
Context (genesis : BlockNode).

(** A mined block goes the way of one from outside that extends the tip. *)
Lemma commit_mined_cases k s now later t solved :
  node_inv genesis k s → k < U64_MAX → Forall pool_tx (t_transactions t) →
  ∃ s' r, commit_mined now later t solved s = (s', r) ∧ returns r ∧ node_inv genesis (k + 1) s' ∧
    match r with
    | Ok true => canonical_tip (chain_tree s') = blake3 (header_bytes solved) ∧
        ∃ reorg, filed (assemble_block t solved) (t_height t) (canonical_work (chain_tree s')) (chain_tree s') reorg
                   (disk s) (disk s')
    | _ => unmoved s s'
    end ∧
    (nodes (chain_tree s') = nodes (chain_tree s) ∧ unmoved s s' ∨
     canonical_tip (chain_tree s) = t_previous t ∧ traced now s (assemble_block t solved) (t_height t) s').
Proof.
  intros Hinv Hk Hb. pose proof (ni_chain _ _ _ Hinv) as HC. pose proof (pool_txs_encodable _ Hb) as He.
  unfold commit_mined. rewrite sbind_sget. case_bool_decide as Htip0; cbn [negb].
  2:{ eexists s, _. split; [done|]. split; [done|]. split; [by apply node_inv_weaken|]. split; [done|]. by left. }
  destruct (process_run genesis k now (assemble_block t solved) s HC Hk He) as (st' & r & HR & Hstep & HE).
  pose proof (node_inv_step genesis k s (assemble_block t solved) st' r Hinv Hb Hstep) as Hinv'.
  assert (HQ : (∀ reorg, r ≠ Ok (Some reorg)) → unmoved s (with_chain st' s))
    by (intros; by apply (step_quiet genesis k s (assemble_block t solved) st' r)).
  assert (Est : ∀ s0, chain_of (with_chain st' s0) = st') by by destruct st'.
  destruct r as [[reorg|]|e| |]; cbn [map_err] in HR.
  - rewrite (sbind_run _ _ _ _ _ HR). destruct (step_moved _ _ _ _ _ _ Hinv Hstep) as (Htip & _ & Hret).
    destruct (finish_block_cases (chain_of s) (assemble_block t solved) (t_height t) later reorg (with_chain st' s)
                (ni_pool _ _ _ Hinv) Hb Hret) as [(p & d & E & Hp & Hf)|(e & E)].
    + rewrite (sbind_run _ _ _ _ _ E). eexists _, _. split; [done|]. split; [done|].
      split; [split; [apply (ni_chain _ _ _ Hinv')|done|apply (ni_txs _ _ _ Hinv')]|].
      split; [split; [done|]; by exists reorg|]. right. split; [done|].
      apply (traced_moved _ _ _ _ _ reorg); [|done]. by rewrite HE, <- (Est s).
    + rewrite (sbind_run_err _ _ _ _ _ E). eexists _, _. split; [done|]. split; [done|].
      split; [apply node_inv_weaken; by destruct s, Hinv|]. split; [done|]. left. done.
  - rewrite (sbind_run _ _ _ _ _ HR). eexists _, _. split; [done|]. split; [done|]. split; [done|].
    split; [by apply HQ|]. right. split; [done|].
    eapply (traced_kept _ _ _ _ _ (Ok None)); [by rewrite HE, Est|done|by apply HQ].
  - rewrite (sbind_run_err _ _ _ _ _ HR). eexists _, _. split; [done|]. split; [done|]. split; [done|].
    split; [by apply HQ|]. right. split; [done|].
    eapply (traced_kept _ _ _ _ _ (Err e)); [by rewrite HE, Est|done|by apply HQ].
  - by inversion Hstep.
  - by inversion Hstep.
Qed.

Lemma verify_inputs_confirmed tx h utxos idx ins :
  verify_inputs tx h utxos idx ins = Ok tt → Forall (λ i, is_Some (utxos !! previous_output i)) ins.
Proof.
  revert idx; induction ins as [|i ins IH]; intros idx H; [constructor|]. cbn [verify_inputs] in H.
  apply obind_Ok in H as (u & Hu%ok_or_Ok & H). constructor; [by exists u|].
  destruct (_ && _); [by eapply IH|]. apply obind_Ok in H as ([] & _ & H); cbn [negb] in H; [exact (IH _ H)|done].
Qed.

(** What submitting a transaction does. *)
Lemma submit_transaction_cases k s now tx :
  node_inv genesis k s → pool_tx tx →
  let h := canonical_height (chain_tree s) in
  ∃ p r, submit_transaction now tx s = (with_pool p s, r) ∧ returns r ∧ MempoolTheorems.sound p ∧
    (is_ok r = true → verify_transaction_scripts tx h (utxo_set s) = Ok tt ∧
       is_ok (verify_transaction_eutxo tx now (utxo_set s) MAX_TX_GAS) = true) ∧
    (verify_transaction_scripts tx h (utxo_set s) ≠ Ok tt → p = mempool s) ∧
    (∀ id, r = Ok id → ∃ e parents, evaluated (AV := ConsensusScriptVerifier h) tx (utxo_set s) now (mempool s) e parents ∧
       id = e_txid e ∧ entries p !! id = Some e).
Proof.
  intros Hinv Htx h. unfold submit_transaction. rewrite sbind_sget. fold h.
  assert (Hself : with_pool (mempool s) s = s) by by destruct s.
  assert (HV : returns (verify_transaction_scripts tx h (utxo_set s))).
  { unfold verify_transaction_scripts. destruct (is_coinbase tx); [done|apply verify_inputs_returns]. }
  destruct (verify_transaction_scripts tx h (utxo_set s)) as [[]|e| |]; [| |by destruct HV..].
  2:{ exists (mempool s), (Err e). rewrite Hself. split; [done|]. split; [done|]. split; [apply Hinv|]. split; [by intros|]. split; [done|]. by intros. }
  rewrite sbind_lift_Ok. pose proof (verify_transaction_eutxo_returns tx now (utxo_set s) MAX_TX_GAS execute_validator_returns) as HE.
  destruct (verify_transaction_eutxo tx now (utxo_set s) MAX_TX_GAS) as [gas|e| |]; [| |by destruct HE..].
  2:{ eexists (mempool s), _. rewrite Hself. split; [done|]. split; [done|]. split; [apply Hinv|]. split; [by intros|]. split; [done|]. by intros. }
  cbn [map_err]. rewrite sbind_lift_Ok.
  pose proof (ni_pool _ _ _ Hinv) as HS. pose proof HS as (Hok & _ & Hmax).
  destruct (admit_transaction_cases (AV := ConsensusScriptVerifier h) tx (utxo_set s) now (mempool s)
              (consensus_total h) Htx Hmax Hok) as (q & r & E & Hq & Hcfg & HA).
  exists q, (map_err NodeMempool r). unfold on_pool. rewrite E. split; [done|].
  split. { inversion HA; by split. }
  split. { eapply MempoolTheorems.event_sound; [|exact HS]. eapply MempoolTheorems.event_admit; [|exact Htx|exact E]. apply consensus_total. }
  split; [done|]. split; [done|]. intros id Hid%map_err_Ok. subst r. inversion HA as [| |e parents q' Hev _ _ _ Eq Er]; subst.
  exists e, parents. split; [done|]. split; [done|]. unfold add_entry. cbn [entries]. by rewrite lookup_insert_eq.
Qed.

(** C27: Submitting a transaction always returns, and touches the pool alone. It
    is admitted only when every output it spends is confirmed, its scripts and
    its contracts accept it at the height of the tip, and it passes the
    admission of the mempool; in particular a transaction that spends an output
    of a pending one is never admitted, although the mempool can hold it, and
    leaves the pool as it was. *)
Theorem submit_transaction_spec (k : N) (s : Shared) (now : N) (tx : Transaction)
    (Hinv : node_inv genesis k s) (Htx : pool_tx tx) :
  let h := canonical_height (chain_tree s) in
  ∃ p r, submit_transaction now tx s = (with_pool p s, r) ∧ returns r ∧ node_inv genesis k (with_pool p s) ∧
    (∀ id, r = Ok id → is_coinbase tx = false ∧ Forall (λ i, is_Some (utxo_set s !! previous_output i)) (inputs tx) ∧
       verify_transaction_scripts tx h (utxo_set s) = Ok tt ∧
       is_ok (verify_transaction_eutxo tx now (utxo_set s) MAX_TX_GAS) = true ∧
       ∃ e parents, evaluated (AV := ConsensusScriptVerifier h) tx (utxo_set s) now (mempool s) e parents ∧
         id = e_txid e ∧ entries p !! id = Some e) ∧
    (∀ i, is_coinbase tx = false → i ∈ inputs tx → utxo_set s !! previous_output i = None →
       is_ok r = false ∧ p = mempool s).
Proof.
  intros h. destruct (submit_transaction_cases k s now tx Hinv Htx) as (p & r & E & Hr & HS & Hok & Hp & Hev).
  assert (HC : is_coinbase tx = false → verify_transaction_scripts tx h (utxo_set s) = Ok tt →
            Forall (λ i, is_Some (utxo_set s !! previous_output i)) (inputs tx)).
  { unfold verify_transaction_scripts. intros ->. apply verify_inputs_confirmed. }
  exists p, r. split; [done|]. split; [done|]. split; [by destruct Hinv|]. split.
  - intros id ->. destruct (Hok eq_refl) as [HV HE]. destruct (Hev id eq_refl) as (e & parents & He & H1 & H2).
    pose proof (ev_not_coinbase _ _ _ _ _ _ He) as Hcb. split; [done|]. split; [by apply HC|]. split; [done|].
    split; [done|]. by exists e, parents.
  - intros i Hcb Hi Hnone. assert (HN : verify_transaction_scripts tx h (utxo_set s) ≠ Ok tt).
    { intros HV%HC; [|done]. rewrite Forall_forall in HV. destruct (HV i Hi) as [u Hu]. congruence. }
    split; [destruct (is_ok r); [by destruct (Hok eq_refl)|done]|]. by apply Hp.
Qed.
End events.

(** ** Reachable states *)

Section reachable.
Context {B3 : Blake3} {ED : Ed25519} {BC : Bincode} {WM : Wasmi} {PC : Payload TxContext} {BS : BlockStore} {SL : BlockStoreLaws}.
#[local] Existing Instance NodeBlockVerifier.

(** A start on an empty database, [recover] without a persisted tip: the
    genesis block is filed and its coinbase applied. *)
Definition recover_fresh (gb : Block) (depth : N) : nodeM unit :=
  let! s := sget in
  let! tree := slift (ChainTree_new gb) in
  let tree := with_max_reorg_depth tree depth in
  let! _ := smodify (with_chain (tree, utxo_set s)) in
  let! _ := write_store (tree, utxo_set s) (commit_block gb (canonical_height tree) (canonical_work tree)) in
  let! cb := slift (expect (head (transactions gb))) in
  let '(utxos, r) := apply_coinbase cb 0 ∅ in
  let! _ := slift (map_err (λ e, InconsistentState (InsertFailed e)) r) in
  smodify (with_chain (tree, utxos)).

Inductive node_reachable (gb : Block) (depth : N) : N → Shared → Prop :=
| reached_started tree u d s' :
    recover_fresh gb depth (mkShared tree u Mempool_new d) = (s', Ok tt) → node_reachable gb depth 0 s'
| reached_block n s now later b :
    node_reachable gb depth n s → Forall pool_tx (transactions b) →
    node_reachable gb depth (n + 1) (submit_external_block now later b s).1
| reached_mined n s now later t solved :
    node_reachable gb depth n s → Forall pool_tx (t_transactions t) →
    node_reachable gb depth (n + 1) (commit_mined now later t solved s).1
| reached_transaction n s now tx :
    node_reachable gb depth n s → pool_tx tx → node_reachable gb depth (n + 1) (submit_transaction now tx s).1.

Lemma chain_inv_depth genesis k t u d : chain_inv genesis k (t, u) → chain_inv genesis k (with_max_reorg_depth t d, u).
Proof. intros []. by split. Qed.

Lemma recover_fresh_inv gb depth s s' cb :
  transactions gb = [cb] → is_coinbase cb = true → pool_tx cb → mempool s = Mempool_new →
  recover_fresh gb depth s = (s', Ok tt) → node_inv (genesis_node gb) 0 s'.
Proof.
  intros Htx Hcb Hp Hm. unfold recover_fresh. rewrite sbind_sget.
  destruct (ChainTree_new (E := NodeError) gb) as [t| | |] eqn:Ht; [rewrite sbind_lift_Ok|done..].
  rewrite sbind_smodify. set (tree := with_max_reorg_depth t depth).
  intros (s1 & [] & HW & H)%sbind_Ok. unfold write_store in HW.
  destruct (commit_block _ _ _ _) as [d| | |]; [|done..]. injection HW as <-.
  rewrite Htx in H. cbn [head expect] in H. rewrite sbind_lift_Ok in H.
  destruct (apply_coinbase cb 0 ∅) as [u r] eqn:HA. apply sbind_Ok in H as (s2 & [] & H2 & H3).
  unfold slift in H2. injection H2 as <- Hr%map_err_Ok. subst r. injection H3 as <-.
  assert (Ht' : ChainTree_new (E := ChainError) gb = Ok t).
  { unfold ChainTree_new in *. rewrite header_hash_ok in *. cbn [obind] in *. injection Ht as <-. done. }
  split; cbn [chain_tree utxo_set mempool with_chain with_disk chain_of fst snd].
  - apply chain_inv_depth, (init_inv gb t u 0); [unfold block_encodable; rewrite Htx; apply Forall_singleton, Hp|done|].
    rewrite Htx. unfold apply_block. apply on_clone_Ok. rewrite Hcb. cbn [negb].
    apply sbind_Ok. exists u, tt. by split.
  - rewrite Hm. unfold Mempool_new. by apply MempoolTheorems.empty_sound.
  - unfold ChainTree_new in Ht. rewrite header_hash_ok in Ht. injection Ht as <-. unfold tree. cbn.
    apply map_Forall_singleton. cbn. rewrite Htx. by apply Forall_singleton.
Qed.

Lemma node_reachable_inv gb depth n s cb :
  transactions gb = [cb] → is_coinbase cb = true → pool_tx cb →
  node_reachable gb depth n s → n ≤ U64_MAX → node_inv (genesis_node gb) n s.
Proof.
  intros Htx Hcb Hp. induction 1 as [tree u d s' H|n s now later b HR IH Hb|n s now later t solved HR IH Hb|n s now tx HR IH Hb];
    intros Hn; [exact (recover_fresh_inv gb depth (mkShared tree u Mempool_new d) s' cb Htx Hcb Hp eq_refl H)|..]; (assert (Hn' : n < U64_MAX) by lia); specialize (IH ltac:(lia)).
  - by destruct (submit_external_block_cases _ n s now later b IH Hn' Hb) as (s' & r & -> & _ & ? & _).
  - by destruct (commit_mined_cases _ n s now later t solved IH Hn' Hb) as (s' & r & -> & _ & ? & _).
  - destruct (submit_transaction_cases _ n s now tx IH Hb) as (p & r & -> & _ & HS & _).
    apply node_inv_weaken. by destruct IH.
Qed.

(** A block above genesis on a connected path was connected on what its prefix
    leaves. *)
Lemma verified_path genesis ns h path u pre n post :
  map_Forall (node_wf genesis ns) ns → verified ns h → ledger ns h path u → path = pre ++ n :: post → pre ≠ [] →
  ∃ s s', ledger ns (parent_hash n) pre s ∧ ledger ns (node_hash n) (pre ++ [n]) s' ∧ connectable n s s'.
Proof.
  intros Hwf Hv HL -> Hpre. destruct (ledger_prefix genesis _ Hwf _ _ _ _ _ HL) as [v Hn].
  pose proof (verified_prefix genesis _ _ _ _ _ _ Hwf Hv HL) as Hvn.
  assert (Hlook : ns !! node_hash n = Some n) by (eapply (ledger_elem genesis _ Hwf _ _ _ _ HL); set_solver).
  inversion Hvn as [h' m Hm Hh|h' m p s s' Hm Hh Hv' H1 H2 HC]; subst; assert (m = n) as -> by congruence.
  - exfalso. inversion Hn as [h0 n0 u0 f0 Hl0 Hh0 HA0 Eh E Eu|h0 n0 p0 u0 u1 f0 Hl0 Hh0 HL0 HA0 Eh E Eu].
    + apply Hpre. by destruct pre as [|? [|]].
    + assert (n0 = n) as -> by congruence. done.
  - exists s, s'. destruct (ledger_det _ _ _ _ _ _ Hn H2) as [E _]. by apply app_inj_tail in E as [-> _].
Qed.

(** C3: In every state a node reaches from an empty database, by submitted and
    mined blocks and submitted transactions in any order, whatever the store
    refuses: the set of unspent outputs is what the blocks of the canonical
    path leave; the node's verifier has accepted every block of that path above
    genesis, on the set its predecessors leave; and the mempool is sound. *)
Theorem node_invariant (gb : Block) (depth n : N) (s : Shared) (cb : Transaction)
    (Htx : transactions gb = [cb]) (Hcb : is_coinbase cb = true) (Hp : pool_tx cb)
    (HR : node_reachable gb depth n s) (Hn : n ≤ U64_MAX) :
  ∃ path, get_path_from_genesis (E := ChainError) (chain_tree s) (canonical_tip (chain_tree s)) =
            Ok (genesis_node gb :: path) ∧
    replay (genesis_node gb :: path) = Ok (utxo_set s) ∧
    (∀ pre x post, path = pre ++ x :: post → ∃ u, replay (genesis_node gb :: pre) = Ok u ∧
       verify_block_transactions (BlockTransactionVerifier := NodeBlockVerifier) (node_block x) u = Ok tt) ∧
    MempoolTheorems.sound (mempool s).
Proof.
  destruct (node_reachable_inv _ _ _ _ _ Htx Hcb Hp HR Hn) as [HI HS _]. pose proof (inv_nodes _ _ _ HI) as Hwf.
  destruct (inv_tip _ _ _ HI) as [path HL]. destruct (ledger_root _ _ Hwf _ _ _ HL) as [rest ->].
  exists rest. split; [by eapply (get_path_ok _ _ Hwf)|]. split; [by eapply replay_ok|]. split; [|done].
  intros pre x post ->.
  destruct (verified_path _ _ _ _ _ (genesis_node gb :: pre) x post Hwf (inv_verified _ _ _ HI) HL eq_refl)
    as (u & u' & HLp & _ & HC & _); [done|]. exists u. split; [by eapply replay_ok|done].
Qed.

(** ** A refused body *)

(** Whatever the header, a body that fails the node's validation marks the
    header hash as invalid: from then on every block with that header is
    refused, the block the header was made for included. *)
Theorem invalid_body_poisons_header (s : Shared) (now now' : option N) (later later' : N) (b b' : Block) (e : NodeError)
    (Hheader : header b' = header b) (Hnew : is_block_invalid (chain_tree s) (blake3 (header_bytes (header b))) = false)
    (Hparent : is_block_invalid (chain_tree s) (previous_block_hash (header b)) = false)
    (Hfail : prevalidate b' s = Err e) :
  let id := blake3 (header_bytes (header b)) in
  let s1 := (submit_external_block now later b' s).1 in
  (submit_external_block now later b' s).2 = Err e ∧
  submit_external_block now' later' b s1 = (s1, Err (NodeConsensus (InvalidBranchBlock id BlockOrAncestorInvalid))).
Proof.
  intros id s1. assert (HR : submit_external_block now later b' s =
    (with_chain (mark_block_invalid id (chain_tree s), utxo_set s) s, Err e)).
  { unfold submit_external_block. rewrite sbind_sget, header_hash_ok, sbind_lift_Ok, Hheader, Hnew, Hparent, Hfail. done. }
  subst s1. rewrite HR. split; [done|]. cbn [fst]. unfold submit_external_block.
  rewrite sbind_sget, header_hash_ok, sbind_lift_Ok. fold id.
  assert (HM : is_block_invalid (chain_tree (with_chain (mark_block_invalid id (chain_tree s), utxo_set s) s)) id = true).
  { unfold is_block_invalid, mark_block_invalid. cbn. apply bool_decide_eq_true_2. set_solver. }
  by rewrite HM.
Qed.
End reachable.

(** ** Transfers *)

Section transfer.
Context {B3 : Blake3} {ED : Ed25519} {BC : Bincode} {WM : Wasmi} {PC : Payload TxContext}.

Definition entries_value (l : list (OutPoint * UtxoEntry)) : N := foldr (λ p n, value (output p.2) + n) 0 l.
Definition owned (sender : list byte) (p : OutPoint * UtxoEntry) : Prop := locking_condition (output p.2) = sender.
#[local] Instance owned_dec sender p : Decision (owned sender p).
Proof. unfold owned. apply _. Defined.

Lemma entries_value_cons p l : entries_value (p :: l) = value (output p.2) + entries_value l.
Proof. done. Qed.

(** The selection takes the sender's outputs in order until they are enough. *)
Lemma select_inputs_spec sender needed l : ∀ (sel : list OutPoint) acc,
  match select_inputs sender needed l sel acc with
  | Ok (sel', acc') => ∃ chosen, sublist chosen l ∧ Forall (owned sender) chosen ∧ sel' = sel ++ chosen.*1 ∧
      acc' = acc + entries_value chosen ∧ (acc ≤ U64_MAX → acc' ≤ U64_MAX) ∧
      (needed ≤ acc' ∨ chosen = filter (owned sender) l)
  | Err (InconsistentState AccumulationOverflow) => U64_MAX < acc + entries_value (filter (owned sender) l)
  | _ => False
  end.
Proof.
  induction l as [|[o e] l IH]; intros sel acc; cbn [select_inputs].
  { exists []. rewrite app_nil_r. split; [done|]. split; [done|]. split; [done|]. cbn. split; [lia|]. split; [lia|]. by right. }
  case_bool_decide as Hs; [rewrite filter_cons_True by done|rewrite filter_cons_False by done].
  2:{ specialize (IH sel acc).
      destruct (select_inputs sender needed l sel acc) as [[sel' acc']|e'| |]; [|exact IH|done..].
      destruct IH as (c & H1 & H). exists c. split; [by constructor|done]. }
  unfold checked_add.
  destruct (N.leb_spec (acc + value (output e)) U64_MAX) as [Hle|Hgt]; cbn [ok_or obind]; [|rewrite entries_value_cons; cbn [snd]; lia].
  destruct (N.leb_spec needed (acc + value (output e))) as [Hn|Hn].
  - exists [(o, e)]. split; [apply sublist_skip, sublist_nil_l|]. split; [by apply Forall_singleton|].
    split; [done|]. cbn. split; [lia|]. split; [lia|]. by left.
  - specialize (IH (sel ++ [o]) (acc + value (output e))).
    destruct (select_inputs sender needed l (sel ++ [o]) _) as [[sel' acc']|e'| |]; [| |done..].
    + destruct IH as (c & H1 & H2 & -> & -> & H3 & H4). exists ((o, e) :: c).
      split; [by apply sublist_skip|]. split; [by constructor|]. split; [by rewrite <- app_assoc|].
      rewrite !entries_value_cons. cbn [snd]. split; [lia|]. split; [intros; specialize (H3 Hle); lia|]. destruct H4 as [H4|H4]; [left; lia|right; by rewrite H4].
    + destruct e' as [| | | | | |[]| | | | | |]; try done. rewrite entries_value_cons. cbn [snd]. lia.
Qed.

Lemma create_transaction_cases (payout recipient : list byte) (entries : list (OutPoint * UtxoEntry)) (amount fee : N)
    (sender_script : option (list byte)) :
  let sender := default payout sender_script in
  let funds := entries_value (filter (owned sender) entries) in
  match create_transaction payout entries recipient amount fee sender_script with
  | Ok tx => amount ≠ 0 ∧ ∃ chosen, sublist chosen entries ∧ Forall (owned sender) chosen ∧
      inputs tx = (λ p, TxIn_new p.1 sender) <$> chosen ∧
      entries_value chosen = outputs_value (outputs tx) + fee ∧ entries_value chosen ≤ U64_MAX ∧
      (outputs tx = [mkTxOut amount recipient] ∨
       ∃ change, 0 < change ∧ outputs tx = [mkTxOut amount recipient; mkTxOut change sender])
  | Err (InconsistentState AmountZero) => amount = 0
  | Err (InconsistentState AmountOverflow) => U64_MAX < amount + fee
  | Err (InconsistentState AccumulationOverflow) => U64_MAX < funds
  | Err (InconsistentState (InsufficientFunds required available)) =>
      required = amount + fee ∧ available = funds ∧ funds < required
  | _ => False
  end.
Proof.
  intros sender funds. unfold create_transaction. destruct (N.eqb_spec amount 0) as [->|Ha]; [done|].
  unfold checked_add. destruct (N.leb_spec (amount + fee) U64_MAX) as [Hf|Hf]; cbn [ok_or obind]; [|done].
  fold sender. pose proof (select_inputs_spec sender (amount + fee) entries [] 0) as HS.
  destruct (select_inputs sender (amount + fee) entries [] 0) as [[sel acc]|e'| |]; cbn [obind]; [| |done..].
  2:{ by destruct e' as [| | | | | |[]| | | | | |]. }
  destruct HS as (c & H1 & H2 & -> & -> & H3 & H4). rewrite N.add_0_l in *. cbn [app].
  destruct (N.ltb_spec (entries_value c) (amount + fee)) as [Hlt|Hge].
  { destruct H4 as [?| ->]; [lia|]. done. }
  split; [done|]. exists c. split; [done|]. split; [done|]. cbn [inputs outputs].
  split; [by rewrite <- list_fmap_compose|].
  destruct (N.ltb_spec (amount + fee) (entries_value c)) as [Hc|Hc]; cbn.
  - split; [lia|]. split; [lia|]. right. eexists. split; [|done]. lia.
  - split; [lia|]. split; [lia|]. by left.
Qed.

(** The transfer a node builds spends outputs of the sender only, each once,
    pays the amount to the recipient and the rest beyond the fee back to the
    sender, and nothing is lost: inputs are worth outputs plus fee. It is built
    exactly when the amount is not zero, amount and fee fit, and the sender's
    outputs are worth enough, unless their sum overflows first. *)
Theorem create_transaction_spec (payout recipient : list byte) (entries : list (OutPoint * UtxoEntry)) (amount fee : N)
    (sender_script : option (list byte)) :
  let sender := default payout sender_script in
  let funds := entries_value (filter (owned sender) entries) in
  match create_transaction payout entries recipient amount fee sender_script with
  | Ok tx => amount ≠ 0 ∧ ∃ chosen, sublist chosen entries ∧ Forall (owned sender) chosen ∧
      inputs tx = (λ p, TxIn_new p.1 sender) <$> chosen ∧
      entries_value chosen = outputs_value (outputs tx) + fee ∧ entries_value chosen ≤ U64_MAX ∧
      (outputs tx = [mkTxOut amount recipient] ∨
       ∃ change, 0 < change ∧ outputs tx = [mkTxOut amount recipient; mkTxOut change sender])
  | Err (InconsistentState AmountZero) => amount = 0
  | Err (InconsistentState AmountOverflow) => U64_MAX < amount + fee
  | Err (InconsistentState AccumulationOverflow) => U64_MAX < funds
  | Err (InconsistentState (InsufficientFunds required available)) =>
      required = amount + fee ∧ available = funds ∧ funds < required
  | _ => False
  end.
Proof. by apply create_transaction_cases. Qed.

(** The first opcode of the script has nothing to duplicate. *)
Lemma execute_own_lock ctx h lock :
  execute DEFAULT_MAX_OPS_BUDGET ctx (p2pkh_script h) lock = Err StackUnderflow.
Proof. reflexivity. Qed.

(** The transfer presents the sender's locking script as the proof of every
    input. For a pay-to-public-key-hash sender, the kind of the genesis
    allocations, that is no proof: no transfer a node builds from such outputs
    passes its own script check, so creating and submitting one always fails. *)
Theorem create_transaction_p2pkh_fails (h : Hash) (payout recipient : list byte) (utxos : UtxoSet) (amount fee height : N)
    (tx : Transaction)
    (Htx : create_transaction payout (map_to_list utxos) recipient amount fee (Some (p2pkh_script h)) = Ok tx) :
  verify_transaction_scripts tx height utxos = Err (InvalidScript StackUnderflow) ∨ is_coinbase tx = true.
Proof.
  destruct (is_coinbase tx) eqn:Hcb; [by right|left].
  pose proof (create_transaction_cases payout recipient (map_to_list utxos) amount fee (Some (p2pkh_script h))) as HS.
  cbv zeta in HS. rewrite Htx in HS. cbn [default from_option Datatypes.id] in HS.
  destruct HS as (Ha & c & Hsub & Hown & Hins & Hval & _ & Hout). unfold verify_transaction_scripts. rewrite Hcb, Hins.
  destruct c as [|[o e] c].
  { exfalso. destruct Hout as [Hout|(x & Hx & Hout)]; rewrite Hout in Hval; cbn in Hval; lia. }
  apply Forall_cons in Hown as [Ho _]. unfold owned in Ho. cbn [snd] in Ho.
  assert (Hu : utxos !! o = Some e) by (apply elem_of_map_to_list; eapply elem_of_sublist; [by left|exact Hsub]).
  cbn [fmap list_fmap verify_inputs TxIn_new previous_output fst]. rewrite Hu. cbn [ok_or obind]. rewrite Ho.
  assert (HM : bool_decide (take 4 (p2pkh_script h) = LOCK_MAGIC_PREFIX) = false).
  { apply bool_decide_eq_false_2. by intros [=]. }
  rewrite HM. cbn [andb authorization TxIn_new]. by rewrite execute_own_lock.
Qed.
End transfer.

(** ** Witnesses *)

(** The toy chain, on the storage engine over a database in memory. *)
Section witnesses.
#[local] Existing Instances toy_blake3 toy_ed25519 toy_bincode toy_redb toy_redb_laws.
Definition toy_store : BlockStore := StorageEngine.
#[local] Instance toy_engine : Wasmi := toy_wasmi toy_contract.
#[local] Existing Instances toy_payload_context NodeBlockVerifier.

Definition toy_start : Shared :=
  (recover_fresh toy_genesis 100 (mkShared (BS := toy_store) toy_tree ∅ Mempool_new empty_tables)).1.

Definition toy_genesis_cb : Transaction := new_coinbase 0 [mkTxOut 1000 [x51]].
Lemma toy_coinbases : pool_tx toy_genesis_cb ∧ Forall pool_tx (toy_cb 1 0).
Proof.
  split; [|apply Forall_singleton];
    (split; [split; apply Forall_singleton; vm_compute; discriminate|split; vm_compute; discriminate]).
Qed.

Lemma toy_started : node_reachable toy_genesis 100 0 toy_start.
Proof.
  apply (reached_started (BS := toy_store) toy_genesis 100 toy_tree ∅ empty_tables). apply pair_snd. vm_compute. reflexivity.
Qed.
Lemma toy_start_inv : node_inv (genesis_node toy_genesis) 0 toy_start.
Proof.
  apply (node_reachable_inv toy_genesis 100 0 toy_start toy_genesis_cb); [reflexivity|reflexivity| |exact toy_started|discriminate].
  exact (proj1 toy_coinbases).
Qed.

Lemma submit_external_block_spec_witness :
  ∃ s', submit_external_block (Some 100) 100 toy_b1 toy_start = (s', Ok true) ∧
    canonical_tip (chain_tree s') = toy_hash toy_b1 ∧
    node_inv (genesis_node toy_genesis) 1 s'.
Proof.
  destruct (submit_external_block_spec (genesis_node toy_genesis) 0 toy_start (Some 100) 100 toy_b1 toy_start_inv
    eq_refl (proj2 toy_coinbases)) as (s' & r & E & _ & HI & H).
  assert (HR : (submit_external_block (Some 100) 100 toy_b1 toy_start).2 = Ok true) by (vm_compute; reflexivity).
  rewrite E in HR. cbn [snd] in HR. subst r. exists s'. split; [exact E|]. split; [apply H|exact HI].
Defined.

Definition toy_body : Block := mkBlock (header toy_b1) [].
(** The empty body is refused, and the block with it. *)
Lemma invalid_body_poisons_header_witness :
  (submit_external_block (Some 100) 100 toy_b1 toy_start).2 = Ok true ∧
  (submit_external_block (Some 100) 100 toy_b1 (submit_external_block (Some 100) 100 toy_body toy_start).1).2 =
  Err (NodeConsensus (InvalidBranchBlock (toy_hash toy_b1) BlockOrAncestorInvalid)).
Proof.
  split; [vm_compute; reflexivity|].
  destruct (prevalidate toy_body toy_start) as [|e| |] eqn:HP; [exfalso; by vm_compute in HP| |exfalso; by vm_compute in HP..].
  destruct (invalid_body_poisons_header toy_start (Some 100) (Some 100) 100 100 toy_b1 toy_body e) as [_ ->].
  - reflexivity.
  - vm_compute. reflexivity.
  - vm_compute. reflexivity.
  - exact HP.
  - reflexivity.
Defined.

Definition toy_payment : Transaction :=
  mkTransaction 1 [mkTxIn (mkOutPoint (toy_txid toy_genesis_cb) 0) [x51] U32_MAX] [mkTxOut 500 [x51]] 0.
Definition toy_pending : Transaction :=
  mkTransaction 1 [mkTxIn (mkOutPoint (toy_txid toy_payment) 0) [x51] U32_MAX] [mkTxOut 100 [x51]] 0.
Lemma toy_payments_pool : pool_tx toy_payment ∧ pool_tx toy_pending.
Proof.
  split; (split; [split; apply Forall_singleton; vm_compute; discriminate|split; vm_compute; discriminate]).
Qed.
Definition toy_with_payment : Shared := (submit_transaction 100 toy_payment toy_start).1.

(** The payment is admitted; a child of it is not. *)
Lemma submit_transaction_spec_witness :
  is_ok (submit_transaction 100 toy_payment toy_start).2 = true ∧
  is_ok (submit_transaction 100 toy_pending toy_with_payment).2 = false.
Proof.
  split; [vm_compute; reflexivity|].
  assert (HI : node_inv (genesis_node toy_genesis) 0 toy_with_payment).
  { destruct (submit_transaction_cases (genesis_node toy_genesis) 0 toy_start 100 toy_payment toy_start_inv
      (proj1 toy_payments_pool)) as (p & r & E & _ & HS & _).
    unfold toy_with_payment. rewrite E. exact (node_inv_pool _ _ _ p toy_start_inv HS). }
  destruct (submit_transaction_spec (genesis_node toy_genesis) 0 toy_with_payment 100 toy_pending HI
    (proj2 toy_payments_pool)) as (p & r & E & _ & _ & _ & H).
  rewrite E. apply (H (mkTxIn (mkOutPoint (toy_txid toy_payment) 0) [x51] U32_MAX)); [reflexivity|by left|].
  vm_compute. reflexivity.
Defined.

Lemma node_invariant_witness :
  ∃ path, replay (genesis_node toy_genesis :: path) =
          Ok (utxo_set (submit_external_block (Some 100) 100 toy_b1 toy_start).1).
Proof.
  destruct (node_invariant toy_genesis 100 (0 + 1) (submit_external_block (Some 100) 100 toy_b1 toy_start).1 toy_genesis_cb)
    as (path & _ & H & _).
  - reflexivity.
  - reflexivity.
  - exact (proj1 toy_coinbases).
  - exact (reached_block _ _ _ _ (Some 100) 100 toy_b1 toy_started (proj2 toy_coinbases)).
  - discriminate.
  - exists path. exact H.
Defined.

(** A block with a payment, checked at the height its coinbase states. *)
Definition toy_paid : Block :=
  mkBlock (header toy_b1) (new_coinbase 1 [mkTxOut 1000 [x51]] :: [toy_payment]).
Lemma node_verifier_spec_witness :
  returns (verify_block_transactions toy_paid (utxo_set toy_start)) ∧
  verify_block_transactions toy_paid (utxo_set toy_start) = Ok tt.
Proof.
  split; [|vm_compute; reflexivity].
  apply (node_verifier_spec toy_paid (utxo_set toy_start) (apply_block (transactions toy_paid) 1 (utxo_set toy_start)).1 500).
  - apply encodableb_spec. vm_compute. reflexivity.
  - apply pair_snd. vm_compute. reflexivity.
Defined.

Definition toy_purse : UtxoSet :=
  {[ mkOutPoint ZERO 1 := mkUtxoEntry (mkTxOut 5000 (p2pkh_script ZERO)) 1 false ]}.
Lemma create_transaction_p2pkh_fails_witness :
  ∃ tx, create_transaction [] (map_to_list toy_purse) [x51] 3000 1000 (Some (p2pkh_script ZERO)) = Ok tx ∧
    (verify_transaction_scripts tx 5 toy_purse = Err (InvalidScript StackUnderflow) ∨ is_coinbase tx = true).
Proof.
  assert (HO : is_ok (create_transaction [] (map_to_list toy_purse) [x51] 3000 1000 (Some (p2pkh_script ZERO))) = true)
    by (vm_compute; reflexivity).
  destruct (create_transaction [] (map_to_list toy_purse) [x51] 3000 1000 (Some (p2pkh_script ZERO))) as [tx| | |] eqn:E;
    [|discriminate HO..].
  exists tx. split; [reflexivity|]. exact (create_transaction_p2pkh_fails ZERO [] [x51] toy_purse 3000 1000 5 tx E).
Defined.
End witnesses.
