(* ===== verification/Recovery.v ===== *)
(** * Recovery

    [recover] of [apps/scytale-node/src/node.rs]: what a node reads back when it
    starts, and why it is what it had. The reads of the canonical path follow
    parent hashes with no bound of their own: [fuel] bounds the walk, and any
    fuel above the persisted height is enough. *)

From S2P Require Import Prelude Bytes Primitives Types Codec Transaction Utxo Merkle Genesis.
From S2P Require Import Words Target Work Tables Storage StorageSpec Store Stack Script Authorization Mempool MempoolInv.
From S2P Require Import MempoolSpec MempoolTheorems Consensus Chain Vm VmAdapter Mining ChainReplay Node.
Local Open Scope N_scope.
Local Open Scope scy_scope.

Section recovery.
Context {B3 : Blake3} {ED : Ed25519} {BC : Bincode} {WM : Wasmi} {PC : Payload TxContext} {BS : BlockStore}.
#[local] Existing Instance NodeBlockVerifier.

(** ** The code *)

(** The blocks from [cur] down to one whose parent is zero or itself. *)
Fixpoint walk_back (fuel : nat) (d : store) (cur : Hash) : outcome NodeError (list Block) :=
  match fuel with
  | O => Diverge
  | S fuel =>
      let? found := map_err NodeStorage (stored_block cur d) in
      let? b := ok_or found (InconsistentState MissingPathBlock) in
      let parent := previous_block_hash (header b) in
      if bool_decide (parent = ZERO) || bool_decide (parent = cur) then Ok [b]
      else let? rest := walk_back fuel d parent in Ok (b :: rest)
  end.

Definition recover_stored (depth : N) (fuel : nat) (clock : Block → option N) (tip_hash : Hash) (tip_height : N) : nodeM unit :=
  let! s := sget in
  let! path_rev := slift (walk_back fuel (disk s) tip_hash) in
  if negb (N.of_nat (length path_rev) =? wrap64 (tip_height + 1)) then slift (Err (InconsistentState PathLength))
  else
    match reverse path_rev with
    | [] => slift Panic
    | first :: rest =>
        let! tree := slift (ChainTree_new first) in
        let tree := with_max_reorg_depth tree depth in
        let! cb := slift (expect (head (transactions first))) in
        let '(utxos, r) := apply_coinbase cb 0 ∅ in
        let! _ := slift (map_err (λ e, InconsistentState (InsertFailed e)) r) in
        let '(st, r) := replay_blocks clock rest (tree, utxos) in
        let! _ := slift (map_err NodeConsensus r) in
        smodify (λ s, mkShared st.1 st.2 Mempool_new (disk s))
    end.

Definition recover (gb : Block) (depth : N) (fuel : nat) (clock : Block → option N) : nodeM unit :=
  let! s := sget in
  let! tip := slift (map_err NodeStorage (stored_tip (disk s))) in
  match tip with
  | None => recover_fresh gb depth
  | Some (tip_hash, tip_height) => recover_stored depth fuel clock tip_hash tip_height
  end.

(** ** The store holds the canonical path *)

Context {SL : BlockStoreLaws}.
Context (genesis : BlockNode).

Definition on_disk (d : store) (n : BlockNode) : Prop := blocks_on d !! node_hash n = Some (node_block n).
Record durable (s : Shared) : Prop := {
  du_tree : tree_inv (chain_of s);
  du_tip : tip_on (disk s) = Some (canonical_tip (chain_tree s), canonical_height (chain_tree s));
  du_path : ∀ path u, ledger (nodes (chain_tree s)) (canonical_tip (chain_tree s)) path u → Forall (on_disk (disk s)) path
}.

Lemma step_grows st b st' r : step_result st b st' r → nodes st.1 ⊆ nodes st'.1.
Proof.
  intros [st2 e [marks ->] He|Hin|n path s s' Hext Hb Hw|n path s s' d Hext Hb Hw Hd HD|
    n common m da db s s' txs Hext Hb Hw HLa Hdb Hd Hv HC Htx]; cbn; try done; by eapply extends_subseteq.
Qed.

Lemma canonical_height_mono t t' n :
  nodes t ⊆ nodes t' → canonical_tip t' = canonical_tip t → nodes t !! canonical_tip t = Some n →
  canonical_height t' = canonical_height t.
Proof. intros Hs Ht Hn. unfold canonical_height. by rewrite Ht, Hn, (lookup_weaken _ _ _ _ Hn Hs). Qed.

(** A larger tree with the same tip, the same store. *)
Lemma durable_grow k s s' :
  chain_inv genesis k (chain_of s) → durable s → nodes (chain_tree s) ⊆ nodes (chain_tree s') → unmoved s s' →
  tree_inv (chain_of s') → durable s'.
Proof.
  intros HC [HT Htip Hpath] Hs (E1 & E2 & _ & E4) HT'. destruct (inv_tip _ _ _ HC) as [path HL].
  destruct (ledger_lookup _ _ _ _ HL) as (n & _ & Hn & _). split; [done| |].
  - by rewrite E4, E1, (canonical_height_mono _ _ n Hs E1 Hn).
  - intros p u Hp. rewrite E1 in Hp. rewrite E4.
    destruct (ledger_det _ _ _ _ _ _ Hp (ledger_mono _ _ _ _ _ Hs HL)) as [-> _]. by eapply Hpath.
Qed.

Lemma meta_snoc chain h work l b meta :
  connected_meta chain h work (l ++ [b]) = Ok meta →
  ∃ new e, meta = new ++ [e] ∧ meta.*1.*1 = l ++ [b] ∧
    ∀ n, nodes chain !! block_id b = Some n → e = (b, height n, cumulative_work n).
Proof.
  unfold connected_meta. revert meta; induction l as [|x l IH]; intros meta; cbn [app omap_list];
    rewrite header_hash_ok; cbn [obind].
  - intros [= <-]. eexists [], _. split; [done|]. fold (block_id b). split; [cbn; by case_match|].
    intros n Hn. by rewrite Hn.
  - intros (rest & Hr & [= <-])%obind_Ok. destruct (IH _ Hr) as (new & e & -> & E & Hn).
    eexists (_ :: new), e. split; [done|]. split; [|done]. cbn [fmap list_fmap app].
    change (list_fmap _ _ _ (list_fmap _ _ _ (new ++ [e]))) with (new ++ [e]).*1.*1.
    rewrite E. f_equal. by case_match.
Qed.

Lemma foldl_put_other bs m id : id ∉ block_id <$> bs → foldl put_block m bs !! id = m !! id.
Proof.
  revert m; induction bs as [|b bs IH]; intros m Hid; [done|]. cbn in Hid. apply not_elem_of_cons in Hid as [H1 H2].
  cbn [foldl]. rewrite IH by done. unfold put_block. by rewrite lookup_insert_ne.
Qed.
Lemma foldl_put_elem bs m b :
  b ∈ bs → (∀ b', b' ∈ bs → block_id b' = block_id b → b' = b) → foldl put_block m bs !! block_id b = Some b.
Proof.
  revert m; induction bs as [|x bs IH] using rev_ind; intros m Hb HU; [by apply elem_of_nil in Hb|].
  rewrite foldl_snoc. unfold put_block at 1. destruct (decide (block_id x = block_id b)) as [E|E].
  - rewrite E, lookup_insert_eq. f_equal. apply HU; [set_solver|done].
  - rewrite lookup_insert_ne by done. apply IH; [set_solver|]. intros b' Hb'. apply HU. set_solver.
Qed.
Lemma foldl_drop_other bs m id : id ∉ block_id <$> bs → foldl drop_block m bs !! id = m !! id.
Proof.
  revert m; induction bs as [|b bs IH]; intros m Hid; [done|]. cbn in Hid. apply not_elem_of_cons in Hid as [H1 H2].
  cbn [foldl]. rewrite IH by done. unfold drop_block. by rewrite lookup_delete_ne.
Qed.

(** The nodes above a node of a path are not those up to it. *)
Lemma ledger_above ns h c m d u x y :
  map_Forall (node_wf genesis ns) ns → ledger ns h (c ++ m :: d) u → x ∈ c ++ [m] → y ∈ d → node_hash x ≠ node_hash y.
Proof.
  intros Hwf HL [Hx|Hx%list_elem_of_singleton]%elem_of_app Hy E; symmetry in E.
  - apply list_elem_of_split in Hx as (c1 & c2 & ->). rewrite <- app_assoc in HL. cbn [app] in HL.
    by apply (ledger_distinct genesis _ Hwf _ _ _ _ _ y HL); [set_solver|].
  - subst x. by apply (ledger_distinct genesis _ Hwf _ _ _ _ _ y HL).
Qed.

(** A new tip: the store has its path. *)
Lemma filed_path s s' b n common m da db u u' txs h :
  let reorg := mkReorgResult (canonical_tip (chain_tree s)) (node_hash n) (node_block <$> reverse da) (node_block <$> db ++ [n]) txs in
  map_Forall (node_wf genesis (nodes (chain_tree s'))) (nodes (chain_tree s')) →
  durable s → nodes (chain_tree s) ⊆ nodes (chain_tree s') → nodes (chain_tree s') !! node_hash n = Some n →
  node_block n = b →
  ledger (nodes (chain_tree s)) (canonical_tip (chain_tree s)) (common ++ m :: da) u →
  ledger (nodes (chain_tree s')) (node_hash n) (common ++ m :: db ++ [n]) u' →
  Forall (λ x, x ∉ common ++ m :: da) db → (da = [] → db = []) →
  map_Forall (λ _ n, block_codec_wf (node_block n)) (nodes (chain_tree s')) → height n < MOD64 → h = height n →
  filed b h (canonical_work (chain_tree s')) (chain_tree s') reorg (disk s) (disk s')→
  tip_on (disk s') = Some (node_hash n, height n) ∧ Forall (on_disk (disk s')) (common ++ m :: db ++ [n]).
Proof.
  intros reorg Hwf [HT Htip Hpath] Hs Hn Hb HLa HLn Hdb Hleaf Hcodec Hh -> Hf. unfold filed in Hf.
  assert (Hids : ∀ x, x ∈ common ++ m :: db ++ [n] → nodes (chain_tree s') !! block_id (node_block x) = Some x ∧ node_hash x = block_id (node_block x)).
  { intros x Hx. pose proof (ledger_elem genesis _ Hwf _ _ _ _ HLn Hx) as E. destruct (Hwf _ _ E) as (_ & E2 & _).
    unfold block_id. by rewrite <- E2. }
  assert (HC : ∀ x, x ∈ common ++ [m] → on_disk (disk s) x).
  { intros x Hx. pose proof (Hpath _ _ HLa) as HF. rewrite Forall_forall in HF. apply HF. set_solver. }
  assert (Hnb : node_hash n = block_id b) by (rewrite <- Hb; apply Hids; set_solver).
  assert (Hcb : block_codec_wf b) by (rewrite <- Hb; by eapply Hcodec).
  assert (Hnew : ∀ x, x ∈ common ++ [m] → node_hash x ∉ block_id <$> (node_block <$> db ++ [n])).
  { intros x Hx. rewrite <- list_fmap_compose. intros (y & E & Hy)%list_elem_of_fmap. cbn in E.
    destruct (Hids y) as [_ Ey]; [set_solver|]. rewrite <- Ey in E. by apply (ledger_above _ _ _ _ _ _ x y Hwf HLn). }
  assert (Hold : ∀ x, x ∈ common ++ [m] → node_hash x ∉ block_id <$> (node_block <$> reverse da)).
  { intros x Hx. rewrite <- list_fmap_compose. intros (y & E & Hy)%list_elem_of_fmap. rewrite elem_of_reverse in Hy. cbn in E.
    pose proof (ledger_mono _ _ _ _ _ Hs HLa) as HLa'.
    assert (Ey : nodes (chain_tree s') !! node_hash y = Some y) by (apply (ledger_elem genesis _ Hwf _ _ _ _ HLa'); set_solver).
    destruct (Hwf _ _ Ey) as (_ & Ey2 & _). fold (block_id (node_block y)) in Ey2. rewrite <- Ey2 in E.
    by apply (ledger_above _ _ _ _ _ _ x y Hwf HLa'). }
  assert (HU : ∀ x y, x ∈ db ++ [n] → y ∈ node_block <$> db ++ [n] → block_id y = block_id (node_block x) → y = node_block x).
  { intros x y Hx Hy E. apply list_elem_of_fmap in Hy as (z & -> & Hz).
    destruct (Hids x) as [E1 _]; [set_solver|]. destruct (Hids z) as [E2 _]; [set_solver|].
    rewrite E, E1 in E2. by injection E2 as ->. }
  assert (Hsplit : ∀ P, (∀ x, x ∈ common ++ [m] → P x) → (∀ x, x ∈ db ++ [n] → P x) → Forall P (common ++ m :: db ++ [n])).
  { intros P H1 H2. replace (common ++ m :: db ++ [n]) with ((common ++ [m]) ++ (db ++ [n])) by by rewrite <- app_assoc.
    apply Forall_app. split; by apply Forall_forall. }
  case_bool_decide as Hdis; cbn [reorg disconnected_blocks connected_blocks] in *.
  - assert (da = []) as -> by (destruct da using rev_ind; [done|by rewrite reverse_snoc in Hdis]).
    rewrite (Hleaf eq_refl) in *. apply commit_effect in Hf as [EB ET]; [|done..]. split; [by rewrite ET, Hnb|].
    apply Hsplit; intros x Hx; unfold on_disk; rewrite EB; unfold put_block.
    + rewrite lookup_insert_ne; [by apply HC|]. intros E. apply (Hnew x Hx). rewrite <- E, <- Hb. cbn. set_solver.
    + cbn in Hx. apply list_elem_of_singleton in Hx as ->. by rewrite Hnb, lookup_insert_eq, Hb.
  - destruct Hf as (meta & HM & Hf). rewrite fmap_app in HM. cbn [fmap list_fmap] in HM.
    destruct (meta_snoc _ _ _ _ _ _ HM) as (new & e & -> & Em & He). specialize (He n).
    rewrite Hb, <- Hnb in He. specialize (He Hn). subst e.
    apply reorganization_effect in Hf as [EB ET]; [| |done].
    2:{ assert (HF : Forall block_codec_wf (new ++ [(b, height n, cumulative_work n)]).*1.*1); [|by rewrite !Forall_fmap in HF].
        rewrite Em. change [node_block n] with (node_block <$> [n]). rewrite <- fmap_app.
        apply Forall_fmap, Forall_forall. intros x Hx. cbn. destruct (Hids x) as [E _]; [set_solver|]. exact (Hcodec _ _ E). }
    split; [rewrite ET; unfold entry_id; cbn; by rewrite Hnb|].
    change [node_block n] with (node_block <$> [n]) in Em. rewrite <- fmap_app in Em.
    apply Hsplit; intros x Hx; unfold on_disk; rewrite EB, Em.
    + rewrite foldl_put_other by by apply Hnew. rewrite foldl_drop_other by by apply Hold. by apply HC.
    + destruct (Hids x) as [_ ->]; [set_solver|]. apply foldl_put_elem; [set_solver|]. intros y Hy E. by apply (HU x).
Qed.

Lemma moved_shape st b st' reorg :
  step_result st b st' (Ok (Some reorg)) →
  ∃ n common m da db u txs, extends (nodes st.1) n (common ++ m :: db) u st'.2 ∧ node_block n = b ∧
    nodes st'.1 = <[node_hash n := n]> (nodes st.1) ∧ canonical_tip st'.1 = node_hash n ∧
    ledger (nodes st.1) (canonical_tip st.1) (common ++ m :: da) st.2 ∧ Forall (λ x, x ∉ common ++ m :: da) db ∧
    reorg = mkReorgResult (canonical_tip st.1) (node_hash n) (node_block <$> reverse da) (node_block <$> db ++ [n]) txs.
Proof. inversion 1; subst. by do 7 eexists. Qed.

(** The first node above a node of a path has it as its parent. *)
Lemma ledger_next ns h c m x d u :
  map_Forall (node_wf genesis ns) ns → ledger ns h (c ++ m :: x :: d) u → ns !! node_hash x = Some x ∧ height x ≠ 0 ∧ parent_hash x = node_hash m.
Proof.
  intros Hwf HL. change (c ++ m :: x :: d) with (c ++ [m] ++ x :: d) in HL. rewrite app_assoc in HL.
  destruct (ledger_prefix genesis _ Hwf _ _ _ _ _ HL) as [s Hs].
  inversion Hs as [? ? ? ? ? ? ? EH E|? y p ? ? ? Hy Hh HL' ? EH E]; subst.
  - apply (f_equal length) in E. rewrite !length_app in E. cbn in E. lia.
  - apply app_inj_2 in E as [-> [= ->]]; [|done]. split; [done|]. split; [done|].
    by destruct (ledger_last genesis _ Hwf _ _ _ _ HL') as [-> _].
Qed.

Lemma durable_traced k now s b h s' :
  node_inv genesis k s → node_inv genesis (k + 1) s' → durable s → k < U64_MAX →
  block_encodable b → block_codec_wf b → block_id b ≠ ZERO →
  (∀ n, nodes (chain_tree s') !! canonical_tip (chain_tree s') = Some n → node_block n = b →
     nodes (chain_tree s) ⊆ nodes (chain_tree s') → h = height n) →
  traced now s b h s' → durable s'.
Proof.
  intros HI HI' HD Hk He Hw Hid Hh HT. pose proof (ni_chain _ _ _ HI) as HC. pose proof (ni_chain _ _ _ HI') as HC'.
  assert (HS : ∀ r, process_block_with_verifier now b (chain_of s) = (chain_of s', r) →
            step_result (chain_of s) b (chain_of s') r ∧ tree_inv (chain_of s')).
  { intros r E. pose proof (process_step genesis k (chain_of s) now b HC Hk He) as HS. unfold stepped in HS. rewrite E in HS.
    split; [exact HS|]. by eapply (tree_inv_step genesis k now b (chain_of s)); try exact E; try done; apply HD. }
  destruct HT as [EN HU|r E Hr HU|reorg E Hf].
  - eapply durable_grow; [exact HC|exact HD|by rewrite EN|exact HU|].
    eapply (tree_inv_same (chain_of s)); [exact EN|apply HU|apply HD].
  - destruct (HS _ E) as [Hst Ht]. eapply durable_grow; [exact HC|exact HD|exact (step_grows _ _ _ _ Hst)|exact HU|exact Ht].
  - destruct (HS _ E) as [Hst Ht]. pose proof (step_grows _ _ _ _ Hst) as Hs.
    destruct (moved_shape _ _ _ _ Hst) as (n & common & m & da & db & u & txs & Hext & Hb & EN & ET & HLa & Hdb & ->).
    cbn [chain_of fst snd] in *. pose proof (extends_ledger _ _ _ _ _ Hext) as HLn. rewrite <- EN, <- app_assoc in HLn.
    cbn [app] in HLn. assert (Hn : nodes (chain_tree s') !! node_hash n = Some n) by by rewrite EN, lookup_insert_eq.
    assert (Hhn : h = height n) by (apply Hh; [by rewrite ET|done|done]).
    assert (Hbound : height n < MOD64) by (pose proof (inv_height _ _ _ HC' _ _ Hn); lia).
    assert (Hleaf : da = [] → db = []).
    { intros ->. destruct db as [|x db]; [done|exfalso].
      destruct (ledger_next _ _ _ _ _ _ _ (inv_nodes _ _ _ HC) (ext_ledger _ _ _ _ _ Hext)) as (Hx & Hx0 & Hxp).
      apply (ti_leaf _ (du_tree _ HD) _ _ Hx Hx0). rewrite Hxp.
      exact (proj1 (ledger_last genesis _ (inv_nodes _ _ _ HC) _ _ _ _ HLa)). }
    destruct (filed_path s s' b n common m da db _ _ txs h (inv_nodes _ _ _ HC') HD Hs Hn Hb HLa HLn Hdb Hleaf
      (ti_codec _ Ht) Hbound Hhn Hf) as [HT HF].
    split; [exact Ht| |].
    + rewrite HT, ET. unfold canonical_height. by rewrite ET, Hn.
    + intros p v Hp. rewrite ET in Hp. by destruct (ledger_det _ _ _ _ _ _ Hp HLn) as [-> _].
Qed.

(** ** Reading the path back *)

Lemma walk_back_path d h path u ns fuel :
  map_Forall (node_wf genesis ns) ns → ns !! ZERO = None → previous_block_hash (header (node_block genesis)) = ZERO →
  readable d → Forall (on_disk d) path → ledger ns h path u → (length path ≤ fuel)%nat →
  walk_back fuel d h = Ok (node_block <$> reverse path).
Proof.
  intros Hwf Hz Hg Hd HF HL. revert fuel HF; induction HL as [h n u fees Hn Hh _|h n p u u' fees Hn Hh HL IH _]; intros fuel HF Hlen.
  - destruct fuel as [|fuel]; [cbn in Hlen; lia|]. apply Forall_cons in HF as [HF _].
    destruct (Hwf _ _ Hn) as (E1 & _ & _ & _ & _ & Hgen & _). rewrite (Hgen Hh) in *. unfold on_disk in HF. rewrite E1 in HF.
    cbn [walk_back]. rewrite (block_reads d h _ Hd HF). cbn [map_err obind ok_or].
    by rewrite (bool_decide_eq_true_2 _ Hg).
  - rewrite length_app in Hlen. cbn in Hlen. destruct fuel as [|fuel]; [lia|].
    apply Forall_app in HF as [HF HFn]. apply Forall_cons in HFn as [HFn _].
    destruct (Hwf _ _ Hn) as (E1 & _ & E3 & _). unfold on_disk in HFn. rewrite E1 in HFn.
    destruct (node_parent genesis _ Hwf _ _ Hn Hh) as (q & Hq & Hqh).
    cbn [walk_back]. rewrite (block_reads d h _ Hd HFn). cbn [map_err obind ok_or]. rewrite <- E3.
    rewrite bool_decide_eq_false_2 by congruence.
    rewrite bool_decide_eq_false_2 by (intros E; rewrite E, Hn in Hq; injection Hq as ->; lia).
    cbn [orb]. rewrite (IH fuel HF) by lia. cbn [obind]. by rewrite reverse_snoc.
Qed.

(** The first block of a path, and the set its coinbase leaves. *)
Lemma apply_block_coinbase cb u fees :
  is_coinbase cb = true → apply_block [cb] 0 ∅ = (u, Ok fees) → ∃ v, apply_coinbase cb 0 ∅ = (u, Ok v).
Proof.
  intros Hcb H. unfold apply_block in H. rewrite Hcb in H. apply (proj1 (on_clone_Ok _ _ _ _)) in H.
  cbn [negb] in H. apply sbind_Ok in H as (s1 & v & H1 & H2). injection H2 as -> _. by exists v.
Qed.
End recovery.

(** ** The life of a node *)

Section life.
Context {B3 : Blake3} {ED : Ed25519} {BC : Bincode} {WM : Wasmi} {PC : Payload TxContext} {BS : BlockStore} {SL : BlockStoreLaws}.
#[local] Existing Instance NodeBlockVerifier.
Context (gb : Block) (depth : N).

(** A genesis block as [make_genesis] builds it: one coinbase, parent zero. *)
Record genesis_fits : Prop := {
  gf_coinbase : ∃ cb, transactions gb = [cb] ∧ is_coinbase cb = true ∧ pool_tx cb;
  gf_codec : block_codec_wf gb;
  gf_parent : previous_block_hash (header gb) = ZERO;
  gf_hash : block_id gb ≠ ZERO
}.
Context (Hgb : genesis_fits).
Notation genesis := (genesis_node gb).

(** A block that comes from the network or a template: its fields fit their
    types, the pool can hold its transactions, and its hash is not zero. *)
Definition block_arrives (b : Block) : Prop := Forall pool_tx (transactions b) ∧ block_codec_wf b ∧ block_id b ≠ ZERO.

(** A template is for the height above its parent, and the solved header still
    names that parent. *)
Definition template_fits (s : Shared) (t : BlockTemplate) (solved : BlockHeader) : Prop :=
  previous_block_hash solved = t_previous t ∧
  ∀ p, nodes (chain_tree s) !! t_previous t = Some p → t_height t = height p + 1.

(** What a restart needs: the disk can be read, the walk may be long enough, and
    the clock is not behind the blocks by more than the drift. *)
Definition restartable (s : Shared) (fuel : nat) (clock : Block → option N) : Prop :=
  readable (disk s) ∧ canonical_height (chain_tree s) < N.of_nat fuel ∧
  ∀ path, get_path_from_genesis (E := ChainError) (chain_tree s) (canonical_tip (chain_tree s)) = Ok path →
    Forall (λ n, clock_ok clock (node_block n)) path.

(** Everything that happens to a node, from its first start on an empty
    database: blocks from outside, mined blocks, transactions, restarts from
    what is on disk, whatever was in memory. *)
Inductive node_life : N → Shared → Prop :=
| life_start tree u d fuel clock s' :
    stored_tip d = Ok None →
    recover gb depth fuel clock (mkShared tree u Mempool_new d) = (s', Ok tt) → node_life 0 s'
| life_block n s now later b :
    node_life n s → block_arrives b → node_life (n + 1) (submit_external_block now later b s).1
| life_mined n s now later t solved :
    node_life n s → block_arrives (assemble_block t solved) → template_fits s t solved →
    node_life (n + 1) (commit_mined now later t solved s).1
| life_transaction n s now tx :
    node_life n s → pool_tx tx → node_life (n + 1) (submit_transaction now tx s).1
| life_restart n s fuel clock tree u pool :
    node_life n s → restartable s fuel clock →
    node_life n (recover gb depth fuel clock (mkShared tree u pool (disk s))).1.

Lemma genesis_tree_inv t u :
  nodes t = {[block_id gb := genesis]} → tree_inv (t, u).
Proof.
  intros E. split; cbn [fst]; rewrite E; [apply map_Forall_singleton; cbn; lia..|apply map_Forall_singleton, Hgb|].
  by rewrite lookup_singleton_ne by apply Hgb.
Qed.

Lemma first_linear st0 k u0 fees t :
  chain_inv genesis k st0 → tree_inv st0 → ChainTree_new (E := ChainError) gb = Ok t →
  nodes st0.1 !! node_hash genesis = Some genesis → apply_block (transactions gb) 0 ∅ = (u0, Ok fees) →
  linear genesis st0 (with_max_reorg_depth t depth, u0) [genesis].
Proof.
  intros HC HT Ht Hg HA. destruct Hgb as [(cb & Htx & Hcb & Hp) Hcodec Hpar Hhash].
  assert (He : block_encodable gb) by (unfold block_encodable; rewrite Htx; apply Forall_singleton, Hp).
  pose proof (init_inv gb t u0 fees He Ht HA) as HI.
  unfold ChainTree_new in Ht. rewrite header_hash_ok in Ht. injection Ht as <-. fold (block_id gb) in *.
  change (mkBlockNode _ _ _ _ _ gb) with genesis in *.
  assert (Hin : ({[block_id gb := genesis]} : gmap Hash BlockNode) !! block_id gb = Some genesis) by apply lookup_singleton_eq.
  split; cbn [fst snd with_max_reorg_depth nodes canonical_tip invalid_blocks].
  - by apply map_singleton_subseteq_l.
  - by eapply ledger_genesis.
  - apply map_Forall_singleton. by left.
  - done.
  - apply chain_inv_depth. exact HI.
  - by apply genesis_tree_inv.
Qed.

(** A restart gives the tree of the canonical path. *)
Lemma recover_run k s fuel clock tree u pool :
  node_inv genesis k s → durable s → k < U64_MAX → restartable s fuel clock →
  ∃ s' path, recover gb depth fuel clock (mkShared tree u pool (disk s)) = (s', Ok tt) ∧
    linear genesis (chain_of s) (chain_of s') path ∧ canonical_tip (chain_tree s') = canonical_tip (chain_tree s) ∧
    utxo_set s' = utxo_set s ∧ mempool s' = Mempool_new ∧ disk s' = disk s.
Proof.
  intros [HC HP HT] [HD Htip Hpath] Hk (Hread & Hfuel & Hclock). pose proof (inv_nodes _ _ _ HC) as Hwf.
  destruct (inv_tip _ _ _ HC) as [path HL]. cbn [chain_of fst snd] in *.
  rewrite (get_path_ok genesis _ Hwf _ _ _ _ eq_refl HL) in Hclock. specialize (Hclock path eq_refl).
  destruct (ledger_root genesis _ Hwf _ _ _ HL) as [rest ->].
  destruct Hgb as [(cb & Htx & Hcb & Hp) Hcodec Hpar Hhash].
  assert (Hlen : canonical_height (chain_tree s) + 1 = N.of_nat (length (genesis :: rest))).
  { destruct (ledger_key genesis _ Hwf _ _ _ HL) as (pre & n & E & _ & Hn). unfold canonical_height. rewrite Hn.
    cbn [from_option]. rewrite (ledger_heights genesis _ Hwf _ _ _ (length pre) n HL) by (rewrite E; by apply list_lookup_middle).
    rewrite E, length_app. cbn [length]. lia. }
  assert (Hg : nodes (chain_tree s) !! node_hash genesis = Some genesis).
  { apply (ledger_elem genesis _ Hwf _ _ _ _ HL). by left. }
  assert (HA : ∃ u0 fees, apply_block (transactions gb) 0 ∅ = (u0, Ok fees)).
  { destruct (ledger_prefix genesis _ Hwf _ [] genesis rest _ HL) as [u0 H0]. exists u0.
    inversion H0 as [h0 n v fees Hn Hh0 HA Eh E Eu|h0 n p v1 v2 fees Hn Hh0 HL0 HA Eh E Eu]; subst; [by exists fees|].
    destruct (ledger_lookup _ _ _ _ HL0) as (y & q & _ & ->).
    apply (f_equal length) in E. rewrite !length_app in E. cbn in E. lia. }
  destruct HA as (u0 & fees & HA). rewrite Htx in HA. destruct (apply_block_coinbase cb u0 fees Hcb HA) as [v Hv].
  unfold recover. rewrite sbind_sget. cbn [disk]. rewrite (tip_reads _ _ Hread Htip). cbn [map_err]. rewrite sbind_lift_Ok.
  unfold recover_stored. rewrite sbind_sget. cbn [disk].
  rewrite (walk_back_path genesis (disk s) _ _ _ _ fuel Hwf (ti_zero _ HD) Hpar Hread (Hpath _ _ HL) HL), sbind_lift_Ok by lia.
  rewrite length_fmap, length_reverse, <- Hlen, wrap64_small, N.eqb_refl; cbn [negb].
  2:{ destruct (ledger_lookup _ _ _ _ HL) as (n & _ & Hn & _). pose proof (inv_height _ _ _ HC _ _ Hn).
      unfold canonical_height. rewrite Hn. cbn. lia. }
  rewrite <- fmap_reverse, reverse_involutive. cbn [fmap list_fmap node_block genesis_node].
  destruct (ChainTree_new (E := NodeError) gb) as [t| | |] eqn:Et; try (unfold ChainTree_new in Et; rewrite header_hash_ok in Et; done).
  rewrite sbind_lift_Ok, Htx. cbn [head expect]. rewrite sbind_lift_Ok, Hv. cbn [map_err]. rewrite sbind_lift_Ok.
  assert (Et' : ChainTree_new (E := ChainError) gb = Ok t).
  { unfold ChainTree_new in *. rewrite header_hash_ok in *. cbn [obind] in *. by injection Et as <-. }
  rewrite <- Htx in HA. pose proof (first_linear (chain_of s) k u0 fees t HC HD Et' Hg HA) as H1.
  destruct (replay_path genesis k (chain_of s) HC HD Hk clock _ _ _ _ (inv_verified _ _ _ HC) HL Hclock H1)
    as (st' & E & Hlin & Ht2 & Hu2 & _).
  cbn [drop] in E. rewrite drop_0 in E. change (list_fmap _ _ node_block rest) with (node_block <$> rest). rewrite E. cbn [map_err].
  rewrite sbind_lift_Ok. eexists _, _. split; [done|]. cbn [chain_of chain_tree utxo_set mempool disk]. destruct st'. done.
Qed.

(** A tree that is a path of [s] alone makes a sound node, with any store that
    has the path. *)
Lemma linear_node k s s' path :
  node_inv genesis k s → durable s → linear genesis (chain_of s) (chain_of s') path →
  canonical_tip (chain_tree s') = canonical_tip (chain_tree s) → mempool s' = Mempool_new → disk s' = disk s →
  node_inv genesis k s' ∧ durable s'.
Proof.
  intros [HC HP HT] HD [Hsub Hp Honly Hmarks HI Htree] Et Em Ed. cbn [chain_of fst snd] in *.
  destruct (inv_tip _ _ _ HC) as [p HL]. cbn [chain_of fst snd] in HL.
  assert (Hs : ∀ h n, nodes (chain_tree s') !! h = Some n → nodes (chain_tree s) !! h = Some n).
  { intros h n Hn. exact (lookup_weaken _ _ _ _ Hn Hsub). }
  split; split.
  - split; [apply HI|apply HI|apply HI|apply HI|]. intros h n Hn. exact (inv_height _ _ _ HC h n (Hs _ _ Hn)).
  - rewrite Em. unfold Mempool_new. by apply MempoolTheorems.empty_sound.
  - intros h n Hn. exact (HT h n (Hs _ _ Hn)).
  - exact Htree.
  - destruct (ledger_lookup _ _ _ _ Hp) as (n & _ & Hn & _). rewrite Et in Hn.
    rewrite Ed, (du_tip _ HD), Et. unfold canonical_height. by rewrite Et, Hn, (Hs _ _ Hn).
  - intros q u Hq. rewrite Ed. apply (du_path _ HD q u). rewrite <- Et. exact (ledger_mono _ _ _ _ _ Hsub Hq).
Qed.

(** A first start files the genesis block. *)
Lemma start_inv tree u d fuel clock s' :
  stored_tip d = Ok None → recover gb depth fuel clock (mkShared tree u Mempool_new d) = (s', Ok tt) →
  node_inv genesis 0 s' ∧ durable s'.
Proof.
  intros Hd H. destruct Hgb as [(cb & Htx & Hcb & Hp) Hcodec Hpar Hhash]. unfold recover in H. rewrite sbind_sget in H.
  cbn [disk] in H. rewrite Hd in H. cbn [map_err] in H. rewrite sbind_lift_Ok in H.
  pose proof (recover_fresh_inv gb depth (mkShared tree u Mempool_new d) s' cb Htx Hcb Hp eq_refl H) as HI. split; [exact HI|].
  unfold recover_fresh in H. rewrite sbind_sget in H.
  destruct (ChainTree_new (E := NodeError) gb) as [t| | |] eqn:Et; [rewrite sbind_lift_Ok in H|done..].
  rewrite sbind_smodify in H. apply sbind_Ok in H as (s1 & [] & HW & H). unfold write_store in HW.
  destruct (commit_block _ _ _ _) as [d'| | |] eqn:EC; [|done..]. injection HW as <-.
  rewrite Htx in H. cbn [head expect] in H. rewrite sbind_lift_Ok in H.
  destruct (apply_coinbase cb 0 ∅) as [v r]. apply sbind_Ok in H as (s2 & [] & H2 & H3). unfold slift in H2. injection H2 as <- _.
  injection H3 as <-. unfold ChainTree_new in Et. rewrite header_hash_ok in Et. injection Et as <-. fold (block_id gb) in *.
  change (mkBlockNode _ _ _ _ _ gb) with genesis in *.
  apply commit_effect in EC as [EB ET]; [|done|].
  2:{ unfold canonical_height. cbn. by rewrite lookup_singleton_eq. }
  split; cbn [chain_of chain_tree disk with_chain with_disk fst snd with_max_reorg_depth nodes canonical_tip].
  - by apply genesis_tree_inv.
  - exact ET.
  - intros path w HL. assert (path = [genesis]) as ->.
    { inversion HL as [h0 n v' fees Hn Hh0 HA Eh E Eu|h0 n p v1 v2 fees Hn Hh0 HL0 HA Eh E Eu]; subst;
        apply lookup_singleton_Some in Hn as [_ <-]; [done|by destruct Hh0]. }
    apply Forall_singleton. unfold on_disk. rewrite EB. cbn. unfold put_block. by rewrite lookup_insert_eq.
Qed.

Lemma node_life_inv n s : node_life n s → n < U64_MAX → node_inv genesis n s ∧ durable s.
Proof.
  induction 1 as [tree u d fuel clock s' Hd H|n s now later b HR IH (Hb & Hw & Hid)|
    n s now later t solved HR IH (Hb & Hw & Hid) [Hpar Hheight]|n s now tx HR IH Hb|n s fuel clock tree u pool HR IH Hre]; intros Hn.
  - by eapply start_inv.
  - assert (Hn' : n < U64_MAX) by lia. destruct IH as [HI HD]; [lia|].
    destruct (submit_external_block_cases _ n s now later b HI Hn' Hb) as (s' & r & -> & _ & HI' & _ & HT). cbn [fst].
    split; [exact HI'|]. eapply (durable_traced genesis n); [exact HI|exact HI'|exact HD|exact Hn'| |exact Hw|exact Hid| |exact HT].
    + by apply pool_txs_encodable.
    + intros m Hm _ _. unfold canonical_height. by rewrite Hm.
  - assert (Hn' : n < U64_MAX) by lia. destruct IH as [HI HD]; [lia|].
    destruct (commit_mined_cases _ n s now later t solved HI Hn' Hb) as (s' & r & -> & _ & HI' & _ & HT). cbn [fst].
    split; [exact HI'|]. destruct HT as [[EN HU]|[Htip HT]].
    + eapply (durable_grow genesis n); [apply HI|exact HD|by rewrite EN|exact HU|].
      eapply (tree_inv_same (chain_of s)); [exact EN|apply HU|apply HD].
    + eapply (durable_traced genesis n); [exact HI|exact HI'|exact HD|exact Hn'| |exact Hw|exact Hid| |exact HT].
      * by apply pool_txs_encodable.
      * intros m Hm Hmb Hsub. pose proof (inv_nodes _ _ _ (ni_chain _ _ _ HI')) as Hwf.
        destruct (inv_tip _ _ _ (ni_chain _ _ _ HI)) as [p HL]. destruct (ledger_lookup _ _ _ _ HL) as (q & _ & Hq & _).
        cbn [chain_of fst] in Hq. rewrite Htip in Hq. rewrite (Hheight _ Hq).
        destruct (Hwf _ _ Hm) as (_ & _ & E3 & _ & _ & Hg & Hlk). rewrite Hmb in E3. cbn [assemble_block header] in E3.
        rewrite Hpar in E3. destruct (decide (height m = 0)) as [E0|E0].
        { exfalso. pose proof (Hg E0) as ->. cbn [genesis_node parent_hash] in E3. destruct Hgb as [_ _ Hz _]. rewrite Hz in E3.
          rewrite <- E3 in Hq. pose proof (ti_zero _ (du_tree _ HD)) as HZ. cbn [chain_of fst] in HZ. congruence. }
        destruct (Hlk E0) as (q' & Hq' & Eh & _). rewrite E3 in Hq'. cbn [chain_of fst] in Hq'.
        pose proof (lookup_weaken _ _ _ _ Hq Hsub). assert (q' = q) as -> by congruence. done.
  - assert (Hn' : n < U64_MAX) by lia. destruct IH as [HI HD]; [lia|].
    destruct (submit_transaction_cases _ n s now tx HI Hb) as (p & r & -> & _ & HS & _). cbn [fst].
    split; [by apply node_inv_weaken, node_inv_pool|]. destruct HD. by split.
  - destruct IH as [HI HD]; [lia|].
    destruct (recover_run n s fuel clock tree u pool HI HD Hn Hre) as (s' & path & -> & Hlin & Ht & _ & Hm & Hd). cbn [fst].
    exact (linear_node n s s' path HI HD Hlin Ht Hm Hd).
Qed.

(** The templates a node builds fit it, then and as long as its tree only
    grows. *)
Lemma built_template_fits k s lock now t solved :
  node_inv genesis k s → k < U64_MAX → build_mining_template lock now s = Ok t →
  previous_block_hash solved = t_previous t → template_fits s t solved.
Proof.
  intros [HC _ _] Hk HB Hp. split; [done|]. intros p Hn. unfold build_mining_template in HB.
  destruct (tree_len _ =? 0); [done|]. apply map_err_Ok in HB.
  destruct (build_template_Ok _ _ _ _ _ _ _ HB) as (tip & sel & fees & s' & HT).
  rewrite (tpl_previous _ _ _ _ _ _ _ _ _ _ _ HT), (tpl_tip _ _ _ _ _ _ _ _ _ _ _ HT) in Hn. injection Hn as ->.
  rewrite (tpl_height _ _ _ _ _ _ _ _ _ _ _ HT). apply wrap64_small.
  pose proof (inv_height _ _ _ HC _ _ (tpl_tip _ _ _ _ _ _ _ _ _ _ _ HT)). lia.
Qed.
Lemma template_fits_grow s s' t solved :
  nodes (chain_tree s') ⊆ nodes (chain_tree s) → template_fits s t solved → template_fits s' t solved.
Proof. intros Hs [H1 H2]. split; [done|]. intros p Hp. apply H2. by eapply lookup_weaken. Qed.
End life.

(** C5: At any point of the life of a node, after blocks from outside, mined
    blocks, reorganizations, refused writes and earlier restarts, a restart that
    can read the disk, with a clock not behind the blocks by more than the
    allowed drift, succeeds, whatever the process had in memory, and gives back
    the tip, its height and work, the canonical path and the set of unspent
    outputs. The mempool is empty afterwards and the disk unchanged. *)
Theorem restart_restores {B3 : Blake3} {ED : Ed25519} {BC : Bincode} {WM : Wasmi} {PC : Payload TxContext} {BS : BlockStore}
    {SL : BlockStoreLaws} (gb : Block) (depth n : N) (s : Shared) (fuel : nat) (clock : Block → option N)
    (tree : ChainTree) (u : UtxoSet) (pool : Mempool)
    (Hgb : genesis_fits gb) (Hlife : node_life gb depth n s) (Hn : n < U64_MAX) (Hre : restartable s fuel clock) :
  ∃ s', recover gb depth fuel clock (mkShared tree u pool (disk s)) = (s', Ok tt) ∧
    canonical_tip (chain_tree s') = canonical_tip (chain_tree s) ∧
    canonical_height (chain_tree s') = canonical_height (chain_tree s) ∧
    canonical_work (chain_tree s') = canonical_work (chain_tree s) ∧
    get_path_from_genesis (E := ChainError) (chain_tree s') (canonical_tip (chain_tree s')) =
      get_path_from_genesis (chain_tree s) (canonical_tip (chain_tree s)) ∧
    utxo_set s' = utxo_set s ∧ mempool s' = Mempool_new ∧ disk s' = disk s.
Proof.
  destruct (node_life_inv gb depth Hgb n s Hlife Hn) as [HI HD].
  destruct (recover_run gb depth Hgb n s fuel clock tree u pool HI HD Hn Hre) as (s' & path & E & Hlin & Ht & Hu & Hm & Hd).
  exists s'. split; [exact E|]. split; [exact Ht|]. destruct Hlin as [Hsub Hp _ _ HC' _].
  pose proof (inv_nodes _ _ _ (ni_chain _ _ _ HI)) as Hwf.
  destruct (ledger_lookup _ _ _ _ Hp) as (m & _ & Hmn & _). cbn [chain_of fst] in *.
  pose proof (lookup_weaken _ _ _ _ Hmn Hsub) as Hmn'. rewrite Ht in Hmn'.
  split; [unfold canonical_height; by rewrite Hmn, Hmn'|]. split; [unfold canonical_work; by rewrite Hmn, Hmn'|].
  split; [|done]. rewrite (get_path_ok _ _ (inv_nodes _ _ _ HC') _ _ _ _ eq_refl Hp). symmetry.
  eapply (get_path_ok _ _ Hwf); [done|]. rewrite <- Ht. exact (ledger_mono _ _ _ _ _ Hsub Hp).
Qed.

(** ** Witness *)

Section witness.
#[local] Existing Instances toy_blake3 toy_ed25519 toy_bincode toy_redb toy_redb_laws.
#[local] Instance toy_wasm : Wasmi := toy_wasmi toy_contract.
#[local] Existing Instances toy_payload_context NodeBlockVerifier.

Definition toy_clock : Block → option N := λ _, Some 100.
Definition toy_recover (tree : ChainTree) (d : Tables) :=
  recover (BS := StorageEngine (R := toy_redb)) toy_genesis 100 5 toy_clock (mkShared (BS := StorageEngine (R := toy_redb)) tree ∅ Mempool_new d).
Definition toy_alive : Shared := (toy_recover toy_tree empty_tables).1.
Definition toy_grown : Shared := (submit_external_block (Some 100) 100 toy_b1 toy_alive).1.

Lemma toy_genesis_fits : genesis_fits toy_genesis.
Proof.
  split.
  - exists toy_genesis_cb. split; [reflexivity|]. split; [reflexivity|apply toy_coinbases].
  - apply block_okb_spec. vm_compute. reflexivity.
  - reflexivity.
  - apply (bool_decide_eq_true_1 _). vm_compute. reflexivity.
Qed.
Lemma toy_life : node_life toy_genesis 100 (0 + 1) toy_grown.
Proof.
  apply life_block; [|split; [apply toy_coinbases|split]].
  - apply (life_start (BS := StorageEngine (R := toy_redb)) _ _ toy_tree ∅ empty_tables 5 toy_clock); [reflexivity|]. apply pair_snd. vm_compute. reflexivity.
  - apply block_okb_spec. vm_compute. reflexivity.
  - apply (bool_decide_eq_true_1 _). vm_compute. reflexivity.
Qed.
Definition clock_okb (b : Block) : bool := timestamp (header b) <=? saturating_add 100 MAX_FUTURE_DRIFT.
Lemma toy_restartable : restartable toy_grown 5 toy_clock.
Proof.
  split; [reflexivity|]. split; [vm_compute; reflexivity|]. intros path Hp.
  assert (HF : match get_path_from_genesis (E := ChainError) (chain_tree toy_grown) (canonical_tip (chain_tree toy_grown)) with
               | Ok p => forallb (λ n, clock_okb (node_block n)) p | _ => true end = true) by (vm_compute; reflexivity).
  rewrite Hp, forallb_forall in HF. apply Forall_forall. intros n Hn%list_elem_of_In%HF. exists 100. split; [reflexivity|].
  by apply N.leb_le.
Qed.

Lemma restart_restores_witness :
  ∃ s', toy_recover (chain_tree toy_alive) (disk toy_grown) = (s', Ok tt) ∧
    canonical_tip (chain_tree s') = canonical_tip (chain_tree toy_grown) ∧ utxo_set s' = utxo_set toy_grown.
Proof.
  destruct (restart_restores (BS := StorageEngine (R := toy_redb)) toy_genesis 100 (0 + 1) toy_grown 5 toy_clock (chain_tree toy_alive) ∅ Mempool_new
    toy_genesis_fits toy_life ltac:(done) toy_restartable) as (s' & E & H1 & _ & _ & _ & H2 & _).
  exists s'. split; [exact E|]. split; [exact H1|exact H2].
Defined.
End witness.
