(* ===== verification/NodeQuery.v ===== *)
(** * Queries and snapshots of the node

    The read interface of [apps/scytale-node/src/node.rs] (the canonical chain
    from disk, the block locator, the subsystem check of a start) and the
    snapshots of the unspent outputs, exported in chunks and applied in one
    go. *)

From S2P Require Import Prelude Bytes Primitives Types Codec Transaction Utxo Merkle Genesis.
From S2P Require Import Words Target Work Tables Storage StorageSpec Store Stack Script Authorization Mempool MempoolInv.
From S2P Require Import MempoolSpec MempoolTheorems Consensus Chain Vm VmAdapter Mining ChainReplay Node Recovery.
Local Open Scope N_scope.
Local Open Scope scy_scope.

(** ** Block locators *)

(** The hashes sent to a peer, over the chain as a list of hashes: from the tip
    at [cur] down, one by one and then in steps that double. *)
Fixpoint locator_loop {E} (fuel : nat) (chain : list Hash) (cur step : N) (locator : list Hash) : outcome E (list Hash) :=
  match fuel with
  | O => Diverge
  | S fuel =>
      let? hash := expect (chain !! N.to_nat cur) in
      let locator := if bool_decide (hash ∈ locator) then locator else locator ++ [hash] in
      if cur =? 0 then Ok locator
      else
        let cur := if step <=? cur then cur - step else 0 in
        let step := if (10 <? length locator)%nat then wrap64 (step * 2) else step in
        locator_loop fuel chain cur step locator
  end.
Definition block_locator {E} (chain : list Hash) : outcome E (list Hash) :=
  match chain with
  | [] => Ok [ZERO]
  | genesis_hash :: _ =>
      let? locator := locator_loop (length chain) chain (N.of_nat (length chain) - 1) 1 [] in
      Ok (if bool_decide (genesis_hash ∈ locator) then locator else locator ++ [genesis_hash])
  end.

Record UtxoWireEntryDto := mkUtxoWireEntryDto {
  w_txid_hex : list byte;
  w_index : N;
  w_value_quanta : N;
  w_locking_script_hex : list byte
}.

Section query.
Context {B3 : Blake3} {ED : Ed25519} {BC : Bincode} {WM : Wasmi} {PC : Payload TxContext} {BS : BlockStore}.

(** ** The canonical chain from disk *)

(** The blocks from [cur] down with their heights, until the height or the
    parents end. *)
Fixpoint walk_heights (d : store) (cur : Hash) (height : nat) : outcome NodeError (list (Block * N)) :=
  let? found := map_err NodeStorage (stored_block cur d) in
  let? b := ok_or found (InconsistentState MissingPathBlock) in
  let parent := previous_block_hash (header b) in
  match height with
  | O => Ok [(b, 0)]
  | S height' =>
      if bool_decide (parent = ZERO) || bool_decide (parent = cur) then Ok [(b, N.of_nat height)]
      else let? rest := walk_heights d parent height' in Ok ((b, N.of_nat height) :: rest)
  end.

Definition query_canonical_chain (d : store) : outcome NodeError (list (Block * N)) :=
  let? tip := map_err NodeStorage (stored_tip d) in
  let? (tip_hash, tip_height) := ok_or tip (InconsistentState NoCanonicalTip) in
  let? path_rev := walk_heights d tip_hash (N.to_nat tip_height) in
  Ok (reverse path_rev).

Definition hashes_of (chain : list (Block * N)) : outcome NodeError (list Hash) :=
  omap_list (λ bh, header_hash (header bh.1)) chain.
Definition get_canonical_hashes (d : store) : outcome NodeError (list Hash) :=
  let? chain := query_canonical_chain d in hashes_of chain.
Definition get_block_locator (d : store) : outcome NodeError (list Hash) :=
  let? chain := query_canonical_chain d in
  let? hashes := hashes_of chain in
  block_locator hashes.

(** The network identity: the hash at the bottom of the canonical path. *)
Definition genesis_hash (chain : ChainTree) : Hash :=
  match get_path_from_genesis (E := ChainError) chain (canonical_tip chain) with
  | Ok (n :: _) => node_hash n
  | _ => ZERO
  end.

(** ** The check of the subsystems at a start *)

Record NodeConfig := mkNodeConfig {
  genesis_difficulty_target : N;
  mining_enabled : bool;
  miner_payout_script : list byte
}.

(** [attested]: the signature of a fixed message verifies under its own key. *)
Definition verify_subsystem_integrity (attested : bool) (config : NodeConfig) (s : Shared) : outcome NodeError unit :=
  let? _ := map_err (λ _, ModuleIntegrityFailure) (stored_tip (disk s)) in
  if bool_decide (from_compact (genesis_difficulty_target config) = Target_zero) then Err ModuleIntegrityFailure
  else if negb (get_block_subsidy 0 =? INITIAL_SUBSIDY) then Err ModuleIntegrityFailure
  else
    let dummy_ctx := mkScriptContext ZERO 0 in
    let? _ := (match execute DEFAULT_MAX_OPS_BUDGET dummy_ctx [] [x51] with
               | Ok true => Ok tt
               | Panic => Panic
               | Diverge => Diverge
               | _ => Err ModuleIntegrityFailure
               end) in
    let? _ := (match execute DEFAULT_MAX_OPS_BUDGET dummy_ctx [] [x00] with
               | Ok true => Err ModuleIntegrityFailure
               | Panic => Panic
               | Diverge => Diverge
               | _ => Ok tt
               end) in
    if negb attested then Err ModuleIntegrityFailure
    else if (0 <? pool_len (mempool s)) && (total_bytes (mempool s) =? 0) then Err ModuleIntegrityFailure
    else if mining_enabled config && bool_decide (miner_payout_script config = []) then Err MissingMiningPayout
    else Ok tt.
End query.

(** ** Snapshots in chunks *)

Section chunks.
Context {B3 : Blake3}.

Definition wire_entry (p : OutPoint * UtxoEntry) : UtxoWireEntryDto :=
  mkUtxoWireEntryDto (hash_display (op_txid p.1)) (op_index p.1) (value (output p.2))
    (to_hex (locking_condition (output p.2))).

(** [a.div_ceil(b)] on [u32]. *)
Definition div_ceil (a b : N) : N := if a mod b =? 0 then a / b else a / b + 1.

(** The answer to a request for one chunk, from the exported snapshot. *)
Definition snapshot_chunk (snapshot : UtxoSnapshotDto) (block_hash_hex : list byte) (chunk_index chunk_size : N) :
    list byte * N * N * list UtxoWireEntryDto :=
  let chunk_size := if chunk_size =? 0 then 2000 else chunk_size in
  let total_entries := N.of_nat (length (snap_entries snapshot)) in
  let total_chunks := if total_entries =? 0 then 1 else div_ceil (wrap32 total_entries) chunk_size in
  let start := saturating_mul chunk_index chunk_size in
  let entries :=
    if total_entries <=? start then []
    else
      let end_ := N.min (start + chunk_size) total_entries in
      wire_entry <$> take (N.to_nat (end_ - start)) (drop (N.to_nat start) (snap_entries snapshot)) in
  let target_hash_hex :=
    if bool_decide (block_hash_hex = []) || bool_decide (block_hash_hex = hash_display ZERO)
    then hash_display (snap_block_hash snapshot) else block_hash_hex in
  (target_hash_hex, chunk_index, total_chunks, entries).

(** An entry read from the wire: its height and its origin are not sent. *)
Definition read_wire (e : UtxoWireEntryDto) : outcome NodeError (OutPoint * UtxoEntry) :=
  let? txid := map_err (λ _, InconsistentState InvalidTxidHex) (hash_from_str (w_txid_hex e)) in
  let? locking_condition := map_err (λ _, InconsistentState InvalidScriptHex) (from_hex (w_locking_script_hex e)) in
  Ok (mkOutPoint txid (w_index e), UtxoEntry_new (mkTxOut (w_value_quanta e) locking_condition) 0 false).
End chunks.

Section snapshots.
Context {B3 : Blake3} {ED : Ed25519} {BC : Bincode} {WM : Wasmi} {PC : Payload TxContext} {R : Redb}.
#[local] Existing Instance StorageEngine.

Definition export_snapshot_chunk (block_hash_hex : list byte) (chunk_index chunk_size : N) (s : Shared) :
    outcome NodeError (list byte * N * N * list UtxoWireEntryDto) :=
  let? snapshot := map_err NodeStorage (reading export_utxo_snapshot (disk s)) in
  Ok (snapshot_chunk snapshot block_hash_hex chunk_index chunk_size).

(** The height a snapshot is filed under: its block must be stored and have its
    root, or the chain must be at its genesis block. *)
Definition snapshot_height (block_hash calculated_root : Hash) (found : option Block) (chain : ChainTree) :
    outcome NodeError N :=
  match found with
  | Some b =>
      if negb (bool_decide (utxo_root (header b) = calculated_root))
      then Err (InconsistentState (SnapshotRootMismatch block_hash (utxo_root (header b)) calculated_root))
      else Ok (from_option height 0 (nodes chain !! block_hash))
  | None =>
      if 0 <? canonical_height chain then Err (InconsistentState (SnapshotBlockMissing block_hash)) else Ok 0
  end.

Definition on_utxo_set (f : UtxoSet → UtxoSet) (s : Shared) : Shared :=
  mkShared (chain_tree s) (f (utxo_set s)) (mempool s) (disk s).
Definition insert_utxo (p : OutPoint * UtxoEntry) : nodeM unit := λ s,
  let '(u, r) := utxo_insert p.1 p.2 (utxo_set s) in
  (on_utxo_set (λ _, u) s, map_err (λ e, InconsistentState (InsertFailed e)) r).
Fixpoint insert_snapshot (entries : list (OutPoint * UtxoEntry)) : nodeM unit :=
  match entries with
  | [] => sret tt
  | p :: entries => let! _ := insert_utxo p in insert_snapshot entries
  end.

Definition apply_snapshot (block_hash_hex : list byte) (entries : list UtxoWireEntryDto) : nodeM N :=
  let! block_hash := slift (map_err (λ _, InconsistentState InvalidBlockHash) (hash_from_str block_hash_hex)) in
  let! unsorted := slift (omap_list read_wire entries) in
  let snapshot_entries := sort_by fst unsorted in
  let! calculated_root := slift (compute_utxo_merkle_root (leaves_of snapshot_entries)) in
  let! s := sget in
  let! found := slift (map_err NodeStorage (stored_block block_hash (disk s))) in
  let! h := slift (snapshot_height block_hash calculated_root found (chain_tree s)) in
  let snapshot := mkUtxoSnapshotDto h block_hash calculated_root snapshot_entries in
  let! _ := write_store (chain_of s) (engine_apply_utxo_snapshot snapshot) in
  let! _ := smodify (on_utxo_set (λ _, UtxoSet_new)) in
  let! _ := insert_snapshot snapshot_entries in
  let! _ := smodify (with_pool Mempool_new) in
  sret (N.of_nat (length entries)).
End snapshots.

(** ** Laws of the locator *)

Section locator.
Context (chain : list Hash).

(** The hashes of a chain at some indices. *)
Definition picked (idxs : list N) : list Hash := (λ i, default ZERO (chain !! N.to_nat i)) <$> idxs.

Definition locator_bound (len : nat) (cur step : N) : N := N.of_nat (11 - len) + 2 + N.log2 (cur / step + 1).

Context (Hnd : NoDup chain) (Hlen : N.of_nat (length chain) ≤ 2 ^ 63).

Lemma chain_lookup i : i < N.of_nat (length chain) → chain !! N.to_nat i = Some (default ZERO (chain !! N.to_nat i)).
Proof.
  intros Hi. destruct (lookup_lt_is_Some_2 chain (N.to_nat i)) as [h ->]; [lia|done].
Qed.

Lemma picked_fresh cur idxs :
  cur < N.of_nat (length chain) → Forall (λ i, cur < i ∧ i < N.of_nat (length chain)) idxs →
  default ZERO (chain !! N.to_nat cur) ∉ picked idxs.
Proof.
  intros Hc HF (i & E & Hi)%list_elem_of_fmap. rewrite Forall_forall in HF. destruct (HF i Hi) as [H1 H2].
  pose proof (chain_lookup cur Hc) as E1. pose proof (chain_lookup i H2) as E2. rewrite E in E1.
  pose proof (NoDup_lookup _ _ _ _ Hnd E1 E2). lia.
Qed.

Lemma bound_step len cur step :
  1 ≤ step → step ≤ cur →
  1 + locator_bound (S len) (cur - step) (if (10 <? S len)%nat then step * 2 else step) ≤ locator_bound len cur step.
Proof.
  intros H1 H2. unfold locator_bound.
  assert (Hq : 1 ≤ cur / step) by (apply N.div_le_lower_bound; lia).
  assert (E : (cur - step) / step = cur / step - 1).
  { pose proof (N.div_add (cur - step) 1 step ltac:(lia)) as HD. rewrite N.mul_1_l, N.sub_add in HD by done.
    by rewrite HD, N.add_sub. }
  destruct (Nat.ltb_spec 10 (S len)).
  - assert (HL : N.log2 ((cur - step) / (step * 2) + 1) + 1 ≤ N.log2 (cur / step + 1)).
    { rewrite <- N.Div0.div_div, E. set (q := cur / step) in *. clearbody q.
      pose proof (N.Div0.mul_div_le (q - 1) 2) as HD. revert HD. generalize ((q - 1) / 2). intros r HD.
      pose proof (N.log2_double (r + 1) ltac:(lia)) as HE.
      assert (HM : N.log2 (2 * (r + 1)) ≤ N.log2 (q + 1)) by (apply N.log2_le_mono; lia).
      lia. }
    lia.
  - rewrite E. assert (N.log2 (cur / step - 1 + 1) ≤ N.log2 (cur / step + 1)) by (apply N.log2_le_mono; lia). lia.
Qed.

Lemma StronglySorted_snoc {A} (P : A → A → Prop) l x :
  StronglySorted P l → Forall (λ y, P y x) l → StronglySorted P (l ++ [x]).
Proof.
  induction 1 as [|y l HS IH HA]; intros HF; cbn [app]; [repeat constructor|].
  apply Forall_cons in HF as [Hy HF]. constructor; [by apply IH|]. apply Forall_app. split; [done|by repeat constructor].
Qed.

Lemma locator_loop_run {E} fuel cur step idxs :
  cur < N.of_nat fuel → cur < N.of_nat (length chain) → cur = 0 ∨ 1 ≤ step →
  Forall (λ i, cur < i ∧ i < N.of_nat (length chain)) idxs → StronglySorted N.gt idxs →
  ∃ more, locator_loop (E := E) fuel chain cur step (picked idxs) = Ok (picked (idxs ++ cur :: more)) ∧
    StronglySorted N.gt (idxs ++ cur :: more) ∧ last (cur :: more) = Some 0 ∧
    N.of_nat (length (cur :: more)) ≤ locator_bound (length idxs) cur step ∧
    (step = 1 → ∀ j, (j + length idxs ≤ 11)%nat → N.of_nat j ≤ cur → (cur :: more) !! j = Some (cur - N.of_nat j)).
Proof.
  revert cur step idxs; induction fuel as [|fuel IH]; intros cur step idxs Hf Hc Hs HF HS; [lia|].
  cbn [locator_loop]. rewrite (chain_lookup cur Hc). cbn [expect obind].
  rewrite bool_decide_eq_false_2 by by apply picked_fresh.
  assert (HS' : StronglySorted N.gt (idxs ++ [cur])).
  { apply StronglySorted_snoc; [done|]. eapply Forall_impl; [exact HF|]. intros i [? _]. by apply N.lt_gt. }
  replace (picked idxs ++ [_]) with (picked (idxs ++ [cur])) by by unfold picked; rewrite fmap_app.
  assert (Hstop : ∀ j, (j + length idxs ≤ 11)%nat → N.of_nat j ≤ 0 → [0] !! j = Some (0 - N.of_nat j)).
  { intros j _ Hj. by assert (j = 0%nat) as -> by lia. }
  destruct (N.eqb_spec cur 0) as [->|Hc0].
  { exists []. split; [done|]. split; [done|]. split; [done|]. split; [unfold locator_bound; cbn [length]; lia|].
    intros _. exact Hstop. }
  destruct Hs as [|Hs]; [done|].
  assert (HL : length (picked (idxs ++ [cur])) = S (length idxs)) by (unfold picked; rewrite length_fmap, length_app; cbn; lia).
  rewrite HL. set (step' := if (10 <? S (length idxs))%nat then wrap64 (step * 2) else step).
  set (cur' := if step <=? cur then cur - step else 0).
  assert (Hcur : cur' < cur) by (unfold cur'; destruct (N.leb_spec step cur); lia).
  destruct (IH cur' step' (idxs ++ [cur])) as (more & EL & HSm & Hlast & Hb & Hcons); [lia|lia| | |done|].
  - unfold cur', step'. destruct (N.leb_spec step cur); [right|by left]. destruct (_ <? _)%nat; [|done].
    rewrite wrap64_small; lia.
  - apply Forall_app. split; [|by repeat constructor]. eapply Forall_impl; [exact HF|]. cbn. lia.
  - exists (cur' :: more). rewrite <- app_assoc in EL, HSm. cbn [app] in EL, HSm. split; [exact EL|]. split; [exact HSm|].
    split; [exact Hlast|]. rewrite length_app in Hb, Hcons. cbn [length] in Hb, Hcons. rewrite Nat.add_1_r in Hb, Hcons.
    split.
    + change (length (cur :: cur' :: more)) with (S (length (cur' :: more))). rewrite Nat2N.inj_succ.
      destruct (N.leb_spec step cur) as [Hle|Hgt].
      * pose proof (bound_step (length idxs) cur step Hs Hle) as HB.
        assert (step' = if (10 <? S (length idxs))%nat then step * 2 else step) as Es.
        { unfold step'. by rewrite wrap64_small by lia. }
        assert (cur' = cur - step) as Ec by done.
        rewrite <- Es, <- Ec in HB. cbn [length]. lia.
      * assert (more = []) as ->.
        { destruct more as [|m more]; [done|exfalso]. unfold cur' in HSm.
          apply StronglySorted_app_1_r, StronglySorted_inv in HSm as [HSm _].
          apply StronglySorted_inv in HSm as [_ HSm]. apply Forall_cons in HSm as [HSm _]. unfold N.gt in HSm.
          destruct m; done. }
        cbn [length]. unfold locator_bound. lia.
    + intros -> [|j] Hj Hjc; [cbn; f_equal; lia|]. cbn [lookup list_lookup].
      assert (cur' = cur - 1) as Ec by (unfold cur'; destruct (N.leb_spec 1 cur); lia).
      destruct (Nat.ltb_spec 10 (S (length idxs))) as [Hlt|Hge].
      * assert (j = 0%nat) as -> by lia. cbn. rewrite Ec. done.
      * assert (HJ : (cur' :: more) !! j = Some (cur' - N.of_nat j)) by (apply Hcons; [done|lia|lia]).
        etrans; [exact HJ|]. f_equal. lia.
Qed.

Lemma picked_genesis g idxs : head chain = Some g → last idxs = Some 0 → g ∈ picked idxs.
Proof.
  intros Hg [l' ->]%last_Some. unfold picked. rewrite fmap_app. apply elem_of_app. right.
  apply list_elem_of_singleton. destruct chain; [done|]. by injection Hg as ->.
Qed.

(** The locator of a chain of distinct hashes, of up to 2^63 blocks: the
    hashes at strictly decreasing heights from the tip, the twelve topmost
    without a gap, down to the genesis block, and no more of them than 14 plus
    the binary logarithm of the length. *)
Theorem block_locator_spec {E} (Hne : chain ≠ []) :
  ∃ idxs, block_locator (E := E) chain = Ok (picked idxs) ∧ StronglySorted N.gt idxs ∧
    head idxs = Some (N.of_nat (length chain) - 1) ∧ last idxs = Some 0 ∧
    (∀ j, (j ≤ 11)%nat → (j < length chain)%nat → idxs !! j = Some (N.of_nat (length chain) - 1 - N.of_nat j)) ∧
    N.of_nat (length idxs) ≤ 14 + N.log2 (N.of_nat (length chain)).
Proof.
  set (n := N.of_nat (length chain)) in *. assert (Hn : 0 < n) by (unfold n; destruct chain; cbn in *; [done|lia]).
  destruct (locator_loop_run (E := E) (length chain) (n - 1) 1 []) as (more & EL & HS & Hlast & Hb & Hcons);
    [lia|lia|lia|constructor|constructor|].
  cbn [app picked fmap list_fmap] in EL, HS. exists (n - 1 :: more). split; [|split; [done|split; [done|split; [done|split]]]].
  - destruct (head chain) as [g|] eqn:Hg; [|by destruct chain]. unfold block_locator.
    assert (∃ l, chain = g :: l) as [l Ech] by (destruct chain as [|g' l]; [done|]; injection Hg as ->; by exists l).
    rewrite Ech at 1. fold n. change (picked []) with (@nil Hash) in EL. rewrite EL. cbn [obind].
    by rewrite (bool_decide_eq_true_2 _ (picked_genesis g _ Hg Hlast)).
  - intros j Hj Hjl. apply Hcons; [done|cbn; lia|lia].
  - cbn [length] in Hb. unfold locator_bound in Hb. rewrite N.div_1_r in Hb. replace (n - 1 + 1) with n in Hb by lia.
    cbn [length]. lia.
Qed.
End locator.

(** A chain of thirty hashes. *)
Definition thirty : list Hash :=
  (λ i, default ZERO (hash_of_list (le_bytes 32 (N.of_nat i)))) <$> seq 1 30.

Lemma block_locator_spec_witness :
  ∃ idxs, block_locator (E := NodeError) thirty = Ok (picked thirty idxs) ∧ last idxs = Some 0 ∧
    N.of_nat (length idxs) ≤ 14 + N.log2 30.
Proof.
  destruct (block_locator_spec thirty ltac:(apply (bool_decide_eq_true_1 _); vm_compute; reflexivity) ltac:(vm_compute; discriminate) (E := NodeError) ltac:(discriminate))
    as (idxs & H1 & _ & _ & H2 & _ & H3).
  exists idxs. split; [exact H1|]. split; [exact H2|exact H3].
Defined.

(** ** The canonical chain is the path of the tree *)

Section path.
Context {B3 : Blake3} {ED : Ed25519} {BC : Bincode} {WM : Wasmi} {PC : Payload TxContext} {BS : BlockStore}.
Context {SL : BlockStoreLaws}.

Definition with_height (n : BlockNode) : Block * N := (node_block n, height n).

Lemma walk_heights_path genesis d h path u ns k :
  map_Forall (node_wf genesis ns) ns → ns !! ZERO = None → readable d → Forall (on_disk d) path →
  ledger ns h path u → length path = S k → walk_heights d h k = Ok (with_height <$> reverse path).
Proof.
  intros Hwf Hz Hd HF HL. revert k HF.
  induction HL as [h n u fees Hn Hh _|h n p u u' fees Hn Hh HL IH HA]; intros k HF Hk.
  - injection Hk as <-. apply Forall_cons in HF as [HF _]. destruct (Hwf _ _ Hn) as (E1 & _). unfold on_disk in HF.
    rewrite E1 in HF. cbn [walk_heights]. rewrite (block_reads d h _ Hd HF). cbn. unfold with_height. by rewrite Hh.
  - pose proof (ledger_heights genesis _ Hwf _ _ _ (length p) n (ledger_link _ _ _ _ _ _ _ Hn Hh HL HA)
      ltac:(by apply list_lookup_middle)) as Hhn.
    rewrite length_app in Hk. cbn in Hk. assert (Hp : k = length p) by lia. subst k.
    apply Forall_app in HF as [HF HFn]. apply Forall_cons in HFn as [HFn _].
    destruct (Hwf _ _ Hn) as (E1 & _ & E3 & _). unfold on_disk in HFn. rewrite E1 in HFn.
    destruct (node_parent genesis _ Hwf _ _ Hn Hh) as (q & Hq & Hqh).
    destruct (length p) as [|k] eqn:Hlen; [exfalso; apply Hh; rewrite Hhn; done|].
    cbn [walk_heights]. rewrite (block_reads d h _ Hd HFn). cbn [map_err obind ok_or]. rewrite <- E3.
    rewrite bool_decide_eq_false_2 by congruence.
    rewrite bool_decide_eq_false_2 by (intros E; rewrite E, Hn in Hq; injection Hq as ->; lia).
    cbn [orb]. rewrite (IH k HF) by lia. cbn [obind]. rewrite reverse_snoc. cbn. unfold with_height. by rewrite Hhn.
Qed.

Lemma hashes_of_path genesis ns (path : list BlockNode) :
  map_Forall (node_wf genesis ns) ns → (∀ x, x ∈ path → ns !! node_hash x = Some x) →
  hashes_of (with_height <$> path) = Ok (node_hash <$> path).
Proof.
  intros Hwf Hp. apply omap_list_Ok, Forall2_fmap_l, Forall2_fmap_r, Forall2_same_length_lookup_2; [done|].
  intros i x y Hx Hy. rewrite Hx in Hy. injection Hy as <-. cbn. rewrite header_hash_ok. f_equal.
  by destruct (Hwf _ _ (Hp x (list_elem_of_lookup_2 _ _ _ Hx))) as (_ & -> & _).
Qed.

Lemma path_distinct genesis ns h path u :
  map_Forall (node_wf genesis ns) ns → ledger ns h path u → NoDup (node_hash <$> path).
Proof.
  intros Hwf HL. apply NoDup_fmap_2_strong; [|].
  - intros x y Hx Hy E. pose proof (ledger_elem genesis _ Hwf _ _ _ _ HL Hx). pose proof (ledger_elem genesis _ Hwf _ _ _ _ HL Hy).
    congruence.
  - apply NoDup_alt. intros i j x Hi Hj. pose proof (ledger_heights genesis _ Hwf _ _ _ _ _ HL Hi).
    pose proof (ledger_heights genesis _ Hwf _ _ _ _ _ HL Hj). lia.
Qed.
End path.

(** What reading the chain from disk gives. *)
Lemma canonical_chain_path {B3 : Blake3} {ED : Ed25519} {BC : Bincode} {WM : Wasmi} {PC : Payload TxContext} {BS : BlockStore}
    {SL : BlockStoreLaws} (gb : Block) (depth n : N) (s : Shared)
    (Hgb : genesis_fits gb) (Hlife : node_life gb depth n s) (Hn : n < U64_MAX) (Hread : readable (disk s)) :
  ∃ path, ledger (nodes (chain_tree s)) (canonical_tip (chain_tree s)) path (utxo_set s) ∧
    get_path_from_genesis (E := ChainError) (chain_tree s) (canonical_tip (chain_tree s)) = Ok path ∧
    query_canonical_chain (disk s) = Ok (with_height <$> path) ∧
    get_canonical_hashes (disk s) = Ok (node_hash <$> path) ∧
    (∀ i m, path !! i = Some m → height m = N.of_nat i) ∧ NoDup (node_hash <$> path) ∧
    last (node_hash <$> path) = Some (canonical_tip (chain_tree s)) ∧
    head (node_hash <$> path) = Some (genesis_hash (chain_tree s)) ∧
    get_block_locator (disk s) = block_locator (node_hash <$> path).
Proof.
  destruct (node_life_inv gb depth Hgb n s Hlife Hn) as [[HC _ _] [HT Htip Hpath]].
  pose proof (inv_nodes _ _ _ HC) as Hwf. destruct (inv_tip _ _ _ HC) as [path HL]. cbn [chain_of fst snd] in *.
  pose proof (get_path_ok (E := ChainError) _ _ Hwf _ _ _ _ eq_refl HL) as Hget.
  destruct (ledger_key _ _ Hwf _ _ _ HL) as (rest & m & E & Hm & Hlk).
  pose proof (ledger_heights _ _ Hwf _ _ _ (length rest) m HL) as Hh.
  rewrite E in Hh at 1. specialize (Hh (list_lookup_middle _ _ _ _ eq_refl)).
  assert (HQ : query_canonical_chain (disk s) = Ok (with_height <$> path)).
  { unfold query_canonical_chain. rewrite (tip_reads _ _ Hread Htip). cbn [map_err obind ok_or].
    rewrite (walk_heights_path _ _ _ _ _ _ _ Hwf (ti_zero _ HT) Hread (Hpath _ _ HL) HL); cbn [obind].
    - by rewrite <- fmap_reverse, reverse_involutive.
    - unfold canonical_height. rewrite Hlk. cbn [from_option]. rewrite Hh, Nat2N.id, E, length_app. cbn. lia. }
  assert (HH : hashes_of (with_height <$> path) = Ok (node_hash <$> path)).
  { apply (hashes_of_path _ _ _ Hwf). intros x Hx. by apply (ledger_elem _ _ Hwf _ _ _ _ HL). }
  exists path. split; [done|]. split; [done|]. split; [done|]. unfold get_canonical_hashes, get_block_locator. rewrite HQ. cbn [obind].
  rewrite HH. split; [done|]. split; [intros i x Hx; by apply (ledger_heights _ _ Hwf _ _ _ _ _ HL)|].
  split; [by apply (path_distinct _ _ _ _ _ Hwf HL)|]. split; [rewrite E, fmap_app; cbn; by rewrite last_snoc, Hm|].
  split; [|done]. unfold genesis_hash. rewrite Hget. destruct path; [by destruct rest|done].
Qed.

(** At any point of the life of a node whose disk can be read, the canonical
    chain read from disk is the path of the chain tree from the genesis block to
    the tip, each block with its height, which counts from 0; the hashes are
    those of the path, distinct, the last one the tip and the first one the
    network identity. *)
Theorem canonical_chain_spec {B3 : Blake3} {ED : Ed25519} {BC : Bincode} {WM : Wasmi} {PC : Payload TxContext} {BS : BlockStore}
    {SL : BlockStoreLaws} (gb : Block) (depth n : N) (s : Shared)
    (Hgb : genesis_fits gb) (Hlife : node_life gb depth n s) (Hn : n < U64_MAX) (Hread : readable (disk s)) :
  ∃ path, get_path_from_genesis (E := ChainError) (chain_tree s) (canonical_tip (chain_tree s)) = Ok path ∧
    query_canonical_chain (disk s) = Ok (with_height <$> path) ∧
    get_canonical_hashes (disk s) = Ok (node_hash <$> path) ∧
    (∀ i m, path !! i = Some m → height m = N.of_nat i) ∧ NoDup (node_hash <$> path) ∧
    last (node_hash <$> path) = Some (canonical_tip (chain_tree s)) ∧
    head (node_hash <$> path) = Some (genesis_hash (chain_tree s)) ∧
    get_block_locator (disk s) = block_locator (node_hash <$> path).
Proof.
  destruct (canonical_chain_path gb depth n s Hgb Hlife Hn Hread) as (path & _ & H). by exists path.
Qed.

Section path_witness.
#[local] Existing Instances toy_blake3 toy_ed25519 toy_bincode toy_redb toy_redb_laws.
#[local] Instance toy_wasm : Wasmi := toy_wasmi toy_contract.
#[local] Existing Instances toy_payload_context NodeBlockVerifier.

Lemma canonical_chain_spec_witness :
  ∃ path, query_canonical_chain (BS := StorageEngine (R := toy_redb)) (disk toy_grown) = Ok (with_height <$> path) ∧
    last (node_hash <$> path) = Some (canonical_tip (chain_tree toy_grown)).
Proof.
  destruct (canonical_chain_spec (BS := StorageEngine (R := toy_redb)) toy_genesis 100 (0 + 1) toy_grown
    toy_genesis_fits toy_life ltac:(done) (proj1 toy_restartable)) as (path & _ & HQ & _ & _ & _ & HT & _).
  exists path. split; [exact HQ|exact HT].
Defined.
End path_witness.

(** ** The check of a start *)

(** With the empty pool of a start, the check passes exactly when the disk can be
    read, the signature of the attestation verifies, the target of the genesis
    block is not zero and a mining node has a payout script: the self tests of
    the emission curve and of the script engine cannot fail. *)
Lemma subsystem_integrity_spec {B3 : Blake3} {ED : Ed25519} {BS : BlockStore} (attested : bool) (config : NodeConfig) (s : Shared) :
  mempool s = Mempool_new →
  verify_subsystem_integrity attested config s = Ok tt ↔
  (∃ tip, stored_tip (disk s) = Ok tip) ∧ attested = true ∧
  from_compact (genesis_difficulty_target config) ≠ Target_zero ∧
  (mining_enabled config = true → miner_payout_script config ≠ []).
Proof.
  intros Hm. unfold verify_subsystem_integrity. rewrite Hm, obind_Ok. split.
  - intros (tip & Ht%map_err_Ok & H). case_bool_decide as Hz; [done|].
    cbn [negb N.eqb get_block_subsidy] in H. vm_compute (get_block_subsidy 0 =? INITIAL_SUBSIDY) in H. cbn [negb] in H.
    apply obind_Ok in H as ([] & _ & H). apply obind_Ok in H as ([] & _ & H). destruct attested; [|done]. cbn in H.
    split; [by eexists|]. split; [done|]. split; [done|]. intros E1 E2. by rewrite E1, bool_decide_eq_true_2 in H.
  - intros ((tip & Ht) & -> & Hz & Hp). exists tip. split; [by rewrite Ht|]. rewrite bool_decide_eq_false_2 by done.
    change (get_block_subsidy 0 =? INITIAL_SUBSIDY) with true. cbn [negb].
    change (execute DEFAULT_MAX_OPS_BUDGET (mkScriptContext ZERO 0) [] [x51]) with (@Ok ScriptError bool true). cbn [obind].
    change (execute DEFAULT_MAX_OPS_BUDGET (mkScriptContext ZERO 0) [] [x00]) with (@Err ScriptError bool ScriptFailed).
    cbn [obind]. change ((0 <? pool_len Mempool_new) && (total_bytes Mempool_new =? 0)) with false. cbn [negb].
    destruct (mining_enabled config); [|done]. by rewrite bool_decide_eq_false_2 by auto.
Qed.

(** ** Laws of snapshots *)

Section wire.
Context {B3 : Blake3}.

(** What the wire keeps of an entry. *)
Definition transferred (e : UtxoEntry) : UtxoEntry := UtxoEntry_new (output e) 0 false.

Lemma read_wire_entry p : read_wire (wire_entry p) = Ok (p.1, transferred p.2).
Proof.
  destruct p as [[id i] [[v lock] h cb]]. unfold read_wire, wire_entry. cbn [w_txid_hex w_index w_value_quanta w_locking_script_hex fst snd op_txid op_index output value locking_condition].
  destruct (hex_roundtrip lock id) as (H1 & _ & H2 & _). rewrite H2. cbn [map_err obind]. by rewrite H1.
Qed.

Lemma read_wire_entries l : omap_list read_wire (wire_entry <$> l) = Ok ((λ p, (p.1, transferred p.2)) <$> l).
Proof.
  apply omap_list_Ok, Forall2_fmap_l, Forall2_fmap_r, Forall2_same_length_lookup_2; [done|].
  intros i x y Hx Hy. rewrite Hx in Hy. injection Hy as <-. apply read_wire_entry.
Qed.

(** Consecutive windows of a list make up the list. *)
Lemma windows {A} (l : list A) (k n : nat) :
  (length l ≤ n * k)%nat → mjoin ((λ i, take k (drop (i * k) l)) <$> seq 0 n) = l.
Proof.
  revert l; induction n as [|n IH]; intros l Hl; [by destruct l; [|cbn in Hl; lia]|].
  cbn [seq fmap list_fmap mjoin list_join]. rewrite Nat.mul_0_l, drop_0. etrans; [|apply (take_drop k l)]. f_equal.
  etrans; [|apply (IH (drop k l)); rewrite length_drop; lia]. f_equal. rewrite <- seq_shift.
  change (list_fmap _ _ ?f (map S (seq 0 n))) with (f <$> (S <$> seq 0 n)).
  rewrite <- list_fmap_compose. apply list_fmap_ext. intros i x _. cbn [compose]. by rewrite drop_drop.
Qed.

Lemma div_ceil_covers a b : 0 < b → a ≤ div_ceil a b * b.
Proof.
  intros Hb. unfold div_ceil. pose proof (N.div_mod a b ltac:(lia)) as HD. pose proof (N.mod_lt a b ltac:(lia)).
  destruct (N.eqb_spec (a mod b) 0); nia.
Qed.
Lemma div_ceil_le a b : div_ceil a b ≤ a + 1.
Proof.
  unfold div_ceil. pose proof (div_le_self a b) as HD. revert HD. generalize (a / b). intros q HD.
  destruct (_ =? 0); lia.
Qed.
End wire.

Section snapshot_laws.
Context {B3 : Blake3} {ED : Ed25519} {BC : Bincode} {WM : Wasmi} {PC : Payload TxContext} {R : Redb}.
#[local] Existing Instances StorageEngine NodeBlockVerifier.

Lemma insert_snapshot_run l (s : Shared) :
  NoDup l.*1 → (∀ o, o ∈ l.*1 → utxo_set s !! o = None) →
  insert_snapshot l s = (on_utxo_set (λ u, inserts l u) s, Ok tt).
Proof.
  revert s; induction l as [|[o e] l IH]; intros s Hnd Hfr; [by destruct s|].
  cbn in Hnd, Hfr. apply NoDup_cons in Hnd as [Ho Hnd].
  assert (HI : insert_utxo (o, e) s = (on_utxo_set (λ u, <[o := e]> u) s, Ok tt)).
  { unfold insert_utxo, utxo_insert, utxo_contains. cbn [fst snd]. rewrite Hfr by by left.
    by rewrite bool_decide_eq_false_2 by by intros []. }
  cbn [insert_snapshot]. rewrite (sbind_run _ _ _ _ _ HI), IH; [done|done|].
  intros o' Ho'. cbn [on_utxo_set utxo_set]. rewrite lookup_insert_ne; [apply Hfr; by right|by intros ->].
Qed.

(** Entries that can be inserted one after the other. *)
Definition insertable (l : list (OutPoint * UtxoEntry)) (u : UtxoSet) : Prop :=
  NoDup l.*1 ∧ ∀ o, o ∈ l.*1 → u !! o = None.

(** Otherwise the insertion stops at the first outpoint that is there already. *)
Lemma insert_snapshot_stops l (s : Shared) :
  ¬ insertable l (utxo_set s) →
  ∃ u o, insert_snapshot l s = (on_utxo_set (λ _, u) s, Err (InconsistentState (InsertFailed (DuplicateOutPoint o)))).
Proof.
  revert s; induction l as [|[o e] l IH]; intros s HN.
  { exfalso. apply HN. split; [constructor|by intros o ?%elem_of_nil]. }
  cbn [insert_snapshot]. destruct (utxo_set s !! o) as [x|] eqn:Ho.
  - exists (utxo_set s), o. apply sbind_run_err. unfold insert_utxo, utxo_insert, utxo_contains. cbn [fst snd].
    by rewrite Ho, bool_decide_eq_true_2 by by eexists.
  - assert (HI : insert_utxo (o, e) s = (on_utxo_set (λ u, <[o := e]> u) s, Ok tt)).
    { unfold insert_utxo, utxo_insert, utxo_contains. cbn [fst snd]. by rewrite Ho, bool_decide_eq_false_2 by by intros []. }
    rewrite (sbind_run _ _ _ _ _ HI). destruct (IH (on_utxo_set (λ u, <[o := e]> u) s)) as (u & o' & E); [|by exists u, o'].
    intros [Hnd Hfr]. apply HN. cbn [on_utxo_set utxo_set] in Hfr. split.
    + constructor; [|done]. intros Hin%Hfr. by rewrite lookup_insert_eq in Hin.
    + intros x [->|Hx]%elem_of_cons; [done|]. specialize (Hfr x Hx). by apply lookup_insert_None in Hfr as [? _].
Qed.

Lemma insertable_empty l : insertable l ∅ ↔ NoDup l.*1.
Proof. split; [by intros [? _]|]. intros Hnd. split; [done|]. intros o _. apply lookup_empty. Qed.

(** The entries [l] read from the wire pass for the block named [hex], and the
    database takes them and becomes [d]. *)
Record accepted (hex : list byte) (wires : list UtxoWireEntryDto) (s : Shared) (l : list (OutPoint * UtxoEntry))
    (bh r : Hash) (found : option Block) (h : N) (d : store) : Prop := {
  ac_hash : hash_from_str hex = Ok bh;
  ac_read : omap_list read_wire wires = Ok l;
  ac_root : compute_utxo_merkle_root (E := NodeError) (leaves_of (sort_by fst l)) = Ok r;
  ac_found : stored_block bh (disk s) = Ok found;
  ac_height : snapshot_height bh r found (chain_tree s) = Ok h;
  ac_disk : engine_apply_utxo_snapshot (mkUtxoSnapshotDto h bh r (sort_by fst l)) (disk s) = Ok d
}.

Lemma snapshot_height_Ok bh r found chain h :
  snapshot_height bh r found chain = Ok h →
  match found with Some b => utxo_root (header b) = r | None => canonical_height chain = 0 end.
Proof.
  unfold snapshot_height. destruct found as [b|]; [by case_bool_decide|].
  destruct (N.ltb_spec 0 (canonical_height chain)); [done|lia].
Qed.
Lemma snapshot_height_returns bh r found chain : returns (snapshot_height bh r found chain).
Proof. unfold snapshot_height. destruct found; [by case_bool_decide|by destruct (_ <? _)]. Qed.

(** The state from which the entries are inserted. *)
Definition cleared (s : Shared) (d : store) : Shared := mkShared (chain_tree s) ∅ (mempool s) d.

Lemma apply_snapshot_run hex wires s l bh r found h d :
  accepted hex wires s l bh r found h d →
  apply_snapshot hex wires s =
  (let! _ := insert_snapshot (sort_by fst l) in
   let! _ := smodify (with_pool Mempool_new) in
   sret (N.of_nat (length wires))) (cleared s d).
Proof.
  intros [E1 E2 E3 E4 E5 E6]. unfold apply_snapshot. rewrite E1. cbn [map_err]. rewrite sbind_lift_Ok, E2, sbind_lift_Ok.
  cbv zeta. rewrite E3, sbind_lift_Ok, sbind_sget, E4. cbn [map_err]. rewrite sbind_lift_Ok, E5, sbind_lift_Ok.
  assert (HW : write_store (chain_of s) (engine_apply_utxo_snapshot (mkUtxoSnapshotDto h bh r (sort_by fst l))) s = (with_disk d s, Ok tt)).
  { unfold write_store. by rewrite E6. }
  by rewrite (sbind_run _ _ _ _ _ HW), sbind_smodify.
Qed.

Lemma sorted_outpoints l : NoDup (sort_by fst l).*1 ↔ NoDup (l : list (OutPoint * UtxoEntry)).*1.
Proof. by rewrite sort_by_perm. Qed.

Lemma inserts_sorted l : NoDup l.*1 → inserts (sort_by fst l) ∅ = list_to_map l.
Proof.
  intros Hnd. rewrite inserts_map by by apply sorted_outpoints.
  apply list_to_map_proper; [by apply sorted_outpoints|apply sort_by_perm].
Qed.

Lemma apply_snapshot_done hex wires s l bh r found h d :
  accepted hex wires s l bh r found h d → NoDup l.*1 →
  apply_snapshot hex wires s = (mkShared (chain_tree s) (list_to_map l) Mempool_new d, Ok (N.of_nat (length wires))).
Proof.
  intros HA Hnd. rewrite (apply_snapshot_run _ _ _ _ _ _ _ _ _ HA).
  assert (HI : insert_snapshot (sort_by fst l) (cleared s d) = (on_utxo_set (λ u, inserts (sort_by fst l) u) (cleared s d), Ok tt)).
  { apply insert_snapshot_run; [by apply sorted_outpoints|]. intros o _. apply lookup_empty. }
  rewrite (sbind_run _ _ _ _ _ HI), sbind_smodify. unfold sret, on_utxo_set, with_pool.
  cbn [cleared chain_tree utxo_set mempool disk]. by rewrite inserts_sorted.
Qed.

Lemma apply_snapshot_twice hex wires s l bh r found h d :
  accepted hex wires s l bh r found h d → ¬ NoDup l.*1 →
  ∃ u o, apply_snapshot hex wires s =
    (mkShared (chain_tree s) u (mempool s) d, Err (InconsistentState (InsertFailed (DuplicateOutPoint o)))).
Proof.
  intros HA Hnd. rewrite (apply_snapshot_run _ _ _ _ _ _ _ _ _ HA).
  destruct (insert_snapshot_stops (sort_by fst l) (cleared s d)) as (u & o & HI).
  { intros H%insertable_empty. by rewrite sorted_outpoints in H. }
  rewrite (sbind_run_err _ _ _ _ _ HI). by exists u, o.
Qed.

(** A text that makes [Hash::from_str] panic. *)
Definition bad_text (t : list byte) : Prop := hash_from_str t = Panic.

Lemma hash_from_str_no_diverge t : hash_from_str t ≠ Diverge.
Proof.
  unfold hash_from_str. destruct (_ =? _)%nat; [|done]. 
  assert (HL : ∀ n l, hash_from_str_loop n l ≠ Diverge).
  { induction n as [|n IH]; intros l; [by destruct l|]. destruct l as [|a [|b l]]; cbn [hash_from_str_loop]; [done..|].
    destruct (_ && _); [|done]. destruct (u8_from_str_radix16 a b); cbn [ok_or obind]; [|done].
    specialize (IH l). by destruct (hash_from_str_loop n l). }
  specialize (HL 32%nat (strip_0x t)). destruct (hash_from_str_loop _ _); cbn [obind]; [|done..].
  by destruct (hash_of_list a).
Qed.

Lemma total_insert_entries entries : total (insert_entries entries).
Proof. induction entries as [|[o e] entries IH]; cbn [insert_entries]; [solve_total|]. solve_total. Qed.

Context {RL : RedbLaws}.

Lemma engine_snapshot_returns snapshot d : returns (engine_apply_utxo_snapshot snapshot d).
Proof.
  unfold engine_apply_utxo_snapshot, writing. apply returns_obind; [apply read_tx_returns|intros t _].
  assert (HT : returns (apply_utxo_snapshot_tables snapshot t).2).
  { unfold apply_utxo_snapshot_tables. destruct (merkle_root_total (E := StorageError) (leaves_of (sort_by fst (snap_entries snapshot)))) as [r ->].
    rewrite sbind_lift_Ok. case_bool_decide; cbn [negb]; [|done]. rewrite sbind_smodify. apply total_insert_entries. }
  destruct (apply_utxo_snapshot_tables snapshot t) as [t' [[]|e| |]]; [apply commit_tx_returns|done|by destruct HT..].
Qed.

Lemma stored_block_returns bh d : returns (stored_block bh d).
Proof.
  apply returns_obind; [apply read_tx_returns|intros t _]. unfold get_block, decoded. destruct (BLOCKS t !! bh); [|done].
  apply returns_obind; [|done]. apply returns_ser_err, from_canonical_returns, safe_block.
Qed.

Definition unread (hex : list byte) (wires : list UtxoWireEntryDto) : Prop :=
  bad_text hex ∨ ∃ e, e ∈ wires ∧ bad_text (w_txid_hex e).

Lemma read_wires_cases wires :
  (∃ l, omap_list read_wire wires = Ok l) ∨ (∃ e, omap_list read_wire wires = Err e) ∨
  omap_list read_wire wires = Panic ∧ ∃ e, e ∈ wires ∧ bad_text (w_txid_hex e).
Proof.
  induction wires as [|e wires IH]; [left; by eexists|]. cbn [omap_list]. unfold read_wire at 1 3 5. unfold bad_text.
  pose proof (hash_from_str_no_diverge (w_txid_hex e)) as Hnd. pose proof (from_hex_returns (w_locking_script_hex e)) as [H1 H2].
  destruct (hash_from_str (w_txid_hex e)) as [id|x| |] eqn:Et; cbn [map_err obind]; [|right; left; by eexists| |done].
  - destruct (from_hex (w_locking_script_hex e)); cbn [map_err obind]; [|right; left; by eexists|done..].
    destruct IH as [[l ->]|[[x ->]|[-> (e' & ? & ?)]]]; cbn [obind]; [left; by eexists|right; left; by eexists|].
    right; right. split; [done|]. exists e'. split; [by right|done].
  - right; right. split; [done|]. exists e. split; [by left|done].
Qed.

(** Either everything passes, or nothing changes. *)
Lemma apply_snapshot_cases hex wires s :
  (∃ l bh r found h d, accepted hex wires s l bh r found h d) ∨
  ∃ x, apply_snapshot hex wires s = (s, x) ∧ ((∃ e, x = Err e) ∨ x = Panic ∧ unread hex wires).
Proof.
  unfold apply_snapshot. pose proof (hash_from_str_no_diverge hex) as Hnd.
  destruct (hash_from_str hex) as [bh|e| |] eqn:Eh; cbn [map_err];
    [rewrite sbind_lift_Ok|right; eexists; split; [done|left; by eexists]|right; eexists; split; [done|right; split; [done|by left]]|done].
  destruct (read_wires_cases wires) as [[l El]|[[e ->]|[-> HP]]];
    [|right; eexists; split; [done|left; by eexists]|right; eexists; split; [done|right; split; [done|by right]]].
  rewrite El, sbind_lift_Ok. cbv zeta. destruct (merkle_root_total (E := NodeError) (leaves_of (sort_by fst l))) as [r Hr].
  rewrite Hr, sbind_lift_Ok, sbind_sget. destruct (stored_block_returns bh (disk s)) as [F1 F2].
  destruct (stored_block bh (disk s)) as [found|e| |] eqn:Ef; cbn [map_err]; [|right; eexists; split; [done|left; by eexists]|done..].
  rewrite sbind_lift_Ok. destruct (snapshot_height_returns bh r found (chain_tree s)) as [G1 G2].
  destruct (snapshot_height bh r found (chain_tree s)) as [h|e| |] eqn:Es; [|right; eexists; split; [done|left; by eexists]|done..].
  rewrite sbind_lift_Ok.
  destruct (engine_snapshot_returns (mkUtxoSnapshotDto h bh r (sort_by fst l)) (disk s)) as [K1 K2].
  destruct (engine_apply_utxo_snapshot (mkUtxoSnapshotDto h bh r (sort_by fst l)) (disk s)) as [d|e| |] eqn:Ed; [|right|done..].
  - left. by exists l, bh, r, found, h, d.
  - eexists. split; [|left; by eexists]. erewrite sbind_run_err; [done|]. unfold write_store. rewrite Ed. by destruct s.
Qed.

Lemma leaves_of_sorted l r :
  NoDup l.*1 → compute_utxo_merkle_root (E := NodeError) (leaves_of (sort_by fst l)) = Ok r →
  compute_utxo_root (E := NodeError) (list_to_map l) = Ok r.
Proof.
  intros Hnd Hr. rewrite compute_root_sorted, <- Hr. do 2 f_equal.
  apply sort_by_unique; [by rewrite map_to_list_to_map|]. apply NoDup_fst_map_to_list.
Qed.

Lemma read_wire_plain e p : read_wire e = Ok p → block_height p.2 = 0 ∧ is_coinbase_output p.2 = false.
Proof. unfold read_wire. by intros (id & _ & (lock & _ & <-%Ok_inj)%obind_Ok)%obind_Ok. Qed.
Lemma read_wires_plain wires l : omap_list read_wire wires = Ok l →
  map_Forall (λ _ e, block_height e = 0 ∧ is_coinbase_output e = false) (list_to_map (M := UtxoSet) l).
Proof.
  intros HF%omap_list_Ok o e He%elem_of_list_to_map_2. clear -HF He.
  induction HF as [|w p wires l Hp _ IH]; [by apply elem_of_nil in He|].
  apply elem_of_cons in He as [<-|He]; [by apply read_wire_plain in Hp|by apply IH].
Qed.

Lemma apply_snapshot_Ok hex wires s s' n :
  apply_snapshot hex wires s = (s', Ok n) →
  ∃ l bh root found h d, accepted hex wires s l bh root found h d ∧ NoDup l.*1 ∧
    s' = mkShared (chain_tree s) (list_to_map l) Mempool_new d ∧ n = N.of_nat (length wires).
Proof.
  intros E. destruct (apply_snapshot_cases hex wires s) as [(l & bh & root & found & h & d & HA)|(x & E2 & [[e ->]|[-> Hu]])];
    [|congruence..]. destruct (decide (NoDup l.*1)) as [Hnd|Hd].
  - rewrite (apply_snapshot_done _ _ _ _ _ _ _ _ _ HA Hnd) in E. injection E as <- <-. by exists l, bh, root, found, h, d.
  - destruct (apply_snapshot_twice _ _ _ _ _ _ _ _ _ HA Hd) as (u & o & E2). congruence.
Qed.
End snapshot_laws.

(** Applying a snapshot. When it succeeds the entries were read from their
    text, are distinct, and have the root of the named block, if that block is
    stored, or the chain is at its genesis block; the set of unspent outputs is
    then those entries, with that root, every one of them of height 0 and not a
    coinbase output, the mempool is empty and the chain tree, its tip included,
    is as before. When it fails nothing changes, except that entries that repeat
    an outpoint are only noticed after the database was written. It panics only
    on a text that makes the parser of hashes panic, and always ends. *)
Theorem apply_snapshot_spec {B3 : Blake3} {ED : Ed25519} {BC : Bincode} {WM : Wasmi} {PC : Payload TxContext} {R : Redb}
    {RL : RedbLaws} (hex : list byte) (wires : list UtxoWireEntryDto) (s : Shared (BS := StorageEngine)) :
  let '(s', r) := apply_snapshot hex wires s in
  chain_tree s' = chain_tree s ∧
  match r with
  | Ok n => ∃ l bh root found h, accepted hex wires s l bh root found h (disk s') ∧ NoDup l.*1 ∧
      match found with Some b => utxo_root (header b) = root | None => canonical_height (chain_tree s) = 0 end ∧
      utxo_set s' = list_to_map l ∧ compute_utxo_root (E := NodeError) (utxo_set s') = Ok root ∧
      map_Forall (λ _ e, block_height e = 0 ∧ is_coinbase_output e = false) (utxo_set s') ∧
      mempool s' = Mempool_new ∧ n = N.of_nat (length wires)
  | Err e => s' = s ∨ ∃ l bh root found h o, accepted hex wires s l bh root found h (disk s') ∧ ¬ NoDup l.*1 ∧
      mempool s' = mempool s ∧ e = InconsistentState (InsertFailed (DuplicateOutPoint o))
  | Panic => s' = s ∧ unread hex wires
  | Diverge => False
  end.
Proof.
  destruct (apply_snapshot_cases hex wires s) as [(l & bh & root & found & h & d & HA)|(x & -> & [[e ->]|[-> Hu]])];
    [|by auto|done].
  destruct (decide (NoDup l.*1)) as [Hnd|Hd].
  - rewrite (apply_snapshot_done _ _ _ _ _ _ _ _ _ HA Hnd). split; [done|]. exists l, bh, root, found, h.
    split; [done|]. split; [done|]. split; [exact (snapshot_height_Ok _ _ _ _ _ (ac_height _ _ _ _ _ _ _ _ _ HA))|].
    split; [done|]. split; [exact (leaves_of_sorted _ _ Hnd (ac_root _ _ _ _ _ _ _ _ _ HA))|].
    split; [exact (read_wires_plain _ _ (ac_read _ _ _ _ _ _ _ _ _ HA))|done].
  - destruct (apply_snapshot_twice _ _ _ _ _ _ _ _ _ HA Hd) as (u & o & ->). split; [done|]. right.
    by exists l, bh, root, found, h, o.
Qed.

(** A snapshot detaches the unspent outputs from the chain: on a node whose
    set is that of its canonical chain and has a coinbase output or one above
    the genesis block, no snapshot leaves a set that is again that of the
    canonical chain, not even the snapshot of its own tip. *)
Theorem snapshot_leaves_ledger {B3 : Blake3} {ED : Ed25519} {BC : Bincode} {WM : Wasmi} {PC : Payload TxContext} {R : Redb}
    {RL : RedbLaws} {V : BlockTransactionVerifier} (genesis : BlockNode) (k : N) (hex : list byte) (wires : list UtxoWireEntryDto)
    (s s' : Shared (BS := StorageEngine)) (n : N) (o : OutPoint) (e : UtxoEntry)
    (Hinv : chain_inv genesis k (chain_of s)) (He : utxo_set s !! o = Some e)
    (Hold : is_coinbase_output e = true ∨ block_height e ≠ 0)
    (Hrun : apply_snapshot hex wires s = (s', Ok n)) :
  canonical_tip (chain_tree s') = canonical_tip (chain_tree s) ∧
  ¬ ∃ path, ledger (nodes (chain_tree s')) (canonical_tip (chain_tree s')) path (utxo_set s').
Proof.
  destruct (apply_snapshot_Ok _ _ _ _ _ Hrun) as (l & bh & root & found & h & d & HA & Hnd & -> & _).
  cbn [chain_tree utxo_set]. split; [done|]. pose proof (read_wires_plain _ _ (ac_read _ _ _ _ _ _ _ _ _ HA)) as HF.
  intros [path HL]. destruct (inv_tip _ _ _ Hinv) as [path' HL']. cbn [chain_of fst snd] in HL'.
  destruct (ledger_det _ _ _ _ _ _ HL HL') as [_ E]. rewrite E in HF. destruct (HF o e He) as [H1 H2].
  destruct Hold; congruence.
Qed.

Section transfer.
Context {B3 : Blake3} {ED : Ed25519} {BC : Bincode} {WM : Wasmi} {PC : Payload TxContext} {R : Redb} {RL : RedbLaws}.
#[local] Existing Instance StorageEngine.

Lemma snapshot_chunk_total snap hex i k :
  (snapshot_chunk snap hex i k).1 =
  (if bool_decide (hex = []) || bool_decide (hex = hash_display ZERO) then hash_display (snap_block_hash snap) else hex, i,
   let total := N.of_nat (length (snap_entries snap)) in
   if total =? 0 then 1 else div_ceil (wrap32 total) (if k =? 0 then 2000 else k)).
Proof. done. Qed.

(** The chunks of a snapshot, put together, are its entries. *)
Lemma chunks_complete snap hex k :
  N.of_nat (length (snap_entries snap)) < MOD32 → k < MOD32 →
  mjoin ((λ i, (snapshot_chunk snap hex (N.of_nat i) k).2) <$> seq 0 (N.to_nat (snapshot_chunk snap hex 0 k).1.2)) =
  wire_entry <$> snap_entries snap.
Proof.
  intros Hl Hk. rewrite snapshot_chunk_total. cbn [snd]. cbv zeta.
  set (size := if k =? 0 then 2000 else k). set (entries := snap_entries snap) in *.
  set (total := if N.of_nat (length entries) =? 0 then 1 else div_ceil (wrap32 (N.of_nat (length entries))) size).
  assert (Hs : 0 < size ∧ size < MOD32) by (unfold size; destruct (N.eqb_spec k 0); lia).
  assert (HT : N.of_nat (length entries) ≤ total * size ∧ total ≤ MOD32).
  { unfold total. destruct (N.eqb_spec (N.of_nat (length entries)) 0) as [->|Hne]; [lia|].
    rewrite wrap32_small by done. split; [apply div_ceil_covers, Hs|].
    etrans; [apply div_ceil_le|]. clear -Hl. lia. }
  destruct HT as [HT HT32].
  rewrite <- (windows (wire_entry <$> entries) (N.to_nat size) (N.to_nat total)) by (rewrite length_fmap; nia).
  f_equal. apply list_fmap_ext. intros i x [-> Hi]%lookup_seq. cbn.
  fold size. fold entries. unfold saturating_mul.
  assert (Hb : N.of_nat i * size ≤ U64_MAX) by nia.
  rewrite N.min_l by done. rewrite <- fmap_drop, <- fmap_take.
  replace (N.to_nat (N.of_nat i * size)) with (i * N.to_nat size)%nat by lia.
  destruct (N.leb_spec (N.of_nat (length entries)) (N.of_nat i * size)) as [Hle|Hgt].
  - rewrite drop_ge by lia. by rewrite take_nil.
  - f_equal. rewrite <- (take_drop (N.to_nat size) (drop (i * N.to_nat size) entries)) at 1.
    destruct (N.le_gt_cases (N.of_nat i * size + size) (N.of_nat (length entries))) as [Hm|Hm].
    + rewrite N.min_l by done. rewrite take_drop. f_equal. lia.
    + rewrite N.min_r by lia. rewrite take_drop. rewrite !take_ge; [done|rewrite length_drop; lia..].
Qed.

Lemma leaves_of_transferred l :
  leaves_of ((λ p, (p.1, transferred p.2)) <$> l) = leaves_of l.
Proof. unfold leaves_of. rewrite <- list_fmap_compose. apply list_fmap_ext. by intros i [o e] _. Qed.

Lemma transferred_fits o e :
  (entry_wf o e ∧ ∃ bs, to_canonical_bytes e = Ok bs) → entry_wf o (transferred e) ∧ ∃ bs, to_canonical_bytes (transferred e) = Ok bs.
Proof.
  intros [[Ho [He _]] [bs Hbs]]. split; [split; [done|split; [exact He|done]]|]. revert Hbs.
  unfold to_canonical_bytes, serialize_canonical, ser_utxoentry, transferred, UtxoEntry_new. cbn [output].
  intros (a & (b & Hb & _)%obind_Ok & _)%obind_Ok. rewrite Hb. cbn. by eexists.
Qed.

(** The entries of an export, as they are inserted on the other side. *)
Lemma transferred_sorted u :
  sort_by fst ((λ p : OutPoint * UtxoEntry, (p.1, transferred p.2)) <$> sort_by fst (map_to_list u)) =
  (λ p, (p.1, transferred p.2)) <$> sort_by fst (map_to_list u).
Proof.
  rewrite sort_by_fmap. change (fst ∘ _) with (@fst OutPoint UtxoEntry). f_equal.
  apply sort_by_unique; [apply sort_by_perm|]. rewrite sort_by_perm. apply NoDup_fst_map_to_list.
Qed.

Lemma transferred_map (u : UtxoSet) :
  list_to_map ((λ p : OutPoint * UtxoEntry, (p.1, transferred p.2)) <$> sort_by fst (map_to_list u)) = transferred <$> u.
Proof.
  change (λ p, (p.1, transferred p.2)) with (prod_map (A := OutPoint) id transferred). 
  rewrite (list_to_map_fmap (M := gmap OutPoint)). f_equal.
  rewrite (list_to_map_proper _ (map_to_list u)); [apply list_to_map_to_list| |apply sort_by_perm].
  rewrite sort_by_perm. apply NoDup_fst_map_to_list.
Qed.

(** The root does not depend on the error type of its caller. *)
Lemma merkle_root_cast {E F} leaves r :
  compute_utxo_merkle_root (E := E) leaves = Ok r → compute_utxo_merkle_root (E := F) leaves = Ok r.
Proof.
  unfold compute_utxo_merkle_root. case_bool_decide; [by intros [= ->]|]. generalize (length leaves). intros fuel.
  revert leaves H. induction fuel as [|fuel IH]; intros l Hl; [done|]. cbn [merkle_loop].
  destruct (Nat.ltb_spec 1 (length l)); [|by destruct l; intros [= <-]]. apply IH. unfold pad_odd.
  destruct l as [|a [|b l]]; [done|cbn in *; lia|]. by destruct (Nat.odd _).
Qed.

(** A database that can be read and written. *)
Definition writable (d : db) : Prop := (∃ t, read_tx d = Ok t) ∧ ∀ t, ∃ d', commit_tx d t = Ok d'.

Lemma engine_snapshot_run h bh r entries d :
  writable d → sort_by fst entries = entries → NoDup entries.*1 →
  Forall (λ p, entry_wf p.1 p.2 ∧ ∃ bs, to_canonical_bytes p.2 = Ok bs) entries →
  compute_utxo_merkle_root (E := StorageError) (leaves_of entries) = Ok r →
  ∃ d', engine_apply_utxo_snapshot (mkUtxoSnapshotDto h bh r entries) d = Ok d' ∧
    stores (UTXOS (contents d')) (list_to_map entries).
Proof.
  intros [[t Ht] HW] HS Hnd HF Hr.
  destruct (insert_entries_run entries (on_utxos (λ _, ∅) t) ∅ stores_empty HF) as (tbl & HI & HS2).
  destruct (HW (filed_utxos tbl (on_utxos (λ _, ∅) t))) as [d' Hd']. exists d'.
  rewrite inserts_map in HS2 by done. rewrite (commit_contents _ _ _ Hd'). split; [|exact HS2].
  unfold engine_apply_utxo_snapshot, writing. rewrite Ht. cbn [obind]. unfold apply_utxo_snapshot_tables.
  cbn [snap_entries snap_utxo_root]. rewrite HS, Hr, sbind_lift_Ok, bool_decide_eq_true_2 by done. cbn [negb].
  by rewrite sbind_smodify, HI.
Qed.

Lemma export_stored (s : Shared) t tip :
  read_tx (disk s) = Ok t → stores (UTXOS t) (utxo_set s) → map_Forall (λ o _, small_index o) (utxo_set s) →
  get_canonical_tip t = Ok tip →
  ∃ r, compute_utxo_root (E := NodeError) (utxo_set s) = Ok r ∧
    reading export_utxo_snapshot (disk s) =
      Ok (mkUtxoSnapshotDto (default (ZERO, 0) tip).2 (default (ZERO, 0) tip).1 r (sort_by fst (map_to_list (utxo_set s)))).
Proof.
  intros Ht HS Hsm Htip. destruct (merkle_root_total (E := StorageError) (leaves_of (sort_by fst (map_to_list (utxo_set s))))) as [r Hr].
  exists r. split.
  - rewrite compute_root_sorted. by eapply merkle_root_cast.
  - unfold reading. rewrite Ht. cbn [obind]. unfold export_utxo_snapshot. rewrite Htip. cbn [obind].
    rewrite (utxo_entries_sorted _ _ HS Hsm). cbn [obind]. rewrite Hr. cbn [obind]. by destruct (default (ZERO, 0) tip).
Qed.
End transfer.

(** C24: A set of unspent outputs moves from one node to another. The sender
    holds it, in memory and on disk, with indices below 256; the chunks of its
    export, of any size, are as many as it announces; put together and applied,
    under the hash it announces, on a node that has that block with the root of
    the set, they succeed, and the receiver holds the same outpoints with the
    same outputs, in memory and on disk, with the same root. *)
Theorem snapshot_transfer {B3 : Blake3} {ED : Ed25519} {BC : Bincode} {WM : Wasmi} {PC : Payload TxContext} {R : Redb}
    {RL : RedbLaws} (s1 s2 : Shared (BS := StorageEngine)) (t1 : Tables) (bh root : Hash) (h k : N) (b : Block)
    (Hread : read_tx (disk s1) = Ok t1) (Hstores : stores (UTXOS t1) (utxo_set s1))
    (Hsmall : map_Forall (λ o _, small_index o) (utxo_set s1)) (Htip : get_canonical_tip t1 = Ok (Some (bh, h)))
    (Hsize : N.of_nat (size (utxo_set s1)) < MOD32) (Hk : k < MOD32)
    (Hroot : compute_utxo_root (E := NodeError) (utxo_set s1) = Ok root)
    (Hblock : stored_block bh (disk s2) = Ok (Some b)) (Hbroot : utxo_root (header b) = root) (Hwrite : writable (disk s2)) :
  ∃ total chunks s2', 
    Forall2 (λ i chunk, export_snapshot_chunk [] (N.of_nat i) k s1 = Ok (hash_display bh, N.of_nat i, total, chunk))
      (seq 0 (N.to_nat total)) chunks ∧
    apply_snapshot (hash_display bh) (mjoin chunks) s2 = (s2', Ok (N.of_nat (size (utxo_set s1)))) ∧
    utxo_set s2' = transferred <$> utxo_set s1 ∧ compute_utxo_root (E := NodeError) (utxo_set s2') = Ok root ∧
    stores (UTXOS (contents (disk s2'))) (utxo_set s2') ∧ chain_tree s2' = chain_tree s2 ∧ mempool s2' = Mempool_new.
Proof.
  destruct (export_stored s1 t1 _ Hread Hstores Hsmall Htip) as (r & Hr & HX). assert (r = root) as -> by congruence.
  cbn [default fst snd] in HX. set (entries := sort_by fst (map_to_list (utxo_set s1))) in *.
  set (snap := mkUtxoSnapshotDto h bh root entries) in *.
  assert (HP : entries ≡ₚ map_to_list (utxo_set s1)) by apply sort_by_perm.
  assert (HL : length entries = size (utxo_set s1)) by by rewrite HP, length_map_to_list.
  set (out := (λ p : OutPoint * UtxoEntry, (p.1, transferred p.2)) <$> entries).
  assert (HF : Forall (λ p, entry_wf p.1 p.2 ∧ ∃ bs, to_canonical_bytes p.2 = Ok bs) out).
  { apply Forall_fmap, Forall_forall. intros [o e] Hin. cbn. apply transferred_fits. rewrite HP in Hin.
    apply elem_of_map_to_list in Hin. destruct (proj1 Hstores o e Hin) as (Hw & bs & Hbs & _). split; [done|by exists bs]. }
  assert (Hnd : NoDup out.*1).
  { unfold out. rewrite <- list_fmap_compose. change (NoDup entries.*1). rewrite HP. apply NoDup_fst_map_to_list. }
  assert (HS : sort_by fst out = out) by apply transferred_sorted.
  assert (HR : compute_utxo_merkle_root (E := StorageError) (leaves_of out) = Ok root).
  { unfold out. rewrite leaves_of_transferred. apply (merkle_root_cast (E := NodeError)). exact Hr. }
  destruct (engine_snapshot_run (from_option height 0 (nodes (chain_tree s2) !! bh)) bh root out (disk s2) Hwrite HS Hnd HF HR)
    as (d' & Hd & HSt).
  assert (HA : accepted (hash_display bh) (wire_entry <$> entries) s2 out bh root (Some b) (from_option height 0 (nodes (chain_tree s2) !! bh)) d').
  { split; [by destruct (hex_roundtrip [] bh) as (_ & _ & ? & _)|apply read_wire_entries| |exact Hblock| |by rewrite HS].
    - rewrite HS. by eapply merkle_root_cast.
    - unfold snapshot_height. by rewrite Hbroot, bool_decide_eq_true_2. }
  assert (HM : list_to_map out = transferred <$> utxo_set s1) by apply transferred_map.
  exists (snapshot_chunk snap [] 0 k).1.2, ((λ i, (snapshot_chunk snap [] (N.of_nat i) k).2) <$> seq 0 (N.to_nat (snapshot_chunk snap [] 0 k).1.2)).
  exists (mkShared (BS := StorageEngine) (chain_tree s2) (list_to_map out) Mempool_new d'). split.
  { apply Forall2_fmap_r, Forall2_same_length_lookup_2; [done|]. intros i x y Hx Hy. rewrite Hx in Hy. injection Hy as <-.
    unfold export_snapshot_chunk. rewrite HX. cbn [map_err obind]. done. }
  rewrite (chunks_complete snap [] k); [|cbn [snap_entries snap]; by rewrite HL|done].
  change (snap_entries snap) with entries.
  split; [rewrite (apply_snapshot_done _ _ _ _ _ _ _ _ _ HA Hnd); by rewrite length_fmap, HL|].
  cbn [utxo_set disk chain_tree mempool]. split; [exact HM|]. split; [|done].
  apply leaves_of_sorted; [done|]. exact (ac_root _ _ _ _ _ _ _ _ _ HA).
Qed.

Section snapshot_witness.
#[local] Existing Instances toy_blake3 toy_ed25519 toy_bincode toy_redb toy_redb_laws.
#[local] Instance toy_wasm' : Wasmi := toy_wasmi toy_contract.
#[local] Existing Instances toy_payload_context NodeBlockVerifier.

Definition toy_name : list byte := hash_display (block_id toy_b1).
Definition toy_wires : list UtxoWireEntryDto := wire_entry <$> map_to_list (utxo_set toy_grown).
Definition toy_applied : Shared (BS := StorageEngine) * outcome NodeError N := apply_snapshot toy_name toy_wires toy_grown.

Lemma apply_snapshot_spec_witness : chain_tree toy_applied.1 = chain_tree toy_grown.
Proof.
  pose proof (apply_snapshot_spec toy_name toy_wires toy_grown) as H. unfold toy_applied.
  destruct (apply_snapshot toy_name toy_wires toy_grown) as [s r]. exact (proj1 H).
Defined.

Lemma toy_applied_Ok : ∃ s n, apply_snapshot toy_name toy_wires toy_grown = (s, Ok n).
Proof.
  assert (HO : is_Ok_b (apply_snapshot toy_name toy_wires toy_grown).2 = true) by (vm_compute; reflexivity).
  destruct (apply_snapshot toy_name toy_wires toy_grown) as [s r]. cbn [snd] in HO. exists s.
  destruct r as [n|e| |]; [by exists n|discriminate HO..].
Qed.
Lemma toy_coinbase_unspent : ∃ o e, utxo_set toy_grown !! o = Some e ∧ is_coinbase_output e = true.
Proof.
  assert (HE : existsb (λ p, is_coinbase_output p.2) (map_to_list (utxo_set toy_grown)) = true) by (vm_compute; reflexivity).
  apply existsb_exists in HE as ([o e] & Hin & He). exists o, e. split; [|exact He].
  apply elem_of_map_to_list, list_elem_of_In, Hin.
Qed.

Lemma snapshot_leaves_ledger_witness :
  ∃ s', (∃ n, apply_snapshot toy_name toy_wires toy_grown = (s', Ok n)) ∧
    ¬ ∃ path, ledger (nodes (chain_tree s')) (canonical_tip (chain_tree s')) path (utxo_set s').
Proof.
  destruct toy_applied_Ok as (s' & n & E). destruct toy_coinbase_unspent as (o & e & He & Hc).
  destruct (node_life_inv (BS := StorageEngine (R := toy_redb)) toy_genesis 100 toy_genesis_fits (0 + 1) toy_grown toy_life ltac:(done))
    as [HI _].
  exists s'. split; [exists n; exact E|].
  exact (proj2 (snapshot_leaves_ledger _ _ toy_name toy_wires toy_grown s' n o e (ni_chain _ _ _ HI) He (or_introl Hc) E)).
Defined.

Definition toy_sender : Shared (BS := StorageEngine (R := toy_redb)) :=
  mkShared (BS := StorageEngine (R := toy_redb)) toy_tree (toy_after 1 (transactions toy_b1) toy_s0) Mempool_new toy_tables1.
Lemma toy_block_stored : stored_block (BlockStore := StorageEngine (R := toy_redb)) (block_id toy_b1) toy_tables1 = Ok (Some toy_b1).
Proof.
  assert (HB : match stored_block (BlockStore := StorageEngine (R := toy_redb)) (block_id toy_b1) toy_tables1 with
               | Ok (Some b) => bool_decide (b = toy_b1) | _ => false end = true) by (vm_compute; reflexivity).
  destruct (stored_block _ _) as [[b|]|e| |]; [|discriminate HB..]. by apply bool_decide_eq_true_1 in HB as ->.
Qed.
Lemma toy_sender_root : compute_utxo_root (E := NodeError) (utxo_set toy_sender) = Ok (utxo_root (header toy_b1)).
Proof.
  destruct (compute_utxo_root_total (E := NodeError) (utxo_set toy_sender)) as [r Hr].
  assert (HB : match compute_utxo_root (E := NodeError) (utxo_set toy_sender) with
               | Ok r => bool_decide (r = utxo_root (header toy_b1)) | _ => false end = true) by (vm_compute; reflexivity).
  rewrite Hr in HB |- *. by apply bool_decide_eq_true_1 in HB as ->.
Qed.

Lemma snapshot_transfer_witness :
  ∃ chunks s2', apply_snapshot toy_name (mjoin chunks) toy_sender = (s2', Ok (N.of_nat (size (utxo_set toy_sender)))) ∧
    utxo_set s2' = transferred <$> utxo_set toy_sender.
Proof.
  destruct toy_holds1 as (H1 & _ & H3).
  destruct (snapshot_transfer toy_sender toy_sender toy_tables1 (block_id toy_b1) (utxo_root (header toy_b1)) 1 1 toy_b1
    ltac:(reflexivity) (ho_stores _ _ _ H1)
    ltac:(apply map_Forall_to_list, Forall_forall; intros p; revert p; apply Forall_forall; vm_compute; repeat constructor) H3
    ltac:(vm_compute; reflexivity) ltac:(reflexivity) toy_sender_root toy_block_stored ltac:(reflexivity)
    (conj (ex_intro _ toy_tables1 eq_refl) (λ t, ex_intro _ t eq_refl))) as (total & chunks & s2' & _ & HA & HU & _).
  exists chunks, s2'. split; [exact HA|exact HU].
Defined.
End snapshot_witness.
