(* ===== verification/Passbook.v ===== *)
(** * The passbook

    [apps/scytale-node/src/passbook.rs]: the ledger as an account sees it. A
    passbook has the locks and addresses of a user; from the unspent outputs, the
    address index and the pool of a node it computes balances, a journal of
    numbered entries, a statement with Merkle proofs that can be checked away
    from the node, and the history of an output. The node is one state of
    [Shared] on the storage engine: the model takes all the queries of an
    operation from the same state. *)

From S2P Require Import Prelude Bytes Primitives Address Types Codec Transaction Utxo Merkle Genesis.
From S2P Require Import Words Target Work Tables Storage StorageSpec Store Stack Script Authorization Mempool MempoolInv.
From S2P Require Import StorageTyped MempoolSpec Consensus Chain Vm VmAdapter Mining ChainReplay Node Recovery NodeQuery.
Local Open Scope N_scope.
Local Open Scope scy_scope.

(** ** Data *)

Inductive PassbookAsset := Native | Scy20 (token_id : Hash).
Inductive PassbookAction :=
| Received
| Sent
| MiningReward
| Change
| Scy20Mint
| Scy20Transfer
| Scy20Burn
| ContractInteraction (datum_hash : option Hash)
| VaultDeposit (timelock_until : N)
| VaultWithdrawal.
Inductive EntryStatus := Confirmed (confirmations : N) | Pending | Reorganized.

Record PassbookEntry := mkPassbookEntry {
  entry_number : N;
  entry_time : N;
  asset : PassbookAsset;
  action : PassbookAction;
  amount_quanta : N;
  fee_quanta : N;
  status : EntryStatus;
  entry_txid : Hash;
  entry_outpoint : option OutPoint;
  entry_height : option N;
  entry_datum_hash : option Hash
}.
Definition with_number (n : N) (e : PassbookEntry) : PassbookEntry :=
  mkPassbookEntry n (entry_time e) (asset e) (action e) (amount_quanta e) (fee_quanta e) (status e) (entry_txid e)
    (entry_outpoint e) (entry_height e) (entry_datum_hash e).

Record PassbookView := mkPassbookView {
  view_native : N;
  view_tokens : gmap Hash N;
  view_pending : Z;
  view_entries : list PassbookEntry
}.

Record PassbookStatement := mkPassbookStatement {
  account : Address;
  generated_at_height : N;
  block_hash : Hash;
  st_utxo_root : Hash;
  confirmed_native_balance_quanta : N;
  token_balances_of : gmap Hash N;
  st_entries : list PassbookEntry;
  active_utxo_proofs : list UtxoMerkleProof
}.

Inductive ProvenanceCategory := ProvCoinbase | ProvGenesis | ProvTransfer.
Record ProvenanceStep := mkProvenanceStep {
  prov_txid : Hash;
  prov_height : N;
  category : ProvenanceCategory;
  prov_value : N
}.

Inductive NodeState := Starting | Initializing | Recovering | NodeSyncing | Ready | Running | Stopping | Stopped | Failed.
Inductive LookupReason := BalanceOverflow | InflowOverflow | OutflowOverflow | DeltaOverflow | NoProof (e : CoreError).
Inductive PassbookError :=
| NodeNotReady (s : NodeState)
| PassbookNode (e : NodeError)
| PassbookStorage (e : StorageError)
| UtxoLookupFailed (reason : LookupReason)
| TransactionNotFound (txid : Hash)
| ProvenanceLineageBroken (o : OutPoint)
| StaleLedgerState.

(** The datums the passbook knows. *)
Record Scy20DatumPayload := mkScy20DatumPayload { pay_token_id : Hash; pay_owner : Hash; pay_amount : N }.
Record VaultDatumPayload := mkVaultDatumPayload {
  vault_owner_pubkey : Hash;
  vault_unlock_time : N;
  vault_emergency_key : Hash;
  vault_penalty_fee : N
}.
Inductive ParsedContractCondition :=
| ParsedScy20 (d : Scy20DatumPayload)
| ParsedVault (d : VaultDatumPayload)
| GenericScript (datum_hash : option Hash)
| Standard.

(** ** Lists in Rust *)

Definition enumerate {A} (l : list A) : list (nat * A) := zip (seq 0 (length l)) l.
(** The stable [sort_by_key], by the order of the keys. *)
Fixpoint insert_sorted {A} (leb : A → A → bool) (x : A) (l : list A) : list A :=
  match l with
  | [] => [x]
  | y :: l => if leb x y then x :: y :: l else y :: insert_sorted leb x l
  end.
Definition sort_stable {A} (leb : A → A → bool) (l : list A) : list A := foldr (insert_sorted leb) [] l.
(** [l.iter().any(..)] with an effect. *)
Fixpoint oany {E A} (f : A → outcome E bool) (l : list A) : outcome E bool :=
  match l with
  | [] => Ok false
  | x :: l => let? b := f x in if (b : bool) then Ok true else oany f l
  end.
(** [l.sum()]. *)
Definition wrapping_sum (l : list N) : N := foldl (λ acc v, wrap64 (acc + v)) 0 l.

Section passbook.
Context {B3 : Blake3} {ED : Ed25519} {BC : Bincode} {WM : Wasmi} {PC : Payload TxContext} {R : Redb}.
Context {PS : Payload Scy20DatumPayload} {PV : Payload VaultDatumPayload}.

(** ** Queries of the node *)

Definition lookup_transaction (txid : Hash) (s : Shared) : outcome NodeError (option Transaction) :=
  map_err NodeStorage (reading (λ t, get_transaction t txid) (disk s)).
Definition canonical_transaction_height (txid : Hash) (s : Shared) : outcome NodeError (option N) :=
  map_err NodeStorage (reading (λ t, get_transaction_height t txid) (disk s)).

(** The blocks at these heights, each with its height. *)
Definition blocks_at (heights : list N) (s : Shared) : outcome NodeError (list (Block * N)) :=
  omap_list (λ h,
    let? found := map_err NodeStorage (reading (λ t, get_block_by_height t h) (disk s)) in
    let? b := ok_or found (InconsistentState (MissingHeight h)) in
    Ok (b, h)) heights.
Definition query_canonical_range (start_height limit : N) (ascending : bool) (s : Shared) : outcome NodeError (list (Block * N)) :=
  if limit =? 0 then Ok []
  else if 100 <? limit then Err (InconsistentState RangeLimit)
  else
    let? tip := map_err NodeStorage (reading get_canonical_tip (disk s)) in
    let? (_, tip_height) := ok_or tip (InconsistentState NoCanonicalTip) in
    if tip_height <? start_height then Ok []
    else if ascending then
      let end_height := N.min (saturating_add start_height (limit - 1)) tip_height in
      blocks_at ((λ i, start_height + N.of_nat i) <$> seq 0 (N.to_nat (end_height + 1 - start_height))) s
    else
      let count := N.min limit (wrap64 (start_height + 1)) in
      blocks_at ((λ i, start_height - N.of_nat i) <$> seq 0 (N.to_nat count)) s.

Definition query_utxo_set (s : Shared) : UtxoSet := utxo_set s.
Definition query_mempool (s : Shared) : list MempoolEntry := get_entries_sorted_by_fee_rate (mempool s).

(** ** Locks *)

Definition parse_locking_condition (script : list byte) : ParsedContractCondition :=
  match from_locking_condition script with
  | Some (PublicKey _) => Standard
  | Some (Transaction.Script _ datum) =>
      match decode_payload (A := Scy20DatumPayload) datum with
      | Some scy20 => ParsedScy20 scy20
      | None =>
          match decode_payload (A := VaultDatumPayload) datum with
          | Some vault => ParsedVault vault
          | None => GenericScript (if bool_decide (datum = []) then None else Some (blake3 datum))
          end
      end
  | None => Standard
  end.
Definition is_token (script : list byte) : bool :=
  match parse_locking_condition script with ParsedScy20 _ => true | _ => false end.

Record Passbook := mkPassbook { owned_locks : list (list byte); addresses : list Address }.

(** [addresses.push(addr)] unless it is there. *)
Definition push_address (lock : list byte) (addresses : list Address) : list Address :=
  match extract_address_from_locking_condition lock with
  | Some hash => let addr := Address_new hash in if bool_decide (addr ∈ addresses) then addresses else addresses ++ [addr]
  | None => addresses
  end.
Definition Passbook_new (owned_locks : list (list byte)) : Passbook :=
  mkPassbook owned_locks (foldl (λ addresses lock, push_address lock addresses) [] owned_locks).
Definition from_address (a : Address) : Passbook := mkPassbook [hash_bytes (address_hash a)] [a].
Definition add_owned_lock (lock : list byte) (p : Passbook) : Passbook :=
  if bool_decide (lock ∈ owned_locks p) then p
  else mkPassbook (owned_locks p ++ [lock]) (push_address lock (addresses p)).

Definition owns (p : Passbook) (lock : list byte) : bool :=
  bool_decide (lock ∈ owned_locks p) ||
  match extract_address_from_locking_condition lock with
  | Some h => existsb (λ a, bool_decide (address_hash a = h)) (addresses p)
  | None => false
  end.

(** ** Balances *)

(** The step of the sum, which runs over the values in the order the [HashMap]
    iterates. *)
Definition add_native (p : Passbook) (total : N) (entry : UtxoEntry) : outcome PassbookError N :=
  let lock := locking_condition (output entry) in
  if owns p lock then
    match parse_locking_condition lock with
    | ParsedScy20 _ => Ok total
    | _ => ok_or (checked_add total (value (output entry))) (UtxoLookupFailed BalanceOverflow)
    end
  else Ok total.
Definition sum_native_in (p : Passbook) (values : list UtxoEntry) : outcome PassbookError N := ofold (add_native p) values 0.
Definition sum_native_owned (p : Passbook) (s : UtxoSet) : outcome PassbookError N := sum_native_in p (map_to_list s).*2.

Definition add_token (balances : gmap Hash N) (d : Scy20DatumPayload) : gmap Hash N :=
  let current := default 0 (balances !! pay_token_id d) in
  <[pay_token_id d := default U64_MAX (checked_add current (wrap64 (pay_amount d)))]> balances.
Definition sum_token_in (p : Passbook) (values : list UtxoEntry) : gmap Hash N :=
  foldl (λ balances entry,
    let lock := locking_condition (output entry) in
    if owns p lock then
      match parse_locking_condition lock with
      | ParsedScy20 d => add_token balances d
      | _ => balances
      end
    else balances) ∅ values.
Definition sum_token_owned (p : Passbook) (s : UtxoSet) : outcome PassbookError (gmap Hash N) :=
  Ok (sum_token_in p (map_to_list s).*2).

Definition inflow_of (p : Passbook) (outs : list TxOut) (inflow : N) : outcome PassbookError N :=
  ofold (λ inflow out,
    if owns p (locking_condition out) then
      if is_token (locking_condition out) then Ok inflow
      else ok_or (checked_add inflow (value out)) (UtxoLookupFailed InflowOverflow)
    else Ok inflow) outs inflow.
Definition outflow_of (p : Passbook) (utxos : UtxoSet) (ins : list TxIn) (outflow : N) : outcome PassbookError N :=
  ofold (λ outflow input,
    match utxos !! previous_output input with
    | Some spent =>
        let lock := locking_condition (output spent) in
        if owns p lock then
          if is_token lock then Ok outflow
          else ok_or (checked_add outflow (value (output spent))) (UtxoLookupFailed OutflowOverflow)
        else Ok outflow
    | None => Ok outflow
    end) ins outflow.
Definition pending_delta (p : Passbook) (utxos : UtxoSet) (pending : list MempoolEntry) : outcome PassbookError Z :=
  let? (inflow, outflow) := ofold (λ '(inflow, outflow) entry,
    let? inflow := inflow_of p (outputs (e_transaction entry)) inflow in
    let? outflow := outflow_of p utxos (inputs (e_transaction entry)) outflow in
    Ok (inflow, outflow)) pending (0, 0) in
  let delta := (Z.of_N inflow - Z.of_N outflow)%Z in
  if ((2 ^ 63 - 1 <? delta) || (delta <? - 2 ^ 63))%Z then Err (UtxoLookupFailed DeltaOverflow) else Ok delta.

Definition require_ready (state : NodeState) : outcome PassbookError unit :=
  match state with Ready | Running => Ok tt | other => Err (NodeNotReady other) end.
Definition confirmed_balance_quanta (p : Passbook) (state : NodeState) (s : Shared) : outcome PassbookError N :=
  let? _ := require_ready state in sum_native_owned p (query_utxo_set s).
Definition token_balances (p : Passbook) (state : NodeState) (s : Shared) : outcome PassbookError (gmap Hash N) :=
  let? _ := require_ready state in sum_token_owned p (query_utxo_set s).
Definition pending_balance_delta (p : Passbook) (state : NodeState) (s : Shared) : outcome PassbookError Z :=
  let? _ := require_ready state in pending_delta p (query_utxo_set s) (query_mempool s).

(** ** The journal *)

(** An entry without its number. *)
Definition entry_of (time : N) (what : PassbookAsset * PassbookAction * N * option Hash) (fee : N) (st : EntryStatus) (txid : Hash)
    (op : option OutPoint) (h : option N) : PassbookEntry :=
  let '(asset, action, amount, datum_hash) := what in mkPassbookEntry 0 time asset action amount fee st txid op h datum_hash.

(** The classification of an output of the user; [token] and [plain] are the
    actions for a token and for a standard lock. *)
Definition classify (out : TxOut) (token plain : PassbookAction) : PassbookAsset * PassbookAction * N * option Hash :=
  match parse_locking_condition (locking_condition out) with
  | ParsedScy20 d => (Scy20 (pay_token_id d), token, wrap64 (pay_amount d), None)
  | ParsedVault d =>
      (Native, VaultDeposit (vault_unlock_time d), value out, Some (blake3 (default [] (encode_payload d))))
  | GenericScript datum_hash => (Native, ContractInteraction datum_hash, value out, datum_hash)
  | Standard => (Native, plain, value out, None)
  end.

(** The outputs of the user, with their indices. *)
Definition user_outputs (p : Passbook) (tx : Transaction) : list (nat * TxOut) :=
  filter (λ io, owns p (locking_condition io.2) = true) (enumerate (outputs tx)).

(** The output an input spends, when its transaction can be read. *)
Definition prev_out (s : Shared) (i : TxIn) : outcome NodeError (option TxOut) :=
  let? found := ok (lookup_transaction (op_txid (previous_output i)) s) in
  Ok (prev_tx ← mjoin found; outputs prev_tx !! N.to_nat (op_index (previous_output i))).
Definition owned_out (p : Passbook) (o : option TxOut) : bool :=
  match o with Some out => owns p (locking_condition out) | None => false end.

Definition project_record (p : Passbook) (s : Shared) (tip_height height : N) (record : AddressTxRecord) (tx : Transaction) :
    outcome PassbookError (list PassbookEntry) :=
  let txid := r_txid record in
  let? range := map_err PassbookNode (query_canonical_range height 1 true s) in
  let time := from_option (λ bh : Block * N, timestamp (header bh.1)) 0 (head range) in
  let st := Confirmed (saturating_add (saturating_sub tip_height height) 1) in
  let outs := user_outputs p tx in
  let? owns_input :=
    if r_is_input record then Ok true
    else map_err PassbookNode (oany (λ i, let? o := prev_out s i in Ok (owned_out p o)) (inputs tx)) in
  let total_output := match total_output_quanta tx with Ok v => v | _ => 0 end in
  let? user_input_val :=
    if (owns_input : bool) then
      let? prevs := map_err PassbookNode (omap_list (prev_out s) (inputs tx)) in
      Ok (wrapping_sum (omap (λ o : option TxOut, out ← o; if owns p (locking_condition out) then Some (value out) else None) prevs))
    else Ok 0 in
  let fee := if (owns_input : bool) then saturating_sub user_input_val total_output else 0 in
  match outs with
  | [] =>
      if (owns_input : bool) then
        let '(asset, action) := match r_token_id record with
                                | Some tok => (Scy20 tok, Scy20Transfer)
                                | None => (Native, Sent)
                                end in
        let amount := if 0 <? r_value_quanta record then r_value_quanta record else user_input_val in
        Ok [entry_of time (asset, action, amount, None) fee st txid None (Some height)]
      else Ok []
  | _ =>
      Ok ((λ io : nat * TxOut,
        let token := if is_coinbase tx then Scy20Mint else Scy20Transfer in
        let plain := if is_coinbase tx then MiningReward else if (owns_input : bool) then Change else Received in
        entry_of time (classify io.2 token plain) fee st txid
          (Some (mkOutPoint txid (wrap32 (N.of_nat io.1)))) (Some height)) <$> outs)
  end.

Fixpoint project_records (p : Passbook) (s : Shared) (tip_height : N) (records : list (N * AddressTxRecord)) (processed : gset Hash) :
    outcome PassbookError (list PassbookEntry) :=
  match records with
  | [] => Ok []
  | (height, record) :: records =>
      if bool_decide (r_txid record ∈ processed) then project_records p s tip_height records processed
      else
        let processed := {[r_txid record]} ∪ processed in
        let? found := map_err PassbookNode (lookup_transaction (r_txid record) s) in
        match found with
        | None => project_records p s tip_height records processed
        | Some tx =>
            let? entries := project_record p s tip_height height record tx in
            let? more := project_records p s tip_height records processed in
            Ok (entries ++ more)
        end
  end.

Definition project_confirmed_history_via_index (p : Passbook) (s : Shared) (tip_height : N) : outcome PassbookError (list PassbookEntry) :=
  let? records := omap_list (λ a, map_err PassbookStorage
    (reading (λ t, get_address_transactions_with_height t (address_hash a) 0 tip_height 100) (disk s))) (addresses p) in
  project_records p s tip_height (sort_stable (λ a b, a.1 <=? b.1) (mjoin records)) ∅.

Definition project_pending (p : Passbook) (utxos : UtxoSet) (entry : MempoolEntry) : list PassbookEntry :=
  let tx := e_transaction entry in
  let owns_input := existsb (λ i, match utxos !! previous_output i with
                                  | Some spent => owns p (locking_condition (output spent))
                                  | None => false
                                  end) (inputs tx) in
  match user_outputs p tx with
  | [] =>
      if owns_input then
        let total_output := match total_output_quanta tx with Ok v => v | _ => 0 end in
        [entry_of (e_added_time entry) (Native, Sent, saturating_add (e_fee entry) total_output, None) (e_fee entry) Pending
           (e_txid entry) None None]
      else []
  | outs =>
      (λ io : nat * TxOut,
        entry_of (e_added_time entry)
          (classify io.2 (if owns_input then Scy20Transfer else Scy20Mint) (if owns_input then Change else Received))
          (e_fee entry) Pending (e_txid entry) (Some (mkOutPoint (e_txid entry) (wrap32 (N.of_nat io.1)))) None) <$> outs
  end.
Definition project_pending_entries (p : Passbook) (utxos : UtxoSet) (pending : list MempoolEntry) : list PassbookEntry :=
  pending ≫= project_pending p utxos.

(** [PassbookEntry::idx]. *)
Definition idx (e : PassbookEntry) : bool * N := match entry_height e with Some h => (false, h) | None => (true, 0) end.
(** The derived orders on the key [(block_height, idx)]: [None] comes before
    [Some], [false] before [true]. *)
Definition idx_leb (a b : bool * N) : bool :=
  match a.1, b.1 with
  | false, true => true
  | true, false => false
  | _, _ => a.2 <=? b.2
  end.
Definition journal_leb (a b : PassbookEntry) : bool :=
  match entry_height a, entry_height b with
  | None, Some _ => true
  | Some _, None => false
  | None, None => idx_leb (idx a) (idx b)
  | Some x, Some y => if x =? y then idx_leb (idx a) (idx b) else x <? y
  end.
Definition assign_entry_numbers (entries : list PassbookEntry) : list PassbookEntry :=
  imap (λ i e, with_number (N.of_nat (i + 1)) e) (sort_stable journal_leb entries).

Definition view (p : Passbook) (state : NodeState) (s : Shared) : outcome PassbookError PassbookView :=
  let? _ := require_ready state in
  let? confirmed_native := sum_native_owned p (query_utxo_set s) in
  let? tokens := sum_token_owned p (query_utxo_set s) in
  let tip_height := canonical_height (chain_tree s) in
  let pending := query_mempool s in
  let? confirmed := project_confirmed_history_via_index p s tip_height in
  let entries := assign_entry_numbers (confirmed ++ project_pending_entries p (query_utxo_set s) pending) in
  let? pending_native := pending_delta p (query_utxo_set s) pending in
  Ok (mkPassbookView confirmed_native tokens pending_native entries).

(** ** Statements *)

Definition verify_loop (root : Hash) (proofs : list UtxoMerkleProof) : option N :=
  foldl (λ acc proof,
    sum ← acc; if merkle_verify proof root then checked_add sum (value_quanta proof) else None) (Some 0) proofs.
Definition verify_integrity (st : PassbookStatement) : bool :=
  match verify_loop (st_utxo_root st) (active_utxo_proofs st) with
  | Some sum => sum =? confirmed_native_balance_quanta st
  | None => false
  end.

(** Whether the statement of [a] has a proof for an output with this lock. *)
Definition in_statement (p : Passbook) (a : Address) (lock : list byte) : bool :=
  if is_token lock then false
  else
    match extract_address_from_locking_condition lock with
    | Some h => bool_decide (Address_new h = a)
    | None => owns p lock && bool_decide (a ∈ addresses p)
    end.
Definition user_outpoints (p : Passbook) (a : Address) (entries : list (OutPoint * UtxoEntry)) : list OutPoint :=
  sort_by Datatypes.id
    (filter (λ oe, in_statement p a (locking_condition (output oe.2)) = true) entries).*1.

Definition generate_statement (p : Passbook) (state : NodeState) (a : Address) (s : Shared) : outcome PassbookError PassbookStatement :=
  let? _ := require_ready state in
  let height := canonical_height (chain_tree s) in
  let tip_hash := canonical_tip (chain_tree s) in
  let? found := map_err PassbookStorage (stored_block tip_hash (disk s)) in
  let? block := ok_or found StaleLedgerState in
  let? hash := header_hash (header block) in
  let root := utxo_root (header block) in
  let all_utxos := query_utxo_set s in
  let entries := to_entries_with_outpoints all_utxos in
  let? proofs := omap_list (λ o, map_err (λ e, UtxoLookupFailed (NoProof e)) (generate_utxo_merkle_proof entries o))
                   (user_outpoints p a (map_to_list all_utxos)) in
  let? v := view p state s in
  Ok (mkPassbookStatement a height hash root (view_native v) (view_tokens v) (view_entries v) proofs).

(** ** Provenance *)

Fixpoint provenance_loop (fuel : nat) (s : Shared) (cur : OutPoint) (rev : list ProvenanceStep) :
    outcome PassbookError (list ProvenanceStep) :=
  match fuel with
  | O => Diverge
  | S fuel =>
      let? found := map_err PassbookNode (lookup_transaction (op_txid cur) s) in
      let? tx := ok_or found (TransactionNotFound (op_txid cur)) in
      let? height := map_err PassbookNode (canonical_transaction_height (op_txid cur) s) in
      let height := default 0 height in
      let v := from_option value 0 (outputs tx !! N.to_nat (op_index cur)) in
      if is_coinbase tx || (height =? 0) then
        Ok (rev ++ [mkProvenanceStep (op_txid cur) height (if height =? 0 then ProvGenesis else ProvCoinbase) v])
      else
        let rev := rev ++ [mkProvenanceStep (op_txid cur) height ProvTransfer v] in
        match previous_output <$> head (inputs tx) with
        | Some op =>
            if is_null op then Ok rev
            else if bool_decide (op = cur) then Err (ProvenanceLineageBroken cur)
            else
              let? next := map_err PassbookNode (lookup_transaction (op_txid op) s) in
              match next with
              | None => Ok rev
              | Some _ => provenance_loop fuel s op rev
              end
        | None => Ok rev
        end
  end.
Definition provenance (fuel : nat) (state : NodeState) (o : OutPoint) (s : Shared) : outcome PassbookError (list ProvenanceStep) :=
  let? _ := require_ready state in
  let? rev := provenance_loop fuel s o [] in
  Ok (reverse rev).
End passbook.

(** ** The stable sort *)

Section sort.
Context {A : Type} (leb : A → A → bool).
Hypotheses (leb_total : ∀ a b, leb a b = false → leb b a = true) (leb_trans : ∀ a b c, leb a b = true → leb b c = true → leb a c = true).

Lemma insert_sorted_perm x l : insert_sorted leb x l ≡ₚ x :: l.
Proof. induction l as [|y l IH]; [done|]. cbn [insert_sorted]. destruct (leb x y); [done|]. rewrite IH. by constructor. Qed.
Lemma sort_stable_perm l : sort_stable leb l ≡ₚ l.
Proof. induction l as [|x l IH]; [done|]. cbn [sort_stable foldr]. by rewrite insert_sorted_perm; constructor. Qed.

Lemma insert_sorted_sorted x l : StronglySorted (λ a b, leb a b = true) l → StronglySorted (λ a b, leb a b = true) (insert_sorted leb x l).
Proof using leb_total leb_trans.
  induction 1 as [|y l Hl IH HF]; [repeat constructor|]. cbn [insert_sorted]. destruct (leb x y) eqn:E.
  - constructor; [by constructor|]. constructor; [done|]. eapply Forall_impl; [exact HF|]. cbn. intros z Hz. by eapply leb_trans.
  - constructor; [exact IH|]. rewrite insert_sorted_perm. constructor; [by apply leb_total|done].
Qed.
Lemma sort_stable_sorted l : StronglySorted (λ a b, leb a b = true) (sort_stable leb l).
Proof using leb_total leb_trans. induction l as [|x l IH]; [constructor|]. by apply insert_sorted_sorted. Qed.

(** What compares equal both ways keeps its order. *)
Lemma insert_sorted_filter (P : A → Prop) `{∀ x, Decision (P x)} x l :
  (∀ a b, P a → P b → leb a b = true) → filter P (insert_sorted leb x l) = filter P (x :: l).
Proof using Type.
  intros HP. induction l as [|y l IH]; [done|]. cbn [insert_sorted]. destruct (leb x y) eqn:E; [done|].
  rewrite !filter_cons, IH, filter_cons. destruct (decide (P x)), (decide (P y)); try done.
  rewrite (HP x y) in E by done. discriminate.
Qed.
Lemma sort_stable_filter (P : A → Prop) `{∀ x, Decision (P x)} l :
  (∀ a b, P a → P b → leb a b = true) → filter P (sort_stable leb l) = filter P l.
Proof using Type.
  intros HP. induction l as [|x l IH]; [done|]. cbn [sort_stable foldr].
  rewrite insert_sorted_filter by done. rewrite !filter_cons. change (foldr _ [] l) with (sort_stable leb l). by rewrite IH.
Qed.
End sort.

(** ** The order of the journal *)

Definition height_leb (a b : option N) : bool :=
  match a, b with None, _ => true | Some _, None => false | Some x, Some y => x <=? y end.
Lemma journal_leb_height a b : journal_leb a b = height_leb (entry_height a) (entry_height b).
Proof.
  unfold journal_leb, height_leb, idx, idx_leb. destruct (entry_height a) as [x|], (entry_height b) as [y|]; try done. cbn [fst snd].
  destruct (N.eqb_spec x y) as [-> |]; [done|]. destruct (N.ltb_spec x y), (N.leb_spec x y); lia || done.
Qed.
Lemma journal_leb_total a b : journal_leb a b = false → journal_leb b a = true.
Proof. rewrite !journal_leb_height. destruct (entry_height a), (entry_height b); cbn; try done. rewrite N.leb_gt, N.leb_le. lia. Qed.
Lemma journal_leb_trans a b c : journal_leb a b = true → journal_leb b c = true → journal_leb a c = true.
Proof.
  rewrite !journal_leb_height. destruct (entry_height a), (entry_height b), (entry_height c); cbn; try done. rewrite !N.leb_le. lia.
Qed.

(** Heights in the order of the journal: those of pending entries first. *)
Lemma heights_sorted (l : list (option N)) :
  StronglySorted (λ a b, height_leb a b = true) l → ∃ k hs, l = replicate k None ++ (Some <$> hs) ∧ StronglySorted N.le hs.
Proof.
  induction 1 as [|a l Hl (k & hs & -> & Hs) HF]; [by exists 0%nat, []; repeat constructor|]. destruct a as [x|].
  - destruct k as [|k]; [|by apply Forall_cons in HF as [? _]]. exists 0%nat, (x :: hs). split; [done|].
    constructor; [done|]. apply Forall_fmap in HF. eapply Forall_impl; [exact HF|]. cbn. intros y. by rewrite N.leb_le.
  - exists (S k), hs. by split.
Qed.

Lemma filter_fmap_length {A B} (f : A → B) (P : B → Prop) `{∀ x, Decision (P x)} l :
  length (filter P (f <$> l)) = length (filter (λ x, P (f x)) l).
Proof. induction l as [|x l IH]; [done|]. cbn [fmap list_fmap]. rewrite !filter_cons. destruct (decide (P (f x))); cbn [length]; auto. Qed.
Lemma numbered_heights entries : entry_height <$> assign_entry_numbers entries = entry_height <$> sort_stable journal_leb entries.
Proof. unfold assign_entry_numbers. rewrite fmap_imap. apply imap_const. Qed.

(** The journal has the entries in the order of their heights, those of one
    height as they came, numbered from one; and the entries that wait in the
    pool, which have no height, come before every confirmed one. *)
Theorem journal_order (entries : list PassbookEntry) :
  assign_entry_numbers entries = imap (λ i e, with_number (N.of_nat (i + 1)) e) (sort_stable journal_leb entries) ∧
  sort_stable journal_leb entries ≡ₚ entries ∧
  (∀ h, filter (λ e, entry_height e = h) (sort_stable journal_leb entries) = filter (λ e, entry_height e = h) entries) ∧
  (∃ hs, entry_height <$> assign_entry_numbers entries =
     replicate (length (filter (λ e, entry_height e = None) entries)) None ++ (Some <$> hs) ∧ StronglySorted N.le hs).
Proof.
  pose proof (sort_stable_perm journal_leb entries) as HP. split; [done|]. split; [exact HP|]. split.
  - intros h. apply sort_stable_filter. intros a b <- E. rewrite journal_leb_height, E. destruct (entry_height a); [|done]. cbn. apply N.leb_refl.
  - rewrite numbered_heights. pose proof (sort_stable_sorted journal_leb journal_leb_total journal_leb_trans entries) as HS.
    destruct (heights_sorted (entry_height <$> sort_stable journal_leb entries)) as (k & hs & E & Hs).
    { clear -HS. induction HS as [|a l Hl IH HF]; [constructor|]. cbn [fmap list_fmap]. constructor; [exact IH|].
      apply Forall_fmap. eapply Forall_impl; [exact HF|]. cbn. intros b. by rewrite journal_leb_height. }
    exists hs. split; [|done]. rewrite E. do 2 f_equal.
    assert (Hk : length (filter (λ h : option N, h = None) (entry_height <$> sort_stable journal_leb entries)) = k).
    { rewrite E, filter_app, length_app. assert (E1 : filter (λ h : option N, h = None) (replicate k None) = replicate k None).
      { clear. induction k as [|k IH]; [done|]. cbn [replicate]. by rewrite filter_cons_True, IH. }
      assert (E2 : filter (λ h : option N, h = None) (Some <$> hs) = []).
      { clear. induction hs as [|x hs IH]; [done|]. cbn [fmap list_fmap]. by rewrite filter_cons_False. }
      rewrite E1, E2, length_replicate. cbn. lia. }
    rewrite <- Hk, filter_fmap_length. symmetry. by apply Permutation_length, filter_Permutation.
Qed.

(** ** Balances *)

Section theorems.
Context {B3 : Blake3} {ED : Ed25519} {BC : Bincode} {WM : Wasmi} {PC : Payload TxContext} {R : Redb} {RL : RedbLaws}.
Context {PS : Payload Scy20DatumPayload} {PV : Payload VaultDatumPayload}.
#[local] Existing Instance NodeBlockVerifier.

Definition native (p : Passbook) (lock : list byte) : bool := owns p lock && negb (is_token lock).
Definition native_total (p : Passbook) (values : list UtxoEntry) : N :=
  foldr (λ e acc, (if native p (locking_condition (output e)) then value (output e) else 0) + acc) 0 values.

Lemma native_total_le p values : native_total p values ≤ foldr (λ e acc, value (output e) + acc) 0 values.
Proof. induction values as [|e l IH]; [done|]. cbn [native_total foldr] in *. fold (native_total p l). destruct (native _ _); lia. Qed.
Lemma native_total_perm p l1 l2 : l1 ≡ₚ l2 → native_total p l1 = native_total p l2.
Proof. induction 1; cbn [native_total foldr] in *; unfold native_total in *; lia. Qed.

Lemma add_native_spec p total e :
  add_native p total e =
    if native p (locking_condition (output e)) then ok_or (checked_add total (value (output e))) (UtxoLookupFailed BalanceOverflow)
    else Ok total.
Proof.
  unfold add_native, native, is_token. destruct (owns _ _); [|done]. by destruct (parse_locking_condition _).
Qed.
Lemma sum_native_from p values : ∀ total, total ≤ U64_MAX →
  ofold (add_native p) values total =
    if total + native_total p values <=? U64_MAX then Ok (total + native_total p values) else Err (UtxoLookupFailed BalanceOverflow).
Proof.
  induction values as [|e values IH]; intros total Ht; cbn [ofold native_total foldr].
  { by rewrite N.add_0_r, (proj2 (N.leb_le _ _) Ht). }
  fold (native_total p values). rewrite add_native_spec. destruct (native p _); cbn [obind]; [|by rewrite IH, N.add_0_l].
  unfold checked_add. destruct (N.leb_spec (total + value (output e)) U64_MAX) as [Hv|Hv]; cbn [ok_or obind].
  - by rewrite IH, N.add_assoc.
  - by destruct (N.leb_spec (total + (value (output e) + native_total p values)) U64_MAX); [lia|].
Qed.
Lemma sum_native_in_spec p values :
  sum_native_in p values = if native_total p values <=? U64_MAX then Ok (native_total p values) else Err (UtxoLookupFailed BalanceOverflow).
Proof. unfold sum_native_in. by rewrite sum_native_from, N.add_0_l by lia. Qed.

(** The genesis block is worth at most the genesis allocation. *)
Definition genesis_within (gb : Block) : Prop :=
  ∀ u fees, apply_block (transactions gb) 0 ∅ = (u, Ok fees) → set_value u ≤ TOTAL_GENESIS_QUANTA.

Lemma life_supply gb depth n (s : Shared) :
  genesis_fits gb → node_life gb depth n s → n < U64_MAX → genesis_within gb → set_value (utxo_set s) ≤ MAX_SUPPLY.
Proof.
  intros Hgb Hlife Hn HG. destruct (node_life_inv gb depth Hgb n s Hlife Hn) as [HI _].
  pose proof (inv_nodes _ _ _ (ni_chain _ _ _ HI)) as Hwf. destruct (inv_tip _ _ _ (ni_chain _ _ _ HI)) as [path HL].
  cbn [chain_of fst snd] in *. destruct (ledger_lookup _ _ _ _ HL) as (x & _ & Hx & _).
  destruct (ledger_root _ _ Hwf _ _ _ HL) as [rest ->]. destruct (ledger_prefix _ _ Hwf _ [] (genesis_node gb) rest _ HL) as [v Hv].
  assert (HA : ∃ fees, apply_block (transactions gb) 0 ∅ = (v, Ok fees)).
  { cbn [app] in Hv. inversion Hv as [h1 n1 v1 f1 Hn1 Hh1 HA1 Eh E Eu|h1 n1 q1 v0 v1 f1 Hn1 Hh1 HL1 HA1 Eh E Eu]; subst.
    - by exists f1.
    - exfalso. apply ledger_lookup in HL1 as (? & q & _ & ->). by destruct q as [|? [|]]. }
  destruct HA as [fees HA]. pose proof (ledger_value _ _ Hwf _ _ _ _ v fees HL Hx HA) as HV.
  pose proof (emission_bound (S (N.to_nat (height x)))) as HE. specialize (HG _ _ HA).
  assert (TOTAL_GENESIS_QUANTA + 33000000 * COIN = MAX_SUPPLY) by (vm_compute; done). lia.
Qed.

(** The confirmed balance of any passbook on a node in its life is computed,
    whatever the order of the hash map: it is the value of the unspent outputs
    the passbook owns, tokens apart, and never more than the supply. *)
Theorem confirmed_balance_spec (gb : Block) (depth n : N) (s : Shared) (p : Passbook) (values : list UtxoEntry)
    (Hgb : genesis_fits gb) (Hlife : node_life gb depth n s) (Hn : n < U64_MAX) (HG : genesis_within gb)
    (Hvalues : values ≡ₚ (map_to_list (utxo_set s)).*2) :
  confirmed_balance_quanta p Running s = Ok (native_total p values) ∧ sum_native_in p values = Ok (native_total p values) ∧
  native_total p values ≤ MAX_SUPPLY.
Proof.
  pose proof (life_supply gb depth n s Hgb Hlife Hn HG) as HS. rewrite set_value_foldr in HS.
  pose proof (native_total_le p (map_to_list (utxo_set s)).*2) as HL. rewrite (native_total_perm p _ _ Hvalues).
  assert (HM : MAX_SUPPLY ≤ U64_MAX) by (vm_compute; discriminate). unfold confirmed_balance_quanta, query_utxo_set, sum_native_owned.
  cbn [require_ready obind]. rewrite !sum_native_in_spec, (native_total_perm p _ _ Hvalues), (proj2 (N.leb_le _ _)) by lia.
  split; [done|]. split; [done|lia].
Qed.

(** ** Statements *)

Definition proofs_total (proofs : list UtxoMerkleProof) : N := foldr (λ q acc, value_quanta q + acc) 0 proofs.

Lemma verify_loop_from root proofs : ∀ sum, sum ≤ U64_MAX →
  foldl (λ acc proof, sum ← acc; if merkle_verify proof root then checked_add sum (value_quanta proof) else None) (Some sum) proofs =
  if forallb (λ q, merkle_verify q root) proofs && (sum + proofs_total proofs <=? U64_MAX) then Some (sum + proofs_total proofs) else None.
Proof.
  assert (HN : ∀ proofs, foldl (λ (acc : option N) proof, sum ← acc; if merkle_verify proof root then checked_add sum (value_quanta proof) else None)
                 None proofs = None) by (induction proofs0 as [|q l IH]; done).
  induction proofs as [|q proofs IH]; intros sum Hs; cbn [foldl forallb proofs_total foldr].
  { by rewrite N.add_0_r, (proj2 (N.leb_le _ _) Hs). }
  fold (proofs_total proofs). cbn [mbind option_bind]. destruct (merkle_verify q root); cbn [andb]; [|apply HN].
  unfold checked_add at 2. destruct (N.leb_spec (sum + value_quanta q) U64_MAX) as [Hv|Hv].
  - rewrite IH by done. by rewrite N.add_assoc.
  - rewrite HN. destruct (N.leb_spec (sum + (value_quanta q + proofs_total proofs)) U64_MAX); [lia|]. by rewrite andb_false_r.
Qed.
(** What the check of a statement decides. *)
Lemma verify_integrity_spec st :
  verify_integrity st = true ↔
    Forall (λ q, merkle_verify q (st_utxo_root st) = true) (active_utxo_proofs st) ∧
    proofs_total (active_utxo_proofs st) = confirmed_native_balance_quanta st ∧ proofs_total (active_utxo_proofs st) ≤ U64_MAX.
Proof.
  unfold verify_integrity, verify_loop. rewrite verify_loop_from, N.add_0_l by lia.
  assert (HF : forallb (λ q, merkle_verify q (st_utxo_root st)) (active_utxo_proofs st) = true ↔
    Forall (λ q, merkle_verify q (st_utxo_root st) = true) (active_utxo_proofs st)).
  { rewrite forallb_forall, Forall_forall. by setoid_rewrite list_elem_of_In. }
  destruct (forallb _ _); destruct (N.leb_spec (proofs_total (active_utxo_proofs st)) U64_MAX); cbn [andb];
    rewrite ?N.eqb_eq; [naive_solver|split; [done|intros (_ & _ & ?); lia]|split; [done|intros (?%HF & _); done]..].
Qed.

(** For the address of a passbook made from it, the statement has a proof for
    what the balance counts. *)
Lemma in_statement_native a h lock :
  a = Address_new h → from_locking_condition (hash_bytes h) = None → in_statement (from_address a) a lock = native (from_address a) lock.
Proof.
  intros -> Hraw. unfold in_statement, native. destruct (is_token lock); [by rewrite andb_false_r|]. rewrite andb_true_r.
  unfold owns at 2. cbn [owned_locks addresses from_address existsb address_hash Address_new with_hrp].
  destruct (extract_address_from_locking_condition lock) as [h'|] eqn:E.
  - rewrite orb_false_r. assert (Hh : bool_decide (Address_new h' = Address_new h) = bool_decide (h = h')).
    { apply bool_decide_ext. unfold Address_new, with_hrp. split; [by intros [= ->]|by intros ->]. }
    rewrite Hh. destruct (decide (h = h')) as [->|Hne]; [by rewrite bool_decide_eq_true_2, orb_true_r|].
    rewrite bool_decide_eq_false_2 by done. rewrite orb_false_r. symmetry. apply bool_decide_eq_false_2.
    intros Hl%list_elem_of_singleton. subst lock. unfold extract_address_from_locking_condition, is_p2pkh in E.
    rewrite hash_length, Hraw in E. cbn [Nat.eqb andb] in E.
    unfold hash_slice in E. rewrite hash_of_list_bytes in E. by injection E as ->.
  - rewrite (bool_decide_eq_true_2 (_ ∈ [_])) by by apply list_elem_of_singleton. rewrite andb_true_r.
    unfold owns. cbn [owned_locks addresses from_address]. rewrite E. done.
Qed.

Lemma generate_all (s : UtxoSet) (os : list OutPoint) :
  Forall (λ o, is_Some (s !! o)) os →
  ∃ proofs root, omap_list (λ o, map_err (λ e, UtxoLookupFailed (NoProof e)) (generate_utxo_merkle_proof (to_entries_with_outpoints s) o)) os = Ok proofs ∧
    compute_utxo_root (E := ChainError) s = Ok root ∧ Forall (λ q, merkle_verify q root = true) proofs ∧
    proof_outpoint <$> proofs = os ∧
    Forall2 (λ o q, ∃ e, s !! o = Some e ∧ mkTxOut (value_quanta q) (proof_locking_condition q) = output e) os proofs.
Proof.
  destruct (compute_utxo_root_total (E := ChainError) s) as [root HR].
  induction 1 as [|o os [e He] _ (proofs & root' & E & HR' & HV & HO & HF)].
  { exists [], root. split; [done|]. split; [exact HR|]. split; [constructor|]. split; [done|constructor]. }
  rewrite HR in HR'. apply Ok_inj in HR' as <-.
  destruct (generate_complete (E := ChainError) s (to_entries_with_outpoints s) o e (Permutation_refl _) He)
    as (q & root' & Hq & HR' & Hv & Ho & Hout). rewrite HR in HR'. apply Ok_inj in HR' as <-.
  exists (q :: proofs), root. cbn [omap_list]. rewrite Hq. cbn [map_err obind]. rewrite E. cbn [obind].
  split; [done|]. split; [done|]. split; [by constructor|]. cbn [fmap list_fmap]. rewrite Ho. change (list_fmap _ _ proof_outpoint proofs) with (proof_outpoint <$> proofs).
  rewrite HO. split; [done|]. constructor; [by exists e|exact HF].
Qed.

(** The values of the proofs are those of the outputs they are for. *)
Lemma proofs_total_outputs (s : UtxoSet) os proofs :
  Forall2 (λ o q, ∃ e, s !! o = Some e ∧ mkTxOut (value_quanta q) (proof_locking_condition q) = output e) os proofs →
  proofs_total proofs = foldr (λ o acc, spent_value s o + acc) 0 os.
Proof.
  induction 1 as [|o q os proofs (e & He & Hq) _ IH]; [done|]. cbn [proofs_total foldr]. fold (proofs_total proofs). rewrite IH.
  unfold spent_value at 2. rewrite He. cbn [from_option]. by rewrite <- Hq.
Qed.
Lemma spent_total_perm (s : UtxoSet) l1 l2 : l1 ≡ₚ l2 →
  foldr (λ o acc, spent_value s o + acc) 0 l1 = foldr (λ o acc, spent_value s o + acc) 0 l2.
Proof. induction 1; cbn [foldr]; lia. Qed.
Lemma filtered_total p (s : UtxoSet) entries :
  Forall (λ oe : OutPoint * UtxoEntry, s !! oe.1 = Some oe.2) entries →
  foldr (λ o acc, spent_value s o + acc) 0 (filter (λ oe : OutPoint * UtxoEntry, native p (locking_condition (output oe.2)) = true) entries).*1 =
  native_total p entries.*2.
Proof.
  induction 1 as [|[o e] entries He _ IH]; [done|]. cbn [fst snd] in He. rewrite filter_cons. cbn [fst snd].
  change ((o, e) :: entries).*2 with (e :: entries.*2). cbn [native_total foldr]. fold (native_total p entries.*2).
  destruct (native p _) eqn:E; [rewrite decide_True by done|rewrite decide_False by done; by rewrite N.add_0_l].
  change ((o, e) :: ?l).*1 with (o :: l.*1). cbn [foldr]. rewrite IH. f_equal. unfold spent_value. by rewrite He.
Qed.

(** The block at the tip is on disk, and its header commits to the unspent
    outputs. *)
Lemma tip_block gb depth n (s : Shared) :
  genesis_fits gb → node_life gb depth n s → n < U64_MAX → readable (disk s) → canonical_height (chain_tree s) ≠ 0 →
  ∃ b, stored_block (canonical_tip (chain_tree s)) (disk s) = Ok (Some b) ∧
    compute_utxo_root (E := ChainError) (utxo_set s) = Ok (utxo_root (header b)).
Proof.
  intros Hgb Hlife Hn Hread Hh. destruct (node_life_inv gb depth Hgb n s Hlife Hn) as [[HC _ _] [_ _ Hdisk]].
  pose proof (inv_nodes _ _ _ HC) as Hwf. destruct (inv_tip _ _ _ HC) as [path HL]. cbn [chain_of fst snd] in *.
  destruct (ledger_key _ _ Hwf _ _ _ HL) as (rest & m & E & Hm & Hlk).
  pose proof (ledger_heights _ _ Hwf _ _ _ (length rest) m HL) as Hmh. rewrite E in Hmh at 1.
  specialize (Hmh (list_lookup_middle _ _ _ _ eq_refl)).
  assert (Hrest : rest ≠ []). { intros ->. apply Hh. unfold canonical_height. rewrite Hlk. exact Hmh. }
  destruct (verified_path _ _ _ _ _ rest m [] Hwf (inv_verified _ _ _ HC) HL E Hrest) as (s1 & s2 & _ & HL2 & [_ HR]).
  rewrite <- E, Hm in HL2. destruct (ledger_det _ _ _ _ _ _ HL2 HL) as [_ ->]. exists (node_block m). split; [|exact HR].
  assert (Hod : on_disk (disk s) m).
  { pose proof (Hdisk _ _ HL) as HF. rewrite Forall_forall in HF. apply HF. rewrite E. set_solver. }
  unfold on_disk in Hod. rewrite Hm in Hod. exact (block_reads _ _ _ Hread Hod).
Qed.

(** A statement made for the address of a passbook, on a node in its life past
    the genesis block whose journal can be read, passes its own check: each
    proof verifies against the root in the header of the tip, they are for
    exactly the unspent outputs of the address that are not tokens, and their
    values add up to the confirmed balance. (The raw bytes of the address are
    not taken for the encoding of a lock.) *)
Theorem statement_verifies (gb : Block) (depth n : N) (s : Shared) (h : Hash) (v : PassbookView)
    (Hgb : genesis_fits gb) (Hlife : node_life gb depth n s) (Hn : n < U64_MAX) (Hread : readable (disk s))
    (Hheight : canonical_height (chain_tree s) ≠ 0) (Hraw : from_locking_condition (hash_bytes h) = None)
    (Hview : view (from_address (Address_new h)) Running s = Ok v) :
  ∃ st, generate_statement (from_address (Address_new h)) Running (Address_new h) s = Ok st ∧ verify_integrity st = true ∧
    confirmed_native_balance_quanta st = view_native v ∧
    ∀ o, o ∈ proof_outpoint <$> active_utxo_proofs st ↔
      ∃ e, utxo_set s !! o = Some e ∧ native (from_address (Address_new h)) (locking_condition (output e)) = true.
Proof.
  set (a := Address_new h) in *. set (p := from_address a) in *.
  destruct (tip_block gb depth n s Hgb Hlife Hn Hread Hheight) as (b & Hb & HR).
  set (os := user_outpoints p a (map_to_list (utxo_set s))).
  assert (Hos : os ≡ₚ (filter (λ oe : OutPoint * UtxoEntry, native p (locking_condition (output oe.2)) = true) (map_to_list (utxo_set s))).*1).
  { unfold os, user_outpoints. rewrite sort_by_perm. assert (HE : ∀ l : list (OutPoint * UtxoEntry),
      filter (λ oe : OutPoint * UtxoEntry, in_statement p a (locking_condition (output oe.2)) = true) l =
      filter (λ oe : OutPoint * UtxoEntry, native p (locking_condition (output oe.2)) = true) l).
    { intros l. apply list_filter_iff. intros oe. unfold p. by rewrite (in_statement_native a h). } by rewrite HE. }
  assert (HE : Forall (λ oe : OutPoint * UtxoEntry, utxo_set s !! oe.1 = Some oe.2) (map_to_list (utxo_set s))).
  { apply Forall_forall. intros [o e]. apply elem_of_map_to_list. }
  assert (Hin : ∀ o, o ∈ os ↔ ∃ e, utxo_set s !! o = Some e ∧ native p (locking_condition (output e)) = true).
  { intros o. rewrite Hos, list_elem_of_fmap. split.
    - intros ([o' e] & -> & [Hnat Ho]%list_elem_of_filter). exists e. split; [by apply elem_of_map_to_list|exact Hnat].
    - intros (e & He & Hnat). exists (o, e). split; [done|]. apply list_elem_of_filter. split; [exact Hnat|by apply elem_of_map_to_list]. }
  destruct (generate_all (utxo_set s) os) as (proofs & root & Hp & HR' & HV & HO & HF).
  { apply Forall_forall. intros o (e & He & _)%Hin. by exists e. }
  rewrite HR in HR'. apply Ok_inj in HR' as <-.
  assert (Hnative : sum_native_owned p (utxo_set s) = Ok (view_native v)).
  { unfold view in Hview. cbn [require_ready obind] in Hview. change (query_utxo_set s) with (utxo_set s) in Hview.
    apply obind_Ok in Hview as (total & Ht & Hview). cbn [sum_token_owned obind] in Hview.
    apply obind_Ok in Hview as (es & _ & Hview). apply obind_Ok in Hview as (dl & _ & Hview). injection Hview as <-. exact Ht. }
  assert (Htotal : proofs_total proofs = native_total p (map_to_list (utxo_set s)).*2).
  { rewrite (proofs_total_outputs (utxo_set s) os proofs HF), (spent_total_perm _ _ _ Hos). by apply filtered_total. }
  unfold sum_native_owned in Hnative. rewrite sum_native_in_spec in Hnative.
  destruct (N.leb_spec (native_total p (map_to_list (utxo_set s)).*2) U64_MAX) as [Hle|]; [|done]. apply Ok_inj in Hnative.
  eexists. split.
  { unfold generate_statement. cbn [require_ready obind]. rewrite Hb. cbn [map_err obind ok_or]. rewrite header_hash_ok. cbn [obind].
    change (query_utxo_set s) with (utxo_set s). fold os. rewrite Hp. cbn [obind]. rewrite Hview. cbn [obind]. reflexivity. }
  cbn [confirmed_native_balance_quanta active_utxo_proofs]. split; [|split; [done|intros o; by rewrite HO, Hin]].
  apply verify_integrity_spec. cbn [active_utxo_proofs st_utxo_root confirmed_native_balance_quanta].
  split; [exact HV|]. rewrite Htotal. split; [exact Hnative|exact Hle].
Qed.

(** The values of distinct outputs are part of the set. *)
Lemma distinct_total (os : list OutPoint) : ∀ s : UtxoSet, NoDup os → foldr (λ o acc, spent_value s o + acc) 0 os ≤ set_value s.
Proof.
  induction os as [|o os IH]; intros s; [intros _; cbn; lia|]. intros [Hno Hnd]%NoDup_cons. cbn [foldr].
  rewrite (set_value_delete s o). specialize (IH (delete o s) Hnd).
  assert (HE : foldr (λ o acc, spent_value s o + acc) 0 os = foldr (λ x acc, spent_value (delete o s) x + acc) 0 os).
  { clear IH Hnd. induction os as [|o' os IH]; [done|]. cbn [foldr]. apply not_elem_of_cons in Hno as [Hne Hno].
    assert (Hs : spent_value (delete o s) o' = spent_value s o') by (unfold spent_value; by rewrite lookup_delete_ne).
    by rewrite IH, Hs. }
  lia.
Qed.

(** C30: What a statement that passes its check says. First, let its root be that of
    a set [s] of unspent outputs that is not empty and whose outputs all have a
    locking condition (the leaf of one without has the length of an inner node),
    let its proofs be for different outpoints and have locking conditions, and let
    BLAKE3 not collide on what they hash: then each proof is for an output of [s]
    and the balance is at most what [s] is worth. Second, the check itself asks
    neither condition on the proofs: for every account, root and balance of 64
    bits there is a statement that passes, with one proof without a locking
    condition. *)
Theorem statement_check_sound :
  (∀ (s : UtxoSet) (st : PassbookStatement),
     compute_utxo_root (E := UtxoError) s = Ok (st_utxo_root st) → s ≠ ∅ →
     map_Forall (λ o e, outpoint_wf o ∧ txout_wf (output e) ∧ locking_condition (output e) ≠ []) s →
     Forall (λ q, outpoint_wf (proof_outpoint q) ∧ value_quanta q < MOD64 ∧ no_collision (proof_preimages q) (root_preimages s))
       (active_utxo_proofs st) →
     verify_integrity st = true →
     Forall (λ q, proof_locking_condition q ≠ []) (active_utxo_proofs st) → NoDup (proof_outpoint <$> active_utxo_proofs st) →
     Forall (λ q, ∃ e, s !! proof_outpoint q = Some e ∧ output e = mkTxOut (value_quanta q) (proof_locking_condition q)) (active_utxo_proofs st) ∧
     confirmed_native_balance_quanta st ≤ set_value s) ∧
  (∀ account height hash root balance tokens entries o, balance ≤ U64_MAX →
     verify_integrity (mkPassbookStatement account height hash root balance tokens entries [mkUtxoMerkleProof o balance [] root [] 0]) = true).
Proof.
  split.
  - intros s st HR Hne Hwf Hproofs (HV & HT & Hle)%verify_integrity_spec Hlocks Hnd.
    assert (HF : Forall2 (λ o q, ∃ e, s !! o = Some e ∧ mkTxOut (value_quanta q) (proof_locking_condition q) = output e)
      (proof_outpoint <$> active_utxo_proofs st) (active_utxo_proofs st)).
    { clear HT Hle Hnd. revert HV Hproofs Hlocks. generalize (active_utxo_proofs st) as l.
      induction l as [|q l IH]; [constructor|]. intros HV Hproofs Hlocks.
      apply Forall_cons in HV as [HVq HV], Hproofs as [(W1 & W2 & HC) Hproofs], Hlocks as [Hl Hlocks].
      cbn [fmap list_fmap]. constructor; [|by apply IH].
      destruct (verify_sound s q (st_utxo_root st) HR Hne Hwf W1 W2 Hl HC HVq) as (e & He & Hq). exists e. by split. }
    split.
    + clear -HF. revert HF. generalize (active_utxo_proofs st) as l. induction l as [|q l IH]; [constructor|]. intros HF.
      cbn [fmap list_fmap] in HF. apply Forall2_cons in HF as [(e & He & Hq) HF]. constructor; [exists e; by split|by apply IH].
    + rewrite <- HT, (proofs_total_outputs s _ _ HF). by apply distinct_total.
  - intros account height hash root balance tokens entries o Hb. apply verify_integrity_spec. cbn [active_utxo_proofs st_utxo_root confirmed_native_balance_quanta proofs_total foldr value_quanta].
    rewrite N.add_0_r. split; [|done]. constructor; [|constructor]. unfold merkle_verify. cbn. by apply bool_decide_eq_true_2.
Qed.

(** ** Vaults *)

(** [bincode::deserialize] reads the fields one after the other and leaves what
    follows: a vault datum has the size of a token datum, and reads as one. *)
Definition vault_reads_as_token : Prop := ∀ b v,
  decode_payload (A := VaultDatumPayload) b = Some v → is_Some (decode_payload (A := Scy20DatumPayload) b).

(** The passbook never shows a vault: a lock with the datum of a vault is taken
    for a token, so that its value is in no balance, and in the journal its
    amount is the number two fields of the vault make. *)
Theorem vault_shown_as_token (p : Passbook) (s : UtxoSet) (o : OutPoint) (e : UtxoEntry) (code : Hash) (datum : list byte) (v : VaultDatumPayload)
    (token plain : PassbookAction)
    (Hlaw : vault_reads_as_token) (Hlock : from_locking_condition (locking_condition (output e)) = Some (Transaction.Script code datum))
    (Hvault : decode_payload datum = Some v) (Hnew : s !! o = None) :
  (∃ d, parse_locking_condition (locking_condition (output e)) = ParsedScy20 d ∧
     classify (output e) token plain = (Scy20 (pay_token_id d), token, wrap64 (pay_amount d), None)) ∧
  sum_native_owned p (<[o := e]> s) = sum_native_owned p s.
Proof.
  destruct (Hlaw _ _ Hvault) as [d Hd].
  assert (Hparse : parse_locking_condition (locking_condition (output e)) = ParsedScy20 d).
  { unfold parse_locking_condition. by rewrite Hlock, Hd. }
  split; [exists d; split; [done|]; unfold classify; by rewrite Hparse|].
  unfold sum_native_owned. rewrite !sum_native_in_spec.
  assert (HT : native_total p (map_to_list (<[o := e]> s)).*2 = native_total p (map_to_list s).*2).
  { rewrite (native_total_perm p _ (e :: (map_to_list s).*2)) by by rewrite map_to_list_insert.
    cbn [native_total foldr]. fold (native_total p (map_to_list s).*2). unfold native, is_token. rewrite Hparse, andb_false_r. lia. }
  by rewrite HT.
Qed.

(** ** Provenance *)

(** Each stored transaction comes after the one its first input spends. *)
Definition lineage (rank : Hash → nat) (s : Shared) : Prop := ∀ txid tx op,
  lookup_transaction txid s = Ok (Some tx) → previous_output <$> head (inputs tx) = Some op → is_null op = false →
  (∃ tx', lookup_transaction (op_txid op) s = Ok (Some tx')) → (rank (op_txid op) < rank txid)%nat.
(** The lookups give what is stored, or nothing. *)
Definition lookups (s : Shared) : Prop :=
  (∀ id, ∃ r, lookup_transaction id s = Ok r) ∧ (∀ id, ∃ r, canonical_transaction_height id s = Ok r).

Lemma typed_lookups n (s : Shared) d' : tables_typed n (contents (disk s)) → read_tx (disk s) = Ok d' → lookups s.
Proof.
  intros Ht Hr. pose proof (read_contents _ _ Hr) as ->. split; intros id.
  - destruct (decoded_row _ (TRANSACTIONS (contents (disk s)) !! id) (ty_transactions _ _ Ht id)) as (r & Hd & _).
    exists r. unfold lookup_transaction, reading. rewrite Hr. cbn [obind]. unfold get_transaction. by rewrite Hd.
  - unfold canonical_transaction_height, reading. rewrite Hr. cbn [obind]. unfold get_transaction_height, get_transaction_location.
    destruct (TX_CONFIRM_INDEX _ !! id) as [v|] eqn:E; [|by eexists]. destruct (ty_confirm _ _ Ht id v E) as [loc ->]. by eexists.
Qed.

(** The steps of a history, the origin last: each output was made by a
    transaction whose first input spends an output of the next step, and only
    the origin may be an issuance. *)
Inductive history (s : Shared) : OutPoint → list ProvenanceStep → Prop :=
| history_last o step : prov_txid step = op_txid o → history s o [step]
| history_step o op tx step steps :
    lookup_transaction (op_txid o) s = Ok (Some tx) → previous_output <$> head (inputs tx) = Some op →
    prov_txid step = op_txid o → category step = ProvTransfer → prov_value step = from_option value 0 (outputs tx !! N.to_nat (op_index o)) →
    history s op steps → history s o (step :: steps).

Lemma provenance_loop_runs rank (s : Shared) fuel : ∀ o rev tx,
  lookups s → lineage rank s → (rank (op_txid o) < fuel)%nat → lookup_transaction (op_txid o) s = Ok (Some tx) →
  ∃ steps, provenance_loop fuel s o rev = Ok (rev ++ steps) ∧ history s o steps.
Proof.
  induction fuel as [|fuel IH]; intros o rev tx HL HR Hf Htx; [lia|]. cbn [provenance_loop]. rewrite Htx. cbn [map_err obind ok_or].
  destruct (proj2 HL (op_txid o)) as [hh Hhh]. rewrite Hhh. cbn [map_err obind].
  destruct (is_coinbase tx || (default 0 hh =? 0)); [eexists; split; [done|by constructor]|].
  destruct (previous_output <$> head (inputs tx)) as [op|] eqn:Ei; [|eexists; split; [done|by constructor]].
  destruct (is_null op) eqn:En; [eexists; split; [done|by constructor]|].
  assert (Hlt : ∀ tx', lookup_transaction (op_txid op) s = Ok (Some tx') → (rank (op_txid op) < rank (op_txid o))%nat).
  { intros tx' H. eapply HR; [exact Htx|exact Ei|exact En|by exists tx']. }
  rewrite bool_decide_eq_false_2.
  2:{ intros ->. specialize (Hlt tx Htx). lia. }
  destruct (proj1 HL (op_txid op)) as [[tx'|] Htx']; rewrite Htx'; cbn [map_err obind]; [|eexists; split; [done|by constructor]].
  specialize (Hlt tx' Htx').
  destruct (IH op (rev ++ [mkProvenanceStep (op_txid o) (default 0 hh) ProvTransfer (from_option value 0 (outputs tx !! N.to_nat (op_index o)))])
    tx' HL HR ltac:(lia) Htx') as (steps & E & Hs).
  rewrite E, <- app_assoc. eexists. split; [done|]. by eapply history_step.
Qed.

(** The history of an output is found: on storage the engine has written, when
    each stored transaction comes after the one its first input spends, the loop
    ends within as many steps as there are transactions before, and gives the
    path from the output to its origin, in the order of time; only an output
    whose own transaction is not stored has none. *)
Theorem provenance_ends (rank : Hash → nat) (s : Shared) (t : Tables) (n : N → nat) (o : OutPoint) (fuel : nat)
    (Htyped : tables_typed n (contents (disk s))) (Hread : read_tx (disk s) = Ok t) (Hrank : lineage rank s)
    (Hfuel : (rank (op_txid o) < fuel)%nat) :
  match lookup_transaction (op_txid o) s with
  | Ok (Some _) => ∃ steps, provenance fuel Running o s = Ok (reverse steps) ∧ history s o steps
  | _ => provenance fuel Running o s = Err (TransactionNotFound (op_txid o))
  end.
Proof.
  pose proof (typed_lookups n s t Htyped Hread) as HL. destruct (proj1 HL (op_txid o)) as [[tx|] Htx]; rewrite Htx.
  - destruct (provenance_loop_runs rank s fuel o [] tx HL Hrank Hfuel Htx) as (steps & E & Hs). exists steps. split; [|exact Hs].
    unfold provenance. cbn [require_ready obind]. by rewrite E.
  - unfold provenance. destruct fuel as [|fuel]; [lia|]. cbn [require_ready obind provenance_loop]. by rewrite Htx.
Qed.
End theorems.

(** ** Witnesses *)

Section witness.
#[local] Existing Instances toy_blake3 toy_ed25519 toy_bincode toy_redb toy_redb_laws.
#[local] Instance toy_wasm : Wasmi := toy_wasmi toy_contract.
#[local] Existing Instances toy_payload_context NodeBlockVerifier.

(** The encodings of the two datums, field after field. *)
Definition toy_token_datum : Payload Scy20DatumPayload := {|
  encode_payload d := Some (hash_bytes (pay_token_id d) ++ hash_bytes (pay_owner d) ++ le_bytes 16 (pay_amount d));
  decode_payload l :=
    if (80 <=? length l)%nat then
      id ← hash_of_list (take 32 l); owner ← hash_of_list (take 32 (drop 32 l));
      Some (mkScy20DatumPayload id owner (le_val (take 16 (drop 64 l))))
    else None
|}.
Definition toy_vault_datum : Payload VaultDatumPayload := {|
  encode_payload d := Some (hash_bytes (vault_owner_pubkey d) ++ le_bytes 8 (vault_unlock_time d) ++
                            hash_bytes (vault_emergency_key d) ++ le_bytes 8 (vault_penalty_fee d));
  decode_payload l :=
    if (80 <=? length l)%nat then
      owner ← hash_of_list (take 32 l); key ← hash_of_list (take 32 (drop 40 l));
      Some (mkVaultDatumPayload owner (le_val (take 8 (drop 32 l))) key (le_val (take 8 (drop 72 l))))
    else None
|}.
#[local] Existing Instances toy_token_datum toy_vault_datum.

Lemma toy_vault_reads : vault_reads_as_token.
Proof.
  intros b v. cbn [decode_payload toy_vault_datum toy_token_datum]. destruct (Nat.leb_spec 80 (length b)) as [Hl|]; [|done]. intros _.
  destruct (hash_of_list_is_Some (take 32 b)) as [id Hid]; [rewrite length_take; lia|].
  destruct (hash_of_list_is_Some (take 32 (drop 32 b))) as [ow How]; [rewrite length_take, length_drop; lia|].
  rewrite Hid. cbn [mbind option_bind]. rewrite How. by eexists.
Qed.

(** A lock with a script is read as its hash and then the datum. *)
Definition script_bincode : Bincode :=
  Build_Bincode (λ _, None) (λ l, h ← hash_of_list (take 32 l); Some (Transaction.Script h (drop 32 l))) (λ _, None) (λ _, None).
Definition toy_vault : VaultDatumPayload := mkVaultDatumPayload ZERO 500 ZERO 7.
Definition toy_vault_bytes : list byte := default [] (encode_payload toy_vault).
Definition toy_vault_entry : UtxoEntry :=
  mkUtxoEntry (mkTxOut 900 (LOCK_MAGIC_PREFIX ++ hash_bytes ZERO ++ toy_vault_bytes)) 1 false.

Lemma vault_shown_as_token_witness :
  sum_native_owned (BC := script_bincode) (from_address (Address_new ZERO)) (<[OutPoint_null := toy_vault_entry]> ∅) = Ok 0.
Proof.
  rewrite (proj2 (vault_shown_as_token (BC := script_bincode) (from_address (Address_new ZERO)) ∅ OutPoint_null toy_vault_entry ZERO toy_vault_bytes
    toy_vault Received Sent toy_vault_reads ltac:(vm_compute; reflexivity) ltac:(vm_compute; reflexivity) eq_refl)).
  reflexivity.
Defined.

Definition toy_user : Hash := blake3 [x51].
Lemma toy_genesis_within : genesis_within toy_genesis.
Proof.
  intros u fees E. assert (HV : set_value (apply_block (transactions toy_genesis) 0 ∅).1 <=? TOTAL_GENESIS_QUANTA = true) by (vm_compute; reflexivity).
  rewrite E in HV. by apply N.leb_le.
Qed.
Lemma toy_view : ∃ v, view (from_address (Address_new toy_user)) Running toy_grown = Ok v.
Proof.
  assert (HO : is_ok (view (from_address (Address_new toy_user)) Running toy_grown) = true) by (vm_compute; reflexivity).
  destruct (view _ _ _) as [v|e| |]; [by exists v|discriminate HO..].
Qed.

Lemma confirmed_balance_spec_witness :
  native_total (from_address (Address_new toy_user)) (map_to_list (utxo_set toy_grown)).*2 ≤ MAX_SUPPLY.
Proof.
  exact (proj2 (proj2 (confirmed_balance_spec toy_genesis 100 (0 + 1) toy_grown (from_address (Address_new toy_user)) _
    toy_genesis_fits toy_life eq_refl toy_genesis_within (Permutation_refl _)))).
Defined.

Lemma toy_height : canonical_height (chain_tree toy_grown) = 1.
Proof. vm_compute. reflexivity. Qed.
Lemma statement_verifies_witness :
  ∃ st, generate_statement (from_address (Address_new toy_user)) Running (Address_new toy_user) toy_grown = Ok st ∧ verify_integrity st = true.
Proof.
  destruct toy_view as [v Hv].
  destruct (statement_verifies toy_genesis 100 (0 + 1) toy_grown toy_user v toy_genesis_fits toy_life eq_refl (proj1 toy_restartable)
    ltac:(rewrite toy_height; discriminate) eq_refl Hv) as (st & E & H & _).
  exists st. split; [exact E|exact H].
Defined.

Definition toy_statement : PassbookStatement :=
  mkPassbookStatement (Address_new toy_user) 1 ZERO toy_root (value_quanta toy_proof) ∅ [] [toy_proof].
Lemma statement_check_sound_witness :
  confirmed_native_balance_quanta toy_statement ≤ set_value toy_utxos.
Proof.
  refine (proj2 (proj1 statement_check_sound toy_utxos toy_statement _ _ _ _ _ _ _)).
  - vm_compute. reflexivity.
  - apply (bool_decide_eq_false_1 _). vm_compute. reflexivity.
  - apply map_Forall_to_list. unfold outpoint_wf, txout_wf. apply (bool_decide_unpack _). vm_compute. exact I.
  - constructor; [|constructor]. split; [vm_compute; reflexivity|]. split; [vm_compute; reflexivity|].
    apply no_collision_check. vm_compute. reflexivity.
  - vm_compute. reflexivity.
  - constructor; [vm_compute; discriminate|constructor].
  - cbn [fmap list_fmap active_utxo_proofs toy_statement]. apply NoDup_singleton.
Defined.

(** A block with a transaction that spends its coinbase. *)
Definition loop_writes : list Write := [WCommit toy_genesis 0 (toy_work toy_genesis); WCommit toy_loop 1 (toy_work toy_loop)].
Definition loop_bound : N → nat := foldl (λ n w, records_after w n) (λ _, 0%nat) loop_writes.
Definition loop_tables : Tables := foldl StorageTyped.toy_run empty_tables loop_writes.
Definition loop_node : Shared (BS := StorageEngine (R := toy_redb)) :=
  mkShared (BS := StorageEngine (R := toy_redb)) toy_tree ∅ Mempool_new loop_tables.
Definition spend_id : Hash := toy_txid toy_spend.
Definition loop_rank (id : Hash) : nat := if bool_decide (id = spend_id) then 1%nat else 0%nat.

Lemma loop_written : written (R := toy_redb) loop_bound loop_tables.
Proof.
  unfold loop_bound, loop_tables, loop_writes. cbn [foldl].
  apply toy_step; [apply toy_step; [by apply written_new| |]| |]; try (apply entry_typed_okb); vm_compute; reflexivity.
Qed.
#[local] Opaque loop_tables.
Lemma loop_typed : tables_typed loop_bound (contents (Redb := toy_redb) loop_tables).
Proof.
  apply written_typed; [exact loop_written|].
  assert (HC : (N.of_nat (record_count toy_genesis + record_count toy_loop) <=? MAX_VECTOR_LENGTH) = true) by (vm_compute; reflexivity).
  apply N.leb_le in HC. intros h. unfold loop_bound, loop_writes. cbn [foldl records_after].
  unfold add_at. repeat destruct (_ =? _); lia.
Qed.

Definition lineage_okb (rank : Hash → nat) (t : Tables) : bool :=
  forallb (λ kv : Hash * list byte,
    match from_canonical_bytes (A := Transaction) kv.2 with
    | Ok tx =>
        match previous_output <$> head (inputs tx) with
        | Some op => is_null op || bool_decide (TRANSACTIONS t !! op_txid op = None) || (rank (op_txid op) <? rank kv.1)%nat
        | None => true
        end
    | _ => true
    end) (map_to_list (TRANSACTIONS t)).
Lemma lineage_okb_spec rank (s : Shared (BS := StorageEngine (R := toy_redb))) : lineage_okb rank (disk s) = true → lineage rank s.
Proof.
  intros Hok txid tx op Htx Hop Hn (tx' & Htx'). unfold lineage_okb in Hok. rewrite forallb_forall in Hok.
  unfold lookup_transaction, reading, get_transaction, decoded in Htx, Htx'. cbn [read_tx toy_redb obind map_err] in Htx, Htx'.
  destruct (TRANSACTIONS (disk s) !! txid) as [v|] eqn:E; [|done].
  specialize (Hok (txid, v) (proj1 (list_elem_of_In _ _) (proj2 (elem_of_map_to_list _ _ _) E))). cbn [fst snd] in Hok.
  destruct (from_canonical_bytes v) as [tx1|e| |]; [|done..]. cbn [ser_err map_err obind] in Htx. injection Htx as ->.
  rewrite Hop, Hn in Hok. cbn [orb] in Hok. apply orb_true_iff in Hok as [Hok%bool_decide_eq_true|Hok%Nat.ltb_lt]; [|exact Hok].
  by rewrite Hok in Htx'.
Qed.

Lemma provenance_ends_witness :
  ∃ steps, provenance (R := toy_redb) 2 Running (mkOutPoint spend_id 0) loop_node = Ok (reverse steps) ∧ length steps = 2%nat.
Proof.
  pose proof (provenance_ends (R := toy_redb) loop_rank loop_node loop_tables loop_bound (mkOutPoint spend_id 0) 2 loop_typed eq_refl
    (lineage_okb_spec loop_rank loop_node ltac:(vm_compute; reflexivity)) ltac:(vm_compute; lia)) as H.
  assert (HS : match lookup_transaction (R := toy_redb) (op_txid (mkOutPoint spend_id 0)) loop_node with Ok (Some _) => true | _ => false end = true)
    by (vm_compute; reflexivity).
  assert (HT : match provenance (R := toy_redb) 2 Running (mkOutPoint spend_id 0) loop_node with Ok l => (length l =? 2)%nat | _ => false end = true)
    by (vm_compute; reflexivity).
  destruct (lookup_transaction _ _) as [[tx|]|e| |]; [|discriminate HS..]. destruct H as (steps & E & _).
  exists steps. split; [exact E|]. rewrite E in HT. by rewrite length_reverse in HT; apply Nat.eqb_eq in HT.
Defined.
End witness.
