(* ===== verification/Bridge.v ===== *)
(** * The local protocol of the node

    [crates/scytale-bridge/src/lib.rs]: the requests and answers of the socket,
    their framing as lines of JSON, the loop of [apps/scytale-node/src/ipc.rs]
    that serves a connection and the client of [apps/scytale-cli/src/client.rs].
    The encoding of a message by [serde_json] is the class [Json]. A connection is
    the bytes one side wrote: failures of the socket are not modelled. Texts of
    errors and states are the values they print. *)

From S2P Require Import Prelude Bytes Primitives Address Account Types Codec Transaction Utxo Merkle Genesis.
From S2P Require Import Words Target Work Tables Storage StorageSpec Store Stack Script Authorization Mempool MempoolInv.
From S2P Require Import StorageTyped MempoolSpec Consensus Chain Vm VmAdapter Mining ChainReplay Node Recovery NodeQuery Passbook.
Local Open Scope N_scope.
Local Open Scope scy_scope.

(** ** Messages *)

Record UtxoDto := mkUtxoDto {
  txid_hex : list byte;
  dto_index : N;
  value_quanta : N;
  locking_script_hex : list byte;
  dto_block_height : N;
  dto_is_coinbase : bool
}.

Inductive EntryTypeDto := DtoReceived | DtoSent | DtoMiningReward | DtoChange.
Inductive EntryStatusDto := DtoConfirmed (confirmations : N) | DtoPending | DtoReorganized.
Record PassbookEntryDto := mkPassbookEntryDto {
  dto_entry_number : N;
  dto_timestamp : N;
  dto_entry_type : EntryTypeDto;
  dto_amount_quanta : N;
  dto_fee_quanta : N;
  dto_status : EntryStatusDto;
  dto_txid_hex : list byte;
  dto_outpoint : option (list byte);
  dto_entry_height : option N
}.
Record PassbookViewDto := mkPassbookViewDto {
  account_lock_hex : list byte;
  dto_confirmed_balance : N;
  dto_pending_balance : Z;
  dto_total_entries : N;
  dto_entries : list PassbookEntryDto
}.
Inductive ProvenanceCategoryDto := DtoCoinbase | DtoGenesis | DtoTransfer.
Record ProvenanceStepDto := mkProvenanceStepDto {
  step_txid_hex : list byte;
  step_height : N;
  step_category : ProvenanceCategoryDto;
  step_value : N
}.
Record ProvenanceTraceDto := mkProvenanceTraceDto { target_outpoint : list byte; trace_steps : list ProvenanceStepDto }.

Inductive NodeRequest :=
| GetStatus
| GetPassbook (locking_script_hex : list byte)
| SendTransaction (recipient_script_hex : list byte) (amount_quanta fee_quanta : N) (sender_script_hex : option (list byte))
| SetMining (enabled : bool)
| TraceProvenance (txid_hex : list byte) (index : N) (max_depth : option N)
| StopNode
| GetUtxosByLock (locking_script : list byte)
| SubmitRawTransaction (tx : Transaction)
| ExportSnapshotChunk (block_hash_hex : list byte) (chunk_index chunk_size : N)
| ApplySnapshot (block_hash_hex : list byte) (entries : list UtxoWireEntryDto).

(** What an error answer says. *)
Inductive IpcMessage :=
| OfNode (e : NodeError)
| OfPassbook (e : PassbookError)
| InvalidLockHex (e : PrimitiveError)
| InvalidRecipientHex (e : PrimitiveError)
| InvalidSenderHex (e : PrimitiveError)
| InvalidTxidText (e : PrimitiveError).

Inductive NodeResponse :=
| StatusResponse (state : NodeState) (canonical_height : N) (canonical_tip_hash : list byte) (mempool_count : N) (mining_active : bool)
| PassbookResponse (view : PassbookViewDto)
| TransactionSubmitted (txid : list byte)
| Utxos (utxos : list UtxoDto)
| SnapshotChunk (block_hash_hex : list byte) (chunk_index total_chunks : N) (entries : list UtxoWireEntryDto)
| SnapshotApplied (block_hash_hex : list byte) (utxo_count : N)
| MiningToggled (active : bool)
| ProvenanceResponse (trace : ProvenanceTraceDto)
| ShutdownSent
| NodeErrorResponse (message : IpcMessage).

Inductive BridgeError := BridgeSerialization | BridgeIo.

(** ** Text *)

(** Continuation bytes of UTF-8 at the start of a text. *)
Definition continued (n : nat) (s : list byte) : bool := (n <=? length s)%nat && forallb is_continuation (take n s).
Definition between (lo hi : N) (b : byte) : bool := (lo <=? Byte.to_N b) && (Byte.to_N b <=? hi).
(** The length of the character a text starts with, 0 when it is none. *)
Definition utf8_char (s : list byte) : nat :=
  match s with
  | [] => 0
  | b :: s =>
      let second lo hi := match s with c :: _ => between lo hi c | [] => false end in
      if between 0 0x7f b then 1%nat
      else if between 0xc2 0xdf b && continued 1 s then 2%nat
      else if (between 0xe1 0xec b || between 0xee 0xef b || bool_decide (b = xe0) && second 0xa0 0xbf || bool_decide (b = xed) && second 0x80 0x9f)
              && continued 2 s then 3%nat
      else if (between 0xf1 0xf3 b || bool_decide (b = xf0) && second 0x90 0xbf || bool_decide (b = xf4) && second 0x80 0x8f)
              && continued 3 s then 4%nat
      else 0%nat
  end.
(** [str::from_utf8] accepts. *)
Fixpoint utf8_loop (fuel : nat) (s : list byte) : bool :=
  match fuel, s with
  | _, [] => true
  | O, _ => false
  | S fuel, s => match utf8_char s with O => false | n => utf8_loop fuel (drop n s) end
  end.
Definition is_utf8 (s : list byte) : bool := utf8_loop (length s) s.

(** ** Framing *)

Class Json (A : Type) := {
  json_to : A → option (list byte);
  json_from : list byte → option A
}.
(** An encoded message reads back; it is text on one line, and starts and ends
    with a printable character. *)
Class JsonLaws (A : Type) {J : Json A} := {
  json_reads x bytes : json_to x = Some bytes → json_from bytes = Some x;
  json_text x bytes : json_to x = Some bytes → is_utf8 (bytes ++ [x0a]) = true;
  json_line x bytes : json_to x = Some bytes → x0a ∉ bytes;
  json_ends x bytes : json_to x = Some bytes → ∃ b s c, bytes = b :: s ++ [c] ∧ graphic b ∧ graphic c
}.

Definition write_ipc_message {A} `{Json A} (msg : A) : outcome BridgeError (list byte) :=
  let? payload := ok_or (json_to msg) BridgeSerialization in Ok (payload ++ [x0a]).

(** [read_line]: the line with its end, and what follows. *)
Fixpoint read_line (s : list byte) : list byte * list byte :=
  match s with
  | [] => ([], [])
  | x0a :: s => ([x0a], s)
  | b :: s => let '(line, rest) := read_line s in (b :: line, rest)
  end.
Definition read_ipc_message {A} `{Json A} (s : list byte) : list byte * outcome BridgeError (option A) :=
  let '(line, rest) := read_line s in
  (rest,
   if negb (is_utf8 line) then Err BridgeIo
   else if (length line =? 0)%nat then Ok None
   else
     let trimmed := trim line in
     if (length trimmed =? 0)%nat then Ok None
     else let? msg := ok_or (json_from trimmed) BridgeSerialization in Ok (Some msg)).

(** ** Sessions *)

(** What a client makes of an answer; [Abandoned] stands for a connection that
    ends without one. *)
Inductive SendError := DaemonAbsent | Abandoned | SendBridge (e : BridgeError).

Section session.
Context {JQ : Json NodeRequest} {JA : Json NodeResponse}.
(** The node's side of a request: it changes the state and answers, or panics. *)
Context {W : Type} (process : NodeRequest → W → W * option NodeResponse).

(** [handle_client], with fuel over the bytes that come: the state and the bytes
    that go back when the connection ends. A panic ends the task. *)
Fixpoint handle_client (fuel : nat) (input : list byte) (s : W) : W * list byte :=
  match fuel with
  | O => (s, [])
  | S fuel =>
      match read_ipc_message (A := NodeRequest) input with
      | (rest, Ok (Some req)) =>
          match process req s with
          | (s, Some resp) =>
              match write_ipc_message resp with
              | Ok bytes => let '(s, out) := handle_client fuel rest s in (s, bytes ++ out)
              | _ => (s, [])
              end
          | (s, None) => (s, [])
          end
      | _ => (s, [])
      end
  end.
Definition serve_connection (input : list byte) (s : W) : W * list byte := handle_client (length input) input s.

(** [send_node_request] over a connection to this node; [listening] is whether
    the socket is there. *)
Definition send_node_request (listening : bool) (req : NodeRequest) (s : W) : W * outcome SendError NodeResponse :=
  if negb listening then (s, Err DaemonAbsent)
  else
    match write_ipc_message req with
    | Ok bytes =>
        let '(s, back) := serve_connection bytes s in
        (s, match (read_ipc_message (A := NodeResponse) back).2 with
            | Ok (Some resp) => Ok resp
            | Ok None => Err Abandoned
            | Err e => Err (SendBridge e)
            | Panic => Panic
            | Diverge => Diverge
            end)
    | Err e => (s, Err (SendBridge e))
    | Panic => (s, Panic)
    | Diverge => (s, Diverge)
    end.

(** The requests of a session one after the other: the state and the answers. A
    panic, or an answer that has no encoding, is the end. *)
Fixpoint serve_all (reqs : list NodeRequest) (s : W) : W * list NodeResponse :=
  match reqs with
  | [] => (s, [])
  | req :: reqs =>
      match process req s with
      | (s, Some resp) =>
          match json_to resp with
          | Some _ => let '(s, resps) := serve_all reqs s in (s, resp :: resps)
          | None => (s, [])
          end
      | (s, None) => (s, [])
      end
  end.
End session.

(** Each part with the end of its line. *)
Definition lines (parts : list (list byte)) : list byte := concat ((λ p, p ++ [x0a]) <$> parts).
Lemma lines_cons p parts : lines (p :: parts) = p ++ x0a :: lines parts.
Proof. unfold lines. cbn. by rewrite <- app_assoc. Qed.
(** The bytes of a list of messages, when all have an encoding. *)
Definition encodings {A} `{Json A} (msgs : list A) (bytes : list byte) : Prop :=
  ∃ parts, Forall2 (λ m p, json_to m = Some p) msgs parts ∧ bytes = lines parts.

(** ** Laws of the framing *)

Lemma read_line_at l rest : x0a ∉ l → read_line (l ++ x0a :: rest) = (l ++ [x0a], rest).
Proof.
  induction l as [|b l IH]; [done|]. intros [Hb Hl]%not_elem_of_cons. cbn [app read_line]. rewrite (IH Hl). by destruct b.
Qed.

Lemma trim_newline fuel l : trim_loop (Datatypes.S fuel) white_space_end (x0a :: l) = trim_loop fuel white_space_end l.
Proof. done. Qed.
Lemma trim_line b s c : graphic b → graphic c → trim ((b :: s ++ [c]) ++ [x0a]) = b :: s ++ [c].
Proof.
  intros Hb Hc. unfold trim. change ((b :: s ++ [c]) ++ [x0a]) with (b :: (s ++ [c]) ++ [x0a]). rewrite (trim_loop_stop _ _ _ (graphic_space b _ Hb)).
  assert (EL : length (b :: (s ++ [c]) ++ [x0a]) = Datatypes.S (Datatypes.S (length (s ++ [c])))) by (cbn [length]; rewrite length_app; cbn [length]; lia).
  rewrite EL. change (b :: (s ++ [c]) ++ [x0a]) with ((b :: s ++ [c]) ++ [x0a]). rewrite reverse_snoc. change (b :: s ++ [c]) with ((b :: s) ++ [c]).
  rewrite reverse_snoc, trim_newline.
  rewrite (trim_loop_stop _ _ _ (graphic_space_end c _ Hc)). by rewrite <- reverse_snoc, reverse_involutive.
Qed.

Section framing.
Context {A : Type} {J : Json A} {JL : JsonLaws A}.

(** A message is read as it was written, whatever follows it. *)
Lemma read_written (msg : A) bytes rest : json_to msg = Some bytes → read_ipc_message (bytes ++ x0a :: rest) = (rest, Ok (Some msg)).
Proof using JL.
  intros Hb. unfold read_ipc_message. rewrite read_line_at by by eapply json_line. rewrite (json_text _ _ Hb). cbn [negb].
  destruct (json_ends _ _ Hb) as (b & s & c & -> & Hgb & Hgc). change (length ((b :: s ++ [c]) ++ [x0a]) =? 0)%nat with false. cbv iota.
  rewrite (trim_line b s c Hgb Hgc). change (length (b :: s ++ [c]) =? 0)%nat with false. cbv iota. by rewrite (json_reads _ _ Hb).
Qed.

(** A list of messages, one after the other. *)
Fixpoint read_all (fuel : nat) (s : list byte) : list A :=
  match fuel with
  | O => []
  | Datatypes.S fuel => match read_ipc_message s with (rest, Ok (Some m)) => m :: read_all fuel rest | _ => [] end
  end.
Lemma read_all_written msgs : ∀ bytes fuel, encodings msgs bytes → (length bytes ≤ fuel)%nat → read_all fuel bytes = msgs.
Proof using JL.
  induction msgs as [|m msgs IH]; intros bytes fuel (parts & HF & ->) Hl.
  - inversion HF; subst. by destruct fuel.
  - inversion HF as [|? p ? parts' Hp HF']; subst. rewrite lines_cons in *. rewrite length_app in Hl. cbn [length] in Hl. destruct fuel as [|fuel]; [lia|]. cbn [read_all]. rewrite (read_written _ _ _ Hp).
    f_equal. apply IH; [by exists parts'|lia].
Qed.
End framing.

(** ** Laws of a session *)

Section sessions.
Context {JQ : Json NodeRequest} {JA : Json NodeResponse} {LQ : JsonLaws NodeRequest} {LA : JsonLaws NodeResponse}.
Context {W : Type} (process : NodeRequest → W → W * option NodeResponse).

(** Input at which a session ends: its end, a blank line, or no request. *)
Definition ends_session (input : list byte) : Prop := ∀ rest req, read_ipc_message (A := NodeRequest) input ≠ (rest, Ok (Some req)).

Lemma handle_end fuel input s : ends_session input → handle_client process fuel input s = (s, []).
Proof using Type.
  intros He. destruct fuel as [|fuel]; [done|]. cbn [handle_client]. destruct (read_ipc_message input) as [rest [[req|]|e| |]] eqn:E; try done.
  by destruct (He rest req).
Qed.

Lemma handle_written reqs : ∀ bytes tail fuel s,
  encodings reqs bytes → ends_session tail → (length bytes ≤ fuel)%nat →
  ∃ back, handle_client process fuel (bytes ++ tail) s = ((serve_all process reqs s).1, back) ∧ encodings (serve_all process reqs s).2 back.
Proof using LQ.
  assert (Hnil : encodings ([] : list NodeResponse) []) by by exists [].
  induction reqs as [|req reqs IH]; intros bytes tail fuel s (parts & HF & ->) Htail Hl.
  - inversion HF; subst. exists []. by rewrite (handle_end _ _ _ Htail).
  - inversion HF as [|? p ? parts' Hp HF']; subst. rewrite lines_cons in *. rewrite <- app_assoc. cbn [app].
    rewrite length_app in Hl. cbn [length] in Hl. destruct fuel as [|fuel]; [lia|]. cbn [handle_client serve_all]. rewrite (read_written _ _ _ Hp).
    destruct (process req s) as [s' [resp|]]; [|by exists []]. unfold write_ipc_message. destruct (json_to resp) as [payload|] eqn:Hr; cbn [ok_or obind]; [|by exists []].
    destruct (IH (lines parts') tail fuel s' ltac:(by exists parts') Htail ltac:(lia)) as (back & -> & parts'' & HB & ->).
    destruct (serve_all process reqs s') as [s'' resps]. exists ((payload ++ [x0a]) ++ lines parts''). split; [done|].
    exists (payload :: parts''). split; [by constructor|]. rewrite lines_cons. by rewrite <- app_assoc.
Qed.

(** C38: A session is its requests, one after the other: whatever ends the input,
    the node is left where serving the requests leaves it, and the client reads
    exactly their answers, in their order. A request that makes the node panic
    ends the session, as does a blank line or text that is no request, without
    an answer. *)
Theorem session_spec (reqs : list NodeRequest) (bytes tail : list byte) (s : W) :
  encodings reqs bytes → ends_session tail →
  ∃ back, serve_connection process (bytes ++ tail) s = ((serve_all process reqs s).1, back) ∧
    read_all (length back) back = (serve_all process reqs s).2.
Proof using LQ LA.
  intros Hb Ht. destruct (handle_written reqs bytes tail (length (bytes ++ tail)) s Hb Ht) as (back & HS & HE); [rewrite length_app; lia|].
  exists back. split; [exact HS|]. by apply (read_all_written _ back).
Qed.

Lemma ends_nil : ends_session [].
Proof using Type. intros rest req E. discriminate E. Qed.

(** The command sees the node itself: a request that can be written is served
    once, and its answer comes back as the node gave it; without one the
    connection is abandoned. *)
Theorem send_is_process (req : NodeRequest) (s : W) :
  is_Some (json_to req) →
  send_node_request process true req s =
  let '(s', answer) := process req s in
  (s', match answer with
       | Some resp => if decide (is_Some (json_to resp)) then Ok resp else Err Abandoned
       | None => Err Abandoned
       end).
Proof using LQ LA.
  intros [payload Hp]. unfold send_node_request, write_ipc_message. cbn [negb]. rewrite Hp. cbn [ok_or obind].
  destruct (handle_written [req] (payload ++ [x0a]) [] (length (payload ++ [x0a])) s) as (back & HS & parts & HF & ->); [|exact ends_nil|done|].
  { exists [payload]. split; [by repeat constructor|]. cbn. by rewrite app_nil_r. }
  unfold serve_connection. rewrite app_nil_r in HS. rewrite HS. cbn [serve_all] in *.
  destruct (process req s) as [s' [resp|]]; [|by inversion HF; subst]. destruct (json_to resp) as [answer|] eqn:Hr.
  - cbn in HF. inversion HF as [|? p ? ps Hp' HF']; subst. inversion HF'; subst. rewrite Hr in Hp'. injection Hp' as <-. rewrite lines_cons.
    rewrite (read_written _ _ _ Hr). cbn [snd]. rewrite decide_True by by eexists. done.
  - inversion HF; subst. rewrite decide_False by (intros [? ?]; done). done.
Qed.
End sessions.

(** ** Witnesses *)

(** Messages of three bytes: a quote, a letter, a quote. *)
Definition quoted (b : byte) : list byte := [x22; b; x22].
Definition toy_requests : Json NodeRequest := {|
  json_to r := match r with SetMining true => Some (quoted x61) | SetMining false => Some (quoted x62) | StopNode => Some (quoted x63) | _ => None end;
  json_from s := if bool_decide (s = quoted x61) then Some (SetMining true) else if bool_decide (s = quoted x62) then Some (SetMining false)
                 else if bool_decide (s = quoted x63) then Some StopNode else None
|}.
Definition toy_responses : Json NodeResponse := {|
  json_to r := match r with MiningToggled true => Some (quoted x61) | MiningToggled false => Some (quoted x62) | ShutdownSent => Some (quoted x63) | _ => None end;
  json_from s := if bool_decide (s = quoted x61) then Some (MiningToggled true) else if bool_decide (s = quoted x62) then Some (MiningToggled false)
                 else if bool_decide (s = quoted x63) then Some ShutdownSent else None
|}.
Lemma quoted_laws b : (Byte.to_N b <? 128) = true → b ≠ x0a →
  x0a ∉ quoted b ∧ ∃ b1 s c, quoted b = b1 :: s ++ [c] ∧ graphic b1 ∧ graphic c.
Proof.
  intros _ Hb. split; [unfold quoted; rewrite !not_elem_of_cons; split; [done|]; split; [done|]; split; [done|apply not_elem_of_nil]|].
  exists x22, [b], x22. split; [done|]. by repeat split.
Qed.
Lemma toy_requests_laws : JsonLaws NodeRequest (J := toy_requests).
Proof.
  split; intros x bytes; destruct x as [| | |[]| | | | | |]; cbn [json_to toy_requests]; try done; intros [= <-];
    try (vm_compute; reflexivity); by apply quoted_laws.
Qed.
Lemma toy_responses_laws : JsonLaws NodeResponse (J := toy_responses).
Proof.
  split; intros x bytes; destruct x as [| | | | | |[]| | |]; cbn [json_to toy_responses]; try done; intros [= <-];
    try (vm_compute; reflexivity); by apply quoted_laws.
Qed.

(** A node that mines or does not, and panics when it is told to stop twice. *)
Definition toy_process (r : NodeRequest) (s : bool * bool) : bool * bool * option NodeResponse :=
  match r with
  | SetMining b => ((b, s.2), Some (MiningToggled b))
  | StopNode => ((s.1, true), if s.2 then None else Some ShutdownSent)
  | _ => (s, None)
  end.
Definition toy_session : list NodeRequest := [SetMining true; StopNode; SetMining false; StopNode; SetMining true].

Lemma session_spec_witness :
  ∃ bytes, encodings (H := toy_requests) toy_session bytes ∧ ends_session (JQ := toy_requests) [] ∧
  ∃ back, serve_connection (JQ := toy_requests) (JA := toy_responses) toy_process (bytes ++ []) (false, false) = ((false, true), back) ∧
    read_all (J := toy_responses) (length back) back = [MiningToggled true; ShutdownSent; MiningToggled false].
Proof.
  pose (bytes := lines [quoted x61; quoted x63; quoted x62; quoted x63; quoted x61]).
  assert (HE : encodings (H := toy_requests) toy_session bytes).
  { exists [quoted x61; quoted x63; quoted x62; quoted x63; quoted x61]. split; [by repeat constructor|done]. }
  exists bytes. split; [exact HE|]. split; [exact (ends_nil (JQ := toy_requests))|].
  destruct (session_spec (JQ := toy_requests) (JA := toy_responses) (LQ := toy_requests_laws) (LA := toy_responses_laws)
    toy_process toy_session bytes [] (false, false) HE (ends_nil (JQ := toy_requests))) as (back & HS & HR).
  exists back. split; [exact HS|exact HR].
Defined.
