(* ===== verification/Transfer.v ===== *)
(** * Transfers from the command line

    What the commands [transfer-p2pkh] and [embed-data] of
    [apps/scytale-cli/src/main.rs] do with a wallet and a node: the selection of
    outputs, the transaction, its signatures; with the answers of the node in
    [ipc.rs], and the analysis of a lock in [http_gateway.rs]. The connection to
    the node, over which a command sends its requests, is a parameter that the
    node itself instantiates. What is printed is not modelled. *)

From S2P Require Import Prelude Bytes Primitives Address Account Types Codec Transaction Utxo Merkle Genesis.
From S2P Require Import Words Target Work Tables Storage StorageSpec Store Stack Script Authorization Mempool MempoolInv.
From S2P Require Import MempoolSpec Consensus Chain Vm VmAdapter Mining Node NodeQuery Passbook Bridge Wallet.
Local Open Scope N_scope.
Local Open Scope scy_scope.

(** ** The answers of the node *)

Definition dto_of (oe : OutPoint * UtxoEntry) : UtxoDto :=
  mkUtxoDto (hash_display (op_txid oe.1)) (op_index oe.1) (value (output oe.2)) (to_hex (locking_condition (output oe.2)))
    (block_height oe.2) (is_coinbase_output oe.2).

(** The outputs under a lock, in the order of the map. *)
Definition owned_entries (lock : list byte) (s : UtxoSet) : list (OutPoint * UtxoEntry) :=
  filter (λ oe, locking_condition (output oe.2) = lock) (map_to_list s).

Inductive ClientError :=
| DaemonNotRunning
| Disconnected
| BridgeFailure
| ClientIo
| ClientWallet (e : WalletError)
| ClientPin (e : CliError)
| InvalidRecipient (e : AddressError)
| NodeMessage (message : IpcMessage)
| RejectedByNode (message : IpcMessage)
| UnexpectedResponse
| AmountPlusFeeOverflow
| InvalidTxidInUtxo (e : PrimitiveError)
| InvalidHexString (e : PrimitiveError)
| WasmNotFound
| WasmUnreadable
| InvalidDatumHex
| InvalidRedeemerHex
| InvalidSignatureHex
| InvalidToHex
| SignatureNot64
| WalletNotLoaded (e : WalletError)
| InvalidUtxoFormat
| InvalidOutputIndex
| InvalidTxidHexText
| TxidNot32
| InputValueUnknown
| OutputExceedsInput
| DryRunTrapped (e : VmError)
| DryRunRejected
| TransactionNotSerialized (e : SerializationError)
| GatewayFailure
| GatewayRefused.

(** ** Selection and construction *)

(** [sort_by_key] by the value in reverse, which is stable. *)
Definition by_value (a b : UtxoDto) : bool := value_quanta b <=? value_quanta a.

Fixpoint select_utxos (needed : N) (utxos selected : list UtxoDto) (accumulated : N) : list UtxoDto * N :=
  match utxos with
  | [] => (selected, accumulated)
  | u :: utxos =>
      let accumulated := saturating_add accumulated (value_quanta u) in
      let selected := selected ++ [u] in
      if needed <=? accumulated then (selected, accumulated) else select_utxos needed utxos selected accumulated
  end.

Definition fund (total_needed : N) (utxos : list UtxoDto) : outcome ClientError (list UtxoDto * N) :=
  let '(selected, accumulated) := select_utxos total_needed (sort_stable by_value utxos) [] 0 in
  if accumulated <? total_needed then Err (ClientWallet (WalletInsufficientFunds total_needed accumulated))
  else Ok (selected, accumulated).

Definition inputs_of (selected : list UtxoDto) : outcome ClientError (list TxIn) :=
  omap_list (λ u,
    let? txid := map_err InvalidTxidInUtxo (hash_from_str (txid_hex u)) in
    Ok (TxIn_new (mkOutPoint txid (dto_index u)) [])) selected.

(** The first output and, when something is left, the change. *)
Definition outputs_of (first : TxOut) (sender_lock : list byte) (accumulated total_needed : N) : list TxOut :=
  first :: (if total_needed <? accumulated then [mkTxOut (accumulated - total_needed) sender_lock] else []).

Section client.
Context {B3 : Blake3} {ED : Ed25519} {EV : Ed25519Verify} {ES : Ed25519Sign} {BE : Bech32} {KC : KeyCipher} {BC : Bincode}.

Definition set_authorization (i : nat) (proof : list byte) (tx : Transaction) : Transaction :=
  mkTransaction (tx_version tx) (alter (λ input, mkTxIn (previous_output input) proof (sequence input)) i (inputs tx))
    (outputs tx) (lock_time tx).

(** The loop that signs the inputs [i ..]. *)
Fixpoint sign_inputs (n i : nat) (seed pubkey sender_lock : list byte) (tx : Transaction) : Transaction :=
  match n with
  | O => tx
  | S n =>
      let sighash := compute_sighash tx (N.of_nat i) sender_lock in
      let sig := sign seed (hash_bytes sighash) in
      sign_inputs n (S i) seed pubkey sender_lock (set_authorization i (build_p2pkh_unlocking_script sig pubkey) tx)
  end.
Definition sign_transaction (seed pubkey sender_lock : list byte) (tx : Transaction) : Transaction :=
  sign_inputs (length (inputs tx)) 0 seed pubkey sender_lock tx.

Context {S : Type} (send : NodeRequest → stM S ClientError NodeResponse).

Definition ask_utxos (sender_lock : list byte) : stM S ClientError (list UtxoDto) :=
  let! resp := send (GetUtxosByLock sender_lock) in
  slift (match resp with
         | Utxos u => Ok u
         | NodeErrorResponse message => Err (NodeMessage message)
         | _ => Err UnexpectedResponse
         end).
Definition submit_raw (tx : Transaction) : stM S ClientError (list byte) :=
  let! resp := send (SubmitRawTransaction tx) in
  slift (match resp with
         | TransactionSubmitted txid => Ok txid
         | NodeErrorResponse message => Err (RejectedByNode message)
         | _ => Err UnexpectedResponse
         end).

(** The key of the wallet; [pin] is what [collect_pin] gives. *)
Definition transfer_key (status : option (list byte)) (pin : outcome CliError (list byte)) (w : WalletFile) : outcome ClientError (list byte) :=
  if bool_decide (is_Some (encrypted_key w)) then
    let? pin := map_err ClientPin pin in map_err ClientWallet (signing_key_with_pin status pin w)
  else map_err ClientWallet (signing_key w).

(** [resolve] asks the gateway what an account number stands for. *)
Definition transfer_p2pkh (resolve : list byte → stM S ClientError (list byte)) (status : option (list byte)) (pin : outcome CliError (list byte))
    (wallet : outcome WalletError WalletFile) (to : list byte) (amount fee : N) : stM S ClientError (list byte) :=
  let! wallet := slift (map_err ClientWallet wallet) in
  let! resolved_to := (if bool_decide (is_Some (strip_prefix ACCOUNT_PREFIX to)) then resolve to else sret to) in
  let! recipient_addr := slift (map_err InvalidRecipient (address_parse resolved_to)) in
  let recipient_lock := build_p2pkh_locking_script (address_hash recipient_addr) in
  let! sender_lock := slift (map_err ClientWallet (p2pkh_locking_script wallet)) in
  let! utxos := ask_utxos sender_lock in
  let! total_needed := slift (ok_or (checked_add amount fee) AmountPlusFeeOverflow) in
  let! (selected, accumulated) := slift (fund total_needed utxos) in
  let! ins := slift (inputs_of selected) in
  let tx := mkTransaction TRANSACTION_VERSION_1 ins (outputs_of (mkTxOut amount recipient_lock) sender_lock accumulated total_needed) 0 in
  let! seed := slift (transfer_key status pin wallet) in
  let! pubkey := slift (map_err ClientWallet (verifying_key_bytes wallet)) in
  submit_raw (sign_transaction seed pubkey sender_lock tx).

(** The bytes to embed: hexadecimal after [0x], else the text. *)
Definition payload_of (data : list byte) : outcome ClientError (list byte) :=
  match strip_prefix [x30; x78] data with
  | Some hex_str => map_err InvalidHexString (from_hex hex_str)
  | None => Ok data
  end.
Definition MAX_DATA : nat := 80.

Definition embed_data (wallet : outcome WalletError WalletFile) (data : list byte) (fee : N) : stM S ClientError (list byte) :=
  let! wallet := slift (map_err ClientWallet wallet) in
  let! payload := slift (payload_of data) in
  if (MAX_DATA <? length payload)%nat
  then slift (Err (ClientWallet (DataPayloadTooLarge (N.of_nat (length payload)) (N.of_nat MAX_DATA))))
  else
    let op_return_lock := build_op_return_script payload in
    let! sender_lock := slift (map_err ClientWallet (p2pkh_locking_script wallet)) in
    let! utxos := ask_utxos sender_lock in
    let '(selected, accumulated) := select_utxos fee (sort_stable by_value utxos) [] 0 in
    if (accumulated <? fee) || bool_decide (selected = [])
    then slift (Err (ClientWallet (WalletInsufficientFunds (N.max fee 1) accumulated)))
    else
      let! ins := slift (inputs_of selected) in
      let tx := mkTransaction TRANSACTION_VERSION_1 ins (outputs_of (mkTxOut 0 op_return_lock) sender_lock accumulated fee) 0 in
      let! seed := slift (map_err ClientWallet (signing_key wallet)) in
      let! pubkey := slift (map_err ClientWallet (verifying_key_bytes wallet)) in
      submit_raw (sign_transaction seed pubkey sender_lock tx).
End client.

(** ** The node as the other side *)

Section local_node.
Context {B3 : Blake3} {ED : Ed25519} {BC : Bincode} {WM : Wasmi} {PC : Payload TxContext} {BS : BlockStore}.

(** Two of the requests [process_request] serves. No answer stands for a panic. *)
Definition utxos_by_lock (locking_script : list byte) (s : Shared) : NodeResponse :=
  Utxos (dto_of <$> owned_entries locking_script (utxo_set s)).
Definition submit_raw_transaction (now : N) (tx : Transaction) (s : Shared) : Shared * option NodeResponse :=
  match submit_transaction now tx s with
  | (s, Ok id) => (s, Some (TransactionSubmitted (hash_display id)))
  | (s, Err e) => (s, Some (NodeErrorResponse (OfNode e)))
  | (s, _) => (s, None)
  end.

(** A node at [now], whatever it does with other requests, and what a command
    sees of it: [send_is_process] says that the socket adds nothing. *)
Definition node_side (other : NodeRequest → Shared → Shared * option NodeResponse) (now : N) (request : NodeRequest) (s : Shared) :
    Shared * option NodeResponse :=
  match request with
  | GetUtxosByLock lock => (s, Some (utxos_by_lock lock s))
  | SubmitRawTransaction tx => submit_raw_transaction now tx s
  | request => other request s
  end.
Definition local_node (other : NodeRequest → Shared → Shared * option NodeResponse) (now : N) (request : NodeRequest) (s : Shared) :
    Shared * outcome ClientError NodeResponse :=
  let '(s, answer) := node_side other now request s in (s, ok_or answer Disconnected).
End local_node.

(** What the gateway tells of a locking script: the bytes carried by one that
    starts with [OP_RETURN], which are shown as text, or an address. *)
Inductive ScriptAnalysis :=
| OpReturnPayload (payload : list byte)
| P2pkhAddress (address : list byte)
| CustomScript.
Definition op_return_payload (rest : list byte) : list byte :=
  match rest with
  | [] => []
  | n :: data =>
      if Byte.to_N n <=? 75 then take (N.to_nat (Byte.to_N n)) data
      else match n, data with
           | x4c, len :: data => take (N.to_nat (Byte.to_N len)) data
           | _, _ => rest
           end
  end.
Definition analyze_locking_script {BE : Bech32} (script : list byte) : ScriptAnalysis :=
  match script with
  | x6a :: rest => OpReturnPayload (op_return_payload rest)
  | _ =>
      if (length script =? 37)%nat && bool_decide (take 3 script = [x73; xa0; x20]) && bool_decide (drop 35 script = [x88; xac]) then
        match hash_of_list (take 32 (drop 3 script)) with
        | Some hash => match to_bech32 (Address_new hash) with Ok s => P2pkhAddress s | _ => CustomScript end
        | None => CustomScript
        end
      else CustomScript
  end.

(** ** The selection *)

Definition dtos_value (l : list UtxoDto) : N := foldr (λ u total, value_quanta u + total) 0 l.
Definition entries_value (l : list (OutPoint * UtxoEntry)) : N := outputs_value (output <$> l.*2).

Lemma dtos_value_app l1 l2 : dtos_value (l1 ++ l2) = dtos_value l1 + dtos_value l2.
Proof. induction l1 as [|u l1 IH]; [done|]. unfold dtos_value in *. cbn [app foldr]. rewrite IH. lia. Qed.
Lemma dtos_value_perm l1 l2 : l1 ≡ₚ l2 → dtos_value l1 = dtos_value l2.
Proof. induction 1; unfold dtos_value in *; cbn [foldr]; lia. Qed.
Lemma dtos_value_entries es : dtos_value (dto_of <$> es) = entries_value es.
Proof. induction es as [|[o e] es IH]; [done|]. unfold dtos_value, entries_value, outputs_value in *. cbn. by rewrite IH. Qed.

(** The outputs taken are the first ones, up to the one that reaches what is
    needed; the amount saturates. *)
Lemma select_utxos_spec needed us selected accumulated :
  accumulated ≤ U64_MAX →
  ∃ chosen rest, us = chosen ++ rest ∧
    select_utxos needed us selected accumulated = (selected ++ chosen, N.min U64_MAX (accumulated + dtos_value chosen)) ∧
    (needed ≤ N.min U64_MAX (accumulated + dtos_value chosen) ∨ rest = []) ∧ (us ≠ [] → chosen ≠ []) ∧
    ∀ pre post, chosen = pre ++ post → pre ≠ [] → post ≠ [] → N.min U64_MAX (accumulated + dtos_value pre) < needed.
Proof.
  revert selected accumulated. induction us as [|u us IH]; intros selected accumulated Ha.
  { exists [], []. cbn. rewrite N.add_0_r, N.min_r, app_nil_r by done. split; [done|]. split; [done|]. split; [by right|]. split; [done|].
    intros [|] post E; [done|discriminate E]. }
  cbn [select_utxos]. set (acc := saturating_add accumulated (value_quanta u)).
  assert (Eacc : acc = N.min U64_MAX (accumulated + value_quanta u)) by (unfold acc, saturating_add; lia).
  destruct (N.leb_spec needed acc) as [Hle|Hlt].
  - exists [u], us. change (dtos_value [u]) with (value_quanta u + 0). rewrite N.add_0_r, <- Eacc.
    split; [done|]. split; [done|]. split; [by left|]. split; [done|].
    intros [|x pre] post E; [done|]. injection E as -> E. symmetry in E. apply app_eq_nil in E as [-> ->]. done.
  - destruct (IH (selected ++ [u]) acc) as (chosen & rest & -> & -> & Hn & _ & Hmin); [lia|].
    exists (u :: chosen), rest. change (dtos_value (u :: chosen)) with (value_quanta u + dtos_value chosen).
    assert (Emin : N.min U64_MAX (acc + dtos_value chosen) = N.min U64_MAX (accumulated + (value_quanta u + dtos_value chosen))) by lia.
    rewrite <- Emin. split; [done|]. split; [by rewrite <- app_assoc|]. split; [done|]. split; [done|].
    intros [|x pre] post E Hpre Hpost; [done|]. injection E as <- E. change (dtos_value (u :: pre)) with (value_quanta u + dtos_value pre).
    destruct pre as [|y pre]; [change (dtos_value []) with 0; lia|]. specialize (Hmin (y :: pre) post E ltac:(done) Hpost). lia.
Qed.

Lemma by_value_total a b : by_value a b = false → by_value b a = true.
Proof. unfold by_value. intros H%N.leb_gt. apply N.leb_le. lia. Qed.
Lemma by_value_trans a b c : by_value a b = true → by_value b c = true → by_value a c = true.
Proof. unfold by_value. rewrite !N.leb_le. lia. Qed.

(** What is chosen among the entries [es]. *)
Record chosen_from (needed : N) (es chosen : list (OutPoint * UtxoEntry)) : Prop := {
  cf_sub : chosen ⊆+ es;
  cf_enough : needed ≤ entries_value chosen;
  cf_nonempty : es ≠ [] → chosen ≠ [];
  cf_minimal pre post : chosen = pre ++ post → pre ≠ [] → post ≠ [] → entries_value pre < needed;
  cf_largest x y : x ∈ chosen → y ∈ es → y ∉ chosen → value (output y.2) ≤ value (output x.2)
}.

Lemma selection_spec needed es :
  entries_value es ≤ U64_MAX →
  (needed ≤ entries_value es ∧ ∃ chosen, chosen_from needed es chosen ∧
     select_utxos needed (sort_stable by_value (dto_of <$> es)) [] 0 = (dto_of <$> chosen, entries_value chosen)) ∨
  (entries_value es < needed ∧ ∃ sel, select_utxos needed (sort_stable by_value (dto_of <$> es)) [] 0 = (sel, entries_value es)).
Proof.
  intros HU. pose proof (sort_stable_perm by_value (dto_of <$> es)) as HP.
  pose proof (sort_stable_sorted by_value by_value_total by_value_trans (dto_of <$> es)) as HS.
  destruct (select_utxos_spec needed (sort_stable by_value (dto_of <$> es)) [] 0 ltac:(done)) as (ch & rest & E & HE & Hn & Hne & Hmin).
  rewrite N.add_0_l in HE, Hn. cbn [app] in HE.
  destruct (Permutation_map_inv dto_of es HP) as (es' & E' & HPe). change (map dto_of es') with (dto_of <$> es') in E'.
  rewrite E in E', HS. symmetry in E'. apply fmap_app_inv in E' as (c & r & -> & -> & ->).
  assert (Hsum : entries_value (c ++ r) = entries_value es).
  { rewrite <- !dtos_value_entries. apply dtos_value_perm. by rewrite HPe. }
  assert (Hcr : entries_value (c ++ r) = entries_value c + entries_value r).
  { unfold entries_value. by rewrite !fmap_app, outputs_value_app. }
  rewrite dtos_value_entries in HE, Hn. rewrite N.min_r in HE, Hn by lia.
  destruct (N.le_gt_cases needed (entries_value es)) as [Hle|Hgt].
  - left. split; [done|]. exists c. split; [|done].
    assert (Hc : needed ≤ entries_value c).
    { destruct Hn as [|Hr]; [done|]. apply fmap_nil_inv in Hr. subst r. rewrite app_nil_r in Hsum. lia. }
    split.
    + rewrite HPe. by apply submseteq_inserts_r.
    + done.
    + intros Hes ->. apply Hne; [|done]. rewrite E. intros EE%app_eq_nil. destruct EE as [_ EE%fmap_nil_inv]. subst r. apply Permutation_nil_r in HPe. done.
    + intros pre post -> Hpre Hpost. 
      assert (HM : N.min U64_MAX (0 + dtos_value (dto_of <$> pre)) < needed) by (eapply (Hmin _ (dto_of <$> post)); [by rewrite fmap_app|by destruct pre|by destruct post]).
      rewrite dtos_value_entries in HM. unfold entries_value in *. rewrite !fmap_app, outputs_value_app in *. lia.
    + intros x y Hx Hy Hyc. rewrite HPe in Hy. apply elem_of_app in Hy as [|Hy]; [done|].
      apply StronglySorted_app in HS as (HS & _ & _).
      specialize (HS (dto_of x) (dto_of y) ltac:(by apply list_elem_of_fmap_2) ltac:(by apply list_elem_of_fmap_2)). by apply N.leb_le in HS.
  - right. split; [done|]. exists (dto_of <$> c). rewrite HE. f_equal.
    destruct Hn as [|Hr]; [lia|]. apply fmap_nil_inv in Hr. subst r. rewrite app_nil_r in Hsum. done.
Qed.

Lemma inputs_of_entries es :
  inputs_of (dto_of <$> es) = Ok ((λ oe, TxIn_new oe.1 []) <$> es).
Proof.
  unfold inputs_of. apply omap_list_Ok. induction es as [|[o e] es IH]; constructor; [|exact IH].
  cbn [dto_of txid_hex dto_index fst snd]. rewrite (proj1 (proj2 (proj2 (hex_roundtrip [] (op_txid o))))). cbn [map_err obind]. by destruct o.
Qed.

(** ** The signatures *)

Section signing.
Context {B3 : Blake3} `{SL : Ed25519SignLaws} {BC : Bincode}.

Lemma compute_sighash_same tx tx' i lock :
  previous_output <$> inputs tx = previous_output <$> inputs tx' → outputs tx = outputs tx' →
  compute_sighash tx i lock = compute_sighash tx' i lock.
Proof.
  intros Ei Eo. unfold compute_sighash, sighash_preimage. rewrite Eo. do 2 f_equal.
  assert (HB : ∀ l : list TxIn, l ≫= (λ i, outpoint_bytes (previous_output i)) = (previous_output <$> l) ≫= outpoint_bytes).
  { induction l as [|x l IH]; [done|]. cbn. by rewrite IH. }
  by rewrite !HB, Ei.
Qed.

Definition proof_of (seed pubkey lock : list byte) (tx : Transaction) (i : nat) : list byte :=
  build_p2pkh_unlocking_script (sign seed (hash_bytes (compute_sighash tx (N.of_nat i) lock))) pubkey.
Definition signed (seed pubkey lock : list byte) (tx : Transaction) : Transaction :=
  mkTransaction (tx_version tx) (imap (λ i input, mkTxIn (previous_output input) (proof_of seed pubkey lock tx i) (sequence input)) (inputs tx))
    (outputs tx) (lock_time tx).

Lemma sign_inputs_loop seed pubkey lock tx0 tx front back :
  inputs tx = front ++ back → previous_output <$> inputs tx = previous_output <$> inputs tx0 → outputs tx = outputs tx0 →
  sign_inputs (length back) (length front) seed pubkey lock tx =
  mkTransaction (tx_version tx)
    (front ++ imap (λ k input, mkTxIn (previous_output input) (proof_of seed pubkey lock tx0 (length front + k)) (sequence input)) back)
    (outputs tx) (lock_time tx).
Proof.
  revert tx front. induction back as [|x back IH]; intros tx front Ei Ep Eo.
  { cbn. rewrite app_nil_r in *. rewrite <- Ei. by destruct tx. }
  cbn [length sign_inputs]. set (proof := build_p2pkh_unlocking_script _ _).
  assert (Hproof : proof = proof_of seed pubkey lock tx0 (length front)).
  { unfold proof, proof_of. do 3 f_equal. by apply compute_sighash_same. }
  set (tx1 := set_authorization _ _ _).
  assert (E1 : inputs tx1 = (front ++ [mkTxIn (previous_output x) proof (sequence x)]) ++ back).
  { unfold tx1, set_authorization. cbn [inputs]. rewrite Ei, alter_app_r_alt, Nat.sub_diag by lia. cbn. by rewrite <- app_assoc. }
  specialize (IH tx1 (front ++ [mkTxIn (previous_output x) proof (sequence x)]) E1).
  rewrite length_app in IH. cbn [length] in IH. rewrite Nat.add_1_r in IH. rewrite IH.
  - cbn [tx1 set_authorization tx_version outputs lock_time imap]. rewrite <- app_assoc, Hproof, Nat.add_0_r. cbn [app]. do 3 f_equal.
    apply imap_ext. intros k y _. cbn [compose]. by rewrite Nat.add_succ_r.
  - rewrite E1, <- Ep, Ei. by rewrite !fmap_app, <- app_assoc.
  - exact Eo.
Qed.
Lemma sign_transaction_signed seed pubkey lock tx : sign_transaction seed pubkey lock tx = signed seed pubkey lock tx.
Proof. apply (sign_inputs_loop seed pubkey lock tx tx [] (inputs tx)); done. Qed.

Lemma signed_outpoints seed pubkey lock tx : previous_output <$> inputs (signed seed pubkey lock tx) = previous_output <$> inputs tx.
Proof. cbn [signed inputs]. rewrite fmap_imap. apply imap_const. Qed.
Lemma signed_input seed pubkey lock tx i input :
  inputs (signed seed pubkey lock tx) !! i = Some input →
  ∃ input0, inputs tx !! i = Some input0 ∧ previous_output input = previous_output input0 ∧
    authorization input = build_p2pkh_unlocking_script
      (sign seed (hash_bytes (compute_sighash (signed seed pubkey lock tx) (N.of_nat i) lock))) pubkey.
Proof.
  cbn [signed inputs]. rewrite list_lookup_imap. destruct (inputs tx !! i) as [x|]; [|done]. intros [= <-]. exists x. split; [done|]. split; [done|].
  cbn [authorization]. unfold proof_of. do 3 f_equal. apply compute_sighash_same; [|done]. by rewrite signed_outpoints.
Qed.

(** The lock of the key accepts its proof. *)
Lemma owner_executes seed digest height :
  execute DEFAULT_MAX_OPS_BUDGET (mkScriptContext digest height)
    (build_p2pkh_unlocking_script (sign seed (hash_bytes digest)) (verifying_key seed)) (p2pkh_script (blake3 (verifying_key seed))) = Ok true.
Proof.
  apply p2pkh_execute; [by vm_compute|]. exists (verifying_key seed), (sign seed (hash_bytes digest)), [], 254.
  pose proof (signature_length seed (hash_bytes digest)). pose proof (verifying_key_length seed).
  split; [unfold build_p2pkh_unlocking_script; rewrite execute_pushes; [done|lia|lia|by vm_compute]|]. split; [lia|]. split; [done|].
  unfold verify_signature. rewrite signature_length, verifying_key_length. cbn [Nat.eqb negb orb sighash].
  destruct (signs seed) as (vk & -> & Hs). by destruct (Hs (hash_bytes digest)).
Qed.

Definition key_lock (seed : list byte) : list byte := p2pkh_script (blake3 (verifying_key seed)).

Lemma key_lock_script seed height digest proof :
  authorization_verify (AuthorizationVerifier := ConsensusScriptVerifier height) digest (key_lock seed) proof = Ok tt ↔
  execute DEFAULT_MAX_OPS_BUDGET (mkScriptContext digest height) proof (key_lock seed) = Ok true.
Proof. by apply consensus_verifier_script. Qed.

Lemma verify_inputs_signed seed tx s height i ins :
  drop i (inputs tx) = ins →
  (∀ input, input ∈ inputs tx → ∃ e, s !! previous_output input = Some e ∧ locking_condition (output e) = key_lock seed) →
  (∀ k input, inputs tx !! k = Some input → authorization input = build_p2pkh_unlocking_script
      (sign seed (hash_bytes (compute_sighash tx (N.of_nat k) (key_lock seed)))) (verifying_key seed)) →
  verify_inputs tx height s (N.of_nat i) ins = Ok tt.
Proof.
  intros Hd Hs Ha. revert i Hd. induction ins as [|input ins IH]; intros i Hd; [done|]. cbn [verify_inputs].
  assert (Hi : inputs tx !! i = Some input) by (rewrite <- (Nat.add_0_r i), <- lookup_drop, Hd; done).
  destruct (Hs input) as (e & -> & El); [by eapply list_elem_of_lookup_2|]. cbn [ok_or obind]. rewrite El.
  replace (bool_decide (take 4 (key_lock seed) = LOCK_MAGIC_PREFIX)) with false by (symmetry; by apply bool_decide_eq_false_2).
  cbn [andb]. rewrite (Ha i input Hi), owner_executes. cbn [map_err obind negb].
  replace (N.of_nat i + 1) with (N.of_nat (S i)) by lia. apply IH.
  rewrite <- Nat.add_1_r, <- drop_drop, Hd. done.
Qed.
End signing.

(** ** The size of a transaction *)

Definition listing {A} (f : A → N) (l : list A) : N := foldr (λ x total, f x + total) 0 l.
Lemma listing_const {A} (f : A → N) c l : Forall (λ x, f x = c) l → listing f l = c * N.of_nat (length l).
Proof. induction 1 as [|x l Hx _ IH]; cbn [listing foldr length]; [lia|]. unfold listing in IH. rewrite IH, Hx. lia. Qed.

Lemma serialize_each_length {A} `{CanonicalSerialize A} (f : A → N) l bs :
  (∀ x b, x ∈ l → serialize_canonical x = Ok b → N.of_nat (length b) = f x) →
  serialize_each l = Ok bs → N.of_nat (length bs) = listing f l.
Proof.
  revert bs. induction l as [|x l IH]; intros bs Hf E; cbn [serialize_each] in E; [by injection E as <-|].
  apply obind_Ok in E as (a & Ea & E). apply obind_Ok in E as (b & Eb & E). injection E as <-.
  rewrite length_app, Nat2N.inj_add, (Hf x a ltac:(by left) Ea), (IH b); [done| |done]. intros y c Hy. apply Hf. by right.
Qed.

Lemma to_canonical_length tx bs :
  to_canonical_bytes tx = Ok bs →
  N.of_nat (length bs) = 20 + listing (λ i, 44 + N.of_nat (length (authorization i))) (inputs tx) +
                         listing (λ o, 12 + N.of_nat (length (locking_condition o))) (outputs tx).
Proof.
  unfold to_canonical_bytes, serialize_canonical at 1, ser_transaction, serialize_counted, write_u32, write_u64. cbn [obind].
  intros E. apply obind_Ok in E as (bs' & E & Eb). injection Eb as ->. apply obind_Ok in E as (ins & Ei & E). apply obind_Ok in Ei as (xs & Ex & Ei). injection Ei as <-.
  apply obind_Ok in E as (outs & Eo & E). apply obind_Ok in Eo as (ys & Ey & Eo). injection Eo as <-. injection E as <-.
  repeat (progress (cbn [length]; rewrite ?length_app)).
  assert (HB : ∀ v b, serialize_canonical v = Ok b → N.of_nat (length b) = 4 + N.of_nat (length v)).
  { intros v b. unfold serialize_canonical, ser_bytes. destruct (_ <? _); [done|]. unfold write_u32. cbn [obind]. intros E. injection E as <-. cbn [length]. lia. }
  assert (Hx : N.of_nat (length xs) = listing (λ i, 44 + N.of_nat (length (authorization i))) (inputs tx)).
  { eapply serialize_each_length; [|exact Ex]. intros [o a q] b _. unfold serialize_canonical at 1, ser_txin. cbn [previous_output authorization sequence].
      unfold serialize_canonical at 1, ser_outpoint, serialize_canonical at 1, ser_hash, write_u32. cbn [obind].
      intros (c & Ec & E)%obind_Ok. injection E as <-. pose proof (HB _ _ Ec). repeat (progress (cbn [length]; rewrite ?length_app, ?hash_length, ?length_le_bytes)). lia. }
  assert (Hy : N.of_nat (length ys) = listing (λ o, 12 + N.of_nat (length (locking_condition o))) (outputs tx)).
  { eapply serialize_each_length; [|exact Ey]. intros [v l] b _. unfold serialize_canonical at 1, ser_txout, write_u64. cbn [value locking_condition obind].
      intros (c & Ec & E)%obind_Ok. injection E as <-. pose proof (HB _ _ Ec). repeat (progress (cbn [length]; rewrite ?length_app)). lia. }
  rewrite length_le_bytes. lia.
Qed.

(** ** A funded transaction *)

(** The tag of a lock, which [bincode] writes in four bytes before its fields. *)
Class BincodeTag {BC : Bincode} := lock_tag bytes l : bincode_de_lock bytes = Some l → le_val (take 4 bytes) < 2.

Lemma is_null_true o : is_null o = true → o = OutPoint_null.
Proof.
  destruct o as [h i]. unfold is_null, is_zero. cbn [op_txid op_index]. rewrite andb_true_iff, forallb_forall. intros [HF ->%N.eqb_eq].
  unfold OutPoint_null. f_equal. apply hash_eq. change (hash_bytes ZERO) with (replicate 32 x00). symmetry. apply replicate_as_Forall.
  split; [apply hash_length|]. apply Forall_forall. intros b Hb%list_elem_of_In%HF. by apply bool_decide_eq_true_1 in Hb.
Qed.

Lemma check_dust_Err l : check_dust l ≠ Ok tt → check_dust l = Err ZeroOutputValue.
Proof. induction l as [|o l IH]; [done|]. cbn [check_dust]. destruct (_ && _); [done|exact IH]. Qed.

Section funded.
Context {B3 : Blake3} `{SL : Ed25519SignLaws} {BC : Bincode} {BT : BincodeTag} {WM : Wasmi} {PC : Payload TxContext} {BS : BlockStore}.

Lemma key_lock_no_script seed : script_lock (key_lock seed) = None.
Proof using BT.
  unfold script_lock, from_locking_condition. rewrite (bool_decide_eq_false_2 (take 4 (key_lock seed) = LOCK_MAGIC_PREFIX)) by by intros [=].
  rewrite andb_false_r. destruct (bincode_de_lock (key_lock seed)) as [l|] eqn:E; [|done]. apply lock_tag in E. exfalso. revert E.
  unfold key_lock, p2pkh_script. pose proof (hash_length (blake3 (verifying_key seed))) as Hl. destruct (hash_bytes _) as [|b rest]; [done|].
  cbn [app take firstn]. generalize (take 0 (rest ++ [x88; xac])). intros r.
  change (le_val (x73 :: xa0 :: x20 :: b :: r)) with (115 + 256 * le_val (xa0 :: x20 :: b :: r)). lia.
Qed.
Lemma key_lock_length seed : length (key_lock seed) = 37%nat.
Proof. unfold key_lock, p2pkh_script. rewrite !length_app, hash_length. done. Qed.
Lemma proof_length seed digest : length (build_p2pkh_unlocking_script (sign seed digest) (verifying_key seed)) = 98%nat.
Proof.
  unfold build_p2pkh_unlocking_script, builder_push_data. rewrite signature_length, verifying_key_length. cbn [Nat.eqb Nat.leb].
  rewrite length_app. cbn [length app]. by rewrite signature_length, verifying_key_length.
Qed.

Variables (seed : list byte) (s : UtxoSet) (chosen : list (OutPoint * UtxoEntry)) (first : TxOut) (fee : N).
Hypothesis Hsub : chosen ⊆+ owned_entries (key_lock seed) s.
Hypothesis Hfunds : value first + fee ≤ entries_value chosen ≤ U64_MAX.
Hypothesis Hnull : s !! OutPoint_null = None.
Let change := entries_value chosen - (value first + fee).

Definition funded_tx : Transaction :=
  sign_transaction seed (verifying_key seed) (key_lock seed)
    (mkTransaction TRANSACTION_VERSION_1 ((λ oe, TxIn_new oe.1 []) <$> chosen)
       (outputs_of first (key_lock seed) (entries_value chosen) (value first + fee)) 0).

Lemma funded_outputs : outputs funded_tx = first :: (if change =? 0 then [] else [mkTxOut change (key_lock seed)]).
Proof using Hfunds.
  unfold funded_tx. rewrite sign_transaction_signed. cbn [signed outputs]. unfold outputs_of. unfold change.
  destruct (N.ltb_spec (value first + fee) (entries_value chosen)), (N.eqb_spec (entries_value chosen - (value first + fee)) 0); try lia; done.
Qed.
Lemma funded_value : outputs_value (outputs funded_tx) + fee = entries_value chosen.
Proof using Hfunds.
  rewrite funded_outputs. unfold outputs_value. cbn [foldr]. destruct (N.eqb_spec change 0) as [E|E]; cbn [foldr value]; unfold change in *; lia.
Qed.
Lemma funded_outpoints : previous_output <$> inputs funded_tx = chosen.*1.
Proof.
  unfold funded_tx. rewrite sign_transaction_signed, signed_outpoints. cbn [inputs]. rewrite <- list_fmap_compose. by apply list_fmap_ext.
Qed.
Lemma funded_count : length (inputs funded_tx) = length chosen.
Proof. rewrite <- (length_fmap previous_output), funded_outpoints. by rewrite length_fmap. Qed.

Lemma chosen_owned o e : (o, e) ∈ chosen → s !! o = Some e ∧ locking_condition (output e) = key_lock seed.
Proof using Hsub.
  intros Hin. apply (elem_of_submseteq _ _ _ Hin) in Hsub. unfold owned_entries in Hsub.
  apply list_elem_of_filter in Hsub as [Hl Hm]. split; [by apply elem_of_map_to_list|done].
Qed.
Lemma chosen_distinct : NoDup chosen.*1.
Proof using Hsub.
  assert (Hs : chosen ⊆+ map_to_list s) by (etrans; [exact Hsub|]; apply sublist_submseteq, sublist_filter).
  apply submseteq_Permutation in Hs as [k Hk]. pose proof (NoDup_fst_map_to_list s) as HN. rewrite Hk, fmap_app in HN.
  by apply NoDup_app in HN as [HN _].
Qed.

Lemma funded_resolves : resolves s (inputs funded_tx) chosen.*2.
Proof using Hsub.
  assert (H : Forall2 (λ o u, s !! o = Some u) (previous_output <$> inputs funded_tx) chosen.*2).
  { rewrite funded_outpoints. apply Forall2_fmap, Forall_Forall2_diag, Forall_forall. intros [o e] Hin. by destruct (chosen_owned o e Hin). }
  by apply Forall2_fmap_l in H.
Qed.
Lemma funded_input i input :
  inputs funded_tx !! i = Some input →
  authorization input = build_p2pkh_unlocking_script
    (sign seed (hash_bytes (compute_sighash funded_tx (N.of_nat i) (key_lock seed)))) (verifying_key seed).
Proof. unfold funded_tx. rewrite sign_transaction_signed. intros Hi. by destruct (signed_input _ _ _ _ _ _ Hi) as (x & _ & _ & E). Qed.
Lemma funded_entry input : input ∈ inputs funded_tx → ∃ e, s !! previous_output input = Some e ∧ locking_condition (output e) = key_lock seed.
Proof using Hsub.
  intros Hin. assert (Ho : previous_output input ∈ chosen.*1) by (rewrite <- funded_outpoints; by apply list_elem_of_fmap_2).
  apply list_elem_of_fmap in Ho as ([o e] & -> & Hoe). exists e. by apply chosen_owned.
Qed.

Lemma funded_not_coinbase : is_coinbase funded_tx = false.
Proof using Hsub Hnull.
  unfold is_coinbase. destruct (inputs funded_tx) as [|i [|]] eqn:E; [done| |done].
  destruct (funded_entry i) as (e & He & _); [rewrite E; by left|]. destruct (is_null (previous_output i)) eqn:En; [|done].
  apply is_null_true in En. rewrite En in He. congruence.
Qed.

Lemma funded_scripts height : verify_transaction_scripts funded_tx height s = Ok tt.
Proof using Hsub Hnull SL.
  unfold verify_transaction_scripts. rewrite funded_not_coinbase.
  apply (verify_inputs_signed seed funded_tx s height 0); [done|apply funded_entry|apply funded_input].
Qed.

Lemma funded_authorized height : verify_transaction_authorization (AV := ConsensusScriptVerifier height) funded_tx chosen.*2 = Ok tt.
Proof using Hsub SL.
  apply verify_transaction_authorization_Ok. split; [by rewrite funded_count, length_fmap|]. intros i input u Hi Hu.
  assert (Hl : locking_condition (output u) = key_lock seed).
  { apply list_elem_of_lookup_2, list_elem_of_fmap in Hu as ([o e] & -> & Hoe). by destruct (chosen_owned o e Hoe). }
  unfold input_authorized. rewrite Hl, (funded_input i input Hi). split.
  - intros E%(f_equal length). by rewrite proof_length in E.
  - apply key_lock_script. apply owner_executes.
Qed.

Lemma funded_contracts now : verify_transaction_eutxo funded_tx now s MAX_TX_GAS = Ok 0.
Proof using Hsub Hnull Hfunds BT.
  apply verify_transaction_eutxo_Ok; [by vm_compute|exact funded_not_coinbase|]. exists chosen.*2.
  pose proof funded_value as HV. assert (HE : outputs_value (map output chosen.*2) = entries_value chosen) by done.
  split; [exact funded_resolves|]. split; [rewrite HE; lia|]. split; [lia|].
  generalize (host_context funded_tx now chosen.*2). intros ctx. clear HE.
  assert (HF : Forall2 (λ (i : TxIn) u, locking_condition (output u) = key_lock seed) (inputs funded_tx) chosen.*2).
  { pose proof funded_resolves as HR. unfold resolves in HR. apply Forall2_same_length_lookup. split; [exact (Forall2_length _ _ _ HR)|].
    intros k i u _ Hu. apply list_elem_of_lookup_2, list_elem_of_fmap in Hu as ([o e] & -> & Hoe). by destruct (chosen_owned o e Hoe). }
  induction HF as [|i u ins us Hl _ IH]; [constructor|].
  apply (script_inputs_cons ctx MAX_TX_GAS 0 i u ins us 0 0); [|by vm_compute|exact IH]. unfold script_input_ok. by rewrite Hl, key_lock_no_script.
Qed.

Lemma funded_valid :
  stateless_valid funded_tx ↔ chosen ≠ [] ∧ dust_ok first ∧ (change = 0 ∨ DUST_THRESHOLD ≤ change).
Proof using Hsub Hfunds.
  unfold stateless_valid. pose proof funded_value as HV. rewrite funded_outpoints.
  assert (Hd : Forall dust_ok (outputs funded_tx) ↔ dust_ok first ∧ (change = 0 ∨ DUST_THRESHOLD ≤ change)).
  { rewrite funded_outputs, Forall_cons. destruct (N.eqb_spec change 0) as [E|E].
    - split; [intros [? _]; split; [done|by left]|intros [? _]; split; [done|constructor]].
    - rewrite Forall_singleton. unfold dust_ok at 2. cbn [locking_condition value]. split; intros [H1 H2]; (split; [done|]).
      + destruct H2 as [H2|]; [|by right]. done.
      + right. by destruct H2. }
  rewrite Hd. split.
  - intros (_ & Hi & _ & Hdd & _). split; [|done]. intros Hc. apply Hi. apply length_zero_iff_nil. by rewrite funded_count, Hc.
  - intros [Hc Hdd]. split; [unfold funded_tx; by rewrite sign_transaction_signed|]. split; [intros E; apply Hc; apply length_zero_iff_nil; by rewrite <- funded_count, E|].
    split; [by rewrite funded_outputs|]. split; [done|]. split; [lia|exact chosen_distinct].
Qed.

Hypothesis Hfirst : vec_fits (locking_condition first).
Let size : N := 32 + N.of_nat (length (locking_condition first)) + 142 * N.of_nat (length chosen) + (if change =? 0 then 0 else 49).

Lemma funded_bytes : ∃ bytes, to_canonical_bytes funded_tx = Ok bytes ∧ N.of_nat (length bytes) = size.
Proof using Hfunds Hfirst SL.
  assert (HA : Forall (λ i, length (authorization i) = 98%nat) (inputs funded_tx)).
  { apply Forall_lookup. intros i input Hi. rewrite (funded_input i input Hi). apply proof_length. }
  destruct (proj2 (transaction_encodable_spec funded_tx)) as [bytes Hb].
  { split.
    - eapply Forall_impl; [exact HA|]. intros input Ha. unfold vec_fits. cbv beta in Ha. rewrite Ha. by vm_compute.
    - rewrite funded_outputs. constructor; [done|]. destruct (change =? 0); [constructor|]. apply Forall_singleton.
      cbn [locking_condition]. unfold vec_fits. rewrite key_lock_length. by vm_compute. }
  exists bytes. split; [done|]. rewrite (to_canonical_length _ _ Hb), (listing_const _ 142), funded_count.
  2:{ eapply Forall_impl; [exact HA|]. intros input Ha. cbv beta in *. rewrite Ha. lia. }
  rewrite funded_outputs. unfold size, listing. cbn [foldr]. destruct (change =? 0); cbn [foldr locking_condition]; rewrite ?key_lock_length; lia.
Qed.

Lemma funded_id : ∃ id, (∀ E, txid (E := E) funded_tx = Ok id) ∧
  ∀ E now, MempoolEntry_new (E := E) funded_tx fee now = Ok (mkMempoolEntry funded_tx id fee (saturating_mul fee 1000 / size) size now).
Proof using Hfunds Hfirst SL.
  destruct funded_bytes as (bytes & Hb & Hl). exists (blake3 bytes). split; [intros E; unfold txid; by rewrite Hb|].
  intros E now. unfold MempoolEntry_new, txid. rewrite Hb. cbn [obind]. rewrite Hl, N.max_l; [done|]. unfold size. lia.
Qed.

Lemma funded_dust : chosen ≠ [] → ¬ (dust_ok first ∧ (change = 0 ∨ DUST_THRESHOLD ≤ change)) →
  validate_stateless funded_tx = Err ZeroOutputValue.
Proof using Hfunds.
  intros Hc Hd. unfold validate_stateless, funded_tx. rewrite sign_transaction_signed. cbn [signed tx_version].
  change (negb (TRANSACTION_VERSION_1 =? TRANSACTION_VERSION_1)) with false. cbv iota.
  rewrite <- sign_transaction_signed. fold funded_tx.
  rewrite bool_decide_eq_false_2 by (intros E; apply Hc, length_zero_iff_nil; by rewrite <- funded_count, E).
  rewrite bool_decide_eq_false_2 by by rewrite funded_outputs.
  assert (HD : check_dust (outputs funded_tx) = Err ZeroOutputValue); [|by rewrite HD].
  assert (HN : check_dust (outputs funded_tx) ≠ Ok tt).
  { rewrite check_dust_Ok, funded_outputs, Forall_cons. intros [H1 H2]. apply Hd. split; [done|]. destruct (N.eqb_spec change 0) as [|E]; [by left|right].
    apply Forall_singleton in H2 as [H2|H2]; [|done]. done. }
  by apply check_dust_Err.
Qed.

(** ** Its way into the pool *)

Lemma resolve_confirmed pool ins us : resolves s ins us → resolve_inputs s pool ins = Ok (us, ∅).
Proof.
  clear. induction 1 as [|i u ins us Hu _ IH]; [done|]. cbn [resolve_inputs]. rewrite Hu. cbn [obind]. rewrite IH. cbn [obind]. by rewrite (left_id_L ∅ _).
Qed.
Lemma check_conflicts_free spent ins : (∀ o, o ∈ previous_output <$> ins → spent !! o = None) → check_conflicts spent ins = Ok tt.
Proof.
  clear. induction ins as [|i ins IH]; intros H; [done|]. cbn [check_conflicts]. rewrite H by by left. apply IH. intros o Ho. apply H. by right.
Qed.
Lemma no_parents p : count_ancestors p ∅ = Ok 0 ∧ too_many_children p ∅ = false.
Proof. clear. unfold count_ancestors, too_many_children, ancestor_fuel. by rewrite elements_empty. Qed.

Variables (p : Mempool) (now height : N) (id : Hash).
Hypothesis Hfree : ∀ o, o ∈ chosen.*1 → spent_outpoints p !! o = None.
Hypothesis Hid : txid (E := MempoolError) funded_tx = Ok id.
Let entry := mkMempoolEntry funded_tx id fee (saturating_mul fee 1000 / size) size now.

Lemma funded_evaluate :
  stateless_valid funded_tx → pool_contains p id = false →
  evaluate (AV := ConsensusScriptVerifier height) funded_tx s now p =
  if e_fee_rate entry <? min_fee_rate p then Err (FeeTooLow (e_fee_rate entry) (min_fee_rate p)) else Ok (entry, ∅).
Proof using Hfunds Hfirst Hfree Hsub Hnull Hid SL.
  intros Hv Hc. unfold evaluate. rewrite (proj2 (validate_stateless_Ok _) Hv). cbn [map_err obind].
  rewrite funded_not_coinbase, Hid. cbn [obind]. rewrite Hc.
  rewrite check_conflicts_free by (rewrite funded_outpoints; exact Hfree). cbn [obind].
  rewrite (resolve_confirmed _ _ _ funded_resolves). cbn [obind]. destruct (no_parents p) as [-> ->]. cbn [obind].
  change (MAX_ANCESTORS <? 0) with false. cbv iota. rewrite funded_authorized. cbn [map_err obind].
  pose proof funded_value as HV. destruct Hv as (_ & _ & _ & _ & Hov & _).
  assert (HE : foldr (λ x t, value (output x) + t) 0 chosen.*2 = entries_value chosen) by (symmetry; apply outputs_value_map).
  rewrite ofold_checked_add, N.add_0_l, HE by done. destruct (N.leb_spec (entries_value chosen) U64_MAX); [|lia]. cbn [obind].
  rewrite total_output_quanta_spec. destruct (N.leb_spec (outputs_value (outputs funded_tx)) U64_MAX); [|lia]. cbn [map_err obind].
  destruct (N.ltb_spec (entries_value chosen) (outputs_value (outputs funded_tx))); [lia|].
  unfold checked_sub. destruct (N.leb_spec (outputs_value (outputs funded_tx)) (entries_value chosen)); [|lia]. cbn [ok_or obind].
  replace (entries_value chosen - outputs_value (outputs funded_tx)) with fee by lia.
  destruct funded_id as (id' & Hid' & HM). rewrite HM. cbn [obind]. rewrite Hid' in Hid. injection Hid as ->. done.
Qed.

Lemma make_room_idle rate : over_capacity p size = false → make_room rate size p = (p, Ok None).
Proof. clear. intros Ho. unfold make_room. rewrite sbind_sget. cbn [evict_loop]. by rewrite sbind_sget, Ho. Qed.

Lemma remove_inputs_None ins (u : UtxoSet) (o : OutPoint) : u !! o = None → remove_inputs ins u !! o = None.
Proof. clear. unfold remove_inputs. revert u. induction ins as [|i ins IH]; intros u Ho; [done|]. cbn [foldl]. apply IH. by apply lookup_delete_None; right. Qed.

(** The entries it creates: the first output, unless it carries data, and the
    change. *)
Lemma funded_created :
  created id height false 0 (outputs funded_tx) =
  (if is_op_return (locking_condition first) then [] else [(mkOutPoint id 0, mkUtxoEntry first height false)]) ++
  (if change =? 0 then [] else [(mkOutPoint id 1, mkUtxoEntry (mkTxOut change (key_lock seed)) height false)]).
Proof using Hfunds now.
  rewrite funded_outputs. cbn [created]. change (wrap32 0) with 0. destruct (change =? 0); cbn [created]; destruct (is_op_return (locking_condition first)); try done.
Qed.

Lemma funded_apply :
  stateless_valid funded_tx → (∀ k, s !! mkOutPoint id k = None) →
  ∃ s', apply_transaction funded_tx height s = (s', Ok fee) ∧
    s' !! mkOutPoint id 0 = if is_op_return (locking_condition first) then None else Some (mkUtxoEntry first height false).
Proof using Hfunds Hsub Hid now.
  intros Hv Hfresh. pose proof funded_value as HV.
  assert (Hid' : txid (E := UtxoError) funded_tx = Ok id).
  { unfold txid in *. destruct (to_canonical_bytes funded_tx); [|done..]. by injection Hid as ->. }
  assert (HI : inputs_value s (inputs funded_tx) = entries_value chosen).
  { unfold inputs_value, entries_value. pose proof funded_resolves as HR. unfold resolves in HR. clear -HR.
    induction HR as [|i u ins us Hu _ IH]; [done|]. unfold outputs_value in *. cbn. by rewrite IH; unfold spent_value; rewrite Hu. }
  assert (HF : fresh_for (remove_inputs (inputs funded_tx) s) (created id height false 0 (outputs funded_tx))).
  { rewrite funded_created. pose proof (λ k, remove_inputs_None (inputs funded_tx) s _ (Hfresh k)) as HR.
    destruct (is_op_return _), (change =? 0); (split; cbn; [|by repeat constructor; apply HR]); try apply NoDup_singleton; [apply NoDup_nil_2|].
    apply NoDup_cons. split; [|apply NoDup_singleton]. intros Hin%list_elem_of_singleton. by injection Hin. }
  eexists. split.
  - apply apply_transaction_Ok. exists id. split; [exact Hid'|]. split; [exact HF|]. split; [done|]. split; [exact Hv|]. split; [|split; [rewrite HI; lia|rewrite HI; lia]].
    apply Forall_forall. intros i Hi%funded_entry. destruct Hi as (e & -> & _). by eexists.
  - rewrite funded_created. destruct (is_op_return _); cbn [app].
    + apply lookup_union_None. split; [|by apply remove_inputs_None]. destruct (change =? 0); [apply lookup_empty|].
      rewrite list_to_map_cons, lookup_insert_ne by (intros E; by injection E). apply lookup_empty.
    + apply lookup_union_Some_l. by rewrite list_to_map_cons, lookup_insert_eq.
Qed.
End funded.

(** ** Transfers *)

Section transfers.
Context {B3 : Blake3} `{SL : Ed25519SignLaws} {BE : Bech32} {KC : KeyCipher} {BC : Bincode} {BT : BincodeTag}.
Context {WM : Wasmi} {PC : Payload TxContext} {BS : BlockStore}.

Lemma submit_funded seed chosen first fee now (sh : Shared) :
  let tx := funded_tx seed chosen first fee in
  let change := entries_value chosen - (value first + fee) in
  let size := 32 + N.of_nat (length (locking_condition first)) + 142 * N.of_nat (length chosen) + (if change =? 0 then 0 else 49) in
  let rate := saturating_mul fee 1000 / size in
  chosen ⊆+ owned_entries (key_lock seed) (utxo_set sh) → value first + fee ≤ entries_value chosen ≤ U64_MAX →
  utxo_set sh !! OutPoint_null = None → vec_fits (locking_condition first) →
  (∀ o, o ∈ chosen.*1 → spent_outpoints (mempool sh) !! o = None) → chosen ≠ [] →
  ∃ id, txid (E := UtxoError) tx = Ok id ∧
    (¬ (dust_ok first ∧ (change = 0 ∨ DUST_THRESHOLD ≤ change)) →
       submit_transaction now tx sh = (sh, Err (NodeMempool (StructuralError ZeroOutputValue)))) ∧
    (dust_ok first → change = 0 ∨ DUST_THRESHOLD ≤ change → pool_contains (mempool sh) id = false → over_capacity (mempool sh) size = false →
       submit_transaction now tx sh =
       if rate <? min_fee_rate (mempool sh) then (sh, Err (NodeMempool (FeeTooLow rate (min_fee_rate (mempool sh)))))
       else (with_pool (add_entry (mkMempoolEntry tx id fee rate size now) ∅ (mempool sh)) sh, Ok id)).
Proof using BT SL.
  intros tx change size rate Hsub Hf Hnull Hfirst Hfree Hne.
  destruct (funded_id seed chosen first fee Hf Hfirst) as (id & Hid & _). exists id. split; [apply Hid|].
  assert (Hself : with_pool (mempool sh) sh = sh) by by destruct sh.
  assert (HS : submit_transaction now tx sh =
    on_pool (admit_transaction (AV := ConsensusScriptVerifier (canonical_height (chain_tree sh))) tx (utxo_set sh) now) sh).
  { unfold submit_transaction. rewrite sbind_sget. unfold tx. rewrite (funded_scripts seed (utxo_set sh) chosen first fee Hsub Hnull), sbind_lift_Ok.
    rewrite (funded_contracts seed (utxo_set sh) chosen first fee Hsub Hf Hnull). cbn [map_err]. by rewrite sbind_lift_Ok. }
  rewrite HS. unfold on_pool, admit_transaction. rewrite sbind_sget. split.
  - intros Hd. unfold evaluate. pose proof (funded_dust seed chosen first fee Hf Hne Hd) as HV. fold tx in HV. rewrite HV. cbn [map_err obind].
    rewrite sbind_lift_Err. cbn [map_err]. by rewrite Hself.
  - intros Hd Hc Hpc Ho.
    assert (Hv : stateless_valid tx) by (apply (funded_valid seed (utxo_set sh) chosen first fee Hsub Hf); by split; [|split]).
    pose proof (funded_evaluate seed (utxo_set sh) chosen first fee Hsub Hf Hnull Hfirst (mempool sh) now (canonical_height (chain_tree sh)) id Hfree (Hid MempoolError) Hv Hpc) as HE.
    fold tx in HE. rewrite HE. cbn [e_fee_rate]. change (saturating_mul fee 1000 / _) with rate. destruct (rate <? _).
    + rewrite sbind_lift_Err. cbn [map_err]. by rewrite Hself.
    + rewrite sbind_lift_Ok. cbn [e_fee_rate e_size_bytes].
      rewrite (sbind_run _ _ _ _ _ (make_room_idle chosen first fee (mempool sh) rate Ho)), sbind_smodify. done.
Qed.

Variable other : NodeRequest → Shared → Shared * option NodeResponse.

Lemma ask_local now lock (sh : Shared) :
  ask_utxos (local_node other now) lock sh = (sh, Ok (dto_of <$> owned_entries lock (utxo_set sh))).
Proof. done. Qed.
Lemma submit_local now tx (sh : Shared) :
  submit_raw (local_node other now) tx sh =
  match submit_transaction now tx sh with
  | (sh, Ok id) => (sh, Ok (hash_display id))
  | (sh, Err e) => (sh, Err (RejectedByNode (OfNode e)))
  | (sh, _) => (sh, Err Disconnected)
  end.
Proof. unfold submit_raw, sbind, local_node, node_side, submit_raw_transaction. by destruct (submit_transaction now tx sh) as [sh' []]. Qed.

Lemma p2pkh_not_op_return h : is_op_return (p2pkh_script h) = false.
Proof. done. Qed.
Lemma fits_p2pkh h : vec_fits (p2pkh_script h).
Proof. unfold vec_fits, p2pkh_script. rewrite !length_app, hash_length. by vm_compute. Qed.
Lemma entries_value_sub c es : c ⊆+ es → entries_value c ≤ entries_value es.
Proof.
  intros [k Hk]%submseteq_Permutation. rewrite <- !dtos_value_entries, (dtos_value_perm _ _ (fmap_Permutation dto_of _ _ Hk)).
  rewrite fmap_app, dtos_value_app. lia.
Qed.
Lemma entries_nonempty n es : 0 < n → n ≤ entries_value es → es ≠ [].
Proof. intros Hn Hle ->. unfold entries_value in Hle. cbn in Hle. lia. Qed.

Section owner.
Variables (seed : list byte) (w : WalletFile) (status : option (list byte)) (pin : outcome CliError (list byte)).
Hypothesis Hw : belongs seed w.
Hypothesis Hkey : transfer_key status pin w = Ok seed.
Variables (resolve : list byte → stM Shared ClientError (list byte)) (to text : list byte) (addr : Address) (now : N).
Hypothesis Haddr : address_parse text = Ok addr.
Let lock := key_lock seed.

Lemma transfer_run amount fee (sh : Shared) :
  (if bool_decide (is_Some (strip_prefix ACCOUNT_PREFIX to)) then resolve to else sret to) sh = (sh, Ok text) →
  let owned := owned_entries lock (utxo_set sh) in
  let run := transfer_p2pkh (local_node other now) resolve status pin (Ok w) to amount fee sh in
  entries_value owned ≤ U64_MAX →
  (U64_MAX < amount + fee ∧ run = (sh, Err AmountPlusFeeOverflow)) ∨
  (entries_value owned < amount + fee ≤ U64_MAX ∧ run = (sh, Err (ClientWallet (WalletInsufficientFunds (amount + fee) (entries_value owned))))) ∨
  (amount + fee ≤ entries_value owned ∧ ∃ chosen, chosen_from (amount + fee) owned chosen ∧
   run = submit_raw (local_node other now) (funded_tx seed chosen (mkTxOut amount (p2pkh_script (address_hash addr))) fee) sh).
Proof using Hw Hkey Haddr SL.
  intros Hto owned run HU. subst run. unfold transfer_p2pkh. cbn [map_err]. rewrite sbind_lift_Ok.
  rewrite (sbind_run _ _ _ _ _ Hto), Haddr. cbn [map_err]. rewrite sbind_lift_Ok.
  rewrite (belongs_lock seed w Hw). cbn [map_err]. rewrite sbind_lift_Ok. fold (key_lock seed). fold lock.
  rewrite (sbind_run _ _ _ _ _ (ask_local now lock sh)). fold owned.
  destruct (checked_add amount fee) as [needed|] eqn:Ec; cbn [ok_or].
  2:{ left. unfold checked_add in Ec. destruct (N.leb_spec (amount + fee) U64_MAX); [done|]. by rewrite sbind_lift_Err. }
  apply checked_add_Some in Ec as [-> Hle]. right. rewrite sbind_lift_Ok. unfold fund.
  destruct (selection_spec (amount + fee) owned HU) as [(Hn & chosen & Hc & ->)|(Hn & sel & ->)].
  - right. split; [done|]. exists chosen. split; [exact Hc|]. destruct (N.ltb_spec (entries_value chosen) (amount + fee)) as [Hlt|_].
    { pose proof (cf_enough _ _ _ Hc). lia. }
    rewrite sbind_lift_Ok, inputs_of_entries, sbind_lift_Ok, Hkey, sbind_lift_Ok, (belongs_public seed w Hw). cbn [map_err]. rewrite sbind_lift_Ok.
    rewrite build_p2pkh. done.
  - left. split; [done|]. destruct (N.ltb_spec (entries_value owned) (amount + fee)); [|lia]. by rewrite sbind_lift_Err.
Qed.

(** C35: What a transfer does at a node whose pool spends none of the owner's outputs,
    which are worth at most 64 bits. Unless the sum overflows or is zero, or the
    funds do not reach, it takes the largest outputs, no more of them than it
    needs, pays the amount and gives the rest back. Every signature, every script
    and every contract check of the transaction passes, at every height and time.
    The node refuses it for an amount or a change below the dust threshold, which
    the wallet does not look at. Otherwise, when the pool does not hold it already
    and has room for its size, which is known beforehand, the node refuses it
    exactly for a fee below the rate of the pool, and else takes it; a pool at
    capacity evicts or refuses as its admission says. One without dust, whose
    identifier no output has yet, is applied to the ledger with the fee that was
    asked for, whatever the age of the outputs it spends: nothing looks at the
    maturity that [docs/node-ops/mining-guide.md] asks of those of a coinbase. *)
Theorem transfer_spec (amount fee : N) (sh : Shared) :
  let owned := owned_entries lock (utxo_set sh) in
  let run := transfer_p2pkh (local_node other now) resolve status pin (Ok w) to amount fee sh in
  (if bool_decide (is_Some (strip_prefix ACCOUNT_PREFIX to)) then resolve to else sret to) sh = (sh, Ok text) →
  entries_value owned ≤ U64_MAX → utxo_set sh !! OutPoint_null = None →
  (∀ oe, oe ∈ owned → spent_outpoints (mempool sh) !! oe.1 = None) →
  (U64_MAX < amount + fee ∧ run = (sh, Err AmountPlusFeeOverflow)) ∨
  (entries_value owned < amount + fee ≤ U64_MAX ∧ run = (sh, Err (ClientWallet (WalletInsufficientFunds (amount + fee) (entries_value owned))))) ∨
  (amount + fee = 0 ∨ ∃ chosen tx id, chosen_from (amount + fee) owned chosen ∧ txid (E := UtxoError) tx = Ok id ∧
     previous_output <$> inputs tx = chosen.*1 ∧
     let change := entries_value chosen - (amount + fee) in
     outputs tx = mkTxOut amount (p2pkh_script (address_hash addr)) :: (if change =? 0 then [] else [mkTxOut change lock]) ∧
     (∀ height, verify_transaction_scripts tx height (utxo_set sh) = Ok tt) ∧
     (∀ time, verify_transaction_eutxo tx time (utxo_set sh) MAX_TX_GAS = Ok 0) ∧
     (amount < DUST_THRESHOLD ∨ 0 < change < DUST_THRESHOLD → run = (sh, Err (RejectedByNode (OfNode (NodeMempool (StructuralError ZeroOutputValue)))))) ∧
     (DUST_THRESHOLD ≤ amount → change = 0 ∨ DUST_THRESHOLD ≤ change →
      let size := 69 + 142 * N.of_nat (length chosen) + (if change =? 0 then 0 else 49) in
      let rate := saturating_mul fee 1000 / size in
      (pool_contains (mempool sh) id = false → over_capacity (mempool sh) size = false →
       run = if rate <? min_fee_rate (mempool sh) then (sh, Err (RejectedByNode (OfNode (NodeMempool (FeeTooLow rate (min_fee_rate (mempool sh)))))))
             else (with_pool (add_entry (mkMempoolEntry tx id fee rate size now) ∅ (mempool sh)) sh, Ok (hash_display id))) ∧
      ∀ height, (∀ k, utxo_set sh !! mkOutPoint id k = None) →
        ∃ s', apply_transaction tx height (utxo_set sh) = (s', Ok fee) ∧
          s' !! mkOutPoint id 0 = Some (mkUtxoEntry (mkTxOut amount (p2pkh_script (address_hash addr))) height false))).
Proof using Hw Hkey Haddr SL BT.
  intros owned run Hto HU Hnull Hfree. pose proof (transfer_run amount fee sh Hto HU) as [H|[H|(Hle & chosen & Hc & HR)]]; [by left|by right; left|].
  right. right. destruct (N.eq_dec (amount + fee) 0) as [Hz|Hnz]; [by left|right]. fold owned in Hc. fold run in HR.
  set (first := mkTxOut amount (p2pkh_script (address_hash addr))) in *.
  assert (Hne : chosen ≠ []) by (eapply (entries_nonempty (amount + fee)); [lia|apply Hc]).
  pose proof (cf_sub _ _ _ Hc) as Hsub.
  assert (Hf : value first + fee ≤ entries_value chosen ≤ U64_MAX).
  { split; [apply Hc|]. pose proof (entries_value_sub _ _ Hsub). lia. }
  assert (Hfree' : ∀ o, o ∈ chosen.*1 → spent_outpoints (mempool sh) !! o = None).
  { intros o ([o' e] & -> & Hin)%list_elem_of_fmap. apply (Hfree (o', e)). by eapply elem_of_submseteq. }
  assert (Hdust : dust_ok first ↔ DUST_THRESHOLD ≤ amount).
  { unfold dust_ok, first. cbn [locking_condition value]. rewrite p2pkh_not_op_return. split; [by intros [|]|by right]. }
  assert (H32 : 32 + N.of_nat (length (locking_condition first)) = 69).
  { unfold first. cbn [locking_condition]. unfold p2pkh_script. rewrite !length_app, hash_length. reflexivity. }
  destruct (submit_funded seed chosen first fee now sh Hsub Hf Hnull (fits_p2pkh _) Hfree' Hne) as (id & Hid & Hbad & Hgood).
  rewrite H32 in Hgood. change (value first) with amount in *.
  exists chosen, (funded_tx seed chosen first fee), id. split; [exact Hc|]. split; [exact Hid|]. split; [apply funded_outpoints|].
  cbv zeta. split; [by apply funded_outputs|]. split; [intros height; by apply funded_scripts|]. split; [intros time; by apply funded_contracts|].
  rewrite HR, submit_local. split; [|intros Ha Hch; split].
  - intros Hx. rewrite Hbad; [done|]. rewrite Hdust. intros [H1 H2]. lia.
  - intros Hp Ho. rewrite (Hgood (proj2 Hdust Ha) Hch Hp Ho). by destruct (_ <? _).
  - intros height Hfresh. apply (funded_apply seed (utxo_set sh) chosen first fee Hsub Hf now height id); [|apply (funded_valid seed (utxo_set sh) chosen first fee Hsub Hf)|done].
    + destruct (funded_id seed chosen first fee Hf (fits_p2pkh _)) as (id' & Hid' & _). rewrite Hid' in Hid. injection Hid as ->. apply Hid'.
    + split; [done|]. split; [by apply Hdust|done].
Qed.

(** ** Embedded data *)

Lemma op_return_script data : build_op_return_script data = x6a :: builder_push_data [] data.
Proof. unfold build_op_return_script. rewrite builder_push_data_app. done. Qed.
Lemma shown_payload data : (length data ≤ MAX_DATA)%nat → analyze_locking_script (build_op_return_script data) = OpReturnPayload data.
Proof.
  unfold MAX_DATA. intros Hl. rewrite op_return_script. cbn [analyze_locking_script]. f_equal. unfold builder_push_data.
  destruct (Nat.eqb_spec (length data) 0) as [E|E]; [by apply length_zero_iff_nil in E as ->|].
  assert (HB : Byte.to_N (byte_of (N.of_nat (length data))) = N.of_nat (length data)) by (rewrite to_N_byte_of, N.mod_small; [done|lia]).
  destruct (Nat.leb_spec (length data) 75) as [H75|H75].
  - cbn [app op_return_payload]. rewrite HB. destruct (N.leb_spec (N.of_nat (length data)) 75); [|lia]. rewrite Nat2N.id. apply take_ge. lia.
  - destruct (Nat.leb_spec (length data) 255); [|lia]. cbn [app op_return_payload as_byte]. change (Byte.to_N x4c <=? 75) with false. cbv iota.
    rewrite HB, Nat2N.id. apply take_ge. lia.
Qed.
Lemma op_return_fits data : (length data ≤ MAX_DATA)%nat → vec_fits (build_op_return_script data) ∧ is_op_return (build_op_return_script data) = true.
Proof.
  unfold MAX_DATA. intros Hl. rewrite op_return_script. split; [|done]. unfold vec_fits, builder_push_data, MAX_VECTOR_LENGTH.
  destruct (_ =? _)%nat; [done|]. destruct (_ <=? _)%nat; [cbn [app length]; lia|]. destruct (Nat.leb_spec (length data) 255); [|lia]. cbn [app length]. lia.
Qed.

(** Embedding takes at most eighty bytes and, once the funds reach, builds a
    transaction whose first output carries them and cannot be spent: the node
    applies it with the fee that was asked for and leaves no output there, and
    the gateway shows the bytes that were given. A change below the dust
    threshold or too low a fee for the size is refused. *)
Theorem embed_data_spec (data : list byte) (fee : N) (sh : Shared) :
  let owned := owned_entries lock (utxo_set sh) in
  let run := embed_data (local_node other now) (Ok w) data fee sh in
  signing_key w = Ok seed → entries_value owned ≤ U64_MAX → utxo_set sh !! OutPoint_null = None →
  (∀ oe, oe ∈ owned → spent_outpoints (mempool sh) !! oe.1 = None) →
  match payload_of data with
  | Ok payload =>
      ((MAX_DATA < length payload)%nat ∧ run = (sh, Err (ClientWallet (DataPayloadTooLarge (N.of_nat (length payload)) (N.of_nat MAX_DATA))))) ∨
      ((owned = [] ∨ entries_value owned < fee) ∧ run = (sh, Err (ClientWallet (WalletInsufficientFunds (N.max fee 1) (entries_value owned))))) ∨
      ∃ chosen tx id, chosen_from fee owned chosen ∧ txid (E := UtxoError) tx = Ok id ∧ previous_output <$> inputs tx = chosen.*1 ∧
        let script := build_op_return_script payload in
        let change := entries_value chosen - fee in
        outputs tx = mkTxOut 0 script :: (if change =? 0 then [] else [mkTxOut change lock]) ∧
        analyze_locking_script script = OpReturnPayload payload ∧
        (0 < change < DUST_THRESHOLD → run = (sh, Err (RejectedByNode (OfNode (NodeMempool (StructuralError ZeroOutputValue)))))) ∧
        (change = 0 ∨ DUST_THRESHOLD ≤ change →
         let size := 32 + N.of_nat (length script) + 142 * N.of_nat (length chosen) + (if change =? 0 then 0 else 49) in
         let rate := saturating_mul fee 1000 / size in
         (pool_contains (mempool sh) id = false → over_capacity (mempool sh) size = false →
          run = if rate <? min_fee_rate (mempool sh) then (sh, Err (RejectedByNode (OfNode (NodeMempool (FeeTooLow rate (min_fee_rate (mempool sh)))))))
                else (with_pool (add_entry (mkMempoolEntry tx id fee rate size now) ∅ (mempool sh)) sh, Ok (hash_display id))) ∧
         ∀ height, (∀ k, utxo_set sh !! mkOutPoint id k = None) →
           ∃ s', apply_transaction tx height (utxo_set sh) = (s', Ok fee) ∧ s' !! mkOutPoint id 0 = None)
  | Err e => run = (sh, Err e)
  | _ => False
  end.
Proof using Hw SL BT.
  intros owned run Hsk HU Hnull Hfree.
  assert (Hpay : returns (payload_of data)).
  { unfold payload_of. destruct (strip_prefix _ _); [apply returns_map_err, from_hex_returns|apply returns_Ok]. }
  subst run. unfold embed_data. cbn [map_err]. rewrite sbind_lift_Ok.
  destruct (payload_of data) as [payload|e| |]; [|by rewrite sbind_lift_Err|by destruct Hpay..]. rewrite sbind_lift_Ok.
  destruct (Nat.ltb_spec MAX_DATA (length payload)) as [Hbig|Hfit]; [by left|]. right.
  rewrite (belongs_lock seed w Hw). cbn [map_err]. rewrite sbind_lift_Ok. fold (key_lock seed). fold lock.
  rewrite (sbind_run _ _ _ _ _ (ask_local now lock sh)). fold owned.
  destruct (selection_spec fee owned HU) as [(Hn & chosen & Hc & ->)|(Hn & sel & ->)].
  2:{ left. split; [by right|]. destruct (N.ltb_spec (entries_value owned) fee); [done|lia]. }
  destruct (decide (owned = [])) as [Ho|Ho].
  { left. split; [by left|]. pose proof (cf_sub _ _ _ Hc) as Hs. rewrite Ho in Hs |- *. apply submseteq_nil_r in Hs. subst chosen.
    rewrite bool_decide_eq_true_2 by done. by rewrite orb_true_r. }
  right. pose proof (cf_nonempty _ _ _ Hc Ho) as Hne. pose proof (cf_sub _ _ _ Hc) as Hsub.
  destruct (N.ltb_spec (entries_value chosen) fee) as [Hlt|_]; [pose proof (cf_enough _ _ _ Hc); lia|].
  rewrite (bool_decide_eq_false_2 (dto_of <$> chosen = [])) by (intros E%fmap_nil_inv; done). cbn [orb].
  rewrite inputs_of_entries, sbind_lift_Ok, Hsk. cbn [map_err]. rewrite sbind_lift_Ok, (belongs_public seed w Hw). cbn [map_err]. rewrite sbind_lift_Ok.
  destruct (op_return_fits payload Hfit) as [Hvf Hop]. set (first := mkTxOut 0 (build_op_return_script payload)).
  match goal with |- context [submit_raw _ ?t sh] => change t with (funded_tx seed chosen first fee) end.
  rewrite submit_local.
  assert (Hf : value first + fee ≤ entries_value chosen ≤ U64_MAX).
  { split; [apply Hc|]. pose proof (entries_value_sub _ _ Hsub). lia. }
  assert (Hfree' : ∀ o, o ∈ chosen.*1 → spent_outpoints (mempool sh) !! o = None).
  { intros o ([o' e] & -> & Hin)%list_elem_of_fmap. apply (Hfree (o', e)). by eapply elem_of_submseteq. }
  assert (Hdust : dust_ok first) by by left.
  destruct (submit_funded seed chosen first fee now sh Hsub Hf Hnull Hvf Hfree' Hne) as (id & Hid & Hbad & Hgood).
  change (value first + fee) with fee in *.
  exists chosen, (funded_tx seed chosen first fee), id. split; [exact Hc|]. split; [exact Hid|]. split; [apply funded_outpoints|].
  cbv zeta. split; [by apply (funded_outputs seed chosen first fee)|]. split; [by apply shown_payload|].
  split; [|intros Hch; split].
  - intros Hx. rewrite Hbad; [done|]. intros [_ H2]. lia.
  - intros Hp Hcap. rewrite (Hgood Hdust Hch Hp Hcap). by destruct (_ <? _).
  - intros height Hfresh.
    assert (Hid' : txid (E := MempoolError) (funded_tx seed chosen first fee) = Ok id).
    { destruct (funded_id seed chosen first fee Hf Hvf) as (id' & Hid' & _). rewrite Hid' in Hid. injection Hid as ->. apply Hid'. }
    destruct (funded_apply seed (utxo_set sh) chosen first fee Hsub Hf now height id Hid') as (s' & HA & HL); [|done|exists s'; split; [done|]].
    + by apply (funded_valid seed (utxo_set sh) chosen first fee Hsub Hf).
    + revert HL. unfold first. cbn [locking_condition]. by rewrite Hop.
Qed.
End owner.

(** The command never asks for a PIN: an encrypted wallet cannot embed data. *)
Theorem encrypted_cannot_embed {S : Type} (send : NodeRequest → stM S ClientError NodeResponse) (w : WalletFile) (data : list byte) (fee : N) (s : S) :
  private_key w = None → ∀ s' txid, embed_data send (Ok w) data fee s ≠ (s', Ok txid).
Proof.
  intros Hp s' txid. unfold embed_data. cbn [map_err]. rewrite sbind_lift_Ok. intros H.
  apply sbind_Ok in H as (s1 & payload & _ & H). destruct (_ <? _)%nat; [done|].
  apply sbind_Ok in H as (s2 & lock & _ & H). apply sbind_Ok in H as (s3 & utxos & _ & H).
  destruct (select_utxos _ _ _ _) as [sel acc]. destruct (_ || _); [done|].
  apply sbind_Ok in H as (s4 & ins & _ & H). unfold signing_key in H. by rewrite Hp in H.
Qed.
End transfers.

(** ** Witnesses *)

Section witnesses.
#[local] Existing Instances toy_blake3 toy_bech32 wallet_ed25519 wallet_verify wallet_sign wallet_sign_laws toy_cipher toy_bincode toy_redb toy_payload_context.
#[local] Instance toy_engine' : Wasmi := toy_wasmi toy_contract.
#[local] Instance toy_tag : BincodeTag (BC := toy_bincode).
Proof. intros bytes l H. discriminate H. Qed.

(** A node whose set holds one output of the toy wallet. *)
Definition toy_owned : UtxoSet := {[ mkOutPoint ZERO 1 := mkUtxoEntry (mkTxOut 5000 (key_lock toy_seed)) 1 false ]}.
Definition toy_side : Shared (BS := toy_store) := mkShared (BS := toy_store) toy_tree toy_owned Mempool_new empty_tables.
Definition toy_other (request : NodeRequest) (s : Shared (BS := toy_store)) : Shared (BS := toy_store) * option NodeResponse := (s, None).
Definition toy_recipient : list byte := hash_display ZERO.
Definition toy_resolve (text : list byte) : stM (Shared (BS := toy_store)) ClientError (list byte) := slift (Err GatewayFailure).

Lemma toy_signing : signing_key toy_wallet = Ok toy_seed.
Proof. apply signing_key_plain; [exact toy_private|reflexivity]. Qed.
Lemma toy_key : transfer_key None (Ok DEFAULT_PIN) toy_wallet = Ok toy_seed.
Proof.
  unfold transfer_key. assert (E : bool_decide (is_Some (encrypted_key toy_wallet)) = false) by (vm_compute; reflexivity). rewrite E, toy_signing. reflexivity.
Qed.
Lemma toy_to : address_parse toy_recipient = Ok (Address_new ZERO).
Proof.
  pose proof (parse_hex_text (hash_display ZERO) ZERO (or_introl eq_refl) 0 0) as H. cbn [replicate app] in H. by rewrite app_nil_r in H.
Qed.
Lemma toy_entries : owned_entries (key_lock toy_seed) (utxo_set toy_side) = [(mkOutPoint ZERO 1, mkUtxoEntry (mkTxOut 5000 (key_lock toy_seed)) 1 false)].
Proof. unfold owned_entries. cbn [utxo_set toy_side]. unfold toy_owned. rewrite map_to_list_singleton. by rewrite filter_cons_True. Qed.

Lemma toy_value : entries_value (owned_entries (key_lock toy_seed) (utxo_set toy_side)) = 5000.
Proof. rewrite toy_entries. reflexivity. Qed.

Lemma transfer_spec_witness :
  belongs toy_seed toy_wallet ∧ transfer_key None (Ok DEFAULT_PIN) toy_wallet = Ok toy_seed ∧ address_parse toy_recipient = Ok (Address_new ZERO) ∧
  ∃ chosen tx, chosen_from 4000 (owned_entries (key_lock toy_seed) (utxo_set toy_side)) chosen ∧
    (∀ height, verify_transaction_scripts tx height (utxo_set toy_side) = Ok tt) ∧
    (∀ time, verify_transaction_eutxo tx time (utxo_set toy_side) MAX_TX_GAS = Ok 0).
Proof.
  split; [exact toy_belongs|]. split; [exact toy_key|]. split; [exact toy_to|].
  destruct (transfer_spec toy_other toy_seed toy_wallet None (Ok DEFAULT_PIN) toy_belongs toy_key toy_resolve toy_recipient toy_recipient (Address_new ZERO) 9 toy_to 3000 1000 toy_side)
    as [[H _]|[[[H _] _]|[H|(chosen & tx & id & Hc & Hid & Hin & Hout & Hs & He & _)]]].
  - reflexivity.
  - rewrite toy_value. discriminate.
  - reflexivity.
  - intros oe _. apply lookup_empty.
  - discriminate H.
  - rewrite toy_value in H. discriminate H.
  - discriminate H.
  - exists chosen, tx. split; [exact Hc|]. split; [exact Hs|exact He].
Defined.
(** The whole run: the node answers with the identifier. *)
Lemma toy_transfer : is_ok (transfer_p2pkh (local_node toy_other 9) toy_resolve None (Ok DEFAULT_PIN) (Ok toy_wallet) toy_recipient 3000 1000 toy_side).2 = true.
Proof. vm_compute. reflexivity. Qed.
(** A change of 100 is refused. *)
Lemma toy_dust_change : (transfer_p2pkh (local_node toy_other 9) toy_resolve None (Ok DEFAULT_PIN) (Ok toy_wallet) toy_recipient 3900 1000 toy_side).2 =
  Err (RejectedByNode (OfNode (NodeMempool (StructuralError ZeroOutputValue)))).
Proof. vm_compute. reflexivity. Qed.

Lemma embed_data_spec_witness :
  belongs toy_seed toy_wallet ∧ signing_key toy_wallet = Ok toy_seed ∧
  ∃ chosen tx, chosen_from 1000 (owned_entries (key_lock toy_seed) (utxo_set toy_side)) chosen ∧
    analyze_locking_script (build_op_return_script [x68; x69]) = OpReturnPayload [x68; x69] ∧ previous_output <$> inputs tx = chosen.*1.
Proof.
  split; [exact toy_belongs|]. split; [exact toy_signing|].
  pose proof (embed_data_spec toy_other toy_seed toy_wallet toy_belongs 9 [x68; x69] 1000 toy_side toy_signing) as H.
  destruct H as [[H _]|[[[H|H] _]|(chosen & tx & id & Hc & Hid & Hin & Hout & Hshow & _)]].
  - rewrite toy_value. discriminate.
  - reflexivity.
  - intros oe _. apply lookup_empty.
  - exfalso. revert H. apply Nat.nlt_ge. repeat constructor.
  - rewrite toy_entries in H. discriminate H.
  - rewrite toy_value in H. discriminate H.
  - exists chosen, tx. split; [exact Hc|]. split; [exact Hshow|exact Hin].
Defined.

Lemma encrypted_cannot_embed_witness :
  private_key toy_sealed = None ∧
  ∀ s' txid, embed_data (local_node toy_other 9) (Ok toy_sealed) [x68; x69] 1000 toy_side ≠ (s', Ok txid).
Proof.
  assert (H : private_key toy_sealed = None) by (vm_compute; reflexivity). split; [exact H|].
  exact (encrypted_cannot_embed (local_node toy_other 9) toy_sealed [x68; x69] 1000 toy_side H).
Defined.
End witnesses.
