(* ===== verification/Contracts.v ===== *)
(** * Contract commands

    [apps/scytale-cli/src/contract.rs]: [contract inspect], [deploy] and
    [call], with the two requests of [http_gateway.rs] they use. The dry run of
    a call is compared with the check of the node, a deployment is followed into
    the ledger. What is printed is not modelled. *)

From S2P Require Import Prelude Bytes Primitives Address Account Types Codec Transaction Utxo Merkle Genesis.
From S2P Require Import Words Target Work Tables Storage StorageSpec Store Stack Script Authorization Mempool MempoolInv.
From S2P Require Import MempoolSpec Consensus Chain Vm VmAdapter Mining Node NodeQuery Passbook Bridge Wallet Transfer.
Local Open Scope N_scope.
Local Open Scope scy_scope.

(** ** The commands *)

(** The crate [hex]. *)
Class HexCrate := {
  hex_encode : list byte → list byte;
  hex_decode : list byte → option (list byte)
}.
Class HexCrateLaws {HX : HexCrate} := {
  encodes bytes : hex_encode bytes = to_hex bytes;
  decodes bytes : hex_decode (hex_encode bytes) = Some bytes
}.

(** [strip_prefix] of [0x] and then of [0X]. *)
Definition strip_hex_prefix (s : list byte) : list byte :=
  match strip_prefix [x30; x78] s with
  | Some s => s
  | None => default s (strip_prefix [x30; x58] s)
  end.
Definition clean_hex (s : list byte) : list byte := strip_hex_prefix (trim s).

(** The bytes before the first colon and those after it. *)
Fixpoint split_colon (s : list byte) : option (list byte * list byte) :=
  match s with
  | [] => None
  | x3a :: s => Some ([], s)
  | b :: s => '(before, after) ← split_colon s; Some (b :: before, after)
  end.

(** The text [scy1]. *)
Definition SCY1 : list byte := DEFAULT_HRP ++ [x31].
Definition starts_with (prefix s : list byte) : bool := bool_decide (take (length prefix) s = prefix).

(** A file that is not there, cannot be read, or is. *)
Inductive WasmFile := Missing | Unreadable | Readable (bytes : list byte).
Definition WASM_MAGIC : list byte := [x00; x61; x73; x6d].
Record InspectReport := mkInspectReport { script_hash_of : Hash; size_of : nat; kib : nat * nat; wasm_version : option N }.

Section contracts.
Context {B3 : Blake3} {ED : Ed25519} {EV : Ed25519Verify} {ES : Ed25519Sign} {BE : Bech32} {KC : KeyCipher} {BC : Bincode}.
Context {WM : Wasmi} {PC : Payload TxContext} {HX : HexCrate}.

(** The slice of the version panics on a file of four to seven bytes. *)
Definition cmd_inspect (file : WasmFile) : outcome ClientError InspectReport :=
  match file with
  | Missing => Err WasmNotFound
  | Unreadable => Err WasmUnreadable
  | Readable bytes =>
      let len := length bytes in
      let? version :=
        if (4 <=? len)%nat && bool_decide (take 4 bytes = WASM_MAGIC)
        then if (8 <=? len)%nat then Ok (Some (le_val (take 4 (drop 4 bytes)))) else Panic
        else Ok None in
      Ok (mkInspectReport (blake3 bytes) len (len / 1024, (len mod 1024) * 100 / 1024)%nat version)
  end.

Definition read_wasm (file : WasmFile) : outcome ClientError (list byte) :=
  match file with Readable bytes => Ok bytes | _ => Err WasmUnreadable end.

Inductive DeployReport :=
| Preview (script_hash : Hash)
| OfflinePreview (script_hash : Hash)
| DryRunDeploy (tx : Transaction) (contract : Hash)
| Deployed (contract : Hash) (txid : list byte).

Context {S : Type} (fetch_utxos : list byte → stM S ClientError (list UtxoDto)) (post_tx : list byte → stM S ClientError (list byte)).

Definition broadcast_transaction (tx : Transaction) : stM S ClientError (list byte) :=
  let! tx_bytes := slift (map_err TransactionNotSerialized (to_canonical_bytes tx)) in
  post_tx (hex_encode tx_bytes).

(** The rest of [deploy_contract], once the outputs of the wallet are known. *)
Definition deploy_with (w : WalletFile) (sender_lock : list byte) (first : TxOut) (total_needed : N) (dry_run : bool) (utxos : list UtxoDto) :
    stM S ClientError DeployReport :=
  let! (selected, accumulated) := slift (fund total_needed utxos) in
  let! ins := slift (inputs_of selected) in
  let tx := mkTransaction TRANSACTION_VERSION_1 ins (outputs_of first sender_lock accumulated total_needed) 0 in
  let! seed := slift (map_err ClientWallet (signing_key w)) in
  let! pubkey := slift (map_err ClientWallet (verifying_key_bytes w)) in
  let tx := sign_transaction seed pubkey sender_lock tx in
  let! contract := slift (txid tx) in
  if dry_run then sret (DryRunDeploy tx contract)
  else
    let! id := broadcast_transaction tx in
    sret (Deployed contract id).

Definition deploy_contract (wasm : WasmFile) (datum : list byte) (wallet : outcome WalletError WalletFile) (amount fee : N) (dry_run : bool) :
    stM S ClientError DeployReport :=
  let! wasm_bytes := slift (read_wasm wasm) in
  let! datum_bytes := slift (ok_or (hex_decode (clean_hex datum)) InvalidDatumHex) in
  let script_hash := blake3 wasm_bytes in
  let lock := Transaction.Script script_hash datum_bytes in
  match wallet with
  | Err e => if dry_run then sret (Preview script_hash) else slift (Err (WalletNotLoaded e))
  | Ok w =>
      let! sender_lock := slift (map_err ClientWallet (p2pkh_locking_script w)) in
      let! total_needed := slift (ok_or (checked_add amount fee) AmountPlusFeeOverflow) in
      λ s, match fetch_utxos (hex_encode sender_lock) s with
           | (s, Ok utxos) => deploy_with w sender_lock (mkTxOut amount (to_locking_condition lock)) total_needed dry_run utxos s
           | (s, Err e) => (s, if dry_run then Ok (OfflinePreview script_hash) else Err e)
           | (s, Panic) => (s, Panic)
           | (s, Diverge) => (s, Diverge)
           end
  | Panic => slift Panic
  | Diverge => slift Diverge
  end.

(** *** Calls *)

(** The transaction of a call. *)
Definition call_transaction (txid : Hash) (index : N) (signature : option (list byte)) (redeemer wasm to_bytes : list byte) (output_amount : N) : Transaction :=
  mkTransaction TRANSACTION_VERSION_1 [to_tx_in (mkTxInput txid index signature (Some redeemer) (Some wasm))] [mkTxOut output_amount to_bytes] 0.

(** The simulation; the fuel it took. *)
Definition dry_run (current_time input_amount output_amount : N) (wasm datum redeemer to_bytes : list byte) (tx : Transaction) : outcome ClientError N :=
  let context := create_tx_context tx current_time input_amount output_amount in
  let context := mkTxContext (tx_hash context) (block_time context) (Vm.input_amount context) (fee_burned context)
                   (input_datums context ++ [datum])
                   (output_datums context ++ match from_locking_condition to_bytes with Some (Transaction.Script _ datum) => [datum] | _ => [] end)
                   (ledger_state context ++ [datum]) in
  let? exec_result := map_err DryRunTrapped (execute_validator wasm datum redeemer context MAX_TX_GAS) in
  if is_valid exec_result then Ok (gas_consumed exec_result) else Err DryRunRejected.

(** The value of an output, from the node; [None] whatever fails. *)
Context (fetch_tx_output_value : list byte → N → S → S * option N).

Inductive CallReport :=
| DryRunCall (tx : Transaction) (fuel : N)
| Called (tx : Transaction) (fuel : N) (txid : list byte).

Definition call_target (to : list byte) : outcome ClientError (list byte) :=
  if starts_with SCY1 (to_ascii_lowercase to) then
    let? addr := map_err InvalidRecipient (address_parse to) in Ok (build_p2pkh_locking_script (address_hash addr))
  else ok_or (hex_decode (clean_hex to)) InvalidToHex.
Definition call_signature (signature : option (list byte)) : outcome ClientError (option (list byte)) :=
  match signature with
  | Some sig_hex =>
      let? signature := ok_or (hex_decode (clean_hex sig_hex)) InvalidSignatureHex in
      if negb (length signature =? 64)%nat then Err SignatureNot64 else Ok (Some signature)
  | None => Ok None
  end.
Definition call_amount (amount fee input_amount : N) : outcome ClientError N :=
  if 0 <? amount then if saturating_sub input_amount fee <? amount then Err OutputExceedsInput else Ok amount
  else Ok (saturating_sub input_amount fee).

(** The text printed for the recipient is its first 24 bytes: a character across
    that boundary panics. *)
Definition call_shown (to : list byte) : outcome ClientError unit := if char_boundary (drop 24 to) then Ok tt else Panic.

Definition call_contract (current_time : N) (utxo redeemer datum to : list byte) (wasm : WasmFile) (amount fee : N) (signature : option (list byte))
    (only_dry_run skip_dry_run : bool) : stM S ClientError CallReport :=
  let! (txid_part, index_part) := slift (ok_or (split_colon utxo) InvalidUtxoFormat) in
  let txid_hex := clean_hex txid_part in
  let! output_index := slift (ok_or (parse_u32 index_part) InvalidOutputIndex) in
  let! txid_bytes := slift (ok_or (hex_decode txid_hex) InvalidTxidHexText) in
  let! txid := slift (ok_or (hash_of_list txid_bytes) TxidNot32) in
  let! wasm_bytes := slift (read_wasm wasm) in
  let! redeemer_bytes := slift (ok_or (hex_decode (clean_hex redeemer)) InvalidRedeemerHex) in
  let! datum_bytes := slift (ok_or (hex_decode (clean_hex datum)) InvalidDatumHex) in
  let! to_bytes := slift (call_target to) in
  let! signature_bytes := slift (call_signature signature) in
  let! fetched := λ s, let '(s, v) := fetch_tx_output_value txid_hex output_index s in (s, Ok v) in
  let! input_amount := slift (ok_or fetched InputValueUnknown) in
  let! output_amount := slift (call_amount amount fee input_amount) in
  let! _ := slift (call_shown to) in
  let tx := call_transaction txid output_index signature_bytes redeemer_bytes wasm_bytes to_bytes output_amount in
  let! fuel := slift (if skip_dry_run then Ok 0 else dry_run current_time input_amount output_amount wasm_bytes datum_bytes redeemer_bytes to_bytes tx) in
  if only_dry_run then
    let! _ := slift (Transaction.txid tx : outcome ClientError Hash) in sret (DryRunCall tx fuel)
  else
    let! id := broadcast_transaction tx in
    sret (Called tx fuel id).
End contracts.

(** ** The gateway as the other side *)

Inductive GatewayError :=
| LimitOutOfRange
| InvalidBech32 (e : AddressError)
| InvalidScriptHexText (e : PrimitiveError)
| InvalidTransactionHex (e : PrimitiveError)
| TransactionDeserialization (e : SerializationError)
| GatewayNode (e : NodeError)
| GatewayQuery (e : NodeError)
| GatewayStorage (e : StorageError)
| GatewayPassbook (e : PassbookError)
| NoTip
| TipBlockMissing
| BlockAtHeightNotFound (height : N)
| InvalidBlockIdentifier (e : PrimitiveError)
| BlockNotFound
| InvalidTxidHexOf (e : PrimitiveError)
| TransactionMissing
| ProvenanceFailed (e : PassbookError).

Definition strict_limit (limit : option N) (default : N) : outcome GatewayError N :=
  match limit with
  | Some value => if (1 <=? value) && (value <=? 100) then Ok value else Err LimitOutOfRange
  | None => Ok default
  end.

Section gateway.
Context {B3 : Blake3} {ED : Ed25519} {BC : Bincode} {WM : Wasmi} {PC : Payload TxContext} {BS : BlockStore} {BE : Bech32}.

Definition lock_of_text (text : list byte) : outcome GatewayError (list byte) :=
  if starts_with SCY1 (to_ascii_lowercase text) then
    let? addr := map_err InvalidBech32 (address_parse text) in Ok (build_p2pkh_locking_script (address_hash addr))
  else map_err InvalidScriptHexText (from_hex (strip_hex_prefix text)).

Definition get_utxos (text : list byte) (limit : option N) (sh : Shared) : outcome GatewayError (list UtxoDto) :=
  let? limit := strict_limit limit 100 in
  let? lock_bytes := lock_of_text text in
  Ok (take (N.to_nat limit) (dto_of <$> owned_entries lock_bytes (utxo_set sh))).

Definition submit_tx (now : N) (tx_hex : list byte) : stM Shared GatewayError (list byte) :=
  let! bytes := slift (map_err InvalidTransactionHex (from_hex (strip_hex_prefix tx_hex))) in
  let! tx := slift (map_err TransactionDeserialization (from_canonical_bytes bytes)) in
  let! id := smap_err GatewayNode (submit_transaction now tx) in
  sret (x30 :: x78 :: hash_display id).

(** What the commands make of the answers. *)
Definition gateway_fetch (text : list byte) : stM Shared ClientError (list UtxoDto) := λ sh,
  (sh, map_err (λ _, GatewayFailure) (get_utxos text None sh)).
Definition gateway_post (now : N) (tx_hex : list byte) : stM Shared ClientError (list byte) :=
  smap_err (λ _, GatewayRefused) (submit_tx now tx_hex).
End gateway.

(** ** Inspection *)

(** Inspection reports the hash that a deployment locks funds under, for every
    file that can be read, except that a file of four to seven bytes which
    starts as a module does makes it panic. *)
Theorem inspect_spec {B3 : Blake3} (bytes : list byte) :
  let short := (4 ≤ length bytes < 8)%nat ∧ take 4 bytes = WASM_MAGIC in
  (short → cmd_inspect (Readable bytes) = Panic) ∧
  (¬ short → ∃ r, cmd_inspect (Readable bytes) = Ok r ∧ script_hash_of r = blake3 bytes ∧ size_of r = length bytes ∧
     (wasm_version r ≠ None ↔ take 4 bytes = WASM_MAGIC ∧ (8 ≤ length bytes)%nat)).
Proof.
  cbv zeta. unfold cmd_inspect. destruct (Nat.leb_spec 4 (length bytes)) as [H4|H4]; cbn [andb].
  2:{ split; [lia|]. intros _. cbn [obind]. eexists. split; [done|]. split; [done|]. split; [done|]. cbn [wasm_version]. split; [done|lia]. }
  case_bool_decide as Hm.
  - destruct (Nat.leb_spec 8 (length bytes)) as [H8|H8]; cbn [obind].
    + split; [lia|]. intros _. eexists. split; [done|]. split; [done|]. split; [done|]. cbn [wasm_version]. done.
    + split; [done|]. intros Hn. destruct Hn. by split.
  - cbn [obind]. split; [by intros [_ ?]|]. intros _. eexists. split; [done|]. split; [done|]. split; [done|]. cbn [wasm_version]. naive_solver.
Qed.

(** ** The dry run *)

Section dry_runs.
Context {B3 : Blake3} {BC : Bincode} {WM : Wasmi} {PC : Payload TxContext}.

(** The encoding of a witness reads back. *)
Definition witness_roundtrip (w : EutxoWitness) : Prop :=
  ∃ bytes, bincode_ser_witness w = Some bytes ∧ bincode_de_witness bytes = Some w.

Lemma from_to_tx_in i : witness_roundtrip (mkEutxoWitness (signature i) (redeemer i) (script_source i)) → from_tx_in (to_tx_in i) = Some i.
Proof.
  intros (bytes & Hs & Hd). unfold from_tx_in, to_tx_in, to_authorization, TxIn_new. cbn [authorization previous_output op_txid op_index].
  rewrite Hs. cbn [default from_option id]. unfold id. change (length (WITNESS_MAGIC_PREFIX ++ bytes)) with (4 + length bytes)%nat.
  change (take 4 (WITNESS_MAGIC_PREFIX ++ bytes)) with WITNESS_MAGIC_PREFIX. change (drop 4 (WITNESS_MAGIC_PREFIX ++ bytes)) with bytes.
  rewrite bool_decide_eq_true_2 by done. destruct (Nat.leb_spec 4 (4 + length bytes)); [|lia]. cbn [andb]. rewrite Hd. cbn. by destruct i.
Qed.

Lemma script_inputs_single context limit i u gas :
  script_inputs_ok context limit 0 [i] [u] gas ↔ script_input_ok context limit i u gas ∧ gas ≤ limit.
Proof.
  split.
  - intros H. inversion H as [|? i' u' ? ? g t Hok Hle Hrest]; subst. inversion Hrest; subst. rewrite N.add_0_l, N.sub_0_r in *. done.
  - intros [Hok Hle]. rewrite <- (N.add_0_l gas). econstructor; [by rewrite N.sub_0_r|lia|constructor].
Qed.

Variables (txid : Hash) (index : N) (signature : option (list byte)) (redeemer wasm to_bytes : list byte) (output_amount now : N).
Variables (utxos : UtxoSet) (u : UtxoEntry).
Hypothesis Hu : utxos !! mkOutPoint txid index = Some u.
Hypothesis Hnull : mkOutPoint txid index ≠ OutPoint_null.
Hypothesis Hvalues : value (output u) ≤ U64_MAX ∧ output_amount ≤ U64_MAX.
Hypothesis Hwitness : witness_roundtrip (mkEutxoWitness signature (Some redeemer) (Some wasm)).
Let tx := call_transaction txid index signature redeemer wasm to_bytes output_amount.

Lemma call_not_coinbase : is_coinbase tx = false.
Proof using Hnull.
  unfold tx, call_transaction, is_coinbase, to_tx_in, TxIn_new. cbn [inputs previous_output prev_tx_hash output_index].
  destruct (is_null _) eqn:E; [|done]. by apply is_null_true in E.
Qed.
Lemma call_resolves : resolves utxos (inputs tx) [u].
Proof using Hu. constructor; [exact Hu|constructor]. Qed.

(** The context of the simulation is that of the node when the datum is that
    of the output and the amounts are those of the transaction. *)
Lemma dry_run_context datum :
  script_lock (locking_condition (output u)) = Some (blake3 wasm, datum) →
  dry_run now (value (output u)) output_amount wasm datum redeemer to_bytes tx =
  (let? r := map_err DryRunTrapped (execute_validator wasm datum redeemer (host_context tx now [u]) MAX_TX_GAS) in
   if is_valid r then Ok (gas_consumed r) else Err DryRunRejected).
Proof using Type.
  intros Hl. unfold dry_run, host_context. cbn [map omap list_omap].
  assert (Hd : script_datum (output u) = Some datum) by (unfold script_datum; by rewrite Hl). rewrite Hd.
  change (omap script_datum (outputs tx)) with (omap script_datum [mkTxOut output_amount to_bytes]). cbn [omap list_omap].
  unfold script_datum at 1, script_lock. cbn [locking_condition].
  unfold create_tx_context. cbn [tx_hash block_time Vm.input_amount fee_burned input_datums output_datums ledger_state app].
  unfold outputs_value. cbn [foldr outputs call_transaction tx value]. rewrite !N.add_0_r. unfold saturating_sub.
  destruct (from_locking_condition to_bytes) as [[|]|]; done.
Qed.

Lemma dry_run_cases (datum : list byte) (h : Hash) (gas : N) :
  script_lock (locking_condition (output u)) = Some (h, datum) →
  (h = blake3 wasm →
   (dry_run now (value (output u)) output_amount wasm datum redeemer to_bytes tx = Ok gas ∧ gas ≤ MAX_TX_GAS) ↔
   verify_transaction_eutxo tx now utxos MAX_TX_GAS = Ok gas) ∧
  (h ≠ blake3 wasm → verify_transaction_eutxo tx now utxos MAX_TX_GAS = Err (ScriptHashMismatch h (blake3 wasm))).
Proof using Hu Hnull Hvalues Hwitness.
  intros Hl. destruct Hvalues as [Hv1 Hv2].
  assert (Hin : from_tx_in (to_tx_in (mkTxInput txid index signature (Some redeemer) (Some wasm))) =
    Some (mkTxInput txid index signature (Some redeemer) (Some wasm))) by by apply from_to_tx_in.
  assert (Hout : outputs_value (outputs tx) = output_amount) by (unfold outputs_value; cbn; apply N.add_0_r).
  assert (Hsum : outputs_value (map output [u]) = value (output u)) by (unfold outputs_value; cbn; apply N.add_0_r).
  split.
  - intros ->. rewrite verify_transaction_eutxo_Ok by (exact call_not_coinbase || by vm_compute). rewrite dry_run_context by done.
    set (x := execute_validator _ _ _ _ _).
    assert (HI : script_inputs_ok (host_context tx now [u]) MAX_TX_GAS 0 (inputs tx) [u] gas ↔ x = Ok (mkExecutionResult true gas) ∧ gas ≤ MAX_TX_GAS).
    { change (inputs tx) with [to_tx_in (mkTxInput txid index signature (Some redeemer) (Some wasm))]. rewrite script_inputs_single.
      unfold script_input_ok. rewrite Hl, Hin. split; intros [H Hle]; (split; [|done]).
      - destruct H as (i & code & r & Hi & Hc & Hr & _ & Hx). injection Hi as <-. injection Hc as <-. injection Hr as <-. exact Hx.
      - by eexists _, wasm, redeemer. }
    split.
    + intros [H Hle]. exists [u]. split; [exact call_resolves|]. rewrite Hsum, Hout. split; [done|]. split; [done|]. apply HI. split; [|done].
      apply obind_Ok in H as ([v g] & Hx%map_err_Ok & H). cbn [is_valid gas_consumed] in H. destruct v; [|done]. by injection H as <-.
    + intros (spent & HR & _ & _ & H). rewrite (resolves_fun _ _ _ _ HR call_resolves) in H. apply HI in H as [-> Hle]. by split.
  - intros Hh. unfold verify_transaction_eutxo. rewrite call_not_coinbase.
    assert (HS : sum_inputs utxos (inputs tx) = Ok (value (output u))).
    { apply sum_inputs_Ok. exists [u]. split; [exact call_resolves|]. by rewrite Hsum. }
    rewrite HS. cbn [obind]. rewrite total_output_quanta_spec, Hout. destruct (N.leb_spec output_amount U64_MAX); [|lia]. cbn [map_err obind].
    rewrite (spent_outputs_Ok _ _ _ call_resolves). cbn [obind].
    change (inputs tx) with [to_tx_in (mkTxInput txid index signature (Some redeemer) (Some wasm))]. cbn [ofold]. unfold check_script_input.
    change (previous_output (to_tx_in _)) with (mkOutPoint txid index). rewrite Hu. cbn [expect obind]. rewrite Hl, Hin. cbn [ok_or obind script_source Transaction.redeemer].
    by rewrite bool_decide_eq_false_2.
Qed.

(** C36: Before a call is sent, it is run. If the module and the datum that were given
    are those the output commits to, the run accepts with some fuel exactly when
    the node, at that time, would accept the contract inputs of the transaction
    with that gas, fuel beyond the limit of a transaction aside. With another
    module the run means nothing: it never looks at the output, and the node
    refuses the transaction for its hash. *)
Theorem dry_run_agrees (datum : list byte) (h : Hash) (gas : N) :
  script_lock (locking_condition (output u)) = Some (h, datum) →
  (h = blake3 wasm →
   (dry_run now (value (output u)) output_amount wasm datum redeemer to_bytes tx = Ok gas ∧ gas ≤ MAX_TX_GAS) ↔
   verify_transaction_eutxo tx now utxos MAX_TX_GAS = Ok gas) ∧
  (h ≠ blake3 wasm → verify_transaction_eutxo tx now utxos MAX_TX_GAS = Err (ScriptHashMismatch h (blake3 wasm))).
Proof using Hu Hnull Hvalues Hwitness. apply dry_run_cases. Qed.
End dry_runs.

(** ** Calls *)

Lemma sbind_lift_Ok_inv {S E A B} (m : outcome E A) (k : A → stM S E B) s s' b :
  sbind (slift m) k s = (s', Ok b) → ∃ a, m = Ok a ∧ k a s = (s', Ok b).
Proof. unfold sbind, slift. destruct m; [|done..]. intros H. by eexists. Qed.

Section calls.
Context {B3 : Blake3} {ED : Ed25519} {EV : Ed25519Verify} {ES : Ed25519Sign} {BE : Bech32} {KC : KeyCipher} {BC : Bincode}.
Context {WM : Wasmi} {PC : Payload TxContext} {HX : HexCrate}.

Lemma call_amount_Ok amount fee input v :
  call_amount amount fee input = Ok v →
  v ≤ input ∧ (fee ≤ input → v + fee ≤ input) ∧ (if 0 <? amount then v = amount else v = input - fee).
Proof.
  unfold call_amount, saturating_sub. destruct (N.ltb_spec 0 amount); [destruct (N.ltb_spec (input - fee) amount); [done|]|]; intros [= <-]; lia.
Qed.

(** What a call that is reported did: it found the value of the output, spent
    that output alone into one of at most what is left after the fee, and, unless
    told not to, ran the module on it. *)
Inductive call_outcome {S} (fetch : list byte → N → S → S * option N) (now : N) (utxo redeemer datum to : list byte) (wasm : WasmFile) (amount fee : N)
    (signature : option (list byte)) (only_dry_run skip_dry_run : bool) (s s' : S) (tx : Transaction) (fuel : N) : Prop :=
| call_outcome_intro txid_part index_part bytes txid index sig redeemer_bytes wasm_bytes datum_bytes to_bytes input v s1 :
    split_colon utxo = Some (txid_part, index_part) → parse_u32 index_part = Some index →
    hex_decode (clean_hex txid_part) = Some bytes → hash_of_list bytes = Some txid → read_wasm wasm = Ok wasm_bytes →
    hex_decode (clean_hex redeemer) = Some redeemer_bytes → hex_decode (clean_hex datum) = Some datum_bytes →
    call_target to = Ok to_bytes → call_signature signature = Ok sig →
    fetch (clean_hex txid_part) index s = (s1, Some input) →
    v ≤ input → (fee ≤ input → v + fee ≤ input) → (if 0 <? amount then v = amount else v = input - fee) →
    tx = call_transaction txid index sig redeemer_bytes wasm_bytes to_bytes v →
    (skip_dry_run = false → dry_run now input v wasm_bytes datum_bytes redeemer_bytes to_bytes tx = Ok fuel) →
    (only_dry_run = true → s' = s1) →
    call_outcome fetch now utxo redeemer datum to wasm amount fee signature only_dry_run skip_dry_run s s' tx fuel.

Lemma call_contract_Ok {S} (post_tx : list byte → stM S ClientError (list byte)) (fetch : list byte → N → S → S * option N)
    now utxo redeemer datum to wasm amount fee signature only_dry_run skip_dry_run s s' report :
  call_contract post_tx fetch now utxo redeemer datum to wasm amount fee signature only_dry_run skip_dry_run s = (s', Ok report) →
  ∃ tx fuel, call_outcome fetch now utxo redeemer datum to wasm amount fee signature only_dry_run skip_dry_run s s' tx fuel ∧
    (if only_dry_run then report = DryRunCall tx fuel else ∃ id, report = Called tx fuel id).
Proof.
  unfold call_contract. intros H.
  apply sbind_lift_Ok_inv in H as ([txid_part index_part] & Hsplit%ok_or_Ok & H).
  apply sbind_lift_Ok_inv in H as (index & Hindex%ok_or_Ok & H).
  apply sbind_lift_Ok_inv in H as (bytes & Hbytes%ok_or_Ok & H).
  apply sbind_lift_Ok_inv in H as (txid & Htxid%ok_or_Ok & H).
  apply sbind_lift_Ok_inv in H as (wasm_bytes & Hwasm & H).
  apply sbind_lift_Ok_inv in H as (redeemer_bytes & Hredeemer%ok_or_Ok & H).
  apply sbind_lift_Ok_inv in H as (datum_bytes & Hdatum%ok_or_Ok & H).
  apply sbind_lift_Ok_inv in H as (to_bytes & Hto & H).
  apply sbind_lift_Ok_inv in H as (sig & Hsig & H).
  apply sbind_Ok in H as (s1 & fetched & Hfetch & H). destruct (fetch (clean_hex txid_part) index s) as [s2 o] eqn:Ef. injection Hfetch as -> ->.
  apply sbind_lift_Ok_inv in H as (input & Hinput%ok_or_Ok & H). subst fetched.
  apply sbind_lift_Ok_inv in H as (v & (Hv1 & Hv2 & Hv3)%call_amount_Ok & H).
  apply sbind_lift_Ok_inv in H as ([] & _ & H).
  apply sbind_lift_Ok_inv in H as (fuel & Hfuel & H).
  exists (call_transaction txid index sig redeemer_bytes wasm_bytes to_bytes v), fuel.
  assert (HR : skip_dry_run = false → dry_run now input v wasm_bytes datum_bytes redeemer_bytes to_bytes
    (call_transaction txid index sig redeemer_bytes wasm_bytes to_bytes v) = Ok fuel) by (intros ->; exact Hfuel).
  destruct only_dry_run.
  - apply sbind_lift_Ok_inv in H as (? & _ & H). injection H as <- <-. split; [by econstructor|done].
  - apply sbind_Ok in H as (? & id & _ & H). injection H as <- <-. split; [by econstructor|by exists id].
Qed.
End calls.

(** ** The gateway *)

Lemma strip_to_hex bs : strip_hex_prefix (to_hex bs) = to_hex bs.
Proof.
  destruct bs as [|b bs]; [done|]. change (to_hex (b :: bs)) with (hex_byte b ++ to_hex bs). unfold strip_hex_prefix, strip_prefix.
  rewrite !bool_decide_eq_false_2; [done|..]; destruct b; intros E; discriminate E.
Qed.
Lemma hex_not_address bs : starts_with SCY1 (to_ascii_lowercase (to_hex bs)) = false.
Proof.
  apply bool_decide_eq_false_2. destruct bs as [|b bs]; [done|]. change (to_hex (b :: bs)) with (hex_byte b ++ to_hex bs).
  destruct b; intros E; discriminate E.
Qed.

Section deployments.
Context {B3 : Blake3} `{SL : Ed25519SignLaws} {BE : Bech32} {KC : KeyCipher} {BC : Bincode} {BT : BincodeTag}.
Context {WM : Wasmi} {PC : Payload TxContext} {BS : BlockStore} {HX : HexCrate} {HL : HexCrateLaws}.

(** The gateway lists no more than a hundred outputs. *)
Lemma gateway_lists lock (sh : Shared) :
  gateway_fetch (hex_encode lock) sh = (sh, Ok (dto_of <$> take 100 (owned_entries lock (utxo_set sh)))).
Proof using HL.
  unfold gateway_fetch, get_utxos, lock_of_text. cbn [strict_limit obind]. rewrite encodes, hex_not_address, strip_to_hex, from_to_hex. cbn [map_err obind].
  by rewrite fmap_take.
Qed.

(** A transaction the codec carries reaches the node as it was sent. *)
Lemma broadcast_local now tx (sh : Shared) bytes :
  transaction_codec_wf tx → to_canonical_bytes tx = Ok bytes →
  broadcast_transaction (gateway_post now) tx sh =
  match submit_transaction now tx sh with
  | (sh, Ok id) => (sh, Ok (x30 :: x78 :: hash_display id))
  | (sh, Err _) => (sh, Err GatewayRefused)
  | (sh, Panic) => (sh, Panic)
  | (sh, Diverge) => (sh, Diverge)
  end.
Proof using HL.
  intros Hwf Hb. unfold broadcast_transaction. rewrite Hb. cbn [map_err]. rewrite sbind_lift_Ok. unfold gateway_post, smap_err, submit_tx.
  rewrite encodes, strip_to_hex, from_to_hex. cbn [map_err]. rewrite sbind_lift_Ok, (from_to_canonical _ _ Hwf Hb). cbn [map_err]. rewrite sbind_lift_Ok.
  unfold sbind, smap_err. destruct (submit_transaction now tx sh) as [sh' []]; done.
Qed.

Lemma funded_codec seed chosen first fee (s : UtxoSet) :
  chosen ⊆+ owned_entries (key_lock seed) s → value first + fee ≤ entries_value chosen ≤ U64_MAX →
  Forall (λ oe, op_index oe.1 < MOD32) chosen → N.of_nat (length chosen) ≤ MAX_VECTOR_LENGTH →
  transaction_codec_wf (funded_tx seed chosen first fee).
Proof using Type.
  intros Hsub Hf HI HL'. split; [|split; [by rewrite funded_count|]].
  - split; [unfold funded_tx; rewrite sign_transaction_signed; by vm_compute|]. split; [|split; [|unfold funded_tx; rewrite sign_transaction_signed; by vm_compute]].
    + unfold funded_tx. rewrite sign_transaction_signed. cbn [signed inputs]. apply Forall_lookup. intros i x Hx.
      rewrite list_lookup_imap, list_lookup_fmap in Hx. destruct (chosen !! i) as [oe|] eqn:Ei; [|done]. injection Hx as <-.
      split; [|by vm_compute]. cbn. by apply (Forall_lookup_1 _ _ _ _ HI Ei).
    + rewrite (funded_outputs seed chosen first fee Hf). constructor; [unfold txout_wf; lia|].
      destruct (_ =? 0); [constructor|]. apply Forall_singleton. unfold txout_wf. cbn [value]. lia.
  - rewrite (funded_outputs seed chosen first fee Hf). destruct (_ =? 0); by vm_compute.
Qed.

Section owner.
Variables (seed : list byte) (w : WalletFile).
Hypothesis Hw : belongs seed w.
Hypothesis Hkey : signing_key w = Ok seed.
Variables (wasm datum datum_bytes : list byte) (amount fee now : N) (sh : Shared).
Hypothesis Hdatum : hex_decode (clean_hex datum) = Some datum_bytes.
Let lock := Transaction.Script (blake3 wasm) datum_bytes.
Let owned := owned_entries (key_lock seed) (utxo_set sh).
Let first := mkTxOut amount (to_locking_condition lock).
Let run dry := deploy_contract gateway_fetch (gateway_post now) (Readable wasm) datum (Ok w) amount fee dry sh.
Hypothesis Hvalue : entries_value (take 100 owned) ≤ U64_MAX.

Lemma deploy_run :
  (U64_MAX < amount + fee ∧ ∀ dry, run dry = (sh, Err AmountPlusFeeOverflow)) ∨
  (entries_value (take 100 owned) < amount + fee ≤ U64_MAX ∧
   ∀ dry, run dry = (sh, Err (ClientWallet (WalletInsufficientFunds (amount + fee) (entries_value (take 100 owned)))))) ∨
  (amount + fee ≤ entries_value (take 100 owned) ∧ ∃ chosen, chosen_from (amount + fee) (take 100 owned) chosen ∧
   ∀ dry : bool, run dry = (let! contract := slift (txid (funded_tx seed chosen first fee)) in
              if dry then sret (DryRunDeploy (funded_tx seed chosen first fee) contract)
              else let! id := broadcast_transaction (gateway_post now) (funded_tx seed chosen first fee) in sret (Deployed contract id)) sh).
Proof using Hw Hkey Hdatum Hvalue SL HL.
  assert (HR : ∀ dry, run dry = (let! total_needed := slift (ok_or (checked_add amount fee) AmountPlusFeeOverflow) in
    deploy_with (gateway_post now) w (key_lock seed) first total_needed dry (dto_of <$> take 100 owned)) sh).
  { intros dry. subst run. cbv beta. unfold deploy_contract. cbn [read_wasm]. rewrite sbind_lift_Ok, Hdatum. cbn [ok_or]. rewrite sbind_lift_Ok.
    rewrite (belongs_lock seed w Hw). cbn [map_err]. rewrite sbind_lift_Ok. fold (key_lock seed).
    destruct (checked_add amount fee); cbn [ok_or]; [|by rewrite !sbind_lift_Err]. by rewrite !sbind_lift_Ok, gateway_lists. }
  destruct (checked_add amount fee) as [needed|] eqn:Ec; cbn [ok_or] in HR.
  2:{ left. unfold checked_add in Ec. destruct (N.leb_spec (amount + fee) U64_MAX); [done|]. split; [lia|]. intros dry. by rewrite HR, sbind_lift_Err. }
  apply checked_add_Some in Ec as [-> Hle]. right. unfold deploy_with, fund in HR.
  destruct (selection_spec (amount + fee) (take 100 owned) Hvalue) as [(Hn & chosen & Hc & ES')|(Hn & sel & ES')].
  - right. split; [done|]. exists chosen. split; [exact Hc|]. intros dry. rewrite HR, sbind_lift_Ok, ES'.
    destruct (N.ltb_spec (entries_value chosen) (amount + fee)) as [Hlt|_].
    { pose proof (cf_enough _ _ _ Hc). lia. }
    rewrite sbind_lift_Ok, inputs_of_entries, sbind_lift_Ok, Hkey. cbn [map_err]. rewrite sbind_lift_Ok, (belongs_public seed w Hw). cbn [map_err].
    by rewrite sbind_lift_Ok.
  - left. split; [lia|]. intros dry. rewrite HR, sbind_lift_Ok, ES'. destruct (N.ltb_spec (entries_value (take 100 owned)) (amount + fee)); [|lia]. by rewrite sbind_lift_Err.
Qed.

(** A deployment that is not refused for dust or its fee locks the amount under
    the hash of the module and the datum: in the pool, and, once applied, on the
    ledger at the output the command reports, as a lock whose hash and datum are
    read back; nothing else is paid but the fee. *)
Theorem deploy_spec :
  vec_fits (to_locking_condition lock) → utxo_set sh !! OutPoint_null = None →
  (∀ oe, oe ∈ owned → spent_outpoints (mempool sh) !! oe.1 = None ∧ op_index oe.1 < MOD32) →
  DUST_THRESHOLD ≤ amount → amount + fee ≤ entries_value (take 100 owned) →
  (∃ bytes, bincode_ser_lock lock = Some bytes ∧ bincode_de_lock bytes = Some lock) →
  ∃ chosen tx id, chosen_from (amount + fee) (take 100 owned) chosen ∧ txid (E := UtxoError) tx = Ok id ∧
    let change := entries_value chosen - (amount + fee) in
    outputs tx = mkTxOut amount (to_locking_condition lock) :: (if change =? 0 then [] else [mkTxOut change (key_lock seed)]) ∧
    run true = (sh, Ok (DryRunDeploy tx id)) ∧
    (0 < change < DUST_THRESHOLD → run false = (sh, Err GatewayRefused)) ∧
    (change = 0 ∨ DUST_THRESHOLD ≤ change →
     let size := 32 + N.of_nat (length (to_locking_condition lock)) + 142 * N.of_nat (length chosen) + (if change =? 0 then 0 else 49) in
     let rate := saturating_mul fee 1000 / size in
     (pool_contains (mempool sh) id = false → over_capacity (mempool sh) size = false →
      run false = if rate <? min_fee_rate (mempool sh) then (sh, Err GatewayRefused)
                  else (with_pool (add_entry (mkMempoolEntry tx id fee rate size now) ∅ (mempool sh)) sh,
                        Ok (Deployed id (x30 :: x78 :: hash_display id)))) ∧
     ∀ height, (∀ k, utxo_set sh !! mkOutPoint id k = None) →
       ∃ s' e, apply_transaction tx height (utxo_set sh) = (s', Ok fee) ∧ s' !! mkOutPoint id 0 = Some e ∧
         value (output e) = amount ∧ script_lock (locking_condition (output e)) = Some (blake3 wasm, datum_bytes)).
Proof using Hw Hkey Hdatum Hvalue SL HL BT.
  intros Hfits Hnull Hfree Hamount Hfunds (lb & Hser & Hde).
  destruct deploy_run as [[H _]|[[H _]|(_ & chosen & Hc & HR)]]; [pose proof Hvalue; lia|lia|].
  pose proof (cf_sub _ _ _ Hc) as Hsub1. assert (Hsub : chosen ⊆+ owned) by (etrans; [exact Hsub1|]; apply sublist_submseteq, sublist_take).
  assert (Hne : chosen ≠ []) by (eapply (entries_nonempty (amount + fee)); [unfold DUST_THRESHOLD in Hamount; lia|apply Hc]).
  assert (Hf : value first + fee ≤ entries_value chosen ≤ U64_MAX) by (split; [apply Hc|]; pose proof (entries_value_sub _ _ Hsub1); lia).
  assert (Hin : ∀ o e, (o, e) ∈ chosen → (o, e) ∈ owned) by (intros o e Ho; by eapply elem_of_submseteq).
  assert (Hfree' : ∀ o, o ∈ chosen.*1 → spent_outpoints (mempool sh) !! o = None).
  { intros o ([o' e] & -> & Ho)%list_elem_of_fmap. by apply (Hfree (o', e)), Hin. }
  assert (Hcodec : transaction_codec_wf (funded_tx seed chosen first fee)).
  { apply (funded_codec seed chosen first fee (utxo_set sh) Hsub Hf).
    - apply Forall_forall. intros [o e] Ho. by apply (Hfree (o, e)), Hin.
    - apply submseteq_length in Hsub1. rewrite length_take in Hsub1. unfold MAX_VECTOR_LENGTH. lia. }
  destruct (funded_bytes seed chosen first fee Hf Hfits) as (bytes & Hb & _).
  destruct (submit_funded seed chosen first fee now sh Hsub Hf Hnull Hfits Hfree' Hne) as (id & Hid & Hbad & Hgood).
  assert (Hid' : ∀ E, txid (E := E) (funded_tx seed chosen first fee) = Ok id).
  { intros E. unfold txid in *. rewrite Hb in *. by injection Hid as ->. }
  change (value first + fee) with (amount + fee) in *.
  assert (Hdust : dust_ok first) by by right.
  exists chosen, (funded_tx seed chosen first fee), id. split; [exact Hc|]. split; [exact Hid|]. cbv zeta.
  split; [by apply (funded_outputs seed chosen first fee)|]. split; [by rewrite HR, Hid', sbind_lift_Ok|].
  assert (HF : run false = let '(s', r) := broadcast_transaction (gateway_post now) (funded_tx seed chosen first fee) sh in
    (s', obind r (λ i, Ok (Deployed id i)))).
  { rewrite HR, Hid', sbind_lift_Ok. unfold sbind, sret. by destruct (broadcast_transaction _ _ sh) as [s' []]. }
  rewrite (broadcast_local now _ sh bytes Hcodec Hb) in HF. rewrite HF. split; [|intros Hch; split].
  - intros Hx. rewrite Hbad; [done|]. intros [_ H2]. lia.
  - intros Hp Hcap. rewrite (Hgood Hdust Hch Hp Hcap). by destruct (_ <? _).
  - intros height Hfresh.
    destruct (funded_apply seed (utxo_set sh) chosen first fee Hsub Hf now height id (Hid' _)) as (s' & HA & HLk); [|done|].
    { by apply (funded_valid seed (utxo_set sh) chosen first fee Hsub Hf). }
    exists s', (mkUtxoEntry first height false). split; [exact HA|]. split; [exact HLk|]. split; [done|].
    unfold script_lock, from_locking_condition. cbn [output locking_condition first]. unfold to_locking_condition. rewrite Hser. change (default [] (Some lb)) with lb.
    change (take 4 (LOCK_MAGIC_PREFIX ++ lb)) with LOCK_MAGIC_PREFIX. change (drop 4 (LOCK_MAGIC_PREFIX ++ lb)) with lb.
    rewrite bool_decide_eq_true_2 by done. change (length (LOCK_MAGIC_PREFIX ++ lb)) with (4 + length lb)%nat.
    destruct (Nat.leb_spec 4 (4 + length lb)); [|lia]. cbn [andb]. rewrite Hde. done.
Qed.

(** The command sees at most a hundred outputs of the wallet, whichever they
    are: with outputs of at most [v] it refuses what needs more than a hundred of
    them, whatever the wallet owns. *)
Theorem deploy_sees_hundred (v : N) (dry : bool) :
  (∀ oe, oe ∈ owned → value (output oe.2) ≤ v) → 100 * v < amount + fee ≤ U64_MAX →
  ∃ available, available ≤ 100 * v ∧ run dry = (sh, Err (ClientWallet (WalletInsufficientFunds (amount + fee) available))).
Proof using Hw Hkey Hdatum Hvalue SL HL.
  intros Hv Hn.
  assert (Hsum : entries_value (take 100 owned) ≤ 100 * v).
  { assert (HG : ∀ es : list (OutPoint * UtxoEntry), (∀ oe, oe ∈ es → value (output oe.2) ≤ v) → entries_value es ≤ N.of_nat (length es) * v).
    { induction es as [|oe es IH]; intros H; [done|]. unfold entries_value, outputs_value in *. cbn [fmap list_fmap foldr length].
      pose proof (H oe ltac:(by left)). specialize (IH (λ x Hx, H x ltac:(by right))). lia. }
    specialize (HG (take 100 owned)). etrans; [apply HG|].
    - intros oe Hin. apply Hv. apply elem_of_take in Hin as (i & Hi & _); by eapply list_elem_of_lookup_2.
    - rewrite length_take. nia. }
  destruct deploy_run as [[H _]|[[H HR]|[H _]]]; [lia| |lia]. rewrite HR. by exists (entries_value (take 100 owned)).
Qed.
End owner.
End deployments.

(** ** Witnesses *)

(** A working [bincode]: four bytes of tag, lengths of eight, a byte for an
    option. *)
Definition wire_bytes (b : list byte) : list byte := le_bytes 8 (N.of_nat (length b)) ++ b.
Definition wire_option (o : option (list byte)) : list byte := match o with Some b => x01 :: wire_bytes b | None => [x00] end.
Definition take_bytes (s : list byte) : option (list byte * list byte) :=
  let n := le_val (take 8 s) in let rest := drop 8 s in
  if n <=? N.of_nat (length rest) then Some (take (N.to_nat n) rest, drop (N.to_nat n) rest) else None.
Definition take_option (s : list byte) : option (option (list byte) * list byte) :=
  match s with
  | x00 :: s => Some (None, s)
  | x01 :: s => '(b, s) ← take_bytes s; Some (Some b, s)
  | _ => None
  end.
Definition wire_bincode : Bincode := {|
  bincode_ser_lock l := Some match l with
    | PublicKey pk => le_bytes 4 0 ++ hash_bytes pk
    | Transaction.Script h datum => le_bytes 4 1 ++ hash_bytes h ++ wire_bytes datum
    end;
  bincode_de_lock s :=
    let tag := le_val (take 4 s) in
    if tag =? 0 then h ← hash_of_list (drop 4 s); Some (PublicKey h)
    else if tag =? 1 then h ← hash_of_list (take 32 (drop 4 s)); '(d, _) ← take_bytes (drop 36 s); Some (Transaction.Script h d)
    else None;
  bincode_ser_witness w := Some (wire_option (w_signature w) ++ wire_option (w_redeemer w) ++ wire_option (w_script_source w));
  bincode_de_witness s :=
    '(a, s) ← take_option s; '(b, s) ← take_option s; '(c, _) ← take_option s; Some (mkEutxoWitness a b c)
|}.
Definition wire_tag : BincodeTag (BC := wire_bincode).
Proof.
  intros bytes l. cbn [bincode_de_lock wire_bincode]. destruct (N.eqb_spec (le_val (take 4 bytes)) 0) as [->|_]; [done|].
  destruct (N.eqb_spec (le_val (take 4 bytes)) 1) as [->|_]; done.
Qed.

Definition toy_hex : HexCrate := {| hex_encode := to_hex; hex_decode s := match from_hex s with Ok b => Some b | _ => None end |}.
Lemma toy_hex_laws : HexCrateLaws (HX := toy_hex).
Proof. split; intros bytes; [done|]. cbn. by rewrite from_to_hex. Qed.

Section witnesses.
#[local] Existing Instances toy_blake3 toy_bech32 wallet_ed25519 wallet_verify wallet_sign wallet_sign_laws toy_cipher wire_bincode wire_tag toy_redb toy_payload_context toy_hex toy_hex_laws.
#[local] Instance toy_machine : Wasmi := toy_wasmi toy_contract.

(** A contract output of 50 that wants its datum, the byte seven, as redeemer. *)
Definition toy_module : list byte := [x00; x61; x73; x6d; x01].
Definition toy_locked : UtxoEntry := mkUtxoEntry (mkTxOut 50 (to_locking_condition (Transaction.Script (blake3 toy_module) [x07]))) 1 false.
Definition toy_contract_set : UtxoSet := {[ mkOutPoint ZERO 1 := toy_locked ]}.
Definition toy_call : Transaction := call_transaction ZERO 1 None [x07] toy_module [x51] 40.

Lemma dry_run_agrees_witness :
  script_lock (locking_condition (output toy_locked)) = Some (blake3 toy_module, [x07]) ∧
  dry_run 5 50 40 toy_module [x07] [x07] [x51] toy_call = Ok 7 ∧
  verify_transaction_eutxo toy_call 5 toy_contract_set MAX_TX_GAS = Ok 7.
Proof.
  assert (Hl : script_lock (locking_condition (output toy_locked)) = Some (blake3 toy_module, [x07])) by (vm_compute; reflexivity).
  assert (Hd : dry_run 5 50 40 toy_module [x07] [x07] [x51] toy_call = Ok 7) by (vm_compute; reflexivity).
  split; [exact Hl|]. split; [exact Hd|].
  assert (Hu : toy_contract_set !! mkOutPoint ZERO 1 = Some toy_locked) by apply lookup_singleton_eq.
  assert (Hw : witness_roundtrip (mkEutxoWitness None (Some [x07]) (Some toy_module))).
  { eexists. split; [reflexivity|]. vm_compute. reflexivity. }
  assert (Hnull : mkOutPoint ZERO 1 ≠ OutPoint_null) by (intros E; discriminate E).
  assert (Hv : value (output toy_locked) ≤ U64_MAX ∧ 40 ≤ U64_MAX) by (split; discriminate).
  assert (Hg : 7 ≤ MAX_TX_GAS) by discriminate.
  exact (proj1 (proj1 (dry_run_agrees ZERO 1 None [x07] toy_module [x51] 40 5 toy_contract_set toy_locked Hu Hnull Hv Hw [x07] _ 7 Hl) eq_refl) (conj Hd Hg)).
Defined.

(** The node with one output of 5000 for the toy wallet. *)
Lemma toy_take : take 100 (owned_entries (key_lock toy_seed) (utxo_set toy_side)) = [(mkOutPoint ZERO 1, mkUtxoEntry (mkTxOut 5000 (key_lock toy_seed)) 1 false)].
Proof. by rewrite toy_entries. Qed.
Lemma toy_take_value : entries_value (take 100 (owned_entries (key_lock toy_seed) (utxo_set toy_side))) = 5000.
Proof. rewrite toy_take. reflexivity. Qed.
Lemma toy_call_fits : entries_value (take 100 (owned_entries (key_lock toy_seed) (utxo_set toy_side))) ≤ U64_MAX.
Proof. rewrite toy_take_value. discriminate. Qed.
Lemma toy_datum : hex_decode (clean_hex (to_hex [x07])) = Some [x07].
Proof. vm_compute. reflexivity. Qed.

Lemma deploy_spec_witness :
  belongs toy_seed toy_wallet ∧ signing_key toy_wallet = Ok toy_seed ∧ hex_decode (clean_hex (to_hex [x07])) = Some [x07] ∧
  ∃ chosen tx id, chosen_from 4000 (take 100 (owned_entries (key_lock toy_seed) (utxo_set toy_side))) chosen ∧
    txid (E := UtxoError) tx = Ok id ∧
    deploy_contract gateway_fetch (gateway_post 9) (Readable toy_module) (to_hex [x07]) (Ok toy_wallet) 3000 1000 true toy_side =
      (toy_side, Ok (DryRunDeploy tx id)).
Proof.
  split; [exact toy_belongs|]. split; [exact toy_signing|]. split; [exact toy_datum|].
  destruct (deploy_spec toy_seed toy_wallet toy_belongs toy_signing toy_module (to_hex [x07]) [x07] 3000 1000 9 toy_side toy_datum toy_call_fits)
    as (chosen & tx & id & Hc & Hid & _ & Hrun & _).
  - apply N.leb_le. vm_compute. reflexivity.
  - reflexivity.
  - rewrite toy_entries. intros oe Hoe. apply list_elem_of_singleton in Hoe as ->. split; [apply lookup_empty|reflexivity].
  - discriminate.
  - rewrite toy_take_value. discriminate.
  - eexists. split; [reflexivity|]. vm_compute. reflexivity.
  - exists chosen, tx, id. split; [exact Hc|]. split; [exact Hid|exact Hrun].
Defined.
(** The whole run: the node answers with the identifier. *)
Lemma toy_deploy : is_ok (deploy_contract gateway_fetch (gateway_post 9) (Readable toy_module) (to_hex [x07]) (Ok toy_wallet) 3000 1000 false toy_side).2 = true.
Proof. vm_compute. reflexivity. Qed.

Lemma deploy_sees_hundred_witness :
  belongs toy_seed toy_wallet ∧ signing_key toy_wallet = Ok toy_seed ∧
  ∃ available, available ≤ 500000 ∧
    deploy_contract gateway_fetch (gateway_post 9) (Readable toy_module) (to_hex [x07]) (Ok toy_wallet) 600000 1000 false toy_side =
      (toy_side, Err (ClientWallet (WalletInsufficientFunds 601000 available))).
Proof.
  split; [exact toy_belongs|]. split; [exact toy_signing|].
  apply (deploy_sees_hundred toy_seed toy_wallet toy_belongs toy_signing toy_module (to_hex [x07]) [x07] 600000 1000 9 toy_side toy_datum toy_call_fits 5000 false).
  - rewrite toy_entries. intros oe Hoe. apply list_elem_of_singleton in Hoe as ->. discriminate.
  - split; [reflexivity|discriminate].
Defined.
End witnesses.
