(* ===== verification/Limiter.v ===== *)
(** * The rate limiter of the gateway

    [RpcRateLimiter] of [apps/scytale-node/src/http_gateway.rs], in front of the
    two routes that write: a window of one second per client address, thirty
    requests in each. Time is in nanoseconds; a call reads the clock for the
    windows it drops and again for the window of its client. *)

From S2P Require Import Prelude.
Local Open Scope N_scope.
Local Open Scope scy_scope.

Definition WRITE_REQUEST_LIMIT : N := 30.
Definition WRITE_REQUEST_WINDOW : N := 1000000000.

Record RpcRateWindow := mkRpcRateWindow { window_start : N; request_count : N }.

(** [Instant::elapsed], which saturates. *)
Definition elapsed (now start : N) : N := now - start.
(** A window that has not run out. *)
Definition live (now : N) (w : RpcRateWindow) : bool := elapsed now (window_start w) <? WRITE_REQUEST_WINDOW.

(** Case analysis on the comparisons of a goal. *)
Ltac cases_compare := unfold WRITE_REQUEST_WINDOW, WRITE_REQUEST_LIMIT in *;
  repeat match goal with |- context [?x <=? ?y] => destruct (N.leb_spec x y) | |- context [?x <? ?y] => destruct (N.ltb_spec x y) end;
  cbn [andb]; try lia.

Section limiter.
Context {IP : Type} `{Countable IP}.

(** Requests without a client address share one window. *)
Local Notation RpcRateLimiter := (gmap (option IP) RpcRateWindow).
Definition limiter_new : RpcRateLimiter := ∅.

Definition allow (t now : N) (client_ip : option IP) (l : RpcRateLimiter) : RpcRateLimiter * bool :=
  let l := filter (λ kw, live t kw.2 = true) l in
  let w := default (mkRpcRateWindow now 0) (l !! client_ip) in
  let w := if live now w then w else mkRpcRateWindow now 0 in
  if WRITE_REQUEST_LIMIT <=? request_count w then (<[client_ip := w]> l, false)
  else (<[client_ip := mkRpcRateWindow (window_start w) (request_count w + 1)]> l, true).

(** [rate_limit_write_requests] before a handler: no answer stands for the
    status [TOO_MANY_REQUESTS]. *)
Definition rate_limited {S A} (t now : N) (client_ip : option IP) (next : S → S * A) : RpcRateLimiter * S → RpcRateLimiter * S * option A :=
  λ '(l, s),
    let '(l, allowed) := allow t now client_ip l in
    if (allowed : bool) then let '(s, a) := next s in (l, s, Some a) else (l, s, None).

(** ** What a client can get through *)

(** A call: the two readings of the clock and the client. *)
Record Call := mkCall { first_read : N; second_read : N; caller : option IP }.

(** The answers to a sequence of calls, each with its call. *)
Fixpoint answers (l : RpcRateLimiter) (calls : list Call) : list (Call * bool) :=
  match calls with
  | [] => []
  | c :: calls =>
      let '(l, b) := allow (first_read c) (second_read c) (caller c) l in
      (c, b) :: answers l calls
  end.
(** The clock does not go back, from [now] on. *)
Fixpoint clocked (now : N) (calls : list Call) : Prop :=
  match calls with
  | [] => True
  | c :: calls => now ≤ first_read c ≤ second_read c ∧ clocked (second_read c) calls
  end.
(** Requests of [client] that went through in the second from [a] on. *)
Definition granted (client : option IP) (a : N) (cb : Call * bool) : bool :=
  cb.2 && bool_decide (caller cb.1 = client) && (a <=? second_read cb.1) && (second_read cb.1 <? a + WRITE_REQUEST_WINDOW).
Definition granted_count (client : option IP) (a : N) (l : list (Call * bool)) : N :=
  foldr (λ cb n, (if granted client a cb then 1 else 0) + n) 0 l.

(** ** Invariants *)

(** A window counts one request at least, no more than the limit, and does not
    start in the future. *)
Definition limiter_ok (now : N) (l : RpcRateLimiter) : Prop :=
  map_Forall (λ _ w, 1 ≤ request_count w ≤ WRITE_REQUEST_LIMIT ∧ window_start w ≤ now) l.

(** What [client] can still get through from [now] on, in the second from [a]:
    a window that starts inside it is the last one, and the request that starts
    one before it is outside. *)
Definition budget (a now : N) (w : option RpcRateWindow) : N :=
  match w with
  | Some w =>
      if a + WRITE_REQUEST_WINDOW <=? window_start w then 0
      else if a <=? window_start w then WRITE_REQUEST_LIMIT - request_count w
      else if window_start w + WRITE_REQUEST_WINDOW <=? a then 2 * WRITE_REQUEST_LIMIT - 1
      else 2 * WRITE_REQUEST_LIMIT - request_count w
  | None =>
      if now <=? a then 2 * WRITE_REQUEST_LIMIT - 1
      else if now <? a + WRITE_REQUEST_WINDOW then WRITE_REQUEST_LIMIT
      else 0
  end.

(** The window a call counts in. *)
Definition effective (now : N) (client : option IP) (l : RpcRateLimiter) : RpcRateWindow :=
  match l !! client with
  | Some w => if live now w then w else mkRpcRateWindow now 0
  | None => mkRpcRateWindow now 0
  end.
Definition counted (w : RpcRateWindow) : RpcRateWindow := mkRpcRateWindow (window_start w) (request_count w + 1).

Lemma live_before t now w : t ≤ now → live now w = true → live t w = true.
Proof. unfold live, elapsed. rewrite !N.ltb_lt. lia. Qed.

Lemma fresh_live now : live now (mkRpcRateWindow now 0) = true.
Proof. unfold live, elapsed. cbn [window_start]. by rewrite N.sub_diag. Qed.

Lemma allow_effective t now client l :
  t ≤ now →
  let w := effective now client l in
  let kept := filter (λ kw, live t kw.2 = true) l in
  allow t now client l =
  if WRITE_REQUEST_LIMIT <=? request_count w then (<[client := w]> kept, false) else (<[client := counted w]> kept, true).
Proof.
  intros Ht. cbv zeta. unfold allow, effective, counted. rewrite map_lookup_filter.
  destruct (l !! client) as [w|]; cbn [mbind option_bind].
  - destruct (live now w) eqn:Hn.
    + rewrite option_guard_True by (cbn; by eapply live_before). cbn. by rewrite Hn.
    + destruct (decide (live t w = true)) as [Ht'|Ht'].
      * rewrite option_guard_True by done. cbn [mbind option_bind default from_option id]. unfold id. by rewrite Hn.
      * rewrite option_guard_False by done. cbn [mbind option_bind default from_option]. by rewrite fresh_live.
  - cbn [default from_option]. by rewrite fresh_live.
Qed.

Lemma effective_cases now client l :
  (∃ w, l !! client = Some w ∧ live now w = true ∧ effective now client l = w) ∨
  ((∀ w, l !! client = Some w → window_start w + WRITE_REQUEST_WINDOW ≤ now) ∧ effective now client l = mkRpcRateWindow now 0).
Proof.
  unfold effective. destruct (l !! client) as [w|]; [|by right]. destruct (live now w) eqn:Hw; [left; by exists w|].
  right. split; [|done]. intros ? [= <-]. revert Hw. unfold live, elapsed. rewrite N.ltb_ge. unfold WRITE_REQUEST_WINDOW. lia.
Qed.

Lemma dropped_old t (w : RpcRateWindow) : live t w ≠ true → window_start w + WRITE_REQUEST_WINDOW ≤ t.
Proof. unfold live, elapsed. rewrite N.ltb_lt. unfold WRITE_REQUEST_WINDOW. lia. Qed.

Lemma allow_ok before t now client l :
  before ≤ t ≤ now → limiter_ok before l → limiter_ok now (allow t now client l).1.
Proof.
  intros Ht Hok. rewrite allow_effective by lia. cbv zeta. set (w := effective now client l).
  assert (Hkept : limiter_ok now (filter (λ kw, live t kw.2 = true) l)).
  { intros k x [Hx _]%map_lookup_filter_Some. destruct (Hok _ _ Hx). lia. }
  assert (Hw : request_count w ≤ WRITE_REQUEST_LIMIT ∧ window_start w ≤ now).
  { destruct (effective_cases now client l) as [(x & Hx & _ & E)|[_ E]]; subst w; rewrite E; [destruct (Hok _ _ Hx)|cbn]; lia. }
  destruct (N.leb_spec WRITE_REQUEST_LIMIT (request_count w)); cbn [fst];
    (apply map_Forall_insert_2; [cbn; unfold WRITE_REQUEST_LIMIT in *; lia|done]).
Qed.

(** A window that is dropped, or that is none yet, leaves no less to get. *)
Lemma budget_drop a before t o :
  before ≤ t → (∀ w, o = Some w → 1 ≤ request_count w ≤ WRITE_REQUEST_LIMIT) →
  budget a t (w ← o; if live t w then Some w else None) ≤ budget a before o.
Proof.
  intros Ht Hn. destruct o as [w|]; cbn.
  - destruct (live t w) eqn:Hl; [done|]. specialize (Hn _ eq_refl).
    pose proof (dropped_old t w ltac:(by rewrite Hl)). cbn. cases_compare.
  - cases_compare.
Qed.
Lemma budget_later a t now o : t ≤ now → budget a now o ≤ budget a t o.
Proof. intros Ht. destruct o as [w|]; [done|]. cbn. cases_compare. Qed.

Lemma budget_bound a now o : (∀ w, o = Some w → 1 ≤ request_count w) → budget a now o ≤ 2 * WRITE_REQUEST_LIMIT - 1.
Proof. intros Hw. destruct o as [w|]; [specialize (Hw _ eq_refl)|]; cbn; cases_compare. Qed.

Lemma allow_others t now client l k :
  t ≤ now → k ≠ client → (allow t now client l).1 !! k = (w ← l !! k; if live t w then Some w else None).
Proof.
  intros Ht Hk. rewrite allow_effective by done. cbv zeta.
  assert (E : ∀ w, <[client := w]> (filter (λ kw, live t kw.2 = true) l) !! k = (w ← l !! k; if live t w then Some w else None)).
  { intros w. rewrite lookup_insert_ne by done. rewrite map_lookup_filter. destruct (l !! k) as [x|]; [|done]. cbn.
    destruct (live t x) eqn:Hx; [by rewrite option_guard_True|by rewrite option_guard_False by (cbn; congruence)]. }
  destruct (WRITE_REQUEST_LIMIT <=? _); cbn [fst]; apply E.
Qed.

(** The budget pays for what goes through. *)
Lemma budget_step a before t now client client' l :
  before ≤ t ≤ now → limiter_ok before l →
  let '(l', b) := allow t now client' l in
  (if granted client a (mkCall t now client', b) then 1 else 0) + budget a now (l' !! client) ≤ budget a before (l !! client).
Proof.
  intros Ht Hok. destruct (decide (client' = client)) as [->|Hne].
  - rewrite allow_effective by lia. cbv zeta. unfold granted. cbn [fst snd caller second_read].
    destruct (effective_cases now client l) as [(w & Hw & Hl & ->)|[Hold ->]].
    + destruct (Hok _ _ Hw) as [Hn Hs]. rewrite Hw. unfold live, elapsed in Hl. apply N.ltb_lt in Hl.
      destruct (N.leb_spec WRITE_REQUEST_LIMIT (request_count w)); rewrite lookup_insert_eq; cbn [andb]; [cbn; cases_compare|].
      rewrite bool_decide_eq_true_2 by done. unfold counted. cbn [andb budget window_start request_count]. cases_compare.
    + change (WRITE_REQUEST_LIMIT <=? request_count (mkRpcRateWindow now 0)) with false. cbv iota. rewrite lookup_insert_eq.
      rewrite bool_decide_eq_true_2 by done. unfold counted. cbn [andb budget window_start request_count].
      destruct (l !! client) as [w|] eqn:Hw; cbn [budget].
      * destruct (Hok _ _ Hw). specialize (Hold _ eq_refl). cases_compare.
      * cases_compare.
  - destruct (allow t now client' l) as [l' b] eqn:E. pose proof (allow_others t now client' l client ltac:(lia) ltac:(done)) as HL. rewrite E in HL. cbn [fst] in HL.
    assert (HF : granted client a (mkCall t now client', b) = false).
    { unfold granted. cbn [fst snd caller]. rewrite bool_decide_eq_false_2 by done. by rewrite andb_false_r. }
    rewrite HF, HL, N.add_0_l. etrans; [apply (budget_later a t); lia|]. apply budget_drop; [lia|]. intros w Hw. by destruct (Hok _ _ Hw).
Qed.

Lemma granted_within a client calls : ∀ before l,
  limiter_ok before l → clocked before calls → granted_count client a (answers l calls) ≤ budget a before (l !! client).
Proof.
  induction calls as [|c calls IH]; intros before l Hok Hc; cbn [answers]; [apply N.le_0_l|]. destruct Hc as [Ht Hc].
  pose proof (allow_ok before (first_read c) (second_read c) (caller c) l Ht Hok) as Hok'.
  pose proof (budget_step a before (first_read c) (second_read c) client (caller c) l Ht Hok) as HB.
  destruct (allow _ _ _ l) as [l' b]. cbn [fst] in Hok'. unfold granted_count in *. cbn [foldr]. specialize (IH _ _ Hok' Hc).
  destruct c as [t now k]. cbn [first_read second_read caller] in *. lia.
Qed.
(** *** Refusals *)

(** Requests of [client] that went through at [start] or later. *)
Definition passed (client : option IP) (start : N) (h : list (Call * bool)) : N :=
  foldr (λ cb n, (if cb.2 && bool_decide (caller cb.1 = client) && (start <=? second_read cb.1) then 1 else 0) + n) 0 h.
(** A window counts no more than went through since it started. *)
Definition remembers (h : list (Call * bool)) (l : RpcRateLimiter) : Prop :=
  map_Forall (λ k w, request_count w ≤ passed k (window_start w) h) l.

Lemma passed_snoc client start h cb :
  passed client start (h ++ [cb]) = passed client start h + (if cb.2 && bool_decide (caller cb.1 = client) && (start <=? second_read cb.1) then 1 else 0).
Proof. induction h as [|x h IH]; cbn; [lia|]. unfold passed in IH. rewrite IH. lia. Qed.
Lemma passed_earlier client start start' h : start ≤ start' → passed client start' h ≤ passed client start h.
Proof.
  intros Hs. induction h as [|cb h IH]; [done|]. cbn. unfold passed in IH. destruct (cb.2 && _); cbn [andb]; [|lia].
  destruct (N.leb_spec start' (second_read cb.1)), (N.leb_spec start (second_read cb.1)); lia.
Qed.

Lemma allow_remembers before t now client l h :
  before ≤ t ≤ now → limiter_ok before l → remembers h l →
  let '(l', b) := allow t now client l in remembers (h ++ [(mkCall t now client, b)]) l'.
Proof.
  intros Ht Hok Hh. rewrite allow_effective by lia. cbv zeta.
  assert (Hkept : ∀ cb, remembers (h ++ [cb]) (filter (λ kw, live t kw.2 = true) l)).
  { intros cb k w [Hw _]%map_lookup_filter_Some. rewrite passed_snoc. specialize (Hh _ _ Hw). cbn in Hh. lia. }
  assert (Hw : request_count (effective now client l) ≤ passed client (window_start (effective now client l)) h ∧ window_start (effective now client l) ≤ now).
  { destruct (effective_cases now client l) as [(w & Hw & _ & ->)|[_ ->]]; [|cbn; lia]. pose proof (Hh _ _ Hw) as Hr. destruct (Hok _ _ Hw). cbn in Hr. split; [exact Hr|lia]. }
  destruct (N.leb_spec WRITE_REQUEST_LIMIT (request_count (effective now client l))); cbv beta iota; unfold remembers; (apply map_Forall_insert_2; [cbv beta|apply Hkept]); rewrite passed_snoc; cbn; [lia|].
  rewrite bool_decide_eq_true_2 by done. cbn. destruct (N.leb_spec (window_start (effective now client l)) now); lia.
Qed.

Lemma refused_allow before t now client l h :
  before ≤ t ≤ now → limiter_ok before l → remembers h l → (allow t now client l).2 = false →
  WRITE_REQUEST_LIMIT ≤ passed client (now + 1 - WRITE_REQUEST_WINDOW) h.
Proof.
  intros Ht Hok Hh. rewrite allow_effective by lia. cbv zeta. destruct (N.leb_spec WRITE_REQUEST_LIMIT (request_count (effective now client l))) as [Hl|]; [|done].
  intros _. destruct (effective_cases now client l) as [(w & Hw & Hlive & E)|[_ E]]; rewrite E in Hl; [|cbn in Hl; done].
  specialize (Hh _ _ Hw). cbn in Hh. etrans; [exact Hl|]. etrans; [exact Hh|]. apply passed_earlier.
  unfold live, elapsed in Hlive. apply N.ltb_lt in Hlive. destruct (Hok _ _ Hw). lia.
Qed.

Lemma refused_after calls : ∀ before l h pre c post,
  limiter_ok before l → remembers h l → clocked before calls → answers l calls = pre ++ (c, false) :: post →
  WRITE_REQUEST_LIMIT ≤ passed (caller c) (second_read c + 1 - WRITE_REQUEST_WINDOW) (h ++ pre).
Proof.
  induction calls as [|c0 calls IH]; intros before l h pre c post Hok Hh Hc E; cbn [answers] in E; [by destruct pre|]. destruct Hc as [Ht Hc].
  pose proof (allow_ok before (first_read c0) (second_read c0) (caller c0) l Ht Hok) as Hok'.
  pose proof (allow_remembers before (first_read c0) (second_read c0) (caller c0) l h Ht Hok Hh) as Hh'.
  pose proof (refused_allow before (first_read c0) (second_read c0) (caller c0) l h Ht Hok Hh) as HR.
  destruct (allow _ _ _ l) as [l' b]. cbn [fst snd] in *. destruct c0 as [t now k]. cbn [first_read second_read caller] in *.
  destruct pre as [|cb pre]; injection E as [= E1 E2].
  - subst. rewrite app_nil_r. by apply HR.
  - subst cb. specialize (IH _ _ _ _ _ _ Hok' Hh' Hc E2). by rewrite <- app_assoc in IH.
Qed.
End limiter.

(** ** Properties *)

(** C39: However its requests fall, a client gets no more than fifty-nine through in
    any second: the last of one window, which its first request started before
    that second, and the first thirty of the next; fifty-nine do get through. And
    a request is refused only if thirty of the same client went through in the
    second before it: requests of other clients, and refused ones, do not
    count. *)
Theorem limiter_spec {IP : Type} `{Countable IP} (calls : list (Call (IP := IP))) :
  clocked 0 calls →
  (∀ client a, granted_count client a (answers limiter_new calls) ≤ 2 * WRITE_REQUEST_LIMIT - 1) ∧
  (∀ pre c post, answers limiter_new calls = pre ++ (c, false) :: post →
     WRITE_REQUEST_LIMIT ≤ passed (caller c) (second_read c + 1 - WRITE_REQUEST_WINDOW) pre).
Proof.
  intros Hc. assert (Hok : limiter_ok 0 (limiter_new (IP := IP))) by apply map_Forall_empty.
  split.
  - intros client a. etrans; [by apply granted_within|]. apply budget_bound. intros w Hw. unfold limiter_new in Hw. by rewrite lookup_empty in Hw.
  - intros pre c post E. apply (refused_after calls 0 limiter_new [] pre c post); [done|apply map_Forall_empty|done|done].
Qed.

(** ** Witnesses *)

(** Thirty requests at the end of a window and thirty after it, then one more. *)
Definition toy_calls : list (Call (IP := N)) :=
  [mkCall 0 0 (Some 1)] ++ replicate 29 (mkCall 900000000 900000000 (Some 1)) ++ replicate 31 (mkCall 1000000000 1000000000 (Some 1)).
Lemma limiter_spec_witness :
  clocked 0 toy_calls ∧ granted_count (Some 1) 900000000 (answers limiter_new toy_calls) = 59 ∧
  granted_count (Some 1) 900000000 (answers limiter_new toy_calls) ≤ 59.
Proof.
  assert (HC : clocked 0 toy_calls) by (vm_compute; repeat split; discriminate).
  split; [exact HC|]. split; [vm_compute; reflexivity|]. apply (proj1 (limiter_spec toy_calls HC)).
Defined.
