(* ===== verification/Gateway.v ===== *)
(** * The interfaces of the node

    [apps/scytale-node/src/ipc.rs], every request of the local socket, and the
    handlers of [http_gateway.rs] that show blocks, transactions, the pool and
    passbooks, on one state of the process. Numbers in answers are numbers; texts
    the code formats are bytes. *)

From S2P Require Import Prelude Bytes Primitives Address Account Types Codec Transaction Utxo Merkle Genesis.
From S2P Require Import Words Target Work Tables Storage StorageSpec Store Stack Script Authorization Mempool MempoolInv.
From S2P Require Import MempoolSpec MempoolSelect MempoolTheorems StorageTyped Consensus Chain Vm VmAdapter Mining ChainReplay Node Recovery NodeQuery.
From S2P Require Import Passbook Bridge Wallet Transfer Contracts.
Local Open Scope N_scope.
Local Open Scope scy_scope.

(** ** Text *)

(** A number of at most twenty digits. *)
Fixpoint show_loop (fuel : nat) (n : N) (acc : list byte) : list byte :=
  match fuel with
  | O => acc
  | S fuel =>
      let acc := byte_of (48 + n mod 10) :: acc in
      if n <? 10 then acc else show_loop fuel (n / 10) acc
  end.
Definition show_decimal (n : N) : list byte := show_loop 20 n [].
Definition format_scy (quanta : N) : list byte :=
  show_decimal (quanta / QUANTA_PER_SCY) ++ [x2e] ++ decimal 8 (quanta mod QUANTA_PER_SCY).
(** [{:08x}] of a number of 32 bits. *)
Definition format_hex8 (n : N) : list byte := to_hex (be_bytes 4 n).
Definition prefixed (h : Hash) : list byte := x30 :: x78 :: hash_display h.
Definition outpoint_text (o : OutPoint) : list byte := hash_display (op_txid o) ++ [x3a] ++ show_decimal (op_index o).

(** [parse::<u64>]. *)
Fixpoint parse_u64_loop (acc : N) (s : list byte) : option N :=
  match s with
  | [] => Some acc
  | b :: s => if is_ascii_digit b then
                let acc := acc * 10 + (Byte.to_N b - 48) in
                if acc <? MOD64 then parse_u64_loop acc s else None
              else None
  end.
Definition parse_u64 (s : list byte) : option N :=
  match s with
  | [] => None
  | [x2b] => None
  | x2b :: s => parse_u64_loop 0 s
  | s => parse_u64_loop 0 s
  end.
(** [String::from_utf8], or the bytes in hexadecimal. *)
Definition payload_text (payload : list byte) : list byte :=
  if is_utf8 payload then payload else x30 :: x78 :: to_hex payload.

(** ** Answers *)

Record TxInResponse := mkTxInResponse { in_previous_output : list byte; in_proof_hex : list byte }.
Inductive ScriptType := OpReturnType | P2pkhType | CustomType.
Record TxOutResponse := mkTxOutResponse {
  out_index : N;
  out_value_quanta : N;
  out_value_scy : list byte;
  out_locking_script_hex : list byte;
  out_locking_script : list byte;
  out_script_type : ScriptType;
  out_address : option (list byte);
  out_op_return_payload : option (list byte)
}.
Inductive TxStatus := PendingStatus | ConfirmedStatus.
Record TransactionDetailResponse := mkTransactionDetailResponse {
  td_txid : list byte;
  td_version : N;
  td_is_coinbase : bool;
  td_inputs : list TxInResponse;
  td_outputs : list TxOutResponse;
  td_total_output_quanta : N;
  td_total_output_scy : list byte;
  td_status : TxStatus;
  td_block_height : option N;
  td_block_hash : option (list byte)
}.
Record BlockDetailResponse := mkBlockDetailResponse {
  bd_hash : list byte;
  bd_height : N;
  bd_version : N;
  bd_previous_block_hash : list byte;
  bd_transaction_commitment : list byte;
  bd_timestamp : N;
  bd_difficulty_target : list byte;
  bd_nonce : N;
  bd_tx_count : N;
  bd_transactions : list TransactionDetailResponse
}.
Record BlockSummaryResponse := mkBlockSummaryResponse {
  bs_hash : list byte;
  bs_height : N;
  bs_previous_block_hash : list byte;
  bs_timestamp : N;
  bs_difficulty_target : list byte;
  bs_nonce : N;
  bs_tx_count : N;
  bs_total_quanta : N;
  bs_total_scy : list byte
}.
Record MempoolTxSummary := mkMempoolTxSummary {
  ms_txid : list byte;
  ms_fee_quanta : N;
  ms_size_bytes : N;
  ms_fee_rate_milli : N;
  ms_added_time : N;
  ms_fee_rate : N;
  ms_timestamp : N
}.
Record MempoolResponse := mkMempoolResponse {
  mr_count : N;
  mr_max_count : N;
  mr_total_bytes : N;
  mr_max_bytes : N;
  mr_total_fees_quanta : N;
  mr_min_relay_fee_milli : N;
  mr_transactions : list MempoolTxSummary
}.
Record StatusAnswer := mkStatusAnswer {
  sa_runtime_state : NodeState;
  sa_canonical_height : N;
  sa_canonical_tip : list byte;
  sa_utxo_root : list byte;
  sa_peer_count : N;
  sa_mempool_tx_count : N;
  sa_mining_active : bool
}.

(** The status code of a failure. *)
Definition http_status (e : GatewayError) : N :=
  match e with
  | GatewayQuery _ | GatewayStorage _ | GatewayPassbook _ | TipBlockMissing => 500
  | NoTip | BlockAtHeightNotFound _ | BlockNotFound | TransactionMissing | ProvenanceFailed _ => 404
  | _ => 400
  end.

(** ** Transactions and blocks *)

Section handlers.
Context {B3 : Blake3} {ED : Ed25519} {BC : Bincode} {WM : Wasmi} {PC : Payload TxContext} {R : Redb} {BE : Bech32}.
Context {PS : Payload Scy20DatumPayload} {PV : Payload VaultDatumPayload}.
#[local] Existing Instance StorageEngine.

Definition tx_in_response (i : TxIn) : TxInResponse :=
  mkTxInResponse (outpoint_text (previous_output i)) (to_hex (authorization i)).
Definition tx_out_response (idx : nat) (out : TxOut) : TxOutResponse :=
  let '(script_type, address, payload) :=
    match analyze_locking_script (locking_condition out) with
    | OpReturnPayload payload => (OpReturnType, None, Some (payload_text payload))
    | P2pkhAddress address => (P2pkhType, Some address, None)
    | CustomScript => (CustomType, None, None)
    end in
  let hex := to_hex (locking_condition out) in
  mkTxOutResponse (wrap32 (N.of_nat idx)) (value out) (format_scy (value out)) hex hex script_type address payload.
Definition tx_to_detail {E} (tx : Transaction) (height : option N) (block_hash : option (list byte)) (status : TxStatus) :
    outcome E TransactionDetailResponse :=
  let? id := txid tx in
  let total := foldl (λ total out, saturating_add total (value out)) 0 (outputs tx) in
  Ok (mkTransactionDetailResponse (prefixed id) (tx_version tx) (is_coinbase tx) (tx_in_response <$> inputs tx)
        (imap tx_out_response (outputs tx)) total (format_scy total) status height block_hash).
Definition block_to_detail {E} (b : Block) (height : N) : outcome E BlockDetailResponse :=
  let? hash := header_hash (header b) in
  let? txs := omap_list (λ tx, tx_to_detail tx (Some height) (Some (prefixed hash)) ConfirmedStatus) (transactions b) in
  Ok (mkBlockDetailResponse (prefixed hash) height (version (header b)) (prefixed (previous_block_hash (header b)))
        (prefixed (transaction_commitment (header b))) (timestamp (header b)) (x30 :: x78 :: format_hex8 (difficulty_target (header b)))
        (nonce (header b)) (N.of_nat (length (transactions b))) txs).
Definition block_summary {E} (bh : Block * N) : outcome E BlockSummaryResponse :=
  let '(b, h) := bh in
  let total_quanta := wrapping_sum (value <$> concat (outputs <$> transactions b)) in
  let? hash := header_hash (header b) in
  Ok (mkBlockSummaryResponse (prefixed hash) h (prefixed (previous_block_hash (header b))) (timestamp (header b))
        (x30 :: x78 :: format_hex8 (difficulty_target (header b))) (nonce (header b)) (N.of_nat (length (transactions b)))
        total_quanta (format_scy total_quanta)).

(** ** Handlers that show the ledger *)

Definition gateway_tip (s : Shared) : outcome GatewayError (option (Hash * N)) := map_err GatewayStorage (reading get_canonical_tip (disk s)).

Definition get_block_tip (s : Shared) : outcome GatewayError BlockDetailResponse :=
  let? tip := gateway_tip s in
  let? (hash, height) := ok_or tip NoTip in
  let? found := map_err (λ e, GatewayQuery (NodeStorage e)) (stored_block hash (disk s)) in
  let? block := ok_or found TipBlockMissing in
  block_to_detail block height.

Definition get_blocks (limit offset from_height : option N) (order : option (list byte)) (s : Shared) : outcome GatewayError (list BlockSummaryResponse) :=
  let? limit := strict_limit limit 20 in
  let offset := default 0 offset in
  let is_asc := from_option (λ o, eq_ignore_ascii_case o [x61; x73; x63]) false order in
  let? newest := if is_asc then Ok 0 else let? tip := gateway_tip s in Ok (from_option snd 0 tip) in
  let anchor := default newest from_height in
  let start := if is_asc then saturating_add anchor offset else saturating_sub anchor offset in
  let? selected := map_err GatewayQuery (query_canonical_range start limit is_asc s) in
  omap_list block_summary selected.

(** A number is a height first. Under a hash the height shown is 0. *)
Definition get_block_by_identifier (identifier : list byte) (s : Shared) : outcome GatewayError BlockDetailResponse :=
  let by_hash :=
    let? hash := map_err InvalidBlockIdentifier (hash_from_str (strip_hex_prefix identifier)) in
    match stored_block hash (disk s) with
    | Ok (Some block) => block_to_detail block 0
    | Ok None | Err _ => Err BlockNotFound
    | Panic => Panic
    | Diverge => Diverge
    end in
  match parse_u64 identifier with
  | Some height =>
      let? found := map_err (λ e, GatewayQuery (NodeStorage e)) (reading (λ t, get_block_by_height t height) (disk s)) in
      match found with
      | Some block => block_to_detail block height
      | None => if forallb is_ascii_digit identifier && negb (length identifier =? 64)%nat then Err (BlockAtHeightNotFound height) else by_hash
      end
  | None => by_hash
  end.

Definition get_transaction_detail (txid_str : list byte) (s : Shared) : outcome GatewayError TransactionDetailResponse :=
  let? id := map_err InvalidTxidHexOf (hash_from_str (strip_hex_prefix txid_str)) in
  match list_find (λ e, e_txid e = id) (query_mempool s) with
  | Some (_, entry) => tx_to_detail (e_transaction entry) None None PendingStatus
  | None =>
      match lookup_transaction id s with
      | Ok (Some tx) =>
          let? block_height := map_err GatewayQuery (canonical_transaction_height id s) in
          let? block_hash :=
            match block_height with
            | Some height =>
                let? found := map_err GatewayQuery (query_canonical_range height 1 true s) in
                match head found with
                | Some (b, _) => let? hash := header_hash (header b) in Ok (Some (prefixed hash))
                | None => Ok None
                end
            | None => Ok None
            end in
          tx_to_detail tx block_height block_hash ConfirmedStatus
      | Ok None | Err _ => Err TransactionMissing
      | Panic => Panic
      | Diverge => Diverge
      end
  end.

Definition mempool_summary (e : MempoolEntry) : MempoolTxSummary :=
  mkMempoolTxSummary (prefixed (e_txid e)) (e_fee e) (e_size_bytes e) (e_fee_rate e) (e_added_time e) (e_fee_rate e) (e_added_time e).
(** [Mempool::total_fees]. *)
Definition mempool_total_fees (p : Mempool) : N := wrapping_sum (e_fee <$> (map_to_list (entries p)).*2).
Definition get_mempool (s : Shared) : MempoolResponse :=
  let entries := query_mempool s in
  mkMempoolResponse (N.of_nat (length entries)) 5000 (total_bytes (mempool s)) 5000000 (mempool_total_fees (mempool s)) 1000 (mempool_summary <$> entries).

(** ** Passbooks *)

Definition dto_entry_type_of (a : PassbookAction) : EntryTypeDto :=
  match a with
  | Received => DtoReceived
  | Sent => DtoSent
  | MiningReward => DtoMiningReward
  | Change => DtoChange
  | Scy20Mint | Scy20Transfer => DtoReceived
  | Scy20Burn | VaultWithdrawal => DtoSent
  | VaultDeposit _ => DtoSent
  | ContractInteraction _ => DtoReceived
  end.
Definition dto_status_of (s : EntryStatus) : EntryStatusDto :=
  match s with Confirmed confirmations => DtoConfirmed confirmations | Pending => DtoPending | Reorganized => DtoReorganized end.
Definition dto_entry_of (e : PassbookEntry) : PassbookEntryDto :=
  mkPassbookEntryDto (entry_number e) (entry_time e) (dto_entry_type_of (action e)) (amount_quanta e) (fee_quanta e) (dto_status_of (status e))
    (hash_display (entry_txid e)) (outpoint_text <$> entry_outpoint e) (entry_height e).
Definition map_passbook_view (lock_hex : list byte) (v : PassbookView) : PassbookViewDto :=
  let entries := dto_entry_of <$> view_entries v in
  mkPassbookViewDto lock_hex (view_native v) (view_pending v) (N.of_nat (length entries)) entries.
Definition dto_step_of (st : ProvenanceStep) : ProvenanceStepDto :=
  mkProvenanceStepDto (hash_display (prov_txid st)) (prov_height st)
    (match category st with ProvCoinbase => DtoCoinbase | ProvGenesis => DtoGenesis | ProvTransfer => DtoTransfer end) (prov_value st).
Definition map_provenance_trace (o : OutPoint) (steps : list ProvenanceStep) : ProvenanceTraceDto :=
  mkProvenanceTraceDto (outpoint_text o) (dto_step_of <$> steps).

(** The passbook of an address: its hash and its script. *)
Definition address_passbook (addr : Address) : Passbook :=
  add_owned_lock (build_p2pkh_locking_script (address_hash addr)) (from_address addr).

Definition get_passbook_api_view (state : NodeState) (address : list byte) (from_height to_height limit : option N) (s : Shared) :
    outcome GatewayError PassbookView :=
  let? addr := map_err InvalidBech32 (address_parse address) in
  let? v := map_err GatewayPassbook (view (address_passbook addr) state s) in
  let kept (p : N → bool) := filter (λ e, from_option p true (entry_height e) = true) in
  let entries := match from_height with Some from => kept (λ h, from <=? h) (view_entries v) | None => view_entries v end in
  let entries := match to_height with Some to => kept (λ h, h <=? to) entries | None => entries end in
  let? limit := strict_limit limit 50 in
  Ok (mkPassbookView (view_native v) (view_tokens v) (view_pending v) (take (N.to_nat limit) entries)).

Definition get_passbook_api_statement (state : NodeState) (address : list byte) (limit : option N) (s : Shared) : outcome GatewayError PassbookStatement :=
  let? addr := map_err InvalidBech32 (address_parse address) in
  let? st := map_err GatewayPassbook (generate_statement (address_passbook addr) state addr s) in
  let? limit := strict_limit limit 50 in
  Ok (mkPassbookStatement (account st) (generated_at_height st) (block_hash st) (st_utxo_root st) (confirmed_native_balance_quanta st)
        (token_balances_of st) (take (N.to_nat limit) (st_entries st)) (active_utxo_proofs st)).

Definition get_passbook (state : NodeState) (text : list byte) (s : Shared) : outcome GatewayError PassbookViewDto :=
  let? lock_bytes := lock_of_text text in
  let display_label := if starts_with SCY1 (to_ascii_lowercase text) then text else strip_hex_prefix text in
  let? v := map_err GatewayPassbook (view (Passbook_new [lock_bytes]) state s) in
  Ok (map_passbook_view display_label v).

(** [fuel] bounds the steps of the trace. *)
Definition get_provenance (fuel : nat) (state : NodeState) (txid_str : list byte) (index : N) (s : Shared) : outcome GatewayError ProvenanceTraceDto :=
  let? id := map_err InvalidTxidHexOf (hash_from_str (strip_hex_prefix txid_str)) in
  let outpoint := mkOutPoint id index in
  let? steps := map_err ProvenanceFailed (provenance fuel state outpoint s) in
  Ok (map_provenance_trace outpoint steps).

(** ** The process *)

(** The node in its process. [mining_worker] is whether a handle of the mining
    thread is kept. *)
Record NodeProcess := mkNodeProcess {
  ledger : Shared;
  runtime_state : NodeState;
  peer_count : N;
  mining_worker : bool;
  mining_cancel : bool;
  shutdown_sent : bool
}.
Definition with_ledger (s : Shared) (p : NodeProcess) : NodeProcess :=
  mkNodeProcess s (runtime_state p) (peer_count p) (mining_worker p) (mining_cancel p) (shutdown_sent p).
Definition with_mining (worker cancel : bool) (p : NodeProcess) : NodeProcess :=
  mkNodeProcess (ledger p) (runtime_state p) (peer_count p) worker cancel (shutdown_sent p).
Definition with_shutdown (p : NodeProcess) : NodeProcess :=
  mkNodeProcess (ledger p) (runtime_state p) (peer_count p) (mining_worker p) (mining_cancel p) true.

Definition get_status (p : NodeProcess) : outcome GatewayError StatusAnswer :=
  let s := ledger p in
  let? root := compute_utxo_root (query_utxo_set s) in
  Ok (mkStatusAnswer (runtime_state p) (canonical_height (chain_tree s)) (prefixed (canonical_tip (chain_tree s))) (prefixed root)
        (peer_count p) (pool_len (mempool s)) (mining_worker p)).

Definition start_mining (config : NodeConfig) (p : NodeProcess) : NodeProcess * outcome NodeError bool :=
  if mining_enabled config && (length (miner_payout_script config) =? 0)%nat then (p, Err MissingMiningPayout)
  else if mining_worker p then (p, Ok false)
  else (with_mining true false p, Ok true).
(** [joined] is whether the thread ended without a panic. *)
Definition stop_mining (joined : bool) (p : NodeProcess) : NodeProcess * outcome NodeError bool :=
  if mining_worker p then (with_mining false true p, if joined then Ok true else Err MiningNotRunning)
  else (with_mining false true p, Ok false).

(** [process_request]: [joined] and [fuel] as above. No answer stands for a
    panic, or for a trace that does not end. *)
Definition answered {E} (error : E → IpcMessage) (o : outcome E NodeResponse) : option NodeResponse :=
  match o with Ok r => Some r | Err e => Some (NodeErrorResponse (error e)) | Panic | Diverge => None end.
Definition on_ledger {A} (m : Shared → Shared * A) (p : NodeProcess) : NodeProcess * A :=
  let '(s, a) := m (ledger p) in (with_ledger s p, a).
Definition ledger_answer {A} (m : nodeM A) (respond : A → NodeResponse) (p : NodeProcess) : NodeProcess * option NodeResponse :=
  on_ledger (λ s, let '(s, r) := m s in (s, answered OfNode (let? a := r in Ok (respond a)))) p.

Definition process_request (config : NodeConfig) (now : N) (joined : bool) (fuel : nat) (req : NodeRequest) (p : NodeProcess) :
    NodeProcess * option NodeResponse :=
  match req with
  | GetStatus =>
      (p, Some (StatusResponse (runtime_state p) (canonical_height (chain_tree (ledger p))) (hash_display (canonical_tip (chain_tree (ledger p))))
                  (pool_len (mempool (ledger p))) (mining_worker p)))
  | GetPassbook lock_hex =>
      (p, match from_hex lock_hex with
          | Ok lock_bytes =>
              answered OfPassbook (let? v := view (Passbook_new [lock_bytes]) (runtime_state p) (ledger p) in Ok (PassbookResponse (map_passbook_view lock_hex v)))
          | Err e => Some (NodeErrorResponse (InvalidLockHex e))
          | Panic | Diverge => None
          end)
  | SendTransaction recipient_hex amount fee sender_hex =>
      match from_hex recipient_hex with
      | Ok recipient =>
          match (match sender_hex with Some t => let? b := from_hex t in Ok (Some b) | None => Ok None end) with
          | Ok sender =>
              ledger_answer (create_and_submit_transaction (miner_payout_script config) now recipient amount fee sender)
                (λ id, TransactionSubmitted (hash_display id)) p
          | Err e => (p, Some (NodeErrorResponse (InvalidSenderHex e)))
          | Panic | Diverge => (p, None)
          end
      | Err e => (p, Some (NodeErrorResponse (InvalidRecipientHex e)))
      | Panic | Diverge => (p, None)
      end
  | SetMining enabled =>
      let '(p, res) := if (enabled : bool) then start_mining config p else stop_mining joined p in
      (p, answered OfNode (let? _ := res in Ok (MiningToggled (mining_worker p))))
  | TraceProvenance txid_hex index _ =>
      (p, match hash_from_str txid_hex with
          | Ok id =>
              let outpoint := mkOutPoint id index in
              answered OfPassbook (let? steps := provenance fuel (runtime_state p) outpoint (ledger p) in
                                   Ok (ProvenanceResponse (map_provenance_trace outpoint steps)))
          | Err e => Some (NodeErrorResponse (InvalidTxidText e))
          | Panic | Diverge => None
          end)
  | StopNode => (with_shutdown p, Some ShutdownSent)
  | GetUtxosByLock lock => (p, Some (utxos_by_lock lock (ledger p)))
  | SubmitRawTransaction tx => on_ledger (submit_raw_transaction now tx) p
  | ExportSnapshotChunk block_hash_hex chunk_index chunk_size =>
      (p, answered OfNode (let? (hash_hex, index, total, entries) := export_snapshot_chunk block_hash_hex chunk_index chunk_size (ledger p) in
                           Ok (SnapshotChunk hash_hex index total entries)))
  | ApplySnapshot block_hash_hex entries =>
      ledger_answer (apply_snapshot block_hash_hex entries) (λ n, SnapshotApplied block_hash_hex n) p
  end.
End handlers.

(** ** A command and the whole process *)

Section lifting.
Context {B3 : Blake3} {BC : Bincode} {R : Redb}.
#[local] Existing Instance StorageEngine.

(** A computation on the process that runs on its ledger alone. *)
Definition lifts {A E} (m1 : stM NodeProcess E A) (m2 : stM Shared E A) : Prop :=
  ∀ p, m1 p = let '(s, r) := m2 (ledger p) in (with_ledger s p, r).
Lemma lifts_slift {A E} (o : outcome E A) : lifts (slift o) (slift o).
Proof. intros []. done. Qed.
Lemma lifts_bind {A B E} m1 m2 (k1 : A → stM _ E B) k2 :
  lifts m1 m2 → (∀ a, lifts (k1 a) (k2 a)) → lifts (sbind m1 k1) (sbind m2 k2).
Proof.
  intros Hm Hk p. unfold sbind. rewrite (Hm p). destruct (m2 (ledger p)) as [s [a|e| |]]; [|done..]. rewrite (Hk a). cbn [ledger with_ledger].
  by destruct (k2 a s).
Qed.
End lifting.

Section socket.
Context {B3 : Blake3} {ED : Ed25519} {EV : Ed25519Verify} {ES : Ed25519Sign} {BE : Bech32} {KC : KeyCipher} {BC : Bincode}.
Context {WM : Wasmi} {PC : Payload TxContext} {R : Redb} {PS : Payload Scy20DatumPayload} {PV : Payload VaultDatumPayload}.
Context {JQ : Json NodeRequest} {JA : Json NodeResponse} {LQ : JsonLaws NodeRequest} {LA : JsonLaws NodeResponse}.
#[local] Existing Instance StorageEngine.
Variables (config : NodeConfig) (now : N) (joined : bool) (fuel : nat).
Variable other : NodeRequest → Shared → Shared * option NodeResponse.

(** What a command makes of the failures of a connection. *)
Definition client_error (e : SendError) : ClientError :=
  match e with DaemonAbsent => DaemonNotRunning | Abandoned => Disconnected | SendBridge _ => BridgeFailure end.
(** Requests over the socket to the process. *)
Definition socket (req : NodeRequest) : stM NodeProcess ClientError NodeResponse := λ p,
  let '(p, r) := send_node_request (process_request config now joined fuel) true req p in (p, map_err client_error r).

Hypothesis Hq : ∀ req : NodeRequest, is_Some (json_to req).
Hypothesis Ha : ∀ resp : NodeResponse, is_Some (json_to resp).

Lemma socket_ledger req :
  (∃ lock, req = GetUtxosByLock lock) ∨ (∃ tx, req = SubmitRawTransaction tx) → lifts (socket req) (local_node other now req).
Proof using Hq Ha LQ LA.
  intros Hreq p. unfold socket. rewrite send_is_process by apply Hq. unfold local_node.
  destruct Hreq as [[lock ->]|[tx ->]]; cbn [process_request node_side].
  - rewrite decide_True by apply Ha. by destruct p.
  - unfold on_ledger. destruct (submit_raw_transaction now tx (ledger p)) as [s [resp|]]; cbn [ok_or map_err]; [|done]. by rewrite decide_True by apply Ha.
Qed.

(** When every message has an encoding, a transfer through the socket to the
    process is the transfer that [transfer_spec] describes, on its ledger: the
    connection, its framing and the rest of the process make no difference. *)
Theorem socket_transfer resolve1 resolve2 status pin wallet to amount fee :
  (∀ text, lifts (resolve1 text) (resolve2 text)) →
  lifts (transfer_p2pkh socket resolve1 status pin wallet to amount fee) (transfer_p2pkh (local_node other now) resolve2 status pin wallet to amount fee).
Proof using Hq Ha LQ LA.
  intros Hr. unfold transfer_p2pkh. repeat first
    [ apply lifts_slift
    | apply socket_ledger; [by left; eexists|by right; eexists]
    | apply socket_ledger; by (left; eexists)
    | apply socket_ledger; by (right; eexists)
    | apply lifts_bind; [|intros ?]
    | case_match
    | apply Hr
    | unfold ask_utxos, submit_raw ].
Qed.
End socket.

(** ** What the gateway shows *)

Section shown.
Context {B3 : Blake3} {ED : Ed25519} {BC : Bincode} {WM : Wasmi} {PC : Payload TxContext} {R : Redb} {BE : Bech32}.
Context {PS : Payload Scy20DatumPayload} {PV : Payload VaultDatumPayload}.
#[local] Existing Instance StorageEngine.

(** [fetch_tx_output_value] of [contract.rs] against this gateway. *)
Definition fetch_tx_output_value (txid_hex : list byte) (output_index : N) (s : Shared) : Shared * option N :=
  (s, match get_transaction_detail (clean_hex txid_hex) s with
      | Ok detail => '(_, out) ← list_find (λ out, out_index out = output_index) (td_outputs detail); Some (out_value_quanta out)
      | _ => None
      end).

Lemma tx_out_index idx out : out_index (tx_out_response idx out) = wrap32 (N.of_nat idx) ∧ out_value_quanta (tx_out_response idx out) = value out.
Proof. unfold tx_out_response. by destruct (analyze_locking_script (locking_condition out)). Qed.

(** The outputs of an answer carry their positions. *)
Lemma find_output outs k :
  N.of_nat (length outs) ≤ MOD32 → k < MOD32 →
  ('(_, out) ← list_find (λ out, out_index out = k) (imap tx_out_response outs); Some (out_value_quanta out)) = value <$> outs !! N.to_nat k.
Proof.
  intros Hl Hk. destruct (outs !! N.to_nat k) as [o|] eqn:Ho; cbn [fmap option_fmap option_map].
  - assert (HF : list_find (λ out, out_index out = k) (imap tx_out_response outs) = Some (N.to_nat k, tx_out_response (N.to_nat k) o)).
    { apply list_find_Some. split; [by rewrite list_lookup_imap, Ho|]. split.
      - rewrite (proj1 (tx_out_index _ _)), N2Nat.id. unfold wrap32. by apply N.mod_small.
      - intros j y Hj Hlt. rewrite list_lookup_imap in Hj. destruct (outs !! j) as [o'|] eqn:Ho'; [|done]. injection Hj as <-.
        rewrite (proj1 (tx_out_index _ _)). unfold wrap32. apply lookup_lt_Some in Ho'. rewrite N.mod_small by lia. lia. }
    rewrite HF. cbn. by rewrite (proj2 (tx_out_index _ _)).
  - assert (HF : list_find (λ out, out_index out = k) (imap tx_out_response outs) = None).
    { apply list_find_None, Forall_lookup. intros j y Hj. rewrite list_lookup_imap in Hj. destruct (outs !! j) as [o'|] eqn:Ho'; [|done]. injection Hj as <-.
      rewrite (proj1 (tx_out_index _ _)). unfold wrap32. pose proof (lookup_lt_Some _ _ _ Ho'). rewrite N.mod_small by lia.
      apply lookup_ge_None_1 in Ho. lia. }
    by rewrite HF.
Qed.

(** The pool is searched before the store. *)
Lemma detail_pending text id e (s : Shared) :
  indexed (mempool s) → hash_from_str (strip_hex_prefix text) = Ok id → entries (mempool s) !! id = Some e →
  get_transaction_detail text s = tx_to_detail (e_transaction e) None None PendingStatus.
Proof.
  intros HI Hid He. unfold get_transaction_detail, query_mempool. rewrite Hid. cbn [map_err obind].
  destruct (ix_entry _ HI _ _ He) as [Eid _].
  destruct (list_find (λ x, e_txid x = id) (get_entries_sorted_by_fee_rate (mempool s))) as [[k x]|] eqn:HF.
  - apply list_find_Some in HF as (Hx & Hxid & _). apply list_elem_of_lookup_2, (elem_of_sorted _ _ HI) in Hx. rewrite Hxid, He in Hx. by injection Hx as <-.
  - apply list_find_None in HF. rewrite Forall_forall in HF. exfalso. apply (HF e); [|done]. apply (elem_of_sorted _ _ HI). by rewrite Eid.
Qed.

(** The gateway shows the transaction [tx] under the identifier [id]. *)
Definition shows (s : Shared) (id : Hash) (tx : Transaction) : Prop :=
  ∃ h bh st d, get_transaction_detail (hash_display id) s = Ok d ∧ tx_to_detail (E := GatewayError) tx h bh st = Ok d.

Lemma clean_display h : clean_hex (hash_display h) = hash_display h.
Proof. unfold clean_hex, hash_display. rewrite trim_all_graphic; [apply strip_to_hex|rewrite length_to_hex, hash_length; lia|apply hex_graphic]. Qed.

(** Under an identifier as the node prints it, a command reads the value of the
    output in the transaction the gateway shows. *)
Lemma fetch_shown (s : Shared) id tx k :
  shows s id tx → N.of_nat (length (outputs tx)) ≤ MOD32 → k < MOD32 →
  fetch_tx_output_value (hash_display id) k s = (s, value <$> outputs tx !! N.to_nat k).
Proof.
  intros (h & bh & st & d & Hd & Ht) Hl Hk. unfold fetch_tx_output_value. rewrite clean_display, Hd. f_equal.
  unfold tx_to_detail in Ht. apply obind_Ok in Ht as (i & _ & [= <-]). cbn [td_outputs]. by apply find_output.
Qed.

(** A pending transaction is shown, whatever is stored under its identifier. *)
Lemma shows_pending (s : Shared) id e d :
  indexed (mempool s) → entries (mempool s) !! id = Some e → tx_to_detail (E := GatewayError) (e_transaction e) None None PendingStatus = Ok d →
  shows s id (e_transaction e).
Proof.
  intros HI He Hd. exists None, None, PendingStatus, d. split; [|done].
  rewrite (detail_pending _ id e); [done..| |done]. unfold hash_display at 1. rewrite strip_to_hex. apply (hex_roundtrip [] id).
Qed.
(** A stored one is, when the pool has none under its identifier and the store
    answers. *)
Lemma shows_stored (s : Shared) id tx d :
  indexed (mempool s) → entries (mempool s) !! id = None → lookup_transaction id s = Ok (Some tx) →
  get_transaction_detail (hash_display id) s = Ok d → shows s id tx.
Proof.
  intros HI He Hl Hd. assert (Hid : hash_from_str (strip_hex_prefix (hash_display id)) = Ok id).
  { unfold hash_display at 1. rewrite strip_to_hex. apply (hex_roundtrip [] id). }
  pose proof Hd as H. unfold get_transaction_detail in H. rewrite Hid in H. cbn [map_err obind] in H.
  destruct (list_find _ (query_mempool s)) as [[k x]|] eqn:HF.
  { apply list_find_Some in HF as (Hx & Hxid & _). apply list_elem_of_lookup_2, (elem_of_sorted _ _ HI) in Hx. rewrite Hxid, He in Hx. done. }
  rewrite Hl in H.
  apply obind_Ok in H as (h & _ & H). apply obind_Ok in H as (bh & _ & H). by exists h, bh, ConfirmedStatus, d.
Qed.
End shown.

(** ** A call and the node *)

Lemma no_colon bs : x3a ∉ to_hex bs.
Proof.
  induction bs as [|b bs IH]; [apply not_elem_of_nil|]. change (to_hex (b :: bs)) with (hex_byte b ++ to_hex bs). rewrite elem_of_app. intros [H|H]; [|done].
  revert H. apply (bool_decide_eq_false_1 (x3a ∈ hex_byte b)). by destruct b.
Qed.
Lemma split_colon_at a b : x3a ∉ a → split_colon (a ++ x3a :: b) = Some (a, b).
Proof. induction a as [|c a IH]; [done|]. intros [Hc Ha]%not_elem_of_cons. cbn [app split_colon]. rewrite (IH Ha). by destruct c. Qed.

Section calls_on_node.
Context {B3 : Blake3} {ED : Ed25519} {EV : Ed25519Verify} {ES : Ed25519Sign} {BE : Bech32} {KC : KeyCipher} {BC : Bincode}.
Context {WM : Wasmi} {PC : Payload TxContext} {R : Redb} {HX : HexCrate} {HL : HexCrateLaws}.
#[local] Existing Instance StorageEngine.
Variables (txid : Hash) (index : N) (index_text : list byte) (t : Transaction) (u : UtxoEntry) (s : Shared).
Variables (code redeemer redeemer_bytes datum datum_bytes to : list byte) (signature sig : option (list byte)) (amount fee now : N).
Hypothesis Hindex : parse_u32 index_text = Some index ∧ index < MOD32.
Hypothesis Hu : utxo_set s !! mkOutPoint txid index = Some u.
Hypothesis Hnull : mkOutPoint txid index ≠ OutPoint_null.
Hypothesis Hvalue : value (output u) ≤ U64_MAX.
Hypothesis Hshows : shows s txid t ∧ outputs t !! N.to_nat index = Some (output u) ∧ N.of_nat (length (outputs t)) ≤ MOD32.
Hypothesis Hargs : hex_decode (clean_hex redeemer) = Some redeemer_bytes ∧ hex_decode (clean_hex datum) = Some datum_bytes ∧ call_signature signature = Ok sig.
Hypothesis Hwitness : witness_roundtrip (mkEutxoWitness sig (Some redeemer_bytes) (Some code)).
Hypothesis Hlock : script_lock (locking_condition (output u)) = Some (blake3 code, datum_bytes).

(** C37: A call with the module and the datum of an unspent output, by the identifier
    the gateway shows its transaction under: when the command reports it, the
    transaction spends that output into one of at most its value less the fee,
    and at that time the node accepts its contract input, with the gas the
    command measured, unless that is beyond the limit of a transaction. *)
Theorem call_on_node only_dry_run s' report :
  call_contract (gateway_post now) fetch_tx_output_value now (hash_display txid ++ x3a :: index_text) redeemer datum to (Readable code)
    amount fee signature only_dry_run false s = (s', Ok report) →
  ∃ tx fuel v, (report = DryRunCall tx fuel ∨ ∃ id, report = Called tx fuel id) ∧
    previous_output <$> inputs tx = [mkOutPoint txid index] ∧ (value <$> outputs tx) = [v] ∧
    (if 0 <? amount then v = amount else v = value (output u) - fee) ∧ v ≤ value (output u) ∧ (fee ≤ value (output u) → v + fee ≤ value (output u)) ∧
    (fuel ≤ MAX_TX_GAS → verify_transaction_eutxo tx now (utxo_set s) MAX_TX_GAS = Ok fuel) ∧
    (only_dry_run = true → s' = s).
Proof using HL Hindex Hu Hnull Hvalue Hshows Hargs Hwitness Hlock.
  intros (tx & fuel & Ho & Hr)%call_contract_Ok. destruct Hindex as [Hp Hk], Hshows as (Hsh & Hout & Hlen), Hargs as (Hrb & Hdb & Hsig).
  destruct Ho as [txid_part index_part bytes id i sg rb code' db to_bytes input v s1 E1 E2 E3 E4 E5 E6 E7 E8 E9 E10 Hv1 Hv2 Hv3 Htx Hdry Hs].
  rewrite split_colon_at in E1 by apply no_colon. injection E1 as <- <-. rewrite Hp in E2. injection E2 as <-.
  rewrite clean_display in *. unfold hash_display in E3. rewrite <- encodes, decodes in E3. injection E3 as <-.
  rewrite hash_of_list_bytes in E4. injection E4 as <-. injection E5 as <-. rewrite Hrb in E6. injection E6 as <-. rewrite Hdb in E7. injection E7 as <-.
  rewrite Hsig in E9. injection E9 as <-. rewrite (fetch_shown s txid t index Hsh Hlen Hk), Hout in E10. injection E10 as <- <-.
  specialize (Hdry eq_refl). exists tx, fuel, v. split; [destruct only_dry_run; [by left|by right]|]. subst tx. split; [done|]. split; [done|].
  split; [done|]. split; [done|]. split; [done|]. split; [|done]. intros Hg.
  apply (proj1 (dry_run_cases txid index sig redeemer_bytes code to_bytes v now (utxo_set s) u Hu Hnull ltac:(split; lia) Hwitness datum_bytes (blake3 code) fuel Hlock) eq_refl).
  by split.
Qed.
End calls_on_node.

(** ** Mining from the socket *)

(** The payout of the command line, in [main.rs]. *)
Definition payout_script {BE : Bech32} (v : list byte) : option (list byte) :=
  if starts_with SCY1 (to_ascii_lowercase v)
  then match address_parse v with Ok address => Some (build_p2pkh_locking_script (address_hash address)) | _ => None end
  else match from_hex v with Ok (b :: bytes) => Some (b :: bytes) | _ => None end.
(** The payout the node is configured with; the process exits without one when
    it is to mine or to serve miners. *)
Definition configured_payout {BE : Bech32} (mine stratum : bool) (miner_payout : option (list byte)) : option (list byte) :=
  match v ← miner_payout; payout_script v with
  | Some bytes => Some bytes
  | None => if mine || stratum then None else Some []
  end.

Section mining_control.
Context {B3 : Blake3} {ED : Ed25519} {BC : Bincode} {WM : Wasmi} {PC : Payload TxContext} {R : Redb} {BE : Bech32}.
Context {PS : Payload Scy20DatumPayload} {PV : Payload VaultDatumPayload}.
#[local] Existing Instance StorageEngine.

Lemma payout_nonempty v bytes : payout_script v = Some bytes → bytes ≠ [].
Proof.
  unfold payout_script. destruct (starts_with _ _).
  - destruct (address_parse v) as [a| | |]; [|done..]. intros [= <-]. by rewrite build_p2pkh.
  - destruct (from_hex v) as [[|b bytes']| | |]; [done| |done..]. by intros [= <-].
Qed.

(** A node told to mine has somewhere to pay, or does not start; a node that was
    not is left with the empty script, and mining can then be switched on over
    the socket: the worker runs, and what it mines can be spent by anyone. *)
Theorem mining_payout (stratum : bool) (miner_payout : option (list byte)) (target : N) (now : N) (joined : bool) (fuel : nat) (p : NodeProcess) :
  (∀ bytes, configured_payout true stratum miner_payout = Some bytes → bytes ≠ []) ∧
  (∀ payout, mining_worker p = false →
     let config := mkNodeConfig target false payout in
     process_request config now joined fuel (SetMining true) p = (with_mining true false p, Some (MiningToggled true))) ∧
  configured_payout false false None = Some [] ∧
  (∀ height digest, authorization_verify (AuthorizationVerifier := ConsensusScriptVerifier height) digest [] [x51] = Ok tt).
Proof.
  split; [|split; [|split; [done|]]].
  - intros bytes. unfold configured_payout. destruct miner_payout as [v|]; cbn [mbind option_bind]; [|done].
    destruct (payout_script v) eqn:E; [|done]. intros [= <-]. by eapply payout_nonempty.
  - intros payout Hp. cbv zeta. cbn [process_request]. unfold start_mining. cbn [mining_enabled andb]. by rewrite Hp.
  - intros height digest. rewrite consensus_verifier_script by (by intros [=]). by vm_compute.
Qed.

(** Under its hash a block is shown at height 0, whatever its height. *)
Theorem hash_shows_no_height (s : Shared) (h : Hash) (b : Block) :
  parse_u64 (hash_display h) = None → stored_block h (disk s) = Ok (Some b) →
  get_block_by_identifier (hash_display h) s = block_to_detail b 0 ∧
  (∀ d, get_block_by_identifier (hash_display h) s = Ok d → bd_height d = 0).
Proof.
  intros Hn Hb. assert (E : get_block_by_identifier (hash_display h) s = block_to_detail b 0).
  { unfold get_block_by_identifier. rewrite Hn. unfold hash_display at 1. rewrite strip_to_hex.
    change (to_hex (hash_bytes h)) with (hash_display h). rewrite (proj1 (proj2 (proj2 (hex_roundtrip [] h)))). cbn [map_err obind]. by rewrite Hb. }
  split; [exact E|]. intros d. rewrite E. unfold block_to_detail. intros (hh & _ & (txs & _ & [= <-])%obind_Ok)%obind_Ok. done.
Qed.
End mining_control.


(** ** Witnesses *)

Lemma ok_is_Ok {E A} (o : outcome E A) : is_ok o = true → ∃ a, o = Ok a.
Proof. destruct o; [by eexists|done..]. Qed.
Lemma pair_is_Ok {S E A} (x : S * outcome E A) : is_ok x.2 = true → ∃ s a, x = (s, Ok a).
Proof. destruct x as [s []]; [by eexists _, _|done..]. Qed.
Lemma found_is {E A} `{EqDecision A} (o : outcome E (option A)) (x : A) :
  match o with Ok (Some y) => bool_decide (y = x) | _ => false end = true → o = Ok (Some x).
Proof. destruct o as [[y|]|e| |]; [|done..]. by intros ->%bool_decide_eq_true. Qed.

Section witnesses.
#[local] Existing Instances toy_blake3 toy_bech32 wallet_ed25519 wallet_verify wallet_sign toy_cipher wire_bincode toy_redb toy_payload_context toy_hex toy_hex_laws.
#[local] Instance toy_machine' : Wasmi := toy_wasmi toy_contract.

(** A node whose first block pays to the contract of [toy_locked]. *)
Definition shop_cb : Transaction := new_coinbase 1 [output toy_locked].
Definition shop_block : Block := mkBlock (header toy_b1) [shop_cb].
Definition shop_tables : Tables := (commit_block_tables shop_block 1 (toy_work toy_b1) empty_tables).1.
Definition shop_id : Hash := toy_txid shop_cb.
Definition shop_set : UtxoSet := {[ mkOutPoint shop_id 0 := toy_locked ]}.
Definition shop : Shared (BS := StorageEngine (R := toy_redb)) :=
  mkShared (BS := StorageEngine (R := toy_redb)) toy_tree shop_set Mempool_new shop_tables.

Lemma shop_shows : shows shop shop_id shop_cb.
Proof.
  assert (HD : is_ok (get_transaction_detail (hash_display shop_id) shop) = true) by (vm_compute; reflexivity).
  assert (HL : match lookup_transaction shop_id shop with Ok (Some t) => bool_decide (t = shop_cb) | _ => false end = true) by (vm_compute; reflexivity).
  destruct (ok_is_Ok _ HD) as [d ED]. apply found_is in HL.
  assert (HI : indexed (mempool shop)).
  { change (mempool shop) with Mempool_new. by apply (empty_sound DEFAULT_MAX_MEMPOOL_COUNT DEFAULT_MAX_MEMPOOL_BYTES DEFAULT_MIN_RELAY_FEE_RATE). }
  assert (HN : entries (mempool shop) !! shop_id = None) by (change (mempool shop) with Mempool_new; apply lookup_empty).
  exact (shows_stored shop shop_id shop_cb d HI HN HL ED).
Qed.

(** A call of that contract by its identifier, run but not sent. *)
Definition shop_run : Shared (BS := StorageEngine (R := toy_redb)) * outcome ClientError CallReport :=
  call_contract (gateway_post 5) fetch_tx_output_value 5 (hash_display shop_id ++ x3a :: [x30]) (to_hex [x07]) (to_hex [x07]) (to_hex [x51])
    (Readable toy_module) 0 10 None true false shop.
Lemma shop_runs : is_ok shop_run.2 = true.
Proof. vm_compute. reflexivity. Qed.
Lemma call_on_node_witness :
  ∃ s report tx fuel v, shop_run = (s, Ok report) ∧ previous_output <$> inputs tx = [mkOutPoint shop_id 0] ∧ (value <$> outputs tx) = [v] ∧ v = 40 ∧
    (fuel ≤ MAX_TX_GAS → verify_transaction_eutxo tx 5 (utxo_set shop) MAX_TX_GAS = Ok fuel).
Proof.
  destruct (pair_is_Ok shop_run shop_runs) as (s' & report & E). exists s', report. pose proof E as E'. unfold shop_run in E'.
  assert (Hu : utxo_set shop !! mkOutPoint shop_id 0 = Some toy_locked) by (change (utxo_set shop) with shop_set; apply lookup_singleton_eq).
  assert (Hnull : mkOutPoint shop_id 0 ≠ OutPoint_null) by (intros HE; apply (f_equal op_index) in HE; discriminate HE).
  assert (Hv : value (output toy_locked) ≤ U64_MAX) by discriminate.
  assert (Hout : outputs shop_cb !! N.to_nat 0 = Some (output toy_locked)) by reflexivity.
  assert (Hlen : N.of_nat (length (outputs shop_cb)) ≤ MOD32) by discriminate.
  assert (Hb : hex_decode (clean_hex (to_hex [x07])) = Some [x07]) by (vm_compute; reflexivity).
  assert (Hw : witness_roundtrip (mkEutxoWitness None (Some [x07]) (Some toy_module))).
  { eexists. split; [reflexivity|]. vm_compute. reflexivity. }
  assert (Hl : script_lock (locking_condition (output toy_locked)) = Some (blake3 toy_module, [x07])) by (vm_compute; reflexivity).
  destruct (call_on_node shop_id 0 [x30] shop_cb toy_locked shop toy_module (to_hex [x07]) [x07] (to_hex [x07]) [x07] (to_hex [x51]) None None 0 10 5
    (conj eq_refl eq_refl) Hu Hnull Hv (conj shop_shows (conj Hout Hlen)) (conj Hb (conj Hb eq_refl)) Hw Hl true s' report E')
    as (tx & fuel & v & _ & H1 & H2 & H3 & _ & _ & H6 & _).
  exists tx, fuel, v. split; [exact E|]. split; [exact H1|]. split; [exact H2|]. split; [exact H3|exact H6].
Defined.
End witnesses.
