(* ===== verification/Indexer.v ===== *)
(** * The indexers

    [crates/scytale-indexer], [apps/scytale-node/src/indexer/mod.rs] and the
    parts of [node.rs] that feed them. The relational indexer keeps every output
    the chain made in an SQLite table, with a mark for the spent ones; the
    dispatcher sends a summary of every block to an explorer from a queue of
    bounded length. A table is a finite map from its primary key to its rows and a
    statement the operation on it that SQL defines; an argument tells whether the
    database itself fails. The setting of the foreign keys is the class
    [Sqlite]. *)

From S2P Require Import Prelude Bytes Primitives Address Types Codec Transaction Utxo Merkle Words Target Work.
From S2P Require Import Tables Storage Store Stack Script Authorization Mempool Consensus Chain Vm VmAdapter Mining Node.
Local Open Scope N_scope.
Local Open Scope scy_scope.

(** ** Payloads *)

Record IndexerInput := mkIndexerInput { prev_txid : list byte; prev_vout : N }.
Record IndexerOutput := mkIndexerOutput { ix_address : list byte; ix_vout : N; ix_value : N; ix_token_id : option (list byte) }.
Record IndexerTxPayload := mkIndexerTxPayload {
  ix_txid : list byte;
  ix_fee : N;
  ix_inputs : list IndexerInput;
  ix_outputs : list IndexerOutput
}.
Record AddressUtxoEntry := mkAddressUtxoEntry { au_txid : list byte; au_vout : N; au_value : N; au_token_id : option (list byte) }.

Section payload.
Context {B3 : Blake3} {BC : Bincode}.

Definition address_text (script : list byte) : list byte :=
  match extract_address_from_locking_condition script with
  | Some h => to_hex (hash_bytes h)
  | None => to_hex script
  end.
Definition indexer_input (i : TxIn) : IndexerInput :=
  mkIndexerInput (hash_display (op_txid (previous_output i))) (op_index (previous_output i)).
Definition indexer_output (vout : nat) (out : TxOut) : IndexerOutput :=
  mkIndexerOutput (address_text (locking_condition out)) (wrap32 (N.of_nat vout)) (value out) None.
Definition indexer_tx {E} (tx : Transaction) : outcome E IndexerTxPayload :=
  let? id := txid tx in
  Ok (mkIndexerTxPayload (hash_display id) 0 (if is_coinbase tx then [] else indexer_input <$> inputs tx) (imap indexer_output (outputs tx))).
Definition extract_block_indexer_payload {E} (b : Block) : outcome E (list IndexerTxPayload) := omap_list indexer_tx (transactions b).
End payload.

(** ** The tables *)

Record BlockRow := mkBlockRow {
  br_hash : list byte;
  br_parent : list byte;
  br_timestamp : N;
  br_tx_count : N;
  br_merkle_root : list byte;
  br_utxo_root : list byte
}.
Record TxRow := mkTxRow { tr_height : N; tr_hash : list byte; tr_fee : N; tr_input_count : N; tr_output_count : N }.
Record UtxoRow := mkUtxoRow { ur_address : list byte; ur_value : N; ur_token : option (list byte); ur_spent : bool }.
Record IndexerStore := mkIndexerStore {
  index_blocks : gmap N BlockRow;
  index_transactions : gmap (list byte) TxRow;
  index_address_utxos : gmap (list byte * N) UtxoRow
}.
(** The database after the migrations of [schema.rs]. *)
Definition empty_index : IndexerStore := mkIndexerStore ∅ ∅ ∅.

Inductive SqlError := ToSqlConversion | ConstraintViolation | IntegerOverflow | SqliteFailure.

(** Whether SQLite enforces foreign keys. *)
Class Sqlite := foreign_keys : bool.

(** Integers of SQLite are signed and have 64 bits. *)
Definition I64_LIMIT : N := 0x8000000000000000.
Definition to_sql (n : N) : outcome SqlError N := if n <? I64_LIMIT then Ok n else Err ToSqlConversion.

Section store.
Context {SQ : Sqlite}.
Definition indexM := stM IndexerStore SqlError.

(** [INSERT OR REPLACE INTO index_blocks]: the hash is unique, so the row of
    another height with this hash goes; no transaction may be left without its
    block. *)
Definition insert_block_row (height : N) (row : BlockRow) : indexM unit :=
  let! x := sget in
  let blocks := <[height := row]> (filter (λ hr, br_hash hr.2 ≠ br_hash row) (index_blocks x)) in
  if foreign_keys && existsb (λ t, negb (bool_decide (is_Some (blocks !! tr_height t.2)))) (map_to_list (index_transactions x))
  then slift (Err ConstraintViolation)
  else smodify (λ x, mkIndexerStore blocks (index_transactions x) (index_address_utxos x)).
(** [INSERT OR REPLACE INTO index_transactions]. *)
Definition insert_tx_row (txid : list byte) (row : TxRow) : indexM unit :=
  let! x := sget in
  if foreign_keys && negb (bool_decide (is_Some (index_blocks x !! tr_height row))) then slift (Err ConstraintViolation)
  else smodify (λ x, mkIndexerStore (index_blocks x) (<[txid := row]> (index_transactions x)) (index_address_utxos x)).
Definition set_spent (row : UtxoRow) : UtxoRow := mkUtxoRow (ur_address row) (ur_value row) (ur_token row) true.
(** [UPDATE index_address_utxos SET is_spent = 1]. *)
Definition mark_spent (i : IndexerInput) (x : IndexerStore) : IndexerStore :=
  mkIndexerStore (index_blocks x) (index_transactions x) (alter set_spent (prev_txid i, prev_vout i) (index_address_utxos x)).
(** [INSERT OR REPLACE INTO index_address_utxos]. *)
Definition insert_output_row (txid : list byte) (o : IndexerOutput) : indexM unit :=
  let! v := slift (to_sql (ix_value o)) in
  smodify (λ x, mkIndexerStore (index_blocks x) (index_transactions x)
    (<[(txid, ix_vout o) := mkUtxoRow (ix_address o) v (ix_token_id o) false]> (index_address_utxos x))).
Fixpoint insert_output_rows (txid : list byte) (outs : list IndexerOutput) : indexM unit :=
  match outs with
  | [] => sret tt
  | o :: outs => let! _ := insert_output_row txid o in insert_output_rows txid outs
  end.
Definition index_tx (height : N) (hash : list byte) (t : IndexerTxPayload) : indexM unit :=
  let! h := slift (to_sql height) in
  let! fee := slift (to_sql (ix_fee t)) in
  let! _ := insert_tx_row (ix_txid t) (mkTxRow h hash fee (N.of_nat (length (ix_inputs t))) (N.of_nat (length (ix_outputs t)))) in
  let! _ := smodify (λ x, foldl (λ x i, mark_spent i x) x (ix_inputs t)) in
  insert_output_rows (ix_txid t) (ix_outputs t).
Fixpoint index_txs (height : N) (hash : list byte) (txs : list IndexerTxPayload) : indexM unit :=
  match txs with
  | [] => sret tt
  | t :: txs => let! _ := index_tx height hash t in index_txs height hash txs
  end.

(** A transaction of the database: it leaves nothing behind when it fails, by
    itself or because the database does. *)
Definition index_block (broken : bool) (height : N) (hash parent_hash : list byte) (timestamp : N) (merkle_root utxo_root : list byte)
    (txs : list IndexerTxPayload) : indexM unit :=
  on_clone
    (let! h := slift (to_sql height) in
     let! time := slift (to_sql timestamp) in
     let! _ := insert_block_row h (mkBlockRow hash parent_hash time (N.of_nat (length txs)) merkle_root utxo_root) in
     let! _ := index_txs height hash txs in
     slift (if broken then Err SqliteFailure else Ok tt)).

(** [WHERE address = ?1 AND is_spent = 0]. *)
Definition unspent_rows (address : list byte) (x : IndexerStore) : list ((list byte * N) * UtxoRow) :=
  List.filter (λ kr, bool_decide (ur_address kr.2 = address) && negb (ur_spent kr.2)) (map_to_list (index_address_utxos x)).
Definition rows_value (rows : list ((list byte * N) * UtxoRow)) : N := foldr (λ kr acc, ur_value kr.2 + acc) 0 rows.
Definition get_address_balance (address : list byte) (x : IndexerStore) : outcome SqlError N :=
  let sum := rows_value (unspent_rows address x) in
  if sum <? I64_LIMIT then Ok sum else Err IntegerOverflow.
Fixpoint insert_vout (r : (list byte * N) * UtxoRow) (rows : list ((list byte * N) * UtxoRow)) : list ((list byte * N) * UtxoRow) :=
  match rows with
  | [] => [r]
  | r' :: rows => if r.1.2 <=? r'.1.2 then r :: r' :: rows else r' :: insert_vout r rows
  end.
(** Rows with the same output index come in the order of the model. *)
Definition get_address_utxos (address : list byte) (x : IndexerStore) : list AddressUtxoEntry :=
  (λ kr, mkAddressUtxoEntry kr.1.1 kr.1.2 (ur_value kr.2) (ur_token kr.2)) <$> foldr insert_vout [] (unspent_rows address x).
Definition get_latest_indexed_height (x : IndexerStore) : option N :=
  foldr (λ hr acc, Some (match acc with Some m => N.max hr.1 m | None => hr.1 end)) None (map_to_list (index_blocks x)).
Definition requires_catchup (target_height : N) (x : IndexerStore) : bool :=
  match get_latest_indexed_height x with
  | Some indexed_height => indexed_height <? target_height
  | None => 0 <? target_height
  end.
End store.

(** ** The dispatcher *)

Definition INDEXER_CHANNEL_CAPACITY : nat := 100.
Definition MAX_RETRIES : nat := 3.

Record BlockPayload := mkBlockPayload {
  bp_height : N;
  bp_hash : list byte;
  bp_prev_hash : list byte;
  bp_miner : list byte;
  bp_timestamp : N;
  bp_tx_count : N
}.
(** The text [coinbase]. *)
Definition COINBASE_TEXT : list byte := [x63; x6f; x69; x6e; x62; x61; x73; x65].

Section dispatcher.
Context {B3 : Blake3} {BE : Bech32}.

Definition miner_of_script (script : list byte) : option (list byte) :=
  let hex := if negb (bool_decide (script = [])) then Some (to_hex script) else None in
  if is_p2pkh script then
    match hash_slice (take 32 (drop 3 script)) with
    | Some hash => match to_bech32 (Address_new hash) with Ok s => Some s | _ => hex end
    | None => hex
    end
  else hex.
Definition extract_miner_address (b : Block) : list byte :=
  default COINBASE_TEXT
    (coinbase ← head (transactions b); out ← head (outputs coinbase); miner_of_script (locking_condition out)).
Definition payload_from_block {E} (b : Block) (height : N) : outcome E BlockPayload :=
  let? hash := header_hash (header b) in
  Ok (mkBlockPayload height (hash_display hash) (hash_display (previous_block_hash (header b))) (extract_miner_address b)
        (timestamp (header b)) (N.of_nat (length (transactions b)))).
End dispatcher.

(** The queue, and whether its receiver is still there. *)
Record Queue := mkQueue { queued : list BlockPayload; receiving : bool }.
Inductive TrySendError := QueueFull (p : BlockPayload) | Disconnected (p : BlockPayload).
Definition try_send (p : BlockPayload) (q : Queue) : Queue * outcome TrySendError unit :=
  if negb (receiving q) then (q, Err (Disconnected p))
  else if (length (queued q) <? INDEXER_CHANNEL_CAPACITY)%nat then (mkQueue (queued q ++ [p]) true, Ok tt)
  else (q, Err (QueueFull p)).

(** The attempts to send one payload; [post] tells which reach the explorer. *)
Fixpoint dispatch (attempts : nat) (retries : nat) (post : nat → bool) : nat * bool :=
  match attempts with
  | O => (retries, false)
  | S attempts => if post retries then (retries, true) else dispatch attempts (retries + 1) post
  end.
Definition send (post : nat → bool) : nat * bool := dispatch MAX_RETRIES 0 post.
(** [worker_loop] on what the queue gives it: what arrives. *)
Fixpoint worker_loop (received : list BlockPayload) (post : BlockPayload → nat → bool) : list BlockPayload :=
  match received with
  | [] => []
  | p :: received => (if (send (post p)).2 then [p] else []) ++ worker_loop received post
  end.

(** ** The node *)

Section node.
Context {B3 : Blake3} {ED : Ed25519} {BC : Bincode} {WM : Wasmi} {PC : Payload TxContext} {SQ : Sqlite} {BE : Bech32}.

(** The call of [index_block] for a block. *)
Definition index_of_block (broken : bool) (b : Block) (height : N) : indexM unit :=
  let! txs := slift (extract_block_indexer_payload b) in
  let! hash := slift (header_hash (header b)) in
  index_block broken height (hash_display hash) (hash_display (previous_block_hash (header b))) (timestamp (header b))
    (hash_display (transaction_commitment (header b))) (hash_display (utxo_root (header b))) txs.

(** The queue of the dispatcher and the store of the indexer, where there are
    any. *)
Record Indexing := mkIndexing { handle : option Queue; indexer_store : option IndexerStore }.
Definition notify {E} (b : Block) (height : N) (q : option Queue) : outcome E (option Queue) :=
  match q with
  | Some q => let? p := payload_from_block b height in Ok (Some (try_send p q).1)
  | None => Ok None
  end.
(** What follows the commit of a block to the store: an error of an indexer is
    logged. *)
Definition index_committed {E} (broken : bool) (b : Block) (height : N) (ix : Indexing) : outcome E Indexing :=
  let? q := notify b height (handle ix) in
  match indexer_store ix with
  | Some x =>
      match index_of_block broken b height x with
      | (x, Ok _) | (x, Err _) => Ok (mkIndexing q (Some x))
      | (_, Panic) => Panic
      | (_, Diverge) => Diverge
      end
  | None => Ok (mkIndexing q None)
  end.
End node.

Section node_steps.
Context {B3 : Blake3} {ED : Ed25519} {BC : Bincode} {WM : Wasmi} {PC : Payload TxContext} {SQ : Sqlite} {BE : Bech32}.
Context {BS : BlockStore}.

(** [commit_block] of [node.rs]. *)
Definition commit_indexed (broken : bool) (b : Block) (height : N) (work : CumulativeWork) (d : store) (ix : Indexing) :
    outcome StorageError (store * Indexing) :=
  let? d := commit_block b height work d in
  let? ix := index_committed broken b height ix in
  Ok (d, ix).
(** The blocks a reorganization connects, after it was written. *)
Definition notify_all {E} (connected : list (Block * N)) (q : option Queue) : outcome E (option Queue) :=
  ofold (λ q bh, notify bh.1 bh.2 q) connected q.
Fixpoint index_all (broken : N → bool) (connected : list (Block * N)) (x : IndexerStore) : outcome StorageError IndexerStore :=
  match connected with
  | [] => Ok x
  | (b, h) :: connected =>
      match index_of_block (broken h) b h x with
      | (x, Ok _) | (x, Err _) => index_all broken connected x
      | (_, Panic) => Panic
      | (_, Diverge) => Diverge
      end
  end.
Definition index_reorganization (broken : N → bool) (connected : list (Block * N)) (ix : Indexing) : outcome StorageError Indexing :=
  let? q := notify_all connected (handle ix) in
  match indexer_store ix with
  | Some x => let? x := index_all broken connected x in Ok (mkIndexing q (Some x))
  | None => Ok (mkIndexing q None)
  end.

(** [catchup_indexer], on what it reads: the tip, and the block at a height. *)
Definition start_height (x : IndexerStore) : N := match get_latest_indexed_height x with Some h => h + 1 | None => 0 end.
Definition heights (from to : N) : list N := (λ i, from + N.of_nat i) <$> seq 0 (N.to_nat (to + 1 - from)).
Fixpoint backfill (broken : N → bool) (block_at : N → outcome NodeError (option Block)) (hs : list N) : stM IndexerStore NodeError unit :=
  match hs with
  | [] => sret tt
  | h :: hs =>
      let! found := slift (block_at h) in
      let! _ := match found with
                | Some b => smap_err (λ _, InconsistentState Backfill) (index_of_block (broken h) b h)
                | None => sret tt
                end in
      backfill broken block_at hs
  end.
Definition catchup_indexer (broken : N → bool) (tip : outcome NodeError (option (Hash * N))) (block_at : N → outcome NodeError (option Block)) :
    stM IndexerStore NodeError unit :=
  let! tip := slift tip in
  let storage_height := from_option snd 0 tip in
  let! x := sget in
  if requires_catchup storage_height x then backfill broken block_at (heights (start_height x) storage_height) else sret tt.

(** The same in [Node::open]: a block that cannot be read is skipped, and one
    that cannot be indexed panics. *)
Fixpoint open_backfill (broken : N → bool) (block_at : N → outcome NodeError (option Block)) (hs : list N) : stM IndexerStore NodeError unit :=
  match hs with
  | [] => sret tt
  | h :: hs =>
      let! _ := match block_at h with
                | Ok (Some b) => λ x, let '(x, r) := index_of_block (broken h) b h x in
                                      (x, match r with Ok _ => Ok tt | Diverge => Diverge | _ => Panic end)
                | Ok None | Err _ => sret tt
                | Panic => slift Panic
                | Diverge => slift Diverge
                end in
      open_backfill broken block_at hs
  end.
Definition open_catchup (broken : N → bool) (tip : outcome NodeError (option (Hash * N))) (block_at : N → outcome NodeError (option Block)) :
    stM IndexerStore NodeError unit :=
  let! tip := slift (ok tip) in
  let storage_height := match tip with Some (Some (_, h)) => h | _ => 0 end in
  let! x := sget in
  if requires_catchup storage_height x then open_backfill broken block_at (heights (start_height x) storage_height) else sret tt.
End node_steps.

(** ** Keys *)

Definition row_key (o : OutPoint) : list byte * N := (hash_display (op_txid o), op_index o).
Lemma hash_display_inj h h' : hash_display h = hash_display h' → h = h'.
Proof.
  intros E. assert (H : Ok (E := PrimitiveError) h = Ok h') by
    (rewrite <- (proj1 (proj2 (proj2 (hex_roundtrip [] h)))), <- (proj1 (proj2 (proj2 (hex_roundtrip [] h')))); by rewrite E).
  by injection H.
Qed.
#[export] Instance row_key_inj : Inj (=) (=) row_key.
Proof. intros [i n] [i' n'] [= E ->]. cbn in E. by apply hash_display_inj in E as ->. Qed.

Lemma created_at id h cb outs o :
  N.of_nat (length outs) ≤ MOD32 →
  list_to_map (M := UtxoSet) (created id h cb 0 outs) !! o =
    (if bool_decide (op_txid o = id) then
       out ← outs !! N.to_nat (op_index o); if is_op_return (locking_condition out) then None else Some (mkUtxoEntry out h cb)
     else None).
Proof.
  assert (HG : ∀ n, n + N.of_nat (length outs) ≤ MOD32 →
    list_to_map (M := UtxoSet) (created id h cb n outs) !! o =
    (if bool_decide (op_txid o = id) && (n <=? op_index o) then
       out ← outs !! N.to_nat (op_index o - n); if is_op_return (locking_condition out) then None else Some (mkUtxoEntry out h cb)
     else None)).
  { destruct o as [i k]. cbn [op_txid op_index]. induction outs as [|out outs IH]; intros n Hn.
    { transitivity (@None UtxoEntry); [apply lookup_empty|]. rewrite lookup_nil. by destruct (_ && _). }
    cbn [created length] in *.
    assert (HR : list_to_map (M := UtxoSet) (created id h cb (n + 1) outs) !! mkOutPoint i k =
      (if bool_decide (i = id) && (n + 1 <=? k) then
       out ← outs !! N.to_nat (k - (n + 1)); if is_op_return (locking_condition out) then None else Some (mkUtxoEntry out h cb)
       else None)) by (apply IH; lia).
    case_bool_decide as Ei; cbn [andb] in *.
    - destruct (N.lt_trichotomy k n) as [Hlt|[->|Hgt]].
      + rewrite (proj2 (N.leb_gt n k)), (proj2 (N.leb_gt (n + 1) k)) in * by lia.
        destruct (is_op_return _); [done|]. rewrite list_to_map_cons, lookup_insert_ne; [done|].
        intros [= _ E]. rewrite wrap32_small in E by lia. lia.
      + rewrite (proj2 (N.leb_le n n)), (proj2 (N.leb_gt (n + 1) n)) in * by lia.
        rewrite N.sub_diag. change (N.to_nat 0) with O. cbn [lookup list_lookup mbind option_bind]. destruct (is_op_return _); [exact HR|].
        rewrite list_to_map_cons, wrap32_small, Ei by lia. apply lookup_insert_eq.
      + rewrite (proj2 (N.leb_le n k)), (proj2 (N.leb_le (n + 1) k)) in * by lia.
        replace (N.to_nat (k - n)) with (S (N.to_nat (k - (n + 1)))) by lia. cbn [lookup list_lookup].
        destruct (is_op_return _); [done|]. rewrite list_to_map_cons, lookup_insert_ne; [done|].
        intros [= _ E]. rewrite wrap32_small in E by lia. lia.
    - destruct (is_op_return _); [done|]. rewrite list_to_map_cons, lookup_insert_ne; [done|]. by intros [= <- _]. }
  intros Hl. rewrite HG by lia. rewrite (proj2 (N.leb_le 0 (op_index o))) by lia.
  rewrite andb_true_r, N.sub_0_r. done.
Qed.

(** ** What indexing a transaction does to the rows *)

Section index_rows.
Context {B3 : Blake3} {BC : Bincode} {SQ : Sqlite}.

Definition row_of (out : TxOut) : UtxoRow := mkUtxoRow (address_text (locking_condition out)) (value out) None false.

Lemma to_sql_Ok n m : to_sql n = Ok m → m = n ∧ n < I64_LIMIT.
Proof. unfold to_sql. destruct (N.ltb_spec n I64_LIMIT); [|done]. by intros [= <-]. Qed.
Lemma to_sql_fits n : n < I64_LIMIT → to_sql n = Ok n.
Proof. intros H. unfold to_sql. by rewrite (proj2 (N.ltb_lt _ _) H). Qed.

Lemma mark_spent_rows ins x k :
  index_address_utxos (foldl (λ x i, mark_spent i x) x (indexer_input <$> ins)) !! k =
  (if bool_decide (k ∈ (row_key ∘ previous_output) <$> ins) then set_spent <$> index_address_utxos x !! k else index_address_utxos x !! k).
Proof.
  revert x. induction ins as [|i ins IH]; intros x.
  { cbn [fmap list_fmap foldl]. by rewrite bool_decide_eq_false_2 by apply not_elem_of_nil. }
  rewrite !fmap_cons. cbn [foldl]. rewrite IH. cbn [mark_spent index_address_utxos indexer_input prev_txid prev_vout compose].
  change (hash_display (op_txid (previous_output i)), op_index (previous_output i)) with (row_key (previous_output i)).
  destruct (decide (k = row_key (previous_output i))) as [->|Hne].
  - rewrite lookup_alter_eq. rewrite (bool_decide_eq_true_2 (_ ∈ _ :: _)) by left.
    case_bool_decide; [|done]. rewrite <- option_fmap_compose. apply option_fmap_ext. intros r. done.
  - rewrite lookup_alter_ne by done. do 2 case_bool_decide; set_solver.
Qed.

Lemma insert_rows_spec id outs n x x' :
  N.of_nat n + N.of_nat (length outs) ≤ MOD32 →
  insert_output_rows id (imap (λ i, indexer_output (n + i)) outs) x = (x', Ok tt) →
  index_blocks x' = index_blocks x ∧
  ∀ k, index_address_utxos x' !! k =
    (if bool_decide (k.1 = id ∧ N.of_nat n ≤ k.2 < N.of_nat n + N.of_nat (length outs))
     then row_of <$> outs !! N.to_nat (k.2 - N.of_nat n) else index_address_utxos x !! k).
Proof.
  revert n x. induction outs as [|out outs IH]; intros n x Hn.
  { cbn. unfold sret. intros [= <-]. split; [done|]. intros k. rewrite bool_decide_eq_false_2 by (intros [_ ?]; lia). done. }
  cbn [imap insert_output_rows length] in *. rewrite Nat.add_0_r. intros H. apply sbind_Ok in H as (x1 & [] & H1 & H2).
  unfold insert_output_row in H1. apply sbind_Ok in H1 as (x0 & v & H0 & H1). unfold slift in H0. injection H0 as <- Hv.
  apply to_sql_Ok in Hv as [-> _]. unfold smodify in H1. injection H1 as <-.
  cbn [indexer_output ix_value ix_vout ix_address ix_token_id] in H2. rewrite wrap32_small in H2 by lia.
  rewrite (imap_ext _ (λ i, indexer_output (S n + i))) in H2 by (intros i y _; cbn [compose]; f_equal; lia).
  apply IH in H2 as [Hb Hk]; [|lia]. split; [exact Hb|]. intros [t k]. rewrite Hk. cbn [fst snd index_address_utxos].
  case_bool_decide as H1; case_bool_decide as H2; try (exfalso; naive_solver lia).
  - replace (N.to_nat (k - N.of_nat n)) with (S (N.to_nat (k - N.of_nat (S n)))) by lia. done.
  - destruct H2 as [-> H2]. assert (k = N.of_nat n) as -> by (destruct (N.eq_dec k (N.of_nat n)); [done|]; exfalso; apply H1; split; [done|lia]). rewrite N.sub_diag, lookup_insert_eq. done.
  - rewrite lookup_insert_ne; [done|]. intros [= <- <-]. apply H2. split; [done|lia].
Qed.

(** An indexed transaction: the rows of the outputs it spends are marked, and
    its outputs are there. *)
Lemma index_tx_rows height hash id tx x x' :
  N.of_nat (length (outputs tx)) ≤ MOD32 →
  txid (E := SqlError) tx = Ok id →
  (let! t := slift (indexer_tx tx) in index_tx height hash t) x = (x', Ok tt) →
  index_blocks x' = index_blocks x ∧
  ∀ k, index_address_utxos x' !! k =
    (if bool_decide (k.1 = hash_display id ∧ 0 ≤ k.2 < N.of_nat (length (outputs tx)))
     then row_of <$> outputs tx !! N.to_nat k.2
     else if bool_decide (is_coinbase tx = false ∧ k ∈ (row_key ∘ previous_output) <$> inputs tx)
     then set_spent <$> index_address_utxos x !! k
     else index_address_utxos x !! k).
Proof.
  intros Hl Hid H. unfold indexer_tx in H. rewrite Hid in H. cbn [obind] in H. rewrite sbind_lift_Ok in H.
  unfold index_tx in H. apply sbind_Ok in H as (x0 & h & H0 & H). unfold slift in H0. injection H0 as <- Hh.
  apply sbind_Ok in H as (x0 & fee & H0 & H). unfold slift in H0. injection H0 as <- Hf.
  apply sbind_Ok in H as (x1 & [] & H1 & H). apply sbind_Ok in H as (x2 & [] & H2 & H).
  cbn [ix_inputs ix_outputs ix_txid] in *.
  assert (HX : index_blocks x1 = index_blocks x ∧ index_address_utxos x1 = index_address_utxos x).
  { unfold insert_tx_row in H1. rewrite sbind_sget in H1. destruct (_ && _); [done|]. unfold smodify in H1. by injection H1 as <-. }
  destruct HX as [Hb1 Hu1]. unfold smodify in H2. injection H2 as <-.
  assert (Hm : ∀ ins y, index_blocks (foldl (λ x i, mark_spent i x) y ins) = index_blocks y).
  { intros ins. induction ins as [|i ins IH]; intros y; [done|]. cbn [foldl]. by rewrite IH. }
  change (imap indexer_output (outputs tx)) with (imap (λ i, indexer_output (0 + i)) (outputs tx)) in H.
  apply insert_rows_spec in H as [Hb Hk]; [|lia]. split; [by rewrite Hb, Hm|]. intros k. rewrite Hk.
  change (N.of_nat 0) with 0. rewrite N.add_0_l, N.sub_0_r. case_bool_decide; [done|]. destruct (is_coinbase tx).
  - cbn [foldl]. rewrite Hu1, bool_decide_eq_false_2 by by intros [? _]. done.
  - rewrite mark_spent_rows, Hu1.
    rewrite (bool_decide_ext (k ∈ (row_key ∘ previous_output) <$> inputs tx) (false = false ∧ k ∈ (row_key ∘ previous_output) <$> inputs tx)) by naive_solver.
    done.
Qed.

Lemma index_tx_spec height hash id tx x x' :
  N.of_nat (length (outputs tx)) ≤ MOD32 →
  txid (E := SqlError) tx = Ok id →
  (let! t := slift (indexer_tx tx) in index_tx height hash t) x = (x', Ok tt) →
  index_blocks x' = index_blocks x ∧
  (∀ k, is_Some (index_address_utxos x' !! k) → is_Some (index_address_utxos x !! k) ∨ ∃ o, k = row_key o) ∧
  ∀ o, index_address_utxos x' !! row_key o =
    (if bool_decide (op_txid o = id ∧ op_index o < N.of_nat (length (outputs tx)))
     then row_of <$> outputs tx !! N.to_nat (op_index o)
     else if bool_decide (is_coinbase tx = false ∧ o ∈ previous_output <$> inputs tx)
     then set_spent <$> index_address_utxos x !! row_key o
     else index_address_utxos x !! row_key o).
Proof.
  intros Hl Hid H. destruct (index_tx_rows _ _ _ _ _ _ Hl Hid H) as [Hb Hk]. split; [exact Hb|]. split.
  - intros [t k]. rewrite Hk. cbn [fst snd]. case_bool_decide as E1; [intros _; right; exists (mkOutPoint id k); by destruct E1 as [-> _]|].
    case_bool_decide; [|by left]. rewrite fmap_is_Some. by left.
  - intros o. rewrite Hk. cbn [row_key fst snd]. fold (row_key o).
    rewrite (bool_decide_ext (hash_display (op_txid o) = hash_display id ∧ 0 ≤ op_index o < N.of_nat (length (outputs tx)))
               (op_txid o = id ∧ op_index o < N.of_nat (length (outputs tx)))).
    2:{ split; [intros [E%hash_display_inj ?]|intros [-> ?]]; (split; [done|]); lia. }
    rewrite (bool_decide_ext (is_coinbase tx = false ∧ row_key o ∈ (row_key ∘ previous_output) <$> inputs tx)
               (is_coinbase tx = false ∧ o ∈ previous_output <$> inputs tx)); [done|].
    rewrite list_fmap_compose. split; intros [? Hin]; (split; [done|]); [|by apply list_elem_of_fmap_2].
    apply list_elem_of_fmap_1 in Hin as (o' & E%(inj row_key) & Hin). by subst.
Qed.
End index_rows.

(** ** The index and the ledger *)

Section tracks.
Context {B3 : Blake3} {BC : Bincode} {SQ : Sqlite}.

(** The unspent rows are the unspent outputs of the ledger, and the outputs
    that can never be spent, whose scripts are among these. *)
Definition tracks (burns : list (list byte)) (s : UtxoSet) (x : IndexerStore) : Prop :=
  (∀ k, is_Some (index_address_utxos x !! k) → ∃ o, k = row_key o) ∧
  ∀ o, match s !! o with
       | Some e => index_address_utxos x !! row_key o = Some (row_of (output e))
       | None => ∀ row, index_address_utxos x !! row_key o = Some row → ur_spent row = false →
           ∃ script, script ∈ burns ∧ is_op_return script = true ∧ ur_address row = address_text script
       end.

(** The scripts of the outputs of transactions. *)
Definition scripts (txs : list Transaction) : list (list byte) := txs ≫= λ tx, locking_condition <$> outputs tx.

Lemma tracks_tx burns s s' x x' id tx h cb height hash :
  tracks burns s x →
  N.of_nat (length (outputs tx)) ≤ MOD32 →
  txid (E := SqlError) tx = Ok id →
  (∀ o, op_txid o = id → s !! o = None) →
  s' = list_to_map (created id h cb 0 (outputs tx)) ∪ (if is_coinbase tx then s else remove_inputs (inputs tx) s) →
  (let! t := slift (indexer_tx tx) in index_tx height hash t) x = (x', Ok tt) →
  tracks (burns ++ (locking_condition <$> outputs tx)) s' x' ∧ index_blocks x' = index_blocks x.
Proof.
  intros [HK HT] Hl Hid Hfresh -> H. destruct (index_tx_spec _ _ _ _ _ _ Hl Hid H) as (Hb & Hkeys & Hrow). split; [|exact Hb]. split.
  { intros k [Hk|Hk]%Hkeys; [by apply HK|done]. }
  intros o. specialize (Hrow o). rewrite Hrow. clear Hrow. specialize (HT o). specialize (Hfresh o).
  rewrite lookup_union, created_at by done.
  assert (Hrem : ∀ P : bool, (if P then s else remove_inputs (inputs tx) s) !! o =
    if bool_decide (P = false ∧ o ∈ previous_output <$> inputs tx) then None else s !! o).
  { intros [|]; [by rewrite bool_decide_eq_false_2 by by intros [? _]|]. rewrite lookup_remove_inputs.
    do 2 case_bool_decide; naive_solver. }
  rewrite Hrem. clear Hrem. case_bool_decide as Ei.
  - (* an identifier of the transaction *)
    rewrite (Hfresh Ei) in *. clear Hfresh.
    replace (if bool_decide (is_coinbase tx = false ∧ o ∈ previous_output <$> inputs tx) then None else None) with (@None UtxoEntry) by by destruct (bool_decide _).
    rewrite (right_id_L None _).
    destruct (outputs tx !! N.to_nat (op_index o)) as [out|] eqn:Eo; cbn [mbind option_bind].
    + assert (Hlt : op_index o < N.of_nat (length (outputs tx))) by (apply lookup_lt_Some in Eo; lia).
      rewrite bool_decide_eq_true_2 by done. cbn [fmap option_fmap option_map].
      destruct (is_op_return (locking_condition out)) eqn:Eop; [|done]. intros row [= <-] _.
      exists (locking_condition out). split; [|done]. apply elem_of_app. right. apply list_elem_of_fmap_2. by eapply list_elem_of_lookup_2.
    + rewrite bool_decide_eq_false_2.
      2:{ intros [_ Hlt]. apply lookup_ge_None in Eo. lia. }
      intros row Hr Hs. assert (Hold : index_address_utxos x !! row_key o = Some row).
      { revert Hr. case_bool_decide; [|done]. destruct (index_address_utxos x !! row_key o) as [r|]; [|done]. intros [= <-]. discriminate Hs. }
      destruct (HT row Hold Hs) as (script & Hin & ?). exists script. split; [|done]. apply elem_of_app. by left.
  - rewrite (left_id_L None _). rewrite (bool_decide_eq_false_2 (op_txid o = id ∧ _)) by by intros [? _]. case_bool_decide as Ep; cbn [negb].
    + intros row. destruct (index_address_utxos x !! row_key o); [|done]. intros [= <-] [=].
    + destruct (s !! o) as [e|]; [done|]. intros row Hr Hs. destruct (HT row Hr Hs) as (script & Hin & ?). exists script. split; [|done].
      apply elem_of_app. by left.
Qed.
End tracks.

(** ** Blocks *)

Section index_chain.
Context {B3 : Blake3} {ED : Ed25519} {BC : Bincode} {WM : Wasmi} {PC : Payload TxContext} {SQ : Sqlite}.

Definition identified (txs : list Transaction) (ids : list Hash) : Prop :=
  Forall2 (λ tx id, txid (E := UtxoError) tx = Ok id) txs ids.
Definition few_outputs (tx : Transaction) : Prop := N.of_nat (length (outputs tx)) ≤ MOD32.
Definition unknown (s : UtxoSet) (ids : list Hash) : Prop := ∀ o, op_txid o ∈ ids → s !! o = None.

Lemma indexer_tx_run height hash tx p x x' txs :
  indexer_tx (E := SqlError) tx = Ok p →
  index_txs height hash (p :: txs) x = (x', Ok tt) →
  ∃ x1, (let! t := slift (indexer_tx tx) in index_tx height hash t) x = (x1, Ok tt) ∧ index_txs height hash txs x1 = (x', Ok tt).
Proof. intros Hp H. cbn [index_txs] in H. apply sbind_Ok in H as (x1 & [] & H1 & H2). exists x1. by rewrite Hp, sbind_lift_Ok. Qed.

Lemma created_unknown id h cb outs s (ids : list Hash) o :
  N.of_nat (length outs) ≤ MOD32 → id ∉ ids → s !! o = None → op_txid o ∈ ids →
  (list_to_map (created id h cb 0 outs) ∪ s : UtxoSet) !! o = None.
Proof.
  intros Hl Hni Hs Ho. rewrite lookup_union, created_at by done. rewrite bool_decide_eq_false_2, Hs; [done|]. intros E. by rewrite E in Ho.
Qed.

Lemma tracks_rest burns h s txs fees s' ids payloads height hash x x' :
  transactions_step h s txs fees s' →
  identified txs ids → NoDup ids → unknown s ids → Forall few_outputs txs →
  omap_list (indexer_tx (E := SqlError)) txs = Ok payloads →
  tracks burns s x → index_txs height hash payloads x = (x', Ok tt) →
  tracks (burns ++ scripts txs) s' x' ∧ index_blocks x' = index_blocks x ∧
  ∀ ids', unknown s ids' → (∀ id, id ∈ ids → id ∉ ids') → unknown s' ids'.
Proof.
  intros HT. revert burns ids payloads x. induction HT as [s|s tx txs fee fees s1 s' Hcb HS HT IH]; intros burns ids payloads x HI HN HU HF HP HX H.
  { injection HP as <-. unfold scripts. cbn in *. unfold sret in H. injection H as <-. rewrite app_nil_r. by split. }
  apply Forall2_cons_inv_l in HI as (id & ids1 & Hid & HI & ->). apply NoDup_cons in HN as [Hni HN]. apply Forall_cons in HF as [Hf HF].
  apply omap_list_Ok, Forall2_cons_inv_l in HP as (p & ps & Hp & HP%omap_list_Ok & ->).
  destruct (indexer_tx_run _ _ _ _ _ _ _ Hp H) as (x1 & H1 & H2).
  destruct HS as (id' & Hid' & _ & -> & _). rewrite Hid in Hid'. injection Hid' as <-.
  assert (Hs1 : ∀ ids', unknown s ids' → id ∉ ids' → unknown (list_to_map (created id h false 0 (outputs tx)) ∪ remove_inputs (inputs tx) s) ids').
  { intros ids' HU' Hn o Ho. apply (created_unknown _ _ _ _ _ ids'); [done|done| |done]. rewrite lookup_remove_inputs. by rewrite (HU' o Ho); case_bool_decide. }
  destruct (tracks_tx burns s (list_to_map (created id h false 0 (outputs tx)) ∪ remove_inputs (inputs tx) s) x x1 id tx h false height hash) as [HX1 Hb1];
    [done|done|by apply (txid_any _ _ Hid)|intros o Ho; apply HU; rewrite Ho; by left|by rewrite Hcb|done|].
  destruct (IH (burns ++ (locking_condition <$> outputs tx)) ids1 ps x1) as (HX2 & Hb2 & HU2); [done|done| |done|done|done|done|].
  { apply Hs1; [|done]. intros o Ho. apply HU. by right. }
  split; [|split; [congruence|]].
  - unfold scripts in *. rewrite bind_cons. by rewrite app_assoc.
  - intros ids' HU' Hn. apply HU2; [apply Hs1; [done|apply Hn; by left]|]. intros i Hi. apply Hn. by right.
Qed.

Definition block_row (b : Block) (hash : Hash) : BlockRow :=
  mkBlockRow (hash_display hash) (hash_display (previous_block_hash (header b))) (timestamp (header b)) (N.of_nat (length (transactions b)))
    (hash_display (transaction_commitment (header b))) (hash_display (utxo_root (header b))).

(** What an index call that succeeds did. *)
Lemma index_of_block_Ok broken b h x x' :
  index_of_block broken b h x = (x', Ok tt) → broken = false ∧ ∃ payloads hash x1,
    extract_block_indexer_payload (E := SqlError) b = Ok payloads ∧ header_hash (E := SqlError) (header b) = Ok hash ∧
    index_blocks x1 = <[h := block_row b hash]> (filter (λ hr, br_hash hr.2 ≠ hash_display hash) (index_blocks x)) ∧
    index_address_utxos x1 = index_address_utxos x ∧
    index_txs h (hash_display hash) payloads x1 = (x', Ok tt).
Proof.
  unfold index_of_block. intros H. apply sbind_Ok in H as (x0 & payloads & H0 & H). unfold slift in H0. injection H0 as <- HP.
  apply sbind_Ok in H as (x0 & hash & H0 & H). pose proof (f_equal snd H0 : header_hash (E := SqlError) (header b) = Ok hash) as Hh.
  apply (f_equal fst) in H0. cbn [slift fst] in H0. subst x0.
  unfold index_block in H. rewrite on_clone_Ok in H.
  apply sbind_Ok in H as (x0 & h1 & H0 & H). unfold slift in H0. injection H0 as <- [-> _]%to_sql_Ok.
  apply sbind_Ok in H as (x0 & time & H0 & H). unfold slift in H0. injection H0 as <- [-> _]%to_sql_Ok.
  apply sbind_Ok in H as (x1 & [] & H1 & H). apply sbind_Ok in H as (x2 & [] & H2 & H). unfold slift in H. injection H as <- Hb.
  destruct broken; [done|]. split; [done|]. exists payloads, hash, x1. split; [done|]. split; [done|].
  unfold insert_block_row in H1. rewrite sbind_sget in H1. cbn [br_hash] in H1. destruct (_ && _); [done|]. unfold smodify in H1. injection H1 as <-.
  split; [|by split]. unfold block_row. apply omap_list_Ok, Forall2_length in HP. by rewrite HP.
Qed.
Lemma index_of_block_unbroken broken b h x x' :
  index_of_block broken b h x = (x', Ok tt) → index_of_block false b h x = (x', Ok tt).
Proof. intros H. destruct (index_of_block_Ok _ _ _ _ _ H) as [-> _]. done. Qed.

Lemma tracks_block burns broken b h s s' fees ids x x' :
  apply_block (transactions b) h s = (s', Ok fees) →
  identified (transactions b) ids → NoDup ids → unknown s ids → Forall few_outputs (transactions b) →
  tracks burns s x → index_of_block broken b h x = (x', Ok tt) →
  tracks (burns ++ scripts (transactions b)) s' x' ∧
  (∃ row : BlockRow, index_blocks x' = <[h := row]> (filter (λ hr, br_hash hr.2 ≠ br_hash row) (index_blocks x))) ∧
  ∀ ids', unknown s ids' → (∀ id, id ∈ ids → id ∉ ids') → unknown s' ids'.
Proof.
  intros HA HI HN HU HF HX H. apply apply_block_Ok in HA as (cb & rest & s1 & Etx & Hcb & HC & HT & _).
  destruct (index_of_block_Ok _ _ _ _ _ H) as (_ & payloads & hash & x1 & HP & Hh & Hb1 & Hu1 & HX1). unfold extract_block_indexer_payload in HP.
  rewrite Etx in *. apply Forall2_cons_inv_l in HI as (id & ids1 & Hid & HI & ->). apply NoDup_cons in HN as [Hni HN]. apply Forall_cons in HF as [Hf HF].
  apply omap_list_Ok, Forall2_cons_inv_l in HP as (p & ps & Hp & HP%omap_list_Ok & ->).
  destruct (indexer_tx_run _ _ _ _ _ _ _ Hp HX1) as (x2 & H1 & H2).
  destruct HC as (id' & Hid' & _ & -> & _). rewrite Hid in Hid'. injection Hid' as <-.
  assert (HX0 : tracks burns s x1) by (unfold tracks in *; by rewrite Hu1).
  assert (Hs1 : ∀ ids', unknown s ids' → id ∉ ids' → unknown (list_to_map (created id h true 0 (outputs cb)) ∪ s) ids').
  { intros ids' HU' Hn o Ho. by apply (created_unknown _ _ _ _ _ ids'); [done|done|apply HU'|]. }
  destruct (tracks_tx burns s (list_to_map (created id h true 0 (outputs cb)) ∪ s) x1 x2 id cb h true h (hash_display hash)) as [HX2 Hb2];
    [done|done|by apply (txid_any _ _ Hid)|intros o Ho; apply HU; rewrite Ho; by left|by rewrite Hcb|done|].
  destruct (tracks_rest (burns ++ (locking_condition <$> outputs cb)) h _ rest fees s' ids1 ps h (hash_display hash) x2 x' HT HI HN) as (HX3 & Hb3 & HU3); [|done|done|done|done|].
  { apply Hs1; [|done]. intros o Ho. apply HU. by right. }
  split; [|split].
  - unfold scripts in *. rewrite bind_cons. by rewrite app_assoc.
  - exists (block_row b hash). by rewrite Hb3, Hb2, Hb1.
  - intros ids' HU' Hn. apply HU3; [apply Hs1; [done|apply Hn; by left]|]. intros i Hi. apply Hn. by right.
Qed.

(** Blocks applied to a ledger, and indexed, from a height on. *)
Fixpoint ledger_run (h : N) (bs : list Block) (s : UtxoSet) : option UtxoSet :=
  match bs with
  | [] => Some s
  | b :: bs => match apply_block (transactions b) h s with (s, Ok _) => ledger_run (h + 1) bs s | _ => None end
  end.
Fixpoint index_run (h : N) (bs : list Block) (x : IndexerStore) : option IndexerStore :=
  match bs with
  | [] => Some x
  | b :: bs => match index_of_block false b h x with (x, Ok _) => index_run (h + 1) bs x | _ => None end
  end.

(** The blocks below a height are indexed, and none from there on. *)
Definition indexed_to (n : N) (x : IndexerStore) : Prop :=
  (∀ h, is_Some (index_blocks x !! h) → h < n) ∧ (n = 0 ∨ is_Some (index_blocks x !! (n - 1))).

Lemma indexed_to_step n x x' row :
  indexed_to n x → index_blocks x' = <[n := row]> (filter (λ hr, br_hash hr.2 ≠ br_hash row) (index_blocks x)) → indexed_to (n + 1) x'.
Proof.
  intros [H1 H2] E. unfold indexed_to. rewrite E. split.
  - intros h [r [[<- _]|[_ [Hr _]%map_lookup_filter_Some]]%lookup_insert_Some]; [lia|]. assert (h < n) by (apply H1; by exists r). lia.
  - right. replace (n + 1 - 1) with n by lia. rewrite lookup_insert_eq. by eexists.
Qed.

Lemma tracks_run burns h bs s s' ids x x' :
  ledger_run h bs s = Some s' → index_run h bs x = Some x' →
  identified (bs ≫= transactions) ids → NoDup ids → unknown s ids → Forall (λ b, Forall few_outputs (transactions b)) bs →
  tracks burns s x → indexed_to h x →
  tracks (burns ++ (bs ≫= λ b, scripts (transactions b))) s' x' ∧ indexed_to (h + N.of_nat (length bs)) x'.
Proof.
  revert burns h s x ids. induction bs as [|b bs IH]; intros burns h s x ids HL HR HI HN HU HF HX HB.
  { cbn in *. injection HL as <-. injection HR as <-. rewrite app_nil_r, N.add_0_r. by split. }
  cbn [ledger_run] in HL. cbn [index_run] in HR. destruct (apply_block _ h s) as [s1 [fees| | |]] eqn:EA; [|done..].
  destruct (index_of_block false b h x) as [x1 [[]| | |]] eqn:EX; [|done..].
  rewrite bind_cons in HI. apply Forall2_app_inv_l in HI as (ids1 & ids2 & HI1 & HI2 & ->).
  apply NoDup_app in HN as (HN1 & Hd & HN2). apply Forall_cons in HF as [HF1 HF2].
  destruct (tracks_block burns false b h s s1 fees ids1 x x1) as (HX1 & (row & Hrow) & HU1); [done|done|done| |done|done|done|].
  { intros o Ho. apply HU, elem_of_app. by left. }
  destruct (IH (burns ++ scripts (transactions b)) (h + 1) s1 x1 ids2) as [HX2 HB2]; [done|done|done|done| |done|done| |].
  { apply HU1; [intros o Ho; apply HU, elem_of_app; by right|done]. }
  { by eapply indexed_to_step. }
  split; [by rewrite bind_cons, app_assoc|]. cbn [length]. replace (h + N.of_nat (S (length bs))) with (h + 1 + N.of_nat (length bs)) by lia. done.
Qed.
End index_chain.

(** ** What the queries answer *)

Section queries.
Context {B3 : Blake3} {ED : Ed25519} {BC : Bincode} {WM : Wasmi} {PC : Payload TxContext} {SQ : Sqlite}.

(** The unspent outputs of an address in the ledger. *)
Definition ledger_entries (address : list byte) (s : UtxoSet) : list (OutPoint * UtxoEntry) :=
  List.filter (λ oe, bool_decide (address_text (locking_condition (output oe.2)) = address)) (map_to_list s).
Definition entries_value (l : list (OutPoint * UtxoEntry)) : N := foldr (λ oe acc, value (output oe.2) + acc) 0 l.

Lemma unspent_rows_ledger burns s x address :
  tracks burns s x → (∀ script, script ∈ burns → is_op_return script = true → address_text script ≠ address) →
  unspent_rows address x ≡ₚ (λ oe, (row_key oe.1, row_of (output oe.2))) <$> ledger_entries address s.
Proof.
  intros [HK HT] HB. apply NoDup_Permutation.
  - apply NoDup_ListNoDup, List.NoDup_filter, NoDup_ListNoDup, NoDup_map_to_list.
  - apply (NoDup_fmap_1 fst). rewrite <- list_fmap_compose.
    apply (NoDup_fmap_2_strong (fst ∘ (λ oe : OutPoint * UtxoEntry, (row_key oe.1, row_of (output oe.2))))).
    { intros [o e] [o' e'] H1 H2 E%(inj row_key). cbn in E. subst o'.
      apply list_elem_of_In, filter_In in H1 as [H1 _]. apply list_elem_of_In, filter_In in H2 as [H2 _].
      apply list_elem_of_In, elem_of_map_to_list in H1, H2. congruence. }
    apply NoDup_ListNoDup, List.NoDup_filter, NoDup_ListNoDup, NoDup_map_to_list.
  - intros [k r]. rewrite list_elem_of_In. unfold unspent_rows. rewrite filter_In, <- list_elem_of_In, elem_of_map_to_list, andb_true_iff, bool_decide_eq_true, negb_true_iff.
    cbn [fst snd]. rewrite list_elem_of_fmap. split.
    + intros (Hr & Ha & Hs). destruct (HK k) as [o ->]; [by eexists|]. specialize (HT o). destruct (s !! o) as [e|] eqn:Es.
      * rewrite Hr in HT. injection HT as ->. exists (o, e). split; [done|]. apply list_elem_of_In, filter_In.
        rewrite <- list_elem_of_In, elem_of_map_to_list, bool_decide_eq_true. done.
      * destruct (HT r Hr Hs) as (script & Hin & Hop & E). exfalso. apply (HB script Hin Hop). congruence.
    + intros ([o e] & [= -> ->] & Hin%list_elem_of_In%filter_In). rewrite <- list_elem_of_In, elem_of_map_to_list, bool_decide_eq_true in Hin.
      cbn [fst snd] in Hin. destruct Hin as [Ho Ha]. specialize (HT o). rewrite Ho in HT. done.
Qed.

#[local] Instance rows_value_proper : Proper (Permutation ==> eq) rows_value.
Proof. induction 1; unfold rows_value in *; cbn [foldr]; lia. Qed.

Lemma rows_value_entries l : rows_value ((λ oe : OutPoint * UtxoEntry, (row_key oe.1, row_of (output oe.2))) <$> l) = entries_value l.
Proof. induction l as [|oe l IH]; [done|]. rewrite fmap_cons. unfold rows_value, entries_value in *. cbn [foldr]. rewrite IH. done. Qed.

Lemma insert_vout_perm r rows : insert_vout r rows ≡ₚ r :: rows.
Proof.
  induction rows as [|r' rows IH]; [done|]. cbn [insert_vout]. destruct (_ <=? _); [done|]. rewrite IH. by constructor.
Qed.
Lemma sorted_rows_perm rows : foldr insert_vout [] rows ≡ₚ rows.
Proof. induction rows as [|r rows IH]; [done|]. cbn [foldr]. by rewrite insert_vout_perm, IH. Qed.
Lemma insert_vout_sorted r rows : Sorted (λ r r', r.1.2 ≤ r'.1.2) rows → Sorted (λ r r', r.1.2 ≤ r'.1.2) (insert_vout r rows).
Proof.
  induction rows as [|r' rows IH]; intros HS; [repeat constructor|]. cbn [insert_vout]. destruct (N.leb_spec r.1.2 r'.1.2) as [Hle|Hgt].
  - constructor; [done|]. by constructor.
  - inversion HS as [|? ? HS' HH]; subst. constructor; [by apply IH|]. destruct rows as [|r2 rows]; cbn [insert_vout]; [constructor; lia|].
    inversion HH; subst. destruct (_ <=? _); constructor; [lia|done].
Qed.
Lemma sorted_rows rows : Sorted (λ r r' : (list byte * N) * UtxoRow, r.1.2 ≤ r'.1.2) (foldr insert_vout [] rows).
Proof. induction rows as [|r rows IH]; [constructor|]. by apply insert_vout_sorted. Qed.

Lemma latest_indexed n x : indexed_to n x → get_latest_indexed_height x = if n =? 0 then None else Some (n - 1).
Proof.
  intros [H1 H2]. unfold get_latest_indexed_height.
  assert (HG : ∀ l : list (N * BlockRow), match foldr (λ hr acc, Some (match acc with Some m => N.max hr.1 m | None => hr.1 end)) None l with
    | Some m => (∃ r, (m, r) ∈ l) ∧ ∀ hr, hr ∈ l → hr.1 ≤ m
    | None => l = [] end).
  { induction l as [|[h r] l IH]; [done|]. cbn [foldr fst]. destruct (foldr _ None l) as [m|].
    - destruct IH as [[r' Hr] IH]. split.
      + destruct (N.max_spec h m) as [[_ ->]|[_ ->]]; [exists r'; by right|exists r; left].
      + intros hr [->|Hin]%elem_of_cons; cbn [fst]; [lia|]. apply IH in Hin. lia.
    - subst l. split; [exists r; left|]. intros hr [->|Hin]%elem_of_cons; [done|]. by apply elem_of_nil in Hin. }
  specialize (HG (map_to_list (index_blocks x))). destruct (foldr _ _ _) as [m|].
  - destruct HG as [[r Hr%elem_of_map_to_list] Hmax]. assert (Hm : m < n) by (apply H1; by eexists).
    destruct (N.eqb_spec n 0); [lia|]. destruct H2 as [|[r' Hr']]; [lia|]. apply elem_of_map_to_list in Hr'. apply Hmax in Hr'. cbn [fst] in Hr'.
    f_equal. lia.
  - destruct (N.eqb_spec n 0); [done|]. destruct H2 as [|[r' Hr']]; [lia|]. apply elem_of_map_to_list in Hr'. rewrite HG in Hr'. by apply elem_of_nil in Hr'.
Qed.

Lemma tracks_empty : tracks [] ∅ empty_index.
Proof.
  split; [intros k; cbn; rewrite lookup_empty; by intros [? ?]|]. intros o. rewrite lookup_empty. intros row. cbn. by rewrite lookup_empty.
Qed.
Lemma indexed_empty : indexed_to 0 empty_index.
Proof. split; [|by left]. intros h. cbn. rewrite lookup_empty. by intros [? ?]. Qed.

(** C33: The index is the ledger. When the blocks of a chain from its genesis block
    on were indexed, with identifiers that differ, the rows an address has are its
    unspent outputs in the ledger these blocks make, each once, by output number;
    its balance is their sum, or an error when the sum needs 64 bits; and the last
    indexed height is that of the last block. This is for an address that no
    output the ledger drops as unspendable is filed under. *)
Theorem index_is_ledger (bs : list Block) (s : UtxoSet) (x : IndexerStore) (ids : list Hash) (address : list byte) :
  ledger_run 0 bs ∅ = Some s → index_run 0 bs empty_index = Some x →
  identified (bs ≫= transactions) ids → NoDup ids → Forall (λ b, Forall few_outputs (transactions b)) bs →
  (∀ script, script ∈ (bs ≫= λ b, scripts (transactions b)) → is_op_return script = true → address_text script ≠ address) →
  let total := entries_value (ledger_entries address s) in
  get_address_balance address x = (if total <? I64_LIMIT then Ok total else Err IntegerOverflow) ∧
  get_address_utxos address x ≡ₚ
    (λ oe, mkAddressUtxoEntry (hash_display (op_txid oe.1)) (op_index oe.1) (value (output oe.2)) None) <$> ledger_entries address s ∧
  Sorted (λ a a', au_vout a ≤ au_vout a') (get_address_utxos address x) ∧
  get_latest_indexed_height x = (if bool_decide (bs = []) then None else Some (N.of_nat (length bs) - 1)).
Proof.
  intros HL HR HI HN HF HB total.
  destruct (tracks_run [] 0 bs ∅ s ids empty_index x HL HR HI HN (λ o _, lookup_empty o) HF tracks_empty indexed_empty) as [HX HT].
  pose proof (unspent_rows_ledger _ _ _ _ HX HB) as HP. split; [|split; [|split]].
  - unfold get_address_balance. assert (E : rows_value (unspent_rows address x) = total); [|by rewrite E].
    rewrite HP. apply rows_value_entries.
  - unfold get_address_utxos. rewrite sorted_rows_perm, HP, <- list_fmap_compose. done.
  - unfold get_address_utxos. pose proof (sorted_rows (unspent_rows address x)) as HS. induction HS as [|r l HS IH HH]; [constructor|].
    rewrite fmap_cons. constructor; [done|]. destruct HH; constructor. done.
  - rewrite (latest_indexed _ _ HT), N.add_0_l. destruct bs as [|b bs]; [done|]. cbn [length]. rewrite bool_decide_eq_false_2 by done.
    destruct (N.eqb_spec (N.of_nat (S (length bs))) 0); [lia|done].
Qed.
End queries.

(** ** Catching up, reorganizations and failures *)

Section index_node.
Context {B3 : Blake3} {ED : Ed25519} {BC : Bincode} {WM : Wasmi} {PC : Payload TxContext} {SQ : Sqlite} {BE : Bech32} {BS : BlockStore}.

Lemma keeps_blocks_txs height hash ps : keeps index_blocks (index_txs height hash ps).
Proof.
  assert (HO : ∀ id outs, keeps index_blocks (insert_output_rows id outs)).
  { intros id outs. induction outs as [|o outs IH]; [apply keeps_sret|]. apply keeps_sbind; [|intros _; exact IH].
    apply keeps_sbind; [apply keeps_slift|]. intros v. by apply keeps_smodify. }
  assert (HM : ∀ ins x, index_blocks (foldl (λ x i, mark_spent i x) x ins) = index_blocks x).
  { intros ins. induction ins as [|i ins IH]; intros x; [done|]. cbn [foldl]. by rewrite IH. }
  induction ps as [|p ps IH]; [apply keeps_sret|]. apply keeps_sbind; [|intros _; exact IH].
  apply keeps_sbind; [apply keeps_slift|]. intros h. apply keeps_sbind; [apply keeps_slift|]. intros fee.
  apply keeps_sbind.
  { intros x. unfold insert_tx_row. rewrite sbind_sget. by destruct (_ && _). }
  intros _. apply keeps_sbind; [|intros _; apply HO]. apply keeps_smodify. intros x. apply HM.
Qed.

Lemma index_of_block_row broken b h x x' :
  index_of_block broken b h x = (x', Ok tt) →
  ∃ row : BlockRow, index_blocks x' = <[h := row]> (filter (λ hr, br_hash hr.2 ≠ br_hash row) (index_blocks x)).
Proof.
  intros (_ & ps & hash & x1 & _ & _ & Hb & _ & H)%index_of_block_Ok. exists (block_row b hash).
  pose proof (keeps_blocks_txs h (hash_display hash) ps x1) as HK. rewrite H in HK. cbn [fst] in HK. by rewrite HK.
Qed.

Lemma index_run_indexed h bs x x' : index_run h bs x = Some x' → indexed_to h x → indexed_to (h + N.of_nat (length bs)) x'.
Proof.
  revert h x. induction bs as [|b bs IH]; intros h x HR HX; cbn [index_run length] in *.
  { injection HR as <-. by rewrite N.add_0_r. }
  destruct (index_of_block false b h x) as [x1 [[]| | |]] eqn:E; [|done..]. destruct (index_of_block_row _ _ _ _ _ E) as [row Hrow].
  replace (h + N.of_nat (S (length bs))) with (h + 1 + N.of_nat (length bs)) by lia. eapply IH; [done|]. by eapply indexed_to_step.
Qed.
Lemma index_run_app h bs1 bs2 x : index_run h (bs1 ++ bs2) x = (x1 ← index_run h bs1 x; index_run (h + N.of_nat (length bs1)) bs2 x1).
Proof.
  revert h x. induction bs1 as [|b bs1 IH]; intros h x; cbn [app index_run length]; [cbn; by rewrite N.add_0_r|].
  destruct (index_of_block false b h x) as [x1 [[]| | |]]; [|done..]. rewrite IH.
  by replace (h + 1 + N.of_nat (length bs1)) with (h + N.of_nat (S (length bs1))) by lia.
Qed.

(** A block that can be written has a payload, and its indexing comes back. *)
Lemma payload_ok b : block_encodable b → ∃ ps, extract_block_indexer_payload (E := SqlError) b = Ok ps.
Proof.
  unfold block_encodable, extract_block_indexer_payload. induction 1 as [|tx txs Htx _ [ps Hps]]; [by eexists|].
  destruct (transaction_encodable_txid (E := SqlError) tx Htx) as [id Hid]. cbn [omap_list]. unfold indexer_tx at 1. rewrite Hid. cbn [obind]. rewrite Hps. by eexists.
Qed.
Lemma index_txs_returns height hash ps : total (index_txs height hash ps).
Proof.
  assert (HS : ∀ n, returns (to_sql n)) by (intros n; unfold to_sql; by destruct (_ <? _)).
  assert (HO : ∀ id outs, total (insert_output_rows id outs)).
  { intros id outs. induction outs as [|o outs IH]; [apply total_sret|]. apply total_sbind; [|intros _; exact IH].
    apply total_sbind; [by apply total_slift|]. intros v. apply total_smodify. }
  induction ps as [|p ps IH]; [apply total_sret|]. apply total_sbind; [|intros _; exact IH].
  apply total_sbind; [by apply total_slift|]. intros h. apply total_sbind; [by apply total_slift|]. intros fee.
  apply total_sbind.
  { intros x. unfold insert_tx_row. rewrite sbind_sget. by destruct (_ && _). }
  intros _. apply total_sbind; [apply total_smodify|intros _; apply HO].
Qed.
Lemma index_of_block_total broken b h x :
  block_encodable b →
  (∃ x', index_of_block broken b h x = (x', Ok tt)) ∨ ∃ e, index_of_block broken b h x = (x, Err e).
Proof.
  intros Hb. destruct (payload_ok b Hb) as [ps Hps]. unfold index_of_block. rewrite Hps, sbind_lift_Ok, header_hash_ok, sbind_lift_Ok. unfold index_block.
  set (m := sbind _ _). assert (HT : returns (m x).2).
  { assert (HS : ∀ n, returns (to_sql n)) by (intros n; unfold to_sql; by destruct (_ <? _)).
    unfold m. revert x. apply total_sbind; [by apply total_slift|]. intros h'. apply total_sbind; [by apply total_slift|]. intros time.
    apply total_sbind; [intros x; unfold insert_block_row; rewrite sbind_sget; by destruct (_ && _)|]. intros _.
    apply total_sbind; [apply index_txs_returns|]. intros _. apply total_slift. by destruct broken. }
  unfold on_clone. destruct (m x) as [x' [[]|e| |]]; [left; by eexists|right; by eexists|by destruct HT..].
Qed.

Lemma backfill_run broken block_at bs2 : ∀ h x,
  Forall block_encodable bs2 → (∀ i, (i < length bs2)%nat → block_at (h + N.of_nat i) = Ok (bs2 !! i)) →
  let '(x', r) := backfill broken block_at ((λ i, h + N.of_nat i) <$> seq 0 (length bs2)) x in
  match r with
  | Ok _ => index_run h bs2 x = Some x'
  | Err e => e = InconsistentState Backfill ∧ ∃ m, (m < length bs2)%nat ∧ index_run h (take m bs2) x = Some x'
  | _ => False
  end.
Proof.
  induction bs2 as [|b bs IH]; intros h x HE HA; [done|]. apply Forall_cons in HE as [Hb HE].
  cbn [length seq fmap list_fmap]. rewrite <- fmap_S_seq, <- list_fmap_compose.
  rewrite (list_fmap_ext _ (λ i, h + 1 + N.of_nat i)) by (intros i j _; cbn [compose]; lia).
  cbn [backfill]. rewrite (HA O) by (cbn [length]; lia). cbn [lookup list_lookup]. rewrite sbind_lift_Ok.
  assert (HA' : ∀ i, (i < length bs)%nat → block_at (h + 1 + N.of_nat i) = Ok (bs !! i)).
  { intros i Hi. replace (h + 1 + N.of_nat i) with (h + N.of_nat (S i)) by lia. apply (HA (S i)). cbn [length]. lia. }
  specialize (IH (h + 1)). rewrite N.add_0_r. unfold sbind at 1, smap_err at 1.
  destruct (index_of_block_total (broken h) b h x Hb) as [[x1 E]|[e E]]; rewrite E; cbn [fst snd map_err].
  - specialize (IH x1 HE HA'). destruct (backfill _ _ _ x1) as [x' [[]|e| |]]; cbn [index_run]; apply index_of_block_unbroken in E; [by rewrite E| |done..].
    destruct IH as (-> & m & Hm & HR). split; [done|]. exists (S m). split; [cbn [length]; lia|]. cbn [take firstn index_run]. by rewrite E.
  - split; [done|]. exists O. split; [cbn [length]; lia|done].
Qed.

Lemma take_split {A} n m (l : list A) : take (n + m) l = take n l ++ take m (drop n l).
Proof. revert n. induction l as [|a l IH]; intros [|n]; cbn [Nat.add take drop firstn skipn app]; [by rewrite take_nil..| |]; [done|]. by rewrite <- IH. Qed.

(** C34: An index that stopped at any block of the stored chain is brought up to
    its end by the catch-up at the start of a node, one that is as it would be
    had every block been indexed when it was committed. When a block cannot be
    indexed the error says so, what was indexed stays, and the next start goes on
    from there. The one chain that is not caught up is the genesis block alone.
    The catch-up inside [Node::open], which panics on such an error, is
    [open_catchup]. *)
Theorem catchup_completes (bs : list Block) (n : nat) (x : IndexerStore) (broken : N → bool) (tip : Hash)
    (block_at : N → outcome NodeError (option Block)) :
  Forall block_encodable bs → (n ≤ length bs)%nat → (0 < n ∨ 1 < length bs)%nat →
  index_run 0 (take n bs) empty_index = Some x →
  (∀ i, (i < length bs)%nat → block_at (N.of_nat i) = Ok (bs !! i)) →
  let '(x', r) := catchup_indexer broken (Ok (Some (tip, N.of_nat (length bs) - 1))) block_at x in
  match r with
  | Ok _ => index_run 0 bs empty_index = Some x'
  | Err e => e = InconsistentState Backfill ∧ ∃ m, (n ≤ m < length bs)%nat ∧ index_run 0 (take m bs) empty_index = Some x'
  | _ => False
  end.
Proof.
  intros HE Hn Hne HR HA. pose proof (index_run_indexed _ _ _ _ HR indexed_empty) as HX.
  rewrite length_take, N.add_0_l, Nat.min_l in HX by lia. pose proof (latest_indexed _ _ HX) as HL.
  unfold catchup_indexer. rewrite sbind_lift_Ok. cbn [from_option snd]. rewrite sbind_sget. unfold requires_catchup, start_height. rewrite HL.
  assert (HC : match (if N.of_nat n =? 0 then None else Some (N.of_nat n - 1)) with
               | Some i => i <? N.of_nat (length bs) - 1 | None => 0 <? N.of_nat (length bs) - 1 end = (n <? length bs)%nat).
  { destruct (N.eqb_spec (N.of_nat n) 0); destruct (Nat.ltb_spec n (length bs));
      first [apply N.ltb_lt|apply N.ltb_ge]; lia. }
  rewrite HC. clear HC. destruct (Nat.ltb_spec n (length bs)) as [Hlt|Hge].
  2:{ cbn. rewrite take_ge in HR by lia. exact HR. }
  replace (match (if N.of_nat n =? 0 then None else Some (N.of_nat n - 1)) with Some h => h + 1 | None => 0 end) with (N.of_nat n)
    by (destruct (N.eqb_spec (N.of_nat n) 0); lia).
  pose proof (backfill_run broken block_at (drop n bs) (N.of_nat n) x) as HB.
  unfold heights. rewrite length_drop in HB.
  replace (N.to_nat (N.of_nat (length bs) - 1 + 1 - N.of_nat n)) with (length bs - n)%nat by lia.
  assert (HA' : ∀ i, (i < length bs - n)%nat → block_at (N.of_nat n + N.of_nat i) = Ok (drop n bs !! i)).
  { intros i Hi. rewrite <- Nat2N.inj_add, HA, lookup_drop by lia. done. }
  specialize (HB (Forall_drop _ _ _ HE) HA'). destruct (backfill _ _ _ x) as [x' [[]|e| |]]; [| |done..].
  - rewrite <- (take_drop n bs), index_run_app, HR. cbn [mbind option_bind]. rewrite length_take, Nat.min_l by lia. by rewrite N.add_0_l.
  - destruct HB as (-> & m & Hm & HRm). split; [done|]. exists (n + m)%nat. split; [lia|].
    rewrite (take_split n m bs), index_run_app, HR. cbn [mbind option_bind]. rewrite length_take, Nat.min_l by lia. by rewrite N.add_0_l.
Qed.
End index_node.

(** ** Reorganizations and failures *)

Section index_events.
Context {B3 : Blake3} {ED : Ed25519} {BC : Bincode} {WM : Wasmi} {PC : Payload TxContext} {SQ : Sqlite} {BE : Bech32} {BS : BlockStore}.

(** A transaction that neither makes nor spends an output. *)
Definition leaves_alone (o : OutPoint) (tx : Transaction) : Prop :=
  txid (E := SqlError) tx ≠ Ok (op_txid o) ∧ o ∉ previous_output <$> inputs tx ∧ few_outputs tx.

Lemma alone_txs o height hash txs ps x x' :
  Forall (leaves_alone o) txs → omap_list (indexer_tx (E := SqlError)) txs = Ok ps → index_txs height hash ps x = (x', Ok tt) →
  index_address_utxos x' !! row_key o = index_address_utxos x !! row_key o.
Proof.
  revert ps x. induction txs as [|tx txs IH]; intros ps x HF HP H.
  { injection HP as <-. unfold sret in H. cbn in H. unfold sret in H. by injection H as <-. }
  apply Forall_cons in HF as [(Hid & Hin & Hl) HF]. apply omap_list_Ok, Forall2_cons_inv_l in HP as (p & ps' & Hp & HP%omap_list_Ok & ->).
  destruct (indexer_tx_run _ _ _ _ _ _ _ Hp H) as (x1 & H1 & H2). rewrite (IH _ _ HF HP H2).
  assert (HT : ∃ id, txid (E := SqlError) tx = Ok id) by (unfold indexer_tx in Hp; apply obind_Ok in Hp as (id & Hid' & _); by exists id).
  destruct HT as [id Hid']. destruct (index_tx_spec _ _ _ _ _ _ Hl Hid' H1) as (_ & _ & Hr). rewrite Hr.
  rewrite bool_decide_eq_false_2 by (intros [E _]; congruence). rewrite bool_decide_eq_false_2 by by intros [_ ?]. done.
Qed.

Lemma alone_block o broken b h x x' r :
  Forall (leaves_alone o) (transactions b) → index_of_block broken b h x = (x', r) →
  index_address_utxos x' !! row_key o = index_address_utxos x !! row_key o.
Proof.
  intros HF H. destruct r as [[]|e| |].
  { apply index_of_block_Ok in H as (_ & ps & hash & x1 & HP & _ & _ & Hu & HX). rewrite <- Hu. by eapply alone_txs. }
  all: unfold index_of_block in H; unfold sbind at 1, slift at 1 in H; destruct (extract_block_indexer_payload b); try by injection H as <-.
  all: rewrite header_hash_ok, sbind_lift_Ok in H; unfold index_block, on_clone in H.
  all: destruct (sbind _ _ _) as [x2 [[]| | |]]; by injection H as <-.
Qed.

Lemma alone_blocks o broken connected x x' :
  Forall (λ bh, Forall (leaves_alone o) (transactions bh.1)) connected → index_all broken connected x = Ok x' →
  index_address_utxos x' !! row_key o = index_address_utxos x !! row_key o.
Proof.
  revert x. induction connected as [|[b h] connected IH]; intros x HF H; [by injection H as <-|].
  apply Forall_cons in HF as [Hb HF]. cbn [index_all] in H. cbn [fst] in Hb.
  destruct (index_of_block (broken h) b h x) as [x1 r] eqn:E. rewrite <- (alone_block _ _ _ _ _ _ _ Hb E).
  destruct r as [[]|e| |]; [by apply IH|by apply IH|done..].
Qed.

Lemma rows_value_elem kr rows : kr ∈ rows → ur_value kr.2 ≤ rows_value rows.
Proof. unfold rows_value. induction 1 as [kr l|kr r l _ IH]; cbn [foldr]; lia. Qed.

(** A reorganization does not take back what the index has of the blocks it
    disconnects: an output of such a block that the new branch neither makes nor
    spends stays in the unspent rows of its address and in its balance, though the
    ledger has no such output. *)
Theorem orphan_counted (o : OutPoint) (row : UtxoRow) (broken : N → bool) (connected : list (Block * N)) (ix ix' : Indexing) (x : IndexerStore) :
  indexer_store ix = Some x → index_address_utxos x !! row_key o = Some row → ur_spent row = false →
  Forall (λ bh, Forall (leaves_alone o) (transactions bh.1)) connected →
  index_reorganization broken connected ix = Ok ix' →
  ∃ x', indexer_store ix' = Some x' ∧
    mkAddressUtxoEntry (hash_display (op_txid o)) (op_index o) (ur_value row) (ur_token row) ∈ get_address_utxos (ur_address row) x' ∧
    match get_address_balance (ur_address row) x' with Ok balance => ur_value row ≤ balance | _ => True end.
Proof.
  intros Hx Hr Hs HF H. unfold index_reorganization in H. rewrite Hx in H. apply obind_Ok in H as (q & _ & H). apply obind_Ok in H as (x' & HA & [= <-]).
  exists x'. split; [done|]. pose proof (alone_blocks _ _ _ _ _ HF HA) as E. rewrite Hr in E.
  assert (Hin : (row_key o, row) ∈ unspent_rows (ur_address row) x').
  { apply list_elem_of_In. unfold unspent_rows. apply filter_In. rewrite <- list_elem_of_In, elem_of_map_to_list. cbn [fst snd]. by rewrite Hs, bool_decide_eq_true_2. }
  split.
  - unfold get_address_utxos. apply list_elem_of_fmap. exists (row_key o, row). split; [done|]. by rewrite sorted_rows_perm.
  - unfold get_address_balance. destruct (_ <? _); [|done]. exact (rows_value_elem _ _ Hin).
Qed.

Definition queue_ok (q : option Queue) : Prop := match q with Some q => (length (queued q) ≤ INDEXER_CHANNEL_CAPACITY)%nat | None => True end.
Lemma notify_total {E} b h q : ∃ q', notify (E := E) b h q = Ok q' ∧ (queue_ok q → queue_ok q').
Proof.
  destruct q as [[l rc]|]; [|by eexists]. unfold notify, payload_from_block. rewrite header_hash_ok. cbn [obind]. eexists. split; [done|].
  unfold try_send. cbn [queued receiving]. destruct rc; [|done]. cbn [negb]. destruct (Nat.ltb_spec (length l) INDEXER_CHANNEL_CAPACITY); [|done].
  cbn [fst queue_ok queued]. rewrite length_app. cbn [length]. lia.
Qed.

(** The indexers never get in the way of the node. Whatever they do, a block
    is committed as without them; the queue of the dispatcher stays within its
    bound and is never waited for, and a block the database refuses leaves the
    index as it was. *)
Theorem indexing_never_blocks (broken : bool) (b : Block) (h : N) (work : CumulativeWork) (d : store) (ix : Indexing) :
  block_encodable b → queue_ok (handle ix) →
  match commit_block b h work d with
  | Ok d' => ∃ ix', commit_indexed broken b h work d ix = Ok (d', ix') ∧ queue_ok (handle ix') ∧
      match indexer_store ix with
      | Some x => ∃ x', indexer_store ix' = Some x' ∧ (index_of_block broken b h x = (x', Ok tt) ∨ ∃ e, index_of_block broken b h x = (x, Err e) ∧ x' = x)
      | None => indexer_store ix' = None
      end
  | Err e => commit_indexed broken b h work d ix = Err e
  | Panic => commit_indexed broken b h work d ix = Panic
  | Diverge => commit_indexed broken b h work d ix = Diverge
  end.
Proof.
  intros Hb Hq. unfold commit_indexed. destruct (commit_block b h work d) as [d'|e| |]; [|done..]. cbn [obind].
  unfold index_committed. destruct (notify_total (E := StorageError) b h (handle ix)) as (q' & -> & HQ). cbn [obind].
  destruct (indexer_store ix) as [x|]; [|eexists; split; [done|]; split; [by apply HQ|done]]. destruct (index_of_block_total broken b h x Hb) as [[x' E]|[e E]]; rewrite E; cbn [obind].
  - eexists. split; [done|]. split; [by apply HQ|]. exists x'. split; [done|]. by left.
  - eexists. split; [done|]. split; [by apply HQ|]. exists x. split; [done|]. right. by exists e.
Qed.

(** A payload that left the queue is tried at most three times, and what reaches
    the explorer keeps the order of the blocks. *)
Theorem worker_loop_spec (received : list BlockPayload) (post : BlockPayload → nat → bool) :
  worker_loop received post = List.filter (λ p, post p O || post p 1%nat || post p 2%nat) received ∧
  Forall (λ p, (send (post p)).1 ≤ MAX_RETRIES)%nat received.
Proof.
  induction received as [|p l [IH HF]]; [by split|]. cbn [worker_loop List.filter]. rewrite IH. unfold send, MAX_RETRIES. cbn [dispatch Nat.add].
  split; [by destruct (post p O), (post p 1%nat), (post p 2%nat)|]. constructor; [|done]. unfold send, MAX_RETRIES. cbn [dispatch Nat.add].
  destruct (post p O), (post p 1%nat), (post p 2%nat); cbn [fst]; lia.
Qed.

(** Storage with the genesis block alone is not caught up. *)
Theorem catchup_skips_genesis (broken : N → bool) (tip : Hash) (block_at : N → outcome NodeError (option Block)) :
  catchup_indexer broken (Ok (Some (tip, 0))) block_at empty_index = (empty_index, Ok tt).
Proof. reflexivity. Qed.
End index_events.

(** ** Witnesses *)

#[local] Existing Instance toy_blake3.
#[local] Existing Instance toy_ed25519.
#[local] Existing Instance toy_bincode.
#[local] Existing Instance toy_bech32.
#[local] Instance toy_sqlite : Sqlite := true.

(** The genesis block and one after it: the text of the address of their
    outputs. *)
Definition toy_indexed : list Block := [toy_genesis; toy_b1].
Definition toy_owner : list byte := address_text [x51].
Definition toy_index : IndexerStore := default empty_index (index_run 0 toy_indexed empty_index).
Definition toy_ledger : UtxoSet := default ∅ (ledger_run 0 toy_indexed ∅).
Definition toy_ids : list Hash := toy_txid <$> (toy_indexed ≫= transactions).

Lemma toy_indexed_runs : ledger_run 0 toy_indexed ∅ = Some toy_ledger ∧ index_run 0 toy_indexed empty_index = Some toy_index.
Proof.
  assert (H : bool_decide (is_Some (ledger_run 0 toy_indexed ∅)) && bool_decide (is_Some (index_run 0 toy_indexed empty_index)) = true)
    by (vm_compute; reflexivity).
  apply andb_true_iff in H as [H1%bool_decide_eq_true H2%bool_decide_eq_true].
  unfold toy_ledger, toy_index. destruct H1 as [s ->], H2 as [x ->]. by split.
Qed.
Lemma toy_identified : identified (toy_indexed ≫= transactions) toy_ids.
Proof. repeat constructor. Qed.
Lemma toy_ids_distinct : NoDup toy_ids.
Proof. apply (bool_decide_eq_true_1 (NoDup (A := Hash) toy_ids)). vm_compute. reflexivity. Qed.
Lemma toy_few : Forall (λ b, Forall few_outputs (transactions b)) toy_indexed.
Proof. repeat constructor; vm_compute; discriminate. Qed.
Lemma toy_no_burn script : script ∈ (toy_indexed ≫= λ b, scripts (transactions b)) → is_op_return script = true → address_text script ≠ toy_owner.
Proof.
  intros Hin Hop. exfalso. assert (H : forallb (λ script, negb (is_op_return script)) (toy_indexed ≫= λ b, scripts (transactions b)) = true)
    by (vm_compute; reflexivity).
  rewrite forallb_forall in H. apply list_elem_of_In, H in Hin. by rewrite Hop in Hin.
Qed.

Lemma index_is_ledger_witness :
  ledger_run 0 toy_indexed ∅ = Some toy_ledger ∧ index_run 0 toy_indexed empty_index = Some toy_index ∧
  let total := entries_value (ledger_entries toy_owner toy_ledger) in
  total = 2000 ∧
  get_address_balance toy_owner toy_index = (if total <? I64_LIMIT then Ok total else Err IntegerOverflow) ∧
  get_address_utxos toy_owner toy_index ≡ₚ
    (λ oe, mkAddressUtxoEntry (hash_display (op_txid oe.1)) (op_index oe.1) (value (output oe.2)) None) <$> ledger_entries toy_owner toy_ledger ∧
  Sorted (λ a a', au_vout a ≤ au_vout a') (get_address_utxos toy_owner toy_index) ∧
  get_latest_indexed_height toy_index = (if bool_decide (toy_indexed = []) then None else Some (N.of_nat (length toy_indexed) - 1)).
Proof.
  destruct toy_indexed_runs as [HL HR]. split; [exact HL|]. split; [exact HR|]. cbn zeta. split; [vm_compute; reflexivity|].
  exact (index_is_ledger toy_indexed toy_ledger toy_index toy_ids toy_owner HL HR toy_identified toy_ids_distinct toy_few toy_no_burn).
Defined.

Definition toy_block_at (h : N) : outcome NodeError (option Block) := Ok (toy_indexed !! N.to_nat h).
Definition toy_index0 : IndexerStore := default empty_index (index_run 0 [toy_genesis] empty_index).
Lemma toy_index0_run : index_run 0 [toy_genesis] empty_index = Some toy_index0.
Proof.
  assert (H : bool_decide (is_Some (index_run 0 [toy_genesis] empty_index)) = true) by (vm_compute; reflexivity).
  apply bool_decide_eq_true in H. unfold toy_index0. by destruct H as [x ->].
Qed.
Lemma toy_encodable_blocks : Forall block_encodable toy_indexed.
Proof. repeat constructor; vm_compute; discriminate. Qed.
Lemma catchup_completes_witness :
  index_run 0 [toy_genesis] empty_index = Some toy_index0 ∧
  (let '(x', r) := catchup_indexer (λ _, false) (Ok (Some (ZERO, 1))) toy_block_at toy_index0 in
   match r with
   | Ok _ => index_run 0 toy_indexed empty_index = Some x'
   | Err e => e = InconsistentState Backfill ∧ ∃ m, (1 ≤ m < 2)%nat ∧ index_run 0 (take m toy_indexed) empty_index = Some x'
   | _ => False
   end).
Proof.
  split; [exact toy_index0_run|].
  apply (catchup_completes toy_indexed 1 toy_index0 (λ _, false) ZERO toy_block_at).
  - exact toy_encodable_blocks.
  - repeat constructor.
  - left. repeat constructor.
  - exact toy_index0_run.
  - intros i _. unfold toy_block_at. rewrite Nat2N.id. reflexivity.
Defined.

(** The block at height 1 replaced by a branch of two: its coinbase output stays
    in the index. *)
Definition toy_orphan : OutPoint := mkOutPoint (default ZERO (head (drop 1 toy_ids))) 0.
Definition toy_branch : list (Block * N) := [(toy_f1, 1); (toy_f2, 2)].
Definition toy_orphan_row : UtxoRow := mkUtxoRow toy_owner 1000 None false.
Definition toy_indexing : Indexing := mkIndexing (Some (mkQueue [] true)) (Some toy_index).
Definition toy_reorganized : outcome StorageError Indexing := index_reorganization (λ _, false) toy_branch toy_indexing.
Definition toy_after_reorg : Indexing := match toy_reorganized with Ok ix => ix | _ => toy_indexing end.
Lemma toy_reorganized_ok : toy_reorganized = Ok toy_after_reorg.
Proof.
  assert (H : is_ok toy_reorganized = true) by (vm_compute; reflexivity). unfold toy_after_reorg. by destruct toy_reorganized.
Qed.
Lemma toy_orphan_indexed : index_address_utxos toy_index !! row_key toy_orphan = Some toy_orphan_row.
Proof. vm_compute. reflexivity. Qed.
Definition alone_test (o : OutPoint) (tx : Transaction) : bool :=
  negb (bool_decide (toy_txid tx = op_txid o)) && negb (bool_decide (o ∈ previous_output <$> inputs tx)) &&
  (N.of_nat (length (outputs tx)) <=? MOD32) && match txid (E := SqlError) tx with Ok id => bool_decide (id = toy_txid tx) | _ => false end.
Lemma alone_test_spec o tx : alone_test o tx = true → leaves_alone o tx.
Proof.
  unfold alone_test. intros H. apply andb_true_iff in H as [H Hid]. apply andb_true_iff in H as [H Hl%N.leb_le].
  apply andb_true_iff in H as [H1%negb_true_iff%bool_decide_eq_false H2%negb_true_iff%bool_decide_eq_false].
  split; [|by split]. destruct (txid tx); [|done..]. apply bool_decide_eq_true in Hid as ->. by intros [= ?].
Qed.
Lemma toy_alone : Forall (λ bh, Forall (leaves_alone toy_orphan) (transactions bh.1)) toy_branch.
Proof.
  assert (H : forallb (λ bh, forallb (alone_test toy_orphan) (transactions bh.1)) toy_branch = true) by (vm_compute; reflexivity).
  apply Forall_forall. intros bh Hin. rewrite forallb_forall in H. apply list_elem_of_In, H in Hin. rewrite forallb_forall in Hin.
  apply Forall_forall. intros tx Htx. by apply alone_test_spec, Hin, list_elem_of_In.
Qed.
Lemma orphan_counted_witness :
  index_address_utxos toy_index !! row_key toy_orphan = Some toy_orphan_row ∧
  ∃ x', indexer_store toy_after_reorg = Some x' ∧
    mkAddressUtxoEntry (hash_display (op_txid toy_orphan)) 0 1000 None ∈ get_address_utxos toy_owner x' ∧
    match get_address_balance toy_owner x' with Ok balance => 1000 ≤ balance | _ => True end.
Proof.
  split; [exact toy_orphan_indexed|].
  exact (orphan_counted toy_orphan toy_orphan_row (λ _, false) toy_branch toy_indexing toy_after_reorg toy_index
           eq_refl toy_orphan_indexed eq_refl toy_alone toy_reorganized_ok).
Defined.

#[local] Existing Instances toy_redb toy_redb_laws.
Lemma indexing_never_blocks_witness :
  block_encodable toy_genesis ∧
  match commit_block (BlockStore := StorageEngine) toy_genesis 0 Work_zero empty_tables with
  | Ok d' => ∃ ix', commit_indexed (BS := StorageEngine) true toy_genesis 0 Work_zero empty_tables toy_indexing = Ok (d', ix') ∧
      queue_ok (handle ix')
  | _ => False
  end.
Proof.
  assert (Hb : block_encodable toy_genesis) by exact (proj1 (Forall_cons_1 _ _ _ toy_encodable_blocks)). split; [exact Hb|].
  assert (Hok : is_ok (commit_block (BlockStore := StorageEngine) toy_genesis 0 Work_zero empty_tables) = true) by (vm_compute; reflexivity).
  pose proof (indexing_never_blocks (BS := StorageEngine) true toy_genesis 0 Work_zero empty_tables toy_indexing Hb (Nat.le_0_l _)) as H.
  revert Hok H. generalize (commit_block (BlockStore := StorageEngine) toy_genesis 0 Work_zero empty_tables). intros r Hok H.
  destruct r as [d'|e| |]; [|discriminate Hok..]. destruct H as (ix' & H1 & H2 & _). exists ix'. split; [exact H1|exact H2].
Defined.
