(* ===== verification/Sync.v ===== *)
(** * Block download between nodes

    [apps/scytale-node/src/network/sync.rs], the limits on requests of
    [network/p2p.rs] and the task of [main.rs] that handles what the network
    delivers: how a node that hears of a higher peer fetches its chain, and how
    the peer answers. One message is one step on the node and its
    synchronisation state; what the task sends is the list of its effects. The
    messages are carried by [bincode] and by the frames of [SyncCodec]; the first
    is the class [SyncWire]. *)

From S2P Require Import Prelude Bytes Primitives Types Codec Transaction Utxo Merkle Genesis.
From S2P Require Import Words Target Work Tables Storage StorageSpec Store Stack Script Authorization Mempool MempoolInv.
From S2P Require Import MempoolSpec Consensus Chain Vm VmAdapter Mining ChainReplay Node Recovery NodeQuery.
Local Open Scope N_scope.
Local Open Scope scy_scope.

(** ** The synchronisation state *)

Inductive SyncState :=
| Synced
| Syncing (target_height current_height : N).

Definition is_syncing (s : SyncState) : bool := match s with Syncing _ _ => true | Synced => false end.

(** The state after a peer at [peer_height] was seen, and whether a download
    starts. *)
Definition observe_peer (local_height peer_height : N) (s : SyncState) : SyncState * bool :=
  if peer_height <=? local_height then (s, false)
  else
    match s with
    | Synced => (Syncing peer_height local_height, true)
    | Syncing target current => (Syncing (N.max target peer_height) current, false)
    end.

Definition advance (current_height : N) (s : SyncState) : SyncState * bool :=
  match s with
  | Synced => (s, false)
  | Syncing target _ => if target <=? current_height then (Synced, true) else (Syncing target current_height, false)
  end.

(** ** Messages and frames *)

Inductive SyncRequest :=
| GetHeaders (start_height limit : N)
| GetBlocks (hashes : list Hash).
Inductive SyncResponse :=
| Headers (hashes : list Hash)
| Blocks (blocks : list (list byte)).

Definition MAX_SYNC_MESSAGE : N := 16 * 1024 * 1024.
Definition MAX_BLOCK_PAYLOAD : N := 2 * 1024 * 1024.
Definition MAX_TRANSACTION_PAYLOAD : N := 100 * 1024.
Definition MAX_SYNC_REQUEST : N := 64 * 1024.
Definition IBD_BATCH_SIZE : N := 100.

Inductive FrameError := UnexpectedEof | FrameTooLarge.

(** A frame: the length in four bytes, big-endian, then the data; the rest of
    the stream is what follows. *)
Definition read_frame (max_size : N) (io : list byte) : outcome FrameError (list byte * list byte) :=
  if (length io <? 4)%nat then Err UnexpectedEof
  else
    let length_ := be_val (take 4 io) in
    let io := drop 4 io in
    if max_size <? length_ then Err FrameTooLarge
    else if (length io <? N.to_nat length_)%nat then Err UnexpectedEof
    else Ok (take (N.to_nat length_) io, drop (N.to_nat length_) io).
Definition write_frame (max_size : N) (data : list byte) : outcome FrameError (list byte) :=
  if max_size <? N.of_nat (length data) then Err FrameTooLarge
  else Ok (be_bytes 4 (wrap32 (N.of_nat (length data))) ++ data).

(** [bincode::serialize] and [bincode::deserialize] on the messages. *)
Class SyncWire := {
  encode_request : SyncRequest → list byte;
  decode_request : list byte → option SyncRequest;
  encode_response : SyncResponse → list byte;
  decode_response : list byte → option SyncResponse
}.
(** The integers and the lengths of a message fit their types. *)
Definition request_wf (r : SyncRequest) : Prop :=
  match r with
  | GetHeaders start_height limit => start_height < MOD64 ∧ limit < MOD32
  | GetBlocks hashes => N.of_nat (length hashes) < MOD64
  end.
Definition response_wf (r : SyncResponse) : Prop :=
  match r with
  | Headers hashes => N.of_nat (length hashes) < MOD64
  | Blocks blocks => N.of_nat (length blocks) < MOD64 ∧ Forall (λ b, N.of_nat (length b) < MOD64) blocks
  end.
Class SyncWireLaws {W : SyncWire} := {
  decode_encode_request r : request_wf r → decode_request (encode_request r) = Some r;
  decode_encode_response r : response_wf r → decode_response (encode_response r) = Some r
}.

(** A message on its way: framed, read and decoded. It is lost when it does not
    fit a frame. *)
Section carriage.
Context {W : SyncWire}.
Definition carry {A} (max_size : N) (decode : list byte → option A) (data : list byte) : option A :=
  match write_frame max_size data with
  | Ok io => match read_frame max_size io with Ok (data, _) => decode data | _ => None end
  | _ => None
  end.
Definition carry_request (r : SyncRequest) : option SyncRequest := carry MAX_SYNC_REQUEST decode_request (encode_request r).
Definition carry_response (r : SyncResponse) : option SyncResponse :=
  carry MAX_SYNC_MESSAGE decode_response (encode_response r).
End carriage.

(** ** Limits on the requests of a peer *)

Definition MAX_REQUESTS_PER_PEER_PER_SECOND : nat := 5.
Definition MAX_GET_BLOCKS_HASHES : N := 100.
(** Times are in nanoseconds. *)
Definition ONE_SECOND : N := 1000000000.

Definition within_batch (r : SyncRequest) : bool :=
  match r with
  | GetBlocks hashes => N.of_nat (length hashes) <=? MAX_GET_BLOCKS_HASHES
  | GetHeaders _ limit => limit <=? MAX_GET_BLOCKS_HASHES
  end.

(** The window of the peer after the request, and whether the request is handed
    on. *)
Definition admit_request (now : N) (r : SyncRequest) (window : list N) : list N * bool :=
  let window := filter (λ timestamp, now - timestamp < ONE_SECOND) window in
  let within_rate := (length window <? MAX_REQUESTS_PER_PEER_PER_SECOND)%nat in
  if within_rate && within_batch r then (window ++ [now], true) else (window, false).

(** What a refused request is answered. *)
Definition empty_response (r : SyncRequest) : SyncResponse :=
  match r with GetHeaders _ _ => Headers [] | GetBlocks _ => Blocks [] end.

(** ** The task that handles messages *)

(** [ok] for a computation. *)
Definition caught {S E F A} (m : stM S E A) : stM S F (option A) := λ s, let '(s, r) := m s in (s, ok r).

Section daemon.
Context {B3 : Blake3} {ED : Ed25519} {BC : Bincode} {WM : Wasmi} {PC : Payload TxContext} {BS : BlockStore}.
Context (Peer : Type).

Inductive P2pInbound :=
| PeerStatus (peer : Peer) (best_height : N)
| InboundBlock (bytes : list byte)
| InboundTransaction (bytes : list byte)
| InboundRequest (peer : Peer) (request : SyncRequest)
| InboundResponse (peer : Peer) (response : SyncResponse).

Inductive Effect :=
| SendRequest (peer : Peer) (request : SyncRequest)
| Respond (peer : Peer) (response : SyncResponse)
| StopMining
| StartMining.

(** The answer to a request, from what is on disk. *)
Definition serve (r : SyncRequest) (d : store) : outcome NodeError SyncResponse :=
  match r with
  | GetHeaders start_height limit =>
      let? hashes := ok (get_canonical_hashes d) in
      Ok (Headers (take (N.to_nat (N.min limit IBD_BATCH_SIZE)) (drop (N.to_nat start_height) (default [] hashes))))
  | GetBlocks hashes =>
      let? blocks := omap_list (λ hash,
        let? found := ok (stored_block hash d) in
        match mjoin found with
        | Some b => ok (to_canonical_bytes b)
        | None => Ok None
        end) (take 100 hashes) in
      Ok (Blocks (omap Datatypes.id blocks))
  end.

(** The clock, read at each block and for transactions. *)
Record Clock := mkClock { clock_now : Block → option N; clock_later : Block → N; clock_tx : N }.
Context (clock : Clock) (mining_enabled : bool).

(** The loop over the blocks of a response: how many were accepted. It stops at
    the first block that does not extend the tip or is refused, and skips what
    it cannot read. *)
Fixpoint accept_blocks (blocks : list (list byte)) (accepted : N) : nodeM N :=
  match blocks with
  | [] => sret accepted
  | bytes :: blocks =>
      if MAX_BLOCK_PAYLOAD <? N.of_nat (length bytes) then accept_blocks blocks accepted
      else
        let! block := slift (ok (from_canonical_bytes (A := Block) bytes)) in
        match block with
        | None => accept_blocks blocks accepted
        | Some block =>
            let! s := sget in
            if negb (bool_decide (previous_block_hash (header block) = canonical_tip (chain_tree s)))
            then sret accepted
            else
              let! r := caught (submit_external_block (clock_now clock block) (clock_later clock block) block) in
              match r with
              | Some _ => accept_blocks blocks (accepted + 1)
              | None => sret accepted
              end
        end
  end.

Record Daemon := mkDaemon { d_node : Shared; d_sync : SyncState }.
Definition daemonM := stM Daemon NodeError.

(** A step of the node, and one of the synchronisation state. *)
Definition on_node {A} (m : nodeM A) : daemonM A := λ d,
  let '(s, r) := m (d_node d) in (mkDaemon s (d_sync d), r).
Definition on_sync {A} (f : SyncState → SyncState * A) : daemonM A := λ d,
  let '(s, a) := f (d_sync d) in (mkDaemon (d_node d) s, Ok a).

Definition handle_status (peer : Peer) (best_height : N) : daemonM (list Effect) :=
  let! d := sget in
  let local_height := canonical_height (chain_tree (d_node d)) in
  let! should_start := on_sync (observe_peer local_height best_height) in
  sret (if should_start : bool
        then [StopMining; SendRequest peer (GetHeaders (saturating_add local_height 1) IBD_BATCH_SIZE)]
        else []).

Definition handle_block (bytes : list byte) : daemonM (list Effect) :=
  let! d := sget in
  if is_syncing (d_sync d) || (MAX_BLOCK_PAYLOAD <? N.of_nat (length bytes)) then sret []
  else
    let! block := slift (ok (from_canonical_bytes (A := Block) bytes)) in
    match block with
    | Some block =>
        let! _ := on_node (caught (E := NodeError) (submit_external_block (clock_now clock block) (clock_later clock block) block)) in
        sret []
    | None => sret []
    end.

Definition handle_transaction (bytes : list byte) : daemonM (list Effect) :=
  let! d := sget in
  if is_syncing (d_sync d) || (MAX_TRANSACTION_PAYLOAD <? N.of_nat (length bytes)) then sret []
  else
    let! tx := slift (ok (from_canonical_bytes (A := Transaction) bytes)) in
    match tx with
    | Some tx =>
        let! _ := on_node (caught (E := NodeError) (submit_transaction (clock_tx clock) tx)) in
        sret []
    | None => sret []
    end.

Definition handle_request (peer : Peer) (r : SyncRequest) : daemonM (list Effect) :=
  let! d := sget in
  let! response := slift (serve r (disk (d_node d))) in
  sret [Respond peer response].

Definition handle_headers (peer : Peer) (hashes : list Hash) : daemonM (list Effect) :=
  let! d := sget in
  sret (if negb (bool_decide (hashes = [])) && is_syncing (d_sync d)
        then [SendRequest peer (GetBlocks hashes)] else []).

Definition handle_blocks (peer : Peer) (blocks : list (list byte)) : daemonM (list Effect) :=
  let! accepted := on_node (accept_blocks blocks 0) in
  let! d := sget in
  let current_height := canonical_height (chain_tree (d_node d)) in
  let! completed := on_sync (advance current_height) in
  sret (if completed : bool then (if mining_enabled then [StartMining] else [])
        else if 0 <? accepted
             then [SendRequest peer (GetHeaders (saturating_add current_height 1) IBD_BATCH_SIZE)]
             else []).

Definition inbound (m : P2pInbound) : daemonM (list Effect) :=
  match m with
  | PeerStatus peer best_height => handle_status peer best_height
  | InboundBlock bytes => handle_block bytes
  | InboundTransaction bytes => handle_transaction bytes
  | InboundRequest peer request => handle_request peer request
  | InboundResponse peer (Headers hashes) => handle_headers peer hashes
  | InboundResponse peer (Blocks blocks) => handle_blocks peer blocks
  end.
Fixpoint inbounds (ms : list P2pInbound) : daemonM (list Effect) :=
  match ms with
  | [] => sret []
  | m :: ms => let! effects := inbound m in let! more := inbounds ms in sret (effects ++ more)
  end.

(** ** The conversation of a download *)

(** The answer of a peer with the contents [d] to a request that arrives at
    [now], and the window it keeps. *)
Definition answer (d : store) (now : N) (r : SyncRequest) (window : list N) : list N * outcome NodeError SyncResponse :=
  let '(window, admitted) := admit_request now r window in
  (window, if admitted : bool then serve r d else Ok (empty_response r)).

Definition next_request (effects : list Effect) : option SyncRequest :=
  head (omap (λ e, match e with SendRequest _ r => Some r | _ => None end) effects).

(** The node and one peer, from a request of the node on: each request arrives at
    the next of the times, is answered, and the response handled, until the
    response leads to no request. *)
Fixpoint converse {W : SyncWire} (peer : Peer) (d : store) (times : list N) (window : list N) (r : SyncRequest) :
    daemonM (list Effect) :=
  match times with
  | [] => sret [SendRequest peer r]
  | now :: times =>
      match carry_request r with
      | None => sret []
      | Some r =>
          let '(window, response) := answer d now r window in
          let! response := slift response in
          match carry_response response with
          | None => sret []
          | Some response =>
              let! effects := inbound (InboundResponse peer response) in
              match next_request effects with
              | Some r => converse peer d times window r
              | None => sret effects
              end
          end
      end
  end.
End daemon.
Arguments PeerStatus {Peer}.
Arguments InboundBlock {Peer}.
Arguments InboundTransaction {Peer}.
Arguments InboundRequest {Peer}.
Arguments InboundResponse {Peer}.
Arguments SendRequest {Peer}.
Arguments Respond {Peer}.
Arguments StopMining {Peer}.
Arguments StartMining {Peer}.
Arguments inbound {_ _ _ _ _ _ Peer}.
Arguments inbounds {_ _ _ _ _ _ Peer}.
Arguments converse {_ _ _ _ _ _ Peer} clock mining_enabled {_}.

(** ** Frames and windows *)

(** A frame that was written within the limit reads back, whatever follows it;
    and a frame that reads was written within the limit. *)
Lemma frame_roundtrip max_size data rest :
  max_size < MOD32 →
  (∀ io, write_frame max_size data = Ok io → read_frame max_size (io ++ rest) = Ok (data, rest)) ∧
  (∀ io, read_frame max_size io = Ok (data, rest) → ∃ frame, write_frame max_size data = Ok frame ∧ io = frame ++ rest).
Proof.
  intros Hmax. unfold write_frame, read_frame. split.
  - intros io. destruct (N.ltb_spec max_size (N.of_nat (length data))); [done|]. intros <-%Ok_inj.
    assert (H4 : length (be_bytes 4 (wrap32 (N.of_nat (length data)))) = 4%nat) by apply length_be_bytes.
    rewrite <- app_assoc. destruct (Nat.ltb_spec (length (be_bytes 4 (wrap32 (N.of_nat (length data))) ++ data ++ rest)) 4) as [HL|_].
    { rewrite length_app, H4 in HL. lia. }
    rewrite take_app_length', drop_app_length' by exact H4.
    rewrite be_val_be_bytes, wrap32_small, N.mod_small by (cbn; lia).
    destruct (N.ltb_spec max_size (N.of_nat (length data))); [lia|]. rewrite Nat2N.id.
    destruct (Nat.ltb_spec (length (data ++ rest)) (length data)) as [HL|_]; [rewrite length_app in HL; lia|].
    by rewrite take_app_length, drop_app_length.
  - intros io. destruct (Nat.ltb_spec (length io) 4) as [|H4]; [done|].
    destruct (N.ltb_spec max_size (be_val (take 4 io))) as [|Hm]; [done|].
    destruct (Nat.ltb_spec (length (drop 4 io)) (N.to_nat (be_val (take 4 io)))) as [|Hl]; [done|].
    intros [= <- <-]. rewrite length_take_le by lia. rewrite N2Nat.id.
    destruct (N.ltb_spec max_size (be_val (take 4 io))); [lia|]. eexists. split; [done|].
    rewrite wrap32_small by lia. rewrite <- app_assoc, take_drop.
    rewrite (be_bytes_be_val 4) by (rewrite length_take; lia). by rewrite take_drop.
Qed.

Lemma filter_whole {A} (P : A → Prop) `{∀ x, Decision (P x)} (l : list A) : Forall P l → filter P l = l.
Proof. induction 1 as [|x l Hx _ IH]; [done|]. by rewrite filter_cons_True, IH. Qed.

(** Within a second, a peer gets five answers. *)
Lemma window_full now r window :
  length window = MAX_REQUESTS_PER_PEER_PER_SECOND → Forall (λ t, now - t < ONE_SECOND) window →
  admit_request now r window = (window, false).
Proof.
  intros Hl HF. unfold admit_request. rewrite filter_whole by done. rewrite Hl. done.
Qed.
Lemma window_open now r window :
  (length window < MAX_REQUESTS_PER_PEER_PER_SECOND)%nat → within_batch r = true →
  Forall (λ t, now - t < ONE_SECOND) window → admit_request now r window = (window ++ [now], true).
Proof.
  intros Hl Hr HF. unfold admit_request. rewrite filter_whole by done.
  by rewrite Hr, (proj2 (Nat.ltb_lt _ _) Hl).
Qed.

(** ** A block of the peer is taken on the tip *)

Lemma tip_keeps_branch {B3 : Blake3} {V : BlockTransactionVerifier} st b st' r path :
  step_result st b st' (Ok (Some r)) → ledger (nodes st.1) (canonical_tip st.1) path st.2 →
  previous_block_hash (header b) = canonical_tip st.1 → disconnected_blocks r = [].
Proof.
  intros Hstep _ Hp. inversion Hstep as [| | | |n common m da db s s' txs Hext Hb Hw HLa Hdb Hd Hv Hcn Htx]; subst.
  cbn [disconnected_blocks]. pose proof (ext_ledger _ _ _ _ _ Hext) as HL.
  rewrite (ext_parent _ _ _ _ _ Hext), Hp in HL. destruct (ledger_det _ _ _ _ _ _ HL HLa) as [E _].
  apply app_inv_head in E as [= ->]. destruct da as [|x da]; [done|].
  apply Forall_cons in Hdb as [Hx _]. destruct Hx. set_solver.
Qed.

(** *** What the wire carries *)

Section wire.
Context {W : SyncWire} {WL : SyncWireLaws}.

Lemma carry_fits {A} max_size (decode : list byte → option A) data :
  max_size < MOD32 → N.of_nat (length data) ≤ max_size → carry max_size decode data = decode data.
Proof.
  intros Hm Hl. unfold carry. destruct (write_frame max_size data) as [io|e| |] eqn:E.
  - destruct (frame_roundtrip max_size data [] Hm) as [HR _]. specialize (HR io E). rewrite app_nil_r in HR. by rewrite HR.
  - unfold write_frame in E. destruct (N.ltb_spec max_size (N.of_nat (length data))); [lia|done].
  - unfold write_frame in E. by destruct (_ <? _).
  - unfold write_frame in E. by destruct (_ <? _).
Qed.
Lemma carry_request_fits r :
  request_wf r → N.of_nat (length (encode_request r)) ≤ MAX_SYNC_REQUEST → carry_request r = Some r.
Proof. intros Hr Hl. unfold carry_request. rewrite carry_fits by done. by apply decode_encode_request. Qed.
Lemma carry_response_fits r :
  response_wf r → N.of_nat (length (encode_response r)) ≤ MAX_SYNC_MESSAGE → carry_response r = Some r.
Proof. intros Hr Hl. unfold carry_response. rewrite carry_fits by done. by apply decode_encode_response. Qed.
(** Data too long for a frame is lost. *)
Lemma carry_too_long {A} max_size (decode : list byte → option A) data :
  max_size < N.of_nat (length data) → carry max_size decode data = None.
Proof. intros Hl. unfold carry, write_frame. by rewrite (proj2 (N.ltb_lt _ _) Hl). Qed.
End wire.

(** Whether a request at [now] is within the rate, and the window after it. *)
Definition recent (now : N) (window : list N) : list N := filter (λ timestamp, now - timestamp < ONE_SECOND) window.
Definition tick (now : N) (window : list N) : list N := recent now window ++ [now].
Definition open (now : N) (window : list N) : Prop := (length (recent now window) < MAX_REQUESTS_PER_PEER_PER_SECOND)%nat.
Fixpoint rate_ok (times : list N) (window : list N) : Prop :=
  match times with
  | [] => True
  | now :: times => open now window ∧ rate_ok times (tick now window)
  end.
Lemma admit_open now r window :
  open now window → within_batch r = true → admit_request now r window = (tick now window, true).
Proof. intros Ho Hr. unfold admit_request, tick. fold (recent now window). by rewrite Hr, (proj2 (Nat.ltb_lt _ _) Ho). Qed.

Section catch_up.
Context {B3 : Blake3} {ED : Ed25519} {BC : Bincode} {WM : Wasmi} {PC : Payload TxContext} {BS : BlockStore} {SL : BlockStoreLaws}.
#[local] Existing Instance NodeBlockVerifier.

(** The store files these blocks, one after the other. *)
Fixpoint files (blocks : list BlockNode) (d : store) : Prop :=
  match blocks with
  | [] => True
  | n :: blocks => ∀ work, work_wf work → ∃ d', commit_block (node_block n) (height n) work d = Ok d' ∧ files blocks d'
  end.

Context (genesis : BlockNode) (k : N) (peer : Shared) (clock : Clock).
Notation ns := (nodes (chain_tree peer)).
Hypotheses (Hinv : node_inv genesis k peer) (Htree : tree_inv (chain_of peer)) (Hk : k < U64_MAX).

(** A node whose tree is the first part [p] of the path of the peer, and whose
    store can file the rest. *)
Record follows (s : Shared) (p rest : list BlockNode) : Prop := {
  fo_linear : linear genesis (chain_of peer) (chain_of s) p;
  fo_pool : MempoolTheorems.sound (mempool s);
  fo_store : files rest (disk s)
}.

(** A block the network can carry and the clock of the node allows; its
    coinbase states its height. *)
Definition small (n : BlockNode) : Prop :=
  ∀ bytes, to_canonical_bytes (node_block n) = Ok bytes → N.of_nat (length bytes) ≤ MAX_BLOCK_PAYLOAD.
Record downloadable (n : BlockNode) : Prop := {
  dl_clock : clock_ok (clock_now clock) (node_block n);
  dl_height : stated_height (node_block n) = height n;
  dl_size : small n
}.

(** What the tree of the node has checked is what its own validation asks. *)
Lemma connectable_validates n u0 u fees mtp :
  authoritative (node_block n) (height n) u0 mtp fees u → connectable n u0 u → stated_height (node_block n) = height n →
  validate_and_root (node_block n) (height n) u0 = Ok u.
Proof.
  intros (_ & _ & _ & HB & _) [Hver Hroot] Hst. unfold validate_and_root.
  destruct (validate_block_step (node_block n) (height n) (timestamp (header (node_block n))) _ _ _ HB) as (cb & rest & s1 & _ & _ & HV).
  unfold verify_block_transactions, NodeBlockVerifier in Hver. apply map_err_Ok in Hver. rewrite Hst in Hver.
  destruct (validate_block_transactions _ _ _ u0) as [u1 r] eqn:E. cbn [snd] in Hver. subst r.
  destruct (proj1 (HV u1) eq_refl) as [-> _].
  cbn [obind]. unfold check_root, compute_utxo_root, utxo_root_of in *. rewrite (merkle_root_cast _ _ Hroot). cbn [obind].
  by rewrite bool_decide_eq_true_2.
Qed.

Lemma submit_link h n p rest u0 u fees s :
  ns !! h = Some n → height n ≠ 0 → ledger ns (parent_hash n) p u0 → ledger ns h (p ++ [n]) u →
  authoritative (node_block n) (height n) u0 (mtp_of p) fees u → connectable n u0 u →
  follows s p (n :: rest) → canonical_tip (chain_tree s) = parent_hash n → downloadable n →
  ∃ s', submit_external_block (clock_now clock (node_block n)) (clock_later clock (node_block n)) (node_block n) s = (s', Ok true) ∧
    follows s' (p ++ [n]) rest ∧ canonical_tip (chain_tree s') = h ∧ utxo_set s' = u.
Proof.
  intros Hn Hh0 HLp HL HA HC [Hlin Hpool Hst] Htip [Hclock Hheight _]. pose proof (inv_nodes _ _ _ (ni_chain _ _ _ Hinv)) as Hwf.
  destruct (replay_link genesis k (chain_of peer) (ni_chain _ _ _ Hinv) Htree Hk (clock_now clock) h n p u0 u fees (chain_of s)
    Hn Hh0 HLp HL HA HC Hlin Htip Hclock) as (st' & r & Hrun & Hlin' & Htip' & Hu' & _).
  set (b := node_block n) in *. destruct (Hwf _ _ Hn) as (E1 & E2 & E3 & He & _ & _ & Hlk).
  destruct (Hlk Hh0) as (q & Hq & Eh & _). cbn [chain_of fst] in Hq.
  assert (Hq1 : nodes (chain_tree s) !! canonical_tip (chain_tree s) = Some q).
  { destruct (ledger_lookup _ _ _ _ (li_path _ _ _ _ Hlin)) as (q' & _ & Hq' & _). cbn [chain_of fst] in Hq'. rewrite Hq'. f_equal.
    pose proof (lookup_weaken _ _ _ _ Hq' (li_sub _ _ _ _ Hlin)) as H1. cbn [chain_of fst] in H1. rewrite Htip in H1. congruence. }
  assert (Hh64 : height n < MOD64) by (pose proof (inv_height _ _ _ (ni_chain _ _ _ Hinv) _ _ Hn); lia).
  assert (Hu0 : utxo_set s = u0).
  { pose proof (ledger_mono _ _ _ _ _ (li_sub _ _ _ _ Hlin) (li_path _ _ _ _ Hlin)) as HL0. cbn [chain_of fst snd] in HL0.
    rewrite Htip in HL0. by destruct (ledger_det _ _ _ _ _ _ HL0 HLp). }
  unfold submit_external_block. rewrite sbind_sget, header_hash_ok, sbind_lift_Ok.
  assert (HM : ∀ id, is_block_invalid (chain_tree s) id = false).
  { intros id. unfold is_block_invalid. rewrite (li_marks _ _ _ _ Hlin : invalid_blocks (chain_tree s) = ∅).
    apply bool_decide_eq_false_2. set_solver. }
  rewrite !HM. cbn [orb].
  assert (Hpre : prevalidate b s = Ok tt).
  { unfold prevalidate. rewrite bool_decide_eq_true_2 by by rewrite Htip, E3. unfold canonical_height. rewrite Hq1. cbn [from_option].
    rewrite <- Eh, wrap64_small, Hu0 by done.
    pose proof (connectable_validates n u0 u fees (mtp_of p) HA HC Hheight) as HVR. fold b in HVR. by rewrite HVR. }
  rewrite Hpre, sbind_lift_Ok.
  assert (HP : process (clock_now clock b) b s = (with_chain st' s, Ok (Some r))) by (unfold process; by rewrite Hrun).
  rewrite (sbind_run _ _ _ _ _ HP), sbind_sget.
  assert (Hdis : disconnected_blocks r = []).
  { pose proof (process_step genesis _ (chain_of s) (clock_now clock b) b (li_inv _ _ _ _ Hlin)) as HSt.
    unfold stepped in HSt. rewrite Hrun in HSt. eapply tip_keeps_branch; [apply HSt| |].
    - pose proof (inv_height _ _ _ (ni_chain _ _ _ Hinv) _ _ Hn). pose proof (ledger_heights genesis _ Hwf _ _ _ _ _ HL (list_lookup_middle p [] n _ eq_refl)). lia.
    - exact He.
    - exact (li_path _ _ _ _ Hlin).
    - cbn [chain_of fst]. by rewrite Htip, E3. }
  assert (Hchain : chain_tree (with_chain st' s) = st'.1) by done.
  assert (Hct : canonical_height (chain_tree (with_chain st' s)) = height n).
  { rewrite Hchain. destruct (ledger_lookup _ _ _ _ (li_path _ _ _ _ Hlin')) as (m & _ & Hm & _). unfold canonical_height. rewrite Hm.
    cbn [from_option]. pose proof (lookup_weaken _ _ _ _ Hm (li_sub _ _ _ _ Hlin')) as Hm'. cbn [chain_of fst] in Hm'. rewrite Htip' in Hm'.
    congruence. }
  unfold finish_block. rewrite sbind_assoc, sbind_sget, bool_decide_eq_true_2, Hct by done.
  assert (Hwork : work_wf (canonical_work (chain_tree (with_chain st' s)))).
  { rewrite Hchain. destruct (ledger_lookup _ _ _ _ (li_path _ _ _ _ Hlin')) as (m & _ & Hm & _). unfold canonical_work. rewrite Hm.
    cbn [from_option]. by destruct (inv_nodes _ _ _ (li_inv _ _ _ _ Hlin') _ _ Hm) as (_ & _ & _ & _ & ? & _). }
  destruct (Hst _ Hwork) as (d' & Hcommit & Hd'). fold b in Hcommit.
  assert (HW : write_store (chain_of s) (commit_block b (height n) (canonical_work (chain_tree (with_chain st' s)))) (with_chain st' s)
    = (with_disk d' (with_chain st' s), Ok tt)) by (unfold write_store; cbn [disk with_chain] in *; by rewrite Hcommit).
  rewrite sbind_assoc, (sbind_run _ _ _ _ _ HW).
  assert (Htxs : Forall pool_tx (transactions b)) by exact (ni_txs _ _ _ Hinv _ _ Hn).
  destruct (on_block_connected_cases b (utxo_set (with_chain st' s)) (mempool s) Htxs (proj1 Hpool)) as (ids & q2 & E & _).
  rewrite (sbind_run _ _ _ _ _ (on_pool_run _ (with_disk d' (with_chain st' s)) _ _ E)).
  eexists. split; [done|]. destruct st' as [t' u']. cbn in Htip', Hu'. split; [|by split].
  split; [exact Hlin'| |exact Hd']. eapply MempoolTheorems.event_sound; [|exact Hpool]. by eapply MempoolTheorems.event_block.
Qed.

(** ** A batch *)

Context (path : list BlockNode) (Hpath : ledger ns (canonical_tip (chain_tree peer)) path (utxo_set peer)).

Lemma follow_step s p n rest :
  path = p ++ n :: rest → follows s p (n :: rest) → downloadable n →
  previous_block_hash (header (node_block n)) = canonical_tip (chain_tree s) ∧
  ∃ s', submit_external_block (clock_now clock (node_block n)) (clock_later clock (node_block n)) (node_block n) s = (s', Ok true) ∧
    follows s' (p ++ [n]) rest.
Proof.
  intros Ep Hf Hd. pose proof (inv_nodes _ _ _ (ni_chain _ _ _ Hinv)) as Hwf. cbn [chain_of fst] in Hwf.
  pose proof (ledger_mono _ _ _ _ _ (li_sub _ _ _ _ (fo_linear _ _ _ Hf)) (li_path _ _ _ _ (fo_linear _ _ _ Hf))) as HL0.
  cbn [chain_of fst snd] in HL0. destruct (ledger_key genesis _ Hwf _ _ _ HL0) as (p0 & m & E0 & Hm & _).
  pose proof Hpath as HP. rewrite Ep in HP.
  destruct (ledger_prefix genesis _ Hwf _ _ _ _ _ HP) as [v Hv].
  assert (Hne : p ≠ []) by (rewrite E0; by destruct p0).
  inversion Hv as [h1 n1 v1 f1 Hn1 Hh1 HA1 Eh E Eu|h1 n1 q1 v0 v1 f1 Hn1 Hh1 HL1 HA1 Eh E Eu]; subst h1 v1.
  { exfalso. apply Hne. by destruct p as [|? [|]]. }
  apply app_inj_tail in E as [-> ->].
  destruct (ledger_key genesis _ Hwf _ _ _ HL1) as (p2 & m2 & E2 & Hm2 & _).
  assert (Htip : canonical_tip (chain_tree s) = parent_hash n).
  { rewrite E0 in E2. apply app_inj_tail in E2 as [_ ->]. congruence. }
  destruct (Hwf _ _ Hn1) as (_ & _ & E3 & _). split; [by rewrite Htip, E3|].
  destruct (verified_path genesis _ _ _ _ p n rest Hwf (inv_verified _ _ _ (ni_chain _ _ _ Hinv)) Hpath Ep Hne)
    as (s1 & s2 & HLc & HLn & HC).
  cbn [chain_of fst] in HLc, HLn. destruct (ledger_det _ _ _ _ _ _ HLc HL1) as [_ ->].
  destruct (ledger_det _ _ _ _ _ _ HLn Hv) as [_ ->].
  destruct (submit_link (node_hash n) n p rest v0 v f1 s Hn1 Hh1 HL1 Hv HA1 HC Hf Htip Hd) as (s' & E & Hf' & _).
  by exists s'.
Qed.

(** The bytes of the blocks of a part of the path. *)
Definition carried (seg : list BlockNode) (blocks : list (list byte)) : Prop :=
  Forall2 (λ n bytes, to_canonical_bytes (node_block n) = Ok bytes) seg blocks.

Lemma path_codec n : n ∈ path → block_codec_wf (node_block n) ∧ ns !! node_hash n = Some n.
Proof.
  intros Hn. pose proof (inv_nodes _ _ _ (ni_chain _ _ _ Hinv)) as Hwf.
  pose proof (ledger_elem genesis _ Hwf _ _ _ _ Hpath Hn) as Hl. split; [|exact Hl]. exact (ti_codec _ Htree _ _ Hl).
Qed.

Lemma accept_batch seg : ∀ p rest blocks s acc,
  path = p ++ seg ++ rest → follows s p (seg ++ rest) → Forall downloadable seg → carried seg blocks →
  ∃ s', accept_blocks clock blocks acc s = (s', Ok (acc + N.of_nat (length seg))) ∧ follows s' (p ++ seg) rest.
Proof.
  induction seg as [|n seg IH]; intros p rest blocks s acc Ep Hf Hd Hb.
  { apply Forall2_nil_inv_l in Hb as ->. exists s. rewrite N.add_0_r, app_nil_r. split; [done|exact Hf]. }
  apply Forall2_cons_inv_l in Hb as (bytes & blocks' & Hbytes & Hb' & ->). apply Forall_cons in Hd as [Hn Hd].
  destruct (follow_step s p n (seg ++ rest) Ep Hf Hn) as (Hpar & s1 & E & Hf1).
  cbn [accept_blocks]. destruct (N.ltb_spec MAX_BLOCK_PAYLOAD (N.of_nat (length bytes))) as [Hbig|_].
  { pose proof (dl_size _ Hn _ Hbytes). lia. }
  assert (Hin : n ∈ path) by (rewrite Ep; set_solver).
  rewrite (from_to_canonical (node_block n) bytes (proj1 (path_codec n Hin)) Hbytes). cbn [ok]. rewrite sbind_lift_Ok, sbind_sget.
  rewrite bool_decide_eq_true_2 by exact Hpar. cbn [negb].
  assert (HE : caught (F := NodeError) (submit_external_block (clock_now clock (node_block n)) (clock_later clock (node_block n)) (node_block n)) s
    = (s1, Ok (Some true))) by (unfold caught; by rewrite E).
  rewrite (sbind_run _ _ _ _ _ HE).
  destruct (IH (p ++ [n]) rest blocks' s1 (acc + 1)) as (s' & E' & Hf'); [by rewrite <- app_assoc|done..|].
  exists s'. rewrite E'. split; [do 2 f_equal; cbn [length]; lia|]. by rewrite <- app_assoc in Hf'.
Qed.

Lemma follows_height s p rest rest' : path = p ++ rest → follows s p rest' → canonical_height (chain_tree s) = N.of_nat (length p) - 1.
Proof.
  intros Ep Hf. pose proof (inv_nodes _ _ _ (ni_chain _ _ _ Hinv)) as Hwf. cbn [chain_of fst] in Hwf.
  pose proof (li_path _ _ _ _ (fo_linear _ _ _ Hf)) as HL. cbn [chain_of fst snd] in HL.
  destruct (ledger_lookup _ _ _ _ HL) as (m & p0 & Hm & ->). unfold canonical_height. rewrite Hm. cbn [from_option].
  assert (Hi : path !! length p0 = Some m) by (rewrite Ep, <- app_assoc; by apply list_lookup_middle).
  rewrite (ledger_heights genesis _ Hwf _ _ _ _ _ Hpath Hi), length_app. cbn [length]. lia.
Qed.

(** *** What the peer answers *)

Context (Hdisk : readable (disk peer)) (Hondisk : Forall (on_disk (disk peer)) path).
Context (Hhashes : get_canonical_hashes (disk peer) = Ok (node_hash <$> path)).

(** The part of the path a request for the hashes from height [i] gets. *)
Definition batch (i : nat) : list BlockNode := take 100 (drop i path).

Lemma serve_headers start_height :
  serve (GetHeaders start_height 100) (disk peer) = Ok (Headers (node_hash <$> batch (N.to_nat start_height))).
Proof. cbn [serve]. rewrite Hhashes. cbn [ok obind default]. unfold batch. by rewrite fmap_take, fmap_drop. Qed.

Lemma serve_blocks seg blocks :
  seg ⊆ path → (length seg ≤ 100)%nat → carried seg blocks →
  serve (GetBlocks (node_hash <$> seg)) (disk peer) = Ok (Blocks blocks).
Proof.
  intros Hs Hl Hb. cbn [serve]. rewrite take_ge by by rewrite length_fmap.
  assert (HE : ∀ seg blocks, seg ⊆ path → carried seg blocks →
    omap_list (λ hash,
        let? found := ok (stored_block hash (disk peer)) in
        match mjoin found with
        | Some b => ok (to_canonical_bytes b)
        | None => Ok None
        end) (node_hash <$> seg) = Ok (E := NodeError) (Some <$> blocks)).
  { clear seg blocks Hs Hl Hb. intros seg blocks Hs Hb. induction Hb as [|n bytes seg blocks Hn Hb IH]; [done|].
    cbn [fmap list_fmap omap_list]. rewrite Forall_forall in Hondisk.
    rewrite (block_reads _ _ _ Hdisk (Hondisk n (Hs n ltac:(set_solver)))). cbn [ok obind mjoin option_join].
    rewrite Hn. cbn [ok obind]. change (list_fmap _ _ node_hash seg) with (node_hash <$> seg).
    rewrite IH by set_solver. done. }
  rewrite (HE _ _ Hs Hb). cbn [obind]. do 2 f_equal. clear. induction blocks as [|b l IH]; [done|]. cbn. f_equal. exact IH.
Qed.

Lemma carried_exists seg : seg ⊆ path → ∃ blocks, carried seg blocks.
Proof.
  induction seg as [|n seg IH]; intros Hs; [by exists []; constructor|].
  destruct IH as [blocks Hb]; [set_solver|]. pose proof (inv_nodes _ _ _ (ni_chain _ _ _ Hinv)) as Hwf.
  destruct (path_codec n) as [_ Hl]; [set_solver|]. destruct (Hwf _ _ Hl) as (_ & _ & _ & He & _).
  apply block_encodable_spec in He as [bytes Hbytes]. exists (bytes :: blocks). by constructor.
Qed.
Lemma batch_subseteq i : batch i ⊆ path.
Proof. unfold batch. intros n Hn. eapply (subseteq_drop i), (subseteq_take 100), Hn. Qed.
Lemma batch_length i : (length (batch i) ≤ 100)%nat.
Proof. unfold batch. rewrite length_take. apply Nat.le_min_l. Qed.

(** *** Rounds *)

Context {W : SyncWire} {WL : SyncWireLaws} (Peer : Type) (id : Peer) (mining_enabled : bool).
Notation talk := (converse clock mining_enabled id (disk peer)).

(** Every message of the download fits its frame. *)
Record fits_wire : Prop := mkFitsWire {
  fw_ask i : i ≤ N.of_nat (length path) → N.of_nat (length (encode_request (GetHeaders i 100))) ≤ MAX_SYNC_REQUEST;
  fw_fetch i : N.of_nat (length (encode_request (GetBlocks (node_hash <$> batch i)))) ≤ MAX_SYNC_REQUEST;
  fw_headers i : N.of_nat (length (encode_response (Headers (node_hash <$> batch i)))) ≤ MAX_SYNC_MESSAGE;
  fw_blocks i blocks : carried (batch i) blocks → N.of_nat (length (encode_response (Blocks blocks))) ≤ MAX_SYNC_MESSAGE
}.
Context (Hwire : fits_wire).

Lemma path_length : N.of_nat (length path) ≤ k + 1.
Proof.
  pose proof (inv_nodes _ _ _ (ni_chain _ _ _ Hinv)) as Hwf. cbn [chain_of fst] in Hwf.
  destruct (ledger_key genesis _ Hwf _ _ _ Hpath) as (p0 & m & E & Hm & Hl).
  assert (Hi : path !! length p0 = Some m) by (rewrite E; by apply list_lookup_middle).
  pose proof (ledger_heights genesis _ Hwf _ _ _ _ _ Hpath Hi). pose proof (inv_height _ _ _ (ni_chain _ _ _ Hinv) _ _ Hl).
  rewrite E, length_app. cbn [length]. lia.
Qed.

Lemma carried_wf i blocks : Forall small (batch i) → carried (batch i) blocks → response_wf (Blocks blocks).
Proof.
  intros Hd Hb. split.
  - rewrite <- (Forall2_length _ _ _ Hb). pose proof (batch_length i). lia.
  - revert Hd. generalize (batch i) Hb. clear. intros l Hb. induction Hb as [|n bytes l blocks Hn Hb IH]; intros Hd; [constructor|].
    apply Forall_cons in Hd as [Hn' Hd]. constructor; [|by apply IH]. pose proof (Hn' _ Hn). unfold MAX_BLOCK_PAYLOAD in *. lia.
Qed.

Lemma headers_step t times window (p : list BlockNode) D :
  (length p ≤ length path)%nat → open t window → batch (length p) ≠ [] → is_syncing (d_sync D) = true →
  talk (t :: times) window (GetHeaders (N.of_nat (length p)) 100) D =
  talk times (tick t window) (GetBlocks (node_hash <$> batch (length p))) D.
Proof.
  intros Hl Ho Hne Hs. pose proof path_length as HL. cbn [converse].
  rewrite carry_request_fits; [|split; lia|apply (fw_ask Hwire); lia].
  unfold answer. rewrite admit_open by done. rewrite serve_headers, Nat2N.id, sbind_lift_Ok.
  rewrite carry_response_fits; [| |apply (fw_headers Hwire)].
  2:{ cbn [response_wf]. rewrite length_fmap. pose proof (batch_length (length p)). lia. }
  unfold inbound, handle_headers. rewrite sbind_assoc, sbind_sget, Hs, bool_decide_eq_false_2; [done|].
  intros E%fmap_nil_inv. done.
Qed.

(** What the loop over a batch leads to. *)
Lemma handle_batch (p seg : list BlockNode) blocks s target cur :
  path = p ++ seg → seg ≠ [] → follows s p seg → Forall downloadable seg → target = N.of_nat (length path) - 1 →
  carried (take 100 seg) blocks →
  ∃ s', follows s' (p ++ take 100 seg) (drop 100 seg) ∧
    inbound clock mining_enabled (InboundResponse id (Blocks blocks)) (mkDaemon s (Syncing target cur)) =
    if (length seg <=? 100)%nat then (mkDaemon s' Synced, Ok (if mining_enabled then [StartMining] else []))
    else (mkDaemon s' (Syncing target (canonical_height (chain_tree s'))),
          Ok [SendRequest id (GetHeaders (N.of_nat (length (p ++ take 100 seg))) 100)]).
Proof.
  intros Ep Hne Hf Hd Ht Hb. pose proof path_length as HL.
  assert (Ep' : path = p ++ take 100 seg ++ drop 100 seg) by by rewrite take_drop.
  destruct (accept_batch (take 100 seg) p (drop 100 seg) blocks s 0 Ep' ltac:(by rewrite take_drop) (Forall_take _ _ _ Hd) Hb) as (s' & E & Hf').
  exists s'. split; [exact Hf'|].
  assert (Hh : canonical_height (chain_tree s') = N.of_nat (length (p ++ take 100 seg)) - 1).
  { eapply (follows_height s' _ (drop 100 seg)); [by rewrite <- app_assoc|exact Hf']. }
  rewrite length_app, length_take in Hh. rewrite Ep, length_app in HL, Ht.
  assert (Hs : (0 < length seg)%nat) by (destruct seg; [done|cbn [length]; lia]).
  cbn [inbound]. unfold handle_blocks.
  assert (EN : on_node (accept_blocks clock blocks 0) (mkDaemon s (Syncing target cur)) =
    (mkDaemon s' (Syncing target cur), Ok (0 + N.of_nat (length (take 100 seg))))) by (unfold on_node; cbn [d_node d_sync]; by rewrite E).
  rewrite (sbind_run _ _ _ _ _ EN), sbind_sget. cbn [d_node].
  assert (ES : on_sync (advance (canonical_height (chain_tree s'))) (mkDaemon s' (Syncing target cur)) =
    if (length seg <=? 100)%nat then (mkDaemon s' Synced, Ok true)
    else (mkDaemon s' (Syncing target (canonical_height (chain_tree s'))), Ok false)).
  { unfold on_sync, advance. cbn [d_node d_sync]. rewrite Hh.
    destruct (Nat.leb_spec (length seg) 100); destruct (N.leb_spec target (N.of_nat (length p + 100 `min` length seg) - 1)); [done|lia..|done]. }
  destruct (length seg <=? 100)%nat eqn:EL; rewrite (sbind_run _ _ _ _ _ ES); [done|]. cbn [sret].
  apply Nat.leb_gt in EL. rewrite length_take. destruct (N.ltb_spec 0 (0 + N.of_nat (100 `min` length seg))) as [_|Hz]; [|lia].
  unfold sret. do 5 f_equal. rewrite Hh, length_app, length_take. unfold saturating_add. lia.
Qed.

Lemma blocks_step t times window (p seg : list BlockNode) s target cur :
  path = p ++ seg → seg ≠ [] → open t window → follows s p seg → Forall downloadable seg →
  target = N.of_nat (length path) - 1 →
  ∃ s', follows s' (p ++ take 100 seg) (drop 100 seg) ∧
    talk (t :: times) window (GetBlocks (node_hash <$> batch (length p))) (mkDaemon s (Syncing target cur)) =
    if (length seg <=? 100)%nat then (mkDaemon s' Synced, Ok (if mining_enabled then [StartMining] else []))
    else talk times (tick t window) (GetHeaders (N.of_nat (length (p ++ take 100 seg))) 100)
           (mkDaemon s' (Syncing target (canonical_height (chain_tree s')))).
Proof.
  intros Ep Hne Ho Hf Hd Ht.
  assert (EB : batch (length p) = take 100 seg) by (unfold batch; by rewrite Ep, drop_app_length).
  destruct (carried_exists (batch (length p)) (batch_subseteq _)) as [blocks Hb].
  assert (Hd' : Forall small (batch (length p))).
  { rewrite EB. apply Forall_take. eapply Forall_impl; [exact Hd|]. by intros n []. }
  pose proof Hb as Hb'. rewrite EB in Hb'. destruct (handle_batch p seg blocks s target cur Ep Hne Hf Hd Ht Hb') as (s' & Hf' & HI).
  exists s'. split; [exact Hf'|]. cbn [converse].
  rewrite carry_request_fits; [| |apply (fw_fetch Hwire)].
  2:{ cbn [request_wf]. rewrite length_fmap. pose proof (batch_length (length p)). lia. }
  unfold answer. rewrite admit_open; [|done|].
  2:{ cbn [within_batch]. rewrite length_fmap. pose proof (batch_length (length p)). apply N.leb_le. unfold MAX_GET_BLOCKS_HASHES. lia. }
  rewrite (serve_blocks _ _ (batch_subseteq _) (batch_length _) Hb), sbind_lift_Ok.
  rewrite carry_response_fits; [|by eapply carried_wf|by eapply (fw_blocks Hwire)].
  destruct (length seg <=? 100)%nat; rewrite (sbind_run _ _ _ _ _ HI); [by destruct mining_enabled|done].
Qed.

(** *** The whole download *)

Lemma first_batch (p seg : list BlockNode) : path = p ++ seg → batch (length p) = take 100 seg.
Proof. intros Ep. unfold batch. by rewrite Ep, drop_app_length. Qed.
Lemma batch_nonempty (p seg : list BlockNode) : path = p ++ seg → seg ≠ [] → batch (length p) ≠ [].
Proof. intros Ep Hne. rewrite (first_batch p seg Ep). by destruct seg. Qed.

(** A round that leaves more to fetch. *)
Lemma full_round t1 t2 times window (p seg : list BlockNode) s target cur :
  path = p ++ seg → (100 < length seg)%nat → open t1 window → open t2 (tick t1 window) → follows s p seg →
  Forall downloadable seg → target = N.of_nat (length path) - 1 →
  ∃ s', follows s' (p ++ take 100 seg) (drop 100 seg) ∧
    talk (t1 :: t2 :: times) window (GetHeaders (N.of_nat (length p)) 100) (mkDaemon s (Syncing target cur)) =
    talk times (tick t2 (tick t1 window)) (GetHeaders (N.of_nat (length (p ++ take 100 seg))) 100)
           (mkDaemon s' (Syncing target (canonical_height (chain_tree s')))).
Proof.
  intros Ep Hl Ho1 Ho2 Hf Hd Ht. assert (Hne : seg ≠ []) by (intros ->; cbn in Hl; lia).
  destruct (blocks_step t2 times (tick t1 window) p seg s target cur Ep Hne Ho2 Hf Hd Ht) as (s' & Hf' & E).
  exists s'. split; [exact Hf'|]. rewrite headers_step, E; [|by rewrite Ep, length_app; lia|done|by apply (batch_nonempty p seg)|done].
  by rewrite (proj2 (Nat.leb_gt _ _) Hl).
Qed.

Lemma download_loop rounds : ∀ (p seg : list BlockNode) s target cur times window,
  path = p ++ seg → seg ≠ [] → follows s p seg → Forall downloadable seg → target = N.of_nat (length path) - 1 →
  (length seg ≤ 100 * rounds)%nat → (2 * rounds ≤ length times)%nat → rate_ok times window →
  ∃ s', follows s' path [] ∧
    talk times window (GetHeaders (N.of_nat (length p)) 100) (mkDaemon s (Syncing target cur)) =
    (mkDaemon s' Synced, Ok (if mining_enabled then [StartMining] else [])).
Proof.
  induction rounds as [|rounds IH]; intros p seg s target cur times window Ep Hne Hf Hd Ht Hl Htimes Hrate.
  { destruct seg; [done|cbn in Hl; lia]. }
  destruct times as [|t1 [|t2 times]]; [cbn in Htimes; lia..|]. destruct Hrate as (Ho1 & Ho2 & Hrate).
  destruct (Nat.le_gt_cases (length seg) 100) as [Hs|Hs].
  - destruct (blocks_step t2 times (tick t1 window) p seg s target cur Ep Hne Ho2 Hf Hd Ht) as (s' & Hf' & E).
    exists s'. rewrite take_ge, drop_ge, <- Ep in Hf' by done. split; [exact Hf'|].
    rewrite headers_step, E; [|by rewrite Ep, length_app; lia|done|by apply (batch_nonempty p seg)|done].
    by rewrite (proj2 (Nat.leb_le _ _) Hs).
  - destruct (full_round t1 t2 times window p seg s target cur Ep Hs Ho1 Ho2 Hf Hd Ht) as (s1 & Hf1 & ->).
    apply (IH (p ++ take 100 seg) (drop 100 seg)); [by rewrite <- app_assoc, take_drop| |done|by apply Forall_drop|done| | |done].
    + intros E%(f_equal length). rewrite length_drop in E. cbn [length] in E. lia.
    + rewrite length_drop. lia.
    + cbn [length] in Htimes. lia.
Qed.

Lemma follows_whole s rest : follows s path rest → canonical_tip (chain_tree s) = canonical_tip (chain_tree peer) ∧ utxo_set s = utxo_set peer.
Proof.
  intros Hf. pose proof (inv_nodes _ _ _ (ni_chain _ _ _ Hinv)) as Hwf. cbn [chain_of fst] in Hwf.
  pose proof (ledger_mono _ _ _ _ _ (li_sub _ _ _ _ (fo_linear _ _ _ Hf)) (li_path _ _ _ _ (fo_linear _ _ _ Hf))) as HL.
  cbn [chain_of fst snd] in HL. destruct (ledger_key genesis _ Hwf _ _ _ HL) as (p1 & m1 & E1 & H1 & _).
  destruct (ledger_key genesis _ Hwf _ _ _ Hpath) as (p2 & m2 & E2 & H2 & _).
  assert (Et : canonical_tip (chain_tree s) = canonical_tip (chain_tree peer)).
  { rewrite E1 in E2. apply app_inj_tail in E2 as [_ ->]. congruence. }
  split; [exact Et|]. rewrite Et in HL. by destruct (ledger_det _ _ _ _ _ _ HL Hpath).
Qed.

(** *** A node on another branch *)

(** The first block a node on another branch is sent does not extend its tip. *)
Lemma fork_steps t1 t2 times window (p seg : list BlockNode) n s target :
  path = p ++ n :: seg → canonical_tip (chain_tree s) ≠ previous_block_hash (header (node_block n)) →
  Forall small (n :: seg) → open t1 window → open t2 (tick t1 window) → canonical_height (chain_tree s) < target →
  talk (t1 :: t2 :: times) window (GetHeaders (N.of_nat (length p)) 100) (mkDaemon s (Syncing target (canonical_height (chain_tree s)))) =
    (mkDaemon s (Syncing target (canonical_height (chain_tree s))), Ok []).
Proof.
  intros Ep Htip Hd Ho1 Ho2 Ht.
  assert (EB : batch (length p) = n :: take 99 seg) by by rewrite (first_batch p (n :: seg) Ep).
  destruct (carried_exists (batch (length p)) (batch_subseteq _)) as [blocks Hb].
  assert (Hd' : Forall small (batch (length p))) by (rewrite EB; apply Forall_cons in Hd as [? ?]; apply Forall_cons; split; [done|by apply Forall_take]).
  rewrite headers_step; [|by rewrite Ep, length_app; lia|done|by rewrite EB|done]. cbn [converse].
  rewrite carry_request_fits; [| |apply (fw_fetch Hwire)].
  2:{ cbn [request_wf]. rewrite length_fmap. pose proof (batch_length (length p)). lia. }
  unfold answer. rewrite admit_open; [|done|].
  2:{ cbn [within_batch]. rewrite length_fmap. pose proof (batch_length (length p)). apply N.leb_le. unfold MAX_GET_BLOCKS_HASHES. lia. }
  rewrite (serve_blocks _ _ (batch_subseteq _) (batch_length _) Hb), sbind_lift_Ok.
  rewrite carry_response_fits; [|by eapply carried_wf|by eapply (fw_blocks Hwire)].
  rewrite EB in Hb. apply Forall2_cons_inv_l in Hb as (bytes & blocks' & Hbytes & _ & ->).
  apply Forall_cons in Hd as [Hn _]. assert (Hin : n ∈ path) by (rewrite Ep; set_solver).
  assert (HI : inbound clock mining_enabled (InboundResponse id (Blocks (bytes :: blocks')))
      (mkDaemon s (Syncing target (canonical_height (chain_tree s)))) =
    (mkDaemon s (Syncing target (canonical_height (chain_tree s))), Ok [])).
  { cbn [inbound]. unfold handle_blocks.
    assert (EA : accept_blocks clock (bytes :: blocks') 0 s = (s, Ok 0)).
    { cbn [accept_blocks]. destruct (N.ltb_spec MAX_BLOCK_PAYLOAD (N.of_nat (length bytes))) as [Hbig|_]; [specialize (Hn _ Hbytes); lia|].
      rewrite (from_to_canonical (node_block n) bytes (proj1 (path_codec n Hin)) Hbytes). cbn [ok]. rewrite sbind_lift_Ok, sbind_sget.
      by rewrite bool_decide_eq_false_2 by congruence. }
    unfold on_node, on_sync, sbind, sret, sget, advance. cbn [d_node d_sync]. rewrite EA. cbn [d_node d_sync].
    by destruct (N.leb_spec target (canonical_height (chain_tree s))); [lia|]. }
  by rewrite (sbind_run _ _ _ _ _ HI).
Qed.

(** *** A download too fast for the limit *)

Lemma recent_whole now t0 window :
  t0 ≤ now < t0 + ONE_SECOND → Forall (λ t, t0 ≤ t < t0 + ONE_SECOND) window → recent now window = window.
Proof.
  intros Hn HF. apply filter_whole. eapply Forall_impl; [exact HF|]. cbn. intros t Ht. lia.
Qed.

(** The answer to a refused request for blocks ends the conversation. *)
Lemma refused_step t times window (p seg : list BlockNode) s target cur :
  path = p ++ seg → seg ≠ [] → follows s p seg → target = N.of_nat (length path) - 1 →
  length window = MAX_REQUESTS_PER_PEER_PER_SECOND → recent t window = window →
  talk (t :: times) window (GetBlocks (node_hash <$> batch (length p))) (mkDaemon s (Syncing target cur)) =
    (mkDaemon s (Syncing target (canonical_height (chain_tree s))), Ok []).
Proof.
  intros Ep Hne Hf Ht Hw Hr. cbn [converse].
  rewrite carry_request_fits; [| |apply (fw_fetch Hwire)].
  2:{ cbn [request_wf]. rewrite length_fmap. pose proof (batch_length (length p)). lia. }
  unfold answer, admit_request. fold (recent t window). rewrite Hr, Hw. cbn [Nat.ltb Nat.leb MAX_REQUESTS_PER_PEER_PER_SECOND andb].
  cbn [empty_response]. rewrite sbind_lift_Ok.
  rewrite carry_response_fits; [|by split|].
  2:{ apply (fw_blocks Hwire (length path)). unfold batch. rewrite drop_all. constructor. }
  assert (Hh : canonical_height (chain_tree s) < target).
  { rewrite (follows_height s p seg seg Ep Hf), Ht, Ep, length_app. destruct seg; [done|].
    pose proof (li_path _ _ _ _ (fo_linear _ _ _ Hf)) as HL. cbn [chain_of fst snd] in HL.
    destruct (ledger_lookup _ _ _ _ HL) as (? & p0 & _ & ->). rewrite length_app. cbn [length]. lia. }
  assert (HI : inbound clock mining_enabled (InboundResponse id (Blocks [])) (mkDaemon s (Syncing target cur)) =
    (mkDaemon s (Syncing target (canonical_height (chain_tree s))), Ok [])).
  { cbn [inbound]. unfold handle_blocks. cbn [accept_blocks].
    unfold on_node, on_sync, sbind, sret, sget, advance. cbn [d_node d_sync].
    by destruct (N.leb_spec target (canonical_height (chain_tree s))); [lia|]. }
  rewrite (sbind_run _ _ _ _ _ HI). done.
Qed.

Ltac recents := solve [repeat first [apply Forall_nil_2 | apply Forall_cons_2; [done|]]].

Lemma fast_loop t0 times (p seg : list BlockNode) s target cur :
  path = p ++ seg → (200 < length seg)%nat → follows s p seg → Forall downloadable seg → target = N.of_nat (length path) - 1 →
  (6 ≤ length times)%nat → Forall (λ t, t0 ≤ t < t0 + ONE_SECOND) times →
  ∃ s', follows s' (p ++ take 200 seg) (drop 200 seg) ∧
    talk times [] (GetHeaders (N.of_nat (length p)) 100) (mkDaemon s (Syncing target cur)) =
    (mkDaemon s' (Syncing target (canonical_height (chain_tree s'))), Ok []).
Proof.
  intros Ep Hl Hf Hd Ht Htimes HT. do 6 (destruct times as [|? times]; [cbn in Htimes; lia|]).
  do 6 (apply Forall_cons in HT as [? HT]). clear Htimes HT.
  assert (HO : ∀ t w, t0 ≤ t < t0 + ONE_SECOND → Forall (λ t, t0 ≤ t < t0 + ONE_SECOND) w → tick t w = w ++ [t]).
  { intros t w Ht' Hw. unfold tick. by rewrite (recent_whole t t0 w). }
  assert (HP : ∀ t w, t0 ≤ t < t0 + ONE_SECOND → Forall (λ t, t0 ≤ t < t0 + ONE_SECOND) w → (length w < 5)%nat → open t w).
  { intros t w Ht' Hw Hlw. unfold open. by rewrite (recent_whole t t0 w). }
  assert (T1 : tick n [] = [n]) by (apply (HO n []); [done|recents]).
  assert (T2 : tick n0 [n] = [n; n0]) by (apply (HO n0 [n]); [done|recents]).
  assert (T3 : tick n1 [n; n0] = [n; n0; n1]) by (apply (HO n1 [n; n0]); [done|recents]).
  assert (T4 : tick n2 [n; n0; n1] = [n; n0; n1; n2]) by (apply (HO n2 [n; n0; n1]); [done|recents]).
  assert (T5 : tick n3 [n; n0; n1; n2] = [n; n0; n1; n2; n3]) by (apply (HO n3 [n; n0; n1; n2]); [done|recents]).
  destruct (full_round n n0 (n1 :: n2 :: n3 :: n4 :: times) [] p seg s target cur Ep) as (s1 & Hf1 & ->); try done.
  { lia. } { apply HP; [done|recents|cbn; lia]. } { rewrite T1. apply HP; [done|recents|cbn; lia]. }
  rewrite T1, T2.
  assert (Ep1 : path = (p ++ take 100 seg) ++ drop 100 seg) by by rewrite <- app_assoc, take_drop.
  destruct (full_round n1 n2 (n3 :: n4 :: times) [n; n0] (p ++ take 100 seg) (drop 100 seg) s1 target (canonical_height (chain_tree s1)) Ep1)
    as (s2 & Hf2 & ->); try done.
  { rewrite length_drop. lia. } { apply HP; [done|recents|cbn; lia]. }
  { rewrite T3. apply HP; [done|recents|cbn; lia]. } { by apply Forall_drop. }
  rewrite T3, T4.
  assert (E200 : (p ++ take 100 seg) ++ take 100 (drop 100 seg) = p ++ take 200 seg).
  { rewrite <- app_assoc. f_equal. by rewrite take_take_drop. }
  rewrite E200, drop_drop in *. exists s2. split; [exact Hf2|].
  assert (Ep2 : path = (p ++ take 200 seg) ++ drop 200 seg) by by rewrite <- app_assoc, take_drop.
  assert (Hne2 : drop 200 seg ≠ []) by (intros E%(f_equal length); rewrite length_drop in E; cbn [length] in E; lia).
  rewrite headers_step; [|by rewrite Ep2, !length_app; lia|apply HP; [done|recents|cbn; lia]|by eapply batch_nonempty|done].
  rewrite T5. apply (refused_step _ _ _ _ (drop 200 seg)); try done. apply (recent_whole _ t0); [done|recents].
Qed.
End catch_up.

(** ** A download that has stopped *)

Section stalled.
Context {B3 : Blake3} {ED : Ed25519} {BC : Bincode} {WM : Wasmi} {PC : Payload TxContext} {BS : BlockStore}.
Context {Peer : Type} (clock : Clock) (mining_enabled : bool).

Definition is_response (m : P2pInbound Peer) : bool := match m with InboundResponse _ _ => true | _ => false end.
Definition is_answer (e : Effect Peer) : Prop := match e with Respond _ _ => True | _ => False end.

(** The node is as it was, still downloading, and has asked for nothing. *)
Definition stuck (D : Daemon) (run : Daemon * outcome NodeError (list (Effect Peer))) : Prop :=
  d_node run.1 = d_node D ∧ is_syncing (d_sync run.1) = true ∧
  ∀ effects, run.2 = Ok effects → Forall is_answer effects.

Lemma stalled_inbound m D :
  is_syncing (d_sync D) = true → is_response m = false → stuck D (inbound clock mining_enabled m D).
Proof.
  intros Hs Hm. destruct m as [p best|bytes|bytes|p r|p r]; [| | | |done]; cbn [inbound].
  - unfold handle_status, on_sync, observe_peer, sbind, sget, sret, stuck. destruct (d_sync D) as [|target cur] eqn:E; [done|].
    destruct (best <=? _); cbn [fst snd d_node d_sync]; (split; [done|]; split; [done|by intros effects [= <-]]).
  - unfold handle_block. rewrite sbind_sget, Hs. cbn [orb]. split; [done|]. split; [done|]. by intros effects [= <-].
  - unfold handle_transaction. rewrite sbind_sget, Hs. cbn [orb]. split; [done|]. split; [done|]. by intros effects [= <-].
  - unfold handle_request. rewrite sbind_sget. unfold sbind, slift, stuck. destruct (serve r _) as [resp| | |]; cbn [fst snd sret];
      (split; [done|]; split; [done|]; intros effects HE); [injection HE as <-; by constructor|done..].
Qed.

Lemma stalled_inbounds ms : ∀ D,
  is_syncing (d_sync D) = true → Forall (λ m, is_response m = false) ms → stuck D (inbounds clock mining_enabled ms D).
Proof.
  induction ms as [|m ms IH]; intros D Hs HF; cbn [inbounds].
  { split; [done|]. split; [done|]. by intros effects [= <-]. }
  apply Forall_cons in HF as [Hm HF]. pose proof (stalled_inbound m D Hs Hm) as (H1 & H2 & H3). unfold sbind at 1.
  destruct (inbound clock mining_enabled m D) as [D1 [effects|e| |]]; cbn [fst snd] in *; try by (split; [done|]; split).
  specialize (H3 _ eq_refl). pose proof (IH D1 H2 HF) as (H4 & H5 & H6). unfold sbind.
  destruct (inbounds clock mining_enabled ms D1) as [D2 [more|e| |]]; cbn [fst snd] in *; unfold stuck, sret; cbn [fst snd];
    (split; [congruence|]; split; [done|]; intros es HE); [|done..].
  injection HE as <-. apply Forall_app. split; [exact H3|by apply H6].
Qed.
End stalled.

(** ** Downloading the chain of a peer *)

Section theorems.
Context {B3 : Blake3} {ED : Ed25519} {BC : Bincode} {WM : Wasmi} {PC : Payload TxContext} {BS : BlockStore} {SL : BlockStoreLaws}.
#[local] Existing Instance NodeBlockVerifier.
Context {W : SyncWire} {WL : SyncWireLaws} {Peer : Type} (id : Peer) (clock : Clock) (mining_enabled : bool).

(** A peer in its life, with a disk that can be read and the canonical path
    [path], whose messages fit their frames. *)
Record source (gb : Block) (depth n : N) (peer : Shared) (path : list BlockNode) : Prop := {
  so_genesis : genesis_fits gb;
  so_life : node_life gb depth n peer;
  so_age : n < U64_MAX;
  so_disk : readable (disk peer);
  so_path : get_path_from_genesis (E := ChainError) (chain_tree peer) (canonical_tip (chain_tree peer)) = Ok path;
  so_wire : fits_wire path
}.

Record source_facts (gb : Block) (n : N) (peer : Shared) (path : list BlockNode) : Prop := {
  sf_inv : node_inv (genesis_node gb) n peer;
  sf_tree : tree_inv (chain_of peer);
  sf_path : ledger (nodes (chain_tree peer)) (canonical_tip (chain_tree peer)) path (utxo_set peer);
  sf_disk : Forall (on_disk (disk peer)) path;
  sf_hashes : get_canonical_hashes (disk peer) = Ok (node_hash <$> path);
  sf_height : canonical_height (chain_tree peer) = N.of_nat (length path) - 1
}.

Lemma source_has gb depth n peer path : source gb depth n peer path → source_facts gb n peer path.
Proof.
  intros [Hgb Hlife Hn Hread Hp Hw]. destruct (node_life_inv gb depth Hgb n peer Hlife Hn) as [HI HD].
  destruct (canonical_chain_path gb depth n peer Hgb Hlife Hn Hread) as (path' & HL & HG & _ & HH & Hheights & _ & Hlast & _).
  assert (path' = path) as -> by congruence. split; [done|apply HD|done|by eapply du_path|done|].
  pose proof (inv_nodes _ _ _ (ni_chain _ _ _ HI)) as Hwf. cbn [chain_of fst] in Hwf.
  destruct (ledger_key _ _ Hwf _ _ _ HL) as (p0 & m & E & _ & Hm). unfold canonical_height. rewrite Hm. cbn [from_option].
  rewrite (Hheights (length p0) m), E, length_app by (rewrite E; by apply list_lookup_middle). cbn [length]. lia.
Qed.

(** The start of a download, on a status that names a higher peer. *)
Lemma download_starts s height :
  canonical_height (chain_tree s) < height → height ≤ U64_MAX →
  inbound clock mining_enabled (PeerStatus id height) (mkDaemon s Synced) =
  (mkDaemon s (Syncing height (canonical_height (chain_tree s))),
   Ok [StopMining; SendRequest id (GetHeaders (canonical_height (chain_tree s) + 1) 100)]).
Proof.
  intros Hh Hmax. cbn [inbound]. unfold handle_status, on_sync, observe_peer, sbind, sget, sret. cbn [d_node d_sync].
  destruct (N.leb_spec height (canonical_height (chain_tree s))); [lia|]. cbn [d_node]. unfold saturating_add, IBD_BATCH_SIZE.
  by rewrite N.min_l by lia.
Qed.

Lemma source_heights gb n peer s p seg :
  source_facts gb n peer (p ++ seg) → n < U64_MAX → seg ≠ [] → follows (genesis_node gb) peer s p seg →
  canonical_height (chain_tree s) + 1 = N.of_nat (length p) ∧
  canonical_height (chain_tree s) < canonical_height (chain_tree peer) ≤ U64_MAX.
Proof.
  intros [HI HT HL HD HH Hheight] Hn Hne Hf.
  pose proof (follows_height _ n peer HI Hn (p ++ seg) HL s p seg seg eq_refl Hf) as Hs.
  pose proof (path_length _ n peer HI Hn (p ++ seg) HL) as Hlen. rewrite length_app in Hheight, Hlen.
  pose proof (li_path _ _ _ _ (fo_linear _ _ _ _ _ Hf)) as HLs. destruct (ledger_lookup _ _ _ _ HLs) as (? & p0 & _ & Ep).
  apply (f_equal length) in Ep. rewrite length_app in Ep. cbn [length] in Ep. destruct seg; [done|]. cbn [length] in *. lia.
Qed.

(** C28: A node whose tree is the beginning of the canonical path of a peer, with
    a store that can file the blocks that follow and a clock not behind them,
    catches up. On the status
    of the peer it stops mining and asks; then each answer leads to the next
    request, a hundred blocks in two messages, until it has the tip, the path
    and the unspent outputs of the peer, is synchronised, and mines again. The
    peer's blocks are those of its disk; every coinbase states its height, no
    block and no message is larger than its frame, and the requests arrive at
    times within the rate of the peer. *)
Theorem download_completes (gb : Block) (depth n : N) (peer : Shared) 
    (s : Shared) (p seg : list BlockNode) (times window : list N) (rounds : nat)
    (Hsource : source gb depth n peer (p ++ seg)) (Hmore : seg ≠ [])
    (Hfollows : follows (genesis_node gb) peer s p seg) (Hblocks : Forall (downloadable clock) seg)
    (Hrounds : (length seg ≤ 100 * rounds)%nat) (Htimes : (2 * rounds ≤ length times)%nat) (Hrate : rate_ok times window) :
  ∃ D r s', inbound clock mining_enabled (PeerStatus id (canonical_height (chain_tree peer))) (mkDaemon s Synced) =
      (D, Ok [StopMining; SendRequest id r]) ∧
    converse clock mining_enabled id (disk peer) times window r D =
      (mkDaemon s' Synced, Ok (if mining_enabled then [StartMining] else [])) ∧
    canonical_tip (chain_tree s') = canonical_tip (chain_tree peer) ∧ utxo_set s' = utxo_set peer ∧
    get_path_from_genesis (E := ChainError) (chain_tree s') (canonical_tip (chain_tree s')) = Ok (p ++ seg).
Proof.
  pose proof (source_has _ _ _ _ _ Hsource) as HF. pose proof (so_age _ _ _ _ _ Hsource) as Hn.
  destruct (source_heights gb n peer s p seg HF Hn Hmore Hfollows) as (Hh & Hlt & Hmax).
  pose proof HF as [HI HT HL HD HH Hheight].
  eexists _, _. destruct (download_loop (genesis_node gb) n peer clock HI HT Hn (p ++ seg) HL (so_disk _ _ _ _ _ Hsource) HD HH
    Peer id mining_enabled (so_wire _ _ _ _ _ Hsource) rounds p seg s (canonical_height (chain_tree peer))
    (canonical_height (chain_tree s)) times window eq_refl Hmore Hfollows Hblocks Hheight Hrounds Htimes Hrate) as (s' & Hf' & E).
  exists s'. split; [by apply download_starts|]. rewrite Hh. split; [exact E|].
  destruct (follows_whole _ n peer HI (p ++ seg) HL s' [] Hf') as [Ht Hu]. split; [exact Ht|]. split; [exact Hu|].
  pose proof (fo_linear _ _ _ _ _ Hf') as Hlin. eapply (get_path_ok _ _ (inv_nodes _ _ _ (li_inv _ _ _ _ Hlin)) _ _ _ _ eq_refl).
  exact (li_path _ _ _ _ Hlin).
Qed.

(** The download outruns the rate limit of the peer. A node more than two
    hundred blocks behind whose requests all arrive within a second is answered
    five times; the sixth request, for the blocks of the third batch, gets the
    empty answer the peer gives to a request beyond its limit, and the node takes
    it for the end: it asks for nothing more and stays in the middle of the
    download. From then on no status of a peer, no block and no transaction
    from the network changes its tip or makes it ask again, and mining is not
    resumed. *)
Theorem fast_download_stalls (gb : Block) (depth n : N) (peer : Shared) 
    (s : Shared) (p seg : list BlockNode) (times : list N) (t0 : N)
    (Hsource : source gb depth n peer (p ++ seg)) (Hmore : (200 < length seg)%nat)
    (Hfollows : follows (genesis_node gb) peer s p seg) (Hblocks : Forall (downloadable clock) seg)
    (Htimes : (6 ≤ length times)%nat) (Hsecond : Forall (λ t, t0 ≤ t < t0 + ONE_SECOND) times) :
  ∃ D r D', inbound clock mining_enabled (PeerStatus id (canonical_height (chain_tree peer))) (mkDaemon s Synced) =
      (D, Ok [StopMining; SendRequest id r]) ∧
    converse clock mining_enabled id (disk peer) times [] r D = (D', Ok []) ∧
    follows (genesis_node gb) peer (d_node D') (p ++ take 200 seg) (drop 200 seg) ∧ is_syncing (d_sync D') = true ∧
    ∀ ms, Forall (λ m, is_response m = false) ms → stuck D' (inbounds clock mining_enabled (ms : list (P2pInbound Peer)) D').
Proof.
  pose proof (source_has _ _ _ _ _ Hsource) as HF. pose proof (so_age _ _ _ _ _ Hsource) as Hn.
  assert (Hne : seg ≠ []) by (intros ->; cbn [length] in Hmore; lia).
  destruct (source_heights gb n peer s p seg HF Hn Hne Hfollows) as (Hh & Hlt & Hmax).
  pose proof HF as [HI HT HL HD HH Hheight].
  destruct (fast_loop (genesis_node gb) n peer clock HI HT Hn (p ++ seg) HL (so_disk _ _ _ _ _ Hsource) HD HH
    Peer id mining_enabled (so_wire _ _ _ _ _ Hsource) t0 times p seg s (canonical_height (chain_tree peer))
    (canonical_height (chain_tree s)) eq_refl Hmore Hfollows Hblocks Hheight Htimes Hsecond) as (s' & Hf' & E).
  eexists _, _, _. split; [by apply download_starts|]. rewrite Hh. split; [exact E|]. split; [exact Hf'|]. split; [done|].
  intros ms Hms. by apply stalled_inbounds.
Qed.

(** A node on another branch never catches up. When the block of the peer
    above the height of the node does not extend the tip of the node, the node
    asks twice, refuses the first block it is sent without submitting it, and
    stays in the middle of the download with the chain it had, however much
    work the peer has; and as above nothing but an answer can change that. *)
Theorem fork_download_stalls (gb : Block) (depth n : N) (peer : Shared) (s : Shared) (p seg : list BlockNode) (m : BlockNode)
    (t1 t2 : N) (times window : list N)
    (Hsource : source gb depth n peer (p ++ m :: seg)) (Hheight : canonical_height (chain_tree s) + 1 = N.of_nat (length p))
    (Hfork : canonical_tip (chain_tree s) ≠ previous_block_hash (header (node_block m)))
    (Hblocks : Forall small (m :: seg)) (Hrate : rate_ok [t1; t2] window) :
  ∃ D r D', inbound clock mining_enabled (PeerStatus id (canonical_height (chain_tree peer))) (mkDaemon s Synced) =
      (D, Ok [StopMining; SendRequest id r]) ∧
    converse clock mining_enabled id (disk peer) (t1 :: t2 :: times) window r D = (D', Ok []) ∧
    d_node D' = s ∧ is_syncing (d_sync D') = true ∧
    ∀ ms, Forall (λ m, is_response m = false) ms → stuck D' (inbounds clock mining_enabled (ms : list (P2pInbound Peer)) D').
Proof.
  pose proof (source_has _ _ _ _ _ Hsource) as [HI HT HL HD HH Hph]. pose proof (so_age _ _ _ _ _ Hsource) as Hn.
  pose proof (path_length _ n peer HI Hn _ HL) as Hlen. rewrite length_app in Hlen, Hph. cbn [length] in Hlen, Hph.
  assert (Hlt : canonical_height (chain_tree s) < canonical_height (chain_tree peer)) by (rewrite Hph; lia).
  destruct Hrate as (Ho1 & Ho2 & _).
  pose proof (fork_steps (genesis_node gb) n peer clock HI HT Hn (p ++ m :: seg) HL (so_disk _ _ _ _ _ Hsource) HD HH
    Peer id mining_enabled (so_wire _ _ _ _ _ Hsource) t1 t2 times window p seg m s (canonical_height (chain_tree peer))
    eq_refl Hfork Hblocks Ho1 Ho2 Hlt) as E.
  eexists _, _, _. split; [apply download_starts; [done|rewrite Hph; lia]|]. rewrite Hheight. split; [exact E|]. split; [done|]. split; [done|].
  intros ms Hms. by apply stalled_inbounds.
Qed.
End theorems.

(** ** Witnesses *)

(** A wire: a tag, a count in eight bytes, then the items, with a byte string
    after its length. *)
Section toy_wire.
Definition read_hash (l : list byte) : option (Hash * list byte) := (λ h, (h, drop 32 l)) <$> hash_of_list (take 32 l).
Definition write_bytes (b : list byte) : list byte := le_bytes 8 (N.of_nat (length b)) ++ b.
Definition read_bytes (l : list byte) : option (list byte * list byte) :=
  let n := N.to_nat (le_val (take 8 l)) in Some (take n (drop 8 l), drop n (drop 8 l)).

Fixpoint read_many {A} (read : list byte → option (A * list byte)) (n : nat) (l : list byte) : option (list A) :=
  match n with
  | O => Some []
  | S n => match read l with
           | Some (a, l) => (a ::.) <$> read_many read n l
           | None => None
           end
  end.
Definition write_list {A} (write : A → list byte) (xs : list A) : list byte :=
  le_bytes 8 (N.of_nat (length xs)) ++ foldr (λ x l, write x ++ l) [] xs.
Definition read_list {A} (read : list byte → option (A * list byte)) (l : list byte) : option (list A) :=
  read_many read (N.to_nat (le_val (take 8 l))) (drop 8 l).

Definition toy_wire : SyncWire := {|
  encode_request r :=
    match r with
    | GetHeaders start_height limit => x00 :: le_bytes 8 start_height ++ le_bytes 4 limit
    | GetBlocks hashes => x01 :: write_list hash_bytes hashes
    end;
  decode_request l :=
    match l with
    | x00 :: l => Some (GetHeaders (le_val (take 8 l)) (le_val (drop 8 l)))
    | x01 :: l => GetBlocks <$> read_list read_hash l
    | _ => None
    end;
  encode_response r :=
    match r with
    | Headers hashes => x00 :: write_list hash_bytes hashes
    | Blocks blocks => x01 :: write_list write_bytes blocks
    end;
  decode_response l :=
    match l with
    | x00 :: l => Headers <$> read_list read_hash l
    | x01 :: l => Blocks <$> read_list read_bytes l
    | _ => None
    end
|}.

Lemma read_write_list {A} read (write : A → list byte) xs :
  N.of_nat (length xs) < MOD64 → Forall (λ x, ∀ rest, read (write x ++ rest) = Some (x, rest)) xs →
  read_list read (write_list write xs) = Some xs.
Proof.
  intros Hl HF. unfold read_list, write_list.
  rewrite take_app_length', drop_app_length', le_val_le_bytes_small, Nat2N.id by (done || apply length_le_bytes).
  clear Hl. induction HF as [|x xs Hx _ IH]; [done|]. cbn [length foldr read_many].
  by rewrite Hx, IH.
Qed.
Lemma read_write_hashes (hashes : list Hash) :
  N.of_nat (length hashes) < MOD64 → read_list read_hash (write_list hash_bytes hashes) = Some hashes.
Proof.
  intros Hl. apply read_write_list; [done|]. apply Forall_forall. intros h _ rest. unfold read_hash.
  by rewrite take_app_length', drop_app_length', hash_of_list_bytes by by rewrite hash_length.
Qed.
Lemma toy_wire_laws : SyncWireLaws (W := toy_wire).
Proof.
  split.
  - intros [start limit|hashes]; cbn [request_wf toy_wire encode_request decode_request].
    + intros [Hs Hl]. by rewrite take_app_length', drop_app_length', !le_val_le_bytes_small by (done || apply length_le_bytes).
    + intros Hl. by rewrite read_write_hashes.
  - intros [hashes|blocks]; cbn [response_wf toy_wire encode_response decode_response].
    + intros Hl. by rewrite read_write_hashes.
    + intros [Hl HF]. rewrite read_write_list; [done..|]. eapply Forall_impl; [exact HF|]. cbn. intros b Hb rest.
      unfold read_bytes, write_bytes. rewrite <- app_assoc, take_app_length', drop_app_length' by by rewrite length_le_bytes.
      rewrite le_val_le_bytes_small, Nat2N.id by done. by rewrite take_app_length, drop_app_length.
Qed.

Lemma length_join_le {A} (write : A → list byte) n xs :
  Forall (λ x, (length (write x) ≤ n)%nat) xs → (length (write_list write xs) ≤ 8 + n * length xs)%nat.
Proof.
  intros HF. unfold write_list. rewrite length_app, length_le_bytes.
  induction HF as [|x xs Hx _ IH]; [cbn; lia|]. cbn [foldr length]. rewrite length_app. lia.
Qed.
End toy_wire.

(** A chain on the toy genesis whose coinbases burn their output, so that the
    unspent outputs stay those of the genesis block; a peer that has it; and a
    node that has only the genesis block. *)
Section witness.
#[local] Existing Instances toy_blake3 toy_ed25519 toy_bincode toy_redb toy_redb_laws.
#[local] Instance toy_wasm : Wasmi := toy_wasmi toy_contract.
#[local] Existing Instances toy_payload_context NodeBlockVerifier toy_wire toy_wire_laws.

Definition burn (h : N) : list Transaction := [new_coinbase h [mkTxOut 1 [x6a]]].
Fixpoint toy_blocks (k : nat) (h : N) (prev : Hash) : list Block :=
  match k with
  | O => []
  | S k => let b := toy_next prev h (h * 10) 0 (burn h) toy_s0 in b :: toy_blocks k (h + 1) (toy_hash b)
  end.
Definition toy_chain (k : nat) : list Block := toy_blocks k 1 (toy_hash toy_genesis).
Definition toy_submit (s : Shared (BS := StorageEngine (R := toy_redb))) (b : Block) := (submit_external_block (Some 100000) 100 b s).1.
Definition toy_peer (k : nat) : Shared := foldl toy_submit toy_alive (toy_chain k).
Definition path_of (s : Shared (BS := StorageEngine (R := toy_redb))) : list BlockNode :=
  match get_path_from_genesis (E := ChainError) (chain_tree s) (canonical_tip (chain_tree s)) with Ok p => p | _ => [] end.
Definition toy_sync_clock : Clock := mkClock (λ _, Some 100000) (λ _, 100) 100.

(** *** The checks, by evaluation *)

Definition arrives_okb (b : Block) : bool :=
  block_okb b && forallb (λ tx, (serialized_size tx <=? U64_MAX) && (N.of_nat (length (inputs tx)) <=? U64_MAX)) (transactions b) &&
  bool_decide (block_id b ≠ ZERO).
Lemma arrives_okb_spec b : arrives_okb b = true → block_arrives b.
Proof.
  unfold arrives_okb. rewrite !andb_true_iff, forallb_forall. intros [[Hok HF] Hid%bool_decide_eq_true].
  apply block_okb_spec in Hok as (Hfit & Hwf & _). split; [|by split]. apply Forall_forall. intros tx Htx.
  specialize (HF tx (proj1 (list_elem_of_In _ _) Htx)). rewrite andb_true_iff, !N.leb_le in HF. split; [|exact HF].
  destruct Hfit as [He _]. unfold block_encodable in He. rewrite Forall_forall in He. by apply He.
Qed.

Lemma toy_grows bs : ∀ n s,
  node_life toy_genesis 100 n s → forallb arrives_okb bs = true → node_life toy_genesis 100 (n + N.of_nat (length bs)) (foldl toy_submit s bs).
Proof.
  induction bs as [|b bs IH]; intros n s Hs Hb; cbn [foldl length].
  { by rewrite N.add_0_r. }
  cbn [forallb] in Hb. apply andb_true_iff in Hb as [Hb Hbs].
  replace (n + N.of_nat (S (length bs))) with (n + 1 + N.of_nat (length bs)) by lia. apply IH; [|exact Hbs].
  apply life_block; [exact Hs|by apply arrives_okb_spec].
Qed.
Lemma toy_born : node_life toy_genesis 100 0 toy_alive.
Proof.
  apply (life_start (BS := StorageEngine (R := toy_redb)) _ _ toy_tree ∅ empty_tables 5 toy_clock); [reflexivity|].
  apply pair_snd. vm_compute. reflexivity.
Qed.

(** What the first start of the node made. *)
Lemma fresh_run (gb : Block) depth (s s' : Shared (BS := StorageEngine (R := toy_redb))) :
  recover_fresh gb depth s = (s', Ok tt) →
  ∃ t u fees cb d', ChainTree_new (E := ChainError) gb = Ok t ∧ head (transactions gb) = Some cb ∧
    apply_coinbase cb 0 ∅ = (u, Ok fees) ∧
    commit_block gb 0 (block_work (from_compact (difficulty_target (header gb)))) (disk s) = Ok d' ∧
    s' = mkShared (with_max_reorg_depth t depth) u (mempool s) d'.
Proof.
  unfold recover_fresh, ChainTree_new. rewrite sbind_sget, header_hash_ok. cbn [obind]. rewrite sbind_lift_Ok, sbind_smodify.
  intros (s1 & [] & HW & H)%sbind_Ok. unfold write_store in HW.
  destruct (commit_block _ _ _ _) as [d'| | |] eqn:EC; [|done..]. injection HW as <-.
  destruct (transactions gb) as [|cb txs]; [done|]. cbn [head expect] in H. rewrite sbind_lift_Ok in H.
  destruct (apply_coinbase cb 0 ∅) as [u [fees| | |]] eqn:EA; cbn [map_err] in H; [|done..]. rewrite sbind_lift_Ok in H.
  injection H as <-. eexists _, u, fees, cb, d'. split; [done|]. split; [done|]. split; [done|]. split; [|done].
  rewrite <- EC. unfold canonical_height, canonical_work. cbn. by rewrite lookup_singleton_eq.
Qed.
Lemma toy_alive_state :
  ∃ t, ChainTree_new (E := ChainError) toy_genesis = Ok t ∧ chain_of toy_alive = (with_max_reorg_depth t 100, toy_s0) ∧
    mempool toy_alive = Mempool_new ∧ disk toy_alive = toy_tables0.
Proof.
  assert (HR : recover_fresh toy_genesis 100 (mkShared (BS := StorageEngine (R := toy_redb)) toy_tree ∅ Mempool_new empty_tables) = (toy_alive, Ok tt)).
  { apply pair_snd. vm_compute. reflexivity. }
  destruct (fresh_run _ _ _ _ HR) as (t & u & fees & cb & d' & HT & Hcb & HA & HC & E). exists t. split; [exact HT|].
  assert (Hu : u = toy_s0).
  { assert (cb = toy_genesis_cb) as -> by (injection Hcb as <-; reflexivity).
    assert (HE : (apply_coinbase toy_genesis_cb 0 ∅).1 = toy_s0) by (apply (bool_decide_eq_true_1 _); vm_compute; reflexivity).
    by rewrite <- HE, HA. }
  rewrite Hu in E. rewrite E. split; [done|]. split; [done|]. cbn [disk].
  apply (writing_Ok (R := toy_redb)) in HC. unfold toy_tables0, toy_commit, toy_work. cbn [contents toy_redb disk] in HC. by rewrite HC.
Qed.

Fixpoint files_okb (path : list BlockNode) (ids : list Hash) (heights : list N) (n : nat) : bool :=
  match path with
  | [] => true
  | p :: path =>
      let b := node_block p in
      block_okb b && (height p <? MOD64) && bool_decide (block_id b ∉ ids) && bool_decide (height p ∉ heights) &&
      match apply_block (transactions b) (height p) toy_s0 with (u, Ok _) => bool_decide (u = toy_s0) | _ => false end &&
      (N.of_nat (n + record_count b) <=? MAX_VECTOR_LENGTH) &&
      files_okb path (ids ++ [block_id b]) (heights ++ [height p]) (n + record_count b)
  end.
Lemma toy_files path : ∀ (t : Tables) l n,
  holds t l toy_s0 → index_le n t → files_okb path (entry_id <$> l) ((λ e : Entry, e.1.2) <$> l) n = true →
  files (BS := StorageEngine (R := toy_redb)) path t.
Proof.
  induction path as [|p path IH]; intros t l n HH HI Hok; [done|]. cbn [files_okb] in Hok.
  rewrite !andb_true_iff in Hok. destruct Hok as ((((((Hb & Hh%N.ltb_lt) & Hid%bool_decide_eq_true) & Hhe%bool_decide_eq_true) & Hap) & Hroom%N.leb_le) & Hok).
  destruct (apply_block _ _ _) as [u [fees| | |]] eqn:EA; [|done..]. apply bool_decide_eq_true in Hap as ->.
  apply block_okb_spec in Hb as (Hfit & _ & Hts). cbn [files]. intros work Hw.
  destruct (commit_holds (node_block p) (height p) work t l _ _ fees n HH (conj Hfit (conj Hh (conj Hw Hts))) (conj Hid Hhe) EA HI Hroom)
    as (t1 & rows & E & H1 & H2 & _).
  eexists. split; [cbn [commit_block StorageEngine]; unfold engine_commit_block, writing; cbn [read_tx commit_tx toy_redb obind]; by rewrite E|]. eapply IH; [exact H1|exact H2|]. by rewrite !fmap_app.
Qed.

Definition downloadable_okb (n : BlockNode) : bool :=
  (timestamp (header (node_block n)) <=? saturating_add 100000 MAX_FUTURE_DRIFT) && (stated_height (node_block n) =? height n) &&
  match to_canonical_bytes (node_block n) with Ok bytes => (length bytes <=? 1000)%nat | _ => true end.
Definition toy_ok (k : nat) : bool :=
  let peer := toy_peer k in
  let path := path_of peer in
  forallb arrives_okb (toy_chain k) && (length path =? S k)%nat && forallb downloadable_okb path &&
  files_okb (drop 1 path) [block_id toy_genesis] [0] 1.

Section checked.
Context (k : nat) (Hok : toy_ok k = true) (Hk : N.of_nat k < U64_MAX).
Notation peer := (toy_peer k).
Notation path := (path_of (toy_peer k)).

Lemma toy_checks :
  forallb arrives_okb (toy_chain k) = true ∧ length path = S k ∧ Forall (λ n, downloadable_okb n = true) path ∧
  files_okb (drop 1 path) [block_id toy_genesis] [0] 1 = true.
Proof.
  revert Hok. unfold toy_ok. rewrite !andb_true_iff, Nat.eqb_eq. intros (((H1 & H2) & H3) & H4). split; [exact H1|].
  split; [exact H2|]. split; [|exact H4]. rewrite forallb_forall in H3. apply Forall_forall. intros n Hn. apply H3. by apply list_elem_of_In.
Qed.
Lemma length_toy_blocks j : ∀ h prev, length (toy_blocks j h prev) = j.
Proof. induction j as [|j IH]; intros h prev; [done|]. cbn [toy_blocks length]. by rewrite IH. Qed.
Lemma toy_lives : node_life toy_genesis 100 (N.of_nat k) peer.
Proof.
  pose proof (toy_grows (toy_chain k) 0 toy_alive toy_born (proj1 toy_checks)) as H.
  unfold toy_chain in H at 1. by rewrite length_toy_blocks, N.add_0_l in H.
Qed.

Lemma toy_path_facts :
  get_path_from_genesis (E := ChainError) (chain_tree peer) (canonical_tip (chain_tree peer)) = Ok path ∧
  ledger (nodes (chain_tree peer)) (canonical_tip (chain_tree peer)) path (utxo_set peer).
Proof.
  destruct (canonical_chain_path (BS := StorageEngine (R := toy_redb)) toy_genesis 100 (N.of_nat k) peer toy_genesis_fits toy_lives Hk eq_refl)
    as (p & HL & HG & _).
  unfold path_of. by rewrite HG.
Qed.

Lemma toy_small n : n ∈ path → ∀ bytes, to_canonical_bytes (node_block n) = Ok bytes → (length bytes ≤ 1000)%nat.
Proof.
  intros Hn bytes Hb. destruct toy_checks as (_ & _ & HF & _). rewrite Forall_forall in HF. specialize (HF n Hn).
  unfold downloadable_okb in HF. rewrite Hb, !andb_true_iff, Nat.leb_le in HF. apply HF.
Qed.
Lemma toy_downloadable n : n ∈ path → downloadable toy_sync_clock n.
Proof.
  clear Hk. intros Hn. destruct toy_checks as (_ & _ & HF & _). rewrite Forall_forall in HF. specialize (HF n Hn).
  unfold downloadable_okb in HF. rewrite !andb_true_iff, N.leb_le, N.eqb_eq in HF. destruct HF as [[H1 H2] _].
  split; [by exists 100000|exact H2|]. intros bytes Hb. pose proof (toy_small n Hn bytes Hb). unfold MAX_BLOCK_PAYLOAD. lia.
Qed.

Lemma toy_fits_wire : fits_wire path.
Proof.
  assert (HH : ∀ i, (length (write_list hash_bytes (node_hash <$> batch path i)) ≤ 8 + 32 * 100)%nat).
  { intros i. etransitivity; [apply (length_join_le _ 32); apply Forall_forall; intros h _; by rewrite hash_length|].
    rewrite length_fmap. pose proof (batch_length path i). lia. }
  split.
  - intros i _. unfold MAX_SYNC_REQUEST. cbn [encode_request toy_wire length]. rewrite length_app, !length_le_bytes. cbn. lia.
  - intros i. specialize (HH i). unfold MAX_SYNC_REQUEST. cbn [encode_request toy_wire length]. lia.
  - intros i. specialize (HH i). unfold MAX_SYNC_MESSAGE. cbn [encode_response toy_wire length]. lia.
  - intros i blocks Hb. unfold MAX_SYNC_MESSAGE. cbn [encode_response toy_wire length].
    assert (HB : (length (write_list write_bytes blocks) ≤ 8 + 1008 * length blocks)%nat).
    { apply length_join_le. apply Forall_forall. intros b Hin. unfold write_bytes. rewrite length_app, length_le_bytes.
      apply list_elem_of_lookup in Hin as [j Hj]. destruct (Forall2_lookup_r _ _ _ _ _ Hb Hj) as (n & Hn & Hnb).
      assert (n ∈ path) by (apply (batch_subseteq path i); by eapply list_elem_of_lookup_2).
      pose proof (toy_small n ltac:(done) b Hnb). lia. }
    rewrite <- (Forall2_length _ _ _ Hb) in HB. pose proof (batch_length path i). lia.
Qed.

Lemma toy_source : source toy_genesis 100 (N.of_nat k) peer path.
Proof.
  split; [exact toy_genesis_fits|exact toy_lives|exact Hk|reflexivity|exact (proj1 toy_path_facts)|exact toy_fits_wire].
Qed.

(** The path starts with the genesis block. *)
Lemma toy_first : take 1 path = [genesis_node toy_genesis].
Proof.
  destruct (node_life_inv toy_genesis 100 toy_genesis_fits (N.of_nat k) peer toy_lives Hk) as [HI _].
  destruct toy_path_facts as [_ HL]. pose proof (inv_nodes _ _ _ (ni_chain _ _ _ HI)) as Hwf. cbn [chain_of fst] in Hwf.
  pose proof (proj1 (proj2 toy_checks)) as Hlen. destruct path as [|n p] eqn:E; [done|]. cbn [take firstn]. f_equal.
  assert (Hn : nodes (chain_tree peer) !! node_hash n = Some n) by (eapply (ledger_elem _ _ Hwf); [exact HL|set_solver]).
  destruct (Hwf _ _ Hn) as (_ & _ & _ & _ & _ & Hg & _). apply Hg.
  exact (ledger_heights _ _ Hwf _ _ _ 0 n HL eq_refl).
Qed.

(** The node with the genesis block alone follows the peer. *)
Lemma toy_follows : follows (genesis_node toy_genesis) peer toy_alive (take 1 path) (drop 1 path).
Proof.
  destruct (node_life_inv toy_genesis 100 toy_genesis_fits (N.of_nat k) peer toy_lives Hk) as [HI HD].
  destruct toy_path_facts as [_ HL]. pose proof (inv_nodes _ _ _ (ni_chain _ _ _ HI)) as Hwf. cbn [chain_of fst] in Hwf.
  assert (Hin : genesis_node toy_genesis ∈ path) by (rewrite <- (take_drop 1 path), toy_first; set_solver).
  destruct toy_alive_state as (t & HT & Hchain & Hpool & Hdisk). split.
  - rewrite toy_first, Hchain. apply (first_linear toy_genesis 100 toy_genesis_fits (chain_of peer) (N.of_nat k) toy_s0 0).
    + apply HI.
    + apply HD.
    + exact HT.
    + exact (ledger_elem _ _ Hwf _ _ _ _ HL Hin).
    + apply pair_snd. vm_compute. reflexivity.
  - rewrite Hpool. unfold Mempool_new. by apply MempoolTheorems.empty_sound.
  - destruct toy_holds0 as (H1 & H2 & _). destruct toy_checks as (_ & _ & _ & HF). rewrite Hdisk.
    eapply toy_files; [exact H1|exact H2|exact HF].
Qed.
End checked.

Lemma toy_ok_2 : toy_ok 2 = true.
Proof. vm_compute. reflexivity. Qed.
(** The second block of the peer does not extend the node that took the other
    first block. *)
Definition toy_forked : Shared := toy_submit toy_alive toy_f1.

Lemma download_completes_witness :
  ∃ D r s', inbound toy_sync_clock true (PeerStatus tt 2) (mkDaemon toy_alive Synced) = (D, Ok [StopMining; SendRequest tt r]) ∧
    converse toy_sync_clock true tt (disk (toy_peer 2)) [0; 1] [] r D = (mkDaemon s' Synced, Ok [StartMining]) ∧
    canonical_tip (chain_tree s') = canonical_tip (chain_tree (toy_peer 2)) ∧ utxo_set s' = utxo_set (toy_peer 2).
Proof.
  pose proof (toy_source 2 toy_ok_2 eq_refl) as HS. rewrite <- (take_drop 1 (path_of (toy_peer 2))) in HS.
  destruct (download_completes tt toy_sync_clock true toy_genesis 100 2 (toy_peer 2) toy_alive _ _ [0; 1] [] 1 HS)
    as (D & r & s' & E1 & E2 & E3 & E4 & _).
  - intros E%(f_equal length). rewrite length_drop, (proj1 (proj2 (toy_checks 2 toy_ok_2))) in E. discriminate.
  - exact (toy_follows 2 toy_ok_2 eq_refl).
  - apply Forall_drop, Forall_forall. exact (toy_downloadable 2 toy_ok_2).
  - rewrite length_drop, (proj1 (proj2 (toy_checks 2 toy_ok_2))). cbn. lia.
  - cbn. lia.
  - split; [vm_compute; lia|]. split; [vm_compute; lia|exact I].
  - assert (Hh : canonical_height (chain_tree (toy_peer 2)) = 2) by (vm_compute; reflexivity). rewrite Hh in E1.
    exists D, r, s'. split; [exact E1|]. split; [exact E2|]. split; [exact E3|exact E4].
Defined.

Lemma toy_ok_202 : toy_ok 202 = true.
Proof. vm_compute. reflexivity. Qed.

Lemma toy_times : Forall (λ t, 0 ≤ t < 0 + ONE_SECOND) [0; 1; 2; 3; 4; 5].
Proof. repeat (apply Forall_cons_2; [done|]). by apply Forall_nil_2. Qed.

Lemma fast_download_stalls_witness :
  ∃ D r D', inbound toy_sync_clock true (PeerStatus tt (canonical_height (chain_tree (toy_peer 202)))) (mkDaemon toy_alive Synced) =
      (D, Ok [StopMining; SendRequest tt r]) ∧
    converse toy_sync_clock true tt (disk (toy_peer 202)) [0; 1; 2; 3; 4; 5] [] r D = (D', Ok []) ∧ is_syncing (d_sync D') = true.
Proof.
  pose proof (toy_source 202 toy_ok_202 eq_refl) as HS. rewrite <- (take_drop 1 (path_of (toy_peer 202))) in HS.
  pose proof (proj1 (proj2 (toy_checks 202 toy_ok_202))) as Hlen.
  destruct (fast_download_stalls tt toy_sync_clock true toy_genesis 100 202 (toy_peer 202) toy_alive _ _ [0; 1; 2; 3; 4; 5] 0 HS)
    as (D & r & D' & E1 & E2 & _ & E3 & _).
  - rewrite length_drop, Hlen. cbn. lia.
  - exact (toy_follows 202 toy_ok_202 eq_refl).
  - apply Forall_drop, Forall_forall. exact (toy_downloadable 202 toy_ok_202).
  - cbn. lia.
  - exact toy_times.
  - exists D, r, D'. split; [exact E1|]. split; [exact E2|exact E3].
Defined.

Lemma fork_download_stalls_witness :
  ∃ D r D', inbound toy_sync_clock true (PeerStatus tt 2) (mkDaemon toy_forked Synced) = (D, Ok [StopMining; SendRequest tt r]) ∧
    converse toy_sync_clock true tt (disk (toy_peer 2)) [0; 1] [] r D = (D', Ok []) ∧
    d_node D' = toy_forked ∧ is_syncing (d_sync D') = true.
Proof.
  pose proof (toy_source 2 toy_ok_2 eq_refl) as HS. pose proof (proj1 (proj2 (toy_checks 2 toy_ok_2))) as Hlen.
  destruct (path_of (toy_peer 2)) as [|g [|b1 [|b2 [|]]]] eqn:E; [discriminate..| |discriminate].
  assert (HB : Forall (downloadable toy_sync_clock) [g; b1; b2]).
  { rewrite <- E. apply Forall_forall. exact (toy_downloadable 2 toy_ok_2). }
  destruct (fork_download_stalls tt toy_sync_clock true toy_genesis 100 2 (toy_peer 2) toy_forked [g; b1] [] b2 0 1 [] [] HS)
    as (D & r & D' & E1 & E2 & E3 & E4 & _).
  - assert (Hh : canonical_height (chain_tree toy_forked) = 1) by (vm_compute; reflexivity). by rewrite Hh.
  - assert (HF : match path_of (toy_peer 2) with
                 | [_; _; n] => bool_decide (canonical_tip (chain_tree toy_forked) ≠ previous_block_hash (header (node_block n)))
                 | _ => true end = true) by (vm_compute; reflexivity).
    rewrite E in HF. by apply bool_decide_eq_true in HF.
  - do 2 apply Forall_cons in HB as [_ HB]. eapply Forall_impl; [exact HB|]. by intros n [].
  - split; [vm_compute; lia|]. split; [vm_compute; lia|exact I].
  - assert (Hh : canonical_height (chain_tree (toy_peer 2)) = 2) by (vm_compute; reflexivity). rewrite Hh in E1.
    exists D, r, D'. split; [exact E1|]. split; [exact E2|]. split; [exact E3|exact E4].
Defined.
End witness.
