(* ===== verification/Stratum.v ===== *)
(** * Stratum: headers, jobs and shares

    [header.rs], [job.rs] and [shares.rs] of [crates/scytale-stratum]: the 120
    byte header a worker solves, the job it solves it for and the check of a
    share it submits. Numbers of 256 bits are the class [Uint256], the type the
    crate [uint] builds, with what the code relies on in [Uint256Laws]; a
    difficulty is an [f64], computed with the specification of binary floating
    point of the Standard Library; [byteorder]'s little-endian accessors are
    those of the language. *)

From Corelib Require Import SpecFloat.
From S2P Require Import Prelude Bytes Primitives Types Codec Transaction Words Target Consensus.
Local Open Scope N_scope.
Local Open Scope scy_scope.

(** ** Errors *)

Inductive StratumError :=
| HighHash
| JobNotFound (job_id : string)
| DuplicateShare
| InvalidExtranonce2
| InvalidNonce
| InvalidTime
| Unauthorized
| StaleJob
| StratumSerialization
| StratumIo
| StratumArithmetic
| Protocol.

Definition OTHER_UNKNOWN : Z := 20.
Definition JOB_NOT_FOUND : Z := 21.
Definition DUPLICATE_SHARE : Z := 22.
Definition LOW_DIFFICULTY_SHARE : Z := 23.
Definition UNAUTHORIZED : Z := 24.
Definition NOT_SUBSCRIBED : Z := 25.
Definition PARSE_ERROR : Z := -32700.
Definition INVALID_REQUEST : Z := -32600.
Definition METHOD_NOT_FOUND : Z := -32601.
Definition INVALID_PARAMS : Z := -32602.
Definition INTERNAL_ERROR : Z := -32603.

(** The code of the JSON-RPC error an error becomes. *)
Definition rpc_code (err : StratumError) : Z :=
  match err with
  | HighHash => LOW_DIFFICULTY_SHARE
  | JobNotFound _ => JOB_NOT_FOUND
  | DuplicateShare => DUPLICATE_SHARE
  | Unauthorized => UNAUTHORIZED
  | InvalidExtranonce2 | InvalidNonce | InvalidTime => INVALID_PARAMS
  | StaleJob => JOB_NOT_FOUND
  | StratumSerialization => PARSE_ERROR
  | StratumIo | StratumArithmetic => INTERNAL_ERROR
  | Protocol => INVALID_REQUEST
  end.

(** ** The header of 120 bytes *)

Definition HEADER_SIZE : nat := 120.

Record RawBlockHeader120 := mkRaw {
  raw_version : N;
  raw_prev_hash : Hash;
  raw_merkle_root : Hash;
  raw_utxo_root : Hash;
  raw_timestamp : N;
  raw_bits : N;
  raw_nonce : N
}.

Definition raw_serialize (h : RawBlockHeader120) : list byte :=
  le_bytes 4 (raw_version h) ++ hash_bytes (raw_prev_hash h) ++ hash_bytes (raw_merkle_root h) ++
  hash_bytes (raw_utxo_root h) ++ le_bytes 8 (raw_timestamp h) ++ le_bytes 4 (raw_bits h) ++ le_bytes 8 (raw_nonce h).

(** [&bytes[a..b]]. *)
Definition slice (a b : nat) (bytes : list byte) : list byte := take (b - a) (drop a bytes).
Definition hash_at (a : nat) (bytes : list byte) : outcome StratumError Hash :=
  ok_or (hash_of_list (slice a (a + 32) bytes)) Protocol.

Definition raw_from_bytes (bytes : list byte) : outcome StratumError RawBlockHeader120 :=
  if negb (length bytes =? HEADER_SIZE)%nat then Err Protocol
  else
    let version := le_val (slice 0 4 bytes) in
    let? prev_hash := hash_at 4 bytes in
    let? merkle_root := hash_at 36 bytes in
    let? utxo_root := hash_at 68 bytes in
    Ok (mkRaw version prev_hash merkle_root utxo_root (le_val (slice 100 108 bytes)) (le_val (slice 108 112 bytes))
          (le_val (slice 112 120 bytes))).

(** The two conversions. *)
Definition header_of_raw (raw : RawBlockHeader120) : BlockHeader :=
  mkBlockHeader (raw_version raw) (raw_prev_hash raw) (raw_merkle_root raw) (raw_utxo_root raw) (raw_timestamp raw)
    (raw_bits raw) (raw_nonce raw).
Definition raw_of_header (h : BlockHeader) : RawBlockHeader120 :=
  mkRaw (version h) (previous_block_hash h) (transaction_commitment h) (utxo_root h) (timestamp h)
    (difficulty_target h) (nonce h).

(** ** Jobs *)

Record StratumJob := mkJob {
  job_id : string;
  j_prev_hash : Hash;
  coinbase1 : list byte;
  coinbase2 : list byte;
  merkle_branches : list Hash;
  j_version : N;
  j_bits : N;
  j_utxo_root : Hash;
  curtime : N;
  clean_jobs : bool
}.

Section jobs.
Context {B3 : Blake3}.

Definition compute_pow_hash (h : RawBlockHeader120) : Hash := blake3 (raw_serialize h).

Definition raw_coinbase (job : StratumJob) (extranonce1 extranonce2 : list byte) : list byte :=
  coinbase1 job ++ extranonce1 ++ extranonce2 ++ coinbase2 job.

(** One step up the tree from the leftmost leaf. *)
Definition fold_branch (current branch : Hash) : Hash :=
  blake3 (hash_bytes current ++ (if bool_decide (branch = ZERO) then [] else hash_bytes branch)).
Definition build_merkle_root (job : StratumJob) (extranonce1 extranonce2 : list byte) : Hash :=
  foldl fold_branch (blake3 (raw_coinbase job extranonce1 extranonce2)) (merkle_branches job).

Definition job_header (job : StratumJob) (merkle_root : Hash) (timestamp nonce : N) : RawBlockHeader120 :=
  mkRaw (j_version job) (j_prev_hash job) merkle_root (j_utxo_root job) timestamp (j_bits job) nonce.

(** The parents of a level of even length. *)
Fixpoint parents (level : list Hash) : list Hash :=
  match level with
  | a :: b :: level => blake3 (hash_bytes a ++ hash_bytes b) :: parents level
  | _ => []
  end.
Definition even_level (level : list Hash) : list Hash :=
  if Nat.odd (length level) then level ++ match last level with Some h => [h] | None => [] end else level.
Fixpoint branch_loop (fuel : nat) (level : list Hash) : outcome StratumError (list Hash) :=
  match fuel with
  | O => Diverge
  | S fuel =>
      if (1 <? length level)%nat then
        let level := even_level level in
        let? sibling := expect (level !! 1%nat) in
        let? rest := branch_loop fuel (parents level) in
        Ok (sibling :: rest)
      else Ok []
  end.
Definition calculate_merkle_branches (other_tx_hashes : list Hash) : outcome StratumError (list Hash) :=
  if bool_decide (other_tx_hashes = []) then Ok []
  else branch_loop (S (length other_tx_hashes)) (ZERO :: other_tx_hashes).
End jobs.

(** ** Numbers *)

(** [U256] of the crate [uint]. [None] of [u256_mul] and [u256_div] is a panic. *)
Class Uint256 := {
  U256 : Type;
  u256_val : U256 → N;
  u256_from : N → U256;
  u256_max : U256;
  u256_shl : U256 → N → U256;
  u256_overflowing_mul : U256 → U256 → U256 * bool;
  u256_mul : U256 → U256 → option U256;
  u256_div : U256 → U256 → option U256;
  u256_from_be : list byte → U256;
  u256_from_le : list byte → U256
}.
Class Uint256Laws {U : Uint256} : Prop := {
  u256_from_val n : n < MOD64 → u256_val (u256_from n) = n;
  u256_max_val : u256_val u256_max = 2 ^ 256 - 1;
  u256_shl_val a n : u256_val (u256_shl a n) = N.shiftl (u256_val a) n mod 2 ^ 256;
  u256_overflowing_val a b :
    (u256_overflowing_mul a b).2 = (2 ^ 256 <=? u256_val a * u256_val b) ∧
    u256_val (u256_overflowing_mul a b).1 = (u256_val a * u256_val b) mod 2 ^ 256;
  u256_mul_val a b : u256_val a * u256_val b < 2 ^ 256 → ∃ c, u256_mul a b = Some c ∧ u256_val c = u256_val a * u256_val b;
  u256_div_val a b : u256_val b ≠ 0 → ∃ c, u256_div a b = Some c ∧ u256_val c = u256_val a / u256_val b;
  u256_from_be_val l : length l = 32%nat → u256_val (u256_from_be l) = be_val l;
  u256_from_le_val l : length l = 32%nat → u256_val (u256_from_le l) = le_val l
}.

(** Numbers below 2^256, for the witnesses. *)
Definition toy_uint : Uint256 := {|
  U256 := N;
  u256_val := λ n, n;
  u256_from := λ n, n;
  u256_max := 2 ^ 256 - 1;
  u256_shl := λ a n, N.shiftl a n mod 2 ^ 256;
  u256_overflowing_mul := λ a b, ((a * b) mod 2 ^ 256, 2 ^ 256 <=? a * b);
  u256_mul := λ a b, if a * b <? 2 ^ 256 then Some (a * b) else None;
  u256_div := λ a b, if b =? 0 then None else Some (a / b);
  u256_from_be := be_val;
  u256_from_le := le_val
|}.

(** [f64]. *)
Notation f64 := spec_float.
Definition f64_zero : f64 := S754_zero false.
Definition f64_one : f64 := S754_finite false 4503599627370496 (-52).
Definition f64_thousand : f64 := S754_finite false 8796093022208000 (-43).
(** [u64::MAX as f64]. *)
Definition f64_u64_max : f64 := S754_finite false 4503599627370496 12.
Definition f64_mul : f64 → f64 → f64 := SFmul 53 1024.
Definition f64_div : f64 → f64 → f64 := SFdiv 53 1024.
Definition is_nan (x : f64) : bool := match x with S754_nan => true | _ => false end.
Definition f64_min (a b : f64) : f64 := if is_nan a then b else if is_nan b then a else if SFltb b a then b else a.
Definition f64_max (a b : f64) : f64 := if is_nan a then b else if is_nan b then a else if SFltb a b then b else a.
(** [x as u64], which saturates. *)
Definition f64_as_u64 (x : f64) : N :=
  match x with
  | S754_finite false m e =>
      N.min (match e with
             | Z0 => Npos m
             | Zpos e => Npos m * 2 ^ Npos e
             | Zneg e => Npos m / 2 ^ Npos e
             end) U64_MAX
  | S754_infinity false => U64_MAX
  | _ => 0
  end.

(** ** Shares *)

Inductive ShareVerificationResult :=
| ValidShare (hash : Hash)
| BlockCandidate (header : RawBlockHeader120) (hash : Hash).

Section shares.
Context {B3 : Blake3} {U : Uint256}.

Definition u256_leb (a b : U256) : bool := u256_val a <=? u256_val b.

Definition compact_to_target (compact : N) : U256 :=
  let exponent := N.shiftr compact 24 in
  let mantissa := N.land compact 0x7FFFFF in
  let is_negative := negb (N.land compact 0x800000 =? 0) in
  if is_negative || (mantissa =? 0) || (exponent =? 0) then u256_from 0
  else if exponent <=? 3 then u256_from (N.shiftr mantissa (8 * (3 - exponent)))
  else u256_shl (u256_from mantissa) (8 * (exponent - 3)).

(** The target of a difficulty; the difficulty 1 stands for [0x1d00ffff]. *)
Definition share_target (share_difficulty : f64) : outcome StratumError U256 :=
  let base_target := compact_to_target 0x1d00ffff in
  if SFleb share_difficulty f64_zero then Ok u256_max
  else if SFltb share_difficulty f64_one then
    let mult := f64_as_u64 (f64_min (f64_div f64_one share_difficulty) f64_u64_max) in
    let '(res, overflow) := u256_overflowing_mul base_target (u256_from mult) in
    Ok (if overflow : bool then u256_max else res)
  else
    let diff_scaled := f64_as_u64 (f64_max (f64_mul share_difficulty f64_thousand) f64_one) in
    let? q := expect (u256_div base_target (u256_from diff_scaled)) in
    expect (u256_mul q (u256_from 1000)).

Definition verify_worker_share (job : StratumJob) (extranonce1 extranonce2 : list byte) (timestamp nonce : N)
    (share_difficulty : f64) : outcome StratumError ShareVerificationResult :=
  let merkle_root := build_merkle_root job extranonce1 extranonce2 in
  let header := job_header job merkle_root timestamp nonce in
  let hash := compute_pow_hash header in
  let hash_be := u256_from_be (hash_bytes hash) in
  let hash_le := u256_from_le (hash_bytes hash) in
  let? share_target := share_target share_difficulty in
  if negb (u256_leb hash_be share_target || u256_leb hash_le share_target) then Err HighHash
  else
    let network_target_num := compact_to_target (j_bits job) in
    let consensus_target := from_compact (j_bits job) in
    if is_met_by consensus_target hash || u256_leb hash_be network_target_num || u256_leb hash_le network_target_num
    then Ok (BlockCandidate header hash)
    else Ok (ValidShare hash).
End shares.

(** ** Laws of the header *)

Definition raw_wf (h : RawBlockHeader120) : Prop :=
  raw_version h < MOD32 ∧ raw_timestamp h < MOD64 ∧ raw_bits h < MOD32 ∧ raw_nonce h < MOD64.

Lemma length_raw_serialize h : length (raw_serialize h) = HEADER_SIZE.
Proof. unfold raw_serialize. by rewrite !length_app, !hash_length, !length_le_bytes. Qed.

Lemma slice_app a b l1 l2 : length l1 = a → slice a b (l1 ++ l2) = take (b - a) l2.
Proof. intros <-. unfold slice. by rewrite drop_app_length. Qed.
Lemma slice_middle a n l1 l2 l3 : length l1 = a → length l2 = n → slice a (a + n) (l1 ++ l2 ++ l3) = l2.
Proof. intros H1 H2. rewrite slice_app by done. replace (a + n - a)%nat with n by lia. by rewrite take_app_length'. Qed.
Lemma hash_at_middle a l1 (h : Hash) l3 : length l1 = a → hash_at a (l1 ++ hash_bytes h ++ l3) = Ok h.
Proof. intros H. unfold hash_at. rewrite slice_middle by (done || apply hash_length). by rewrite hash_of_list_bytes. Qed.

Lemma raw_roundtrip h : raw_wf h → raw_from_bytes (raw_serialize h) = Ok h.
Proof.
  intros (Hv & Ht & Hb & Hn). unfold raw_from_bytes. rewrite length_raw_serialize. cbn [Nat.eqb negb HEADER_SIZE].
  destruct h as [v p m u t b n]. unfold raw_serialize. cbn [raw_version raw_prev_hash raw_merkle_root raw_utxo_root raw_timestamp raw_bits raw_nonce] in *.
  set (lv := le_bytes 4 v). set (lt := le_bytes 8 t). set (lb := le_bytes 4 b). set (ln := le_bytes 8 n).
  assert (Lv : length lv = 4%nat) by apply length_le_bytes. assert (Lt : length lt = 8%nat) by apply length_le_bytes.
  assert (Lb : length lb = 4%nat) by apply length_le_bytes. assert (Ln : length ln = 8%nat) by apply length_le_bytes.
  rewrite (hash_at_middle 4 lv p) by done. cbn [obind].
  rewrite (app_assoc lv), (hash_at_middle 36 _ m) by (by rewrite length_app, hash_length, Lv). cbn [obind].
  rewrite (app_assoc (lv ++ _)), (hash_at_middle 68 _ u) by (by rewrite !length_app, !hash_length, Lv). cbn [obind].
  assert (E0 : slice 0 4 (((lv ++ hash_bytes p) ++ hash_bytes m) ++ hash_bytes u ++ lt ++ lb ++ ln) = lv).
  { rewrite <- !app_assoc. by apply (slice_middle 0 4 []). }
  rewrite E0. rewrite (app_assoc _ (hash_bytes u)). set (pre := _ ++ hash_bytes u).
  assert (Lp : length pre = 100%nat) by (unfold pre; by rewrite !length_app, !hash_length, Lv).
  rewrite (slice_middle 100 8 pre lt) by done. rewrite (app_assoc pre lt), (slice_middle 108 4 _ lb) by (by rewrite ?length_app, ?Lp, ?Lt).
  rewrite (app_assoc _ lb), <- (app_nil_r ln), (slice_middle 112 8 _ ln) by (by rewrite ?length_app, ?Lp, ?Lt, ?Lb).
  unfold lv, lt, lb, ln. by rewrite !le_val_le_bytes_small by done.
Qed.

Lemma raw_from_bytes_Ok bytes h : raw_from_bytes bytes = Ok h → raw_wf h ∧ raw_serialize h = bytes.
Proof.
  unfold raw_from_bytes. destruct (Nat.eqb_spec (length bytes) HEADER_SIZE) as [Hl|]; cbn [negb]; [|done].
  unfold HEADER_SIZE in Hl. unfold hash_at.
  intros (p & Hp%ok_or_Ok%hash_of_list_Some & (m & Hm%ok_or_Ok%hash_of_list_Some & (u & Hu%ok_or_Ok%hash_of_list_Some & <-%Ok_inj)%obind_Ok)%obind_Ok)%obind_Ok.
  assert (HS : ∀ a n, (a + n ≤ 120)%nat → length (slice a (a + n) bytes) = n).
  { intros a n Ha. unfold slice. rewrite length_take, length_drop. lia. }
  assert (HB : ∀ a n, (a + n ≤ 120)%nat → le_val (slice a (a + n) bytes) < 256 ^ N.of_nat n).
  { intros a n Ha. rewrite <- (HS a n Ha) at 2. apply le_val_bound. }
  split.
  { split; [exact (HB 0%nat 4%nat ltac:(lia))|split; [exact (HB 100%nat 8%nat ltac:(lia))|split; [exact (HB 108%nat 4%nat ltac:(lia))|exact (HB 112%nat 8%nat ltac:(lia))]]]. }
  unfold raw_serialize. cbn [raw_version raw_prev_hash raw_merkle_root raw_utxo_root raw_timestamp raw_bits raw_nonce].
  rewrite Hp, Hm, Hu.
  rewrite (le_bytes_le_val' 4) by exact (HS 0%nat 4%nat ltac:(lia)). rewrite (le_bytes_le_val' 8 (slice 100 108 bytes)) by exact (HS 100%nat 8%nat ltac:(lia)).
  rewrite (le_bytes_le_val' 4) by exact (HS 108%nat 4%nat ltac:(lia)). rewrite (le_bytes_le_val' 8) by exact (HS 112%nat 8%nat ltac:(lia)).
  assert (HJ : ∀ a n rest, slice a (a + n) bytes ++ drop (a + n) bytes = rest → drop a bytes = rest).
  { intros a n rest <-. unfold slice. replace (a + n - a)%nat with n by lia. rewrite <- drop_drop. by rewrite take_drop. }
  symmetry. change bytes with (drop 0 bytes) at 1.
  apply (HJ 0%nat 4%nat). f_equal. apply (HJ 4%nat 32%nat). f_equal. apply (HJ 36%nat 32%nat). f_equal.
  apply (HJ 68%nat 32%nat). f_equal. apply (HJ 100%nat 8%nat). f_equal. apply (HJ 108%nat 4%nat). f_equal.
  apply (HJ 112%nat 8%nat). rewrite drop_ge by (cbn; lia). by rewrite app_nil_r.
Qed.

(** The header of a worker is the header of the chain: the two conversions
    are inverse, its 120 bytes are the canonical encoding of the block header,
    so its proof of work hash is the block's hash; the bytes read back, and
    exactly the strings of 120 bytes are read. *)
Theorem stratum_header_codec {B3 : Blake3} (h : RawBlockHeader120) (b : BlockHeader) (bytes : list byte) :
  raw_of_header (header_of_raw h) = h ∧ header_of_raw (raw_of_header b) = b ∧
  to_canonical_bytes (header_of_raw h) = Ok (raw_serialize h) ∧
  length (raw_serialize h) = HEADER_SIZE ∧ header_hash (E := StratumError) (header_of_raw h) = Ok (compute_pow_hash h) ∧
  (raw_from_bytes bytes = Ok h ↔ raw_wf h ∧ raw_serialize h = bytes) ∧
  ((∃ h', raw_from_bytes bytes = Ok h') ↔ length bytes = HEADER_SIZE).
Proof.
  split; [by destruct h|]. split; [by destruct b|]. split; [apply header_to_canonical_bytes|].
  split; [apply length_raw_serialize|]. split; [apply header_hash_ok|]. split.
  - split; [apply raw_from_bytes_Ok|]. intros [Hw <-]. by apply raw_roundtrip.
  - split; [intros [h' [_ <-]%raw_from_bytes_Ok]; apply length_raw_serialize|]. intros Hl.
    unfold raw_from_bytes. rewrite Hl. cbn [Nat.eqb negb HEADER_SIZE]. unfold hash_at.
    assert (HH : ∀ a, (a + 32 ≤ 120)%nat → ∃ x, hash_of_list (slice a (a + 32) bytes) = Some x).
    { intros a Ha. apply hash_of_list_is_Some. unfold slice, HEADER_SIZE in *. rewrite length_take, length_drop. lia. }
    destruct (HH 4%nat) as [x1 ->]; [lia|]. destruct (HH 36%nat) as [x2 ->]; [lia|]. destruct (HH 68%nat) as [x3 ->]; [lia|].
    cbn [ok_or obind]. by eexists.
Qed.

(** ** Laws of the targets *)

(** The digits of a mantissa. *)
Lemma digits2_bounds m : (2 ^ (Zpos (digits2_pos m) - 1) ≤ Zpos m < 2 ^ Zpos (digits2_pos m))%Z.
Proof.
  induction m as [m IH|m IH|]; cbn [digits2_pos]; [..|done]; rewrite Pos2Z.inj_succ;
    replace (Z.succ (Zpos (digits2_pos m)) - 1)%Z with (Z.succ (Zpos (digits2_pos m) - 1)) by lia;
    rewrite !Z.pow_succ_r by lia; lia.
Qed.

(** A machine float that is not below one is at least one as an integer. *)
Lemma as_u64_ge_one x : valid_binary 53 1024 x = true → SFltb x f64_one = false → is_nan x = false → 1 ≤ f64_as_u64 x.
Proof.
  intros Hv Hlt Hn. destruct x as [s|[]| |[] m e]; try done. unfold SFltb, f64_one in Hlt. cbn [SFcompare] in Hlt.
  apply andb_true_iff in Hv as [Hc%Z.eqb_eq _]. unfold fexp, emin in Hc. pose proof (digits2_bounds m) as HD.
  assert (He : (-52 ≤ e)%Z) by (destruct (Z.compare_spec e (-52)); [lia|done|lia]).
  assert (Hd : Zpos (digits2_pos m) = 53%Z) by lia. rewrite Hd in HD.
  assert (Hm : 4503599627370496 ≤ Npos m) by lia. clear HD Hlt.
  unfold f64_as_u64. apply N.min_glb; [|done]. destruct e as [|e|e]; [lia| |].
  - assert (2 ^ Npos e ≠ 0) by (by apply N.pow_nonzero). nia.
  - assert (HP : 2 ^ Npos e ≤ 2 ^ 52) by (apply N.pow_le_mono_r; lia).
    apply N.div_le_lower_bound; [by apply N.pow_nonzero|]. change (2 ^ 52) with 4503599627370496 in HP. lia.
Qed.

Lemma f64_as_u64_bound x : f64_as_u64 x ≤ U64_MAX.
Proof. destruct x as [s|[]| |[] m e]; cbn [f64_as_u64]; try done. apply N.le_min_r. Qed.

(** What a difficulty is scaled by, from one up. *)
Definition scaled (d : f64) : N := f64_as_u64 (f64_max (f64_mul d f64_thousand) f64_one).
Lemma scaled_ge_one d : valid_binary 53 1024 (f64_mul d f64_thousand) = true → 1 ≤ scaled d.
Proof.
  intros Hv. unfold scaled, f64_max. destruct (is_nan (f64_mul d f64_thousand)) eqn:En; [done|].
  change (is_nan f64_one) with false. cbn [andb]. destruct (SFltb _ f64_one) eqn:E; [done|]. by apply as_u64_ge_one.
Qed.

Section share_laws.
Context {B3 : Blake3} {U : Uint256} {UL : Uint256Laws}.

Lemma compact_to_target_val c :
  c < MOD32 →
  u256_val (compact_to_target c) =
  (let e := c / 2 ^ 24 in let m := c mod 2 ^ 23 in
   if N.testbit c 23 || (m =? 0) || (e =? 0) then 0
   else if e <=? 3 then m / 256 ^ (3 - e) else (m * 256 ^ (e - 3)) mod 2 ^ 256).
Proof.
  intros Hc. unfold compact_to_target. rewrite land_bit23, N.shiftr_div_pow2.
  change 0x7FFFFF with (N.ones 23). rewrite N.land_ones. cbv zeta.
  set (m := c mod 2 ^ 23). set (e := c / 2 ^ 24). assert (Hm : m < 2 ^ 23) by (by apply N.mod_lt).
  assert (Hm64 : m < MOD64) by (eapply N.lt_trans; [exact Hm|done]).
  destruct (N.testbit c 23 || (m =? 0) || (e =? 0)); [by rewrite u256_from_val|].
  destruct (N.leb_spec e 3) as [He|He].
  - rewrite N.shiftr_div_pow2, N.pow_mul_r. change (2 ^ 8) with 256. apply u256_from_val.
    eapply N.le_lt_trans; [apply div_le_self|done].
  - rewrite u256_shl_val, u256_from_val, N.shiftl_mul_pow2, N.pow_mul_r by done. done.
Qed.

(** Up to the exponent 32 the pool and the chain agree on a compact target. *)
Lemma compact_targets_agree c :
  c < MOD32 → c / 2 ^ 24 ≤ 32 → u256_val (compact_to_target c) = target_val (from_compact c).
Proof.
  intros Hc He. rewrite compact_to_target_val, from_compact_val by done. unfold compact_val. cbv zeta.
  destruct (_ || _ || _); [done|]. destruct (_ <=? 3) eqn:E3; [done|]. apply N.leb_gt in E3.
  rewrite (proj2 (N.leb_le _ _) He). apply N.mod_small.
  assert (Hm : c mod 2 ^ 23 < 2 ^ 23) by (by apply N.mod_lt).
  assert (HP : 256 ^ (c / 2 ^ 24 - 3) ≤ 256 ^ 29) by (apply N.pow_le_mono_r; lia).
  change (2 ^ 256) with (2 ^ 23 * 2 * 256 ^ 29). nia.
Qed.

Definition BASE : N := 0xFFFF * 256 ^ 26.
Lemma base_target_val : u256_val (compact_to_target 0x1d00ffff) = BASE.
Proof. rewrite compact_targets_agree by done. rewrite from_compact_val. vm_compute. reflexivity. Qed.

(** The number a hash must not exceed for a share of a difficulty. *)
Definition share_target_val (d : f64) : N :=
  if SFleb d f64_zero then 2 ^ 256 - 1
  else if SFltb d f64_one then N.min (BASE * f64_as_u64 (f64_min (f64_div f64_one d) f64_u64_max)) (2 ^ 256 - 1)
  else BASE / scaled d * 1000.

Lemma share_target_Ok d :
  valid_binary 53 1024 (f64_mul d f64_thousand) = true → ∃ t, share_target d = Ok t ∧ u256_val t = share_target_val d.
Proof.
  intros Hv. unfold share_target, share_target_val. destruct (SFleb d f64_zero).
  { exists u256_max. split; [done|apply u256_max_val]. }
  destruct (SFltb d f64_one).
  - set (mult := f64_as_u64 (f64_min _ _)).
    assert (Hmult : mult < MOD64) by (pose proof (f64_as_u64_bound (f64_min (f64_div f64_one d) f64_u64_max)); unfold mult; lia).
    destruct (u256_overflowing_val (compact_to_target 0x1d00ffff) (u256_from mult)) as [E1 E2].
    destruct (u256_overflowing_mul _ _) as [res ov]. cbn [fst snd] in *.
    rewrite base_target_val, u256_from_val in E1, E2 by done. subst ov. eexists. split; [done|].
    destruct (N.leb_spec (2 ^ 256) (BASE * mult)); [rewrite u256_max_val; lia|]. rewrite E2, N.mod_small by done. lia.
  - pose proof (scaled_ge_one d Hv) as H1. fold (scaled d). pose proof (f64_as_u64_bound (f64_max (f64_mul d f64_thousand) f64_one)) as H2.
    fold (scaled d) in H2. assert (Hs : scaled d < MOD64) by lia.
    destruct (u256_div_val (compact_to_target 0x1d00ffff) (u256_from (scaled d))) as (q & -> & Eq); [rewrite u256_from_val by done; lia|].
    rewrite base_target_val, u256_from_val in Eq by done. cbn [expect obind].
    assert (Hq : u256_val q ≤ BASE) by (rewrite Eq; apply div_le_self).
    assert (Hb : BASE * 1000 < 2 ^ 256) by done.
    destruct (u256_mul_val q (u256_from 1000)) as (t & -> & Et); [rewrite u256_from_val by done; lia|].
    exists t. split; [done|]. by rewrite Et, u256_from_val, Eq by done.
Qed.

(** The two readings of a hash as a number. *)
Definition meets (h : Hash) (target : N) : Prop := be_val (hash_bytes h) ≤ target ∨ le_val (hash_bytes h) ≤ target.
End share_laws.

(** A block candidate carries the header of its share, and its hash. *)
Lemma candidate_header {B3 : Blake3} {U : Uint256} job en1 en2 timestamp nonce d header hash :
  verify_worker_share job en1 en2 timestamp nonce d = Ok (BlockCandidate header hash) →
  header = job_header job (build_merkle_root job en1 en2) timestamp nonce ∧ hash = compute_pow_hash header.
Proof.
  unfold verify_worker_share. intros (st & _ & H)%obind_Ok. destruct (negb _); [done|]. destruct (_ || _); [|done].
  by injection H as <- <-.
Qed.

(** The three verdicts. *)
Lemma verify_worker_share_cases {B3 : Blake3} {U : Uint256} {UL : Uint256Laws} job extranonce1 extranonce2 timestamp nonce d
    (header := job_header job (build_merkle_root job extranonce1 extranonce2) timestamp nonce)
    (hash := compute_pow_hash header) (network := from_compact (j_bits job)) :
  j_bits job < MOD32 → valid_binary 53 1024 (f64_mul d f64_thousand) = true →
  let result := verify_worker_share job extranonce1 extranonce2 timestamp nonce d in
  let nt := u256_val (compact_to_target (j_bits job)) in
  result = Err HighHash ∧ ¬ meets hash (share_target_val d) ∨
  result = Ok (BlockCandidate header hash) ∧ meets hash (share_target_val d) ∧
    (is_met_by network hash = true ∨ le_val (hash_bytes hash) ≤ nt) ∨
  result = Ok (ValidShare hash) ∧ meets hash (share_target_val d) ∧ is_met_by network hash = false ∧
    nt < le_val (hash_bytes hash).
Proof.
  intros Hbits Hd. cbv zeta. unfold verify_worker_share. fold header. fold hash. fold network.
  destruct (share_target_Ok d Hd) as (t & -> & Et). cbn [obind]. unfold u256_leb, meets.
  rewrite u256_from_be_val, u256_from_le_val, Et by apply hash_length.
  assert (Hle : u256_val (compact_to_target (j_bits job)) ≤ target_val network).
  { unfold network. rewrite compact_to_target_val, from_compact_val by done. unfold compact_val. cbv zeta.
    destruct (_ || _ || _); [done|]. destruct (_ <=? 3); [done|]. destruct (_ <=? 32); [by apply N.Div0.mod_le|].
    pose proof (N.mod_lt (j_bits job mod 2 ^ 23 * 256 ^ (j_bits job / 2 ^ 24 - 3)) (2 ^ 256) ltac:(done)). lia. }
  rewrite is_met_by_val.
  set (nt := u256_val (compact_to_target (j_bits job))) in *. set (be := be_val _). set (le := le_val _). set (tv := target_val network) in *.
  set (st := share_target_val d). clearbody nt be le tv st.
  assert (HS : (be <=? st) || (le <=? st) = true ↔ be ≤ st ∨ le ≤ st) by by rewrite orb_true_iff, !N.leb_le.
  assert (HN : (be <=? tv) || (be <=? nt) || (le <=? nt) = true ↔ be ≤ tv ∨ le ≤ nt)
    by (rewrite !orb_true_iff, !N.leb_le; lia).
  rewrite N.leb_le, N.leb_gt. assert (HQ : tv < be ∧ nt < le ↔ ¬ (be ≤ tv ∨ le ≤ nt)) by lia.
  rewrite HQ, <- HS, <- HN. clear.
  destruct ((be <=? st) || _), ((be <=? tv) || _ || _); cbn [negb]; intuition congruence.
Qed.

(** The check of a share, for a difficulty whose thousandfold is a machine
    number: it never panics. The hash is that of the header with the Merkle root
    the two extranonces give; when, read in neither byte order, it is at most the
    target of the difficulty, the share is refused. Otherwise it is a block
    candidate when it meets the target of the chain, or when its bytes reversed
    are at most the compact target as the pool reads it, and a plain share when
    not. Up to the exponent 32 the pool reads compact targets as the chain does. *)
Theorem verify_worker_share_spec {B3 : Blake3} {U : Uint256} {UL : Uint256Laws} (job : StratumJob)
    (extranonce1 extranonce2 : list byte) (timestamp nonce : N) (d : f64)
    (header := job_header job (build_merkle_root job extranonce1 extranonce2) timestamp nonce)
    (hash := compute_pow_hash header) (network := from_compact (j_bits job))
    (Hbits : j_bits job < MOD32) (Hd : valid_binary 53 1024 (f64_mul d f64_thousand) = true) :
  let result := verify_worker_share job extranonce1 extranonce2 timestamp nonce d in
  (result = Err HighHash ↔ ¬ meets hash (share_target_val d)) ∧
  (result = Ok (BlockCandidate header hash) ↔
     meets hash (share_target_val d) ∧
     (is_met_by network hash = true ∨ le_val (hash_bytes hash) ≤ u256_val (compact_to_target (j_bits job)))) ∧
  (result = Ok (ValidShare hash) ↔
     meets hash (share_target_val d) ∧ is_met_by network hash = false ∧
     u256_val (compact_to_target (j_bits job)) < le_val (hash_bytes hash)) ∧
  (result = Err HighHash ∨ result = Ok (BlockCandidate header hash) ∨ result = Ok (ValidShare hash)) ∧
  (j_bits job / 2 ^ 24 ≤ 32 → u256_val (compact_to_target (j_bits job)) = target_val network).
Proof.
  cbv zeta. pose proof (compact_targets_agree _ Hbits) as HA. fold network in HA.
  pose proof (verify_worker_share_cases job extranonce1 extranonce2 timestamp nonce d Hbits Hd) as HC. cbv zeta in HC.
  fold header in HC. fold hash in HC. fold network in HC.
  rewrite <- N.nle_gt in *. rewrite <- (not_true_iff_false (is_met_by network hash)) in *.
  revert HC. generalize (meets hash (share_target_val d)), (is_met_by network hash = true),
    (le_val (hash_bytes hash) ≤ u256_val (compact_to_target (j_bits job))).
  intros M X L HC. clear -HA HC. split_and!; try exact HA; destruct HC as [[-> ?]|[[-> ?]|[-> ?]]]; intuition congruence.
Qed.

Section toy.
#[local] Existing Instances toy_blake3 toy_uint.

Lemma toy_uint_laws : Uint256Laws.
Proof.
  split; cbn; try done.
  - intros a b Hab. exists (a * b). by rewrite (proj2 (N.ltb_lt _ _) Hab).
  - intros a b Hb. exists (a / b). by rewrite (proj2 (N.eqb_neq _ _) Hb).
Qed.

Definition toy_job : StratumJob := mkJob "1" ZERO [x01] [x02] [ZERO] 1 0x1d00ffff ZERO 100 true.

(** The difficulty 1 is a little below the base target, because of the scaling. *)
Example share_target_one : share_target_val f64_one = BASE / 1000 * 1000 ∧ share_target_val f64_one < BASE.
Proof. split; [reflexivity|]. vm_compute. reflexivity. Qed.

Lemma verify_worker_share_spec_witness :
  (verify_worker_share toy_job [] [x03] 100 7 f64_one = Err HighHash ∨
   verify_worker_share toy_job [] [x03] 100 7 f64_one =
     Ok (BlockCandidate (job_header toy_job (build_merkle_root toy_job [] [x03]) 100 7)
           (compute_pow_hash (job_header toy_job (build_merkle_root toy_job [] [x03]) 100 7))) ∨
   verify_worker_share toy_job [] [x03] 100 7 f64_one =
     Ok (ValidShare (compute_pow_hash (job_header toy_job (build_merkle_root toy_job [] [x03]) 100 7)))) ∧
  u256_val (compact_to_target 0x1d00ffff) = target_val (from_compact 0x1d00ffff).
Proof.
  destruct (verify_worker_share_spec (UL := toy_uint_laws) toy_job [] [x03] 100 7 f64_one ltac:(reflexivity) ltac:(vm_compute; reflexivity))
    as (_ & _ & _ & H & HA). split; [exact H|]. apply HA. vm_compute. discriminate.
Defined.
End toy.
