(* ===== verification/StratumServer.v ===== *)
(** * Stratum: worker sessions and the server

    [session.rs], [protocol.rs] and [server.rs] of [crates/scytale-stratum]: the
    sessions of the connected workers, the jobs on offer and the requests the
    workers send. JSON values and the crate [hex] are parameters ([Json],
    [HexDecode]); a message is the data it carries, not its JSON text. A request
    is handled in one step: the state the tasks share is a set of concurrent
    maps, and each handler reads the jobs once and changes its own session.
    Reachable states and the shares credited on the way are [served]. *)

From Stdlib Require Import Strings.Ascii.
From Corelib Require Import SpecFloat.
From S2P Require Import Prelude Bytes Primitives Types Codec Transaction Words Target Consensus Stratum.
Local Open Scope N_scope.
Local Open Scope scy_scope.

Definition MAX_ACTIVE_JOBS : nat := 16.
Definition MAX_WORKER_SESSIONS : nat := 2048.

(** [serde_json::Value] and [hex::decode]. *)
Class Json := {
  Value : Type;
  as_str : Value → option string;
  as_u64 : Value → option N;
  as_array : Value → option (list Value)
}.
Class HexDecode := hex_decode : string → option (list byte).

(** ** Sessions *)

(** [(job_id, nonce, extranonce2_u64)]. *)
Definition share_key : Type := string * N * N.
Definition key_job (k : share_key) : string := k.1.1.

Record WorkerSession := mkSession {
  session_id : N;
  extranonce1 : list byte;
  authorized_worker : option string;
  authorized_address : option string;
  difficulty : f64;
  valid_shares : N;
  invalid_shares : N;
  submitted_shares : gset share_key
}.

Definition new_session (session_id : N) (extranonce1 : list byte) (initial_diff : f64) : WorkerSession :=
  mkSession session_id extranonce1 None None initial_diff 0 0 ∅.
Definition is_authorized (s : WorkerSession) : bool := bool_decide (is_Some (authorized_worker s)).

Definition with_authorization (worker address : option string) (s : WorkerSession) : WorkerSession :=
  mkSession (session_id s) (extranonce1 s) worker address (difficulty s) (valid_shares s) (invalid_shares s)
    (submitted_shares s).
Definition with_shares (valid invalid : N) (shares : gset share_key) (s : WorkerSession) : WorkerSession :=
  mkSession (session_id s) (extranonce1 s) (authorized_worker s) (authorized_address s) (difficulty s) valid invalid shares.

Definition record_valid_share (s : WorkerSession) : WorkerSession :=
  with_shares (wrap64 (valid_shares s + 1)) (invalid_shares s) (submitted_shares s) s.
Definition record_invalid_share (s : WorkerSession) : WorkerSession :=
  with_shares (valid_shares s) (wrap64 (invalid_shares s + 1)) (submitted_shares s) s.
Definition check_and_record_share (k : share_key) (s : WorkerSession) : bool * WorkerSession :=
  (bool_decide (k ∉ submitted_shares s),
   with_shares (valid_shares s) (invalid_shares s) ({[k]} ∪ submitted_shares s) s).
Definition prune_shares_except (valid_job_ids : gset string) (s : WorkerSession) : WorkerSession :=
  with_shares (valid_shares s) (invalid_shares s) (filter (λ k, key_job k ∈ valid_job_ids) (submitted_shares s)) s.

(** ** Messages *)

Section server.
Context {B3 : Blake3} {U : Uint256} {J : Json} {HD : HexDecode}.

Record StratumRequest := mkRequest { req_id : option Value; method : string; params : Value }.
(** The results the server sends: [true], the answer to a subscription, [[]]. *)
Inductive RpcResult := ResultTrue | ResultSubscribed (extranonce1 : list byte) (extranonce2_length : N) | ResultEmpty.
Record StratumResponse := mkResponse { resp_id : option Value; result : RpcResult + Z }.
Definition success (id : option Value) (r : RpcResult) : StratumResponse := mkResponse id (inl r).
Definition error (id : option Value) (code : Z) : StratumResponse := mkResponse id (inr code).
Definition is_success (r : StratumResponse) : bool := match result r with inl _ => true | inr _ => false end.

Inductive StratumNotification :=
| set_difficulty (d : f64)
| notify (job_id : string) (prev_hash : Hash) (coinbase1 coinbase2 : list byte) (merkle_branches : list Hash)
    (version bits curtime : N) (clean_jobs : bool) (utxo_root : Hash).
Definition notify_job (job : StratumJob) : StratumNotification :=
  notify (job_id job) (j_prev_hash job) (coinbase1 job) (coinbase2 job) (merkle_branches job) (j_version job)
    (j_bits job) (curtime job) (clean_jobs job) (j_utxo_root job).
Inductive Outbound := Response (r : StratumResponse) | Notification (n : StratumNotification).

Record BlockFoundEvent := mkFound {
  found_header : RawBlockHeader120;
  pow_hash : Hash;
  found_job : StratumJob;
  worker : string;
  found_extranonce1 : list byte;
  found_extranonce2 : list byte
}.

(** ** The server *)

Record StratumServer := mkServer {
  sessions : gmap N (WorkerSession * list Outbound);
  current_job : option StratumJob;
  jobs : gmap string StratumJob;
  job_order : list string;
  session_counter : N;
  default_difficulty : f64;
  block_candidates : list BlockFoundEvent
}.
Definition new_server (default_difficulty : f64) : StratumServer := mkServer ∅ None ∅ [] 1 default_difficulty [].
Definition with_sessions (m : gmap N (WorkerSession * list Outbound)) (srv : StratumServer) : StratumServer :=
  mkServer m (current_job srv) (jobs srv) (job_order srv) (session_counter srv) (default_difficulty srv)
    (block_candidates srv).

(** [while order.len() > MAX_ACTIVE_JOBS]. *)
Fixpoint drop_old_jobs (order : list string) (jobs : gmap string StratumJob) : list string * gmap string StratumJob :=
  match order with
  | old_job_id :: rest =>
      if (MAX_ACTIVE_JOBS <? length order)%nat then drop_old_jobs rest (delete old_job_id jobs) else (order, jobs)
  | [] => ([], jobs)
  end.

Definition broadcast_job (job : StratumJob) (srv : StratumServer) : StratumServer :=
  let jobs := <[job_id job := job]> (jobs srv) in
  let '(order, jobs) := drop_old_jobs (job_order srv ++ [job_id job]) jobs in
  let valid_job_ids := list_to_set order in
  let send (e : WorkerSession * list Outbound) :=
    (prune_shares_except valid_job_ids e.1, e.2 ++ [Notification (notify_job job)]) in
  mkServer (send <$> sessions srv) (Some job) jobs order (session_counter srv) (default_difficulty srv)
    (block_candidates srv).

(** [u64::from_str_radix(s.trim_start_matches("0x"), 16)]. *)
Fixpoint trim_start_0x (s : list byte) : list byte :=
  match s with
  | x30 :: x78 :: rest => trim_start_0x rest
  | _ => s
  end.
Fixpoint u64_digits (acc : N) (s : list byte) : option N :=
  match s with
  | [] => Some acc
  | c :: s => d ← hex_digit c; m ← checked_mul acc 16; a ← checked_add m d; u64_digits a s
  end.
Definition u64_from_str_radix16 (s : list byte) : option N :=
  match s with
  | [] | [x2b] => None
  | x2b :: s => u64_digits 0 s
  | _ => u64_digits 0 s
  end.
Definition u64_from_hex (s : string) : option N :=
  u64_from_str_radix16 (trim_start_0x (String.list_byte_of_string s)).

(** The numbered steps 1 to 4 of [mining.submit]. *)
Record Share := mkShare {
  s_key : share_key;
  s_job : StratumJob;
  s_extranonce2 : list byte;
  s_timestamp : N;
  s_nonce : N
}.
Definition str_or_empty (v : Value) : string := default EmptyString (as_str v).
Definition read_timestamp (v : Value) (curtime : N) : N :=
  match as_str v with
  | Some s => default curtime (u64_from_hex s)
  | None => default curtime (as_u64 v)
  end.
Definition read_nonce (v : Value) : outcome Z N :=
  match as_str v with
  | Some s => ok_or (u64_from_hex s) INVALID_PARAMS
  | None => ok_or (as_u64 v) INVALID_PARAMS
  end.
Definition read_share (jobs : gmap string StratumJob) (job_v en2_v time_v nonce_v : Value) : outcome Z Share :=
  let job_id := str_or_empty job_v in
  let? active_job := ok_or (jobs !! job_id) JOB_NOT_FOUND in
  let? en2_bytes := ok_or (hex_decode (str_or_empty en2_v)) INVALID_PARAMS in
  if negb (length en2_bytes =? 4)%nat then Err INVALID_PARAMS
  else
    let timestamp := read_timestamp time_v (curtime active_job) in
    let? nonce := read_nonce nonce_v in
    Ok (mkShare (job_id, nonce, be_val en2_bytes) active_job en2_bytes timestamp nonce).

(** What a handler leaves behind: the session, the lines pushed to it, the
    block candidates it sent and its answer. *)
Record Reply := mkReply {
  r_session : WorkerSession;
  r_pushed : list Outbound;
  r_found : list BlockFoundEvent;
  r_response : StratumResponse
}.

(** The steps 5 and 6. *)
Definition judge_share (session : WorkerSession) (id : option Value) (worker : string) (sh : Share) :
    outcome Empty_set Reply :=
  let '(fresh, session) := check_and_record_share (s_key sh) session in
  if negb fresh then Ok (mkReply (record_invalid_share session) [] [] (error id DUPLICATE_SHARE))
  else
    match verify_worker_share (s_job sh) (extranonce1 session) (s_extranonce2 sh) (s_timestamp sh) (s_nonce sh)
            (difficulty session) with
    | Ok (ValidShare _) => Ok (mkReply (record_valid_share session) [] [] (success id ResultTrue))
    | Ok (BlockCandidate header hash) =>
        Ok (mkReply (record_valid_share session) []
              [mkFound header hash (s_job sh) worker (extranonce1 session) (s_extranonce2 sh)]
              (success id ResultTrue))
    | Err HighHash => Ok (mkReply (record_invalid_share session) [] [] (error id LOW_DIFFICULTY_SHARE))
    | Err err => Ok (mkReply (record_invalid_share session) [] [] (error id (rpc_code err)))
    | Panic => Panic
    | Diverge => Diverge
    end.

Definition mining_submit (srv : StratumServer) (session : WorkerSession) (req : StratumRequest) :
    outcome Empty_set Reply :=
  match as_array (params req) with
  | Some (worker_v :: job_v :: en2_v :: time_v :: nonce_v :: _) =>
      match read_share (jobs srv) job_v en2_v time_v nonce_v with
      | Ok sh => judge_share session (req_id req) (str_or_empty worker_v) sh
      | Err code => Ok (mkReply (record_invalid_share session) [] [] (error (req_id req) code))
      | Panic => Panic
      | Diverge => Diverge
      end
  | _ => Ok (mkReply session [] [] (error (req_id req) INVALID_PARAMS))
  end.

Definition mining_subscribe (srv : StratumServer) (session : WorkerSession) (req : StratumRequest) : Reply :=
  let pushed := match sessions srv !! session_id session with
                | Some _ => Notification (set_difficulty (difficulty session))
                            :: match current_job srv with Some job => [Notification (notify_job job)] | None => [] end
                | None => []
                end in
  mkReply session pushed [] (success (req_id req) (ResultSubscribed (extranonce1 session) 4)).

(** [worker_name.split_once('.')], the part before. *)
Fixpoint before_dot (s : string) : option string :=
  match s with
  | EmptyString => None
  | String c s => if Ascii.eqb c (Ascii.ascii_of_N 46) then Some EmptyString else String c <$> before_dot s
  end.
Definition mining_authorize (session : WorkerSession) (req : StratumRequest) : Reply :=
  let session := match as_array (params req) with
                 | Some ps =>
                     let worker_name := default "anonymous"%string (head ps ≫= as_str) in
                     with_authorization (Some worker_name) (Some (default worker_name (before_dot worker_name))) session
                 | None => session
                 end in
  mkReply session [] [] (success (req_id req) ResultTrue).

Definition dispatch_rpc (srv : StratumServer) (session : WorkerSession) (req : StratumRequest) :
    outcome Empty_set Reply :=
  let m := method req in
  if String.eqb m "mining.subscribe" then Ok (mining_subscribe srv session req)
  else if String.eqb m "mining.authorize" then Ok (mining_authorize session req)
  else if String.eqb m "mining.submit" then mining_submit srv session req
  else if String.eqb m "mining.extranonce.subscribe" then Ok (mkReply session [] [] (success (req_id req) ResultTrue))
  else if String.eqb m "mining.get_transactions" then Ok (mkReply session [] [] (success (req_id req) ResultEmpty))
  else Ok (mkReply session [] [] (error (req_id req) METHOD_NOT_FOUND)).

(** ** A connection: it opens, sends lines, closes *)

Definition connect (srv : StratumServer) : option StratumServer :=
  if (MAX_WORKER_SESSIONS <=? size (sessions srv))%nat then None
  else
    let id := session_counter srv in
    let session := new_session id (replicate 4 x00) (default_difficulty srv) in
    Some (mkServer (<[id := (session, [])]> (sessions srv)) (current_job srv) (jobs srv) (job_order srv)
            (wrap64 (id + 1)) (default_difficulty srv) (block_candidates srv)).

(** A line that is a request. *)
Definition handle_request (srv : StratumServer) (id : N) (req : StratumRequest) : outcome Empty_set StratumServer :=
  match sessions srv !! id with
  | None => Ok srv
  | Some (session, out) =>
      let? reply := dispatch_rpc srv session req in
      Ok (mkServer (<[id := (r_session reply, out ++ r_pushed reply ++ [Response (r_response reply)])]> (sessions srv))
            (current_job srv) (jobs srv) (job_order srv) (session_counter srv) (default_difficulty srv)
            (block_candidates srv ++ r_found reply))
  end.

(** A line that is not. *)
Definition handle_garbage (srv : StratumServer) (id : N) : StratumServer :=
  match sessions srv !! id with
  | None => srv
  | Some (session, out) => with_sessions (<[id := (session, out ++ [Response (error None PARSE_ERROR)])]> (sessions srv)) srv
  end.

Definition disconnect (srv : StratumServer) (id : N) : StratumServer := with_sessions (delete id (sessions srv)) srv.

(** The node takes the oldest block candidate from the queue. *)
Definition receive (srv : StratumServer) : StratumServer :=
  mkServer (sessions srv) (current_job srv) (jobs srv) (job_order srv) (session_counter srv) (default_difficulty srv)
    (drop 1 (block_candidates srv)).
End server.

(** ** The jobs on offer *)

Section laws.
Context {B3 : Blake3} {U : Uint256} {J : Json} {HD : HexDecode}.

Lemma drop_old_jobs_spec order jobs :
  NoDup order → dom jobs = list_to_set order →
  let r := drop_old_jobs order jobs in
  r.1 = drop (length order - MAX_ACTIVE_JOBS) order ∧ NoDup r.1 ∧ dom r.2 = list_to_set r.1 ∧ r.2 ⊆ jobs.
Proof.
  cbv zeta. revert jobs; induction order as [|old rest IH]; intros jobs Hnd Hdom.
  { simpl. split_and!; by rewrite ?drop_nil. }
  cbn [drop_old_jobs]. destruct (Nat.ltb_spec MAX_ACTIVE_JOBS (length (old :: rest))) as [Hlt|Hge]; cbn [fst snd].
  - apply NoDup_cons in Hnd as [Hold Hnd]. destruct (IH (delete old jobs)) as (E & Hnd' & Hd & Hsub); [done|..].
    { rewrite dom_delete_L, Hdom. cbn [list_to_set]. apply set_eq. intros x.
      rewrite elem_of_difference, elem_of_union, elem_of_singleton, elem_of_list_to_set. naive_solver. }
    split_and!; [|done..|].
    + rewrite E. cbn [length] in Hlt |- *. by replace (S (length rest) - MAX_ACTIVE_JOBS)%nat with (S (length rest - MAX_ACTIVE_JOBS)) by lia.
    + etrans; [exact Hsub|]. apply delete_subseteq.
  - by replace (length (old :: rest) - MAX_ACTIVE_JOBS)%nat with O by lia.
Qed.

Record jobs_inv (srv : StratumServer) : Prop := {
  ji_length : (length (job_order srv) ≤ MAX_ACTIVE_JOBS)%nat;
  ji_nodup : NoDup (job_order srv);
  ji_dom : dom (jobs srv) = list_to_set (job_order srv);
  ji_ids : map_Forall (λ id job, job_id job = id) (jobs srv);
  ji_current : job_id <$> current_job srv = last (job_order srv)
}.

Lemma broadcast_job_jobs job srv :
  jobs_inv srv → job_id job ∉ job_order srv →
  jobs_inv (broadcast_job job srv) ∧
  job_order (broadcast_job job srv) = drop (S (length (job_order srv)) - MAX_ACTIVE_JOBS) (job_order srv ++ [job_id job]) ∧
  jobs (broadcast_job job srv) ⊆ <[job_id job := job]> (jobs srv).
Proof.
  intros [Hl Hnd Hd Hids Hc] Hfresh. unfold broadcast_job.
  assert (Hnd' : NoDup (job_order srv ++ [job_id job])).
  { apply NoDup_app. split_and!; [done| |apply NoDup_singleton]. intros x Hx ->%list_elem_of_singleton. done. }
  destruct (drop_old_jobs_spec (job_order srv ++ [job_id job]) (<[job_id job := job]> (jobs srv)) Hnd') as (E & Hn & Hdm & Hs).
  { rewrite dom_insert_L, Hd, list_to_set_app_L. cbn [list_to_set]. set_solver. }
  destruct (drop_old_jobs _ _) as [order' jobs']. cbn [fst snd] in *. cbn [jobs job_order].
  rewrite length_app, Nat.add_1_r in E. split; [|done]. split; cbn [job_order jobs current_job]; [|done|done| |].
  - rewrite E, length_drop, length_app. cbn [length]. lia.
  - intros id j Hj. pose proof (lookup_weaken _ _ _ _ Hj Hs) as Hj'. destruct (decide (id = job_id job)) as [->|Hne].
    + rewrite lookup_insert_eq in Hj'. by injection Hj' as ->.
    + rewrite lookup_insert_ne in Hj' by done. by apply Hids in Hj'.
  - rewrite E, drop_app_le by (unfold MAX_ACTIVE_JOBS; lia). by rewrite last_snoc.
Qed.

(** ** What a request does to its session *)

(** The share a [mining.submit] names. *)
Definition submitted_share (srv : StratumServer) (req : StratumRequest) : option Share :=
  match as_array (params req) with
  | Some (_ :: job_v :: en2_v :: time_v :: nonce_v :: _) =>
      match read_share (jobs srv) job_v en2_v time_v nonce_v with Ok sh => Some sh | _ => None end
  | _ => None
  end.
Definition is_submit (req : StratumRequest) : bool := String.eqb (method req) "mining.submit".

Definition same_worker (s s' : WorkerSession) : Prop :=
  session_id s' = session_id s ∧ extranonce1 s' = extranonce1 s ∧ difficulty s' = difficulty s.

(** The hash of the header a share stands for, and whether it is worth credit. *)
Definition share_hash (session : WorkerSession) (sh : Share) : Hash :=
  compute_pow_hash (job_header (s_job sh) (build_merkle_root (s_job sh) (extranonce1 session) (s_extranonce2 sh))
                      (s_timestamp sh) (s_nonce sh)).
Definition verdict (session : WorkerSession) (sh : Share) : outcome StratumError ShareVerificationResult :=
  verify_worker_share (s_job sh) (extranonce1 session) (s_extranonce2 sh) (s_timestamp sh) (s_nonce sh) (difficulty session).

Inductive replied (srv : StratumServer) (s : WorkerSession) (req : StratumRequest) : Reply → Prop :=
| replied_quiet r :
    same_worker s (r_session r) → valid_shares (r_session r) = valid_shares s →
    submitted_shares (r_session r) = submitted_shares s → r_found r = [] →
    (is_submit req = true → is_success (r_response r) = false) → replied srv s req r
| replied_refused r sh :
    is_submit req = true → submitted_share srv req = Some sh → (∀ v, verdict s sh ≠ Ok v) →
    same_worker s (r_session r) → valid_shares (r_session r) = valid_shares s →
    submitted_shares (r_session r) = {[s_key sh]} ∪ submitted_shares s → r_found r = [] →
    is_success (r_response r) = false → replied srv s req r
| replied_credited r sh v :
    is_submit req = true → submitted_share srv req = Some sh → s_key sh ∉ submitted_shares s →
    verdict s sh = Ok v →
    same_worker s (r_session r) → valid_shares (r_session r) = wrap64 (valid_shares s + 1) →
    submitted_shares (r_session r) = {[s_key sh]} ∪ submitted_shares s →
    is_success (r_response r) = true →
    r_found r = match v with
                | ValidShare _ => []
                | BlockCandidate header hash =>
                    [mkFound header hash (s_job sh)
                       (match as_array (params req) with Some (w :: _) => str_or_empty w | _ => EmptyString end)
                       (extranonce1 s) (s_extranonce2 sh)]
                end → replied srv s req r.

Lemma read_share_Ok js job_v en2_v time_v nonce_v sh :
  read_share js job_v en2_v time_v nonce_v = Ok sh →
  js !! key_job (s_key sh) = Some (s_job sh) ∧ length (s_extranonce2 sh) = 4%nat.
Proof.
  unfold read_share. intros (job & Hj%ok_or_Ok & (en2 & _ & H)%obind_Ok)%obind_Ok.
  destruct (Nat.eqb_spec (length en2) 4) as [Hl|]; cbn [negb] in H; [|done].
  apply obind_Ok in H as (n & _ & <-%Ok_inj). done.
Qed.

Lemma dispatch_replied srv s req r : dispatch_rpc srv s req = Ok r → replied srv s req r.
Proof.
  unfold dispatch_rpc. set (P := replied srv s req).
  destruct (String.eqb_spec (method req) "mining.subscribe") as [Em|_]; [|destruct (String.eqb_spec (method req) "mining.authorize") as [Em|_];
    [|destruct (String.eqb_spec (method req) "mining.submit") as [Em|Hm]]].
  1,2: assert (Hm : is_submit req = false) by (unfold is_submit; by rewrite Em).
  - intros <-%Ok_inj. apply replied_quiet; try done. by rewrite Hm.
  - intros <-%Ok_inj. apply replied_quiet; [unfold mining_authorize; cbn; by destruct (as_array _)..|done|by rewrite Hm].
  - assert (Hm : is_submit req = true) by (unfold is_submit; by rewrite Em). unfold mining_submit.
    destruct (as_array (params req)) as [[|w [|j [|e [|t [|n ps]]]]]|] eqn:Ea;
      try (intros <-%Ok_inj; by apply replied_quiet).
    destruct (read_share (jobs srv) j e t n) as [sh|code| |] eqn:Er; try done; [|intros <-%Ok_inj; by apply replied_quiet].
    assert (Hs : submitted_share srv req = Some sh) by (unfold submitted_share; by rewrite Ea, Er).
    unfold judge_share. cbn [check_and_record_share]. case_bool_decide as Hk; cbn [negb].
    + destruct (verify_worker_share _ _ _ _ _ _) as [v|err| |] eqn:Ev; [| |done..].
      * destruct v; intros <-%Ok_inj; eapply replied_credited; try done; cbn; by rewrite ?Ea.
      * assert (Hv : ∀ v, verdict s sh ≠ Ok v) by (intros v; unfold verdict; cbn in Ev; by rewrite Ev).
        destruct err; intros <-%Ok_inj; by eapply replied_refused.
    + intros <-%Ok_inj. apply replied_quiet; try done. cbn. set_solver.
  - assert (Hs : is_submit req = false) by (unfold is_submit; by apply String.eqb_neq).
    destruct (String.eqb _ _); [|destruct (String.eqb _ _)]; intros <-%Ok_inj; apply replied_quiet; try done; by rewrite Hs.
Qed.

(** ** Reachable states

    [served dd used log srv]: the server started with the difficulty [dd] can
    be in the state [srv] after the jobs [used] were broadcast, each under a
    fresh name, and the shares [log] were answered with [true]. *)

Definition credited (srv : StratumServer) (id : N) (req : StratumRequest) : list (N * share_key) :=
  match sessions srv !! id with
  | Some (s, _) =>
      match dispatch_rpc srv s req, submitted_share srv req with
      | Ok r, Some sh => if is_submit req && is_success (r_response r) then [(id, s_key sh)] else []
      | _, _ => []
      end
  | None => []
  end.

Inductive served (dd : f64) : gset string → list (N * share_key) → StratumServer → Prop :=
| served_start : served dd ∅ [] (new_server dd)
| served_connect used log srv srv' :
    served dd used log srv → session_counter srv + 1 < MOD64 → connect srv = Some srv' → served dd used log srv'
| served_request used log srv srv' id req :
    served dd used log srv → handle_request srv id req = Ok srv' → served dd used (log ++ credited srv id req) srv'
| served_garbage used log srv id : served dd used log srv → served dd used log (handle_garbage srv id)
| served_broadcast used log srv job :
    served dd used log srv → job_id job ∉ used → served dd ({[job_id job]} ∪ used) log (broadcast_job job srv)
| served_disconnect used log srv id : served dd used log srv → served dd used log (disconnect srv id)
| served_receive used log srv : served dd used log srv → served dd used log (receive srv).

(** A queued block candidate solves its job. *)
Definition solved (dd : f64) (e : BlockFoundEvent) : Prop :=
  found_extranonce1 e = replicate 4 x00 ∧ length (found_extranonce2 e) = 4%nat ∧
  ∃ timestamp nonce,
    verify_worker_share (found_job e) (found_extranonce1 e) (found_extranonce2 e) timestamp nonce dd =
      Ok (BlockCandidate (found_header e) (pow_hash e)).

Record session_inv (dd : f64) (srv : StratumServer) (id : N) (s : WorkerSession) : Prop := {
  si_id : session_id s = id;
  si_extranonce1 : extranonce1 s = replicate 4 x00;
  si_difficulty : difficulty s = dd;
  si_counter : id < session_counter srv;
  si_shares : ∀ k, k ∈ submitted_shares s → is_Some (jobs srv !! key_job k)
}.

Definition credits_of (id : N) (log : list (N * share_key)) : list share_key :=
  (filter (λ p, p.1 = id) log).*2.

Record log_inv (used : gset string) (log : list (N * share_key)) (srv : StratumServer) : Prop := {
  li_nodup : NoDup log;
  li_known : ∀ id k, (id, k) ∈ log → key_job k ∈ used ∧ id < session_counter srv;
  li_recorded : ∀ id k s out, (id, k) ∈ log → sessions srv !! id = Some (s, out) → is_Some (jobs srv !! key_job k) →
    k ∈ submitted_shares s;
  li_counted : ∀ id s out, sessions srv !! id = Some (s, out) → valid_shares s = wrap64 (N.of_nat (length (credits_of id log)))
}.

Record server_inv (dd : f64) (used : gset string) (log : list (N * share_key)) (srv : StratumServer) : Prop := {
  vi_jobs : jobs_inv srv;
  vi_used : dom (jobs srv) ⊆ used;
  vi_difficulty : default_difficulty srv = dd;
  vi_counter : session_counter srv < MOD64;
  vi_size : (size (sessions srv) ≤ MAX_WORKER_SESSIONS)%nat;
  vi_sessions : ∀ id s out, sessions srv !! id = Some (s, out) → session_inv dd srv id s;
  vi_log : log_inv used log srv;
  vi_found : Forall (solved dd) (block_candidates srv)
}.

Lemma credits_of_app id l1 l2 : credits_of id (l1 ++ l2) = credits_of id l1 ++ credits_of id l2.
Proof. unfold credits_of. by rewrite filter_app, fmap_app. Qed.
Lemma elem_of_credits id log k : k ∈ credits_of id log ↔ (id, k) ∈ log.
Proof.
  unfold credits_of. rewrite list_elem_of_fmap. split.
  - intros ([i k'] & -> & Hf). apply list_elem_of_filter in Hf as [<- Hf]. done.
  - intros Hk. exists (id, k). split; [done|]. by apply list_elem_of_filter.
Qed.
Lemma credits_of_fresh id log : (∀ i k, (i, k) ∈ log → i < id) → credits_of id log = [].
Proof.
  intros H. destruct (credits_of id log) as [|k l] eqn:E; [done|].
  assert (Hk : k ∈ credits_of id log) by (rewrite E; left). apply elem_of_credits, H in Hk. lia.
Qed.

Lemma connect_inv dd used log srv srv' :
  server_inv dd used log srv → session_counter srv + 1 < MOD64 → connect srv = Some srv' → server_inv dd used log srv'.
Proof.
  intros [HJ Hu Hd Hc Hs HS HL HF] Hw. unfold connect.
  destruct (Nat.leb_spec MAX_WORKER_SESSIONS (size (sessions srv))) as [|Hlt]; [done|]. intros [= <-].
  rewrite wrap64_small by done.
  split; cbn [jobs sessions default_difficulty session_counter block_candidates]; try done; [by destruct HJ; split|..].
  - destruct (sessions srv !! session_counter srv) as [e|] eqn:E.
    + rewrite map_size_insert_Some by eauto. lia.
    + rewrite map_size_insert_None by done. lia.
  - intros id s out. rewrite lookup_insert_Some. intros [[<- [= <- <-]]|[Hne Hl]].
    + split; cbn; [done..|lia|]. intros k Hk. by apply elem_of_empty in Hk.
    + apply HS in Hl as [? ? ? ? ?]. split; cbn; try done. lia.
  - destruct HL as [Hn Hk Hr Hv]. split; cbn [sessions session_counter jobs]; [done|..].
    + intros id k Hl. apply Hk in Hl as [? ?]. split; [done|lia].
    + intros id k s out Hl. rewrite lookup_insert_Some. intros [[<- _]|[_ Hl']] Hj; [|by eapply Hr].
      apply Hk in Hl as [_ Hl]. lia.
    + intros id s out. rewrite lookup_insert_Some. intros [[<- [= <- <-]]|[_ Hl]]; [|by eapply Hv].
      rewrite credits_of_fresh; [done|]. intros i k Hi. by apply Hk in Hi as [_ ?].
Qed.

Lemma disconnect_inv dd used log srv id :
  server_inv dd used log srv → server_inv dd used log (disconnect srv id).
Proof.
  intros [HJ Hu Hd Hc Hs HS HL HF]. unfold disconnect, with_sessions.
  split; cbn [jobs sessions default_difficulty session_counter block_candidates]; try done; [by destruct HJ; split|..].
  - rewrite map_size_delete. destruct (sessions srv !! id); cbn; lia.
  - intros id' s out [_ Hl]%lookup_delete_Some. apply HS in Hl as []. by split.
  - destruct HL as [Hn Hk Hr Hv]. split; cbn [sessions session_counter jobs]; try done.
    + intros i k s out Hl [_ Hl']%lookup_delete_Some. by eapply Hr.
    + intros i s out [_ Hl]%lookup_delete_Some. by eapply Hv.
Qed.

Lemma garbage_inv dd used log srv id :
  server_inv dd used log srv → server_inv dd used log (handle_garbage srv id).
Proof.
  intros [HJ Hu Hd Hc Hs HS HL HF]. unfold handle_garbage. destruct (sessions srv !! id) as [[s out]|] eqn:E; [|by split].
  assert (HM : ∀ i s' out', <[id:=(s, out ++ [Response (error None PARSE_ERROR)])]> (sessions srv) !! i = Some (s', out') →
             ∃ o, sessions srv !! i = Some (s', o)).
  { intros i s' out'. rewrite lookup_insert_Some. intros [[<- [= <- <-]]|[_ ?]]; eauto. }
  unfold with_sessions. split; cbn [jobs sessions default_difficulty session_counter block_candidates]; try done; [by destruct HJ; split|..].
  - by rewrite map_size_insert_Some by eauto.
  - intros i s' out' [o Hl]%HM. apply HS in Hl as []. by split.
  - destruct HL as [Hn Hk Hr Hv]. split; cbn [sessions session_counter jobs]; try done.
    + intros i k s' out' Hl [o Hl']%HM. by eapply Hr.
    + intros i s' out' [o Hl]%HM. by eapply Hv.
Qed.

Lemma receive_inv dd used log srv : server_inv dd used log srv → server_inv dd used log (receive srv).
Proof.
  intros [[] Hu Hd Hc Hs HS [] HF]. unfold receive.
  split; cbn [jobs sessions default_difficulty session_counter block_candidates]; try done.
  - intros id s out Hl. apply HS in Hl as []. by split.
  - by apply Forall_drop.
Qed.

Lemma broadcast_sessions job srv id s out :
  sessions (broadcast_job job srv) !! id = Some (s, out) →
  ∃ s0 out0, sessions srv !! id = Some (s0, out0) ∧
    s = prune_shares_except (list_to_set (job_order (broadcast_job job srv))) s0.
Proof.
  unfold broadcast_job. destruct (drop_old_jobs _ _) as [order js]. cbn [sessions job_order].
  rewrite lookup_fmap. intros ([s0 o0] & Hs0 & [= -> ->])%fmap_Some. eauto.
Qed.

Lemma broadcast_inv dd used log srv job :
  server_inv dd used log srv → job_id job ∉ used →
  server_inv dd ({[job_id job]} ∪ used) log (broadcast_job job srv).
Proof.
  intros [HJ Hu Hd Hc Hs HS HL HF] Hfresh.
  destruct (broadcast_job_jobs job srv HJ) as (HJ' & _ & Hsub).
  { intros Hin. apply Hfresh, Hu. rewrite (ji_dom _ HJ). by apply elem_of_list_to_set. }
  pose proof (broadcast_sessions job srv) as HB.
  assert (HC : session_counter (broadcast_job job srv) = session_counter srv ∧
               default_difficulty (broadcast_job job srv) = default_difficulty srv ∧
               block_candidates (broadcast_job job srv) = block_candidates srv ∧
               size (sessions (broadcast_job job srv)) = size (sessions srv)).
  { unfold broadcast_job. destruct (drop_old_jobs _ _). cbn. by rewrite map_size_fmap. }
  destruct HC as (HC1 & HC2 & HC3 & HC4). set (srv' := broadcast_job job srv) in *.
  assert (HDM : ∀ j, is_Some (jobs srv' !! j) ↔ j ∈ (list_to_set (job_order srv') : gset string)).
  { intros j. by rewrite <- (ji_dom _ HJ'), elem_of_dom. }
  split; [done|..]; rewrite ?HC1, ?HC2, ?HC3, ?HC4; try done.
  - intros j [b Hj]%elem_of_dom. pose proof (lookup_weaken _ _ _ _ Hj Hsub) as Hb.
    apply lookup_insert_Some in Hb as [[<- _]|[_ Hb]]; [set_solver|]. apply elem_of_union_r, Hu. apply elem_of_dom. by exists b.
  - intros id s out (s0 & o0 & Hl & ->)%HB. apply HS in Hl as [? ? ? ? _]. split; cbn; [done..|by rewrite HC1|].
    intros k [Hk _]%elem_of_filter. by apply HDM.
  - destruct HL as [Hn Hk Hr Hv]. split; [done|..].
    + intros id k [? ?]%Hk. rewrite HC1. split; [set_solver|done].
    + intros id k s out Hl (s0 & o0 & Hl0 & ->)%HB Hj. cbn. apply elem_of_filter. split; [by apply HDM|].
      eapply Hr; [done..|]. destruct Hj as [b Hj]. pose proof (lookup_weaken _ _ _ _ Hj Hsub) as Hb.
      apply lookup_insert_Some in Hb as [[E _]|[_ Hb]]; [|by exists b]. exfalso. apply Hfresh. rewrite E. by apply (Hk id k).
    + intros id s out (s0 & o0 & Hl0 & ->)%HB. cbn. by eapply Hv.
Qed.

(** The shares credited for a request. *)
Lemma credited_replied srv id req s out r :
  sessions srv !! id = Some (s, out) → dispatch_rpc srv s req = Ok r →
  (credited srv id req = [] ∧ valid_shares (r_session r) = valid_shares s ∧ submitted_shares s ⊆ submitted_shares (r_session r) ∧
   r_found r = []) ∨
  (∃ sh v, credited srv id req = [(id, s_key sh)] ∧ s_key sh ∉ submitted_shares s ∧
     submitted_share srv req = Some sh ∧ verdict s sh = Ok v ∧
     valid_shares (r_session r) = wrap64 (valid_shares s + 1) ∧
     submitted_shares (r_session r) = {[s_key sh]} ∪ submitted_shares s).
Proof.
  intros Hl Hr. unfold credited. rewrite Hl, Hr.
  destruct (dispatch_replied _ _ _ _ Hr) as [r _ Hv Hsub Hf Hq|r sh Hm Hsh Hno _ Hv Hsub Hf Hq|r sh v Hm Hsh Hk Hver _ Hv Hsub Hq Hf].
  - left. split; [|by rewrite Hsub]. destruct (submitted_share srv req); [|done].
    destruct (is_submit req); [|done]. by rewrite Hq.
  - left. rewrite Hsh, Hq, andb_false_r. split_and!; [done..|set_solver|done].
  - right. exists sh, v. by rewrite Hsh, Hm, Hq.
Qed.

Lemma submitted_share_job srv req sh :
  submitted_share srv req = Some sh → jobs srv !! key_job (s_key sh) = Some (s_job sh) ∧ length (s_extranonce2 sh) = 4%nat.
Proof.
  unfold submitted_share. destruct (as_array _) as [[|? [|j [|e [|t [|n ?]]]]]|]; try done.
  destruct (read_share _ _ _ _ _) eqn:E; [|done..]. intros [= <-]. by eapply read_share_Ok.
Qed.

Lemma replied_shares srv s req r k :
  replied srv s req r → k ∈ submitted_shares (r_session r) →
  k ∈ submitted_shares s ∨ is_Some (jobs srv !! key_job k).
Proof.
  intros Hr Hk. assert (HE : ∀ sh, submitted_share srv req = Some sh → submitted_shares (r_session r) = {[s_key sh]} ∪ submitted_shares s →
    k ∈ submitted_shares s ∨ is_Some (jobs srv !! key_job k)).
  { intros sh Hsh E. rewrite E in Hk. apply elem_of_union in Hk as [->%elem_of_singleton|Hk]; [|by left].
    right. apply submitted_share_job in Hsh as [-> _]. done. }
  destruct Hr; [|by eapply HE..]. left. congruence.
Qed.

Lemma replied_worker srv s req r : replied srv s req r → same_worker s (r_session r).
Proof. by destruct 1. Qed.

Lemma replied_found dd srv s id req r :
  session_inv dd srv id s → replied srv s req r → Forall (solved dd) (r_found r).
Proof.
  intros [_ He Hd _ _] [r' _ _ _ -> _|r' sh _ _ _ _ _ _ -> _|r' sh v _ Hsh _ Hv _ _ _ _ ->]; [done..|].
  destruct v as [|hd h]; [done|]. apply Forall_singleton. unfold solved. cbn. apply submitted_share_job in Hsh as [_ Hl].
  split_and!; [done..|]. exists (s_timestamp sh), (s_nonce sh). unfold verdict in Hv. by rewrite Hd in Hv.
Qed.

(** A queued candidate is for a job on offer. *)
Lemma found_job_offered srv s req r :
  replied srv s req r → Forall (λ e, ∃ id, jobs srv !! id = Some (found_job e)) (r_found r).
Proof.
  intros [r' _ _ _ -> _|r' sh _ _ _ _ _ _ -> _|r' sh v _ Hsh _ _ _ _ _ _ ->]; [done..|].
  destruct v as [|hd h]; [done|]. apply Forall_singleton. cbn. apply submitted_share_job in Hsh as [Hj _]. eauto.
Qed.

Lemma request_inv dd used log srv srv' id req :
  server_inv dd used log srv → handle_request srv id req = Ok srv' →
  server_inv dd used (log ++ credited srv id req) srv'.
Proof.
  intros HI. unfold handle_request. destruct (sessions srv !! id) as [[s out]|] eqn:El.
  2: { intros <-%Ok_inj. unfold credited. by rewrite El, app_nil_r. }
  intros (r & Hr & <-%Ok_inj)%obind_Ok. destruct HI as [HJ Hu Hd Hc Hs HS HL HF].
  pose proof (HS _ _ _ El) as HSI. pose proof (dispatch_replied _ _ _ _ Hr) as HR.
  pose proof (replied_worker _ _ _ _ HR) as (W1 & W2 & W3).
  split; cbn [jobs sessions default_difficulty session_counter block_candidates]; try done; [by destruct HJ; split|..].
  - by rewrite map_size_insert_Some by eauto.
  - intros i s' out'. rewrite lookup_insert_Some. intros [[<- [= <- <-]]|[_ Hl]]; [|by apply HS in Hl as []; split].
    destruct HSI as [? ? ? ? Hsh]. split; cbn [session_counter jobs]; [congruence..|done|].
    intros k Hk. eapply replied_shares in Hk as [Hk|Hk]; [by apply Hsh|done|exact HR].
  - destruct HL as [Hn Hk Hre Hv].
    destruct (credited_replied _ _ _ _ _ _ El Hr) as [(-> & Hva & Hsub & _)|(sh & v & -> & Hfr & Hsh & _ & Hva & Hsub)].
    + rewrite app_nil_r. split; cbn [sessions session_counter jobs]; try done.
      * intros i k s' out' Hin. rewrite lookup_insert_Some. intros [[<- [= <- <-]]|[_ Hl]] Hj; [|by eapply Hre].
        apply Hsub. by eapply Hre.
      * intros i s' out'. rewrite lookup_insert_Some. intros [[<- [= <- <-]]|[_ Hl]]; [|by eapply Hv].
        rewrite Hva. by eapply Hv.
    + destruct (submitted_share_job _ _ _ Hsh) as [Hjob _].
      assert (Hnew : (id, s_key sh) ∉ log). { intros Hin. apply Hfr. eapply Hre; [done..|by rewrite Hjob]. }
      split; cbn [sessions session_counter jobs].
      * apply NoDup_app. split_and!; [done| |apply NoDup_singleton]. by intros p Hp ->%list_elem_of_singleton.
      * intros i k [Hin|[= -> ->]%list_elem_of_singleton]%elem_of_app; [by apply Hk|].
        split; [apply Hu, elem_of_dom; by rewrite Hjob|exact (si_counter _ _ _ _ HSI)].
      * intros i k s' out' Hin. rewrite lookup_insert_Some. intros [[<- [= <- <-]]|[Hne Hl]] Hj.
        -- rewrite Hsub. apply elem_of_app in Hin as [Hin|[= ->]%list_elem_of_singleton]; [|set_solver].
           apply elem_of_union_r. by eapply Hre.
        -- apply elem_of_app in Hin as [Hin|[= -> _]%list_elem_of_singleton]; [by eapply Hre|done].
      * intros i s' out'. rewrite lookup_insert_Some, credits_of_app. intros [[<- [= <- <-]]|[Hne Hl]].
        -- rewrite Hva, (Hv _ _ _ El), length_app. unfold credits_of at 3. rewrite filter_cons_True by done. cbn [length fmap list_fmap].
           unfold wrap64. rewrite N.Div0.add_mod_idemp_l. f_equal. cbn. lia.
        -- rewrite (Hv _ _ _ Hl). unfold credits_of at 3. rewrite filter_cons_False by done. cbn. by rewrite app_nil_r.
  - apply Forall_app. split; [done|]. by eapply replied_found.
Qed.

Lemma served_inv dd used log srv : served dd used log srv → server_inv dd used log srv.
Proof.
  induction 1 as [| | | | | |].
  - split; try done.
    + split; try done; [apply Nat.le_0_l|constructor].
    + apply Nat.le_0_l.
    + split; [constructor|by intros ? ? ?%elem_of_nil|by intros ? ? ? ? ?%elem_of_nil|done].
  - by eapply connect_inv.
  - by eapply request_inv.
  - by apply garbage_inv.
  - by apply broadcast_inv.
  - by apply disconnect_inv.
  - by apply receive_inv.
Qed.
End laws.

(** ** Properties *)

(** In every reachable state at most sixteen jobs are on offer, under
    distinct names, the newest last; the table of jobs holds exactly these,
    each under its own name; at most 2048 sessions are open, each under its own
    number and with the server's difficulty; a session remembers shares of jobs
    on offer only, so what it keeps is bounded; and every block candidate queued
    for the node solves its job for the network. *)
Theorem stratum_server_invariant {B3 : Blake3} {U : Uint256} {J : Json} {HD : HexDecode} (dd : f64) (used : gset string)
    (log : list (N * share_key)) (srv : StratumServer) (Hs : served dd used log srv) :
  (length (job_order srv) ≤ MAX_ACTIVE_JOBS)%nat ∧ NoDup (job_order srv) ∧
  dom (jobs srv) = list_to_set (job_order srv) ∧ map_Forall (λ id job, job_id job = id) (jobs srv) ∧
  job_id <$> current_job srv = last (job_order srv) ∧
  (size (sessions srv) ≤ MAX_WORKER_SESSIONS)%nat ∧
  (∀ id s out, sessions srv !! id = Some (s, out) →
     session_id s = id ∧ difficulty s = dd ∧ extranonce1 s = replicate 4 x00 ∧
     ∀ k, k ∈ submitted_shares s → key_job k ∈ job_order srv) ∧
  Forall (solved dd) (block_candidates srv).
Proof.
  destruct (served_inv _ _ _ _ Hs) as [[Hl Hn Hd Hi Hc] _ _ _ Hz HS _ HF]. split_and!; try done.
  intros id s out [H1 H2 H3 _ H5]%HS. split_and!; [done..|]. intros k Hk%H5.
  apply elem_of_dom in Hk. rewrite Hd in Hk. by apply elem_of_list_to_set in Hk.
Qed.

(** A session is credited for a share at most once, over the whole life of
    the server: no pair of a session and a share is answered with [true] twice,
    although the shares of a retired job are forgotten, and the counter of valid
    shares of an open session is the number of its credited shares (modulo
    2^64). *)
Theorem shares_credited_once {B3 : Blake3} {U : Uint256} {J : Json} {HD : HexDecode} (dd : f64) (used : gset string)
    (log : list (N * share_key)) (srv : StratumServer) (Hs : served dd used log srv) :
  NoDup log ∧
  ∀ id s out, sessions srv !! id = Some (s, out) →
    NoDup (credits_of id log) ∧ valid_shares s = wrap64 (N.of_nat (length (credits_of id log))).
Proof.
  destruct (vi_log _ _ _ _ (served_inv _ _ _ _ Hs)) as [Hn _ _ Hv]. split; [done|].
  intros id s out Hl. split; [|by eapply Hv]. apply NoDup_fmap_2_strong; [|by apply NoDup_filter].
  intros [i k] [i' k'] [E _]%list_elem_of_filter [E' _]%list_elem_of_filter. cbn in *. congruence.
Qed.

(** A share of a job on offer is judged: the server answers it (no panic),
    with [true] exactly when the session has not submitted it before and its
    hash meets the session's target in one of the two byte orders, else with
    the code of a duplicate or of a low difficulty; it is remembered either
    way; the counter of the verdict moves; and a block candidate is queued
    exactly when it also meets the network's target, carrying the header whose
    hash was judged. *)
Theorem mining_submit_spec {B3 : Blake3} {U : Uint256} {UL : Uint256Laws} {J : Json} {HD : HexDecode}
    (srv : StratumServer) (s : WorkerSession) (req : StratumRequest) (sh : Share) (hash := share_hash s sh)
    (network := from_compact (j_bits (s_job sh)))
    (Hm : is_submit req = true) (Hsh : submitted_share srv req = Some sh) (Hbits : j_bits (s_job sh) < MOD32)
    (Hd : valid_binary 53 1024 (f64_mul (difficulty s) f64_thousand) = true) :
  ∃ r, dispatch_rpc srv s req = Ok r ∧
    (result (r_response r) = inl ResultTrue ↔
       s_key sh ∉ submitted_shares s ∧ meets hash (share_target_val (difficulty s))) ∧
    (result (r_response r) = inr DUPLICATE_SHARE ↔ s_key sh ∈ submitted_shares s) ∧
    (result (r_response r) = inr LOW_DIFFICULTY_SHARE ↔
       s_key sh ∉ submitted_shares s ∧ ¬ meets hash (share_target_val (difficulty s))) ∧
    submitted_shares (r_session r) = {[s_key sh]} ∪ submitted_shares s ∧
    (valid_shares (r_session r), invalid_shares (r_session r)) =
      (if is_success (r_response r) then (wrap64 (valid_shares s + 1), invalid_shares s)
       else (valid_shares s, wrap64 (invalid_shares s + 1))) ∧
    (r_found r ≠ [] ↔
       result (r_response r) = inl ResultTrue ∧
       (is_met_by network hash = true ∨ le_val (hash_bytes hash) ≤ u256_val (compact_to_target (j_bits (s_job sh))))) ∧
    Forall (λ e, pow_hash e = hash ∧ compute_pow_hash (found_header e) = hash ∧ found_job e = s_job sh) (r_found r).
Proof.
  unfold is_submit in Hm. apply String.eqb_eq in Hm. unfold dispatch_rpc. rewrite Hm. cbn [String.eqb Ascii.eqb Bool.eqb].
  unfold mining_submit. unfold submitted_share in Hsh.
  destruct (as_array (params req)) as [[|w [|j [|e [|t [|n ps]]]]]|]; try done.
  destruct (read_share (jobs srv) j e t n) as [sh'| | |]; try done. injection Hsh as ->.
  unfold judge_share. cbn [check_and_record_share]. case_bool_decide as Hk; cbn [negb].
  2: { eexists. split; [reflexivity|]. cbn. split_and!; try done; try set_solver; try (split; [done|tauto]). }
  pose proof (verify_worker_share_cases (s_job sh) (extranonce1 s) (s_extranonce2 sh) (s_timestamp sh) (s_nonce sh)
    (difficulty s) Hbits Hd) as HC.
  cbv zeta in HC. fold (share_hash s sh) in HC. fold hash in HC. fold network in HC. cbn [with_shares extranonce1 difficulty].
  destruct HC as [[-> HM]|[(-> & HM & HN)|(-> & HM & HN1 & HN2)]]; eexists; (split; [reflexivity|]); cbn [result r_response r_found r_session error success];
    split_and!; try done; try (split; [done|tauto]); try (split; intros; try split; done).
  - split; [done|by intros [? _]].
  - by apply Forall_singleton.
  - split; [done|]. intros [_ [H|H]]; [congruence|lia].
Qed.

(** A submission is judged without looking at the worker: in a reachable
    state two sessions that have both submitted a share, or both have not, get
    the same answer and queue the same block candidate, whether they are
    authorized or not, and whatever name is in the request's place. So one
    share, found once, is credited in every session that sends it. *)
Theorem submission_ignores_worker {B3 : Blake3} {U : Uint256} {J : Json} {HD : HexDecode} (dd : f64) (used : gset string)
    (log : list (N * share_key)) (srv : StratumServer) (id1 id2 : N) (s1 s2 : WorkerSession) (out1 out2 : list Outbound)
    (req : StratumRequest) (r1 : Reply) (Hs : served dd used log srv)
    (H1 : sessions srv !! id1 = Some (s1, out1)) (H2 : sessions srv !! id2 = Some (s2, out2)) (Hm : is_submit req = true)
    (Hk : ∀ sh, submitted_share srv req = Some sh → s_key sh ∈ submitted_shares s1 ↔ s_key sh ∈ submitted_shares s2)
    (Hr : dispatch_rpc srv s1 req = Ok r1) :
  ∃ r2, dispatch_rpc srv s2 req = Ok r2 ∧ r_response r2 = r_response r1 ∧ r_found r2 = r_found r1.
Proof.
  destruct (vi_sessions _ _ _ _ (served_inv _ _ _ _ Hs) _ _ _ H1) as [_ E1 D1 _ _].
  destruct (vi_sessions _ _ _ _ (served_inv _ _ _ _ Hs) _ _ _ H2) as [_ E2 D2 _ _].
  unfold is_submit in Hm. apply String.eqb_eq in Hm. unfold dispatch_rpc in *. rewrite Hm in *. cbn [String.eqb Ascii.eqb Bool.eqb] in *.
  unfold mining_submit, submitted_share in *.
  destruct (as_array (params req)) as [[|w [|j [|e [|t [|n ps]]]]]|]; try (injection Hr as <-; by eexists).
  destruct (read_share (jobs srv) j e t n) as [sh| | |]; try done; [|injection Hr as <-; by eexists].
  specialize (Hk sh eq_refl). unfold judge_share in *. cbn [check_and_record_share extranonce1 difficulty with_shares] in *.
  rewrite E1, D1 in Hr. rewrite E2, D2.
  rewrite <- (bool_decide_ext (s_key sh ∉ submitted_shares s1) (s_key sh ∉ submitted_shares s2)) by tauto.
  destruct (bool_decide _); cbn [negb] in *; [|injection Hr as <-; by eexists].
  destruct (verify_worker_share _ _ _ _ _ _) as [[]|[]| |]; try done; injection Hr as <-; by eexists.
Qed.

(** ** Witnesses *)

Section toy.
#[local] Existing Instances toy_blake3 toy_uint.

Inductive toy_scalar := SStr (s : string) | SNum (n : N).
Inductive toy_value := TScalar (v : toy_scalar) | TArr (l : list toy_scalar).
Definition toy_json : Json := {|
  Value := toy_value;
  as_str := λ v, match v with TScalar (SStr s) => Some s | _ => None end;
  as_u64 := λ v, match v with TScalar (SNum n) => Some n | _ => None end;
  as_array := λ v, match v with TArr l => Some (TScalar <$> l) | _ => None end
|}.
Definition toy_hex : HexDecode := λ s,
  let bytes := String.list_byte_of_string s in
  if Nat.even (length bytes) then match from_hex_chunks bytes with Ok l => Some l | _ => None end else None.
#[local] Existing Instances toy_json toy_hex.

Definition toy_offering : StratumServer := broadcast_job toy_job (new_server f64_zero).
Definition toy_open : StratumServer := default toy_offering (connect toy_offering).
Definition toy_two : StratumServer := default toy_offering (connect toy_open).
Definition toy_request : StratumRequest :=
  mkRequest None "mining.submit" (TArr [SStr "w.1"; SStr "1"; SStr "00000001"; SNum 100; SStr "0x0A"]).
Definition toy_key : share_key := ("1"%string, 10, 1).
Definition toy_credit : StratumServer := match handle_request toy_two 1 toy_request with Ok s => s | _ => toy_two end.

Lemma toy_open_Some : connect toy_offering = Some toy_open.
Proof. reflexivity. Qed.
Lemma toy_two_Some : connect toy_open = Some toy_two.
Proof. reflexivity. Qed.
Lemma toy_served_two : served f64_zero {["1"%string]} [] toy_two.
Proof.
  apply (served_connect _ _ _ toy_open); [|done|exact toy_two_Some].
  apply (served_connect _ _ _ toy_offering); [|done|exact toy_open_Some].
  replace {["1"%string]} with ({[job_id toy_job]} ∪ ∅ : gset string) by (by rewrite union_empty_r_L).
  apply served_broadcast; [constructor|set_solver].
Qed.

Lemma toy_credit_Ok : handle_request toy_two 1 toy_request = Ok toy_credit.
Proof.
  unfold toy_credit. destruct (handle_request toy_two 1 toy_request) eqn:E; [done|..];
    exfalso; revert E; vm_compute; discriminate.
Qed.
Lemma toy_credited : credited toy_two 1 toy_request = [(1, toy_key)].
Proof. vm_compute. reflexivity. Qed.
Lemma toy_served_after : served f64_zero {["1"%string]} [(1, toy_key)] toy_credit.
Proof. rewrite <- toy_credited. exact (served_request _ _ [] _ _ _ _ toy_served_two toy_credit_Ok). Qed.

Lemma stratum_server_invariant_witness : map_Forall (λ id job, job_id job = id) (jobs toy_credit).
Proof. apply (stratum_server_invariant f64_zero {["1"%string]} [(1, toy_key)] toy_credit toy_served_after). Defined.

Lemma shares_credited_once_witness : NoDup [(1, toy_key)].
Proof. apply (shares_credited_once f64_zero {["1"%string]} [(1, toy_key)] toy_credit toy_served_after). Defined.

Definition toy_session (id : N) : WorkerSession := new_session id (replicate 4 x00) f64_zero.
Definition toy_share : Share := mkShare toy_key toy_job [x00; x00; x00; x01] 100 10.
Lemma toy_submitted : submitted_share toy_two toy_request = Some toy_share.
Proof. vm_compute. reflexivity. Qed.

Lemma mining_submit_spec_witness :
  ∃ r, dispatch_rpc toy_two (toy_session 1) toy_request = Ok r ∧
    (result (r_response r) = inr DUPLICATE_SHARE ↔ toy_key ∈ submitted_shares (toy_session 1)).
Proof.
  destruct (mining_submit_spec (UL := toy_uint_laws) toy_two (toy_session 1) toy_request toy_share eq_refl toy_submitted
    ltac:(reflexivity) ltac:(vm_compute; reflexivity)) as (r & Hr & _ & Hd & _).
  exists r. split; [exact Hr|exact Hd].
Defined.

Definition toy_reply : Reply :=
  match dispatch_rpc toy_two (toy_session 1) toy_request with Ok r => r | _ => mkReply (toy_session 1) [] [] (error None 0) end.
Lemma toy_reply_Ok : dispatch_rpc toy_two (toy_session 1) toy_request = Ok toy_reply.
Proof.
  unfold toy_reply. destruct (dispatch_rpc toy_two (toy_session 1) toy_request) eqn:E; [done|..];
    exfalso; revert E; vm_compute; discriminate.
Qed.

Lemma submission_ignores_worker_witness :
  ∃ r2, dispatch_rpc toy_two (toy_session 2) toy_request = Ok r2 ∧ r_response r2 = r_response toy_reply.
Proof.
  destruct (submission_ignores_worker f64_zero {["1"%string]} [] toy_two 1 2 (toy_session 1) (toy_session 2) [] [] toy_request toy_reply
    toy_served_two ltac:(vm_compute; reflexivity) ltac:(vm_compute; reflexivity) eq_refl ltac:(intros sh _; reflexivity) toy_reply_Ok)
    as (r2 & H & E & _).
  exists r2. split; [exact H|exact E].
Defined.
End toy.
