(* ===== verification/StratumService.v ===== *)
(** * The mining pool service of the node

    [apps/scytale-node/src/stratum_service.rs]: how the node makes a job of a
    block template, and how it makes a block of the candidate a worker found.
    The broadcaster runs once a second and reads the tip, the template and the
    set of unspent outputs of the node in three calls, which are three arguments
    of [tick]; the candidates are submitted one by one ([ingest]). *)

From Corelib Require Import SpecFloat.
From S2P Require Import Prelude Bytes Primitives Types Codec Transaction Utxo Merkle Genesis.
From S2P Require Import Words Target Work Tables Storage StorageSpec Store Script Authorization Mempool MempoolInv.
From S2P Require Import MempoolSpec MempoolSelect MempoolTheorems Consensus Chain Vm VmAdapter Mining Node.
From S2P Require Import Stratum StratumServer.
Local Open Scope N_scope.
Local Open Scope scy_scope.

(** [format!("{:x}", n)]. *)
Fixpoint hex_loop (fuel : nat) (n : N) (acc : list byte) : list byte :=
  match fuel with
  | O => acc
  | S fuel => if n <? 16 then hex_char n :: acc else hex_loop fuel (n / 16) (hex_char (n mod 16) :: acc)
  end.
Definition format_hex (n : N) : string := String.string_of_list_byte (hex_loop 16 n []).

Record CachedJob := mkCached { template : BlockTemplate; other_txs : list Transaction }.

Section state.
Context {J : Json}.
Record Service := mkService {
  server : StratumServer;
  jobs_cache : gmap string CachedJob;
  job_counter : N;
  last_tip : Hash
}.
Definition start_service (stratum_diff : f64) : Service := mkService (new_server stratum_diff) ∅ 1 ZERO.
End state.

Section service.
Context {B3 : Blake3}.

(** The coinbase with the 16 bytes of authorization: the height, then room for
    the two extranonces. *)
Definition pool_coinbase (height : N) (cb : Transaction) (extranonces : list byte) : Transaction :=
  mkTransaction TRANSACTION_VERSION_1 [TxIn_new OutPoint_null (le_bytes 8 height ++ extranonces)] (outputs cb) 0.
Definition with_coinbase (t : BlockTemplate) (cb : Transaction) : BlockTemplate :=
  mkBlockTemplate (t_previous t) (t_height t) (t_compact t) (cb :: drop 1 (t_transactions t)) (t_root t) (t_timestamp t).
Definition with_root (t : BlockTemplate) (root : Hash) : BlockTemplate :=
  mkBlockTemplate (t_previous t) (t_height t) (t_compact t) (t_transactions t) root (t_timestamp t).

(** The template a job is made of: its coinbase replaced and its root
    recomputed. *)
Definition pool_template {E} (utxos : UtxoSet) (t : BlockTemplate) : outcome E BlockTemplate :=
  let? cb := expect (head (t_transactions t)) in
  let t := with_coinbase t (pool_coinbase (t_height t) cb (replicate 8 x00)) in
  let '(utxos, applied) := apply_block (t_transactions t) (t_height t) utxos in
  match applied with
  | Ok _ => let? root := compute_utxo_root utxos in Ok (with_root t root)
  | Err _ => Ok t
  | Panic => Panic
  | Diverge => Diverge
  end.

Definition job_branches (other_hashes : list Hash) : outcome StratumError (list Hash) :=
  match other_hashes with
  | [] => Ok [ZERO]
  | [h] => Ok [h]
  | _ => calculate_merkle_branches other_hashes
  end.

(** The job of a template; none when the coinbase is too short or cannot be
    encoded. *)
Definition make_job (jid : string) (clean : bool) (t : BlockTemplate) : outcome StratumError (option StratumJob) :=
  let? cb := expect (head (t_transactions t)) in
  match to_canonical_bytes cb with
  | Ok cb_bytes =>
      if (64 <=? length cb_bytes)%nat then
        let? other_hashes := omap_list txid (drop 1 (t_transactions t)) in
        let? branches := job_branches other_hashes in
        Ok (Some (mkJob jid (t_previous t) (take 56 cb_bytes) (drop 64 cb_bytes) branches 1 (t_compact t) (t_root t)
                    (t_timestamp t) clean))
      else Ok None
  | Err _ => Ok None
  | Panic => Panic
  | Diverge => Diverge
  end.

(** The cache of the templates, pruned above 64 entries. *)
Definition remember_job (jid : string) (t : BlockTemplate) (cache : gmap string CachedJob) : gmap string CachedJob :=
  let cache := if (64 <? size cache)%nat then ∅ else cache in
  <[jid := mkCached t (drop 1 (t_transactions t))]> cache.
End service.

Section broadcaster.
Context {B3 : Blake3} {ED : Ed25519} {BC : Bincode} {WM : Wasmi} {PC : Payload TxContext} {BS : BlockStore} {J : Json}.

Definition no_error {E A} (m : outcome E A) (k : A → outcome Empty_set Service) (warn : Service) : outcome Empty_set Service :=
  match m with
  | Ok a => k a
  | Err _ => Ok warn
  | Panic => Panic
  | Diverge => Diverge
  end.

(** One tick of the broadcaster: [tip], the node [s] and [utxos] are what its
    three calls to the node return. *)
Definition tick (miner_payout_script : list byte) (now : N) (tip : Hash) (s : Shared) (utxos : UtxoSet) (svc : Service) :
    outcome Empty_set Service :=
  let tip_changed := negb (bool_decide (tip = last_tip svc)) in
  if tip_changed || bool_decide (last_tip svc = ZERO) then
    no_error (build_mining_template miner_payout_script now s) (λ t,
      no_error (E := Empty_set) (pool_template utxos t) (λ t,
        let jid := format_hex (job_counter svc) in
        no_error (make_job jid tip_changed t) (λ job,
          match job with
          | Some job =>
              Ok (mkService (broadcast_job job (server svc)) (remember_job jid t (jobs_cache svc))
                    (wrap64 (job_counter svc + 1)) tip)
          | None => Ok svc
          end) svc) svc) svc
  else Ok svc.

(** What becomes of a block candidate: dropped, or submitted to the node. *)
Definition block_of_candidate (cache : gmap string CachedJob) (e : BlockFoundEvent) : option Block :=
  match cache !! job_id (found_job e) with
  | None => None
  | Some cached =>
      match from_canonical_bytes (raw_coinbase (found_job e) (found_extranonce1 e) (found_extranonce2 e)) with
      | Ok coinbase_tx => Some (mkBlock (header_of_raw (found_header e)) (coinbase_tx :: other_txs cached))
      | _ => None
      end
  end.
Definition ingest (now : option N) (later : N) (cache : gmap string CachedJob) (e : BlockFoundEvent) : nodeM (option bool) :=
  match block_of_candidate cache e with
  | Some b => let! accepted := submit_external_block now later b in sret (Some accepted)
  | None => sret None
  end.
End broadcaster.

(** ** The coinbase a worker completes *)

Section coinbase.
Context {B3 : Blake3}.

Definition cb_prefix (height : N) : list byte :=
  le_bytes 4 TRANSACTION_VERSION_1 ++ le_bytes 4 1 ++ hash_bytes (op_txid OutPoint_null) ++ le_bytes 4 (op_index OutPoint_null) ++
  le_bytes 4 16 ++ le_bytes 8 height.
Definition cb_suffix (outs : list byte) : list byte := le_bytes 4 (sequence (TxIn_new OutPoint_null [])) ++ outs ++ le_bytes 8 0.

Lemma length_cb_prefix h : length (cb_prefix h) = 56%nat.
Proof. unfold cb_prefix. by rewrite !length_app, !length_le_bytes, hash_length. Qed.

Lemma pool_coinbase_bytes h cb ext :
  length ext = 8%nat →
  to_canonical_bytes (pool_coinbase h cb ext) =
    (let? outs := serialize_counted (outputs cb) in Ok (cb_prefix h ++ ext ++ cb_suffix outs)).
Proof.
  intros Hl. assert (HL : length (le_bytes 8 h ++ ext) = 16%nat) by (by rewrite length_app, length_le_bytes, Hl).
  assert (HS : ser_bytes (le_bytes 8 h ++ ext) = Ok (le_bytes 4 16 ++ le_bytes 8 h ++ ext)).
  { unfold ser_bytes. rewrite HL. reflexivity. }
  assert (HI : serialize_counted [TxIn_new OutPoint_null (le_bytes 8 h ++ ext)] =
    Ok (le_bytes 4 1 ++ (((hash_bytes (op_txid OutPoint_null) ++ le_bytes 4 (op_index OutPoint_null)) ++
        (le_bytes 4 16 ++ le_bytes 8 h ++ ext) ++ le_bytes 4 (sequence (TxIn_new OutPoint_null []))) ++ []))).
  { unfold serialize_counted. cbn [serialize_each]. unfold serialize_canonical at 1. unfold ser_txin.
    unfold serialize_canonical at 2. cbn [authorization TxIn_new]. rewrite HS. reflexivity. }
  unfold to_canonical_bytes, pool_coinbase. unfold serialize_canonical, ser_transaction. cbn [tx_version inputs outputs lock_time].
  rewrite HI. cbn [obind write_u32]. destruct (serialize_counted (outputs cb)) as [outs|e| |]; cbn [obind]; [|done..].
  unfold cb_prefix, cb_suffix, write_u32, write_u64. cbn [obind TxIn_new sequence]. f_equal. rewrite app_nil_r. by rewrite <- !app_assoc.
Qed.

Lemma pool_coinbase_is_coinbase h cb ext : is_coinbase (pool_coinbase h cb ext) = true.
Proof. reflexivity. Qed.

(** ** The commitment of a block *)

Definition ids_bytes (ids : list Hash) : list byte := mjoin (hash_bytes <$> ids).

Lemma length_ids_bytes ids : length (ids_bytes ids) = (32 * length ids)%nat.
Proof.
  induction ids as [|i ids IH]; [done|]. change (ids_bytes (i :: ids)) with (hash_bytes i ++ ids_bytes ids).
  rewrite length_app, hash_length, IH. cbn [length]. lia.
Qed.

Lemma commitment_fold {E} txs acc :
  ofold (E := E) (λ bytes tx, let? id := txid tx in Ok (bytes ++ hash_bytes id)) txs acc =
  (let? ids := omap_list txid txs in Ok (acc ++ ids_bytes ids)).
Proof.
  revert acc; induction txs as [|tx txs IH]; intros acc; cbn [ofold omap_list obind].
  { unfold ids_bytes. cbn. by rewrite app_nil_r. }
  destruct (txid tx) as [id|e| |]; cbn [obind]; [|done..]. rewrite IH.
  destruct (omap_list txid txs) as [ids|e| |]; cbn [obind]; [|done..]. unfold ids_bytes. cbn. by rewrite <- app_assoc.
Qed.
Lemma commitment_of_ids {E} h txs :
  transaction_commitment_of (E := E) (mkBlock h txs) = (let? ids := omap_list txid txs in Ok (blake3 (ids_bytes ids))).
Proof.
  unfold transaction_commitment_of. cbn [transactions]. rewrite commitment_fold.
  destruct (omap_list txid txs) as [ids|e| |]; done.
Qed.

(** What [build_merkle_root] hashes on its way up. *)
Definition branch_input (current branch : Hash) : list byte :=
  hash_bytes current ++ (if bool_decide (branch = ZERO) then [] else hash_bytes branch).
Fixpoint fold_inputs (current : Hash) (branches : list Hash) : list (list byte) :=
  match branches with
  | [] => []
  | b :: bs => branch_input current b :: fold_inputs (fold_branch current b) bs
  end.

Lemma fold_inputs_root current branches :
  branches ≠ [] → ∃ input, input ∈ fold_inputs current branches ∧ foldl fold_branch current branches = blake3 input ∧
    (length input ≤ 64)%nat.
Proof.
  assert (HL : ∀ c b, (length (branch_input c b) ≤ 64)%nat).
  { intros c b. unfold branch_input. rewrite length_app, hash_length. case_bool_decide; [cbn; lia|rewrite hash_length; lia]. }
  revert current; induction branches as [|b bs IH]; intros current Hne; [done|]. cbn [foldl fold_inputs].
  destruct bs as [|b' bs].
  - exists (branch_input current b). split_and!; [left|done|apply HL].
  - destruct (IH (fold_branch current b)) as (i & Hi & E & Hlen); [done|]. exists i. split_and!; [by right|done..].
Qed.

Lemma job_branches_many ids branches :
  (2 ≤ length ids)%nat → job_branches ids = Ok branches → branches ≠ [].
Proof.
  destruct ids as [|a [|b ids]]; cbn [length]; try lia. intros _. unfold job_branches, calculate_merkle_branches.
  rewrite bool_decide_eq_false_2 by done. cbn [branch_loop length Nat.ltb Nat.leb].
  intros (sib & _ & (rest & _ & <-%Ok_inj)%obind_Ok)%obind_Ok. done.
Qed.

(** The branches are computed for every number of transactions. *)
Lemma length_parents l : length (parents l) = (length l / 2)%nat.
Proof.
  induction l as [| |a b l IH] using list_pair_ind; [done..|]. cbn [parents length]. rewrite IH.
  replace (S (S (length l))) with (length l + 1 * 2)%nat by lia. rewrite Nat.div_add by lia. lia.
Qed.
Lemma length_even_level l : (2 ≤ length l → length (even_level l) = 2 * ((length l + 1) / 2))%nat.
Proof.
  intros Hl. unfold even_level. destruct (Nat.odd (length l)) eqn:E.
  - destruct (last l) as [x|] eqn:Hx; [|apply last_None in Hx; subst; cbn in Hl; lia].
    apply Nat.odd_spec in E as [m E]. rewrite length_app, E. cbn [length].
    replace (2 * m + 1 + 1)%nat with ((m + 1) * 2)%nat by lia. rewrite Nat.div_mul by lia. lia.
  - assert (He : Nat.even (length l) = true) by (rewrite <- Nat.negb_odd; by rewrite E).
    apply Nat.even_spec in He as [m ->]. replace (2 * m + 1)%nat with (1 + m * 2)%nat by lia.
    rewrite Nat.div_add by lia. done.
Qed.
Lemma branch_loop_total fuel l : (length l ≤ fuel)%nat → (0 < fuel)%nat → ∃ bs, branch_loop fuel l = Ok bs.
Proof.
  revert l; induction fuel as [|fuel IH]; intros l Hl H0; [lia|]. cbn [branch_loop].
  destruct (Nat.ltb_spec 1 (length l)) as [H1|H1]; [|by eexists].
  pose proof (length_even_level l ltac:(lia)) as HE.
  assert (Hhalf : (1 ≤ (length l + 1) / 2)%nat) by (apply Nat.div_le_lower_bound; lia).
  destruct (lookup_lt_is_Some_2 (even_level l) 1 ltac:(lia)) as [sib ->]. cbn [expect obind].
  destruct (IH (parents (even_level l))) as [bs ->]; [| |by eexists].
  - rewrite length_parents, HE, Nat.mul_comm, Nat.div_mul by lia.
    assert (((length l + 1) / 2 < length l)%nat) by (apply Nat.div_lt_upper_bound; lia). lia.
  - lia.
Qed.
Lemma job_branches_total ids : ∃ bs, job_branches ids = Ok bs.
Proof.
  unfold job_branches. destruct ids as [|a [|b ids]]; [by eexists..|]. unfold calculate_merkle_branches.
  rewrite bool_decide_eq_false_2 by done. apply branch_loop_total; cbn; lia.
Qed.

(** ** The job of a template *)

Lemma omap_txid_any {E F} txs ids : omap_list (txid (E := E)) txs = Ok ids → omap_list (txid (E := F)) txs = Ok ids.
Proof.
  revert ids; induction txs as [|tx txs IH]; intros ids; cbn [omap_list]; [by intros <-%Ok_inj|].
  intros (id & Hid & (js & His & <-%Ok_inj)%obind_Ok)%obind_Ok.
  assert (Hid' : txid (E := F) tx = Ok id) by (unfold txid in *; by destruct (to_canonical_bytes tx); simplify_eq).
  by rewrite Hid', (IH _ His).
Qed.
Lemma length_omap_list {E X Y} (f : X → outcome E Y) l ys : omap_list f l = Ok ys → length ys = length l.
Proof.
  revert ys; induction l as [|x l IH]; intros ys; cbn [omap_list]; [by intros <-%Ok_inj|].
  intros (y & _ & (zs & Hz & <-%Ok_inj)%obind_Ok)%obind_Ok. cbn. by rewrite (IH _ Hz).
Qed.

Lemma make_job_Ok jid clean t cb txs job :
  t_transactions t = pool_coinbase (t_height t) cb (replicate 8 x00) :: txs → make_job jid clean t = Ok (Some job) →
  ∃ outs ids, serialize_counted (outputs cb) = Ok outs ∧ omap_list (txid (E := ConsensusError)) txs = Ok ids ∧
    job_branches ids = Ok (merkle_branches job) ∧
    job = mkJob jid (t_previous t) (cb_prefix (t_height t)) (cb_suffix outs) (merkle_branches job) 1 (t_compact t)
            (t_root t) (t_timestamp t) clean.
Proof.
  intros Htx. unfold make_job. rewrite Htx. cbn [head expect obind]. rewrite pool_coinbase_bytes by done.
  destruct (serialize_counted (outputs cb)) as [outs|e| |]; cbn [obind]; [|done..].
  destruct (64 <=? length _)%nat; [|done]. change (drop 1 (_ :: txs)) with txs.
  intros (ids & Hids & (bs & Hbs & <-%Ok_inj%(inj Some))%obind_Ok)%obind_Ok. exists outs, ids. cbn [merkle_branches].
  split_and!; [done|by eapply omap_txid_any|done|].
  pose proof (length_cb_prefix (t_height t)) as HP. generalize dependent (cb_prefix (t_height t)). intros P HP.
  rewrite take_app_length' by done. change 64%nat with (56 + 8)%nat. rewrite <- drop_drop.
  by rewrite (drop_app_length' P), (drop_app_length' (replicate 8 x00)) by done.
Qed.

(** A job's coinbase, completed. *)
Lemma raw_coinbase_bytes jid clean t cb txs job en1 en2 :
  t_transactions t = pool_coinbase (t_height t) cb (replicate 8 x00) :: txs → make_job jid clean t = Ok (Some job) →
  length (en1 ++ en2) = 8%nat →
  to_canonical_bytes (pool_coinbase (t_height t) cb (en1 ++ en2)) = Ok (raw_coinbase job en1 en2).
Proof.
  intros Htx Hjob Hl. destruct (make_job_Ok _ _ _ _ _ _ Htx Hjob) as (outs & ids & Ho & _ & _ & ->).
  rewrite pool_coinbase_bytes, Ho by done. cbn [obind]. unfold raw_coinbase. cbn [coinbase1 coinbase2]. by rewrite <- !app_assoc.
Qed.

(** What the commitment of a block of the job hashes. *)
Lemma pool_commitment jid clean t cb txs job en1 en2 :
  t_transactions t = pool_coinbase (t_height t) cb (replicate 8 x00) :: txs → make_job jid clean t = Ok (Some job) →
  length (en1 ++ en2) = 8%nat →
  ∃ ids, length ids = length txs ∧ job_branches ids = Ok (merkle_branches job) ∧
    omap_list (txid (E := ConsensusError)) txs = Ok ids ∧
    ∀ hd, transaction_commitment_of (E := ConsensusError) (mkBlock hd (pool_coinbase (t_height t) cb (en1 ++ en2) :: txs)) =
          Ok (blake3 (ids_bytes (blake3 (raw_coinbase job en1 en2) :: ids))).
Proof.
  intros Htx Hjob Hl. pose proof (raw_coinbase_bytes _ _ _ _ _ _ _ _ Htx Hjob Hl) as Hraw.
  destruct (make_job_Ok _ _ _ _ _ _ Htx Hjob) as (outs & ids & _ & Hids & Hbs & _). exists ids.
  split_and!; [by eapply length_omap_list|done|done|]. intros hd. rewrite commitment_of_ids. cbn [omap_list].
  unfold txid at 1. rewrite Hraw. cbn [obind]. by rewrite Hids.
Qed.
End coinbase.

(** ** The root of a share *)

Section share_root.
Context {B3 : Blake3}.

Lemma small_commitment jid clean t cb txs job en1 en2 hd :
  t_transactions t = pool_coinbase (t_height t) cb (replicate 8 x00) :: txs → make_job jid clean t = Ok (Some job) →
  length (en1 ++ en2) = 8%nat → (length txs ≤ 1)%nat →
  Forall (λ tx, txid (E := ConsensusError) tx ≠ Ok ZERO) txs →
  transaction_commitment_of (E := ConsensusError) (mkBlock hd (pool_coinbase (t_height t) cb (en1 ++ en2) :: txs)) =
    Ok (build_merkle_root job en1 en2).
Proof.
  intros Htx Hjob Hl Hsmall Hz. destruct (pool_commitment _ _ _ _ _ _ _ _ Htx Hjob Hl) as (ids & Hlen & Hbs & Hids & HC).
  rewrite HC. f_equal. unfold build_merkle_root. destruct txs as [|tx [|? ?]]; [| |cbn in Hsmall; lia].
  - destruct ids; [|done]. injection Hbs as <-. cbn [foldl]. unfold fold_branch. by rewrite bool_decide_eq_true_2 by done.
  - apply Forall_cons in Hz as [Hz _]. cbn [omap_list] in Hids. apply obind_Ok in Hids as (id & Hid & [= <-]). injection Hbs as <-.
    cbn [foldl]. unfold fold_branch. rewrite (bool_decide_eq_false_2 (id = ZERO)) by (intros ->; by apply Hz). unfold ids_bytes. cbn. by rewrite app_nil_r.
Qed.

Lemma large_commitment jid clean t cb txs job en1 en2 hd ids c :
  t_transactions t = pool_coinbase (t_height t) cb (replicate 8 x00) :: txs → make_job jid clean t = Ok (Some job) →
  length (en1 ++ en2) = 8%nat → (2 ≤ length txs)%nat → omap_list (txid (E := ConsensusError)) txs = Ok ids →
  no_collision (fold_inputs (blake3 (raw_coinbase job en1 en2)) (merkle_branches job))
    [ids_bytes (blake3 (raw_coinbase job en1 en2) :: ids)] →
  transaction_commitment_of (E := ConsensusError) (mkBlock hd (pool_coinbase (t_height t) cb (en1 ++ en2) :: txs)) = Ok c →
  c ≠ build_merkle_root job en1 en2.
Proof.
  intros Htx Hjob Hl H2 Hids HN Hc E. destruct (pool_commitment _ _ _ _ _ _ _ _ Htx Hjob Hl) as (ids' & Hlen & Hbs & Hids' & HC).
  rewrite Hids in Hids'. injection Hids' as <-. rewrite HC in Hc. injection Hc as <-. unfold build_merkle_root in E.
  destruct (fold_inputs_root (blake3 (raw_coinbase job en1 en2)) (merkle_branches job)) as (i & Hi & Er & Hle).
  { eapply job_branches_many; [|exact Hbs]. lia. }
  rewrite Er in E. symmetry in E. apply HN in E; [|done|by left]. apply (f_equal length) in E.
  rewrite length_ids_bytes in E. cbn [length] in E. lia.
Qed.
End share_root.

(** ** Properties of a job *)

Section job_properties.
Context {B3 : Blake3}.

(** The coinbase a worker completes decodes to the coinbase of the pool with
    the worker's extranonces in it, and its hash starts the Merkle root. The
    root of a share is the transaction commitment the chain wants when the block
    carries the coinbase alone or one more transaction. With two transactions
    more, or above, it is not, unless BLAKE3 collides: the chain hashes the list
    of the identifiers, the pool a tree of them. *)
Theorem stratum_commitment (jid : string) (clean : bool) (t : BlockTemplate) (cb : Transaction) (txs : list Transaction)
    (job : StratumJob) (en1 en2 : list byte) (hd : BlockHeader) (c : Hash)
    (coinbase := pool_coinbase (t_height t) cb (en1 ++ en2)) (block := mkBlock hd (coinbase :: txs))
    (Htx : t_transactions t = pool_coinbase (t_height t) cb (replicate 8 x00) :: txs)
    (Hjob : make_job jid clean t = Ok (Some job)) (Hl : length (en1 ++ en2) = 8%nat)
    (Hwf : transaction_codec_wf coinbase) (Hc : transaction_commitment_of (E := ConsensusError) block = Ok c) :
  let root := build_merkle_root job en1 en2 in
  from_canonical_bytes (raw_coinbase job en1 en2) = Ok coinbase ∧
  txid (E := ConsensusError) coinbase = Ok (blake3 (raw_coinbase job en1 en2)) ∧
  ((length txs ≤ 1)%nat → Forall (λ tx, txid (E := ConsensusError) tx ≠ Ok ZERO) txs → c = root) ∧
  (∀ ids, (2 ≤ length txs)%nat → omap_list (txid (E := ConsensusError)) txs = Ok ids →
     no_collision (fold_inputs (blake3 (raw_coinbase job en1 en2)) (merkle_branches job))
       [ids_bytes (blake3 (raw_coinbase job en1 en2) :: ids)] →
     c ≠ root).
Proof.
  cbv zeta. pose proof (raw_coinbase_bytes _ _ _ _ _ _ _ _ Htx Hjob Hl) as Hraw. fold coinbase in Hraw.
  split; [by apply from_to_canonical|]. split; [unfold txid; by rewrite Hraw|]. split.
  - intros Hs Hz. pose proof (small_commitment _ _ _ _ _ _ _ _ hd Htx Hjob Hl Hs Hz) as HC. exact (Ok_inj _ _ (eq_trans (eq_sym Hc) HC)).
  - intros ids H2 Hids HN. by eapply large_commitment.
Qed.
End job_properties.

(** ** The names of the jobs *)

Lemma hex_loop_digits fuel n acc :
  n < 16 ^ N.of_nat fuel → (0 < fuel)%nat → n ≤ U64_MAX → u64_digits 0 (hex_loop fuel n acc) = u64_digits n acc.
Proof.
  revert n acc; induction fuel as [|fuel IH]; intros n acc Hn Hf Hmax; [lia|]. cbn [hex_loop].
  assert (Hstep : ∀ a d l, d < 16 → a * 16 + d ≤ U64_MAX → u64_digits a (hex_char d :: l) = u64_digits (a * 16 + d) l).
  { intros a d l Hd Ha. cbn [u64_digits]. rewrite hex_digit_char by done. cbn [mbind option_bind]. unfold checked_mul, checked_add.
    rewrite (proj2 (N.leb_le _ _)) by lia. cbn [mbind option_bind]. by rewrite (proj2 (N.leb_le _ _)) by lia. }
  destruct (N.ltb_spec n 16) as [H|H]; [by rewrite Hstep by lia|].
  pose proof (N.div_mod n 16 ltac:(done)) as E. pose proof (N.mod_lt n 16 ltac:(done)).
  assert (Hq : n / 16 < 16 ^ N.of_nat fuel).
  { rewrite Nat2N.inj_succ, N.pow_succ_r' in Hn. by apply N.Div0.div_lt_upper_bound. }
  assert (H1 : 1 ≤ n / 16) by (apply N.div_le_lower_bound; lia).
  assert (Hf' : (0 < fuel)%nat) by (destruct fuel; [change (16 ^ N.of_nat 0) with 1 in Hq|]; lia).
  generalize dependent (n / 16). generalize dependent (n mod 16). intros r Hr q Hq E H1.
  rewrite IH by (done || lia). rewrite Hstep by lia. f_equal. lia.
Qed.

Lemma format_hex_inj n m : n < MOD64 → m < MOD64 → format_hex n = format_hex m → n = m.
Proof.
  intros Hn Hm E. apply (f_equal String.list_byte_of_string) in E. unfold format_hex in E.
  rewrite !String.list_byte_of_string_of_list_byte in E. apply (f_equal (u64_digits 0)) in E.
  assert (HD : ∀ k, k < MOD64 → u64_digits 0 (hex_loop 16 k []) = Some k).
  { intros k Hk. rewrite hex_loop_digits; [done| |lia|lia]. change (16 ^ N.of_nat 16) with MOD64. done. }
  rewrite !HD in E by done. by injection E.
Qed.

(** ** The service at work *)

Section serving.
Context {B3 : Blake3} {ED : Ed25519} {BC : Bincode} {WM : Wasmi} {PC : Payload TxContext} {BS : BlockStore}.
Context {U : Uint256} {J : Json} {HD : HexDecode}.

(** What the workers do, and the node's reading of the queue. *)
Inductive worker_event (srv : StratumServer) : StratumServer → Prop :=
| worker_connect srv' : session_counter srv + 1 < MOD64 → connect srv = Some srv' → worker_event srv srv'
| worker_request id req srv' : handle_request srv id req = Ok srv' → worker_event srv srv'
| worker_garbage id : worker_event srv (handle_garbage srv id)
| worker_disconnect id : worker_event srv (disconnect srv id)
| worker_received : worker_event srv (receive srv).

Definition with_server (srv : StratumServer) (svc : Service) : Service :=
  mkService srv (jobs_cache svc) (job_counter svc) (last_tip svc).

(** The states of a service started with the difficulty [dd]; the tip, the node
    and the set a tick reads are arbitrary. *)
Inductive serving (dd : f64) : Service → Prop :=
| serving_start : serving dd (start_service dd)
| serving_tick svc svc' script now tip s utxos :
    serving dd svc → job_counter svc + 1 < MOD64 → tick script now tip s utxos svc = Ok svc' → serving dd svc'
| serving_worker svc srv' : serving dd svc → worker_event (server svc) srv' → serving dd (with_server srv' svc).

(** The job of a template of the pool. *)
Definition pool_job (t : BlockTemplate) (job : StratumJob) : Prop :=
  ∃ clean cb txs v lock, t_transactions t = pool_coinbase (t_height t) cb (replicate 8 x00) :: txs ∧
    outputs cb = [mkTxOut v lock] ∧ v ≤ U64_MAX ∧ make_job (job_id job) clean t = Ok (Some job).

(** A job the broadcaster has made: in a tick of the service that read the node
    [s], of the template [t0] the node built; [t] is that template with the
    coinbase of the pool. The tick offers the job and keeps [t]. *)
Inductive job_made (dd : f64) (s : Shared) (t0 t : BlockTemplate) (job : StratumJob) : Prop :=
| job_made_by svc script now tip utxos clean :
    serving dd svc → build_mining_template script now s = Ok t0 → pool_template (E := Empty_set) utxos t0 = Ok t →
    make_job (format_hex (job_counter svc)) clean t = Ok (Some job) →
    tick script now tip s utxos svc =
      Ok (mkService (broadcast_job job (server svc)) (remember_job (job_id job) t (jobs_cache svc)) (wrap64 (job_counter svc + 1)) tip) →
    job_made dd s t0 t job.

Record service_inv (dd : f64) (made : gmap string (StratumJob * BlockTemplate)) (svc : Service) : Prop := {
  sv_served : ∃ log, served dd (dom made) log (server svc);
  sv_counter : job_counter svc < MOD64;
  sv_names : ∀ jid, jid ∈ dom made → ∃ n, n < job_counter svc ∧ jid = format_hex n;
  sv_made : map_Forall (λ jid p, job_id p.1 = jid ∧ pool_job p.2 p.1 ∧ ∃ s t0, job_made dd s t0 p.2 p.1) made;
  sv_jobs : ∀ jid job, jobs (server svc) !! jid = Some job → ∃ t, made !! jid = Some (job, t);
  sv_found : Forall (λ e, ∃ t, made !! job_id (found_job e) = Some (found_job e, t)) (block_candidates (server svc));
  sv_cache : ∀ jid c, jobs_cache svc !! jid = Some c →
    (∃ job, made !! jid = Some (job, template c)) ∧ other_txs c = drop 1 (t_transactions (template c));
  sv_size : (size (jobs_cache svc) ≤ 65)%nat
}.

Lemma worker_event_served dd used log srv srv' :
  served dd used log srv → worker_event srv srv' → ∃ log', served dd used log' srv'.
Proof.
  intros Hs [srv1 Hc Hconn|id req srv1 Hr|id|id|]; eexists.
  - by eapply served_connect.
  - by eapply served_request.
  - by apply served_garbage.
  - by apply served_disconnect.
  - by apply served_receive.
Qed.

Lemma worker_event_jobs srv srv' :
  worker_event srv srv' → jobs srv' = jobs srv ∧
  Forall (λ e, e ∈ block_candidates srv ∨ ∃ id, jobs srv !! id = Some (found_job e)) (block_candidates srv').
Proof.
  assert (HA : Forall (λ e, e ∈ block_candidates srv ∨ ∃ id, jobs srv !! id = Some (found_job e)) (block_candidates srv)).
  { apply Forall_forall. by left. }
  intros [srv1 Hc Hconn|id req srv1 Hr|id|id|].
  - unfold connect in Hconn. destruct (_ <=? _)%nat; [done|]. by injection Hconn as <-.
  - unfold handle_request in Hr. destruct (sessions srv !! id) as [[s out]|]; [|by injection Hr as <-].
    apply obind_Ok in Hr as (r & Hd%dispatch_replied & <-%Ok_inj). split; [done|]. cbn [block_candidates].
    apply Forall_app. split; [done|]. apply found_job_offered in Hd. eapply Forall_impl; [exact Hd|]. by right.
  - unfold handle_garbage. by destruct (sessions srv !! id) as [[]|].
  - done.
  - split; [done|]. by apply Forall_drop.
Qed.

Lemma worker_inv dd made svc srv' :
  service_inv dd made svc → worker_event (server svc) srv' → service_inv dd made (with_server srv' svc).
Proof.
  intros [[log Hs] Hc Hn Hm Hj Hf Hca Hsz] HE. destruct (worker_event_served _ _ _ _ _ Hs HE) as [log' Hs'].
  destruct (worker_event_jobs _ _ HE) as [Ej HF].
  split; cbn [with_server server job_counter jobs_cache]; try done; [by exists log'|by rewrite Ej|].
  eapply Forall_impl; [exact HF|]. intros e [He|[id Hid]].
  - rewrite Forall_forall in Hf. by apply Hf.
  - apply Hj in Hid as [t Ht]. exists t. destruct (Hm _ _ Ht) as [E _]. cbn in E. by rewrite E.
Qed.

Lemma no_error_cases {E A} (m : outcome E A) k svc svc' :
  no_error m k svc = Ok svc' → svc' = svc ∨ ∃ a, m = Ok a ∧ k a = Ok svc'.
Proof. destruct m as [a|e| |]; cbn; [right; eauto|intros <-%Ok_inj; by left|done..]. Qed.

Lemma pool_template_Ok {E} utxos t t' :
  pool_template (E := E) utxos t = Ok t' →
  ∃ cb, head (t_transactions t) = Some cb ∧
    t_transactions t' = pool_coinbase (t_height t) cb (replicate 8 x00) :: drop 1 (t_transactions t) ∧
    (t_previous t', t_height t', t_compact t', t_timestamp t') = (t_previous t, t_height t, t_compact t, t_timestamp t) ∧
    ∀ s' fees, apply_block (t_transactions t') (t_height t') utxos = (s', Ok fees) → compute_utxo_root (E := E) s' = Ok (t_root t').
Proof.
  unfold pool_template. intros (cb & Hcb%expect_Ok & H)%obind_Ok. exists cb. split; [done|].
  set (t1 := with_coinbase t _) in H. assert (E1 : t_transactions t1 = pool_coinbase (t_height t) cb (replicate 8 x00) :: drop 1 (t_transactions t)) by done.
  assert (E2 : (t_previous t1, t_height t1, t_compact t1, t_timestamp t1) = (t_previous t, t_height t, t_compact t, t_timestamp t)) by done.
  clearbody t1. destruct (apply_block _ _ utxos) as [s1 [f|e| |]] eqn:HA; try done.
  - apply obind_Ok in H as (root & Hroot & <-%Ok_inj). cbn [with_root t_transactions t_previous t_height t_compact t_timestamp t_root].
    split; [done|]. split; [done|]. intros s' fees HA'. assert (Et : t_height t1 = t_height t) by (by injection E2).
    rewrite Et in HA'. assert (Et' : t_height t1 = t_height t) by done. rewrite <- Et' in HA'. rewrite HA in HA'. by injection HA' as <- _.
  - apply Ok_inj in H as <-. split; [done|]. split; [done|]. intros s' fees HA'. rewrite HA in HA'. done.
Qed.

Lemma tick_cases script now tip s utxos svc svc' :
  tick script now tip s utxos svc = Ok svc' →
  svc' = svc ∨ ∃ t job, pool_job t job ∧ job_id job = format_hex (job_counter svc) ∧
    svc' = mkService (broadcast_job job (server svc)) (remember_job (job_id job) t (jobs_cache svc))
             (wrap64 (job_counter svc + 1)) tip ∧
    (∀ dd, serving dd svc → ∃ t0, job_made dd s t0 t job).
Proof.
  intros Htick. pose proof Htick as H'. revert H'. unfold tick at 1. destruct (_ || _); [|intros <-%Ok_inj; by left].
  intros [->|(t0 & Ht0 & [->|(t & Ht & [->|(oj & Hj & H)]%no_error_cases)]%no_error_cases)]%no_error_cases; [by left..|].
  destruct oj as [job|]; [|apply Ok_inj in H as <-; by left]. apply Ok_inj in H as <-. right. pose proof Ht0 as Hbuild.
  unfold build_mining_template in Ht0. destruct (tree_len _ =? 0); [done|]. apply map_err_Ok in Ht0.
  destruct (build_template_Ok _ _ _ _ _ _ _ Ht0) as (tipn & sel & fees & s' & HT).
  destruct (pool_template_Ok _ _ _ Ht) as (cb & Hcb & Htx & Eh & _). injection Eh as _ Eh _ _.
  rewrite (tpl_transactions _ _ _ _ _ _ _ _ _ _ _ HT) in Hcb. injection Hcb as <-. rewrite <- Eh in Htx.
  destruct (make_job_Ok _ _ _ _ _ _ Htx Hj) as (outs & ids & _ & _ & _ & Ejob).
  assert (Eid : job_id job = format_hex (job_counter svc)) by (by rewrite Ejob).
  exists t, job. rewrite Eid. split; [|split; [done|]; split; [done|]].
  2:{ intros dd Hs. exists t0. rewrite <- Eid in Htick. by eapply job_made_by. }
  do 5 eexists. split; [exact Htx|]. split; [reflexivity|]. split; [rewrite Eh; apply (tpl_reward _ _ _ _ _ _ _ _ _ _ _ HT)|].
  rewrite Eid. exact Hj.
Qed.

Lemma remember_job_lookup jid t cache id c :
  remember_job jid t cache !! id = Some c →
  id = jid ∧ c = mkCached t (drop 1 (t_transactions t)) ∨ id ≠ jid ∧ cache !! id = Some c.
Proof.
  unfold remember_job. rewrite lookup_insert_Some. intros [[<- <-]|[Hne Hl]]; [by left|]. right. split; [done|].
  destruct (64 <? size cache)%nat; [by rewrite lookup_empty in Hl|done].
Qed.
Lemma remember_job_size jid t cache : (size cache ≤ 65 → size (remember_job jid t cache) ≤ 65)%nat.
Proof.
  intros Hs. unfold remember_job. destruct (Nat.ltb_spec 64 (size cache)) as [H|H].
  - rewrite map_size_insert_None by apply lookup_empty. rewrite map_size_empty. lia.
  - destruct (cache !! jid) eqn:E; [rewrite map_size_insert_Some by eauto; lia|rewrite map_size_insert_None by done; lia].
Qed.

Lemma broadcast_job_candidates job srv : block_candidates (broadcast_job job srv) = block_candidates srv.
Proof. unfold broadcast_job. by destruct (drop_old_jobs _ _). Qed.

Lemma broadcast_service_inv dd made svc t job tip :
  service_inv dd made svc → job_counter svc + 1 < MOD64 → pool_job t job → job_id job = format_hex (job_counter svc) →
  (∃ s t0, job_made dd s t0 t job) →
  service_inv dd (<[job_id job := (job, t)]> made)
    (mkService (broadcast_job job (server svc)) (remember_job (job_id job) t (jobs_cache svc)) (wrap64 (job_counter svc + 1)) tip).
Proof.
  intros [[log Hs] Hc Hn Hm Hj Hf Hca Hsz] Hw Hp Eid Hmade.
  assert (Hfresh : job_id job ∉ dom made).
  { intros (n & Hlt & E)%Hn. rewrite Eid in E. apply format_hex_inj in E; lia. }
  assert (HN : made !! job_id job = None) by by apply not_elem_of_dom.
  pose proof (served_inv _ _ _ _ Hs) as HI. destruct (broadcast_job_jobs job _ (vi_jobs _ _ _ _ HI)) as (_ & _ & Hsub).
  { intros Hin. apply Hfresh, (vi_used _ _ _ _ HI). rewrite (ji_dom _ (vi_jobs _ _ _ _ HI)). by apply elem_of_list_to_set. }
  assert (HE : ∀ id, ∀ p, made !! id = Some p → <[job_id job:=(job, t)]> made !! id = Some p).
  { intros id p Hp'. rewrite lookup_insert_ne; [done|]. intros <-. congruence. }
  rewrite wrap64_small by done.
  split; cbn [server job_counter jobs_cache].
  - exists log. rewrite dom_insert_L. by apply served_broadcast.
  - done.
  - intros jid. rewrite dom_insert_L. intros [->%elem_of_singleton|(n & Hlt & ->)%Hn]%elem_of_union.
    + exists (job_counter svc). split; [lia|done].
    + exists n. split; [lia|done].
  - apply map_Forall_insert_2; done.
  - intros jid job' Hl. pose proof (lookup_weaken _ _ _ _ Hl Hsub) as Hl'.
    apply lookup_insert_Some in Hl' as [[<- <-]|[Hne Hl']]; [exists t; by rewrite lookup_insert_eq|].
    apply Hj in Hl' as [t' Ht']. exists t'. by apply HE.
  - rewrite broadcast_job_candidates. eapply Forall_impl; [exact Hf|]. intros e [t' Ht']. exists t'. by apply HE.
  - intros id c [[-> ->]|[Hne Hl]]%remember_job_lookup.
    + split; [|done]. exists job. by rewrite lookup_insert_eq.
    + apply Hca in Hl as [[job' Hjob'] E]. split; [|done]. exists job'. by apply HE.
  - by apply remember_job_size.
Qed.

Lemma serving_inv dd svc : serving dd svc → ∃ made, service_inv dd made svc.
Proof.
  induction 1 as [|svc svc' script now tip s utxos Hs [made IH] Hw Ht|svc srv' _ [made IH] He].
  - exists ∅. split; cbn [start_service server job_counter jobs_cache new_server block_candidates jobs]; try done.
    + exists []. rewrite dom_empty_L. constructor.
    + rewrite map_size_empty. lia.
  - apply tick_cases in Ht as [->|(t & job & Hp & Eid & -> & Hmade)]; [by exists made|]. eexists.
    apply broadcast_service_inv; [done..|]. exists s. by apply Hmade.
  - exists made. by eapply worker_inv.
Qed.

Lemma offered_under_name dd svc jid job : serving dd svc → jobs (server svc) !! jid = Some job → job_id job = jid.
Proof.
  intros [made HI]%serving_inv Hj. destruct (sv_served _ _ _ HI) as [log Hl].
  by apply (ji_ids _ (vi_jobs _ _ _ _ (served_inv _ _ _ _ Hl))) in Hj.
Qed.

(** The block of a candidate. *)
Lemma pool_coinbase_wf h cb v lock en :
  outputs cb = [mkTxOut v lock] → v ≤ U64_MAX → transaction_codec_wf (pool_coinbase h cb en).
Proof.
  intros Ho Hv. unfold pool_coinbase, transaction_codec_wf, transaction_wf, transaction_limits. cbn [tx_version inputs outputs lock_time].
  rewrite Ho. split; [split_and!|split]; try done.
  - by apply Forall_singleton.
  - apply Forall_singleton. unfold txout_wf. cbn. lia.
Qed.
End serving.

(** ** A block on the tip *)

Section tip_block.
Context {B3 : Blake3} {V : BlockTransactionVerifier} {VR : VerifierReturns}.

(** A block that extends the canonical tip. *)
Record on_tip (gb : Block) (k : N) (st : ChainState) (b : Block) (tip : BlockNode) (path : list BlockNode) (now : N) : Prop := {
  ot_reachable : reachable gb k st;
  ot_bound : k < U64_MAX;
  ot_tip : nodes st.1 !! canonical_tip st.1 = Some tip;
  ot_ledger : ledger (nodes st.1) (canonical_tip st.1) path st.2;
  ot_parent : previous_block_hash (header b) = canonical_tip st.1;
  ot_encodable : block_encodable b;
  ot_new : nodes st.1 !! blake3 (header_bytes (header b)) = None;
  ot_valid : is_block_invalid st.1 (blake3 (header_bytes (header b))) = false ∧
             is_block_invalid st.1 (canonical_tip st.1) = false;
  ot_between : ¬ retarget_height (height tip + 1);
  ot_target : difficulty_target (header b) = difficulty_target (header (node_block tip));
  ot_pow : verify_pow (header b) (from_compact (difficulty_target (header b))) = Ok tt;
  ot_after : timestamp (header (node_block tip)) < timestamp (header b);
  ot_clock : timestamp (header b) ≤ now + MAX_FUTURE_DRIFT;
  ot_now : now + MAX_FUTURE_DRIFT ≤ U64_MAX
}.

Lemma on_tip_process gb k st b tip path now fees s' :
  on_tip gb k st b tip path now → authoritative b (height tip + 1) st.2 (mtp_of path) fees s' →
  process_block_with_verifier (Some now) b st = attach_block b (blake3 (header_bytes (header b))) tip (height tip + 1) st.
Proof.
  intros [HR Hk Htip HL Hpar He Hnew [Hv1 Hv2] Hbet Htg Hpow Haft Hclk Hnow] HA.
  destruct (reachable_inv gb k st HR) as [Hinv _]; [lia|].
  unfold process_block_with_verifier. rewrite header_hash_ok, sbind_lift_Ok, sbind_sget. destruct st as [tr u]. cbn [fst snd] in *.
  rewrite Hpar, Hv1, Hv2. rewrite (proj1 HA). cbn [map_err]. rewrite sbind_lift_Ok.
  rewrite bool_decide_eq_false_2 by (rewrite Hnew; apply is_Some_None). rewrite Htip. cbn [ok_or]. rewrite sbind_lift_Ok.
  assert (Hh : wrap64 (height tip + 1) = height tip + 1).
  { apply wrap64_small. pose proof (inv_height _ _ _ Hinv _ _ Htip). lia. }
  rewrite Hh, (expected_target_between _ _ _ _ Hbet), sbind_lift_Ok, <- Htg.
  assert (HC : check_header b tip (from_compact (difficulty_target (header b))) (Some now) = Ok tt).
  { unfold check_header, validate_block_target. rewrite bool_decide_eq_true_2 by done. cbn [negb map_err obind].
    rewrite Hpow. cbn [map_err obind]. destruct (N.leb_spec (timestamp (header b)) (timestamp (header (node_block tip)))); [lia|].
    cbn [ok_or obind]. unfold saturating_add.
    destruct (N.ltb_spec (N.min (now + MAX_FUTURE_DRIFT) U64_MAX) (timestamp (header b))); [lia|done]. }
  rewrite HC, sbind_lift_Ok. unfold parent_state. rewrite bool_decide_eq_true_2, sbind_lift_Ok by done.
  rewrite (path_headers_ok _ _ (inv_nodes _ _ _ Hinv) tr _ path u eq_refl HL), sbind_lift_Ok.
  rewrite (mtp_below (genesis_node gb) tr path tip b u (inv_nodes _ _ _ Hinv)), andb_false_r by (by rewrite ?Hpar).
  by rewrite (validate_of_authoritative _ _ _ _ _ _ HA).
Qed.

Lemma on_tip_accepted gb k st b tip path now fees s' :
  let id := blake3 (header_bytes (header b)) in
  on_tip gb k st b tip path now → authoritative b (height tip + 1) st.2 (mtp_of path) fees s' →
  target_val (from_compact (difficulty_target (header b))) ≠ 0 →
  is_Some (work_checked_add (cumulative_work tip) (block_work (from_compact (difficulty_target (header b))))) →
  verify_block_transactions b st.2 = Ok tt → compute_utxo_root (E := ChainError) s' = Ok (utxo_root (header b)) →
  let result := process_block_with_verifier (Some now) b st in
  result.2 = Ok (Some (mkReorgResult (canonical_tip st.1) id [] [b] [])) ∧ canonical_tip result.1.1 = id ∧ result.1.2 = s'.
Proof.
  cbv zeta. intros HT HA Htarget Hwork Hver Hroot. rewrite (on_tip_process _ _ _ _ _ _ _ _ _ HT HA).
  destruct HT as [HR Hk Htip HL Hpar He Hnew _ _ _ _ Haft _ _]. destruct (reachable_inv gb k st HR) as [Hinv _]; [lia|].
  destruct (attach_tip (genesis_node gb) k st b tip path s') as (n & _ & _ & ->); try done. by exists fees.
Qed.
End tip_block.

(** ** From a candidate to the chain *)

Section to_chain.
Context {B3 : Blake3} {ED : Ed25519} {BC : Bincode} {WM : Wasmi} {PC : Payload TxContext} {BS : BlockStore} {SL : BlockStoreLaws}.
Context {U : Uint256} {J : Json} {HD : HexDecode}.
#[local] Existing Instance NodeBlockVerifier.

(** A block the chain takes for new carries the commitment of its transactions. *)
Lemma processed_commits genesis k st now b r :
  chain_inv genesis k st → k < U64_MAX → block_encodable b → nodes st.1 !! blake3 (header_bytes (header b)) = None →
  (process_block_with_verifier now b st).2 = Ok r →
  transaction_commitment_of (E := ConsensusError) b = Ok (transaction_commitment (header b)).
Proof.
  intros Hinv Hk He Hnew Hr. pose proof (process_step genesis k st now b Hinv Hk He) as HS. unfold stepped in HS.
  destruct (process_block_with_verifier now b st) as [st' r']. cbn [snd] in Hr. subst r'.
  inversion HS as [| [x Hx] |n path s s' Hext Hb _| |n common m da db s s' txs Hext Hb]; subst.
  - congruence.
  - destruct (ext_valid _ _ _ _ _ Hext) as [fees HA]. by destruct HA as (_ & HC & _).
  - destruct (ext_valid _ _ _ _ _ Hext) as [fees HA]. by destruct HA as (_ & HC & _).
Qed.

Lemma submitted_processed now later b s s' r :
  submit_external_block now later b s = (s', Ok r) → ∃ r', (process_block_with_verifier now b (chain_of s)).2 = Ok r'.
Proof.
  unfold submit_external_block. rewrite sbind_sget, header_hash_ok, sbind_lift_Ok. destruct (_ || _); [done|].
  destruct (prevalidate b s) as [[]|e| |]; [rewrite sbind_lift_Ok|done..]. unfold process.
  destruct (process_block_with_verifier now b (chain_of s)) as [st' [r'|e| |]] eqn:HP; intros H; [by exists r'|..];
    unfold sbind at 1 in H; rewrite HP in H; done.
Qed.

(** What is known of a candidate of the queue. *)
Lemma candidate_facts dd svc e :
  serving dd svc → e ∈ block_candidates (server svc) →
  ∃ t clean cb txs timestamp nonce,
    t_transactions t = pool_coinbase (t_height t) cb (replicate 8 x00) :: txs ∧
    make_job (job_id (found_job e)) clean t = Ok (Some (found_job e)) ∧
    length (found_extranonce1 e ++ found_extranonce2 e) = 8%nat ∧
    found_header e = mkRaw 1 (t_previous t) (build_merkle_root (found_job e) (found_extranonce1 e) (found_extranonce2 e))
                       (t_root t) timestamp (t_compact t) nonce ∧
    pow_hash e = blake3 (header_bytes (header_of_raw (found_header e))) ∧
    block_of_candidate (jobs_cache svc) e =
      (if bool_decide (is_Some (jobs_cache svc !! job_id (found_job e))) then
         Some (mkBlock (header_of_raw (found_header e))
                 (pool_coinbase (t_height t) cb (found_extranonce1 e ++ found_extranonce2 e) :: txs))
       else None) ∧
    (∃ s t0, job_made dd s t0 t (found_job e)) ∧
    (∀ c, jobs_cache svc !! job_id (found_job e) = Some c → c = mkCached t txs).
Proof.
  intros Hs He. destruct (serving_inv dd svc Hs) as [made [[log Hsv] _ _ Hm _ Hf Hca _]].
  rewrite Forall_forall in Hf. destruct (Hf e He) as [t Ht]. destruct (Hm _ _ Ht) as (_ & Hp & Hmade). cbn [fst snd] in Hp, Hmade.
  destruct Hp as (clean & cb & txs & v & lock & Htx & Ho & Hv & Hj).
  pose proof (vi_found _ _ _ _ (served_inv _ _ _ _ Hsv)) as HF. rewrite Forall_forall in HF.
  destruct (HF e He) as (E1 & L2 & ts & n & Hver). destruct (candidate_header _ _ _ _ _ _ _ _ Hver) as [Eh Ehash].
  destruct (make_job_Ok _ _ _ _ _ _ Htx Hj) as (outs & ids & _ & _ & _ & Ejob).
  exists t, clean, cb, txs, ts, n. split; [done|]. split; [done|].
  assert (Hl : length (found_extranonce1 e ++ found_extranonce2 e) = 8%nat) by (by rewrite length_app, E1, L2).
  split; [done|]. split.
  { rewrite Eh. unfold job_header. by rewrite Ejob. }
  assert (Hc : ∀ c, jobs_cache svc !! job_id (found_job e) = Some c → c = mkCached t txs).
  { intros c Ec. destruct (Hca _ _ Ec) as [[job' Hjob'] Eo]. rewrite Ht in Hjob'. injection Hjob' as _ Et.
    destruct c as [t' o]. cbn [template other_txs] in *. subst t' o. by rewrite Htx. }
  split; [by rewrite Ehash|]. split; [|split; [exact Hmade|exact Hc]]. unfold block_of_candidate.
  destruct (jobs_cache svc !! job_id (found_job e)) as [c|] eqn:Ec; [|by rewrite bool_decide_eq_false_2 by apply is_Some_None].
  rewrite bool_decide_eq_true_2 by done. specialize (Hc c eq_refl). subst c. cbn [other_txs].
  pose proof (raw_coinbase_bytes _ _ _ _ _ _ _ _ Htx Hj Hl) as Hraw.
  by rewrite (from_to_canonical _ _ (pool_coinbase_wf (t_height t) cb v lock _ Ho Hv) Hraw).
Qed.

(** What the template of a job has of the node that built it. *)
Lemma made_template dd s t0 t job :
  job_made dd s t0 t job →
  ∃ cb txs, t_transactions t0 = cb :: txs ∧ t_transactions t = pool_coinbase (t_height t0) cb (replicate 8 x00) :: txs ∧
    (t_previous t, t_height t, t_compact t) = (t_previous t0, t_height t0, t_compact t0) ∧
    t_previous t0 = canonical_tip (chain_tree s) ∧
    chosen (utxo_set s) (select_transactions_for_block (mempool s) MAX_BLOCK_PAYLOAD_SIZE).1 txs.
Proof.
  intros [svc script now tip utxos clean _ Hb Hp _ _]. unfold build_mining_template in Hb. destruct (tree_len _ =? 0); [done|].
  apply map_err_Ok in Hb. destruct (build_template_Ok _ _ _ _ _ _ _ Hb) as (tipn & sel & fees & s' & HT).
  destruct (pool_template_Ok _ _ _ Hp) as (cb & Hcb & Htx & [= E1 E2 E3 _] & _).
  pose proof (tpl_transactions _ _ _ _ _ _ _ _ _ _ _ HT) as E. rewrite E in Hcb, Htx. injection Hcb as <-.
  eexists _, sel. split; [exact E|]. split; [exact Htx|]. split; [by rewrite E1, E2, E3|].
  split; [apply (tpl_previous _ _ _ _ _ _ _ _ _ _ _ HT)|apply (tpl_selected _ _ _ _ _ _ _ _ _ _ _ HT)].
Qed.

(** C15: What the node submits for a candidate of the queue. Whatever the
    broadcaster and the workers have done, the candidate's job was made in a tick
    of the service, of the template [t0] the node built on its tip with the
    transactions it had chosen from its pool. What the cache has under the name
    of the job is that template. While it is there the candidate becomes the
    block of these very transactions, under a coinbase that pays what the
    template's pays and has the worker's extranonces in it, and under the header
    the worker solved, whose hash is the block's; when it is not, the candidate
    is dropped. *)
Theorem pool_candidate_block (dd : f64) (svc : Service) (e : BlockFoundEvent)
    (Hs : serving dd svc) (He : e ∈ block_candidates (server svc)) :
  ∃ s t0 t cb txs timestamp nonce,
    job_made dd s t0 t (found_job e) ∧ t_transactions t0 = cb :: txs ∧ t_previous t0 = canonical_tip (chain_tree s) ∧
    chosen (utxo_set s) (select_transactions_for_block (mempool s) MAX_BLOCK_PAYLOAD_SIZE).1 txs ∧
    found_header e = mkRaw 1 (t_previous t0) (build_merkle_root (found_job e) (found_extranonce1 e) (found_extranonce2 e))
                       (t_root t) timestamp (t_compact t0) nonce ∧
    pow_hash e = blake3 (header_bytes (header_of_raw (found_header e))) ∧
    (∀ c, jobs_cache svc !! job_id (found_job e) = Some c → c = mkCached t txs) ∧
    block_of_candidate (jobs_cache svc) e =
      (if bool_decide (is_Some (jobs_cache svc !! job_id (found_job e))) then
         Some (mkBlock (header_of_raw (found_header e))
                 (pool_coinbase (t_height t0) cb (found_extranonce1 e ++ found_extranonce2 e) :: txs))
       else None).
Proof.
  destruct (candidate_facts dd svc e Hs He) as (t & clean & cb & txs & ts & n & Htx & _ & _ & Eh & Ep & Eb & (s & t0 & Hm) & Hc).
  destruct (made_template _ _ _ _ _ Hm) as (cb0 & txs0 & Et0 & Et & [= E1 E2 E3] & Etip & Hsel).
  rewrite Htx in Et. pose proof (f_equal (λ l, from_option outputs [] (head l)) Et) as Eo. cbn in Eo.
  apply (f_equal tail) in Et. cbn [tail] in Et. subst txs0. rewrite E2 in Eb. rewrite E1, E3 in Eh.
  exists s, t0, t, cb0, txs, ts, n. split_and!; try done. rewrite Eb. unfold pool_coinbase. by rewrite Eo.
Qed.

(** A template that no longer fits the cache: when a tick finds more than 64
    templates it forgets them all, so that for every job on offer but the newest
    a solved block is dropped, although workers are still credited for it. *)
Theorem pruned_cache_drops_candidates (dd : f64) (svc svc' : Service) (script : list byte) (now : N) (tip : Hash)
    (s : Shared) (utxos : UtxoSet) (e : BlockFoundEvent) (Hs : serving dd svc) (Hw : job_counter svc + 1 < MOD64)
    (Ht : tick script now tip s utxos svc = Ok svc') (Hmoved : job_counter svc' ≠ job_counter svc)
    (Hfull : (64 < size (jobs_cache svc))%nat)
    (He : jobs (server svc') !! job_id (found_job e) = Some (found_job e))
    (Hold : current_job (server svc') ≠ Some (found_job e)) :
  block_of_candidate (jobs_cache svc') e = None.
Proof.
  pose proof (serving_tick _ _ _ _ _ _ _ _ Hs Hw Ht) as Hs'.
  apply tick_cases in Ht as [->|(t & job & Hp & Eid & -> & _)]; [done|]. cbn [jobs_cache server] in *.
  unfold block_of_candidate, remember_job. rewrite (proj2 (Nat.ltb_lt 64 _) Hfull).
  rewrite lookup_insert_ne, lookup_empty; [done|]. intros E. apply Hold.
  destruct (serving_inv _ _ Hs') as [made [[log Hsv] _ _ _ _ _ _ _]]. cbn [server] in Hsv.
  pose proof (vi_jobs _ _ _ _ (served_inv _ _ _ _ Hsv)) as HJ.
  assert (Hc : current_job (broadcast_job job (server svc)) = Some job) by (unfold broadcast_job; by destruct (drop_old_jobs _ _)).
  rewrite Hc. f_equal. destruct (serving_inv _ _ Hs) as [made0 [[log0 Hsv0] _ Hn0 _ Hj0 _ _ _]].
  destruct (broadcast_job_jobs job _ (vi_jobs _ _ _ _ (served_inv _ _ _ _ Hsv0))) as (_ & _ & Hsub).
  { intros Hin. assert (Hd : job_id job ∈ dom (jobs (server svc))).
    { rewrite (ji_dom _ (vi_jobs _ _ _ _ (served_inv _ _ _ _ Hsv0))). by apply elem_of_list_to_set. }
    apply (vi_used _ _ _ _ (served_inv _ _ _ _ Hsv0)), Hn0 in Hd as (n & Hlt & E').
    rewrite Eid in E'. apply format_hex_inj in E'; lia. }
  pose proof (lookup_weaken _ _ _ _ He Hsub) as Hl. rewrite <- E, lookup_insert_eq in Hl. by injection Hl.
Qed.

(** A block with two pool transactions or more that a worker solves is never
    taken by the chain, unless BLAKE3 collides: the submission of the candidate
    does not succeed. *)
Theorem pool_block_refused (genesis : BlockNode) (k : N) (s : Shared) (now : option N) (later : N)
    (svc : Service) (dd : f64) (e : BlockFoundEvent) (b : Block) (ids : list Hash)
    (Hinv : node_inv genesis k s) (Hk : k < U64_MAX) (Hs : serving dd svc) (He : e ∈ block_candidates (server svc))
    (Hb : block_of_candidate (jobs_cache svc) e = Some b) (Henc : block_encodable b)
    (Hmany : (3 ≤ length (transactions b))%nat)
    (Hnew : nodes (chain_tree s) !! blake3 (header_bytes (header b)) = None)
    (Hids : omap_list (txid (E := ConsensusError)) (drop 1 (transactions b)) = Ok ids)
    (HN : no_collision
            (fold_inputs (blake3 (raw_coinbase (found_job e) (found_extranonce1 e) (found_extranonce2 e))) (merkle_branches (found_job e)))
            [ids_bytes (blake3 (raw_coinbase (found_job e) (found_extranonce1 e) (found_extranonce2 e)) :: ids)]) :
  ∀ accepted, (ingest now later (jobs_cache svc) e s).2 ≠ Ok accepted.
Proof.
  destruct (candidate_facts dd svc e Hs He) as (t & clean & cb & txs & ts & n & Htx & Hj & Hl & Eh & _ & Eb & _).
  rewrite Hb in Eb. case_bool_decide as Hin; [|done]. injection Eb as ->. cbn [transactions header drop] in *.
  intros acc. unfold ingest. rewrite Hb. set (blk := mkBlock _ _) in *. intros H.
  destruct (submit_external_block now later blk s) as [s' [r|e'| |]] eqn:Hsub;
    [|unfold sbind in H; rewrite Hsub in H; done..]. clear H.
  destruct (submitted_processed _ _ _ _ _ _ Hsub) as [r' Hr'].
  pose proof (processed_commits _ _ _ _ _ _ (ni_chain _ _ _ Hinv) Hk Henc Hnew Hr') as HC. cbn [header] in HC.
  unfold blk in HC. eapply large_commitment in HC; [|exact Htx|exact Hj|exact Hl|cbn in Hmany; lia|exact Hids|exact HN].
  apply HC. by rewrite Eh.
Qed.
End to_chain.

(** ** A pool block becomes the tip *)

Section pool_block.
Context {B3 : Blake3} {V : BlockTransactionVerifier} {VR : VerifierReturns}.

(** C16: A block a worker solves with the extranonces at zero, for a job with at
    most one pool transaction, becomes the canonical tip of the chain the job was
    made for, and leaves the set of unspent outputs the job committed to: when
    the share meets the network's target, which is not zero; its time is after
    that of the tip and at most [MAX_FUTURE_DRIFT] ahead of the clock; the block
    can be encoded, is not stored yet, and neither it nor the tip is marked
    invalid; the height is not one that recomputes the target; the template
    applies to the set, its transactions are final and none has the zero
    identifier; the recorded fees are not more than the actual ones, which fit 64
    bits with the subsidy; the node's verifier accepts; and the cumulative work
    does not overflow. *)
Theorem pool_block_accepted (gb : Block) (k : N) (st : ChainState) (pool : Mempool) (compact : N) (lock : list byte)
    (time now timestamp nonce fees : N) (t0 t : BlockTemplate) (jid : string) (clean : bool) (job : StratumJob)
    (tip : BlockNode) (path : list BlockNode) (s' : UtxoSet) (zeros := replicate 4 x00)
    (raw := job_header job (build_merkle_root job zeros zeros) timestamp nonce)
    (block := mkBlock (header_of_raw raw) (t_transactions t))
    (Ht0 : build_template st.1 st.2 pool compact lock time = Ok t0)
    (Ht : pool_template (E := Empty_set) st.2 t0 = Ok t) (Hjob : make_job jid clean t = Ok (Some job))
    (Hsmall : (length (t_transactions t) ≤ 2)%nat)
    (Hz : Forall (λ tx, txid (E := ConsensusError) tx ≠ Ok ZERO) (drop 1 (t_transactions t)))
    (HT : on_tip gb k st block tip path now)
    (Hstep : block_step st.2 (t_transactions t) (t_height t) fees s')
    (Hfinal : Forall final (drop 1 (t_transactions t)))
    (Hfees : recorded_fees pool (drop 1 (t_transactions t)) ≤ fees ∧ get_block_subsidy (t_height t) + fees ≤ U64_MAX)
    (Htarget : target_val (from_compact compact) ≠ 0)
    (Hwork : is_Some (work_checked_add (cumulative_work tip) (block_work (from_compact compact))))
    (Hverify : verify_block_transactions block st.2 = Ok tt) :
  let result := process_block_with_verifier (Some now) block st in
  result.2 = Ok (Some (mkReorgResult (canonical_tip st.1) (compute_pow_hash raw) [] [block] [])) ∧
  canonical_tip result.1.1 = compute_pow_hash raw ∧ result.1.2 = s' ∧ compute_utxo_root (E := ChainError) s' = Ok (t_root t).
Proof.
  destruct (build_template_Ok _ _ _ _ _ _ _ Ht0) as (tip' & sel & fees0 & s0 & HM).
  assert (tip' = tip) as -> by (pose proof (tpl_tip _ _ _ _ _ _ _ _ _ _ _ HM); pose proof (ot_tip _ _ _ _ _ _ _ HT); congruence).
  destruct (pool_template_Ok _ _ _ Ht) as (cb & Hcb & Htx & [= E1 E2 E3 E4] & Hroot).
  rewrite (tpl_transactions _ _ _ _ _ _ _ _ _ _ _ HM) in Hcb, Htx. injection Hcb as <-.
  change (drop 1 (_ :: sel)) with sel in Htx. rewrite <- E2 in Htx.
  set (cb := new_coinbase (t_height t) _) in Htx.
  assert (Eblk : block = mkBlock (header_of_raw raw) (pool_coinbase (t_height t) cb (replicate 8 x00) :: sel)).
  { unfold block. by rewrite Htx. }
  clearbody block. subst block. rewrite Htx in *. cbn [drop length] in *. set (block := mkBlock _ _) in *.
  destruct (make_job_Ok _ _ _ _ _ _ Htx Hjob) as (outs & ids & _ & _ & _ & Ejob).
  assert (Ebits : j_bits job = compact).
  { rewrite Ejob. cbn [j_bits]. rewrite E3. apply (tpl_compact _ _ _ _ _ _ _ _ _ _ _ HM). }
  assert (Eroot : compute_utxo_root (E := ChainError) s' = Ok (t_root t)).
  { apply apply_block_Ok, Hroot in Hstep. by eapply utxo_root_any. }
  assert (Hh : t_height t = height tip + 1).
  { rewrite E2, (tpl_height _ _ _ _ _ _ _ _ _ _ _ HM). apply wrap64_small.
    destruct (reachable_inv gb k st (ot_reachable _ _ _ _ _ _ _ HT)) as [Hinv _]; [pose proof (ot_bound _ _ _ _ _ _ _ HT); lia|].
    pose proof (inv_height _ _ _ Hinv _ _ (ot_tip _ _ _ _ _ _ _ HT)). pose proof (ot_bound _ _ _ _ _ _ _ HT). lia. }
  assert (HA : authoritative block (height tip + 1) st.2 (mtp_of path) fees s').
  { split; [by eapply structure_of_step|]. split.
    { exact (small_commitment _ _ _ _ _ _ zeros zeros (header_of_raw raw) Htx Hjob eq_refl ltac:(lia) Hz). }
    rewrite <- Hh. split. { eapply Forall_impl; [exact Hfinal|]. intros tx [?|?]; [by left|by right; left]. }
    split; [done|]. split; [|apply Hfees]. cbn [transactions block head from_option].
    change (outputs (pool_coinbase (t_height t) cb (replicate 8 x00))) with (outputs cb). cbn. change (drop 0 sel) with sel in Hfees. lia. }
  pose proof (on_tip_accepted gb k st block tip path now fees s' HT HA) as HR. cbv zeta in HR.
  change (header block) with (header_of_raw raw) in HR. change (difficulty_target (header_of_raw raw)) with (j_bits job) in HR.
  rewrite Ebits in HR. change (utxo_root (header_of_raw raw)) with (j_utxo_root job) in HR.
  assert (Eu : j_utxo_root job = t_root t) by by rewrite Ejob. rewrite Eu in HR.
  destruct (HR Htarget Hwork Hverify Eroot) as (H1 & H2 & H3). cbv zeta. split_and!; done.
Qed.
End pool_block.

(** ** Other extranonces *)

Section extranonces.
Context {B3 : Blake3}.

(** Sets with one root have the same entries, unless BLAKE3 collides. *)
Lemma root_separates s0 s1 r o e :
  compute_utxo_root (E := UtxoError) s0 = Ok r → compute_utxo_root (E := UtxoError) s1 = Ok r → s0 !! o = Some e →
  outpoint_wf o → txout_wf (output e) → locking_condition (output e) ≠ [] → s1 ≠ ∅ →
  map_Forall (λ o e, outpoint_wf o ∧ txout_wf (output e) ∧ locking_condition (output e) ≠ []) s1 →
  ∃ p, generate_utxo_merkle_proof (to_entries_with_outpoints s0) o = Ok p ∧
    (no_collision (proof_preimages p) (root_preimages s1) → is_Some (s1 !! o)).
Proof.
  intros H0 H1 Ho Wo We Hl Hne Hwf.
  destruct (generate_complete (E := UtxoError) s0 (to_entries_with_outpoints s0) o e) as (p & root & Hp & Hroot & Hv & Eo & Eout); [done..|].
  rewrite H0 in Hroot. injection Hroot as <-. exists p. split; [done|]. intros HN.
  rewrite <- Eout in We, Hl. unfold txout_wf in We. cbn in We, Hl.
  destruct (verify_sound s1 p r H1 Hne Hwf) as (e' & He' & _); [by rewrite Eo|done..|]. rewrite Eo in He'. by exists e'.
Qed.

(** Where an entry of the set after a block comes from. *)
Lemma created_key id h cb i outs k e : (k, e) ∈ created id h cb i outs → op_txid k = id.
Proof.
  revert i; induction outs as [|o outs IH]; intros i; cbn [created]; [by intros ?%elem_of_nil|].
  destruct (is_op_return _); [apply IH|]. intros [[= -> _]|Hk]%elem_of_cons; [done|by eapply IH].
Qed.
Lemma created_lookup id h cb outs s k :
  is_Some ((list_to_map (created id h cb 0 outs) ∪ s : UtxoSet) !! k) → op_txid k = id ∨ is_Some (s !! k).
Proof.
  intros [e [He|[_ He]]%lookup_union_Some_raw]; [left|by right; exists e].
  apply elem_of_list_to_map_2 in He. by eapply created_key.
Qed.
Lemma transactions_step_origin h s txs fees s' k :
  transactions_step h s txs fees s' → is_Some (s' !! k) →
  is_Some (s !! k) ∨ ∃ tx, tx ∈ txs ∧ txid (E := UtxoError) tx = Ok (op_txid k).
Proof.
  induction 1 as [|s tx txs fee fees s1 s' _ (id & Hid & _ & -> & _) _ IH]; [by left|]. intros [H|(tx' & Hin & Htx')]%IH.
  - apply created_lookup in H as [E|H].
    + right. exists tx. split; [left|]. by rewrite E.
    + left. destruct H as [e He]. exists e. rewrite lookup_remove_inputs in He. by case_bool_decide.
  - right. exists tx'. split; [by right|done].
Qed.
Lemma block_step_origin s txs h fees s' k :
  block_step s txs h fees s' → is_Some (s' !! k) →
  is_Some (s !! k) ∨ ∃ tx, tx ∈ txs ∧ txid (E := UtxoError) tx = Ok (op_txid k).
Proof.
  intros (cb & rest & s1 & -> & _ & (id & Hid & _ & -> & _) & HT & _) [H|(tx & Hin & Htx)]%(transactions_step_origin _ _ _ _ _ _ HT).
  - apply created_lookup in H as [E|H]; [|by left]. right. exists cb. split; [left|]. by rewrite E.
  - right. exists tx. split; [by right|done].
Qed.

Context {V : BlockTransactionVerifier} {VR : VerifierReturns}.

(** The set of unspent outputs a job commits to is the one after its block
    with the extranonces at zero. A block with other extranonces has another
    coinbase: it never becomes the tip when the coinbase output is in the set and
    BLAKE3 does not collide, so a solution found with an extranonce is lost. *)
Theorem pool_extranonce_refused (genesis tip : BlockNode) (k : N) (st : ChainState) (now : option N) (t : BlockTemplate)
    (cb : Transaction) (txs : list Transaction) (en : list byte) (hd : BlockHeader) (fees0 : N) (s0 : UtxoSet) (id0 : Hash)
    (e0 : UtxoEntry) (o0 := mkOutPoint id0 0) (block := mkBlock hd (pool_coinbase (t_height t) cb en :: txs))
    (Hinv : chain_inv genesis k st) (Hk : k < U64_MAX) (Henc : block_encodable block)
    (Hnew : nodes st.1 !! blake3 (header_bytes hd) = None)
    (Htip : nodes st.1 !! canonical_tip st.1 = Some tip) (Hh : t_height t = height tip + 1)
    (Hpar : previous_block_hash hd = canonical_tip st.1) (Hroot : utxo_root hd = t_root t)
    (H0 : block_step st.2 (pool_coinbase (t_height t) cb (replicate 8 x00) :: txs) (t_height t) fees0 s0)
    (Hr0 : compute_utxo_root (E := UtxoError) s0 = Ok (t_root t))
    (Hid0 : txid (E := UtxoError) (pool_coinbase (t_height t) cb (replicate 8 x00)) = Ok id0)
    (Hpaid : s0 !! o0 = Some e0) (Hfresh : st.2 !! o0 = None) (He0 : txout_wf (output e0) ∧ locking_condition (output e0) ≠ [])
    (Hids : ∀ tx, tx ∈ transactions block → txid (E := UtxoError) tx ≠ Ok id0)
    (Hwf : ∀ fees s1, block_step st.2 (transactions block) (t_height t) fees s1 →
       s1 ≠ ∅ ∧ map_Forall (λ o e, outpoint_wf o ∧ txout_wf (output e) ∧ locking_condition (output e) ≠ []) s1)
    (HN : ∀ fees s1 p, block_step st.2 (transactions block) (t_height t) fees s1 →
       generate_utxo_merkle_proof (to_entries_with_outpoints s0) o0 = Ok p →
       no_collision (proof_preimages p) (root_preimages s1)) :
  ∀ reorg, (process_block_with_verifier now block st).2 ≠ Ok (Some reorg).
Proof.
  intros reorg Hr. pose proof (process_step genesis k st now block Hinv Hk Henc) as HS. unfold stepped in HS.
  destruct (process_block_with_verifier now block st) as [st' r']. cbn [snd] in Hr. subst r'.
  inversion HS as [| | | |n common m da db s s' txs' Hext Hb _ _ _ _ _ Hcon]; subst.
  destruct (ext_valid _ _ _ _ _ Hext) as [fees HA]. rewrite Hb in HA. destruct HA as (_ & _ & _ & Hstep & _).
  destruct Hcon as [_ Hroot1]. rewrite Hb in Hroot1. cbn [header block] in Hroot1. rewrite Hroot in Hroot1.
  destruct (inv_tip _ _ _ Hinv) as [path HL]. pose proof (ext_ledger _ _ _ _ _ Hext) as HL'.
  destruct (ext_link _ _ _ _ _ Hext) as (p & Hp & Hhn & _). pose proof (ext_parent _ _ _ _ _ Hext) as Ep.
  rewrite Hb in Ep. cbn [header block] in Ep. rewrite Hpar in Ep. rewrite Ep in HL', Hp.
  rewrite Htip in Hp. injection Hp as <-. rewrite Hhn, <- Hh in Hstep.
  destruct (ledger_det _ _ _ _ _ _ HL HL') as [_ <-]. destruct (Hwf _ _ Hstep) as [Hne HW]. destruct He0 as [We Hl].
  destruct (root_separates s0 s' (t_root t) o0 e0) as (pr & Hpr & Hin); try done.
  { by eapply utxo_root_any. }
  destruct (block_step_origin _ _ _ _ _ _ Hstep (Hin (HN _ _ _ Hstep Hpr))) as [Hs|(tx & Htx & Etx)].
  - rewrite Hfresh in Hs. by destruct Hs.
  - by apply (Hids tx).
Qed.
End extranonces.

(** ** Witnesses *)

Section witnesses.
#[local] Existing Instances toy_blake3 toy_ed25519 toy_bincode toy_redb toy_redb_laws toy_uint toy_json toy_hex.
#[local] Existing Instances toy_store toy_engine toy_payload_context.
Notation toy_verifying := (AuthoritativeTransactionVerifier (B3 := toy_blake3)) (only parsing).

(** The template of the toy miner with its one pool transaction, as a job. *)
Definition pool_toy : BlockTemplate :=
  match pool_template (E := Empty_set) toy_s0 toy_template with Ok t => t | _ => toy_template end.
Definition pool_cb : Transaction := match t_transactions toy_template with cb :: _ => cb | [] => miner_tx end.
Definition pool_toy_job : StratumJob :=
  match make_job "1" true pool_toy with Ok (Some j) => j | _ => toy_job end.
Definition zeros : list byte := replicate 4 x00.

Lemma pool_toy_Ok : pool_template (E := Empty_set) toy_s0 toy_template = Ok pool_toy.
Proof. vm_compute. reflexivity. Qed.
Lemma pool_toy_job_Ok : make_job "1" true pool_toy = Ok (Some pool_toy_job).
Proof. vm_compute. reflexivity. Qed.
Lemma pool_toy_txs : t_transactions pool_toy = pool_coinbase (t_height pool_toy) pool_cb (replicate 8 x00) :: [miner_tx].
Proof. vm_compute. reflexivity. Qed.

Definition pool_toy_commitment (en : list byte) : Hash :=
  match transaction_commitment_of (E := ConsensusError)
          (mkBlock (header toy_genesis) (pool_coinbase (t_height pool_toy) pool_cb (zeros ++ en) :: [miner_tx])) with
  | Ok c => c | _ => ZERO end.

Lemma stratum_commitment_witness :
  pool_toy_commitment [x00; x00; x00; x07] = build_merkle_root pool_toy_job zeros [x00; x00; x00; x07].
Proof.
  destruct (stratum_commitment "1" true pool_toy pool_cb [miner_tx] pool_toy_job zeros [x00; x00; x00; x07] (header toy_genesis)
    (pool_toy_commitment [x00; x00; x00; x07]) pool_toy_txs pool_toy_job_Ok eq_refl) as (_ & _ & H & _).
  - apply (pool_coinbase_wf _ _ (value (match outputs pool_cb with o :: _ => o | [] => mkTxOut 0 [] end)) [x51]);
      [vm_compute; reflexivity|vm_compute; discriminate].
  - vm_compute. reflexivity.
  - apply H; [apply le_n|]. apply Forall_singleton. vm_compute. discriminate.
Defined.

Definition pool_toy_raw : RawBlockHeader120 :=
  job_header pool_toy_job (build_merkle_root pool_toy_job zeros zeros) 60 7.
Definition pool_toy_block : Block := mkBlock (header_of_raw pool_toy_raw) (t_transactions pool_toy).

Lemma pool_toy_on_tip :
  on_tip (B3 := toy_blake3) (V := toy_verifying) toy_genesis 0 (toy_tree, toy_s0) pool_toy_block
    (genesis_node (B3 := toy_blake3) toy_genesis) [genesis_node (B3 := toy_blake3) toy_genesis] 100.
Proof.
  split.
  - exact toy_reach0.
  - reflexivity.
  - vm_compute. reflexivity.
  - exact toy_genesis_ledger.
  - vm_compute. reflexivity.
  - apply encodableb_spec. vm_compute. reflexivity.
  - vm_compute. reflexivity.
  - split; vm_compute; reflexivity.
  - intros [H _]. by vm_compute in H.
  - vm_compute. reflexivity.
  - vm_compute. reflexivity.
  - vm_compute. reflexivity.
  - vm_compute. discriminate.
  - vm_compute. discriminate.
Qed.

Lemma pool_toy_step : ∃ s', block_step (B3 := toy_blake3) toy_s0 (t_transactions pool_toy) (t_height pool_toy) 100 s'.
Proof.
  eexists. apply apply_block_Ok. apply pair_snd. vm_compute. reflexivity.
Qed.

Lemma pool_block_accepted_witness :
  canonical_tip (process_block_with_verifier (B3 := toy_blake3) (V := toy_verifying) (Some 100) pool_toy_block (toy_tree, toy_s0)).1.1 =
    compute_pow_hash pool_toy_raw.
Proof.
  destruct pool_toy_step as [s' Hs'].
  destruct (pool_block_accepted (B3 := toy_blake3) (V := toy_verifying) toy_genesis 0 (toy_tree, toy_s0) miner_pool 0x217fffff [x51]
    50 100 60 7 100 toy_template pool_toy "1" true pool_toy_job (genesis_node (B3 := toy_blake3) toy_genesis)
    [genesis_node (B3 := toy_blake3) toy_genesis] s' toy_build_Ok pool_toy_Ok pool_toy_job_Ok) as (_ & H & _); [..|exact H].
  - rewrite pool_toy_txs. apply le_n.
  - rewrite pool_toy_txs. apply Forall_singleton. vm_compute. discriminate.
  - exact pool_toy_on_tip.
  - exact Hs'.
  - rewrite pool_toy_txs. apply Forall_singleton. left. reflexivity.
  - split; vm_compute; discriminate.
  - vm_compute. discriminate.
  - vm_compute. by eexists.
  - vm_compute. reflexivity.
Defined.

(** A service that has ticked [n] times while the node's tip reads as [ZERO]. *)
Definition toy_tick (svc : Service) : outcome Empty_set Service := tick [x51] 50 ZERO Node.toy_start toy_s0 svc.
Fixpoint ticked (n : nat) : Service :=
  match n with
  | O => start_service f64_zero
  | S n => match toy_tick (ticked n) with Ok svc => svc | _ => ticked n end
  end.

Lemma ticked_serving n : N.of_nat n < 1000 → serving f64_zero (ticked n) ∧ job_counter (ticked n) ≤ N.of_nat n + 1.
Proof.
  induction n as [|n IH]; intros Hn; [split; [constructor|done]|].
  destruct IH as [Hs Hc]; [lia|]. cbn [ticked]. destruct (toy_tick (ticked n)) as [svc|e| |] eqn:E; [|split; [done|lia]..].
  assert (Hw : job_counter (ticked n) + 1 < MOD64) by lia. split; [by eapply serving_tick|].
  apply tick_cases in E as [->|(t & job & _ & _ & -> & _)]; [lia|]. cbn [job_counter]. rewrite wrap64_small by done. lia.
Qed.

(** One tick, one worker, one solved share. *)
Definition toy_connected : Service :=
  match connect (server (ticked 1)) with Some srv => with_server srv (ticked 1) | None => ticked 1 end.
Definition toy_solved : Service :=
  match handle_request (server toy_connected) 1 toy_request with Ok srv => with_server srv toy_connected | _ => toy_connected end.
Definition toy_event : BlockFoundEvent :=
  match block_candidates (server toy_solved) with
  | e :: _ => e
  | [] => mkFound pool_toy_raw ZERO toy_job EmptyString [] []
  end.

Lemma toy_solved_serving : serving f64_zero toy_solved.
Proof.
  destruct (ticked_serving 1) as [H1 _]; [reflexivity|].
  assert (H2 : serving f64_zero toy_connected).
  { unfold toy_connected. destruct (connect (server (ticked 1))) as [srv|] eqn:E; [|exact H1].
    apply serving_worker; [exact H1|]. apply worker_connect; [vm_compute; reflexivity|exact E]. }
  unfold toy_solved. destruct (handle_request (server toy_connected) 1 toy_request) as [srv|e| |] eqn:E; [|exact H2..].
  apply serving_worker; [exact H2|]. by eapply worker_request.
Qed.
Lemma toy_event_queued : toy_event ∈ block_candidates (server toy_solved).
Proof.
  assert (HL : (length (block_candidates (server toy_solved)) =? 1)%nat = true) by (vm_compute; reflexivity).
  unfold toy_event. destruct (block_candidates (server toy_solved)) as [|e l]; [discriminate HL|]. left.
Qed.
Lemma toy_event_cached : is_Some (jobs_cache toy_solved !! job_id (found_job toy_event)).
Proof. apply (bool_decide_eq_true_1 (is_Some _)). vm_compute. reflexivity. Qed.

Lemma pool_candidate_block_witness :
  ∃ b, block_of_candidate (jobs_cache toy_solved) toy_event = Some b ∧ blake3 (header_bytes (header b)) = pow_hash toy_event.
Proof.
  destruct (pool_candidate_block f64_zero toy_solved toy_event toy_solved_serving toy_event_queued)
    as (s & t0 & t & cb & txs & ts & n & _ & _ & _ & _ & _ & Hp & _ & Hb).
  rewrite (bool_decide_eq_true_2 _ toy_event_cached) in Hb. eexists. split; [exact Hb|]. symmetry. exact Hp.
Defined.

(** The sixty-sixth tick. *)
Notation toy_pruned := (ticked (S 65)) (only parsing).
Definition pruned_event : BlockFoundEvent :=
  match jobs (server toy_pruned) !! "40"%string with
  | Some job => mkFound pool_toy_raw ZERO job EmptyString zeros zeros
  | None => toy_event
  end.
Lemma ticked_S n :
  is_ok (toy_tick (ticked n)) = true → tick [x51] 50 ZERO Node.toy_start toy_s0 (ticked n) = Ok (ticked (S n)).
Proof.
  change (tick [x51] 50 ZERO Node.toy_start toy_s0 (ticked n)) with (toy_tick (ticked n)). intros H. change (ticked (S n)) with (match toy_tick (ticked n) with Ok svc => svc | _ => ticked n end).
  by destruct (toy_tick (ticked n)).
Qed.

(** The job under the name 40 is on offer, the one under 42 the newest. *)
Lemma pruned_facts :
  is_ok (toy_tick (ticked 65)) = true ∧ (64 <? size (jobs_cache (ticked 65)))%nat = true ∧
  (job_counter toy_pruned =? job_counter (ticked 65)) = false ∧
  bool_decide (is_Some (jobs (server toy_pruned) !! "40"%string)) = true ∧
  bool_decide (option_map job_id (current_job (server toy_pruned)) = Some "42"%string) = true.
Proof. vm_compute. tauto. Qed.

Lemma pruned_cache_drops_candidates_witness : block_of_candidate (jobs_cache toy_pruned) pruned_event = None.
Proof.
  destruct pruned_facts as (H1 & H2%Nat.ltb_lt & H3%N.eqb_neq & H4%bool_decide_eq_true_1 & H5%bool_decide_eq_true_1).
  destruct (ticked_serving 65) as [Hs Hc]; [reflexivity|]. pose proof (ticked_S 65 H1) as HT.
  assert (Hw : job_counter (ticked 65) + 1 < MOD64).
  { revert Hc. generalize (job_counter (ticked 65)). intros c Hc. change (N.of_nat 65 + 1) with 66 in Hc. clear -Hc. lia. }
  pose proof (serving_tick f64_zero (ticked 65) toy_pruned [x51] 50 ZERO Node.toy_start toy_s0 Hs Hw HT) as Hs'.
  destruct H4 as [job Hjob]. pose proof (offered_under_name _ _ _ _ Hs' Hjob) as Eid.
  assert (Ee : found_job pruned_event = job) by (unfold pruned_event; rewrite Hjob; reflexivity).
  refine (pruned_cache_drops_candidates f64_zero (ticked 65) toy_pruned [x51] 50 ZERO Node.toy_start toy_s0 pruned_event
    Hs Hw HT H3 H2 _ _); [rewrite Ee, Eid; exact Hjob|].
  rewrite Ee. intros E. rewrite E in H5. cbn in H5. rewrite Eid in H5. discriminate H5.
Defined.

(** The same job, solved with the extranonce 7. *)
Definition seven : list byte := zeros ++ [x00; x00; x00; x07].
Definition zero_block_set : UtxoSet := (apply_block (t_transactions pool_toy) (t_height pool_toy) toy_s0).1.
Definition seven_txs : list Transaction := [pool_coinbase (t_height pool_toy) pool_cb seven; miner_tx].
Definition seven_header : BlockHeader :=
  header_of_raw (job_header pool_toy_job (build_merkle_root pool_toy_job zeros [x00; x00; x00; x07]) 60 7).
Definition seven_set : UtxoSet := (apply_block seven_txs (t_height pool_toy) toy_s0).1.
Definition zero_id : Hash :=
  match txid (E := UtxoError) (pool_coinbase (t_height pool_toy) pool_cb (replicate 8 x00)) with Ok id => id | _ => ZERO end.
Definition zero_entry : UtxoEntry :=
  match zero_block_set !! mkOutPoint zero_id 0 with Some e => e | None => mkUtxoEntry (mkTxOut 0 []) 0 false end.
Definition zero_proof : UtxoMerkleProof :=
  match generate_utxo_merkle_proof (to_entries_with_outpoints zero_block_set) (mkOutPoint zero_id 0) with
  | Ok p => p | _ => mkUtxoMerkleProof (mkOutPoint ZERO 0) 0 [] ZERO [] 0 end.

Definition entry_okb (p : OutPoint * UtxoEntry) : bool :=
  (op_index p.1 <? MOD32) && (value (output p.2) <? MOD64) && negb (bool_decide (locking_condition (output p.2) = [])).
Lemma entry_okb_spec (s : UtxoSet) :
  forallb entry_okb (map_to_list s) = true →
  map_Forall (λ o e, outpoint_wf o ∧ txout_wf (output e) ∧ locking_condition (output e) ≠ []) s.
Proof.
  rewrite forallb_forall. intros H o e He%elem_of_map_to_list%list_elem_of_In. apply H in He. unfold entry_okb in He.
  rewrite !andb_true_iff, !N.ltb_lt, negb_true_iff, bool_decide_eq_false in He. cbn in He. unfold outpoint_wf, txout_wf. tauto.
Qed.

Lemma seven_facts :
  bool_decide (zero_block_set !! mkOutPoint zero_id 0 = Some zero_entry) = true ∧
  bool_decide (toy_s0 !! mkOutPoint zero_id 0 = None) = true ∧
  forallb entry_okb (map_to_list seven_set) = true ∧ (1 <=? size seven_set)%nat = true ∧
  forallb (λ tx, match txid (E := UtxoError) tx with Ok id => negb (bool_decide (id = zero_id)) | _ => true end) seven_txs = true.
Proof. vm_compute. tauto. Qed.
Lemma zero_proof_Ok : generate_utxo_merkle_proof (to_entries_with_outpoints zero_block_set) (mkOutPoint zero_id 0) = Ok zero_proof.
Proof. vm_compute. reflexivity. Qed.
Lemma seven_no_collision : no_collision (proof_preimages zero_proof) (root_preimages seven_set).
Proof. apply no_collision_check. vm_compute. reflexivity. Qed.

Lemma seven_step fees s1 : block_step toy_s0 seven_txs (t_height pool_toy) fees s1 → s1 = seven_set.
Proof. intros H%apply_block_Ok. unfold seven_set. rewrite H. reflexivity. Qed.
Lemma zero_step : block_step toy_s0 (pool_coinbase (t_height pool_toy) pool_cb (replicate 8 x00) :: [miner_tx]) (t_height pool_toy) 100 zero_block_set.
Proof. rewrite <- pool_toy_txs. apply apply_block_Ok. apply pair_snd. vm_compute. reflexivity. Qed.

Definition seven_result : outcome ChainError (option ReorgResult) :=
  (process_block_with_verifier (V := toy_verifying) (Some 100) (mkBlock seven_header seven_txs) (toy_tree, toy_s0)).2.

Lemma pool_extranonce_refused_witness : match seven_result with Ok (Some _) => false | _ => true end = true.
Proof.
  assert (H : ∀ reorg, seven_result ≠ Ok (Some reorg)); [|clear -H; destruct seven_result as [[r|]|e| |]; [by destruct (H r)|done..]].
  destruct seven_facts as (H1%bool_decide_eq_true_1 & H2%bool_decide_eq_true_1 & H3%entry_okb_spec & H4%Nat.leb_le & H5).
  refine (pool_extranonce_refused (V := toy_verifying) (genesis_node toy_genesis) (genesis_node toy_genesis) 0 (toy_tree, toy_s0) (Some 100)
    pool_toy pool_cb [miner_tx] seven seven_header 100 zero_block_set zero_id zero_entry (proj1 (reachable_inv _ _ _ toy_reach0 _))
    eq_refl _ _ _ _ _ _ zero_step _ _ H1 H2 _ _ _ _).
  - discriminate.
  - apply encodableb_spec. vm_compute. reflexivity.
  - vm_compute. reflexivity.
  - vm_compute. reflexivity.
  - vm_compute. reflexivity.
  - vm_compute. reflexivity.
  - vm_compute. reflexivity.
  - vm_compute. reflexivity.
  - vm_compute. reflexivity.
  - split; [vm_compute; reflexivity|]. intros E. apply (f_equal (@length byte)) in E. vm_compute in E. discriminate E.
  - intros tx Htx%list_elem_of_In. rewrite forallb_forall in H5. apply H5 in Htx. intros E. rewrite E in Htx.
    by rewrite bool_decide_eq_true_2 in Htx.
  - intros fees s1 ->%seven_step. split; [|exact H3]. intros E. rewrite E, map_size_empty in H4. lia.
  - intros fees s1 p Hs1 Hp. pose proof (Ok_inj _ _ (eq_trans (eq_sym Hp) zero_proof_Ok)) as ->. rewrite (seven_step _ _ Hs1).
    exact seven_no_collision.
Defined.
End witnesses.
